(* ===== verification/_CoqProject ===== *)
-Q . S2P
Prelude.v
Bitops.v
Cpu.v
BitRoute.v
Psr.v
NeonLanes.v
NeonSwar.v
NeonArith.v
NeonShift.v
NeonBits.v
NeonWide.v
NeonPermute.v
HostUtils.v
TcgIr.v
TcgOpt.v
TcgCopies.v
TcgFold.v
TcgOptProof.v
TcgOptimizer.v
TcgLife.v
TcgLifeProof.v
TcgLiveness.v
TcgRegAlloc.v
TcgHostCode.v
TcgArm.v
TcgTemps.v
TcgRegProof.v
TcgRegMoves.v
TcgRegEffects.v
TcgRegOps.v
TcgRegCode.v
TcgRegCalls.v
TcgGenCode.v
TcgArmGen.v
ArmIsa.v
TcgArmOut.v
TcgArmWords.v
TcgArmOps.v
TcgArmMovi.v
TcgArmOp.v
TcgArmBits.v
TcgArmCond.v
TcgArmDouble.v
TcgArmMem.v
TcgArmExact.v
TcgArmGuestLd.v
TcgArmGuestSt.v
TcgArmGuest.v
TcgArmTotal.v
TcgArmKeep.v
TcgArmFits.v
ArmRun.v
TcgArmBranch.v
TcgArmJump.v
TcgArmEmit.v
TcgArmPlace.v
TbFlags.v
NeonDetect.v
SearchData.v
Qht.v
TbChain.v
TbPages.v
TbLink.v
TbGen.v
TbFind.v
