(* ===== verification/Prelude.v ===== *)
(** * tcg-arm: a verification library for the QEMU Tiny Code Generator build

    The program is a cut of QEMU built as a library for a 32-bit ARM host
    without NEON (src/qemu/AndroidLib.mak).  Guest ARM code that uses NEON is
    decoded (target-arm/translate.c) into operations of an intermediate
    representation (tcg/), the operations of a block are optimized
    (tcg/optimize.c) and turned into host code; what is too complicated for an
    operation is done by C helpers (target-arm/neon_helper.c).  Translated
    blocks are kept: they are found by a hash of the guest state they depend
    on (util/qht.c, include/exec/tb-hash.h), jump to each other directly
    (include/exec/exec-all.h) and are thrown away when the guest code they
    come from is written (translate-all.c).  The library is entered with the
    registers of a thread at an instruction the host lacks (tcg-arm/).

    ** Files

    - Prelude.v (this file): C integers as [Z] with explicit wrap-around
      ([wrap], [swrap]), saturation, notations of the scope [c_scope], lists
      updated by index, the state monad of the helpers, the tactics and the
      hint database [crange] shared by all files.
    - Bitops.v: include/qemu/bitops.h, bit fields and rotations.
    - HostUtils.v: util/host-utils.c, 128-bit products and quotients on a host
      without 128-bit integers.
    - Cpu.v: the part of [CPUARMState] (target-arm/cpu.h) that the modelled
      code reads and writes, as records.
    - NeonLanes.v, NeonArith.v, NeonShift.v, NeonBits.v, NeonWide.v,
      NeonPermute.v: target-arm/neon_helper.c, one definition for each helper,
      under the helper's name; the macros [NEON_VOP], [NEON_POP] and so on are
      definitions over the lane type, [NEON_FN] is a function argument.  A
      helper with a [CPUARMState *] argument returns the new state: its only
      effect is the saturation flag in FPSCR.  NeonSwar.v and BitRoute.v hold
      the two proof methods: lanes packed in one word, and words whose bits
      are a rearrangement of other words' bits, decided by reflection.
    - TcgIr.v: the operations (tcg/tcg-opc.h, tcg/tcg.h) and their meaning from
      tcg/README: [eval_op] runs one operation, [run] a block.  What lies
      outside the temporaries, memory, helpers and chained blocks, is the
      class [TcgHost].
    - TcgOpt.v: tcg/optimize.c, function by function; the body of
      [tcg_optimize] is split into its phases.
    - TcgCopies.v, TcgFold.v, TcgOptProof.v: the invariant of the recorded
      facts, the folding of constants and known-zero masks, the simulation of
      a block by the optimized block.  TcgOptimizer.v states what follows.
    - TcgLife.v: [liveness_pass_1] (tcg/tcg.c).  TcgLifeProof.v and
      TcgLiveness.v: the dead and sync marks it leaves, and that a block
      narrowed by it behaves as before.
    - TcgRegAlloc.v: the register allocator and the loop of [tcg_gen_code]
      (tcg/tcg.c), on the state [ra_state] (temporaries, registers, frame) in
      a monad that logs host instructions and fails where an assertion would.
      TcgHostCode.v: what these instructions do.  TcgRegProof.v, TcgRegMoves.v,
      TcgRegEffects.v, TcgRegOps.v, TcgRegCode.v, TcgRegCalls.v: the invariant
      of the allocator and the simulation of one operation, a move, a call.
      TcgGenCode.v: the simulation of a block.
    - TcgArm.v: the registers and constraints of the ARM back end
      (tcg/arm/tcg-target.inc.c) with their parser.  TcgTemps.v: the table of
      globals and temporaries.  TcgArmGen.v: the allocator on the registers,
      the constraints and the globals of this build.
    - ArmIsa.v: what the emitted instruction words do, from the architecture
      manual: decoding, operands, flags, loads and stores, and which words are
      unpredictable on which version.  TcgArmOut.v: the functions that emit
      them, [tcg_out_op] among them.  TcgArmWords.v, TcgArmOps.v, TcgArmMovi.v,
      TcgArmOp.v, TcgArmBits.v, TcgArmCond.v, TcgArmDouble.v, TcgArmMem.v: the
      words of each group of operations.  TcgArmExact.v: all operations.
      TcgArmGuestLd.v, TcgArmGuestSt.v, TcgArmGuest.v: accesses to guest
      memory.
    - TcgArmTotal.v: the back end has words for every operation.  TcgArmKeep.v,
      TcgArmFits.v: the instructions that the allocator hands to the back end
      are ones that the back end takes.  ArmRun.v: the processor
      with its program counter.  TcgArmBranch.v: branches to labels and their
      relocations, exits, calls, the prologue.  TcgArmJump.v: where branches
      and calls lead.  TcgArmEmit.v: the layout of the code of a block.
      TcgArmPlace.v: the emitted code run in its place.
    - Psr.v: CPSR and FPSCR (target-arm/helper.c), kept in pieces and put
      together when they are read.
    - TbFlags.v: [cpu_get_tb_cpu_state] (target-arm/cpu.h) with all it asks,
      and the accessors by which the decoder takes the flags apart.
    - NeonDetect.v: the classification of instructions in tcg-arm/cpu-exec.c.
    - SearchData.v: the compressed table behind the code of a block
      (translate-all.c, [encode_search], [cpu_restore_state_from_tb]).
    - Qht.v: the hash table util/qht.c; the class [HashTable] is what its
      clients rely on, [qht_table] the instance.
    - TbChain.v: the jump lists of the blocks and the patching of their
      branches.  TbPages.v: the page table, the blocks of a page, invalidation.
      TbLink.v: the publication of a new block.  Links are addresses with the
      number of the list in the low bits, as in the source.
    - TbGen.v: the allocation and generation of blocks, flushing, and the way
      back from a host address to the guest state.  TbFind.v: the lookup of
      the block for the state of a CPU (tcg-arm/cpu-exec.c).

    ** What is shown

    - NEON helpers: each returns, lane by lane, the mathematical result of its
      instruction, clamped or reduced as the instruction says, and sets the
      saturation flag exactly when a lane was clamped.  [lanes2], [lanes1],
      [pairs], [saturates2] and [saturates1] of NeonLanes.v are these
      contracts, stated over unpacked lanes; the theorems instantiate them for
      every helper and lane width.  Loops stop within their fuel.
    - Permutations: VZIP and VUZP move every element to its place, change no
      other register, and undo each other.
    - 128-bit arithmetic: exact products; quotients, remainders and overflow
      reports exactly as the code gives them, the missed overflow of [divu128]
      and the false one of [divs128] included.
    - Optimizer: the pass is total, every fact it records is true, and the
      optimized block has the behaviour of the original wherever that one is
      defined: same stores, same world, same exit, for any number of branches.
      Shifts and rotations by 32 or more count as not defined.

    - Liveness: the narrowed block, run with every dead temporary destroyed,
      still does what the original does; what is marked for memory is there.
    - Register allocation: the host code of a block, run from a state in which
      globals are in memory, ends with the guest state the operations specify,
      on every way out; the allocator never fails an assertion.  An operation
      in the host code is taken with its meaning in tcg/README ([host_step]);
      whether the words emitted for it have it is the next point but one.  Its
      operands meet the constraints, it writes no reserved register, and
      temporaries are spilled only inside the frame.
    - Temporaries: those in use share no word; the table has place for them.
    - Instructions: the words emitted for an operation, for any registers and
      constants within its constraints and for each version of the
      architecture, compute what the operation specifies and change nothing
      else but the scratch register and the flags; constants, host and guest
      accesses likewise.  What three sequences compute instead is stated
      exactly: signed [setcond2], byte-swapped double words loaded at base
      zero, byte-swapped stores behind a base before ARMv6.
    - Emission: in the finished code every branch leads to its label, every
      call to its function and back behind it, the exit to the epilogue, and
      every other instruction to the next one.

    - Status registers: a raw write of CPSR and a write of FPSCR read back as
      written; guest code in user mode cannot change the mode, with any
      value, mask and features.
    - Flags of a block: every field is read back, none overlap.
    - Search data: the guest instruction is found from every host address.
    - QHT: the table is a set of pointers with hashes, through resizing.
    - Jump lists: they implement a relation from jumps to blocks, and every
      branch instruction leads where the relation says.
    - Pages: publishing a block and invalidating a range keep hash table, page
      lists, caches, jump lists and write protection in agreement ([ctx_ok]),
      and a range that ends at or before the last page takes out exactly the
      blocks whose code it meets and leaves all else as it was (a range into
      the last page does not end, [invalidate_range_top_loops]).
    - Generation and lookup: [tb_gen_code] returns a block for the state it was
      asked for, after at most one flush, where the translator decodes an
      instruction ([guest_code]); [tb_find_fast] serves such a state with a
      block for it, links the jump that led there to this block and keeps all
      tables in agreement; a host address inside the code of a block restores
      its instruction.

    ** Bounds and fuel

    The fuel of the polynomial loops is 8 and of the leading-zero loops the
    lane width, the number of bits that can be shifted out.  A walk along a
    copy list has fuel [TCG_MAX_TEMPS], proved enough because a list visits a
    temporary at most once; the loop of the optimizer has twice the number of
    operations, since an operation is visited at most twice.  [run] counts
    branches, so that loops of a block are cut at any depth and the theorem
    holds for all depths.  A walk around a jump list or along a page list has
    fuel [ring_fuel], 2 + 2 * the number of blocks in use, since a block is in
    a list at most twice; a number of the search data takes at most 5 bytes.
    [temp_sync] calls itself through the spill of a register; its fuel is 2,
    since a spilled temporary is in a register and needs no other.  A constant
    takes at most four pieces, the fuel of [movi_pieces], since each clears
    eight bits.  [tb_gen_code] has two rounds, since the buffer is empty in the second; the
    binary search of [tb_find_pc] has 33, one for each bit of the count.

    ** Assumptions

    - Signed overflow, which the build does not define with -fwrapv, is
      modelled as wrap-around where a helper relies on it ([neon_abd_s32], the
      negations of [divs128]).
    - A block is well formed ([wf_op]): argument lists as long as the opcode
      says, temporaries below [nb_temps], distinct outputs, comparisons that
      are comparisons.  Calls with padding arguments are not, see
      [dummy_arg_is_a_copy].
    - Undefined behaviour of an operation (division by zero or with overflow)
      makes the block's behaviour arbitrary, as tcg/README says.  So do, in this
      model, shifts and rotations by 32 or more, for which tcg/README only says
      that the result is unspecified: the theorems about blocks say nothing of
      a block that reaches one.

    - Helpers keep the promises of their flags ([HelperFlags]); temporaries are
      written before they are read ([defined_first]); a block is accepted by
      [alloc_wf]: at most 128 temporaries, none local, globals at distinct
      offsets.  The front end takes local temporaries in three places
      (target-arm/translate.c:8750, 9676, 9734); blocks with those are outside
      the theorems about generated code.  Registers that hold bases are identified by number, and
      [liveness_pass_2] does not run, since no global of the ARM front end lies
      behind another.
    - Accesses to memory are aligned on processors before ARMv6; the host is
      little-endian.

    - The code buffer is at most 16 megabytes, so that a branch reaches all of
      it; allocation does not fail; the operations on the tables run one at a
      time, under the locks the source takes; the host page size, an argument,
      is a power of two from 4096 on.

    - The translator is an argument of [tb_gen_code]; the theorems rely on
      [translation_ok] and [translate_fits] (TbGen.v), which it has to meet
      where it decodes an instruction ([decodes]): the block has 1 to 4096
      guest bytes, the offsets it reports lie in the code it wrote, and a block
      fits into the empty buffer.  At 0xffff0000 and above and for a pending
      single step the translator of this repository gives size 0, which is
      outside the theorems.
    - A block that is published ends a host page below the top of the address
      space: in the last page the bound of the protection loop wraps.

    ** Not modelled

    The floating-point helpers and softfloat; the instruction decoder
    (translate.c) and the builders of operations (tcg/tcg-op.c), so that a
    theorem about a block speaks of its operations and not of the guest code
    it was decoded from; in the back end the indirect jump method and the paths
    for softmmu; local temporaries in the theorem about generated code; system
    emulation, the object model, the gdb stub, the other helpers. *)

From Stdlib Require Export ZArith Lia Bool List.
Export ListNotations.
Local Open Scope Z_scope.
Local Open Scope bool_scope.

(** ** C integers

    A value of an unsigned [w]-bit type is a [Z] in [0 .. 2^w - 1]; a value of
    a signed one is a [Z] in [-2^(w-1) .. 2^(w-1) - 1].  A conversion is
    [wrap w] (to unsigned) or [swrap w] (to signed, two's complement). *)

Definition wrap (w x : Z) : Z := x mod 2 ^ w.

Definition swrap (w x : Z) : Z := (x + 2 ^ (w - 1)) mod 2 ^ w - 2 ^ (w - 1).

Abbreviation u8 := (wrap 8).
Abbreviation u16 := (wrap 16).
Abbreviation u32 := (wrap 32).
Abbreviation u64 := (wrap 64).
Abbreviation s8 := (swrap 8).
Abbreviation s16 := (swrap 16).
Abbreviation s32 := (swrap 32).
Abbreviation s64 := (swrap 64).

Declare Scope c_scope.
Delimit Scope c_scope with C.
Notation "a .& b" := (Z.land a b) (at level 40, left associativity) : c_scope.
Notation "a .^ b" := (Z.lxor a b) (at level 45, left associativity) : c_scope.
Notation "a .| b" := (Z.lor a b) (at level 47, left associativity) : c_scope.
Notation "a .<< b" := (Z.shiftl a b) (at level 36, left associativity) : c_scope.
Notation "a .>> b" := (Z.shiftr a b) (at level 36, left associativity) : c_scope.
Local Open Scope c_scope.

(** C truth: a non-zero integer. *)
(** A comparison as an [int]. *)
Definition b2z (b : bool) : Z := if b then 1 else 0.

Definition truthy (x : Z) : bool := negb (x =? 0).

Definition inU (w x : Z) : Prop := 0 <= x < 2 ^ w.
Definition inS (w x : Z) : Prop := - 2 ^ (w - 1) <= x < 2 ^ (w - 1).

(** Saturation to the range of a type, as the architecture defines it. *)
Definition usat (w x : Z) : Z := Z.max 0 (Z.min (2 ^ w - 1) x).
Definition ssat (w x : Z) : Z := Z.max (- 2 ^ (w - 1)) (Z.min (2 ^ (w - 1) - 1) x).

(** ** Conversions: ranges and congruences *)

Lemma pow2_pos w : 0 <= w -> 0 < 2 ^ w.
Proof. intros; apply Z.pow_pos_nonneg; lia. Qed.

Lemma pow2_split w : 0 < w -> 2 ^ w = 2 * 2 ^ (w - 1).
Proof. intros; rewrite <- Z.pow_succ_r by lia; f_equal; lia. Qed.

Lemma wrap_range w x : 0 <= w -> inU w (wrap w x).
Proof. intros; apply Z.mod_pos_bound, pow2_pos; lia. Qed.

Lemma swrap_range w x : 0 < w -> inS w (swrap w x).
Proof.
  intros; unfold inS, swrap.
  pose proof (Z.mod_pos_bound (x + 2 ^ (w - 1)) (2 ^ w) (pow2_pos w ltac:(lia))).
  pose proof (pow2_split w); lia.
Qed.

Lemma inU_le v w x : v <= w -> inU v x -> inU w x.
Proof. unfold inU; intros; pose proof (Z.pow_le_mono_r 2 v w); lia. Qed.

Lemma wrap_id w x : inU w x -> wrap w x = x.
Proof. intros; apply Z.mod_small; assumption. Qed.

Lemma swrap_id w x : 0 < w -> inS w x -> swrap w x = x.
Proof.
  unfold inS, swrap; intros Hw Hx; pose proof (pow2_split w Hw).
  rewrite Z.mod_small; lia.
Qed.

(** Two integers are congruent modulo [2^w] exactly when they convert alike. *)
Lemma wrap_eq_iff w x y : 0 <= w -> wrap w x = wrap w y <-> exists k, x = y + k * 2 ^ w.
Proof.
  intros Hw; pose proof (pow2_pos w Hw); unfold wrap; split.
  - intros E; exists (x / 2 ^ w - y / 2 ^ w).
    pose proof (Z.div_mod x (2 ^ w)); pose proof (Z.div_mod y (2 ^ w)); nia.
  - intros [k ->]; apply Z.mod_add; lia.
Qed.

Lemma swrap_eq_wrap w x y : 0 < w -> wrap w x = wrap w y -> swrap w x = swrap w y.
Proof.
  intros Hw [k ->]%wrap_eq_iff; [|lia]; unfold swrap; f_equal.
  replace (y + k * 2 ^ w + 2 ^ (w - 1)) with (y + 2 ^ (w - 1) + k * 2 ^ w) by ring.
  apply Z.mod_add; pose proof (pow2_pos w); lia.
Qed.

Lemma wrap_wrap w x : 0 <= w -> wrap w (wrap w x) = wrap w x.
Proof. intros; apply wrap_id, wrap_range; lia. Qed.

Lemma wrap_swrap w x : 0 < w -> wrap w (swrap w x) = wrap w x.
Proof.
  intros Hw; apply wrap_eq_iff; [lia|]; unfold swrap.
  exists (- ((x + 2 ^ (w - 1)) / 2 ^ w)).
  pose proof (Z.div_mod (x + 2 ^ (w - 1)) (2 ^ w)); pose proof (pow2_pos w); nia.
Qed.

Lemma swrap_wrap w x : 0 < w -> swrap w (wrap w x) = swrap w x.
Proof. intros; apply swrap_eq_wrap; [lia|]; apply wrap_wrap; lia. Qed.

Lemma swrap_swrap w x : 0 < w -> swrap w (swrap w x) = swrap w x.
Proof. intros; apply swrap_eq_wrap, wrap_swrap; lia. Qed.

(** A narrower conversion absorbs a wider one. *)
Lemma wrap_wrap_le v w x : 0 <= v <= w -> wrap v (wrap w x) = wrap v x.
Proof.
  intros [Hv Hw]; unfold wrap; apply Z.mod_mod_divide.
  exists (2 ^ (w - v)); rewrite <- Z.pow_add_r by lia; f_equal; lia.
Qed.

Lemma wrap_swrap_le v w x : 0 <= v <= w -> 0 < w -> wrap v (swrap w x) = wrap v x.
Proof.
  intros; rewrite <- (wrap_wrap_le v w (swrap w x)), wrap_swrap, wrap_wrap_le; lia || reflexivity.
Qed.

Lemma swrap_wrap_le v w x : 0 < v <= w -> swrap v (wrap w x) = swrap v x.
Proof. intros; apply swrap_eq_wrap, wrap_wrap_le; lia. Qed.

Lemma swrap_swrap_le v w x : 0 < v <= w -> swrap v (swrap w x) = swrap v x.
Proof. intros; apply swrap_eq_wrap, wrap_swrap_le; lia. Qed.

(** Unsigned and signed reading of the same bits. *)
Lemma swrap_of_wrap w x :
  0 < w -> inU w x -> swrap w x = if x <? 2 ^ (w - 1) then x else x - 2 ^ w.
Proof.
  unfold inU; intros Hw Hx; pose proof (pow2_split w Hw).
  destruct (Z.ltb_spec x (2 ^ (w - 1))); [apply swrap_id; unfold inS; lia|].
  rewrite <- (swrap_id w (x - 2 ^ w)) by (unfold inS; lia).
  apply swrap_eq_wrap; [lia|]; apply wrap_eq_iff; [lia|]; exists 1; lia.
Qed.

Lemma wrap_neg w x : 0 < w -> - 2 ^ w <= x < 0 -> wrap w x = x + 2 ^ w.
Proof.
  intros Hw Hx; rewrite <- (wrap_id w (x + 2 ^ w)) by (unfold inU; lia).
  apply wrap_eq_iff; [lia|]; exists (-1); lia.
Qed.

Lemma wrap_over w x : 0 < w -> 2 ^ w <= x < 2 * 2 ^ w -> wrap w x = x - 2 ^ w.
Proof.
  intros Hw Hx; rewrite <- (wrap_id w (x - 2 ^ w)) by (unfold inU; lia).
  apply wrap_eq_iff; [lia|]; exists 1; lia.
Qed.

(** Ring operations commute with conversion. *)
Lemma wrap_add w x y : 0 <= w -> wrap w (wrap w x + wrap w y) = wrap w (x + y).
Proof. intros; symmetry; apply Zplus_mod. Qed.

Lemma wrap_add_l w x y : 0 <= w -> wrap w (wrap w x + y) = wrap w (x + y).
Proof. intros; apply Zplus_mod_idemp_l. Qed.

Lemma wrap_sub_l w x y : 0 <= w -> wrap w (wrap w x - y) = wrap w (x - y).
Proof. intros; apply Zminus_mod_idemp_l. Qed.

Lemma wrap_sub_r w x y : 0 <= w -> wrap w (x - wrap w y) = wrap w (x - y).
Proof. intros; apply Zminus_mod_idemp_r. Qed.

Lemma wrap_add_r w x y : 0 <= w -> wrap w (x + wrap w y) = wrap w (x + y).
Proof. intros; apply Zplus_mod_idemp_r. Qed.

Lemma wrap_mul_l w x y : 0 <= w -> wrap w (wrap w x * y) = wrap w (x * y).
Proof. intros; apply Zmult_mod_idemp_l. Qed.

Lemma wrap_mul_r w x y : 0 <= w -> wrap w (x * wrap w y) = wrap w (x * y).
Proof. intros; apply Zmult_mod_idemp_r. Qed.

(** Saturation leaves a value that fits and never leaves the range. *)
Lemma usat_range w x : 0 <= w -> inU w (usat w x).
Proof. intros; unfold inU, usat; pose proof (pow2_pos w); lia. Qed.

Lemma ssat_range w x : 0 < w -> inS w (ssat w x).
Proof. intros; unfold inS, ssat; pose proof (pow2_pos (w - 1)); lia. Qed.

Lemma usat_id w x : inU w x -> usat w x = x.
Proof. unfold inU, usat; lia. Qed.

Lemma ssat_id w x : inS w x -> ssat w x = x.
Proof. unfold inS, ssat; lia. Qed.

(** ** Bits *)

Lemma testbit_wrap w x i : 0 <= w -> Z.testbit (wrap w x) i = (i <? w) && Z.testbit x i.
Proof.
  intros Hw; unfold wrap; destruct (Z.ltb_spec i w); simpl.
  - destruct (Z.neg_nonneg_cases i); [now rewrite !Z.testbit_neg_r by lia|].
    apply Z.mod_pow2_bits_low; lia.
  - apply Z.mod_pow2_bits_high; lia.
Qed.

Lemma testbit_high w x i : inU w x -> w <= i -> Z.testbit x i = false.
Proof.
  intros Hx Hi; destruct (Z.neg_nonneg_cases w).
  - unfold inU in Hx; rewrite Z.pow_neg_r in Hx; lia.
  - rewrite <- (wrap_id w x Hx), testbit_wrap by lia.
    destruct (Z.ltb_spec i w); [lia|reflexivity].
Qed.

Lemma testbit_swrap w x i :
  0 < w -> 0 <= i -> Z.testbit (swrap w x) i = Z.testbit x (if i <? w then i else w - 1).
Proof.
  intros Hw Hi; destruct (Z.ltb_spec i w).
  - pose proof (f_equal (fun z => Z.testbit z i) (wrap_swrap w x Hw)) as E; simpl in E.
    rewrite !testbit_wrap, (proj2 (Z.ltb_lt i w)) in E by lia; exact E.
  - rewrite <- (swrap_wrap w x) by lia.
    replace (Z.testbit x (w - 1)) with (Z.testbit (wrap w x) (w - 1))
      by (rewrite testbit_wrap by lia; destruct (Z.ltb_spec (w - 1) w); [reflexivity|lia]).
    pose proof (wrap_range w x ltac:(lia)) as R; set (y := wrap w x) in *.
    rewrite swrap_of_wrap by (assumption || lia); unfold inU in R.
    pose proof (pow2_split w Hw); pose proof (pow2_pos (w - 1) ltac:(lia)).
    destruct (Z.ltb_spec y (2 ^ (w - 1))).
    + rewrite (testbit_high (w - 1) y), (testbit_high (w - 1) y) by (unfold inU; lia); reflexivity.
    + replace (Z.testbit y (w - 1)) with true.
      * replace (y - 2 ^ w) with (Z.lnot (2 ^ w - 1 - y)) by (unfold Z.lnot; lia).
        rewrite Z.lnot_spec, (testbit_high w) by (unfold inU; lia); reflexivity.
      * symmetry; apply Z.testbit_true; [lia|].
        replace (y / 2 ^ (w - 1)) with 1; [reflexivity|].
        apply Z.div_unique with (y - 2 ^ (w - 1)); lia.
Qed.

Lemma land_range w x y : 0 <= w -> inU w x -> inU w (x .& y).
Proof.
  intros Hw Hx; rewrite <- (wrap_id w x Hx); unfold wrap; rewrite <- Z.land_ones by lia.
  rewrite <- Z.land_assoc, (Z.land_comm (Z.ones w)), Z.land_assoc, Z.land_ones by lia.
  apply Z.mod_pos_bound, pow2_pos; lia.
Qed.

(** Equality of bounded values, bit by bit. *)
Lemma bits_eqU w x y :
  0 <= w -> inU w x -> inU w y ->
  (forall i, 0 <= i < w -> Z.testbit x i = Z.testbit y i) -> x = y.
Proof.
  intros Hw Hx Hy E; apply Z.bits_inj'; intros i Hi; destruct (Z.ltb_spec i w); [apply E; lia|].
  now rewrite !(testbit_high w) by (assumption || lia).
Qed.

Lemma wrap_lor w x y : 0 <= w -> wrap w (x .| y) = wrap w x .| wrap w y.
Proof.
  intros; apply Z.bits_inj'; intros i Hi.
  rewrite Z.lor_spec, !testbit_wrap, Z.lor_spec by lia; destruct (i <? w); reflexivity.
Qed.

Lemma wrap_land w x y : 0 <= w -> wrap w (x .& y) = wrap w x .& wrap w y.
Proof.
  intros; apply Z.bits_inj'; intros i Hi.
  rewrite Z.land_spec, !testbit_wrap, Z.land_spec by lia; destruct (i <? w); reflexivity.
Qed.

Lemma wrap_lxor w x y : 0 <= w -> wrap w (x .^ y) = wrap w x .^ wrap w y.
Proof.
  intros; apply Z.bits_inj'; intros i Hi.
  rewrite Z.lxor_spec, !testbit_wrap, Z.lxor_spec by lia; destruct (i <? w); reflexivity.
Qed.

Lemma lor_range w x y : 0 <= w -> inU w x -> inU w y -> inU w (x .| y).
Proof.
  intros Hw Hx Hy; rewrite <- (wrap_id w x Hx), <- (wrap_id w y Hy), <- wrap_lor by lia.
  apply wrap_range; lia.
Qed.

Lemma lxor_range w x y : 0 <= w -> inU w x -> inU w y -> inU w (x .^ y).
Proof.
  intros Hw Hx Hy; rewrite <- (wrap_id w x Hx), <- (wrap_id w y Hy), <- wrap_lxor by lia.
  apply wrap_range; lia.
Qed.

(** Disjoint low and high parts: [lor] is addition. *)
Lemma lor_shiftl_add w x y : 0 <= w -> inU w x -> x .| (y .<< w) = x + y * 2 ^ w.
Proof.
  intros Hw Hx; rewrite <- Z.shiftl_mul_pow2 by lia.
  rewrite <- Z.lxor_lor.
  - symmetry; apply Z.add_nocarry_lxor.
    apply Z.bits_inj'; intros i Hi; rewrite Z.land_spec, Z.bits_0, Z.shiftl_spec by lia.
    destruct (Z.ltb_spec i w).
    + rewrite (Z.testbit_neg_r y) by lia; apply andb_false_r.
    + rewrite (testbit_high w) by (assumption || lia); reflexivity.
  - apply Z.bits_inj'; intros i Hi; rewrite Z.land_spec, Z.bits_0, Z.shiftl_spec by lia.
    destruct (Z.ltb_spec i w).
    + rewrite (Z.testbit_neg_r y) by lia; apply andb_false_r.
    + rewrite (testbit_high w) by (assumption || lia); reflexivity.
Qed.

(** The sign bit, read with a mask. *)
Lemma land_pow2 x k : 0 <= k -> x .& 2 ^ k = if Z.testbit x k then 2 ^ k else 0.
Proof.
  intros Hk; apply Z.bits_inj'; intros i Hi; rewrite Z.land_spec, Z.pow2_bits_eqb by lia.
  destruct (Z.eqb_spec k i) as [<-|N]; destruct (Z.testbit x k) eqn:E;
    rewrite ?andb_true_r, ?andb_false_r, ?Z.bits_0, ?Z.pow2_bits_eqb by lia; auto.
  - symmetry; apply Z.eqb_refl.
  - symmetry; apply Z.eqb_neq; assumption.
Qed.

Lemma testbit_top w x : 0 < w -> inU w x -> Z.testbit x (w - 1) = (2 ^ (w - 1) <=? x).
Proof.
  intros Hw Hx; unfold inU in Hx; pose proof (pow2_split w Hw).
  destruct (Z.leb_spec (2 ^ (w - 1)) x).
  - apply Z.testbit_true; [lia|].
    replace (x / 2 ^ (w - 1)) with 1; [reflexivity|].
    apply Z.div_unique with (x - 2 ^ (w - 1)); lia.
  - apply (testbit_high (w - 1)); unfold inU; lia.
Qed.

Lemma truthy_land_pow2 x k : 0 <= k -> truthy (x .& 2 ^ k) = Z.testbit x k.
Proof.
  intros; unfold truthy; rewrite land_pow2 by lia; pose proof (pow2_pos k).
  destruct (Z.testbit x k); [|reflexivity]; destruct (Z.eqb_spec (2 ^ k) 0); [lia|reflexivity].
Qed.

(** ** Lists and arrays *)

Fixpoint map2 {A B C} (f : A -> B -> C) (l1 : list A) (l2 : list B) : list C :=
  match l1, l2 with
  | x :: l1, y :: l2 => f x y :: map2 f l1 l2
  | _, _ => []
  end.

Definition any2 {A B} (q : A -> B -> bool) (l1 : list A) (l2 : list B) : bool :=
  existsb (fun b => b) (map2 q l1 l2).

Lemma map2_ext_in {A B C} (f g : A -> B -> C) (P : A -> Prop) (Q : B -> Prop) l1 l2 :
  (forall x y, P x -> Q y -> f x y = g x y) ->
  Forall P l1 -> Forall Q l2 -> map2 f l1 l2 = map2 g l1 l2.
Proof.
  intros E H; revert l2; induction H; intros l2 H2; destruct H2; simpl; f_equal; auto.
Qed.

Lemma map_map2 {A B C D} (h : C -> D) (f : A -> B -> C) l1 l2 :
  map h (map2 f l1 l2) = map2 (fun x y => h (f x y)) l1 l2.
Proof. revert l2; induction l1; destruct l2; simpl; f_equal; auto. Qed.

Lemma map2_map {A A' B B' C} (f : A' -> B' -> C) (g : A -> A') (h : B -> B') l1 l2 :
  map2 f (map g l1) (map h l2) = map2 (fun x y => f (g x) (h y)) l1 l2.
Proof. revert l2; induction l1; destruct l2; simpl; f_equal; auto. Qed.

Lemma length_map2 {A B C} (f : A -> B -> C) l1 l2 :
  length (map2 f l1 l2) = Nat.min (length l1) (length l2).
Proof. revert l2; induction l1; destruct l2; simpl; auto. Qed.

(** [a[i] = x] on a C array; an index out of range is outside the model. *)
Fixpoint upd {A} (l : list A) (i : nat) (x : A) : list A :=
  match l, i with
  | [], _ => []
  | _ :: l, O => x :: l
  | y :: l, S i => y :: upd l i x
  end.

Lemma length_upd {A} (l : list A) i x : length (upd l i x) = length l.
Proof. revert i; induction l; destruct i; simpl; auto. Qed.

Lemma nth_upd_eq {A} (l : list A) i x d : (i < length l)%nat -> nth i (upd l i x) d = x.
Proof. revert i; induction l; destruct i; simpl; intros; try lia; auto with arith. Qed.

Lemma nth_upd_ne {A} (l : list A) i j x d : i <> j -> nth j (upd l i x) d = nth j l d.
Proof. revert i j; induction l; destruct i, j; simpl; intros; auto; congruence. Qed.

Lemma upd_upd_eq {A} (l : list A) i x y : upd (upd l i x) i y = upd l i y.
Proof. revert i; induction l; destruct i; simpl; f_equal; auto. Qed.

Lemma upd_nth {A} (l : list A) i d : upd l i (nth i l d) = l.
Proof. revert i; induction l; destruct i; simpl; f_equal; auto. Qed.

(** ** A state monad for code that writes through a pointer *)

Definition ST (S A : Type) : Type := S -> A * S.

Definition ret {S A} (x : A) : ST S A := fun s => (x, s).

Definition bind {S A B} (m : ST S A) (k : A -> ST S B) : ST S B :=
  fun s => let '(x, s') := m s in k x s'.

Notation "x <- m ;; k" := (bind m (fun x => k))
  (at level 61, m at next level, right associativity) : c_scope.
Notation "m ;;; k" := (bind m (fun _ => k))
  (at level 61, right associativity) : c_scope.

(** Code that may abort: the first [None] is the result. *)
Notation "'let?' x ':=' m 'in' k" := (match m with Some x => k | None => None end)
  (at level 10, x pattern, m at level 200, k at level 200) : c_scope.

(** ** Automation

    [cint] turns the constant powers of two of a goal into numerals and calls
    [lia] with the equations of division and remainder by constants. *)

Ltac closedZ t :=
  lazymatch t with
  | Z0 => idtac
  | Zpos _ => idtac
  | Zneg _ => idtac
  | Z.opp ?a => closedZ a
  | Z.lnot ?a => closedZ a
  | Z.add ?a ?b => closedZ a; closedZ b
  | Z.sub ?a ?b => closedZ a; closedZ b
  | Z.mul ?a ?b => closedZ a; closedZ b
  | Z.pow ?a ?b => closedZ a; closedZ b
  | Z.shiftl ?a ?b => closedZ a; closedZ b
  | Z.shiftr ?a ?b => closedZ a; closedZ b
  | Z.land ?a ?b => closedZ a; closedZ b
  | Z.lor ?a ?b => closedZ a; closedZ b
  | Z.lxor ?a ?b => closedZ a; closedZ b
  end.

(** Evaluate the closed subterms of the goal and the hypotheses. *)
Ltac fold_closed t :=
  closedZ t; let m := eval vm_compute in t in progress (change t with m in *).

Ltac fold_pow2 :=
  repeat match goal with
  | |- context [Z.pow ?a ?b] => fold_closed (Z.pow a b)
  | |- context [Z.shiftl ?a ?b] => fold_closed (Z.shiftl a b)
  | |- context [Z.lnot ?a] => fold_closed (Z.lnot a)
  | |- context [Z.lxor ?a ?b] => fold_closed (Z.lxor a b)
  | H : context [Z.pow ?a ?b] |- _ => fold_closed (Z.pow a b)
  | H : context [Z.shiftl ?a ?b] |- _ => fold_closed (Z.shiftl a b)
  end.

Ltac cint :=
  unfold inU, inS, wrap, swrap, usat, ssat in *; fold_pow2;
  Z.to_euclidean_division_equations; lia.

Ltac case_bool :=
  match goal with
  | |- context [?x =? ?y] => destruct (Z.eqb_spec x y)
  | |- context [?x <? ?y] => destruct (Z.ltb_spec x y)
  | |- context [?x <=? ?y] => destruct (Z.leb_spec x y)
  | |- context [?x >? ?y] => rewrite (Z.gtb_ltb x y); destruct (Z.ltb_spec y x)
  | |- context [?x >=? ?y] => rewrite (Z.geb_leb x y); destruct (Z.leb_spec y x)
  end.

(** A goal about [if]s on integer comparisons, by cases. *)
Ltac cases := repeat (case_bool; cbn [negb andb orb xorb]); try reflexivity; try cint.

(** Split the conjunctions that are written as such. *)
Ltac splits := repeat match goal with |- _ /\ _ => split end.

Create HintDb crange.
#[export] Hint Resolve wrap_range swrap_range usat_range ssat_range land_range lor_range
  lxor_range : crange.
#[export] Hint Extern 5 (_ <= _) => lia : crange.
#[export] Hint Extern 5 (_ < _) => lia : crange.
