(* ===== verification/Bitops.v ===== *)
(** * Bit fields and rotates (include/qemu/bitops.h)

    [extract32/64], [sextract32/64], [deposit32/64] and the rotates, each an
    instance of one definition over the word width [w]; the characterisation of
    every result bit and the laws the callers rely on. *)

From Stdlib Require Import ZArith Lia Bool.
From S2P Require Import Prelude.
Local Open Scope Z_scope.
Local Open Scope c_scope.

(** ** Definitions *)

(** [~0U >> (w - length)] *)
Definition low_mask (w length : Z) : Z := wrap w (Z.lnot 0) .>> (w - length).

Definition extractw (w value start length : Z) : Z :=
  (value .>> start) .& low_mask w length.

Definition extract32 := extractw 32.
Definition extract64 := extractw 64.

Definition sextractw (w value start length : Z) : Z :=
  swrap w (wrap w (value .<< (w - length - start))) .>> (w - length).

Definition sextract32 := sextractw 32.
Definition sextract64 := sextractw 64.

Definition depositw (w value start length fieldval : Z) : Z :=
  let mask := wrap w (low_mask w length .<< start) in
  (value .& wrap w (Z.lnot mask)) .| (wrap w (fieldval .<< start) .& mask).

Definition deposit32 := depositw 32.
Definition deposit64 := depositw 64.

Definition rolw (w word shift : Z) : Z := wrap w (word .<< shift) .| (word .>> (w - shift)).
Definition rorw (w word shift : Z) : Z := (word .>> shift) .| wrap w (word .<< (w - shift)).

Definition rol8 := rolw 8.
Definition ror8 := rorw 8.
Definition rol16 := rolw 16.
Definition ror16 := rorw 16.
Definition rol32 := rolw 32.
Definition ror32 := rorw 32.
Definition rol64 := rolw 64.
Definition ror64 := rorw 64.

(** ** Bits of the results *)

Lemma low_mask_ones w l : 0 <= l <= w -> low_mask w l = Z.ones l.
Proof.
  intros H; unfold low_mask; apply Z.bits_inj'; intros i Hi.
  rewrite Z.shiftr_spec, testbit_wrap, Z.lnot_spec, Z.bits_0 by lia.
  rewrite Z.testbit_ones by lia.
  destruct (Z.ltb_spec (i + (w - l)) w), (Z.ltb_spec i l), (Z.leb_spec 0 i); simpl; lia.
Qed.

Lemma testbit_extractw w v s l i :
  0 <= l <= w -> 0 <= s -> 0 <= i ->
  Z.testbit (extractw w v s l) i = (i <? l) && Z.testbit v (i + s).
Proof.
  intros; unfold extractw; rewrite low_mask_ones, Z.land_spec, Z.shiftr_spec by lia.
  rewrite Z.testbit_ones by lia; destruct (Z.leb_spec 0 i); [|lia].
  rewrite andb_true_l; apply andb_comm.
Qed.

Lemma extractw_wrap w v s l :
  0 <= l <= w -> 0 <= s -> extractw w v s l = wrap l (v .>> s).
Proof.
  intros; apply Z.bits_inj'; intros i Hi.
  rewrite testbit_extractw, testbit_wrap, Z.shiftr_spec by lia; reflexivity.
Qed.

Lemma sextractw_swrap w v s l :
  0 < l -> 0 <= s -> l + s <= w -> sextractw w v s l = swrap l (v .>> s).
Proof.
  intros; unfold sextractw; apply Z.bits_inj'; intros i Hi.
  rewrite Z.shiftr_spec, swrap_wrap, !testbit_swrap by lia.
  destruct (Z.ltb_spec i l), (Z.ltb_spec (i + (w - l)) w); try lia;
    rewrite Z.shiftl_spec, Z.shiftr_spec by lia; f_equal; lia.
Qed.

Lemma testbit_depositw w v s l f i :
  inU w v -> 0 <= l -> 0 <= s -> l + s <= w -> 0 <= i ->
  Z.testbit (depositw w v s l f) i =
    if (s <=? i) && (i <? s + l) then Z.testbit f (i - s) else Z.testbit v i.
Proof.
  intros Hv Hl Hs Hw Hi; unfold depositw.
  rewrite low_mask_ones, Z.lor_spec, !Z.land_spec, !testbit_wrap, Z.lnot_spec, testbit_wrap by lia.
  rewrite !Z.shiftl_spec, Z.testbit_ones by lia.
  destruct (Z.ltb_spec i w).
  - destruct (Z.leb_spec s i), (Z.leb_spec 0 (i - s)), (Z.ltb_spec (i - s) l),
      (Z.ltb_spec i (s + l)); try lia; simpl;
      rewrite ?andb_true_r, ?andb_false_r, ?orb_false_r; reflexivity.
  - rewrite (testbit_high w) by (assumption || lia).
    destruct (Z.leb_spec s i), (Z.ltb_spec i (s + l)); simpl; reflexivity || lia.
Qed.

Lemma depositw_range w v s l f :
  0 <= l -> 0 <= s -> l + s <= w -> inU w v -> inU w (depositw w v s l f).
Proof.
  intros; unfold depositw; cbv zeta; apply lor_range; [lia|auto with crange|].
  apply land_range; auto with crange.
Qed.

(** Reading back the field that was just written. *)
Lemma extractw_depositw w v s l f :
  inU w v -> 0 <= l -> 0 <= s -> l + s <= w ->
  extractw w (depositw w v s l f) s l = wrap l f.
Proof.
  intros; apply Z.bits_inj'; intros i Hi.
  rewrite testbit_extractw, testbit_depositw, testbit_wrap by lia || assumption.
  destruct (Z.ltb_spec i l); [|reflexivity]; simpl.
  destruct (Z.leb_spec s (i + s)), (Z.ltb_spec (i + s) (s + l)); try lia; simpl; f_equal; lia.
Qed.

(** Writing a field does not disturb a disjoint one. *)
Lemma extractw_depositw_disjoint w v s l f s' l' :
  inU w v -> 0 <= l -> 0 <= s -> l + s <= w -> 0 <= l' <= w -> 0 <= s' ->
  s' + l' <= s \/ s + l <= s' ->
  extractw w (depositw w v s l f) s' l' = extractw w v s' l'.
Proof.
  intros; apply Z.bits_inj'; intros i Hi.
  rewrite !testbit_extractw, testbit_depositw by lia || assumption.
  destruct (Z.ltb_spec i l'); [|reflexivity]; simpl.
  destruct (Z.leb_spec s (i + s')), (Z.ltb_spec (i + s') (s + l)); simpl; reflexivity || lia.
Qed.

(** Every bit of a rotate. *)
Lemma testbit_rolw w v n i :
  inU w v -> 0 <= n < w -> 0 <= i < w ->
  Z.testbit (rolw w v n) i = Z.testbit v ((i - n) mod w).
Proof.
  intros Hv Hn Hi; unfold rolw.
  rewrite Z.lor_spec, testbit_wrap, Z.shiftl_spec, Z.shiftr_spec by lia.
  destruct (Z.ltb_spec i w); [|lia]; rewrite andb_true_l; destruct (Z.ltb_spec i n).
  - rewrite (Z.testbit_neg_r v (i - n)) by lia; rewrite orb_false_l; f_equal.
    apply Z.mod_unique with (-1); lia.
  - rewrite (testbit_high w v (i + (w - n))), orb_false_r by (assumption || lia); f_equal.
    symmetry; apply Z.mod_small; lia.
Qed.

Lemma testbit_rorw w v n i :
  inU w v -> 0 <= n < w -> 0 <= i < w ->
  Z.testbit (rorw w v n) i = Z.testbit v ((i + n) mod w).
Proof.
  intros Hv Hn Hi; unfold rorw.
  rewrite Z.lor_spec, testbit_wrap, Z.shiftl_spec, Z.shiftr_spec by lia.
  destruct (Z.ltb_spec i w); [|lia]; rewrite andb_true_l; destruct (Z.ltb_spec (i + n) w).
  - rewrite (Z.testbit_neg_r v (i - (w - n))) by lia; rewrite orb_false_r; f_equal.
    symmetry; apply Z.mod_small; lia.
  - rewrite (testbit_high w v (i + n)), orb_false_l by (assumption || lia); f_equal.
    apply Z.mod_unique with 1; lia.
Qed.

Lemma rolw_range w v n : inU w v -> 0 <= n < w -> inU w (rolw w v n).
Proof.
  intros Hv Hn; unfold rolw; apply lor_range; auto with crange.
  rewrite Z.shiftr_div_pow2 by lia; unfold inU in *; pose proof (pow2_pos (w - n)); split.
  - apply Z.div_pos; lia.
  - apply Z.div_lt_upper_bound; nia.
Qed.

Lemma rorw_range w v n : inU w v -> 0 <= n < w -> inU w (rorw w v n).
Proof.
  intros Hv Hn; unfold rorw; apply lor_range; auto with crange.
  rewrite Z.shiftr_div_pow2 by lia; unfold inU in *; pose proof (pow2_pos n); split.
  - apply Z.div_pos; lia.
  - apply Z.div_lt_upper_bound; nia.
Qed.
