(* ===== verification/Cpu.v ===== *)
(** * The ARM CPU state

    The part of [CPUARMState] (target-arm/cpu.h) that the NEON helpers, the
    status registers (target-arm/helper.c) and [exec] (tcg-arm/tcg-arm.c) read
    and write. *)

From Stdlib Require Import ZArith Lia List.
From S2P Require Import Prelude.
Import ListNotations.
Local Open Scope Z_scope.
Local Open Scope c_scope.

(** include/fpu/softfloat.h: the fields that FPSCR controls. *)
Record float_status := mkFst {
  float_rounding_mode : Z;
  float_exception_flags : Z;
  flush_to_zero : bool;
  flush_inputs_to_zero : bool;
  default_nan_mode : bool
}.

(** target-arm/cpu.h: the VFP and NEON register file. *)
Record vfp_state := mkVfp {
  vfp_regs : list Z;        (* float64 regs[64] *)
  vfp_xregs : list Z;       (* uint32_t xregs[16] *)
  vec_len : Z;
  vec_stride : Z;
  fp_status : float_status;
  standard_fp_status : float_status
}.

(** The system control state that [cpsr_write] and [cpu_get_tb_cpu_state]
    consult. *)
Record system_state := mkSys {
  features : Z;
  aarch64 : Z; pstate : Z;
  pc64 : Z;                 (* uint64_t pc *)
  scr_el3 : Z; hcr_el2 : Z;
  sctlr_el : list Z;        (* uint64_t sctlr_el[4] *)
  cptr_el : list Z;         (* uint64_t cptr_el[4] *)
  cpacr_el1 : Z; mdscr_el1 : Z; mdcr_el2 : Z; mdcr_el3 : Z; sder : Z;
  c15_cpar : Z;
  v7m_control : Z; v7m_exception : Z
}.

(** [sctlr_ns] shares the storage of [sctlr_el[1]]. *)
Definition sctlr_ns (s : system_state) : Z := nth 1 (sctlr_el s) 0.

Record CPUARMState := mkEnv {
  regs : list Z;            (* uint32_t regs[16] *)
  uncached_cpsr : Z;
  CF : Z; VF : Z; NF : Z; ZF : Z; QF : Z; GE : Z;
  thumb : Z;
  condexec_bits : Z;
  daif : Z;
  vfp : vfp_state;
  sys : system_state
}.

Definition set_vfp (env : CPUARMState) (v : vfp_state) : CPUARMState :=
  mkEnv (regs env) (uncached_cpsr env) (CF env) (VF env) (NF env) (ZF env) (QF env) (GE env)
    (thumb env) (condexec_bits env) (daif env) v (sys env).

Definition set_regs (env : CPUARMState) (r : list Z) : CPUARMState :=
  mkEnv r (uncached_cpsr env) (CF env) (VF env) (NF env) (ZF env) (QF env) (GE env)
    (thumb env) (condexec_bits env) (daif env) (vfp env) (sys env).

Definition set_vfp_regs (env : CPUARMState) (r : list Z) : CPUARMState :=
  let v := vfp env in
  set_vfp env (mkVfp r (vfp_xregs v) (vec_len v) (vec_stride v) (fp_status v) (standard_fp_status v)).

Definition set_vfp_xregs (env : CPUARMState) (r : list Z) : CPUARMState :=
  let v := vfp env in
  set_vfp env (mkVfp (vfp_regs v) r (vec_len v) (vec_stride v) (fp_status v) (standard_fp_status v)).

Definition ARM_VFP_FPSCR : nat := 1.
Definition ARM_VFP_FPEXC : nat := 8.

Definition xreg (env : CPUARMState) (n : nat) : Z := nth n (vfp_xregs (vfp env)) 0.

Definition CPSR_Q : Z := 1 .<< 27.

Abbreviation M := (ST CPUARMState).
