(* ===== verification/BitRoute.v ===== *)
(** * Bit routing by reflection

    Words that are built from other words with masks, shifts and bitwise
    operations place each bit of the result at a fixed bit of an operand.
    [bexp] is the syntax of such words, [bit] computes where bit [i] comes
    from, and the tactic [route] decides an equality of two of them, bit by
    bit.  Used for the narrowing, widening, reversing and permuting helpers. *)

From Stdlib Require Import ZArith Lia List Bool.
From S2P Require Import Prelude.
Import ListNotations.
Local Open Scope Z_scope.
Local Open Scope c_scope.

Inductive bexp :=
| BVar (v : nat) (w : Z)
| BConst (c : Z)
| BLand (a b : bexp)
| BLor (a b : bexp)
| BLxor (a b : bexp)
| BShl (a : bexp) (k : Z)
| BShr (a : bexp) (k : Z)
| BWrap (w : Z) (a : bexp)
| BSwrap (w : Z) (a : bexp).

(** Operand [v] with the width it is known to fit in. *)
Definition operand (env : list Z) (v : nat) : Z := nth v env 0.

Fixpoint den (env : list Z) (e : bexp) : Z :=
  match e with
  | BVar v _ => operand env v
  | BConst c => c
  | BLand a b => den env a .& den env b
  | BLor a b => den env a .| den env b
  | BLxor a b => den env a .^ den env b
  | BShl a k => den env a .<< k
  | BShr a k => den env a .>> k
  | BWrap w a => wrap w (den env a)
  | BSwrap w a => swrap w (den env a)
  end.

(** Conversion unfolds the denotation before the machine operations. *)
#[global] Strategy expand [den operand].

Fixpoint operands_ok (env : list Z) (e : bexp) : Prop :=
  match e with
  | BVar v w => inU w (operand env v)
  | BConst _ => True
  | BLand a b | BLor a b | BLxor a b => operands_ok env a /\ operands_ok env b
  | BShl a _ | BShr a _ | BWrap _ a | BSwrap _ a => operands_ok env a
  end.

(** The shift counts and widths that occur are in range. *)
Fixpoint wf (e : bexp) : bool :=
  match e with
  | BVar _ w => 0 <=? w
  | BConst _ => true
  | BLand a b | BLor a b | BLxor a b => wf a && wf b
  | BShl a k | BShr a k => (0 <=? k) && wf a
  | BWrap w a => (0 <=? w) && wf a
  | BSwrap w a => (0 <? w) && wf a
  end.

(** Where a bit comes from. *)
Inductive source := Known (b : bool) | From (v : nat) (i : Z) | Mixed.

Definition land_source (s t : source) : source :=
  match s, t with
  | Known false, _ | _, Known false => Known false
  | Known true, s | s, Known true => s
  | _, _ => Mixed
  end.

Definition lor_source (s t : source) : source :=
  match s, t with
  | Known true, _ | _, Known true => Known true
  | Known false, s | s, Known false => s
  | _, _ => Mixed
  end.

Definition lxor_source (s t : source) : source :=
  match s, t with
  | Known false, s | s, Known false => s
  | Known true, Known true => Known false
  | _, _ => Mixed
  end.

Fixpoint bit (e : bexp) (i : Z) : source :=
  match e with
  | BVar v w => if i <? w then From v i else Known false
  | BConst c => Known (Z.testbit c i)
  | BLand a b => land_source (bit a i) (bit b i)
  | BLor a b => lor_source (bit a i) (bit b i)
  | BLxor a b => lxor_source (bit a i) (bit b i)
  | BShl a k => if i <? k then Known false else bit a (i - k)
  | BShr a k => bit a (i + k)
  | BWrap w a => if i <? w then bit a i else Known false
  | BSwrap w a => bit a (if i <? w then i else w - 1)
  end.

(** An upper bound of the width, when there is one. *)
Fixpoint width (e : bexp) : option Z :=
  match e with
  | BVar _ w => Some w
  | BConst c => if 0 <=? c then Some (Z.log2 c + 1) else None
  | BLand a b =>
      match width a, width b with
      | Some m, Some n => Some (Z.min m n)
      | Some m, None | None, Some m => Some m
      | None, None => None
      end
  | BLor a b | BLxor a b =>
      match width a, width b with
      | Some m, Some n => Some (Z.max m n)
      | _, _ => None
      end
  | BShl a k => option_map (fun m => m + k) (width a)
  | BShr a k => width a
  | BWrap w a => Some w
  | BSwrap w a => None
  end.

(** [s] says what the bit is. *)
Definition tells (env : list Z) (s : source) (b : bool) : Prop :=
  match s with
  | Known c => b = c
  | From v i => b = Z.testbit (operand env v) i
  | Mixed => True
  end.

Lemma tells_land env s t b c :
  tells env s b -> tells env t c -> tells env (land_source s t) (b && c).
Proof. destruct s as [[]| |], t as [[]| |], b, c; simpl; congruence || auto. Qed.

Lemma tells_lor env s t b c :
  tells env s b -> tells env t c -> tells env (lor_source s t) (b || c).
Proof. destruct s as [[]| |], t as [[]| |], b, c; simpl; congruence || auto. Qed.

Lemma tells_lxor env s t b c :
  tells env s b -> tells env t c -> tells env (lxor_source s t) (xorb b c).
Proof. destruct s as [[]| |], t as [[]| |], b, c; simpl; congruence || auto. Qed.

Lemma bit_sound env e i :
  wf e = true -> operands_ok env e -> 0 <= i -> tells env (bit e i) (Z.testbit (den env e) i).
Proof.
  revert i; induction e; intros i W O Hi; cbn [wf operands_ok bit den] in *;
    rewrite ?andb_true_iff, ?Z.leb_le, ?Z.ltb_lt in W; try tauto.
  - destruct (Z.ltb_spec i w); [reflexivity|]; now apply testbit_high with w.
  - reflexivity.
  - rewrite Z.land_spec; apply tells_land; [apply IHe1|apply IHe2]; tauto.
  - rewrite Z.lor_spec; apply tells_lor; [apply IHe1|apply IHe2]; tauto.
  - rewrite Z.lxor_spec; apply tells_lxor; [apply IHe1|apply IHe2]; tauto.
  - rewrite Z.shiftl_spec by lia; destruct (Z.ltb_spec i k).
    + apply Z.testbit_neg_r; lia.
    + apply IHe; tauto || lia.
  - rewrite Z.shiftr_spec by lia; apply IHe; tauto || lia.
  - rewrite testbit_wrap by lia; destruct (Z.ltb_spec i w); [apply IHe; tauto|reflexivity].
  - rewrite testbit_swrap by lia; apply IHe; [tauto|tauto|]; destruct (Z.ltb_spec i w); lia.
Qed.

Lemma width_sound env e m i :
  wf e = true -> operands_ok env e -> width e = Some m -> m <= i ->
  Z.testbit (den env e) i = false.
Proof.
  revert m i; induction e; intros m i W O E Hi; cbn [wf operands_ok width den] in *;
    rewrite ?andb_true_iff, ?Z.leb_le, ?Z.ltb_lt in W;
    try (destruct (width e1), (width e2)); try discriminate E; try injection E as <-.
  - now apply testbit_high with w.
  - destruct (Z.leb_spec 0 c) as [H|]; [|discriminate]; injection E as <-.
    destruct (Z.eq_dec c 0) as [->|]; [apply Z.testbit_0_l|apply Z.bits_above_log2; lia].
  - rewrite Z.land_spec; destruct (Z.le_ge_cases z z0).
    + rewrite (IHe1 z) by (tauto || lia); reflexivity.
    + rewrite (IHe2 z0) by (tauto || lia); apply andb_false_r.
  - rewrite Z.land_spec, (IHe1 z) by (tauto || lia); reflexivity.
  - rewrite Z.land_spec, (IHe2 z) by (tauto || lia); apply andb_false_r.
  - rewrite Z.lor_spec, (IHe1 z), (IHe2 z0) by (tauto || lia); reflexivity.
  - rewrite Z.lxor_spec, (IHe1 z), (IHe2 z0) by (tauto || lia); reflexivity.
  - destruct (width e); [|discriminate]; injection E as <-.
    destruct (Z.neg_nonneg_cases i); [now apply Z.testbit_neg_r|].
    rewrite Z.shiftl_spec by lia; destruct (Z.neg_nonneg_cases (i - k)).
    + now apply Z.testbit_neg_r.
    + apply (IHe z); tauto || lia.
  - destruct (Z.neg_nonneg_cases i); [now apply Z.testbit_neg_r|].
    rewrite Z.shiftr_spec by lia; apply (IHe m); tauto || lia.
  - rewrite testbit_wrap by lia; destruct (Z.ltb_spec i w); [lia|reflexivity].
Qed.

(** A position from which on all bits are alike: the sign, or zero. *)
Fixpoint steady (e : bexp) : Z :=
  match e with
  | BVar _ w => w
  | BConst c => Z.log2 (Z.abs c) + 1
  | BLand a b | BLor a b | BLxor a b => Z.max (steady a) (steady b)
  | BShl a k => steady a + k
  | BShr a k => steady a
  | BWrap w a => w
  | BSwrap w a => w - 1
  end.

Lemma testbit_const_steady c i j :
  Z.log2 (Z.abs c) + 1 <= i -> Z.log2 (Z.abs c) + 1 <= j -> Z.testbit c i = Z.testbit c j.
Proof.
  intros; pose proof (Z.log2_nonneg (Z.abs c)); destruct (Z.neg_nonneg_cases c) as [N|N].
  - assert (Z.log2 (Z.pred (- c)) <= Z.log2 (Z.abs c)) by (apply Z.log2_le_mono; lia).
    now rewrite !Z.bits_above_log2_neg by lia.
  - rewrite Z.abs_eq in * by assumption; destruct (Z.eq_dec c 0) as [->|]; [now rewrite !Z.testbit_0_l|].
    now rewrite !Z.bits_above_log2 by lia.
Qed.

Lemma steady_nonneg e : wf e = true -> 0 <= steady e.
Proof.
  induction e; cbn [wf steady]; rewrite ?andb_true_iff, ?Z.leb_le, ?Z.ltb_lt;
    intros; try (pose proof (Z.log2_nonneg (Z.abs c))); intuition lia.
Qed.

Lemma steady_sound env e i j :
  wf e = true -> operands_ok env e -> steady e <= i -> steady e <= j ->
  Z.testbit (den env e) i = Z.testbit (den env e) j.
Proof.
  intros W; pose proof (steady_nonneg e W) as N; revert i j W N.
  induction e; intros i j W N O Hi Hj; cbn [wf operands_ok steady den] in *;
    rewrite ?andb_true_iff, ?Z.leb_le, ?Z.ltb_lt in W;
    try (assert (N1 := steady_nonneg e1 (proj1 W)); assert (N2 := steady_nonneg e2 (proj2 W)));
    try (assert (N0 := steady_nonneg e (proj2 W))).
  - now rewrite !(testbit_high w) by (assumption || lia).
  - now apply testbit_const_steady.
  - rewrite !Z.land_spec; f_equal; [apply IHe1|apply IHe2]; tauto || lia.
  - rewrite !Z.lor_spec; f_equal; [apply IHe1|apply IHe2]; tauto || lia.
  - rewrite !Z.lxor_spec; f_equal; [apply IHe1|apply IHe2]; tauto || lia.
  - rewrite !Z.shiftl_spec by lia; apply IHe; tauto || lia.
  - rewrite !Z.shiftr_spec by lia; apply IHe; tauto || lia.
  - rewrite !testbit_wrap by lia; destruct (Z.ltb_spec i w), (Z.ltb_spec j w); lia || reflexivity.
  - rewrite !testbit_swrap by lia; f_equal; destruct (Z.ltb_spec i w), (Z.ltb_spec j w); lia.
Qed.

(** ** The decision *)

Definition same_source (s t : source) : bool :=
  match s, t with
  | Known b, Known c => Bool.eqb b c
  | From v i, From w j => Nat.eqb v w && (i =? j)
  | _, _ => false
  end.

Definition same_bits (m : Z) (a b : bexp) : bool :=
  forallb (fun i => same_source (bit a (Z.of_nat i)) (bit b (Z.of_nat i))) (seq 0 (Z.to_nat m)).

Definition fits (m : Z) (e : bexp) : bool :=
  match width e with Some n => n <=? m | None => false end.

Lemma tells_same env s t b c :
  same_source s t = true -> tells env s b -> tells env t c -> b = c.
Proof.
  destruct s, t; simpl; try discriminate; intros E -> ->.
  - now apply Bool.eqb_prop.
  - apply andb_true_iff in E as [->%Nat.eqb_eq ->%Z.eqb_eq]; reflexivity.
Qed.

(** Two routed words that are steady from [m] on and have the same sources up
    to there are equal. *)
Lemma route_eq env m a b :
  wf a && wf b && (steady a <=? m) && (steady b <=? m) && same_bits (m + 1) a b = true ->
  operands_ok env a -> operands_ok env b -> den env a = den env b.
Proof.
  rewrite !andb_true_iff, !Z.leb_le; intros ((((Wa & Wb) & Sa) & Sb) & S) Oa Ob.
  pose proof (steady_nonneg a Wa).
  assert (E : forall i, 0 <= i <= m -> Z.testbit (den env a) i = Z.testbit (den env b) i).
  { intros i Hi; unfold same_bits in S; rewrite forallb_forall in S.
    specialize (S (Z.to_nat i)); rewrite in_seq, Z2Nat.id in S by lia.
    eapply tells_same; [apply S; lia| |]; apply bit_sound; auto; lia. }
  apply Z.bits_inj'; intros i Hi; destruct (Z.leb_spec i m); [apply E; lia|].
  rewrite (steady_sound env a i m), (steady_sound env b i m) by (assumption || lia).
  apply E; lia.
Qed.

(** A routed word of width at most [m] fits in [m] bits. *)
Lemma route_range env m e :
  wf e && fits m e && (0 <=? m) = true -> operands_ok env e -> inU m (den env e).
Proof.
  rewrite !andb_true_iff, Z.leb_le; intros [[W F] Hm] O.
  replace (den env e) with (wrap m (den env e)); [now apply wrap_range|].
  apply Z.bits_inj'; intros i Hi; rewrite testbit_wrap by lia.
  destruct (Z.ltb_spec i m); [reflexivity|]; symmetry.
  unfold fits in F; destruct (width e) eqn:E; [|discriminate]; apply Z.leb_le in F.
  apply width_sound with z; auto; lia.
Qed.

(** ** Operands

    The widths of the operands are given once, as a list. *)
Fixpoint uses (ws : list Z) (e : bexp) : bool :=
  match e with
  | BVar v w => match nth_error ws v with Some w' => w =? w' | None => false end
  | BConst _ => true
  | BLand a b | BLor a b | BLxor a b => uses ws a && uses ws b
  | BShl a _ | BShr a _ | BWrap _ a | BSwrap _ a => uses ws a
  end.

Lemma uses_ok ws env e : Forall2 inU ws env -> uses ws e = true -> operands_ok env e.
Proof.
  intros F; induction e; cbn [uses operands_ok]; rewrite ?andb_true_iff; try tauto.
  clear - F; revert v; induction F; intros [|v]; cbn [nth_error]; try discriminate.
  - intros ->%Z.eqb_eq; assumption.
  - apply IHF.
Qed.

Lemma route_by env ws a b :
  Forall2 inU ws env ->
  (let m := Z.max (steady a) (steady b) in
   uses ws a && uses ws b &&
   (wf a && wf b && (steady a <=? m) && (steady b <=? m) && same_bits (m + 1) a b)) = true ->
  den env a = den env b.
Proof.
  intros F; cbv zeta; rewrite andb_true_iff, andb_true_iff; intros [[Ua Ub] H].
  eapply route_eq; [exact H| |]; eapply uses_ok; eassumption.
Qed.

Lemma range_by env ws m e :
  Forall2 inU ws env -> uses ws e && (wf e && fits m e && (0 <=? m)) = true -> inU m (den env e).
Proof.
  intros F; rewrite andb_true_iff; intros [U H].
  apply route_range; [exact H|]; eapply uses_ok; eassumption.
Qed.

(** ** Reification *)

Ltac index_of x env :=
  lazymatch env with
  | x :: _ => constr:(O)
  | _ :: ?env => let n := index_of x env in constr:(S n)
  end.


Ltac reify env t :=
  match t with
  | Z.land ?a ?b => let x := reify env a in let y := reify env b in constr:(BLand x y)
  | Z.lor ?a ?b => let x := reify env a in let y := reify env b in constr:(BLor x y)
  | Z.lxor ?a ?b => let x := reify env a in let y := reify env b in constr:(BLxor x y)
  | Z.shiftl ?a ?k => let x := reify env a in constr:(BShl x k)
  | Z.shiftr ?a ?k => let x := reify env a in constr:(BShr x k)
  | wrap ?w ?a => let x := reify env a in constr:(BWrap w x)
  | swrap ?w ?a => let x := reify env a in constr:(BSwrap w x)
  | _ =>
      let n := index_of t env in
      match goal with
      | _ : inU ?w t |- _ => constr:(BVar n w)
      end
  | _ => constr:(BConst t)
  end.

(** The operands are the words with an [inU] hypothesis. *)
Ltac operands :=
  let rec go env :=
    match goal with
    | H : inU _ ?x |- _ =>
        let _ := match goal with _ => is_var x end in
        let _ := lazymatch env with context [x :: _] => fail | _ => constr:(I) end in
        go constr:(x :: env)
    | _ => env
    end in
  go constr:(@nil Z).

Ltac widths env :=
  lazymatch env with
  | ?x :: ?env =>
      lazymatch goal with
      | _ : inU ?w x |- _ => let ws := widths env in constr:(w :: ws)
      end
  | _ => constr:(@nil Z)
  end.

Ltac by_widths := repeat (apply Forall2_cons; [assumption|]); exact (Forall2_nil _).

Ltac route :=
  let env := operands in
  let ws := widths env in
  lazymatch goal with
  | |- ?a = ?b =>
      let x := reify env a in
      let y := reify env b in
      apply (route_by env ws x y); [by_widths | vm_compute; reflexivity]
  | |- inU ?m ?a =>
      let x := reify env a in
      apply (range_by env ws m x); [by_widths | vm_compute; reflexivity]
  end.
