(* ===== verification/Psr.v ===== *)
(** * Program status registers (target-arm/helper.c)

    CPSR is kept in pieces: the flags, the Thumb bit, the IT bits, GE and the
    interrupt masks each have a field, the rest is [uncached_cpsr].  FPSCR is
    kept in [xregs], [vec_len], [vec_stride] and two softfloat statuses.  The
    build is CONFIG_USER_ONLY. *)

From Stdlib Require Import ZArith Lia List Bool.
From S2P Require Import Prelude Bitops Cpu BitRoute.
Import ListNotations.
Local Open Scope Z_scope.
Local Open Scope c_scope.

(** ** Constants *)

Definition CPSR_M : Z := 0x1f.
Definition CPSR_T : Z := 1 .<< 5.
Definition CPSR_F : Z := 1 .<< 6.
Definition CPSR_I : Z := 1 .<< 7.
Definition CPSR_A : Z := 1 .<< 8.
Definition CPSR_IT_2_7 : Z := 0xfc00.
Definition CPSR_GE : Z := 0xf .<< 16.
Definition CPSR_IL : Z := 1 .<< 20.
Definition CPSR_IT_0_1 : Z := 3 .<< 25.
Definition CPSR_V : Z := 1 .<< 28.
Definition CPSR_C : Z := 1 .<< 29.
Definition CPSR_Z : Z := 1 .<< 30.
Definition CPSR_N : Z := 1 .<< 31.
Definition CPSR_NZCV : Z := CPSR_N .| CPSR_Z .| CPSR_C .| CPSR_V.
Definition CPSR_AIF : Z := CPSR_A .| CPSR_I .| CPSR_F.
Definition CPSR_IT : Z := CPSR_IT_0_1 .| CPSR_IT_2_7.
Definition CACHED_CPSR_BITS : Z :=
  CPSR_T .| CPSR_AIF .| CPSR_GE .| CPSR_IT .| CPSR_Q .| CPSR_NZCV.

Definition ARM_CPU_MODE_USR : Z := 0x10.
Definition ARM_CPU_MODE_FIQ : Z := 0x11.
Definition ARM_CPU_MODE_IRQ : Z := 0x12.
Definition ARM_CPU_MODE_SVC : Z := 0x13.
Definition ARM_CPU_MODE_MON : Z := 0x16.
Definition ARM_CPU_MODE_ABT : Z := 0x17.
Definition ARM_CPU_MODE_HYP : Z := 0x1a.
Definition ARM_CPU_MODE_UND : Z := 0x1b.
Definition ARM_CPU_MODE_SYS : Z := 0x1f.

Definition SCTLR_NMFI : Z := 1 .<< 27.
Definition SCR_FW : Z := 1 .<< 4.
Definition SCR_AW : Z := 1 .<< 5.
Definition HCR_TGE : Z := 1 .<< 27.

Definition ARM_FEATURE_M : Z := 13.
Definition ARM_FEATURE_V8 : Z := 32.
Definition ARM_FEATURE_EL2 : Z := 38.
Definition ARM_FEATURE_EL3 : Z := 39.

Inductive CPSRWriteType :=
| CPSRWriteByInstr | CPSRWriteExceptionReturn | CPSRWriteRaw | CPSRWriteByGDBStub.

Definition is_raw (t : CPSRWriteType) : bool := match t with CPSRWriteRaw => true | _ => false end.
Definition is_instr (t : CPSRWriteType) : bool := match t with CPSRWriteByInstr => true | _ => false end.
Definition is_gdb (t : CPSRWriteType) : bool := match t with CPSRWriteByGDBStub => true | _ => false end.

(** ** CPSR *)

Definition arm_feature (env : CPUARMState) (feature : Z) : bool :=
  truthy (features (sys env) .& (1 .<< feature)).

(** The user-only build has no secure state. *)
Definition arm_is_secure (env : CPUARMState) : bool := false.
Definition arm_is_secure_below_el3 (env : CPUARMState) : bool := false.

Definition arm_current_el (env : CPUARMState) : Z :=
  if arm_feature env ARM_FEATURE_M then
    b2z (negb ((v7m_exception (sys env) =? 0) && truthy (v7m_control (sys env) .& 1)))
  else if truthy (aarch64 (sys env)) then extract32 (pstate (sys env)) 2 2
  else
    let mode := uncached_cpsr env .& 0x1f in
    if mode =? ARM_CPU_MODE_USR then 0
    else if mode =? ARM_CPU_MODE_HYP then 2
    else if mode =? ARM_CPU_MODE_MON then 3
    else 1.

Definition bad_mode_switch (env : CPUARMState) (mode : Z) (write_type : CPSRWriteType) : bool :=
  let cur := uncached_cpsr env .& CPSR_M in
  if is_instr write_type && ((cur =? ARM_CPU_MODE_HYP) || (mode =? ARM_CPU_MODE_HYP)) then true
  else if mode =? ARM_CPU_MODE_USR then false
  else if existsb (Z.eqb mode)
            [ARM_CPU_MODE_SYS; ARM_CPU_MODE_SVC; ARM_CPU_MODE_ABT; ARM_CPU_MODE_UND;
             ARM_CPU_MODE_IRQ; ARM_CPU_MODE_FIQ] then
    is_instr write_type && truthy (hcr_el2 (sys env) .& HCR_TGE) && (cur =? ARM_CPU_MODE_MON)
      && negb (arm_is_secure_below_el3 env)
  else if mode =? ARM_CPU_MODE_HYP then
    negb (arm_feature env ARM_FEATURE_EL2) || (arm_current_el env <? 2) || arm_is_secure env
  else if mode =? ARM_CPU_MODE_MON then arm_current_el env <? 3
  else true.

(** [None] is [cpu_abort]. *)
Definition switch_mode (env : CPUARMState) (mode : Z) : option CPUARMState :=
  if negb (mode =? ARM_CPU_MODE_USR) then None else Some env.

Definition cpsr_read (env : CPUARMState) : Z :=
  let zf := b2z (ZF env =? 0) in
  u32 (uncached_cpsr env .| (NF env .& 0x80000000) .| (zf .<< 30)
       .| (CF env .<< 29) .| ((VF env .& 0x80000000) .>> 3) .| (QF env .<< 27)
       .| (thumb env .<< 5) .| ((condexec_bits env .& 3) .<< 25)
       .| ((condexec_bits env .& 0xfc) .<< 8)
       .| (GE env .<< 16) .| (daif env .& CPSR_AIF)).

(** The interrupt masks that a write from non-secure state may not change are
    dropped from [mask]. *)
Definition maskable (env : CPUARMState) (val mask : Z) (write_type : CPSRWriteType) : Z :=
  if negb (is_raw write_type) && negb (arm_feature env ARM_FEATURE_V8)
     && arm_feature env ARM_FEATURE_EL3 && negb (arm_feature env ARM_FEATURE_EL2)
     && negb (arm_is_secure env) then
    let changed_daif := u32 ((daif env .^ val) .& mask) in
    let mask :=
      if truthy (changed_daif .& CPSR_A) && negb (truthy (scr_el3 (sys env) .& SCR_AW))
      then mask .& u32 (Z.lnot CPSR_A) else mask in
    if truthy (changed_daif .& CPSR_F) then
      let mask :=
        if negb (truthy (scr_el3 (sys env) .& SCR_FW)) then mask .& u32 (Z.lnot CPSR_F) else mask in
      if truthy (sctlr_ns (sys env) .& SCTLR_NMFI) && truthy (val .& CPSR_F)
      then mask .& u32 (Z.lnot CPSR_F) else mask
    else mask
  else mask.

(** The change of mode: the new mask and value, and the state after
    [switch_mode]. *)
Definition change_mode (env : CPUARMState) (val mask : Z) (write_type : CPSRWriteType)
    : option (CPUARMState * Z * Z) :=
  if negb (is_raw write_type) && truthy ((uncached_cpsr env .^ val) .& mask .& CPSR_M) then
    if (uncached_cpsr env .& CPSR_M) =? ARM_CPU_MODE_USR then
      Some (env, val, mask .& u32 (Z.lnot CPSR_M))
    else if bad_mode_switch env (val .& CPSR_M) write_type then
      let mask := mask .& u32 (Z.lnot CPSR_M) in
      if negb (is_gdb write_type) && arm_feature env ARM_FEATURE_V8 then
        Some (env, val .| CPSR_IL, mask .| CPSR_IL)
      else Some (env, val, mask)
    else
      let? env := switch_mode env (val .& CPSR_M) in Some (env, val, mask)
  else Some (env, val, mask).

Definition cpsr_write (env : CPUARMState) (val mask : Z) (write_type : CPSRWriteType)
    : option CPUARMState :=
  let nzcv := truthy (mask .& CPSR_NZCV) in
  let zf := if nzcv then u32 (Z.lnot val) .& CPSR_Z else ZF env in
  let nf := if nzcv then val else NF env in
  let cf := if nzcv then (val .>> 29) .& 1 else CF env in
  let vf := if nzcv then u32 (val .<< 3) .& 0x80000000 else VF env in
  let qf := if truthy (mask .& CPSR_Q) then b2z (truthy (val .& CPSR_Q)) else QF env in
  let th := if truthy (mask .& CPSR_T) then b2z (truthy (val .& CPSR_T)) else thumb env in
  let it := condexec_bits env in
  let it := if truthy (mask .& CPSR_IT_0_1) then (it .& u32 (Z.lnot 3)) .| ((val .>> 25) .& 3) else it in
  let it := if truthy (mask .& CPSR_IT_2_7) then (it .& 3) .| ((val .>> 8) .& 0xfc) else it in
  let ge := if truthy (mask .& CPSR_GE) then (val .>> 16) .& 0xf else GE env in
  let mask := maskable env val mask write_type in
  let da := daif env .& u64 (u32 (Z.lnot (CPSR_AIF .& mask))) in
  let da := da .| (val .& CPSR_AIF .& mask) in
  let env := mkEnv (regs env) (uncached_cpsr env) cf vf nf zf qf ge th it da (vfp env) (sys env) in
  let? (env, val, mask) := change_mode env val mask write_type in
  let mask := mask .& u32 (Z.lnot CACHED_CPSR_BITS) in
  let un := (uncached_cpsr env .& u32 (Z.lnot mask)) .| (val .& mask) in
  Some (mkEnv (regs env) un (CF env) (VF env) (NF env) (ZF env) (QF env) (GE env) (thumb env)
          (condexec_bits env) (daif env) (vfp env) (sys env)).

(** ** FPSCR *)

Definition float_flag_invalid : Z := 1.
Definition float_flag_divbyzero : Z := 4.
Definition float_flag_overflow : Z := 8.
Definition float_flag_underflow : Z := 16.
Definition float_flag_inexact : Z := 32.
Definition float_flag_input_denormal : Z := 64.
Definition float_flag_output_denormal : Z := 128.

Definition float_round_nearest_even : Z := 0.
Definition float_round_down : Z := 1.
Definition float_round_up : Z := 2.
Definition float_round_to_zero : Z := 3.

(** [if (bits & flag) target |= bit;] *)
Definition flag_bit (bits flag bit target : Z) : Z :=
  if truthy (bits .& flag) then target .| bit else target.

Definition vfp_exceptbits_from_host (host_bits : Z) : Z :=
  let target_bits := 0 in
  let target_bits := flag_bit host_bits float_flag_invalid 1 target_bits in
  let target_bits := flag_bit host_bits float_flag_divbyzero 2 target_bits in
  let target_bits := flag_bit host_bits float_flag_overflow 4 target_bits in
  let target_bits :=
    flag_bit host_bits (float_flag_underflow .| float_flag_output_denormal) 8 target_bits in
  let target_bits := flag_bit host_bits float_flag_inexact 0x10 target_bits in
  flag_bit host_bits float_flag_input_denormal 0x80 target_bits.

Definition vfp_get_fpscr (env : CPUARMState) : Z :=
  let v := vfp env in
  let fpscr :=
    u32 ((xreg env ARM_VFP_FPSCR .& 0xffc8ffff) .| (vec_len v .<< 16) .| (vec_stride v .<< 20)) in
  let i := float_exception_flags (fp_status v) in
  let i := i .| float_exception_flags (standard_fp_status v) in
  fpscr .| vfp_exceptbits_from_host i.

Definition vfp_exceptbits_to_host (target_bits : Z) : Z :=
  let host_bits := 0 in
  let host_bits := flag_bit target_bits 1 float_flag_invalid host_bits in
  let host_bits := flag_bit target_bits 2 float_flag_divbyzero host_bits in
  let host_bits := flag_bit target_bits 4 float_flag_overflow host_bits in
  let host_bits := flag_bit target_bits 8 float_flag_underflow host_bits in
  let host_bits := flag_bit target_bits 0x10 float_flag_inexact host_bits in
  flag_bit target_bits 0x80 float_flag_input_denormal host_bits.

(** [FPROUNDING_TIEEVEN], [POSINF], [NEGINF], [ZERO] are 0 to 3. *)
Definition fpscr_rounding (i : Z) : Z :=
  if i =? 0 then float_round_nearest_even
  else if i =? 1 then float_round_up
  else if i =? 2 then float_round_down
  else if i =? 3 then float_round_to_zero
  else i.

Definition vfp_set_fpscr (env : CPUARMState) (val : Z) : CPUARMState :=
  let v := vfp env in
  let changed := xreg env ARM_VFP_FPSCR in
  let xregs := upd (vfp_xregs v) ARM_VFP_FPSCR (val .& 0xffc8ffff) in
  let changed := changed .^ val in
  let st := fp_status v in
  let rm := if truthy (changed .& (3 .<< 22)) then fpscr_rounding ((val .>> 22) .& 3)
            else float_rounding_mode st in
  let fz := if truthy (changed .& (1 .<< 24)) then truthy (val .& (1 .<< 24)) else flush_to_zero st in
  let fi := if truthy (changed .& (1 .<< 24)) then truthy (val .& (1 .<< 24))
            else flush_inputs_to_zero st in
  let dn := if truthy (changed .& (1 .<< 25)) then truthy (val .& (1 .<< 25)) else default_nan_mode st in
  let st := mkFst rm (u8 (vfp_exceptbits_to_host val)) fz fi dn in
  let sst := standard_fp_status v in
  let sst := mkFst (float_rounding_mode sst) 0 (flush_to_zero sst) (flush_inputs_to_zero sst)
               (default_nan_mode sst) in
  set_vfp env (mkVfp (vfp_regs v) xregs ((val .>> 16) .& 7) ((val .>> 20) .& 3) st sst).

(** ** Bits of CPSR *)

(** The pieces of CPSR have the width of their fields, and no bit is kept twice. *)
Record cpsr_wf (env : CPUARMState) : Prop := {
  wf_CF : inU 1 (CF env); wf_QF : inU 1 (QF env); wf_thumb : inU 1 (thumb env);
  wf_GE : inU 4 (GE env); wf_it : inU 8 (condexec_bits env);
  wf_NF : inU 32 (NF env); wf_VF : inU 32 (VF env); wf_ZF : inU 32 (ZF env);
  wf_daif : inU 64 (daif env);
  wf_uncached : inU 32 (uncached_cpsr env);
  wf_apart : uncached_cpsr env .& CACHED_CPSR_BITS = 0
}.

Definition between (lo hi i : Z) : bool := (lo <=? i) && (i <=? hi).

(** Which field holds bit [i]. *)
Definition cpsr_bit (env : CPUARMState) (i : Z) : bool :=
  if i =? 31 then Z.testbit (NF env) 31
  else if i =? 30 then ZF env =? 0
  else if i =? 29 then Z.testbit (CF env) 0
  else if i =? 28 then Z.testbit (VF env) 31
  else if i =? 27 then Z.testbit (QF env) 0
  else if between 25 26 i then Z.testbit (condexec_bits env) (i - 25)
  else if between 16 19 i then Z.testbit (GE env) (i - 16)
  else if between 10 15 i then Z.testbit (condexec_bits env) (i - 8)
  else if between 6 8 i then Z.testbit (daif env) i
  else if i =? 5 then Z.testbit (thumb env) 0
  else Z.testbit (uncached_cpsr env) i.

(** Bit [i] for each of the 32 values of [i]. *)
Lemma bit_cases (P : Z -> Prop) :
  Forall P (map Z.of_nat (seq 0 32)) -> forall i, 0 <= i < 32 -> P i.
Proof.
  intros F i Hi; rewrite Forall_forall in F; apply F, in_map_iff.
  exists (Z.to_nat i); split; [lia|apply in_seq; lia].
Qed.

Lemma apart_bit x m i : x .& m = 0 -> Z.testbit m i = true -> Z.testbit x i = false.
Proof.
  intros E T; destruct (Z.testbit x i) eqn:B; [|reflexivity].
  assert (X : Z.testbit (x .& m) i = true) by now rewrite Z.land_spec, B, T.
  now rewrite E, Z.bits_0 in X.
Qed.

(** Bits of closed words and of words below or above their width. *)
Ltac bit_facts :=
  repeat match goal with
  | |- context [Z.testbit ?x ?k] =>
      first
      [ let x' := eval vm_compute in x in
        lazymatch x' with
        | Z0 => idtac | Zpos _ => idtac | Zneg _ => idtac
        end;
        let b := eval vm_compute in (Z.testbit x k) in
        change (Z.testbit x k) with b
      | rewrite (Z.testbit_neg_r x k) by reflexivity
      | lazymatch goal with H : inU ?w x |- _ => rewrite (testbit_high w x k H) by lia end ]
  end.

Lemma testbit_b2z b i : Z.testbit (b2z b) i = (i =? 0) && b.
Proof.
  destruct b; cbn [b2z]; [|now rewrite Z.bits_0, andb_false_r].
  rewrite andb_true_r; destruct (Z.eqb_spec i 0) as [->|]; [reflexivity|].
  destruct (Z.neg_nonneg_cases i); [now apply Z.testbit_neg_r|].
  apply (testbit_high 1); unfold inU; lia.
Qed.

Lemma testbit_cpsr_read env i :
  cpsr_wf env -> 0 <= i < 32 -> Z.testbit (cpsr_read env) i = cpsr_bit env i.
Proof.
  intros [HC HQ HT HG HI HN HV HZ HD HU HA] Hi; unfold cpsr_read.
  assert (A : forall k, Z.testbit CACHED_CPSR_BITS k = true -> Z.testbit (uncached_cpsr env) k = false)
    by (intros k; now apply apart_bit).
  rewrite testbit_wrap, !Z.lor_spec, !Z.shiftl_spec, Z.shiftr_spec, !Z.land_spec by lia.
  revert i Hi; apply bit_cases; repeat (apply Forall_cons || apply Forall_nil);
    cbn -[Z.testbit CACHED_CPSR_BITS CPSR_AIF b2z Z.land].
  all: rewrite ?testbit_b2z; bit_facts; rewrite ?A by reflexivity; cbn -[Z.testbit];
    rewrite ?andb_false_r, ?andb_true_r, ?orb_false_r; reflexivity.
Qed.

(** ** Writing CPSR *)

(** cpu.h: "some bits of mask must be all-set or all-clear". *)
Definition whole (lo hi mask : Z) : Prop :=
  forall i, lo <= i <= hi -> Z.testbit mask i = Z.testbit mask lo.

Definition whole_fields (mask : Z) : Prop :=
  whole 28 31 mask /\ whole 25 26 mask /\ whole 16 19 mask /\ whole 10 15 mask.

Lemma truthy_field lo hi field mask :
  0 <= lo <= hi -> (forall i, 0 <= i -> Z.testbit field i = between lo hi i) -> whole lo hi mask ->
  truthy (mask .& field) = Z.testbit mask lo.
Proof.
  intros Hl F Wh; unfold truthy; destruct (Z.testbit mask lo) eqn:B.
  - apply negb_true_iff, Z.eqb_neq; intros E.
    assert (X : Z.testbit (mask .& field) lo = true).
    { rewrite Z.land_spec, B, F by lia; unfold between; rewrite !(proj2 (Z.leb_le _ _)) by lia; reflexivity. }
    now rewrite E, Z.bits_0 in X.
  - apply negb_false_iff, Z.eqb_eq, Z.bits_inj'; intros i Hi; rewrite Z.land_spec, F, Z.bits_0 by lia.
    unfold between; destruct (Z.leb_spec lo i), (Z.leb_spec i hi); cbn [andb]; try apply andb_false_r.
    now rewrite (Wh i), B by lia.
Qed.

Lemma field_bits n lo field :
  0 <= n -> 0 <= lo -> field = Z.ones n .<< lo ->
  forall i, 0 <= i -> Z.testbit field i = between lo (lo + n - 1) i.
Proof.
  intros Hn Hl -> i Hi; rewrite Z.shiftl_spec, Z.testbit_ones by lia; unfold between.
  destruct (Z.leb_spec 0 (i - lo)), (Z.ltb_spec (i - lo) n), (Z.leb_spec lo i), (Z.leb_spec i (lo + n - 1)); lia || reflexivity.
Qed.

(** The state after a write of the cached fields under [mask] and of the other
    bits under [mask2]. *)
Definition written (env : CPUARMState) (val mask mask2 : Z) : CPUARMState :=
  let nzcv := Z.testbit mask 28 in
  let it := condexec_bits env in
  let it := if Z.testbit mask 25 then (it .& u32 (Z.lnot 3)) .| ((val .>> 25) .& 3) else it in
  let it := if Z.testbit mask 10 then (it .& 3) .| ((val .>> 8) .& 0xfc) else it in
  let m := mask2 .& u32 (Z.lnot CACHED_CPSR_BITS) in
  mkEnv (regs env)
    ((uncached_cpsr env .& u32 (Z.lnot m)) .| (val .& m))
    (if nzcv then (val .>> 29) .& 1 else CF env)
    (if nzcv then u32 (val .<< 3) .& 0x80000000 else VF env)
    (if nzcv then val else NF env)
    (if nzcv then u32 (Z.lnot val) .& CPSR_Z else ZF env)
    (if Z.testbit mask 27 then b2z (Z.testbit val 27) else QF env)
    (if Z.testbit mask 16 then (val .>> 16) .& 0xf else GE env)
    (if Z.testbit mask 5 then b2z (Z.testbit val 5) else thumb env)
    it
    ((daif env .& u64 (u32 (Z.lnot (CPSR_AIF .& mask)))) .| (val .& CPSR_AIF .& mask))
    (vfp env) (sys env).

Lemma write_tests mask val :
  whole_fields mask ->
  truthy (mask .& CPSR_NZCV) = Z.testbit mask 28 /\ truthy (mask .& CPSR_IT_0_1) = Z.testbit mask 25 /\
  truthy (mask .& CPSR_IT_2_7) = Z.testbit mask 10 /\ truthy (mask .& CPSR_GE) = Z.testbit mask 16 /\
  truthy (mask .& CPSR_Q) = Z.testbit mask 27 /\ truthy (mask .& CPSR_T) = Z.testbit mask 5 /\
  truthy (val .& CPSR_Q) = Z.testbit val 27 /\ truthy (val .& CPSR_T) = Z.testbit val 5.
Proof.
  intros (W1 & W2 & W3 & W4); splits.
  - apply (truthy_field 28 31); [lia|apply (field_bits 4 28); lia || reflexivity|assumption].
  - apply (truthy_field 25 26); [lia|apply (field_bits 2 25); lia || reflexivity|assumption].
  - apply (truthy_field 10 15); [lia|apply (field_bits 6 10); lia || reflexivity|assumption].
  - apply (truthy_field 16 19); [lia|apply (field_bits 4 16); lia || reflexivity|assumption].
  - now apply (truthy_land_pow2 mask 27).
  - now apply (truthy_land_pow2 mask 5).
  - now apply (truthy_land_pow2 val 27).
  - now apply (truthy_land_pow2 val 5).
Qed.

(** A write that is not raw may change the A and F bits. *)
Definition scr_applies (env : CPUARMState) : bool :=
  negb (arm_feature env ARM_FEATURE_V8) && arm_feature env ARM_FEATURE_EL3 && negb (arm_feature env ARM_FEATURE_EL2).

Definition may_write_A (env : CPUARMState) : bool := negb (scr_applies env) || Z.testbit (scr_el3 (sys env)) 5.

Definition may_write_F (env : CPUARMState) (val : Z) : bool :=
  negb (scr_applies env)
  || (Z.testbit (scr_el3 (sys env)) 4 && negb (Z.testbit (sctlr_ns (sys env)) 27 && Z.testbit val 6)).

(** What [maskable] takes out of the mask: A and F where they would change and may not. *)
Lemma maskable_bit env val mask t i :
  is_raw t = false -> inU 32 mask -> 0 <= i < 32 ->
  Z.testbit (maskable env val mask t) i =
  Z.testbit mask i
  && negb (negb (may_write_A env) && (i =? 8) && xorb (Z.testbit (daif env) i) (Z.testbit val i))
  && negb (negb (may_write_F env val) && (i =? 6) && xorb (Z.testbit (daif env) i) (Z.testbit val i)).
Proof.
  intros Rw Hm Hi; unfold maskable, may_write_A, may_write_F; rewrite Rw; cbn [negb andb].
  change (negb (arm_feature env ARM_FEATURE_V8) && arm_feature env ARM_FEATURE_EL3 && negb (arm_feature env ARM_FEATURE_EL2)
          && negb (arm_is_secure env)) with (scr_applies env && true).
  rewrite andb_true_r; destruct (scr_applies env); cbn [negb orb andb]; [|now rewrite !andb_true_r].
  assert (T : forall x k, 0 <= k -> truthy (x .& (1 .<< k)) = Z.testbit x k) by (intros x k Hk; rewrite Z.shiftl_1_l; now apply truthy_land_pow2).
  assert (N : forall k, 0 <= k < 32 -> Z.testbit (u32 (Z.lnot (1 .<< k))) i = negb (i =? k)).
  { intros k Hk; rewrite testbit_wrap, Z.lnot_spec, Z.shiftl_1_l, Z.pow2_bits_eqb, (Z.eqb_sym k i) by lia.
    now rewrite (proj2 (Z.ltb_lt i 32)) by lia. }
  unfold CPSR_A, CPSR_F, SCR_AW, SCR_FW, SCTLR_NMFI; rewrite !T, !testbit_wrap, !Z.land_spec, !Z.lxor_spec by lia.
  change (6 <? 32) with true; change (8 <? 32) with true; cbn [andb].
  destruct (Z.eqb_spec i 8) as [->|N8]; [|destruct (Z.eqb_spec i 6) as [->|N6]].
  all: repeat match goal with |- context [if ?b then _ else _] => destruct b eqn:? end.
  all: repeat (rewrite Z.land_spec in * || rewrite N in * by lia); cbn -[Z.testbit wrap Z.shiftl] in *.
  all: repeat match goal with H : _ && _ = true |- _ => apply andb_true_iff in H as [? ?] end.
  all: repeat match goal with H : negb _ = true |- _ => apply negb_true_iff in H end.
  all: repeat match goal with H : Z.testbit ?x ?k = _ |- _ => rewrite H in * end.
  all: repeat match goal with H : xorb _ _ = _ |- _ => rewrite H in * end.
  all: rewrite ?(proj2 (Z.eqb_neq _ _) N8), ?(proj2 (Z.eqb_neq _ _) N6); cbn -[Z.testbit wrap Z.shiftl] in *; rewrite ?andb_true_r, ?andb_false_r.
  all: try reflexivity; try congruence.
  all: destruct (Z.testbit mask _); cbn -[Z.testbit] in *; try reflexivity; try congruence.
  all: repeat match goal with |- context [Z.testbit ?x ?k] => destruct (Z.testbit x k) eqn:? end; cbn in *; try reflexivity; congruence.
Qed.

Lemma maskable_whole env val mask t :
  is_raw t = false -> inU 32 mask -> whole_fields mask -> whole_fields (maskable env val mask t).
Proof.
  intros Rw Hm (W1 & W2 & W3 & W4).
  assert (A : forall lo hi, 8 < lo -> hi < 32 -> whole lo hi mask -> whole lo hi (maskable env val mask t)).
  { intros lo hi L H W i Hi; rewrite !maskable_bit by (auto; lia); rewrite (W i) by lia.
    rewrite !(proj2 (Z.eqb_neq _ 8)), !(proj2 (Z.eqb_neq _ 6)) by lia; now rewrite !andb_false_r. }
  repeat split; apply A; auto; lia.
Qed.

Lemma cpsr_write_eq env val mask mask2 t :
  inU 32 mask -> whole_fields mask ->
  (forall env', uncached_cpsr env' = uncached_cpsr env ->
     change_mode env' val (maskable env val mask t) t = Some (env', val, mask2)) ->
  cpsr_write env val mask t = Some (written env val (maskable env val mask t) mask2).
Proof.
  intros Hm Wf Cm; unfold cpsr_write; rewrite Cm by reflexivity.
  destruct (write_tests mask val Wf) as (-> & -> & -> & -> & -> & -> & -> & ->); unfold written.
  destruct (is_raw t) eqn:Rw; [unfold maskable; rewrite Rw; reflexivity|].
  rewrite !maskable_bit by (auto; lia); cbn [Z.eqb Pos.eqb]; rewrite !andb_false_r; cbn [andb negb]; rewrite !andb_true_r; reflexivity.
Qed.

Lemma small_land w x y : 0 <= w -> inU w y -> inU w (x .& y).
Proof. intros Hw Hy; rewrite Z.land_comm; now apply land_range. Qed.

Lemma written_wf env val mask mask2 :
  cpsr_wf env -> inU 32 val -> cpsr_wf (written env val mask mask2).
Proof.
  intros [HC HQ HT HG HI HN HV HZ HD HU HA] Hv; constructor; cbn [CF QF thumb GE condexec_bits NF VF ZF daif uncached_cpsr written].
  all: repeat match goal with |- inU _ (if ?b then _ else _) => destruct b end; try assumption.
  all: try (apply small_land; unfold inU; lia).
  all: try (match goal with |- inU 1 (b2z ?b) => destruct b; unfold inU; cbn; lia end).
  all: repeat (apply lor_range; [lia| |]); try (apply small_land; unfold inU; lia); try (apply land_range; [lia|assumption]).
  - apply land_range; [lia|]; apply wrap_range; lia.
  - apply land_range; [lia|]; apply land_range; [lia|]; apply (inU_le 32); [lia|assumption].
  - apply Z.bits_inj'; intros i Hi; rewrite Z.land_spec, Z.lor_spec, !Z.land_spec, !testbit_wrap, !Z.lnot_spec, Z.bits_0 by lia.
    rewrite Z.land_spec, testbit_wrap, Z.lnot_spec by lia.
    destruct (Z.testbit CACHED_CPSR_BITS i) eqn:C; [|apply andb_false_r].
    rewrite (apart_bit _ _ _ HA C); cbn; rewrite !andb_false_r; reflexivity.
Qed.

Lemma testbit_zero_test x : x .& CPSR_Z = 0 <-> Z.testbit x 30 = false.
Proof.
  pose proof (truthy_land_pow2 x 30 ltac:(lia)) as T; change (2 ^ 30) with CPSR_Z in T.
  unfold truthy in T; rewrite <- T, negb_false_iff; symmetry; apply Z.eqb_eq.
Qed.

(** Each bit comes from [val] where its mask is set, and stays otherwise. *)
Lemma written_bit env val mask mask2 i :
  cpsr_wf env -> inU 32 val -> whole_fields mask -> 0 <= i < 32 ->
  cpsr_bit (written env val mask mask2) i =
    if Z.testbit (if Z.testbit CACHED_CPSR_BITS i then mask else mask2) i
    then Z.testbit val i else cpsr_bit env i.
Proof.
  intros [HC HQ HT HG HI HN HV HZ HD HU HA] Hv (W1 & W2 & W3 & W4).
  assert (A : forall k, Z.testbit CACHED_CPSR_BITS k = true -> Z.testbit (uncached_cpsr env) k = false)
    by (intros k; now apply apart_bit).
  assert (E31 := W1 31); assert (E30 := W1 30); assert (E29 := W1 29).
  assert (E26 := W2 26); assert (E19 := W3 19); assert (E18 := W3 18); assert (E17 := W3 17).
  assert (E15 := W4 15); assert (E14 := W4 14); assert (E13 := W4 13); assert (E12 := W4 12); assert (E11 := W4 11).
  revert i; apply bit_cases; repeat (apply Forall_cons || apply Forall_nil);
    unfold cpsr_bit; cbn -[Z.testbit Z.land Z.lor Z.shiftr Z.shiftl CACHED_CPSR_BITS CPSR_AIF CPSR_Z wrap Z.lnot b2z].
  all: repeat match goal with |- context [Z.testbit CACHED_CPSR_BITS ?k] =>
         let b := eval vm_compute in (Z.testbit CACHED_CPSR_BITS k) in change (Z.testbit CACHED_CPSR_BITS k) with b end.
  all: cbn iota; rewrite ?E31, ?E30, ?E29, ?E26, ?E19, ?E18, ?E17, ?E15, ?E14, ?E13, ?E12, ?E11 by lia.
  all: clear E31 E30 E29 E26 E19 E18 E17 E15 E14 E13 E12 E11 W1 W2 W3 W4.
  all: repeat match goal with
       | |- context [if Z.testbit ?m ?k then _ else _] => destruct (Z.testbit m k) eqn:?
       end; try reflexivity.
  all: repeat (rewrite ?Z.lor_spec, ?Z.land_spec, ?testbit_wrap, ?Z.lnot_spec, ?testbit_b2z by lia;
    rewrite ?Z.shiftr_spec, ?Z.shiftl_spec by lia).
  all: cbn -[Z.testbit Z.land wrap Z.lnot CPSR_Z CACHED_CPSR_BITS CPSR_AIF].
  all: bit_facts; repeat match goal with H : Z.testbit _ _ = _ |- _ => rewrite H end; rewrite ?A by reflexivity.
  all: cbn -[Z.testbit Z.land wrap Z.lnot CPSR_Z]; rewrite ?andb_false_r, ?andb_true_r, ?orb_false_r; try reflexivity.
  pose proof (testbit_zero_test (u32 (Z.lnot val))) as T; rewrite testbit_wrap, Z.lnot_spec in T by lia.
  destruct (Z.testbit val 30); [now apply Z.eqb_eq, T|]; apply Z.eqb_neq; intros X; apply T in X; discriminate.
Qed.

Lemma cpsr_read_range env : inU 32 (cpsr_read env).
Proof. apply wrap_range; lia. Qed.

Lemma written_exact env val mask mask2 :
  cpsr_wf env -> inU 32 val -> inU 32 mask2 -> whole_fields mask ->
  (forall i, 0 <= i < 32 -> Z.testbit CACHED_CPSR_BITS i = true -> Z.testbit mask2 i = Z.testbit mask i) ->
  cpsr_read (written env val mask mask2) = (cpsr_read env .& Z.lnot mask2) .| (val .& mask2).
Proof.
  intros Wf Hv Hm Wh E; apply Z.bits_inj'; intros i Hi.
  rewrite Z.lor_spec, !Z.land_spec, Z.lnot_spec by lia; destruct (Z.lt_ge_cases i 32).
  - rewrite !testbit_cpsr_read, written_bit by (auto using written_wf; lia).
    destruct (Z.testbit CACHED_CPSR_BITS i) eqn:C; rewrite <- ?(E i) by (assumption || lia);
      destruct (Z.testbit mask2 i); cbn; rewrite ?andb_true_r, ?andb_false_r, ?orb_false_r; reflexivity.
  - rewrite !(testbit_high 32 (cpsr_read _)), (testbit_high 32 val) by (apply cpsr_read_range || assumption).
    reflexivity.
Qed.

Definition same_frame (env env' : CPUARMState) : Prop :=
  regs env' = regs env /\ vfp env' = vfp env /\ sys env' = sys env.

Lemma cpsr_write_raw_ok env val mask :
  cpsr_wf env -> inU 32 val -> inU 32 mask -> whole_fields mask ->
  exists env', cpsr_write env val mask CPSRWriteRaw = Some env' /\ cpsr_wf env' /\ same_frame env env' /\
    cpsr_read env' = (cpsr_read env .& Z.lnot mask) .| (val .& mask).
Proof.
  intros Wf Hv Hm Wh; exists (written env val mask mask); splits.
  - apply (cpsr_write_eq env val mask mask CPSRWriteRaw); auto; intros env' _; reflexivity.
  - now apply written_wf.
  - repeat split.
  - apply written_exact; auto.
Qed.

(** C25: a raw write of CPSR, the one exec makes, never aborts: the pieces CPSR is kept
    in afterwards read back as the old value with the masked bits replaced, for every
    value and every mask that selects whole fields, and no register, VFP or system state
    changes. *)
Theorem cpsr_write_raw_exact env val mask :
  cpsr_wf env -> inU 32 val -> inU 32 mask -> whole_fields mask ->
  exists env', cpsr_write env val mask CPSRWriteRaw = Some env' /\ cpsr_wf env' /\ same_frame env env' /\
    cpsr_read env' = (cpsr_read env .& Z.lnot mask) .| (val .& mask).
Proof. apply cpsr_write_raw_ok. Qed.

Lemma all_ones_whole : whole_fields 0xffffffff.
Proof.
  assert (A : forall lo hi, 0 <= lo -> hi < 32 -> whole lo hi 0xffffffff).
  { intros lo hi Hl Hh i Hi; change 0xffffffff with (Z.ones 32); rewrite !Z.testbit_ones by lia.
    destruct (Z.leb_spec 0 i), (Z.ltb_spec i 32), (Z.leb_spec 0 lo), (Z.ltb_spec lo 32); lia || reflexivity. }
  repeat split; apply A; lia.
Qed.

(** A small CPU in user mode. *)
Definition user_cpu : CPUARMState :=
  mkEnv (repeat 0 16) ARM_CPU_MODE_USR 0 0 0 1 0 0 0 0 0
    (mkVfp (repeat 0 64) (repeat 0 16) 0 0 (mkFst 0 0 false false false) (mkFst 0 0 true true true))
    (mkSys 0 0 0 0 0 0 (repeat 0 4) (repeat 0 4) 0 0 0 0 0 0 0 0).

Lemma user_cpu_wf : cpsr_wf user_cpu.
Proof. constructor; cbn; unfold inU, ARM_CPU_MODE_USR; lia || reflexivity. Qed.

Lemma cpsr_write_raw_exact_witness :
  exists env', cpsr_write user_cpu 0x68000030 0xffffffff CPSRWriteRaw = Some env' /\ cpsr_wf env' /\
    same_frame user_cpu env' /\
    cpsr_read env' = (cpsr_read user_cpu .& Z.lnot 0xffffffff) .| (0x68000030 .& 0xffffffff).
Proof.
  apply (cpsr_write_raw_exact user_cpu 0x68000030 0xffffffff); [exact user_cpu_wf| | |exact all_ones_whole];
    unfold inU; lia.
Defined.

(** The bits that a write in user mode changes: none of the mode, and A and F
    only where they may be written. *)
Definition user_mask (env : CPUARMState) (val mask : Z) : Z :=
  mask .& Z.lnot CPSR_M .& (if may_write_A env then Z.lnot 0 else Z.lnot CPSR_A)
  .& (if may_write_F env val then Z.lnot 0 else Z.lnot CPSR_F).

Lemma user_mask_bit env val mask i : 0 <= i ->
  Z.testbit (user_mask env val mask) i =
  Z.testbit mask i && negb (Z.testbit CPSR_M i) && negb (negb (may_write_A env) && (i =? 8)) && negb (negb (may_write_F env val) && (i =? 6)).
Proof.
  intros Hi; unfold user_mask; rewrite !Z.land_spec, Z.lnot_spec by lia.
  assert (N : forall k, 0 <= k -> Z.testbit (Z.lnot (1 .<< k)) i = negb (i =? k)).
  { intros k Hk; rewrite Z.lnot_spec, Z.shiftl_1_l, Z.pow2_bits_eqb, (Z.eqb_sym k i) by lia; reflexivity. }
  destruct (may_write_A env), (may_write_F env val); unfold CPSR_A, CPSR_F; rewrite ?N, ?Z.lnot_spec, ?Z.bits_0 by lia; reflexivity.
Qed.

(** The mode bits are those of [uncached_cpsr]. *)
Lemma mode_bit env i : cpsr_wf env -> 0 <= i -> Z.testbit CPSR_M i = true ->
  Z.testbit (cpsr_read env) i = Z.testbit (uncached_cpsr env) i.
Proof.
  intros Wf Hi C.
  assert (Li : i < 5) by (destruct (Z.lt_ge_cases i 5); [assumption|]; rewrite (testbit_high 5) in C; [discriminate|unfold inU, CPSR_M; lia|assumption]).
  rewrite testbit_cpsr_read by (assumption || lia); unfold cpsr_bit, between.
  repeat match goal with |- context [?a =? ?b] => destruct (Z.eqb_spec a b); [lia|] end.
  repeat match goal with |- context [?a <=? i] => rewrite (proj2 (Z.leb_gt a i)) by lia end; reflexivity.
Qed.

(** In user mode the mask of the uncached bits has the mode taken out where it differs. *)
Lemma change_mode_user env val mask t :
  is_raw t = false -> uncached_cpsr env .& CPSR_M = ARM_CPU_MODE_USR ->
  exists mask2, change_mode env val mask t = Some (env, val, mask2) /\
    (inU 32 mask -> inU 32 mask2 /\
     (forall i, 0 <= i -> Z.testbit CPSR_M i = false -> Z.testbit mask2 i = Z.testbit mask i)) /\
    (forall i, 0 <= i -> Z.testbit mask2 i = true -> Z.testbit CPSR_M i = true -> Z.testbit val i = Z.testbit (uncached_cpsr env) i).
Proof.
  intros Rw Us; unfold change_mode; rewrite Rw, Us, Z.eqb_refl; cbn [negb andb].
  destruct (truthy _) eqn:T; eexists; (split; [reflexivity|]); split.
  - intros Hm; split; [apply land_range; [lia|assumption]|]; intros i Hi C.
    rewrite Z.land_spec, testbit_wrap, Z.lnot_spec, C by lia; cbn [negb]; rewrite andb_true_r.
    destruct (Z.ltb_spec i 32); [apply andb_true_r|]; now rewrite (testbit_high 32 mask) by assumption.
  - intros i Hi; rewrite Z.land_spec, testbit_wrap, Z.lnot_spec, !andb_true_iff by lia; intros [_ [_ X]] Y; rewrite Y in X; discriminate.
  - auto.
  - intros i Hi B C; unfold truthy in T; apply negb_false_iff, Z.eqb_eq in T.
    assert (X : Z.testbit ((uncached_cpsr env .^ val) .& mask .& CPSR_M) i = false) by now rewrite T, Z.bits_0.
    rewrite !Z.land_spec, Z.lxor_spec, B, C in X.
    destruct (Z.testbit val i), (Z.testbit (uncached_cpsr env) i); discriminate || reflexivity.
Qed.

(** C37: guest code in user mode cannot leave it: a write of CPSR that is not raw, with
    any value and mask and on a CPU with any features, succeeds, keeps the mode and
    changes no register and no VFP or system state; and for a mask that selects whole
    fields CPSR reads back as the old value with exactly the masked bits replaced,
    except the mode bits and, without EL2 and ARMv8 but with EL3, the A bit and the F
    bit where SCR and SCTLR.NMFI forbid their change. *)
Theorem cpsr_write_user_exact env val mask t :
  is_raw t = false -> uncached_cpsr env .& CPSR_M = ARM_CPU_MODE_USR ->
  exists env', cpsr_write env val mask t = Some env' /\ same_frame env env' /\
    uncached_cpsr env' .& CPSR_M = ARM_CPU_MODE_USR /\
    (cpsr_wf env -> inU 32 val -> inU 32 mask -> whole_fields mask ->
     cpsr_wf env' /\
     cpsr_read env' = (cpsr_read env .& Z.lnot (user_mask env val mask)) .| (val .& user_mask env val mask)).
Proof.
  intros Rw Us; set (mask1 := maskable env val mask t).
  destruct (change_mode_user env val mask1 t Rw Us) as (mask2 & Cm & Mo & Mb).
  assert (Cm' : forall env', uncached_cpsr env' = uncached_cpsr env -> change_mode env' val mask1 t = Some (env', val, mask2)).
  { intros env' E; revert Cm; unfold change_mode; rewrite E, Rw, Us, Z.eqb_refl; cbn [negb andb].
    destruct (truthy _); intros X; now injection X as <-. }
  assert (Ex : exists env', cpsr_write env val mask t = Some env' /\ same_frame env env' /\
    let m := mask2 .& u32 (Z.lnot CACHED_CPSR_BITS) in uncached_cpsr env' = (uncached_cpsr env .& u32 (Z.lnot m)) .| (val .& m)).
  { eexists; splits; [unfold cpsr_write; fold mask1; rewrite Cm' by reflexivity; reflexivity|repeat split|reflexivity]. }
  destruct Ex as (env' & Ew & Fr & Eu); exists env'; splits; auto.
  - rewrite Eu, <- Us; apply Z.bits_inj'; intros i Hi.
    rewrite (Z.land_spec _ CPSR_M), (Z.land_spec _ CPSR_M); destruct (Z.testbit CPSR_M i) eqn:C; [|now rewrite !andb_false_r].
    rewrite !andb_true_r, Z.lor_spec, !Z.land_spec, testbit_wrap, Z.lnot_spec, Z.land_spec by lia.
    assert (Li : i < 32) by (destruct (Z.lt_ge_cases i 5); [lia|]; rewrite (testbit_high 5) in C; [discriminate|unfold inU, CPSR_M; lia|assumption]).
    rewrite (proj2 (Z.ltb_lt i 32) Li); cbn [andb]; set (k := Z.testbit (u32 (Z.lnot CACHED_CPSR_BITS)) i).
    destruct (Z.testbit mask2 i) eqn:B; cbn [andb negb]; [|now rewrite andb_true_r, andb_false_r, orb_false_r].
    rewrite (Mb i Hi B C); destruct k, (Z.testbit (uncached_cpsr env) i); reflexivity.
  - intros Wf Hv Hm Wh; assert (Hm1 : inU 32 mask1).
    { unfold mask1, maskable; cbv zeta; repeat match goal with |- context [if ?b then _ else _] => destruct b end;
        repeat (apply land_range; [lia|]); exact Hm. }
    destruct (Mo Hm1) as [Hm2 Mo']; assert (Wh1 := maskable_whole env val mask t Rw Hm Wh); fold mask1 in Wh1.
    assert (Eq := cpsr_write_eq env val mask mask2 t Hm Wh Cm'); fold mask1 in Eq.
    rewrite Ew in Eq; apply (f_equal (fun o => match o with Some e => e | None => env' end)) in Eq; cbn beta iota in Eq; rewrite Eq.
    split; [now apply written_wf|].
    rewrite written_exact; auto; [|intros i Hi C; apply Mo'; [lia|]; revert C; revert i Hi;
      apply (bit_cases (fun i => Z.testbit CACHED_CPSR_BITS i = true -> Z.testbit CPSR_M i = false));
      repeat (apply Forall_cons || apply Forall_nil); discriminate || reflexivity].
    apply Z.bits_inj'; intros i Hi; rewrite !Z.lor_spec, !Z.land_spec, !Z.lnot_spec, user_mask_bit by lia.
    destruct (Z.lt_ge_cases i 32) as [Li|Li];
      [|rewrite (testbit_high 32 (cpsr_read env)), (testbit_high 32 val) by (apply cpsr_read_range || assumption); reflexivity].
    destruct (Z.testbit CPSR_M i) eqn:C.
    + rewrite andb_false_r; cbn [andb negb]; rewrite andb_true_r, andb_false_r, orb_false_r.
      destruct (Z.testbit mask2 i) eqn:B; cbn [negb]; rewrite ?andb_true_r, ?andb_false_r, ?orb_false_r; cbn [orb]; [|reflexivity].
      now rewrite (Mb i Hi B C), mode_bit.
    + rewrite Mo' by (assumption || lia); unfold mask1; rewrite maskable_bit by (auto; lia); cbn [negb]; rewrite andb_true_r.
      assert (Rd : i = 8 \/ i = 6 -> Z.testbit (cpsr_read env) i = Z.testbit (daif env) i).
      { intros [-> | ->]; rewrite testbit_cpsr_read by (assumption || lia); reflexivity. }
      destruct (Z.eqb_spec i 8) as [E8|N8]; [rewrite (Rd (or_introl E8)); subst i|destruct (Z.eqb_spec i 6) as [E6|N6]; [rewrite (Rd (or_intror E6)); subst i|]];
        destruct (Z.testbit mask _), (may_write_A env), (may_write_F env val), (Z.testbit val _); try destruct (Z.testbit (daif env) _); cbn; try reflexivity;
        rewrite ?andb_true_r, ?andb_false_r, ?orb_false_r; reflexivity.
Qed.

(** A CPU of ARMv7 with the security extensions: A and F keep their values. *)
Definition secure_cpu : CPUARMState :=
  mkEnv (repeat 0 16) ARM_CPU_MODE_USR 0 0 0 1 0 0 0 0 0
    (mkVfp (repeat 0 64) (repeat 0 16) 0 0 (mkFst 0 0 false false false) (mkFst 0 0 true true true))
    (mkSys (1 .<< 39) 0 0 0 0 0 (repeat 0 4) (repeat 0 4) 0 0 0 0 0 0 0 0).

Lemma secure_cpu_wf : cpsr_wf secure_cpu.
Proof. constructor; cbn; unfold inU, ARM_CPU_MODE_USR; lia || reflexivity. Qed.

Lemma cpsr_write_user_exact_witness :
  (exists env', cpsr_write user_cpu 0xf80001df 0xffffffff CPSRWriteByInstr = Some env' /\ cpsr_read env' = 0xf80001d0) /\
  (exists env', cpsr_write secure_cpu 0xf80001df 0xffffffff CPSRWriteByInstr = Some env' /\ cpsr_read env' = 0xf8000090).
Proof.
  split.
  - destruct (cpsr_write_user_exact user_cpu 0xf80001df 0xffffffff CPSRWriteByInstr) as (env' & E & _ & _ & R); [reflexivity|reflexivity|].
    destruct R as [_ R]; [exact user_cpu_wf|unfold inU; lia|unfold inU; lia|exact all_ones_whole|].
    exists env'; split; [exact E|rewrite R; vm_compute; reflexivity].
  - destruct (cpsr_write_user_exact secure_cpu 0xf80001df 0xffffffff CPSRWriteByInstr) as (env' & E & _ & _ & R); [reflexivity|reflexivity|].
    destruct R as [_ R]; [exact secure_cpu_wf|unfold inU; lia|unfold inU; lia|exact all_ones_whole|].
    exists env'; split; [exact E|rewrite R; vm_compute; reflexivity].
Defined.

(** ** Writing FPSCR *)

Lemma truthy_land_bit x k : 0 <= k -> truthy (x .& (1 .<< k)) = Z.testbit x k.
Proof. intros; rewrite Z.shiftl_1_l; now apply truthy_land_pow2. Qed.

(** The exception bits survive the conversion to softfloat flags and back. *)
Lemma exceptbits_roundtrip v :
  u8 (vfp_exceptbits_to_host v) = vfp_exceptbits_to_host v /\
  vfp_exceptbits_from_host (vfp_exceptbits_to_host v) = v .& 0x9f.
Proof.
  assert (T : forall k, 0 <= k -> truthy (v .& 2 ^ k) = Z.testbit v k) by (intros; now apply truthy_land_pow2).
  assert (E : v .& 0x9f =
    (if Z.testbit v 0 then 1 else 0) .| (if Z.testbit v 1 then 2 else 0) .| (if Z.testbit v 2 then 4 else 0)
    .| (if Z.testbit v 3 then 8 else 0) .| (if Z.testbit v 4 then 16 else 0) .| (if Z.testbit v 7 then 128 else 0)).
  { change 0x9f with (2 ^ 0 .| 2 ^ 1 .| 2 ^ 2 .| 2 ^ 3 .| 2 ^ 4 .| 2 ^ 7).
    rewrite !Z.land_lor_distr_r, !land_pow2 by lia; reflexivity. }
  rewrite E; unfold vfp_exceptbits_to_host, flag_bit.
  change (v .& 1) with (v .& 2 ^ 0); change (v .& 2) with (v .& 2 ^ 1); change (v .& 4) with (v .& 2 ^ 2);
    change (v .& 8) with (v .& 2 ^ 3); change (v .& 0x10) with (v .& 2 ^ 4); change (v .& 0x80) with (v .& 2 ^ 7).
  rewrite !T by lia.
  destruct (Z.testbit v 0), (Z.testbit v 1), (Z.testbit v 2), (Z.testbit v 3), (Z.testbit v 4), (Z.testbit v 7);
    split; reflexivity.
Qed.

(** The softfloat status says what FPSCR says. *)
Record fpscr_coherent (env : CPUARMState) : Prop := {
  coh_mask : xreg env ARM_VFP_FPSCR .& 0xffc8ffff = xreg env ARM_VFP_FPSCR;
  coh_rounding : float_rounding_mode (fp_status (vfp env)) = fpscr_rounding ((vfp_get_fpscr env .>> 22) .& 3);
  coh_flush : flush_to_zero (fp_status (vfp env)) = Z.testbit (vfp_get_fpscr env) 24 /\
              flush_inputs_to_zero (fp_status (vfp env)) = Z.testbit (vfp_get_fpscr env) 24;
  coh_nan : default_nan_mode (fp_status (vfp env)) = Z.testbit (vfp_get_fpscr env) 25
}.

Lemma set_fpscr_xreg env val :
  (ARM_VFP_FPSCR < length (vfp_xregs (vfp env)))%nat ->
  xreg (vfp_set_fpscr env val) ARM_VFP_FPSCR = val .& 0xffc8ffff.
Proof. intros L; unfold xreg, vfp_set_fpscr; cbn [vfp set_vfp vfp_xregs]; now apply nth_upd_eq. Qed.

Lemma fpscr_pieces val :
  inU 32 val ->
  u32 ((val .& 0xffc8ffff .& 0xffc8ffff) .| (((val .>> 16) .& 7) .<< 16) .| (((val .>> 20) .& 3) .<< 20))
    .| (val .& 0x9f) = val.
Proof.
  intros Hv.
  replace (u32 _) with val by route.
  apply Z.bits_inj'; intros i Hi; rewrite Z.lor_spec, Z.land_spec; destruct (Z.testbit val i); reflexivity.
Qed.

Lemma fpscr_set_get env val :
  (ARM_VFP_FPSCR < length (vfp_xregs (vfp env)))%nat -> inU 32 val ->
  vfp_get_fpscr (vfp_set_fpscr env val) = val.
Proof.
  intros L Hv; unfold vfp_get_fpscr; cbv zeta; rewrite set_fpscr_xreg by assumption.
  unfold vfp_set_fpscr; cbn [vfp set_vfp vec_len vec_stride fp_status standard_fp_status float_exception_flags].
  destruct (exceptbits_roundtrip val) as [-> E]; rewrite Z.lor_0_r, E; now apply fpscr_pieces.
Qed.

Lemma fpscr_changed a b f :
  truthy ((a .^ b) .& f) = false -> a .& f = b .& f.
Proof.
  intros T; apply negb_false_iff, Z.eqb_eq in T; apply Z.lxor_eq.
  rewrite <- T; apply Z.bits_inj'; intros i Hi; rewrite Z.lxor_spec, !Z.land_spec, Z.lxor_spec.
  destruct (Z.testbit f i); rewrite ?andb_true_r, ?andb_false_r; reflexivity.
Qed.

Lemma bits_of_land a b f k : a .& f = b .& f -> Z.testbit f k = true -> Z.testbit a k = Z.testbit b k.
Proof.
  intros E T; pose proof (f_equal (fun z => Z.testbit z k) E) as X; cbn in X.
  now rewrite !Z.land_spec, T, !andb_true_r in X.
Qed.

Lemma get_fpscr_high env k :
  22 <= k < 26 -> inU 3 (vec_len (vfp env)) -> inU 2 (vec_stride (vfp env)) ->
  Z.testbit (vfp_get_fpscr env) k = Z.testbit (xreg env ARM_VFP_FPSCR) k.
Proof.
  intros Hk Hl Hs; unfold vfp_get_fpscr; cbv zeta.
  rewrite Z.lor_spec, testbit_wrap, !Z.lor_spec, Z.land_spec, !Z.shiftl_spec by lia.
  rewrite (testbit_high 3 (vec_len _)), (testbit_high 2 (vec_stride _)) by (assumption || lia).
  assert (E : Z.testbit (vfp_exceptbits_from_host
      (float_exception_flags (fp_status (vfp env)) .| float_exception_flags (standard_fp_status (vfp env)))) k = false).
  { unfold vfp_exceptbits_from_host, flag_bit; set (x := _ .| _).
    apply (testbit_high 8); [|lia].
    destruct (truthy (x .& float_flag_invalid)), (truthy (x .& float_flag_divbyzero)),
      (truthy (x .& float_flag_overflow)), (truthy (x .& (float_flag_underflow .| float_flag_output_denormal))),
      (truthy (x .& float_flag_inexact)), (truthy (x .& float_flag_input_denormal)); unfold inU; cbn; lia. }
  rewrite E, !orb_false_r; destruct (Z.ltb_spec k 32); [|lia]; cbn [andb].
  assert (C : k = 22 \/ k = 23 \/ k = 24 \/ k = 25) by lia.
  destruct C as [-> | [-> | [-> | ->]]]; cbn -[Z.testbit]; apply andb_true_r.
Qed.

Lemma rounding_bits a b :
  Z.testbit a 22 = Z.testbit b 22 -> Z.testbit a 23 = Z.testbit b 23 -> (a .>> 22) .& 3 = (b .>> 22) .& 3.
Proof.
  intros E E'; apply Z.bits_inj'; intros i Hi; rewrite !Z.land_spec, !Z.shiftr_spec by lia.
  destruct (Z.eq_dec i 0) as [->|]; [change (0 + 22) with 22; now rewrite E|].
  destruct (Z.eq_dec i 1) as [->|]; [change (1 + 22) with 23; now rewrite E'|].
  rewrite (testbit_high 2 3) by (unfold inU; lia); now rewrite !andb_false_r.
Qed.

Lemma vfp_set_fpscr_ok env val :
  (ARM_VFP_FPSCR < length (vfp_xregs (vfp env)))%nat -> inU 32 val ->
  inU 3 (vec_len (vfp env)) -> inU 2 (vec_stride (vfp env)) -> fpscr_coherent env ->
  vfp_get_fpscr (vfp_set_fpscr env val) = val /\ fpscr_coherent (vfp_set_fpscr env val) /\
  vfp_regs (vfp (vfp_set_fpscr env val)) = vfp_regs (vfp env) /\
  (forall n, n <> ARM_VFP_FPSCR -> xreg (vfp_set_fpscr env val) n = xreg env n).
Proof.
  intros L Hv Hl Hs [Cm Cr [Cf Ci] Cn].
  assert (G := fpscr_set_get env val L Hv).
  assert (B : forall k, 22 <= k < 26 -> Z.testbit (vfp_get_fpscr env) k = Z.testbit (xreg env ARM_VFP_FPSCR) k)
    by (intros; now apply get_fpscr_high).
  splits; auto.
  - constructor; rewrite ?G; [rewrite set_fpscr_xreg by assumption; rewrite <- Z.land_assoc; reflexivity|..];
      unfold vfp_set_fpscr; cbn [vfp set_vfp fp_status float_rounding_mode flush_to_zero flush_inputs_to_zero default_nan_mode].
    + destruct (truthy _) eqn:T; [reflexivity|]; apply fpscr_changed in T; rewrite Cr; f_equal.
      apply rounding_bits; rewrite B by lia;
        [exact (bits_of_land _ _ _ 22 T eq_refl)|exact (bits_of_land _ _ _ 23 T eq_refl)].
    + destruct (truthy ((_ .^ _) .& _)) eqn:T; [rewrite truthy_land_bit by lia; auto|].
      apply fpscr_changed in T; rewrite Cf, Ci, B by lia; split; exact (bits_of_land _ _ _ 24 T eq_refl).
    + destruct (truthy ((_ .^ _) .& _)) eqn:T; [rewrite truthy_land_bit by lia; reflexivity|].
      apply fpscr_changed in T; rewrite Cn, B by lia; exact (bits_of_land _ _ _ 25 T eq_refl).
  - intros n N; unfold xreg, vfp_set_fpscr; cbn [vfp set_vfp vfp_xregs]; apply nth_upd_ne; congruence.
Qed.

(** FPSCR read after it was written is the value written, all 32 bits, although it is
    kept in pieces; the softfloat rounding mode, flush and NaN controls agree with the
    value afterwards if they did before, although they are only updated on a change; no
    other register changes. *)
Theorem vfp_fpscr_roundtrip env val :
  (ARM_VFP_FPSCR < length (vfp_xregs (vfp env)))%nat -> inU 32 val ->
  inU 3 (vec_len (vfp env)) -> inU 2 (vec_stride (vfp env)) -> fpscr_coherent env ->
  vfp_get_fpscr (vfp_set_fpscr env val) = val /\ fpscr_coherent (vfp_set_fpscr env val) /\
  vfp_regs (vfp (vfp_set_fpscr env val)) = vfp_regs (vfp env) /\
  (forall n, n <> ARM_VFP_FPSCR -> xreg (vfp_set_fpscr env val) n = xreg env n).
Proof. apply vfp_set_fpscr_ok. Qed.

Lemma vfp_fpscr_roundtrip_witness :
  vfp_get_fpscr (vfp_set_fpscr user_cpu 0xf7f7009f) = 0xf7f7009f /\
  fpscr_coherent (vfp_set_fpscr user_cpu 0xf7f7009f).
Proof.
  assert (C : fpscr_coherent user_cpu) by (constructor; vm_compute; auto).
  split; apply (vfp_fpscr_roundtrip user_cpu 0xf7f7009f); try exact C;
    solve [unfold inU; cbn; lia | unfold ARM_VFP_FPSCR; cbn; lia].
Defined.
