(* ===== verification/NeonLanes.v ===== *)
(** * NEON vectors in a machine word

    The lane types, [NEON_UNPACK]/[NEON_PACK] and the operation macros of
    target-arm/neon_helper.c, lines 15-150, with the lemmas that reduce a
    statement about a helper to a statement about one lane. *)

From Stdlib Require Import ZArith Lia List Bool.
From S2P Require Import Prelude Cpu.
Import ListNotations.
Local Open Scope Z_scope.
Local Open Scope c_scope.

(** ** Definitions *)

Definition SIGNBIT : Z := 0x80000000.
Definition SIGNBIT64 : Z := 1 .<< 63.

Definition SET_QC : M unit := fun env =>
  let x := vfp_xregs (vfp env) in
  (tt, set_vfp_xregs env (upd x ARM_VFP_FPSCR (nth ARM_VFP_FPSCR x 0 .| CPSR_Q))).

(** [NEON_TYPE1/2/4]: a struct of [elt_n] lanes, lane [v1] in the low bits. *)
Record vtype := mkV { elt_bits : Z; elt_signed : bool; elt_n : nat }.

Definition neon_s8 := mkV 8 true 4.
Definition neon_u8 := mkV 8 false 4.
Definition neon_s16 := mkV 16 true 2.
Definition neon_u16 := mkV 16 false 2.
Definition neon_s32 := mkV 32 true 1.
Definition neon_u32 := mkV 32 false 1.

(** Conversion to the lane's C type. *)
Definition cast (vt : vtype) (x : Z) : Z :=
  if elt_signed vt then swrap (elt_bits vt) x else wrap (elt_bits vt) x.

Fixpoint unpack (c : Z -> Z) (bits : Z) (n : nat) (val : Z) : list Z :=
  match n with
  | O => []
  | S n => c val :: unpack c bits n (val .>> bits)
  end.

Fixpoint pack (bits : Z) (l : list Z) : Z :=
  match l with
  | [] => 0
  | x :: l => wrap bits x .| (pack bits l .<< bits)
  end.

Definition NEON_UNPACK (vt : vtype) (val : Z) : list Z :=
  unpack (cast vt) (elt_bits vt) (elt_n vt) val.

Definition NEON_PACK (vt : vtype) (l : list Z) : Z := pack (elt_bits vt) l.

(** [NEON_DO1/2/4] over a lane function that may set QC. *)
Fixpoint NEON_DO (fn : Z -> Z -> M Z) (l1 l2 : list Z) : M (list Z) :=
  match l1, l2 with
  | x :: l1, y :: l2 => d <- fn x y;; ds <- NEON_DO fn l1 l2;; ret (d :: ds)
  | _, _ => ret []
  end.

Definition NEON_VOP_ENV (vt : vtype) (fn : Z -> Z -> M Z) (env : CPUARMState)
    (arg1 arg2 : Z) : Z * CPUARMState :=
  (vdest <- NEON_DO fn (NEON_UNPACK vt arg1) (NEON_UNPACK vt arg2);;
   ret (NEON_PACK vt vdest)) env.

Definition NEON_VOP (vt : vtype) (fn : Z -> Z -> Z) (arg1 arg2 : Z) : Z :=
  NEON_PACK vt (map2 fn (NEON_UNPACK vt arg1) (NEON_UNPACK vt arg2)).

(** [NEON_PDO2/4]: adjacent pairs of the first, then of the second operand. *)
Fixpoint NEON_PDO (fn : Z -> Z -> Z) (l : list Z) : list Z :=
  match l with
  | x :: y :: l => fn x y :: NEON_PDO fn l
  | _ => []
  end.

Definition NEON_POP (vt : vtype) (fn : Z -> Z -> Z) (arg1 arg2 : Z) : Z :=
  NEON_PACK vt (NEON_PDO fn (NEON_UNPACK vt arg1) ++ NEON_PDO fn (NEON_UNPACK vt arg2)).

Definition NEON_VOP1 (vt : vtype) (fn : Z -> Z) (arg : Z) : Z :=
  NEON_PACK vt (map fn (NEON_UNPACK vt arg)).

(** ** Specification vocabulary *)

(** All bits of the vector. *)
Definition vbits (vt : vtype) : Z := elt_bits vt * Z.of_nat (elt_n vt).

Definition lane_in (vt : vtype) (x : Z) : Prop :=
  if elt_signed vt then inS (elt_bits vt) x else inU (elt_bits vt) x.

(** Saturation to the lane's type. *)
Definition sat (vt : vtype) (x : Z) : Z :=
  if elt_signed vt then ssat (elt_bits vt) x else usat (elt_bits vt) x.

Definition qc_if (b : bool) (env : CPUARMState) : CPUARMState :=
  if b then snd (SET_QC env) else env.

Definition qc_flag (env : CPUARMState) : bool :=
  Z.testbit (nth ARM_VFP_FPSCR (vfp_xregs (vfp env)) 0) 27.

(** [h] computes [g] on every pair of lanes. *)
Definition lanes2 (va vb vd : vtype) (g : Z -> Z -> Z) (h : Z -> Z -> Z) : Prop :=
  forall a b, inU (vbits va) a -> inU (vbits vb) b ->
    inU (vbits vd) (h a b) /\
    NEON_UNPACK vd (h a b) = map2 g (NEON_UNPACK va a) (NEON_UNPACK vb b).

Definition lanes1 (va vd : vtype) (g : Z -> Z) (h : Z -> Z) : Prop :=
  forall a, inU (vbits va) a ->
    inU (vbits vd) (h a) /\ NEON_UNPACK vd (h a) = map g (NEON_UNPACK va a).

(** Adjacent pairs of the concatenated operands. *)
Definition pairs (vt : vtype) (g : Z -> Z -> Z) (h : Z -> Z -> Z) : Prop :=
  forall a b, inU (vbits vt) a -> inU (vbits vt) b ->
    let l := NEON_UNPACK vt a ++ NEON_UNPACK vt b in
    inU (vbits vt) (h a b) /\
    NEON_UNPACK vt (h a b) =
      map (fun i => g (nth (2 * i) l 0) (nth (2 * i + 1) l 0)) (seq 0 (elt_n vt)).

(** [h] computes [g] on every pair of lanes and sets QC, which is sticky,
    exactly when [q] holds of some pair; nothing else of the state changes. *)
Definition lanes2_qc (va vb vd : vtype) (g : Z -> Z -> Z) (q : Z -> Z -> bool)
    (h : CPUARMState -> Z -> Z -> Z * CPUARMState) : Prop :=
  forall env a b, inU (vbits va) a -> inU (vbits vb) b ->
    snd (h env a b) = qc_if (any2 q (NEON_UNPACK va a) (NEON_UNPACK vb b)) env /\
    inU (vbits vd) (fst (h env a b)) /\
    NEON_UNPACK vd (fst (h env a b)) = map2 g (NEON_UNPACK va a) (NEON_UNPACK vb b).

(** The saturating operation whose exact result is [f]: each lane is [f]
    clamped to the result type, and QC tells whether a lane was clamped. *)
Definition saturates2 (va vb vd : vtype) (f : Z -> Z -> Z) :=
  lanes2_qc va vb vd (fun x y => sat vd (f x y)) (fun x y => negb (sat vd (f x y) =? f x y)).

Definition saturates1 (va vd : vtype) (f : Z -> Z)
    (h : CPUARMState -> Z -> Z * CPUARMState) : Prop :=
  forall env a, inU (vbits va) a ->
    snd (h env a) =
      qc_if (existsb (fun x => negb (sat vd (f x) =? f x)) (NEON_UNPACK va a)) env /\
    inU (vbits vd) (fst (h env a)) /\
    NEON_UNPACK vd (fst (h env a)) = map (fun x => sat vd (f x)) (NEON_UNPACK va a).

(** ** Lanes *)

Lemma cast_in vt x : 0 < elt_bits vt -> lane_in vt (cast vt x).
Proof. unfold lane_in, cast; intros; destruct (elt_signed vt); auto with crange. Qed.

Lemma cast_id vt x : 0 < elt_bits vt -> lane_in vt x -> cast vt x = x.
Proof.
  unfold lane_in, cast; intros; destruct (elt_signed vt); [apply swrap_id|apply wrap_id]; auto.
Qed.

Lemma cast_wrap vt x : 0 < elt_bits vt -> cast vt (wrap (elt_bits vt) x) = cast vt x.
Proof.
  unfold cast; intros; destruct (elt_signed vt); [apply swrap_wrap|apply wrap_wrap]; lia.
Qed.

Lemma wrap_cast vt x : 0 < elt_bits vt -> wrap (elt_bits vt) (cast vt x) = wrap (elt_bits vt) x.
Proof.
  unfold cast; intros; destruct (elt_signed vt); [apply wrap_swrap|apply wrap_wrap]; lia.
Qed.

Lemma sat_in vt x : 0 < elt_bits vt -> lane_in vt (sat vt x).
Proof. unfold lane_in, sat; intros; destruct (elt_signed vt); auto with crange. Qed.

Lemma pack_cons bits x l : 0 <= bits -> pack bits (x :: l) = wrap bits x + pack bits l * 2 ^ bits.
Proof. intros; apply lor_shiftl_add; auto with crange. Qed.

Lemma pack_range bits l : 0 <= bits -> inU (bits * Z.of_nat (length l)) (pack bits l).
Proof.
  intros Hb; induction l as [|x l IH]; [unfold inU; simpl; rewrite Z.mul_0_r; lia|].
  rewrite pack_cons by lia; cbn [length]; rewrite Nat2Z.inj_succ, Z.mul_succ_r.
  pose proof (wrap_range bits x Hb); unfold inU in *.
  rewrite Z.pow_add_r by lia; pose proof (pow2_pos bits Hb); nia.
Qed.

Lemma shiftr_pack bits x l : 0 <= bits -> pack bits (x :: l) .>> bits = pack bits l.
Proof.
  intros; rewrite pack_cons, Z.shiftr_div_pow2, Z.div_add by (pose proof (pow2_pos bits); lia).
  rewrite Z.div_small by (apply wrap_range; lia); lia.
Qed.

Lemma wrap_pack bits x l : 0 <= bits -> wrap bits (pack bits (x :: l)) = wrap bits x.
Proof.
  intros; rewrite pack_cons by lia; unfold wrap at 1; rewrite Z.mod_add, Z.mod_small;
    pose proof (pow2_pos bits); try lia; apply wrap_range; lia.
Qed.

Lemma unpack_pack c bits l :
  0 <= bits -> (forall x, c (wrap bits x) = c x) ->
  unpack c bits (length l) (pack bits l) = map c l.
Proof.
  intros Hb Hc; induction l as [|x l IH]; [reflexivity|].
  cbn [length unpack map]; rewrite shiftr_pack, IH by lia; f_equal.
  now rewrite <- Hc, wrap_pack, Hc by lia.
Qed.

Lemma shiftr_split bits v : 0 <= bits -> v = wrap bits v .| ((v .>> bits) .<< bits).
Proof.
  intros; rewrite lor_shiftl_add by auto with crange.
  rewrite Z.shiftr_div_pow2 by lia; unfold wrap; pose proof (pow2_pos bits).
  rewrite (Z.div_mod v (2 ^ bits)) at 1 by lia; lia.
Qed.

Lemma shiftr_range bits m v :
  0 <= bits -> 0 <= m -> inU (bits + m) v -> inU m (v .>> bits).
Proof.
  intros Hb Hm [H0 H1]; rewrite Z.pow_add_r in H1 by lia; unfold inU.
  rewrite Z.shiftr_div_pow2 by lia; pose proof (pow2_pos bits Hb); split.
  - apply Z.div_pos; lia.
  - apply Z.div_lt_upper_bound; lia.
Qed.

Lemma pack_unpack c bits n v :
  0 <= bits -> (forall x, wrap bits (c x) = wrap bits x) ->
  inU (bits * Z.of_nat n) v -> pack bits (unpack c bits n v) = v.
Proof.
  intros Hb Hc; revert v; induction n as [|n IH]; intros v Hv.
  - unfold inU in Hv; rewrite Z.mul_0_r in Hv; simpl in *; lia.
  - replace (bits * Z.of_nat (S n)) with (bits + bits * Z.of_nat n) in Hv by lia.
    cbn [unpack pack]; rewrite IH by (apply shiftr_range; lia || assumption).
    rewrite Hc; symmetry; now apply shiftr_split.
Qed.

Lemma length_unpack c bits n v : length (unpack c bits n v) = n.
Proof. revert v; induction n; simpl; auto. Qed.

Lemma length_UNPACK vt v : length (NEON_UNPACK vt v) = elt_n vt.
Proof. apply length_unpack. Qed.

Lemma UNPACK_in vt v : 0 < elt_bits vt -> Forall (lane_in vt) (NEON_UNPACK vt v).
Proof.
  intros H; unfold NEON_UNPACK; generalize (elt_n vt); intros n; revert v.
  induction n; simpl; constructor; auto using cast_in.
Qed.

Lemma UNPACK_PACK vt l :
  0 < elt_bits vt -> length l = elt_n vt -> NEON_UNPACK vt (NEON_PACK vt l) = map (cast vt) l.
Proof.
  intros Hb E; unfold NEON_UNPACK; rewrite <- E; apply unpack_pack; [lia|].
  intros; now apply cast_wrap.
Qed.

Lemma PACK_UNPACK vt v :
  0 < elt_bits vt -> inU (vbits vt) v -> NEON_PACK vt (NEON_UNPACK vt v) = v.
Proof. intros; apply pack_unpack; [lia| |assumption]; intros; now apply wrap_cast. Qed.

Lemma PACK_range vt l :
  0 < elt_bits vt -> length l = elt_n vt -> inU (vbits vt) (NEON_PACK vt l).
Proof. intros Hb E; unfold vbits, NEON_PACK; rewrite <- E; apply pack_range; lia. Qed.

(** A vector is determined by its lanes. *)
Lemma UNPACK_inj vt v v' :
  0 < elt_bits vt -> inU (vbits vt) v -> inU (vbits vt) v' ->
  NEON_UNPACK vt v = NEON_UNPACK vt v' -> v = v'.
Proof.
  intros Hb Hv Hv' E; rewrite <- (PACK_UNPACK vt v), <- (PACK_UNPACK vt v'), E by auto; auto.
Qed.

(** A one-lane vector is its value. *)
Lemma UNPACK_one vt v :
  elt_n vt = 1%nat -> NEON_UNPACK vt v = [cast vt v].
Proof. unfold NEON_UNPACK; intros ->; reflexivity. Qed.

(** ** QC *)

Lemma SET_QC_twice env : snd (SET_QC (snd (SET_QC env))) = snd (SET_QC env).
Proof.
  destruct env as [? ? ? ? ? ? ? ? ? ? ? [r x l s f g]].
  unfold SET_QC, set_vfp_xregs, set_vfp; simpl; do 2 f_equal; clear.
  destruct x as [|x0 [|x1 x]]; simpl; auto; do 2 f_equal.
  now rewrite <- Z.lor_assoc, Z.lor_diag.
Qed.

Lemma qc_if_qc_if b c env : qc_if b (qc_if c env) = qc_if (c || b) env.
Proof. destruct b, c; cbn [qc_if orb]; auto using SET_QC_twice. Qed.

Lemma qc_flag_qc_if b env :
  (ARM_VFP_FPSCR < length (vfp_xregs (vfp env)))%nat ->
  qc_flag (qc_if b env) = b || qc_flag env.
Proof.
  unfold qc_flag; destruct b; [|reflexivity]; intros; cbn [qc_if SET_QC snd set_vfp_xregs set_vfp vfp vfp_xregs].
  rewrite nth_upd_eq by assumption; rewrite Z.lor_spec; apply orb_true_r.
Qed.

(** ** The operation macros, lane by lane *)

Lemma NEON_DO_lanes (c : Z -> Z) fn g q (P Q : Z -> Prop) :
  (forall x y env, P x -> Q y ->
     c (fst (fn x y env)) = g x y /\ snd (fn x y env) = qc_if (q x y) env) ->
  forall l1 l2 env, Forall P l1 -> Forall Q l2 ->
  map c (fst (NEON_DO fn l1 l2 env)) = map2 g l1 l2 /\
  snd (NEON_DO fn l1 l2 env) = qc_if (any2 q l1 l2) env.
Proof.
  intros E l1; induction l1 as [|x l1 IH]; intros [|y l2] env H1 H2; try (split; reflexivity).
  inversion_clear H1 as [|? ? Px H1']; inversion_clear H2 as [|? ? Qy H2'].
  cbn [NEON_DO]; unfold bind, any2; cbn [map2 existsb].
  destruct (E x y env Px Qy) as [V S]; destruct (fn x y env) as [d env']; cbn [fst snd] in *; subst.
  destruct (IH l2 (qc_if (q x y) env) H1' H2') as [V' S'].
  destruct (NEON_DO fn l1 l2 _) as [ds env'']; cbn [fst snd ret map] in *.
  split; [congruence|]; subst; apply qc_if_qc_if.
Qed.

Lemma VOP_lanes vt f g :
  0 < elt_bits vt ->
  (forall x y, lane_in vt x -> lane_in vt y -> cast vt (f x y) = g x y) ->
  lanes2 vt vt vt g (NEON_VOP vt f).
Proof.
  intros Hb E a b _ _; unfold NEON_VOP; split.
  - apply PACK_range; [assumption|]; rewrite length_map2, !length_UNPACK; lia.
  - rewrite UNPACK_PACK, map_map2 by (assumption || rewrite length_map2, !length_UNPACK; lia).
    eapply map2_ext_in; [exact E| |]; now apply UNPACK_in.
Qed.

Lemma VOP1_lanes vt f g :
  0 < elt_bits vt -> (forall x, lane_in vt x -> cast vt (f x) = g x) ->
  lanes1 vt vt g (NEON_VOP1 vt f).
Proof.
  intros Hb E a _; unfold NEON_VOP1; split.
  - apply PACK_range; [assumption|]; now rewrite length_map, length_UNPACK.
  - rewrite UNPACK_PACK, map_map by (assumption || now rewrite length_map, length_UNPACK).
    apply map_ext_in; intros x Hx; apply E.
    eapply Forall_forall; [apply UNPACK_in|]; eassumption.
Qed.

Lemma VOP_ENV_lanes vt fn g q :
  0 < elt_bits vt ->
  (forall x y env, lane_in vt x -> lane_in vt y ->
     cast vt (fst (fn x y env)) = g x y /\ snd (fn x y env) = qc_if (q x y) env) ->
  lanes2_qc vt vt vt g q (NEON_VOP_ENV vt fn).
Proof.
  intros Hb E env a b Ha Hb'; unfold NEON_VOP_ENV, bind.
  destruct (NEON_DO_lanes (cast vt) fn g q _ _ E (NEON_UNPACK vt a) (NEON_UNPACK vt b) env)
    as [V S]; try now apply UNPACK_in.
  destruct (NEON_DO fn _ _ env) as [l env']; cbn [fst snd ret] in *.
  assert (length l = elt_n vt)
    by (rewrite <- (length_map (cast vt) l), V, length_map2, !length_UNPACK; lia).
  rewrite UNPACK_PACK by assumption; auto using PACK_range.
Qed.

(** A helper on whole words is the one-lane case. *)
Lemma scalar_lanes_qc va vb vd g q h :
  elt_n va = 1%nat -> elt_n vb = 1%nat -> elt_n vd = 1%nat ->
  0 < elt_bits va -> 0 < elt_bits vb -> 0 < elt_bits vd ->
  (forall env a b, inU (elt_bits va) a -> inU (elt_bits vb) b ->
     inU (elt_bits vd) (fst (h env a b)) /\ cast vd (fst (h env a b)) = g (cast va a) (cast vb b) /\
     snd (h env a b) = qc_if (q (cast va a) (cast vb b)) env) ->
  lanes2_qc va vb vd g q h.
Proof.
  intros Na Nb Nd Ba Bb Bd E env a b Ha Hb; unfold vbits in *.
  rewrite Na, Z.mul_1_r in Ha; rewrite Nb, Z.mul_1_r in Hb; rewrite Nd, Z.mul_1_r.
  destruct (E env a b Ha Hb) as (R & V & Q); rewrite !UNPACK_one by assumption.
  unfold any2; cbn [map2 existsb]; rewrite orb_false_r, Q, V; auto.
Qed.

Lemma scalar_lanes va vb vd g h :
  elt_n va = 1%nat -> elt_n vb = 1%nat -> elt_n vd = 1%nat ->
  0 < elt_bits va -> 0 < elt_bits vb -> 0 < elt_bits vd ->
  (forall a b, inU (elt_bits va) a -> inU (elt_bits vb) b ->
     inU (elt_bits vd) (h a b) /\ cast vd (h a b) = g (cast va a) (cast vb b)) ->
  lanes2 va vb vd g h.
Proof.
  intros Na Nb Nd Ba Bb Bd E a b Ha Hb; unfold vbits in *.
  rewrite Na, Z.mul_1_r in Ha; rewrite Nb, Z.mul_1_r in Hb; rewrite Nd, Z.mul_1_r.
  destruct (E a b Ha Hb) as (R & V); rewrite !UNPACK_one, V by assumption; auto.
Qed.

(** Helpers on whole words, as vectors of one 64-bit lane. *)
Definition neon_s64 := mkV 64 true 1.
Definition neon_u64 := mkV 64 false 1.

(** The vectors in a 64-bit register. *)
Definition q_u16 := mkV 16 false 4.
Definition q_s16 := mkV 16 true 4.
Definition q_u32 := mkV 32 false 2.
Definition q_s32 := mkV 32 true 2.

(** ** Reading the code of a saturating helper *)

Lemma run_sat1 (c : bool) (x y : Z) env :
  (if c then SET_QC;;; ret x else ret y) env = (if c then x else y, qc_if c env).
Proof. destruct c; reflexivity. Qed.

Lemma run_sat2 (c d : bool) (x y z : Z) env :
  (if c then SET_QC;;; ret x else if d then SET_QC;;; ret y else ret z) env =
    (if c then x else if d then y else z, qc_if (c || d) env).
Proof. destruct c, d; reflexivity. Qed.

Lemma truthy_sign_xor w x y :
  0 < w -> inU w x -> inU w y ->
  truthy ((x .^ y) .& 2 ^ (w - 1)) = xorb (2 ^ (w - 1) <=? x) (2 ^ (w - 1) <=? y).
Proof.
  intros; rewrite truthy_land_pow2, Z.lxor_spec, !testbit_top by (assumption || lia); reflexivity.
Qed.

Lemma truthy_sign w x :
  0 < w -> inU w x -> truthy (x .& 2 ^ (w - 1)) = (2 ^ (w - 1) <=? x).
Proof. intros; rewrite truthy_land_pow2, testbit_top by (assumption || lia); reflexivity. Qed.

Lemma shiftr_sign w x :
  0 < w -> inU w x -> swrap w x .>> (w - 1) = if 2 ^ (w - 1) <=? x then -1 else 0.
Proof.
  intros Hw Hx; rewrite swrap_of_wrap by assumption; unfold inU in Hx.
  pose proof (pow2_split w Hw); rewrite Z.shiftr_div_pow2 by lia.
  destruct (Z.ltb_spec x (2 ^ (w - 1))), (Z.leb_spec (2 ^ (w - 1)) x); try lia.
  - apply Z.div_small; lia.
  - symmetry; apply Z.div_unique with (x - 2 ^ (w - 1)); lia.
Qed.

(** The saturated value with the sign of [x], in the two forms the code uses. *)
Lemma sat_value32 x :
  inU 32 x ->
  u32 (Z.lnot (u32 (s32 x .>> 31) .^ SIGNBIT)) = if 2 ^ 31 <=? x then 2 ^ 31 else 2 ^ 31 - 1.
Proof. intros; rewrite (shiftr_sign 32) by (assumption || lia); destruct (_ <=? _); reflexivity. Qed.

Lemma sat_value32' x :
  inU 32 x ->
  u32 (s32 x .>> 31) .^ u32 (Z.lnot SIGNBIT) = if 2 ^ 31 <=? x then 2 ^ 31 else 2 ^ 31 - 1.
Proof. intros; rewrite (shiftr_sign 32) by (assumption || lia); destruct (_ <=? _); reflexivity. Qed.

Lemma sat_value64 x :
  inU 64 x ->
  u64 (s64 x .>> 63) .^ u64 (Z.lnot SIGNBIT64) = if 2 ^ 63 <=? x then 2 ^ 63 else 2 ^ 63 - 1.
Proof. intros; rewrite (shiftr_sign 64) by (assumption || lia); destruct (_ <=? _); reflexivity. Qed.

(** [scalar]: a statement about a one-lane helper becomes, for operands [a] and
    [b] in range, its range, its value and its QC condition. *)
Ltac scalar :=
  first
    [ apply scalar_lanes_qc; try reflexivity;
      let env := fresh "env" in let a := fresh "a" in let b := fresh "b" in
      intros env a b; cbn [elt_bits neon_s32 neon_u32 neon_s64 neon_u64];
      intros ?Ha ?Hb
    | apply scalar_lanes; try reflexivity;
      let a := fresh "a" in let b := fresh "b" in
      intros a b; cbn [elt_bits neon_s32 neon_u32 neon_s64 neon_u64]; intros ?Ha ?Hb ];
  unfold cast, sat; cbn [elt_bits elt_signed neon_s32 neon_u32 neon_s64 neon_u64].

(** [lanes]: a statement about a lane-wise helper becomes one about a lane. *)
Ltac lanes :=
  first
    [ apply VOP_ENV_lanes; [reflexivity|]; intros ?x ?y ?env ?Hx ?Hy
    | apply VOP_lanes; [reflexivity|]; intros ?x ?y ?Hx ?Hy
    | apply VOP1_lanes; [reflexivity|]; intros ?x ?Hx ];
  unfold lane_in, cast, sat in *;
  cbn [elt_bits elt_signed neon_s8 neon_u8 neon_s16 neon_u16 neon_s32 neon_u32] in *.

Ltac sat_lane := rewrite run_sat1; cbn [fst snd]; split; [|f_equal]; cases.
Ltac sat_word := rewrite ?run_sat1, ?run_sat2; cbn [fst snd]; split; [|split]; [| |f_equal].

(** Read the tests of the sign bit [sb] of [w]-bit words as comparisons. *)
Ltac sign_tests w sb :=
  change sb with (2 ^ (w - 1));
  rewrite ?(truthy_sign_xor w) by auto with crange;
  change (w - 1) with ltac:(let m := eval vm_compute in (w - 1) in exact m).

(** ** Words built lane by lane *)

(** The lanes of a word, as the fields that [extract32] reads. *)
Lemma UNPACK4 s v :
  NEON_UNPACK (mkV 8 s 4) v =
    map (fun k => cast (mkV 8 s 4) (v .>> k)) [0; 8; 16; 24].
Proof.
  unfold NEON_UNPACK; cbn [elt_bits elt_n unpack map].
  now rewrite !Z.shiftr_shiftr, Z.shiftr_0_r by lia.
Qed.

Lemma UNPACK2 s v :
  NEON_UNPACK (mkV 16 s 2) v = map (fun k => cast (mkV 16 s 2) (v .>> k)) [0; 16].
Proof.
  unfold NEON_UNPACK; cbn [elt_bits elt_n unpack map]; now rewrite Z.shiftr_0_r.
Qed.

(** A word built from its lanes with their saturation flags. *)
Lemma packed_qc va vb vd g q h :
  0 < elt_bits vd -> elt_n va = elt_n vd -> elt_n vb = elt_n vd ->
  (forall x y, cast vd (g x y) = g x y) ->
  (forall env a b, h env a b =
     (NEON_PACK vd (map2 g (NEON_UNPACK va a) (NEON_UNPACK vb b)),
      qc_if (any2 q (NEON_UNPACK va a) (NEON_UNPACK vb b)) env)) ->
  lanes2_qc va vb vd g q h.
Proof.
  intros Hb Na Nb Hg E env a b Ha Hb'; rewrite E; cbn [fst snd].
  assert (length (map2 g (NEON_UNPACK va a) (NEON_UNPACK vb b)) = elt_n vd)
    by (rewrite length_map2, !length_UNPACK; lia).
  rewrite UNPACK_PACK, map_map2 by assumption; split; [reflexivity|].
  split; [now apply PACK_range|].
  eapply map2_ext_in with (P := fun _ => True) (Q := fun _ => True); auto;
    apply Forall_forall; auto.
Qed.

(** The word built from the wrapped lane-wise sums or differences. *)
Lemma packed_lanes bits n g h :
  0 < bits ->
  (forall a b, inU (bits * Z.of_nat n) a -> inU (bits * Z.of_nat n) b ->
     h a b = pack bits (map2 (fun x y => wrap bits (g x y)) (unpack (wrap bits) bits n a)
                                                        (unpack (wrap bits) bits n b))) ->
  lanes2 (mkV bits false n) (mkV bits false n) (mkV bits false n) (fun x y => wrap bits (g x y)) h.
Proof.
  intros Hb E a b Ha Hb'; rewrite (E a b Ha Hb'); split.
  - apply (PACK_range (mkV bits false n)); [assumption|].
    rewrite length_map2, !length_unpack; simpl; lia.
  - etransitivity; [apply (UNPACK_PACK (mkV bits false n)); [assumption|]|].
    + rewrite length_map2, !length_unpack; simpl; lia.
    + rewrite map_map2; unfold cast; cbn [elt_signed elt_bits].
      eapply map2_ext_in with (P := fun _ => True) (Q := fun _ => True);
        try (apply Forall_forall; auto); intros; apply wrap_wrap; lia.
Qed.
