(* ===== verification/NeonSwar.v ===== *)
(** * Arithmetic on words that hold several lanes

    The helpers that add or subtract all lanes of a word with one machine
    addition ([neon_add_u8], [neon_addl_u16], [neon_subl_u32], ...) rely on
    masking the top bit of each lane so that no carry crosses a lane; the
    lemmas of this file prove that method for any lane width. *)

From Stdlib Require Import ZArith Lia List Bool.
From S2P Require Import Prelude Cpu NeonLanes.
Import ListNotations.
Local Open Scope Z_scope.
Local Open Scope c_scope.

(** ** Arithmetic on packed words *)

Section PackedWords.
Context (bits : Z) (Hbits : 0 < bits).
Let h := 2 ^ (bits - 1).

Lemma bits_cons_op (bop : bool -> bool -> bool) (op : Z -> Z -> Z) x y p q :
  bop false false = false ->
  (forall u v i, Z.testbit (op u v) i = bop (Z.testbit u i) (Z.testbit v i)) ->
  op (wrap bits x .| (p .<< bits)) (wrap bits y .| (q .<< bits)) =
    wrap bits (op x y) .| (op p q .<< bits).
Proof.
  intros H0 Hop; apply Z.bits_inj'; intros i Hi.
  rewrite Hop, !Z.lor_spec, !testbit_wrap, !Z.shiftl_spec, Hop by lia.
  destruct (Z.ltb_spec i bits); simpl; rewrite ?Hop; [|reflexivity].
  rewrite !(Z.testbit_neg_r _ (i - bits)) by lia; now rewrite !orb_false_r, H0, orb_false_r.
Qed.

Lemma land_pack la lb :
  length la = length lb -> pack bits la .& pack bits lb = pack bits (map2 Z.land la lb).
Proof.
  revert lb; induction la as [|x la IH]; intros [|y lb] E; try discriminate; [reflexivity|].
  cbn [pack map2]; rewrite <- IH by (injection E; auto).
  apply (bits_cons_op andb); [reflexivity|]; intros; apply Z.land_spec.
Qed.

Lemma lxor_pack la lb :
  length la = length lb -> pack bits la .^ pack bits lb = pack bits (map2 Z.lxor la lb).
Proof.
  revert lb; induction la as [|x la IH]; intros [|y lb] E; try discriminate; [reflexivity|].
  cbn [pack map2]; rewrite <- IH by (injection E; auto).
  apply (bits_cons_op xorb); [reflexivity|]; intros; apply Z.lxor_spec.
Qed.

Lemma lor_pack la lb :
  length la = length lb -> pack bits la .| pack bits lb = pack bits (map2 Z.lor la lb).
Proof.
  revert lb; induction la as [|x la IH]; intros [|y lb] E; try discriminate; [reflexivity|].
  cbn [pack map2]; rewrite <- IH by (injection E; auto).
  apply (bits_cons_op orb); [reflexivity|]; intros; apply Z.lor_spec.
Qed.

(** Sums and differences that stay inside their lanes do not interact. *)
Lemma add_pack la lb :
  length la = length lb ->
  Forall (inU bits) la -> Forall (inU bits) lb -> Forall (inU bits) (map2 Z.add la lb) ->
  pack bits la + pack bits lb = pack bits (map2 Z.add la lb).
Proof.
  revert lb; induction la as [|x la IH]; intros [|y lb] E Ha Hb Hs; try discriminate; [reflexivity|].
  inversion_clear Ha; inversion_clear Hb; inversion_clear Hs; cbn [map2] in *.
  rewrite !pack_cons, <- IH, !wrap_id by (assumption || lia || injection E; auto); lia.
Qed.

Lemma sub_pack la lb :
  length la = length lb ->
  Forall (inU bits) la -> Forall (inU bits) lb -> Forall (inU bits) (map2 Z.sub la lb) ->
  pack bits la - pack bits lb = pack bits (map2 Z.sub la lb).
Proof.
  revert lb; induction la as [|x la IH]; intros [|y lb] E Ha Hb Hs; try discriminate; [reflexivity|].
  inversion_clear Ha; inversion_clear Hb; inversion_clear Hs; cbn [map2] in *.
  rewrite !pack_cons, <- IH, !wrap_id by (assumption || lia || injection E; auto); lia.
Qed.

(** The top bit of a lane. *)
Lemma lxor_low z : 0 <= z < h -> z .^ h = z + h.
Proof.
  intros Hz; symmetry; apply Z.add_nocarry_lxor; unfold h; rewrite land_pow2 by lia.
  now rewrite (testbit_high (bits - 1)) by (unfold inU; fold h; lia).
Qed.

Lemma lxor_top z : inU bits z -> z .^ h = if h <=? z then z - h else z + h.
Proof.
  intros Hz; unfold inU in Hz; pose proof (pow2_split bits Hbits) as P; fold h in P.
  destruct (Z.leb_spec h z); [|apply lxor_low; lia].
  replace z with ((z - h) .^ h) at 1 by (rewrite lxor_low; lia).
  now rewrite Z.lxor_assoc, Z.lxor_nilpotent, Z.lxor_0_r.
Qed.

Lemma lor_top z : inU bits z -> z .| h = if h <=? z then z else z + h.
Proof.
  intros Hz; unfold inU in Hz; pose proof (pow2_split bits Hbits) as P; fold h in P.
  assert (L : forall z, 0 <= z < h -> z .| h = z + h).
  { intros y Hy; rewrite <- lxor_low by assumption; symmetry; apply Z.lxor_lor.
    unfold h; rewrite land_pow2 by lia.
    now rewrite (testbit_high (bits - 1)) by (unfold inU; fold h; lia). }
  destruct (Z.leb_spec h z); [|apply L; lia].
  replace z with ((z - h) .| h) at 1 by (rewrite L; lia).
  rewrite <- Z.lor_assoc, Z.lor_diag, L; lia.
Qed.

Lemma land_low z : inU bits z -> z .& (h - 1) = if h <=? z then z - h else z.
Proof.
  intros Hz; unfold inU in Hz; pose proof (pow2_split bits Hbits) as P; fold h in P.
  replace (h - 1) with (Z.ones (bits - 1)) by (rewrite Z.ones_equiv; unfold h; lia).
  rewrite Z.land_ones by lia; fold h; destruct (Z.leb_spec h z).
  - symmetry; apply Z.mod_unique with 1; lia.
  - apply Z.mod_small; lia.
Qed.

Lemma land_top z : inU bits z -> z .& h = if h <=? z then h else 0.
Proof. intros; unfold h; rewrite land_pow2, testbit_top by (assumption || lia); reflexivity. Qed.

(** The lane identity behind the carry-less packed addition, and the one
    behind the packed subtraction. *)
Lemma swar_add_lane x y :
  inU bits x -> inU bits y ->
  ((x .& (h - 1)) + (y .& (h - 1))) .^ ((x .^ y) .& h) = wrap bits (x + y).
Proof.
  intros Hx Hy; pose proof (pow2_split bits Hbits) as P; fold h in P.
  rewrite land_top, !land_low by auto with crange.
  replace (h <=? x .^ y) with (xorb (h <=? x) (h <=? y))
    by (unfold h; rewrite <- !testbit_top by auto with crange; symmetry; apply Z.lxor_spec).
  unfold inU in *; destruct (Z.leb_spec h x), (Z.leb_spec h y); cbn [xorb];
    rewrite ?Z.lxor_0_r, ?lxor_top by (unfold inU; lia); try case_bool; symmetry;
    first [rewrite wrap_id by (unfold inU; lia); lia | rewrite wrap_over by lia; lia].
Qed.

Lemma swar_sub_lane x y :
  inU bits x -> inU bits y ->
  ((x .| h) - (y .& (h - 1))) .^ ((x .^ wrap bits (Z.lnot y)) .& h) = wrap bits (x - y).
Proof.
  intros Hx Hy; pose proof (pow2_split bits Hbits) as P; fold h in P.
  rewrite land_top, land_low, lor_top by auto with crange.
  replace (h <=? x .^ wrap bits (Z.lnot y)) with (xorb (h <=? x) (negb (h <=? y)))
    by (unfold h; rewrite <- !testbit_top by auto with crange; rewrite Z.lxor_spec, testbit_wrap,
          Z.lnot_spec by lia; destruct (Z.ltb_spec (bits - 1) bits); reflexivity || lia).
  unfold inU in *; destruct (Z.leb_spec h x), (Z.leb_spec h y); cbn [xorb negb];
    rewrite ?Z.lxor_0_r, ?lxor_top by (unfold inU; lia); try case_bool; symmetry;
    first [rewrite wrap_id by (unfold inU; lia); lia | rewrite wrap_neg by lia; lia].
Qed.

(** ** Packed addition and subtraction of whole words *)

Let U n := unpack (wrap bits) bits n.

Lemma U_in n v : Forall (inU bits) (U n v).
Proof. revert v; induction n; simpl; constructor; auto with crange. Qed.

Lemma U_length n v : length (U n v) = n.
Proof. apply length_unpack. Qed.

Lemma pack_U n v : inU (bits * Z.of_nat n) v -> pack bits (U n v) = v.
Proof. intros; apply pack_unpack; auto; [lia|]; intros; apply wrap_wrap; lia. Qed.

Lemma U_pack l : Forall (inU bits) l -> U (length l) (pack bits l) = l.
Proof.
  intros; unfold U; rewrite unpack_pack by (lia || intros; apply wrap_wrap; lia).
  rewrite <- (map_id l) at 2; apply map_ext_in; intros x Hx; apply wrap_id.
  eapply Forall_forall in H; eassumption.
Qed.

Lemma land_const_in k l n :
  Forall (inU bits) l -> Forall (inU bits) (map2 Z.land l (repeat k n)).
Proof.
  intros H; revert n; induction H; intros [|n]; simpl; constructor; auto with crange.
Qed.

Lemma lor_const_in k l n :
  inU bits k -> Forall (inU bits) l -> Forall (inU bits) (map2 Z.lor l (repeat k n)).
Proof.
  intros Hk H; revert n; induction H; intros [|n]; simpl; constructor; auto with crange.
Qed.

Let NH n := repeat (h - 1) n.
Let HH n := repeat h n.

Lemma swar_add_list la lb n :
  length la = n -> length lb = n -> Forall (inU bits) la -> Forall (inU bits) lb ->
  Forall (inU bits) (map2 Z.add (map2 Z.land la (NH n)) (map2 Z.land lb (NH n))) /\
  map2 Z.lxor (map2 Z.add (map2 Z.land la (NH n)) (map2 Z.land lb (NH n)))
              (map2 Z.land (map2 Z.lxor la lb) (HH n)) =
    map2 (fun x y => wrap bits (x + y)) la lb.
Proof.
  pose proof (pow2_split bits Hbits) as P; fold h in P.
  intros E1 E2 Ha; revert lb n E1 E2; induction Ha as [|x la Hx Ha IH];
    intros lb n E1 E2 Hb; subst n; destruct Hb as [|y lb Hy Hb]; try discriminate;
    [split; constructor|]; cbn [length] in *; injection E2 as E2.
  destruct (IH lb (length la) eq_refl E2 Hb) as [F E].
  unfold NH, HH in *; cbn [repeat map2]; split; [constructor; [|exact F]|].
  - rewrite !land_low by assumption; unfold inU in *; cases; lia.
  - rewrite E; f_equal; now apply swar_add_lane.
Qed.

Lemma swar_sub_list la lb n :
  length la = n -> length lb = n -> Forall (inU bits) la -> Forall (inU bits) lb ->
  Forall (inU bits) (map2 Z.sub (map2 Z.lor la (HH n)) (map2 Z.land lb (NH n))) /\
  map2 Z.lxor (map2 Z.sub (map2 Z.lor la (HH n)) (map2 Z.land lb (NH n)))
       (map2 Z.land (map2 Z.lxor la (map (fun y => wrap bits (Z.lnot y)) lb)) (HH n)) =
    map2 (fun x y => wrap bits (x - y)) la lb.
Proof.
  pose proof (pow2_split bits Hbits) as P; fold h in P.
  intros E1 E2 Ha; revert lb n E1 E2; induction Ha as [|x la Hx Ha IH];
    intros lb n E1 E2 Hb; subst n; destruct Hb as [|y lb Hy Hb]; try discriminate;
    [split; constructor|]; cbn [length] in *; injection E2 as E2.
  destruct (IH lb (length la) eq_refl E2 Hb) as [F E].
  unfold NH, HH in *; cbn [repeat map2 map]; split; [constructor; [|exact F]|].
  - rewrite land_low, lor_top by assumption; unfold inU in *; cases; lia.
  - rewrite E; f_equal; now apply swar_sub_lane.
Qed.

(** The complement of a packed word, lane by lane. *)
Lemma lnot_pack l :
  wrap (bits * Z.of_nat (length l)) (Z.lnot (pack bits l)) =
    pack bits (map (fun y => wrap bits (Z.lnot y)) l).
Proof.
  induction l as [|x l IH]; [cbn; rewrite Z.mul_0_r; reflexivity|].
  cbn [pack map length]; rewrite <- IH, wrap_wrap by lia; apply Z.bits_inj'; intros i Hi.
  rewrite testbit_wrap, Z.lnot_spec, !Z.lor_spec, !testbit_wrap, !Z.shiftl_spec, Z.lnot_spec by lia.
  destruct (Z.ltb_spec i bits); cbn [andb].
  - rewrite !(Z.testbit_neg_r _ (i - bits)) by lia.
    destruct (Z.ltb_spec i (bits * Z.of_nat (S (length l)))); [|nia].
    now rewrite !orb_false_r.
  - rewrite testbit_wrap, Z.lnot_spec by lia; cbn [orb].
    destruct (Z.ltb_spec i (bits * Z.of_nat (S (length l)))),
      (Z.ltb_spec (i - bits) (bits * Z.of_nat (length l))); reflexivity || nia.
Qed.

Ltac lengths := rewrite ?length_map2, ?length_map; unfold NH, HH; rewrite ?repeat_length; lia.

Lemma pack_range_n l n : length l = n -> inU (bits * Z.of_nat n) (pack bits l).
Proof. intros <-; apply pack_range; lia. Qed.

Lemma swar_add_pack la lb n :
  length la = n -> length lb = n -> Forall (inU bits) la -> Forall (inU bits) lb ->
  wrap (bits * Z.of_nat n) ((pack bits la .& pack bits (NH n)) + (pack bits lb .& pack bits (NH n)))
    .^ ((pack bits la .^ pack bits lb) .& pack bits (HH n)) =
  pack bits (map2 (fun x y => wrap bits (x + y)) la lb).
Proof.
  intros E1 E2 Ha Hb; destruct (swar_add_list la lb n E1 E2 Ha Hb) as [F E].
  rewrite lxor_pack, !land_pack, add_pack by (assumption || lengths || now apply land_const_in).
  rewrite <- E, <- lxor_pack by lengths; f_equal; apply wrap_id.
  apply pack_range_n; lengths.
Qed.

Lemma swar_sub_pack la lb n :
  length la = n -> length lb = n -> Forall (inU bits) la -> Forall (inU bits) lb ->
  wrap (bits * Z.of_nat n) ((pack bits la .| pack bits (HH n)) - (pack bits lb .& pack bits (NH n)))
    .^ ((pack bits la .^ wrap (bits * Z.of_nat n) (Z.lnot (pack bits lb))) .& pack bits (HH n)) =
  pack bits (map2 (fun x y => wrap bits (x - y)) la lb).
Proof.
  intros E1 E2 Ha Hb; destruct (swar_sub_list la lb n E1 E2 Ha Hb) as [F E].
  assert (inU bits h)
    by (unfold inU, h; pose proof (pow2_split bits Hbits); pose proof (pow2_pos (bits - 1)); lia).
  pose proof (lnot_pack lb) as L; rewrite E2 in L; rewrite L.
  rewrite lxor_pack, lor_pack, !land_pack, sub_pack
    by (assumption || lengths || now apply land_const_in || now apply lor_const_in).
  rewrite <- E, <- lxor_pack by lengths; f_equal; apply wrap_id.
  apply pack_range_n; lengths.
Qed.

(** Packed addition: every lane of the sum is the sum of the lanes. *)
Lemma swar_add n a b :
  inU (bits * Z.of_nat n) a -> inU (bits * Z.of_nat n) b ->
  wrap (bits * Z.of_nat n) ((a .& pack bits (NH n)) + (b .& pack bits (NH n)))
    .^ ((a .^ b) .& pack bits (HH n)) =
  pack bits (map2 (fun x y => wrap bits (x + y)) (U n a) (U n b)).
Proof.
  intros Ha Hb.
  pose proof (swar_add_pack (U n a) (U n b) n (U_length _ _) (U_length _ _) (U_in _ _) (U_in _ _)).
  now rewrite !pack_U in H by assumption.
Qed.

Lemma swar_sub n a b :
  inU (bits * Z.of_nat n) a -> inU (bits * Z.of_nat n) b ->
  wrap (bits * Z.of_nat n) ((a .| pack bits (HH n)) - (b .& pack bits (NH n)))
    .^ ((a .^ wrap (bits * Z.of_nat n) (Z.lnot b)) .& pack bits (HH n)) =
  pack bits (map2 (fun x y => wrap bits (x - y)) (U n a) (U n b)).
Proof.
  intros Ha Hb.
  pose proof (swar_sub_pack (U n a) (U n b) n (U_length _ _) (U_length _ _) (U_in _ _) (U_in _ _)).
  now rewrite !pack_U in H by assumption.
Qed.
End PackedWords.
