(* ===== verification/NeonArith.v ===== *)
(** * NEON integer arithmetic (target-arm/neon_helper.c, lines 152-617)

    Saturating and halving additions and subtractions, mixed-sign saturating
    accumulation, comparisons, minimum and maximum, absolute difference. *)

From Stdlib Require Import ZArith Lia List Bool.
From S2P Require Import Prelude Bitops Cpu NeonLanes NeonSwar.
Import ListNotations.
Local Open Scope Z_scope.
Local Open Scope c_scope.

(** ** Saturating addition *)

Definition NEON_USAT_add (bits src1 src2 : Z) : M Z :=
  let tmp := u32 (u32 src1 + u32 src2) in
  if negb (tmp =? wrap bits tmp) then SET_QC;;; ret (Z.lnot 0) else ret tmp.

Definition neon_qadd_u8 := NEON_VOP_ENV neon_u8 (NEON_USAT_add 8).
Definition neon_qadd_u16 := NEON_VOP_ENV neon_u16 (NEON_USAT_add 16).

Definition neon_qadd_u32 (env : CPUARMState) (a b : Z) : Z * CPUARMState :=
  let res := u32 (a + b) in
  (if res <? a then SET_QC;;; ret (u32 (Z.lnot 0)) else ret res) env.

Definition neon_qadd_u64 (env : CPUARMState) (src1 src2 : Z) : Z * CPUARMState :=
  let res := u64 (src1 + src2) in
  (if res <? src1 then SET_QC;;; ret (u64 (Z.lnot 0)) else ret res) env.

Definition NEON_SSAT_add (bits src1 src2 : Z) : M Z :=
  let tmp := s32 (u32 (u32 src1 + u32 src2)) in
  if negb (tmp =? swrap bits tmp) then
    SET_QC;;;
    ret (if src2 >? 0 then (1 .<< (bits - 1)) - 1 else 1 .<< (bits - 1))
  else ret tmp.

Definition neon_qadd_s8 := NEON_VOP_ENV neon_s8 (NEON_SSAT_add 8).
Definition neon_qadd_s16 := NEON_VOP_ENV neon_s16 (NEON_SSAT_add 16).

Definition neon_qadd_s32 (env : CPUARMState) (a b : Z) : Z * CPUARMState :=
  let res := u32 (a + b) in
  (if truthy ((res .^ a) .& SIGNBIT) && negb (truthy ((a .^ b) .& SIGNBIT)) then
     SET_QC;;; ret (u32 (Z.lnot (u32 (s32 a .>> 31) .^ SIGNBIT)))
   else ret res) env.

Definition neon_qadd_s64 (env : CPUARMState) (src1 src2 : Z) : Z * CPUARMState :=
  let res := u64 (src1 + src2) in
  (if truthy ((res .^ src1) .& SIGNBIT64) && negb (truthy ((src1 .^ src2) .& SIGNBIT64)) then
     SET_QC;;; ret (u64 (s64 src1 .>> 63) .^ u64 (Z.lnot SIGNBIT64))
   else ret res) env.

(** ** Unsigned saturating accumulate of signed value *)

Definition USATACC (tbits bits shift a b r : Z) : M Z :=
  let va := swrap tbits (sextract32 a shift bits) in
  let vb := swrap tbits (extract32 b shift bits) in
  let vr := swrap tbits (va + vb) in
  vr <- (if vr >? 2 ^ bits - 1 then SET_QC;;; ret (2 ^ bits - 1)
         else if vr <? 0 then SET_QC;;; ret 0 else ret vr);;
  ret (deposit32 r shift bits (u32 vr)).

Definition neon_uqadd_s8 (env : CPUARMState) (a b : Z) : Z * CPUARMState :=
  (r <- USATACC 16 8 0 a b 0;; r <- USATACC 16 8 8 a b r;;
   r <- USATACC 16 8 16 a b r;; USATACC 16 8 24 a b r) env.

Definition neon_uqadd_s16 (env : CPUARMState) (a b : Z) : Z * CPUARMState :=
  (r <- USATACC 32 16 0 a b 0;; USATACC 32 16 16 a b r) env.

Definition neon_uqadd_s32 (env : CPUARMState) (a b : Z) : Z * CPUARMState :=
  let va := s32 a in
  let vb := u32 b in
  let vr := s64 (va + vb) in
  (if vr >? 2 ^ 32 - 1 then SET_QC;;; ret (u32 (2 ^ 32 - 1))
   else if vr <? 0 then SET_QC;;; ret 0 else ret (u32 vr)) env.

Definition neon_uqadd_s64 (env : CPUARMState) (a b : Z) : Z * CPUARMState :=
  let res := u64 (a + b) in
  (if truthy (u64 (Z.lnot a) .& b .& u64 (Z.lnot res) .& SIGNBIT64) then
     SET_QC;;; ret (2 ^ 64 - 1)
   else if truthy (a .& u64 (Z.lnot b) .& res .& SIGNBIT64) then SET_QC;;; ret 0
   else ret res) env.

(** ** Signed saturating accumulate of unsigned value *)

Definition SSATACC (tbits bits shift a b r : Z) : M Z :=
  let va := swrap tbits (extract32 a shift bits) in
  let vb := swrap tbits (sextract32 b shift bits) in
  let vr := swrap tbits (va + vb) in
  vr <- (if vr >? 2 ^ (bits - 1) - 1 then SET_QC;;; ret (2 ^ (bits - 1) - 1)
         else if vr <? - 2 ^ (bits - 1) then SET_QC;;; ret (- 2 ^ (bits - 1)) else ret vr);;
  ret (deposit32 r shift bits (u32 vr)).

Definition neon_sqadd_u8 (env : CPUARMState) (a b : Z) : Z * CPUARMState :=
  (r <- SSATACC 16 8 0 a b 0;; r <- SSATACC 16 8 8 a b r;;
   r <- SSATACC 16 8 16 a b r;; SSATACC 16 8 24 a b r) env.

Definition neon_sqadd_u16 (env : CPUARMState) (a b : Z) : Z * CPUARMState :=
  (r <- SSATACC 32 16 0 a b 0;; SSATACC 32 16 16 a b r) env.

Definition neon_sqadd_u32 (env : CPUARMState) (a b : Z) : Z * CPUARMState :=
  let op1 := u32 a in
  let op2 := s32 b in
  let res := s64 (op1 + op2) in
  (if res >? 2 ^ 31 - 1 then SET_QC;;; ret (u32 (2 ^ 31 - 1))
   else if res <? - 2 ^ 31 then SET_QC;;; ret (u32 (- 2 ^ 31)) else ret (u32 res)) env.

Definition neon_sqadd_u64 (env : CPUARMState) (a b : Z) : Z * CPUARMState :=
  let res := u64 (a + b) in
  (if truthy (((a .& res) .| (u64 (Z.lnot b) .& res) .| (a .& u64 (Z.lnot b))) .& SIGNBIT64)
   then SET_QC;;; ret (2 ^ 63 - 1) else ret res) env.

(** ** Saturating subtraction *)

Definition NEON_USAT_sub (bits src1 src2 : Z) : M Z :=
  let tmp := u32 (u32 src1 - u32 src2) in
  if negb (tmp =? wrap bits tmp) then SET_QC;;; ret 0 else ret tmp.

Definition neon_qsub_u8 := NEON_VOP_ENV neon_u8 (NEON_USAT_sub 8).
Definition neon_qsub_u16 := NEON_VOP_ENV neon_u16 (NEON_USAT_sub 16).

Definition neon_qsub_u32 (env : CPUARMState) (a b : Z) : Z * CPUARMState :=
  let res := u32 (a - b) in
  (if res >? a then SET_QC;;; ret 0 else ret res) env.

Definition neon_qsub_u64 (env : CPUARMState) (src1 src2 : Z) : Z * CPUARMState :=
  (if src1 <? src2 then SET_QC;;; ret 0 else ret (u64 (src1 - src2))) env.

Definition NEON_SSAT_sub (bits src1 src2 : Z) : M Z :=
  let tmp := s32 (u32 (u32 src1 - u32 src2)) in
  if negb (tmp =? swrap bits tmp) then
    SET_QC;;;
    ret (if src2 <? 0 then (1 .<< (bits - 1)) - 1 else 1 .<< (bits - 1))
  else ret tmp.

Definition neon_qsub_s8 := NEON_VOP_ENV neon_s8 (NEON_SSAT_sub 8).
Definition neon_qsub_s16 := NEON_VOP_ENV neon_s16 (NEON_SSAT_sub 16).

Definition neon_qsub_s32 (env : CPUARMState) (a b : Z) : Z * CPUARMState :=
  let res := u32 (a - b) in
  (if truthy ((res .^ a) .& SIGNBIT) && truthy ((a .^ b) .& SIGNBIT) then
     SET_QC;;; ret (u32 (Z.lnot (u32 (s32 a .>> 31) .^ SIGNBIT)))
   else ret res) env.

Definition neon_qsub_s64 (env : CPUARMState) (src1 src2 : Z) : Z * CPUARMState :=
  let res := u64 (src1 - src2) in
  (if truthy ((res .^ src1) .& SIGNBIT64) && truthy ((src1 .^ src2) .& SIGNBIT64) then
     SET_QC;;; ret (u64 (s64 src1 .>> 63) .^ u64 (Z.lnot SIGNBIT64))
   else ret res) env.

(** ** Halving operations *)

Definition hadd_fn (src1 src2 : Z) : Z := (src1 + src2) .>> 1.

Definition neon_hadd_s8 := NEON_VOP neon_s8 hadd_fn.
Definition neon_hadd_u8 := NEON_VOP neon_u8 hadd_fn.
Definition neon_hadd_s16 := NEON_VOP neon_s16 hadd_fn.
Definition neon_hadd_u16 := NEON_VOP neon_u16 hadd_fn.

(** The [int32_t] parameters and results are passed in 32-bit registers. *)
Definition neon_hadd_s32 (a b : Z) : Z :=
  let src1 := s32 a in
  let src2 := s32 b in
  let dest := s32 ((src1 .>> 1) + (src2 .>> 1)) in
  u32 (if truthy (src1 .& src2 .& 1) then s32 (dest + 1) else dest).

Definition neon_hadd_u32 (src1 src2 : Z) : Z :=
  let dest := u32 ((src1 .>> 1) + (src2 .>> 1)) in
  if truthy (src1 .& src2 .& 1) then u32 (dest + 1) else dest.

Definition rhadd_fn (src1 src2 : Z) : Z := (src1 + src2 + 1) .>> 1.

Definition neon_rhadd_s8 := NEON_VOP neon_s8 rhadd_fn.
Definition neon_rhadd_u8 := NEON_VOP neon_u8 rhadd_fn.
Definition neon_rhadd_s16 := NEON_VOP neon_s16 rhadd_fn.
Definition neon_rhadd_u16 := NEON_VOP neon_u16 rhadd_fn.

Definition neon_rhadd_s32 (a b : Z) : Z :=
  let src1 := s32 a in
  let src2 := s32 b in
  let dest := s32 ((src1 .>> 1) + (src2 .>> 1)) in
  u32 (if truthy ((src1 .| src2) .& 1) then s32 (dest + 1) else dest).

Definition neon_rhadd_u32 (src1 src2 : Z) : Z :=
  let dest := u32 ((src1 .>> 1) + (src2 .>> 1)) in
  if truthy ((src1 .| src2) .& 1) then u32 (dest + 1) else dest.

Definition hsub_fn (src1 src2 : Z) : Z := (src1 - src2) .>> 1.

Definition neon_hsub_s8 := NEON_VOP neon_s8 hsub_fn.
Definition neon_hsub_u8 := NEON_VOP neon_u8 hsub_fn.
Definition neon_hsub_s16 := NEON_VOP neon_s16 hsub_fn.
Definition neon_hsub_u16 := NEON_VOP neon_u16 hsub_fn.

Definition neon_hsub_s32 (a b : Z) : Z :=
  let src1 := s32 a in
  let src2 := s32 b in
  let dest := s32 ((src1 .>> 1) - (src2 .>> 1)) in
  u32 (if truthy (Z.lnot src1 .& src2 .& 1) then s32 (dest - 1) else dest).

Definition neon_hsub_u32 (src1 src2 : Z) : Z :=
  let dest := u32 ((src1 .>> 1) - (src2 .>> 1)) in
  if truthy (u32 (Z.lnot src1) .& src2 .& 1) then u32 (dest - 1) else dest.

(** ** Comparisons, minimum, maximum, absolute difference *)

Definition cgt_fn (src1 src2 : Z) : Z := if src1 >? src2 then Z.lnot 0 else 0.

Definition neon_cgt_s8 := NEON_VOP neon_s8 cgt_fn.
Definition neon_cgt_u8 := NEON_VOP neon_u8 cgt_fn.
Definition neon_cgt_s16 := NEON_VOP neon_s16 cgt_fn.
Definition neon_cgt_u16 := NEON_VOP neon_u16 cgt_fn.
Definition neon_cgt_s32 := NEON_VOP neon_s32 cgt_fn.
Definition neon_cgt_u32 := NEON_VOP neon_u32 cgt_fn.

Definition cge_fn (src1 src2 : Z) : Z := if src1 >=? src2 then Z.lnot 0 else 0.

Definition neon_cge_s8 := NEON_VOP neon_s8 cge_fn.
Definition neon_cge_u8 := NEON_VOP neon_u8 cge_fn.
Definition neon_cge_s16 := NEON_VOP neon_s16 cge_fn.
Definition neon_cge_u16 := NEON_VOP neon_u16 cge_fn.
Definition neon_cge_s32 := NEON_VOP neon_s32 cge_fn.
Definition neon_cge_u32 := NEON_VOP neon_u32 cge_fn.

Definition min_fn (src1 src2 : Z) : Z := if src1 <? src2 then src1 else src2.

Definition neon_min_s8 := NEON_VOP neon_s8 min_fn.
Definition neon_min_u8 := NEON_VOP neon_u8 min_fn.
Definition neon_min_s16 := NEON_VOP neon_s16 min_fn.
Definition neon_min_u16 := NEON_VOP neon_u16 min_fn.
Definition neon_min_s32 := NEON_VOP neon_s32 min_fn.
Definition neon_min_u32 := NEON_VOP neon_u32 min_fn.
Definition neon_pmin_s8 := NEON_POP neon_s8 min_fn.
Definition neon_pmin_u8 := NEON_POP neon_u8 min_fn.
Definition neon_pmin_s16 := NEON_POP neon_s16 min_fn.
Definition neon_pmin_u16 := NEON_POP neon_u16 min_fn.

Definition max_fn (src1 src2 : Z) : Z := if src1 >? src2 then src1 else src2.

Definition neon_max_s8 := NEON_VOP neon_s8 max_fn.
Definition neon_max_u8 := NEON_VOP neon_u8 max_fn.
Definition neon_max_s16 := NEON_VOP neon_s16 max_fn.
Definition neon_max_u16 := NEON_VOP neon_u16 max_fn.
Definition neon_max_s32 := NEON_VOP neon_s32 max_fn.
Definition neon_max_u32 := NEON_VOP neon_u32 max_fn.
Definition neon_pmax_s8 := NEON_POP neon_s8 max_fn.
Definition neon_pmax_u8 := NEON_POP neon_u8 max_fn.
Definition neon_pmax_s16 := NEON_POP neon_s16 max_fn.
Definition neon_pmax_u16 := NEON_POP neon_u16 max_fn.

(** The subtraction is done in [int], or in [unsigned] for 32-bit unsigned
    lanes; either way the lane keeps its low bits. *)
Definition abd_fn (src1 src2 : Z) : Z := if src1 >? src2 then src1 - src2 else src2 - src1.

Definition neon_abd_s8 := NEON_VOP neon_s8 abd_fn.
Definition neon_abd_u8 := NEON_VOP neon_u8 abd_fn.
Definition neon_abd_s16 := NEON_VOP neon_s16 abd_fn.
Definition neon_abd_u16 := NEON_VOP neon_u16 abd_fn.
Definition neon_abd_s32 := NEON_VOP neon_s32 abd_fn.
Definition neon_abd_u32 := NEON_VOP neon_u32 abd_fn.

(** ** Modular addition, subtraction and multiplication (lines 1139-1171) *)

Definition neon_add_u8 (a b : Z) : Z :=
  let mask := (a .^ b) .& 0x80808080 in
  let a := a .& u32 (Z.lnot 0x80808080) in
  let b := b .& u32 (Z.lnot 0x80808080) in
  u32 (a + b) .^ mask.

Definition neon_add_u16 (a b : Z) : Z :=
  let mask := (a .^ b) .& 0x80008000 in
  let a := a .& u32 (Z.lnot 0x80008000) in
  let b := b .& u32 (Z.lnot 0x80008000) in
  u32 (a + b) .^ mask.

Definition neon_padd_u8 := NEON_POP neon_u8 Z.add.
Definition neon_padd_u16 := NEON_POP neon_u16 Z.add.
Definition neon_sub_u8 := NEON_VOP neon_u8 Z.sub.
Definition neon_sub_u16 := NEON_VOP neon_u16 Z.sub.
Definition neon_mul_u8 := NEON_VOP neon_u8 Z.mul.
Definition neon_mul_u16 := NEON_VOP neon_u16 Z.mul.

(** ** Bit tests, equality, absolute value (lines 1226-1241) *)

Definition tst_fn (src1 src2 : Z) : Z := if truthy (src1 .& src2) then -1 else 0.

Definition neon_tst_u8 := NEON_VOP neon_u8 tst_fn.
Definition neon_tst_u16 := NEON_VOP neon_u16 tst_fn.
Definition neon_tst_u32 := NEON_VOP neon_u32 tst_fn.

Definition ceq_fn (src1 src2 : Z) : Z := if src1 =? src2 then -1 else 0.

Definition neon_ceq_u8 := NEON_VOP neon_u8 ceq_fn.
Definition neon_ceq_u16 := NEON_VOP neon_u16 ceq_fn.
Definition neon_ceq_u32 := NEON_VOP neon_u32 ceq_fn.

Definition abs_fn (src : Z) : Z := if src <? 0 then - src else src.

Definition neon_abs_s8 := NEON_VOP1 neon_s8 abs_fn.
Definition neon_abs_s16 := NEON_VOP1 neon_s16 abs_fn.

(** ** Correctness *)

(** C6: saturating addition (VQADD) of 8, 16, 32 and 64-bit lanes, signed and unsigned,
    returns in every lane the exact sum clamped to the range of the lane, and sets the
    cumulative saturation flag exactly when some lane was clamped. *)
Theorem neon_qadd_saturates :
  saturates2 neon_u8 neon_u8 neon_u8 Z.add neon_qadd_u8 /\
  saturates2 neon_u16 neon_u16 neon_u16 Z.add neon_qadd_u16 /\
  saturates2 neon_u32 neon_u32 neon_u32 Z.add neon_qadd_u32 /\
  saturates2 neon_u64 neon_u64 neon_u64 Z.add neon_qadd_u64 /\
  saturates2 neon_s8 neon_s8 neon_s8 Z.add neon_qadd_s8 /\
  saturates2 neon_s16 neon_s16 neon_s16 Z.add neon_qadd_s16 /\
  saturates2 neon_s32 neon_s32 neon_s32 Z.add neon_qadd_s32 /\
  saturates2 neon_s64 neon_s64 neon_s64 Z.add neon_qadd_s64.
Proof.
  split; [|split; [|split; [|split; [|split; [|split; [|split]]]]]].
  - lanes; unfold NEON_USAT_add; sat_lane.
  - lanes; unfold NEON_USAT_add; sat_lane.
  - scalar; unfold neon_qadd_u32; sat_word; cases.
  - scalar; unfold neon_qadd_u64; sat_word; cases.
  - lanes; unfold NEON_SSAT_add; sat_lane.
  - lanes; unfold NEON_SSAT_add; sat_lane.
  - scalar; unfold neon_qadd_s32. rewrite sat_value32 by assumption. sign_tests 32 SIGNBIT.
    sat_word; cases.
  - scalar; unfold neon_qadd_s64; rewrite sat_value64 by assumption; sign_tests 64 SIGNBIT64.
    sat_word; cases.
Qed.

(** Saturating subtraction (VQSUB) of 8, 16, 32 and 64-bit lanes, signed and unsigned,
    returns in every lane the exact difference clamped to the range of the lane, and
    sets the saturation flag exactly when some lane was clamped. *)
Theorem neon_qsub_saturates :
  saturates2 neon_u8 neon_u8 neon_u8 Z.sub neon_qsub_u8 /\
  saturates2 neon_u16 neon_u16 neon_u16 Z.sub neon_qsub_u16 /\
  saturates2 neon_u32 neon_u32 neon_u32 Z.sub neon_qsub_u32 /\
  saturates2 neon_u64 neon_u64 neon_u64 Z.sub neon_qsub_u64 /\
  saturates2 neon_s8 neon_s8 neon_s8 Z.sub neon_qsub_s8 /\
  saturates2 neon_s16 neon_s16 neon_s16 Z.sub neon_qsub_s16 /\
  saturates2 neon_s32 neon_s32 neon_s32 Z.sub neon_qsub_s32 /\
  saturates2 neon_s64 neon_s64 neon_s64 Z.sub neon_qsub_s64.
Proof.
  split; [|split; [|split; [|split; [|split; [|split; [|split]]]]]].
  - lanes; unfold NEON_USAT_sub; sat_lane.
  - lanes; unfold NEON_USAT_sub; sat_lane.
  - scalar; unfold neon_qsub_u32; sat_word; cases.
  - scalar; unfold neon_qsub_u64; sat_word; cases.
  - lanes; unfold NEON_SSAT_sub; sat_lane.
  - lanes; unfold NEON_SSAT_sub; sat_lane.
  - scalar; unfold neon_qsub_s32; rewrite sat_value32 by assumption; sign_tests 32 SIGNBIT.
    sat_word; cases.
  - scalar; unfold neon_qsub_s64; rewrite sat_value64 by assumption; sign_tests 64 SIGNBIT64.
    sat_word; cases.
Qed.

(** ** Mixed-sign accumulation *)

(** Appending a field above the bits already written. *)
Lemma deposit32_append r s l f :
  0 <= s -> 0 <= l -> l + s <= 32 -> inU s r -> deposit32 r s l f = r + wrap l f * 2 ^ s.
Proof.
  intros Hs Hl Hw Hr; rewrite <- lor_shiftl_add by assumption.
  assert (inU 32 r) by (unfold inU in *; pose proof (Z.pow_le_mono_r 2 s 32); lia).
  apply Z.bits_inj'; intros i Hi; unfold deposit32.
  rewrite testbit_depositw, Z.lor_spec, Z.shiftl_spec, testbit_wrap by (assumption || lia).
  destruct (Z.leb_spec s i), (Z.ltb_spec i (s + l)), (Z.ltb_spec (i - s) l); try lia; simpl;
    rewrite ?(testbit_high s r) by (assumption || lia); rewrite ?orb_false_r; try reflexivity.
  rewrite (Z.testbit_neg_r f) by lia; now rewrite orb_false_r.
Qed.

Lemma USATACC_run tbits bits shift a b r env :
  0 < bits -> bits + 2 <= tbits -> 0 <= shift -> bits + shift <= 32 -> 
  let x := swrap bits (a .>> shift) in let y := wrap bits (b .>> shift) in
  USATACC tbits bits shift a b r env =
    (deposit32 r shift bits (usat bits (x + y)), qc_if (negb (usat bits (x + y) =? x + y)) env).
Proof.
  intros Hb Ht Hs Hw x y; unfold USATACC, extract32, sextract32.
  rewrite extractw_wrap, sextractw_swrap by lia; fold x y.
  assert (Hx : inS bits x) by (apply swrap_range; lia).
  assert (Hy : inU bits y) by (apply wrap_range; lia).
  assert (P1 : 2 ^ bits * 2 <= 2 ^ (tbits - 1))
    by (rewrite Z.mul_comm, <- Z.pow_succ_r by lia; apply Z.pow_le_mono_r; lia).
  assert (P2 : 2 ^ bits <= 2 ^ 32) by (apply Z.pow_le_mono_r; lia).
  pose proof (pow2_split bits Hb); unfold inU, inS in *.
  rewrite (swrap_id tbits x), (swrap_id tbits y), (swrap_id tbits (x + y)) by (unfold inS; lia).
  unfold bind at 1; rewrite run_sat2; unfold ret; f_equal; [|f_equal]; [f_equal|];
    unfold usat; cases; rewrite ?wrap_id by (unfold inU; lia); lia.
Qed.

Lemma depositw_wrap w v s l f : 0 <= s -> 0 <= w -> depositw w v s l (wrap w f) = depositw w v s l f.
Proof.
  intros Hs Hw; unfold depositw; cbv zeta; do 2 f_equal; apply Z.bits_inj'; intros i Hi.
  rewrite !testbit_wrap, !Z.shiftl_spec, testbit_wrap by lia.
  destruct (Z.ltb_spec i w), (Z.ltb_spec (i - s) w); try lia; reflexivity.
Qed.

Lemma testbit_sign_lnot w x :
  0 < w -> inU w x -> Z.testbit (wrap w (Z.lnot x)) (w - 1) = negb (2 ^ (w - 1) <=? x).
Proof.
  intros; rewrite testbit_wrap, Z.lnot_spec, testbit_top by (assumption || lia).
  destruct (Z.ltb_spec (w - 1) w); [reflexivity|lia].
Qed.

Lemma SSATACC_run tbits bits shift a b r env :
  0 < bits -> bits + 2 <= tbits -> 0 <= shift -> bits + shift <= 32 ->
  let x := wrap bits (a .>> shift) in let y := swrap bits (b .>> shift) in
  SSATACC tbits bits shift a b r env =
    (deposit32 r shift bits (ssat bits (x + y)),
     qc_if (negb (ssat bits (x + y) =? x + y)) env).
Proof.
  intros Hb Ht Hs Hw x y; unfold SSATACC, extract32, sextract32.
  rewrite extractw_wrap, sextractw_swrap by lia; fold x y.
  assert (Hx : inU bits x) by (apply wrap_range; lia).
  assert (Hy : inS bits y) by (apply swrap_range; lia).
  assert (P1 : 2 ^ bits * 2 <= 2 ^ (tbits - 1))
    by (rewrite Z.mul_comm, <- Z.pow_succ_r by lia; apply Z.pow_le_mono_r; lia).
  pose proof (pow2_split bits Hb); unfold inU, inS in *.
  rewrite (swrap_id tbits x), (swrap_id tbits y), (swrap_id tbits (x + y)) by (unfold inS; lia).
  unfold bind at 1; rewrite run_sat2; unfold ret, deposit32; rewrite depositw_wrap by lia; f_equal; [f_equal|f_equal];
    unfold ssat; cases; lia.
Qed.

Lemma deposit_pack4 v0 v1 v2 v3 :
  deposit32 (deposit32 (deposit32 (deposit32 0 0 8 v0) 8 8 v1) 16 8 v2) 24 8 v3 =
    pack 8 [v0; v1; v2; v3].
Proof.
  pose proof (wrap_range 8 v0 ltac:(lia)); pose proof (wrap_range 8 v1 ltac:(lia));
    pose proof (wrap_range 8 v2 ltac:(lia)).
  rewrite !pack_cons by lia; cbn [pack].
  rewrite (deposit32_append 0 0), (deposit32_append _ 8), (deposit32_append _ 16),
    (deposit32_append _ 24) by (try lia; unfold inU in *; fold_pow2; lia); fold_pow2; lia.
Qed.

Lemma deposit_pack2 v0 v1 :
  deposit32 (deposit32 0 0 16 v0) 16 16 v1 = pack 16 [v0; v1].
Proof.
  pose proof (wrap_range 16 v0 ltac:(lia)); rewrite !pack_cons by lia; cbn [pack].
  rewrite (deposit32_append 0 0), (deposit32_append _ 16)
    by (try lia; unfold inU in *; fold_pow2; lia); fold_pow2; lia.
Qed.

(** The additions of operands of different signedness (SUQADD, USQADD) return the exact
    sum clamped to the range of the result lane and set the saturation flag exactly when
    some lane was clamped. *)
Theorem neon_mixed_sign_saturates :
  saturates2 neon_s8 neon_u8 neon_u8 Z.add neon_uqadd_s8 /\
  saturates2 neon_s16 neon_u16 neon_u16 Z.add neon_uqadd_s16 /\
  saturates2 neon_s32 neon_u32 neon_u32 Z.add neon_uqadd_s32 /\
  saturates2 neon_s64 neon_u64 neon_u64 Z.add neon_uqadd_s64 /\
  saturates2 neon_u8 neon_s8 neon_s8 Z.add neon_sqadd_u8 /\
  saturates2 neon_u16 neon_s16 neon_s16 Z.add neon_sqadd_u16 /\
  saturates2 neon_u32 neon_s32 neon_s32 Z.add neon_sqadd_u32 /\
  saturates2 neon_u64 neon_s64 neon_s64 Z.add neon_sqadd_u64.
Proof.
  split; [|split; [|split; [|split; [|split; [|split; [|split]]]]]].
  - apply packed_qc; try reflexivity; [intros; apply cast_id, sat_in; reflexivity|].
    intros env a b; unfold neon_uqadd_s8, neon_s8, neon_u8, bind.
    rewrite !USATACC_run, !qc_if_qc_if, deposit_pack4, !UNPACK4 by lia.
    unfold any2; cbn [map map2 existsb]; now rewrite orb_false_r, !orb_assoc.
  - apply packed_qc; try reflexivity; [intros; apply cast_id, sat_in; reflexivity|].
    intros env a b; unfold neon_uqadd_s16, neon_s16, neon_u16, bind.
    rewrite !USATACC_run, !qc_if_qc_if, deposit_pack2, !UNPACK2 by lia.
    unfold any2; cbn [map map2 existsb]; now rewrite orb_false_r.
  - scalar; unfold neon_uqadd_s32; sat_word; cases.
  - scalar; unfold neon_uqadd_s64; change SIGNBIT64 with (2 ^ (64 - 1)).
    rewrite !truthy_land_pow2, !Z.land_spec, !testbit_sign_lnot, !testbit_top by auto with crange.
    change (64 - 1) with 63; sat_word; cases.
  - apply packed_qc; try reflexivity; [intros; apply cast_id, sat_in; reflexivity|].
    intros env a b; unfold neon_sqadd_u8, neon_s8, neon_u8, bind.
    rewrite !SSATACC_run, !qc_if_qc_if, deposit_pack4, !UNPACK4 by lia.
    unfold any2; cbn [map map2 existsb]; now rewrite orb_false_r, !orb_assoc.
  - apply packed_qc; try reflexivity; [intros; apply cast_id, sat_in; reflexivity|].
    intros env a b; unfold neon_sqadd_u16, neon_s16, neon_u16, bind.
    rewrite !SSATACC_run, !qc_if_qc_if, deposit_pack2, !UNPACK2 by lia.
    unfold any2; cbn [map map2 existsb]; now rewrite orb_false_r.
  - scalar; unfold neon_sqadd_u32; sat_word; cases.
  - scalar; unfold neon_sqadd_u64; change SIGNBIT64 with (2 ^ (64 - 1)).
    rewrite truthy_land_pow2, !Z.lor_spec, !Z.land_spec, !testbit_sign_lnot, !testbit_top
      by auto with crange.
    change (64 - 1) with 63; sat_word; cases.
Qed.


(** ** Halving *)

Lemma truthy_odd x : truthy (x .& 1) = Z.odd x.
Proof. now rewrite <- Z.bit0_odd, <- truthy_land_pow2 by lia. Qed.

Lemma odd_mod2 x : Z.odd x = (x mod 2 =? 1).
Proof. rewrite Zmod_odd; destruct (Z.odd x); reflexivity. Qed.

(** Parity tests and shifts by one, as arithmetic. *)
Ltac halving :=
  rewrite ?truthy_odd, <- ?Z.bit0_odd, ?Z.land_spec, ?Z.lor_spec, ?Z.lnot_spec, ?testbit_wrap by lia;
  rewrite ?Z.lnot_spec, ?Z.bit0_odd, ?odd_mod2, ?Z.shiftr_div_pow2 by lia;
  change (0 <? 32) with true; cbn [andb].

(** C33: the halving additions and subtractions (VHADD, VRHADD, VHSUB) return the exact
    sum or difference divided by two, rounded down or to nearest, without losing the
    carry, in every lane width including the 32-bit forms that avoid a wider type. *)
Theorem neon_halving_exact :
  let hadd vt := lanes2 vt vt vt (fun x y => (x + y) / 2) in
  let rhadd vt := lanes2 vt vt vt (fun x y => (x + y + 1) / 2) in
  let hsub vt := lanes2 vt vt vt (fun x y => cast vt ((x - y) / 2)) in
  (hadd neon_s8 neon_hadd_s8 /\ hadd neon_u8 neon_hadd_u8 /\
   hadd neon_s16 neon_hadd_s16 /\ hadd neon_u16 neon_hadd_u16 /\
   hadd neon_s32 neon_hadd_s32 /\ hadd neon_u32 neon_hadd_u32) /\
  (rhadd neon_s8 neon_rhadd_s8 /\ rhadd neon_u8 neon_rhadd_u8 /\
   rhadd neon_s16 neon_rhadd_s16 /\ rhadd neon_u16 neon_rhadd_u16 /\
   rhadd neon_s32 neon_rhadd_s32 /\ rhadd neon_u32 neon_rhadd_u32) /\
  (hsub neon_s8 neon_hsub_s8 /\ hsub neon_u8 neon_hsub_u8 /\
   hsub neon_s16 neon_hsub_s16 /\ hsub neon_u16 neon_hsub_u16 /\
   hsub neon_s32 neon_hsub_s32 /\ hsub neon_u32 neon_hsub_u32).
Proof.
  intros hadd rhadd hsub; subst hadd rhadd hsub; splits.
  all: first [ lanes; unfold hadd_fn, rhadd_fn, hsub_fn; halving; cint | idtac].
  - scalar. unfold neon_hadd_s32. halving. split; cases.
  - scalar. unfold neon_hadd_u32. halving. split; cases.
  - scalar. unfold neon_rhadd_s32. halving. split; cases.
  - scalar. unfold neon_rhadd_u32. halving. split; cases.
  - scalar. unfold neon_hsub_s32. halving. split; cases.
  - scalar. unfold neon_hsub_u32. halving. split; cases.
Qed.


(** ** Comparisons, selection, modular arithmetic *)

(** A lane of all ones for true, of zeros for false. *)
Definition lane_bool (vt : vtype) (b : bool) : Z := cast vt (if b then -1 else 0).

Lemma POP_pairs4 s f g :
  (forall x y, lane_in (mkV 8 s 4) x -> lane_in (mkV 8 s 4) y -> cast (mkV 8 s 4) (f x y) = g x y) ->
  pairs (mkV 8 s 4) g (NEON_POP (mkV 8 s 4) f).
Proof.
  intros E a b _ _ l; unfold NEON_POP; split; [apply PACK_range; reflexivity|].
  rewrite UNPACK_PACK by reflexivity; subst l.
  unfold NEON_UNPACK; cbn [elt_bits elt_n unpack NEON_PDO app map seq nth Nat.mul Nat.add].
  rewrite !E by (apply cast_in; reflexivity); reflexivity.
Qed.

Lemma POP_pairs2 s f g :
  (forall x y, lane_in (mkV 16 s 2) x -> lane_in (mkV 16 s 2) y -> cast (mkV 16 s 2) (f x y) = g x y) ->
  pairs (mkV 16 s 2) g (NEON_POP (mkV 16 s 2) f).
Proof.
  intros E a b _ _ l; unfold NEON_POP; split; [apply PACK_range; reflexivity|].
  rewrite UNPACK_PACK by reflexivity; subst l.
  unfold NEON_UNPACK; cbn [elt_bits elt_n unpack NEON_PDO app map seq nth Nat.mul Nat.add].
  rewrite !E by (apply cast_in; reflexivity); reflexivity.
Qed.

Ltac pairwise :=
  first [apply POP_pairs4 | apply POP_pairs2]; intros ?x ?y ?Hx ?Hy;
  unfold lane_in, cast in *; cbn [elt_bits elt_signed] in *.

Lemma neon_select_exact :
  let mn vt := lanes2 vt vt vt Z.min in
  let mx vt := lanes2 vt vt vt Z.max in
  let abd vt := lanes2 vt vt vt (fun x y => cast vt (Z.abs (x - y))) in
  (mn neon_s8 neon_min_s8 /\ mn neon_u8 neon_min_u8 /\ mn neon_s16 neon_min_s16 /\
   mn neon_u16 neon_min_u16 /\ mn neon_s32 neon_min_s32 /\ mn neon_u32 neon_min_u32) /\
  (mx neon_s8 neon_max_s8 /\ mx neon_u8 neon_max_u8 /\ mx neon_s16 neon_max_s16 /\
   mx neon_u16 neon_max_u16 /\ mx neon_s32 neon_max_s32 /\ mx neon_u32 neon_max_u32) /\
  (abd neon_s8 neon_abd_s8 /\ abd neon_u8 neon_abd_u8 /\ abd neon_s16 neon_abd_s16 /\
   abd neon_u16 neon_abd_u16 /\ abd neon_s32 neon_abd_s32 /\ abd neon_u32 neon_abd_u32) /\
  (pairs neon_s8 Z.min neon_pmin_s8 /\ pairs neon_u8 Z.min neon_pmin_u8 /\
   pairs neon_s16 Z.min neon_pmin_s16 /\ pairs neon_u16 Z.min neon_pmin_u16) /\
  (pairs neon_s8 Z.max neon_pmax_s8 /\ pairs neon_u8 Z.max neon_pmax_u8 /\
   pairs neon_s16 Z.max neon_pmax_s16 /\ pairs neon_u16 Z.max neon_pmax_u16).
Proof.
  intros mn mx abd; subst mn mx abd; splits;
    first [lanes | pairwise]; unfold min_fn, max_fn, abd_fn; cases.
Qed.

Lemma neon_compare_exact :
  let cgt vt := lanes2 vt vt vt (fun x y => lane_bool vt (y <? x)) in
  let cge vt := lanes2 vt vt vt (fun x y => lane_bool vt (y <=? x)) in
  let ceq vt := lanes2 vt vt vt (fun x y => lane_bool vt (x =? y)) in
  let tst vt := lanes2 vt vt vt (fun x y => lane_bool vt (negb (x .& y =? 0))) in
  (cgt neon_s8 neon_cgt_s8 /\ cgt neon_u8 neon_cgt_u8 /\ cgt neon_s16 neon_cgt_s16 /\
   cgt neon_u16 neon_cgt_u16 /\ cgt neon_s32 neon_cgt_s32 /\ cgt neon_u32 neon_cgt_u32) /\
  (cge neon_s8 neon_cge_s8 /\ cge neon_u8 neon_cge_u8 /\ cge neon_s16 neon_cge_s16 /\
   cge neon_u16 neon_cge_u16 /\ cge neon_s32 neon_cge_s32 /\ cge neon_u32 neon_cge_u32) /\
  (ceq neon_u8 neon_ceq_u8 /\ ceq neon_u16 neon_ceq_u16 /\ ceq neon_u32 neon_ceq_u32) /\
  (tst neon_u8 neon_tst_u8 /\ tst neon_u16 neon_tst_u16 /\ tst neon_u32 neon_tst_u32).
Proof.
  intros cgt cge ceq tst; subst cgt cge ceq tst; splits;
    lanes; unfold lane_bool, cgt_fn, cge_fn, ceq_fn, tst_fn, truthy; cases.
Qed.

(** C35: lane-wise addition by masking within one word, and subtraction, multiplication,
    pairwise addition and absolute value, are the modular operations on the separate
    lanes: no carry crosses a lane. *)
Theorem neon_modular_exact :
  let m f vt := lanes2 vt vt vt (fun x y => wrap (elt_bits vt) (f x y)) in
  m Z.add neon_u8 neon_add_u8 /\ m Z.add neon_u16 neon_add_u16 /\
  m Z.sub neon_u8 neon_sub_u8 /\ m Z.sub neon_u16 neon_sub_u16 /\
  m Z.mul neon_u8 neon_mul_u8 /\ m Z.mul neon_u16 neon_mul_u16 /\
  pairs neon_u8 (fun x y => u8 (x + y)) neon_padd_u8 /\
  pairs neon_u16 (fun x y => u16 (x + y)) neon_padd_u16 /\
  lanes1 neon_s8 neon_s8 (fun x => s8 (Z.abs x)) neon_abs_s8 /\
  lanes1 neon_s16 neon_s16 (fun x => s16 (Z.abs x)) neon_abs_s16.
Proof.
  intros m; subst m; splits.
  1: apply packed_lanes; [reflexivity|]; intros a b; exact (swar_add 8 ltac:(lia) 4 a b).
  1: apply packed_lanes; [reflexivity|]; intros a b; exact (swar_add 16 ltac:(lia) 2 a b).
  all: first [lanes | pairwise]; unfold abs_fn; try reflexivity; cases.
Qed.

(** C34: minimum, maximum, absolute difference and the pairwise minimum and maximum are
    exact in every lane; the comparisons and bit tests (VCGT, VCGE, VCEQ, VTST) fill
    every lane with ones where the comparison of the lanes holds and with zeros
    elsewhere. *)
Theorem neon_select_compare_exact :
  (let mn vt := lanes2 vt vt vt Z.min in
   let mx vt := lanes2 vt vt vt Z.max in
   let abd vt := lanes2 vt vt vt (fun x y => cast vt (Z.abs (x - y))) in
   (mn neon_s8 neon_min_s8 /\ mn neon_u8 neon_min_u8 /\ mn neon_s16 neon_min_s16 /\
    mn neon_u16 neon_min_u16 /\ mn neon_s32 neon_min_s32 /\ mn neon_u32 neon_min_u32) /\
   (mx neon_s8 neon_max_s8 /\ mx neon_u8 neon_max_u8 /\ mx neon_s16 neon_max_s16 /\
    mx neon_u16 neon_max_u16 /\ mx neon_s32 neon_max_s32 /\ mx neon_u32 neon_max_u32) /\
   (abd neon_s8 neon_abd_s8 /\ abd neon_u8 neon_abd_u8 /\ abd neon_s16 neon_abd_s16 /\
    abd neon_u16 neon_abd_u16 /\ abd neon_s32 neon_abd_s32 /\ abd neon_u32 neon_abd_u32) /\
   (pairs neon_s8 Z.min neon_pmin_s8 /\ pairs neon_u8 Z.min neon_pmin_u8 /\
    pairs neon_s16 Z.min neon_pmin_s16 /\ pairs neon_u16 Z.min neon_pmin_u16) /\
   (pairs neon_s8 Z.max neon_pmax_s8 /\ pairs neon_u8 Z.max neon_pmax_u8 /\
    pairs neon_s16 Z.max neon_pmax_s16 /\ pairs neon_u16 Z.max neon_pmax_u16)) /\
  (let cgt vt := lanes2 vt vt vt (fun x y => lane_bool vt (y <? x)) in
   let cge vt := lanes2 vt vt vt (fun x y => lane_bool vt (y <=? x)) in
   let ceq vt := lanes2 vt vt vt (fun x y => lane_bool vt (x =? y)) in
   let tst vt := lanes2 vt vt vt (fun x y => lane_bool vt (negb (x .& y =? 0))) in
   (cgt neon_s8 neon_cgt_s8 /\ cgt neon_u8 neon_cgt_u8 /\ cgt neon_s16 neon_cgt_s16 /\
    cgt neon_u16 neon_cgt_u16 /\ cgt neon_s32 neon_cgt_s32 /\ cgt neon_u32 neon_cgt_u32) /\
   (cge neon_s8 neon_cge_s8 /\ cge neon_u8 neon_cge_u8 /\ cge neon_s16 neon_cge_s16 /\
    cge neon_u16 neon_cge_u16 /\ cge neon_s32 neon_cge_s32 /\ cge neon_u32 neon_cge_u32) /\
   (ceq neon_u8 neon_ceq_u8 /\ ceq neon_u16 neon_ceq_u16 /\ ceq neon_u32 neon_ceq_u32) /\
   (tst neon_u8 neon_tst_u8 /\ tst neon_u16 neon_tst_u16 /\ tst neon_u32 neon_tst_u32)).
Proof. exact (conj neon_select_exact neon_compare_exact). Qed.
