(* ===== verification/NeonShift.v ===== *)
(** * NEON shifts by a register (target-arm/neon_helper.c, lines 618-1137)

    Plain, rounding, saturating and rounding saturating shifts.  The shift
    count is the signed low byte of the second operand's lane: a negative count
    shifts right.  The macro bodies are generic in [sizeof(src1) * 8], the
    parameter [bits]. *)

From Stdlib Require Import ZArith Lia List Bool.
From S2P Require Import Prelude Cpu NeonLanes.
Import ListNotations.
Local Open Scope Z_scope.
Local Open Scope c_scope.

(** ** Plain shifts *)

Definition shl_u_fn (bits src1 src2 : Z) : Z :=
  let tmp := s8 src2 in
  if (tmp >=? bits) || (tmp <=? - bits) then 0
  else if tmp <? 0 then src1 .>> (- tmp)
  else src1 .<< tmp.

Definition neon_shl_u8 := NEON_VOP neon_u8 (shl_u_fn 8).
Definition neon_shl_u16 := NEON_VOP neon_u16 (shl_u_fn 16).
Definition neon_shl_u32 := NEON_VOP neon_u32 (shl_u_fn 32).

Definition neon_shl_u64 (val shiftop : Z) : Z :=
  let shift := s8 shiftop in
  if (shift >=? 64) || (shift <=? -64) then 0
  else if shift <? 0 then val .>> (- shift)
  else u64 (val .<< shift).

Definition shl_s_fn (bits src1 src2 : Z) : Z :=
  let tmp := s8 src2 in
  if tmp >=? bits then 0
  else if tmp <=? - bits then src1 .>> (bits - 1)
  else if tmp <? 0 then src1 .>> (- tmp)
  else src1 .<< tmp.

Definition neon_shl_s8 := NEON_VOP neon_s8 (shl_s_fn 8).
Definition neon_shl_s16 := NEON_VOP neon_s16 (shl_s_fn 16).
Definition neon_shl_s32 := NEON_VOP neon_s32 (shl_s_fn 32).

Definition neon_shl_s64 (valop shiftop : Z) : Z :=
  let shift := s8 shiftop in
  let val := s64 valop in
  u64 (if shift >=? 64 then 0
       else if shift <=? -64 then val .>> 63
       else if shift <? 0 then val .>> (- shift)
       else s64 (val .<< shift)).

(** ** Rounding shifts *)

Definition rshl_s_fn (bits src1 src2 : Z) : Z :=
  let tmp := s8 src2 in
  if (tmp >=? bits) || (tmp <=? - bits) then 0
  else if tmp <? 0 then (src1 + (1 .<< (-1 - tmp))) .>> (- tmp)
  else src1 .<< tmp.

Definition neon_rshl_s8 := NEON_VOP neon_s8 (rshl_s_fn 8).
Definition neon_rshl_s16 := NEON_VOP neon_s16 (rshl_s_fn 16).

Definition neon_rshl_s32 (valop shiftop : Z) : Z :=
  let val := s32 valop in
  let shift := s8 shiftop in
  let dest :=
    if (shift >=? 32) || (shift <=? -32) then 0
    else if shift <? 0 then
      let big_dest := s64 (val + s32 (1 .<< (-1 - shift))) in
      s32 (big_dest .>> (- shift))
    else s32 (val .<< shift) in
  u32 dest.

Definition neon_rshl_s64 (valop shiftop : Z) : Z :=
  let shift := s8 shiftop in
  let val := s64 valop in
  u64 (if (shift >=? 64) || (shift <=? -64) then 0
       else if shift <? 0 then
         let val := val .>> (- shift - 1) in
         if val =? 2 ^ 63 - 1 then 0x4000000000000000
         else s64 (val + 1) .>> 1
       else s64 (val .<< shift)).

Definition rshl_u_fn (bits src1 src2 : Z) : Z :=
  let tmp := s8 src2 in
  if (tmp >=? bits) || (tmp <? - bits) then 0
  else if tmp =? - bits then src1 .>> (- tmp - 1)
  else if tmp <? 0 then (src1 + (1 .<< (-1 - tmp))) .>> (- tmp)
  else src1 .<< tmp.

Definition neon_rshl_u8 := NEON_VOP neon_u8 (rshl_u_fn 8).
Definition neon_rshl_u16 := NEON_VOP neon_u16 (rshl_u_fn 16).

Definition neon_rshl_u32 (val shiftop : Z) : Z :=
  let shift := s8 shiftop in
  if (shift >=? 32) || (shift <? -32) then 0
  else if shift =? -32 then val .>> 31
  else if shift <? 0 then
    let big_dest := u64 (val + s32 (1 .<< (-1 - shift))) in
    u32 (big_dest .>> (- shift))
  else u32 (val .<< shift).

Definition neon_rshl_u64 (val shiftop : Z) : Z :=
  let shift := s8 (u8 shiftop) in
  if (shift >=? 64) || (shift <? -64) then 0
  else if shift =? -64 then val .>> 63
  else if shift <? 0 then
    let val := val .>> (- shift - 1) in
    if val =? 2 ^ 64 - 1 then 0x8000000000000000
    else u64 (val + 1) .>> 1
  else u64 (val .<< shift).

(** ** Saturating shifts *)

Definition qshl_u_fn (bits src1 src2 : Z) : M Z :=
  let tmp := s8 src2 in
  if tmp >=? bits then
    if truthy src1 then SET_QC;;; ret (Z.lnot 0) else ret 0
  else if tmp <=? - bits then ret 0
  else if tmp <? 0 then ret (src1 .>> (- tmp))
  else
    let dest := wrap bits (src1 .<< tmp) in
    if negb ((dest .>> tmp) =? src1) then SET_QC;;; ret (Z.lnot 0) else ret dest.

Definition neon_qshl_u8 := NEON_VOP_ENV neon_u8 (qshl_u_fn 8).
Definition neon_qshl_u16 := NEON_VOP_ENV neon_u16 (qshl_u_fn 16).
Definition neon_qshl_u32 := NEON_VOP_ENV neon_u32 (qshl_u_fn 32).

Definition neon_qshl_u64 (env : CPUARMState) (val shiftop : Z) : Z * CPUARMState :=
  let shift := s8 shiftop in
  (if shift >=? 64 then
     if truthy val then SET_QC;;; ret (u64 (Z.lnot 0)) else ret val
   else if shift <=? -64 then ret 0
   else if shift <? 0 then ret (val .>> (- shift))
   else
     let tmp := val in
     let val := u64 (val .<< shift) in
     if negb ((val .>> shift) =? tmp) then SET_QC;;; ret (u64 (Z.lnot 0)) else ret val) env.

(** [dest = 1 << (bits - 1); if (src1 > 0) dest--;] in the lane's type. *)
Definition qshl_s_max (bits src1 : Z) : Z :=
  let dest := swrap bits (u32 (1 .<< (bits - 1))) in
  if src1 >? 0 then swrap bits (dest - 1) else dest.

Definition qshl_s_fn (bits src1 src2 : Z) : M Z :=
  let tmp := s8 src2 in
  if tmp >=? bits then
    if truthy src1 then SET_QC;;; ret (qshl_s_max bits src1) else ret src1
  else if tmp <=? - bits then ret (src1 .>> 31)
  else if tmp <? 0 then ret (src1 .>> (- tmp))
  else
    let dest := swrap bits (src1 .<< tmp) in
    if negb ((dest .>> tmp) =? src1) then SET_QC;;; ret (qshl_s_max bits src1) else ret dest.

Definition neon_qshl_s8 := NEON_VOP_ENV neon_s8 (qshl_s_fn 8).
Definition neon_qshl_s16 := NEON_VOP_ENV neon_s16 (qshl_s_fn 16).
Definition neon_qshl_s32 := NEON_VOP_ENV neon_s32 (qshl_s_fn 32).

Definition neon_qshl_s64 (env : CPUARMState) (valop shiftop : Z) : Z * CPUARMState :=
  let shift := s8 (u8 shiftop) in
  let val := s64 valop in
  (val <- (if shift >=? 64 then
             if truthy val then
               SET_QC;;; ret (s64 (u64 (val .>> 63) .^ u64 (Z.lnot SIGNBIT64)))
             else ret val
           else if shift <=? -64 then ret (val .>> 63)
           else if shift <? 0 then ret (val .>> (- shift))
           else
             let tmp := val in
             let val := s64 (val .<< shift) in
             if negb ((val .>> shift) =? tmp) then
               SET_QC;;; ret (s64 (u64 (tmp .>> 63) .^ u64 (Z.lnot SIGNBIT64)))
             else ret val);;
   ret (u64 val)) env.

(** The lanes are read as unsigned; the sign bit decides. *)
Definition qshlu_fn (bits src1 src2 : Z) : M Z :=
  if truthy (src1 .& (1 .<< (bits - 1))) then SET_QC;;; ret 0
  else
    let tmp := s8 src2 in
    if tmp >=? bits then
      if truthy src1 then SET_QC;;; ret (Z.lnot 0) else ret 0
    else if tmp <=? - bits then ret 0
    else if tmp <? 0 then ret (src1 .>> (- tmp))
    else
      let dest := wrap bits (src1 .<< tmp) in
      if negb ((dest .>> tmp) =? src1) then SET_QC;;; ret (Z.lnot 0) else ret dest.

Definition neon_qshlu_s8 := NEON_VOP_ENV neon_u8 (qshlu_fn 8).
Definition neon_qshlu_s16 := NEON_VOP_ENV neon_u16 (qshlu_fn 16).

Definition neon_qshlu_s32 (env : CPUARMState) (valop shiftop : Z) : Z * CPUARMState :=
  if s32 valop <? 0 then (SET_QC;;; ret 0) env else neon_qshl_u32 env valop shiftop.

Definition neon_qshlu_s64 (env : CPUARMState) (valop shiftop : Z) : Z * CPUARMState :=
  if s64 valop <? 0 then (SET_QC;;; ret 0) env else neon_qshl_u64 env valop shiftop.

(** ** Rounding saturating shifts *)

Definition qrshl_u_fn (bits src1 src2 : Z) : M Z :=
  let tmp := s8 src2 in
  if tmp >=? bits then
    if truthy src1 then SET_QC;;; ret (Z.lnot 0) else ret 0
  else if tmp <? - bits then ret 0
  else if tmp =? - bits then ret (src1 .>> (bits - 1))
  else if tmp <? 0 then ret ((src1 + (1 .<< (-1 - tmp))) .>> (- tmp))
  else
    let dest := wrap bits (src1 .<< tmp) in
    if negb ((dest .>> tmp) =? src1) then SET_QC;;; ret (Z.lnot 0) else ret dest.

Definition neon_qrshl_u8 := NEON_VOP_ENV neon_u8 (qrshl_u_fn 8).
Definition neon_qrshl_u16 := NEON_VOP_ENV neon_u16 (qrshl_u_fn 16).

Definition neon_qrshl_u32 (env : CPUARMState) (val shiftop : Z) : Z * CPUARMState :=
  let shift := s8 shiftop in
  (if shift >=? 32 then
     if truthy val then SET_QC;;; ret (u32 (Z.lnot 0)) else ret 0
   else if shift <? -32 then ret 0
   else if shift =? -32 then ret (val .>> 31)
   else if shift <? 0 then
     let big_dest := u64 (val + s32 (1 .<< (-1 - shift))) in
     ret (u32 (big_dest .>> (- shift)))
   else
     let dest := u32 (val .<< shift) in
     if negb ((dest .>> shift) =? val) then SET_QC;;; ret (u32 (Z.lnot 0)) else ret dest) env.

Definition neon_qrshl_u64 (env : CPUARMState) (val shiftop : Z) : Z * CPUARMState :=
  let shift := s8 shiftop in
  (if shift >=? 64 then
     if truthy val then SET_QC;;; ret (u64 (Z.lnot 0)) else ret val
   else if shift <? -64 then ret 0
   else if shift =? -64 then ret (val .>> 63)
   else if shift <? 0 then
     let val := val .>> (- shift - 1) in
     if val =? 2 ^ 64 - 1 then ret 0x8000000000000000
     else ret (u64 (val + 1) .>> 1)
   else
     let tmp := val in
     let val := u64 (val .<< shift) in
     if negb ((val .>> shift) =? tmp) then SET_QC;;; ret (u64 (Z.lnot 0)) else ret val) env.

Definition qrshl_s_fn (bits src1 src2 : Z) : M Z :=
  let tmp := s8 src2 in
  if tmp >=? bits then
    if truthy src1 then SET_QC;;; ret (qshl_s_max bits src1) else ret 0
  else if tmp <=? - bits then ret 0
  else if tmp <? 0 then ret ((src1 + (1 .<< (-1 - tmp))) .>> (- tmp))
  else
    let dest := swrap bits (src1 .<< tmp) in
    if negb ((dest .>> tmp) =? src1) then SET_QC;;; ret (qshl_s_max bits src1) else ret dest.

Definition neon_qrshl_s8 := NEON_VOP_ENV neon_s8 (qrshl_s_fn 8).
Definition neon_qrshl_s16 := NEON_VOP_ENV neon_s16 (qrshl_s_fn 16).

Definition neon_qrshl_s32 (env : CPUARMState) (valop shiftop : Z) : Z * CPUARMState :=
  let val := s32 valop in
  let shift := s8 shiftop in
  (dest <- (if shift >=? 32 then
              if truthy val then
                SET_QC;;; ret (s32 (u32 (val .>> 31) .^ u32 (Z.lnot SIGNBIT)))
              else ret 0
            else if shift <=? -32 then ret 0
            else if shift <? 0 then
              let big_dest := s64 (val + s32 (1 .<< (-1 - shift))) in
              ret (s32 (big_dest .>> (- shift)))
            else
              let dest := s32 (val .<< shift) in
              if negb ((dest .>> shift) =? val) then
                SET_QC;;; ret (s32 (u32 (val .>> 31) .^ u32 (Z.lnot SIGNBIT)))
              else ret dest);;
   ret (u32 dest)) env.

Definition neon_qrshl_s64 (env : CPUARMState) (valop shiftop : Z) : Z * CPUARMState :=
  let shift := s8 (u8 shiftop) in
  let val := s64 valop in
  (val <- (if shift >=? 64 then
             if truthy val then
               SET_QC;;; ret (s64 (u64 (val .>> 63) .^ u64 (Z.lnot SIGNBIT64)))
             else ret val
           else if shift <=? -64 then ret 0
           else if shift <? 0 then
             let val := val .>> (- shift - 1) in
             if val =? 2 ^ 63 - 1 then ret 0x4000000000000000
             else ret (s64 (val + 1) .>> 1)
           else
             let tmp := val in
             let val := s64 (val .<< shift) in
             if negb ((val .>> shift) =? tmp) then
               SET_QC;;; ret (s64 (u64 (tmp .>> 63) .^ u64 (Z.lnot SIGNBIT64)))
             else ret val);;
   ret (u64 val)) env.


(** ** Exact shifts

    The unbounded result of a shift by [s] places, to the left when [s] is
    not negative; to the right it is rounded down or to nearest. *)

Definition shift_exact (x s : Z) : Z := if 0 <=? s then x * 2 ^ s else x / 2 ^ (- s).
Definition rshift_exact (x s : Z) : Z :=
  if 0 <=? s then x * 2 ^ s else (x + 2 ^ (- s - 1)) / 2 ^ (- s).

Section ShiftFacts.
Context (w : Z) (Hw : 0 < w).

Lemma wrap_shl_out x s : w <= s -> wrap w (x * 2 ^ s) = 0.
Proof.
  intros H; unfold wrap; replace s with (s - w + w) by lia.
  rewrite Z.pow_add_r, Z.mul_assoc by lia; apply Z.mod_mul; pose proof (pow2_pos w); lia.
Qed.

Lemma swrap_shl_out x s : w <= s -> swrap w (x * 2 ^ s) = 0.
Proof.
  intros H; rewrite <- swrap_wrap, wrap_shl_out by lia.
  apply swrap_id; [lia|]; unfold inS; pose proof (pow2_pos (w - 1)); lia.
Qed.

Lemma shr_out_u x n : inU w x -> w <= n -> x / 2 ^ n = 0.
Proof. intros H Hn; unfold inU in H; pose proof (Z.pow_le_mono_r 2 w n); apply Z.div_small; lia. Qed.

Lemma shr_out_s x n : inS w x -> w - 1 <= n -> x / 2 ^ n = if x <? 0 then -1 else 0.
Proof.
  intros H Hn; unfold inS in H; pose proof (Z.pow_le_mono_r 2 (w - 1) n).
  destruct (Z.ltb_spec x 0); [|apply Z.div_small; lia].
  symmetry; apply Z.div_unique with (x + 2 ^ n); lia.
Qed.

Lemma rshr_out_s x n : inS w x -> w <= n -> (x + 2 ^ (n - 1)) / 2 ^ n = 0.
Proof.
  intros H Hn; unfold inS in H; pose proof (Z.pow_le_mono_r 2 (w - 1) (n - 1)).
  rewrite (pow2_split n) by lia; apply Z.div_small; lia.
Qed.

Lemma rshr_out_u x n : inU w x -> w < n -> (x + 2 ^ (n - 1)) / 2 ^ n = 0.
Proof.
  intros H Hn; unfold inU in H; pose proof (Z.pow_le_mono_r 2 w (n - 1)).
  rewrite (pow2_split n) by lia; apply Z.div_small; lia.
Qed.

Lemma rshr_top_u x : inU w x -> (x + 2 ^ (w - 1)) / 2 ^ w = x / 2 ^ (w - 1).
Proof.
  intros H; unfold inU in H; pose proof (pow2_split w Hw); pose proof (pow2_pos (w - 1)).
  destruct (Z.ltb_spec x (2 ^ (w - 1))).
  - rewrite !Z.div_small by lia; reflexivity.
  - rewrite <- (Z.div_unique (x + 2 ^ (w - 1)) (2 ^ w) 1 (x - 2 ^ (w - 1))) by lia.
    apply Z.div_unique with (x - 2 ^ (w - 1)); lia.
Qed.

(** Rounding in two steps, as the 64-bit helpers do. *)
Lemma round_two_steps x n : 0 < n -> ((x / 2 ^ (n - 1)) + 1) / 2 = (x + 2 ^ (n - 1)) / 2 ^ n.
Proof.
  intros; pose proof (pow2_pos (n - 1)); rewrite (pow2_split n), (Z.mul_comm 2) by lia.
  rewrite <- Z.div_div by lia; f_equal; rewrite <- (Z.mul_1_l (2 ^ (n - 1))) at 2.
  rewrite Z.div_add by lia; reflexivity.
Qed.

(** A left shift lost no bits iff shifting back restores the operand. *)
Lemma shl_back_u x s :
  inU w x -> 0 <= s < w ->
  (wrap w (x .<< s) .>> s =? x) = (x * 2 ^ s <=? 2 ^ w - 1).
Proof.
  intros Hx Hs; unfold inU in Hx; pose proof (pow2_pos s); pose proof (pow2_pos w).
  rewrite Z.shiftl_mul_pow2, Z.shiftr_div_pow2 by lia.
  destruct (Z.leb_spec (x * 2 ^ s) (2 ^ w - 1)).
  - rewrite wrap_id, Z.div_mul by (unfold inU; nia); apply Z.eqb_refl.
  - apply Z.eqb_neq; intros E.
    pose proof (wrap_range w (x * 2 ^ s)); unfold inU in *.
    pose proof (Z.mul_div_le (wrap w (x * 2 ^ s)) (2 ^ s)); nia.
Qed.

Lemma shl_back_s x s :
  inS w x -> 0 <= s < w ->
  (swrap w (x .<< s) .>> s =? x) =
    (- 2 ^ (w - 1) <=? x * 2 ^ s) && (x * 2 ^ s <=? 2 ^ (w - 1) - 1).
Proof.
  intros Hx Hs; pose proof (pow2_pos s); pose proof (pow2_pos w).
  rewrite Z.shiftl_mul_pow2, Z.shiftr_div_pow2 by lia.
  destruct (Z.leb_spec (- 2 ^ (w - 1)) (x * 2 ^ s)), (Z.leb_spec (x * 2 ^ s) (2 ^ (w - 1) - 1));
    cbn [andb].
  1: rewrite swrap_id, Z.div_mul by (unfold inS; lia); apply Z.eqb_refl.
  all: apply Z.eqb_neq; intros E; pose proof (swrap_range w (x * 2 ^ s) Hw) as R; unfold inS in R;
    destruct (proj1 (wrap_eq_iff w (swrap w (x * 2 ^ s)) (x * 2 ^ s) ltac:(lia)))
      as [k Hk]; [apply wrap_swrap; lia|]; 
    pose proof (Z.mul_div_le (swrap w (x * 2 ^ s)) (2 ^ s));
    pose proof (Z.mul_succ_div_gt (swrap w (x * 2 ^ s)) (2 ^ s));
    pose proof (Z.pow_lt_mono_r 2 s w);
    assert (k = 0) by nia; nia.
Qed.
End ShiftFacts.

(** ** The macro bodies *)

Ltac shift_cases :=
  repeat (case_bool; cbn [orb andb negb]); try lia;
  rewrite ?Z.shiftr_div_pow2, ?Z.shiftl_mul_pow2 by lia.

Section MacroBodies.
Context (w : Z) (Hw : 0 < w).

Lemma shl_u_fn_ok x y : inU w x -> wrap w (shl_u_fn w x y) = wrap w (shift_exact x (s8 y)).
Proof.
  intros Hx; unfold shl_u_fn, shift_exact; cbv zeta; generalize (s8 y); intros s; shift_cases;
    rewrite ?wrap_shl_out, ?(shr_out_u w) by (lia || assumption); reflexivity.
Qed.

Lemma shl_s_fn_ok x y : inS w x -> swrap w (shl_s_fn w x y) = swrap w (shift_exact x (s8 y)).
Proof.
  intros Hx; unfold shl_s_fn, shift_exact; cbv zeta; generalize (s8 y); intros s; shift_cases;
    rewrite ?swrap_shl_out, ?(shr_out_s w Hw x) by (lia || assumption); try reflexivity.
  apply swrap_id; [lia|]; unfold inS; pose proof (pow2_pos (w - 1)); lia.
Qed.

Lemma rshl_s_fn_ok x y : inS w x -> swrap w (rshl_s_fn w x y) = swrap w (rshift_exact x (s8 y)).
Proof.
  intros Hx; unfold rshl_s_fn, rshift_exact; cbv zeta; generalize (s8 y); intros s; shift_cases.
  all: rewrite ?swrap_shl_out, ?(rshr_out_s w) by (lia || assumption); try reflexivity.
  all: try (apply swrap_id; [lia|]; unfold inS; pose proof (pow2_pos (w - 1)); lia).
  rewrite Z.mul_1_l; do 2 f_equal; do 2 f_equal; lia.
Qed.

Lemma rshl_u_fn_ok x y : inU w x -> wrap w (rshl_u_fn w x y) = wrap w (rshift_exact x (s8 y)).
Proof.
  intros Hx; unfold rshl_u_fn, rshift_exact; cbv zeta; generalize (s8 y); intros s; shift_cases;
    rewrite ?wrap_shl_out, ?(rshr_out_u w) by (lia || assumption); try reflexivity.
  - subst s; rewrite Z.opp_involutive, rshr_top_u by assumption; reflexivity.
  - rewrite Z.mul_1_l; do 2 f_equal; do 2 f_equal; lia.
Qed.
End MacroBodies.

(** ** Saturation of a shifted value *)

Section SaturatedShift.
Context (w : Z) (Hw : 0 < w).

Lemma shl_out_big x s : w <= s -> x <> 0 -> 2 ^ w <= Z.abs (x * 2 ^ s).
Proof.
  intros Hs Hx; pose proof (Z.pow_le_mono_r 2 w s); pose proof (pow2_pos s).
  rewrite Z.abs_mul, (Z.abs_eq (2 ^ s)) by lia; nia.
Qed.

Lemma usat_shl x s :
  inU w x -> 0 <= s ->
  usat w (x * 2 ^ s) =
    (if s >=? w then if x =? 0 then 0 else 2 ^ w - 1
     else if wrap w (x .<< s) .>> s =? x then wrap w (x .<< s) else 2 ^ w - 1) /\
  (usat w (x * 2 ^ s) =? x * 2 ^ s) =
    (if s >=? w then x =? 0 else wrap w (x .<< s) .>> s =? x).
Proof.
  intros Hx Hs; pose proof (pow2_pos s Hs); pose proof (pow2_pos w).
  rewrite Z.geb_leb; destruct (Z.leb_spec w s).
  - destruct (Z.eqb_spec x 0) as [->|N]; [unfold usat; split; cases|].
    pose proof (shl_out_big x s H1 N); unfold usat, inU in *.
    assert (0 < x * 2 ^ s) by nia; split; cases.
  - rewrite shl_back_u, Z.shiftl_mul_pow2 by (assumption || lia).
    assert (0 <= x * 2 ^ s) by (unfold inU in Hx; nia).
    unfold usat; split; cases; rewrite ?wrap_id by (unfold inU; lia); lia.
Qed.

Definition smax (x : Z) : Z := if x <? 0 then - 2 ^ (w - 1) else 2 ^ (w - 1) - 1.

Lemma ssat_shl x s :
  inS w x -> 0 <= s ->
  ssat w (x * 2 ^ s) =
    (if s >=? w then if x =? 0 then 0 else smax x
     else if swrap w (x .<< s) .>> s =? x then swrap w (x .<< s) else smax x) /\
  (ssat w (x * 2 ^ s) =? x * 2 ^ s) =
    (if s >=? w then x =? 0 else swrap w (x .<< s) .>> s =? x).
Proof.
  intros Hx Hs; pose proof (pow2_pos s Hs); pose proof (pow2_pos (w - 1)).
  pose proof (pow2_split w Hw); unfold smax.
  rewrite Z.geb_leb; destruct (Z.leb_spec w s).
  - destruct (Z.eqb_spec x 0) as [->|N]; [unfold ssat; split; cases|].
    pose proof (shl_out_big x s H2 N); unfold ssat, inS in *.
    assert (x < 0 /\ x * 2 ^ s < 0 \/ 0 < x /\ 0 < x * 2 ^ s) by nia; split; cases.
  - rewrite shl_back_s, Z.shiftl_mul_pow2 by (assumption || lia).
    assert (x < 0 /\ x * 2 ^ s < 0 \/ 0 <= x /\ 0 <= x * 2 ^ s) by nia.
    unfold ssat; split; cases; rewrite ?swrap_id by (unfold inS; lia); lia.
Qed.

(** A right shift cannot overflow. *)
Lemma shr_fit_u x n : inU w x -> 0 <= n -> inU w (x / 2 ^ n).
Proof.
  intros Hx Hn; unfold inU in *; pose proof (pow2_pos n Hn); split.
  - apply Z.div_pos; lia.
  - apply Z.div_lt_upper_bound; nia.
Qed.

Lemma shr_fit_s x n : inS w x -> 0 <= n -> inS w (x / 2 ^ n).
Proof.
  intros Hx Hn; unfold inS in *; pose proof (pow2_pos n Hn); split.
  - apply Z.div_le_lower_bound; nia.
  - apply Z.div_lt_upper_bound; nia.
Qed.

Lemma rshr_fit_u x n : inU w x -> 0 < n -> inU w ((x + 2 ^ (n - 1)) / 2 ^ n).
Proof.
  intros Hx Hn; unfold inU in *; pose proof (pow2_split n Hn); pose proof (pow2_pos (n - 1)).
  pose proof (Z.pow_le_mono_r 2 1 w); split.
  - apply Z.div_pos; lia.
  - apply Z.div_lt_upper_bound; [lia|]; nia.
Qed.

Lemma rshr_fit_s x n : inS w x -> 0 < n -> inS w ((x + 2 ^ (n - 1)) / 2 ^ n).
Proof.
  intros Hx Hn; unfold inS in *; pose proof (pow2_split n Hn); pose proof (pow2_pos (n - 1)).
  pose proof (pow2_pos (w - 1)); split.
  - apply Z.div_le_lower_bound; nia.
  - apply Z.div_lt_upper_bound; [lia|]; nia.
Qed.

Lemma shift_exact_left x s : 0 <= s -> shift_exact x s = x * 2 ^ s.
Proof. intros; unfold shift_exact; destruct (Z.leb_spec 0 s); [reflexivity|lia]. Qed.

Lemma rshift_exact_left x s : 0 <= s -> rshift_exact x s = x * 2 ^ s.
Proof. intros; unfold rshift_exact; destruct (Z.leb_spec 0 s); [reflexivity|lia]. Qed.

Lemma shift_exact_right x s : s < 0 -> shift_exact x s = x / 2 ^ (- s).
Proof. intros; unfold shift_exact; destruct (Z.leb_spec 0 s); [lia|reflexivity]. Qed.

Lemma rshift_exact_right x s : s < 0 -> rshift_exact x s = (x + 2 ^ (- s - 1)) / 2 ^ (- s).
Proof. intros; unfold rshift_exact; destruct (Z.leb_spec 0 s); [lia|reflexivity]. Qed.

Lemma wrap_m1 : wrap w (Z.lnot 0) = 2 ^ w - 1.
Proof. change (Z.lnot 0) with (-1); pose proof (pow2_pos w); rewrite wrap_neg; lia. Qed.

Lemma qshl_s_max_ok x : w <= 32 -> qshl_s_max w x = if x >? 0 then 2 ^ (w - 1) - 1 else - 2 ^ (w - 1).
Proof.
  intros H32; unfold qshl_s_max; pose proof (pow2_split w Hw); pose proof (pow2_pos (w - 1)).
  rewrite Z.shiftl_mul_pow2, Z.mul_1_l, swrap_wrap_le by lia.
  assert (E : swrap w (2 ^ (w - 1)) = - 2 ^ (w - 1))
    by (rewrite swrap_of_wrap by (unfold inU; lia); cases; lia).
  rewrite E; destruct (x >? 0); [|reflexivity].
  rewrite <- (swrap_id w (2 ^ (w - 1) - 1)) by (unfold inS; lia).
  apply swrap_eq_wrap; [lia|]; apply wrap_eq_iff; [lia|]; exists (-1); lia.
Qed.
End SaturatedShift.

Lemma shift_exact_neg x s : x < 0 -> shift_exact x s < 0.
Proof.
  intros Hx; unfold shift_exact; destruct (Z.leb_spec 0 s).
  - pose proof (pow2_pos s); nia.
  - apply Z.div_lt_upper_bound; [apply pow2_pos|]; lia.
Qed.

Section SaturatingBodies.
Context (w : Z) (Hw : 0 < w).

Definition sat_ok_u (e : Z) (r : Z * CPUARMState) (env : CPUARMState) : Prop :=
  wrap w (fst r) = usat w e /\ snd r = qc_if (negb (usat w e =? e)) env.
Definition sat_ok_s (e : Z) (r : Z * CPUARMState) (env : CPUARMState) : Prop :=
  swrap w (fst r) = ssat w e /\ snd r = qc_if (negb (ssat w e =? e)) env.

Lemma sat_ok_u_fit e d env : inU w e -> d = e -> sat_ok_u e (ret d env) env.
Proof.
  intros He ->; unfold sat_ok_u; rewrite (usat_id w e He), Z.eqb_refl; cbn [fst snd ret].
  split; [now apply wrap_id|reflexivity].
Qed.

Lemma sat_ok_s_fit e d env : inS w e -> d = e -> sat_ok_s e (ret d env) env.
Proof.
  intros He ->; unfold sat_ok_s; rewrite (ssat_id w e He), Z.eqb_refl; cbn [fst snd ret].
  split; [now apply swrap_id|reflexivity].
Qed.

(** The left-shift half of the unsigned bodies, of the signed ones. *)
Lemma sat_ok_u_left x s m z env :
  inU w x -> 0 <= s -> wrap w m = 2 ^ w - 1 -> (x = 0 -> z = 0) ->
  sat_ok_u (x * 2 ^ s)
    ((if s >=? w then if truthy x then SET_QC;;; ret m else ret z
      else let dest := wrap w (x .<< s) in
           if negb (dest .>> s =? x) then SET_QC;;; ret m else ret dest) env) env.
Proof.
  intros Hx Hs Hm Hz; destruct (usat_shl w Hw x s Hx Hs) as [E F]; unfold sat_ok_u; rewrite F, E.
  cbv zeta; unfold truthy; destruct (s >=? w).
  - rewrite run_sat1; cbn [fst snd]; destruct (Z.eqb_spec x 0); cbn [negb]; split; auto.
    now rewrite Hz.
  - rewrite run_sat1; cbn [fst snd]; destruct (_ =? x); cbn [negb]; split; auto.
    apply wrap_wrap; lia.
Qed.

Lemma sat_ok_s_left x s m z env :
  inS w x -> 0 <= s -> (x <> 0 -> swrap w m = smax w x) -> (x = 0 -> z = 0) ->
  sat_ok_s (x * 2 ^ s)
    ((if s >=? w then if truthy x then SET_QC;;; ret m else ret z
      else let dest := swrap w (x .<< s) in
           if negb (dest .>> s =? x) then SET_QC;;; ret m else ret dest) env) env.
Proof.
  intros Hx Hs Hm Hz; destruct (ssat_shl w Hw x s Hx Hs) as [E F]; unfold sat_ok_s; rewrite F, E.
  assert (Z0 : swrap w 0 = 0) by (apply swrap_id; [lia|]; unfold inS; pose proof (pow2_pos (w - 1)); lia).
  cbv zeta; unfold truthy; destruct (s >=? w).
  - rewrite run_sat1; cbn [fst snd]; destruct (Z.eqb_spec x 0); cbn [negb]; split; auto.
    rewrite Hz by assumption; exact Z0.
  - rewrite run_sat1; cbn [fst snd]; destruct (Z.eqb_spec (swrap w (x .<< s) .>> s) x) as [|N];
      cbn [negb]; split; try reflexivity; [apply swrap_swrap; lia|].
    apply Hm; intros ->; apply N; rewrite Z.shiftl_0_l, Z0, Z.shiftr_0_l; reflexivity.
Qed.

(** The count's sign selects the half of a body. *)
Ltac halves s :=
  destruct (Z.ltb_spec s 0) as [?|?];
  [ rewrite ?shift_exact_right, ?rshift_exact_right by assumption;
    rewrite (Z.geb_leb s w), (proj2 (Z.leb_gt w s)) by lia
  | rewrite ?shift_exact_left, ?rshift_exact_left by assumption;
    rewrite ?(proj2 (Z.leb_gt s (- w))), ?(proj2 (Z.ltb_ge s (- w))), ?(proj2 (Z.eqb_neq s (- w)))
      by lia ].

Lemma qshl_u_fn_ok x y env :
  inU w x -> sat_ok_u (shift_exact x (s8 y)) (qshl_u_fn w x y env) env.
Proof.
  intros Hx; unfold qshl_u_fn; cbv zeta; generalize (s8 y); intros s; halves s.
  - destruct (Z.leb_spec s (- w)); apply sat_ok_u_fit.
    all: rewrite ?Z.shiftr_div_pow2, ?(shr_out_u w) by (lia || assumption); try reflexivity.
    + unfold inU; pose proof (pow2_pos w); lia.
    + apply shr_fit_u; lia || assumption.
  - apply sat_ok_u_left; auto using wrap_m1.
Qed.

Lemma qshl_s_fn_ok x y env :
  w <= 32 -> inS w x -> sat_ok_s (shift_exact x (s8 y)) (qshl_s_fn w x y env) env.
Proof.
  intros H32 Hx; unfold qshl_s_fn; cbv zeta; generalize (s8 y); intros s; halves s.
  - destruct (Z.leb_spec s (- w)); apply sat_ok_s_fit; rewrite ?Z.shiftr_div_pow2 by lia;
      try reflexivity; try (apply shr_fit_s; lia || assumption).
    rewrite !(shr_out_s w) by (lia || assumption); reflexivity.
  - apply sat_ok_s_left; auto; intros N; rewrite qshl_s_max_ok by assumption; unfold smax.
    rewrite Z.gtb_ltb; pose proof (pow2_pos (w - 1)); cases; apply swrap_id; unfold inS; lia.
Qed.

Lemma qrshl_u_fn_ok x y env :
  inU w x -> sat_ok_u (rshift_exact x (s8 y)) (qrshl_u_fn w x y env) env.
Proof.
  intros Hx; unfold qrshl_u_fn; cbv zeta; generalize (s8 y); intros s; halves s.
  - destruct (Z.ltb_spec s (- w)); [|destruct (Z.eqb_spec s (- w))]; apply sat_ok_u_fit;
      try (apply rshr_fit_u; lia || assumption).
    + now rewrite (rshr_out_u w) by (lia || assumption).
    + subst s; now rewrite Z.opp_involutive, rshr_top_u, Z.shiftr_div_pow2 by (lia || assumption).
    + rewrite Z.shiftr_div_pow2, Z.shiftl_mul_pow2, Z.mul_1_l by lia; do 2 f_equal; f_equal; lia.
  - apply sat_ok_u_left; auto using wrap_m1.
Qed.

Lemma qrshl_s_fn_ok x y env :
  w <= 32 -> inS w x -> sat_ok_s (rshift_exact x (s8 y)) (qrshl_s_fn w x y env) env.
Proof.
  intros H32 Hx; unfold qrshl_s_fn; cbv zeta; generalize (s8 y); intros s; halves s.
  - destruct (Z.leb_spec s (- w)); apply sat_ok_s_fit; try (apply rshr_fit_s; lia || assumption).
    + now rewrite (rshr_out_s w) by (lia || assumption).
    + rewrite Z.shiftr_div_pow2, Z.shiftl_mul_pow2, Z.mul_1_l by lia; do 2 f_equal; f_equal; lia.
  - apply sat_ok_s_left; auto; intros N; rewrite qshl_s_max_ok by assumption; unfold smax.
    rewrite Z.gtb_ltb; pose proof (pow2_pos (w - 1)); cases; apply swrap_id; unfold inS; lia.
Qed.

(** A negative operand of the unsigned-result shift saturates to zero. *)
Lemma sat_ok_u_neg e env : e < 0 -> sat_ok_u e ((SET_QC;;; ret 0) env) env.
Proof.
  intros He; unfold sat_ok_u, bind, ret; cbn [SET_QC fst snd]; pose proof (pow2_pos w).
  assert (U : usat w e = 0) by (unfold usat; lia); rewrite U.
  split; [reflexivity|]; destruct (Z.eqb_spec 0 e); [lia|reflexivity].
Qed.

Lemma qshlu_fn_ok x y env :
  inU w x -> sat_ok_u (shift_exact (swrap w x) (s8 y)) (qshlu_fn w x y env) env.
Proof.
  intros Hx; unfold qshlu_fn; rewrite Z.shiftl_mul_pow2, Z.mul_1_l by lia.
  rewrite truthy_sign by assumption; rewrite swrap_of_wrap by assumption.
  destruct (Z.leb_spec (2 ^ (w - 1)) x), (Z.ltb_spec x (2 ^ (w - 1))); try lia.
  - apply sat_ok_u_neg, shift_exact_neg; unfold inU in Hx; lia.
  - exact (qshl_u_fn_ok x y env Hx).
Qed.
End SaturatingBodies.

(** ** Correctness of the helpers *)

Lemma UNPACK_signed bits n v :
  0 < bits -> NEON_UNPACK (mkV bits true n) v = map (swrap bits) (NEON_UNPACK (mkV bits false n) v).
Proof.
  intros Hb; unfold NEON_UNPACK, cast; cbn [elt_signed elt_bits elt_n].
  revert v; induction n; intros v; simpl; f_equal; auto; rewrite swrap_wrap; auto.
Qed.

(** A count is read from its low byte, whatever the lane's type. *)
Lemma s8_count y : s8 (u8 y) = s8 y /\ s8 (s32 y) = s8 y /\ s8 (s64 y) = s8 y.
Proof. repeat split; [apply swrap_wrap|apply swrap_swrap_le|apply swrap_swrap_le]; lia. Qed.

Lemma s8_range y : -128 <= s8 y < 128.
Proof. exact (swrap_range 8 y ltac:(lia)). Qed.

Lemma one_shl_small k : 0 <= k < 31 -> 0 <= 1 .<< k < 2 ^ 31.
Proof.
  intros; rewrite Z.shiftl_mul_pow2, Z.mul_1_l by lia.
  pose proof (pow2_pos k); pose proof (Z.pow_lt_mono_r 2 k 31); lia.
Qed.

Lemma s32_pow2 k : 0 <= k < 31 -> s32 (1 .<< k) = 1 .<< k.
Proof.
  intros H; apply swrap_id; [lia|]; pose proof (one_shl_small k H); unfold inS.
  change (32 - 1) with 31; lia.
Qed.

(** The last two steps of a 64-bit rounding shift, without the overflow. *)
Lemma round64_u x n :
  inU 64 x -> 0 < n ->
  (if x .>> (n - 1) =? 2 ^ 64 - 1 then 0x8000000000000000 else u64 ((x .>> (n - 1)) + 1) .>> 1) =
    (x + (1 .<< (n - 1))) .>> n.
Proof.
  intros Hx Hn; rewrite !Z.shiftr_div_pow2, Z.shiftl_mul_pow2, Z.mul_1_l, <- round_two_steps by lia.
  pose proof (shr_fit_u 64 ltac:(lia) x (n - 1) Hx ltac:(lia)) as R; unfold inU in R.
  destruct (Z.eqb_spec (x / 2 ^ (n - 1)) (2 ^ 64 - 1)) as [->|N]; [reflexivity|].
  rewrite wrap_id by (unfold inU; lia); reflexivity.
Qed.

Lemma round64_s x n :
  inS 64 x -> 0 < n ->
  (if x .>> (n - 1) =? 2 ^ 63 - 1 then 0x4000000000000000 else s64 ((x .>> (n - 1)) + 1) .>> 1) =
    (x + (1 .<< (n - 1))) .>> n.
Proof.
  intros Hx Hn; rewrite !Z.shiftr_div_pow2, Z.shiftl_mul_pow2, Z.mul_1_l, <- round_two_steps by lia.
  pose proof (shr_fit_s 64 ltac:(lia) x (n - 1) Hx ltac:(lia)) as R; unfold inS in R.
  change (64 - 1) with 63 in R.
  destruct (Z.eqb_spec (x / 2 ^ (n - 1)) (2 ^ 63 - 1)) as [->|N]; [reflexivity|].
  rewrite swrap_id by (lia || unfold inS; change (64 - 1) with 63; lia); reflexivity.
Qed.

(** The helpers on whole words compute the macro bodies at their width. *)
Section WordHelpers.

Lemma neon_shl_u64_body v s : inU 64 v -> neon_shl_u64 v s = u64 (shl_u_fn 64 v s).
Proof.
  intros Hv; unfold neon_shl_u64, shl_u_fn; repeat case_bool; cbn [orb]; try lia; try reflexivity.
  symmetry; apply wrap_id; rewrite Z.shiftr_div_pow2 by lia; apply shr_fit_u; lia || assumption.
Qed.

Lemma neon_shl_s64_body v s : neon_shl_s64 v s = u64 (shl_s_fn 64 (s64 v) s).
Proof.
  unfold neon_shl_s64, shl_s_fn; repeat case_bool; try lia; try reflexivity; apply wrap_swrap; lia.
Qed.

Lemma neon_rshl_u32_body v s : inU 32 v -> neon_rshl_u32 v s = u32 (rshl_u_fn 32 v s).
Proof.
  intros Hv; unfold neon_rshl_u32, rshl_u_fn; cbv zeta; pose proof (s8_range s).
  repeat case_bool; cbn [orb]; try reflexivity; try lia.
  - rewrite e; symmetry; apply wrap_id; rewrite Z.shiftr_div_pow2 by lia.
    apply shr_fit_u; lia || assumption.
  - pose proof (one_shl_small (-1 - s8 s)); unfold inU in Hv.
    rewrite s32_pow2, (wrap_id 64) by (lia || unfold inU; lia); reflexivity.
Qed.

Lemma neon_rshl_s32_body v s : neon_rshl_s32 v s = u32 (rshl_s_fn 32 (s32 v) s).
Proof.
  unfold neon_rshl_s32, rshl_s_fn; cbv zeta; pose proof (s8_range s).
  pose proof (swrap_range 32 v ltac:(lia)) as R; unfold inS in R.
  repeat case_bool; cbn [orb]; try reflexivity; try lia; rewrite wrap_swrap by lia; [|reflexivity].
  pose proof (one_shl_small (-1 - s8 s)); fold_pow2.
  rewrite s32_pow2, (swrap_id 64) by (lia || unfold inS; fold_pow2; lia); reflexivity.
Qed.

Lemma neon_rshl_u64_body v s : inU 64 v -> neon_rshl_u64 v s = u64 (rshl_u_fn 64 v s).
Proof.
  intros Hv; unfold neon_rshl_u64, rshl_u_fn; cbv zeta; rewrite (proj1 (s8_count s)).
  change (- (64)) with (-64).
  destruct (_ || _); [reflexivity|]; destruct (Z.eqb_spec (s8 s) (-64)).
  - rewrite e; symmetry; apply wrap_id; rewrite Z.shiftr_div_pow2 by lia.
    apply shr_fit_u; lia || assumption.
  - destruct (Z.ltb_spec (s8 s) 0); [|reflexivity]; rewrite round64_u by (assumption || lia).
    replace (- s8 s - 1) with (-1 - s8 s) by lia; symmetry; apply wrap_id.
    rewrite Z.shiftr_div_pow2, Z.shiftl_mul_pow2, Z.mul_1_l by lia.
    replace (-1 - s8 s) with (- s8 s - 1) by lia; apply rshr_fit_u; lia || assumption.
Qed.

Lemma neon_rshl_s64_body v s : neon_rshl_s64 v s = u64 (rshl_s_fn 64 (s64 v) s).
Proof.
  unfold neon_rshl_s64, rshl_s_fn; cbv zeta; change (- (64)) with (-64).
  destruct (_ || _); [reflexivity|]; destruct (Z.ltb_spec (s8 s) 0); [|apply wrap_swrap; lia].
  rewrite round64_s by (lia || apply swrap_range; lia); do 3 f_equal; f_equal; lia.
Qed.
End WordHelpers.

(** C26: the shifts by a register (VSHL, VRSHL) of all lane widths return in every lane
    the exactly shifted value, rounded for VRSHL, reduced to the lane, for every shift
    count from -128 to 127, including counts beyond the lane width. *)
Theorem neon_shift_exact :
  let shl vt := lanes2 vt vt vt (fun x y => cast vt (shift_exact x (s8 y))) in
  let rshl vt := lanes2 vt vt vt (fun x y => cast vt (rshift_exact x (s8 y))) in
  (shl neon_u8 neon_shl_u8 /\ shl neon_u16 neon_shl_u16 /\ shl neon_u32 neon_shl_u32 /\
   shl neon_u64 neon_shl_u64) /\
  (shl neon_s8 neon_shl_s8 /\ shl neon_s16 neon_shl_s16 /\ shl neon_s32 neon_shl_s32 /\
   shl neon_s64 neon_shl_s64) /\
  (rshl neon_u8 neon_rshl_u8 /\ rshl neon_u16 neon_rshl_u16 /\ rshl neon_u32 neon_rshl_u32 /\
   rshl neon_u64 neon_rshl_u64) /\
  (rshl neon_s8 neon_rshl_s8 /\ rshl neon_s16 neon_rshl_s16 /\ rshl neon_s32 neon_rshl_s32 /\
   rshl neon_s64 neon_rshl_s64).
Proof.
  intros shl rshl; subst shl rshl; splits.
  all: first [ lanes;
    first [now apply shl_u_fn_ok | now apply shl_s_fn_ok | now apply rshl_u_fn_ok
          | now apply rshl_s_fn_ok] | scalar].
  all: rewrite ?neon_shl_u64_body, ?neon_shl_s64_body, ?neon_rshl_u32_body, ?neon_rshl_s32_body,
         ?neon_rshl_u64_body, ?neon_rshl_s64_body by assumption.
  all: destruct (s8_count b) as (_ & E32 & E64).
  all: (split; [apply wrap_range; lia|]);
    rewrite ?wrap_wrap, ?swrap_wrap, ?(wrap_id _ a), ?(wrap_id _ b), ?E32, ?E64 by (lia || assumption);
    first [ apply shl_u_fn_ok | apply rshl_u_fn_ok | apply shl_s_fn_ok | apply rshl_s_fn_ok ];
    auto with crange.
Qed.

(** ** The saturating helpers on whole words *)

Section SaturatingWords.
Context (w : Z) (Hw : 0 < w).

(** A body followed by the conversion to the returned unsigned type. *)
Lemma sat_ok_s_return e (body : M Z) env :
  sat_ok_s w e (body env) env -> sat_ok_s w e ((v <- body;; ret (wrap w v)) env) env.
Proof.
  unfold sat_ok_s, bind; destruct (body env) as [v env']; cbn [fst snd ret]; intros [E F].
  now rewrite swrap_wrap.
Qed.

Lemma return_range (body : M Z) env : inU w (fst ((v <- body;; ret (wrap w v)) env)).
Proof. unfold bind; destruct (body env); cbn [fst ret]; auto with crange. Qed.

(** The value that has the sign of [x], as the word helpers write it. *)
Lemma smax64 x : inS 64 x -> s64 (u64 (x .>> 63) .^ u64 (Z.lnot SIGNBIT64)) = smax 64 x.
Proof.
  intros Hx; rewrite Z.shiftr_div_pow2, (shr_out_s 64) by (lia || assumption).
  unfold smax; destruct (x <? 0); reflexivity.
Qed.

Lemma smax32 x : inS 32 x -> s32 (u32 (x .>> 31) .^ u32 (Z.lnot SIGNBIT)) = smax 32 x.
Proof.
  intros Hx; rewrite Z.shiftr_div_pow2, (shr_out_s 32) by (lia || assumption).
  unfold smax; destruct (x <? 0); reflexivity.
Qed.

Lemma smax_id x : swrap w (smax w x) = smax w x.
Proof.
  pose proof (pow2_pos (w - 1)); apply swrap_id; [lia|]; unfold smax, inS; cases; lia.
Qed.
End SaturatingWords.

Ltac halves64 w s :=
  let nw := eval vm_compute in (- w) in
  destruct (Z.ltb_spec s 0) as [?|?];
  [ rewrite ?shift_exact_right, ?rshift_exact_right by assumption;
    rewrite (Z.geb_leb s w), (proj2 (Z.leb_gt w s)) by lia
  | rewrite ?shift_exact_left, ?rshift_exact_left by assumption;
    rewrite ?(proj2 (Z.leb_gt s nw)), ?(proj2 (Z.ltb_ge s nw)), ?(proj2 (Z.eqb_neq s nw)) by lia ].

Lemma neon_qshl_u64_ok env v s :
  inU 64 v -> sat_ok_u 64 (shift_exact v (s8 s)) (neon_qshl_u64 env v s) env.
Proof.
  intros Hx; unfold neon_qshl_u64; cbv zeta; generalize (s8 s); clear s; intros s; halves64 64 s.
  - destruct (Z.leb_spec s (-64)); apply sat_ok_u_fit.
    all: rewrite ?Z.shiftr_div_pow2, ?(shr_out_u 64) by (lia || assumption); try reflexivity.
    + unfold inU; lia.
    + apply shr_fit_u; lia || assumption.
  - apply sat_ok_u_left; auto; lia.
Qed.

Lemma neon_qshl_s64_ok env v s :
  sat_ok_s 64 (shift_exact (s64 v) (s8 s)) (neon_qshl_s64 env v s) env.
Proof.
  pose proof (swrap_range 64 v ltac:(lia)) as Hx; unfold neon_qshl_s64; apply sat_ok_s_return; [lia|].
  rewrite (proj1 (s8_count s)); cbv zeta; generalize dependent (s64 v); intros x Hx.
  generalize (s8 s); clear s v; intros s; halves64 64 s.
  - destruct (Z.leb_spec s (-64)); apply sat_ok_s_fit; try lia; rewrite ?Z.shiftr_div_pow2 by lia;
      try reflexivity; try (apply shr_fit_s; lia || assumption).
    rewrite !(shr_out_s 64) by (lia || assumption); reflexivity.
  - apply sat_ok_s_left; auto; [lia|]; intros N; rewrite smax64, smax_id by (assumption || lia).
    reflexivity.
Qed.

Lemma neon_qrshl_u32_ok env v s :
  inU 32 v -> sat_ok_u 32 (rshift_exact v (s8 s)) (neon_qrshl_u32 env v s) env.
Proof.
  intros Hx; unfold neon_qrshl_u32; cbv zeta; pose proof (s8_range s).
  generalize dependent (s8 s); clear s; intros s Hs; halves64 32 s.
  - destruct (Z.ltb_spec s (-32)); [|destruct (Z.eqb_spec s (-32))]; apply sat_ok_u_fit;
      try (apply rshr_fit_u; lia || assumption).
    + now rewrite (rshr_out_u 32) by (lia || assumption).
    + subst s; change (- -32) with 32; rewrite rshr_top_u, Z.shiftr_div_pow2 by (lia || assumption).
      reflexivity.
    + pose proof (one_shl_small (-1 - s)); unfold inU in Hx.
      rewrite s32_pow2, (wrap_id 64) by (lia || unfold inU; lia).
      rewrite Z.shiftr_div_pow2, Z.shiftl_mul_pow2, Z.mul_1_l by lia.
      replace (-1 - s) with (- s - 1) by lia; apply wrap_id, rshr_fit_u; lia || exact Hx.
  - apply sat_ok_u_left; auto; lia.
Qed.

Lemma neon_qrshl_u64_ok env v s :
  inU 64 v -> sat_ok_u 64 (rshift_exact v (s8 s)) (neon_qrshl_u64 env v s) env.
Proof.
  intros Hx; unfold neon_qrshl_u64; cbv zeta; generalize (s8 s); clear s; intros s; halves64 64 s.
  - destruct (Z.ltb_spec s (-64)); [|destruct (Z.eqb_spec s (-64))].
    + apply sat_ok_u_fit; rewrite (rshr_out_u 64) by (lia || assumption); unfold inU; lia.
    + apply sat_ok_u_fit; [apply rshr_fit_u; lia || assumption|].
      subst s; change (- -64) with 64; rewrite rshr_top_u, Z.shiftr_div_pow2 by (lia || assumption).
      reflexivity.
    + replace ((if v .>> (- s - 1) =? 2 ^ 64 - 1 then ret 9223372036854775808
                else ret (u64 ((v .>> (- s - 1)) + 1) .>> 1)) env)
        with (ret (S := CPUARMState) ((v + (1 .<< (- s - 1))) .>> (- s)) env)
        by (rewrite <- round64_u by (lia || assumption); now destruct (_ =? _)).
      apply sat_ok_u_fit; [apply rshr_fit_u; lia || assumption|].
      rewrite Z.shiftr_div_pow2, Z.shiftl_mul_pow2, Z.mul_1_l by lia; reflexivity.
  - apply sat_ok_u_left; auto; lia.
Qed.

Lemma neon_qrshl_s32_ok env v s :
  sat_ok_s 32 (rshift_exact (s32 v) (s8 s)) (neon_qrshl_s32 env v s) env.
Proof.
  pose proof (swrap_range 32 v ltac:(lia)) as Hx; unfold neon_qrshl_s32; apply sat_ok_s_return; [lia|].
  pose proof (s8_range s); cbv zeta; generalize dependent (s32 v); intros x Hx.
  generalize dependent (s8 s); clear s v; intros s Hs; halves64 32 s.
  - destruct (Z.leb_spec s (-32)); apply sat_ok_s_fit; try lia; try (apply rshr_fit_s; lia || assumption).
    + now rewrite (rshr_out_s 32) by (lia || assumption).
    + pose proof (one_shl_small (-1 - s)); unfold inS in Hx.
      rewrite s32_pow2, (swrap_id 64) by (lia || unfold inS; fold_pow2; lia).
      rewrite Z.shiftr_div_pow2, Z.shiftl_mul_pow2, Z.mul_1_l by lia.
      replace (-1 - s) with (- s - 1) by lia; apply swrap_id, rshr_fit_s; lia || exact Hx.
  - apply sat_ok_s_left; auto; [lia|]; intros N; rewrite smax32, smax_id by (assumption || lia).
    reflexivity.
Qed.

Lemma neon_qrshl_s64_ok env v s :
  sat_ok_s 64 (rshift_exact (s64 v) (s8 s)) (neon_qrshl_s64 env v s) env.
Proof.
  pose proof (swrap_range 64 v ltac:(lia)) as Hx; unfold neon_qrshl_s64; apply sat_ok_s_return; [lia|].
  rewrite (proj1 (s8_count s)); cbv zeta; generalize dependent (s64 v); intros x Hx.
  generalize (s8 s); clear s v; intros s; halves64 64 s.
  - destruct (Z.leb_spec s (-64)).
    + apply sat_ok_s_fit; rewrite ?(rshr_out_s 64) by (lia || assumption); unfold inS; lia.
    + replace ((if x .>> (- s - 1) =? 2 ^ 63 - 1 then ret 4611686018427387904
                else ret (s64 ((x .>> (- s - 1)) + 1) .>> 1)) env)
        with (ret (S := CPUARMState) ((x + (1 .<< (- s - 1))) .>> (- s)) env)
        by (rewrite <- round64_s by (lia || assumption); now destruct (_ =? _)).
      apply sat_ok_s_fit; [lia|apply rshr_fit_s; lia || assumption|].
      rewrite Z.shiftr_div_pow2, Z.shiftl_mul_pow2, Z.mul_1_l by lia; reflexivity.
  - apply sat_ok_s_left; auto; [lia|]; intros N; rewrite smax64, smax_id by (assumption || lia).
    reflexivity.
Qed.

Lemma shiftr_inU w x n : 0 < w -> inU w x -> 0 <= n -> inU w (x .>> n).
Proof. intros; rewrite Z.shiftr_div_pow2 by assumption; now apply shr_fit_u. Qed.

(** What an unsigned word helper returns is in range. *)
Ltac ret_range :=
  cbv zeta; repeat match goal with |- context [if ?c then _ else _] => destruct c eqn:? end;
  cbn [fst ret bind SET_QC]; auto with crange;
  first [apply shiftr_inU; lia || auto with crange | unfold inU; lia].

Lemma qshl_unsigned_range env v s :
  (inU 64 v -> inU 64 (fst (neon_qshl_u64 env v s)) /\ inU 64 (fst (neon_qrshl_u64 env v s))) /\
  (inU 32 v -> inU 32 (fst (neon_qrshl_u32 env v s))).
Proof.
  split; [intros Hv; split|intros Hv].
  - unfold neon_qshl_u64; ret_range.
  - unfold neon_qrshl_u64; ret_range.
  - unfold neon_qrshl_u32; ret_range.
Qed.

Lemma lanes2_qc_signed bits n vb vd g q h :
  0 < bits ->
  lanes2_qc (mkV bits false n) vb vd (fun x y => g (swrap bits x) y) (fun x y => q (swrap bits x) y) h ->
  lanes2_qc (mkV bits true n) vb vd g q h.
Proof.
  intros Hb H env a b Ha Hb'; rewrite UNPACK_signed by assumption.
  destruct (H env a b Ha Hb') as (S & R & V).
  rewrite <- (map_id (NEON_UNPACK vb b)), map2_map.
  unfold any2 in *; rewrite map2_map; auto.
Qed.

(** The 32- and 64-bit forms call the unsigned shift on a non-negative operand. *)
Lemma neon_qshl_u32_one env v s :
  inU 32 v -> inU 32 s ->
  neon_qshl_u32 env v s = (v <- qshl_u_fn 32 v s;; ret (u32 v)) env.
Proof.
  intros Hv Hs; unfold neon_qshl_u32, NEON_VOP_ENV; rewrite !UNPACK_one by reflexivity.
  unfold cast; cbn [elt_signed elt_bits neon_u32]; rewrite !wrap_id by assumption.
  cbn [NEON_DO]; unfold bind; destruct (qshl_u_fn 32 v s env) as [d env']; cbn [ret].
  unfold NEON_PACK; cbn [pack elt_bits]; now rewrite Z.shiftl_0_l, Z.lor_0_r.
Qed.

Lemma sat_ok_u_return e (body : M Z) env :
  sat_ok_u 32 e (body env) env -> sat_ok_u 32 e ((v <- body;; ret (u32 v)) env) env.
Proof.
  unfold sat_ok_u, bind; destruct (body env) as [v env']; cbn [fst snd ret]; intros [E F].
  rewrite wrap_wrap by lia; auto.
Qed.

Lemma swrap_nonneg w x : 0 < w -> inU w x -> 0 <= swrap w x -> swrap w x = x.
Proof.
  intros Hw Hx; rewrite swrap_of_wrap by assumption; unfold inU in Hx; cases.
Qed.

Lemma neon_qshlu_word_ok env v s :
  (inU 32 v -> inU 32 s ->
   inU 32 (fst (neon_qshlu_s32 env v s)) /\
   sat_ok_u 32 (shift_exact (s32 v) (s8 s)) (neon_qshlu_s32 env v s) env) /\
  (inU 64 v -> inU 64 s ->
   inU 64 (fst (neon_qshlu_s64 env v s)) /\
   sat_ok_u 64 (shift_exact (s64 v) (s8 s)) (neon_qshlu_s64 env v s) env).
Proof.
  split; intros Hv Hs.
  - unfold neon_qshlu_s32; destruct (Z.ltb_spec (s32 v) 0).
    + split; [cbn; unfold inU; lia|]; apply sat_ok_u_neg, shift_exact_neg; lia.
    + rewrite neon_qshl_u32_one, (swrap_nonneg 32) by (assumption || lia).
      split; [apply return_range; lia|]; now apply sat_ok_u_return, qshl_u_fn_ok.
  - unfold neon_qshlu_s64; destruct (Z.ltb_spec (s64 v) 0).
    + split; [cbn; unfold inU; lia|]; apply sat_ok_u_neg, shift_exact_neg; lia.
    + rewrite (swrap_nonneg 64) by (assumption || lia).
      split; [now apply qshl_unsigned_range|]; now apply neon_qshl_u64_ok.
Qed.

(** C8: the saturating shifts by a register (VQSHL, VQRSHL, VQSHLU) of all lane widths
    return the exactly shifted value, rounded for VQRSHL, clamped to the range of the
    result lane, for every shift count from -128 to 127, and set the saturation flag
    exactly when some lane was clamped. *)
Theorem neon_saturating_shift_exact :
  let qshl vt := saturates2 vt vt vt (fun x y => shift_exact x (s8 y)) in
  let qrshl vt := saturates2 vt vt vt (fun x y => rshift_exact x (s8 y)) in
  let qshlu va vd := saturates2 va vd vd (fun x y => shift_exact x (s8 y)) in
  (qshl neon_u8 neon_qshl_u8 /\ qshl neon_u16 neon_qshl_u16 /\ qshl neon_u32 neon_qshl_u32 /\
   qshl neon_u64 neon_qshl_u64) /\
  (qshl neon_s8 neon_qshl_s8 /\ qshl neon_s16 neon_qshl_s16 /\ qshl neon_s32 neon_qshl_s32 /\
   qshl neon_s64 neon_qshl_s64) /\
  (qrshl neon_u8 neon_qrshl_u8 /\ qrshl neon_u16 neon_qrshl_u16 /\
   qrshl neon_u32 neon_qrshl_u32 /\ qrshl neon_u64 neon_qrshl_u64) /\
  (qrshl neon_s8 neon_qrshl_s8 /\ qrshl neon_s16 neon_qrshl_s16 /\
   qrshl neon_s32 neon_qrshl_s32 /\ qrshl neon_s64 neon_qrshl_s64) /\
  (qshlu neon_s8 neon_u8 neon_qshlu_s8 /\ qshlu neon_s16 neon_u16 neon_qshlu_s16 /\
   qshlu neon_s32 neon_u32 neon_qshlu_s32 /\ qshlu neon_s64 neon_u64 neon_qshlu_s64).
Proof.
  intros qshl qrshl qshlu; subst qshl qrshl qshlu; splits.
  17, 18: apply lanes2_qc_signed; [lia|].
  all: first [ lanes;
    first [now apply qshl_u_fn_ok | now apply qshl_s_fn_ok | now apply qrshl_u_fn_ok
          | now apply qrshl_s_fn_ok | now apply qshlu_fn_ok] | scalar].
  all: destruct (s8_count b) as (_ & E32 & E64), (qshl_unsigned_range env a b) as [R64 R32].
  all: rewrite ?(wrap_id _ a), ?(wrap_id _ b), ?E32, ?E64 by (lia || assumption).
  7, 8: destruct (neon_qshlu_word_ok env a b) as [Q32 Q64]; (apply Q32 || apply Q64); assumption.
  all: (split; [try apply return_range; try lia; try apply R64; try apply R32; assumption|]).
  - now apply neon_qshl_u64_ok.
  - now apply neon_qshl_s64_ok.
  - now apply neon_qrshl_u32_ok.
  - now apply neon_qrshl_u64_ok.
  - now apply neon_qrshl_s32_ok.
  - now apply neon_qrshl_s64_ok.
Qed.
