(* ===== verification/NeonBits.v ===== *)
(** * NEON polynomial products and bit counts
      (target-arm/neon_helper.c, lines 1173-1300 and 2213-2242) *)

From Stdlib Require Import ZArith Lia List Bool.
From S2P Require Import Prelude BitRoute NeonLanes NeonSwar.
Import ListNotations.
Local Open Scope Z_scope.
Local Open Scope c_scope.

(** ** Polynomial multiplication

    The loops [while (op1)] run with fuel; [None] is a loop that has not
    finished. *)

Definition mul_p8_mask (op1 : Z) : Z :=
  let mask := 0 in
  let mask := if truthy (op1 .& 1) then mask .| 0xff else mask in
  let mask := if truthy (op1 .& (1 .<< 8)) then mask .| (0xff .<< 8) else mask in
  let mask := if truthy (op1 .& (1 .<< 16)) then mask .| (0xff .<< 16) else mask in
  if truthy (op1 .& (1 .<< 24)) then mask .| u32 (s32 (0xff .<< 24)) else mask.

Fixpoint mul_p8_loop (fuel : nat) (op1 op2 result : Z) : option Z :=
  if truthy op1 then
    match fuel with
    | O => None
    | S fuel =>
        let mask := mul_p8_mask op1 in
        mul_p8_loop fuel ((op1 .>> 1) .& 0x7f7f7f7f) (u32 (op2 .<< 1) .& 0xfefefefe)
          (result .^ (op2 .& mask))
    end
  else Some result.

Definition neon_mul_p8 (op1 op2 : Z) : option Z := mul_p8_loop 8 op1 op2 0.

Definition mull_p8_mask (op1 : Z) : Z :=
  let mask := 0 in
  let mask := if truthy (op1 .& 1) then mask .| 0xffff else mask in
  let mask := if truthy (op1 .& (1 .<< 8)) then mask .| u32 (0xffff .<< 16) else mask in
  let mask := if truthy (op1 .& (1 .<< 16)) then mask .| u64 (0xffff .<< 32) else mask in
  if truthy (op1 .& (1 .<< 24)) then mask .| u64 (0xffff .<< 48) else mask.

Fixpoint mull_p8_loop (fuel : nat) (op1 op2ex result : Z) : option Z :=
  if truthy op1 then
    match fuel with
    | O => None
    | S fuel =>
        let mask := mull_p8_mask op1 in
        mull_p8_loop fuel ((op1 .>> 1) .& 0x7f7f7f7f) (u64 (op2ex .<< 1))
          (result .^ (op2ex .& mask))
    end
  else Some result.

Definition neon_mull_p8 (op1 op2 : Z) : option Z :=
  let op2ex := op2 in
  let op2ex := (op2ex .& 0xff) .| u64 ((op2ex .& 0xff00) .<< 8)
               .| u64 ((op2ex .& 0xff0000) .<< 16) .| u64 ((op2ex .& 0xff000000) .<< 24) in
  mull_p8_loop 8 op1 op2ex 0.

(** Lines 2213-2242: the 64-bit polynomial product, low and high half. *)
Definition neon_pmull_64_lo (op1 op2 : Z) : Z :=
  fold_left (fun res bitnum =>
               if truthy (op1 .& u64 (1 .<< Z.of_nat bitnum))
               then res .^ u64 (op2 .<< Z.of_nat bitnum) else res) (seq 0 64) 0.

Definition neon_pmull_64_hi (op1 op2 : Z) : Z :=
  fold_left (fun res bitnum =>
               if truthy (op1 .& u64 (1 .<< Z.of_nat bitnum))
               then res .^ (op2 .>> (64 - Z.of_nat bitnum)) else res) (seq 1 63) 0.

(** ** Counting bits *)

Fixpoint clz_loop (fuel : nat) (x n : Z) : option Z :=
  if truthy x then
    match fuel with
    | O => None
    | S fuel => clz_loop fuel (x .>> 1) (n - 1)
    end
  else Some n.

Definition do_clz8 (x : Z) : option Z := clz_loop 8 (u8 x) 8.
Definition do_clz16 (x : Z) : option Z := clz_loop 16 (u16 x) 16.

(** [NEON_VOP1] with a lane function that loops; [None] when one of the loops has
    not finished. *)
Fixpoint map_opt {A B} (f : A -> option B) (l : list A) : option (list B) :=
  match l with
  | [] => Some []
  | x :: l => let? y := f x in let? r := map_opt f l in Some (y :: r)
  end.

Definition NEON_VOP1_loop (vt : vtype) (fn : Z -> option Z) (arg : Z) : option Z :=
  let? l := map_opt fn (NEON_UNPACK vt arg) in Some (NEON_PACK vt l).

Definition neon_clz_u8 : Z -> option Z := NEON_VOP1_loop neon_u8 do_clz8.
Definition neon_clz_u16 : Z -> option Z := NEON_VOP1_loop neon_u16 do_clz16.
Definition neon_cls_s8 : Z -> option Z := NEON_VOP1_loop neon_s8 (fun src =>
  let? n := do_clz8 (if src <? 0 then Z.lnot src else src) in Some (n - 1)).
Definition neon_cls_s16 : Z -> option Z := NEON_VOP1_loop neon_s16 (fun src =>
  let? n := do_clz16 (if src <? 0 then Z.lnot src else src) in Some (n - 1)).

Definition neon_cls_s32 (x : Z) : option Z :=
  let x := if s32 x <? 0 then u32 (Z.lnot x) else x in
  let? count := clz_loop 32 x 32 in Some (u32 (count - 1)).

Definition neon_cnt_u8 (x : Z) : Z :=
  let x := u32 ((x .& 0x55555555) + ((x .>> 1) .& 0x55555555)) in
  let x := u32 ((x .& 0x33333333) + ((x .>> 2) .& 0x33333333)) in
  u32 ((x .& 0x0f0f0f0f) + ((x .>> 4) .& 0x0f0f0f0f)).

Definition neon_rbit_u8 (x : Z) : Z :=
  let x := ((x .& 0xf0f0f0f0) .>> 4) .| u32 ((x .& 0x0f0f0f0f) .<< 4) in
  ((x .& 0x88888888) .>> 3) .| ((x .& 0x44444444) .>> 1)
    .| u32 ((x .& 0x22222222) .<< 1) .| u32 ((x .& 0x11111111) .<< 3).

(** ** The carry-less product

    The product of the polynomials over GF(2) whose coefficients are the bits
    of [a] (the first [n]) and of [b]. *)
Fixpoint clmul (n : nat) (a b : Z) : Z :=
  match n with
  | O => 0
  | S n => clmul n a b .^ (if Z.testbit a (Z.of_nat n) then b .<< Z.of_nat n else 0)
  end.

Lemma clmul_range n w a b : 0 <= w -> inU w b -> inU (Z.of_nat n + w) (clmul n a b).
Proof.
  intros Hw Hb; induction n as [|n IH]; [unfold inU; cbn [clmul]; pose proof (pow2_pos w); simpl; lia|].
  assert (L : forall x, inU (Z.of_nat n + w) x -> inU (Z.of_nat (S n) + w) x)
    by (unfold inU; intros x; pose proof (Z.pow_le_mono_r 2 (Z.of_nat n + w) (Z.of_nat (S n) + w)); lia).
  cbn [clmul]; apply lxor_range; [lia|auto|]; apply L.
  destruct (Z.testbit a _).
  - unfold inU in *; rewrite Z.shiftl_mul_pow2, Z.pow_add_r by lia.
    pose proof (pow2_pos (Z.of_nat n)); nia.
  - unfold inU; pose proof (pow2_pos (Z.of_nat n + w)); lia.
Qed.

(** The bits of [a] that are zero do not count. *)
Lemma clmul_stop n m a b :
  inU (Z.of_nat n) a -> (n <= m)%nat -> clmul m a b = clmul n a b.
Proof.
  intros Ha H; induction H as [|m H IH]; [reflexivity|].
  cbn [clmul]; rewrite IH, (testbit_high (Z.of_nat n)) by (assumption || lia); apply Z.lxor_0_r.
Qed.

Lemma shiftr_zero n a : 0 <= a -> 0 <= n -> a .>> n = 0 -> inU n a.
Proof.
  intros Ha Hn E; rewrite Z.shiftr_div_pow2 in E by lia; unfold inU.
  pose proof (pow2_pos n Hn); apply Z.div_small_iff in E; lia.
Qed.

Lemma pack_zero bits l : 0 <= bits -> Forall (inU bits) l -> pack bits l = 0 -> Forall (eq 0) l.
Proof.
  intros Hb H; induction H as [|x l Hx H IH]; [constructor|].
  pose proof (pack_range bits l Hb); pose proof (pow2_pos bits Hb).
  rewrite pack_cons, wrap_id by assumption; unfold inU in *; intros E.
  constructor; [|apply IH]; nia.
Qed.

Lemma mul_p8_step_op1 x0 x1 x2 x3 :
  inU 8 x0 -> inU 8 x1 -> inU 8 x2 -> inU 8 x3 ->
  (pack 8 [x0; x1; x2; x3] .>> 1) .& 0x7f7f7f7f = pack 8 [x0 .>> 1; x1 .>> 1; x2 .>> 1; x3 .>> 1].
Proof. intros; cbn [pack]; route. Qed.

Lemma mul_p8_step_op2 y0 y1 y2 y3 :
  inU 16 y0 -> inU 16 y1 -> inU 16 y2 -> inU 16 y3 ->
  u32 (pack 8 [y0; y1; y2; y3] .<< 1) .& 0xfefefefe =
    pack 8 [y0 .<< 1; y1 .<< 1; y2 .<< 1; y3 .<< 1].
Proof. intros; cbn [pack]; route. Qed.

Lemma mull_p8_step_op2 y0 y1 y2 y3 :
  inU 15 y0 -> inU 15 y1 -> inU 15 y2 -> inU 15 y3 ->
  u64 (pack 16 [y0; y1; y2; y3] .<< 1) = pack 16 [y0 .<< 1; y1 .<< 1; y2 .<< 1; y3 .<< 1].
Proof. intros; cbn [pack]; route. Qed.

(** The test of the low bit of a lane. *)
Lemma lane_bit0 x0 x1 x2 x3 k v :
  inU 8 x0 -> inU 8 x1 -> inU 8 x2 -> inU 8 x3 ->
  In (k, v) [(0, x0); (8, x1); (16, x2); (24, x3)] ->
  truthy (pack 8 [x0; x1; x2; x3] .& (1 .<< k)) = Z.testbit v 0.
Proof.
  intros H0 H1 H2 H3 Hk.
  assert (E : wrap 8 (pack 8 [x0; x1; x2; x3] .>> k) = v).
  { cbn [pack]; repeat (destruct Hk as [[= <- <-]|Hk]; [route|]); contradiction. }
  assert (0 <= k) by (repeat (destruct Hk as [[= <- <-]|Hk]; [lia|]); contradiction).
  rewrite Z.shiftl_1_l, truthy_land_pow2, <- E, testbit_wrap, Z.shiftr_spec by lia; reflexivity.
Qed.

Lemma mul_p8_mask_ok x0 x1 x2 x3 y0 y1 y2 y3 :
  inU 8 x0 -> inU 8 x1 -> inU 8 x2 -> inU 8 x3 ->
  inU 16 y0 -> inU 16 y1 -> inU 16 y2 -> inU 16 y3 ->
  let keep x y := if Z.testbit x 0 then y else 0 in
  pack 8 [y0; y1; y2; y3] .& mul_p8_mask (pack 8 [x0; x1; x2; x3]) =
    pack 8 [keep x0 y0; keep x1 y1; keep x2 y2; keep x3 y3].
Proof.
  intros X0 X1 X2 X3 Y0 Y1 Y2 Y3 keep; unfold mul_p8_mask, keep.
  change (pack 8 [x0; x1; x2; x3] .& 1) with (pack 8 [x0; x1; x2; x3] .& (1 .<< 0)).
  rewrite (lane_bit0 x0 x1 x2 x3 0 x0), (lane_bit0 x0 x1 x2 x3 8 x1),
    (lane_bit0 x0 x1 x2 x3 16 x2), (lane_bit0 x0 x1 x2 x3 24 x3) by (assumption || simpl; tauto).
  clear X0 X1 X2 X3; destruct (Z.testbit x0 0), (Z.testbit x1 0), (Z.testbit x2 0), (Z.testbit x3 0);
    cbn [pack]; route.
Qed.

Lemma mull_p8_mask_ok x0 x1 x2 x3 y0 y1 y2 y3 :
  inU 8 x0 -> inU 8 x1 -> inU 8 x2 -> inU 8 x3 ->
  inU 16 y0 -> inU 16 y1 -> inU 16 y2 -> inU 16 y3 ->
  let keep x y := if Z.testbit x 0 then y else 0 in
  pack 16 [y0; y1; y2; y3] .& mull_p8_mask (pack 8 [x0; x1; x2; x3]) =
    pack 16 [keep x0 y0; keep x1 y1; keep x2 y2; keep x3 y3].
Proof.
  intros X0 X1 X2 X3 Y0 Y1 Y2 Y3 keep; unfold mull_p8_mask, keep.
  change (pack 8 [x0; x1; x2; x3] .& 1) with (pack 8 [x0; x1; x2; x3] .& (1 .<< 0)).
  rewrite (lane_bit0 x0 x1 x2 x3 0 x0), (lane_bit0 x0 x1 x2 x3 8 x1),
    (lane_bit0 x0 x1 x2 x3 16 x2), (lane_bit0 x0 x1 x2 x3 24 x3) by (assumption || simpl; tauto).
  clear X0 X1 X2 X3; destruct (Z.testbit x0 0), (Z.testbit x1 0), (Z.testbit x2 0), (Z.testbit x3 0);
    cbn [pack]; route.
Qed.

Lemma truthy_pack l :
  Forall (inU 8) l -> truthy (pack 8 l) = false -> Forall (eq 0) l.
Proof.
  intros H E; apply (pack_zero 8); [lia|assumption|].
  unfold truthy in E; destruct (Z.eqb_spec (pack 8 l) 0); [assumption|discriminate].
Qed.


Lemma shiftr_bit x j : Z.testbit (x .>> Z.of_nat j) 0 = Z.testbit x (Z.of_nat j).
Proof. rewrite Z.shiftr_spec by lia; f_equal; lia. Qed.

Lemma shiftr_inU8 x j : inU 8 x -> inU 8 (x .>> Z.of_nat j).
Proof.
  unfold inU; intros; rewrite Z.shiftr_div_pow2 by lia; pose proof (pow2_pos (Z.of_nat j)).
  split; [apply Z.div_pos; lia|]; apply Z.div_lt_upper_bound; nia.
Qed.

Lemma shiftl_inU w x j : inU w x -> 0 <= w -> inU (w + Z.of_nat j) (x .<< Z.of_nat j).
Proof.
  unfold inU; intros; rewrite Z.shiftl_mul_pow2, Z.pow_add_r by lia.
  pose proof (pow2_pos (Z.of_nat j)); nia.
Qed.

Section P8.
  Variables x0 x1 x2 x3 y0 y1 y2 y3 : Z.
  Hypothesis X0 : inU 8 x0. Hypothesis X1 : inU 8 x1. Hypothesis X2 : inU 8 x2. Hypothesis X3 : inU 8 x3.
  Hypothesis Y0 : inU 8 y0. Hypothesis Y1 : inU 8 y1. Hypothesis Y2 : inU 8 y2. Hypothesis Y3 : inU 8 y3.

Let xs (j : nat) := map (fun x => x .>> Z.of_nat j) [x0; x1; x2; x3].
Let ys (j : nat) := map (fun y => y .<< Z.of_nat j) [y0; y1; y2; y3].
Let rs (j : nat) := map2 (clmul j) [x0; x1; x2; x3] [y0; y1; y2; y3].

Lemma xs_in j : Forall (inU 8) (xs j).
Proof. unfold xs; cbn [map]; repeat constructor; now apply shiftr_inU8. Qed.

Lemma rs_done j : (j <= 8)%nat -> truthy (pack 8 (xs j)) = false -> rs j = rs 8.
Proof.
  intros Hj E; apply truthy_pack in E; [|apply xs_in]; unfold rs, xs in *; cbn [map map2] in *.
  repeat match goal with H : Forall (eq 0) (_ :: _) |- _ => inversion_clear H end.
  repeat apply (f_equal2 cons); try reflexivity; symmetry; apply clmul_stop; auto; apply shiftr_zero; auto; unfold inU in *; lia.
Qed.

Lemma rs_all : truthy (pack 8 (xs 8)) = false.
Proof.
  assert (Z8 : forall x, inU 8 x -> x .>> Z.of_nat 8 = 0)
    by (unfold inU; intros; rewrite Z.shiftr_div_pow2 by lia; apply Z.div_small; simpl in *; lia).
  unfold xs; cbn [map]; rewrite !Z8 by assumption; reflexivity.
Qed.

Lemma rs_step bits j :
  0 < bits ->
  let keep x y := if Z.testbit x 0 then y else 0 in
  pack bits (rs j) .^ pack bits (map2 keep (xs j) (ys j)) = pack bits (rs (S j)).
Proof.
  intros Hb keep; rewrite lxor_pack by (assumption || reflexivity).
  unfold rs, xs, ys, keep; cbn [map map2 clmul]; now rewrite !shiftr_bit.
Qed.

Lemma shift_more j :
  map (fun x => x .>> 1) (xs j) = xs (S j) /\ map (fun y => y .<< 1) (ys j) = ys (S j).
Proof.
  unfold xs, ys; cbn [map]; rewrite !Z.shiftr_shiftr, !Z.shiftl_shiftl by lia.
  replace (Z.of_nat j + 1) with (Z.of_nat (S j)) by lia; split; reflexivity.
Qed.

Lemma mul_p8_loop_ok fuel j :
  (j + fuel = 8)%nat ->
  mul_p8_loop fuel (pack 8 (xs j)) (pack 8 (ys j)) (pack 8 (rs j)) = Some (pack 8 (rs 8)).
Proof.
  revert j; induction fuel as [|fuel IH]; intros j E; cbn [mul_p8_loop].
  - replace j with 8%nat by lia; now rewrite rs_all.
  - destruct (truthy (pack 8 (xs j))) eqn:T; [|now rewrite rs_done by (lia || assumption)].
    assert (S8 : forall y, inU 8 y -> inU 16 (y .<< Z.of_nat j))
      by (intros y Hy; apply (inU_le (8 + Z.of_nat j)); [lia|]; now apply shiftl_inU).
    unfold xs at 1 2, ys at 1 2; cbn [map].
    rewrite mul_p8_step_op1, mul_p8_step_op2, mul_p8_mask_ok by auto using shiftr_inU8.
    rewrite <- (IH (S j)), <- (rs_step 8 j) by lia.
    now rewrite <- (proj1 (shift_more j)), <- (proj2 (shift_more j)).
Qed.

Lemma mull_p8_loop_ok fuel j :
  (j + fuel = 8)%nat ->
  mull_p8_loop fuel (pack 8 (xs j)) (pack 16 (ys j)) (pack 16 (rs j)) = Some (pack 16 (rs 8)).
Proof.
  revert j; induction fuel as [|fuel IH]; intros j E; cbn [mull_p8_loop].
  - replace j with 8%nat by lia; now rewrite rs_all.
  - destruct (truthy (pack 8 (xs j))) eqn:T; [|now rewrite rs_done by (lia || assumption)].
    assert (S8 : forall y, inU 8 y -> inU 15 (y .<< Z.of_nat j))
      by (intros y Hy; apply (inU_le (8 + Z.of_nat j)); [lia|]; now apply shiftl_inU).
    assert (S9 : forall y, inU 15 y -> inU 16 y) by (intros y; apply inU_le; lia).
    unfold xs at 1 2, ys at 1 2; cbn [map].
    rewrite mul_p8_step_op1, mull_p8_step_op2, mull_p8_mask_ok by auto using shiftr_inU8.
    rewrite <- (IH (S j)), <- (rs_step 16 j) by lia.
    now rewrite <- (proj1 (shift_more j)), <- (proj2 (shift_more j)).
Qed.
End P8.


(** C30: the packed carry-less multiplication loops of VMUL.P8 and VMULL.P8 stop after
    at most eight rounds and return in every lane the carry-less product of the lanes,
    its low byte for VMUL and all of it for VMULL. *)
Theorem neon_polynomial_product a b :
  inU 32 a -> inU 32 b ->
  (exists r, neon_mul_p8 a b = Some r /\ inU 32 r /\
     NEON_UNPACK neon_u8 r =
       map2 (fun x y => u8 (clmul 8 x y)) (NEON_UNPACK neon_u8 a) (NEON_UNPACK neon_u8 b)) /\
  (exists r, neon_mull_p8 a b = Some r /\ inU 64 r /\
     NEON_UNPACK q_u16 r = map2 (clmul 8) (NEON_UNPACK neon_u8 a) (NEON_UNPACK neon_u8 b)).
Proof.
  intros Ha Hb.
  assert (Pa : a = pack 8 (map (fun x => x .>> Z.of_nat 0) (NEON_UNPACK neon_u8 a)))
    by (rewrite map_ext with (g := fun x => x) by apply Z.shiftr_0_r; rewrite map_id; symmetry;
        now apply (PACK_UNPACK neon_u8)).
  assert (Pb : b = pack 8 (map (fun x => x .<< Z.of_nat 0) (NEON_UNPACK neon_u8 b)))
    by (rewrite map_ext with (g := fun x => x) by apply Z.shiftl_0_r; rewrite map_id; symmetry;
        now apply (PACK_UNPACK neon_u8)).
  split.
  - exists (NEON_PACK neon_u8 (map2 (clmul 8) (NEON_UNPACK neon_u8 a) (NEON_UNPACK neon_u8 b))); splits.
    + unfold neon_mul_p8; rewrite Pa at 1; rewrite Pb at 1.
      apply (mul_p8_loop_ok _ _ _ _ _ _ _ _ (wrap_range 8 _ ltac:(lia)) (wrap_range 8 _ ltac:(lia))
        (wrap_range 8 _ ltac:(lia)) (wrap_range 8 _ ltac:(lia)) (wrap_range 8 _ ltac:(lia))
        (wrap_range 8 _ ltac:(lia)) (wrap_range 8 _ ltac:(lia)) (wrap_range 8 _ ltac:(lia)) 8 0).
      reflexivity.
    + now apply (PACK_range neon_u8).
    + now rewrite UNPACK_PACK, map_map2.
  - exists (NEON_PACK q_u16 (map2 (clmul 8) (NEON_UNPACK neon_u8 a) (NEON_UNPACK neon_u8 b))); splits.
    + unfold neon_mull_p8; rewrite Pa at 1.
      replace (_ .| _) with (pack 16 (map (fun x => x .<< Z.of_nat 0) (NEON_UNPACK neon_u8 b))).
      * apply (mull_p8_loop_ok _ _ _ _ _ _ _ _ (wrap_range 8 _ ltac:(lia)) (wrap_range 8 _ ltac:(lia))
        (wrap_range 8 _ ltac:(lia)) (wrap_range 8 _ ltac:(lia)) (wrap_range 8 _ ltac:(lia))
        (wrap_range 8 _ ltac:(lia)) (wrap_range 8 _ ltac:(lia)) (wrap_range 8 _ ltac:(lia)) 8 0).
        reflexivity.
      * clear Pa Pb Ha; unfold NEON_UNPACK, cast; cbn [elt_signed elt_bits elt_n neon_u8 unpack map pack Z.of_nat].
        route.
    + now apply (PACK_range q_u16).
    + rewrite UNPACK_PACK, map_map2 by reflexivity.
      eapply map2_ext_in; [|apply (UNPACK_in neon_u8); reflexivity|apply (UNPACK_in neon_u8); reflexivity].
      intros x y _ Hy; apply cast_id; [reflexivity|]; exact (clmul_range 8 8 x y ltac:(lia) Hy).
Qed.

Lemma neon_polynomial_product_witness :
  exists r, neon_mull_p8 0x01ff8003 0xfe02ff05 = Some r /\ inU 64 r /\
    NEON_UNPACK q_u16 r =
      map2 (clmul 8) (NEON_UNPACK neon_u8 0x01ff8003) (NEON_UNPACK neon_u8 0xfe02ff05).
Proof. apply (neon_polynomial_product 0x01ff8003 0xfe02ff05); unfold inU; lia. Defined.

(** ** The 64-bit polynomial product *)

Lemma pmull_bit a k :
  (k < 64)%nat -> truthy (a .& u64 (1 .<< Z.of_nat k)) = Z.testbit a (Z.of_nat k).
Proof.
  intros Hk; rewrite Z.shiftl_1_l, wrap_id; [apply truthy_land_pow2; lia|].
  unfold inU; pose proof (Z.pow_lt_mono_r 2 (Z.of_nat k) 64); pose proof (pow2_pos (Z.of_nat k)); lia.
Qed.

Lemma pmull_lo_upto a b n :
  (n <= 64)%nat ->
  fold_left (fun res bitnum =>
               if truthy (a .& u64 (1 .<< Z.of_nat bitnum))
               then res .^ u64 (b .<< Z.of_nat bitnum) else res) (seq 0 n) 0 = u64 (clmul n a b).
Proof.
  induction n as [|n IH]; intros Hn; [reflexivity|].
  rewrite seq_S, fold_left_app, IH by lia; cbn [fold_left clmul Nat.add].
  rewrite pmull_bit, wrap_lxor by lia; destruct (Z.testbit a _); [reflexivity|].
  symmetry; apply Z.lxor_0_r.
Qed.

Lemma pmull_hi_upto a b n :
  (n <= 63)%nat -> inU 64 b ->
  fold_left (fun res bitnum =>
               if truthy (a .& u64 (1 .<< Z.of_nat bitnum))
               then res .^ (b .>> (64 - Z.of_nat bitnum)) else res) (seq 1 n) 0 =
    clmul (S n) a b .>> 64.
Proof.
  intros Hn Hb; induction n as [|n IH].
  - cbn [seq fold_left clmul]; rewrite Z.lxor_0_l, Z.shiftl_0_r.
    destruct (Z.testbit a _); [|reflexivity].
    rewrite Z.shiftr_div_pow2 by lia; symmetry; apply Z.div_small; exact Hb.
  - rewrite seq_S, fold_left_app, IH by lia; cbn [fold_left Nat.add].
    change (clmul (S (S n)) a b) with
      (clmul (S n) a b .^ (if Z.testbit a (Z.of_nat (S n)) then b .<< Z.of_nat (S n) else 0)).
    rewrite pmull_bit, Z.shiftr_lxor by lia; destruct (Z.testbit a _).
    + now rewrite Z.shiftr_shiftl_r by lia.
    + now rewrite Z.shiftr_0_l, Z.lxor_0_r.
Qed.

(** PMULL of 64-bit operands: the two helpers return the low and the high half of the
    128-bit carry-less product. *)
Theorem neon_pmull_64_exact a b :
  inU 64 a -> inU 64 b ->
  inU 64 (neon_pmull_64_lo a b) /\ inU 64 (neon_pmull_64_hi a b) /\
  neon_pmull_64_lo a b + neon_pmull_64_hi a b * 2 ^ 64 = clmul 64 a b.
Proof.
  intros Ha Hb; unfold neon_pmull_64_lo, neon_pmull_64_hi.
  rewrite pmull_lo_upto, pmull_hi_upto by (assumption || lia).
  pose proof (clmul_range 64 64 a b ltac:(lia) Hb) as R.
  splits; [auto with crange|apply shiftr_range; [lia|lia|exact R]|].
  rewrite Z.shiftr_div_pow2 by lia; unfold wrap; rewrite Z.add_comm, Z.mul_comm; symmetry.
  apply Z.div_mod; lia.
Qed.

Lemma neon_pmull_64_exact_witness :
  neon_pmull_64_lo (2 ^ 64 - 1) (2 ^ 63 + 5) + neon_pmull_64_hi (2 ^ 64 - 1) (2 ^ 63 + 5) * 2 ^ 64 =
    clmul 64 (2 ^ 64 - 1) (2 ^ 63 + 5).
Proof. apply (neon_pmull_64_exact (2 ^ 64 - 1) (2 ^ 63 + 5)); unfold inU; lia. Defined.

(** ** Bit counts *)

(** The number of bits up to the highest one set. *)
Definition bit_length (x : Z) : Z := if x =? 0 then 0 else Z.log2 x + 1.

Lemma bit_length_half x : 0 < x -> bit_length x = bit_length (x .>> 1) + 1.
Proof.
  intros Hx; unfold bit_length; rewrite (proj2 (Z.eqb_neq x 0)), Z.log2_shiftr by lia.
  pose proof (Z.log2_nonneg x); destruct (Z.eqb_spec (x .>> 1) 0) as [E|N].
  - apply Z.shiftr_eq_0_iff in E; lia.
  - rewrite Z.shiftr_eq_0_iff in N; lia.
Qed.

Lemma clz_loop_ok fuel x n :
  inU (Z.of_nat fuel) x -> clz_loop fuel x n = Some (n - bit_length x).
Proof.
  revert x n; induction fuel as [|fuel IH]; intros x n Hx; cbn [clz_loop]; unfold truthy;
    destruct (Z.eqb_spec x 0) as [->|N]; cbn [negb]; try (f_equal; unfold bit_length; simpl; lia).
  - unfold inU in Hx; simpl in Hx; lia.
  - rewrite IH.
    + rewrite (bit_length_half x) by (unfold inU in Hx; lia); f_equal; lia.
    + apply shiftr_range; [lia|lia|]; now replace (1 + Z.of_nat fuel) with (Z.of_nat (S fuel)) by lia.
Qed.

Lemma bit_length_range w x : 0 <= w -> inU w x -> 0 <= bit_length x <= w.
Proof.
  unfold bit_length; intros Hw Hx; destruct (Z.eqb_spec x 0); [lia|]; unfold inU in Hx.
  pose proof (Z.log2_nonneg x); assert (Z.log2 x < w) by (apply Z.log2_lt_pow2; lia); lia.
Qed.

(** The bits of a signed value that differ from its sign. *)
Definition magnitude (x : Z) : Z := if x <? 0 then Z.lnot x else x.

Lemma magnitude_range w x : 0 < w -> inS w x -> inU (w - 1) (magnitude x).
Proof. unfold magnitude, inS, inU, Z.lnot; intros; destruct (Z.ltb_spec x 0); lia. Qed.

(** Reversing the bits of a byte. *)
Definition reverse8 (x : Z) : Z := pack 1 (rev (unpack (wrap 1) 1 8 x)).

Definition popcount8 (x : Z) : Z := fold_right Z.add 0 (unpack (wrap 1) 1 8 x).

(** One byte of [neon_cnt_u8], checked for every byte. *)
Definition cnt_step (m k x : Z) : Z := (x .& m) + ((x .>> k) .& m).

Lemma cnt_byte x :
  inU 8 x -> cnt_step 0x0f 4 (cnt_step 0x33 2 (cnt_step 0x55 1 x)) = popcount8 x.
Proof.
  intros Hx.
  assert (A : forallb (fun n => let x := Z.of_nat n in
    cnt_step 0x0f 4 (cnt_step 0x33 2 (cnt_step 0x55 1 x)) =? popcount8 x) (seq 0 256) = true)
    by (vm_compute; reflexivity).
  rewrite forallb_forall in A; specialize (A (Z.to_nat x)); cbv zeta in A.
  rewrite in_seq, Z2Nat.id in A by (unfold inU in Hx; lia).
  apply Z.eqb_eq, A; unfold inU in Hx; simpl in Hx; lia.
Qed.

Lemma cnt_step_range m k x : inU 7 m -> inU 8 (cnt_step m k x).
Proof.
  intros; unfold cnt_step; pose proof (land_range 7 m x ltac:(lia) H) as P.
  pose proof (land_range 7 m (x .>> k) ltac:(lia) H) as Q.
  rewrite (Z.land_comm m) in P, Q; cint.
Qed.

Lemma cnt_word m k x0 x1 x2 x3 :
  In (m, k) [(0x55, 1); (0x33, 2); (0x0f, 4)] ->
  inU 8 x0 -> inU 8 x1 -> inU 8 x2 -> inU 8 x3 ->
  let x := pack 8 [x0; x1; x2; x3] in
  let mm := pack 8 [m; m; m; m] in
  u32 ((x .& mm) + ((x .>> k) .& mm)) =
    pack 8 [cnt_step m k x0; cnt_step m k x1; cnt_step m k x2; cnt_step m k x3].
Proof.
  intros Hk X0 X1 X2 X3 x mm.
  assert (Hm : inU 7 m) by (repeat (destruct Hk as [[= <- <-]|Hk]; [unfold inU; lia|]); contradiction).
  assert (E : (x .>> k) .& mm = pack 8 [(x0 .>> k) .& m; (x1 .>> k) .& m; (x2 .>> k) .& m; (x3 .>> k) .& m]).
  { subst x mm; clear Hm; cbn [pack]; repeat (destruct Hk as [[= <- <-]|Hk]; [route|]); contradiction. }
  assert (R : forall y, inU 8 (y .& m)).
  { intros y; rewrite Z.land_comm; apply (inU_le 7); [lia|]; apply land_range; auto; lia. }
  rewrite E; subst x mm; rewrite land_pack by reflexivity || lia; cbn [map2].
  rewrite add_pack; [|lia|reflexivity|repeat constructor; apply R..|]; cbn [map2].
  - apply wrap_id; exact (pack_range 8 [_; _; _; _] ltac:(lia)).
  - repeat constructor; now apply cnt_step_range.
Qed.

Lemma UNPACK8 a :
  NEON_UNPACK neon_u8 a = [u8 a; u8 (a .>> 8); u8 (a .>> 8 .>> 8); u8 (a .>> 8 .>> 8 .>> 8)].
Proof. reflexivity. Qed.

(** The loops finish, and every lane holds [g] of the lane. *)
Definition lanes1_done (vt : vtype) (g : Z -> Z) (h : Z -> option Z) : Prop :=
  forall a, inU (vbits vt) a -> exists r, h a = Some r /\ inU (vbits vt) r /\ NEON_UNPACK vt r = map g (NEON_UNPACK vt a).

Lemma map_opt_some {A B} (f : A -> option B) (g : A -> B) l : (forall x, In x l -> f x = Some (g x)) -> map_opt f l = Some (map g l).
Proof.
  induction l as [|x l IH]; intros E; cbn [map_opt map]; [reflexivity|].
  rewrite E, IH; [reflexivity|intros; apply E; now right|now left].
Qed.

Lemma VOP1_loop_lanes vt f g :
  0 < elt_bits vt -> (forall x, lane_in vt x -> f x = Some (g x) /\ cast vt (g x) = g x) -> lanes1_done vt g (NEON_VOP1_loop vt f).
Proof.
  intros Hb E a Ha; exists (NEON_VOP1 vt g a); split; [|apply VOP1_lanes; auto; intros x Hx; now apply E].
  unfold NEON_VOP1_loop; rewrite (map_opt_some f g); [reflexivity|].
  intros x I; apply E; eapply Forall_forall; [apply UNPACK_in|]; eassumption.
Qed.

(** C36: leading zeros, leading sign bits, set bits and bit reversal are counted exactly
    in every lane; the loops that count leading zeros end, within a round for each bit
    of the lane (running out of rounds is a failure of the model, and the theorem says
    that the result is there). *)
Theorem neon_bit_counts_exact :
  lanes1_done neon_u8 (fun x => 8 - bit_length x) neon_clz_u8 /\
  lanes1_done neon_u16 (fun x => 16 - bit_length x) neon_clz_u16 /\
  lanes1_done neon_s8 (fun x => 7 - bit_length (magnitude x)) neon_cls_s8 /\
  lanes1_done neon_s16 (fun x => 15 - bit_length (magnitude x)) neon_cls_s16 /\
  (forall x, inU 32 x -> neon_cls_s32 x = Some (31 - bit_length (magnitude (s32 x)))) /\
  lanes1 neon_u8 neon_u8 popcount8 neon_cnt_u8 /\
  lanes1 neon_u8 neon_u8 reverse8 neon_rbit_u8.
Proof.
  splits.
  - apply VOP1_loop_lanes; [reflexivity|]; unfold lane_in, cast; cbn [elt_signed elt_bits neon_u8]; intros x Hx.
    unfold do_clz8; rewrite clz_loop_ok, (wrap_id 8 x) by (apply wrap_range || assumption; lia); split; [reflexivity|].
    pose proof (bit_length_range 8 x ltac:(lia) Hx); apply wrap_id; unfold inU; lia.
  - apply VOP1_loop_lanes; [reflexivity|]; unfold lane_in, cast; cbn [elt_signed elt_bits neon_u16]; intros x Hx.
    unfold do_clz16; rewrite clz_loop_ok, (wrap_id 16 x) by (apply wrap_range || assumption; lia); split; [reflexivity|].
    pose proof (bit_length_range 16 x ltac:(lia) Hx); apply wrap_id; unfold inU; lia.
  - apply VOP1_loop_lanes; [reflexivity|]; unfold lane_in, cast; cbn [elt_signed elt_bits neon_s8]; intros x Hx.
    fold (magnitude x); pose proof (magnitude_range 8 x eq_refl Hx) as R; pose proof (bit_length_range 7 (magnitude x) ltac:(lia) R).
    unfold do_clz8; rewrite clz_loop_ok, (wrap_id 8 (magnitude x)) by (apply wrap_range || apply (inU_le 7); lia || exact R).
    split; [f_equal; lia|rewrite swrap_id; unfold inS; lia].
  - apply VOP1_loop_lanes; [reflexivity|]; unfold lane_in, cast; cbn [elt_signed elt_bits neon_s16]; intros x Hx.
    fold (magnitude x); pose proof (magnitude_range 16 x eq_refl Hx) as R; pose proof (bit_length_range 15 (magnitude x) ltac:(lia) R).
    unfold do_clz16; rewrite clz_loop_ok, (wrap_id 16 (magnitude x)) by (apply wrap_range || apply (inU_le 15); lia || exact R).
    split; [f_equal; lia|rewrite swrap_id; unfold inS; lia].
  - intros x Hx; unfold neon_cls_s32.
    pose proof (magnitude_range 32 (s32 x) eq_refl (swrap_range 32 x eq_refl)) as R.
    pose proof (bit_length_range 31 _ ltac:(lia) R).
    replace (if s32 x <? 0 then u32 (Z.lnot x) else x) with (magnitude (s32 x)).
    + rewrite clz_loop_ok by (apply (inU_le 31); lia || exact R).
      f_equal; rewrite wrap_id; unfold inU; lia.
    + unfold magnitude, Z.lnot; cases.
  - intros a Ha; unfold neon_cnt_u8; rewrite <- (PACK_UNPACK neon_u8 a eq_refl Ha).
    rewrite UNPACK_PACK by reflexivity; unfold NEON_PACK; rewrite UNPACK8; cbn [elt_bits neon_u8 map].
    pose proof (fun x => wrap_range 8 x ltac:(lia)) as W.
    change 0x55555555 with (pack 8 [0x55; 0x55; 0x55; 0x55]);
    change 0x33333333 with (pack 8 [0x33; 0x33; 0x33; 0x33]);
    change 0x0f0f0f0f with (pack 8 [0x0f; 0x0f; 0x0f; 0x0f]).
    rewrite !cnt_word, !cnt_byte by (try apply cnt_step_range; try apply W; simpl; tauto || (unfold inU; lia)).
    split; [exact (pack_range 8 [_; _; _; _] ltac:(lia))|].
    etransitivity; [exact (UNPACK_PACK neon_u8 [_; _; _; _] eq_refl eq_refl)|]; cbn [map].
    unfold cast; cbn [elt_signed elt_bits neon_u8]; rewrite !(wrap_wrap 8) by lia.
    assert (C : forall x, inU 8 x -> wrap 8 (popcount8 x) = popcount8 x)
      by (intros x Hx; rewrite <- cnt_byte by assumption; apply wrap_id, cnt_step_range; unfold inU; lia).
    rewrite !C by apply W; reflexivity.
  - intros a Ha; unfold neon_rbit_u8, reverse8, vbits, NEON_UNPACK, cast in *.
    cbn [elt_signed elt_bits elt_n neon_u8 unpack map rev app pack] in *.
    change (8 * Z.of_nat 4) with 32 in *; split; [route|].
    repeat (apply (f_equal2 cons); [route|]); reflexivity.
Qed.
