(* ===== verification/NeonWide.v ===== *)
(** * NEON narrowing, widening and long operations
      (target-arm/neon_helper.c, lines 1300-1962) *)

From Stdlib Require Import ZArith Lia List Bool.
From S2P Require Import Prelude Cpu BitRoute NeonLanes NeonSwar.
Import ListNotations.
Local Open Scope Z_scope.
Local Open Scope c_scope.

(** ** Doubling multiply, high half *)

Definition NEON_QDMULH16 (round : bool) (src1 src2 : Z) : M Z :=
  let tmp := u32 (s16 src1 * s16 src2) in
  tmp <- (if truthy ((tmp .^ u32 (tmp .<< 1)) .& SIGNBIT) then
            SET_QC;;; ret ((tmp .>> 31) .^ u32 (Z.lnot SIGNBIT))
          else ret (u32 (tmp .<< 1)));;
  tmp <- (if round then
            let old := s32 tmp in
            let tmp := u32 (tmp + (1 .<< 15)) in
            if s32 tmp <? old then SET_QC;;; ret (SIGNBIT - 1) else ret tmp
          else ret tmp);;
  ret (tmp .>> 16).

Definition neon_qdmulh_s16 := NEON_VOP_ENV neon_s16 (NEON_QDMULH16 false).
Definition neon_qrdmulh_s16 := NEON_VOP_ENV neon_s16 (NEON_QDMULH16 true).

Definition NEON_QDMULH32 (round : bool) (src1 src2 : Z) : M Z :=
  let tmp := u64 (s32 src1 * s32 src2) in
  tmp <- (if truthy ((tmp .^ u64 (tmp .<< 1)) .& SIGNBIT64) then
            SET_QC;;; ret ((tmp .>> 63) .^ u64 (Z.lnot SIGNBIT64))
          else ret (u64 (tmp .<< 1)));;
  tmp <- (if round then
            let old := s64 tmp in
            let tmp := u64 (tmp + (1 .<< 31)) in
            if s64 tmp <? old then SET_QC;;; ret (SIGNBIT64 - 1) else ret tmp
          else ret tmp);;
  ret (tmp .>> 32).

Definition neon_qdmulh_s32 := NEON_VOP_ENV neon_s32 (NEON_QDMULH32 false).
Definition neon_qrdmulh_s32 := NEON_VOP_ENV neon_s32 (NEON_QDMULH32 true).

(** ** Narrowing *)

Definition neon_narrow_u8 (x : Z) : Z :=
  u32 ((x .& 0xff) .| ((x .>> 8) .& 0xff00) .| ((x .>> 16) .& 0xff0000)
       .| ((x .>> 24) .& 0xff000000)).

Definition neon_narrow_u16 (x : Z) : Z :=
  u32 ((x .& 0xffff) .| ((x .>> 16) .& 0xffff0000)).

Definition neon_narrow_high_u8 (x : Z) : Z :=
  u32 (((x .>> 8) .& 0xff) .| ((x .>> 16) .& 0xff00)
       .| ((x .>> 24) .& 0xff0000) .| ((x .>> 32) .& 0xff000000)).

Definition neon_narrow_high_u16 (x : Z) : Z :=
  u32 (((x .>> 16) .& 0xffff) .| ((x .>> 32) .& 0xffff0000)).

Definition neon_narrow_round_high_u8 (x : Z) : Z :=
  let x := x .& 0xff80ff80ff80ff80 in
  let x := u64 (x + 0x0080008000800080) in
  u32 (((x .>> 8) .& 0xff) .| ((x .>> 16) .& 0xff00)
       .| ((x .>> 24) .& 0xff0000) .| ((x .>> 32) .& 0xff000000)).

Definition neon_narrow_round_high_u16 (x : Z) : Z :=
  let x := x .& 0xffff8000ffff8000 in
  let x := u64 (x + 0x0000800000008000) in
  u32 (((x .>> 16) .& 0xffff) .| ((x .>> 32) .& 0xffff0000)).

(** [SAT8(n)] of [neon_unarrow_sat8]: the lane stays zero when negative. *)
Definition SAT8_unarrow (x n res : Z) : M Z :=
  let s := u16 (x .>> n) in
  if truthy (s .& 0x8000) then SET_QC;;; ret res
  else
    d <- (if s >? 0xff then SET_QC;;; ret 0xff else ret (u8 s));;
    ret (res .| u32 (d .<< (n / 2))).

Definition neon_unarrow_sat8 (env : CPUARMState) (x : Z) : Z * CPUARMState :=
  (res <- SAT8_unarrow x 0 0;; res <- SAT8_unarrow x 16 res;;
   res <- SAT8_unarrow x 32 res;; SAT8_unarrow x 48 res) env.

Definition SAT8_u (x n res : Z) : M Z :=
  let s := u16 (x .>> n) in
  d <- (if s >? 0xff then SET_QC;;; ret 0xff else ret (u8 s));;
  ret (res .| u32 (d .<< (n / 2))).

Definition neon_narrow_sat_u8 (env : CPUARMState) (x : Z) : Z * CPUARMState :=
  (res <- SAT8_u x 0 0;; res <- SAT8_u x 16 res;;
   res <- SAT8_u x 32 res;; SAT8_u x 48 res) env.

Definition SAT8_s (x n res : Z) : M Z :=
  let s := s16 (x .>> n) in
  d <- (if negb (s =? s8 s) then SET_QC;;; ret (u8 ((s .>> 15) .^ 0x7f)) else ret (u8 s));;
  ret (res .| u32 (d .<< (n / 2))).

Definition neon_narrow_sat_s8 (env : CPUARMState) (x : Z) : Z * CPUARMState :=
  (res <- SAT8_s x 0 0;; res <- SAT8_s x 16 res;;
   res <- SAT8_s x 32 res;; SAT8_s x 48 res) env.

Definition neon_unarrow_sat16 (env : CPUARMState) (x : Z) : Z * CPUARMState :=
  let low := u32 x in
  (low <- (if truthy (low .& 0x80000000) then SET_QC;;; ret 0
           else if low >? 0xffff then SET_QC;;; ret 0xffff else ret low);;
   let high := u32 (x .>> 32) in
   high <- (if truthy (high .& 0x80000000) then SET_QC;;; ret 0
            else if high >? 0xffff then SET_QC;;; ret 0xffff else ret high);;
   ret (low .| u32 (high .<< 16))) env.

Definition neon_narrow_sat_u16 (env : CPUARMState) (x : Z) : Z * CPUARMState :=
  let low := u32 x in
  (low <- (if low >? 0xffff then SET_QC;;; ret 0xffff else ret low);;
   let high := u32 (x .>> 32) in
   high <- (if high >? 0xffff then SET_QC;;; ret 0xffff else ret high);;
   ret (low .| u32 (high .<< 16))) env.

Definition neon_narrow_sat_s16 (env : CPUARMState) (x : Z) : Z * CPUARMState :=
  let low := s32 x in
  (low <- (if negb (low =? s16 low) then SET_QC;;; ret ((low .>> 31) .^ 0x7fff) else ret low);;
   let high := s32 (x .>> 32) in
   high <- (if negb (high =? s16 high) then SET_QC;;; ret ((high .>> 31) .^ 0x7fff)
            else ret high);;
   ret (u32 (u16 low .| s32 (high .<< 16)))) env.

Definition neon_unarrow_sat32 (env : CPUARMState) (x : Z) : Z * CPUARMState :=
  (if truthy (x .& 0x8000000000000000) then SET_QC;;; ret 0
   else if x >? 0xffffffff then SET_QC;;; ret 0xffffffff else ret (u32 x)) env.

Definition neon_narrow_sat_u32 (env : CPUARMState) (x : Z) : Z * CPUARMState :=
  (if x >? 0xffffffff then SET_QC;;; ret 0xffffffff else ret (u32 x)) env.

Definition neon_narrow_sat_s32 (env : CPUARMState) (x : Z) : Z * CPUARMState :=
  (if negb (s64 x =? s32 x) then SET_QC;;; ret (u32 ((s64 x .>> 63) .^ 0x7fffffff))
   else ret (u32 x)) env.

(** ** Widening *)

Definition neon_widen_u8 (x : Z) : Z :=
  let ret := u8 x in
  let ret := ret .| (u8 (x .>> 8) .<< 16) in
  let ret := ret .| (u8 (x .>> 16) .<< 32) in
  ret .| (u8 (x .>> 24) .<< 48).

Definition neon_widen_s8 (x : Z) : Z :=
  let ret := u16 (s8 x) in
  let ret := ret .| (u16 (s8 (x .>> 8)) .<< 16) in
  let ret := ret .| (u16 (s8 (x .>> 16)) .<< 32) in
  ret .| (u16 (s8 (x .>> 24)) .<< 48).

Definition neon_widen_u16 (x : Z) : Z :=
  let high := u16 (x .>> 16) in
  u16 x .| u64 (high .<< 32).

Definition neon_widen_s16 (x : Z) : Z :=
  let high := u64 (s16 (x .>> 16)) in
  u32 (s16 x) .| u64 (high .<< 32).

(** ** Long addition, subtraction, negation *)

Definition neon_addl_u16 (a b : Z) : Z :=
  let mask := (a .^ b) .& 0x8000800080008000 in
  let a := a .& u64 (Z.lnot 0x8000800080008000) in
  let b := b .& u64 (Z.lnot 0x8000800080008000) in
  u64 (a + b) .^ mask.

Definition neon_addl_u32 (a b : Z) : Z :=
  let mask := (a .^ b) .& 0x8000000080000000 in
  let a := a .& u64 (Z.lnot 0x8000000080000000) in
  let b := b .& u64 (Z.lnot 0x8000000080000000) in
  u64 (a + b) .^ mask.

Definition neon_paddl_u16 (a b : Z) : Z :=
  let tmp := a .& 0x0000ffff0000ffff in
  let tmp := u64 (tmp + ((a .>> 16) .& 0x0000ffff0000ffff)) in
  let tmp2 := b .& 0xffff0000ffff0000 in
  let tmp2 := u64 (tmp2 + (u64 (b .<< 16) .& 0xffff0000ffff0000)) in
  (tmp .& 0xffff) .| ((tmp .>> 16) .& 0xffff0000)
    .| (u64 (tmp2 .<< 16) .& 0xffff00000000) .| (tmp2 .& 0xffff000000000000).

Definition neon_paddl_u32 (a b : Z) : Z :=
  let low := u32 (a + (a .>> 32)) in
  let high := u32 (b + (b .>> 32)) in
  u64 (low + u64 (high .<< 32)).

Definition neon_subl_u16 (a b : Z) : Z :=
  let mask := (a .^ u64 (Z.lnot b)) .& 0x8000800080008000 in
  let a := a .| 0x8000800080008000 in
  let b := b .& u64 (Z.lnot 0x8000800080008000) in
  u64 (a - b) .^ mask.

Definition neon_subl_u32 (a b : Z) : Z :=
  let mask := (a .^ u64 (Z.lnot b)) .& 0x8000000080000000 in
  let a := a .| 0x8000000080000000 in
  let b := b .& u64 (Z.lnot 0x8000000080000000) in
  u64 (a - b) .^ mask.

Definition neon_addl_saturate_s32 (env : CPUARMState) (a b : Z) : Z * CPUARMState :=
  let x := u32 a in
  let y := u32 b in
  let low := u32 (x + y) in
  (low <- (if truthy ((low .^ x) .& SIGNBIT) && negb (truthy ((x .^ y) .& SIGNBIT)) then
             SET_QC;;; ret (u32 (s32 x .>> 31) .^ u32 (Z.lnot SIGNBIT)) else ret low);;
   let x := u32 (a .>> 32) in
   let y := u32 (b .>> 32) in
   let high := u32 (x + y) in
   high <- (if truthy ((high .^ x) .& SIGNBIT) && negb (truthy ((x .^ y) .& SIGNBIT)) then
              SET_QC;;; ret (u32 (s32 x .>> 31) .^ u32 (Z.lnot SIGNBIT)) else ret high);;
   ret (low .| (high .<< 32))) env.

Definition neon_addl_saturate_s64 (env : CPUARMState) (a b : Z) : Z * CPUARMState :=
  let result := u64 (a + b) in
  (if truthy ((result .^ a) .& SIGNBIT64) && negb (truthy ((a .^ b) .& SIGNBIT64)) then
     SET_QC;;; ret (u64 (s64 a .>> 63) .^ u64 (Z.lnot SIGNBIT64)) else ret result) env.

Definition neon_negl_u16 (x : Z) : Z :=
  let result := u16 (u64 (- x)) in
  let result := result .| (u16 (u64 (- (x .>> 16))) .<< 16) in
  let result := result .| (u16 (u64 (- (x .>> 32))) .<< 32) in
  result .| (u16 (u64 (- (x .>> 48))) .<< 48).

Definition neon_negl_u32 (x : Z) : Z :=
  let low := u32 (u64 (- x)) in
  let high := u32 (u64 (- (x .>> 32))) in
  low .| (high .<< 32).

(** ** Long absolute difference and multiplication *)

(** [DO_ABD(dest, x, y, intype, arithtype)]: [c] converts to [intype], [ar] to
    [arithtype]; [dest] is a [uint64_t]. *)
Definition DO_ABD (c ar : Z -> Z) (x y : Z) : Z :=
  let tmp_x := c x in
  let tmp_y := c y in
  u64 (if tmp_x >? tmp_y then ar (tmp_x - tmp_y) else ar (tmp_y - tmp_x)).

Definition neon_abdl_u16 (a b : Z) : Z :=
  let result := DO_ABD u8 u32 a b in
  let result := result .| u64 (DO_ABD u8 u32 (a .>> 8) (b .>> 8) .<< 16) in
  let result := result .| u64 (DO_ABD u8 u32 (a .>> 16) (b .>> 16) .<< 32) in
  result .| u64 (DO_ABD u8 u32 (a .>> 24) (b .>> 24) .<< 48).

Definition neon_abdl_s16 (a b : Z) : Z :=
  let result := DO_ABD s8 s32 a b in
  let result := result .| u64 (DO_ABD s8 s32 (a .>> 8) (b .>> 8) .<< 16) in
  let result := result .| u64 (DO_ABD s8 s32 (a .>> 16) (b .>> 16) .<< 32) in
  result .| u64 (DO_ABD s8 s32 (a .>> 24) (b .>> 24) .<< 48).

Definition neon_abdl_u32 (a b : Z) : Z :=
  DO_ABD u16 u32 a b .| u64 (DO_ABD u16 u32 (a .>> 16) (b .>> 16) .<< 32).

Definition neon_abdl_s32 (a b : Z) : Z :=
  DO_ABD s16 s32 a b .| u64 (DO_ABD s16 s32 (a .>> 16) (b .>> 16) .<< 32).

Definition neon_abdl_u64 (a b : Z) : Z := DO_ABD u32 u64 a b.
Definition neon_abdl_s64 (a b : Z) : Z := DO_ABD s32 s64 a b.

(** [DO_MULL(dest, x, y, type1, type2)] *)
Definition DO_MULL (type1 type2 : Z -> Z) (x y : Z) : Z :=
  let tmp_x := type1 x in
  let tmp_y := type1 y in
  type2 (type2 tmp_x * type2 tmp_y).

Definition neon_mull_u8 (a b : Z) : Z :=
  let result := DO_MULL u8 u16 a b in
  let result := result .| (DO_MULL u8 u16 (a .>> 8) (b .>> 8) .<< 16) in
  let result := result .| (DO_MULL u8 u16 (a .>> 16) (b .>> 16) .<< 32) in
  result .| (DO_MULL u8 u16 (a .>> 24) (b .>> 24) .<< 48).

Definition neon_mull_s8 (a b : Z) : Z :=
  let result := DO_MULL s8 u16 a b in
  let result := result .| (DO_MULL s8 u16 (a .>> 8) (b .>> 8) .<< 16) in
  let result := result .| (DO_MULL s8 u16 (a .>> 16) (b .>> 16) .<< 32) in
  result .| (DO_MULL s8 u16 (a .>> 24) (b .>> 24) .<< 48).

Definition neon_mull_u16 (a b : Z) : Z :=
  DO_MULL u16 u32 a b .| (DO_MULL u16 u32 (a .>> 16) (b .>> 16) .<< 32).

Definition neon_mull_s16 (a b : Z) : Z :=
  DO_MULL s16 u32 a b .| (DO_MULL s16 u32 (a .>> 16) (b .>> 16) .<< 32).

(** ** Saturating absolute value and negation *)

Definition DO_QABS (bits x : Z) : M Z :=
  if x =? swrap bits (1 .<< (bits - 1)) then SET_QC;;; ret ((1 .<< (bits - 1)) - 1)
  else if x <? 0 then ret (- x) else ret x.

Definition DO_QNEG (bits x : Z) : M Z :=
  if x =? swrap bits (1 .<< (bits - 1)) then SET_QC;;; ret ((1 .<< (bits - 1)) - 1)
  else ret (- x).

(** The vectors are updated lane by lane, [v1] first. *)
Fixpoint map_lanes (f : Z -> M Z) (l : list Z) : M (list Z) :=
  match l with
  | [] => ret []
  | x :: l => d <- f x;; ds <- map_lanes f l;; ret (d :: ds)
  end.

Definition on_lanes (vt : vtype) (f : Z -> M Z) (env : CPUARMState) (x : Z) : Z * CPUARMState :=
  (vec <- map_lanes f (NEON_UNPACK vt x);; ret (NEON_PACK vt vec)) env.

Definition neon_qabs_s8 := on_lanes neon_s8 (DO_QABS 8).
Definition neon_qneg_s8 := on_lanes neon_s8 (DO_QNEG 8).
Definition neon_qabs_s16 := on_lanes neon_s16 (DO_QABS 16).
Definition neon_qneg_s16 := on_lanes neon_s16 (DO_QNEG 16).

Definition neon_qabs_s32 (env : CPUARMState) (x : Z) : Z * CPUARMState :=
  (if x =? SIGNBIT then SET_QC;;; ret (u32 (Z.lnot SIGNBIT))
   else if s32 x <? 0 then ret (u32 (- x)) else ret x) env.

Definition neon_qneg_s32 (env : CPUARMState) (x : Z) : Z * CPUARMState :=
  (if x =? SIGNBIT then SET_QC;;; ret (u32 (Z.lnot SIGNBIT)) else ret (u32 (- x))) env.

Definition neon_qabs_s64 (env : CPUARMState) (x : Z) : Z * CPUARMState :=
  (if x =? SIGNBIT64 then SET_QC;;; ret (u64 (Z.lnot SIGNBIT64))
   else if s64 x <? 0 then ret (u64 (- x)) else ret x) env.

Definition neon_qneg_s64 (env : CPUARMState) (x : Z) : Z * CPUARMState :=
  (if x =? SIGNBIT64 then SET_QC;;; ret (u64 (Z.lnot SIGNBIT64)) else ret (u64 (- x))) env.

(** ** Doubling multiplies *)

Lemma run_bind_if {A} (c : bool) (x y : Z) (k : Z -> M A) env :
  (v <- (if c then SET_QC;;; ret x else ret y);; k v) env =
    k (if c then x else y) (qc_if c env).
Proof. destruct c; reflexivity. Qed.

Lemma mul_bounds h x y :
  - h <= x < h -> - h <= y < h -> - (h * h) + h <= x * y <= h * h.
Proof.
  intros; destruct (Z.le_gt_cases 0 x), (Z.le_gt_cases 0 y); split; nia.
Qed.

Lemma QDMULH16_ok (rnd : bool) x y env :
  inS 16 x -> inS 16 y ->
  let e := (2 * (x * y) + (if rnd then 2 ^ 15 else 0)) / 2 ^ 16 in
  s16 (fst (NEON_QDMULH16 rnd x y env)) = ssat 16 e /\
  snd (NEON_QDMULH16 rnd x y env) = qc_if (negb (ssat 16 e =? e)) env.
Proof.
  intros Hx Hy e; unfold NEON_QDMULH16; rewrite (swrap_id 16 x), (swrap_id 16 y) by (assumption || lia).
  cbv zeta.
  assert (P : - 2 ^ 30 + 2 ^ 15 <= x * y <= 2 ^ 30) by exact (mul_bounds (2 ^ 15) x y Hx Hy).
  subst e; generalize dependent (x * y); clear x y Hx Hy; intros p P.
  assert (T : u32 (u32 p .<< 1) = u32 (2 * p))
    by (rewrite Z.shiftl_mul_pow2, Z.mul_comm by lia; apply wrap_mul_r; lia).
  assert (C : truthy ((u32 p .^ u32 (2 * p)) .& SIGNBIT) = (p =? 2 ^ 30)).
  { change SIGNBIT with (2 ^ (32 - 1)); rewrite truthy_sign_xor by auto with crange.
    change (32 - 1) with 31; cases. }
  rewrite T, !run_bind_if, !C; destruct (Z.eqb_spec p (2 ^ 30)) as [->|N].
  - destruct rnd; (split; [reflexivity|]); [|reflexivity].
    rewrite !run_bind_if, qc_if_qc_if; reflexivity.
  - change (qc_if false env) with env; destruct rnd.
    + rewrite !run_bind_if; cbn [fst snd ret]; rewrite Z.shiftr_div_pow2 by lia.
      change (SIGNBIT - 1) with (2 ^ 31 - 1); split; [|f_equal]; cases.
    + cbn [fst snd ret bind]; rewrite Z.shiftr_div_pow2 by lia.
      split; [|change env with (qc_if false env) at 1; f_equal]; cases.
Qed.

Lemma QDMULH32_ok (rnd : bool) x y env :
  inS 32 x -> inS 32 y ->
  let e := (2 * (x * y) + (if rnd then 2 ^ 31 else 0)) / 2 ^ 32 in
  s32 (fst (NEON_QDMULH32 rnd x y env)) = ssat 32 e /\
  snd (NEON_QDMULH32 rnd x y env) = qc_if (negb (ssat 32 e =? e)) env.
Proof.
  intros Hx Hy e; unfold NEON_QDMULH32; rewrite (swrap_id 32 x), (swrap_id 32 y) by (assumption || lia).
  cbv zeta.
  assert (P : - 2 ^ 62 + 2 ^ 31 <= x * y <= 2 ^ 62) by exact (mul_bounds (2 ^ 31) x y Hx Hy).
  subst e; generalize dependent (x * y); clear x y Hx Hy; intros p P.
  assert (T : u64 (u64 p .<< 1) = u64 (2 * p))
    by (rewrite Z.shiftl_mul_pow2, Z.mul_comm by lia; apply wrap_mul_r; lia).
  assert (C : truthy ((u64 p .^ u64 (2 * p)) .& SIGNBIT64) = (p =? 2 ^ 62)).
  { change SIGNBIT64 with (2 ^ (64 - 1)); rewrite truthy_sign_xor by auto with crange.
    change (64 - 1) with 63; cases. }
  rewrite T, !run_bind_if, !C; destruct (Z.eqb_spec p (2 ^ 62)) as [->|N].
  - destruct rnd; (split; [reflexivity|]); [|reflexivity].
    rewrite !run_bind_if, qc_if_qc_if; reflexivity.
  - change (qc_if false env) with env; destruct rnd.
    + rewrite !run_bind_if; cbn [fst snd ret]; rewrite Z.shiftr_div_pow2 by lia.
      change (SIGNBIT64 - 1) with (2 ^ 63 - 1); split; [|f_equal]; cases.
    + cbn [fst snd ret bind]; rewrite Z.shiftr_div_pow2 by lia.
      split; [|change env with (qc_if false env) at 1; f_equal]; cases.
Qed.

(** C32: the doubling multiplications returning the high half (VQDMULH, VQRDMULH) return
    in every lane twice the product shifted down, rounded for VQRDMULH, clamped, with
    the saturation flag set exactly when a lane was clamped. *)
Theorem neon_qdmulh_saturates :
  saturates2 neon_s16 neon_s16 neon_s16 (fun x y => (2 * (x * y)) / 2 ^ 16) neon_qdmulh_s16 /\
  saturates2 neon_s16 neon_s16 neon_s16 (fun x y => (2 * (x * y) + 2 ^ 15) / 2 ^ 16)
    neon_qrdmulh_s16 /\
  saturates2 neon_s32 neon_s32 neon_s32 (fun x y => (2 * (x * y)) / 2 ^ 32) neon_qdmulh_s32 /\
  saturates2 neon_s32 neon_s32 neon_s32 (fun x y => (2 * (x * y) + 2 ^ 31) / 2 ^ 32)
    neon_qrdmulh_s32.
Proof.
  splits; lanes.
  - rewrite <- (Z.add_0_r (2 * (x * y))); exact (QDMULH16_ok false x y env Hx Hy).
  - exact (QDMULH16_ok true x y env Hx Hy).
  - rewrite <- (Z.add_0_r (2 * (x * y))); exact (QDMULH32_ok false x y env Hx Hy).
  - exact (QDMULH32_ok true x y env Hx Hy).
Qed.

(** ** Narrowing and widening *)

(** Expose the lanes as shifted and converted words. *)
Ltac expose :=
  cbv [vbits elt_bits elt_n elt_signed neon_s8 neon_u8 neon_s16 neon_u16 neon_s32 neon_u32
       neon_s64 neon_u64 q_u16 q_s16 q_u32 q_s32 Z.of_nat Pos.of_succ_nat Pos.succ] in *;
  repeat match goal with
  | H : context [?a * ?b] |- _ => fold_closed (a * b)
  | |- context [?a * ?b] => fold_closed (a * b)
  end;
  cbv [NEON_UNPACK unpack cast map elt_bits elt_n elt_signed] in *.

(** A helper that only moves bits. *)
Ltac routed :=
  let a := fresh "a" in let Ha := fresh "Ha" in
  intros a Ha; expose; split; [route | repeat (apply (f_equal2 cons); [route|]); reflexivity].

Lemma neon_narrow_exact :
  lanes1 q_u16 neon_u8 u8 neon_narrow_u8 /\
  lanes1 q_u32 neon_u16 u16 neon_narrow_u16 /\
  lanes1 q_u16 neon_u8 (fun x => x .>> 8) neon_narrow_high_u8 /\
  lanes1 q_u32 neon_u16 (fun x => x .>> 16) neon_narrow_high_u16 /\
  lanes1 neon_u8 q_u16 (fun x => x) neon_widen_u8 /\
  lanes1 neon_s8 q_s16 (fun x => x) neon_widen_s8 /\
  lanes1 neon_u16 q_u32 (fun x => x) neon_widen_u16 /\
  lanes1 neon_s16 q_s32 (fun x => x) neon_widen_s16.
Proof.
  cbv [neon_narrow_u8 neon_narrow_u16 neon_narrow_high_u8 neon_narrow_high_u16
       neon_widen_u8 neon_widen_s8 neon_widen_u16 neon_widen_s16].
  splits; routed.
Qed.

(** The field of [m] bits below a lane's end. *)
Lemma lane_high a k m l :
  0 <= k -> 0 <= m <= l -> wrap (l - m) (a .>> (k + m)) = wrap l (a .>> k) / 2 ^ m.
Proof.
  intros; rewrite <- Z.shiftr_div_pow2 by lia; apply Z.bits_inj'; intros i Hi.
  rewrite testbit_wrap, !Z.shiftr_spec, testbit_wrap, Z.shiftr_spec by lia.
  replace (i + m + k) with (i + (k + m)) by lia.
  destruct (Z.ltb_spec i (l - m)), (Z.ltb_spec (i + m) l); lia || reflexivity.
Qed.

(** A word of which only the top bits of each lane are kept, as a sum. *)
Lemma high_bits4 a :
  inU 64 a ->
  a .& 0xff80ff80ff80ff80 =
    u16 a / 2 ^ 7 * 2 ^ 7 + u16 (a .>> 16) / 2 ^ 7 * 2 ^ 23 + u16 (a .>> 32) / 2 ^ 7 * 2 ^ 39
    + u16 (a .>> 48) / 2 ^ 7 * 2 ^ 55.
Proof.
  intros Ha; rewrite <- (Z.shiftr_0_r a) at 2.
  rewrite <- (lane_high a 0), <- (lane_high a 16), <- (lane_high a 32), <- (lane_high a 48) by lia.
  transitivity ((((wrap 9 (a .>> 7) .<< 7) .| (wrap 9 (a .>> 23) .<< 23)) .| (wrap 9 (a .>> 39) .<< 39))
                .| (wrap 9 (a .>> 55) .<< 55)); [route|].
  rewrite (lor_shiftl_add 55), (lor_shiftl_add 39), (lor_shiftl_add 23), Z.shiftl_mul_pow2
    by (lia || route); reflexivity.
Qed.

Lemma high_bits2 a :
  inU 64 a ->
  a .& 0xffff8000ffff8000 = u32 a / 2 ^ 15 * 2 ^ 15 + u32 (a .>> 32) / 2 ^ 15 * 2 ^ 47.
Proof.
  intros Ha; rewrite <- (Z.shiftr_0_r a) at 2; rewrite <- (lane_high a 0), <- (lane_high a 32) by lia.
  transitivity ((wrap 17 (a .>> 15) .<< 15) .| (wrap 17 (a .>> 47) .<< 47)); [route|].
  rewrite (lor_shiftl_add 47), Z.shiftl_mul_pow2 by (lia || route); reflexivity.
Qed.

Lemma neon_narrow_round_exact :
  lanes1 q_u16 neon_u8 (fun x => u8 ((x + 2 ^ 7) / 2 ^ 8)) neon_narrow_round_high_u8 /\
  lanes1 q_u32 neon_u16 (fun x => u16 ((x + 2 ^ 15) / 2 ^ 16)) neon_narrow_round_high_u16.
Proof.
  split; intros a Ha; expose; (split; [apply wrap_range; lia|]); rewrite ?Z.shiftr_shiftr by lia;
    cbn [Z.add Pos.add Pos.succ Pos.add_carry].
  - unfold neon_narrow_round_high_u8; rewrite high_bits4 by assumption.
    pose proof (wrap_range 16 a ltac:(lia)); pose proof (wrap_range 16 (a .>> 16) ltac:(lia));
      pose proof (wrap_range 16 (a .>> 32) ltac:(lia)); pose proof (wrap_range 16 (a .>> 48) ltac:(lia)).
    generalize dependent (u16 a); generalize dependent (u16 (a .>> 16));
      generalize dependent (u16 (a .>> 32)); generalize dependent (u16 (a .>> 48)); clear a Ha.
    intros l3 H3 l2 H2 l1 H1 l0 H0.
    set (X := u64 _); assert (HX : inU 64 X) by (apply wrap_range; lia).
    repeat apply (f_equal2 cons); try reflexivity.
    + transitivity (u8 (X .>> 8)); [clearbody X; route|].
      rewrite Z.shiftr_div_pow2 by lia; subst X; cint.
    + transitivity (u8 (X .>> 24)); [clearbody X; route|].
      rewrite Z.shiftr_div_pow2 by lia; subst X; cint.
    + transitivity (u8 (X .>> 40)); [clearbody X; route|].
      rewrite Z.shiftr_div_pow2 by lia; subst X; cint.
    + transitivity (u8 (X .>> 56)); [clearbody X; route|].
      rewrite Z.shiftr_div_pow2 by lia; subst X; cint.
  - unfold neon_narrow_round_high_u16; rewrite high_bits2 by assumption.
    pose proof (wrap_range 32 a ltac:(lia)); pose proof (wrap_range 32 (a .>> 32) ltac:(lia)).
    generalize dependent (u32 a); generalize dependent (u32 (a .>> 32)); clear a Ha.
    intros l1 H1 l0 H0.
    set (X := u64 _); assert (HX : inU 64 X) by (apply wrap_range; lia).
    repeat apply (f_equal2 cons); try reflexivity.
    + transitivity (u16 (X .>> 16)); [clearbody X; route|].
      rewrite Z.shiftr_div_pow2 by lia; subst X; cint.
    + transitivity (u16 (X .>> 48)); [clearbody X; route|].
      rewrite Z.shiftr_div_pow2 by lia; subst X; cint.
Qed.

(** ** Saturating narrowing *)

Lemma SAT_step (c : bool) x y (k : Z -> Z) env :
  (d <- (if c then SET_QC;;; ret x else ret y);; ret (k d)) env =
    (k (if c then x else y), qc_if c env).
Proof. destruct c; reflexivity. Qed.

Lemma wrap_swrap_sign x : inS 16 x -> truthy (u16 x .& 0x8000) = (x <? 0).
Proof.
  intros; change 0x8000 with (2 ^ (16 - 1)); rewrite truthy_sign by auto with crange.
  change (16 - 1) with 15; cases.
Qed.

Lemma SAT8_unarrow_run x n res env :
  let v := s16 (x .>> n) in
  SAT8_unarrow x n res env =
    (res .| u32 (usat 8 v .<< (n / 2)), qc_if (negb (usat 8 v =? v)) env).
Proof.
  intros v; unfold SAT8_unarrow.
  rewrite <- (wrap_swrap 16 (x .>> n)) by lia; fold v.
  assert (Hv : inS 16 v) by (apply swrap_range; lia); clearbody v.
  rewrite wrap_swrap_sign by assumption; destruct (Z.ltb_spec v 0).
  - replace (usat 8 v) with 0 by (unfold usat; lia); rewrite Z.shiftl_0_l, Z.lor_0_r.
    destruct (Z.eqb_spec 0 v); [lia|reflexivity].
  - rewrite SAT_step; f_equal; [do 3 f_equal|f_equal]; cases.
Qed.

Lemma SAT8_u_run x n res env :
  let v := u16 (x .>> n) in
  SAT8_u x n res env = (res .| u32 (usat 8 v .<< (n / 2)), qc_if (negb (usat 8 v =? v)) env).
Proof.
  intros v; unfold SAT8_u; fold v.
  assert (Hv : inU 16 v) by (apply wrap_range; lia); clearbody v.
  rewrite SAT_step; f_equal; [do 3 f_equal|f_equal]; cases.
Qed.

Lemma SAT8_s_run x n res env :
  let v := s16 (x .>> n) in
  SAT8_s x n res env =
    (res .| u32 (u8 (ssat 8 v) .<< (n / 2)), qc_if (negb (ssat 8 v =? v)) env).
Proof.
  intros v; unfold SAT8_s; fold v.
  assert (Hv : inS 16 v) by (apply swrap_range; lia).
  replace (v .>> 15) with (if v <? 0 then -1 else 0)
    by (rewrite Z.shiftr_div_pow2 by lia; cases).
  clearbody v; rewrite SAT_step; f_equal; [do 3 f_equal|f_equal]; cases.
Qed.

(** The sign of a signed value. *)
Lemma shiftr_signS w x : 0 < w -> inS w x -> x .>> (w - 1) = if x <? 0 then -1 else 0.
Proof.
  intros Hw Hx; unfold inS in Hx; rewrite Z.shiftr_div_pow2 by lia.
  destruct (Z.ltb_spec x 0); symmetry; [apply Z.div_unique with (x + 2 ^ (w - 1)); lia|].
  apply Z.div_unique with x; lia.
Qed.

(** A saturating word built from its lanes. *)
Lemma packed_sat1 va vd f h :
  0 < elt_bits vd -> elt_n va = elt_n vd ->
  (forall env a, inU (vbits va) a -> h env a =
     (NEON_PACK vd (map (fun x => sat vd (f x)) (NEON_UNPACK va a)),
      qc_if (existsb (fun x => negb (sat vd (f x) =? f x)) (NEON_UNPACK va a)) env)) ->
  saturates1 va vd f h.
Proof.
  intros Hb Hn E env a Ha; rewrite (E env a Ha); cbn [fst snd].
  assert (L : length (map (fun x => sat vd (f x)) (NEON_UNPACK va a)) = elt_n vd)
    by now rewrite length_map, length_UNPACK.
  split; [reflexivity|]; split; [now apply PACK_range|].
  rewrite UNPACK_PACK, map_map by assumption; apply map_ext; intros; now apply cast_id, sat_in.
Qed.

Lemma pack8_4 a b c d :
  inU 8 a -> inU 8 b -> inU 8 c -> inU 8 d ->
  0 .| u32 (a .<< (0 / 2)) .| u32 (b .<< (16 / 2)) .| u32 (c .<< (32 / 2)) .| u32 (d .<< (48 / 2)) =
    pack 8 [a; b; c; d].
Proof. intros; cbn [pack Z.div]; route. Qed.

Lemma pack_mod bits l : 0 <= bits -> pack bits (map (wrap bits) l) = pack bits l.
Proof. intros; induction l; cbn [map pack]; [reflexivity|]; now rewrite wrap_wrap, IHl. Qed.

Lemma pack16_2 a b : inU 16 a -> inU 16 b -> a .| u32 (b .<< 16) = pack 16 [a; b].
Proof. intros; cbn [pack]; route. Qed.

(** Read the lanes of the source, then the code step by step. *)
Ltac sat_narrow :=
  apply packed_sat1; try reflexivity; intros env a Ha;
  unfold sat; expose; rewrite ?Z.shiftr_shiftr by lia; cbn [Z.add Pos.add Pos.succ Pos.add_carry];
  unfold NEON_PACK; cbn [elt_bits].

Lemma run_bind_sat2 {A} (c d : bool) (x y z : Z) (k : Z -> M A) env :
  (v <- (if c then SET_QC;;; ret x else if d then SET_QC;;; ret y else ret z);; k v) env =
    k (if c then x else if d then y else z) (qc_if (c || d) env).
Proof. destruct c, d; reflexivity. Qed.

(** C31: the saturating narrowing moves (VQMOVN, VQMOVUN) clamp every element to the
    range of the narrower lane and set the saturation flag exactly when an element did
    not fit. *)
Theorem neon_narrow_saturates :
  saturates1 q_s16 neon_u8 (fun x => x) neon_unarrow_sat8 /\
  saturates1 q_u16 neon_u8 (fun x => x) neon_narrow_sat_u8 /\
  saturates1 q_s16 neon_s8 (fun x => x) neon_narrow_sat_s8 /\
  saturates1 q_s32 neon_u16 (fun x => x) neon_unarrow_sat16 /\
  saturates1 q_u32 neon_u16 (fun x => x) neon_narrow_sat_u16 /\
  saturates1 q_s32 neon_s16 (fun x => x) neon_narrow_sat_s16 /\
  saturates1 neon_s64 neon_u32 (fun x => x) neon_unarrow_sat32 /\
  saturates1 neon_u64 neon_u32 (fun x => x) neon_narrow_sat_u32 /\
  saturates1 neon_s64 neon_s32 (fun x => x) neon_narrow_sat_s32.
Proof.
  splits; sat_narrow.
  - unfold neon_unarrow_sat8, bind; rewrite !SAT8_unarrow_run, !qc_if_qc_if.
    rewrite Z.shiftr_0_r, pack8_4 by (apply usat_range; lia).
    cbn [existsb]; now rewrite orb_false_r, !orb_assoc.
  - unfold neon_narrow_sat_u8, bind; rewrite !SAT8_u_run, !qc_if_qc_if.
    rewrite Z.shiftr_0_r, pack8_4 by (apply usat_range; lia).
    cbn [existsb]; now rewrite orb_false_r, !orb_assoc.
  - unfold neon_narrow_sat_s8, bind; rewrite !SAT8_s_run, !qc_if_qc_if.
    rewrite Z.shiftr_0_r, pack8_4 by (apply wrap_range; lia).
    cbn [existsb]; rewrite orb_false_r, !orb_assoc; f_equal.
    now apply (pack_mod 8 [_; _; _; _]).
  - unfold neon_unarrow_sat16; change 0x80000000 with (2 ^ (32 - 1)).
    rewrite !truthy_sign by auto with crange; rewrite !run_bind_sat2, qc_if_qc_if.
    change (32 - 1) with 31; unfold ret; cbn [existsb]; rewrite orb_false_r.
    rewrite <- (pack16_2 (usat 16 (s32 a)) (usat 16 (s32 (a .>> 32)))) by (apply usat_range; lia).
    rewrite <- (wrap_swrap 32 a), <- (wrap_swrap 32 (a .>> 32)) by lia.
    generalize (swrap_range 32 a eq_refl) (swrap_range 32 (a .>> 32) eq_refl).
    generalize (s32 a) (s32 (a .>> 32)); intros x y Hx Hy.
    f_equal; [f_equal; [|do 2 f_equal]|do 2 f_equal]; cases.
  - unfold neon_narrow_sat_u16; rewrite !run_bind_if, qc_if_qc_if.
    unfold ret; cbn [existsb]; rewrite orb_false_r.
    rewrite <- (pack16_2 (usat 16 (u32 a)) (usat 16 (u32 (a .>> 32)))) by (apply usat_range; lia).
    generalize (wrap_range 32 a ltac:(lia)) (wrap_range 32 (a .>> 32) ltac:(lia)).
    generalize (u32 a) (u32 (a .>> 32)); intros x y Hx Hy.
    f_equal; [f_equal; [|do 2 f_equal]|do 2 f_equal]; cases.
  - unfold neon_narrow_sat_s16; rewrite !run_bind_if, qc_if_qc_if.
    unfold ret; cbn [existsb]; rewrite orb_false_r.
    rewrite <- pack_mod by lia; cbn [map].
    rewrite <- pack16_2 by (apply wrap_range; lia).
    generalize (swrap_range 32 a eq_refl) (swrap_range 32 (a .>> 32) eq_refl).
    generalize (s32 a) (s32 (a .>> 32)); intros x y Hx Hy.
    change 31 with (32 - 1); rewrite wrap_lor, !Z.shiftl_mul_pow2, (shiftr_signS 32 x), (shiftr_signS 32 y), wrap_swrap
      by (assumption || lia).
    f_equal; [f_equal|do 2 f_equal]; cases.
  - unfold neon_unarrow_sat32; change 0x8000000000000000 with (2 ^ (64 - 1)).
    rewrite truthy_sign by (assumption || lia); rewrite run_sat2; change (64 - 1) with 63.
    cbn [existsb]; cbn [pack].
    rewrite Z.shiftl_0_l, Z.lor_0_r; f_equal; [|f_equal]; cases.
  - unfold neon_narrow_sat_u32; rewrite run_sat1.
    cbn [existsb]; cbn [pack].
    rewrite Z.shiftl_0_l, Z.lor_0_r; f_equal; [|f_equal]; cases.
  - unfold neon_narrow_sat_s32; rewrite run_sat1, (shiftr_sign 64) by (assumption || lia).
    cbn [existsb]; cbn [pack].
    rewrite Z.shiftl_0_l, Z.lor_0_r; change (64 - 1) with 63; f_equal; [|f_equal]; cases.
Qed.

(** ** Long operations *)

Lemma fields16 a b c d :
  inU 16 a -> inU 16 b -> inU 16 c -> inU 16 d ->
  a .| (b .<< 16) .| (c .<< 32) .| (d .<< 48) = pack 16 [a; b; c; d] /\
  a .| u64 (b .<< 16) .| u64 (c .<< 32) .| u64 (d .<< 48) = pack 16 [a; b; c; d].
Proof. intros; cbn [pack]; split; route. Qed.

Lemma fields32 a b :
  inU 32 a -> inU 32 b ->
  a .| (b .<< 32) = pack 32 [a; b] /\ a .| u64 (b .<< 32) = pack 32 [a; b].
Proof. intros; cbn [pack]; split; route. Qed.

(** A helper that returns the packed images of the lanes. *)
Lemma packed1 va vd g h :
  0 < elt_bits vd -> elt_n va = elt_n vd ->
  (forall a, inU (vbits va) a -> h a = NEON_PACK vd (map g (NEON_UNPACK va a))) ->
  lanes1 va vd (fun x => cast vd (g x)) h.
Proof.
  intros Hb Hn E a Ha; rewrite (E a Ha).
  assert (length (map g (NEON_UNPACK va a)) = elt_n vd) by now rewrite length_map, length_UNPACK.
  split; [now apply PACK_range|]; now rewrite UNPACK_PACK, map_map by assumption.
Qed.

Lemma packed2 va vb vd g h :
  0 < elt_bits va -> 0 < elt_bits vb -> 0 < elt_bits vd -> elt_n va = elt_n vd -> elt_n vb = elt_n vd ->
  (forall x y, lane_in va x -> lane_in vb y -> lane_in vd (g x y)) ->
  (forall a b, inU (vbits va) a -> inU (vbits vb) b ->
     h a b = NEON_PACK vd (map2 g (NEON_UNPACK va a) (NEON_UNPACK vb b))) ->
  lanes2 va vb vd g h.
Proof.
  intros Ba Bb Bd Na Nb G E a b Ha Hb; rewrite (E a b Ha Hb).
  assert (length (map2 g (NEON_UNPACK va a) (NEON_UNPACK vb b)) = elt_n vd)
    by (rewrite length_map2, !length_UNPACK; lia).
  split; [now apply PACK_range|]; rewrite UNPACK_PACK, map_map2 by assumption.
  eapply map2_ext_in; [|apply UNPACK_in; exact Ba|apply UNPACK_in; exact Bb].
  intros; now apply cast_id, G.
Qed.

Lemma wrap_opp w x : 0 <= w -> wrap w (- wrap w x) = wrap w (- x).
Proof. intros; exact (wrap_sub_r w 0 x H). Qed.

Lemma neg_lane w x : 0 <= w <= 64 -> wrap w (u64 (- x)) = wrap w (- wrap w x).
Proof. intros; rewrite wrap_wrap_le, wrap_opp; lia || reflexivity. Qed.

Ltac expose_shifts :=
  expose; rewrite ?Z.shiftr_shiftr by lia; cbn [Z.add Pos.add Pos.succ Pos.add_carry];
  unfold NEON_PACK; cbn [elt_bits].

Lemma neon_long_modular_exact :
  let m f vt := lanes2 vt vt vt (fun x y => wrap (elt_bits vt) (f x y)) in
  m Z.add q_u16 neon_addl_u16 /\ m Z.add q_u32 neon_addl_u32 /\
  m Z.sub q_u16 neon_subl_u16 /\ m Z.sub q_u32 neon_subl_u32 /\
  lanes1 q_u16 q_u16 (fun x => u16 (- x)) neon_negl_u16 /\
  lanes1 q_u32 q_u32 (fun x => u32 (- x)) neon_negl_u32.
Proof.
  intros m; subst m; splits.
  - apply packed_lanes; [reflexivity|]; intros a b; exact (swar_add 16 ltac:(lia) 4 a b).
  - apply packed_lanes; [reflexivity|]; intros a b; exact (swar_add 32 ltac:(lia) 2 a b).
  - apply packed_lanes; [reflexivity|]; intros a b; exact (swar_sub 16 ltac:(lia) 4 a b).
  - apply packed_lanes; [reflexivity|]; intros a b; exact (swar_sub 32 ltac:(lia) 2 a b).
  - apply (packed1 q_u16 q_u16 Z.opp); try reflexivity; intros a Ha; expose_shifts.
    unfold neon_negl_u16; rewrite (proj1 (fields16 _ _ _ _ (wrap_range 16 _ ltac:(lia))
      (wrap_range 16 _ ltac:(lia)) (wrap_range 16 _ ltac:(lia)) (wrap_range 16 _ ltac:(lia)))).
    rewrite !neg_lane by lia; now apply (pack_mod 16 [_; _; _; _]).
  - apply (packed1 q_u32 q_u32 Z.opp); try reflexivity; intros a Ha; expose_shifts.
    unfold neon_negl_u32; rewrite (proj1 (fields32 _ _ (wrap_range 32 _ ltac:(lia))
      (wrap_range 32 _ ltac:(lia)))).
    rewrite !neg_lane by lia; now apply (pack_mod 32 [_; _]).
Qed.


(** Pairwise sums: the masked words are sums of lanes at even positions. *)
Lemma even_lanes v :
  inU 64 v -> v .& 0x0000ffff0000ffff = u16 v + u16 (v .>> 32) * 2 ^ 32.
Proof.
  intros; rewrite <- lor_shiftl_add by (lia || route); route.
Qed.

Lemma odd_lanes v :
  inU 64 v -> v .& 0xffff0000ffff0000 = u16 (v .>> 16) * 2 ^ 16 + u16 (v .>> 48) * 2 ^ 48.
Proof.
  intros; rewrite <- Z.shiftl_mul_pow2, <- lor_shiftl_add by (lia || route); route.
Qed.

Lemma shiftr_inU64 v k : 0 <= k -> inU 64 v -> inU 64 (v .>> k).
Proof.
  unfold inU; intros Hk H; rewrite Z.shiftr_div_pow2 by lia; pose proof (pow2_pos k Hk).
  split; [apply Z.div_pos; lia|]; apply Z.div_lt_upper_bound; nia.
Qed.

Lemma paddl_lanes l0 l1 l2 l3 m0 m1 m2 m3 :
  inU 16 l0 -> inU 16 l1 -> inU 16 l2 -> inU 16 l3 ->
  inU 16 m0 -> inU 16 m1 -> inU 16 m2 -> inU 16 m3 ->
  let tmp := u64 (l0 + l2 * 2 ^ 32 + (l1 + l3 * 2 ^ 32)) in
  let tmp2 := u64 (m1 * 2 ^ 16 + m3 * 2 ^ 48 + (m0 * 2 ^ 16 + m2 * 2 ^ 48)) in
  let r := (tmp .& 0xffff) .| ((tmp .>> 16) .& 0xffff0000)
           .| (u64 (tmp2 .<< 16) .& 0xffff00000000) .| (tmp2 .& 0xffff000000000000) in
  inU 64 r /\ u16 r = u16 (l0 + l1) /\ u16 (r .>> 16) = u16 (l2 + l3) /\
  u16 (r .>> 32) = u16 (m0 + m1) /\ u16 (r .>> 48) = u16 (m2 + m3).
Proof.
  intros L0 L1 L2 L3 M0 M1 M2 M3 tmp tmp2 r.
  assert (T : inU 64 tmp) by (apply wrap_range; lia).
  assert (T2 : inU 64 tmp2) by (apply wrap_range; lia).
  assert (R : inU 64 r /\ u16 r = u16 tmp /\ u16 (r .>> 16) = u16 (tmp .>> 32) /\
              u16 (r .>> 32) = u16 (tmp2 .>> 16) /\ u16 (r .>> 48) = u16 (tmp2 .>> 48))
    by (subst r; clearbody tmp tmp2; splits; route).
  destruct R as (R0 & R1 & R2 & R3 & R4); rewrite R1, R2, R3, R4, !Z.shiftr_div_pow2 by lia.
  split; [assumption|]; clear - L0 L1 L2 L3 M0 M1 M2 M3; subst tmp tmp2; splits; cint.
Qed.

Lemma neon_pairwise_long_exact :
  pairs q_u16 (fun x y => u16 (x + y)) neon_paddl_u16 /\
  pairs q_u32 (fun x y => u32 (x + y)) neon_paddl_u32.
Proof.
  split; intros a b Ha Hb; expose.
  - rewrite !Z.shiftr_shiftr by lia; cbn [Z.add Pos.add Pos.succ Pos.add_carry].
    unfold neon_paddl_u16; rewrite even_lanes, odd_lanes by assumption.
    rewrite (even_lanes (a .>> 16)) by (apply shiftr_inU64; lia || assumption).
    rewrite (odd_lanes (u64 (b .<< 16))) by (apply wrap_range; lia).
    rewrite !Z.shiftr_shiftr by lia; cbn [Z.add Pos.add Pos.succ Pos.add_carry].
    replace (u16 (u64 (b .<< 16) .>> 16)) with (u16 b) by route.
    replace (u16 (u64 (b .<< 16) .>> 48)) with (u16 (b .>> 32)) by route.
    destruct (paddl_lanes (u16 a) (u16 (a .>> 16)) (u16 (a .>> 32)) (u16 (a .>> 48))
                (u16 b) (u16 (b .>> 16)) (u16 (b .>> 32)) (u16 (b .>> 48)))
      as (R & E0 & E1 & E2 & E3); try (apply wrap_range; lia).
    split; [exact R|]; rewrite E0, E1, E2, E3; reflexivity.
  - unfold neon_paddl_u32.
    rewrite <- (wrap_add 32 a), <- (wrap_add 32 b) by lia.
    set (x := u32 (u32 a + _)); set (y := u32 (u32 b + _)).
    assert (Hx : inU 32 x) by (apply wrap_range; lia).
    assert (Hy : inU 32 y) by (apply wrap_range; lia).
    replace (u64 (x + u64 (y .<< 32))) with (x .| (y .<< 32)); [split|].
    + clear - Hx Hy; clearbody x y; route.
    + transitivity [x; y]; [|reflexivity].
      clear - Hx Hy; clearbody x y; repeat (apply (f_equal2 cons); [route|]); reflexivity.
    + rewrite lor_shiftl_add, Z.shiftl_mul_pow2 by (lia || assumption).
      clear - Hx Hy; clearbody x y; cint.
Qed.


(** [intype] to [arithtype] in [DO_ABD]: the difference of two values fits. *)
Lemma DO_ABD_u w v x y :
  0 < w <= v -> v <= 64 -> DO_ABD (wrap w) (wrap v) x y = Z.abs (wrap w x - wrap w y).
Proof.
  intros; unfold DO_ABD.
  pose proof (wrap_range w x ltac:(lia)); pose proof (wrap_range w y ltac:(lia)).
  pose proof (Z.pow_le_mono_r 2 w v); pose proof (Z.pow_le_mono_r 2 v 64); unfold inU in *.
  set (x' := wrap w x) in *; set (y' := wrap w y) in *; clearbody x' y'.
  rewrite Z.gtb_ltb; destruct (Z.ltb_spec y' x');
    rewrite (wrap_id v) by (unfold inU; lia); rewrite wrap_id by (unfold inU; lia); lia.
Qed.

Lemma DO_ABD_s w v x y :
  0 < w < v -> v <= 64 -> DO_ABD (swrap w) (swrap v) x y = Z.abs (swrap w x - swrap w y).
Proof.
  intros; unfold DO_ABD.
  pose proof (swrap_range w x ltac:(lia)); pose proof (swrap_range w y ltac:(lia)).
  pose proof (Z.pow_le_mono_r 2 w (v - 1)); pose proof (Z.pow_le_mono_r 2 v 64).
  pose proof (pow2_split w); pose proof (pow2_split v); unfold inS in *.
  set (x' := swrap w x) in *; set (y' := swrap w y) in *; clearbody x' y'.
  rewrite Z.gtb_ltb; destruct (Z.ltb_spec y' x');
    rewrite (swrap_id v) by (unfold inS; lia); rewrite wrap_id by (unfold inU; lia); lia.
Qed.

Lemma DO_MULL_s w v x y :
  0 < w <= v -> DO_MULL (swrap w) (wrap v) x y = wrap v (swrap w x * swrap w y).
Proof. intros; unfold DO_MULL; rewrite wrap_mul_l, wrap_mul_r; lia || reflexivity. Qed.

Lemma DO_MULL_u w v x y :
  0 < w <= v -> DO_MULL (wrap w) (wrap v) x y = wrap v (wrap w x * wrap w y).
Proof. intros; unfold DO_MULL; rewrite wrap_mul_l, wrap_mul_r; lia || reflexivity. Qed.

Ltac long_lanes :=
  apply packed2; try reflexivity;
  [ intros x y; unfold lane_in; cbn [elt_signed elt_bits neon_u8 neon_s8 neon_u16 neon_s16
      neon_u32 neon_s32 neon_u64 q_u16 q_s16 q_u32 q_s32]; intros Hx Hy
  | intros a b Ha Hb; expose_shifts; cbn [map2] ].

Lemma neon_abdl_exact :
  let abdl va vd := lanes2 va va vd (fun x y => Z.abs (x - y)) in
  abdl neon_u8 q_u16 neon_abdl_u16 /\ abdl neon_s8 q_u16 neon_abdl_s16 /\
  abdl neon_u16 q_u32 neon_abdl_u32 /\ abdl neon_s16 q_u32 neon_abdl_s32 /\
  abdl neon_u32 neon_u64 neon_abdl_u64 /\ abdl neon_s32 neon_u64 neon_abdl_s64.
Proof.
  intros abdl; subst abdl; splits; long_lanes; try solve [clear - Hx Hy; cint].
  - unfold neon_abdl_u16; rewrite !DO_ABD_u by lia. apply fields16; cint.
  - unfold neon_abdl_s16; rewrite !DO_ABD_s by lia; apply fields16; cint.
  - unfold neon_abdl_u32; rewrite !DO_ABD_u by lia; apply fields32; cint.
  - unfold neon_abdl_s32; rewrite !DO_ABD_s by lia; apply fields32; cint.
  - unfold neon_abdl_u64; rewrite !DO_ABD_u by lia; cbn [pack]; rewrite Z.shiftl_0_l, Z.lor_0_r; cint.
  - unfold neon_abdl_s64; rewrite !DO_ABD_s by lia; cbn [pack]; rewrite Z.shiftl_0_l, Z.lor_0_r; cint.
Qed.

Lemma mul_inS w x y : 0 < w -> inS w x -> inS w y -> inS (2 * w) (x * y).
Proof.
  intros Hw Hx Hy; pose proof (mul_bounds (2 ^ (w - 1)) x y Hx Hy).
  pose proof (pow2_pos (w - 1) ltac:(lia)); unfold inS.
  replace (2 * w - 1) with (w - 1 + (w - 1) + 1) by lia; rewrite !Z.pow_add_r by lia; nia.
Qed.

Lemma mul_inU w x y : 0 < w -> inU w x -> inU w y -> inU (2 * w) (x * y).
Proof.
  unfold inU; intros; replace (2 * w) with (w + w) by lia; rewrite Z.pow_add_r by lia; nia.
Qed.

Ltac in_range := apply wrap_range; lia.

Lemma neon_mull_exact :
  lanes2 neon_u8 neon_u8 q_u16 Z.mul neon_mull_u8 /\
  lanes2 neon_s8 neon_s8 q_s16 Z.mul neon_mull_s8 /\
  lanes2 neon_u16 neon_u16 q_u32 Z.mul neon_mull_u16 /\
  lanes2 neon_s16 neon_s16 q_s32 Z.mul neon_mull_s16.
Proof.
  splits; long_lanes.
  1: exact (mul_inU 8 x y eq_refl Hx Hy).
  2: exact (mul_inS 8 x y eq_refl Hx Hy).
  3: exact (mul_inU 16 x y eq_refl Hx Hy).
  4: exact (mul_inS 16 x y eq_refl Hx Hy).
  - unfold neon_mull_u8; rewrite !DO_MULL_u by lia.
    etransitivity; [apply fields16; in_range|now apply (pack_mod 16 [_; _; _; _])].
  - unfold neon_mull_s8; rewrite !DO_MULL_s by lia.
    etransitivity; [apply fields16; in_range|now apply (pack_mod 16 [_; _; _; _])].
  - unfold neon_mull_u16; rewrite !DO_MULL_u by lia.
    etransitivity; [apply fields32; in_range|now apply (pack_mod 32 [_; _])].
  - unfold neon_mull_s16; rewrite !DO_MULL_s by lia.
    etransitivity; [apply fields32; in_range|now apply (pack_mod 32 [_; _])].
Qed.

(** ** Saturating long addition, absolute value and negation *)

(** One signed saturating addition, as the code of the helpers has it. *)
Lemma qadd_word32 {A} x y (k : Z -> M A) env :
  inU 32 x -> inU 32 y ->
  (v <- (if truthy ((u32 (x + y) .^ x) .& SIGNBIT) && negb (truthy ((x .^ y) .& SIGNBIT)) then
           SET_QC;;; ret (u32 (s32 x .>> 31) .^ u32 (Z.lnot SIGNBIT)) else ret (u32 (x + y)));; k v) env =
    k (u32 (ssat 32 (s32 x + s32 y)))
      (qc_if (negb (ssat 32 (s32 x + s32 y) =? s32 x + s32 y)) env).
Proof.
  intros Hx Hy; rewrite run_bind_if, sat_value32' by assumption; sign_tests 32 SIGNBIT.
  f_equal; [|f_equal]; cases.
Qed.

Lemma map_lanes_run f (g : Z -> Z) (q : Z -> bool) P l :
  (forall x env, P x -> f x env = (g x, qc_if (q x) env)) -> Forall P l ->
  forall env, map_lanes f l env = (map g l, qc_if (existsb q l) env).
Proof.
  intros E H; induction H; intros env; cbn [map_lanes map existsb]; [reflexivity|].
  unfold bind at 1; rewrite E by assumption; unfold bind; rewrite IHForall, qc_if_qc_if; reflexivity.
Qed.

Lemma on_lanes_sat vt f e :
  0 < elt_bits vt ->
  (forall x env, lane_in vt x ->
     f x env = (sat vt (e x), qc_if (negb (sat vt (e x) =? e x)) env)) ->
  saturates1 vt vt e (on_lanes vt f).
Proof.
  intros Hb E; apply packed_sat1; auto; intros env a Ha; unfold on_lanes, bind.
  rewrite (map_lanes_run f _ _ _ _ E) by now apply UNPACK_in. reflexivity.
Qed.

Lemma scalar_sat1 vt e h :
  elt_n vt = 1%nat -> 0 < elt_bits vt ->
  (forall env a, inU (elt_bits vt) a ->
     h env a = (wrap (elt_bits vt) (sat vt (e (cast vt a))),
                qc_if (negb (sat vt (e (cast vt a)) =? e (cast vt a))) env)) ->
  saturates1 vt vt e h.
Proof.
  intros Hn Hb E; apply packed_sat1; auto; unfold vbits; rewrite Hn, Z.mul_1_r.
  intros env a Ha; rewrite (E env a Ha), UNPACK_one by assumption; cbn [map existsb].
  unfold NEON_PACK; cbn [pack]; now rewrite orb_false_r, Z.shiftl_0_l, Z.lor_0_r.
Qed.

Lemma run_sat_if (c d : bool) (x y z : Z) env :
  (if c then SET_QC;;; ret x else if d then ret y else ret z) env =
    (if c then x else if d then y else z, qc_if c env).
Proof. destruct c, d; reflexivity. Qed.

(** Saturating absolute value and negation, and the saturating accumulation of the long
    multiplications, return the exact result clamped and set the saturation flag exactly
    when a lane was clamped, the most negative value included. *)
Theorem neon_qabs_qneg_saturate :
  (saturates1 neon_s8 neon_s8 Z.abs neon_qabs_s8 /\ saturates1 neon_s16 neon_s16 Z.abs neon_qabs_s16 /\
   saturates1 neon_s32 neon_s32 Z.abs neon_qabs_s32 /\
   saturates1 neon_s64 neon_s64 Z.abs neon_qabs_s64) /\
  (saturates1 neon_s8 neon_s8 Z.opp neon_qneg_s8 /\ saturates1 neon_s16 neon_s16 Z.opp neon_qneg_s16 /\
   saturates1 neon_s32 neon_s32 Z.opp neon_qneg_s32 /\
   saturates1 neon_s64 neon_s64 Z.opp neon_qneg_s64) /\
  saturates2 q_s32 q_s32 q_s32 Z.add neon_addl_saturate_s32 /\
  saturates2 neon_s64 neon_s64 neon_s64 Z.add neon_addl_saturate_s64.
Proof.
  splits.
  1,2,5,6: apply on_lanes_sat; [reflexivity|]; intros x env Hx;
    unfold lane_in, sat, DO_QABS, DO_QNEG in *; cbn [elt_signed elt_bits neon_s8 neon_s16] in *.
  5-8: apply scalar_sat1; try reflexivity; intros env a Ha; unfold cast, sat;
    cbn [elt_signed elt_bits neon_s32 neon_s64] in *;
    unfold neon_qabs_s32, neon_qabs_s64, neon_qneg_s32, neon_qneg_s64, SIGNBIT, SIGNBIT64.
  1-8: first [rewrite run_sat_if | rewrite run_sat1]; f_equal; [|f_equal]; cases.
  - apply packed_qc; try reflexivity; [intros; apply cast_id, sat_in; reflexivity|].
    intros env a b; unfold neon_addl_saturate_s32, sat; expose.
    rewrite !qadd_word32, qc_if_qc_if by in_range.
    rewrite !(swrap_wrap 32) by lia; unfold ret, any2; cbn [map2 existsb]; rewrite orb_false_r.
    f_equal; etransitivity; [apply fields32; in_range|now apply (pack_mod 32 [_; _])].
  - scalar; unfold neon_addl_saturate_s64; rewrite sat_value64 by assumption.
    sign_tests 64 SIGNBIT64; sat_word; cases.
Qed.

(** Narrowing and widening moves keep the right half or extend with zeros or the sign;
    the rounding narrowing, the packed long additions, subtractions, negations and
    pairwise additions work on the separate elements, with no carry into the next one;
    the long absolute differences and multiplications are exact in lanes twice as wide.
    *)
Theorem neon_long_exact :
  (lanes1 q_u16 neon_u8 u8 neon_narrow_u8 /\
   lanes1 q_u32 neon_u16 u16 neon_narrow_u16 /\
   lanes1 q_u16 neon_u8 (fun x => x .>> 8) neon_narrow_high_u8 /\
   lanes1 q_u32 neon_u16 (fun x => x .>> 16) neon_narrow_high_u16 /\
   lanes1 neon_u8 q_u16 (fun x => x) neon_widen_u8 /\
   lanes1 neon_s8 q_s16 (fun x => x) neon_widen_s8 /\
   lanes1 neon_u16 q_u32 (fun x => x) neon_widen_u16 /\
   lanes1 neon_s16 q_s32 (fun x => x) neon_widen_s16) /\
  (lanes1 q_u16 neon_u8 (fun x => u8 ((x + 2 ^ 7) / 2 ^ 8)) neon_narrow_round_high_u8 /\
   lanes1 q_u32 neon_u16 (fun x => u16 ((x + 2 ^ 15) / 2 ^ 16)) neon_narrow_round_high_u16) /\
  (let m f vt := lanes2 vt vt vt (fun x y => wrap (elt_bits vt) (f x y)) in
   m Z.add q_u16 neon_addl_u16 /\ m Z.add q_u32 neon_addl_u32 /\
   m Z.sub q_u16 neon_subl_u16 /\ m Z.sub q_u32 neon_subl_u32 /\
   lanes1 q_u16 q_u16 (fun x => u16 (- x)) neon_negl_u16 /\
   lanes1 q_u32 q_u32 (fun x => u32 (- x)) neon_negl_u32) /\
  (pairs q_u16 (fun x y => u16 (x + y)) neon_paddl_u16 /\
   pairs q_u32 (fun x y => u32 (x + y)) neon_paddl_u32) /\
  (let abdl va vd := lanes2 va va vd (fun x y => Z.abs (x - y)) in
   abdl neon_u8 q_u16 neon_abdl_u16 /\ abdl neon_s8 q_u16 neon_abdl_s16 /\
   abdl neon_u16 q_u32 neon_abdl_u32 /\ abdl neon_s16 q_u32 neon_abdl_s32 /\
   abdl neon_u32 neon_u64 neon_abdl_u64 /\ abdl neon_s32 neon_u64 neon_abdl_s64) /\
  (lanes2 neon_u8 neon_u8 q_u16 Z.mul neon_mull_u8 /\
   lanes2 neon_s8 neon_s8 q_s16 Z.mul neon_mull_s8 /\
   lanes2 neon_u16 neon_u16 q_u32 Z.mul neon_mull_u16 /\
   lanes2 neon_s16 neon_s16 q_s32 Z.mul neon_mull_s16).
Proof. exact (conj neon_narrow_exact (conj neon_narrow_round_exact (conj neon_long_modular_exact (conj neon_pairwise_long_exact (conj neon_abdl_exact neon_mull_exact))))). Qed.
