(* ===== verification/NeonPermute.v ===== *)
(** * NEON zip and unzip (target-arm/neon_helper.c, lines 2028-2212)

    The helpers write whole VFP registers: [reg] and [wreg] are
    [float64_val(env->vfp.regs[n])] and [env->vfp.regs[n] = make_float64(v)]. *)

From Stdlib Require Import ZArith Lia List Bool.
From S2P Require Import Prelude Cpu BitRoute NeonLanes.
Import ListNotations.
Local Open Scope Z_scope.
Local Open Scope c_scope.

(** ** Definitions *)

Definition reg (env : CPUARMState) (n : nat) : Z := nth n (vfp_regs (vfp env)) 0.

Definition wreg (env : CPUARMState) (n : nat) (v : Z) : CPUARMState :=
  set_vfp_regs env (upd (vfp_regs (vfp env)) n v).

Definition ELEM (V N SIZE : Z) : Z := (V .>> (N * SIZE)) .& ((1 .<< SIZE) - 1).

Definition neon_qunzip8 (env : CPUARMState) (rd rm : nat) : CPUARMState :=
  let zm0 := reg env rm in
  let zm1 := reg env (rm + 1) in
  let zd0 := reg env rd in
  let zd1 := reg env (rd + 1) in
  let d0 := ELEM zd0 0 8 .| u64 (ELEM zd0 2 8 .<< 8) .| u64 (ELEM zd0 4 8 .<< 16)
      .| u64 (ELEM zd0 6 8 .<< 24) .| u64 (ELEM zd1 0 8 .<< 32) .| u64 (ELEM zd1 2 8 .<< 40)
      .| u64 (ELEM zd1 4 8 .<< 48) .| u64 (ELEM zd1 6 8 .<< 56) in
  let d1 := ELEM zm0 0 8 .| u64 (ELEM zm0 2 8 .<< 8) .| u64 (ELEM zm0 4 8 .<< 16)
      .| u64 (ELEM zm0 6 8 .<< 24) .| u64 (ELEM zm1 0 8 .<< 32) .| u64 (ELEM zm1 2 8 .<< 40)
      .| u64 (ELEM zm1 4 8 .<< 48) .| u64 (ELEM zm1 6 8 .<< 56) in
  let m0 := ELEM zd0 1 8 .| u64 (ELEM zd0 3 8 .<< 8) .| u64 (ELEM zd0 5 8 .<< 16)
      .| u64 (ELEM zd0 7 8 .<< 24) .| u64 (ELEM zd1 1 8 .<< 32) .| u64 (ELEM zd1 3 8 .<< 40)
      .| u64 (ELEM zd1 5 8 .<< 48) .| u64 (ELEM zd1 7 8 .<< 56) in
  let m1 := ELEM zm0 1 8 .| u64 (ELEM zm0 3 8 .<< 8) .| u64 (ELEM zm0 5 8 .<< 16)
      .| u64 (ELEM zm0 7 8 .<< 24) .| u64 (ELEM zm1 1 8 .<< 32) .| u64 (ELEM zm1 3 8 .<< 40)
      .| u64 (ELEM zm1 5 8 .<< 48) .| u64 (ELEM zm1 7 8 .<< 56) in
  let env := wreg env rm m0 in
  let env := wreg env (rm + 1) m1 in
  let env := wreg env rd d0 in
  wreg env (rd + 1) d1.

Definition neon_qunzip16 (env : CPUARMState) (rd rm : nat) : CPUARMState :=
  let zm0 := reg env rm in
  let zm1 := reg env (rm + 1) in
  let zd0 := reg env rd in
  let zd1 := reg env (rd + 1) in
  let d0 := ELEM zd0 0 16 .| u64 (ELEM zd0 2 16 .<< 16) .| u64 (ELEM zd1 0 16 .<< 32)
      .| u64 (ELEM zd1 2 16 .<< 48) in
  let d1 := ELEM zm0 0 16 .| u64 (ELEM zm0 2 16 .<< 16) .| u64 (ELEM zm1 0 16 .<< 32)
      .| u64 (ELEM zm1 2 16 .<< 48) in
  let m0 := ELEM zd0 1 16 .| u64 (ELEM zd0 3 16 .<< 16) .| u64 (ELEM zd1 1 16 .<< 32)
      .| u64 (ELEM zd1 3 16 .<< 48) in
  let m1 := ELEM zm0 1 16 .| u64 (ELEM zm0 3 16 .<< 16) .| u64 (ELEM zm1 1 16 .<< 32)
      .| u64 (ELEM zm1 3 16 .<< 48) in
  let env := wreg env rm m0 in
  let env := wreg env (rm + 1) m1 in
  let env := wreg env rd d0 in
  wreg env (rd + 1) d1.

Definition neon_qunzip32 (env : CPUARMState) (rd rm : nat) : CPUARMState :=
  let zm0 := reg env rm in
  let zm1 := reg env (rm + 1) in
  let zd0 := reg env rd in
  let zd1 := reg env (rd + 1) in
  let d0 := ELEM zd0 0 32 .| u64 (ELEM zd1 0 32 .<< 32) in
  let d1 := ELEM zm0 0 32 .| u64 (ELEM zm1 0 32 .<< 32) in
  let m0 := ELEM zd0 1 32 .| u64 (ELEM zd1 1 32 .<< 32) in
  let m1 := ELEM zm0 1 32 .| u64 (ELEM zm1 1 32 .<< 32) in
  let env := wreg env rm m0 in
  let env := wreg env (rm + 1) m1 in
  let env := wreg env rd d0 in
  wreg env (rd + 1) d1.

Definition neon_unzip8 (env : CPUARMState) (rd rm : nat) : CPUARMState :=
  let zm := reg env rm in
  let zd := reg env rd in
  let d0 := ELEM zd 0 8 .| u64 (ELEM zd 2 8 .<< 8) .| u64 (ELEM zd 4 8 .<< 16)
      .| u64 (ELEM zd 6 8 .<< 24) .| u64 (ELEM zm 0 8 .<< 32) .| u64 (ELEM zm 2 8 .<< 40)
      .| u64 (ELEM zm 4 8 .<< 48) .| u64 (ELEM zm 6 8 .<< 56) in
  let m0 := ELEM zd 1 8 .| u64 (ELEM zd 3 8 .<< 8) .| u64 (ELEM zd 5 8 .<< 16)
      .| u64 (ELEM zd 7 8 .<< 24) .| u64 (ELEM zm 1 8 .<< 32) .| u64 (ELEM zm 3 8 .<< 40)
      .| u64 (ELEM zm 5 8 .<< 48) .| u64 (ELEM zm 7 8 .<< 56) in
  let env := wreg env rm m0 in
  wreg env rd d0.

Definition neon_unzip16 (env : CPUARMState) (rd rm : nat) : CPUARMState :=
  let zm := reg env rm in
  let zd := reg env rd in
  let d0 := ELEM zd 0 16 .| u64 (ELEM zd 2 16 .<< 16) .| u64 (ELEM zm 0 16 .<< 32)
      .| u64 (ELEM zm 2 16 .<< 48) in
  let m0 := ELEM zd 1 16 .| u64 (ELEM zd 3 16 .<< 16) .| u64 (ELEM zm 1 16 .<< 32)
      .| u64 (ELEM zm 3 16 .<< 48) in
  let env := wreg env rm m0 in
  wreg env rd d0.

Definition neon_qzip8 (env : CPUARMState) (rd rm : nat) : CPUARMState :=
  let zm0 := reg env rm in
  let zm1 := reg env (rm + 1) in
  let zd0 := reg env rd in
  let zd1 := reg env (rd + 1) in
  let d0 := ELEM zd0 0 8 .| u64 (ELEM zm0 0 8 .<< 8) .| u64 (ELEM zd0 1 8 .<< 16)
      .| u64 (ELEM zm0 1 8 .<< 24) .| u64 (ELEM zd0 2 8 .<< 32) .| u64 (ELEM zm0 2 8 .<< 40)
      .| u64 (ELEM zd0 3 8 .<< 48) .| u64 (ELEM zm0 3 8 .<< 56) in
  let d1 := ELEM zd0 4 8 .| u64 (ELEM zm0 4 8 .<< 8) .| u64 (ELEM zd0 5 8 .<< 16)
      .| u64 (ELEM zm0 5 8 .<< 24) .| u64 (ELEM zd0 6 8 .<< 32) .| u64 (ELEM zm0 6 8 .<< 40)
      .| u64 (ELEM zd0 7 8 .<< 48) .| u64 (ELEM zm0 7 8 .<< 56) in
  let m0 := ELEM zd1 0 8 .| u64 (ELEM zm1 0 8 .<< 8) .| u64 (ELEM zd1 1 8 .<< 16)
      .| u64 (ELEM zm1 1 8 .<< 24) .| u64 (ELEM zd1 2 8 .<< 32) .| u64 (ELEM zm1 2 8 .<< 40)
      .| u64 (ELEM zd1 3 8 .<< 48) .| u64 (ELEM zm1 3 8 .<< 56) in
  let m1 := ELEM zd1 4 8 .| u64 (ELEM zm1 4 8 .<< 8) .| u64 (ELEM zd1 5 8 .<< 16)
      .| u64 (ELEM zm1 5 8 .<< 24) .| u64 (ELEM zd1 6 8 .<< 32) .| u64 (ELEM zm1 6 8 .<< 40)
      .| u64 (ELEM zd1 7 8 .<< 48) .| u64 (ELEM zm1 7 8 .<< 56) in
  let env := wreg env rm m0 in
  let env := wreg env (rm + 1) m1 in
  let env := wreg env rd d0 in
  wreg env (rd + 1) d1.

Definition neon_qzip16 (env : CPUARMState) (rd rm : nat) : CPUARMState :=
  let zm0 := reg env rm in
  let zm1 := reg env (rm + 1) in
  let zd0 := reg env rd in
  let zd1 := reg env (rd + 1) in
  let d0 := ELEM zd0 0 16 .| u64 (ELEM zm0 0 16 .<< 16) .| u64 (ELEM zd0 1 16 .<< 32)
      .| u64 (ELEM zm0 1 16 .<< 48) in
  let d1 := ELEM zd0 2 16 .| u64 (ELEM zm0 2 16 .<< 16) .| u64 (ELEM zd0 3 16 .<< 32)
      .| u64 (ELEM zm0 3 16 .<< 48) in
  let m0 := ELEM zd1 0 16 .| u64 (ELEM zm1 0 16 .<< 16) .| u64 (ELEM zd1 1 16 .<< 32)
      .| u64 (ELEM zm1 1 16 .<< 48) in
  let m1 := ELEM zd1 2 16 .| u64 (ELEM zm1 2 16 .<< 16) .| u64 (ELEM zd1 3 16 .<< 32)
      .| u64 (ELEM zm1 3 16 .<< 48) in
  let env := wreg env rm m0 in
  let env := wreg env (rm + 1) m1 in
  let env := wreg env rd d0 in
  wreg env (rd + 1) d1.

Definition neon_qzip32 (env : CPUARMState) (rd rm : nat) : CPUARMState :=
  let zm0 := reg env rm in
  let zm1 := reg env (rm + 1) in
  let zd0 := reg env rd in
  let zd1 := reg env (rd + 1) in
  let d0 := ELEM zd0 0 32 .| u64 (ELEM zm0 0 32 .<< 32) in
  let d1 := ELEM zd0 1 32 .| u64 (ELEM zm0 1 32 .<< 32) in
  let m0 := ELEM zd1 0 32 .| u64 (ELEM zm1 0 32 .<< 32) in
  let m1 := ELEM zd1 1 32 .| u64 (ELEM zm1 1 32 .<< 32) in
  let env := wreg env rm m0 in
  let env := wreg env (rm + 1) m1 in
  let env := wreg env rd d0 in
  wreg env (rd + 1) d1.

Definition neon_zip8 (env : CPUARMState) (rd rm : nat) : CPUARMState :=
  let zm := reg env rm in
  let zd := reg env rd in
  let d0 := ELEM zd 0 8 .| u64 (ELEM zm 0 8 .<< 8) .| u64 (ELEM zd 1 8 .<< 16)
      .| u64 (ELEM zm 1 8 .<< 24) .| u64 (ELEM zd 2 8 .<< 32) .| u64 (ELEM zm 2 8 .<< 40)
      .| u64 (ELEM zd 3 8 .<< 48) .| u64 (ELEM zm 3 8 .<< 56) in
  let m0 := ELEM zd 4 8 .| u64 (ELEM zm 4 8 .<< 8) .| u64 (ELEM zd 5 8 .<< 16)
      .| u64 (ELEM zm 5 8 .<< 24) .| u64 (ELEM zd 6 8 .<< 32) .| u64 (ELEM zm 6 8 .<< 40)
      .| u64 (ELEM zd 7 8 .<< 48) .| u64 (ELEM zm 7 8 .<< 56) in
  let env := wreg env rm m0 in
  wreg env rd d0.

Definition neon_zip16 (env : CPUARMState) (rd rm : nat) : CPUARMState :=
  let zm := reg env rm in
  let zd := reg env rd in
  let d0 := ELEM zd 0 16 .| u64 (ELEM zm 0 16 .<< 16) .| u64 (ELEM zd 1 16 .<< 32)
      .| u64 (ELEM zm 1 16 .<< 48) in
  let m0 := ELEM zd 2 16 .| u64 (ELEM zm 2 16 .<< 16) .| u64 (ELEM zd 3 16 .<< 32)
      .| u64 (ELEM zm 3 16 .<< 48) in
  let env := wreg env rm m0 in
  wreg env rd d0.

(** ** Specification *)

Fixpoint evens (l : list Z) : list Z :=
  match l with
  | x :: _ :: l => x :: evens l
  | l => l
  end.

Fixpoint odds (l : list Z) : list Z :=
  match l with
  | _ :: y :: l => y :: odds l
  | _ => []
  end.

Fixpoint interleave (l1 l2 : list Z) : list Z :=
  match l1, l2 with
  | x :: l1, y :: l2 => x :: y :: interleave l1 l2
  | _, _ => []
  end.

(** The even lanes, then the odd ones; and the inverse. *)
Definition unzipped (l : list Z) : list Z := evens l ++ odds l.
Definition zipped (l : list Z) : list Z :=
  let h := (length l / 2)%nat in interleave (firstn h l) (skipn h l).

(** The [w]-bit lanes of a sequence of registers. *)
Definition vlanes (w : Z) (l : list Z) : list Z :=
  flat_map (unpack (wrap w) w (Z.to_nat (64 / w))) l.

Definition words (env : CPUARMState) : Prop :=
  length (vfp_regs (vfp env)) = 64%nat /\ Forall (inU 64) (vfp_regs (vfp env)).

(** Two register pairs, or two registers, that do not overlap. *)
Definition apart (k rd rm : nat) : Prop :=
  (rd + k < rm \/ rm + k < rd)%nat /\ (rd + k < 64)%nat /\ (rm + k < 64)%nat.

(** Only the named registers change. *)
Definition only_regs (rs : list nat) (env env' : CPUARMState) : Prop :=
  env' = set_vfp_regs env (vfp_regs (vfp env')) /\ words env' /\
  forall r, ~ In r rs -> reg env' r = reg env r.

Definition permutes_q (w : Z) (f : list Z -> list Z)
    (op : CPUARMState -> nat -> nat -> CPUARMState) : Prop :=
  forall env rd rm, words env -> apart 1 rd rm ->
    let env' := op env rd rm in
    let rs := [rd; (rd + 1)%nat; rm; (rm + 1)%nat] in
    vlanes w (map (reg env') rs) = f (vlanes w (map (reg env) rs)) /\ only_regs rs env env'.

Definition permutes_d (w : Z) (f : list Z -> list Z)
    (op : CPUARMState -> nat -> nat -> CPUARMState) : Prop :=
  forall env rd rm, words env -> apart 0 rd rm ->
    let env' := op env rd rm in
    let rs := [rd; rm] in
    vlanes w (map (reg env') rs) = f (vlanes w (map (reg env) rs)) /\ only_regs rs env env'.

(** ** Registers *)

Lemma reg_wreg_eq env n v : words env -> (n < 64)%nat -> reg (wreg env n v) n = v.
Proof. intros [L _] H; unfold reg; cbn; apply nth_upd_eq; lia. Qed.

Lemma reg_wreg_ne env n m v : n <> m -> reg (wreg env n v) m = reg env m.
Proof. intros; unfold reg; cbn; now apply nth_upd_ne. Qed.

Lemma reg_range env n : words env -> (n < 64)%nat -> inU 64 (reg env n).
Proof.
  intros [L F] H; unfold reg; rewrite Forall_forall in F; apply F, nth_In; lia.
Qed.

Lemma words_wreg env n v : words env -> inU 64 v -> words (wreg env n v).
Proof.
  intros [L F] Hv; split; cbn; [now rewrite length_upd|].
  clear L; revert n; induction F; intros [|n]; cbn; constructor; auto.
Qed.

(** The two writes of a pair of registers, and the four of two pairs. *)
Definition write2 env rd rm d m := wreg (wreg env rm m) rd d.
Definition write4 env rd rm d0 d1 m0 m1 :=
  wreg (wreg (wreg (wreg env rm m0) (rm + 1) m1) rd d0) (rd + 1) d1.

Ltac regs := repeat first [rewrite reg_wreg_eq by (auto using words_wreg; lia)
                          | rewrite reg_wreg_ne by lia].

Lemma write4_regs env rd rm d0 d1 m0 m1 :
  words env -> apart 1 rd rm -> inU 64 d0 -> inU 64 d1 -> inU 64 m0 -> inU 64 m1 ->
  let env' := write4 env rd rm d0 d1 m0 m1 in
  let rs := [rd; (rd + 1)%nat; rm; (rm + 1)%nat] in
  map (reg env') rs = [d0; d1; m0; m1] /\ only_regs rs env env'.
Proof.
  intros W (A & B & C) D0 D1 M0 M1; unfold write4; split; [cbn [map]; now regs|].
  split; [reflexivity|]; split; [auto 6 using words_wreg|].
  intros r Hr; cbn [In] in Hr; now regs.
Qed.

Lemma write2_regs env rd rm d m :
  words env -> apart 0 rd rm -> inU 64 d -> inU 64 m ->
  let env' := write2 env rd rm d m in
  map (reg env') [rd; rm] = [d; m] /\ only_regs [rd; rm] env env'.
Proof.
  intros W (A & B & C) D M; unfold write2; split; [cbn [map]; now regs|].
  split; [reflexivity|]; split; [auto using words_wreg|].
  intros r Hr; cbn [In] in Hr; now regs.
Qed.

(** A state is determined by its registers when only those change. *)
Lemma only_regs_back rs env env' env'' :
  words env -> only_regs rs env env' -> only_regs rs env' env'' ->
  map (reg env'') rs = map (reg env) rs -> env'' = env.
Proof.
  intros [L _] (E1 & (L1 & _) & K1) (E2 & (L2 & _) & K2) H.
  assert (R : vfp_regs (vfp env'') = vfp_regs (vfp env)).
  { apply nth_ext with 0 0; [lia|]; intros n Hn; change (reg env'' n = reg env n).
    destruct (in_dec Nat.eq_dec n rs) as [I|I].
    - clear -H I; induction rs as [|r rs IH]; [contradiction|]; injection H as H1 H2.
      destruct I as [<-|I]; auto.
    - now rewrite K2, K1. }
  rewrite E2, R, E1; destruct env as [? ? ? ? ? ? ? ? ? ? ? []]; reflexivity.
Qed.

(** ** Correctness

    [permute]: read back the registers that were written, then compare lane by
    lane with the source registers. *)
Ltac source_regs env :=
  repeat match goal with
  | |- context [reg env ?r] =>
      generalize (reg_range env r ltac:(assumption) ltac:(unfold apart in *; lia));
      generalize (reg env r); intros
  end; unfold ELEM.

Ltac lanes_of_words :=
  unfold vlanes, unzipped, zipped;
  change (Z.to_nat (64 / 8)) with 8%nat; change (Z.to_nat (64 / 16)) with 4%nat;
  change (Z.to_nat (64 / 32)) with 2%nat;
  cbn [flat_map app unpack evens odds interleave length firstn skipn Nat.div Nat.divmod fst];
  repeat (apply (f_equal2 cons); [route|]); reflexivity.

Ltac permute :=
  intros env rd rm W A; cbv zeta;
  let E := fresh in let O := fresh in
  lazymatch goal with
  | |- _ /\ only_regs _ _ (wreg (wreg (wreg (wreg _ _ ?m0) _ ?m1) _ ?d0) _ ?d1) =>
      destruct (write4_regs env rd rm d0 d1 m0 m1 W A) as [E O]; [source_regs env; route..|]
  | |- _ /\ only_regs _ _ (wreg (wreg _ _ ?m) _ ?d) =>
      destruct (write2_regs env rd rm d m W A) as [E O]; [source_regs env; route..|]
  end;
  split; [|exact O]; etransitivity; [apply f_equal; exact E|]; clear E O;
  cbn [map]; source_regs env; lanes_of_words.

Lemma unzip_spec :
  permutes_q 8 unzipped neon_qunzip8 /\ permutes_q 16 unzipped neon_qunzip16 /\
  permutes_q 32 unzipped neon_qunzip32 /\
  permutes_d 8 unzipped neon_unzip8 /\ permutes_d 16 unzipped neon_unzip16.
Proof.
  unfold neon_qunzip8, neon_qunzip16, neon_qunzip32, neon_unzip8, neon_unzip16; splits; permute.
Qed.

Lemma zip_spec :
  permutes_q 8 zipped neon_qzip8 /\ permutes_q 16 zipped neon_qzip16 /\
  permutes_q 32 zipped neon_qzip32 /\
  permutes_d 8 zipped neon_zip8 /\ permutes_d 16 zipped neon_zip16.
Proof.
  unfold neon_qzip8, neon_qzip16, neon_qzip32, neon_zip8, neon_zip16; splits; permute.
Qed.

(** C28: the register permutations VZIP and VUZP of 8, 16 and 32-bit elements put every
    element of the two registers where interleaving or de-interleaving the whole pair
    puts it, and change no other register. *)
Theorem neon_permute_exact :
  (permutes_q 8 unzipped neon_qunzip8 /\ permutes_q 16 unzipped neon_qunzip16 /\
   permutes_q 32 unzipped neon_qunzip32 /\
   permutes_d 8 unzipped neon_unzip8 /\ permutes_d 16 unzipped neon_unzip16) /\
  (permutes_q 8 zipped neon_qzip8 /\ permutes_q 16 zipped neon_qzip16 /\
   permutes_q 32 zipped neon_qzip32 /\
   permutes_d 8 zipped neon_zip8 /\ permutes_d 16 zipped neon_zip16).
Proof. exact (conj unzip_spec zip_spec). Qed.

(** ** Zip and unzip undo each other *)

Lemma app_same_length {A} (a b c d : list A) :
  length a = length b -> a ++ c = b ++ d -> a = b /\ c = d.
Proof.
  revert b; induction a as [|x a IH]; intros [|y b] L E; try discriminate; [auto|].
  injection E as -> E; injection L as L; destruct (IH b L E) as [-> ->]; auto.
Qed.

Lemma vlanes_inj w l l' :
  0 < w -> w * Z.of_nat (Z.to_nat (64 / w)) = 64 -> Forall (inU 64) l -> Forall (inU 64) l' ->
  length l = length l' -> vlanes w l = vlanes w l' -> l = l'.
Proof.
  intros Hw H64 F; revert l'; induction F as [|x l Hx F IH]; intros [|y l'] F' L E;
    try discriminate; [reflexivity|].
  inversion_clear F' as [|? ? Hy F'']; unfold vlanes in E; cbn [flat_map] in E.
  apply app_same_length in E as [E1 E2]; [|now rewrite !length_unpack].
  injection L as L; rewrite (IH l' F'' L E2); f_equal.
  pose proof (wrap_wrap w); rewrite <- H64 in Hx, Hy.
  rewrite <- (pack_unpack (wrap w) w (Z.to_nat (64 / w)) x), E1, pack_unpack; auto; lia || (intros; apply wrap_wrap; lia).
Qed.

Lemma undo_q w f g op op' env rd rm :
  0 < w -> w * Z.of_nat (Z.to_nat (64 / w)) = 64 ->
  permutes_q w f op -> permutes_q w g op' ->
  (forall a b c d, g (f (vlanes w [a; b; c; d])) = vlanes w [a; b; c; d]) ->
  words env -> apart 1 rd rm -> op' (op env rd rm) rd rm = env.
Proof.
  intros Hw H64 P Q I W A; destruct (P env rd rm W A) as [E O]; pose proof (proj1 (proj2 O)) as W'.
  destruct (Q (op env rd rm) rd rm W' A) as [E' O']; pose proof (proj1 (proj2 O')) as W''.
  assert (R : forall e, words e -> Forall (inU 64) (map (reg e) [rd; (rd + 1)%nat; rm; (rm + 1)%nat])).
  { intros e We; unfold apart in A; cbn [map]; repeat (apply Forall_cons; [apply reg_range; auto; lia|]); constructor. }
  eapply only_regs_back; [exact W|exact O|exact O'|].
  apply (vlanes_inj w); auto; rewrite E', E; apply I.
Qed.

Lemma undo_d w f g op op' env rd rm :
  0 < w -> w * Z.of_nat (Z.to_nat (64 / w)) = 64 ->
  permutes_d w f op -> permutes_d w g op' ->
  (forall a b, g (f (vlanes w [a; b])) = vlanes w [a; b]) ->
  words env -> apart 0 rd rm -> op' (op env rd rm) rd rm = env.
Proof.
  intros Hw H64 P Q I W A; destruct (P env rd rm W A) as [E O]; pose proof (proj1 (proj2 O)) as W'.
  destruct (Q (op env rd rm) rd rm W' A) as [E' O']; pose proof (proj1 (proj2 O')) as W''.
  assert (R : forall e, words e -> Forall (inU 64) (map (reg e) [rd; rm])).
  { intros e We; unfold apart in A; cbn [map]; repeat (apply Forall_cons; [apply reg_range; auto; lia|]); constructor. }
  eapply only_regs_back; [exact W|exact O|exact O'|].
  apply (vlanes_inj w); auto; rewrite E', E; apply I.
Qed.

Definition undoes_q (op op' : CPUARMState -> nat -> nat -> CPUARMState) : Prop :=
  forall env rd rm, words env -> apart 1 rd rm -> op' (op env rd rm) rd rm = env.

Definition undoes_d (op op' : CPUARMState -> nat -> nat -> CPUARMState) : Prop :=
  forall env rd rm, words env -> apart 0 rd rm -> op' (op env rd rm) rd rm = env.

(** C29: VZIP undoes VUZP and VUZP undoes VZIP on every pair of distinct registers, for
    every element width. *)
Theorem neon_zip_unzip_roundtrip :
  (undoes_q neon_qunzip8 neon_qzip8 /\ undoes_q neon_qzip8 neon_qunzip8) /\
  (undoes_q neon_qunzip16 neon_qzip16 /\ undoes_q neon_qzip16 neon_qunzip16) /\
  (undoes_q neon_qunzip32 neon_qzip32 /\ undoes_q neon_qzip32 neon_qunzip32) /\
  (undoes_d neon_unzip8 neon_zip8 /\ undoes_d neon_zip8 neon_unzip8) /\
  (undoes_d neon_unzip16 neon_zip16 /\ undoes_d neon_zip16 neon_unzip16).
Proof.
  destruct unzip_spec as (U1 & U2 & U3 & U4 & U5), zip_spec as (Z1 & Z2 & Z3 & Z4 & Z5).
  splits; intros env rd rm W A.
  - now apply (undo_q 8 unzipped zipped).
  - now apply (undo_q 8 zipped unzipped).
  - now apply (undo_q 16 unzipped zipped).
  - now apply (undo_q 16 zipped unzipped).
  - now apply (undo_q 32 unzipped zipped).
  - now apply (undo_q 32 zipped unzipped).
  - now apply (undo_d 8 unzipped zipped).
  - now apply (undo_d 8 zipped unzipped).
  - now apply (undo_d 16 unzipped zipped).
  - now apply (undo_d 16 zipped unzipped).
Qed.
