(* ===== verification/HostUtils.v ===== *)
(** * Wide multiplication and division (util/host-utils.c, include/qemu/host-utils.h)

    The variants of a host without 128-bit integers ([CONFIG_INT128] is not
    set on the 32-bit host).  The [LL] unions are read as their low and high
    words; results through [plow] and [phigh] are returned. *)

From Stdlib Require Import ZArith Lia List Bool.
From S2P Require Import Prelude.
Import ListNotations.
Local Open Scope Z_scope.
Local Open Scope c_scope.

(** ** Definitions *)

Definition LL_low (ll : Z) : Z := u32 ll.
Definition LL_high (ll : Z) : Z := u32 (ll .>> 32).
Definition LL_make (low high : Z) : Z := low .| (high .<< 32).

(** The values stored through [plow] and [phigh]. *)
Definition mul64 (a b : Z) : Z * Z :=
  let rl := u64 (LL_low a * LL_low b) in
  let rm := u64 (LL_low a * LL_high b) in
  let rn := u64 (LL_high a * LL_low b) in
  let rh := u64 (LL_high a * LL_high b) in
  let c := u64 (u64 (LL_high rl + LL_low rm) + LL_low rn) in
  let rl := LL_make (LL_low rl) (u32 c) in
  let c := c .>> 32 in
  let c := u64 (u64 (u64 (c + LL_high rm) + LL_high rn) + LL_low rh) in
  let rh := LL_make (u32 c) (LL_high rh) in
  let rh := LL_make (LL_low rh) (u32 (LL_high rh + u32 (c .>> 32))) in
  (rl, rh).

Definition mulu64 (a b : Z) : Z * Z := mul64 a b.

(** [a] and [b] are [int64_t]. *)
Definition muls64 (a b : Z) : Z * Z :=
  let '(plow, rh) := mul64 (u64 a) (u64 b) in
  let rh := if b <? 0 then u64 (rh - u64 a) else rh in
  let rh := if a <? 0 then u64 (rh - u64 b) else rh in
  (plow, rh).

(** One round of the loop of [divu128] on [(dhi, dlo)]. *)
Definition divu128_step (divisor : Z) (d : Z * Z) : Z * Z :=
  let '(dhi, dlo) := d in
  let carry := dhi .>> 63 in
  let dhi := u64 (dhi .<< 1) .| (dlo .>> 63) in
  let '(dhi, carry) :=
    if truthy carry || (dhi >=? divisor) then (u64 (dhi - divisor), 1) else (dhi, 0) in
  (dhi, u64 (dlo .<< 1) .| carry).

(** The return value, then [*plow] and [*phigh]. *)
Definition divu128 (plow phigh divisor : Z) : Z * (Z * Z) :=
  let dhi := phigh in
  let dlo := plow in
  if divisor =? 0 then (1, (plow, phigh))
  else if dhi =? 0 then (0, (dlo / divisor, dlo mod divisor))
  else if dhi >? divisor then (1, (plow, phigh))
  else
    let '(dhi, dlo) := Nat.iter 64 (divu128_step divisor) (dhi, dlo) in
    (0, (dlo, dhi)).

(** On [int64_t]; the additions and negations are taken modulo [2^64]. *)
Definition divs128 (plow phigh divisor : Z) : Z * (Z * Z) :=
  let sgn_dvdnd := phigh <? 0 in
  let sgn_divsr := divisor <? 0 in
  let '(plow, phigh) :=
    if sgn_dvdnd then
      let plow := Z.lnot plow in
      let phigh := Z.lnot phigh in
      if plow =? -1 then (0, s64 (phigh + 1)) else (s64 (plow + 1), phigh)
    else (plow, phigh) in
  let divisor := if sgn_divsr then s64 (0 - divisor) else divisor in
  let '(overflow, (plow, phigh)) := divu128 (u64 plow) (u64 phigh) (u64 divisor) in
  let plow := s64 plow in
  let phigh := s64 phigh in
  let plow := if xorb sgn_dvdnd sgn_divsr then s64 (0 - plow) else plow in
  let overflow :=
    if negb (truthy overflow) then
      if xorb (plow <? 0) (xorb sgn_dvdnd sgn_divsr) then 1 else overflow
    else overflow in
  (overflow, (plow, phigh)).

(** [None] is the division by zero, which C leaves undefined. *)
Definition muldiv64 (a b c : Z) : option Z :=
  let rl := u64 (LL_low a * b) in
  let rh := u64 (LL_high a * b) in
  let rh := u64 (rh + (rl .>> 32)) in
  if c =? 0 then None
  else
    let high := u32 (rh / c) in
    let low := u32 (u64 (u64 ((rh mod c) .<< 32) + (rl .& 0xffffffff)) / c) in
    Some (LL_make low high).

(** ** Lemmas *)

Lemma LL_split a : inU 64 a -> a = LL_low a + LL_high a * 2 ^ 32.
Proof. intros; unfold LL_low, LL_high; rewrite Z.shiftr_div_pow2 by lia; cint. Qed.

Lemma LL_make_add low high : inU 32 low -> LL_make low high = low + high * 2 ^ 32.
Proof. intros; now apply lor_shiftl_add. Qed.

Lemma LL_low_range a : inU 32 (LL_low a).
Proof. apply wrap_range; lia. Qed.

Lemma LL_high_range a : inU 32 (LL_high a).
Proof. apply wrap_range; lia. Qed.

Lemma mul_range32 x y : inU 32 x -> inU 32 y -> 0 <= x * y <= (2 ^ 32 - 1) * (2 ^ 32 - 1).
Proof. unfold inU; nia. Qed.

(** Schoolbook multiplication on the words of the partial products. *)
Lemma mul64_words rl rm rn rh :
  let m := (2 ^ 32 - 1) * (2 ^ 32 - 1) in
  0 <= rl <= m -> 0 <= rm <= m -> 0 <= rn <= m -> 0 <= rh <= m ->
  rl + (rm + rn) * 2 ^ 32 + rh * 2 ^ 64 < 2 ^ 128 ->
  let c := u64 (u64 (LL_high rl + LL_low rm) + LL_low rn) in
  let plow := LL_make (LL_low rl) (u32 c) in
  let c := u64 (u64 (u64 ((c .>> 32) + LL_high rm) + LL_high rn) + LL_low rh) in
  let rh' := LL_make (u32 c) (LL_high rh) in
  let phigh := LL_make (LL_low rh') (u32 (LL_high rh' + u32 (c .>> 32))) in
  inU 64 plow /\ inU 64 phigh /\
  plow + phigh * 2 ^ 64 = rl + (rm + rn) * 2 ^ 32 + rh * 2 ^ 64.
Proof.
  intros m Hl Hm Hn Hh B c plow c' rh' phigh; subst plow phigh.
  assert (R : LL_low rh' = u32 c' /\ LL_high rh' = LL_high rh).
  { subst rh'; rewrite LL_make_add by (apply wrap_range; lia); unfold LL_low, LL_high.
    pose proof (wrap_range 32 c' ltac:(lia)); pose proof (LL_high_range rh).
    rewrite !Z.shiftr_div_pow2 by lia; unfold LL_high, inU in *; split; cint. }
  destruct R as [-> ->]; rewrite !LL_make_add by (apply wrap_range; lia); subst c' c.
  unfold LL_low, LL_high; rewrite !Z.shiftr_div_pow2 by lia; subst m; splits; cint.
Qed.

Lemma mul64_ok a b :
  inU 64 a -> inU 64 b ->
  inU 64 (fst (mul64 a b)) /\ inU 64 (snd (mul64 a b)) /\
  fst (mul64 a b) + snd (mul64 a b) * 2 ^ 64 = a * b.
Proof.
  intros Ha Hb.
  pose proof (LL_low_range a) as A0; pose proof (LL_high_range a) as A1.
  pose proof (LL_low_range b) as B0; pose proof (LL_high_range b) as B1.
  assert (B : a * b < 2 ^ 128) by (unfold inU in *; nia).
  assert (E : a * b = LL_low a * LL_low b + (LL_low a * LL_high b + LL_high a * LL_low b) * 2 ^ 32
                      + LL_high a * LL_high b * 2 ^ 64)
    by (rewrite (LL_split a Ha), (LL_split b Hb) at 1; ring).
  rewrite E in B |- *; unfold mul64; cbn [fst snd].
  pose proof (mul_range32 _ _ A0 B0); pose proof (mul_range32 _ _ A0 B1).
  pose proof (mul_range32 _ _ A1 B0); pose proof (mul_range32 _ _ A1 B1).
  rewrite !(wrap_id 64 (_ * _)) by (unfold inU in *; lia).
  apply mul64_words; assumption.
Qed.

(** One round, as arithmetic. *)
Lemma divu128_step_eq D h l :
  0 < D < 2 ^ 64 -> inU 64 h -> inU 64 l ->
  divu128_step D (h, l) =
    if (2 ^ 63 <=? h) || (D <=? u64 (2 * h) + l / 2 ^ 63)
    then (u64 (u64 (2 * h) + l / 2 ^ 63 - D), u64 (2 * l) + 1) else (u64 (2 * h) + l / 2 ^ 63, u64 (2 * l) + 0).
Proof.
  intros HD Hh Hl; unfold divu128_step.
  assert (T : 0 <= l / 2 ^ 63 <= 1) by cint.
  assert (O : forall v c, 0 <= c <= 1 -> u64 (v .<< 1) .| c = u64 (2 * v) + c).
  { intros v c Hc; rewrite Z.shiftl_mul_pow2, Z.mul_comm by lia; change (2 ^ 1) with 2.
    replace (u64 (2 * v)) with (wrap 63 v .<< 1)
      by (rewrite Z.shiftl_mul_pow2 by lia; cint).
    rewrite Z.lor_comm, lor_shiftl_add by (unfold inU; lia); rewrite Z.shiftl_mul_pow2 by lia; lia. }
  rewrite (Z.shiftr_div_pow2 l), O by lia; cbv zeta.
  assert (C : truthy (h .>> 63) = (2 ^ 63 <=? h))
    by (unfold truthy; rewrite Z.shiftr_div_pow2 by lia; cases).
  rewrite C, Z.geb_leb; destruct ((2 ^ 63 <=? h) || (D <=? u64 (2 * h) + l / 2 ^ 63)); now rewrite O by lia.
Qed.

(** One round brings down the top bit of [dlo] and produces one quotient bit. *)
Lemma divu128_step_ok D h l :
  0 < D < 2 ^ 64 -> 0 <= h < D -> inU 64 l ->
  exists b h', divu128_step D (h, l) = (h', u64 (2 * l) + b) /\
    0 <= b <= 1 /\ 0 <= h' < D /\ 2 * h + l / 2 ^ 63 = b * D + h'.
Proof.
  intros HD Hh Hl; assert (T : 0 <= l / 2 ^ 63 <= 1) by cint; rewrite divu128_step_eq by (auto; unfold inU; lia).
  destruct ((2 ^ 63 <=? h) || (D <=? u64 (2 * h) + l / 2 ^ 63)) eqn:E; eexists; eexists; (split; [reflexivity|]).
  - apply orb_true_iff in E; rewrite !Z.leb_le in E; splits; try lia; cint.
  - apply orb_false_iff in E; rewrite !Z.leb_gt in E; splits; try lia; cint.
Qed.

(** From [dhi] at or above the divisor every quotient bit is 1. *)
Lemma divu128_step_above D h l :
  0 < D < 2 ^ 64 -> D <= h -> 2 * h + l / 2 ^ 63 - D < 2 ^ 64 -> inU 64 l ->
  divu128_step D (h, l) = (2 * h + l / 2 ^ 63 - D, u64 (2 * l) + 1).
Proof.
  intros HD Hh B Hl; assert (T : 0 <= l / 2 ^ 63 <= 1) by cint; rewrite divu128_step_eq by (auto; unfold inU; lia).
  destruct ((2 ^ 63 <=? h) || (D <=? u64 (2 * h) + l / 2 ^ 63)) eqn:E; [f_equal; cint|].
  apply orb_false_iff in E; rewrite !Z.leb_gt in E; unfold wrap in E; rewrite Z.mod_small in E; lia.
Qed.

Lemma divu128_iter_above D l i :
  0 < D -> inU 64 l -> D + l < 2 ^ 64 -> (i <= 64)%nat ->
  let P := 2 ^ (64 - Z.of_nat i) in let Q := 2 ^ Z.of_nat i in
  Nat.iter i (divu128_step D) (D, l) = (D + l / P, (l mod P) * Q + (Q - 1)).
Proof.
  intros HD Hl B; induction i as [|i IH]; intros Hi P Q.
  - subst P Q; cbn [Nat.iter nat_rect]; simpl Z.of_nat; change (64 - 0) with 64; unfold inU in Hl.
    rewrite Z.div_small, Z.mod_small by lia; f_equal; lia.
  - change (Nat.iter (S i) ?f ?x) with (f (Nat.iter i f x)); rewrite IH by lia.
    assert (EP : 2 ^ (64 - Z.of_nat i) = 2 * P) by (subst P; rewrite <- Z.pow_succ_r by lia; f_equal; lia).
    assert (EQ : Q = 2 * 2 ^ Z.of_nat i) by (subst Q; rewrite <- Z.pow_succ_r by lia; f_equal; lia).
    set (Q0 := 2 ^ Z.of_nat i) in *; assert (0 < Q0) by (subst Q0; apply pow2_pos; lia).
    assert (PQ : P * Q0 = 2 ^ 63) by (subst P Q0; rewrite <- Z.pow_add_r by lia; f_equal; lia).
    assert (0 < P) by (subst P; apply pow2_pos; lia); rewrite EP; clearbody P Q Q0; subst Q; unfold inU in Hl.
    pose proof (Z.div_mod l (2 * P) ltac:(lia)) as D1; pose proof (Z.mod_pos_bound l (2 * P) ltac:(lia)) as M1.
    set (a := l / (2 * P)) in *; set (r := l mod (2 * P)) in *.
    pose proof (Z.div_mod r P ltac:(lia)) as D2; pose proof (Z.mod_pos_bound r P ltac:(lia)) as M2.
    set (t := r / P) in *; set (r' := r mod P) in *.
    assert (T : 0 <= t <= 1) by (subst t; split; [apply Z.div_pos; lia|apply Z.lt_succ_r, Z.div_lt_upper_bound; lia]).
    assert (El : l / P = 2 * a + t) by (symmetry; apply Z.div_unique with r'; [left; lia|nia]).
    assert (Em : l mod P = r') by (symmetry; apply Z.mod_unique with (2 * a + t); [left; lia|nia]).
    assert (Et : (r * Q0 + (Q0 - 1)) / 2 ^ 63 = t) by (symmetry; apply Z.div_unique with (r' * Q0 + (Q0 - 1)); [left; nia|nia]).
    assert (La : 2 * a + t <= l) by (rewrite <- El; apply Z.div_le_upper_bound; nia).
    assert (0 <= a) by (subst a; apply Z.div_pos; lia).
    rewrite divu128_step_above; rewrite ?Et; try lia; [|unfold inU; change (2 ^ 64) with (2 * 2 ^ 63); nia].
    rewrite El, Em; f_equal; [lia|].
    replace (2 * (r * Q0 + (Q0 - 1))) with (2 * (r' * Q0 + (Q0 - 1)) + t * 2 ^ 64)
      by (change (2 ^ 64) with (2 * 2 ^ 63); rewrite <- PQ, D2; ring).
    unfold wrap; rewrite Z.mod_add, Z.mod_small by (change (2 ^ 64) with (2 * 2 ^ 63); nia); lia.
Qed.

(** After [i] rounds: [lh] are the bits of [dlo] brought down, [ll] the others. *)
Lemma divu128_iter_ok D h l i :
  0 < D < 2 ^ 64 -> 0 <= h < D -> inU 64 l -> (i <= 64)%nat ->
  let P := 2 ^ (64 - Z.of_nat i) in let Q := 2 ^ Z.of_nat i in
  exists q ll lh h',
    Nat.iter i (divu128_step D) (h, l) = (h', ll * Q + q) /\
    l = lh * P + ll /\ 0 <= ll < P /\ 0 <= q < Q /\ 0 <= h' < D /\ h * Q + lh = q * D + h'.
Proof.
  intros HD Hh Hl; induction i as [|i IH]; intros Hi P Q.
  - exists 0, l, 0, h; subst P Q; unfold inU in Hl; cbn [Nat.iter nat_rect]; simpl Z.of_nat.
    change (64 - 0) with 64; splits; try (lia || (f_equal; lia)).
  - destruct IH as (q & ll & lh & h' & E & El & Hll & Hq & Hh' & EQ); [lia|].
    assert (EP : 2 ^ (64 - Z.of_nat i) = 2 * P)
      by (subst P; rewrite <- Z.pow_succ_r by lia; f_equal; lia).
    assert (EQ' : Q = 2 * 2 ^ Z.of_nat i) by (subst Q; rewrite <- Z.pow_succ_r by lia; f_equal; lia).
    set (Q0 := 2 ^ Z.of_nat i) in *.
    assert (PQ : P * Q0 = 2 ^ 63) by (subst P Q0; rewrite <- Z.pow_add_r by lia; f_equal; lia).
    assert (0 < P) by (subst P; apply pow2_pos; lia); rewrite EP in *; clearbody P Q Q0; subst Q.
    assert (L : inU 64 (ll * Q0 + q)) by (unfold inU; change (2 ^ 64) with (2 * 2 ^ 63); nia).
    destruct (divu128_step_ok D h' (ll * Q0 + q) HD Hh' L) as (b & h'' & St & Hb & Hh'' & ES).
    set (t := ll / P); assert (Ht : ll = P * t + ll mod P) by (apply Z.div_mod; lia).
    pose proof (Z.mod_pos_bound ll P ltac:(lia)) as Hm; set (ll' := ll mod P) in *.
    assert (T01 : 0 <= t <= 1) by (subst t; split; [apply Z.div_pos; lia|];
      apply Z.lt_succ_r, Z.div_lt_upper_bound; lia).
    assert (ET : (ll * Q0 + q) / 2 ^ 63 = t)
      by (symmetry; apply Z.div_unique with (ll' * Q0 + q); [left; nia|nia]).
    exists (2 * q + b), ll', (2 * lh + t), h''; change (Nat.iter (S i) ?f ?x) with (f (Nat.iter i f x)).
    rewrite E, St; splits; try lia; f_equal.
    replace (2 * (ll * Q0 + q)) with (2 * (ll' * Q0 + q) + t * 2 ^ 64)
        by (change (2 ^ 64) with (2 * 2 ^ 63); rewrite <- PQ, Ht; ring).
    assert (B : ll' * Q0 + q < P * Q0) by nia.
    unfold wrap; rewrite Z.mod_add, Z.mod_small by (change (2 ^ 64) with (2 * 2 ^ 63); nia); lia.
Qed.

Lemma divu128_loop_ok D h l :
  0 < D < 2 ^ 64 -> 0 <= h < D -> inU 64 l ->
  Nat.iter 64 (divu128_step D) (h, l) =
    ((h * 2 ^ 64 + l) mod D, (h * 2 ^ 64 + l) / D).
Proof.
  intros HD Hh Hl.
  destruct (divu128_iter_ok D h l 64 HD Hh Hl (le_n 64)) as (q & ll & lh & h' & E & El & Hll & Hq & Hh' & EQ).
  rewrite E; change (64 - Z.of_nat 64) with 0 in *; change (Z.of_nat 64) with 64 in *.
  rewrite Z.pow_0_r in *; assert (ll = 0) as -> by lia; assert (lh = l) as -> by lia.
  f_equal; [apply Z.mod_unique with q|apply Z.div_unique with h']; lia.
Qed.

Lemma divu128_ok plow phigh D :
  inU 64 plow -> 0 < D < 2 ^ 64 -> 0 <= phigh < D ->
  let N := phigh * 2 ^ 64 + plow in
  divu128 plow phigh D = (0, (N / D, N mod D)).
Proof.
  intros Hl HD Hh N; unfold divu128; cbv zeta.
  destruct (Z.eqb_spec D 0); [lia|]; destruct (Z.eqb_spec phigh 0) as [->|]; [reflexivity|].
  rewrite Z.gtb_ltb; destruct (Z.ltb_spec D phigh); [lia|]; now rewrite divu128_loop_ok.
Qed.

(** ** Correctness *)

(** Mulu64 and muls64 return the low and high word of the exact 128-bit product, built
    from 32-bit halves without losing a carry. *)
Theorem mul64_exact a b :
  (inU 64 a -> inU 64 b ->
   inU 64 (fst (mulu64 a b)) /\ inU 64 (snd (mulu64 a b)) /\
   fst (mulu64 a b) + snd (mulu64 a b) * 2 ^ 64 = a * b) /\
  (inS 64 a -> inS 64 b ->
   inU 64 (fst (muls64 a b)) /\ inU 64 (snd (muls64 a b)) /\
   fst (muls64 a b) + s64 (snd (muls64 a b)) * 2 ^ 64 = a * b).
Proof.
  split; [apply mul64_ok|]; intros Ha Hb; unfold muls64.
  pose proof (mul64_ok (u64 a) (u64 b) (wrap_range 64 a ltac:(lia)) (wrap_range 64 b ltac:(lia))) as H.
  destruct (mul64 (u64 a) (u64 b)) as [l h]; cbn [fst snd] in *; destruct H as (Hl & Hh & E).
  split; [assumption|].
  assert (Ea : u64 a = a + (if a <? 0 then 2 ^ 64 else 0)) by cases.
  assert (Eb : u64 b = b + (if b <? 0 then 2 ^ 64 else 0)) by cases.
  assert (R : - 2 ^ 126 <= a * b <= 2 ^ 126) by (unfold inS in *; nia).
  assert (H' : l + (h - (if b <? 0 then a else 0) - (if a <? 0 then b else 0)
                    - (if (a <? 0) && (b <? 0) then 2 ^ 64 else 0)) * 2 ^ 64 = a * b)
    by (rewrite Ea, Eb in E; destruct (a <? 0), (b <? 0); cbn [andb]; lia).
  split; [destruct (a <? 0), (b <? 0); auto with crange|].
  set (x := h - _ - _ - _) in H'.
  replace (s64 _) with (s64 x).
  - rewrite swrap_id; [exact H'|lia|]; unfold inS, inU in *; lia.
  - apply swrap_eq_wrap; [lia|]; subst x; rewrite Ea, Eb; destruct (a <? 0), (b <? 0); cbn [andb]; cint.
Qed.

Lemma mul64_exact_witness :
  fst (mulu64 (2 ^ 64 - 1) (2 ^ 64 - 1)) + snd (mulu64 (2 ^ 64 - 1) (2 ^ 64 - 1)) * 2 ^ 64 =
    (2 ^ 64 - 1) * (2 ^ 64 - 1) /\
  fst (muls64 (- 2 ^ 63) 3) + s64 (snd (muls64 (- 2 ^ 63) 3)) * 2 ^ 64 = - 2 ^ 63 * 3.
Proof.
  split.
  - apply (mul64_exact (2 ^ 64 - 1) (2 ^ 64 - 1)); unfold inU; lia.
  - apply (mul64_exact (- 2 ^ 63) 3); unfold inS; lia.
Defined.

(** Muldiv64 computes a*b/c with a 96-bit intermediate product, exactly modulo 2^64; a
    zero divisor is undefined. *)
Theorem muldiv64_exact a b c :
  inU 64 a -> inU 32 b -> inU 32 c ->
  muldiv64 a b c = if c =? 0 then None else Some (u64 (a * b / c)).
Proof.
  intros Ha Hb Hc; unfold muldiv64; destruct (Z.eqb_spec c 0); [reflexivity|]; f_equal.
  pose proof (LL_low_range a) as A0; pose proof (LL_high_range a) as A1.
  assert (E : a * b = LL_low a * b + LL_high a * b * 2 ^ 32)
    by (rewrite (LL_split a Ha) at 1; ring).
  pose proof (mul_range32 _ _ A0 Hb) as L; pose proof (mul_range32 _ _ A1 Hb) as H.
  rewrite E; clear E; generalize dependent (LL_low a * b); generalize dependent (LL_high a * b).
  clear a b Ha Hb A0 A1; intros rh H rl L; change 0xffffffff with (Z.ones 32).
  rewrite (wrap_id 64 rl), (wrap_id 64 rh), Z.land_ones, Z.shiftr_div_pow2 by (unfold inU; lia).
  assert (S : 0 <= rh + rl / 2 ^ 32 < 2 ^ 64) by (Z.to_euclidean_division_equations; lia).
  rewrite (wrap_id 64 (rh + _)) by exact S.
  pose proof (Z.mod_pos_bound rl (2 ^ 32) ltac:(lia)) as Hlo.
  replace (rl + rh * 2 ^ 32) with ((rh + rl / 2 ^ 32) * 2 ^ 32 + rl mod 2 ^ 32)
    by (pose proof (Z.div_mod rl (2 ^ 32)); lia).
  set (r := rh + rl / 2 ^ 32) in *; set (lo := rl mod 2 ^ 32) in *; clearbody r lo; clear rh H rl L.
  pose proof (Z.mod_pos_bound r c ltac:(unfold inU in Hc; lia)) as Hm.
  pose proof (Z.div_mod r c ltac:(lia)) as Hr.
  assert (Q0 : 0 <= ((r mod c) * 2 ^ 32 + lo) / c < 2 ^ 32).
  { split; [apply Z.div_pos; unfold inU in *; lia|apply Z.div_lt_upper_bound; unfold inU in *; lia]. }
  replace (r * 2 ^ 32 + lo) with (r / c * 2 ^ 32 * c + ((r mod c) * 2 ^ 32 + lo)) by lia.
  rewrite Z.div_add_l, Z.shiftl_mul_pow2 by lia.
  rewrite (wrap_id 64 ((r mod c) * 2 ^ 32)), (wrap_id 64 (_ + lo)) by (unfold inU in *; lia).
  rewrite (wrap_id 32 (_ / c)), LL_make_add by exact Q0.
  generalize dependent (((r mod c) * 2 ^ 32 + lo) / c); intros q Hq.
  assert (0 <= r / c) by (apply Z.div_pos; unfold inU in *; lia).
  generalize dependent (r / c); intros; cint.
Qed.

Lemma muldiv64_exact_witness :
  muldiv64 (2 ^ 64 - 1) 1000 7 = Some (u64 ((2 ^ 64 - 1) * 1000 / 7)).
Proof. apply (muldiv64_exact (2 ^ 64 - 1) 1000 7); unfold inU; lia. Defined.

(** Divu128 divides a 128-bit number: a zero divisor and a high word above the divisor
    are reported with flag 1 and nothing is changed, a high word below the divisor gives
    flag 0 with the exact quotient and remainder; a high word equal to the divisor gives
    flag 0 although the quotient takes 65 bits. *)
Theorem divu128_exact plow phigh divisor :
  inU 64 plow -> inU 64 phigh -> inU 64 divisor ->
  let N := phigh * 2 ^ 64 + plow in
  (divisor = 0 -> divu128 plow phigh divisor = (1, (plow, phigh))) /\
  (phigh < divisor -> divu128 plow phigh divisor = (0, (N / divisor, N mod divisor))) /\
  (0 < divisor < phigh -> divu128 plow phigh divisor = (1, (plow, phigh)) /\ 2 ^ 64 <= N / divisor) /\
  (0 < divisor -> phigh = divisor -> 2 ^ 64 <= N / divisor /\ fst (divu128 plow phigh divisor) = 0 /\
     (divisor + plow < 2 ^ 64 -> snd (divu128 plow phigh divisor) = (2 ^ 64 - 1, divisor + plow))).
Proof.
  intros Hl Hh HD N; splits.
  - intros ->; reflexivity.
  - intros; apply divu128_ok; [assumption|unfold inU in *; lia..].
  - intros [H0 H1]; unfold divu128; cbv zeta; rewrite Z.gtb_ltb.
    destruct (Z.eqb_spec divisor 0); [lia|]; destruct (Z.eqb_spec phigh 0); [lia|].
    destruct (Z.ltb_spec divisor phigh); [|lia]; split; [reflexivity|].
    apply Z.div_le_lower_bound; [lia|]; subst N; unfold inU in *; nia.
  - intros H0 ->; unfold divu128; cbv zeta; rewrite Z.gtb_ltb, Z.ltb_irrefl.
    destruct (Z.eqb_spec divisor 0); [lia|]; splits.
    + apply Z.div_le_lower_bound; [lia|]; subst N; unfold inU in *; nia.
    + now destruct (Nat.iter 64 _ _).
    + intros B; rewrite divu128_iter_above by (auto; lia); cbn [fst snd Z.of_nat Pos.of_succ_nat Z.sub].
      change (2 ^ (64 - Z.of_nat 64)) with 1; change (2 ^ Z.of_nat 64) with (2 ^ 64); rewrite Z.div_1_r, Z.mod_1_r; reflexivity.
Qed.

(** Also 2^64 divided by 1: the quotient needs 65 bits, and no overflow is reported. *)
Lemma divu128_exact_witness :
  divu128 5 3 7 = (0, ((3 * 2 ^ 64 + 5) / 7, (3 * 2 ^ 64 + 5) mod 7)) /\ fst (divu128 0 1 1) = 0.
Proof. split; [apply (divu128_exact 5 3 7)|apply (divu128_exact 0 1 1)]; unfold inU; lia. Defined.

(** ** Signed division *)

(** The dividend as a 128-bit signed number, and its magnitude as the code
    computes it. *)
Definition int128 (plow phigh : Z) : Z := phigh * 2 ^ 64 + u64 plow.

Lemma divs128_magnitude plow phigh :
  inS 64 plow -> inS 64 phigh ->
  let '(l, h) :=
    if phigh <? 0 then
      let plow := Z.lnot plow in
      let phigh := Z.lnot phigh in
      if plow =? -1 then (0, s64 (phigh + 1)) else (s64 (plow + 1), phigh)
    else (plow, phigh) in
  u64 h * 2 ^ 64 + u64 l = Z.abs (int128 plow phigh).
Proof. intros Hl Hh; unfold int128, Z.lnot; cbv zeta; cases. Qed.

Lemma divs128_divisor D :
  inS 64 D -> u64 (if D <? 0 then s64 (0 - D) else D) = Z.abs D.
Proof. intros; cases. Qed.

Lemma quot_signs N D :
  D <> 0 -> Z.quot N D = if xorb (N <? 0) (D <? 0) then - (Z.abs N / Z.abs D) else Z.abs N / Z.abs D.
Proof.
  intros; rewrite Z.quot_div by assumption.
  destruct (Z.ltb_spec N 0), (Z.ltb_spec D 0); cbn [xorb];
    rewrite ?(Z.sgn_neg N), ?(Z.sgn_neg D), ?(Z.sgn_pos D) by lia; try lia.
  - destruct (Z.eq_dec N 0) as [->|]; [|rewrite Z.sgn_pos; lia]; rewrite Z.div_0_l; lia.
  - destruct (Z.eq_dec N 0) as [->|]; [|rewrite Z.sgn_pos; lia]; rewrite Z.div_0_l; lia.
Qed.

(** Divs128, where the quotient of the absolute values fits 64 bits, returns the
    truncated quotient modulo 2^64 and the remainder of the absolute values; the flag is
    0 exactly when the quotient fits 64 bits signed and is not a zero quotient of
    operands of different signs. *)
Theorem divs128_exact plow phigh divisor :
  inS 64 plow -> inS 64 phigh -> inS 64 divisor -> divisor <> 0 ->
  let N := int128 plow phigh in
  let Q := Z.quot N divisor in
  Z.abs N < Z.abs divisor * 2 ^ 64 ->
  divs128 plow phigh divisor =
    ((if (- 2 ^ 63 <=? Q) && (Q <? 2 ^ 63) && negb ((Q =? 0) && xorb (N <? 0) (divisor <? 0)) then 0 else 1),
     (s64 Q, s64 (Z.abs N mod Z.abs divisor))).
Proof.
  intros Hl Hh HD Hnz N Q B; unfold divs128.
  assert (Sg : (phigh <? 0) = (N <? 0)).
  { pose proof (wrap_range 64 plow ltac:(lia)); subst N; unfold int128; unfold inU in *.
    destruct (Z.ltb_spec phigh 0), (Z.ltb_spec (phigh * 2 ^ 64 + u64 plow) 0); lia || reflexivity. }
  pose proof (divs128_magnitude plow phigh Hl Hh) as M; fold N in M.
  rewrite !(divs128_divisor divisor) by assumption; rewrite Sg in *.
  destruct (if N <? 0 then _ else (plow, phigh)) as [l h].
  pose proof (wrap_range 64 l ltac:(lia)) as L; pose proof (wrap_range 64 h ltac:(lia)) as H.
  rewrite divu128_ok; [|assumption|unfold inS in *; lia|unfold inU in *; lia].
  rewrite M; subst Q; rewrite quot_signs in * by assumption.
  assert (Q0 : 0 <= Z.abs N / Z.abs divisor < 2 ^ 64)
    by (split; [apply Z.div_pos; lia|apply Z.div_lt_upper_bound; lia]).
  cbn [truthy negb Z.eqb]; destruct (xorb (N <? 0) (divisor <? 0));
    generalize dependent (Z.abs N / Z.abs divisor); intros q Hq; repeat apply (f_equal2 pair); try reflexivity; cases.
Qed.

(** A quotient of zero of numbers of different signs is reported as overflow. *)
Lemma divs128_exact_witness : divs128 (-7) (-1) 2 = (0, (-3, 1)) /\ divs128 1 0 (-2) = (1, (0, 1)).
Proof.
  split; [apply (divs128_exact (-7) (-1) 2)|apply (divs128_exact 1 0 (-2))]; try (unfold inS; lia); try lia; vm_compute; reflexivity.
Defined.
