(* ===== verification/TcgIr.v ===== *)
(** * The TCG intermediate representation and its meaning

    Opcodes and their table (tcg/tcg-opc.h), conditions and memory operations
    (tcg/tcg.h), operations with their argument arrays, and the meaning that
    tcg/README gives to them.  The host is the 32-bit ARM of the build
    ([TCG_TARGET_REG_BITS == 32]): the opcodes flagged [IMPL64] are not present
    on it and are left out; a temporary holds 32 bits.

    What an operation does outside the temporaries (host memory, guest memory,
    helpers, translation-block chaining) is the interface [TcgHost]. *)

From Stdlib Require Import ZArith Lia List Bool.
From S2P Require Import Prelude Bitops.
Import ListNotations.
Local Open Scope Z_scope.
Local Open Scope c_scope.

(** ** Opcodes *)

Inductive TCGOpcode :=
| discard | set_label | call | br
| mov_i32 | movi_i32 | setcond_i32 | movcond_i32
| ld8u_i32 | ld8s_i32 | ld16u_i32 | ld16s_i32 | ld_i32 | st8_i32 | st16_i32 | st_i32
| add_i32 | sub_i32 | mul_i32 | div_i32 | divu_i32 | rem_i32 | remu_i32 | div2_i32 | divu2_i32
| and_i32 | or_i32 | xor_i32
| shl_i32 | shr_i32 | sar_i32 | rotl_i32 | rotr_i32 | deposit_i32
| brcond_i32 | add2_i32 | sub2_i32 | mulu2_i32 | muls2_i32 | muluh_i32 | mulsh_i32
| brcond2_i32 | setcond2_i32
| ext8s_i32 | ext16s_i32 | ext8u_i32 | ext16u_i32 | bswap16_i32 | bswap32_i32
| not_i32 | neg_i32 | andc_i32 | orc_i32 | eqv_i32 | nand_i32 | nor_i32
| insn_start | exit_tb | goto_tb
| qemu_ld_i32 | qemu_st_i32 | qemu_ld_i64 | qemu_st_i64.

(** The flags of [TCGOpDef] that the optimizer reads. *)
Record TCGOpDef := mkDef {
  nb_oargs : nat; nb_iargs : nat; nb_cargs : nat; BB_END : bool; OPF_64BIT : bool
}.

(** tcg/tcg-opc.h, with [TLADDR_ARGS] = 1 and [DATA64_ARGS] = 2. *)
Definition tcg_op_defs (opc : TCGOpcode) : TCGOpDef :=
  match opc with
  | discard => mkDef 1 0 0 false false
  | set_label => mkDef 0 0 1 true false
  | call => mkDef 0 0 3 false false
  | br => mkDef 0 0 1 true false
  | mov_i32 => mkDef 1 1 0 false false
  | movi_i32 => mkDef 1 0 1 false false
  | setcond_i32 => mkDef 1 2 1 false false
  | movcond_i32 => mkDef 1 4 1 false false
  | ld8u_i32 | ld8s_i32 | ld16u_i32 | ld16s_i32 | ld_i32 => mkDef 1 1 1 false false
  | st8_i32 | st16_i32 | st_i32 => mkDef 0 2 1 false false
  | add_i32 | sub_i32 | mul_i32 | div_i32 | divu_i32 | rem_i32 | remu_i32 => mkDef 1 2 0 false false
  | div2_i32 | divu2_i32 => mkDef 2 3 0 false false
  | and_i32 | or_i32 | xor_i32 => mkDef 1 2 0 false false
  | shl_i32 | shr_i32 | sar_i32 | rotl_i32 | rotr_i32 => mkDef 1 2 0 false false
  | deposit_i32 => mkDef 1 2 2 false false
  | brcond_i32 => mkDef 0 2 2 true false
  | add2_i32 | sub2_i32 => mkDef 2 4 0 false false
  | mulu2_i32 | muls2_i32 => mkDef 2 2 0 false false
  | muluh_i32 | mulsh_i32 => mkDef 1 2 0 false false
  | brcond2_i32 => mkDef 0 4 2 true false
  | setcond2_i32 => mkDef 1 4 1 false false
  | ext8s_i32 | ext16s_i32 | ext8u_i32 | ext16u_i32 => mkDef 1 1 0 false false
  | bswap16_i32 | bswap32_i32 | not_i32 | neg_i32 => mkDef 1 1 0 false false
  | andc_i32 | orc_i32 | eqv_i32 | nand_i32 | nor_i32 => mkDef 1 2 0 false false
  | insn_start => mkDef 0 0 3 false false
  | exit_tb | goto_tb => mkDef 0 0 1 true false
  | qemu_ld_i32 => mkDef 1 1 1 false false
  | qemu_st_i32 => mkDef 0 2 1 false false
  | qemu_ld_i64 => mkDef 2 1 1 false true
  | qemu_st_i64 => mkDef 0 3 1 false true
  end.

(** tcg/arm/tcg-target.h *)
Definition TCG_TARGET_HAS_neg_i32 : bool := true.
Definition TCG_TARGET_HAS_not_i32 : bool := true.

(** ** Conditions *)

Definition TCG_COND_NEVER : Z := 0.
Definition TCG_COND_ALWAYS : Z := 1.
Definition TCG_COND_EQ : Z := 8.
Definition TCG_COND_NE : Z := 9.
Definition TCG_COND_LT : Z := 2.
Definition TCG_COND_GE : Z := 3.
Definition TCG_COND_LE : Z := 10.
Definition TCG_COND_GT : Z := 11.
Definition TCG_COND_LTU : Z := 4.
Definition TCG_COND_GEU : Z := 5.
Definition TCG_COND_LEU : Z := 12.
Definition TCG_COND_GTU : Z := 13.

Definition tcg_invert_cond (c : Z) : Z := c .^ 1.
Definition tcg_swap_cond (c : Z) : Z := if truthy (c .& 6) then c .^ 9 else c.

(** The conditions a comparison may carry. *)
Definition comparison (c : Z) : bool :=
  existsb (Z.eqb c)
    [TCG_COND_EQ; TCG_COND_NE; TCG_COND_LT; TCG_COND_GE; TCG_COND_LE; TCG_COND_GT;
     TCG_COND_LTU; TCG_COND_GEU; TCG_COND_LEU; TCG_COND_GTU].

(** [x cond y] for [w]-bit words; [None] when [c] is not a comparison. *)
Definition cond_holds (w c x y : Z) : option bool :=
  if c =? TCG_COND_EQ then Some (x =? y)
  else if c =? TCG_COND_NE then Some (negb (x =? y))
  else if c =? TCG_COND_LT then Some (swrap w x <? swrap w y)
  else if c =? TCG_COND_GE then Some (swrap w y <=? swrap w x)
  else if c =? TCG_COND_LE then Some (swrap w x <=? swrap w y)
  else if c =? TCG_COND_GT then Some (swrap w y <? swrap w x)
  else if c =? TCG_COND_LTU then Some (x <? y)
  else if c =? TCG_COND_GEU then Some (y <=? x)
  else if c =? TCG_COND_LEU then Some (x <=? y)
  else if c =? TCG_COND_GTU then Some (y <? x)
  else None.

(** ** Memory operations and calls *)

Definition MO_SIZE : Z := 3.
Definition MO_SIGN : Z := 4.
Definition get_memop (oi : Z) : Z := oi .>> 4.

Definition TCG_CALL_NO_READ_GLOBALS : Z := 0x10.
Definition TCG_CALL_NO_WRITE_GLOBALS : Z := 0x20.
Definition TCG_CALL_DUMMY_ARG : Z := 2 ^ 32 - 1.

(** ** Operations *)

(** [TCGOp] with the slice of [gen_opparam_buf] it owns; the counts [callo] and
    [calli] are those of a call.  Arguments beyond those of the opcode are
    left over from an earlier form of the operation. *)
Record TCGOp := mkOp { opc : TCGOpcode; callo : nat; calli : nat; args : list Z }.

Definition arg (op : TCGOp) (i : nat) : Z := nth i (args op) 0.

Definition n_oargs (op : TCGOp) : nat :=
  match opc op with call => callo op | o => nb_oargs (tcg_op_defs o) end.
Definition n_iargs (op : TCGOp) : nat :=
  match opc op with call => calli op | o => nb_iargs (tcg_op_defs o) end.
Definition n_cargs (op : TCGOp) : nat := nb_cargs (tcg_op_defs (opc op)).

Definition oargs (op : TCGOp) : list Z := firstn (n_oargs op) (args op).
Definition iargs (op : TCGOp) : list Z := firstn (n_iargs op) (skipn (n_oargs op) (args op)).
Definition cargs (op : TCGOp) : list Z :=
  firstn (n_cargs op) (skipn (n_oargs op + n_iargs op) (args op)).

(** ** Values *)

Definition un (f : Z -> Z) (i : list Z) : option (list Z) :=
  match i with [x] => Some [u32 (f x)] | _ => None end.

Definition bin (f : Z -> Z -> Z) (i : list Z) : option (list Z) :=
  match i with [x; y] => Some [u32 (f x y)] | _ => None end.

(** Shifts and rotations by 32 or more: tcg/README leaves their result open
    ("unspecified behavior", which shall not crash).  They count as undefined
    here, which is coarser: a block that reaches one is exempt. *)
Definition shift (f : Z -> Z -> Z) (i : list Z) : option (list Z) :=
  match i with [x; y] => if y <? 32 then Some [u32 (f x y)] else None | _ => None end.

(** Division by zero and overflow are undefined. *)
Definition sdiv (f : Z -> Z -> Z) (i : list Z) : option (list Z) :=
  match i with
  | [x; y] =>
      if (y =? 0) || ((s32 x =? - 2 ^ 31) && (s32 y =? -1)) then None
      else Some [u32 (f (s32 x) (s32 y))]
  | _ => None
  end.

Definition udiv (f : Z -> Z -> Z) (i : list Z) : option (list Z) :=
  match i with [x; y] => if y =? 0 then None else Some [u32 (f x y)] | _ => None end.

(** A double word from its low and high word, and back. *)
Definition dword (l h : Z) : Z := l + h * 2 ^ 32.
Definition words_of (d : Z) : list Z := [u32 d; u32 (d .>> 32)].

Definition bin2 (f : Z -> Z -> Z) (i : list Z) : option (list Z) :=
  match i with [al; ah; bl; bh] => Some (words_of (f (dword al ah) (dword bl bh))) | _ => None end.

Definition mul2 (f : Z -> Z -> Z) (i : list Z) : option (list Z) :=
  match i with [x; y] => Some (words_of (f x y)) | _ => None end.

Definition bswap16 (x : Z) : Z := u8 (x .>> 8) .| (u8 x .<< 8).
Definition bswap32 (x : Z) : Z :=
  u8 (x .>> 24) .| (u8 (x .>> 16) .<< 8) .| (u8 (x .>> 8) .<< 16) .| (u8 x .<< 24).

(** The outputs of an operation that only computes, from its inputs [i] and
    constants [c]; [None] is undefined behaviour. *)
Definition eval_pure (opc : TCGOpcode) (i c : list Z) : option (list Z) :=
  match opc with
  | mov_i32 => un (fun x => x) i
  | movi_i32 => match i, c with [], [v] => Some [u32 v] | _, _ => None end
  | setcond_i32 =>
      match i, c with
      | [x; y], [c] => option_map (fun b => [b2z b]) (cond_holds 32 c x y)
      | _, _ => None
      end
  | movcond_i32 =>
      match i, c with
      | [c1; c2; v1; v2], [c] =>
          option_map (fun b : bool => [if b then v1 else v2]) (cond_holds 32 c c1 c2)
      | _, _ => None
      end
  | add_i32 => bin Z.add i
  | sub_i32 => bin Z.sub i
  | mul_i32 => bin Z.mul i
  | div_i32 => sdiv Z.quot i
  | divu_i32 => udiv Z.div i
  | rem_i32 => sdiv Z.rem i
  | remu_i32 => udiv Z.modulo i
  | div2_i32 =>
      match i with
      | [l; h; d] =>
          let n := s64 (dword l h) in
          if (d =? 0) || negb (Z.quot n (s32 d) =? s32 (Z.quot n (s32 d))) then None
          else Some [u32 (Z.quot n (s32 d)); u32 (Z.rem n (s32 d))]
      | _ => None
      end
  | divu2_i32 =>
      match i with
      | [l; h; d] => if (d =? 0) || (d <=? h) then None
                     else Some [dword l h / d; dword l h mod d]
      | _ => None
      end
  | and_i32 => bin Z.land i
  | or_i32 => bin Z.lor i
  | xor_i32 => bin Z.lxor i
  | shl_i32 => shift Z.shiftl i
  | shr_i32 => shift Z.shiftr i
  | sar_i32 => shift (fun x y => s32 x .>> y) i
  | rotl_i32 => shift rol32 i
  | rotr_i32 => shift ror32 i
  | deposit_i32 =>
      match i, c with
      | [x; y], [pos; len] =>
          if (0 <=? pos) && (0 <? len) && (len <=? 32 - pos) then Some [deposit32 x pos len y] else None
      | _, _ => None
      end
  | add2_i32 => bin2 Z.add i
  | sub2_i32 => bin2 Z.sub i
  | mulu2_i32 => mul2 Z.mul i
  | muls2_i32 => mul2 (fun x y => s32 x * s32 y) i
  | muluh_i32 => bin (fun x y => (x * y) .>> 32) i
  | mulsh_i32 => bin (fun x y => (s32 x * s32 y) .>> 32) i
  | setcond2_i32 =>
      match i, c with
      | [al; ah; bl; bh], [c] =>
          option_map (fun b => [b2z b]) (cond_holds 64 c (dword al ah) (dword bl bh))
      | _, _ => None
      end
  | ext8s_i32 => un (fun x => s8 x) i
  | ext16s_i32 => un (fun x => s16 x) i
  | ext8u_i32 => un (fun x => u8 x) i
  | ext16u_i32 => un (fun x => u16 x) i
  | bswap16_i32 => match i with [x] => if x <? 2 ^ 16 then Some [bswap16 x] else None | _ => None end
  | bswap32_i32 => un bswap32 i
  | not_i32 => un Z.lnot i
  | neg_i32 => un Z.opp i
  | andc_i32 => bin (fun x y => x .& Z.lnot y) i
  | orc_i32 => bin (fun x y => x .| Z.lnot y) i
  | eqv_i32 => bin (fun x y => Z.lnot (x .^ y)) i
  | nand_i32 => bin (fun x y => Z.lnot (x .& y)) i
  | nor_i32 => bin (fun x y => Z.lnot (x .| y)) i
  | _ => None
  end.

(** Operations whose only effect is on their outputs. *)
Definition is_pure (opc : TCGOpcode) : bool :=
  match opc with
  | discard | set_label | call | br
  | ld8u_i32 | ld8s_i32 | ld16u_i32 | ld16s_i32 | ld_i32 | st8_i32 | st16_i32 | st_i32
  | brcond_i32 | brcond2_i32 | insn_start | exit_tb | goto_tb
  | qemu_ld_i32 | qemu_st_i32 | qemu_ld_i64 | qemu_st_i64 => false
  | _ => true
  end.

(** ** The temporaries *)

Definition store := list Z.

Definition rd (s : store) (t : Z) : Z := nth (Z.to_nat t) s 0.
Definition wr (s : store) (t v : Z) : store := upd s (Z.to_nat t) v.

Fixpoint wrs (s : store) (ts vs : list Z) : store :=
  match ts, vs with
  | t :: ts, v :: vs => wrs (wr s t v) ts vs
  | _, _ => s
  end.

(** ** The host

    [host_ld]/[host_st] access host memory that holds no global (tcg/README),
    [guest_ld]/[guest_st] guest memory, which may fault, [helper] runs a helper
    on the constants of the call (function and flags), its arguments and the
    globals; [None] is an exception that leaves the block.  [chained] tells
    whether [goto_tb n] has been patched, [stale] the value a discarded
    temporary is left with. *)
Class TcgHost (W : Type) (nb_globals : nat) := {
  host_ld : Z -> Z -> W -> Z;
  host_st : Z -> Z -> Z -> W -> W;
  guest_ld : Z -> Z -> W -> option (Z * W);
  guest_st : Z -> Z -> Z -> W -> option W;
  helper : list Z -> list Z -> list Z -> W -> option (list Z * list Z * W);
  chained : Z -> W -> bool;
  stale : Z -> W -> Z;
  (** A helper leaves well-formed globals. *)
  helper_globals : forall c i g w o g' w',
    length g = nb_globals -> Forall (inU 32) g ->
    helper c i g w = Some (o, g', w') -> length g' = nb_globals /\ Forall (inU 32) g';
  (** tcg.h: a helper with one of these flags does not write globals. *)
  helper_no_write : forall f fl r i g w o g' w',
    helper (f :: fl :: r) i g w = Some (o, g', w') ->
    truthy (fl .& (TCG_CALL_NO_READ_GLOBALS .| TCG_CALL_NO_WRITE_GLOBALS)) = true -> g' = g
}.

(** Why the block is left. *)
Inductive leave := Exit_tb (ret : Z) | Goto_tb (n : Z) | Exception.

Section Meaning.
  Context {W : Type} {nb_globals : nat} {host : TcgHost W nb_globals}.

Inductive outcome :=
| Next (s : store) (w : W)
| Jump (label : Z) (s : store) (w : W)
| Leave (why : leave) (s : store) (w : W)
| Undefined.

Definition branch (b : option bool) (label : Z) (s : store) (w : W) : outcome :=
  match b with
  | Some true => Jump label s w
  | Some false => Next s w
  | None => Undefined
  end.

(** Extension of a loaded value. *)
Definition memop_value (oi raw : Z) : Z :=
  let mop := get_memop oi in
  let bits := 8 .<< (mop .& MO_SIZE) in
  if truthy (mop .& MO_SIGN) then swrap bits raw else wrap bits raw.

Definition eval_ld (bits : Z) (sign : bool) (op : TCGOp) (s : store) (w : W) : outcome :=
  let v := host_ld bits (u32 (rd s (arg op 1) + arg op 2)) w in
  Next (wr s (arg op 0) (u32 (if sign then swrap bits v else wrap bits v))) w.

Definition eval_st (bits : Z) (op : TCGOp) (s : store) (w : W) : outcome :=
  Next s (host_st bits (u32 (rd s (arg op 1) + arg op 2)) (wrap bits (rd s (arg op 0))) w).

Definition eval_call (op : TCGOp) (s : store) (w : W) : outcome :=
  match helper (cargs op) (map (rd s) (iargs op)) (firstn nb_globals s) w with
  | Some (o, g, w') => Next (wrs (g ++ skipn nb_globals s) (oargs op) (map (wrap 32) o)) w'
  | None => Leave Exception s w
  end.

Definition eval_op (op : TCGOp) (s : store) (w : W) : outcome :=
  if is_pure (opc op) then
    match eval_pure (opc op) (map (rd s) (iargs op)) (cargs op) with
    | Some vs => Next (wrs s (oargs op) vs) w
    | None => Undefined
    end
  else
    match opc op with
    | discard => Next (wr s (arg op 0) (u32 (stale (arg op 0) w))) w
    | set_label | insn_start => Next s w
    | call => eval_call op s w
    | br => Jump (arg op 0) s w
    | ld8u_i32 => eval_ld 8 false op s w
    | ld8s_i32 => eval_ld 8 true op s w
    | ld16u_i32 => eval_ld 16 false op s w
    | ld16s_i32 => eval_ld 16 true op s w
    | ld_i32 => eval_ld 32 false op s w
    | st8_i32 => eval_st 8 op s w
    | st16_i32 => eval_st 16 op s w
    | st_i32 => eval_st 32 op s w
    | brcond_i32 =>
        branch (cond_holds 32 (arg op 2) (rd s (arg op 0)) (rd s (arg op 1))) (arg op 3) s w
    | brcond2_i32 =>
        branch (cond_holds 64 (arg op 4) (dword (rd s (arg op 0)) (rd s (arg op 1)))
                  (dword (rd s (arg op 2)) (rd s (arg op 3)))) (arg op 5) s w
    | exit_tb => Leave (Exit_tb (arg op 0)) s w
    | goto_tb => if chained (arg op 0) w then Leave (Goto_tb (arg op 0)) s w else Next s w
    | qemu_ld_i32 =>
        match guest_ld (arg op 2) (rd s (arg op 1)) w with
        | Some (v, w') => Next (wr s (arg op 0) (u32 (memop_value (arg op 2) v))) w'
        | None => Leave Exception s w
        end
    | qemu_ld_i64 =>
        match guest_ld (arg op 3) (rd s (arg op 2)) w with
        | Some (v, w') =>
            let v := memop_value (arg op 3) v in
            Next (wrs s [arg op 0; arg op 1] (words_of v)) w'
        | None => Leave Exception s w
        end
    | qemu_st_i32 =>
        match guest_st (arg op 2) (rd s (arg op 1)) (rd s (arg op 0)) w with
        | Some w' => Next s w'
        | None => Leave Exception s w
        end
    | qemu_st_i64 =>
        match guest_st (arg op 3) (rd s (arg op 2)) (dword (rd s (arg op 0)) (rd s (arg op 1))) w with
        | Some w' => Next s w'
        | None => Leave Exception s w
        end
    | _ => Undefined
    end.

(** ** Blocks *)

Definition is_label (l : Z) (op : TCGOp) : bool :=
  match opc op with set_label => arg op 0 =? l | _ => false end.

(** The operations after [set_label l]. *)
Fixpoint after_label (l : Z) (ops : list TCGOp) : option (list TCGOp) :=
  match ops with
  | [] => None
  | op :: ops => if is_label l op then Some ops else after_label l ops
  end.

Inductive behaviour :=
| Left_block (why : leave) (s : store) (w : W)
| Fell_off (s : store) (w : W)
| Went_wrong
| Out_of_jumps.

(** Run [ops] of the block [prog], taking at most [jumps] branches. *)
Fixpoint run (jumps : nat) (prog ops : list TCGOp) (s : store) (w : W) : behaviour :=
  (fix go (ops : list TCGOp) (s : store) (w : W) : behaviour :=
     match ops with
     | [] => Fell_off s w
     | op :: ops =>
         match eval_op op s w with
         | Next s w => go ops s w
         | Leave why s w => Left_block why s w
         | Undefined => Went_wrong
         | Jump l s w =>
             match jumps with
             | O => Out_of_jumps
             | S jumps =>
                 match after_label l prog with
                 | Some ops => run jumps prog ops s w
                 | None => Went_wrong
                 end
             end
         end
     end) ops s w.

(** One operation, then the rest. *)
Definition continue (jumps : nat) (prog ops : list TCGOp) (r : outcome) : behaviour :=
  match r with
  | Next s w => run jumps prog ops s w
  | Leave why s w => Left_block why s w
  | Undefined => Went_wrong
  | Jump l s w =>
      match jumps with
      | O => Out_of_jumps
      | S jumps =>
          match after_label l prog with
          | Some ops => run jumps prog ops s w
          | None => Went_wrong
          end
      end
  end.

Lemma run_cons jumps prog op ops s w :
  run jumps prog (op :: ops) s w = continue jumps prog ops (eval_op op s w).
Proof. destruct jumps; reflexivity. Qed.

Lemma run_nil jumps prog s w : run jumps prog [] s w = Fell_off s w.
Proof. destruct jumps; reflexivity. Qed.
End Meaning.
