(* ===== verification/TcgOpt.v ===== *)
(** * The TCG optimizer (tcg/optimize.c)

    The pass keeps, for every temporary it has seen in the current basic block,
    whether it is a known constant, which other temporaries hold the same value
    (a circular doubly linked list) and which bits may be nonzero.  The model
    follows the phases of the loop of [tcg_optimize] one by one.  [None] is
    [tcg_abort] or a list walk that does not come back to its start; a C
    [continue] is the end of a phase with a result. *)

From Stdlib Require Import ZArith Lia List Bool.
From S2P Require Import Prelude Bitops HostUtils TcgIr.
Import ListNotations.
Local Open Scope Z_scope.
Local Open Scope c_scope.

(** ** State *)

Record tcg_temp_info := mkInfo {
  is_const : bool; prev_copy : Z; next_copy : Z; val : Z; mask : Z
}.

Record opt_state := mkSt { temps : Z -> tcg_temp_info; temps_used : Z -> bool }.

(** The fields of [TCGContext] the pass reads. *)
Record TCGContext := mkCtx {
  nb_temps : nat; nb_globals : nat; temp_local : Z -> bool; temp_type : Z -> Z
}.

Definition TCG_MAX_TEMPS : nat := 512.

Definition set_temp (st : opt_state) (t : Z) (f : tcg_temp_info -> tcg_temp_info) : opt_state :=
  mkSt (fun x => if x =? t then f (temps st x) else temps st x) (temps_used st).

(** [next_copy] and [prev_copy] are [uint16_t]. *)
Definition set_next (st : opt_state) (t v : Z) : opt_state :=
  set_temp st t (fun i => mkInfo (is_const i) (prev_copy i) (u16 v) (val i) (mask i)).
Definition set_prev (st : opt_state) (t v : Z) : opt_state :=
  set_temp st t (fun i => mkInfo (is_const i) (u16 v) (next_copy i) (val i) (mask i)).
Definition set_const (st : opt_state) (t : Z) (b : bool) : opt_state :=
  set_temp st t (fun i => mkInfo b (prev_copy i) (next_copy i) (val i) (mask i)).
Definition set_val (st : opt_state) (t v : Z) : opt_state :=
  set_temp st t (fun i => mkInfo (is_const i) (prev_copy i) (next_copy i) v (mask i)).
Definition set_mask (st : opt_state) (t m : Z) : opt_state :=
  set_temp st t (fun i => mkInfo (is_const i) (prev_copy i) (next_copy i) (val i) m).

(** [(tcg_target_ulong)-1] *)
Definition ALL_ONES : Z := 2 ^ 32 - 1.

Definition temp_is_const (st : opt_state) (arg : Z) : bool := is_const (temps st arg).

Definition temp_is_copy (st : opt_state) (arg : Z) : bool :=
  negb (next_copy (temps st arg) =? arg).

(** The known constant in [arg] is [v]. *)
Definition const_is (st : opt_state) (arg v : Z) : bool :=
  temp_is_const st arg && (val (temps st arg) =? v).

Definition reset_temp (st : opt_state) (temp : Z) : opt_state :=
  let st := set_prev st (next_copy (temps st temp)) (prev_copy (temps st temp)) in
  let st := set_next st (prev_copy (temps st temp)) (next_copy (temps st temp)) in
  let st := set_next st temp temp in
  let st := set_prev st temp temp in
  let st := set_const st temp false in
  set_mask st temp ALL_ONES.

(** [bitmap_zero(temps_used.l, nb_temps)] *)
Definition reset_all_temps (st : opt_state) (nb_temps : nat) : opt_state :=
  mkSt (temps st) (fun t => if (0 <=? t) && (t <? Z.of_nat nb_temps) then false else temps_used st t).

Definition init_temp_info (st : opt_state) (temp : Z) : opt_state :=
  if negb (temps_used st temp) then
    let st := set_next st temp temp in
    let st := set_prev st temp temp in
    let st := set_const st temp false in
    let st := set_mask st temp ALL_ONES in
    mkSt (temps st) (fun t => if t =? temp then true else temps_used st t)
  else st.

Definition op_bits (opc : TCGOpcode) : Z := if OPF_64BIT (tcg_op_defs opc) then 64 else 32.

(** [INDEX_op_mov_i64] and [INDEX_op_movi_i64] are not present on the host. *)
Definition op_to_mov (opc : TCGOpcode) : option TCGOpcode :=
  if op_bits opc =? 32 then Some mov_i32 else None.
Definition op_to_movi (opc : TCGOpcode) : option TCGOpcode :=
  if op_bits opc =? 32 then Some movi_i32 else None.

(** ** Copies *)

(** [for (i = first; i != temp; i = temps[i].next_copy) if (f(i)) return i;]
    The walk visits each temporary at most once, so [fuel] bounds it. *)
Fixpoint walk (st : opt_state) (f : Z -> bool) (temp i : Z) (fuel : nat) : option (option Z) :=
  if i =? temp then Some None
  else if f i then Some (Some i)
  else match fuel with
       | O => None
       | S fuel => walk st f temp (next_copy (temps st i)) fuel
       end.

Definition walk_copies (st : opt_state) (f : Z -> bool) (temp : Z) : option (option Z) :=
  walk st f temp (next_copy (temps st temp)) TCG_MAX_TEMPS.

Definition find_better_copy (s : TCGContext) (st : opt_state) (temp : Z) : option Z :=
  if temp <? Z.of_nat (nb_globals s) then Some temp
  else
    let? found := walk_copies st (fun i => i <? Z.of_nat (nb_globals s)) temp in
    match found with
    | Some i => Some i
    | None =>
        if negb (temp_local s temp) then
          let? found := walk_copies st (temp_local s) temp in
          match found with
          | Some i => Some i
          | None => Some temp
          end
        else Some temp
    end.

Definition temps_are_copies (st : opt_state) (arg1 arg2 : Z) : option bool :=
  if arg1 =? arg2 then Some true
  else if negb (temp_is_copy st arg1) || negb (temp_is_copy st arg2) then Some false
  else
    let? found := walk_copies st (fun i => i =? arg2) arg1 in
    Some (match found with Some _ => true | None => false end).

(** ** Rewriting an operation *)

(** What becomes of the operation: rewritten in place, removed, or preceded by
    a new operation and visited again ([oi_next = op2->next]). *)
Inductive fate := Kept (op : TCGOp) | Removed | Again (op2 op : TCGOp).

Definition set_args (op : TCGOp) (a : list Z) : TCGOp := mkOp (opc op) (callo op) (calli op) a.
Definition set_arg (op : TCGOp) (i : nat) (v : Z) : TCGOp := set_args op (upd (args op) i v).
Definition set_opc (op : TCGOp) (o : TCGOpcode) : TCGOp := mkOp o (callo op) (calli op) (args op).

Definition tcg_opt_gen_movi (st : opt_state) (op : TCGOp) (dst v : Z) : option (opt_state * TCGOp) :=
  let? new_op := op_to_movi (opc op) in
  let op := set_opc op new_op in
  let st := reset_temp st dst in
  let st := set_const st dst true in
  let st := set_val st dst v in
  let m := v in
  let st := set_mask st dst m in
  let op := set_arg op 0 dst in
  Some (st, set_arg op 1 v).

Definition tcg_opt_gen_mov (s : TCGContext) (st : opt_state) (op : TCGOp) (dst src : Z)
    : option (opt_state * fate) :=
  let? same := temps_are_copies st dst src in
  if same then Some (st, Removed)
  else
    let? new_op := op_to_mov (opc op) in
    let op := set_opc op new_op in
    let st := reset_temp st dst in
    let m := mask (temps st src) in
    let st := set_mask st dst m in
    let st :=
      if temp_type s src =? temp_type s dst then
        let st := set_next st dst (next_copy (temps st src)) in
        let st := set_prev st dst src in
        let st := set_prev st (next_copy (temps st dst)) dst in
        let st := set_next st src dst in
        let st := set_const st dst (is_const (temps st src)) in
        set_val st dst (val (temps st src))
      else st in
    let op := set_arg op 0 dst in
    Some (st, Kept (set_arg op 1 src)).

(** The C code ends the visit of the operation with one of these. *)
Definition movi_fate (r : option (opt_state * TCGOp)) : option (opt_state * fate) :=
  let? (st, op) := r in Some (st, Kept op).

(** ** Constant folding *)

(** [y ? : 1] *)
Definition or_one (y : Z) : Z := if truthy y then y else 1.

Definition do_constant_folding_2 (opc : TCGOpcode) (x y : Z) : option Z :=
  match opc with
  | add_i32 => Some (u32 (x + y))
  | sub_i32 => Some (u32 (x - y))
  | mul_i32 => Some (u32 (x * y))
  | and_i32 => Some (x .& y)
  | or_i32 => Some (x .| y)
  | xor_i32 => Some (x .^ y)
  | shl_i32 => Some (u32 (u32 x .<< (y .& 31)))
  | shr_i32 => Some (u32 x .>> (y .& 31))
  | sar_i32 => Some (u32 (s32 x .>> (y .& 31)))
  | rotr_i32 => Some (ror32 x (y .& 31))
  | rotl_i32 => Some (rol32 x (y .& 31))
  | not_i32 => Some (u32 (Z.lnot x))
  | neg_i32 => Some (u32 (- x))
  | andc_i32 => Some (x .& u32 (Z.lnot y))
  | orc_i32 => Some (x .| u32 (Z.lnot y))
  | eqv_i32 => Some (u32 (Z.lnot (x .^ y)))
  | nand_i32 => Some (u32 (Z.lnot (x .& y)))
  | nor_i32 => Some (u32 (Z.lnot (x .| y)))
  | ext8s_i32 => Some (u32 (s8 x))
  | ext16s_i32 => Some (u32 (s16 x))
  | ext8u_i32 => Some (u8 x)
  | ext16u_i32 => Some (u16 x)
  | muluh_i32 => Some (u32 (u64 (u32 x * u32 y) .>> 32))
  | mulsh_i32 => Some (u32 (s64 (s32 x * s32 y) .>> 32))
  | div_i32 => Some (u32 (Z.quot (s32 x) (or_one (s32 y))))
  | divu_i32 => Some (u32 x / or_one (u32 y))
  | rem_i32 => Some (u32 (Z.rem (s32 x) (or_one (s32 y))))
  | remu_i32 => Some (u32 x mod or_one (u32 y))
  | _ => None
  end.

Definition do_constant_folding (opc : TCGOpcode) (x y : Z) : option Z :=
  let? res := do_constant_folding_2 opc x y in
  Some (if op_bits opc =? 32 then u32 (s32 res) else res).

Definition do_constant_folding_cond_32 (x y c : Z) : option bool :=
  if c =? TCG_COND_EQ then Some (x =? y)
  else if c =? TCG_COND_NE then Some (negb (x =? y))
  else if c =? TCG_COND_LT then Some (s32 x <? s32 y)
  else if c =? TCG_COND_GE then Some (s32 x >=? s32 y)
  else if c =? TCG_COND_LE then Some (s32 x <=? s32 y)
  else if c =? TCG_COND_GT then Some (s32 x >? s32 y)
  else if c =? TCG_COND_LTU then Some (x <? y)
  else if c =? TCG_COND_GEU then Some (x >=? y)
  else if c =? TCG_COND_LEU then Some (x <=? y)
  else if c =? TCG_COND_GTU then Some (x >? y)
  else None.

Definition do_constant_folding_cond_64 (x y c : Z) : option bool :=
  if c =? TCG_COND_EQ then Some (x =? y)
  else if c =? TCG_COND_NE then Some (negb (x =? y))
  else if c =? TCG_COND_LT then Some (s64 x <? s64 y)
  else if c =? TCG_COND_GE then Some (s64 x >=? s64 y)
  else if c =? TCG_COND_LE then Some (s64 x <=? s64 y)
  else if c =? TCG_COND_GT then Some (s64 x >? s64 y)
  else if c =? TCG_COND_LTU then Some (x <? y)
  else if c =? TCG_COND_GEU then Some (x >=? y)
  else if c =? TCG_COND_LEU then Some (x <=? y)
  else if c =? TCG_COND_GTU then Some (x >? y)
  else None.

Definition do_constant_folding_cond_eq (c : Z) : option bool :=
  if (c =? TCG_COND_GT) || (c =? TCG_COND_LTU) || (c =? TCG_COND_LT) || (c =? TCG_COND_GTU)
     || (c =? TCG_COND_NE) then Some false
  else if (c =? TCG_COND_GE) || (c =? TCG_COND_GEU) || (c =? TCG_COND_LE) || (c =? TCG_COND_LEU)
     || (c =? TCG_COND_EQ) then Some true
  else None.

(** 2 when the condition cannot be simplified, its value otherwise. *)
Definition do_constant_folding_cond (st : opt_state) (opc : TCGOpcode) (x y c : Z) : option Z :=
  if temp_is_const st x && temp_is_const st y then
    if op_bits opc =? 32 then
      option_map b2z (do_constant_folding_cond_32 (u32 (val (temps st x))) (u32 (val (temps st y))) c)
    else option_map b2z (do_constant_folding_cond_64 (val (temps st x)) (val (temps st y)) c)
  else
    let? same := temps_are_copies st x y in
    if same then option_map b2z (do_constant_folding_cond_eq c)
    else if const_is st y 0 then
      if c =? TCG_COND_LTU then Some 0
      else if c =? TCG_COND_GEU then Some 1
      else Some 2
    else Some 2.

Definition do_constant_folding_cond2 (st : opt_state) (al ah bl bh c : Z) : option Z :=
  let copies :=
    let? l := temps_are_copies st al bl in
    let? same := (if l then temps_are_copies st ah bh else Some false) in
    if same then option_map b2z (do_constant_folding_cond_eq c) else Some 2 in
  if temp_is_const st bl && temp_is_const st bh then
    let b := u64 (val (temps st bh) .<< 32) .| u32 (val (temps st bl)) in
    if temp_is_const st al && temp_is_const st ah then
      let a := u64 (val (temps st ah) .<< 32) .| u32 (val (temps st al)) in
      option_map b2z (do_constant_folding_cond_64 a b c)
    else if (b =? 0) && (c =? TCG_COND_LTU) then Some 0
    else if (b =? 0) && (c =? TCG_COND_GEU) then Some 1
    else copies
  else copies.

(** ** Operand order *)

(** Swap [args[i]] and [args[j]] when the constant is first, or the second is
    the destination; tell whether they were swapped. *)
Definition swap_commutative (st : opt_state) (dest : Z) (i j : nat) (op : TCGOp) : bool * TCGOp :=
  let a1 := arg op i in
  let a2 := arg op j in
  let sum := 0 + b2z (temp_is_const st a1) in
  let sum := sum - b2z (temp_is_const st a2) in
  if (sum >? 0) || ((sum =? 0) && (dest =? a2)) then
    (true, set_arg (set_arg op i a2) j a1)
  else (false, op).

Definition swap_commutative2 (st : opt_state) (i j : nat) (op : TCGOp) : bool * TCGOp :=
  let sum := 0 + b2z (temp_is_const st (arg op i)) in
  let sum := sum + b2z (temp_is_const st (arg op (S i))) in
  let sum := sum - b2z (temp_is_const st (arg op j)) in
  let sum := sum - b2z (temp_is_const st (arg op (S j))) in
  if sum >? 0 then
    let t := arg op i in
    let op := set_arg (set_arg op i (arg op j)) j t in
    let t := arg op (S i) in
    (true, set_arg (set_arg op (S i) (arg op (S j))) (S j) t)
  else (false, op).

(** Apply [f] to the condition [args[k]] after a swap. *)
Definition fix_cond (f : Z -> Z) (k : nat) (r : bool * TCGOp) : TCGOp :=
  let '(swapped, op) := r in if swapped then set_arg op k (f (arg op k)) else op.

Definition canonicalize (st : opt_state) (op : TCGOp) : TCGOp :=
  match opc op with
  | add_i32 | mul_i32 | and_i32 | or_i32 | xor_i32 | eqv_i32 | nand_i32 | nor_i32
  | muluh_i32 | mulsh_i32 =>
      snd (swap_commutative st (arg op 0) 1 2 op)
  | brcond_i32 => fix_cond tcg_swap_cond 2 (swap_commutative st ALL_ONES 0 1 op)
  | setcond_i32 => fix_cond tcg_swap_cond 3 (swap_commutative st (arg op 0) 1 2 op)
  | movcond_i32 =>
      let op := fix_cond tcg_swap_cond 5 (swap_commutative st ALL_ONES 1 2 op) in
      fix_cond tcg_invert_cond 5 (swap_commutative st (arg op 0) 4 3 op)
  | add2_i32 =>
      let op := snd (swap_commutative st (arg op 0) 2 4 op) in
      snd (swap_commutative st (arg op 1) 3 5 op)
  | mulu2_i32 | muls2_i32 => snd (swap_commutative st (arg op 0) 2 3 op)
  | brcond2_i32 => fix_cond tcg_swap_cond 4 (swap_commutative2 st 0 2 op)
  | setcond2_i32 => fix_cond tcg_swap_cond 5 (swap_commutative2 st 1 3 op)
  | _ => op
  end.

(** ** The phases of the loop

    A phase returns [Some (Some r)] when the visit of the operation ends in it
    with the result [r], and [Some None] when the next phase takes over. *)

Definition visit := (opt_state * fate)%type.
Definition ends (r : option visit) : option (option visit) := option_map Some r.
Definition falls_through : option (option visit) := Some None.

(** The label [try_not]: the operation becomes [not args[0], args[i]]. *)
Definition try_not (st : opt_state) (op : TCGOp) (i : nat) : option (option visit) :=
  let not_op := not_i32 in
  let have_not := TCG_TARGET_HAS_not_i32 in
  if negb have_not then falls_through
  else
    let op := set_opc op not_op in
    let st := reset_temp st (arg op 0) in
    Some (Some (st, Kept (set_arg op 1 (arg op i)))).

(** "shift/rot r, 0, a => movi r, 0" and "sub r, 0, a => neg r, a". *)
Definition simplify_first (st : opt_state) (op : TCGOp) : option (option visit) :=
  match opc op with
  | shl_i32 | shr_i32 | sar_i32 | rotl_i32 | rotr_i32 =>
      if const_is st (arg op 1) 0 then ends (movi_fate (tcg_opt_gen_movi st op (arg op 0) 0))
      else falls_through
  | sub_i32 =>
      if temp_is_const st (arg op 2) then falls_through
      else
        let neg_op := neg_i32 in
        let have_neg := TCG_TARGET_HAS_neg_i32 in
        if negb have_neg then falls_through
        else if const_is st (arg op 1) 0 then
          let op := set_opc op neg_op in
          let st := reset_temp st (arg op 0) in
          Some (Some (st, Kept (set_arg op 1 (arg op 2))))
        else falls_through
  | xor_i32 | nand_i32 =>
      if negb (temp_is_const st (arg op 1)) && const_is st (arg op 2) ALL_ONES then try_not st op 1
      else falls_through
  | nor_i32 =>
      if negb (temp_is_const st (arg op 1)) && const_is st (arg op 2) 0 then try_not st op 1
      else falls_through
  | andc_i32 =>
      if negb (temp_is_const st (arg op 2)) && const_is st (arg op 1) ALL_ONES then try_not st op 2
      else falls_through
  | orc_i32 | eqv_i32 =>
      if negb (temp_is_const st (arg op 2)) && const_is st (arg op 1) 0 then try_not st op 2
      else falls_through
  | _ => falls_through
  end.

(** "op r, a, const => mov r, a" *)
Definition simplify_mov (s : TCGContext) (st : opt_state) (op : TCGOp) : option (option visit) :=
  match opc op with
  | add_i32 | sub_i32 | shl_i32 | shr_i32 | sar_i32 | rotl_i32 | rotr_i32 | or_i32 | xor_i32
  | andc_i32 =>
      if negb (temp_is_const st (arg op 1)) && const_is st (arg op 2) 0
      then ends (tcg_opt_gen_mov s st op (arg op 0) (arg op 1)) else falls_through
  | and_i32 | orc_i32 | eqv_i32 =>
      if negb (temp_is_const st (arg op 1)) && const_is st (arg op 2) ALL_ONES
      then ends (tcg_opt_gen_mov s st op (arg op 0) (arg op 1)) else falls_through
  | _ => falls_through
  end.

(** The label [and_const]: [(mask, affected)]. *)
Definition and_const (st : opt_state) (op : TCGOp) (m : Z) : Z * Z :=
  let affected := mask (temps st (arg op 1)) .& u32 (Z.lnot m) in
  (mask (temps st (arg op 1)) .& m, affected).

(** The bits of the first output that may be nonzero, and the bits of the
    input that the operation may change. *)
Definition known_zeros (st : opt_state) (op : TCGOp) : Z * Z :=
  let m i := mask (temps st (arg op i)) in
  let v i := val (temps st (arg op i)) in
  let nothing := (ALL_ONES, ALL_ONES) in
  match opc op with
  | ext8s_i32 => if negb (m 1%nat .& 0x80 =? 0) then nothing else and_const st op 0xff
  | ext8u_i32 => and_const st op 0xff
  | ext16s_i32 => if negb (m 1%nat .& 0x8000 =? 0) then nothing else and_const st op 0xffff
  | ext16u_i32 => and_const st op 0xffff
  | and_i32 =>
      if temp_is_const st (arg op 2) then and_const st op (m 2%nat)
      else (m 1%nat .& m 2%nat, ALL_ONES)
  | andc_i32 =>
      if temp_is_const st (arg op 2) then and_const st op (u32 (Z.lnot (m 2%nat)))
      else (m 1%nat, ALL_ONES)
  | sar_i32 =>
      if temp_is_const st (arg op 2) then (u32 (s32 (m 1%nat) .>> (v 2%nat .& 31)), ALL_ONES)
      else nothing
  | shr_i32 =>
      if temp_is_const st (arg op 2) then (u32 (m 1%nat) .>> (v 2%nat .& 31), ALL_ONES) else nothing
  | shl_i32 =>
      if temp_is_const st (arg op 2) then (u32 (m 1%nat .<< (v 2%nat .& 31)), ALL_ONES) else nothing
  | neg_i32 => (u32 (- (m 1%nat .& u32 (- m 1%nat))), ALL_ONES)
  | deposit_i32 => (u32 (deposit64 (m 1%nat) (arg op 3) (arg op 4) (m 2%nat)), ALL_ONES)
  | or_i32 | xor_i32 => (m 1%nat .| m 2%nat, ALL_ONES)
  | setcond_i32 | setcond2_i32 => (1, ALL_ONES)
  | movcond_i32 => (m 3%nat .| m 4%nat, ALL_ONES)
  | ld8u_i32 => (0xff, ALL_ONES)
  | ld16u_i32 => (0xffff, ALL_ONES)
  | qemu_ld_i32 | qemu_ld_i64 =>
      let oi := arg op (n_oargs op + n_iargs op) in
      let mop := get_memop oi in
      if negb (truthy (mop .& MO_SIGN)) then
        (u32 (u64 (2 .<< ((8 .<< (mop .& MO_SIZE)) - 1)) - 1), ALL_ONES)
      else nothing
  | _ => nothing
  end.

(** [partmask == 0] and [affected == 0]; the adjustment for 32-bit operations
    only touches bits above the 32 of the host word. *)
Definition simplify_known_zeros (s : TCGContext) (st : opt_state) (op : TCGOp) (m affected : Z)
    : option (option visit) :=
  let partmask := if OPF_64BIT (tcg_op_defs (opc op)) then m else m .& 0xffffffff in
  let affected := if OPF_64BIT (tcg_op_defs (opc op)) then affected else affected .& 0xffffffff in
  if partmask =? 0 then ends (movi_fate (tcg_opt_gen_movi st op (arg op 0) 0))
  else if affected =? 0 then ends (tcg_opt_gen_mov s st op (arg op 0) (arg op 1))
  else falls_through.

(** "op r, a, 0 => movi r, 0" *)
Definition simplify_movi_zero (st : opt_state) (op : TCGOp) : option (option visit) :=
  match opc op with
  | and_i32 | mul_i32 | muluh_i32 | mulsh_i32 =>
      if const_is st (arg op 2) 0 then ends (movi_fate (tcg_opt_gen_movi st op (arg op 0) 0))
      else falls_through
  | _ => falls_through
  end.

(** "op r, a, a => mov r, a" *)
Definition simplify_same_mov (s : TCGContext) (st : opt_state) (op : TCGOp) : option (option visit) :=
  match opc op with
  | or_i32 | and_i32 =>
      let? same := temps_are_copies st (arg op 1) (arg op 2) in
      if same then ends (tcg_opt_gen_mov s st op (arg op 0) (arg op 1)) else falls_through
  | _ => falls_through
  end.

(** "op r, a, a => movi r, 0" *)
Definition simplify_same_zero (st : opt_state) (op : TCGOp) : option (option visit) :=
  match opc op with
  | andc_i32 | sub_i32 | xor_i32 =>
      let? same := temps_are_copies st (arg op 1) (arg op 2) in
      if same then ends (movi_fate (tcg_opt_gen_movi st op (arg op 0) 0)) else falls_through
  | _ => falls_through
  end.

(** ** Folding and propagation *)

(** The label [do_reset_output]. *)
Fixpoint reset_outputs (st : opt_state) (outs : list Z) : opt_state :=
  match outs with
  | [] => st
  | t :: outs => reset_outputs (reset_temp st t) outs
  end.

Definition do_reset_output (st : opt_state) (op : TCGOp) (m : Z) : opt_state :=
  match oargs op with
  | [] => st
  | t :: outs => reset_outputs (set_mask (reset_temp st t) t m) outs
  end.

Definition do_default (s : TCGContext) (st : opt_state) (op : TCGOp) (m : Z) : option visit :=
  if BB_END (tcg_op_defs (opc op)) then Some (reset_all_temps st (nb_temps s), Kept op)
  else Some (do_reset_output st op m, Kept op).

(** The two constants of [add2], [sub2] and [mulu2]: a new [movi] of the high
    word before the operation, which becomes the [movi] of the low word. *)
Definition fold_pair (st : opt_state) (op : TCGOp) (r : Z) : option visit :=
  let op2 := mkOp movi_i32 0 0 [0; 0] in
  let rl := arg op 0 in
  let rh := arg op 1 in
  let? (st, op) := tcg_opt_gen_movi st op rl (u32 (s32 r)) in
  let? (st, op2) := tcg_opt_gen_movi st op2 rh (u32 (s32 (r .>> 32))) in
  Some (st, Again op2 op).

(** [do_brcond_true], [do_brcond_false], [do_brcond_high], [do_brcond_low] *)
Definition brcond_true (s : TCGContext) (st : opt_state) (op : TCGOp) (label : Z) : option visit :=
  Some (reset_all_temps st (nb_temps s), Kept (set_arg (set_opc op br) 0 label)).
Definition brcond_false (st : opt_state) : option visit := Some (st, Removed).
Definition brcond_high (s : TCGContext) (st : opt_state) (op : TCGOp) : option visit :=
  let op := set_opc op brcond_i32 in
  let op := set_arg op 0 (arg op 1) in
  let op := set_arg op 1 (arg op 3) in
  let op := set_arg op 2 (arg op 4) in
  Some (reset_all_temps st (nb_temps s), Kept (set_arg op 3 (arg op 5))).
Definition brcond_low (s : TCGContext) (st : opt_state) (op : TCGOp) : option visit :=
  let op := set_opc op brcond_i32 in
  let op := set_arg op 1 (arg op 2) in
  let op := set_arg op 2 (arg op 4) in
  Some (reset_all_temps st (nb_temps s), Kept (set_arg op 3 (arg op 5))).

Definition fold_brcond2 (s : TCGContext) (st : opt_state) (op : TCGOp) (m : Z) : option visit :=
  let c := arg op 4 in
  let? tmp := do_constant_folding_cond2 st (arg op 0) (arg op 1) (arg op 2) (arg op 3) c in
  if negb (tmp =? 2) then
    if truthy tmp then brcond_true s st op (arg op 5) else brcond_false st
  else if ((c =? TCG_COND_LT) || (c =? TCG_COND_GE)) && const_is st (arg op 2) 0
          && const_is st (arg op 3) 0 then brcond_high s st op
  else if c =? TCG_COND_EQ then
    let? tmp := do_constant_folding_cond st brcond_i32 (arg op 0) (arg op 2) TCG_COND_EQ in
    if tmp =? 0 then brcond_false st
    else if tmp =? 1 then brcond_high s st op
    else
      let? tmp := do_constant_folding_cond st brcond_i32 (arg op 1) (arg op 3) TCG_COND_EQ in
      if tmp =? 0 then brcond_false st
      else if negb (tmp =? 1) then do_default s st op m
      else brcond_low s st op
  else if c =? TCG_COND_NE then
    let? tmp := do_constant_folding_cond st brcond_i32 (arg op 0) (arg op 2) TCG_COND_NE in
    if tmp =? 0 then brcond_high s st op
    else if tmp =? 1 then brcond_true s st op (arg op 5)
    else
      let? tmp := do_constant_folding_cond st brcond_i32 (arg op 1) (arg op 3) TCG_COND_NE in
      if tmp =? 0 then brcond_low s st op
      else if tmp =? 1 then brcond_true s st op (arg op 5)
      else do_default s st op m
  else do_default s st op m.

(** [do_setcond_high], [do_setcond_low] *)
Definition setcond_high (st : opt_state) (op : TCGOp) : option visit :=
  let st := set_mask (reset_temp st (arg op 0)) (arg op 0) 1 in
  let op := set_opc op setcond_i32 in
  let op := set_arg op 1 (arg op 2) in
  let op := set_arg op 2 (arg op 4) in
  Some (st, Kept (set_arg op 3 (arg op 5))).
Definition setcond_low (st : opt_state) (op : TCGOp) : option visit :=
  let st := set_mask (reset_temp st (arg op 0)) (arg op 0) 1 in
  let op := set_opc op setcond_i32 in
  let op := set_arg op 2 (arg op 3) in
  Some (st, Kept (set_arg op 3 (arg op 5))).

Definition fold_setcond2 (s : TCGContext) (st : opt_state) (op : TCGOp) (m : Z) : option visit :=
  let c := arg op 5 in
  let setcond_const tmp := movi_fate (tcg_opt_gen_movi st op (arg op 0) tmp) in
  let? tmp := do_constant_folding_cond2 st (arg op 1) (arg op 2) (arg op 3) (arg op 4) c in
  if negb (tmp =? 2) then setcond_const tmp
  else if ((c =? TCG_COND_LT) || (c =? TCG_COND_GE)) && const_is st (arg op 3) 0
          && const_is st (arg op 4) 0 then setcond_high st op
  else if c =? TCG_COND_EQ then
    let? tmp := do_constant_folding_cond st setcond_i32 (arg op 1) (arg op 3) TCG_COND_EQ in
    if tmp =? 0 then setcond_const tmp
    else if tmp =? 1 then setcond_high st op
    else
      let? tmp := do_constant_folding_cond st setcond_i32 (arg op 2) (arg op 4) TCG_COND_EQ in
      if tmp =? 0 then setcond_high st op
      else if negb (tmp =? 1) then do_default s st op m
      else setcond_low st op
  else if c =? TCG_COND_NE then
    let? tmp := do_constant_folding_cond st setcond_i32 (arg op 1) (arg op 3) TCG_COND_NE in
    if tmp =? 0 then setcond_high st op
    else if tmp =? 1 then setcond_const tmp
    else
      let? tmp := do_constant_folding_cond st setcond_i32 (arg op 2) (arg op 4) TCG_COND_NE in
      if tmp =? 0 then setcond_low st op
      else if tmp =? 1 then setcond_const tmp
      else do_default s st op m
  else do_default s st op m.

(** Globals the pass has seen are forgotten at a call that may write them. *)
Definition reset_globals (s : TCGContext) (st : opt_state) : opt_state :=
  fold_left (fun st i => if temps_used st (Z.of_nat i) then reset_temp st (Z.of_nat i) else st)
    (seq 0 (nb_globals s)) st.

Definition visit_call (s : TCGContext) (st : opt_state) (op : TCGOp) (m : Z) : option visit :=
  let flags := arg op (callo op + calli op + 1) in
  let st :=
    if negb (truthy (flags .& (TCG_CALL_NO_READ_GLOBALS .| TCG_CALL_NO_WRITE_GLOBALS)))
    then reset_globals s st else st in
  Some (do_reset_output st op m, Kept op).

Definition fold_op (s : TCGContext) (st : opt_state) (op : TCGOp) (m : Z) : option visit :=
  let c i := temp_is_const st (arg op i) in
  let v i := val (temps st (arg op i)) in
  match opc op with
  | mov_i32 => tcg_opt_gen_mov s st op (arg op 0) (arg op 1)
  | movi_i32 => movi_fate (tcg_opt_gen_movi st op (arg op 0) (arg op 1))
  | not_i32 | neg_i32 | ext8s_i32 | ext8u_i32 | ext16s_i32 | ext16u_i32 =>
      if c 1%nat then
        let? tmp := do_constant_folding (opc op) (v 1%nat) 0 in
        movi_fate (tcg_opt_gen_movi st op (arg op 0) tmp)
      else do_default s st op m
  | add_i32 | sub_i32 | mul_i32 | or_i32 | and_i32 | xor_i32 | shl_i32 | shr_i32 | sar_i32
  | rotl_i32 | rotr_i32 | andc_i32 | orc_i32 | eqv_i32 | nand_i32 | nor_i32 | muluh_i32 | mulsh_i32
  | div_i32 | divu_i32 | rem_i32 | remu_i32 =>
      if c 1%nat && c 2%nat then
        let? tmp := do_constant_folding (opc op) (v 1%nat) (v 2%nat) in
        movi_fate (tcg_opt_gen_movi st op (arg op 0) tmp)
      else do_default s st op m
  | deposit_i32 =>
      if c 1%nat && c 2%nat then
        let tmp := u32 (deposit64 (v 1%nat) (arg op 3) (arg op 4) (v 2%nat)) in
        movi_fate (tcg_opt_gen_movi st op (arg op 0) tmp)
      else do_default s st op m
  | setcond_i32 =>
      let? tmp := do_constant_folding_cond st (opc op) (arg op 1) (arg op 2) (arg op 3) in
      if negb (tmp =? 2) then movi_fate (tcg_opt_gen_movi st op (arg op 0) tmp)
      else do_default s st op m
  | brcond_i32 =>
      let? tmp := do_constant_folding_cond st (opc op) (arg op 0) (arg op 1) (arg op 2) in
      if negb (tmp =? 2) then
        if truthy tmp then brcond_true s st op (arg op 3) else brcond_false st
      else do_default s st op m
  | movcond_i32 =>
      let? tmp := do_constant_folding_cond st (opc op) (arg op 1) (arg op 2) (arg op 5) in
      if negb (tmp =? 2) then tcg_opt_gen_mov s st op (arg op 0) (arg op (Z.to_nat (4 - tmp)))
      else do_default s st op m
  | add2_i32 | sub2_i32 =>
      if c 2%nat && c 3%nat && c 4%nat && c 5%nat then
        let a := u64 (u32 (v 3%nat) .<< 32) .| u32 (v 2%nat) in
        let b := u64 (u32 (v 5%nat) .<< 32) .| u32 (v 4%nat) in
        let a := match opc op with add2_i32 => u64 (a + b) | _ => u64 (a - b) end in
        fold_pair st op a
      else do_default s st op m
  | mulu2_i32 =>
      if c 2%nat && c 3%nat then fold_pair st op (u64 (u32 (v 2%nat) * u32 (v 3%nat)))
      else do_default s st op m
  | brcond2_i32 => fold_brcond2 s st op m
  | setcond2_i32 => fold_setcond2 s st op m
  | call => visit_call s st op m
  | _ => do_default s st op m
  end.

(** ** The loop *)

Definition init_args (st : opt_state) (op : TCGOp) : opt_state :=
  fold_left (fun st t =>
      match opc op with
      | call => if t =? TCG_CALL_DUMMY_ARG then st else init_temp_info st t
      | _ => init_temp_info st t
      end) (firstn (n_oargs op + n_iargs op) (args op)) st.

Definition propagate_arg (s : TCGContext) (st : opt_state) (i : nat) (op : TCGOp) : option TCGOp :=
  if temp_is_copy st (arg op i) then
    let? t := find_better_copy s st (arg op i) in Some (set_arg op i t)
  else Some op.

Fixpoint propagate (s : TCGContext) (st : opt_state) (idx : list nat) (op : TCGOp) : option TCGOp :=
  match idx with
  | [] => Some op
  | i :: idx => let? op := propagate_arg s st i op in propagate s st idx op
  end.

(** Run the phases in order until one ends the visit. *)
Definition phases (l : list (option (option visit))) (last : option visit) : option visit :=
  fold_right (fun p rest =>
      let? r := p in match r with Some v => Some v | None => rest end) last l.

Definition optimize_op (s : TCGContext) (st : opt_state) (op : TCGOp) : option visit :=
  let st := init_args st op in
  let? op := propagate s st (seq (n_oargs op) (n_iargs op)) op in
  let op := canonicalize st op in
  let '(m, affected) := known_zeros st op in
  phases
    [ simplify_first st op;
      simplify_mov s st op;
      simplify_known_zeros s st op m affected;
      simplify_movi_zero st op;
      simplify_same_mov s st op;
      simplify_same_zero st op ]
    (fold_op s st op m).

Fixpoint tcg_optimize_loop (fuel : nat) (s : TCGContext) (st : opt_state) (ops : list TCGOp)
    : option (list TCGOp) :=
  match ops with
  | [] => Some []
  | op :: ops =>
      match fuel with
      | O => None
      | S fuel =>
          let? (st, f) := optimize_op s st op in
          match f with
          | Kept op => let? out := tcg_optimize_loop fuel s st ops in Some (op :: out)
          | Removed => tcg_optimize_loop fuel s st ops
          | Again op2 op =>
              let? out := tcg_optimize_loop fuel s st (op :: ops) in Some (op2 :: out)
          end
      end
  end.

(** [st] is the state of the static arrays [temps] and [temps_used] when the
    pass starts.  An operation is visited at most twice. *)
Definition tcg_optimize (s : TCGContext) (st : opt_state) (ops : list TCGOp) : option (list TCGOp) :=
  tcg_optimize_loop (2 * length ops) s (reset_all_temps st (nb_temps s)) ops.
