(* ===== verification/TcgCopies.v ===== *)
(** * What the optimizer knows, and why it is true

    The invariant of the pass: the copy lists are circular doubly linked lists
    of temporaries in use, and every fact recorded about a temporary holds of
    its value.  The walks along a list come back to their start, and each
    update of the state keeps the invariant. *)

From Stdlib Require Import ZArith Lia List Bool.
From S2P Require Import Prelude Bitops TcgIr TcgOpt.
Import ListNotations.
Local Open Scope Z_scope.
Local Open Scope c_scope.

Lemma all_ones_mask x : inU 32 x -> x .& ALL_ONES = x.
Proof.
  intros H; change ALL_ONES with (Z.ones 32); rewrite Z.land_ones by lia.
  now apply (wrap_id 32).
Qed.

Lemma all_ones_range : inU 32 ALL_ONES.
Proof. unfold inU, ALL_ONES; lia. Qed.

(** ** Stores *)

Section Copies.
  Variable s : TCGContext.
  Hypothesis few_temps : (nb_temps s <= TCG_MAX_TEMPS)%nat.

Definition in_temps (t : Z) : Prop := 0 <= t < Z.of_nat (nb_temps s).

Definition wf_store (m : store) : Prop := length m = nb_temps s /\ Forall (inU 32) m.

Lemma rd_wr_eq m t v : wf_store m -> in_temps t -> rd (wr m t v) t = v.
Proof. intros [L _] H; apply nth_upd_eq; unfold in_temps in H; lia. Qed.

Lemma rd_wr_ne m t u v : in_temps t -> in_temps u -> t <> u -> rd (wr m t v) u = rd m u.
Proof. intros Ht Hu N; apply nth_upd_ne; unfold in_temps in *; lia. Qed.

Lemma rd_range m t : wf_store m -> in_temps t -> inU 32 (rd m t).
Proof.
  intros [L F] H; unfold rd; rewrite Forall_forall in F; apply F, nth_In; unfold in_temps in H; lia.
Qed.

Lemma wf_wr m t v : wf_store m -> inU 32 v -> wf_store (wr m t v).
Proof.
  intros [L F] Hv; split; [unfold wr; now rewrite length_upd|].
  unfold wr; generalize (Z.to_nat t); clear L; induction F; intros [|n]; cbn; constructor; auto.
Qed.

(** Writing back the value a temporary holds. *)
Lemma wr_rd m t : wr m t (rd m t) = m.
Proof. apply upd_nth. Qed.

Lemma wr_comm m t u v v' :
  in_temps t -> in_temps u -> t <> u -> wr (wr m t v) u v' = wr (wr m u v') t v.
Proof.
  intros Ht Hu N; unfold wr, in_temps in *.
  assert (Z.to_nat t <> Z.to_nat u) as N' by lia; revert N'.
  generalize (Z.to_nat t), (Z.to_nat u); clear; induction m as [|x m IH]; intros [|i] [|j] N; cbn; auto.
  - congruence.
  - f_equal; apply IH; congruence.
Qed.

Lemma wr_wr m t v v' : wr (wr m t v) t v' = wr m t v'.
Proof. apply upd_upd_eq. Qed.

(** ** The invariant *)

Definition next (st : opt_state) (t : Z) : Z := next_copy (temps st t).
Definition prev (st : opt_state) (t : Z) : Z := prev_copy (temps st t).
Definition live (st : opt_state) (t : Z) : Prop := in_temps t /\ temps_used st t = true.

(** [next] and [prev] are inverse permutations of the temporaries in use. *)
Definition rings (st : opt_state) : Prop :=
  forall t, live st t ->
    live st (next st t) /\ live st (prev st t) /\ prev st (next st t) = t /\ next st (prev st t) = t.

(** The facts recorded about [t] hold in [m]. *)
Definition facts (st : opt_state) (m : store) (t : Z) : Prop :=
  (is_const (temps st t) = true -> rd m t = val (temps st t) /\ mask (temps st t) = val (temps st t)) /\
  rd m (next st t) = rd m t /\
  inU 32 (mask (temps st t)) /\ rd m t .& mask (temps st t) = rd m t.

Definition inv (st : opt_state) (m : store) : Prop :=
  rings st /\ forall t, live st t -> facts st m t.

Lemma inv_reset_all st m : inv (reset_all_temps st (nb_temps s)) m.
Proof.
  assert (N : forall t, ~ live (reset_all_temps st (nb_temps s)) t).
  { intros t [H U]; unfold reset_all_temps, in_temps in *; cbn in U.
    destruct (Z.leb_spec 0 t), (Z.ltb_spec t (Z.of_nat (nb_temps s))); simpl in U; discriminate || lia. }
  split; intros t H; now apply N in H.
Qed.

Lemma live_u16 st t : live st t -> u16 t = t.
Proof.
  intros [H _]; apply wrap_id; unfold in_temps, TCG_MAX_TEMPS, inU in *; lia.
Qed.

Lemma in_temps_u16 t : in_temps t -> u16 t = t.
Proof. intros H; apply wrap_id; unfold in_temps, TCG_MAX_TEMPS, inU in *; lia. Qed.

(** ** Walks *)

Lemma next_inj st t u : rings st -> live st t -> live st u -> next st t = next st u -> t = u.
Proof.
  intros R Ht Hu E; destruct (R t Ht) as (_ & _ & <- & _), (R u Hu) as (_ & _ & <- & _); congruence.
Qed.

Definition nth_next st (k : nat) (t : Z) : Z := Nat.iter k (next st) t.

Lemma nth_next_live st k t : rings st -> live st t -> live st (nth_next st k t).
Proof. intros R H; induction k; [exact H|]; cbn; now apply R. Qed.

Lemma nth_next_inj st a b t :
  rings st -> live st t -> nth_next st a t = nth_next st (a + b) t -> t = nth_next st b t.
Proof.
  intros R H; induction a as [|a IH]; [auto|]; cbn; intros E; apply IH.
  eapply next_inj; eauto using nth_next_live.
Qed.

(** A walk that does not end has met only temporaries other than its start. *)
Lemma walk_none st f temp i fuel :
  walk st f temp i fuel = None ->
  forall k, (k <= fuel)%nat -> nth_next st k i <> temp.
Proof.
  revert i; induction fuel as [|fuel IH]; intros i; cbn [walk];
    destruct (Z.eqb_spec i temp) as [|N]; try discriminate;
    destruct (f i); try discriminate.
  - intros _ k Hk; now replace k with 0%nat by lia.
  - intros E [|k] Hk; [exact N|]; specialize (IH _ E k ltac:(lia)).
    unfold nth_next in *; now rewrite Nat.iter_succ_r.
Qed.

Lemma NoDup_bounded (l : list Z) n :
  NoDup l -> (forall x, In x l -> 0 <= x < Z.of_nat n) -> (length l <= n)%nat.
Proof.
  intros N B.
  assert (I : incl l (map Z.of_nat (seq 0 n))).
  { intros x Hx; apply in_map_iff; exists (Z.to_nat x); specialize (B x Hx).
    rewrite in_seq; split; lia. }
  apply (NoDup_incl_length N) in I; now rewrite length_map, length_seq in I.
Qed.

Lemma orbit_NoDup st t n :
  rings st -> live st t -> (forall k, (0 < k <= n)%nat -> nth_next st k t <> t) ->
  NoDup (map (fun k => nth_next st k t) (seq 0 (S n))).
Proof.
  intros R H E.
  assert (G : forall a b, (a < b <= n)%nat -> nth_next st a t <> nth_next st b t).
  { intros a b Hab Eq; replace b with (a + (b - a))%nat in Eq by lia.
    apply nth_next_inj in Eq; auto; now apply (E (b - a)%nat ltac:(lia)). }
  assert (D : forall l, NoDup l -> (forall k, In k l -> (k <= n)%nat) ->
                        NoDup (map (fun k => nth_next st k t) l)).
  { induction 1 as [|k l Hk N IH]; intros B; cbn; constructor.
    - rewrite in_map_iff; intros (k' & Eq & Hk').
      pose proof (B k (or_introl eq_refl)); pose proof (B k' (or_intror Hk')).
      destruct (Nat.lt_trichotomy k k') as [L|[->|L]]; [|contradiction|].
      + apply (G k k'); [lia|congruence].
      + apply (G k' k); [lia|congruence].
    - apply IH; intros; apply B; now right. }
  apply D; [apply seq_NoDup|]; intros k Hk; apply in_seq in Hk; lia.
Qed.

Lemma walk_terminates st f t : rings st -> live st t -> walk_copies st f t <> None.
Proof.
  intros R H E; unfold walk_copies in E.
  assert (N : forall k, (0 < k <= S TCG_MAX_TEMPS)%nat -> nth_next st k t <> t).
  { intros [|k] Hk; [lia|]; pose proof (walk_none _ _ _ _ _ E k ltac:(lia)) as W.
    unfold nth_next in *; now rewrite Nat.iter_succ_r. }
  pose proof (orbit_NoDup st t TCG_MAX_TEMPS R H ltac:(intros; apply N; lia)) as D.
  apply (NoDup_bounded _ (nb_temps s)) in D.
  - rewrite length_map, length_seq in D; lia.
  - intros x Hx; apply in_map_iff in Hx as (k & <- & _); apply (nth_next_live st k t R H).
Qed.

(** What a walk finds is a copy. *)
Lemma walk_found st m f temp i fuel j :
  inv st m -> live st i -> rd m i = rd m temp ->
  walk st f temp i fuel = Some (Some j) -> f j = true /\ live st j /\ rd m j = rd m temp.
Proof.
  intros [R F]; revert i; induction fuel as [|fuel IH]; intros i Hi Ei; cbn [walk];
    destruct (Z.eqb_spec i temp); try discriminate; destruct (f i) eqn:Fi; try discriminate.
  - intros [= <-]; auto.
  - intros [= <-]; auto.
  - intros W; apply (IH _ (proj1 (R i Hi))); [|exact W].
    destruct (F i Hi) as (_ & E & _); congruence.
Qed.

Lemma walk_copies_ok st m f t :
  inv st m -> live st t ->
  exists r, walk_copies st f t = Some r /\
    forall j, r = Some j -> f j = true /\ live st j /\ rd m j = rd m t.
Proof.
  intros I H; destruct (walk_copies st f t) as [r|] eqn:E; [|now apply walk_terminates in E; destruct I].
  exists r; split; [reflexivity|]; intros j ->; destruct I as [R F].
  eapply walk_found; [split; eauto| | |exact E]; [apply R; auto|].
  apply (F t H).
Qed.

Lemma find_better_copy_ok st m t :
  inv st m -> live st t ->
  exists u, find_better_copy s st t = Some u /\ live st u /\ rd m u = rd m t.
Proof.
  intros I H; unfold find_better_copy; destruct (t <? _); [eauto|].
  destruct (walk_copies_ok st m (fun i => i <? Z.of_nat (nb_globals s)) t I H) as (r & -> & G).
  destruct r as [u|]; [destruct (G u eq_refl) as (_ & L & E); eauto|].
  destruct (negb (temp_local s t)); [|eauto].
  destruct (walk_copies_ok st m (temp_local s) t I H) as (r & -> & G').
  destruct r as [u|]; [destruct (G' u eq_refl) as (_ & L & E)|]; eauto.
Qed.

Lemma temps_are_copies_ok st m t u :
  inv st m -> live st t -> live st u ->
  exists b, temps_are_copies st t u = Some b /\ (b = true -> rd m t = rd m u).
Proof.
  intros I Ht Hu; unfold temps_are_copies; destruct (Z.eqb_spec t u) as [->|]; [eauto|].
  destruct (_ || _); [exists false; split; [reflexivity|discriminate]|].
  destruct (walk_copies_ok st m (fun i => i =? u) t I Ht) as (r & -> & G).
  destruct r as [j|]; eexists; (split; [reflexivity|]); [|discriminate].
  intros _; destruct (G j eq_refl) as (E & _ & V); apply Z.eqb_eq in E; congruence.
Qed.

(** ** Updates of the state *)

Lemma temps_set_temp st t f x :
  temps (set_temp st t f) x = if x =? t then f (temps st x) else temps st x.
Proof. reflexivity. Qed.

Lemma used_set_temp st t f : temps_used (set_temp st t f) = temps_used st.
Proof. reflexivity. Qed.

Lemma live_set_temp st t f x : live (set_temp st t f) x <-> live st x.
Proof. reflexivity. Qed.

(** [init_temp_info] makes [t] a temporary in use about which nothing is known;
    the facts about the others stay. *)
Lemma init_temp_info_ok st m t :
  wf_store m -> in_temps t -> inv st m ->
  inv (init_temp_info st t) m /\ live (init_temp_info st t) t /\
  forall u, live st u -> live (init_temp_info st t) u.
Proof.
  intros Wm Ht [R F]; unfold init_temp_info; destruct (temps_used st t) eqn:U; cbn [negb].
  - split; [split; auto|]; split; [split; auto|auto].
  - set (st' := mkSt _ _).
    assert (T : forall x, temps st' x =
      if x =? t then mkInfo false t t (val (temps st t)) ALL_ONES else temps st x).
    { intros x; subst st'; cbn; destruct (Z.eqb_spec x t) as [->|]; [|reflexivity].
      now rewrite (in_temps_u16 t Ht). }
    assert (L : forall x, live st' x <-> x = t \/ live st x).
    { intros x; unfold live; subst st'; cbn; destruct (Z.eqb_spec x t) as [->|]; intuition congruence. }
    clearbody st'; assert (Nt : forall x, live st x -> x <> t) by (intros x [_ Ux] ->; congruence).
    assert (E : forall x, live st x -> temps st' x = temps st x)
      by (intros x Hx; rewrite T; destruct (Z.eqb_spec x t); [now apply Nt in Hx|reflexivity]).
    assert (Et : temps st' t = mkInfo false t t (val (temps st t)) ALL_ONES)
      by (rewrite T, Z.eqb_refl; reflexivity).
    split; [split|split; [now apply L; left|intros; apply L; now right]].
    + intros x Hx; apply L in Hx as [->|Hx]; unfold next, prev.
      * rewrite Et; cbn; rewrite Et; cbn; rewrite !L; tauto.
      * destruct (R x Hx) as (Hn & Hp & P & N); unfold next, prev in *.
        rewrite (E x Hx), (E _ Hn), (E _ Hp), !L; tauto.
    + intros x Hx; apply L in Hx as [->|Hx]; unfold facts, next.
      * rewrite Et; cbn; splits; try discriminate; auto using all_ones_range.
        apply all_ones_mask; now apply rd_range.
      * rewrite (E x Hx); now apply F.
Qed.

(** The state after [reset_temp]. *)
Lemma reset_temp_temps st t x :
  rings st -> live st t ->
  temps (reset_temp st t) x =
    if x =? t then mkInfo false t t (val (temps st t)) ALL_ONES
    else mkInfo (is_const (temps st x))
           (if x =? next st t then prev st t else prev st x)
           (if x =? prev st t then next st t else next st x)
           (val (temps st x)) (mask (temps st x)).
Proof.
  intros R H; destruct (R t H) as (Hn & Hp & P & N).
  unfold reset_temp, set_mask, set_const, set_prev, set_next, next, prev in *.
  cbv zeta; rewrite !temps_set_temp.
  assert (Un := live_u16 _ _ Hn); assert (Up := live_u16 _ _ Hp); assert (Ut := live_u16 _ _ H).
  repeat (rewrite temps_set_temp || cbn [next_copy prev_copy is_const val mask]).
  destruct (Z.eqb_spec x t) as [->|Nx].
  - destruct (Z.eqb_spec t (next_copy (temps st t))); cbn [next_copy prev_copy is_const val mask];
      repeat (case_bool; cbn [next_copy prev_copy is_const val mask]); rewrite ?Ut; reflexivity.
  - destruct (Z.eqb_spec t (next_copy (temps st t))) as [Et|]; cbn [next_copy prev_copy is_const val mask].
    + assert (prev_copy (temps st t) = t) as Ep by (rewrite <- Et in P; exact P).
      rewrite Ep, <- Et, Ut; destruct (Z.eqb_spec x t); [contradiction|].
      destruct (temps st x); reflexivity.
    + rewrite Un, Up; destruct (Z.eqb_spec x (next_copy (temps st t))),
        (Z.eqb_spec x (prev_copy (temps st t))); cbn [next_copy prev_copy is_const val mask];
        destruct (temps st x); reflexivity.
Qed.

Lemma live_reset_temp st t x : live (reset_temp st t) x <-> live st x.
Proof. reflexivity. Qed.

(** Temporary [t] is alone, and the facts recorded about the others hold
    whatever its value. *)
Definition alone (st : opt_state) (t : Z) : Prop := next st t = t /\ prev st t = t.

Definition inv_but (t : Z) (st : opt_state) (m : store) : Prop :=
  rings st /\ alone st t /\ forall x, live st x -> x <> t -> facts st m x.

Lemma reset_temp_ok st m t : live st t -> inv st m -> inv_but t (reset_temp st t) m.
Proof.
  intros H [R F]; destruct (R t H) as (Hn & Hp & P & N).
  assert (T := fun x => reset_temp_temps st t x R H).
  assert (Et : temps (reset_temp st t) t = mkInfo false t t (val (temps st t)) ALL_ONES)
    by (rewrite T, Z.eqb_refl; reflexivity).
  assert (Nx : forall x, live st x -> x <> t -> next (reset_temp st t) x = if x =? prev st t then next st t else next st x).
  { intros x Hx Nx; unfold next at 1; rewrite T; destruct (Z.eqb_spec x t); [contradiction|reflexivity]. }
  assert (Px : forall x, live st x -> x <> t -> prev (reset_temp st t) x = if x =? next st t then prev st t else prev st x).
  { intros x Hx Nx'; unfold prev at 1; rewrite T; destruct (Z.eqb_spec x t); [contradiction|reflexivity]. }
  assert (A : alone (reset_temp st t) t) by (unfold alone, next, prev; rewrite Et; auto).
  split; [|split; [exact A|]].
  - intros x Hx; rewrite !live_reset_temp; destruct (Z.eq_dec x t) as [->|D].
    + destruct A as [-> A]; rewrite A; unfold next, prev; rewrite Et; auto.
    + destruct (R x Hx) as (Hxn & Hxp & PX & NX).
      rewrite (Nx x Hx D), (Px x Hx D).
      destruct (Z.eqb_spec x (prev st t)) as [E1|N1], (Z.eqb_spec x (next st t)) as [E2|N2].
      * assert (prev st t <> t) by congruence; assert (next st t <> t) by congruence.
        rewrite (Px (next st t)), (Nx (prev st t)), !Z.eqb_refl by assumption; auto.
      * assert (next st t <> t) by (intros E; rewrite E in P; congruence).
        assert (prev st x <> t) by congruence.
        rewrite (Px (next st t)), Z.eqb_refl, (Nx (prev st x)) by assumption.
        destruct (Z.eqb_spec (prev st x) (prev st t)) as [E|]; [congruence|]; auto.
      * assert (prev st t <> t) by (intros E; rewrite E in N; congruence).
        assert (next st x <> t) by congruence.
        rewrite (Nx (prev st t)), Z.eqb_refl, (Px (next st x)) by assumption.
        destruct (Z.eqb_spec (next st x) (next st t)) as [E|]; [congruence|]; auto.
      * assert (next st x <> t) by congruence; assert (prev st x <> t) by congruence.
        rewrite (Px (next st x)), (Nx (prev st x)) by assumption.
        destruct (Z.eqb_spec (next st x) (next st t)) as [E|]; [congruence|].
        destruct (Z.eqb_spec (prev st x) (prev st t)) as [E|]; [congruence|]; auto.
  - intros x Hx D; destruct (F x Hx) as (C & V & M1 & M2), (F t H) as (_ & Vt & _).
    unfold facts; rewrite (Nx x Hx D), T; destruct (Z.eqb_spec x t); [contradiction|].
    cbn [is_const val mask]; splits; auto.
    destruct (Z.eqb_spec x (prev st t)) as [->|]; [|exact V].
    rewrite Vt, <- N at 1; rewrite V; reflexivity.
Qed.

(** Facts about the new value [v] of [t] complete the invariant. *)
Lemma inv_but_wr st m t v :
  wf_store m -> live st t -> inv_but t st m ->
  (is_const (temps st t) = true -> v = val (temps st t) /\ mask (temps st t) = val (temps st t)) ->
  inU 32 (mask (temps st t)) -> v .& mask (temps st t) = v ->
  inv st (wr m t v).
Proof.
  intros Wm H (R & [An Ap] & F) C M1 M2; split; [exact R|]; intros x Hx; unfold facts.
  assert (Ht : in_temps t) by apply H.
  destruct (Z.eq_dec x t) as [->|D].
  - rewrite An, !rd_wr_eq by assumption; auto.
  - destruct (F x Hx D) as (Cx & Vx & Mx1 & Mx2); destruct (R x Hx) as (Hn & _ & P & _).
    assert (next st x <> t) by (intros E; rewrite E in P; congruence).
    rewrite !rd_wr_ne by (try apply Hx; try apply Hn; auto); auto.
Qed.

Lemma set_fields_ok st m t f :
  (forall i, next_copy (f i) = next_copy i /\ prev_copy (f i) = prev_copy i) ->
  inv_but t st m -> inv_but t (set_temp st t f) m.
Proof.
  intros K (R & [An Ap] & F).
  assert (En : forall x, next (set_temp st t f) x = next st x)
    by (intros x; unfold next; cbn; destruct (x =? t); [apply K|reflexivity]).
  assert (Ep : forall x, prev (set_temp st t f) x = prev st x)
    by (intros x; unfold prev; cbn; destruct (x =? t); [apply K|reflexivity]).
  split; [|split].
  - intros x Hx; rewrite !En, !Ep, ?En, ?Ep; exact (R x Hx).
  - split; [now rewrite En|now rewrite Ep].
  - intros x Hx D; unfold facts; rewrite En; cbn; destruct (Z.eqb_spec x t); [contradiction|].
    exact (F x Hx D).
Qed.

(** Read the field of the temporary that was set last. *)
Ltac fields :=
  unfold set_mask, set_val, set_const; rewrite ?temps_set_temp, ?Z.eqb_refl;
  cbn [is_const val mask next_copy prev_copy].

(** [dst] becomes the constant [v]. *)
Lemma gen_movi_ok st m dst v :
  wf_store m -> inv st m -> live st dst -> inU 32 v ->
  inv (set_mask (set_val (set_const (reset_temp st dst) dst true) dst v) dst v) (wr m dst v).
Proof.
  intros Wm I H Hv; apply inv_but_wr; auto.
  - do 3 (apply set_fields_ok; [now split|]); now apply reset_temp_ok.
  - fields; auto.
  - fields; auto.
  - fields; apply Z.land_diag.
Qed.

(** [dst] gets a value of which only the mask [k] is known. *)
Lemma reset_mask_ok st m t v k :
  wf_store m -> inv st m -> live st t -> inU 32 k -> v .& k = v ->
  inv (set_mask (reset_temp st t) t k) (wr m t v).
Proof.
  intros Wm I H Hk Hv; apply inv_but_wr; auto.
  - apply set_fields_ok; [now split|]; now apply reset_temp_ok.
  - destruct I as [R _]; fields.
    rewrite (reset_temp_temps st t t R H), Z.eqb_refl; discriminate.
  - fields; exact Hk.
  - fields; exact Hv.
Qed.

Lemma reset_value_ok st m t v :
  wf_store m -> inv st m -> live st t -> inU 32 v -> inv (reset_temp st t) (wr m t v).
Proof.
  intros Wm I H Hv; destruct I as [R F].
  assert (E := reset_temp_temps st t t R H); rewrite Z.eqb_refl in E.
  apply inv_but_wr; auto; [apply reset_temp_ok; [assumption|now split]|..]; rewrite E; cbn.
  - discriminate.
  - apply all_ones_range.
  - now apply all_ones_mask.
Qed.

(** [dst] is inserted after [src] in its list of copies. *)
Definition link (st : opt_state) (dst src : Z) : opt_state :=
  let st := set_next st dst (next_copy (temps st src)) in
  let st := set_prev st dst src in
  let st := set_prev st (next_copy (temps st dst)) dst in
  let st := set_next st src dst in
  let st := set_const st dst (is_const (temps st src)) in
  set_val st dst (val (temps st src)).

Lemma link_temps st dst src x :
  rings st -> live st dst -> live st src -> dst <> src -> next st src <> dst ->
  temps (link st dst src) x =
    if x =? dst then mkInfo (is_const (temps st src)) src (next st src) (val (temps st src))
                       (mask (temps st dst))
    else mkInfo (is_const (temps st x)) (if x =? next st src then dst else prev st x)
           (if x =? src then dst else next st x) (val (temps st x)) (mask (temps st x)).
Proof.
  intros R Hd Hs D N; destruct (R src Hs) as (Hn & _); unfold link, next, prev in *.
  assert (Un := live_u16 _ _ Hn); assert (Ud := live_u16 _ _ Hd); assert (Us := live_u16 _ _ Hs).
  unfold set_val, set_const, set_prev, set_next; cbv zeta.
  repeat (rewrite temps_set_temp || cbn [next_copy prev_copy is_const val mask]).
  rewrite !Z.eqb_refl; cbn [next_copy prev_copy is_const val mask].
  rewrite Un; repeat (rewrite temps_set_temp || cbn [next_copy prev_copy is_const val mask]).
  destruct (Z.eqb_spec dst (next_copy (temps st src))) as [E|_]; [congruence|].
  destruct (Z.eqb_spec src dst) as [E|_]; [congruence|].
  destruct (Z.eqb_spec dst src) as [E|_]; [congruence|].
  destruct (Z.eqb_spec x dst) as [->|Nx]; cbn [next_copy prev_copy is_const val mask].
  - destruct (Z.eqb_spec dst src) as [E|_]; [congruence|].
    destruct (Z.eqb_spec dst (next_copy (temps st src))) as [E|_]; [congruence|].
    rewrite ?Z.eqb_refl; cbn [next_copy prev_copy is_const val mask].
    destruct (Z.eqb_spec src (next_copy (temps st src))); cbn [is_const val];
      rewrite ?Un, ?Us; reflexivity.
  - destruct (Z.eqb_spec x src), (Z.eqb_spec x (next_copy (temps st src)));
      cbn [next_copy prev_copy is_const val mask]; rewrite ?Ud;
      repeat (case_bool; [congruence|]); cbn [next_copy prev_copy is_const val mask];
      destruct (temps st x); reflexivity.
Qed.

Lemma link_ok st m dst src :
  wf_store m -> live st dst -> live st src -> dst <> src -> inv_but dst st m ->
  mask (temps st dst) = mask (temps st src) ->
  inv (link st dst src) (wr m dst (rd m src)).
Proof.
  intros Wm Hd Hs D (R & [An Ap] & F) Em.
  destruct (R src Hs) as (Hn & Hp & P & N).
  assert (Nd : next st src <> dst) by (intros E; rewrite E in P; congruence).
  assert (T := fun x => link_temps st dst src x R Hd Hs D Nd).
  destruct (F src Hs (not_eq_sym D)) as (C & V & M1 & M2).
  assert (Nx : forall x, next (link st dst src) x =
    if x =? dst then next st src else if x =? src then dst else next st x)
    by (intros x; unfold next at 1; rewrite T; destruct (x =? dst); reflexivity).
  assert (Px : forall x, prev (link st dst src) x =
    if x =? dst then src else if x =? next st src then dst else prev st x)
    by (intros x; unfold prev at 1; rewrite T; destruct (x =? dst); reflexivity).
  assert (Id := proj1 Hd); assert (Is := proj1 Hs).
  assert (V' : forall x, in_temps x -> x <> dst -> rd (wr m dst (rd m src)) x = rd m x)
    by (intros; apply rd_wr_ne; auto).
  split.
  - intros x Hx; change (live (link st dst src)) with (live st); rewrite Nx, Px.
    destruct (Z.eqb_spec x dst) as [->|Dx].
    + rewrite Nx, Px, !Z.eqb_refl; splits; auto.
      * destruct (Z.eqb_spec (next st src) dst); [contradiction|reflexivity].
      * destruct (Z.eqb_spec src dst); [congruence|reflexivity].
    + destruct (R x Hx) as (Hxn & Hxp & PX & NX); splits.
      * destruct (x =? src); auto.
      * destruct (x =? next st src); auto.
      * destruct (Z.eqb_spec x src) as [->|]; [now rewrite Px, Z.eqb_refl|].
        rewrite Px; destruct (Z.eqb_spec (next st x) dst) as [E|]; [rewrite E in PX; congruence|].
        destruct (Z.eqb_spec (next st x) (next st src)) as [E|]; [|exact PX].
        apply next_inj in E; auto; contradiction.
      * destruct (Z.eqb_spec x (next st src)) as [->|Nxs]; [now rewrite Nx, Z.eqb_refl|].
        rewrite Nx; destruct (Z.eqb_spec (prev st x) dst) as [E|]; [rewrite E in NX; congruence|].
        destruct (Z.eqb_spec (prev st x) src) as [E|]; [congruence|exact NX].
  - intros x Hx; change (live (link st dst src) x) with (live st x) in Hx; unfold facts; rewrite Nx, T.
    destruct (Z.eqb_spec x dst) as [->|Dx]; cbn [is_const val mask].
    + rewrite rd_wr_eq, V', Em by (assumption || apply Hn); splits; auto.
    + destruct (F x Hx Dx) as (Cx & Vx & Mx1 & Mx2).
      rewrite V' by (auto; apply Hx); splits; auto.
      destruct (Z.eqb_spec x src) as [->|]; [now apply rd_wr_eq|].
      destruct (R x Hx) as (Hxn & _ & PX & _); rewrite V'; auto; [apply Hxn|].
      intros E; rewrite E in PX; congruence.
Qed.

(** The outputs of an operation are forgotten, the first keeps a mask. *)
Lemma reset_outputs_ok outs : forall st m vs,
  wf_store m -> inv st m -> Forall (live st) outs -> Forall (inU 32) vs ->
  length vs = length outs ->
  inv (reset_outputs st outs) (wrs m outs vs).
Proof.
  induction outs as [|t outs IH]; intros st m [|v vs] Wm I Fo Fv E; try discriminate; [exact I|].
  inversion_clear Fo; inversion_clear Fv; injection E as E; cbn [reset_outputs wrs].
  apply IH; auto using wf_wr, reset_value_ok.
Qed.

Lemma wf_wrs ts vs m : wf_store m -> Forall (inU 32) vs -> wf_store (wrs m ts vs).
Proof.
  revert vs m; induction ts as [|t ts IH]; intros [|v vs] m Wm Fv; cbn [wrs]; auto.
  inversion_clear Fv; apply IH; auto using wf_wr.
Qed.

Lemma do_reset_output_ok st m op k vs :
  wf_store m -> inv st m -> Forall (live st) (oargs op) -> Forall (inU 32) vs ->
  length vs = length (oargs op) -> inU 32 k ->
  (forall v vs', vs = v :: vs' -> v .& k = v) ->
  inv (do_reset_output st op k) (wrs m (oargs op) vs).
Proof.
  intros Wm I Fo Fv E Hk Hv; unfold do_reset_output; destruct (oargs op) as [|t outs], vs as [|v vs];
    try discriminate; [exact I|].
  inversion_clear Fo; inversion_clear Fv; injection E as E; cbn [wrs].
  apply reset_outputs_ok; auto using wf_wr.
  apply reset_mask_ok; auto; now apply (Hv v vs).
Qed.

(** ** Globals *)

Lemma reset_temp_inv_same st m t : wf_store m -> inv st m -> live st t -> inv (reset_temp st t) m.
Proof.
  intros Wm I H; rewrite <- (wr_rd m t); apply reset_value_ok; auto; apply rd_range; auto; apply H.
Qed.

(** After the globals in use below [n] are forgotten, their values may change. *)
Definition forgotten (st : opt_state) (n : nat) : Prop :=
  forall t, live st t -> t < Z.of_nat n -> alone st t /\ is_const (temps st t) = false /\ mask (temps st t) = ALL_ONES.

Lemma reset_globals_upto st m n :
  wf_store m -> inv st m -> (n <= nb_temps s)%nat ->
  let st' := fold_left (fun st i => if temps_used st (Z.of_nat i) then reset_temp st (Z.of_nat i) else st)
               (seq 0 n) st in
  inv st' m /\ forgotten st' n /\ (forall t, live st' t <-> live st t).
Proof.
  intros Wm I Hn; induction n as [|n IH]; [split; [exact I|split; [|reflexivity]]|].
  - intros t [Ht _] H; unfold in_temps in Ht; lia.
  - rewrite seq_S, fold_left_app; cbn [fold_left Nat.add].
    destruct IH as (I' & Fo & L); [lia|].
    set (st' := fold_left _ _ _) in *; clearbody st'.
    destruct (temps_used st' (Z.of_nat n)) eqn:U.
    + assert (Hl : live st' (Z.of_nat n)) by (split; [unfold in_temps; lia|exact U]).
      split; [now apply reset_temp_inv_same|]; split; [|exact L].
      intros t Ht Hlt; change (live (reset_temp st' (Z.of_nat n)) t) with (live st' t) in Ht.
      destruct I' as [R F]; assert (T := fun x => reset_temp_temps st' (Z.of_nat n) x R Hl).
      unfold alone, next, prev; rewrite T; destruct (Z.eqb_spec t (Z.of_nat n)) as [->|N]; [cbn; auto|].
      destruct (Fo t Ht ltac:(lia)) as ([An Ap] & C & K); cbn [is_const prev_copy next_copy mask].
      destruct (R _ Hl) as (_ & _ & P & Nn).
      split; [|auto]; split.
      * destruct (Z.eqb_spec t (prev st' (Z.of_nat n))) as [E|]; [congruence|exact An].
      * destruct (Z.eqb_spec t (next st' (Z.of_nat n))) as [E|]; [congruence|exact Ap].
    + split; [exact I'|]; split; [|exact L]; intros t Ht Hlt.
      destruct (Z.eq_dec t (Z.of_nat n)) as [->|]; [destruct Ht; congruence|apply Fo; auto; lia].
Qed.

(** Forgotten globals may take any value. *)
Lemma forgotten_ok st m m' n :
  wf_store m' -> inv st m -> forgotten st n ->
  (forall t, in_temps t -> Z.of_nat n <= t -> rd m' t = rd m t) -> inv st m'.
Proof.
  intros Wm [R F] Fo E; split; [exact R|]; intros t Ht.
  destruct (Z.lt_ge_cases t (Z.of_nat n)) as [H|H].
  - destruct (Fo t Ht H) as ([An _] & C & K); unfold facts; rewrite An, C, K; splits; auto.
    + discriminate.
    + apply all_ones_range.
    + apply all_ones_mask, rd_range; auto; apply Ht.
  - destruct (F t Ht) as (C & V & M1 & M2); unfold facts; rewrite (E t (proj1 Ht) H).
    splits; auto; destruct (R t Ht) as (Hn & _ & P & _).
    rewrite (E (next st t)); [exact V|apply Hn|].
    destruct (Z.lt_ge_cases (next st t) (Z.of_nat n)) as [G|]; [|assumption].
    destruct (Fo _ Hn G) as ([_ Ap] & _); rewrite P in Ap; rewrite <- Ap; assumption.
Qed.
End Copies.
