(* ===== verification/TcgFold.v ===== *)
(** * Constant folding and known-zero bits against the meaning of the operations

    The condition codes and their symmetries, [do_constant_folding] on every
    opcode it handles, and the masks of [known_zeros]. *)

From Stdlib Require Import ZArith Lia List Bool.
From S2P Require Import Prelude Bitops BitRoute TcgIr TcgOpt.
Import ListNotations.
Local Open Scope Z_scope.
Local Open Scope c_scope.

(** ** Conditions *)

Lemma fold_cond_32 x y c : do_constant_folding_cond_32 x y c = cond_holds 32 c x y.
Proof.
  unfold do_constant_folding_cond_32, cond_holds; rewrite !Z.geb_leb, !Z.gtb_ltb; reflexivity.
Qed.

Lemma fold_cond_64 x y c : do_constant_folding_cond_64 x y c = cond_holds 64 c x y.
Proof.
  unfold do_constant_folding_cond_64, cond_holds; rewrite !Z.geb_leb, !Z.gtb_ltb; reflexivity.
Qed.

(** A comparison is one of ten constants. *)
Lemma comparison_cases c (P : Z -> Prop) :
  P TCG_COND_EQ -> P TCG_COND_NE -> P TCG_COND_LT -> P TCG_COND_GE -> P TCG_COND_LE ->
  P TCG_COND_GT -> P TCG_COND_LTU -> P TCG_COND_GEU -> P TCG_COND_LEU -> P TCG_COND_GTU ->
  comparison c = true -> P c.
Proof.
  intros; apply existsb_exists in H9 as (x & I & E); apply Z.eqb_eq in E; subst x.
  cbn [In] in I; intuition congruence.
Qed.

Ltac by_comparison c := pattern c; apply comparison_cases; [..|assumption].

Lemma cond_holds_some w c x y : comparison c = true -> exists b, cond_holds w c x y = Some b.
Proof. intros; by_comparison c; eexists; reflexivity. Qed.

Lemma fold_cond_eq w c x :
  comparison c = true -> do_constant_folding_cond_eq c = cond_holds w c x x.
Proof.
  intros; by_comparison c; unfold cond_holds; cbn; rewrite ?Z.eqb_refl, ?Z.ltb_irrefl, ?Z.leb_refl;
    reflexivity.
Qed.

Lemma swap_cond_ok w c x y :
  comparison c = true ->
  comparison (tcg_swap_cond c) = true /\
  cond_holds w (tcg_swap_cond c) y x = cond_holds w c x y.
Proof.
  intros; by_comparison c; (split; [reflexivity|]); unfold cond_holds; cbn;
    rewrite ?(Z.eqb_sym y x); reflexivity.
Qed.

Lemma invert_cond_ok w c x y :
  comparison c = true ->
  comparison (tcg_invert_cond c) = true /\
  cond_holds w (tcg_invert_cond c) x y = option_map negb (cond_holds w c x y).
Proof.
  intros; by_comparison c; (split; [reflexivity|]); unfold cond_holds; cbn;
    rewrite ?negb_involutive, ?Z.leb_antisym, ?negb_involutive; reflexivity.
Qed.

Lemma cond_ltu_zero w x : 0 <= x -> cond_holds w TCG_COND_LTU x 0 = Some false.
Proof. intros; unfold cond_holds; cbn; f_equal; apply Z.ltb_ge; lia. Qed.

Lemma cond_geu_zero w x : 0 <= x -> cond_holds w TCG_COND_GEU x 0 = Some true.
Proof. intros; unfold cond_holds; cbn; f_equal; apply Z.leb_le; lia. Qed.

(** ** Double words *)

Lemma dword_range l h : inU 32 l -> inU 32 h -> inU 64 (dword l h).
Proof. unfold inU, dword; lia. Qed.

Lemma dword_code l h : inU 32 l -> inU 32 h -> u64 (h .<< 32) .| u32 l = dword l h.
Proof.
  intros Hl Hh; rewrite (wrap_id 32 l), wrap_id by
    (assumption || (rewrite Z.shiftl_mul_pow2 by lia; unfold inU in *; lia)).
  rewrite Z.lor_comm; now apply lor_shiftl_add.
Qed.

Lemma dword_inj l h l' h' :
  inU 32 l -> inU 32 l' -> dword l h = dword l' h' <-> l = l' /\ h = h'.
Proof. unfold inU, dword; intros; split; [|intros [-> ->]; reflexivity]; intros; split; nia. Qed.

(** A double-word comparison against zero looks at the high word only. *)
Lemma cond_dword_high c l h :
  inU 32 l -> inU 32 h -> c = TCG_COND_LT \/ c = TCG_COND_GE ->
  cond_holds 64 c (dword l h) (dword 0 0) = cond_holds 32 c h 0.
Proof.
  intros Hl Hh C; unfold dword.
  destruct C as [-> | ->]; unfold cond_holds; cbn -[Z.mul Z.pow Z.add swrap]; f_equal; cases.
Qed.

Lemma cond_dword_eq l h l' h' :
  inU 32 l -> inU 32 l' ->
  cond_holds 64 TCG_COND_EQ (dword l h) (dword l' h') = Some ((l =? l') && (h =? h')) /\
  cond_holds 64 TCG_COND_NE (dword l h) (dword l' h') = Some (negb ((l =? l') && (h =? h'))).
Proof.
  intros; pose proof (dword_inj l h l' h' H H0) as I.
  unfold cond_holds; cbn -[dword].
  replace (dword l h =? dword l' h') with ((l =? l') && (h =? h')); [auto|].
  destruct (Z.eqb_spec l l'), (Z.eqb_spec h h'), (Z.eqb_spec (dword l h) (dword l' h'));
    cbn; tauto || reflexivity.
Qed.

(** ** Folding *)

(** The result of folding is the value of the operation where that is defined. *)
Definition folds (opc : TCGOpcode) (i : list Z) (r : option Z) : Prop :=
  exists v, r = Some v /\ inU 32 v /\ (eval_pure opc i [] = None \/ eval_pure opc i [] = Some [v]).

Definition folded2 (opc : TCGOpcode) : bool :=
  match opc with
  | add_i32 | sub_i32 | mul_i32 | or_i32 | and_i32 | xor_i32 | shl_i32 | shr_i32 | sar_i32
  | rotl_i32 | rotr_i32 | andc_i32 | orc_i32 | eqv_i32 | nand_i32 | nor_i32 | muluh_i32 | mulsh_i32
  | div_i32 | divu_i32 | rem_i32 | remu_i32 => true
  | _ => false
  end.

Definition folded1 (opc : TCGOpcode) : bool :=
  match opc with
  | not_i32 | neg_i32 | ext8s_i32 | ext8u_i32 | ext16s_i32 | ext16u_i32 => true
  | _ => false
  end.

Lemma fold_range r : inU 32 (u32 (s32 r)).
Proof. apply wrap_range; lia. Qed.

Lemma fold_canon r : u32 (s32 r) = u32 r.
Proof. apply wrap_swrap; lia. Qed.

Lemma land31 y : inU 32 y -> (y <? 32) = true -> y .& 31 = y.
Proof.
  intros Hy L; apply Z.ltb_lt in L; change 31 with (Z.ones 5); rewrite Z.land_ones by lia.
  apply Z.mod_small; unfold inU in *; lia.
Qed.

Lemma wrap_lnot_lor x y : u32 (x .| u32 (Z.lnot y)) = u32 (x .| Z.lnot y).
Proof. rewrite !wrap_lor, wrap_wrap by lia; reflexivity. Qed.

Lemma wrap_lnot_land x y : u32 (x .& u32 (Z.lnot y)) = u32 (x .& Z.lnot y).
Proof. rewrite !wrap_land, wrap_wrap by lia; reflexivity. Qed.

Ltac folding_start :=
  unfold do_constant_folding; cbn [do_constant_folding_2 op_bits tcg_op_defs OPF_64BIT Z.eqb Pos.eqb];
  eexists; (split; [reflexivity|]); (split; [apply fold_range|]);
  cbn [eval_pure]; unfold bin, un, shift, sdiv, udiv; rewrite fold_canon.

Lemma fold2_ok opc x y :
  folded2 opc = true -> inU 32 x -> inU 32 y -> folds opc [x; y] (do_constant_folding opc x y).
Proof.
  intros F Hx Hy; destruct opc; try discriminate F; folding_start;
    try solve [right; rewrite ?wrap_wrap by lia; reflexivity].
  - (* div *) destruct (Z.eqb_spec y 0) as [->|N]; cbn [orb]; [auto|].
    destruct (_ && _); [auto|right]; do 2 f_equal.
    rewrite wrap_wrap by lia; do 2 f_equal; unfold or_one, truthy.
    destruct (Z.eqb_spec (s32 y) 0) as [E|]; [|reflexivity].
    exfalso; rewrite swrap_of_wrap in E by (assumption || lia); revert E; unfold inU in *; cases; lia.
  - (* divu *) destruct (Z.eqb_spec y 0) as [->|N]; [auto|right].
    rewrite !(wrap_id 32 x), !(wrap_id 32 y) by assumption; unfold or_one, truthy.
    destruct (Z.eqb_spec y 0); [contradiction|reflexivity].
  - (* rem *) destruct (Z.eqb_spec y 0) as [->|N]; cbn [orb]; [auto|].
    destruct (_ && _); [auto|right]; do 2 f_equal.
    rewrite wrap_wrap by lia; do 2 f_equal; unfold or_one, truthy.
    destruct (Z.eqb_spec (s32 y) 0) as [E|]; [|reflexivity].
    exfalso; rewrite swrap_of_wrap in E by (assumption || lia); revert E; unfold inU in *; cases; lia.
  - (* remu *) destruct (Z.eqb_spec y 0) as [->|N]; [auto|right].
    rewrite !(wrap_id 32 x), !(wrap_id 32 y) by assumption; unfold or_one, truthy.
    destruct (Z.eqb_spec y 0); [contradiction|reflexivity].
  - (* shl *) destruct (y <? 32) eqn:L; [right|auto].
    rewrite (land31 y Hy L), wrap_wrap, (wrap_id 32 x) by (assumption || lia); reflexivity.
  - (* shr *) destruct (y <? 32) eqn:L; [right|auto].
    rewrite (land31 y Hy L), (wrap_id 32 x) by assumption; reflexivity.
  - (* sar *) destruct (y <? 32) eqn:L; [right|auto].
    rewrite (land31 y Hy L), wrap_wrap by lia; reflexivity.
  - (* rotl *) destruct (y <? 32) eqn:L; [right|auto]; now rewrite (land31 y Hy L).
  - (* rotr *) destruct (y <? 32) eqn:L; [right|auto]; now rewrite (land31 y Hy L).
  - (* muluh *) right; rewrite !(wrap_id 32 x), !(wrap_id 32 y) by assumption.
    rewrite wrap_wrap, (wrap_id 64) by (lia || unfold inU in *; nia); reflexivity.
  - (* mulsh *) right; rewrite wrap_wrap by lia; do 4 f_equal; symmetry; apply swrap_id; [lia|].
    pose proof (swrap_range 32 x eq_refl); pose proof (swrap_range 32 y eq_refl); unfold inS in *; nia.
  - right; now rewrite wrap_lnot_land.
  - right; now rewrite wrap_lnot_lor.
Qed.

Lemma fold1_ok opc x :
  folded1 opc = true -> inU 32 x -> folds opc [x] (do_constant_folding opc x 0).
Proof.
  intros F Hx; destruct opc; try discriminate F; folding_start; right;
    rewrite ?wrap_wrap by lia; reflexivity.
Qed.

(** ** Known-zero bits *)

(** All bits of [v] that are set are set in [m]. *)
Definition within (v m : Z) : Prop := v .& m = v.

Lemma within_bits v m :
  within v m <-> forall i, 0 <= i -> Z.testbit v i = true -> Z.testbit m i = true.
Proof.
  split.
  - intros E i Hi H; rewrite <- E, Z.land_spec in H; now apply andb_true_iff in H.
  - intros H; apply Z.bits_inj'; intros i Hi; rewrite Z.land_spec.
    destruct (Z.testbit v i) eqn:E; [now rewrite (H i Hi E)|reflexivity].
Qed.

Ltac bitwise :=
  rewrite ?within_bits in *; let i := fresh "i" in let Hi := fresh "Hi" in
  intros i Hi; rewrite ?Z.land_spec, ?Z.lor_spec, ?Z.lxor_spec, ?Z.lnot_spec by lia.

Lemma within_zero v : within v 0 <-> v = 0.
Proof. unfold within; rewrite Z.land_0_r; split; congruence. Qed.

Lemma within_self v : within v v.
Proof. apply Z.land_diag. Qed.

Lemma within_land x y mx my : within x mx -> within y my -> within (x .& y) (mx .& my).
Proof.
  intros Hx Hy; bitwise; rewrite !andb_true_iff; intros [A B]; auto.
Qed.

Lemma within_land_l x y mx : within x mx -> within (x .& y) mx.
Proof. intros Hx; bitwise; rewrite andb_true_iff; intros [A B]; auto. Qed.

Lemma within_lor x y mx my : within x mx -> within y my -> within (x .| y) (mx .| my).
Proof. intros Hx Hy; bitwise; rewrite !orb_true_iff; intros [A|A]; auto. Qed.

Lemma within_lxor x y mx my : within x mx -> within y my -> within (x .^ y) (mx .| my).
Proof.
  intros Hx Hy; bitwise; rewrite orb_true_iff; destruct (Z.testbit x i) eqn:E; auto.
Qed.

Lemma within_lor_l x mx my : within x mx -> within x (mx .| my).
Proof. intros; bitwise; rewrite orb_true_iff; auto. Qed.

Lemma within_lor_r x mx my : within x my -> within x (mx .| my).
Proof. intros; bitwise; rewrite orb_true_iff; auto. Qed.

(** Only the low [w] bits are kept. *)
Lemma within_low w x m : 0 <= w -> within x m -> within (wrap w x) (m .& Z.ones w).
Proof.
  intros Hw Hx; bitwise; rewrite testbit_wrap, Z.testbit_ones, !andb_true_iff by lia.
  intros [A B]; splits; auto; apply Z.leb_le; lia.
Qed.

Lemma within_shr k x m : 0 <= k -> within x m -> within (x .>> k) (m .>> k).
Proof. intros Hk Hx; bitwise; rewrite !Z.shiftr_spec by lia; apply Hx; lia. Qed.

Lemma within_shl k x m : 0 <= k -> within x m -> within (u32 (x .<< k)) (u32 (m .<< k)).
Proof.
  intros Hk Hx; bitwise; rewrite !testbit_wrap, !Z.shiftl_spec, !andb_true_iff by lia.
  intros [A B]; split; [assumption|]; destruct (Z.neg_nonneg_cases (i - k)); [|now apply Hx].
  now rewrite Z.testbit_neg_r in B by lia.
Qed.

Lemma within_sar k x m :
  0 <= k -> within x m -> within (u32 (s32 x .>> k)) (u32 (s32 m .>> k)).
Proof.
  intros Hk Hx; bitwise; rewrite !testbit_wrap, !Z.shiftr_spec, !testbit_swrap, !andb_true_iff by lia.
  intros [A B]; split; [assumption|]; apply Hx; [destruct (Z.ltb_spec (i + k) 32); lia|exact B].
Qed.

Lemma within_deposit pos len x y mx my :
  inU 32 x -> inU 32 mx -> 0 <= pos -> 0 < len -> len <= 32 - pos ->
  within x mx -> within y my ->
  within (deposit32 x pos len y) (u32 (deposit64 mx pos len my)).
Proof.
  intros Rx Rm Hp Hl Hw Hx Hy; bitwise; unfold deposit32, deposit64.
  assert (inU 64 mx) by (unfold inU in *; lia).
  rewrite testbit_wrap, !testbit_depositw by (assumption || lia).
  destruct (Z.ltb_spec i 32); cbn [andb].
  - destruct (Z.leb_spec pos i); cbn [andb]; [|now apply Hx].
    destruct (Z.ltb_spec i (pos + len)); [apply Hy; lia|now apply Hx].
  - destruct (Z.ltb_spec i (pos + len)); [lia|]; rewrite andb_false_r.
    now rewrite (testbit_high 32 x) by (assumption || lia).
Qed.

(** The lowest bit that is set. *)
Lemma lowest_bit m : 0 < m -> exists k q, 0 <= k /\ 0 <= q /\ m = 2 ^ k * (2 * q + 1).
Proof.
  intros Hm; destruct m as [|p|p]; try lia; clear Hm.
  induction p as [p _|p (k & q & Hk & Hq & E)|].
  - exists 0, (Z.pos p); lia.
  - exists (k + 1), q; rewrite Z.pow_add_r by lia; change (2 ^ 1) with 2; lia.
  - exists 0, 0; lia.
Qed.

Lemma land_opp m k q :
  0 <= k -> m = 2 ^ k * (2 * q + 1) -> m .& (- m) = 2 ^ k.
Proof.
  intros Hk ->; replace (- (2 ^ k * (2 * q + 1))) with ((- (2 * q + 1)) * 2 ^ k) by lia.
  rewrite (Z.mul_comm (2 ^ k)), <- !Z.shiftl_mul_pow2, <- Z.shiftl_land by lia.
  replace ((2 * q + 1) .& - (2 * q + 1)) with 1; [now rewrite Z.shiftl_1_l|].
  replace (- (2 * q + 1)) with (Z.lnot (2 * q)) by (unfold Z.lnot; lia).
  apply Z.bits_inj'; intros i Hi; rewrite Z.land_spec, Z.lnot_spec by lia.
  destruct (Z.eq_dec i 0) as [->|N]; [now rewrite Z.testbit_odd_0, Z.testbit_even_0|].
  replace i with (Z.succ (i - 1)) by lia.
  rewrite Z.testbit_odd_succ, Z.testbit_even_succ by lia.
  rewrite (Z.bits_above_log2 1) by (cbn; lia).
  destruct (Z.testbit q (i - 1)); reflexivity.
Qed.

Lemma within_multiple x m k q :
  inU 32 x -> 0 <= k -> m = 2 ^ k * (2 * q + 1) -> within x m -> x mod 2 ^ k = 0.
Proof.
  intros Rx Hk -> W; rewrite <- Z.land_ones by lia; apply Z.bits_inj'; intros i Hi.
  rewrite Z.land_spec, Z.testbit_ones, Z.bits_0 by lia.
  destruct (Z.leb_spec 0 i), (Z.ltb_spec i k); cbn [andb]; try apply andb_false_r.
  rewrite andb_true_r; destruct (Z.testbit x i) eqn:E; [|reflexivity].
  rewrite within_bits in W; apply W in E; [|lia].
  now rewrite Z.mul_comm, Z.mul_pow2_bits_low in E by lia.
Qed.

Lemma within_neg x m :
  inU 32 x -> inU 32 m -> within x m -> within (u32 (- x)) (u32 (- (m .& u32 (- m)))).
Proof.
  intros Rx Rm W; destruct (Z.eq_dec m 0) as [->|N].
  - apply within_zero in W as ->; apply within_self.
  - destruct (lowest_bit m) as (k & q & Hk & Hq & E); [unfold inU in Rm; lia|].
    assert (K : k < 32).
    { apply (Z.pow_lt_mono_r_iff 2); [lia|lia|]; unfold inU in Rm; pose proof (pow2_pos k Hk); nia. }
    assert (L : m .& u32 (- m) = 2 ^ k).
    { transitivity (u32 m .& u32 (- m)); [now rewrite (wrap_id 32 m)|].
      rewrite <- wrap_land, (land_opp m k q Hk E) by lia; apply wrap_id.
      split; [apply Z.pow_nonneg; lia|apply Z.pow_lt_mono_r; lia]. }
    pose proof (within_multiple x m k q Rx Hk E W) as D; rewrite L.
    bitwise; rewrite !testbit_wrap, !andb_true_iff by lia; intros [A B]; split; [assumption|].
    assert (M : (- x) mod 2 ^ k = 0) by (apply Z.mod_opp_l_z; [pose proof (pow2_pos k Hk); lia|exact D]).
    assert (Ki : k <= i).
    { destruct (Z.lt_ge_cases i k) as [G|]; [|assumption].
      rewrite <- (Z.mod_pow2_bits_low (- x) k i), M, Z.bits_0 in B by lia; discriminate. }
    replace (- 2 ^ k) with ((-1) .<< k) by (rewrite Z.shiftl_mul_pow2 by lia; lia).
    rewrite Z.shiftl_spec, Z.bits_m1 by lia; reflexivity.
Qed.

(** Nothing of [x] lies outside [m]. *)
Lemma within_affected x mx m :
  inU 32 mx -> within x mx -> (mx .& u32 (Z.lnot m)) .& 0xffffffff = 0 -> within x m.
Proof.
  intros Rm Hx A; bitwise; intros E; pose proof (Hx i Hi E) as M.
  assert (Li : i < 32).
  { destruct (Z.lt_ge_cases i 32); [assumption|].
    rewrite (testbit_high 32 mx) in M by (assumption || lia); discriminate. }
  pose proof (f_equal (fun z => Z.testbit z i) A) as B; cbn beta in B.
  change 0xffffffff with (Z.ones 32) in B.
  rewrite !Z.land_spec, testbit_wrap, Z.lnot_spec, Z.testbit_ones, M, Z.bits_0 in B by lia.
  destruct (Z.ltb_spec i 32); [|lia]; destruct (Z.leb_spec 0 i); [|lia].
  rewrite !andb_true_r in B; cbn [andb] in B; now apply negb_false_iff in B.
Qed.

(** The loaded value of an unsigned memory operation. *)
Lemma within_memop oi raw :
  truthy (get_memop oi .& MO_SIGN) = false ->
  within (u32 (memop_value oi raw))
    (u32 (u64 (2 .<< ((8 .<< (get_memop oi .& MO_SIZE)) - 1)) - 1)).
Proof.
  intros U; unfold memop_value; rewrite U.
  assert (S : exists k, 0 <= k < 4 /\ get_memop oi .& MO_SIZE = k).
  { exists (get_memop oi .& MO_SIZE); split; [|reflexivity]; change MO_SIZE with (Z.ones 2).
    rewrite Z.land_ones by lia; apply Z.mod_pos_bound; lia. }
  destruct S as (k & Hk & ->).
  assert (B : forall w, 0 < w -> within (u32 (wrap w raw)) (u32 (2 ^ w - 1))).
  { intros w Hw; replace (2 ^ w - 1) with (Z.ones w) by (rewrite Z.ones_equiv; lia).
    bitwise; rewrite !testbit_wrap, Z.testbit_ones, !andb_true_iff by lia.
    intros (A & C & D); splits; auto; apply Z.leb_le; lia. }
  assert (k = 0 \/ k = 1 \/ k = 2 \/ k = 3) as [-> | [-> | [-> | ->]]] by lia.
  - exact (B 8 eq_refl).
  - exact (B 16 eq_refl).
  - exact (B 32 eq_refl).
  - exact (B 64 eq_refl).
Qed.

(** ** Identities used by the simplifications *)

Lemma ones_bits i : 0 <= i -> Z.testbit ALL_ONES i = (i <? 32).
Proof.
  intros; change ALL_ONES with (Z.ones 32); rewrite Z.testbit_ones by lia.
  destruct (Z.leb_spec 0 i); [reflexivity|lia].
Qed.

(** Equality of 32-bit results, bit by bit. *)
Ltac bits32 :=
  apply Z.bits_inj'; let i := fresh "i" in let Hi := fresh "Hi" in intros i Hi;
  repeat (rewrite ?testbit_wrap, ?Z.land_spec, ?Z.lor_spec, ?Z.lxor_spec, ?Z.lnot_spec, ?ones_bits by lia);
  rewrite ?Z.bits_0;
  destruct (Z.ltb_spec i 32); rewrite ?(testbit_high 32) by (assumption || lia);
  cbn [andb orb negb xorb]; rewrite ?orb_false_r, ?andb_true_r, ?xorb_false_r, ?xorb_true_r,
    ?orb_true_r, ?andb_false_r, ?negb_involutive; try reflexivity.

Section Identities.
  Variable x : Z.
  Hypothesis Hx : inU 32 x.

Lemma xor_ones : u32 (x .^ ALL_ONES) = u32 (Z.lnot x).
Proof. bits32. Qed.
Lemma nand_ones : u32 (Z.lnot (x .& ALL_ONES)) = u32 (Z.lnot x).
Proof. bits32. Qed.
Lemma nor_zero : u32 (Z.lnot (x .| 0)) = u32 (Z.lnot x).
Proof. now rewrite Z.lor_0_r. Qed.
Lemma andc_ones : u32 (ALL_ONES .& Z.lnot x) = u32 (Z.lnot x).
Proof. bits32. Qed.
Lemma orc_zero : u32 (0 .| Z.lnot x) = u32 (Z.lnot x).
Proof. now rewrite Z.lor_0_l. Qed.
Lemma eqv_zero : u32 (Z.lnot (0 .^ x)) = u32 (Z.lnot x).
Proof. now rewrite Z.lxor_0_l. Qed.
Lemma add_zero : u32 (x + 0) = x.
Proof. rewrite Z.add_0_r; now apply wrap_id. Qed.
Lemma sub_zero : u32 (x - 0) = x.
Proof. rewrite Z.sub_0_r; now apply wrap_id. Qed.
Lemma shl_zero : u32 (x .<< 0) = x.
Proof. rewrite Z.shiftl_0_r; now apply wrap_id. Qed.
Lemma shr_zero : u32 (x .>> 0) = x.
Proof. rewrite Z.shiftr_0_r; now apply wrap_id. Qed.
Lemma sar_zero : u32 (s32 x .>> 0) = x.
Proof. rewrite Z.shiftr_0_r, wrap_swrap by lia; now apply wrap_id. Qed.
Lemma rotl_zero : u32 (rol32 x 0) = x.
Proof.
  unfold rol32, rolw; rewrite Z.shiftl_0_r, Z.shiftr_div_pow2, Z.div_small, Z.lor_0_r, wrap_wrap
    by (lia || exact Hx); now apply wrap_id.
Qed.
Lemma rotr_zero : u32 (ror32 x 0) = x.
Proof.
  unfold ror32, rorw; rewrite Z.shiftr_0_r, Z.shiftl_mul_pow2 by lia.
  replace (u32 (x * 2 ^ (32 - 0))) with 0 by (symmetry; apply Z.mod_mul; lia).
  rewrite Z.lor_0_r; now apply wrap_id.
Qed.
Lemma or_zero : u32 (x .| 0) = x.
Proof. rewrite Z.lor_0_r; now apply wrap_id. Qed.
Lemma xor_zero : u32 (x .^ 0) = x.
Proof. rewrite Z.lxor_0_r; now apply wrap_id. Qed.
Lemma andc_zero : u32 (x .& Z.lnot 0) = x.
Proof. bits32. Qed.
Lemma and_ones : u32 (x .& ALL_ONES) = x.
Proof. bits32. Qed.
Lemma orc_ones : u32 (x .| Z.lnot ALL_ONES) = x.
Proof. bits32. Qed.
Lemma eqv_ones : u32 (Z.lnot (x .^ ALL_ONES)) = x.
Proof. bits32. Qed.
Lemma or_self : u32 (x .| x) = x.
Proof. rewrite Z.lor_diag; now apply wrap_id. Qed.
Lemma and_self : u32 (x .& x) = x.
Proof. rewrite Z.land_diag; now apply wrap_id. Qed.
End Identities.

Lemma andc_self x : u32 (x .& Z.lnot x) = 0.
Proof.
  apply Z.bits_inj'; intros i Hi; rewrite testbit_wrap, Z.land_spec, Z.lnot_spec, Z.bits_0 by lia.
  destruct (Z.testbit x i); apply andb_false_r.
Qed.

Lemma rotl_of_zero y : u32 (rol32 0 y) = 0.
Proof. unfold rol32, rolw; now rewrite Z.shiftl_0_l, Z.shiftr_0_l. Qed.
Lemma rotr_of_zero y : u32 (ror32 0 y) = 0.
Proof. unfold ror32, rorw; now rewrite Z.shiftl_0_l, Z.shiftr_0_l. Qed.
