(* ===== verification/TcgOptProof.v ===== *)
(** * The optimizer preserves the meaning of a block

    Each visit of the loop turns an operation into operations with the same
    outcome, keeps the invariant of TcgCopies.v, and always finishes; so the
    optimized block behaves like the original one wherever the original is
    defined. *)

From Stdlib Require Import ZArith Lia List Bool.
From S2P Require Import Prelude Bitops TcgIr TcgOpt TcgCopies TcgFold.
Import ListNotations.
Local Open Scope Z_scope.
Local Open Scope c_scope.

(** ** Well-formed operations *)

(** The conditions and constants of an operation, where the generator
    guarantees something about them. *)
Definition wf_consts (op : TCGOp) : Prop :=
  match opc op with
  | brcond_i32 => comparison (arg op 2) = true
  | setcond_i32 => comparison (arg op 3) = true
  | movcond_i32 | setcond2_i32 => comparison (arg op 5) = true
  | brcond2_i32 => comparison (arg op 4) = true
  | movi_i32 => inU 32 (arg op 1)
  | _ => True
  end.

Definition wf_op (s : TCGContext) (op : TCGOp) : Prop :=
  (n_oargs op + n_iargs op + n_cargs op <= length (args op))%nat /\
  Forall (in_temps s) (firstn (n_oargs op + n_iargs op) (args op)) /\
  NoDup (oargs op) /\ wf_consts op.

Section Visit.
  Variable s : TCGContext.
  Hypothesis few_temps : (nb_temps s <= TCG_MAX_TEMPS)%nat.
  Hypothesis globals_first : (nb_globals s <= nb_temps s)%nat.
  Context {W : Type} {host : TcgHost W (nb_globals s)}.

Local Abbreviation wf_store := (wf_store s).
Local Abbreviation inv := (inv s).
Local Abbreviation live := (live s).

(** ** Simulation of one visit *)

Definition ops_of (f : fate) : list TCGOp :=
  match f with Kept op => [op] | Removed => [] | Again op2 op => [op2; op] end.

(** Run operations in sequence until one does not fall through. *)
Fixpoint exec (ops : list TCGOp) (m : store) (w : W) : outcome (W := W) :=
  match ops with
  | [] => Next m w
  | op :: ops =>
      match eval_op op m w with
      | Next m w => exec ops m w
      | r => r
      end
  end.

(** The operations [out] do what [op] does from [m], and what the pass knows
    afterwards is true. *)
Definition sim (st' : opt_state) (out : list TCGOp) (op : TCGOp) (m : store) : Prop :=
  (forall w, eval_op op m w = Undefined \/
     (exec out m w = eval_op op m w /\
      forall m' w', eval_op op m w = Next m' w' -> inv st' m')) /\
  exists m', wf_store m' /\ inv st' m'.

(** No label appears or disappears. *)
Definition labels_kept (st' : opt_state) (out : list TCGOp) (op : TCGOp) : Prop :=
  match opc op with
  | set_label => out = [op] /\ forall m, inv st' m
  | _ => Forall (fun o => opc o <> set_label) out
  end.

(** An operation that is visited again is a [movi] whose effect is known. *)
Definition again_ok (st' : opt_state) (f : fate) (op : TCGOp) (m : store) : Prop :=
  match f with
  | Again _ (mkOp movi_i32 _ _ (rl :: vl :: _)) =>
      live st' rl /\ inU 32 vl /\
      forall w m' w', eval_op op m w = Next m' w' -> rd m' rl = vl
  | Again _ _ => False
  | _ => True
  end.

Definition visit_ok (op : TCGOp) (m : store) (r : option visit) : Prop :=
  exists st' f, r = Some (st', f) /\ sim st' (ops_of f) op m /\ labels_kept st' (ops_of f) op /\
    again_ok st' f op m.

(** The state in which the phases run. *)
Record ready (st : opt_state) (m : store) (op : TCGOp) : Prop := {
  ready_store : wf_store m;
  ready_inv : inv st m;
  ready_op : wf_op s op;
  ready_args : Forall (live st) (firstn (n_oargs op + n_iargs op) (args op))
}.

(** [op] writes [v] into its first argument, where it is defined. *)
Definition computes (op : TCGOp) (m : store) (v : Z) : Prop :=
  forall w, eval_op op m w = Undefined \/ eval_op op m w = Next (wr m (arg op 0) v) w.

Lemma eval_movi co ci d v rest m w :
  eval_op (mkOp movi_i32 co ci (d :: v :: rest)) m w = Next (wr m d (u32 v)) w.
Proof. reflexivity. Qed.

Lemma eval_mov co ci d t rest m w :
  eval_op (mkOp mov_i32 co ci (d :: t :: rest)) m w = Next (wr m d (u32 (rd m t))) w.
Proof. reflexivity. Qed.

(** The state after [tcg_opt_gen_movi]. *)
Definition movi_state (st : opt_state) (dst v : Z) : opt_state :=
  set_mask (set_val (set_const (reset_temp st dst) dst true) dst v) dst v.

Lemma gen_movi_eq st o co ci a0 a1 rest dst v :
  OPF_64BIT (tcg_op_defs o) = false ->
  tcg_opt_gen_movi st (mkOp o co ci (a0 :: a1 :: rest)) dst v =
    Some (movi_state st dst v, mkOp movi_i32 co ci (dst :: v :: rest)).
Proof. intros E; unfold tcg_opt_gen_movi, op_to_movi, op_bits; cbn [opc]; rewrite E; reflexivity. Qed.

Lemma visit_movi st m o co ci a0 a1 rest v :
  let op := mkOp o co ci (a0 :: a1 :: rest) in
  wf_store m -> inv st m -> live st a0 -> inU 32 v ->
  OPF_64BIT (tcg_op_defs o) = false -> o <> set_label -> computes op m v ->
  visit_ok op m (movi_fate (tcg_opt_gen_movi st op a0 v)).
Proof.
  intros op Wm I L Hv B N C; subst op; unfold movi_fate; rewrite gen_movi_eq by assumption.
  assert (G : inv (movi_state st a0 v) (wr m a0 v)) by (apply gen_movi_ok; auto).
  eexists _, _; split; [reflexivity|]; cbn [ops_of]; split; [split|split].
  - intros w; destruct (C w) as [E|E]; [auto|right]; rewrite E; cbn [exec].
    rewrite eval_movi, wrap_id by assumption; split; [reflexivity|].
    intros m' w' [= <- <-]; exact G.
  - exists (wr m a0 v); split; [now apply wf_wr|exact G].
  - unfold labels_kept; cbn [opc]; destruct o; try congruence; repeat constructor; discriminate.
  - exact Logic.I.
Qed.

(** The state after [tcg_opt_gen_mov] rewrites the operation. *)
Definition mov_state (st : opt_state) (dst src : Z) : opt_state :=
  let st := reset_temp st dst in
  let st := set_mask st dst (mask (temps st src)) in
  if temp_type s src =? temp_type s dst then link st dst src else st.

Lemma mov_state_ok st m dst src :
  wf_store m -> inv st m -> live st dst -> live st src -> dst <> src ->
  inv (mov_state st dst src) (wr m dst (rd m src)).
Proof.
  intros Wm I Ld Ls D; unfold mov_state; cbv zeta.
  assert (R := reset_temp_ok s few_temps st m dst Ld I).
  assert (E : mask (temps (reset_temp st dst) src) = mask (temps st src)).
  { destruct I as [Ri _]; rewrite (reset_temp_temps s few_temps st dst src Ri Ld).
    destruct (Z.eqb_spec src dst); [congruence|reflexivity]. }
  rewrite E; destruct (_ =? _).
  - apply link_ok; auto.
    + apply set_fields_ok; [now split|exact R].
    + unfold set_mask; rewrite !temps_set_temp, Z.eqb_refl; cbn [mask].
      destruct (Z.eqb_spec src dst); [congruence|auto].
  - destruct I as [Ri F]; destruct (F src Ls) as (_ & _ & M1 & M2).
    apply reset_mask_ok; auto; split; auto.
Qed.

Lemma gen_mov_eq st o co ci a0 a1 rest dst src :
  OPF_64BIT (tcg_op_defs o) = false -> temps_are_copies st dst src = Some false ->
  tcg_opt_gen_mov s st (mkOp o co ci (a0 :: a1 :: rest)) dst src =
    Some (mov_state st dst src, Kept (mkOp mov_i32 co ci (dst :: src :: rest))).
Proof.
  intros B E; unfold tcg_opt_gen_mov, op_to_mov, op_bits; rewrite E; cbn [opc]; rewrite B; reflexivity.
Qed.

(** [mov dst, src], or nothing when they are copies already. *)
Lemma visit_mov st m o co ci a0 a1 rest src :
  let op := mkOp o co ci (a0 :: a1 :: rest) in
  wf_store m -> inv st m -> live st a0 -> live st src ->
  OPF_64BIT (tcg_op_defs o) = false -> o <> set_label -> computes op m (rd m src) ->
  visit_ok op m (tcg_opt_gen_mov s st op a0 src).
Proof.
  intros op Wm I L Ls B N C; subst op.
  destruct (temps_are_copies_ok s few_temps st m a0 src I L Ls) as (b & Eb & V).
  destruct b.
  - unfold tcg_opt_gen_mov; rewrite Eb.
    eexists _, _; split; [reflexivity|]; cbn [ops_of]; split; [split|split].
    + intros w; destruct (C w) as [E|E]; [auto|right]; rewrite E; cbn [exec arg args nth].
      rewrite <- (V eq_refl), wr_rd; split; [reflexivity|]; intros m' w' [= <- <-]; exact I.
    + exists m; auto.
    + unfold labels_kept; cbn [opc]; destruct o; try congruence; constructor.
    + exact Logic.I.
  - assert (D : a0 <> src) by (intros ->; unfold temps_are_copies in Eb; rewrite Z.eqb_refl in Eb; congruence).
    rewrite gen_mov_eq by assumption.
    assert (G := mov_state_ok st m a0 src Wm I L Ls D).
    assert (Rs : inU 32 (rd m src)) by (apply (rd_range s); auto; apply Ls).
    eexists _, _; split; [reflexivity|]; cbn [ops_of]; split; [split|split].
    + intros w; destruct (C w) as [E|E]; [auto|right]; rewrite E; cbn [exec].
      rewrite eval_mov, wrap_id by exact Rs; split; [reflexivity|].
      intros m' w' [= <- <-]; exact G.
    + eexists; split; [|exact G]; now apply wf_wr.
    + unfold labels_kept; cbn [opc]; destruct o; try congruence; repeat constructor; discriminate.
    + exact Logic.I.
Qed.

(** An operation kept as it is, or rewritten to one with the same outcome, of
    which only a mask of the first output is known afterwards. *)
Lemma visit_outputs st m op op' k vs0 :
  wf_store m -> inv st m -> Forall (live st) (oargs op) -> inU 32 k ->
  opc op <> set_label -> opc op' <> set_label ->
  length vs0 = length (oargs op) -> Forall (eq 0) vs0 ->
  (forall w, eval_op op m w = Undefined \/
     (eval_op op' m w = eval_op op m w /\
      forall m' w', eval_op op m w = Next m' w' ->
        exists vs, m' = wrs m (oargs op) vs /\ length vs = length (oargs op) /\
          Forall (inU 32) vs /\ forall v vs', vs = v :: vs' -> within v k)) ->
  visit_ok op m (Some (do_reset_output st op k, Kept op')).
Proof.
  intros Wm I L Hk N N' L0 Z0 E; eexists _, _; split; [reflexivity|]; cbn [ops_of]; split; [split|split].
  - intros w; destruct (E w) as [U|[U V]]; [auto|right]; cbn [exec]; split.
    + rewrite U; destruct (eval_op op m w); reflexivity.
    + intros m' w' X; destruct (V m' w' X) as (vs & -> & Lv & Rv & Wv).
      now apply do_reset_output_ok.
  - assert (R0 : Forall (inU 32) vs0) by (eapply Forall_impl; [|exact Z0]; intros ? <-; unfold inU; lia).
    exists (wrs m (oargs op) vs0); split; [now apply wf_wrs|].
    apply do_reset_output_ok; auto; intros v vs' ->; inversion_clear Z0; subst; reflexivity.
  - unfold labels_kept; destruct (opc op); try congruence; repeat constructor; assumption.
  - exact Logic.I.
Qed.

(** ** Copy propagation *)

Lemma firstn_ext {A} (d : A) n l l' :
  length l = length l' -> (forall k, (k < n)%nat -> nth k l d = nth k l' d) ->
  firstn n l = firstn n l'.
Proof.
  revert l l'; induction n as [|n IH]; intros [|x l] [|y l'] L E; try discriminate; auto.
  cbn; f_equal; [exact (E 0%nat ltac:(lia))|].
  apply IH; [now injection L|]; intros k Hk; exact (E (S k) ltac:(lia)).
Qed.

Lemma nth_skipn {A} (d : A) n l k : nth k (skipn n l) d = nth (n + k) l d.
Proof. revert l; induction n as [|n IH]; intros [|x l]; cbn; auto; destruct k; reflexivity. Qed.

(** [op'] is [op] with inputs of the same value. *)
Definition same_inputs (m : store) (op op' : TCGOp) : Prop :=
  opc op' = opc op /\ callo op' = callo op /\ calli op' = calli op /\
  length (args op') = length (args op) /\
  forall k,
    if (n_oargs op <=? k)%nat && (k <? n_oargs op + n_iargs op)%nat
    then rd m (arg op' k) = rd m (arg op k) else arg op' k = arg op k.

Lemma same_inputs_counts m op op' :
  same_inputs m op op' -> n_oargs op' = n_oargs op /\ n_iargs op' = n_iargs op /\ n_cargs op' = n_cargs op.
Proof. intros (E & Eo & Ei & _); unfold n_oargs, n_iargs, n_cargs; rewrite E, Eo, Ei; auto. Qed.

Lemma same_inputs_refl m op : same_inputs m op op.
Proof. unfold same_inputs; splits; auto; intros k; destruct (_ && _); reflexivity. Qed.

Lemma same_inputs_trans m op op' op'' :
  same_inputs m op op' -> same_inputs m op' op'' -> same_inputs m op op''.
Proof.
  intros S S'; destruct (same_inputs_counts _ _ _ S) as (Co & Ci & _).
  destruct S as (E & Eo & Ei & L & A), S' as (E' & Eo' & Ei' & L' & A').
  unfold same_inputs; splits; try congruence; intros k; specialize (A k); specialize (A' k).
  rewrite Co, Ci in A'; destruct (_ && _); congruence.
Qed.

Lemma same_inputs_out m op op' k :
  same_inputs m op op' -> (k < n_oargs op \/ n_oargs op + n_iargs op <= k)%nat ->
  arg op' k = arg op k.
Proof.
  intros (_ & _ & _ & _ & A) H; specialize (A k).
  destruct (Nat.leb_spec (n_oargs op) k), (Nat.ltb_spec k (n_oargs op + n_iargs op));
    cbn in A; lia || assumption.
Qed.

Lemma same_inputs_in m op op' k :
  same_inputs m op op' -> (n_oargs op <= k < n_oargs op + n_iargs op)%nat ->
  rd m (arg op' k) = rd m (arg op k).
Proof.
  intros (_ & _ & _ & _ & A) H; specialize (A k).
  destruct (Nat.leb_spec (n_oargs op) k), (Nat.ltb_spec k (n_oargs op + n_iargs op));
    cbn in A; lia || assumption.
Qed.

Lemma same_inputs_lists m op op' :
  same_inputs m op op' ->
  oargs op' = oargs op /\ map (rd m) (iargs op') = map (rd m) (iargs op) /\ cargs op' = cargs op.
Proof.
  intros S; destruct (same_inputs_counts _ _ _ S) as (Co & Ci & Cc).
  pose proof S as (_ & _ & _ & L & _); unfold oargs, iargs, cargs; rewrite Co, Ci, Cc; splits.
  - apply (firstn_ext 0); [exact L|]; intros k Hk; apply (same_inputs_out m); auto; lia.
  - rewrite <- !firstn_map; apply (firstn_ext (rd m 0)).
    + rewrite !length_map, !length_skipn; lia.
    + intros k Hk; rewrite !map_nth, !nth_skipn; apply (same_inputs_in m); auto; lia.
  - apply (firstn_ext 0); [rewrite !length_skipn; lia|]; intros k Hk; rewrite !nth_skipn.
    apply (same_inputs_out m); auto; lia.
Qed.

Lemma eval_same_inputs m op op' w : same_inputs m op op' -> eval_op op' m w = eval_op op m w.
Proof.
  intros S; destruct (same_inputs_lists _ _ _ S) as (Eo & Ei & Ec).
  assert (O := same_inputs_out _ _ _ 0 S); assert (O1 := same_inputs_out _ _ _ 1 S);
  assert (O2 := same_inputs_out _ _ _ 2 S); assert (O3 := same_inputs_out _ _ _ 3 S);
  assert (O4 := same_inputs_out _ _ _ 4 S); assert (O5 := same_inputs_out _ _ _ 5 S).
  assert (I := same_inputs_in _ _ _ 0 S); assert (I1 := same_inputs_in _ _ _ 1 S);
  assert (I2 := same_inputs_in _ _ _ 2 S); assert (I3 := same_inputs_in _ _ _ 3 S).
  unfold eval_op; rewrite (proj1 S), Eo, Ei, Ec.
  destruct (is_pure (opc op)); [reflexivity|].
  unfold eval_ld, eval_st, eval_call; rewrite Eo, Ei, Ec.
  unfold n_oargs, n_iargs in *; destruct (opc op); cbn in O, O1, O2, O3, O4, O5, I, I1, I2, I3;
    rewrite ?O, ?O1, ?O2, ?O3, ?O4, ?O5, ?I, ?I1, ?I2, ?I3 by lia; reflexivity.
Qed.

Lemma Forall_upd {A} (P : A -> Prop) l i x : Forall P l -> P x -> Forall P (upd l i x).
Proof. intros F Px; revert i; induction F; intros [|i]; cbn; constructor; auto. Qed.

Lemma firstn_upd {A} n (l : list A) i x : firstn n (upd l i x) = upd (firstn n l) i x.
Proof. revert l i; induction n as [|n IH]; intros [|y l] [|i]; cbn; auto; f_equal; auto. Qed.

Lemma wf_consts_same m op op' : same_inputs m op op' -> wf_consts op -> wf_consts op'.
Proof.
  intros S; assert (O1 := same_inputs_out _ _ _ 1 S); assert (O2 := same_inputs_out _ _ _ 2 S).
  assert (O3 := same_inputs_out _ _ _ 3 S); assert (O4 := same_inputs_out _ _ _ 4 S).
  assert (O5 := same_inputs_out _ _ _ 5 S).
  unfold wf_consts, n_oargs, n_iargs in *; rewrite (proj1 S); destruct (opc op); auto; cbn in *;
    rewrite ?O1, ?O2, ?O3, ?O4, ?O5 by lia; auto.
Qed.

Lemma propagate_arg_ok st m op i :
  ready st m op -> (n_oargs op <= i < n_oargs op + n_iargs op)%nat ->
  exists op', propagate_arg s st i op = Some op' /\ ready st m op' /\ same_inputs m op op'.
Proof.
  intros R Hi; unfold propagate_arg; destruct (temp_is_copy st (arg op i));
    [|exists op; auto using same_inputs_refl].
  destruct R as [Wm I [Wl [Wt [Wd Wc]]] La].
  assert (Hl : (i < length (args op))%nat) by lia.
  assert (L : live st (arg op i)).
  { rewrite Forall_forall in La; apply La.
    replace (arg op i) with (nth i (firstn (n_oargs op + n_iargs op) (args op)) 0).
    - apply nth_In; rewrite length_firstn; lia.
    - unfold arg; rewrite <- (firstn_skipn (n_oargs op + n_iargs op) (args op)) at 2.
      rewrite app_nth1 by (rewrite length_firstn; lia); reflexivity. }
  destruct (find_better_copy_ok s few_temps st m (arg op i) I L) as (u & -> & Lu & Eu).
  exists (set_arg op i u); split; [reflexivity|].
  assert (S : same_inputs m op (set_arg op i u)).
  { unfold same_inputs; splits; auto; [apply length_upd|]; intros k; unfold arg, set_arg; cbn [args set_args].
    destruct (Nat.eq_dec k i) as [->|N].
    - rewrite nth_upd_eq by assumption.
      destruct (Nat.leb_spec (n_oargs op) i), (Nat.ltb_spec i (n_oargs op + n_iargs op)); cbn; lia || exact Eu.
    - rewrite nth_upd_ne by congruence; destruct (_ && _); reflexivity. }
  split; [|exact S]; destruct (same_inputs_counts _ _ _ S) as (Co & Ci & Cc).
  constructor; auto; [unfold wf_op; splits|].
  - rewrite Co, Ci, Cc; unfold set_arg; cbn [args set_args]; rewrite length_upd; exact Wl.
  - rewrite Co, Ci; unfold set_arg; cbn [args set_args]; rewrite firstn_upd; apply Forall_upd; auto; apply Lu.
  - now rewrite (proj1 (same_inputs_lists _ _ _ S)).
  - now apply (wf_consts_same m op).
  - rewrite Co, Ci; unfold set_arg; cbn [args set_args]; rewrite firstn_upd; now apply Forall_upd.
Qed.

Lemma propagate_ok st m idx : forall op,
  ready st m op -> Forall (fun i => n_oargs op <= i < n_oargs op + n_iargs op)%nat idx ->
  exists op', propagate s st idx op = Some op' /\ ready st m op' /\ same_inputs m op op'.
Proof.
  induction idx as [|i idx IH]; intros op R F; [exists op; auto using same_inputs_refl|].
  inversion_clear F; cbn [propagate].
  destruct (propagate_arg_ok st m op i R) as (op1 & -> & R1 & S1); [assumption|].
  destruct (same_inputs_counts _ _ _ S1) as (Co & Ci & _).
  destruct (IH op1 R1) as (op2 & -> & R2 & S2); [now rewrite Co, Ci|].
  exists op2; splits; auto; eapply same_inputs_trans; eauto.
Qed.

(** ** Operand order *)

(** Name the arguments of an operation whose opcode is known. *)
Ltac open_list :=
  repeat match goal with
  | H : (S ?n <= length ?a)%nat |- _ =>
      let x := fresh "a" in
      destruct a as [|x a]; [cbn in H; lia|]; cbn [length] in H; apply le_S_n in H
  end.

Ltac open_forall :=
  repeat match goal with
  | H : Forall _ (_ :: _) |- _ => inversion_clear H
  | H : Forall _ [] |- _ => clear H
  end.

Ltac open_ready R :=
  let Wm := fresh "Wm" in let I := fresh "I" in let Wl := fresh "Wl" in let Wt := fresh "Wt" in
  let Wd := fresh "Wd" in let Wc := fresh "Wc" in let La := fresh "La" in
  destruct R as [Wm I [Wl [Wt [Wd Wc]]] La];
  unfold oargs, n_oargs, n_iargs, n_cargs, wf_consts in Wl, Wt, Wd, Wc, La;
  cbn [opc args callo calli tcg_op_defs nb_oargs nb_iargs nb_cargs Nat.add] in Wl, Wt, Wd, Wc, La;
  open_list; unfold arg in Wc; cbn [firstn] in Wt, Wd, La; cbn [args nth] in Wc;
  open_forall.

Ltac close_ready :=
  constructor; [assumption|assumption|unfold wf_op, oargs, n_oargs, n_iargs, n_cargs, wf_consts, arg; splits|];
  unfold n_oargs, n_iargs, arg;
  cbn [opc args callo calli tcg_op_defs nb_oargs nb_iargs nb_cargs Nat.add firstn length nth set_arg
       set_args upd arg];
  first [assumption | lia | solve [repeat (apply Forall_cons; [assumption|]); apply Forall_nil] | exact Logic.I | idtac].

Lemma swap_commutative_cases st d i j op :
  swap_commutative st d i j op = (false, op) \/
  swap_commutative st d i j op = (true, set_arg (set_arg op i (arg op j)) j (arg op i)).
Proof. unfold swap_commutative; cbv zeta; destruct (_ || _); auto. Qed.

Lemma swap_commutative2_cases st i j op :
  swap_commutative2 st i j op = (false, op) \/
  exists op1, op1 = set_arg (set_arg op i (arg op j)) j (arg op i) /\
    swap_commutative2 st i j op = (true, set_arg (set_arg op1 (S i) (arg op1 (S j))) (S j) (arg op1 (S i))).
Proof. unfold swap_commutative2; cbv zeta; destruct (_ >? _); eauto. Qed.

(** [op'] may replace [op]. *)
Definition replaces (st : opt_state) (m : store) (op op' : TCGOp) : Prop :=
  ready st m op' /\ opc op' = opc op /\ forall w, eval_op op' m w = eval_op op m w.

Lemma replaces_refl st m op : ready st m op -> replaces st m op op.
Proof. unfold replaces; auto. Qed.

Ltac swap_cases :=
  match goal with
  | |- context [swap_commutative ?st ?d ?i ?j ?op] =>
      let E := fresh in
      destruct (swap_commutative_cases st d i j op) as [E|E]; rewrite E; clear E;
      cbn [fix_cond fst snd]
  end.

Ltac eval_args :=
  unfold eval_op, oargs, iargs, cargs, n_oargs, n_iargs, n_cargs, arg;
  cbn [opc args callo calli tcg_op_defs nb_oargs nb_iargs nb_cargs Nat.add firstn skipn nth is_pure map
       set_arg set_args upd eval_pure bin bin2 mul2 un shift arg].

Lemma swapped_ok st m op op' :
  ready st m op -> ready st m op' -> opc op' = opc op ->
  (forall w, eval_op op' m w = eval_op op m w) -> replaces st m op op'.
Proof. unfold replaces; auto. Qed.

Ltac swapped :=
  apply swapped_ok; [assumption|close_ready|reflexivity|
    intros ?w; eval_args].

Lemma replaces_trans st m op op' op'' :
  replaces st m op op' -> replaces st m op' op'' -> replaces st m op op''.
Proof.
  intros (R & O & E) (R' & O' & E'); unfold replaces; splits; [assumption|congruence|].
  intros w; now rewrite E'.
Qed.

Lemma movcond_inputs st m op :
  opc op = movcond_i32 -> ready st m op ->
  replaces st m op (fix_cond tcg_swap_cond 5 (swap_commutative st ALL_ONES 1 2 op)).
Proof.
  intros E R; destruct op as [o co ci a]; cbn in E; subst o; pose proof R as R0; open_ready R.
  swap_cases; [now apply replaces_refl|swapped].
  - now apply (swap_cond_ok 32 _ 0 0).
  - now rewrite (proj2 (swap_cond_ok 32 a5 _ _ Wc)).
Qed.

Lemma movcond_values st m op :
  opc op = movcond_i32 -> ready st m op ->
  replaces st m op (fix_cond tcg_invert_cond 5 (swap_commutative st (arg op 0) 4 3 op)).
Proof.
  intros E R; destruct op as [o co ci a]; cbn in E; subst o; pose proof R as R0; open_ready R.
  swap_cases; [now apply replaces_refl|swapped].
  - now apply (invert_cond_ok 32 _ 0 0).
  - rewrite (proj2 (invert_cond_ok 32 a5 _ _ Wc)); destruct (cond_holds 32 a5 _ _) as [[]|]; reflexivity.
Qed.

Lemma add2_low st m op :
  opc op = add2_i32 -> ready st m op ->
  replaces st m op (snd (swap_commutative st (arg op 0) 2 4 op)).
Proof.
  intros E R; destruct op as [o co ci a]; cbn in E; subst o; pose proof R as R0; open_ready R.
  swap_cases; [now apply replaces_refl|swapped]; unfold dword; do 3 f_equal; ring.
Qed.

Lemma add2_high st m op :
  opc op = add2_i32 -> ready st m op ->
  replaces st m op (snd (swap_commutative st (arg op 1) 3 5 op)).
Proof.
  intros E R; destruct op as [o co ci a]; cbn in E; subst o; pose proof R as R0; open_ready R.
  swap_cases; [now apply replaces_refl|swapped]; unfold dword; do 3 f_equal; ring.
Qed.

Lemma cond2_swap st m op i j k :
  (opc op = brcond2_i32 /\ i = 0%nat /\ j = 2%nat /\ k = 4%nat) \/
  (opc op = setcond2_i32 /\ i = 1%nat /\ j = 3%nat /\ k = 5%nat) ->
  ready st m op ->
  replaces st m op (fix_cond tcg_swap_cond k (swap_commutative2 st i j op)).
Proof.
  intros C R; destruct (swap_commutative2_cases st i j op) as [-> | (op1 & E1 & ->)];
    [now apply replaces_refl|]; subst op1; cbn [fix_cond].
  destruct op as [o co ci a]; destruct C as [(E & -> & -> & ->)|(E & -> & -> & ->)];
    cbn in E; subst o; pose proof R as R0; open_ready R; swapped.
  - now apply (swap_cond_ok 64 _ 0 0).
  - now rewrite (proj2 (swap_cond_ok 64 a4 _ _ Wc)).
  - now apply (swap_cond_ok 64 _ 0 0).
  - now rewrite (proj2 (swap_cond_ok 64 a5 _ _ Wc)).
Qed.

Lemma canonicalize_ok st m op : ready st m op -> replaces st m op (canonicalize st op).
Proof.
  intros R; unfold canonicalize; destruct (opc op) eqn:O; try (apply replaces_refl; exact R).
  2: { pose proof (movcond_inputs st m op O R) as M; eapply replaces_trans; [exact M|].
       apply movcond_values; [destruct M as (_ & -> & _); exact O|apply M]. }
  8: { pose proof (add2_low st m op O R) as M; eapply replaces_trans; [exact M|].
       apply add2_high; [destruct M as (_ & -> & _); exact O|apply M]. }
  12: apply cond2_swap; auto.
  12: apply cond2_swap; auto 6.
  all: destruct op as [o co ci a]; cbn in O; subst o; pose proof R as R0; open_ready R;
    (swap_cases; [now apply replaces_refl|swapped]).
  1: now apply (swap_cond_ok 32 _ 0 0).
  1: now rewrite (proj2 (swap_cond_ok 32 a3 _ _ Wc)).
  6: now apply (swap_cond_ok 32 _ 0 0).
  6: now rewrite (proj2 (swap_cond_ok 32 a2 _ _ Wc)).
  all: first [now rewrite Z.add_comm | now rewrite Z.mul_comm | now rewrite Z.land_comm
             | now rewrite Z.lor_comm | now rewrite Z.lxor_comm].
Qed.

(** ** Reading the recorded facts *)

Lemma const_value st m t : inv st m -> live st t -> temp_is_const st t = true ->
  rd m t = val (temps st t) /\ mask (temps st t) = val (temps st t).
Proof. intros [_ F] L C; now apply (F t L). Qed.

Lemma const_is_value st m t v : inv st m -> live st t -> const_is st t v = true -> rd m t = v.
Proof.
  intros I L C; apply andb_true_iff in C as [C E]; apply Z.eqb_eq in E.
  now rewrite (proj1 (const_value st m t I L C)).
Qed.

Lemma mask_within st m t : inv st m -> live st t -> within (rd m t) (mask (temps st t)).
Proof. intros [_ F] L; now apply (F t L). Qed.

Lemma mask_range st m t : inv st m -> live st t -> inU 32 (mask (temps st t)).
Proof. intros [_ F] L; now apply (F t L). Qed.

Lemma live_range st m t : wf_store m -> live st t -> inU 32 (rd m t).
Proof. intros Wm L; apply (rd_range s); auto; apply L. Qed.

Lemma copies_value st m t u :
  inv st m -> live st t -> live st u ->
  exists b, temps_are_copies st t u = Some b /\ (b = true -> rd m t = rd m u).
Proof. apply temps_are_copies_ok; assumption. Qed.

(** ** The phases *)

Definition phase_ok (op : TCGOp) (m : store) (p : option (option visit)) : Prop :=
  p = falls_through \/ exists r, p = Some (Some r) /\ visit_ok op m (Some r).

Lemma ends_ok op m r : visit_ok op m r -> phase_ok op m (ends r).
Proof.
  intros (st' & f & -> & H); right; exists (st', f); split; [reflexivity|].
  exists st', f; auto.
Qed.

(** The operation is replaced by one of the same value, and its output forgotten. *)
Lemma visit_reset st m op op' k :
  wf_store m -> inv st m -> live st (arg op 0) -> inU 32 k ->
  opc op <> set_label -> opc op' <> set_label ->
  (forall w, eval_op op m w = Undefined \/
     exists v, inU 32 v /\ within v k /\ eval_op op m w = Next (wr m (arg op 0) v) w /\
       eval_op op' m w = eval_op op m w) ->
  visit_ok op m (Some (set_mask (reset_temp st (arg op 0)) (arg op 0) k, Kept op')).
Proof.
  intros Wm I L Hk N N' E; eexists _, _; split; [reflexivity|]; cbn [ops_of]; split; [split|split].
  - intros w; destruct (E w) as [U|(v & Hv & Wv & X & Y)]; [auto|right]; cbn [exec]; split.
    + rewrite Y; destruct (eval_op op m w); reflexivity.
    + rewrite X; intros m' w' [= <- <-]; now apply reset_mask_ok.
  - exists (wr m (arg op 0) 0); split; [apply wf_wr; auto; unfold inU; lia|].
    apply reset_mask_ok; auto.
  - unfold labels_kept; destruct (opc op); try congruence; repeat constructor; assumption.
  - exact Logic.I.
Qed.

Lemma visit_reset' st m op op' :
  wf_store m -> inv st m -> live st (arg op 0) -> opc op <> set_label -> opc op' <> set_label ->
  (forall w, eval_op op m w = Undefined \/
     exists v, inU 32 v /\ eval_op op m w = Next (wr m (arg op 0) v) w /\
       eval_op op' m w = eval_op op m w) ->
  visit_ok op m (Some (reset_temp st (arg op 0), Kept op')).
Proof.
  intros Wm I L N N' E; eexists _, _; split; [reflexivity|]; cbn [ops_of]; split; [split|split].
  - intros w; destruct (E w) as [U|(v & Hv & X & Y)]; [auto|right]; cbn [exec]; split.
    + rewrite Y; destruct (eval_op op m w); reflexivity.
    + rewrite X; intros m' w' [= <- <-]; now apply reset_value_ok.
  - exists m; split; [assumption|]; apply reset_temp_inv_same; auto.
  - unfold labels_kept; destruct (opc op); try congruence; repeat constructor; assumption.
  - exact Logic.I.
Qed.

Ltac get_facts :=
  repeat match goal with
  | H : _ && _ = true |- _ => apply andb_true_iff in H as [? ?]
  end;
  repeat match goal with
  | I : inv ?st ?m, L : live ?st ?t, H : const_is ?st ?t ?v = true |- _ =>
      apply (const_is_value st m t v I L) in H
  end.

(** The value of a binary operation with known operands. *)
Ltac value :=
  let w := fresh "w" in intros w; unfold arg; eval_args;
  repeat match goal with H : rd _ _ = _ |- _ => rewrite H end;
  try (destruct (_ <? 32); [|left; reflexivity]);
  right; cbn [wrs].

Ltac movi_zero :=
  apply ends_ok, visit_movi; auto; try discriminate; [unfold inU; lia|value].

(** The operation becomes [op'], which has the same value. *)
Ltac becomes lem :=
  right; eexists; split; [reflexivity|]; apply visit_reset'; auto; try discriminate;
  value; eexists; (split; [apply (wrap_range 32); lia|]); (split; [reflexivity|]); unfold set_arg, set_args, set_opc;
  eval_args; cbn [wrs]; rewrite ?lem by (eapply live_range; eassumption); reflexivity.

Lemma simplify_first_ok st m op : ready st m op -> phase_ok op m (simplify_first st op).
Proof.
  intros R; destruct op as [o co ci a]; unfold simplify_first, try_not; cbn [opc].
  destruct o; try (left; reflexivity); open_ready R; unfold arg; cbn [args nth].
  all: match goal with |- phase_ok _ _ (if ?c then _ else _) => destruct c eqn:C end;
    try (left; reflexivity); cbn [negb TCG_TARGET_HAS_neg_i32 TCG_TARGET_HAS_not_i32].
  1: destruct (const_is st a1 0) eqn:C'; [|left; reflexivity].
  all: get_facts.
  - becomes sub_zero.
  - becomes xor_ones.
  - movi_zero; now rewrite Z.shiftl_0_l.
  - movi_zero; now rewrite Z.shiftr_0_l.
  - movi_zero; now rewrite Z.shiftr_0_l.
  - movi_zero; now rewrite rotl_of_zero.
  - movi_zero; now rewrite rotr_of_zero.
  - becomes andc_ones.
  - becomes orc_zero.
  - becomes eqv_zero.
  - becomes nand_ones.
  - becomes nor_zero.
Qed.

Ltac becomes_mov lem :=
  apply ends_ok, visit_mov; auto; try discriminate; value;
  rewrite lem by (eapply live_range; eassumption); reflexivity.

Lemma simplify_mov_ok st m op : ready st m op -> phase_ok op m (simplify_mov s st op).
Proof.
  intros R; destruct op as [o co ci a]; unfold simplify_mov; cbn [opc].
  destruct o; try (left; reflexivity); open_ready R; unfold arg; cbn [args nth].
  all: match goal with |- phase_ok _ _ (if ?c then _ else _) => destruct c eqn:C end;
    try (left; reflexivity); get_facts.
  - becomes_mov add_zero.
  - becomes_mov sub_zero.
  - becomes_mov and_ones.
  - becomes_mov or_zero.
  - becomes_mov xor_zero.
  - becomes_mov shl_zero.
  - becomes_mov shr_zero.
  - becomes_mov sar_zero.
  - becomes_mov rotl_zero.
  - becomes_mov rotr_zero.
  - becomes_mov andc_zero.
  - becomes_mov orc_ones.
  - becomes_mov eqv_ones.
Qed.

Lemma simplify_movi_zero_ok st m op : ready st m op -> phase_ok op m (simplify_movi_zero st op).
Proof.
  intros R; destruct op as [o co ci a]; unfold simplify_movi_zero; cbn [opc].
  destruct o; try (left; reflexivity); open_ready R; unfold arg; cbn [args nth].
  all: destruct (const_is st a2 0) eqn:C; [|left; reflexivity]; get_facts.
  - movi_zero; now rewrite Z.mul_0_r.
  - movi_zero; now rewrite Z.land_0_r.
  - movi_zero; now rewrite Z.mul_0_r.
  - movi_zero; now rewrite Z.mul_0_r.
Qed.

Lemma simplify_same_mov_ok st m op : ready st m op -> phase_ok op m (simplify_same_mov s st op).
Proof.
  intros R; destruct op as [o co ci a]; unfold simplify_same_mov; cbn [opc].
  destruct o; try (left; reflexivity); open_ready R; unfold arg; cbn [args nth].
  all: destruct (copies_value st m a1 a2) as ([] & -> & E); auto; [|left; reflexivity];
    specialize (E eq_refl).
  - apply ends_ok, visit_mov; auto; try discriminate; value.
    rewrite and_self by (eapply live_range; eassumption); reflexivity.
  - apply ends_ok, visit_mov; auto; try discriminate; value.
    rewrite or_self by (eapply live_range; eassumption); reflexivity.
Qed.

Lemma simplify_same_zero_ok st m op : ready st m op -> phase_ok op m (simplify_same_zero st op).
Proof.
  intros R; destruct op as [o co ci a]; unfold simplify_same_zero; cbn [opc].
  destruct o; try (left; reflexivity); open_ready R; unfold arg; cbn [args nth].
  all: destruct (copies_value st m a1 a2) as ([] & -> & E); auto; [|left; reflexivity];
    specialize (E eq_refl).
  - movi_zero; now rewrite Z.sub_diag.
  - movi_zero; now rewrite Z.lxor_nilpotent.
  - movi_zero; now rewrite andc_self.
Qed.

(** ** Outputs *)

Lemma b2z_range b : inU 32 (b2z b).
Proof. unfold inU; destruct b; cbn; lia. Qed.

Lemma inU32_ones x : inU 32 x -> within x ALL_ONES.
Proof. apply all_ones_mask. Qed.

Ltac pure_cases :=
  repeat match goal with
  | H : match ?l with [] => _ | _ :: _ => _ end = Some _ |- _ => destruct l; try discriminate H
  | H : (if ?c then _ else _) = Some _ |- _ => destruct c eqn:?; try discriminate H
  | H : option_map _ ?o = Some _ |- _ => destruct o eqn:?; cbn [option_map] in H; try discriminate H
  end.

(** The values an operation computes are words, one for each output. *)
Lemma eval_pure_range o i c vs :
  eval_pure o i c = Some vs -> Forall (inU 32) i ->
  Forall (inU 32) vs /\ length vs = nb_oargs (tcg_op_defs o).
Proof.
  intros E F; destruct o; try discriminate E; cbn [eval_pure] in E;
    unfold un, bin, shift, sdiv, udiv, bin2, mul2, words_of in E; pure_cases;
    injection E as <-; (split; [|reflexivity]);
    repeat (apply Forall_cons || apply Forall_nil);
    try match goal with
        | |- inU 32 (wrap 32 _) => apply wrap_range; lia
        | |- inU 32 (b2z _) => apply b2z_range
        end; open_forall.
  - destruct b; assumption.
  - unfold dword, inU in *; apply orb_false_iff in Heqb as [B1 B2]; apply Z.eqb_neq in B1.
    apply Z.leb_gt in B2; split; [apply Z.div_pos; lia|apply Z.div_lt_upper_bound; nia].
  - unfold dword, inU in *; apply orb_false_iff in Heqb as [B1 B2]; apply Z.eqb_neq in B1.
    apply Z.leb_gt in B2; pose proof (Z.mod_pos_bound (z + z0 * 2 ^ 32) z1); lia.
  - rewrite !andb_true_iff, !Z.leb_le, Z.ltb_lt in Heqb.
    apply (depositw_range 32); assumption || lia.
  - unfold bswap16; apply (inU_le 16); [lia|].
    assert (R8 : forall v, inU 8 (u8 v)) by (intros; apply wrap_range; lia).
    assert (inU 16 (u8 z .<< 8)) by (rewrite Z.shiftl_mul_pow2 by lia; specialize (R8 z); unfold inU in *; lia).
    apply lor_range; [lia|apply (inU_le 8); [lia|apply R8]|assumption].
Qed.

(** What an operation other than a call writes. *)
Definition outputs (op : TCGOp) (m : store) (P : Z -> Prop) : Prop :=
  forall w m' w', eval_op op m w = Next m' w' ->
    exists vs, m' = wrs m (oargs op) vs /\ length vs = length (oargs op) /\
      Forall (inU 32) vs /\ forall v vs', vs = v :: vs' -> P v.

Lemma live_iargs st m op : ready st m op -> Forall (inU 32) (map (rd m) (iargs op)).
Proof.
  intros [Wm I Wo La]; apply Forall_map, Forall_forall; intros t Ht.
  apply (live_range st); auto; rewrite Forall_forall in La; apply La.
  unfold iargs in Ht; rewrite firstn_skipn_comm in Ht.
  rewrite <- (firstn_skipn (n_oargs op)); apply in_or_app; now right.
Qed.

Lemma length_oargs st m op : ready st m op -> length (oargs op) = n_oargs op.
Proof. intros [_ _ [Wl _] _]; unfold oargs; rewrite length_firstn; lia. Qed.

Lemma n_oargs_def op : opc op <> call -> n_oargs op = nb_oargs (tcg_op_defs (opc op)).
Proof. unfold n_oargs; destruct (opc op); congruence. Qed.

Lemma outputs_pure st m op P :
  ready st m op -> opc op <> call -> is_pure (opc op) = true ->
  (forall v vs, eval_pure (opc op) (map (rd m) (iargs op)) (cargs op) = Some (v :: vs) -> P v) ->
  outputs op m P.
Proof.
  intros R N Pu H w m' w' E; unfold eval_op in E; rewrite Pu in E.
  destruct (eval_pure _ _ _) as [vs|] eqn:V; [|discriminate]; injection E as <- <-.
  destruct (eval_pure_range _ _ _ _ V (live_iargs st m op R)) as [F L].
  exists vs; splits; auto.
  - rewrite (length_oargs st m op R), n_oargs_def by assumption; exact L.
  - intros v vs' ->; eauto.
Qed.

Ltac out_word :=
  let w := fresh in let m' := fresh in let w' := fresh in let E := fresh "E" in
  intros w m' w' E; revert E; unfold eval_op, eval_ld, eval_st, arg, oargs, n_oargs;
  cbn [opc args is_pure tcg_op_defs nb_oargs firstn nth]; intros E.

Lemma outputs_impure st m op :
  ready st m op -> opc op <> call -> is_pure (opc op) = false -> outputs op m (fun _ => True).
Proof.
  intros R N Pu; destruct op as [o co ci a]; cbn [opc] in *.
  destruct o; try discriminate Pu; try congruence; open_ready R; out_word.
  all: repeat match goal with
    | H : branch ?b _ _ _ = Next _ _ |- _ => destruct b as [[]|]; try discriminate H; cbn [branch] in H
    | H : match ?o with Some _ => _ | None => _ end = Next _ _ |- _ =>
        destruct o as [[]|] eqn:?; try discriminate H
    | H : match ?o with Some _ => _ | None => _ end = Next _ _ |- _ =>
        destruct o eqn:?; try discriminate H
    | H : (if ?c then _ else _) = Next _ _ |- _ => destruct c; try discriminate H
    end; try discriminate E; injection E as <- <-.
  all: first
    [ exists []; splits; [reflexivity|reflexivity|constructor|auto]; fail
    | eexists [_]; splits;
        [reflexivity|reflexivity|repeat (apply Forall_cons || apply Forall_nil); apply wrap_range; lia|auto]; fail
    | eexists [_; _]; splits;
        [reflexivity|reflexivity|repeat (apply Forall_cons || apply Forall_nil); apply wrap_range; lia|auto]].
Qed.

Lemma eval_outputs st m op : ready st m op -> opc op <> call -> outputs op m (fun _ => True).
Proof.
  intros R N; destruct (is_pure (opc op)) eqn:P.
  - now apply (outputs_pure st).
  - now apply (outputs_impure st).
Qed.

(** ** Known-zero bits *)

Lemma outputs_nothing st m op :
  ready st m op -> opc op <> call -> outputs op m (fun v => within v ALL_ONES) /\ inU 32 ALL_ONES.
Proof.
  intros R N; split; [|apply all_ones_range]; intros w m' w' E.
  destruct (eval_outputs st m op R N w m' w' E) as (vs & -> & L & F & _); exists vs; splits; auto.
  intros v vs' ->; inversion_clear F; now apply inU32_ones.
Qed.

Ltac pure_out :=
  split; [eapply outputs_pure; [eassumption|discriminate|reflexivity|];
          let E := fresh "E" in intros ?v ?vs E; revert E; unfold arg; eval_args; intros E;
          pure_cases; injection E as <- <-|].

Ltac mask_facts :=
  repeat match goal with
  | I : inv ?st ?m, L : live ?st ?t |- _ =>
      lazymatch goal with
      | _ : within (rd m t) _ |- _ => fail
      | _ => pose proof (mask_within st m t I L); pose proof (mask_range st m t I L)
      end
  end;
  repeat match goal with
  | Wm : wf_store ?m, L : live ?st ?t |- _ =>
      lazymatch goal with
      | _ : inU 32 (rd m t) |- _ => fail
      | _ => pose proof (live_range st m t Wm L)
      end
  end.

Lemma s_ext_small w x : 0 < w -> Z.testbit x (w - 1) = false -> swrap w x = wrap w x.
Proof.
  intros Hw B; apply Z.bits_inj'; intros i Hi; rewrite testbit_swrap, testbit_wrap by lia.
  destruct (Z.ltb_spec i w); [reflexivity|exact B].
Qed.

Lemma within_clear x mx k : within x mx -> 0 <= k -> mx .& 2 ^ k = 0 -> Z.testbit x k = false.
Proof.
  intros Wx Hk E; destruct (Z.testbit x k) eqn:B; [|reflexivity].
  apply (proj1 (within_bits _ _) Wx) in B; [|lia].
  rewrite land_pow2, B in E by lia; pose proof (pow2_pos k); lia.
Qed.

Lemma within_ext w x mx : 0 <= w <= 32 -> within x mx -> within (u32 (wrap w x)) (mx .& Z.ones w).
Proof.
  intros Hw Hx; replace (u32 (wrap w x)) with (wrap w x); [apply within_low; lia || assumption|].
  symmetry; apply wrap_id, (inU_le w); [lia|]; apply wrap_range; lia.
Qed.

Lemma ext_affected w x mx :
  0 <= w <= 32 -> inU 32 x -> inU 32 mx -> within x mx ->
  (mx .& u32 (Z.lnot (Z.ones w))) .& 0xffffffff = 0 -> u32 (wrap w x) = x.
Proof.
  intros Hw Rx Rm Hx A; pose proof (within_affected x mx _ Rm Hx A) as V.
  unfold within in V; rewrite Z.land_ones in V by lia; fold (wrap w x) in V; rewrite V.
  now apply wrap_id.
Qed.

Lemma negb_eqb_false x y : negb (x =? y) = false -> x = y.
Proof. intros H; apply negb_false_iff, Z.eqb_eq in H; exact H. Qed.

Lemma land_range' x y : inU 32 x -> inU 32 (x .& y).
Proof. apply land_range; lia. Qed.

Lemma shr_range x k : inU 32 x -> 0 <= k -> inU 32 (x .>> k).
Proof.
  unfold inU; intros Hx Hk; rewrite Z.shiftr_div_pow2 by lia; pose proof (pow2_pos k Hk).
  split; [apply Z.div_pos; lia|apply Z.div_lt_upper_bound; nia].
Qed.

Ltac mask_range_goal :=
  solve [assumption | unfold inU; lia | apply land_range'; assumption
        | apply lor_range; [lia|assumption|assumption] | apply wrap_range; lia
        | apply shr_range; [apply wrap_range; lia|apply Z.land_nonneg; right; lia]].

Ltac one_out :=
  first
    [ eexists [_]; splits; [reflexivity|reflexivity|constructor; [apply wrap_range; lia|constructor]|]
    | eexists [_; _]; splits;
        [reflexivity|reflexivity|constructor; [|constructor; [|constructor]]; apply wrap_range; lia|] ].

(** A constant temporary: its value and mask are the recorded value. *)
Ltac const_facts :=
  repeat match goal with
  | I : inv ?st ?m, L : live ?st ?t, H : temp_is_const ?st ?t = true |- _ =>
      let E := fresh in let E' := fresh in
      destruct (const_value st m t I L H) as [E E']; rewrite <- ?E, ?E', <- ?E in *; clear H
  end.

Lemma known_zeros_ok st m op :
  ready st m op -> opc op <> call ->
  outputs op m (fun v => within v (fst (known_zeros st op))) /\ inU 32 (fst (known_zeros st op)).
Proof.
  intros R N; pose proof (outputs_nothing st m op R N) as Z0; pose proof R as R0.
  destruct op as [o co ci a]; unfold known_zeros, and_const; cbn [opc].
  destruct o; try exact Z0; try congruence; open_ready R; unfold arg; cbn [args nth]; mask_facts;
    repeat match goal with
    | |- context [if temp_is_const ?st ?t then _ else _] => destruct (temp_is_const st t) eqn:?; try exact Z0
    | |- context [if negb ?b then _ else _] => destruct b eqn:?; cbn [negb]; try exact Z0
    end; cbn [fst].
  all: try (pure_out; [|mask_range_goal]); const_facts.
  - destruct b; reflexivity.
  - destruct b; [now apply within_lor_l|now apply within_lor_r].
  - split; [out_word; injection E as <- <-; one_out|unfold inU; lia].
    intros v vs [= <- _]; apply (within_ext 8 _ (-1)), Z.land_m1_r; lia.
  - split; [out_word; injection E as <- <-; one_out|unfold inU; lia].
    intros v vs [= <- _]; apply (within_ext 16 _ (-1)), Z.land_m1_r; lia.
  - rewrite wrap_id by (apply land_range'; assumption); now apply within_land.
  - rewrite wrap_id by (apply land_range'; assumption); now apply within_land.
  - rewrite wrap_id by (apply lor_range; lia || assumption); now apply within_lor.
  - rewrite wrap_id by (apply lxor_range; lia || assumption); now apply within_lxor.
  - rewrite land31 by assumption; apply within_shl; [unfold inU in *; lia|assumption].
  - rewrite land31, wrap_id, wrap_id by (assumption || apply shr_range; unfold inU in *; lia || assumption).
    apply within_shr; [unfold inU in *; lia|assumption].
  - rewrite land31 by assumption; apply within_sar; [unfold inU in *; lia|assumption].
  - rewrite !andb_true_iff, !Z.leb_le, Z.ltb_lt in Heqb; now apply within_deposit.
  - destruct b; reflexivity.
  - apply Z.eqb_eq in Heqb; rewrite s_ext_small by (lia || eapply (within_clear _ _ 7); eassumption || lia).
    now apply (within_ext 8).
  - apply Z.eqb_eq in Heqb; rewrite s_ext_small by (lia || eapply (within_clear _ _ 15); eassumption || lia).
    now apply (within_ext 16).
  - now apply (within_ext 8).
  - now apply (within_ext 16).
  - now apply within_neg.
  - rewrite <- wrap_lnot_land, wrap_id by (apply land_range'; assumption).
    apply within_land; [assumption|apply within_self].
  - rewrite <- wrap_lnot_land, wrap_id by (apply land_range'; assumption); now apply within_land_l.
  - split; [out_word|apply wrap_range; lia].
    destruct (guest_ld _ _ _) as [[v0 w0]|]; [injection E as <- <-; one_out|discriminate].
    intros v vs [= <- _]; now apply within_memop.
  - split; [out_word|apply wrap_range; lia].
    destruct (guest_ld _ _ _) as [[v0 w0]|]; [injection E as <- <-; one_out|discriminate].
    intros v vs [= <- _]; now apply within_memop.
Qed.

Lemma memop_mask_nonzero oi : u32 (u64 (2 .<< ((8 .<< (get_memop oi .& MO_SIZE)) - 1)) - 1) <> 0.
Proof.
  assert (R : 0 <= get_memop oi .& MO_SIZE < 4).
  { change MO_SIZE with (Z.ones 2); rewrite Z.land_ones by lia; apply Z.mod_pos_bound; lia. }
  assert (C : forall k, k = 0 \/ k = 1 \/ k = 2 \/ k = 3 -> u32 (u64 (2 .<< ((8 .<< k) - 1)) - 1) <> 0)
    by (intros k [-> | [-> | [-> | ->]]]; discriminate).
  apply C; lia.
Qed.

(** A whole mask of zeros is only found for operations that compute one word. *)
Lemma known_zeros_pure st op :
  fst (known_zeros st op) = 0 ->
  is_pure (opc op) = true /\ nb_oargs (tcg_op_defs (opc op)) = 1%nat /\
  OPF_64BIT (tcg_op_defs (opc op)) = false /\ (0 < nb_iargs (tcg_op_defs (opc op)))%nat.
Proof.
  unfold known_zeros; destruct (opc op); try discriminate; intros E; splits; cbn; try reflexivity; try lia;
    exfalso; revert E; destruct (negb _); try discriminate; apply memop_mask_nonzero.
Qed.

Lemma known_zero_computes st m op :
  ready st m op -> fst (known_zeros st op) = 0 -> computes op m 0.
Proof.
  intros R E; destruct (known_zeros_pure st op E) as (P & No & _ & _).
  assert (N : opc op <> call) by (intros C; rewrite C in P; discriminate).
  destruct (known_zeros_ok st m op R N) as [O _]; rewrite E in O; intros w; specialize (O w).
  pose proof (length_oargs st m op R) as Lo; rewrite n_oargs_def, No in Lo by assumption.
  unfold eval_op in *; rewrite P in *; destruct (eval_pure _ _ _) as [vs|]; [right|now left].
  destruct (O _ _ eq_refl) as (vs' & -> & L & _ & V); rewrite Lo in L.
  destruct vs' as [|v [|]]; try discriminate L; specialize (V v [] eq_refl); apply within_zero in V as ->.
  destruct op as [o co ci [|a0 a]]; unfold oargs, n_oargs in *; cbn [opc args] in *.
  - rewrite firstn_nil in Lo; discriminate.
  - destruct o; try congruence; cbn [tcg_op_defs nb_oargs] in No |- *; try discriminate No; reflexivity.
Qed.

Lemma affected_computes st m op :
  ready st m op -> snd (known_zeros st op) .& 0xffffffff = 0 -> computes op m (rd m (arg op 1)).
Proof.
  intros R; destruct op as [o co ci a]; unfold known_zeros, and_const; cbn [opc].
  destruct o; try discriminate; open_ready R; unfold arg; cbn [args nth]; mask_facts;
    repeat match goal with
    | |- context [if temp_is_const ?st ?t then _ else _] => destruct (temp_is_const st t) eqn:?; try discriminate
    | |- context [if negb ?b then _ else _] => destruct b eqn:?; cbn [negb]; try discriminate
    end; cbn [snd]; const_facts; intros A w; right; eval_args; cbn [wrs].
  - apply within_affected with (x := rd m a1) in A; [|assumption|assumption].
    rewrite A, wrap_id by assumption; reflexivity.
  - rewrite s_ext_small by (lia || (eapply (within_clear _ _ 7); [eassumption|lia|now apply Z.eqb_eq])).
    rewrite (ext_affected 8 _ (mask (temps st a1))) by (assumption || lia); reflexivity.
  - rewrite s_ext_small by (lia || (eapply (within_clear _ _ 15); [eassumption|lia|now apply Z.eqb_eq])).
    rewrite (ext_affected 16 _ (mask (temps st a1))) by (assumption || lia); reflexivity.
  - rewrite (ext_affected 8 _ (mask (temps st a1))) by (assumption || lia); reflexivity.
  - rewrite (ext_affected 16 _ (mask (temps st a1))) by (assumption || lia); reflexivity.
  - apply within_affected with (x := rd m a1) in A; [|assumption|assumption].
    rewrite <- wrap_lnot_land, A, wrap_id by assumption; reflexivity.
Qed.

Lemma affected_pure st op :
  snd (known_zeros st op) .& 0xffffffff = 0 ->
  OPF_64BIT (tcg_op_defs (opc op)) = false /\ opc op <> set_label /\
  nb_oargs (tcg_op_defs (opc op)) = 1%nat /\ (0 < nb_iargs (tcg_op_defs (opc op)))%nat.
Proof.
  unfold known_zeros; destruct (opc op); try discriminate; intros E; splits; cbn; try reflexivity; try lia;
    try discriminate; exfalso; revert E; destruct (negb _); discriminate.
Qed.

(** An operation with one output and an input has two arguments, both in use. *)
Lemma two_args st m op :
  ready st m op -> opc op <> call -> nb_oargs (tcg_op_defs (opc op)) = 1%nat ->
  (0 < nb_iargs (tcg_op_defs (opc op)))%nat ->
  exists a0 a1 rest, op = mkOp (opc op) (callo op) (calli op) (a0 :: a1 :: rest) /\
    live st a0 /\ live st a1.
Proof.
  intros [_ _ [Wl _] La] N O I; unfold n_oargs, n_iargs in *.
  destruct op as [o co ci [|a0 [|a1 rest]]]; cbn [opc args callo calli] in *.
  1, 2: destruct o; try congruence; cbn in *; lia.
  exists a0, a1, rest; split; [reflexivity|].
  destruct o; try congruence; cbn in La, O, I; try discriminate O; try (exfalso; lia); open_forall; auto.
Qed.

Lemma simplify_known_zeros_ok st m op :
  ready st m op -> opc op <> call ->
  phase_ok op m (simplify_known_zeros s st op (fst (known_zeros st op)) (snd (known_zeros st op))).
Proof.
  intros R N; unfold simplify_known_zeros; pose proof (known_zeros_ok st m op R N) as [_ Rk].
  set (b := OPF_64BIT _); destruct (Z.eqb_spec (if b then fst (known_zeros st op) else fst (known_zeros st op) .& 0xffffffff) 0) as [E|_].
  - assert (E0 : fst (known_zeros st op) = 0) by (destruct b; [assumption|now rewrite all_ones_mask in E]).
    destruct (known_zeros_pure st op E0) as (P & O & B & I).
    pose proof (known_zero_computes st m op R E0) as C.
    destruct (two_args st m op R N O I) as (a0 & a1 & rest & Eop & L0 & L1).
    apply ends_ok; rewrite Eop in C |- *; apply visit_movi; auto; try apply R; [unfold inU; lia|].
    intros X; rewrite X in P; discriminate.
  - destruct (Z.eqb_spec (if b then snd (known_zeros st op) else snd (known_zeros st op) .& 0xffffffff) 0) as [E|_];
      [|now left].
    assert (E0 : snd (known_zeros st op) .& 0xffffffff = 0) by (destruct b; [now rewrite E|assumption]).
    destruct (affected_pure st op E0) as (B & X & O & I).
    pose proof (affected_computes st m op R E0) as C.
    destruct (two_args st m op R N O I) as (a0 & a1 & rest & Eop & L0 & L1).
    apply ends_ok; rewrite Eop in C |- *; apply visit_mov; auto; apply R.
Qed.

(** ** Folding conditions *)

Definition decides (t : Z) (r : option bool) : Prop := t = 2 \/ exists b, t = b2z b /\ r = Some b.

Lemma option_b2z r : (exists b : bool, r = Some b) -> exists t, option_map b2z r = Some t /\ decides t r.
Proof. intros [b ->]; exists (b2z b); split; [reflexivity|right; eauto]. Qed.

Lemma fold_cond_ok st m o x y c :
  wf_store m -> inv st m -> live st x -> live st y -> comparison c = true -> op_bits o = 32 ->
  exists t, do_constant_folding_cond st o x y c = Some t /\ decides t (cond_holds 32 c (rd m x) (rd m y)).
Proof.
  intros Wm I Lx Ly Hc B; unfold do_constant_folding_cond; rewrite B; cbn [Z.eqb Pos.eqb].
  assert (Rx := live_range st m x Wm Lx); assert (Ry := live_range st m y Wm Ly).
  destruct (temp_is_const st x && temp_is_const st y) eqn:C.
  - apply andb_true_iff in C as [Cx Cy]; rewrite <- (proj1 (const_value st m x I Lx Cx)).
    rewrite <- (proj1 (const_value st m y I Ly Cy)), !wrap_id, fold_cond_32 by assumption.
    now apply option_b2z, cond_holds_some.
  - destruct (copies_value st m x y I Lx Ly) as ([] & -> & E).
    + rewrite (fold_cond_eq 32 c (rd m x)), <- (E eq_refl) by assumption.
      now apply option_b2z, cond_holds_some.
    + destruct (const_is st y 0) eqn:Z0; [|exists 2; split; [reflexivity|now left]].
      rewrite (const_is_value st m y 0 I Ly Z0).
      destruct (Z.eqb_spec c TCG_COND_LTU) as [->|]; [|destruct (Z.eqb_spec c TCG_COND_GEU) as [->|]];
        eexists; (split; [reflexivity|]).
      * right; exists false; split; [reflexivity|]; apply cond_ltu_zero, Rx.
      * right; exists true; split; [reflexivity|]; apply cond_geu_zero, Rx.
      * now left.
Qed.

Lemma fold_cond2_ok st m al ah bl bh c :
  wf_store m -> inv st m -> live st al -> live st ah -> live st bl -> live st bh -> comparison c = true ->
  exists t, do_constant_folding_cond2 st al ah bl bh c = Some t /\
    decides t (cond_holds 64 c (dword (rd m al) (rd m ah)) (dword (rd m bl) (rd m bh))).
Proof.
  intros Wm I L1 L2 L3 L4 Hc; unfold do_constant_folding_cond2.
  assert (R1 := live_range st m _ Wm L1); assert (R2 := live_range st m _ Wm L2).
  assert (R3 := live_range st m _ Wm L3); assert (R4 := live_range st m _ Wm L4).
  set (copies := match temps_are_copies st al bl with Some _ => _ | None => _ end).
  assert (Cp : exists t, copies = Some t /\
    decides t (cond_holds 64 c (dword (rd m al) (rd m ah)) (dword (rd m bl) (rd m bh)))).
  { subst copies; destruct (copies_value st m al bl I L1 L3) as ([] & -> & E);
      [destruct (copies_value st m ah bh I L2 L4) as ([] & -> & E')|]; try (exists 2; split; [reflexivity|now left]).
    rewrite (fold_cond_eq 64 c (dword (rd m al) (rd m ah))), <- (E eq_refl), <- (E' eq_refl) by assumption.
    now apply option_b2z, cond_holds_some. }
  clearbody copies; cbv zeta.
  destruct (temp_is_const st bl && temp_is_const st bh) eqn:C; [|exact Cp].
  apply andb_true_iff in C as [C3 C4]; rewrite <- (proj1 (const_value st m bl I L3 C3)),
    <- (proj1 (const_value st m bh I L4 C4)), (dword_code (rd m bl) (rd m bh)) by assumption.
  destruct (temp_is_const st al && temp_is_const st ah) eqn:C.
  - apply andb_true_iff in C as [C1 C2]; rewrite <- (proj1 (const_value st m al I L1 C1)),
      <- (proj1 (const_value st m ah I L2 C2)), (dword_code (rd m al) (rd m ah)), fold_cond_64 by assumption.
    now apply option_b2z, cond_holds_some.
  - pose proof (dword_range _ _ R1 R2) as [Nd _].
    destruct (Z.eqb_spec (dword (rd m bl) (rd m bh)) 0) as [Eb|]; cbn [andb]; [|exact Cp].
    destruct (Z.eqb_spec c TCG_COND_LTU) as [->|]; [|destruct (Z.eqb_spec c TCG_COND_GEU) as [->|]; [|exact Cp]];
      eexists; (split; [reflexivity|]); right.
    + exists false; split; [reflexivity|]; rewrite Eb; now apply cond_ltu_zero.
    + exists true; split; [reflexivity|]; rewrite Eb; now apply cond_geu_zero.
Qed.

(** ** The end of a visit *)

Lemma labels_kept_one st op op' :
  opc op <> set_label -> opc op' <> set_label -> labels_kept st [op'] op.
Proof. intros N N'; unfold labels_kept; destruct (opc op); try congruence; repeat constructor; assumption. Qed.

Lemma forget_all st m : inv (reset_all_temps st (nb_temps s)) m.
Proof. now apply inv_reset_all. Qed.

(** A basic block ends: everything is forgotten. *)
Lemma visit_end st m op op' :
  wf_store m -> opc op <> set_label -> opc op' <> set_label ->
  (forall w, eval_op op m w = Undefined \/ eval_op op' m w = eval_op op m w) ->
  visit_ok op m (Some (reset_all_temps st (nb_temps s), Kept op')).
Proof.
  intros Wm N N' E; eexists _, _; split; [reflexivity|]; cbn [ops_of]; split; [split|split].
  - intros w; destruct (E w) as [U|U]; [auto|right]; cbn [exec]; split; [|intros; apply forget_all].
    rewrite U; destruct (eval_op op m w); reflexivity.
  - exists m; split; [assumption|apply forget_all].
  - now apply labels_kept_one.
  - exact Logic.I.
Qed.

(** The operation does nothing. *)
Lemma visit_nothing st m op :
  wf_store m -> inv st m -> opc op <> set_label ->
  (forall w, eval_op op m w = Undefined \/ eval_op op m w = Next m w) ->
  visit_ok op m (brcond_false st).
Proof.
  intros Wm I N E; eexists _, _; split; [reflexivity|]; cbn [ops_of]; split; [split|split].
  - intros w; destruct (E w) as [U|U]; [auto|right]; cbn [exec]; rewrite U; split; [reflexivity|].
    intros m' w' [= <- <-]; exact I.
  - exists m; auto.
  - unfold labels_kept; destruct (opc op); try congruence; constructor.
  - exact Logic.I.
Qed.

Lemma visit_label st m op :
  wf_store m -> opc op = set_label ->
  visit_ok op m (Some (reset_all_temps st (nb_temps s), Kept op)).
Proof.
  intros Wm E; eexists _, _; split; [reflexivity|]; cbn [ops_of]; split; [split|split].
  - intros w; right; cbn [exec]; split; [destruct (eval_op op m w); reflexivity|intros; apply forget_all].
  - exists m; split; [assumption|apply forget_all].
  - unfold labels_kept; rewrite E; split; [reflexivity|intros; apply forget_all].
  - exact Logic.I.
Qed.

Lemma ready_oargs st m op : ready st m op -> Forall (live st) (oargs op).
Proof.
  intros [_ _ _ La]; unfold oargs; rewrite Forall_forall in *; intros t Ht; apply La.
  rewrite <- (firstn_skipn (n_oargs op)); apply in_or_app; left.
  rewrite firstn_firstn; replace (Nat.min (n_oargs op) _) with (n_oargs op) by lia; assumption.
Qed.

Lemma do_default_ok st m op :
  ready st m op -> opc op <> call -> visit_ok op m (do_default s st op (fst (known_zeros st op))).
Proof.
  intros R N; unfold do_default; destruct (BB_END _) eqn:B.
  - destruct (opc op) eqn:O; try discriminate B; try (apply visit_end; [apply R|congruence|congruence|auto]).
    apply visit_label; [apply R|exact O].
  - destruct (known_zeros_ok st m op R N) as [O Rk].
    apply (visit_outputs st m op op _ (repeat 0 (length (oargs op)))); try apply R; auto.
    + now apply ready_oargs with m.
    + intros E; rewrite E in B; discriminate.
    + intros E; rewrite E in B; discriminate.
    + apply repeat_length.
    + apply Forall_forall; intros x Hx; symmetry; eapply repeat_spec; eauto.
    + intros w; right; split; [reflexivity|exact (O w)].
Qed.

(** ** Folding *)

(** A fold result is what the operation computes. *)
Lemma folds_computes op m r :
  is_pure (opc op) = true -> folds (opc op) (map (rd m) (iargs op)) r -> cargs op = [] -> oargs op = [arg op 0] ->
  exists v, r = Some v /\ inU 32 v /\ computes op m v.
Proof.
  intros P (v & -> & Rv & E) C O; exists v; splits; auto; intros w; unfold eval_op; rewrite P, C, O.
  destruct E as [-> | ->]; auto.
Qed.

Lemma visit_folds st m o co ci a0 a1 rest r :
  let op := mkOp o co ci (a0 :: a1 :: rest) in
  wf_store m -> inv st m -> live st a0 -> is_pure o = true -> OPF_64BIT (tcg_op_defs o) = false ->
  o <> set_label -> oargs op = [a0] -> cargs op = [] -> folds o (map (rd m) (iargs op)) r ->
  visit_ok op m (let? tmp := r in movi_fate (tcg_opt_gen_movi st op a0 tmp)).
Proof.
  intros op Wm I L P B N O C F.
  destruct (folds_computes op m r P F C O) as (v & -> & Rv & Cv); now apply visit_movi.
Qed.

Lemma fold_unary st m op :
  ready st m op -> folded1 (opc op) = true -> temp_is_const st (arg op 1) = true ->
  visit_ok op m (let? tmp := do_constant_folding (opc op) (val (temps st (arg op 1))) 0 in
                 movi_fate (tcg_opt_gen_movi st op (arg op 0) tmp)).
Proof.
  intros R F C; destruct op as [o co ci a]; cbn [opc] in *.
  destruct o; try discriminate F; open_ready R; unfold arg in *; cbn [args nth] in *; const_facts;
    apply visit_folds; auto; try discriminate; refine (fold1_ok _ (rd m a1) F _);
    eapply live_range; eassumption.
Qed.

Lemma fold_binary st m op :
  ready st m op -> folded2 (opc op) = true ->
  temp_is_const st (arg op 1) && temp_is_const st (arg op 2) = true ->
  visit_ok op m (let? tmp := do_constant_folding (opc op) (val (temps st (arg op 1))) (val (temps st (arg op 2))) in
                 movi_fate (tcg_opt_gen_movi st op (arg op 0) tmp)).
Proof.
  intros R F C; apply andb_true_iff in C as [C1 C2]; destruct op as [o co ci a]; cbn [opc] in *.
  destruct o; try discriminate F; open_ready R; unfold arg in *; cbn [args nth] in *; const_facts;
    apply visit_folds; auto; try discriminate; refine (fold2_ok _ (rd m a1) (rd m a2) F _ _);
    eapply live_range; eassumption.
Qed.

Lemma deposit_fold x pos len y :
  inU 32 x -> 0 <= pos -> 0 < len -> len <= 32 - pos ->
  u32 (deposit64 x pos len y) = deposit32 x pos len y.
Proof.
  intros Rx Hp Hl Hw; apply Z.bits_inj'; intros i Hi; unfold deposit32, deposit64.
  rewrite testbit_wrap, !testbit_depositw by (assumption || lia || (apply (inU_le 32); lia || assumption)).
  destruct (Z.ltb_spec i 32); [reflexivity|]; cbn [andb]; symmetry.
  rewrite (testbit_high 32 x i) by (assumption || lia).
  replace ((pos <=? i) && (i <? pos + len)) with false; [reflexivity|].
  symmetry; apply andb_false_iff; right; apply Z.ltb_ge; lia.
Qed.

Lemma fold_deposit st m op :
  ready st m op -> opc op = deposit_i32 ->
  temp_is_const st (arg op 1) && temp_is_const st (arg op 2) = true ->
  visit_ok op m (movi_fate (tcg_opt_gen_movi st op (arg op 0)
    (u32 (deposit64 (val (temps st (arg op 1))) (arg op 3) (arg op 4) (val (temps st (arg op 2))))))).
Proof.
  intros R O C; apply andb_true_iff in C as [C1 C2]; destruct op as [o co ci a]; cbn [opc] in O; subst o.
  open_ready R; unfold arg in *; cbn [args nth] in *; const_facts.
  apply visit_movi; auto; [apply wrap_range; lia|discriminate|]; intros w; eval_args; cbn [wrs].
  destruct (_ && _) eqn:B; [right|now left].
  rewrite !andb_true_iff, !Z.leb_le, Z.ltb_lt in B; do 2 f_equal.
  symmetry; apply deposit_fold; try lia; eapply live_range; eassumption.
Qed.

(** ** Conditions that are known *)

Lemma decides_const t r : decides t r -> (t =? 2) = false -> exists b, t = b2z b /\ r = Some b.
Proof. intros [->|H] E; [discriminate|exact H]. Qed.

Ltac fold_cond t b :=
  let D := fresh "D" in
  match goal with
  | I : inv ?st ?m |- visit_ok _ _ (match ?r with Some _ => _ | None => None end) =>
      lazymatch r with
      | do_constant_folding_cond st ?o ?x ?y ?c =>
          destruct (fold_cond_ok st m o x y c) as (t & -> & D); auto
      | do_constant_folding_cond2 st ?al ?ah ?bl ?bh ?c =>
          destruct (fold_cond2_ok st m al ah bl bh c) as (t & -> & D); auto
      end
  end.

Lemma fold_setcond st m op :
  ready st m op -> opc op = setcond_i32 ->
  visit_ok op m (fold_op s st op (fst (known_zeros st op))).
Proof.
  intros R O; pose proof (do_default_ok st m op R ltac:(congruence)) as Df.
  unfold fold_op; rewrite O; cbv beta iota zeta; destruct op as [o co ci a]; cbn [opc] in O; subst o.
  open_ready R; unfold arg in *; cbn [args nth] in *.
  fold_cond t b; destruct (t =? 2) eqn:E; cbn [negb]; [exact Df|].
  destruct (decides_const _ _ D E) as (b & -> & V).
  apply visit_movi; auto; [apply b2z_range|discriminate|].
  intros w; right; eval_args; rewrite V; reflexivity.
Qed.

Lemma fold_movcond st m op :
  ready st m op -> opc op = movcond_i32 ->
  visit_ok op m (fold_op s st op (fst (known_zeros st op))).
Proof.
  intros R O; pose proof (do_default_ok st m op R ltac:(congruence)) as Df.
  unfold fold_op; rewrite O; cbv beta iota zeta; destruct op as [o co ci a]; cbn [opc] in O; subst o.
  open_ready R; unfold arg in *; cbn [args nth] in *.
  fold_cond t b; destruct (t =? 2) eqn:E; cbn [negb]; [exact Df|].
  destruct (decides_const _ _ D E) as (b & -> & V).
  destruct b; cbn [b2z Z.sub Z.to_nat Pos.to_nat Z.add Z.opp Z.pos_sub Pos.sub nth];
    (apply visit_mov; auto; [discriminate|]); intros w; right; eval_args; rewrite V; reflexivity.
Qed.

Lemma visit_brcond st m op t label :
  ready st m op -> opc op <> set_label ->
  (exists b, t = b2z b /\ forall w, eval_op op m w = if b then Jump label m w else Next m w) ->
  (1 <= length (args op))%nat ->
  visit_ok op m (if truthy t then brcond_true s st op label else brcond_false st).
Proof.
  intros R N (b & -> & E) L; destruct b; cbn [b2z truthy Z.eqb negb].
  - apply visit_end; [apply R|exact N|discriminate|]; intros w; right; rewrite E.
    destruct op as [o co ci [|x a]]; [cbn in L; lia|reflexivity].
  - apply visit_nothing; [apply R|apply R|exact N|]; intros w; right; apply E.
Qed.

Lemma fold_brcond st m op :
  ready st m op -> opc op = brcond_i32 ->
  visit_ok op m (fold_op s st op (fst (known_zeros st op))).
Proof.
  intros R O; pose proof (do_default_ok st m op R ltac:(congruence)) as Df.
  unfold fold_op; rewrite O; cbv beta iota zeta; destruct op as [o co ci a]; cbn [opc] in O; subst o.
  pose proof R as R0; open_ready R; unfold arg in *; cbn [args nth] in *.
  fold_cond t b; destruct (t =? 2) eqn:E; cbn [negb]; [exact Df|].
  destruct (decides_const _ _ D E) as (b & -> & V).
  apply visit_brcond; auto; [discriminate| |cbn; lia].
  exists b; split; [reflexivity|]; intros w; eval_args; rewrite V; destruct b; reflexivity.
Qed.

(** ** Double words *)

Lemma wf_visit_movi st m t v :
  wf_store m -> inv st m -> live st t -> inU 32 v -> inv (movi_state st t v) (wr m t v).
Proof. intros; apply gen_movi_ok; auto. Qed.

Lemma words_fold d : words_of (u64 d) = words_of d.
Proof.
  unfold words_of; f_equal; [|f_equal]; apply Z.bits_inj'; intros i Hi;
    rewrite !testbit_wrap, ?Z.shiftr_spec, ?testbit_wrap by lia.
  - destruct (Z.ltb_spec i 32), (Z.ltb_spec i 64); reflexivity || lia.
  - destruct (Z.ltb_spec i 32), (Z.ltb_spec (i + 32) 64); reflexivity || lia.
Qed.

(** The pair of words is known: [movi] of the high word, then of the low word. *)
Lemma visit_pair st m o co ci rl rh rest r :
  let op := mkOp o co ci (rl :: rh :: rest) in
  wf_store m -> inv st m -> live st rl -> live st rh -> rl <> rh ->
  OPF_64BIT (tcg_op_defs o) = false -> o <> set_label ->
  (forall w, eval_op op m w = Next (wrs m [rl; rh] (words_of r)) w) ->
  visit_ok op m (fold_pair st op r).
Proof.
  intros op Wm I Ll Lh N B Nl E; unfold fold_pair, op, arg; cbn [args nth].
  rewrite gen_movi_eq, gen_movi_eq by (assumption || reflexivity).
  set (vl := u32 (s32 r)); set (vh := u32 (s32 (r .>> 32))).
  assert (Rl : inU 32 vl) by (apply wrap_range; lia).
  assert (Rh : inU 32 vh) by (apply wrap_range; lia).
  assert (Ew : wrs m [rl; rh] (words_of r) = wr (wr m rl vl) rh vh)
    by (unfold words_of, vl, vh; rewrite !fold_canon; reflexivity).
  assert (I2 : inv (movi_state (movi_state st rl vl) rh vh) (wr (wr m rl vl) rh vh)).
  { apply wf_visit_movi; auto using wf_wr; now apply wf_visit_movi. }
  eexists _, _; split; [reflexivity|]; cbn [ops_of]; split; [split|split].
  - intros w; right; rewrite E, Ew; cbn [exec]; rewrite !eval_movi; cbn [exec].
    rewrite (wrap_id 32 vh), (wrap_id 32 vl) by assumption; split.
    + f_equal; apply (wr_comm s); auto; [apply Lh|apply Ll].
    + intros m' w' [= <- <-]; exact I2.
  - eexists; split; [|exact I2]; auto using wf_wr.
  - unfold labels_kept; cbn [opc]; destruct o; try congruence; repeat constructor; discriminate.
  - cbn [again_ok]; splits; [exact Ll|exact Rl|].
    intros w m' w'; rewrite E, Ew; intros [= <- <-].
    rewrite (rd_wr_ne s), (rd_wr_eq s) by (try congruence; try apply Ll; try apply Lh; assumption).
    reflexivity.
Qed.

Lemma dword_words l h : inU 32 l -> inU 32 h -> u64 (u32 h .<< 32) .| u32 l = dword l h.
Proof. intros Rl Rh; rewrite (wrap_id 32 h) by assumption; now apply dword_code. Qed.

Lemma fold_double st m op :
  ready st m op -> opc op = add2_i32 \/ opc op = sub2_i32 \/ opc op = mulu2_i32 ->
  visit_ok op m (fold_op s st op (fst (known_zeros st op))).
Proof.
  intros R O; assert (N : opc op <> call) by (destruct O as [-> | [-> | ->]]; discriminate).
  pose proof (do_default_ok st m op R N) as Df; unfold fold_op.
  destruct op as [o co ci a]; cbn [opc] in O, N |- *.
  destruct O as [-> | [-> | ->]]; open_ready R; unfold arg in *; cbn [args nth] in *;
    (match goal with |- context [if ?c then _ else _] => destruct c eqn:C end; [|exact Df]);
    repeat match goal with H : _ && _ = true |- _ => apply andb_true_iff in H as [? ?] end;
    const_facts; mask_facts; rewrite ?dword_words by assumption;
    rewrite ?(wrap_id 32 (rd _ _)) by assumption;
    (apply visit_pair; auto;
     [intros ->; inversion_clear Wd as [|? ? X]; apply X; now left|discriminate|]);
    intros w; rewrite words_fold; reflexivity.
Qed.

(** ** Comparisons of double words *)

(** The comparison of the words that are not known to be equal. *)
Lemma cond_high_eq c al ah bl bh :
  inU 32 al -> inU 32 bl -> c = TCG_COND_EQ \/ c = TCG_COND_NE -> al = bl ->
  cond_holds 64 c (dword al ah) (dword bl bh) = cond_holds 32 c ah bh.
Proof.
  intros Ra Rb C ->; destruct (cond_dword_eq bl ah bl bh Rb Rb) as [E N].
  destruct C as [-> | ->]; rewrite ?E, ?N, Z.eqb_refl; reflexivity.
Qed.

Lemma cond_low_eq c al ah bl bh :
  inU 32 al -> inU 32 bl -> c = TCG_COND_EQ \/ c = TCG_COND_NE -> ah = bh ->
  cond_holds 64 c (dword al ah) (dword bl bh) = cond_holds 32 c al bl.
Proof.
  intros Ra Rb C ->; destruct (cond_dword_eq al bh bl bh Ra Rb) as [E N].
  destruct C as [-> | ->]; rewrite ?E, ?N, Z.eqb_refl, andb_true_r; reflexivity.
Qed.

Lemma cond_differ c al ah bl bh :
  inU 32 al -> inU 32 bl -> c = TCG_COND_EQ \/ c = TCG_COND_NE -> al <> bl \/ ah <> bh ->
  cond_holds 64 c (dword al ah) (dword bl bh) = Some (c =? TCG_COND_NE).
Proof.
  intros Ra Rb C D; destruct (cond_dword_eq al ah bl bh Ra Rb) as [E N].
  assert (X : (al =? bl) && (ah =? bh) = false)
    by (apply andb_false_iff; rewrite !Z.eqb_neq; exact D).
  destruct C as [-> | ->]; rewrite ?E, ?N, X; reflexivity.
Qed.

(** What a known word comparison says of the words. *)
Lemma decides_eq t x y :
  decides t (cond_holds 32 TCG_COND_EQ x y) -> (t = 0 -> x <> y) /\ (t = 1 -> x = y).
Proof.
  intros [->|(b & -> & E)]; [split; discriminate|]; injection E as E; split; intros T; destruct b; try discriminate T.
  - now apply Z.eqb_neq.
  - now apply Z.eqb_eq.
Qed.

Lemma decides_ne t x y :
  decides t (cond_holds 32 TCG_COND_NE x y) -> (t = 0 -> x = y) /\ (t = 1 -> x <> y).
Proof.
  intros [->|(b & -> & E)]; [split; discriminate|]; injection E as E; split; intros T; destruct b; try discriminate T.
  - now apply negb_eqb_false.
  - now apply Z.eqb_neq, negb_true_iff.
Qed.

Section Brcond2.
  Variables (st : opt_state) (m : store) (co ci : nat) (a0 a1 a2 a3 a4 a5 : Z) (rest : list Z).
Let op := mkOp brcond2_i32 co ci (a0 :: a1 :: a2 :: a3 :: a4 :: a5 :: rest).
  Hypotheses (Wm : wf_store m) (I : inv st m).
Let value := cond_holds 64 a4 (dword (rd m a0) (rd m a1)) (dword (rd m a2) (rd m a3)).

Lemma brcond_high_ok :
  value = cond_holds 32 a4 (rd m a1) (rd m a3) -> visit_ok op m (brcond_high s st op).
Proof.
  intros E; apply visit_end; auto; [discriminate|discriminate|]; intros w; right.
  transitivity (branch value a5 m w); [rewrite E|]; reflexivity.
Qed.

Lemma brcond_low_ok :
  value = cond_holds 32 a4 (rd m a0) (rd m a2) -> visit_ok op m (brcond_low s st op).
Proof.
  intros E; apply visit_end; auto; [discriminate|discriminate|]; intros w; right.
  transitivity (branch value a5 m w); [rewrite E|]; reflexivity.
Qed.

Lemma brcond2_true_ok : value = Some true -> visit_ok op m (brcond_true s st op a5).
Proof.
  intros E; apply visit_end; auto; [discriminate|discriminate|]; intros w; right.
  transitivity (branch value a5 m w); [rewrite E|]; reflexivity.
Qed.

Lemma brcond2_false_ok : value = Some false -> visit_ok op m (brcond_false st).
Proof.
  intros E; apply visit_nothing; auto; [discriminate|]; intros w; right.
  transitivity (branch value a5 m w); [|rewrite E]; reflexivity.
Qed.
End Brcond2.

(** Comparison of a double word against zero, from the facts of the pass. *)
Ltac high_zero :=
  repeat match goal with
  | H : _ && _ = true |- _ => apply andb_true_iff in H as [? ?]
  | H : _ || _ = true |- _ => apply orb_true_iff in H
  end; get_facts;
  repeat match goal with H : rd _ _ = 0 |- _ => rewrite H end;
  apply cond_dword_high; auto; rewrite <- ?Z.eqb_eq; auto.

Lemma fold_brcond2_ok st m op :
  ready st m op -> opc op = brcond2_i32 ->
  visit_ok op m (fold_brcond2 s st op (fst (known_zeros st op))).
Proof.
  intros R O; pose proof (do_default_ok st m op R ltac:(congruence)) as Df.
  unfold fold_brcond2; destruct op as [o co ci a]; cbn [opc] in O; subst o.
  open_ready R; unfold arg in *; cbn [args nth] in *; mask_facts; cbv zeta.
  fold_cond t b; destruct (t =? 2) eqn:E; cbn [negb].
  2: { destruct (decides_const _ _ D E) as ([] & -> & V); cbn [b2z truthy Z.eqb negb];
       [now apply brcond2_true_ok|now apply brcond2_false_ok]. }
  match goal with |- context [if ?c then _ else _] => destruct c eqn:C end.
  { apply brcond_high_ok; auto; high_zero. }
  destruct (Z.eqb_spec a4 TCG_COND_EQ) as [Ec|Nc].
  - fold_cond t1 b1; destruct (decides_eq _ _ _ D0) as [Z0 Z1].
    destruct (Z.eqb_spec t1 0); [|destruct (Z.eqb_spec t1 1)].
    + apply brcond2_false_ok; auto; rewrite cond_differ by auto; now rewrite Ec.
    + apply brcond_high_ok; auto; apply cond_high_eq; auto.
    + fold_cond t2 b2; destruct (decides_eq _ _ _ D1) as [Y0 Y1].
      destruct (Z.eqb_spec t2 0); [|destruct (Z.eqb_spec t2 1)]; cbn [negb]; [| |exact Df].
      * apply brcond2_false_ok; auto; rewrite cond_differ by auto; now rewrite Ec.
      * apply brcond_low_ok; auto; apply cond_low_eq; auto.
  - destruct (Z.eqb_spec a4 TCG_COND_NE) as [Ec|_]; [|exact Df].
    fold_cond t1 b1; destruct (decides_ne _ _ _ D0) as [Z0 Z1].
    destruct (Z.eqb_spec t1 0); [|destruct (Z.eqb_spec t1 1)].
    + apply brcond_high_ok; auto; apply cond_high_eq; auto.
    + apply brcond2_true_ok; auto; rewrite cond_differ by auto; now rewrite Ec.
    + fold_cond t2 b2; destruct (decides_ne _ _ _ D1) as [Y0 Y1].
      destruct (Z.eqb_spec t2 0); [|destruct (Z.eqb_spec t2 1)]; [| |exact Df].
      * apply brcond_low_ok; auto; apply cond_low_eq; auto.
      * apply brcond2_true_ok; auto; rewrite cond_differ by auto; now rewrite Ec.
Qed.

Lemma eval_setcond co ci d x y c rest m w :
  eval_op (mkOp setcond_i32 co ci (d :: x :: y :: c :: rest)) m w =
    match cond_holds 32 c (rd m x) (rd m y) with Some b => Next (wr m d (b2z b)) w | None => Undefined end.
Proof. eval_args; destruct (cond_holds _ _ _ _); reflexivity. Qed.

Section Setcond2.
  Variables (st : opt_state) (m : store) (co ci : nat) (a0 a1 a2 a3 a4 a5 : Z) (rest : list Z).
Let op := mkOp setcond2_i32 co ci (a0 :: a1 :: a2 :: a3 :: a4 :: a5 :: rest).
  Hypotheses (Wm : wf_store m) (I : inv st m) (L : live st a0) (C : comparison a5 = true).
Let value := cond_holds 64 a5 (dword (rd m a1) (rd m a2)) (dword (rd m a3) (rd m a4)).

Lemma eval_setcond2 w :
  eval_op op m w = match value with Some b => Next (wr m a0 (b2z b)) w | None => Undefined end.
Proof. unfold op, value; eval_args; destruct (cond_holds _ _ _ _); reflexivity. Qed.

(** The comparison of one word decides; the result is a bit. *)
Lemma setcond_word_ok op' r :
  value = r -> opc op' <> set_label ->
  (forall w, eval_op op' m w = match r with Some b => Next (wr m a0 (b2z b)) w | None => Undefined end) ->
  visit_ok op m (Some (set_mask (reset_temp st a0) a0 1, Kept op')).
Proof.
  intros E N X; apply (visit_reset st m op op' 1); auto; [unfold inU; lia|discriminate|].
  intros w; right; rewrite X, eval_setcond2, <- E.
  destruct (cond_holds_some 64 a5 (dword (rd m a1) (rd m a2)) (dword (rd m a3) (rd m a4)) C) as [b V].
  unfold value; rewrite V; exists (b2z b); splits; auto; [apply b2z_range|destruct b; reflexivity].
Qed.

Lemma setcond_high_ok :
  value = cond_holds 32 a5 (rd m a2) (rd m a4) -> visit_ok op m (setcond_high st op).
Proof.
  intros E; apply (setcond_word_ok _ _ E); [discriminate|]; intros w.
  exact (eval_setcond co ci _ _ _ _ _ m w).
Qed.

Lemma setcond_low_ok :
  value = cond_holds 32 a5 (rd m a1) (rd m a3) -> visit_ok op m (setcond_low st op).
Proof.
  intros E; apply (setcond_word_ok _ _ E); [discriminate|]; intros w.
  exact (eval_setcond co ci _ _ _ _ _ m w).
Qed.

Lemma setcond_const_ok t b :
  value = Some b -> t = b2z b -> visit_ok op m (movi_fate (tcg_opt_gen_movi st op a0 t)).
Proof.
  intros E ->; apply visit_movi; auto; [apply b2z_range|discriminate|].
  intros w; right; fold op; rewrite eval_setcond2, E; reflexivity.
Qed.
End Setcond2.

Lemma fold_setcond2_ok st m op :
  ready st m op -> opc op = setcond2_i32 ->
  visit_ok op m (fold_setcond2 s st op (fst (known_zeros st op))).
Proof.
  intros R O; pose proof (do_default_ok st m op R ltac:(congruence)) as Df.
  unfold fold_setcond2; destruct op as [o co ci a]; cbn [opc] in O; subst o.
  open_ready R; unfold arg in *; cbn [args nth] in *; mask_facts; cbv zeta.
  fold_cond t b; destruct (t =? 2) eqn:E; cbn [negb].
  2: { destruct (decides_const _ _ D E) as (b & -> & V); now apply (setcond_const_ok _ _ _ _ _ _ _ _ _ _ _ Wm I) with b. }
  match goal with |- context [if ?c then _ else _] => destruct c eqn:C end.
  { apply setcond_high_ok; auto; high_zero. }
  destruct (Z.eqb_spec a5 TCG_COND_EQ) as [Ec|Nc].
  - fold_cond t1 b1; destruct (decides_eq _ _ _ D0) as [Z0 Z1].
    destruct (Z.eqb_spec t1 0); [|destruct (Z.eqb_spec t1 1)].
    + apply setcond_const_ok with (b := false); auto; rewrite cond_differ by auto; now rewrite Ec.
    + apply setcond_high_ok; auto; apply cond_high_eq; auto.
    + fold_cond t2 b2; destruct (decides_eq _ _ _ D1) as [Y0 Y1].
      destruct (Z.eqb_spec t2 0); [|destruct (Z.eqb_spec t2 1)]; cbn [negb]; [| |exact Df].
      * apply setcond_high_ok; auto; rewrite cond_differ, Ec by auto; symmetry.
        change (Some (rd m a2 =? rd m a4) = Some false); f_equal; now apply Z.eqb_neq, Y0.
      * apply setcond_low_ok; auto; apply cond_low_eq; auto.
  - destruct (Z.eqb_spec a5 TCG_COND_NE) as [Ec|_]; [|exact Df].
    fold_cond t1 b1; destruct (decides_ne _ _ _ D0) as [Z0 Z1].
    destruct (Z.eqb_spec t1 0); [|destruct (Z.eqb_spec t1 1)].
    + apply setcond_high_ok; auto; apply cond_high_eq; auto.
    + apply setcond_const_ok with (b := true); auto; rewrite cond_differ by auto; now rewrite Ec.
    + fold_cond t2 b2; destruct (decides_ne _ _ _ D1) as [Y0 Y1].
      destruct (Z.eqb_spec t2 0); [|destruct (Z.eqb_spec t2 1)]; [| |exact Df].
      * apply setcond_low_ok; auto; apply cond_low_eq; auto.
      * apply setcond_const_ok with (b := true); auto; rewrite cond_differ by auto; now rewrite Ec.
Qed.

(** ** Calls *)

Lemma rd_word m t : Forall (inU 32) m -> inU 32 (rd m t).
Proof.
  intros F; unfold rd; destruct (Nat.lt_ge_cases (Z.to_nat t) (length m)).
  - rewrite Forall_forall in F; now apply F, nth_In.
  - rewrite nth_overflow by assumption; unfold inU; lia.
Qed.

(** Outputs a helper does not deliver keep their value. *)
Lemma wrs_pad ts : forall m vs,
  Forall (inU 32) m -> Forall (inU 32) vs ->
  exists vs', length vs' = length ts /\ Forall (inU 32) vs' /\ wrs m ts vs' = wrs m ts vs.
Proof.
  induction ts as [|t ts IH]; intros m vs Fm Fv; [exists []; auto|].
  destruct vs as [|v vs].
  - destruct (IH m [] Fm Fv) as (vs' & L & F & E); exists (rd m t :: vs'); cbn [length wrs].
    rewrite wr_rd, E; splits; auto using rd_word; destruct ts; reflexivity.
  - inversion_clear Fv; destruct (IH (wr m t v) vs) as (vs' & L & F & E); auto using Forall_upd.
    + unfold wr; now apply Forall_upd.
    + exists (v :: vs'); cbn [length wrs]; auto.
Qed.

Lemma call_cargs op : opc op = call -> (callo op + calli op + 3 <= length (args op))%nat ->
  exists f r, cargs op = f :: arg op (callo op + calli op + 1) :: r.
Proof.
  intros O L; unfold cargs, n_cargs, n_oargs, n_iargs, arg; rewrite O; cbn [tcg_op_defs nb_cargs].
  replace (nth (callo op + calli op + 1) (args op) 0)
    with (nth 1 (skipn (callo op + calli op) (args op)) 0) by apply nth_skipn.
  assert (length (skipn (callo op + calli op) (args op)) >= 3)%nat by (rewrite length_skipn; lia).
  destruct (skipn _ _) as [|f [|fl [|r l]]]; cbn in *; try lia; eauto.
Qed.

(** The state in which the helper leaves the temporaries, before its outputs. *)
Lemma call_globals st m op w o g w' :
  ready st m op -> opc op = call ->
  helper (cargs op) (map (rd m) (iargs op)) (firstn (nb_globals s) m) w = Some (o, g, w') ->
  let flags := arg op (callo op + calli op + 1) in
  let st1 := if negb (truthy (flags .& (TCG_CALL_NO_READ_GLOBALS .| TCG_CALL_NO_WRITE_GLOBALS)))
             then reset_globals s st else st in
  wf_store (g ++ skipn (nb_globals s) m) /\ inv st1 (g ++ skipn (nb_globals s) m).
Proof.
  intros [[Lm Fm] I [Wl _] La] O H flags st1; unfold n_oargs, n_iargs, n_cargs in Wl; rewrite O in Wl; cbn in Wl.
  pose proof (firstn_skipn (nb_globals s) m) as Sp.
  assert (Fg : Forall (inU 32) (firstn (nb_globals s) m) /\ Forall (inU 32) (skipn (nb_globals s) m))
    by (apply Forall_app; now rewrite Sp).
  assert (Lg : length (firstn (nb_globals s) m) = nb_globals s) by (rewrite length_firstn; lia).
  destruct (helper_globals _ _ _ _ _ _ _ Lg (proj1 Fg) H) as [Lg' Fg'].
  assert (Wm1 : wf_store (g ++ skipn (nb_globals s) m)).
  { split; [rewrite length_app, length_skipn; lia|apply Forall_app; split; [assumption|apply Fg]]. }
  split; [exact Wm1|]; destruct (call_cargs op O Wl) as (f & r & Ec); rewrite Ec in H.
  subst st1; destruct (truthy _) eqn:T; cbn [negb].
  - now rewrite (helper_no_write _ _ _ _ _ _ _ _ _ H T), Sp.
  - destruct (reset_globals_upto s few_temps st m (nb_globals s)) as (I' & Fo & _); [now split|assumption|assumption|].
    apply (forgotten_ok s few_temps _ m _ (nb_globals s)); auto.
    intros t Ht Hg; unfold rd; rewrite <- Sp at 2.
    rewrite !app_nth2, Lg, Lg' by (rewrite ?Lg, ?Lg'; lia); reflexivity.
Qed.

Lemma visit_call_ok st m op k :
  ready st m op -> opc op = call -> k = ALL_ONES -> visit_ok op m (visit_call s st op k).
Proof.
  intros R O ->; unfold visit_call.
  pose proof (fun w o g w' => call_globals st m op w o g w' R O) as G; cbv zeta in G.
  set (b := negb _) in *; set (st1 := if b then _ else st) in *.
  assert (J : inv st1 m /\ forall t, live st1 t <-> live st t).
  { subst st1; destruct b; [|split; [apply R|reflexivity]].
    destruct (reset_globals_upto s few_temps st m (nb_globals s)) as (I' & _ & L); auto; apply R. }
  destruct J as [J L]; assert (Lo : Forall (live st1) (oargs op)).
  { eapply Forall_impl; [|exact (ready_oargs st m op R)]; intros t; apply L. }
  assert (D : forall m1 vs, wf_store m1 -> inv st1 m1 -> Forall (inU 32) vs ->
              inv (do_reset_output st1 op ALL_ONES) (wrs m1 (oargs op) vs)).
  { intros m1 vs W1 I1 Fv; destruct (wrs_pad (oargs op) m1 vs (proj2 W1) Fv) as (vs' & L' & F' & <-).
    apply do_reset_output_ok; auto; [apply all_ones_range|].
    intros v vs'' ->; inversion_clear F'; now apply all_ones_mask. }
  eexists _, _; split; [reflexivity|]; cbn [ops_of]; split; [split|split].
  - intros w; right; split; [cbn [exec]; destruct (eval_op op m w); reflexivity|].
    intros m' w'; unfold eval_op, eval_call; rewrite O; cbn [is_pure].
    destruct (helper _ _ _ _) as [[[o g] w1]|] eqn:H; [|discriminate]; intros [= <- <-].
    destruct (G _ _ _ _ H) as [W1 I1]; apply D; auto.
    apply Forall_map, Forall_forall; intros; apply wrap_range; lia.
  - exists (wrs m (oargs op) []); split; [|apply D; auto; apply R].
    apply wf_wrs; auto; apply R.
  - apply labels_kept_one; congruence.
  - exact Logic.I.
Qed.

(** ** The visit of an operation *)

Lemma fold_op_ok st m op :
  ready st m op -> visit_ok op m (fold_op s st op (fst (known_zeros st op))).
Proof.
  intros R; destruct (opc op) eqn:O.
  all: try (apply fold_setcond; assumption); try (apply fold_movcond; assumption);
    try (apply fold_brcond; assumption); try (apply fold_double; auto; fail);
    try (assert (N : opc op <> call) by congruence; pose proof (do_default_ok st m op R N) as Df);
    unfold fold_op; rewrite O; cbv beta iota zeta; try exact Df.
  all: try (apply fold_brcond2_ok; assumption); try (apply fold_setcond2_ok; assumption).
  all: try (destruct (temp_is_const st (arg op 1) && temp_is_const st (arg op 2)) eqn:C; [|exact Df]).
  all: try (apply fold_deposit; assumption).
  all: try (pose proof (fold_binary st m op R) as F; rewrite O in F; apply F; [reflexivity|assumption]).
  all: try (destruct (temp_is_const st (arg op 1)) eqn:C1; [|exact Df];
            pose proof (fold_unary st m op R) as F; rewrite O in F; apply F; [reflexivity|assumption]).
  - apply visit_call_ok; auto; unfold known_zeros; now rewrite O.
  - destruct op as [o co ci a]; cbn [opc] in O; subst o; open_ready R.
    apply visit_mov; auto; [discriminate|]; intros w; right; eval_args; cbn [wrs].
    rewrite wrap_id by (eapply live_range; eassumption); reflexivity.
  - destruct op as [o co ci a]; cbn [opc] in O; subst o; open_ready R.
    apply visit_movi; auto; [discriminate|]; intros w; right; unfold arg; cbn [args nth].
    now rewrite eval_movi, wrap_id.
Qed.

Lemma phases_ok op m l last :
  Forall (phase_ok op m) l -> visit_ok op m last -> visit_ok op m (phases l last).
Proof.
  intros F V; induction F as [|p l [->|(r & -> & Vr)] F IH]; cbn [phases fold_right]; auto.
Qed.

(** An operation may be replaced by an equivalent one before its visit. *)
Lemma visit_replaced op op' m r :
  opc op' = opc op -> (opc op = set_label -> op' = op) ->
  (forall w, eval_op op' m w = eval_op op m w) -> visit_ok op' m r -> visit_ok op m r.
Proof.
  intros O Sl E (st' & f & -> & [S X] & K & A); exists st', f; splits; auto.
  - split; [intros w; rewrite <- E; apply S|exact X].
  - unfold labels_kept in *; rewrite O in K; destruct (opc op); auto.
    now rewrite <- (Sl eq_refl).
  - unfold again_ok in *; destruct f as [| |op2 [[] co ci [|rl [|vl rest]]]]; auto.
    destruct A as (L & Rv & A); splits; auto; intros w m' w'; rewrite <- E; apply A.
Qed.

(** All the arguments become temporaries in use. *)
Lemma init_list_ok (skip : Z -> bool) l : forall st m,
  wf_store m -> Forall (in_temps s) l -> (forall t, In t l -> skip t = false) -> inv st m ->
  let st' := fold_left (fun st t => if skip t then st else init_temp_info st t) l st in
  inv st' m /\ Forall (live st') l /\ forall u, live st u -> live st' u.
Proof.
  induction l as [|t l IH]; intros st m Wm F K I; cbn [fold_left]; [auto|].
  inversion_clear F; rewrite (K t (or_introl eq_refl)).
  destruct (init_temp_info_ok s few_temps st m t) as (I1 & L1 & K1); auto.
  destruct (IH (init_temp_info st t) m) as (I2 & L2 & K2); auto.
  intros u Hu; apply K; now right.
Qed.

Lemma init_args_ok st m op :
  wf_store m -> inv st m -> wf_op s op -> ready (init_args st op) m op.
Proof.
  intros Wm I Wo; pose proof Wo as (_ & Wt & _).
  assert (K : forall t, In t (firstn (n_oargs op + n_iargs op) (args op)) -> (t =? TCG_CALL_DUMMY_ARG) = false).
  { intros t Ht; rewrite Forall_forall in Wt; specialize (Wt t Ht); apply Z.eqb_neq.
    unfold in_temps, TCG_CALL_DUMMY_ARG, TCG_MAX_TEMPS in *; lia. }
  destruct (init_list_ok (fun t => match opc op with call => t =? TCG_CALL_DUMMY_ARG | _ => false end)
              _ st m Wm Wt) as (I' & L & _); auto.
  { intros t Ht; destruct (opc op); auto. }
  assert (E : init_args st op = fold_left (fun st t =>
      if match opc op with call => t =? TCG_CALL_DUMMY_ARG | _ => false end then st else init_temp_info st t)
      (firstn (n_oargs op + n_iargs op) (args op)) st)
    by (unfold init_args; destruct (opc op); reflexivity).
  rewrite E; constructor; auto.
Qed.

Lemma propagate_label st op :
  opc op = set_label -> propagate s st (seq (n_oargs op) (n_iargs op)) op = Some op.
Proof. intros O; unfold n_oargs, n_iargs; rewrite O; reflexivity. Qed.

Lemma optimize_op_ok st m op :
  wf_store m -> inv st m -> wf_op s op -> visit_ok op m (optimize_op s st op).
Proof.
  intros Wm I Wo; unfold optimize_op; pose proof (init_args_ok st m op Wm I Wo) as R.
  destruct (propagate_ok (init_args st op) m (seq (n_oargs op) (n_iargs op)) op R) as (op1 & E1 & R1 & S1).
  { apply Forall_forall; intros i Hi; apply in_seq in Hi; lia. }
  pose proof (propagate_label (init_args st op) op) as Pl; rewrite E1 in Pl |- *.
  destruct (canonicalize_ok (init_args st op) m op1 R1) as (R2 & O2 & E2).
  set (st1 := init_args st op) in *; set (op2 := canonicalize st1 op1) in *.
  rewrite (surjective_pairing (known_zeros st1 op2)); apply (visit_replaced op op2).
  - rewrite O2; apply S1.
  - intros O; specialize (Pl O); injection Pl as ->; unfold op2, canonicalize; now rewrite O.
  - intros w; rewrite E2; now apply eval_same_inputs.
  - apply phases_ok; [|now apply fold_op_ok].
    repeat (apply Forall_cons || apply Forall_nil);
      auto using simplify_first_ok, simplify_mov_ok, simplify_movi_zero_ok, simplify_same_mov_ok,
        simplify_same_zero_ok.
    assert (D : opc op2 = call \/ opc op2 <> call) by (destruct (opc op2); auto; right; discriminate).
    destruct D as [D|D]; [|now apply simplify_known_zeros_ok].
    left; unfold simplify_known_zeros, known_zeros; rewrite D; reflexivity.
Qed.

(** ** Steps of the program *)

Lemma eval_wf st m op w m' w' :
  ready st m op -> eval_op op m w = Next m' w' -> wf_store m'.
Proof.
  intros R E; assert (D : opc op = call \/ opc op <> call) by (destruct (opc op); auto; right; discriminate).
  destruct D as [O|N].
  - unfold eval_op, eval_call in E; rewrite O in E; cbn [is_pure] in E.
    destruct (helper _ _ _ _) as [[[o g] w1]|] eqn:H; [|discriminate]; injection E as <- _.
    apply wf_wrs; [apply (call_globals st m op w o g w1 R O H)|].
    apply Forall_map, Forall_forall; intros; apply wrap_range; lia.
  - destruct (eval_outputs st m op R N w m' w' E) as (vs & -> & _ & F & _).
    apply wf_wrs; auto; apply R.
Qed.

Lemma eval_jump op m w l m' w' : eval_op op m w = Jump l m' w' -> m' = m /\ w' = w.
Proof.
  unfold eval_op, eval_ld, eval_st, eval_call, branch.
  destruct (opc op); cbn [is_pure];
    repeat match goal with
    | |- context [match ?o with Some _ => _ | None => _ end] => destruct o as [[]|]
    | |- context [match ?o with Some _ => _ | None => _ end] => destruct o
    | |- context [let (_, _) := ?p in _] => destruct p
    | |- context [if ?c then _ else _] => destruct c
    end; intros E; try discriminate E; injection E; auto.
Qed.

(** ** The loop *)

(** [out] comes from [ops]: each operation became operations that simulate it
    from every store in which the recorded facts hold. *)
Inductive corr : opt_state -> list TCGOp -> list TCGOp -> Prop :=
| corr_nil st : corr st [] []
| corr_op st st' op now ops out :
    wf_op s op ->
    (forall m, wf_store m -> inv st m -> sim st' now op m) ->
    labels_kept st' now op ->
    corr st' ops out -> corr st (op :: ops) (now ++ out).

Definition possible (st : opt_state) : Prop := exists m, wf_store m /\ inv st m.

(** An operation that is visited again is left as it is. *)
Lemma revisit_movi st co ci rl vl rest :
  let op := mkOp movi_i32 co ci (rl :: vl :: rest) in
  live st rl -> inU 32 vl -> possible st ->
  exists st', optimize_op s st op = Some (st', Kept op) /\ possible st' /\
    forall m, wf_store m -> inv st m -> rd m rl = vl -> inv st' m.
Proof.
  intros op L Rv (m0 & W0 & I0); exists (movi_state st rl vl); splits.
  - assert (X : init_args st op = st) by (unfold init_args, init_temp_info; cbn; now rewrite (proj2 L)).
    unfold optimize_op; rewrite X; reflexivity.
  - exists (wr m0 rl vl); split; [now apply wf_wr|now apply wf_visit_movi].
  - intros m Wm I <-; rewrite <- (wr_rd m rl) at 2; apply wf_visit_movi; auto; now apply (live_range st).
Qed.

(** The visit of one operation, for all stores at once. *)
Lemma visit_all st op :
  possible st -> wf_op s op ->
  exists st' f, optimize_op s st op = Some (st', f) /\ possible st' /\
    (forall m, wf_store m -> inv st m -> sim st' (ops_of f) op m) /\
    labels_kept st' (ops_of f) op /\
    (forall m, wf_store m -> inv st m -> again_ok st' f op m).
Proof.
  intros (m & Wm & I) Wo.
  destruct (optimize_op_ok st m op Wm I Wo) as (st' & f & E & [_ X] & K & _).
  exists st', f; splits; auto; intros m1 W1 I1;
    destruct (optimize_op_ok st m1 op W1 I1 Wo) as (st1 & f1 & E1 & S1 & _ & A1);
    rewrite E in E1; injection E1 as <- <-; assumption.
Qed.

Lemma sim_inv st st' st'' now op m :
  sim st' now op m -> ready st m op ->
  (forall w m' w', eval_op op m w = Next m' w' -> wf_store m' -> inv st' m' -> inv st'' m') ->
  possible st'' -> sim st'' now op m.
Proof.
  intros [S _] R K P; split; [|exact P]; intros w; destruct (S w) as [U|[E V]]; auto.
  right; split; [exact E|]; intros m' w' N; apply (K w m' w' N); eauto using eval_wf.
Qed.

Lemma loop_ok ops : forall fuel st,
  Forall (wf_op s) ops -> (2 * length ops <= fuel)%nat -> possible st ->
  exists out, tcg_optimize_loop fuel s st ops = Some out /\ corr st ops out.
Proof.
  induction ops as [|op ops IH]; intros fuel st F Hf P; [exists []; destruct fuel; split; constructor|].
  inversion_clear F as [|? ? Wo F']; cbn [length] in Hf; destruct fuel as [|fuel]; [lia|]; cbn [tcg_optimize_loop].
  destruct (visit_all st op P Wo) as (st' & f & E & P' & S & K & A); rewrite E.
  destruct f as [op'| |op2 op'].
  - destruct (IH fuel st') as (out & -> & C); auto; [lia|].
    exists (op' :: out); split; [reflexivity|]; apply (corr_op st st' op [op']); auto.
  - destruct (IH fuel st') as (out & -> & C); auto; [lia|].
    exists out; split; [reflexivity|]; apply (corr_op st st' op []); auto.
  - destruct fuel as [|fuel]; [lia|]; cbn [tcg_optimize_loop].
    assert (X : exists co ci rl vl rest, op' = mkOp movi_i32 co ci (rl :: vl :: rest) /\ live st' rl /\ inU 32 vl).
    { destruct P as (m & Wm & I); specialize (A m Wm I).
      destruct op' as [[] co ci [|rl [|vl rest]]]; try contradiction; cbn [again_ok] in A.
      exists co, ci, rl, vl, rest; splits; [reflexivity|apply A|apply A]. }
    destruct X as (co & ci & rl & vl & rest & -> & L & Rv).
    destruct (revisit_movi st' co ci rl vl rest L Rv P') as (st'' & -> & P'' & Q); cbn iota.
    destruct (IH fuel st'') as (out & -> & C); auto; [lia|].
    eexists; split; [reflexivity|]; apply (corr_op st st'' op [op2; _]); auto.
    + intros m Wm I; apply (sim_inv (init_args st op) st'); auto; [now apply init_args_ok|].
      intros w m' w' N W' I'; apply Q; auto.
      specialize (A m Wm I); cbn [again_ok] in A; now apply (proj2 (proj2 A) w m' w').
    + unfold labels_kept in *; cbn [ops_of] in K; destruct (opc op); auto.
      destruct K; discriminate.
Qed.

(** ** Branches *)

Lemma after_label_skip l now out :
  Forall (fun o => opc o <> set_label) now -> after_label l (now ++ out) = after_label l out.
Proof.
  induction 1 as [|o now N F IH]; [reflexivity|]; cbn [app after_label]; unfold is_label.
  destruct (opc o); auto; congruence.
Qed.

(** The target of a branch in the block and in the optimized block. *)
Lemma corr_after st ops out l ops' :
  corr st ops out -> after_label l ops = Some ops' ->
  exists st' out', after_label l out = Some out' /\ corr st' ops' out' /\ forall m, inv st' m.
Proof.
  induction 1 as [|st st' op now ops out Wo S K C IH]; [discriminate|]; cbn [after_label].
  assert (D : opc op = set_label \/ opc op <> set_label) by (destruct (opc op); auto; right; discriminate).
  destruct D as [O|N]; unfold labels_kept in K.
  - rewrite O in K; destruct K as [-> K]; cbn [app after_label].
    destruct (is_label l op); [|exact IH]; intros [= <-]; exists st', out; auto.
  - assert (Nl : is_label l op = false) by (unfold is_label; destruct (opc op); congruence).
    rewrite Nl; intros A; rewrite after_label_skip; auto.
    destruct (opc op); auto; congruence.
Qed.

Lemma run_exec jumps prog now out m w :
  run jumps prog (now ++ out) m w = continue jumps prog out (exec now m w).
Proof.
  revert m w; induction now as [|op now IH]; intros m w; [reflexivity|]; cbn [app exec].
  rewrite run_cons; destruct (eval_op op m w); cbn [continue]; auto.
Qed.

Lemma corr_run jumps : forall prog prog' ops out st m w,
  corr st ops out -> wf_store m -> inv st m -> (exists st0, corr st0 prog prog') ->
  run jumps prog ops m w = Went_wrong \/ run jumps prog' out m w = run jumps prog ops m w.
Proof.
  induction jumps as [jumps IHj] using (well_founded_induction lt_wf).
  intros prog prog' ops out st m w C; revert m w.
  induction C as [|st st' op now ops out Wo S K C IH]; intros m w Wm I P; [right; now rewrite !run_nil|].
  rewrite run_cons, run_exec; destruct (S m Wm I) as [Sm _]; destruct (Sm w) as [U|[-> V]];
    [left; now rewrite U|]; clear S Sm.
  destruct (eval_op op m w) as [m1 w1|l m1 w1|why m1 w1|] eqn:E; cbn [continue]; auto.
  - apply IH; eauto; eapply eval_wf; [now apply (init_args_ok st m op)|exact E].
  - destruct jumps as [|jumps]; [now right|]; apply eval_jump in E as [-> ->].
    destruct (after_label l prog) as [ops'|] eqn:A; [|now left].
    destruct P as [st0 P]; destruct (corr_after _ _ _ l ops' P A) as (st1 & out' & -> & C' & I').
    apply (IHj jumps ltac:(lia) prog prog' ops' out' st1); eauto.
Qed.

Lemma wf_zeros : wf_store (repeat 0 (nb_temps s)).
Proof.
  split; [apply repeat_length|]; apply Forall_forall; intros x Hx.
  apply repeat_spec in Hx as ->; unfold inU; lia.
Qed.

Lemma tcg_optimize_corr st ops :
  Forall (wf_op s) ops ->
  exists out, tcg_optimize s st ops = Some out /\ corr (reset_all_temps st (nb_temps s)) ops out.
Proof.
  intros F; apply loop_ok; auto; exists (repeat 0 (nb_temps s)); auto using wf_zeros, forget_all.
Qed.

Lemma tcg_optimize_simulates st ops :
  Forall (wf_op s) ops ->
  exists out, tcg_optimize s st ops = Some out /\
    forall jumps m w, wf_store m ->
      run jumps ops ops m w = Went_wrong \/ run jumps out out m w = run jumps ops ops m w.
Proof.
  intros F; destruct (tcg_optimize_corr st ops F) as (out & E & C); exists out; split; [exact E|].
  intros jumps m w Wm; eapply corr_run; eauto using forget_all.
Qed.
End Visit.
