(* ===== verification/TcgOptimizer.v ===== *)
(** * What the optimizer guarantees

    The theorems about [tcg_optimize] that the rest of the translator relies
    on: it always returns, the block it returns behaves like the one it was
    given, the facts it records are true, and no branch target is lost.  They
    are proved from the lemmas of TcgOptProof.v, and applied to a small block
    on a concrete host. *)

From Stdlib Require Import ZArith Lia List Bool.
From S2P Require Import Prelude Bitops TcgIr TcgOpt TcgCopies TcgFold TcgOptProof.
Import ListNotations.
Local Open Scope Z_scope.
Local Open Scope c_scope.

(** ** A concrete host and block *)

(** The world is one word of memory; the only helper doubles its argument and
    leaves the globals alone. *)
#[export, program] Instance word_host : TcgHost Z 2 := {
  host_ld := fun _ _ w => w;
  host_st := fun _ _ v _ => v;
  guest_ld := fun _ a w => if a =? 0 then None else Some (w, w);
  guest_st := fun _ a v w => if a =? 0 then None else Some v;
  helper := fun _ i g w => Some (map (fun x => 2 * x) i, g, w);
  chained := fun _ _ => false;
  stale := fun _ _ => 0
}.

(** Two globals, then four temporaries of which the last is local. *)
Definition small_context : TCGContext := mkCtx 6 2 (fun t => t =? 5) (fun _ => 0).
Definition unknown_state : opt_state := mkSt (fun _ => mkInfo false 0 0 0 0) (fun _ => false).

Definition small_block : list TCGOp :=
  [ mkOp movi_i32 0 0 [2; 12]; mkOp movi_i32 0 0 [3; 30]; mkOp add_i32 0 0 [4; 2; 3];
    mkOp and_i32 0 0 [5; 0; 2]; mkOp mov_i32 0 0 [1; 4]; mkOp brcond_i32 0 0 [1; 4; 8; 7];
    mkOp mulu2_i32 0 0 [2; 3; 4; 4]; mkOp set_label 0 0 [7]; mkOp st_i32 0 0 [1; 0; 4];
    mkOp call 1 1 [0; 5; 99; 0; 0]; mkOp exit_tb 0 0 [0] ].

Lemma small_block_wf : Forall (wf_op small_context) small_block.
Proof.
  repeat (apply Forall_cons; [|]); try apply Forall_nil; unfold wf_op; splits;
    repeat (apply Forall_cons || apply Forall_nil); unfold in_temps, wf_consts, inU;
    cbn; try lia; try exact Logic.I; try reflexivity; repeat constructor; cbn; intuition lia.
Qed.

(** The branch on equal copies becomes unconditional, the additions are folded. *)
Example small_block_optimized :
  option_map (map (fun op => (opc op, args op))) (tcg_optimize small_context unknown_state small_block) =
  Some [ (movi_i32, [2; 12]); (movi_i32, [3; 30]); (movi_i32, [4; 42; 3]); (and_i32, [5; 0; 2]);
         (mov_i32, [1; 4]); (br, [7; 1; 8; 7]); (mulu2_i32, [2; 3; 4; 4]); (set_label, [7]);
         (st_i32, [1; 0; 4]); (call, [0; 5; 99; 0; 0]); (exit_tb, [0]) ].
Proof. vm_compute. reflexivity. Qed.

(** ** The block keeps its meaning *)

(** C5: for every block of well-formed operations the optimizer returns a block, and
    from every store of 32-bit temporaries, in every world of the host and for every
    bound on the number of branches taken, the optimized block ends the same way, with
    the same temporaries and the same world, unless the original block goes wrong: it
    divides by zero or with an overflow, or it shifts or rotates by 32 or more, which
    tcg/README calls unspecified and this model, more coarsely, undefined. *)
Theorem tcg_optimize_correct (s : TCGContext) (W : Type) (host : TcgHost W (nb_globals s))
    (st : opt_state) (ops : list TCGOp) :
  (nb_temps s <= TCG_MAX_TEMPS)%nat -> (nb_globals s <= nb_temps s)%nat -> Forall (wf_op s) ops ->
  exists out, tcg_optimize s st ops = Some out /\
    forall jumps m w, wf_store s m ->
      run jumps ops ops m w = Went_wrong \/ run jumps out out m w = run jumps ops ops m w.
Proof. intros; now apply tcg_optimize_simulates. Qed.

Lemma tcg_optimize_correct_witness :
  exists out, tcg_optimize small_context unknown_state small_block = Some out /\
    forall jumps m w, wf_store small_context m ->
      run jumps small_block small_block m w = Went_wrong \/
      run jumps out out m w = run jumps small_block small_block m w.
Proof.
  apply (tcg_optimize_correct small_context Z word_host); [vm_compute; lia|vm_compute; lia|].
  exact small_block_wf.
Defined.

(** ** The facts are true *)

(** C22: what the optimizer records about the temporaries stays true: from a store in
    which every recorded constant, copy and zero bit is right, the visit of an operation
    succeeds, and in the store the operation leaves every fact recorded afterwards is
    right again, with the copy rings well linked. *)
Theorem optimize_op_facts (s : TCGContext) (W : Type) (host : TcgHost W (nb_globals s))
    (st : opt_state) (op : TCGOp) (m m' : store) (w w' : W) :
  (nb_temps s <= TCG_MAX_TEMPS)%nat -> (nb_globals s <= nb_temps s)%nat -> wf_op s op ->
  wf_store s m -> inv s st m -> eval_op op m w = Next m' w' ->
  exists st' f, optimize_op s st op = Some (st', f) /\ inv s st' m'.
Proof.
  intros Ht Hg Wo Wm I E.
  destruct (optimize_op_ok s Ht Hg st m op Wm I Wo) as (st' & f & -> & [S _] & _).
  exists st', f; split; [reflexivity|]; destruct (S w) as [U|[_ V]]; [congruence|eauto].
Qed.

Lemma optimize_op_facts_witness :
  exists st' f,
    optimize_op small_context (reset_all_temps unknown_state 6) (mkOp add_i32 0 0 [4; 2; 3]) = Some (st', f) /\
    inv small_context st' [1; 2; 3; 4; 7; 6].
Proof.
  apply (optimize_op_facts small_context Z word_host _ _ [1; 2; 3; 4; 5; 6] _ 0 0);
    [vm_compute; lia|vm_compute; lia| | |apply forget_all; vm_compute; lia|reflexivity].
  - unfold wf_op; splits; repeat (apply Forall_cons || apply Forall_nil); unfold in_temps, wf_consts; cbn;
      try lia; try exact Logic.I; repeat constructor; cbn; intuition lia.
  - split; [reflexivity|]; repeat (apply Forall_cons || apply Forall_nil); unfold inU; lia.
Defined.

(** C27: an operation never sets a bit that the optimizer believes to be zero: for every
    operation other than a call, the words it writes are 32-bit words and the first one
    lies within the mask that known_zeros computes for it. *)
Theorem known_zeros_sound (s : TCGContext) (W : Type) (host : TcgHost W (nb_globals s))
    (st : opt_state) (op : TCGOp) (m m' : store) (w w' : W) :
  (nb_temps s <= TCG_MAX_TEMPS)%nat -> (nb_globals s <= nb_temps s)%nat ->
  ready s st m op -> opc op <> call ->
  eval_op op m w = Next m' w' ->
  exists vs, m' = wrs m (oargs op) vs /\ length vs = length (oargs op) /\ Forall (inU 32) vs /\
    forall v vs', vs = v :: vs' -> v .& fst (known_zeros st op) = v.
Proof. intros Ht Hg R N E; exact (proj1 (known_zeros_ok s Ht Hg st m op R N) w m' w' E). Qed.

Lemma known_zeros_sound_witness :
  let st := init_args (reset_all_temps unknown_state 6) (mkOp ld8u_i32 0 0 [4; 0; 8]) in
  exists vs, [1; 2; 3; 4; 255; 6] = wrs [1; 2; 3; 4; 5; 6] [4] vs /\ length vs = 1%nat /\
    Forall (inU 32) vs /\
    forall v vs', vs = v :: vs' -> v .& fst (known_zeros st (mkOp ld8u_i32 0 0 [4; 0; 8])) = v.
Proof.
  apply (known_zeros_sound small_context Z word_host _ (mkOp ld8u_i32 0 0 [4; 0; 8]) _ _ 4095 4095);
    [vm_compute; lia|vm_compute; lia| |discriminate|reflexivity].
  apply init_args_ok; [vm_compute; lia|vm_compute; lia| |apply forget_all; vm_compute; lia|].
  - split; [reflexivity|]; repeat (apply Forall_cons || apply Forall_nil); unfold inU; lia.
  - unfold wf_op; splits; repeat (apply Forall_cons || apply Forall_nil); unfold in_temps, wf_consts; cbn;
      try lia; try exact Logic.I; repeat constructor; cbn; intuition lia.
Defined.

(** ** Shape of the result *)

Lemma loop_length fuel : forall s st ops out,
  tcg_optimize_loop fuel s st ops = Some out -> (length out <= fuel)%nat.
Proof.
  induction fuel as [|fuel IH]; intros s st [|op ops] out; cbn [tcg_optimize_loop]; try discriminate.
  1, 2: intros [= <-]; cbn; lia.
  destruct (optimize_op s st op) as [[st' [op'| |op2 op']]|]; [| | |discriminate].
  - destruct (tcg_optimize_loop _ _ _ _) eqn:E; [|discriminate]; intros [= <-]; apply IH in E; cbn; lia.
  - intros E; apply IH in E; lia.
  - destruct (tcg_optimize_loop _ _ _ _) eqn:E; [|discriminate]; intros [= <-]; apply IH in E; cbn; lia.
Qed.

Definition is_set_label (op : TCGOp) : bool := match opc op with set_label => true | _ => false end.

Lemma labels_of_none l : Forall (fun o => opc o <> set_label) l -> filter is_set_label l = [].
Proof.
  induction 1 as [|o l N F IH]; [reflexivity|]; cbn [filter]; unfold is_set_label at 1.
  destruct (opc o); congruence.
Qed.

Lemma corr_labels (s : TCGContext) (W : Type) (host : TcgHost W (nb_globals s)) st ops out :
  corr s st ops out -> filter is_set_label out = filter is_set_label ops.
Proof.
  induction 1 as [|st st' op now ops out Wo S K C IH]; [reflexivity|]; rewrite filter_app, IH.
  cbn [filter]; unfold is_set_label at 3; unfold labels_kept in K.
  destruct (opc op) eqn:O; try (now rewrite (labels_of_none now)).
  destruct K as [-> _]; cbn [filter]; unfold is_set_label at 1; now rewrite O.
Qed.

(** C23: the optimizer returns on every block of well-formed operations: no list of
    copies is walked without end and no abort is reached; the result has at most two
    operations for each one given, and exactly the labels of the block, in their order.
    *)
Theorem tcg_optimize_total (s : TCGContext) (W : Type) (host : TcgHost W (nb_globals s))
    (st : opt_state) (ops : list TCGOp) :
  (nb_temps s <= TCG_MAX_TEMPS)%nat -> (nb_globals s <= nb_temps s)%nat -> Forall (wf_op s) ops ->
  exists out, tcg_optimize s st ops = Some out /\ (length out <= 2 * length ops)%nat /\
    filter is_set_label out = filter is_set_label ops.
Proof.
  intros Ht Hg F; destruct (tcg_optimize_corr s Ht Hg st ops F) as (out & E & C); exists out; splits; auto.
  - now apply loop_length in E.
  - now apply corr_labels in C.
Qed.

Lemma tcg_optimize_total_witness :
  exists out, tcg_optimize small_context unknown_state small_block = Some out /\
    (length out <= 22)%nat /\ filter is_set_label out = [mkOp set_label 0 0 [7]].
Proof.
  apply (tcg_optimize_total small_context Z word_host); [vm_compute; lia|vm_compute; lia|].
  exact small_block_wf.
Defined.

(** ** Constants *)

(** Constant folding agrees with the meaning of the operation: for every foldable opcode
    and all 32-bit constants do_constant_folding returns a 32-bit word, and it is the
    word the operation computes wherever the operation is defined. *)
Theorem do_constant_folding_exact (opc : TCGOpcode) (x y : Z) :
  inU 32 x -> inU 32 y -> folded2 opc = true \/ folded1 opc = true ->
  let i := if folded1 opc then [x] else [x; y] in
  exists v, do_constant_folding opc x (if folded1 opc then 0 else y) = Some v /\ inU 32 v /\
    (eval_pure opc i [] = None \/ eval_pure opc i [] = Some [v]).
Proof.
  intros Hx Hy F i; subst i; destruct (folded1 opc) eqn:F1; [now apply fold1_ok|].
  apply fold2_ok; auto; destruct F; congruence.
Qed.

Lemma do_constant_folding_exact_witness :
  exists v, do_constant_folding sar_i32 0xfffffff0 2 = Some v /\ inU 32 v /\
    (eval_pure sar_i32 [0xfffffff0; 2] [] = None \/ eval_pure sar_i32 [0xfffffff0; 2] [] = Some [v]).
Proof.
  apply (do_constant_folding_exact sar_i32 0xfffffff0 2); [unfold inU; lia|unfold inU; lia|left; reflexivity].
Defined.

(** Comparisons are folded soundly: do_constant_folding_cond answers 2 or the truth of
    the comparison on the values the two temporaries hold, and do_constant_folding_cond2
    the same for double words. *)
Theorem fold_comparisons_sound (s : TCGContext) (st : opt_state) (m : store) (x y z t c : Z) :
  (nb_temps s <= TCG_MAX_TEMPS)%nat -> wf_store s m -> inv s st m ->
  live s st x -> live s st y -> live s st z -> live s st t -> comparison c = true ->
  (exists r, do_constant_folding_cond st setcond_i32 x y c = Some r /\
     (r = 2 \/ exists b, r = b2z b /\ cond_holds 32 c (rd m x) (rd m y) = Some b)) /\
  (exists r, do_constant_folding_cond2 st x y z t c = Some r /\
     (r = 2 \/ exists b, r = b2z b /\
        cond_holds 64 c (dword (rd m x) (rd m y)) (dword (rd m z) (rd m t)) = Some b)).
Proof.
  intros Ht Wm I Lx Ly Lz Lt C; split; [now apply fold_cond_ok with s|now apply fold_cond2_ok with s].
Qed.

Lemma fold_comparisons_sound_witness :
  let st := init_args (reset_all_temps unknown_state 6) (mkOp setcond2_i32 0 0 [5; 0; 1; 2; 3; 8]) in
  let m := [1; 2; 1; 2; 5; 6] in
  (exists r, do_constant_folding_cond st setcond_i32 0 1 8 = Some r /\
     (r = 2 \/ exists b, r = b2z b /\ cond_holds 32 8 1 2 = Some b)) /\
  (exists r, do_constant_folding_cond2 st 0 1 2 3 8 = Some r /\
     (r = 2 \/ exists b, r = b2z b /\ cond_holds 64 8 (dword 1 2) (dword 1 2) = Some b)).
Proof.
  intros st m; apply (fold_comparisons_sound small_context st m 0 1 2 3 8);
    [vm_compute; lia| | | | | | |reflexivity].
  - split; [reflexivity|]; repeat (apply Forall_cons || apply Forall_nil); unfold inU; lia.
  - apply (init_args_ok small_context) with (op := mkOp setcond2_i32 0 0 [5; 0; 1; 2; 3; 8]);
      [vm_compute; lia|vm_compute; lia| |apply forget_all; vm_compute; lia|].
    + split; [reflexivity|]; repeat (apply Forall_cons || apply Forall_nil); unfold inU; lia.
    + unfold wf_op; splits; repeat (apply Forall_cons || apply Forall_nil); unfold in_temps, wf_consts; cbn;
        try lia; try reflexivity; repeat constructor; cbn; intuition lia.
  - split; [unfold in_temps; cbn; lia|vm_compute; reflexivity].
  - split; [unfold in_temps; cbn; lia|vm_compute; reflexivity].
  - split; [unfold in_temps; cbn; lia|vm_compute; reflexivity].
  - split; [unfold in_temps; cbn; lia|vm_compute; reflexivity].
Defined.

(** ** The padding argument of a call *)

(** Copy propagation does not recognise the padding argument that calls on this host
    carry: whatever the table holds, its 16-bit next_copy differs from
    TCG_CALL_DUMMY_ARG, so the padding counts as a copy and the table is read far
    outside its bounds to replace it. *)
Theorem dummy_arg_is_a_copy (s : TCGContext) (st : opt_state) (op : TCGOp) (i : nat) :
  inU 16 (next_copy (temps st TCG_CALL_DUMMY_ARG)) -> arg op i = TCG_CALL_DUMMY_ARG ->
  temp_is_copy st (arg op i) = true /\
  propagate_arg s st i op =
    (let? t := find_better_copy s st TCG_CALL_DUMMY_ARG in Some (set_arg op i t)) /\
  (Z.of_nat TCG_MAX_TEMPS <= TCG_CALL_DUMMY_ARG)%Z.
Proof.
  intros R E; unfold propagate_arg; rewrite E.
  assert (C : temp_is_copy st TCG_CALL_DUMMY_ARG = true).
  { unfold temp_is_copy; apply negb_true_iff, Z.eqb_neq; unfold inU, TCG_CALL_DUMMY_ARG in *; lia. }
  rewrite C; splits; auto; unfold TCG_MAX_TEMPS, TCG_CALL_DUMMY_ARG; lia.
Qed.

Lemma dummy_arg_is_a_copy_witness :
  temp_is_copy unknown_state TCG_CALL_DUMMY_ARG = true /\
  propagate_arg small_context unknown_state 0 (mkOp call 0 2 [TCG_CALL_DUMMY_ARG; 3; 1; 0; 0]) =
    Some (mkOp call 0 2 [0; 3; 1; 0; 0]) /\
  (Z.of_nat TCG_MAX_TEMPS <= TCG_CALL_DUMMY_ARG)%Z.
Proof.
  apply (dummy_arg_is_a_copy small_context unknown_state (mkOp call 0 2 [TCG_CALL_DUMMY_ARG; 3; 1; 0; 0]) 0);
    [vm_compute; split; congruence|reflexivity].
Defined.
