(* ===== verification/TcgLife.v ===== *)
(** * Liveness of temporaries (tcg/tcg.c)

    [liveness_pass_1] goes through a block backwards, removes the operations
    whose results nobody needs, narrows those of which only one half is needed
    and records for each argument of the others whether the temporary dies
    here and whether it must be stored to its place in memory.

    What the records mean is given by a machine in which a temporary is in a
    register or at home, its place in memory: the contract between the analysis
    and the register allocator. *)

From Stdlib Require Import ZArith Lia List Bool.
From S2P Require Import Prelude Bitops TcgIr TcgOpt.
Import ListNotations.
Local Open Scope Z_scope.
Local Open Scope c_scope.

Definition TS_DEAD : Z := 1.
Definition TS_MEM : Z := 2.
Definition DEAD_ARG : Z := 4.
Definition SYNC_ARG : Z := 1.
Definition TCG_CALL_NO_SIDE_EFFECTS : Z := 0x40.
Definition TCG_TARGET_HAS_muluh_i32 : bool := false.
Definition TCG_TARGET_HAS_mulsh_i32 : bool := false.

Definition IS_DEAD_ARG (arg_life n : Z) : bool := truthy (arg_life .& (DEAD_ARG .<< n)).
Definition NEED_SYNC_ARG (arg_life n : Z) : bool := truthy (arg_life .& (SYNC_ARG .<< n)).

(** [def->flags & TCG_OPF_SIDE_EFFECTS] *)
Definition OPF_SIDE_EFFECTS (opc : TCGOpcode) : bool :=
  match opc with qemu_ld_i32 | qemu_st_i32 | qemu_ld_i64 | qemu_st_i64 => true | _ => false end.

(** [uint8_t *temp_state] *)
Definition temp_states := Z -> Z.

Definition put (st : temp_states) (t x : Z) : temp_states := fun u => if u =? t then x else st u.

(** [memset(st, x, n)] *)
Definition fill (st : temp_states) (n : nat) (x : Z) : temp_states := fun u => if u <? Z.of_nat n then x else st u.

(** The loop over the globals that sets [TS_MEM]. *)
Definition sync_all (st : temp_states) (n : nat) : temp_states :=
  fun u => if u <? Z.of_nat n then st u .| TS_MEM else st u.

(** An operation with [op->life]. *)
Record live_op := mkLive { the_op : TCGOp; life : Z }.

Section Pass.
Variable s : TCGContext.

Definition is_global (t : Z) : bool := t <? Z.of_nat (nb_globals s).

Definition tcg_la_func_end : temp_states := fun t => if is_global t then TS_DEAD .| TS_MEM else TS_DEAD.

Definition tcg_la_bb_end : temp_states :=
  fun t => if negb (is_global t) && temp_local s t then tcg_la_func_end t .| TS_MEM else tcg_la_func_end t.

(** The outputs from number [i] on. *)
Fixpoint out_args (outs : list Z) (i : Z) (st : temp_states) (arg_life : Z) : temp_states * Z :=
  match outs with
  | [] => (st, arg_life)
  | arg :: outs =>
      let arg_life := if truthy (st arg .& TS_DEAD) then u16 (arg_life .| (DEAD_ARG .<< i)) else arg_life in
      let arg_life := if truthy (st arg .& TS_MEM) then u16 (arg_life .| (SYNC_ARG .<< i)) else arg_life in
      out_args outs (i + 1) (put st arg TS_DEAD) arg_life
  end.

(** The inputs that die here. *)
Fixpoint dying_args (ins : list Z) (i : Z) (st : temp_states) (arg_life : Z) : Z :=
  match ins with
  | [] => arg_life
  | arg :: ins =>
      let arg_life :=
        if negb (arg =? TCG_CALL_DUMMY_ARG) && truthy (st arg .& TS_DEAD)
        then u16 (arg_life .| (DEAD_ARG .<< i)) else arg_life in
      dying_args ins (i + 1) st arg_life
  end.

Fixpoint live_args (ins : list Z) (st : temp_states) : temp_states :=
  match ins with
  | [] => st
  | arg :: ins =>
      live_args ins (if arg =? TCG_CALL_DUMMY_ARG then st else put st arg (st arg .& Z.lnot TS_DEAD))
  end.

(** The operation stays; [middle] is what happens to the states between its
    outputs and its inputs. *)
Definition keep_op (st : temp_states) (middle : temp_states -> temp_states) (op : TCGOp) : temp_states * option live_op :=
  let (st, arg_life) := out_args (oargs op) 0 st 0 in
  let st := middle st in
  let arg_life := dying_args (iargs op) (Z.of_nat (n_oargs op)) st arg_life in
  (live_args (iargs op) st, Some (mkLive op arg_life)).

Definition all_dead (st : temp_states) (outs : list Z) : bool := forallb (fun arg => st arg =? TS_DEAD) outs.

(** The label [do_not_remove]. *)
Definition do_not_remove (st : temp_states) (opc0 : TCGOpcode) (op : TCGOp) : temp_states * option live_op :=
  keep_op st
    (fun st => if BB_END (tcg_op_defs opc0) then tcg_la_bb_end
               else if OPF_SIDE_EFFECTS opc0 then sync_all st (nb_globals s)
               else st) op.

Definition live_call (st : temp_states) (op : TCGOp) : temp_states * option live_op :=
  let call_flags := arg op (callo op + calli op + 1) in
  if truthy (call_flags .& TCG_CALL_NO_SIDE_EFFECTS) && all_dead st (oargs op) then (st, None)
  else
    keep_op st
      (fun st =>
         if negb (truthy (call_flags .& (TCG_CALL_NO_WRITE_GLOBALS .| TCG_CALL_NO_READ_GLOBALS)))
         then fill st (nb_globals s) (TS_DEAD .| TS_MEM)
         else if negb (truthy (call_flags .& TCG_CALL_NO_READ_GLOBALS)) then sync_all st (nb_globals s)
         else st) op.

Definition with_args (op : TCGOp) (o : TCGOpcode) (l : list Z) : TCGOp := mkOp o (callo op) (calli op) l.

(** The label [do_addsub2]. *)
Definition live_addsub2 (st : temp_states) (opc_new : TCGOpcode) (op : TCGOp) : temp_states * option live_op :=
  if st (arg op 1) =? TS_DEAD then
    if st (arg op 0) =? TS_DEAD then (st, None)
    else
      let l := args op in
      let l := upd l 1 (nth 2 l 0) in
      let l := upd l 2 (nth 4 l 0) in
      do_not_remove st (opc op) (with_args op opc_new l)
  else do_not_remove st (opc op) op.

(** The label [do_mul2]. *)
Definition live_mul2 (st : temp_states) (opc_new opc_new2 : TCGOpcode) (have_opc_new2 : bool) (op : TCGOp)
    : temp_states * option live_op :=
  if st (arg op 1) =? TS_DEAD then
    if st (arg op 0) =? TS_DEAD then (st, None)
    else
      let l := args op in
      let l := upd l 1 (nth 2 l 0) in
      let l := upd l 2 (nth 3 l 0) in
      do_not_remove st (opc op) (with_args op opc_new l)
  else if (st (arg op 0) =? TS_DEAD) && have_opc_new2 then
    let l := args op in
    let l := upd l 0 (nth 1 l 0) in
    let l := upd l 1 (nth 2 l 0) in
    let l := upd l 2 (nth 3 l 0) in
    do_not_remove st (opc op) (with_args op opc_new2 l)
  else do_not_remove st (opc op) op.

Definition live_default (st : temp_states) (op : TCGOp) : temp_states * option live_op :=
  if negb (OPF_SIDE_EFFECTS (opc op)) && negb (Nat.eqb (n_oargs op) 0) && all_dead st (oargs op)
  then (st, None) else do_not_remove st (opc op) op.

(** One operation, from the states after it to the states before it. *)
Definition visit_live (st : temp_states) (op : TCGOp) : temp_states * option live_op :=
  match opc op with
  | call => live_call st op
  | insn_start => (st, Some (mkLive op 0))
  | discard => (put st (arg op 0) TS_DEAD, Some (mkLive op 0))
  | add2_i32 => live_addsub2 st add_i32 op
  | sub2_i32 => live_addsub2 st sub_i32 op
  | mulu2_i32 => live_mul2 st mul_i32 muluh_i32 TCG_TARGET_HAS_muluh_i32 op
  | muls2_i32 => live_mul2 st mul_i32 mulsh_i32 TCG_TARGET_HAS_mulsh_i32 op
  | _ => live_default st op
  end.

(** The states before the operations and what is left of them. *)
Fixpoint liveness_pass_1 (ops : list TCGOp) : temp_states * list live_op :=
  match ops with
  | [] => (tcg_la_func_end, [])
  | op :: ops =>
      let (st, out) := liveness_pass_1 ops in
      match visit_live st op with
      | (st, Some l) => (st, l :: out)
      | (st, None) => (st, out)
      end
  end.

End Pass.

(** ** An operation as a function of its inputs *)

Section Machine.
Variable s : TCGContext.
Context {W : Type} {host : TcgHost W (nb_globals s)}.

Inductive result :=
| Done (outs : list Z) (w : W)
| Jumps (label : Z) (w : W)
| Leaves (why : leave) (w : W)
| Wrong.

Definition branches (b : option bool) (label : Z) (w : W) : result :=
  match b with Some true => Jumps label w | Some false => Done [] w | None => Wrong end.

Definition compute_ld (bits : Z) (sign : bool) (i c : list Z) (w : W) : result :=
  match i, c with
  | [base], [off] =>
      let v := host_ld bits (u32 (base + off)) w in
      Done [u32 (if sign then swrap bits v else wrap bits v)] w
  | _, _ => Wrong
  end.

Definition compute_st (bits : Z) (i c : list Z) (w : W) : result :=
  match i, c with
  | [v; base], [off] => Done [] (host_st bits (u32 (base + off)) (wrap bits v) w)
  | _, _ => Wrong
  end.

(** All operations but calls and [discard], on inputs [i] and constants [c]. *)
Definition compute (opc : TCGOpcode) (i c : list Z) (w : W) : result :=
  if is_pure opc then match eval_pure opc i c with Some vs => Done vs w | None => Wrong end
  else
    match opc, i, c with
    | set_label, _, _ | insn_start, _, _ => Done [] w
    | br, [], [label] => Jumps label w
    | ld8u_i32, _, _ => compute_ld 8 false i c w
    | ld8s_i32, _, _ => compute_ld 8 true i c w
    | ld16u_i32, _, _ => compute_ld 16 false i c w
    | ld16s_i32, _, _ => compute_ld 16 true i c w
    | ld_i32, _, _ => compute_ld 32 false i c w
    | st8_i32, _, _ => compute_st 8 i c w
    | st16_i32, _, _ => compute_st 16 i c w
    | st_i32, _, _ => compute_st 32 i c w
    | brcond_i32, [x; y], [cond; label] => branches (cond_holds 32 cond x y) label w
    | brcond2_i32, [al; ah; bl; bh], [cond; label] =>
        branches (cond_holds 64 cond (dword al ah) (dword bl bh)) label w
    | exit_tb, [], [ret] => Leaves (Exit_tb ret) w
    | goto_tb, [], [n] => if chained n w then Leaves (Goto_tb n) w else Done [] w
    | qemu_ld_i32, [addr], [oi] =>
        match guest_ld oi addr w with
        | Some (v, w) => Done [u32 (memop_value oi v)] w
        | None => Leaves Exception w
        end
    | qemu_ld_i64, [addr], [oi] =>
        match guest_ld oi addr w with
        | Some (v, w) => Done (words_of (memop_value oi v)) w
        | None => Leaves Exception w
        end
    | qemu_st_i32, [v; addr], [oi] =>
        match guest_st oi addr v w with Some w => Done [] w | None => Leaves Exception w end
    | qemu_st_i64, [l; h; addr], [oi] =>
        match guest_st oi addr (dword l h) w with Some w => Done [] w | None => Leaves Exception w end
    | _, _, _ => Wrong
    end.

(** ** The machine of the life data *)

(** [cached] are the values of the temporaries in registers.  [home] is their
    canonical place, memory, or the register of a global that is fixed to one;
    it is [None] while memory is behind the register. *)
Record places := mkPlaces { home : Z -> option Z; cached : Z -> option Z }.

Variable fixed_reg : Z -> bool.

Definition set_place (f : Z -> option Z) (t : Z) (x : option Z) : Z -> option Z := fun u => if u =? t then x else f u.

(** Globals and local temporaries have a home that outlives them in registers. *)
Definition has_home (t : Z) : bool := is_global s t || temp_local s t.

Definition fetch (p : places) (t : Z) : option Z :=
  if t =? TCG_CALL_DUMMY_ARG then Some 0
  else match cached p t with Some v => Some v | None => home p t end.

(** The inputs are brought into registers. *)
Fixpoint load_all (p : places) (ts : list Z) : option (places * list Z) :=
  match ts with
  | [] => Some (p, [])
  | t :: ts =>
      let? v := fetch p t in
      let p := if (t =? TCG_CALL_DUMMY_ARG) || fixed_reg t then p else mkPlaces (home p) (set_place (cached p) t (Some v)) in
      let? (p, vs) := load_all p ts in Some (p, v :: vs)
  end.

(** A dead temporary leaves its register. *)
Definition forget (p : places) (t : Z) : places :=
  if fixed_reg t then p
  else mkPlaces (if has_home t then home p else set_place (home p) t None) (set_place (cached p) t None).

(** The inputs from number [i] on that are marked as dead. *)
Fixpoint forget_dead (p : places) (arg_life i : Z) (ins : list Z) : places :=
  match ins with
  | [] => p
  | t :: ins => forget_dead (if IS_DEAD_ARG arg_life i then forget p t else p) arg_life (i + 1) ins
  end.

Definition put_out (p : places) (t v : Z) (sync dead : bool) : places :=
  if fixed_reg t then mkPlaces (set_place (home p) t (Some v)) (cached p)
  else
    let p := mkPlaces (set_place (home p) t (if sync then Some v else None)) (set_place (cached p) t (Some v)) in
    if dead then forget p t else p.

(** The outputs from number [i] on. *)
Fixpoint put_outs (p : places) (arg_life i : Z) (ts vs : list Z) : places :=
  match ts, vs with
  | t :: ts, v :: vs =>
      put_outs (put_out p t v (NEED_SYNC_ARG arg_life i) (IS_DEAD_ARG arg_life i)) arg_life (i + 1) ts vs
  | _, _ => p
  end.

(** *** What the allocator asserts *)

Definition globals : list Z := map Z.of_nat (seq 0 (nb_globals s)).
Definition all_temps : list Z := map Z.of_nat (seq 0 (nb_temps s)).

Definition is_some {A} (o : option A) : bool := match o with Some _ => true | None => false end.

(** [sync_globals]: memory is up to date. *)
Definition synced (p : places) : bool := forallb (fun t => is_some (home p t)) globals.

(** [save_globals]: they are nowhere else. *)
Definition saved (p : places) : bool := forallb (fun t => is_some (home p t) && negb (is_some (cached p t))) globals.

(** [tcg_reg_alloc_bb_end]: nothing is in a register. *)
Definition block_ended (p : places) : bool :=
  forallb (fun t => (if has_home t then is_some (home p t) else true) && negb (is_some (cached p t))) all_temps.

Inductive life_outcome :=
| LNext (p : places) (w : W)
| LJump (label : Z) (p : places) (w : W)
| LLeave (why : leave) (p : places) (w : W)
| LUndefined.

(** The globals as the world sees them. *)
Definition seen (p : places) : list (option Z) := map (home p) globals.
Definition value_of (o : option Z) : Z := match o with Some v => v | None => 0 end.

(** The helper left the globals [g]. *)
Definition new_globals (p : places) (g : list Z) : places :=
  mkPlaces (fun t => if is_global s t then Some (rd g t) else home p t) (cached p).

Definition life_call (op : TCGOp) (arg_life : Z) (ins : list Z) (p : places) (w : W) : life_outcome :=
  let flags := arg op (callo op + calli op + 1) in
  let no_write := truthy (flags .& (TCG_CALL_NO_WRITE_GLOBALS .| TCG_CALL_NO_READ_GLOBALS)) in
  if (if truthy (flags .& TCG_CALL_NO_READ_GLOBALS) then true
      else if truthy (flags .& TCG_CALL_NO_WRITE_GLOBALS) then synced p else saved p)
  then
    match helper (cargs op) ins (map value_of (seen p)) w with
    | Some (o, g, w) =>
        let p := if no_write then p else new_globals p g in
        LNext (put_outs p arg_life 0 (oargs op) (map (wrap 32) o)) w
    | None => LLeave Exception p w
    end
  else LUndefined.

Definition life_step (l : live_op) (p : places) (w : W) : life_outcome :=
  let op := the_op l in
  match load_all p (iargs op) with
  | None => LUndefined
  | Some (p, ins) =>
      let p := forget_dead p (life l) (Z.of_nat (n_oargs op)) (iargs op) in
      match opc op with
      | discard => LNext (forget p (arg op 0)) w
      | call => life_call op (life l) ins p w
      | o =>
          if (if BB_END (tcg_op_defs o) then block_ended p else if OPF_SIDE_EFFECTS o then synced p else true)
          then
            match compute o ins (cargs op) w with
            | Done vs w => LNext (put_outs p (life l) 0 (oargs op) vs) w
            | Jumps label w => LJump label p w
            | Leaves why w => LLeave why p w
            | Wrong => LUndefined
            end
          else LUndefined
      end
  end.

Fixpoint life_after_label (label : Z) (ops : list live_op) : option (list live_op) :=
  match ops with
  | [] => None
  | l :: ops => if is_label label (the_op l) then Some ops else life_after_label label ops
  end.

Inductive life_behaviour :=
| LLeft_block (why : leave) (p : places) (w : W)
| LFell_off (p : places) (w : W)
| LWent_wrong
| LOut_of_jumps.

Fixpoint life_run (jumps : nat) (prog ops : list live_op) (p : places) (w : W) : life_behaviour :=
  (fix go (ops : list live_op) (p : places) (w : W) : life_behaviour :=
     match ops with
     | [] => LFell_off p w
     | l :: ops =>
         match life_step l p w with
         | LNext p w => go ops p w
         | LLeave why p w => LLeft_block why p w
         | LUndefined => LWent_wrong
         | LJump label p w =>
             match jumps with
             | O => LOut_of_jumps
             | S jumps =>
                 match life_after_label label prog with
                 | Some ops => life_run jumps prog ops p w
                 | None => LWent_wrong
                 end
             end
         end
     end) ops p w.

End Machine.
