(* ===== verification/TcgLifeProof.v ===== *)
(** * The life data is right (tcg/tcg.c, [liveness_pass_1])

    A block and what the analysis made of it run in step: a temporary that is
    alive can be fetched, one that must be in memory is there, and one that is
    dead is in no register. *)

From Stdlib Require Import ZArith Lia List Bool.
From S2P Require Import Prelude Bitops TcgIr TcgOpt TcgCopies TcgOptProof TcgLife.
Import ListNotations.
Local Open Scope Z_scope.
Local Open Scope c_scope.

(** ** The states *)

Definition dead (x : Z) : bool := truthy (x .& TS_DEAD).
Definition mem (x : Z) : bool := truthy (x .& TS_MEM).

Lemma state_cases x : 0 <= x <= 3 -> x = 0 \/ x = 1 \/ x = 2 \/ x = 3.
Proof. lia. Qed.

Ltac states x := let H := fresh in
  assert (H : x = 0 \/ x = 1 \/ x = 2 \/ x = 3) by (apply state_cases; lia); destruct H as [->|[->|[->| ->]]].

Lemma revive_bits x : 0 <= x <= 3 ->
  let y := x .& Z.lnot TS_DEAD in 0 <= y <= 3 /\ dead y = false /\ mem y = mem x /\ y .& Z.lnot TS_DEAD = y.
Proof. intros H y; subst y; states x; vm_compute; intuition congruence. Qed.

Lemma sync_bits x : 0 <= x <= 3 -> let y := x .| TS_MEM in 0 <= y <= 3 /\ dead y = dead x /\ mem y = true.
Proof. intros H y; subst y; states x; vm_compute; intuition congruence. Qed.

Lemma only_dead x : 0 <= x <= 3 -> (x =? TS_DEAD) = dead x && negb (mem x).
Proof. intros H; states x; reflexivity. Qed.

Lemma put_eq st t x : put st t x t = x.
Proof. unfold put; now rewrite Z.eqb_refl. Qed.

Lemma put_ne st t u x : u <> t -> put st t x u = st u.
Proof. intros N; unfold put; now rewrite (proj2 (Z.eqb_neq u t)). Qed.

(** ** The bits of the life data *)

Lemma dead_arg_bit l n : 0 <= n -> IS_DEAD_ARG l n = Z.testbit l (n + 2).
Proof.
  intros H; unfold IS_DEAD_ARG, DEAD_ARG; rewrite Z.shiftl_mul_pow2 by assumption.
  replace (4 * 2 ^ n) with (2 ^ (n + 2)) by (rewrite Z.pow_add_r by lia; lia); apply truthy_land_pow2; lia.
Qed.

Lemma sync_arg_bit l n : 0 <= n -> NEED_SYNC_ARG l n = Z.testbit l n.
Proof.
  intros H; unfold NEED_SYNC_ARG, SYNC_ARG; rewrite Z.shiftl_mul_pow2, Z.mul_1_l by assumption.
  now apply truthy_land_pow2.
Qed.

Lemma mark_bit l i k : 0 <= i -> i + 2 < 16 -> inU 16 l ->
  inU 16 (u16 (l .| (DEAD_ARG .<< i))) /\
  Z.testbit (u16 (l .| (DEAD_ARG .<< i))) k = Z.testbit l k || (k =? i + 2).
Proof.
  intros Hi Hj U; split; [apply wrap_range; lia|]; unfold DEAD_ARG.
  rewrite testbit_wrap by lia; rewrite Z.shiftl_mul_pow2 by assumption.
  replace (4 * 2 ^ i) with (2 ^ (i + 2)) by (rewrite Z.pow_add_r by lia; lia).
  rewrite Z.lor_spec, Z.pow2_bits_eqb by lia; rewrite (Z.eqb_sym k).
  destruct (Z.ltb_spec k 16); cbn [andb]; [reflexivity|].
  rewrite (testbit_high 16) by assumption; symmetry; apply Z.eqb_neq; lia.
Qed.

Lemma dying_range ins : forall i st l, inU 16 l -> inU 16 (dying_args ins i st l).
Proof.
  induction ins as [|t ins IH]; intros i st l U; cbn [dying_args]; [exact U|].
  apply IH; destruct (_ && _); [apply wrap_range; lia|exact U].
Qed.

Lemma dying_below ins : forall i st l k, 0 <= i -> i + Z.of_nat (length ins) <= 14 -> inU 16 l -> k < i + 2 ->
  Z.testbit (dying_args ins i st l) k = Z.testbit l k.
Proof.
  induction ins as [|t ins IH]; intros i st l k Hi Hn U Hk; cbn [dying_args length] in *; [reflexivity|].
  destruct (_ && _).
  - destruct (mark_bit l i k Hi ltac:(lia) U) as [U' B]; rewrite IH, B by (lia || assumption).
    rewrite (proj2 (Z.eqb_neq k (i + 2))) by lia; apply orb_false_r.
  - apply IH; lia || assumption.
Qed.

Lemma dying_at ins : forall i st l j t, 0 <= i -> i + Z.of_nat (length ins) <= 14 -> inU 16 l ->
  (forall k, i + 2 <= k -> Z.testbit l k = false) -> nth_error ins j = Some t ->
  IS_DEAD_ARG (dying_args ins i st l) (i + Z.of_nat j) = negb (t =? TCG_CALL_DUMMY_ARG) && dead (st t).
Proof.
  induction ins as [|u ins IH]; intros i st l j t Hi Hn U Z0 E; [destruct j; discriminate|].
  cbn [dying_args length] in *; fold (dead (st u)); set (b := negb (u =? _) && dead (st u)) in *.
  assert (B : inU 16 (if b then u16 (l .| (DEAD_ARG .<< i)) else l) /\
    forall k, Z.testbit (if b then u16 (l .| (DEAD_ARG .<< i)) else l) k = Z.testbit l k || b && (k =? i + 2)).
  { destruct b; [split; [apply wrap_range; lia|]; intros k; apply (mark_bit l i k Hi ltac:(lia) U)|].
    split; [exact U|]; intros k; symmetry; apply orb_false_r. }
  destruct B as [U' B]; destruct j as [|j]; cbn [nth_error] in E.
  - injection E as ->; rewrite dead_arg_bit, dying_below, B, Z0 by lia || assumption.
    replace (i + Z.of_nat 0 + 2) with (i + 2) by lia; now rewrite Z.eqb_refl, andb_true_r.
  - replace (i + Z.of_nat (S j)) with (i + 1 + Z.of_nat j) by lia; apply IH; try lia; auto.
    intros k Hk; rewrite B, Z0, (proj2 (Z.eqb_neq k (i + 2))) by lia; now destruct b.
Qed.

Lemma in_live_args ins : forall st t,
  (forall u, 0 <= st u <= 3) ->
  live_args ins st t = if existsb (Z.eqb t) ins && negb (t =? TCG_CALL_DUMMY_ARG) then st t .& Z.lnot TS_DEAD else st t.
Proof.
  induction ins as [|u ins IH]; intros st t R; cbn [live_args existsb]; [reflexivity|].
  destruct (Z.eqb_spec u TCG_CALL_DUMMY_ARG) as [->|N].
  - rewrite IH by assumption; destruct (Z.eqb_spec t TCG_CALL_DUMMY_ARG); cbn [orb negb]; now rewrite ?andb_false_r.
  - assert (R' : forall v, 0 <= put st u (st u .& Z.lnot TS_DEAD) v <= 3).
    { intros v; unfold put; destruct (v =? u); [apply (revive_bits _ (R u))|apply R]. }
    rewrite IH by assumption; destruct (Z.eqb_spec t u) as [->|X]; cbn [orb].
    + rewrite put_eq, (proj2 (Z.eqb_neq u _)) by assumption; cbn [negb]; rewrite !andb_true_r.
      destruct (revive_bits _ (R u)) as (_ & _ & _ & E); destruct (existsb _ _); auto.
    + now rewrite put_ne.
Qed.

(** Two outputs at most: their bits do not meet those of the inputs. *)
Lemma out_args_spec outs st : NoDup outs -> (length outs <= 2)%nat -> (forall u, 0 <= st u <= 3) ->
  let (st', l) := out_args outs 0 st 0 in
  (forall t, st' t = if existsb (Z.eqb t) outs then TS_DEAD else st t) /\ inU 16 l /\
  (forall k, Z.of_nat (length outs) + 2 <= k -> Z.testbit l k = false) /\
  (forall j t, nth_error outs j = Some t ->
     Z.testbit l (Z.of_nat j + 2) = dead (st t) /\ Z.testbit l (Z.of_nat j) = mem (st t)).
Proof.
  intros N L R; destruct outs as [|a [|b [|c outs]]]; [| | |cbn in L; lia]; cbn [out_args].
  - splits; auto; [unfold inU; lia|intros; apply Z.bits_0|intros [|] t E; discriminate].
  - fold (dead (st a)) (mem (st a)); set (l := if mem (st a) then _ else _).
    assert (B : inU 16 l /\ forall k, Z.testbit l k = (k =? 2) && dead (st a) || (k =? 0) && mem (st a)).
    { subst l; destruct (dead (st a)), (mem (st a)); (split; [vm_compute; now split|]); intros k;
      (destruct (Z.ltb_spec k 0); [rewrite Z.testbit_neg_r by assumption; cases|]);
      (assert (K : k = 0 \/ k = 1 \/ k = 2 \/ 3 <= k) by lia); destruct K as [->|[->|[->|K]]]; try reflexivity;
      (etransitivity; [apply (testbit_high 3); [vm_compute; now split|lia]|cases]). }
    destruct B as [U B]; splits; auto.
    + intros t; unfold put; cbn [existsb]; now rewrite orb_false_r.
    + intros k K; cbn [length] in K; rewrite B; cases.
    + intros [|[|]] t E; try discriminate E; injection E as ->; now rewrite !B; cbn; rewrite ?orb_false_r.
  - assert (X : a <> b) by (inversion_clear N as [|? ? I _]; intros ->; apply I; now left).
    rewrite put_ne by congruence; fold (dead (st a)) (mem (st a)) (dead (st b)) (mem (st b)); set (l := if mem (st b) then _ else _).
    assert (B : inU 16 l /\ forall k, Z.testbit l k = (k =? 2) && dead (st a) || (k =? 0) && mem (st a)
                 || (k =? 3) && dead (st b) || (k =? 1) && mem (st b)).
    { subst l; destruct (dead (st a)), (mem (st a)), (dead (st b)), (mem (st b)); (split; [vm_compute; now split|]); intros k;
      (destruct (Z.ltb_spec k 0); [rewrite Z.testbit_neg_r by assumption; cases|]);
      (assert (K : k = 0 \/ k = 1 \/ k = 2 \/ k = 3 \/ 4 <= k) by lia); destruct K as [->|[->|[->|[->|K]]]]; try reflexivity;
      (etransitivity; [apply (testbit_high 4); [vm_compute; now split|lia]|cases]). }
    destruct B as [U B]; splits; auto.
    + intros t; unfold put; cbn [existsb]; rewrite orb_false_r; destruct (t =? b), (t =? a); reflexivity.
    + intros k K; cbn [length] in K; rewrite B; cases.
    + intros [|[|[|]]] t E; try discriminate E; injection E as ->; rewrite !B; cbn; now rewrite ?orb_false_r.
Qed.

(** ** What the block and its helpers must be like *)

(** tcg/tcg.h: what the flags of a helper promise. *)
Class HelperFlags (W : Type) (nb_globals : nat) (host : TcgHost W nb_globals) := {
  (** A helper that does not read globals does not depend on them, nor does it
      raise an exception, which would read them. *)
  helper_no_read : forall f fl r i w,
    truthy (fl .& TCG_CALL_NO_READ_GLOBALS) = true ->
    exists o w', forall g, length g = nb_globals -> helper (f :: fl :: r) i g w = Some (o, g, w');
  (** A helper that can be suppressed does nothing but return a value. *)
  helper_no_effects : forall f fl r i g w,
    truthy (fl .& TCG_CALL_NO_SIDE_EFFECTS) = true ->
    exists o, helper (f :: fl :: r) i g w = Some (o, g, w)
}.

Section Simulation.
Variable s : TCGContext.
Hypothesis few_temps : (nb_temps s <= TCG_MAX_TEMPS)%nat.
Hypothesis globals_first : (nb_globals s <= nb_temps s)%nat.
Context {W : Type} {host : TcgHost W (nb_globals s)} {flags : HelperFlags W (nb_globals s) host}.
Variable fixed_reg : Z -> bool.
Hypothesis fixed_global : forall t, fixed_reg t = true -> is_global s t = true.

Local Abbreviation in_temps := (in_temps s).
Local Abbreviation wf_store := (wf_store s).

(** The arguments are temporaries, or padding of a call; at most two outputs
    and fourteen arguments; [discard] is for temporaries that do not outlive a
    basic block; a helper returns as many words as the call has outputs. *)
Record live_wf (op : TCGOp) : Prop := {
  lw_length : (n_oargs op + n_iargs op + n_cargs op <= length (args op))%nat;
  lw_small : (n_oargs op <= 2 /\ n_oargs op + n_iargs op <= 14)%nat;
  lw_outs : Forall in_temps (oargs op);
  lw_nodup : NoDup (oargs op);
  lw_ins : Forall (fun t => in_temps t \/ (opc op = call /\ t = TCG_CALL_DUMMY_ARG)) (iargs op);
  lw_discard : opc op = discard -> has_home s (arg op 0) = false;
  lw_call : opc op = call -> forall i g w o g' w',
    length i = calli op -> helper (cargs op) i g w = Some (o, g', w') -> length o = callo op
}.

Lemma temp_not_dummy t : in_temps t -> (t =? TCG_CALL_DUMMY_ARG) = false.
Proof. unfold TcgCopies.in_temps, TCG_MAX_TEMPS, TCG_CALL_DUMMY_ARG in *; intros; apply Z.eqb_neq; lia. Qed.

Lemma rd_dummy m : length m = nb_temps s -> rd m TCG_CALL_DUMMY_ARG = 0.
Proof. intros L; unfold rd, TCG_CALL_DUMMY_ARG; apply nth_overflow; unfold TCG_MAX_TEMPS in *; lia. Qed.

Lemma length_outs op : live_wf op -> length (oargs op) = n_oargs op.
Proof. intros [L _ _ _ _ _ _]; unfold oargs; rewrite length_firstn; lia. Qed.

Lemma length_ins op : live_wf op -> length (iargs op) = n_iargs op.
Proof. intros [L _ _ _ _ _ _]; unfold iargs; rewrite length_firstn, length_skipn; lia. Qed.

(** ** Operations as functions *)

Definition of_result (m : store) (outs : list Z) (r : result (W := W)) : outcome (W := W) :=
  match r with
  | Done vs w => Next (wrs m outs vs) w
  | Jumps label w => Jump label m w
  | Leaves why w => Leave why m w
  | Wrong => Undefined
  end.

Ltac open_args L := repeat match type of L with
  | (_ <= length ?l)%nat => destruct l as [|? l]; cbn [length] in L; [exfalso; cbn in L; lia|]; try (apply le_S_n in L)
  end.

Lemma eval_compute op m w :
  (n_oargs op + n_iargs op + n_cargs op <= length (args op))%nat -> opc op <> call -> opc op <> discard ->
  eval_op op m w = of_result m (oargs op) (compute s (opc op) (map (rd m) (iargs op)) (cargs op) w).
Proof.
  unfold eval_op, compute; intros L N1 N2; destruct (is_pure (opc op)) eqn:P.
  { destruct (eval_pure _ _ _); reflexivity. }
  destruct op as [o co ci l]; cbn [opc args] in *; destruct o; try discriminate P; try congruence;
    unfold n_oargs, n_iargs, n_cargs in L; cbn [opc tcg_op_defs nb_oargs nb_iargs nb_cargs Nat.add] in L;
    unfold iargs, oargs, cargs, n_oargs, n_iargs, n_cargs, arg;
    cbn [opc args tcg_op_defs nb_oargs nb_iargs nb_cargs Nat.add skipn];
    try reflexivity;
    repeat (destruct l as [|? l]; [cbn [length] in L; exfalso; lia|]; cbn [length] in L;
            first [apply le_S_n in L|idtac]);
    cbn [firstn skipn map nth]; try reflexivity;
    unfold eval_ld, eval_st, compute_ld, compute_st, branch, branches, arg; cbn [args nth of_result wrs];
    repeat match goal with
    | |- context [match cond_holds ?a ?b ?c ?d with _ => _ end] => destruct (cond_holds a b c d) as [[]|]
    | |- context [match guest_ld ?a ?b ?c with _ => _ end] => destruct (guest_ld a b c) as [[]|]
    | |- context [match guest_st ?a ?b ?c ?d with _ => _ end] => destruct (guest_st a b c d)
    | |- context [if ?b then _ else _] => destruct b
    end; reflexivity.
Qed.

Lemma compute_outs o i c w vs w' :
  o <> call -> o <> discard -> Forall (inU 32) i -> compute s o i c w = Done vs w' ->
  length vs = nb_oargs (tcg_op_defs o) /\ Forall (inU 32) vs.
Proof.
  intros N1 N2 F; unfold compute; destruct (is_pure o) eqn:P.
  { destruct (eval_pure o i c) eqn:E; [|discriminate]; intros [= <- _].
    destruct (eval_pure_range s few_temps globals_first o i c l E F); now split. }
  assert (R : forall x, inU 32 (u32 x)) by (intros; apply wrap_range; lia).
  destruct o; try discriminate P; try congruence; unfold compute_ld, compute_st, branches;
    repeat match goal with
    | |- context [match ?l with [] => _ | _ :: _ => _ end] => destruct l
    | |- context [match ?l with Some _ => _ | None => _ end] => destruct l as [[]|]
    | |- context [match ?l with Some _ => _ | None => _ end] => destruct l
    | |- context [let (_, _) := ?l in _] => destruct l
    | |- context [if ?b then _ else _] => destruct b
    end; intros E; try discriminate E; injection E as <- <-; (split; [reflexivity|]); unfold words_of; auto.
Qed.

(** ** The relation *)

(** What the state [x] of [t] says about its value in [m] and its places. *)
Definition placed (x : Z) (m : store) (p : places) (t : Z) : Prop :=
  (dead x = false -> fetch p t = Some (rd m t)) /\
  (mem x = true -> home p t = Some (rd m t)) /\
  (dead x = true -> cached p t = None) /\
  (fixed_reg t = true -> cached p t = None).

Record agree (st : temp_states) (m : store) (p : places) : Prop := {
  ag_store : wf_store m;
  ag_placed : forall t, in_temps t -> placed (st t) m p t
}.

Definition states_ok (st : temp_states) : Prop := forall t, 0 <= st t <= 3 /\ (mem (st t) = true -> has_home s t = true).

Lemma set_place_eq f t x : set_place f t x t = x.
Proof. unfold set_place; now rewrite Z.eqb_refl. Qed.

Lemma set_place_ne f t u x : u <> t -> set_place f t x u = f u.
Proof. intros N; unfold set_place; now rewrite (proj2 (Z.eqb_neq u t)). Qed.

Lemma fetch_home p t : in_temps t -> cached p t = None -> fetch p t = home p t.
Proof. intros T C; unfold fetch; now rewrite temp_not_dummy, C. Qed.

(** At home, a temporary is ready for anything. *)
Lemma placed_home x m p t : in_temps t -> cached p t = None -> home p t = Some (rd m t) -> placed x m p t.
Proof. intros T C E; unfold placed; now rewrite (fetch_home p t), C, E. Qed.

(** A temporary that nobody needs. *)
Lemma placed_dead m p t : cached p t = None -> placed TS_DEAD m p t.
Proof. intros C; unfold placed; now splits. Qed.

Lemma placed_weaken x y m p t : placed x m p t -> dead y = dead x -> (mem y = true -> mem x = true) -> placed y m p t.
Proof. intros (A & B & C & D) E F; unfold placed; rewrite E; splits; auto. Qed.

(** ** Inputs *)

Lemma load_inputs st m ins : forall p,
  agree st m p -> Forall (fun t => in_temps t \/ t = TCG_CALL_DUMMY_ARG) ins ->
  (forall t, In t ins -> in_temps t -> dead (st t) = false) ->
  exists p', load_all fixed_reg p ins = Some (p', map (rd m) ins) /\ home p' = home p /\ agree st m p'.
Proof.
  induction ins as [|t ins IH]; intros p A F D; [now exists p|]; inversion_clear F as [|? ? Ht F']; cbn [load_all map].
  assert (D' : forall u, In u ins -> in_temps u -> dead (st u) = false) by (intros; apply D; [now right|assumption]).
  destruct Ht as [Ht| ->].
  - pose proof (ag_placed _ _ _ A t Ht) as (Pf & _ & _ & Px); rewrite Pf by (apply D; [now left|assumption]).
    rewrite temp_not_dummy by assumption; cbn [orb]; destruct (fixed_reg t) eqn:Fx.
    + destruct (IH p A F' D') as (p' & -> & E & A'); eauto.
    + set (p1 := mkPlaces _ _); destruct (IH p1) as (p' & -> & E & A'); auto; [|eauto].
      split; [apply A|]; intros u U; pose proof (ag_placed _ _ _ A u U) as Pu; subst p1.
      destruct (Z.eq_dec u t) as [->|N]; unfold placed, fetch in *; cbn [home cached]; [|now rewrite set_place_ne].
      rewrite temp_not_dummy, set_place_eq by assumption; splits; try tauto; try congruence.
      intros X; rewrite (D t) in X by (auto; now left); discriminate.
  - destruct (IH p A F' D') as (p' & Ep & E & A'); unfold fetch; rewrite Z.eqb_refl; cbn [orb].
    rewrite Ep, rd_dummy by apply (ag_store _ _ _ A); eauto.
Qed.

(** The inputs for which [die] holds are forgotten, all their occurrences alike. *)
Lemma forget_dead_places l (die : Z -> bool) ins : forall p i,
  (forall j t, nth_error ins j = Some t -> IS_DEAD_ARG l (i + Z.of_nat j) = die t) ->
  let p' := forget_dead s fixed_reg p l i ins in
  forall u,
    cached p' u = (if existsb (Z.eqb u) ins && die u && negb (fixed_reg u) then None else cached p u) /\
    (has_home s u = true \/ existsb (Z.eqb u) ins && die u = false -> home p' u = home p u).
Proof.
  induction ins as [|t ins IH]; intros p i H p' u; subst p'; cbn [forget_dead existsb]; [now split|].
  pose proof (H 0%nat t eq_refl) as H0; replace (i + Z.of_nat 0) with i in H0 by lia; rewrite H0.
  set (p1 := if die t then forget s fixed_reg p t else p).
  assert (H1 : forall j v, nth_error ins j = Some v -> IS_DEAD_ARG l (i + 1 + Z.of_nat j) = die v)
    by (intros j v E; rewrite <- (H (S j) v E); f_equal; lia).
  destruct (IH p1 (i + 1) H1 u) as [-> Eh].
  assert (E1 : cached p1 u = (if (u =? t) && die u && negb (fixed_reg u) then None else cached p u) /\
               (has_home s u = true \/ (u =? t) && die u = false -> home p1 u = home p u)).
  { subst p1; unfold forget; destruct (Z.eqb_spec u t) as [->|N]; cbn [andb].
    - destruct (die t); [|now split]; destruct (fixed_reg t); [now split|]; cbn [negb andb cached home].
      rewrite set_place_eq; split; [reflexivity|]; intros [Y|]; [now rewrite Y|discriminate].
    - destruct (die t); [|now split]; destruct (fixed_reg t); [now split|]; cbn [cached home].
      rewrite set_place_ne by assumption; split; [reflexivity|]; intros _; destruct (has_home s t); auto; now apply set_place_ne. }
  destruct E1 as [-> Eh1]; split.
  - destruct (existsb _ _), (die u), (fixed_reg u), (u =? t); reflexivity.
  - intros X; rewrite Eh, Eh1; auto; destruct X as [|X]; auto; right;
      destruct (u =? t), (existsb (Z.eqb u) ins), (die u); auto.
Qed.

(** Before the inputs of an operation are revived, the dying ones are gone. *)
Lemma agree_inputs st m p ins l i :
  states_ok st -> agree (live_args ins st) m p ->
  Forall (fun t => in_temps t \/ t = TCG_CALL_DUMMY_ARG) ins ->
  (forall j t, nth_error ins j = Some t -> IS_DEAD_ARG l (i + Z.of_nat j) = negb (t =? TCG_CALL_DUMMY_ARG) && dead (st t)) ->
  exists p', load_all fixed_reg p ins = Some (p', map (rd m) ins) /\ agree st m (forget_dead s fixed_reg p' l i ins).
Proof.
  intros R A F D; assert (E := fun t => in_live_args ins st t (fun u => proj1 (R u))).
  assert (Hd : forall t, In t ins -> in_temps t -> dead (live_args ins st t) = false).
  { intros t I T; rewrite E, temp_not_dummy by assumption.
    assert (X : existsb (Z.eqb t) ins = true) by (apply existsb_exists; exists t; now rewrite Z.eqb_refl).
    rewrite X; apply (revive_bits _ (proj1 (R t))). }
  destruct (load_inputs _ m ins p A F Hd) as (p' & Ep & _ & A'); exists p'; split; [exact Ep|].
  split; [apply A'|]; intros t T; pose proof (ag_placed _ _ _ A' t T) as P.
  rewrite E, temp_not_dummy in P by assumption; cbn [negb] in P; rewrite andb_true_r in P.
  pose proof (forget_dead_places l _ ins p' i D t) as [C H]; cbv beta in C, H; rewrite temp_not_dummy in C, H by assumption.
  cbn [negb andb] in C, H; destruct (revive_bits _ (proj1 (R t))) as (_ & D0 & M0 & _); destruct (R t) as [_ Rm].
  destruct (existsb (Z.eqb t) ins) eqn:X; cbn [andb] in C, H.
  - destruct P as (Pf & Pm & Pd & Px); rewrite M0, D0 in *; unfold placed, fetch in *; rewrite temp_not_dummy in * by assumption.
    destruct (dead (st t)) eqn:Dt; cbn [andb] in *.
    + assert (Cn : cached (forget_dead s fixed_reg p' l i ins) t = None) by (rewrite C; destruct (fixed_reg t); auto).
      splits; auto; [discriminate|]; intros M; rewrite H; auto.
    + rewrite C, H by auto; splits; auto; discriminate.
  - unfold placed, fetch in *; now rewrite C, H by auto.
Qed.

(** ** Outputs *)

Lemma in_existsb t ts : existsb (Z.eqb t) ts = true <-> In t ts.
Proof.
  rewrite existsb_exists; split; [intros (x & I & E); apply Z.eqb_eq in E; now subst|exists t; now rewrite Z.eqb_refl].
Qed.

(** Writing one temporary, in the store and in its places. *)
Lemma placed_put x m p t v sync dies :
  in_temps t -> length m = nb_temps s ->
  (mem x = true -> has_home s t = true) -> (fixed_reg t = true -> cached p t = None) ->
  (dies = dead x) -> (sync = mem x) -> placed x (wr m t v) (put_out s fixed_reg p t v sync dies) t.
Proof.
  intros T Lm Hm Hf -> ->.
  assert (Eh : rd (wr m t v) t = v) by (apply nth_upd_eq; unfold TcgCopies.in_temps in T; lia).
  unfold put_out; destruct (fixed_reg t) eqn:Fx.
  - apply placed_home; cbn [home cached]; auto; now rewrite set_place_eq, Eh.
  - unfold forget; rewrite Fx; unfold placed, fetch; rewrite temp_not_dummy, Eh, Fx by assumption.
    destruct (dead x); cbn [home cached]; rewrite ?set_place_eq; splits; try discriminate; auto; intros M; rewrite M;
      rewrite ?(Hm M), ?set_place_eq; reflexivity.
Qed.

Lemma put_out_ne p t u v sync dies :
  u <> t -> home (put_out s fixed_reg p t v sync dies) u = home p u /\ cached (put_out s fixed_reg p t v sync dies) u = cached p u.
Proof.
  intros N; unfold put_out, forget; destruct (fixed_reg t); cbn [home cached]; [now rewrite set_place_ne|].
  destruct dies; cbn [home cached]; [destruct (has_home s t)|]; now rewrite ?set_place_ne.
Qed.

Lemma placed_put_ne x m p t u v sync dies :
  in_temps t -> in_temps u -> t <> u -> placed x m p u -> placed x (wr m t v) (put_out s fixed_reg p t v sync dies) u.
Proof.
  intros T U N P; destruct (put_out_ne p t u v sync dies ltac:(congruence)) as [Eh Ec].
  unfold placed, fetch in *; now rewrite Eh, Ec, (rd_wr_ne s).
Qed.

Lemma agree_outputs st l outs : forall vs i m p,
  NoDup outs -> Forall in_temps outs -> length vs = length outs -> Forall (inU 32) vs -> wf_store m ->
  (forall t, in_temps t -> mem (st t) = true -> has_home s t = true) ->
  (forall t, in_temps t -> fixed_reg t = true -> cached p t = None) ->
  (forall t, in_temps t -> ~ In t outs -> placed (st t) m p t) ->
  (forall j t, nth_error outs j = Some t ->
     IS_DEAD_ARG l (i + Z.of_nat j) = dead (st t) /\ NEED_SYNC_ARG l (i + Z.of_nat j) = mem (st t)) ->
  agree st (wrs m outs vs) (put_outs s fixed_reg p l i outs vs).
Proof.
  induction outs as [|t outs IH]; intros [|v vs] i m p N Fo L Fv Wm Hm Hf P B; try discriminate L; cbn [wrs put_outs].
  - split; auto.
  - inversion_clear N as [|? ? NI N']; inversion_clear Fo as [|? ? T Fo']; inversion_clear Fv as [|? ? V Fv'].
    destruct (B 0%nat t eq_refl) as [B1 B2]; replace (i + Z.of_nat 0) with i in B1, B2 by lia.
    assert (Pt : placed (st t) (wr m t v) (put_out s fixed_reg p t v (NEED_SYNC_ARG l i) (IS_DEAD_ARG l i)) t)
      by (apply placed_put; auto; apply Wm).
    apply IH; auto; [now apply wf_wr| | |].
    + intros u U Fx; destruct (Z.eq_dec t u) as [<-|X]; [now apply Pt|].
      destruct (put_out_ne p t u v (NEED_SYNC_ARG l i) (IS_DEAD_ARG l i) ltac:(congruence)) as [_ ->]; now apply Hf.
    + intros u U NI'; destruct (Z.eq_dec t u) as [<-|X]; [exact Pt|].
      apply placed_put_ne; auto; apply P; auto; now intros [|].
    + intros j u E; specialize (B (S j) u E); replace (i + 1 + Z.of_nat j) with (i + Z.of_nat (S j)) by lia; exact B.
Qed.

(** ** The states of the pass *)

Lemma states_range st : states_ok st -> forall t, 0 <= st t <= 3.
Proof. intros S t; apply S. Qed.

Lemma func_end_ok : states_ok (tcg_la_func_end s).
Proof.
  intros t; unfold tcg_la_func_end, has_home; destruct (is_global s t); vm_compute; intuition (discriminate || congruence).
Qed.

Lemma bb_end_ok : states_ok (tcg_la_bb_end s).
Proof.
  intros t; unfold tcg_la_bb_end, tcg_la_func_end, has_home; destruct (is_global s t), (temp_local s t);
    vm_compute; intuition (discriminate || congruence).
Qed.

Lemma put_dead_ok st t : states_ok st -> states_ok (put st t TS_DEAD).
Proof. intros S u; unfold put; destruct (u =? t); [split; [vm_compute; now split|discriminate]|apply S]. Qed.

Lemma sync_all_ok st : states_ok st -> states_ok (sync_all st (nb_globals s)).
Proof.
  intros S t; unfold sync_all; change (t <? Z.of_nat (nb_globals s)) with (is_global s t).
  destruct (is_global s t) eqn:G; [|apply S]; split; [apply (sync_bits _ (proj1 (S t)))|].
  intros _; unfold has_home; now rewrite G.
Qed.

Lemma fill_ok st : states_ok st -> states_ok (fill st (nb_globals s) (TS_DEAD .| TS_MEM)).
Proof.
  intros S t; unfold fill; change (t <? Z.of_nat (nb_globals s)) with (is_global s t).
  destruct (is_global s t) eqn:G; [|apply S]; split; [vm_compute; now split|].
  intros _; unfold has_home; now rewrite G.
Qed.

Lemma live_args_ok ins : forall st, states_ok st -> states_ok (live_args ins st).
Proof.
  induction ins as [|t ins IH]; intros st S; cbn [live_args]; auto; apply IH; destruct (_ =? _); auto.
  intros u; unfold put; destruct (Z.eqb_spec u t) as [->|]; [|apply S].
  destruct (revive_bits _ (proj1 (S t))) as (R & _ & M & _); split; [exact R|]; rewrite M; apply S.
Qed.

Lemma out_args_ok outs : forall i st l, states_ok st -> states_ok (fst (out_args outs i st l)).
Proof. induction outs as [|t outs IH]; intros i st l S; cbn [out_args]; auto; apply IH; now apply put_dead_ok. Qed.

(** What is written about a kept operation. *)
Record kept (st1 mid : temp_states) (op : TCGOp) (l : live_op) : Prop := {
  kp_op : the_op l = op;
  kp_states : states_ok mid;
  kp_outs : forall j t, nth_error (oargs op) j = Some t ->
    IS_DEAD_ARG (life l) (0 + Z.of_nat j) = dead (st1 t) /\ NEED_SYNC_ARG (life l) (0 + Z.of_nat j) = mem (st1 t);
  kp_ins : forall j t, nth_error (iargs op) j = Some t ->
    IS_DEAD_ARG (life l) (Z.of_nat (n_oargs op) + Z.of_nat j) = negb (t =? TCG_CALL_DUMMY_ARG) && dead (mid t)
}.

Lemma keep_op_kept st1 middle op :
  live_wf op -> states_ok st1 -> (forall st, states_ok st -> states_ok (middle st)) ->
  exists std l, let mid := middle std in
    keep_op st1 middle op = (live_args (iargs op) mid, Some l) /\ kept st1 mid op l /\
    forall t, std t = if existsb (Z.eqb t) (oargs op) then TS_DEAD else st1 t.
Proof.
  intros Wo S Hm; assert (Lo := length_outs op Wo); assert (Li := length_ins op Wo); destruct (lw_small op Wo) as [Sm1 Sm2].
  pose proof (out_args_spec (oargs op) st1 (lw_nodup op Wo) ltac:(lia) (states_range _ S)) as Sp.
  pose proof (out_args_ok (oargs op) 0 st1 0 S) as So.
  unfold keep_op; destruct (out_args (oargs op) 0 st1 0) as [std l0]; cbn [fst] in So; destruct Sp as (E & U & Hi & B).
  rewrite Lo in Hi; eexists std, _; cbv zeta; splits; [reflexivity| |exact E]; constructor; cbn [the_op life]; auto.
  - intros j t X; assert (J : (j < n_oargs op)%nat) by (rewrite <- Lo; apply nth_error_Some; congruence).
    destruct (B j t X) as [B1 B2]; rewrite dead_arg_bit, sync_arg_bit, !dying_below by lia || assumption.
    cbn [Z.add]; now split.
  - intros j t X; apply dying_at; auto; lia.
Qed.

(** The states after the operation ask for no more than those in the middle. *)
Definition covers (mid st1 : temp_states) (outs : list Z) : Prop :=
  forall m p t, in_temps t -> ~ In t outs -> placed (mid t) m p t -> placed (st1 t) m p t.

Lemma agree_after st1 mid op l m p vs :
  live_wf op -> kept st1 mid op l -> states_ok st1 -> covers mid st1 (oargs op) -> agree mid m p ->
  length vs = length (oargs op) -> Forall (inU 32) vs ->
  agree st1 (wrs m (oargs op) vs) (put_outs s fixed_reg p (life l) 0 (oargs op) vs).
Proof.
  intros Wo K S C [Wm A] L F; apply agree_outputs; try assumption.
  - now apply lw_nodup.
  - now apply lw_outs.
  - intros t _; apply S.
  - intros t T; apply (A t T).
  - intros t T N; apply C; auto.
  - apply (kp_outs _ _ _ _ K).
Qed.

Lemma wf_ins op : live_wf op -> Forall (fun t => in_temps t \/ t = TCG_CALL_DUMMY_ARG) (iargs op).
Proof. intros Wo; eapply Forall_impl; [|exact (lw_ins op Wo)]; cbn; tauto. Qed.

Lemma rd_words m ts : wf_store m -> Forall (inU 32) (map (rd m) ts).
Proof. intros [_ F]; apply Forall_map, Forall_forall; intros t _; now apply (rd_word s few_temps globals_first). Qed.

(** ** One operation *)

(** The operation and its annotated form run in step. *)
Definition in_step (st1 : temp_states) (op : TCGOp) (l : live_op) (m : store) (p : places) (w : W) : Prop :=
  match eval_op op m w with
  | Undefined => True
  | Next m' w' => exists p', life_step s fixed_reg l p w = LNext p' w' /\ agree st1 m' p'
  | Jump label m' w' => m' = m /\ exists p', life_step s fixed_reg l p w = LJump label p' w' /\ agree (tcg_la_bb_end s) m p'
  | Leave why m' w' => exists p', life_step s fixed_reg l p w = LLeave why p' w' /\
      seen s p' = map Some (firstn (nb_globals s) m')
  end.

Lemma life_step_compute l p w :
  opc (the_op l) <> call -> opc (the_op l) <> discard ->
  life_step s fixed_reg l p w =
  match load_all fixed_reg p (iargs (the_op l)) with
  | None => LUndefined
  | Some (p, ins) =>
      let p := forget_dead s fixed_reg p (life l) (Z.of_nat (n_oargs (the_op l))) (iargs (the_op l)) in
      if (if BB_END (tcg_op_defs (opc (the_op l))) then block_ended s p
          else if OPF_SIDE_EFFECTS (opc (the_op l)) then synced s p else true)
      then
        match compute s (opc (the_op l)) ins (cargs (the_op l)) w with
        | Done vs w => LNext (put_outs s fixed_reg p (life l) 0 (oargs (the_op l)) vs) w
        | Jumps label w => LJump label p w
        | Leaves why w => LLeave why p w
        | Wrong => LUndefined
        end
      else LUndefined
  end.
Proof. intros N1 N2; unfold life_step; destruct (load_all _ _ _) as [[]|]; auto; destruct (opc (the_op l)); congruence. Qed.

Lemma in_globals t : In t (globals s) -> in_temps t /\ is_global s t = true.
Proof.
  unfold globals; intros I; apply in_map_iff in I as (k & <- & I); apply in_seq in I.
  unfold TcgCopies.in_temps; split; [lia|apply Z.ltb_lt; lia].
Qed.

Lemma in_all_temps t : In t (all_temps s) -> in_temps t.
Proof. unfold all_temps; intros I; apply in_map_iff in I as (k & <- & I); apply in_seq in I; unfold TcgCopies.in_temps; lia. Qed.

Lemma map_rd_firstn m n : (n <= length m)%nat -> map (rd m) (map Z.of_nat (seq 0 n)) = firstn n m.
Proof.
  intros L; rewrite map_map; transitivity (map (fun k => nth k m 0) (seq 0 n)); [apply map_ext; intros k; unfold rd; now rewrite Nat2Z.id|].
  revert m L; induction n as [|n IH]; intros [|x m] L; cbn in *; try lia; auto.
  f_equal; rewrite <- seq_shift, map_map; apply IH; lia.
Qed.

(** When all globals are in memory, the world sees the right ones. *)
Lemma globals_seen st m p :
  agree st m p -> (forall t, is_global s t = true -> mem (st t) = true) -> seen s p = map Some (firstn (nb_globals s) m).
Proof.
  intros [[Lm _] A] G; rewrite <- map_rd_firstn, map_map by lia; apply map_ext_in; intros t I; apply in_globals in I as [T I].
  destruct (A t T) as (_ & B & _); auto.
Qed.

Lemma globals_synced st m p :
  agree st m p -> (forall t, is_global s t = true -> mem (st t) = true) -> synced s p = true.
Proof.
  intros [_ A] G; apply forallb_forall; intros t I; apply in_globals in I as [T I].
  destruct (A t T) as (_ & B & _); now rewrite B by auto.
Qed.

Lemma globals_saved st m p :
  agree st m p -> (forall t, is_global s t = true -> mem (st t) = true /\ dead (st t) = true) -> saved s p = true.
Proof.
  intros [_ A] G; apply forallb_forall; intros t I; apply in_globals in I as [T I].
  destruct (A t T) as (_ & B & C & _), (G t I); now rewrite B, C by auto.
Qed.

Lemma bb_end_state t :
  tcg_la_bb_end s t = if has_home s t then TS_DEAD .| TS_MEM else TS_DEAD.
Proof. unfold tcg_la_bb_end, tcg_la_func_end, has_home; destruct (is_global s t), (temp_local s t); reflexivity. Qed.

Lemma bb_end_ended m p : agree (tcg_la_bb_end s) m p -> block_ended s p = true.
Proof.
  intros [_ A]; apply forallb_forall; intros t I; destruct (A t (in_all_temps t I)) as (_ & B & C & _).
  rewrite bb_end_state in B, C; destruct (has_home s t); [now rewrite B, C|now rewrite C].
Qed.

Lemma compute_jumps o i c w label w' : compute s o i c w = Jumps label w' -> BB_END (tcg_op_defs o) = true /\ w' = w.
Proof.
  unfold compute; destruct o; cbn [is_pure]; unfold compute_ld, compute_st, branches;
    repeat match goal with
    | |- context [match ?l with [] => _ | _ :: _ => _ end] => destruct l
    | |- context [match ?l with Some _ => _ | None => _ end] => destruct l as [[]|]
    | |- context [match ?l with Some _ => _ | None => _ end] => destruct l
    | |- context [let (_, _) := ?l in _] => destruct l
    | |- context [if ?b then _ else _] => destruct b
    end; intros E; try discriminate E; injection E; auto.
Qed.

Lemma compute_leaves o i c w why w' :
  compute s o i c w = Leaves why w' -> BB_END (tcg_op_defs o) = true \/ OPF_SIDE_EFFECTS o = true.
Proof.
  unfold compute; destruct o; cbn [is_pure]; unfold compute_ld, compute_st, branches;
    repeat match goal with
    | |- context [match ?l with [] => _ | _ :: _ => _ end] => destruct l
    | |- context [match ?l with Some _ => _ | None => _ end] => destruct l as [[]|]
    | |- context [match ?l with Some _ => _ | None => _ end] => destruct l
    | |- context [let (_, _) := ?l in _] => destruct l
    | |- context [if ?b then _ else _] => destruct b
    end; intros E; try discriminate E; auto.
Qed.

(** A kept operation that is neither a call nor [discard]. *)
Lemma kept_in_step st1 mid op l m p w :
  live_wf op -> opc op <> call -> opc op <> discard -> states_ok st1 -> kept st1 mid op l ->
  covers mid st1 (oargs op) -> agree (live_args (iargs op) mid) m p ->
  (BB_END (tcg_op_defs (opc op)) = true -> mid = tcg_la_bb_end s) ->
  (BB_END (tcg_op_defs (opc op)) = true \/ OPF_SIDE_EFFECTS (opc op) = true ->
   forall t, is_global s t = true -> mem (mid t) = true) ->
  in_step st1 op l m p w.
Proof.
  intros Wo N1 N2 S K C A Hb Hs; unfold in_step; rewrite eval_compute by (apply Wo || assumption).
  rewrite life_step_compute; rewrite (kp_op _ _ _ _ K); [|assumption|assumption].
  destruct (agree_inputs mid m p (iargs op) (life l) (Z.of_nat (n_oargs op)) (kp_states _ _ _ _ K) A
              (wf_ins op Wo) (kp_ins _ _ _ _ K)) as (p1 & -> & A').
  cbv zeta; set (p2 := forget_dead _ _ _ _ _ _) in *.
  assert (Ck : (if BB_END (tcg_op_defs (opc op)) then block_ended s p2
                else if OPF_SIDE_EFFECTS (opc op) then synced s p2 else true) = true).
  { destruct (BB_END _); [rewrite (Hb eq_refl) in A'; now apply (bb_end_ended m)|].
    destruct (OPF_SIDE_EFFECTS _); [|reflexivity]; apply (globals_synced mid m); auto. }
  rewrite Ck; clear Ck.
  destruct (compute _ _ _ _ _) as [vs w'|lab w'|why w'|] eqn:E; cbn [of_result]; [| | |exact I].
  - assert (Rm := rd_words m (iargs op) (ag_store _ _ _ A)).
    destruct (compute_outs _ _ _ _ _ _ N1 N2 Rm E) as [L F].
    eexists; split; [reflexivity|]; apply (agree_after st1 mid); auto.
    rewrite length_outs, L, <- n_oargs_def by assumption; reflexivity.
  - apply compute_jumps in E as [E ->]; rewrite <- (Hb E); split; [reflexivity|]; now eexists.
  - eexists; split; [reflexivity|]; apply (globals_seen mid); eauto using compute_leaves.
Qed.

(** ** The middle *)

Lemma covers_same mid st1 outs :
  (forall t, ~ In t outs -> dead (mid t) = dead (st1 t) /\ (mem (st1 t) = true -> mem (mid t) = true)) -> covers mid st1 outs.
Proof. intros H m p t T N P; destruct (H t N) as [D M]; apply (placed_weaken (mid t)); auto. Qed.

Lemma not_in_existsb t ts : ~ In t ts -> existsb (Z.eqb t) ts = false.
Proof. intros N; apply not_true_is_false; now rewrite in_existsb. Qed.

Lemma outs_dead_covers std st1 outs :
  (forall t, std t = if existsb (Z.eqb t) outs then TS_DEAD else st1 t) -> covers std st1 outs.
Proof. intros E; apply covers_same; intros t N; now rewrite E, not_in_existsb. Qed.

Lemma sync_all_covers std st1 outs :
  states_ok st1 -> (forall t, std t = if existsb (Z.eqb t) outs then TS_DEAD else st1 t) ->
  covers (sync_all std (nb_globals s)) st1 outs.
Proof.
  intros S E; apply covers_same; intros t N; unfold sync_all; rewrite E, not_in_existsb by assumption.
  destruct (_ <? _); [|tauto]; destruct (sync_bits _ (proj1 (S t))) as (_ & D & M); tauto.
Qed.

Lemma fill_covers std st1 outs :
  (forall t, std t = if existsb (Z.eqb t) outs then TS_DEAD else st1 t) ->
  covers (fill std (nb_globals s) (TS_DEAD .| TS_MEM)) st1 outs.
Proof.
  intros E m p t T N; unfold fill; change (t <? Z.of_nat (nb_globals s)) with (is_global s t).
  destruct (is_global s t) eqn:G; [|now rewrite E, not_in_existsb].
  intros (_ & B & C & _); apply placed_home; auto.
Qed.

(** At the end of a basic block only what has a home is needed. *)
Lemma bb_end_covers st1 outs :
  (forall t, in_temps t -> has_home s t = false -> st1 t = TS_DEAD) -> covers (tcg_la_bb_end s) st1 outs.
Proof.
  intros H m p t T _; rewrite bb_end_state; destruct (has_home s t) eqn:Hh.
  - intros (_ & B & C & _); now apply placed_home; auto.
  - now rewrite H.
Qed.

Lemma bb_end_mem t : is_global s t = true -> mem (tcg_la_bb_end s t) = true.
Proof. intros G; rewrite bb_end_state; unfold has_home; now rewrite G. Qed.

Lemma sync_all_mem st t : states_ok st -> is_global s t = true -> mem (sync_all st (nb_globals s) t) = true.
Proof.
  intros S G; unfold sync_all; change (t <? Z.of_nat (nb_globals s)) with (is_global s t); rewrite G.
  apply (sync_bits _ (proj1 (S t))).
Qed.

(** Ordinary temporaries die with the basic block. *)
Definition block_local (st : temp_states) (o : TCGOpcode) : Prop :=
  BB_END (tcg_op_defs o) = true -> forall t, in_temps t -> has_home s t = false -> st t = TS_DEAD.

(** What a visit must achieve: the operation, or nothing, runs in step. *)
Definition visited (st1 st0 : temp_states) (op : TCGOp) (r : option live_op) : Prop :=
  states_ok st0 /\
  forall m p w, agree st0 m p ->
    match r with
    | Some l => in_step st1 op l m p w
    | None => eval_op op m w = Undefined \/ exists m', eval_op op m w = Next m' w /\ agree st1 m' p
    end.

Lemma do_not_remove_ok st1 o op st0 r :
  live_wf op -> opc op <> call -> opc op <> discard -> states_ok st1 -> block_local st1 o ->
  BB_END (tcg_op_defs o) = BB_END (tcg_op_defs (opc op)) -> OPF_SIDE_EFFECTS o = OPF_SIDE_EFFECTS (opc op) ->
  do_not_remove s st1 o op = (st0, r) -> visited st1 st0 op r.
Proof.
  intros Wo N1 N2 S B Eb Es; unfold do_not_remove; set (middle := fun st : temp_states => _).
  assert (Hm : forall st, states_ok st -> states_ok (middle st)).
  { intros st Hst; subst middle; cbv beta; destruct (BB_END _); [apply bb_end_ok|].
    destruct (OPF_SIDE_EFFECTS o); auto using sync_all_ok. }
  destruct (keep_op_kept st1 middle op Wo S Hm) as (std & l & E & K & Ed); cbv zeta in E, K; rewrite E; intros [= <- <-].
  split; [now apply live_args_ok, (kp_states _ _ _ _ K)|]; intros m p w A.
  apply (kept_in_step st1 (middle std)); auto; subst middle; cbv beta in *; rewrite <- ?Eb, <- ?Es.
  - destruct (BB_END _) eqn:Bo; [now apply bb_end_covers, B|].
    destruct (OPF_SIDE_EFFECTS o); [now apply sync_all_covers|now apply outs_dead_covers].
  - now intros ->.
  - destruct (BB_END _); [intros _; apply bb_end_mem|]; intros [|X]; [discriminate|]; rewrite X in *; intros t G.
    assert (Sd : states_ok (sync_all std (nb_globals s))) by apply (kp_states _ _ _ _ K).
    unfold sync_all; change (t <? Z.of_nat (nb_globals s)) with (is_global s t); rewrite G, Ed.
    apply sync_bits; destruct (existsb _ _); [unfold TS_DEAD; lia|apply S].
Qed.

(** ** Removed and narrowed operations *)

(** A temporary nobody needs may get any value. *)
Lemma agree_unneeded st m p t v : agree st m p -> in_temps t -> st t = TS_DEAD -> inU 32 v -> agree st (wr m t v) p.
Proof.
  intros [Wm A] T D V; split; [now apply wf_wr|]; intros u U.
  destruct (Z.eq_dec t u) as [<-|N]; [rewrite D; apply placed_dead; destruct (A t T) as (_ & _ & C & _); apply C; now rewrite D|].
  unfold placed in *; rewrite (rd_wr_ne s) by assumption; now apply A.
Qed.

Lemma agree_unneeded_all st p outs : forall m vs,
  agree st m p -> Forall in_temps outs -> all_dead st outs = true -> Forall (inU 32) vs -> agree st (wrs m outs vs) p.
Proof.
  induction outs as [|t outs IH]; intros m [|v vs] A Fo D Fv; cbn [wrs]; auto.
  inversion_clear Fo; inversion_clear Fv; cbn [all_dead forallb] in D; apply andb_true_iff in D as [D1 D2].
  apply Z.eqb_eq in D1; apply IH; auto; now apply agree_unneeded.
Qed.

Lemma compute_quiet o i c w vs w' :
  o <> call -> o <> discard -> OPF_SIDE_EFFECTS o = false -> nb_oargs (tcg_op_defs o) <> 0%nat ->
  compute s o i c w = Done vs w' -> w' = w.
Proof.
  unfold compute; destruct o; cbn; try congruence; unfold compute_ld, branches;
    repeat match goal with
    | |- context [match ?l with [] => _ | _ :: _ => _ end] => destruct l
    | |- context [match ?l with Some _ => _ | None => _ end] => destruct l
    end; congruence.
Qed.

Lemma compute_falls o i c w :
  o <> call -> o <> discard -> OPF_SIDE_EFFECTS o = false -> nb_oargs (tcg_op_defs o) <> 0%nat ->
  compute s o i c w = Wrong \/ exists vs, compute s o i c w = Done vs w.
Proof.
  intros N1 N2 Sd No; destruct (compute s o i c w) as [vs w'|lab w'|why w'|] eqn:E; auto; [right|exfalso|exfalso].
  - exists vs; f_equal; now apply (compute_quiet o i c w vs w').
  - apply compute_jumps in E as [E _]; destruct o; cbn in *; congruence.
  - apply compute_leaves in E; destruct o; cbn in *; destruct E; congruence.
Qed.

Lemma removed_ok st1 op :
  live_wf op -> opc op <> call -> opc op <> discard -> states_ok st1 -> OPF_SIDE_EFFECTS (opc op) = false ->
  n_oargs op <> 0%nat -> all_dead st1 (oargs op) = true -> visited st1 st1 op None.
Proof.
  intros Wo N1 N2 S Sd No D; split; [exact S|]; intros m p w A; rewrite eval_compute by (apply Wo || assumption).
  rewrite n_oargs_def in No by assumption.
  destruct (compute_falls (opc op) (map (rd m) (iargs op)) (cargs op) w N1 N2 Sd No) as [-> |[vs E]]; [now left|right].
  rewrite E; eexists; split; [reflexivity|]; apply agree_unneeded_all; auto using lw_outs.
  apply (compute_outs _ _ _ _ _ _ N1 N2 (rd_words m _ (ag_store _ _ _ A)) E).
Qed.

(** [op'] computes what [op] computes, less some outputs that nobody needs. *)
Lemma narrowed_ok st1 op op' st0 r :
  live_wf op -> live_wf op' -> opc op <> call -> opc op <> discard -> opc op' <> call -> opc op' <> discard ->
  states_ok st1 -> BB_END (tcg_op_defs (opc op)) = false -> BB_END (tcg_op_defs (opc op')) = false ->
  OPF_SIDE_EFFECTS (opc op) = false -> OPF_SIDE_EFFECTS (opc op') = false ->
  (forall m p w, eval_op op m w = Undefined \/
     exists m1, eval_op op' m w = Next m1 w /\
       exists m2, eval_op op m w = Next m2 w /\ (agree st1 m1 p -> agree st1 m2 p)) ->
  do_not_remove s st1 (opc op) op' = (st0, r) -> visited st1 st0 op r.
Proof.
  intros Wo Wo' N1 N2 N1' N2' S B B' Sd Sd' H E.
  assert (V := do_not_remove_ok st1 (opc op) op' st0 r Wo' N1' N2' S).
  destruct V as [S0 V]; auto; [unfold block_local; congruence|congruence|congruence|].
  split; [exact S0|]; intros m p w A; specialize (V m p w A).
  destruct r as [l|]; [|exfalso; unfold do_not_remove, keep_op in E; destruct (out_args _ _ _ _); discriminate].
  unfold in_step in *; destruct (H m (match life_step s fixed_reg l p w with LNext q _ => q | _ => p end) w)
    as [-> |(m1 & E1 & m2 & -> & H12)]; [exact I|].
  rewrite E1 in V; destruct V as (p' & Ep & A'); rewrite Ep in H12; eauto.
Qed.

Lemma default_ok st1 op st0 r :
  live_wf op -> opc op <> call -> opc op <> discard -> states_ok st1 -> block_local st1 (opc op) ->
  live_default s st1 op = (st0, r) -> visited st1 st0 op r.
Proof.
  intros Wo N1 N2 S B; unfold live_default; destruct (_ && _) eqn:C.
  - intros [= <- <-]; rewrite !andb_true_iff, !negb_true_iff in C; destruct C as [[C1 C2] C3].
    apply Nat.eqb_neq in C2; now apply removed_ok.
  - now apply do_not_remove_ok.
Qed.

Lemma words_low d : nth 0 (words_of d) 0 = u32 d.
Proof. reflexivity. Qed.

Lemma dword_low_add al ah bl bh : u32 (dword al ah + dword bl bh) = u32 (al + bl).
Proof. apply wrap_eq_iff; [lia|]; exists (ah + bh); unfold dword; ring. Qed.

Lemma dword_low_sub al ah bl bh : u32 (dword al ah - dword bl bh) = u32 (al - bl).
Proof. apply wrap_eq_iff; [lia|]; exists (ah - bh); unfold dword; ring. Qed.

(** A word operation with one output and two inputs. *)
Lemma word_op_wf o co ci a x y rest :
  tcg_op_defs o = mkDef 1 2 0 false false -> o <> discard -> o <> call ->
  in_temps a -> in_temps x -> in_temps y -> live_wf (mkOp o co ci (a :: x :: y :: rest)).
Proof.
  intros D N1 N2 A X Y; assert (E : n_oargs (mkOp o co ci (a :: x :: y :: rest)) = 1%nat /\
    n_iargs (mkOp o co ci (a :: x :: y :: rest)) = 2%nat /\ n_cargs (mkOp o co ci (a :: x :: y :: rest)) = 0%nat).
  { unfold n_oargs, n_iargs, n_cargs; cbn [opc callo calli]; rewrite D; destruct o; try congruence; now splits. }
  destruct E as (E1 & E2 & E3); constructor; unfold oargs, iargs; rewrite ?E1, ?E2, ?E3; cbn [args length firstn skipn opc]; try lia.
  - apply Forall_cons; [exact A|apply Forall_nil].
  - repeat constructor; cbn; tauto.
  - repeat (apply Forall_cons; [now left|]); apply Forall_nil.
  - congruence.
  - congruence.
Qed.

(** The high word is not needed. *)
Lemma agree_low st m p a0 a1 lo hi :
  in_temps a0 -> in_temps a1 -> st a1 = TS_DEAD -> inU 32 hi ->
  agree st (wrs m [a0] [lo]) p -> agree st (wrs m [a0; a1] [lo; hi]) p.
Proof. intros A0 A1 D H A; cbn [wrs] in *; now apply agree_unneeded. Qed.

Lemma u32_range x : inU 32 (u32 x).
Proof. apply wrap_range; lia. Qed.

(** The temporaries of an operation whose arguments are spelled out. *)
Lemma args_in_temps op : live_wf op -> opc op <> call -> Forall in_temps (oargs op) /\ Forall in_temps (iargs op).
Proof.
  intros Wo N; split; [now apply lw_outs|]; eapply Forall_impl; [|exact (lw_ins op Wo)]; cbn; intros t [|[X _]]; congruence.
Qed.

Lemma addsub2_ok st1 op new st0 r :
  live_wf op -> states_ok st1 -> (opc op = add2_i32 /\ new = add_i32 \/ opc op = sub2_i32 /\ new = sub_i32) ->
  live_addsub2 s st1 new op = (st0, r) -> visited st1 st0 op r.
Proof.
  intros Wo S O; assert (N : opc op <> call /\ opc op <> discard /\ BB_END (tcg_op_defs (opc op)) = false /\
    OPF_SIDE_EFFECTS (opc op) = false) by (destruct O as [[-> _]|[-> _]]; splits; congruence || reflexivity).
  destruct N as (N1 & N2 & B & Sd); unfold live_addsub2.
  destruct (args_in_temps op Wo N1) as [Fo Fi]; pose proof (lw_length op Wo) as L.
  destruct (Z.eqb_spec (st1 (arg op 1)) TS_DEAD) as [D1|_];
    [|apply do_not_remove_ok; auto; unfold block_local; congruence].
  assert (Ho : exists a0 a1 x0 x1 x2 x3 rest, args op = a0 :: a1 :: x0 :: x1 :: x2 :: x3 :: rest /\
    oargs op = [a0; a1] /\ iargs op = [x0; x1; x2; x3]).
  { unfold oargs, iargs, n_oargs, n_iargs, n_cargs in *; destruct op as [o co ci l]; cbn [opc args] in *.
    destruct O as [[-> _]|[-> _]]; cbn [tcg_op_defs nb_oargs nb_iargs nb_cargs] in *;
      do 6 (destruct l as [|? l]; [cbn in L; lia|]); cbn [firstn skipn Nat.add]; eauto 10. }
  destruct Ho as (a0 & a1 & x0 & x1 & x2 & x3 & rest & Ea & Eo & Ei); rewrite Eo, Ei in *.
  unfold arg in *; rewrite Ea in *; cbn [nth] in *.
  inversion_clear Fo as [|? ? A0 Fo']; inversion_clear Fo' as [|? ? A1 _].
  inversion_clear Fi as [|? ? X0 Fi']; inversion_clear Fi' as [|? ? _ Fi'']; inversion_clear Fi'' as [|? ? X2 _].
  destruct (Z.eqb_spec (st1 a0) TS_DEAD) as [D0|_].
  { intros [= <- <-]; apply removed_ok; auto; [rewrite <- length_outs, Eo by assumption; discriminate|].
    rewrite Eo; cbn [all_dead forallb]; rewrite D0, D1; reflexivity. }
  cbn [upd nth]; apply narrowed_ok; auto.
  1: apply word_op_wf; auto; destruct O as [[_ ->]|[_ ->]]; reflexivity || congruence.
  1-4: destruct O as [[_ ->]|[_ ->]]; cbn; reflexivity || congruence.
  intros m p w; right; destruct op as [o co ci l]; cbn [opc args] in *; subst l.
  destruct O as [[-> ->]|[-> ->]]; (eexists; split; [reflexivity|]); (eexists; split; [reflexivity|]).
  - cbn; rewrite dword_low_add; apply (agree_low st1 m p a0 a1); auto using u32_range.
  - cbn; rewrite dword_low_sub; apply (agree_low st1 m p a0 a1); auto using u32_range.
Qed.

Lemma mul_low x y : u32 (s32 x * s32 y) = u32 (x * y).
Proof. rewrite <- wrap_mul_l, <- wrap_mul_r, !wrap_swrap, wrap_mul_l, wrap_mul_r by lia; reflexivity. Qed.

Lemma mul2_ok st1 op new2 st0 r :
  live_wf op -> states_ok st1 -> (opc op = mulu2_i32 \/ opc op = muls2_i32) ->
  live_mul2 s st1 mul_i32 new2 false op = (st0, r) -> visited st1 st0 op r.
Proof.
  intros Wo S O; assert (N : opc op <> call /\ opc op <> discard /\ BB_END (tcg_op_defs (opc op)) = false /\
    OPF_SIDE_EFFECTS (opc op) = false) by (destruct O as [-> | ->]; splits; congruence || reflexivity).
  destruct N as (N1 & N2 & B & Sd); unfold live_mul2; rewrite andb_false_r.
  destruct (args_in_temps op Wo N1) as [Fo Fi]; pose proof (lw_length op Wo) as L.
  destruct (Z.eqb_spec (st1 (arg op 1)) TS_DEAD) as [D1|_];
    [|apply do_not_remove_ok; auto; unfold block_local; congruence].
  assert (Ho : exists a0 a1 x0 x1 rest, args op = a0 :: a1 :: x0 :: x1 :: rest /\ oargs op = [a0; a1] /\ iargs op = [x0; x1]).
  { unfold oargs, iargs, n_oargs, n_iargs, n_cargs in *; destruct op as [o co ci l]; cbn [opc args] in *.
    destruct O as [-> | ->]; cbn [tcg_op_defs nb_oargs nb_iargs nb_cargs] in *;
      do 4 (destruct l as [|? l]; [cbn in L; lia|]); cbn [firstn skipn Nat.add]; eauto 10. }
  destruct Ho as (a0 & a1 & x0 & x1 & rest & Ea & Eo & Ei); rewrite Eo, Ei in *.
  unfold arg in *; rewrite Ea in *; cbn [nth] in *.
  inversion_clear Fo as [|? ? A0 Fo']; inversion_clear Fo' as [|? ? A1 _].
  inversion_clear Fi as [|? ? X0 Fi']; inversion_clear Fi' as [|? ? X1 _].
  destruct (Z.eqb_spec (st1 a0) TS_DEAD) as [D0|_].
  { intros [= <- <-]; apply removed_ok; auto; [rewrite <- length_outs, Eo by assumption; discriminate|].
    rewrite Eo; cbn [all_dead forallb]; rewrite D0, D1; reflexivity. }
  cbn [upd nth]; apply narrowed_ok; auto; try (cbn; reflexivity || congruence).
  1: apply word_op_wf; auto; reflexivity || congruence.
  intros m p w; right; destruct op as [o co ci l]; cbn [opc args] in *; subst l.
  destruct O as [-> | ->]; (eexists; split; [reflexivity|]); (eexists; split; [reflexivity|]).
  - cbn; apply (agree_low st1 m p a0 a1); auto using u32_range.
  - cbn; rewrite mul_low; apply (agree_low st1 m p a0 a1); auto using u32_range.
Qed.

(** ** Calls *)

Definition call_checked (fl : Z) (p : places) : bool :=
  if truthy (fl .& TCG_CALL_NO_READ_GLOBALS) then true
  else if truthy (fl .& TCG_CALL_NO_WRITE_GLOBALS) then synced s p else saved s p.

Definition after_helper (fl : Z) (p : places) (g : list Z) : places :=
  if truthy (fl .& (TCG_CALL_NO_WRITE_GLOBALS .| TCG_CALL_NO_READ_GLOBALS)) then p else new_globals s p g.

(** What a helper does to the globals, seen from the block and from home. *)
Definition helps (mid : temp_states) (fl : Z) (c i : list Z) : Prop :=
  forall m p w, agree mid m p -> call_checked fl p = true /\
    match helper c i (firstn (nb_globals s) m) w with
    | Some (o, g, w') =>
        exists g', helper c i (map value_of (seen s p)) w = Some (o, g', w') /\
          agree mid (g ++ skipn (nb_globals s) m) (after_helper fl p g')
    | None => helper c i (map value_of (seen s p)) w = None /\ seen s p = map Some (firstn (nb_globals s) m)
    end.

Lemma call_in_step st1 mid op l m p w :
  live_wf op -> opc op = call -> states_ok st1 -> kept st1 mid op l -> covers mid st1 (oargs op) ->
  helps mid (arg op (callo op + calli op + 1)) (cargs op) (map (rd m) (iargs op)) ->
  agree (live_args (iargs op) mid) m p -> in_step st1 op l m p w.
Proof.
  intros Wo O S K C H A; unfold in_step, eval_op, life_step; rewrite (kp_op _ _ _ _ K), O; cbn [is_pure].
  destruct (agree_inputs mid m p (iargs op) (life l) (Z.of_nat (n_oargs op)) (kp_states _ _ _ _ K) A
              (wf_ins op Wo) (kp_ins _ _ _ _ K)) as (p0 & -> & A').
  set (p1 := forget_dead _ _ _ _ _ _) in *; destruct (H m p1 w A') as [Ck H']; unfold eval_call, life_call.
  unfold call_checked in Ck; rewrite Ck; clear Ck.
  destruct (helper _ _ (firstn _ m) w) as [[[o g] w']|] eqn:E.
  - destruct H' as (g' & -> & A2); eexists; split; [reflexivity|].
    apply (agree_after st1 mid); auto.
    + rewrite length_map, length_outs by assumption; unfold n_oargs; rewrite O.
      refine (lw_call op Wo O _ _ _ _ _ _ _ E); rewrite length_map, length_ins by assumption; unfold n_iargs; now rewrite O.
    + apply Forall_map, Forall_forall; intros; apply u32_range.
  - destruct H' as [-> E2]; eexists; split; [reflexivity|exact E2].
Qed.

Lemma values_seen l : map value_of (map Some l) = l.
Proof. rewrite map_map; now apply map_id. Qed.

Lemma rd_app_low g l t : 0 <= t < Z.of_nat (length g) -> rd (g ++ l) t = rd g t.
Proof. intros T; unfold rd; apply app_nth1; lia. Qed.

Lemma rd_skip g m t : length g = nb_globals s -> length m = nb_temps s -> Z.of_nat (nb_globals s) <= t ->
  rd (g ++ skipn (nb_globals s) m) t = rd m t.
Proof.
  intros Lg Lm T; unfold rd; rewrite app_nth2, nth_skipn, Lg by lia; f_equal; lia.
Qed.

(** The globals are at home and in no register: a helper may change them. *)
Lemma agree_new_globals std m p g :
  let mid := fill std (nb_globals s) (TS_DEAD .| TS_MEM) in
  agree mid m p -> length g = nb_globals s -> Forall (inU 32) g ->
  agree mid (g ++ skipn (nb_globals s) m) (new_globals s p g).
Proof.
  intros mid [[Lm Fm] A] Lg Fg; split.
  - split; [rewrite length_app, length_skipn; lia|]; apply Forall_app; split; [exact Fg|].
    rewrite <- (firstn_skipn (nb_globals s) m) in Fm; now apply Forall_app in Fm.
  - intros t T; specialize (A t T); destruct (is_global s t) eqn:G.
    + assert (X : mid t = TS_DEAD .| TS_MEM) by (unfold mid, fill; change (t <? Z.of_nat (nb_globals s)) with (is_global s t); now rewrite G).
      rewrite X in *; apply Z.ltb_lt in G as G'; unfold TcgCopies.in_temps in T.
      apply placed_home; unfold new_globals; cbn [home cached]; auto; [destruct A as (_ & _ & C & _); now apply C|].
      rewrite G, rd_app_low by lia; reflexivity.
    + unfold placed, fetch, new_globals in *; cbn [home cached]; rewrite G, rd_skip; auto; now apply Z.ltb_ge in G.
Qed.

Lemma call_flags_arg op : live_wf op -> opc op = call ->
  exists f r, cargs op = f :: arg op (callo op + calli op + 1) :: r.
Proof.
  intros Wo O; apply (call_cargs s few_temps globals_first op O); pose proof (lw_length op Wo) as L.
  unfold n_oargs, n_iargs, n_cargs in L; now rewrite O in L.
Qed.

Lemma fill_state st t : is_global s t = true -> fill st (nb_globals s) (TS_DEAD .| TS_MEM) t = TS_DEAD .| TS_MEM.
Proof. unfold fill; change (t <? Z.of_nat (nb_globals s)) with (is_global s t); now intros ->. Qed.

(** One of two flags. *)
Lemma truthy_flags fl a b : truthy (fl .& (a .| b)) = truthy (fl .& a) || truthy (fl .& b).
Proof.
  unfold truthy; rewrite Z.land_lor_distr_r, <- negb_andb; f_equal; apply eq_true_iff_eq.
  now rewrite andb_true_iff, !Z.eqb_eq, Z.lor_eq_0_iff.
Qed.

Lemma helps_any std fl c i :
  truthy (fl .& (TCG_CALL_NO_WRITE_GLOBALS .| TCG_CALL_NO_READ_GLOBALS)) = false ->
  helps (fill std (nb_globals s) (TS_DEAD .| TS_MEM)) fl c i.
Proof.
  intros T m p w A; unfold call_checked, after_helper; rewrite T; rewrite truthy_flags in T; apply orb_false_iff in T as [-> ->].
  split; [apply (globals_saved _ m p A); intros t G; now rewrite fill_state|].
  assert (M : forall t, is_global s t = true -> mem (fill std (nb_globals s) (TS_DEAD .| TS_MEM) t) = true)
    by (intros t G; now rewrite fill_state).
  rewrite (globals_seen _ m p A M), values_seen.
  destruct (helper _ _ _ _) as [[[o g] w']|] eqn:E; [|now split].
  exists g; split; [reflexivity|]; destruct (ag_store _ _ _ A) as [Lm Fm].
  rewrite <- (firstn_skipn (nb_globals s) m) in Fm; apply Forall_app in Fm as [Fm _].
  assert (L : length (firstn (nb_globals s) m) = nb_globals s) by (rewrite length_firstn; lia).
  destruct (helper_globals _ _ _ _ _ _ _ L Fm E) as [Lg Fg]; now apply agree_new_globals.
Qed.

Lemma helps_no_write mid f fl r i :
  (forall t, is_global s t = true -> mem (mid t) = true) ->
  truthy (fl .& TCG_CALL_NO_READ_GLOBALS) = false -> truthy (fl .& TCG_CALL_NO_WRITE_GLOBALS) = true ->
  helps mid fl (f :: fl :: r) i.
Proof.
  intros M T1 T2 m p w A; unfold call_checked, after_helper; rewrite truthy_flags, T1, T2; cbn [orb].
  split; [now apply (globals_synced mid m)|]; rewrite (globals_seen _ m p A M), values_seen.
  destruct (helper _ _ _ _) as [[[o g] w']|] eqn:E; [|now split].
  rewrite (helper_no_write _ _ _ _ _ _ _ _ _ E), firstn_skipn; [eauto|]; now rewrite truthy_flags, T1, T2.
Qed.

Lemma helps_no_read mid f fl r i :
  truthy (fl .& TCG_CALL_NO_READ_GLOBALS) = true -> helps mid fl (f :: fl :: r) i.
Proof.
  intros T m p w A; unfold call_checked, after_helper; rewrite truthy_flags, T, orb_true_r; split; [reflexivity|].
  destruct (helper_no_read f fl r i w T) as (o & w' & H); destruct (ag_store _ _ _ A) as [Lm _].
  rewrite !H; [rewrite firstn_skipn; eauto| |rewrite length_firstn; lia].
  unfold seen, globals; now rewrite !length_map, length_seq.
Qed.

Lemma call_ok st1 op st0 r :
  live_wf op -> opc op = call -> states_ok st1 -> live_call s st1 op = (st0, r) -> visited st1 st0 op r.
Proof.
  intros Wo O S; destruct (call_flags_arg op Wo O) as (f & rest & Ec); unfold live_call.
  set (fl := arg op (callo op + calli op + 1)) in *; destruct (_ && _) eqn:R.
  - apply andb_true_iff in R as [R D]; intros [= <- <-]; split; [exact S|]; intros m p w A; right.
    destruct (helper_no_effects f fl rest (map (rd m) (iargs op)) (firstn (nb_globals s) m) w R) as [o E].
    unfold eval_op, eval_call; rewrite O, Ec, E; cbn [is_pure]; rewrite firstn_skipn; eexists; split; [reflexivity|].
    apply agree_unneeded_all; auto using lw_outs; apply Forall_map, Forall_forall; intros; apply u32_range.
  - set (middle := fun st : temp_states => _).
    assert (Hm : forall st, states_ok st -> states_ok (middle st)).
    { intros st Hst; subst middle; cbv beta; destruct (negb _); [now apply fill_ok|].
      destruct (negb _); auto using sync_all_ok. }
    destruct (keep_op_kept st1 middle op Wo S Hm) as (std & l & E & K & Ed); cbv zeta in E, K; rewrite E; intros [= <- <-].
    split; [now apply live_args_ok, (kp_states _ _ _ _ K)|]; intros m p w A.
    assert (Sd : states_ok std).
    { intros t; rewrite Ed; destruct (existsb _ _); [split; [unfold TS_DEAD; lia|discriminate]|apply S]. }
    apply (call_in_step st1 (middle std)); auto; rewrite ?Ec; subst middle; cbv beta;
      destruct (truthy (fl .& (TCG_CALL_NO_WRITE_GLOBALS .| TCG_CALL_NO_READ_GLOBALS))) eqn:T1; cbn [negb];
      try (destruct (truthy (fl .& TCG_CALL_NO_READ_GLOBALS)) eqn:T2; cbn [negb]);
      auto using fill_covers, sync_all_covers, outs_dead_covers, helps_any, helps_no_read.
    rewrite truthy_flags, T2, orb_false_r in T1; apply helps_no_write; auto; intros t; now apply sync_all_mem.
Qed.

(** ** The visit of an operation *)

Lemma discard_temp op : live_wf op -> opc op = discard -> in_temps (arg op 0).
Proof.
  intros Wo O; pose proof (lw_length op Wo) as L; pose proof (lw_outs op Wo) as F; unfold oargs, n_oargs, n_iargs, n_cargs, arg in *.
  rewrite O in *; cbn [tcg_op_defs nb_oargs nb_iargs nb_cargs] in *.
  destruct (args op) as [|a l]; [cbn in L; lia|]; cbn in F |- *; now inversion F.
Qed.

Lemma discard_ok st1 op :
  live_wf op -> opc op = discard -> states_ok st1 -> st1 (arg op 0) = TS_DEAD ->
  visited st1 (put st1 (arg op 0) TS_DEAD) op (Some (mkLive op 0)).
Proof.
  intros Wo O S D; split; [now apply put_dead_ok|]; intros m p w A.
  assert (Ei : iargs op = []) by (unfold iargs, n_iargs; rewrite O; reflexivity).
  assert (T := discard_temp op Wo O).
  unfold in_step, eval_op, life_step; cbn [the_op life]; rewrite O, Ei; cbn [is_pure load_all forget_dead].
  assert (A1 : agree st1 m p).
  { destruct A as [Wm A]; split; auto; intros t Ht; specialize (A t Ht); unfold put in A.
    destruct (Z.eqb_spec t (arg op 0)) as [Et|]; [rewrite Et in *; now rewrite D|exact A]. }
  eexists; split; [reflexivity|]; apply agree_unneeded; auto using u32_range.
  destruct A1 as [Wm A1]; split; auto; intros t Ht; specialize (A1 t Ht); unfold forget; rewrite (lw_discard op Wo O).
  destruct (fixed_reg (arg op 0)); [exact A1|]; destruct (Z.eq_dec t (arg op 0)) as [Et|N].
  - rewrite Et, D; apply placed_dead; cbn [cached]; now rewrite set_place_eq.
  - unfold placed, fetch in *; cbn [home cached]; now rewrite !set_place_ne.
Qed.

Lemma insn_start_ok st1 op :
  live_wf op -> opc op = insn_start -> states_ok st1 -> visited st1 st1 op (Some (mkLive op 0)).
Proof.
  intros Wo O S; split; [exact S|]; intros m p w A; unfold in_step, eval_op, life_step; cbn [the_op life].
  assert (Ei : iargs op = [] /\ oargs op = []) by (unfold iargs, oargs, n_iargs, n_oargs; rewrite O; now split).
  destruct Ei as [-> ->]; rewrite O; cbn [is_pure load_all forget_dead compute put_outs tcg_op_defs BB_END OPF_SIDE_EFFECTS]; eauto.
Qed.

(** The states after the operation leave dead what the operation kills. *)
Lemma visit_live_ok st1 op st0 r :
  live_wf op -> states_ok st1 -> block_local st1 (opc op) -> (opc op = discard -> st1 (arg op 0) = TS_DEAD) ->
  visit_live s st1 op = (st0, r) -> visited st1 st0 op r.
Proof.
  intros Wo S B D; unfold visit_live.
  assert (Hd : opc op <> call -> opc op <> discard -> live_default s st1 op = (st0, r) -> visited st1 st0 op r).
  { intros; now apply default_ok. }
  destruct (opc op) eqn:O; try (apply Hd; discriminate).
  - intros [= <- <-]; now apply discard_ok; auto.
  - now apply call_ok.
  - apply addsub2_ok; auto.
  - apply addsub2_ok; auto.
  - apply mul2_ok; auto.
  - apply mul2_ok; auto.
  - intros [= <- <-]; now apply insn_start_ok.
Qed.

(** ** Temporaries are written before they are read *)

(** Temporaries without a home are read only after they were written in the
    same basic block; [known] are those written so far. *)
Fixpoint defined_first (known : Z -> bool) (ops : list TCGOp) : bool :=
  match ops with
  | [] => true
  | op :: ops =>
      forallb (fun t => has_home s t || known t || (t =? TCG_CALL_DUMMY_ARG)) (iargs op) &&
      defined_first
        (fun t => if BB_END (tcg_op_defs (opc op)) then false
                  else match opc op with
                       | discard => negb (t =? arg op 0) && known t
                       | _ => existsb (Z.eqb t) (oargs op) || known t
                       end) ops
  end.

Lemma out_args_dead outs t : forall i st l, (In t outs \/ st t = TS_DEAD) -> fst (out_args outs i st l) t = TS_DEAD.
Proof.
  induction outs as [|u outs IH]; intros i st l H; cbn [out_args]; [destruct H as [[]|]; assumption|].
  apply IH; unfold put; destruct (Z.eqb_spec t u) as [->|N]; [now right|]; destruct H as [[]|]; auto; congruence.
Qed.

Lemma live_args_other ins t : forall st, ~ In t ins -> live_args ins st t = st t.
Proof.
  induction ins as [|u ins IH]; intros st N; cbn [live_args]; [reflexivity|].
  rewrite IH by (intros I; apply N; now right); destruct (u =? _); [reflexivity|]; apply put_ne; intros ->; apply N; now left.
Qed.

Definition keeps_dead (t : Z) (middle : temp_states -> temp_states) : Prop :=
  forall st, st t = TS_DEAD -> middle st t = TS_DEAD.

Lemma keep_op_dead st1 middle op t :
  keeps_dead t middle -> ~ In t (iargs op) -> (In t (oargs op) \/ st1 t = TS_DEAD) ->
  fst (keep_op st1 middle op) t = TS_DEAD.
Proof.
  intros K N H; unfold keep_op; pose proof (out_args_dead (oargs op) t 0 st1 0 H) as D.
  destruct (out_args _ _ _ _) as [std l]; cbn [fst] in *; rewrite live_args_other by assumption; now apply K.
Qed.

Lemma homeless_not_global t : has_home s t = false -> (t <? Z.of_nat (nb_globals s)) = false.
Proof. unfold has_home; intros H; apply orb_false_iff in H; apply H. Qed.

Lemma do_not_remove_dead st1 o op t :
  has_home s t = false -> ~ In t (iargs op) -> (In t (oargs op) \/ st1 t = TS_DEAD) ->
  fst (do_not_remove s st1 o op) t = TS_DEAD.
Proof.
  intros Hh; apply keep_op_dead; intros st E; destruct (BB_END _); [now rewrite bb_end_state, Hh|].
  destruct (OPF_SIDE_EFFECTS o); [|exact E]; unfold sync_all; now rewrite homeless_not_global.
Qed.

Lemma all_dead_in st outs t : all_dead st outs = true -> In t outs -> st t = TS_DEAD.
Proof. unfold all_dead; rewrite forallb_forall; intros H I; now apply Z.eqb_eq, H. Qed.

(** The first half of a double operation lies in its own arguments. *)
Lemma narrow_args op new l t :
  live_wf op -> (opc op = add2_i32 \/ opc op = sub2_i32 \/ opc op = mulu2_i32 \/ opc op = muls2_i32) ->
  (new = add_i32 \/ new = sub_i32 \/ new = mul_i32) ->
  l = upd (upd (args op) 1 (nth 2 (args op) 0)) 2
        (nth (match opc op with add2_i32 | sub2_i32 => 4 | _ => 3 end) (upd (args op) 1 (nth 2 (args op) 0)) 0) ->
  ~ In t (iargs op) ->
  ~ In t (iargs (with_args op new l)) /\ (In t (oargs op) -> In t (oargs (with_args op new l)) \/ t = arg op 1).
Proof.
  intros Wo O Nw -> N; pose proof (lw_length op Wo) as L; destruct op as [o co ci a]; cbn [opc args with_args callo calli] in *.
  unfold iargs, oargs, n_oargs, n_iargs, n_cargs, arg, with_args in *; cbn [opc args callo calli] in *.
  destruct O as [->|[->|[->| ->]]]; cbn [tcg_op_defs nb_oargs nb_iargs nb_cargs Nat.add] in *;
    do 4 (destruct a as [|? a]; [cbn in L; lia|]); try (do 2 (destruct a as [|? a]; [cbn in L; lia|]));
    destruct Nw as [->|[->| ->]]; cbn in *; intuition congruence.
Qed.

Lemma double_outs st op : live_wf op ->
  (opc op = add2_i32 \/ opc op = sub2_i32 \/ opc op = mulu2_i32 \/ opc op = muls2_i32) ->
  all_dead st (oargs op) = (st (arg op 0) =? TS_DEAD) && (st (arg op 1) =? TS_DEAD).
Proof.
  intros Wo O; pose proof (lw_length op Wo) as L; unfold oargs, arg, n_oargs, n_iargs, n_cargs in *.
  destruct O as [O|[O|[O|O]]]; rewrite O in *; cbn [tcg_op_defs nb_oargs nb_iargs nb_cargs] in *;
    destruct (args op) as [|? [|]]; try (cbn in L; lia); cbn; now rewrite andb_true_r.
Qed.

Lemma narrow_dead st1 op new l t :
  live_wf op -> has_home s t = false -> ~ In t (iargs op) -> (In t (oargs op) \/ st1 t = TS_DEAD) ->
  (opc op = add2_i32 \/ opc op = sub2_i32 \/ opc op = mulu2_i32 \/ opc op = muls2_i32) ->
  (new = add_i32 \/ new = sub_i32 \/ new = mul_i32) ->
  l = upd (upd (args op) 1 (nth 2 (args op) 0)) 2
        (nth (match opc op with add2_i32 | sub2_i32 => 4 | _ => 3 end) (upd (args op) 1 (nth 2 (args op) 0)) 0) ->
  st1 (arg op 1) = TS_DEAD -> fst (do_not_remove s st1 (opc op) (with_args op new l)) t = TS_DEAD.
Proof.
  intros Wo Hh N H O Nw El D; destruct (narrow_args op new l t Wo O Nw El N) as [Ni Ho].
  apply do_not_remove_dead; auto; destruct H as [X|X]; [|now right]; destruct (Ho X) as [|E]; [now left|right; now rewrite E].
Qed.

Lemma addsub2_dead st1 op new t :
  live_wf op -> has_home s t = false -> ~ In t (iargs op) -> (In t (oargs op) \/ st1 t = TS_DEAD) ->
  (opc op = add2_i32 \/ opc op = sub2_i32) -> (new = add_i32 \/ new = sub_i32) ->
  fst (live_addsub2 s st1 new op) t = TS_DEAD.
Proof.
  intros Wo Hh N H O Nw; unfold live_addsub2.
  destruct (Z.eqb_spec (st1 (arg op 1)) TS_DEAD) as [D1|]; [|now apply do_not_remove_dead].
  destruct (Z.eqb_spec (st1 (arg op 0)) TS_DEAD) as [D0|].
  - destruct H as [X|X]; [|exact X]; apply (all_dead_in st1 (oargs op)); [|exact X].
    rewrite double_outs, D0, D1 by tauto; reflexivity.
  - apply narrow_dead; auto; try tauto; destruct O as [-> | ->]; reflexivity.
Qed.

Lemma mul2_dead st1 op new2 t :
  live_wf op -> has_home s t = false -> ~ In t (iargs op) -> (In t (oargs op) \/ st1 t = TS_DEAD) ->
  (opc op = mulu2_i32 \/ opc op = muls2_i32) -> fst (live_mul2 s st1 mul_i32 new2 false op) t = TS_DEAD.
Proof.
  intros Wo Hh N H O; unfold live_mul2; rewrite andb_false_r.
  destruct (Z.eqb_spec (st1 (arg op 1)) TS_DEAD) as [D1|]; [|now apply do_not_remove_dead].
  destruct (Z.eqb_spec (st1 (arg op 0)) TS_DEAD) as [D0|].
  - destruct H as [X|X]; [|exact X]; apply (all_dead_in st1 (oargs op)); [|exact X].
    rewrite double_outs, D0, D1 by tauto; reflexivity.
  - apply narrow_dead; auto; try tauto; destruct O as [-> | ->]; reflexivity.
Qed.

Lemma visit_dead st1 op t :
  live_wf op -> has_home s t = false -> ~ In t (iargs op) -> (BB_END (tcg_op_defs (opc op)) = true \/ In t (oargs op) \/ st1 t = TS_DEAD) ->
  fst (visit_live s st1 op) t = TS_DEAD.
Proof.
  intros Wo Hh N H.
  assert (Hk : forall o, BB_END (tcg_op_defs o) = BB_END (tcg_op_defs (opc op)) -> fst (do_not_remove s st1 o op) t = TS_DEAD).
  { intros o E; destruct H as [B|H]; [|now apply do_not_remove_dead].
    unfold do_not_remove, keep_op; destruct (out_args _ _ _ _) as [std l]; cbn [fst]; rewrite live_args_other by assumption.
    now rewrite E, B, bb_end_state, Hh. }
  assert (Hr : BB_END (tcg_op_defs (opc op)) = false -> all_dead st1 (oargs op) = true -> st1 t = TS_DEAD).
  { intros B D; destruct H as [X|[X|X]]; [congruence|eapply all_dead_in; eauto|exact X]. }
  assert (Hd : fst (live_default s st1 op) t = TS_DEAD).
  { unfold live_default; destruct (_ && _) eqn:C; [|now apply Hk]; cbn [fst].
    rewrite !andb_true_iff in C; destruct C as [[_ C] D]; apply Hr; auto.
    apply negb_true_iff, Nat.eqb_neq in C; unfold n_oargs in C; destruct (opc op); cbn in *; congruence. }
  assert (Hb : BB_END (tcg_op_defs (opc op)) = false -> In t (oargs op) \/ st1 t = TS_DEAD) by (intros; destruct H; congruence || auto).
  unfold visit_live; destruct (opc op) eqn:O; auto.
  - cbn [fst]; unfold put; destruct (Z.eqb_spec t (arg op 0)) as [|X]; [reflexivity|]; destruct H as [Y|[Y|Y]]; auto; [discriminate|].
    exfalso; pose proof (lw_length op Wo) as L; unfold oargs, n_oargs, n_iargs, n_cargs, arg in *; rewrite O in *; cbn in L, Y.
    destruct (args op); cbn in *; [lia|]; destruct Y as [->|[]]; congruence.
  - unfold live_call; destruct (_ && _) eqn:C; [apply andb_true_iff in C as [_ C]; now apply Hr|].
    apply keep_op_dead; auto.
    intros st E; unfold fill, sync_all; destruct (negb _); [|destruct (negb _)]; now rewrite ?homeless_not_global.
  - apply addsub2_dead; auto.
  - apply addsub2_dead; auto.
  - apply mul2_dead; auto.
  - apply mul2_dead; auto.
  - destruct (Hb eq_refl) as [X|X]; [|exact X]; unfold oargs, n_oargs in X; rewrite O in X; destruct X.
Qed.

(** What is not yet known is dead. *)
Lemma unknown_dead ops : forall known t,
  Forall live_wf ops -> defined_first known ops = true -> in_temps t -> has_home s t = false -> known t = false ->
  fst (liveness_pass_1 s ops) t = TS_DEAD.
Proof.
  induction ops as [|op ops IH]; intros known t F D T Hh K; cbn [liveness_pass_1 defined_first] in *.
  - cbn [fst]; unfold tcg_la_func_end, is_global; now rewrite homeless_not_global.
  - inversion_clear F as [|? ? Wo F']; apply andb_true_iff in D as [D1 D2].
    assert (V : fst (visit_live s (fst (liveness_pass_1 s ops)) op) t = TS_DEAD).
    { apply visit_dead; auto.
      - intros I; rewrite forallb_forall in D1; specialize (D1 t I); rewrite Hh, K, temp_not_dummy in D1 by assumption; discriminate.
      - destruct (BB_END _) eqn:B; [now left|right]; destruct (in_dec Z.eq_dec t (oargs op)) as [I|I]; [now left|right].
        refine (IH _ t F' D2 T Hh _); rewrite not_in_existsb, K, andb_false_r by assumption; now destruct (opc op). }
    destruct (liveness_pass_1 s ops) as [st out]; cbn [fst] in V.
    destruct (visit_live s st op) as [st' [l|]]; exact V.
Qed.

Definition nothing_known : Z -> bool := fun _ => false.

(** ** Blocks *)

(** The pass over [ops] gives states and operations that run in step. *)
Record passed (ops : list TCGOp) : Prop := {
  pa_states : states_ok (fst (liveness_pass_1 s ops));
  pa_head : match ops with
            | [] => True
            | op :: ops => visited (fst (liveness_pass_1 s ops)) (fst (liveness_pass_1 s (op :: ops))) op
                             (snd (visit_live s (fst (liveness_pass_1 s ops)) op))
            end
}.

Lemma pass_ok ops : forall known, Forall live_wf ops -> defined_first known ops = true -> passed ops.
Proof.
  induction ops as [|op ops IH]; intros known F D; [split; [apply func_end_ok|exact I]|].
  inversion_clear F as [|? ? Wo F']; pose proof D as D0; cbn [defined_first] in D; apply andb_true_iff in D as [_ D].
  destruct (IH _ F' D) as [S _]; pose proof (fun t => unknown_dead ops _ t F' D) as U.
  set (st1 := fst (liveness_pass_1 s ops)) in *; destruct (visit_live s st1 op) as [st0 r] eqn:V.
  assert (Vo : visited st1 st0 op r).
  { apply (visit_live_ok st1 op); auto.
    - intros B t T Hh; apply U; auto; now rewrite B.
    - intros O; assert (T := discard_temp op Wo O); apply U; auto; [now apply (lw_discard op Wo)|]; rewrite O, Z.eqb_refl; reflexivity. }
  assert (E : fst (liveness_pass_1 s (op :: ops)) = st0).
  { cbn [liveness_pass_1]; subst st1; destruct (liveness_pass_1 s ops) as [st out]; cbn [fst] in V; rewrite V; now destruct r. }
  split; rewrite E; [apply Vo|]; fold st1; rewrite V; exact Vo.
Qed.

Lemma pass_cons op ops :
  snd (liveness_pass_1 s (op :: ops)) =
  match snd (visit_live s (fst (liveness_pass_1 s ops)) op) with
  | Some l => l :: snd (liveness_pass_1 s ops)
  | None => snd (liveness_pass_1 s ops)
  end.
Proof.
  cbn [liveness_pass_1]; destruct (liveness_pass_1 s ops) as [st out]; cbn [fst snd].
  now destruct (visit_live s st op) as [st' [l|]].
Qed.

Lemma keep_the_op st middle op l : snd (keep_op st middle op) = Some l -> the_op l = op.
Proof. unfold keep_op; destruct (out_args _ _ _ _); cbn [snd]; now intros [= <-]. Qed.

(** Labels stay, and nothing else becomes one. *)
Lemma visit_keeps_label st op lab :
  match snd (visit_live s st op) with Some l => is_label lab (the_op l) | None => false end = is_label lab op.
Proof.
  assert (K : forall middle op', match snd (keep_op st middle op') with Some l => is_label lab (the_op l) | None => false end =
    is_label lab op') by (intros; unfold keep_op; destruct (out_args _ _ _ _); reflexivity).
  unfold visit_live, live_call, live_addsub2, live_mul2, live_default, do_not_remove, is_label, n_oargs.
  destruct (opc op) eqn:O; cbn [tcg_op_defs nb_oargs OPF_SIDE_EFFECTS negb andb Nat.eqb];
    repeat match goal with |- context [if ?b then (st, None) else _] => destruct b; [reflexivity|] end;
    try match goal with |- context [if st _ =? TS_DEAD then _ else _] => destruct (st (arg op 1) =? TS_DEAD) end;
    repeat match goal with |- context [if ?b then (st, None) else _] => destruct b; [reflexivity|] end;
    rewrite ?andb_false_r; cbn [snd the_op]; rewrite ?O; try reflexivity.
  all: etransitivity; [apply K|unfold is_label, with_args; cbn [opc]; rewrite ?O; reflexivity].
Qed.

Lemma pass_after_label lab ops ops' : forall known,
  Forall live_wf ops -> defined_first known ops = true -> after_label lab ops = Some ops' ->
  life_after_label lab (snd (liveness_pass_1 s ops)) = Some (snd (liveness_pass_1 s ops')) /\
  Forall live_wf ops' /\ defined_first nothing_known ops' = true.
Proof.
  induction ops as [|op ops IH]; intros known F D; [discriminate|]; cbn [after_label defined_first] in *.
  inversion_clear F as [|? ? _ F']; apply andb_true_iff in D as [_ D]; rewrite pass_cons.
  pose proof (visit_keeps_label (fst (liveness_pass_1 s ops)) op lab) as V; destruct (is_label lab op) eqn:E.
  - intros [= <-]; destruct (snd (visit_live _ _ _)) as [l|]; [|discriminate]; cbn [life_after_label]; rewrite V.
    splits; auto; unfold is_label in E; destruct (opc op) eqn:O; try discriminate E; exact D.
  - intros A; destruct (snd (visit_live _ _ _)) as [l|]; cbn [life_after_label]; rewrite ?V; eauto.
Qed.

(** The same end, the same world and the same globals. *)
Definition same_behaviour (b : behaviour (W := W)) (l : life_behaviour (W := W)) : Prop :=
  match b, l with
  | Went_wrong, _ => True
  | Left_block why m w, LLeft_block why' p w' =>
      why' = why /\ w' = w /\ seen s p = map Some (firstn (nb_globals s) m)
  | Fell_off m w, LFell_off p w' => w' = w /\ seen s p = map Some (firstn (nb_globals s) m)
  | Out_of_jumps, LOut_of_jumps => True
  | _, _ => False
  end.

Lemma life_run_cons jumps prog l ops p w :
  life_run s fixed_reg jumps prog (l :: ops) p w =
  match life_step s fixed_reg l p w with
  | LNext p w => life_run s fixed_reg jumps prog ops p w
  | LLeave why p w => LLeft_block why p w
  | LUndefined => LWent_wrong
  | LJump label p w =>
      match jumps with
      | O => LOut_of_jumps
      | S jumps =>
          match life_after_label label prog with
          | Some ops => life_run s fixed_reg jumps prog ops p w
          | None => LWent_wrong
          end
      end
  end.
Proof. destruct jumps; reflexivity. Qed.

Lemma agree_bb_end ops m p :
  Forall live_wf ops -> defined_first nothing_known ops = true -> agree (tcg_la_bb_end s) m p ->
  agree (fst (liveness_pass_1 s ops)) m p.
Proof.
  intros F D [Wm A]; split; auto; intros t T; apply (bb_end_covers _ []); auto.
  intros u U Hh; now apply (unknown_dead ops nothing_known).
Qed.

Lemma pass_run jumps : forall prog ops known m p w,
  Forall live_wf prog -> defined_first nothing_known prog = true -> Forall live_wf ops -> defined_first known ops = true ->
  agree (fst (liveness_pass_1 s ops)) m p ->
  same_behaviour (run jumps prog ops m w)
    (life_run s fixed_reg jumps (snd (liveness_pass_1 s prog)) (snd (liveness_pass_1 s ops)) p w).
Proof.
  induction jumps as [jumps IHj] using (well_founded_induction lt_wf).
  intros prog ops; induction ops as [|op ops IH]; intros known m p w Fp Dp F D A.
  - rewrite run_nil; destruct jumps; (split; [reflexivity|]); apply (globals_seen _ _ _ A);
      intros t G; cbn; unfold tcg_la_func_end; now rewrite G.
  - pose proof (pass_ok _ _ F D) as [_ V]; inversion_clear F as [|? ? _ F']; cbn [defined_first] in D.
    apply andb_true_iff in D as [_ D]; rewrite run_cons, pass_cons; destruct V as [_ V]; specialize (V m p w A).
    destruct (snd (visit_live _ _ _)) as [l|].
    + rewrite life_run_cons; unfold in_step in V; destruct (eval_op op m w) as [m' w'|lab m' w'|why m' w'|]; cbn [continue].
      * destruct V as (p' & -> & A'); eauto.
      * destruct V as (-> & p' & -> & A'); destruct jumps as [|jumps]; [exact I|].
        destruct (after_label lab prog) as [ops'|] eqn:E; [|exact I].
        destruct (pass_after_label lab prog ops' _ Fp Dp E) as (-> & F2 & D2).
        apply (IHj jumps ltac:(lia) prog ops' nothing_known); auto using agree_bb_end.
      * destruct V as (p' & -> & E); now splits.
      * exact I.
    + destruct V as [-> |(m' & -> & A')]; cbn [continue]; [exact I|eauto].
Qed.

(** Every temporary is at home, as [tcg_reg_alloc_start] finds them. *)
Definition at_home (m : store) (p : places) : Prop :=
  (forall t, in_temps t -> has_home s t = true -> home p t = Some (rd m t)) /\ (forall t, cached p t = None).

Lemma pass_simulates ops jumps m p w :
  Forall live_wf ops -> defined_first nothing_known ops = true -> wf_store m -> at_home m p ->
  let out := snd (liveness_pass_1 s ops) in
  same_behaviour (run jumps ops ops m w) (life_run s fixed_reg jumps out out p w).
Proof.
  intros F D Wm [Hh Hc] out; apply (pass_run jumps ops ops nothing_known); auto.
  apply agree_bb_end; auto; split; [exact Wm|]; intros t T; rewrite bb_end_state; destruct (has_home s t) eqn:X.
  - apply placed_home; auto.
  - now apply placed_dead.
Qed.

End Simulation.
