(* ===== verification/TcgLiveness.v ===== *)
(** * The liveness pass on a block *)

From Stdlib Require Import ZArith Lia List Bool.
From S2P Require Import Prelude Bitops TcgIr TcgOpt TcgCopies TcgOptProof TcgOptimizer TcgLife TcgLifeProof.
Import ListNotations.
Local Open Scope Z_scope.
Local Open Scope c_scope.

(** ** An example *)

#[export, program] Instance word_flags : HelperFlags Z 2 word_host.
Next Obligation. cbn; eauto. Qed.
Next Obligation. cbn; eauto. Qed.

(** The high word of the sum and the second [movi] are not needed. *)
Definition live_block : list TCGOp :=
  [ mkOp movi_i32 0 0 [2; 12]; mkOp add2_i32 0 0 [4; 3; 0; 1; 2; 2]; mkOp mov_i32 0 0 [1; 4];
    mkOp movi_i32 0 0 [2; 7]; mkOp brcond_i32 0 0 [1; 4; 8; 7]; mkOp st_i32 0 0 [1; 0; 4]; mkOp set_label 0 0 [7];
    mkOp call 1 1 [0; 5; 99; 0; 0]; mkOp exit_tb 0 0 [0] ].

Example live_block_pass :
  map (fun l => (opc (the_op l), args (the_op l), life l)) (snd (liveness_pass_1 small_context live_block)) =
  [ (movi_i32, [2; 12], 0); (add_i32, [4; 0; 2; 1; 2; 2], 24); (mov_i32, [1; 4], 1);
    (brcond_i32, [1; 4; 8; 7], 12); (st_i32, [1; 0; 4], 12); (set_label, [7], 0);
    (call, [0; 5; 99; 0; 0], 13); (exit_tb, [0], 0) ].
Proof. vm_compute. reflexivity. Qed.

Lemma live_block_wf : Forall (live_wf small_context) live_block.
Proof.
  repeat (apply Forall_cons; [|]); try apply Forall_nil; split;
    cbn; try lia; try discriminate; try (repeat (apply Forall_cons; [|]); try apply Forall_nil);
    unfold in_temps; cbn; try lia; try (left; lia);
    try (repeat constructor; cbn; intuition lia).
  intros _ i g w o g' w' L [= <- <- <-]; now rewrite length_map.
Qed.

(** ** The theorem *)

(** C12: for every block of well-formed operations whose temporaries are written before
    they are read in each basic block, what liveness_pass_1 leaves of it, run on a
    machine that keeps temporaries in registers and drops or stores them only where the
    life data says so, takes the same branches, ends the same way and leaves the same
    world and the same globals in memory, unless the block goes wrong (a division that
    is undefined, a shift or rotation by 32 or more); no value is read after it was
    dropped, and the assertions of the register allocator (globals synced or saved
    before calls and side effects, nothing in registers at the end of a basic block) all
    hold. *)
Theorem liveness_pass_1_correct (s : TCGContext) (W : Type) (host : TcgHost W (nb_globals s))
    (flags : HelperFlags W (nb_globals s) host) (fixed_reg : Z -> bool) (ops : list TCGOp) :
  (nb_temps s <= TCG_MAX_TEMPS)%nat -> (nb_globals s <= nb_temps s)%nat ->
  (forall t, fixed_reg t = true -> is_global s t = true) ->
  Forall (live_wf s) ops -> defined_first s nothing_known ops = true ->
  let out := snd (liveness_pass_1 s ops) in
  forall jumps m p w, wf_store s m -> at_home s m p ->
    same_behaviour s (run jumps ops ops m w) (life_run s fixed_reg jumps out out p w).
Proof. intros Ht Hg Fg F D out jumps m p w; now apply pass_simulates. Qed.

Lemma liveness_pass_1_correct_witness :
  same_behaviour small_context (run 3 live_block live_block [4096; 2; 3; 4; 5; 6] 7)
    (life_run small_context (fun t => t =? 0) 3 (snd (liveness_pass_1 small_context live_block))
       (snd (liveness_pass_1 small_context live_block))
       (mkPlaces (fun t => Some (rd [4096; 2; 3; 4; 5; 6] t)) (fun _ => None)) 7).
Proof.
  apply (liveness_pass_1_correct small_context Z word_host word_flags (fun t => t =? 0) live_block);
    [vm_compute; lia|vm_compute; lia| |exact live_block_wf|vm_compute; reflexivity| |split; reflexivity].
  - intros t E; apply Z.eqb_eq in E as ->; reflexivity.
  - split; [reflexivity|]; repeat (apply Forall_cons; [vm_compute; split; congruence|]); apply Forall_nil.
Defined.
