(* ===== verification/TcgRegAlloc.v ===== *)
(** * Register allocation (tcg/tcg.c)

    The operations of a block, with the life data of [liveness_pass_1], become
    host instructions on registers and memory.  Each temporary is in a
    register, in memory, a known constant or dead; [reg_to_temp] is the
    inverse for the registers.  What the host offers is the class
    [TcgTarget].  [None] is [tcg_abort] or a failed [tcg_debug_assert]. *)

From Stdlib Require Import ZArith Lia List Bool.
From S2P Require Import Prelude Bitops TcgIr TcgOpt TcgLife.
Import ListNotations.
Local Open Scope Z_scope.
Local Open Scope c_scope.

Inductive TCGTempVal := TEMP_VAL_DEAD | TEMP_VAL_REG | TEMP_VAL_MEM | TEMP_VAL_CONST.

(** [mem_base] is the number of the temporary that holds the address. *)
Record TCGTemp := mkTemp {
  reg : Z;
  val_type : TCGTempVal;
  fixed_reg : bool;
  indirect_base : bool;
  mem_coherent : bool;
  mem_allocated : bool;
  val : Z;
  mem_base : Z;
  mem_offset : Z
}.

Definition TCG_CT_ALIAS : Z := 0x80.
Definition TCG_CT_IALIAS : Z := 0x40.
Definition TCG_CT_REG : Z := 0x01.
Definition TCG_CT_CONST : Z := 0x02.
Definition TCG_STATIC_CALL_ARGS_SIZE : Z := 128.
Definition TCG_TARGET_NB_REGS : nat := 16.
Definition TCG_TARGET_STACK_ALIGN : Z := 8.
Definition TCG_TARGET_CALL_STACK_OFFSET : Z := 0.
Definition TCG_REG_CALL_STACK : Z := 13.

Record TCGArgConstraint := mkCt { ct : Z; alias_index : nat; ct_regs : Z }.

(** The tables of the back end. *)
Class TcgTarget := {
  tcg_target_reg_alloc_order : bool -> list Z;
  tcg_target_call_iarg_regs : list Z;
  tcg_target_call_oarg_regs : list Z;
  tcg_target_call_clobber_regs : Z;
  tcg_target_available_regs : Z;
  args_ct : TCGOpcode -> nat -> TCGArgConstraint;
  sorted_args : TCGOpcode -> list nat;
  tcg_target_const_match : Z -> TCGArgConstraint -> bool
}.

(** [def->flags & TCG_OPF_CALL_CLOBBER] *)
Definition OPF_CALL_CLOBBER (opc : TCGOpcode) : bool :=
  match opc with call | qemu_ld_i32 | qemu_st_i32 | qemu_ld_i64 | qemu_st_i64 => true | _ => false end.

(** [def->flags & TCG_OPF_NOT_PRESENT], with what tcg/arm/tcg-target.h has. *)
Definition OPF_NOT_PRESENT (opc : TCGOpcode) : bool :=
  match opc with
  | discard | set_label | call | mov_i32 | movi_i32 | insn_start
  | rem_i32 | remu_i32 | div2_i32 | divu2_i32 | ext8u_i32
  | orc_i32 | eqv_i32 | nand_i32 | nor_i32 | muluh_i32 | mulsh_i32 => true
  | _ => false
  end.

(** Instructions of the host, as [tcg_out_*] emits them; [Iop] is [tcg_out_op],
    [Icall] carries the constants of the call and tells padding from arguments. *)
Inductive hinsn :=
| Imov (ret arg : Z)
| Imovi (ret v : Z)
| Ild (ret base off : Z)
| Ist (arg base off : Z)
| Iop (opc : TCGOpcode) (new_args : list Z) (const_args : list bool)
| Icall (consts : list Z) (padding : list bool)
| Ilabel (label : Z).

Record ra_state := mkRa { temp : Z -> TCGTemp; reg_to_temp : Z -> option Z; current_frame_offset : Z }.

(** What of [TCGContext] does not change. *)
Record ra_config := mkRaConfig { reserved_regs : Z; frame_temp : Z; frame_start : Z; frame_end : Z }.

(** ** State and emitted code *)

Definition M (A : Type) : Type := ra_state -> option (ra_state * list hinsn * A).

Definition ret {A} (a : A) : M A := fun r => Some (r, [], a).
Definition abort {A} : M A := fun _ => None.
Definition bind {A B} (m : M A) (k : A -> M B) : M B :=
  fun r => match m r with
           | Some (r, c, a) => match k a r with Some (r, c', b) => Some (r, c ++ c', b) | None => None end
           | None => None
           end.
Definition emit (i : hinsn) : M unit := fun r => Some (r, [i], tt).
Definition get : M ra_state := fun r => Some (r, [], r).
Definition modify (f : ra_state -> ra_state) : M unit := fun r => Some (f r, [], tt).
Definition tcg_debug_assert (b : bool) : M unit := if b then ret tt else abort.

Declare Scope ra_scope.
Delimit Scope ra_scope with ra.
Notation "x <- m ;; k" := (bind m (fun x => k)) (at level 61, m at next level, right associativity) : ra_scope.
Notation "m ;;; k" := (bind m (fun _ => k)) (at level 61, right associativity) : ra_scope.
Local Open Scope ra_scope.

Fixpoint for_each {A} (f : A -> M unit) (l : list A) : M unit :=
  match l with [] => ret tt | x :: l => f x ;;; for_each f l end.

Fixpoint fold_each {A B} (f : B -> A -> M B) (l : list A) (b : B) : M B :=
  match l with [] => ret b | x :: l => b <- f b x ;; fold_each f l b end.

Definition get_temp (t : Z) : M TCGTemp := r <- get ;; ret (temp r t).

Definition set_temp_at (t : Z) (f : TCGTemp -> TCGTemp) (r : ra_state) : ra_state :=
  mkRa (fun u => if u =? t then f (temp r u) else temp r u) (reg_to_temp r) (current_frame_offset r).
Definition on_temp (t : Z) (f : TCGTemp -> TCGTemp) : M unit := modify (set_temp_at t f).

Definition set_reg_to (x : Z) (o : option Z) (r : ra_state) : ra_state :=
  mkRa (temp r) (fun y => if y =? x then o else reg_to_temp r y) (current_frame_offset r).
Definition set_reg_to_temp (x : Z) (o : option Z) : M unit := modify (set_reg_to x o).

Definition set_val_type (v : TCGTempVal) (ts : TCGTemp) : TCGTemp :=
  mkTemp (reg ts) v (fixed_reg ts) (indirect_base ts) (mem_coherent ts) (mem_allocated ts) (val ts) (mem_base ts) (mem_offset ts).
Definition set_coherent (b : bool) (ts : TCGTemp) : TCGTemp :=
  mkTemp (reg ts) (val_type ts) (fixed_reg ts) (indirect_base ts) b (mem_allocated ts) (val ts) (mem_base ts) (mem_offset ts).
Definition set_reg (x : Z) (ts : TCGTemp) : TCGTemp :=
  mkTemp x (val_type ts) (fixed_reg ts) (indirect_base ts) (mem_coherent ts) (mem_allocated ts) (val ts) (mem_base ts) (mem_offset ts).
Definition set_known (v : Z) (ts : TCGTemp) : TCGTemp :=
  mkTemp (reg ts) (val_type ts) (fixed_reg ts) (indirect_base ts) (mem_coherent ts) (mem_allocated ts) v (mem_base ts) (mem_offset ts).
Definition set_frame (base off : Z) (ts : TCGTemp) : TCGTemp :=
  mkTemp (reg ts) (val_type ts) (fixed_reg ts) (indirect_base ts) (mem_coherent ts) true (val ts) base off.

Definition is_val (v : TCGTempVal) (ts : TCGTemp) : bool :=
  match val_type ts, v with
  | TEMP_VAL_DEAD, TEMP_VAL_DEAD | TEMP_VAL_REG, TEMP_VAL_REG
  | TEMP_VAL_MEM, TEMP_VAL_MEM | TEMP_VAL_CONST, TEMP_VAL_CONST => true
  | _, _ => false
  end.

(** [tcg_regset_test_reg], [tcg_regset_set_reg] *)
Definition test_reg (set x : Z) : bool := Z.testbit set x.
Definition add_reg (set x : Z) : Z := set .| (1 .<< x).

Section Alloc.
Variable s : TCGContext.
Variable cfg : ra_config.
Context {target : TcgTarget}.

(** ** Places of temporaries *)

Definition temp_allocate_frame (t : Z) : M unit :=
  r <- get ;;
  let off := (current_frame_offset r + 4 - 1) .& Z.lnot (4 - 1) in
  if frame_end cfg <? off + 4 then abort
  else
    on_temp t (set_frame (frame_temp cfg) off) ;;;
    modify (fun r => mkRa (temp r) (reg_to_temp r) (off + 4)).

Definition temp_free_or_dead (t free_or_dead : Z) : M unit :=
  ts <- get_temp t ;;
  if fixed_reg ts then ret tt
  else
    (if is_val TEMP_VAL_REG ts then set_reg_to_temp (reg ts) None else ret tt) ;;;
    on_temp t (set_val_type (if (free_or_dead <? 0) || temp_local s t || is_global s t then TEMP_VAL_MEM else TEMP_VAL_DEAD)).

Definition temp_dead (t : Z) : M unit := temp_free_or_dead t 1.

(** [tcg_out_st] to the place of the temporary. *)
Definition store_temp (x t : Z) : M unit :=
  ts <- get_temp t ;; base <- get_temp (mem_base ts) ;; emit (Ist x (reg base) (mem_offset ts)).

(** [tcg_out_sti] of the ARM back end: constants cannot be stored directly. *)
Definition tcg_out_sti : bool := false.

(** [temp_sync] and [temp_load] need registers, and to get one a temporary may
    have to be stored: the functions call each other.  [sync] stands for
    [temp_sync]. *)
Section Open.
Variable sync : Z -> Z -> Z -> M unit.

Definition tcg_reg_free (x allocated_regs : Z) : M unit :=
  r <- get ;;
  match reg_to_temp r x with
  | Some t => sync t allocated_regs (-1)
  | None => ret tt
  end.

Definition tcg_reg_alloc (desired_regs allocated_regs : Z) (rev : bool) : M Z :=
  let reg_ct := desired_regs .& Z.lnot allocated_regs in
  let order := tcg_target_reg_alloc_order rev in
  r <- get ;;
  match find (fun x => test_reg reg_ct x && negb (is_some (reg_to_temp r x))) order with
  | Some x => ret x
  | None =>
      match find (test_reg reg_ct) order with
      | Some x => tcg_reg_free x allocated_regs ;;; ret x
      | None => abort
      end
  end.

Definition temp_load (t desired_regs allocated_regs : Z) : M unit :=
  let finish (x : Z) : M unit :=
    on_temp t (fun ts => set_val_type TEMP_VAL_REG (set_reg x ts)) ;;; set_reg_to_temp x (Some t) in
  ts <- get_temp t ;;
  match val_type ts with
  | TEMP_VAL_REG => ret tt
  | TEMP_VAL_CONST =>
      x <- tcg_reg_alloc desired_regs allocated_regs (indirect_base ts) ;;
      emit (Imovi x (val ts)) ;;; on_temp t (set_coherent false) ;;; finish x
  | TEMP_VAL_MEM =>
      x <- tcg_reg_alloc desired_regs allocated_regs (indirect_base ts) ;;
      base <- get_temp (mem_base ts) ;;
      emit (Ild x (reg base) (mem_offset ts)) ;;; on_temp t (set_coherent true) ;;; finish x
  | TEMP_VAL_DEAD => abort
  end.

End Open.

(** A temporary that is stored to free its register is in a register, so that
    two rounds are enough. *)
Fixpoint temp_sync_fuel (fuel : nat) (t allocated_regs free_or_dead : Z) : M unit :=
  match fuel with
  | O => abort
  | S fuel =>
      ts <- get_temp t ;;
      if fixed_reg ts then ret tt
      else
        (if mem_coherent ts then ret tt
         else
           (if mem_allocated ts then ret tt else temp_allocate_frame t) ;;;
           match val_type ts with
           | TEMP_VAL_CONST =>
               if truthy free_or_dead && tcg_out_sti then ret tt
               else
                 temp_load (temp_sync_fuel fuel) t tcg_target_available_regs allocated_regs ;;;
                 ts <- get_temp t ;; store_temp (reg ts) t
           | TEMP_VAL_REG => store_temp (reg ts) t
           | TEMP_VAL_MEM => ret tt
           | TEMP_VAL_DEAD => abort
           end ;;;
           on_temp t (set_coherent true)) ;;;
        (if truthy free_or_dead then temp_free_or_dead t free_or_dead else ret tt)
  end.

Definition temp_sync : Z -> Z -> Z -> M unit := temp_sync_fuel 2.

Definition temp_save (t : Z) : M unit :=
  ts <- get_temp t ;; tcg_debug_assert (is_val TEMP_VAL_MEM ts || fixed_reg ts).

Definition save_globals : M unit := for_each temp_save (globals s).

Definition sync_globals : M unit :=
  for_each (fun t => ts <- get_temp t ;;
    tcg_debug_assert (negb (is_val TEMP_VAL_REG ts) || fixed_reg ts || mem_coherent ts)) (globals s).

Definition locals_and_temps : list Z := map Z.of_nat (seq (nb_globals s) (nb_temps s - nb_globals s)).

Definition tcg_reg_alloc_bb_end : M unit :=
  for_each (fun t => if temp_local s t then temp_save t
                     else ts <- get_temp t ;; tcg_debug_assert (is_val TEMP_VAL_DEAD ts)) locals_and_temps ;;;
  save_globals.

(** ** Moves *)

(** The end of an output: stored, released, or both. *)
Definition finish_out (t arg_life i allocated_regs : Z) : M unit :=
  if NEED_SYNC_ARG arg_life i then temp_sync t allocated_regs (b2z (IS_DEAD_ARG arg_life i))
  else if IS_DEAD_ARG arg_life i then temp_dead t else ret tt.

(** [if (ots->val_type == TEMP_VAL_REG) s->reg_to_temp[ots->reg] = NULL;] *)
Definition leave_reg (t : Z) : M unit :=
  ts <- get_temp t ;; if is_val TEMP_VAL_REG ts then set_reg_to_temp (reg ts) None else ret tt.

Definition tcg_reg_alloc_movi (args : list Z) (arg_life : Z) : M unit :=
  let o := nth 0 args 0 in
  let v := nth 1 args 0 in
  ots <- get_temp o ;;
  if fixed_reg ots then emit (Imovi (reg ots) v)
  else
    leave_reg o ;;;
    on_temp o (fun ts => set_coherent false (set_known v (set_val_type TEMP_VAL_CONST ts))) ;;;
    finish_out o arg_life 0 (reserved_regs cfg).

Definition tcg_reg_alloc_mov (args : list Z) (arg_life : Z) : M unit :=
  let allocated_regs := reserved_regs cfg in
  let o := nth 0 args 0 in
  let i := nth 1 args 0 in
  ots <- get_temp o ;;
  ts <- get_temp i ;;
  (if (NEED_SYNC_ARG arg_life 0 || fixed_reg ots) && negb (is_val TEMP_VAL_REG ts) || is_val TEMP_VAL_MEM ts
   then temp_load temp_sync i tcg_target_available_regs allocated_regs else ret tt) ;;;
  ts <- get_temp i ;;
  if IS_DEAD_ARG arg_life 0 && negb (fixed_reg ots) then
    tcg_debug_assert (NEED_SYNC_ARG arg_life 0) ;;;
    tcg_debug_assert (is_val TEMP_VAL_REG ts) ;;;
    ots <- get_temp o ;;
    (if mem_allocated ots then ret tt else temp_allocate_frame o) ;;;
    store_temp (reg ts) o ;;;
    (if IS_DEAD_ARG arg_life 1 then temp_dead i else ret tt) ;;;
    temp_dead o
  else if is_val TEMP_VAL_CONST ts then
    leave_reg o ;;;
    on_temp o (fun t => set_known (val ts) (set_val_type TEMP_VAL_CONST t)) ;;;
    (if IS_DEAD_ARG arg_life 1 then temp_dead i else ret tt)
  else
    tcg_debug_assert (is_val TEMP_VAL_REG ts) ;;;
    allocated_regs <-
      (if IS_DEAD_ARG arg_life 1 && negb (fixed_reg ts) && negb (fixed_reg ots) then
         leave_reg o ;;; on_temp o (set_reg (reg ts)) ;;; temp_dead i ;;; ret allocated_regs
       else
         ots <- get_temp o ;;
         allocated_regs <-
           (if is_val TEMP_VAL_REG ots then ret allocated_regs
            else
              let allocated_regs := add_reg allocated_regs (reg ts) in
              x <- tcg_reg_alloc temp_sync tcg_target_available_regs allocated_regs (indirect_base ots) ;;
              on_temp o (set_reg x) ;;; ret allocated_regs) ;;
         ots <- get_temp o ;;
         emit (Imov (reg ots) (reg ts)) ;;; ret allocated_regs) ;;
    ots <- get_temp o ;;
    on_temp o (fun t => set_coherent false (set_val_type TEMP_VAL_REG t)) ;;;
    set_reg_to_temp (reg ots) (Some o) ;;;
    (if NEED_SYNC_ARG arg_life 0 then temp_sync o allocated_regs 0 else ret tt).

(** ** Operations *)

(** What the loop over the inputs has settled; [done] are the inputs it passed. *)
Record in_state := mkIn { allocated : Z; new_args : list Z; const_args : list bool; done : list nat }.

Definition is_ialias (c : TCGArgConstraint) : bool := truthy (ct c .& TCG_CT_IALIAS).
Definition is_alias (c : TCGArgConstraint) : bool := truthy (ct c .& TCG_CT_ALIAS).

Definition alloc_iarg (opc : TCGOpcode) (args : list Z) (arg_life : Z) (st : in_state) (i : nat) : M in_state :=
  let arg := nth i args 0 in
  let arg_ct := args_ct opc i in
  ts <- get_temp arg ;;
  if is_val TEMP_VAL_CONST ts && tcg_target_const_match (val ts) arg_ct then
    ret (mkIn (allocated st) (upd (new_args st) i (val ts)) (upd (const_args st) i true) (done st ++ [i]))
  else
    temp_load temp_sync arg (ct_regs arg_ct) (allocated st) ;;;
    ts <- get_temp arg ;;
    let allocate_in_reg :=
      if is_ialias arg_ct then
        if fixed_reg ts then negb (arg =? nth (alias_index arg_ct) args 0)
        else negb (IS_DEAD_ARG arg_life (Z.of_nat i))
             || existsb (fun i2 => is_ialias (args_ct opc i2) && (nth i2 (new_args st) 0 =? reg ts)) (done st)
      else false in
    x <- (if negb allocate_in_reg && test_reg (ct_regs arg_ct) (reg ts) then ret (reg ts)
          else
            x <- tcg_reg_alloc temp_sync (ct_regs arg_ct) (allocated st) (indirect_base ts) ;;
            emit (Imov x (reg ts)) ;;; ret x) ;;
    ret (mkIn (add_reg (allocated st) x) (upd (new_args st) i x) (upd (const_args st) i false) (done st ++ [i])).

(** [allocated_regs] and [new_args] of the loop over the outputs. *)
Definition alloc_oarg (opc : TCGOpcode) (args : list Z) (st : Z * list Z) (i : nat) : M (Z * list Z) :=
  let (allocated_regs, new_args) := st in
  let arg := nth i args 0 in
  let arg_ct := args_ct opc i in
  ts <- get_temp arg ;;
  if negb (is_alias arg_ct) && fixed_reg ts && test_reg (ct_regs arg_ct) (reg ts) then
    ret (allocated_regs, upd new_args i (reg ts))
  else
    x <- (if is_alias arg_ct then ret (nth (alias_index arg_ct) new_args 0)
          else tcg_reg_alloc temp_sync (ct_regs arg_ct) allocated_regs (indirect_base ts)) ;;
    (if fixed_reg ts then ret tt
     else
       leave_reg arg ;;;
       on_temp arg (fun ts => set_coherent false (set_reg x (set_val_type TEMP_VAL_REG ts))) ;;;
       set_reg_to_temp x (Some arg)) ;;;
    ret (add_reg allocated_regs x, upd new_args i x).

Definition all_regs : list Z := map Z.of_nat (seq 0 TCG_TARGET_NB_REGS).

Definition free_clobbered (allocated_regs : Z) : M unit :=
  for_each (fun x => if test_reg tcg_target_call_clobber_regs x then tcg_reg_free temp_sync x allocated_regs else ret tt) all_regs.

(** The inputs that die, from number [i] on. *)
Fixpoint free_dead (arg_life i : Z) (ins : list Z) : M unit :=
  match ins with
  | [] => ret tt
  | t :: ins => (if IS_DEAD_ARG arg_life i then temp_dead t else ret tt) ;;; free_dead arg_life (i + 1) ins
  end.

(** The moves after the operation. *)
Fixpoint finish_oargs (arg_life i allocated_regs : Z) (outs new_args : list Z) : M unit :=
  match outs, new_args with
  | t :: outs, x :: new_args =>
      ts <- get_temp t ;;
      (if fixed_reg ts && negb (reg ts =? x) then emit (Imov (reg ts) x) else ret tt) ;;;
      finish_out t arg_life i allocated_regs ;;;
      finish_oargs arg_life (i + 1) allocated_regs outs new_args
  | _, _ => ret tt
  end.

Definition tcg_reg_alloc_op (op : TCGOp) (arg_life : Z) : M unit :=
  let o := opc op in
  let nb_oargs := n_oargs op in
  let nb_iargs := n_iargs op in
  let nargs := (nb_oargs + nb_iargs)%nat in
  let new_args0 := repeat 0 nargs ++ cargs op in
  st <- fold_each (alloc_iarg o (args op) arg_life) (firstn nb_iargs (skipn nb_oargs (sorted_args o)))
          (mkIn (reserved_regs cfg) new_args0 (repeat false nargs) []) ;;
  free_dead arg_life (Z.of_nat nb_oargs) (iargs op) ;;;
  st' <- (if BB_END (tcg_op_defs o) then tcg_reg_alloc_bb_end ;;; ret (allocated st, new_args st)
          else
            (if OPF_CALL_CLOBBER o then free_clobbered (allocated st) else ret tt) ;;;
            (if OPF_SIDE_EFFECTS o then sync_globals else ret tt) ;;;
            fold_each (alloc_oarg o (args op)) (firstn nb_oargs (sorted_args o)) (reserved_regs cfg, new_args st)) ;;
  let (allocated_regs, new_args) := (st' : Z * list Z) in
  emit (Iop o new_args (const_args st)) ;;;
  finish_oargs arg_life 0 allocated_regs (oargs op) new_args.

(** ** Calls *)

(** Arguments on the stack, from [stack_offset] on. *)
Fixpoint stack_args (stack_offset : Z) (ins : list Z) : M unit :=
  match ins with
  | [] => ret tt
  | arg :: ins =>
      (if arg =? TCG_CALL_DUMMY_ARG then ret tt
       else
         temp_load temp_sync arg tcg_target_available_regs (reserved_regs cfg) ;;;
         ts <- get_temp arg ;;
         emit (Ist (reg ts) TCG_REG_CALL_STACK stack_offset)) ;;;
      stack_args (stack_offset + 4) ins
  end.

(** Arguments in registers. *)
Fixpoint reg_args (allocated_regs : Z) (ins xs : list Z) : M Z :=
  match ins, xs with
  | arg :: ins, x :: xs =>
      allocated_regs <-
        (if arg =? TCG_CALL_DUMMY_ARG then ret allocated_regs
         else
           tcg_reg_free temp_sync x allocated_regs ;;;
           ts <- get_temp arg ;;
           (if is_val TEMP_VAL_REG ts then
              if reg ts =? x then ret tt else emit (Imov x (reg ts))
            else temp_load temp_sync arg (add_reg 0 x) allocated_regs) ;;;
           ret (add_reg allocated_regs x)) ;;
      reg_args allocated_regs ins xs
  | _, _ => ret allocated_regs
  end.

(** The results, from number [i] on. *)
Fixpoint call_oargs (arg_life i allocated_regs : Z) (outs xs : list Z) : M unit :=
  match outs, xs with
  | arg :: outs, x :: xs =>
      r <- get ;;
      tcg_debug_assert (negb (is_some (reg_to_temp r x))) ;;;
      ts <- get_temp arg ;;
      (if fixed_reg ts then if reg ts =? x then ret tt else emit (Imov (reg ts) x)
       else
         leave_reg arg ;;;
         on_temp arg (fun ts => set_coherent false (set_reg x (set_val_type TEMP_VAL_REG ts))) ;;;
         set_reg_to_temp x (Some arg) ;;;
         finish_out arg arg_life i allocated_regs) ;;;
      call_oargs arg_life (i + 1) allocated_regs outs xs
  | _, _ => ret tt
  end.

Definition tcg_reg_alloc_call (op : TCGOp) (arg_life : Z) : M unit :=
  let flags := arg op (callo op + calli op + 1) in
  let nb_regs := Nat.min (length tcg_target_call_iarg_regs) (calli op) in
  let call_stack_size := Z.of_nat (calli op - nb_regs) * 4 in
  let call_stack_size := (call_stack_size + TCG_TARGET_STACK_ALIGN - 1) .& Z.lnot (TCG_TARGET_STACK_ALIGN - 1) in
  if TCG_STATIC_CALL_ARGS_SIZE <? call_stack_size then abort
  else
    stack_args TCG_TARGET_CALL_STACK_OFFSET (skipn nb_regs (iargs op)) ;;;
    allocated_regs <- reg_args (reserved_regs cfg) (firstn nb_regs (iargs op)) tcg_target_call_iarg_regs ;;
    free_dead arg_life (Z.of_nat (callo op)) (iargs op) ;;;
    free_clobbered allocated_regs ;;;
    (if truthy (flags .& TCG_CALL_NO_READ_GLOBALS) then ret tt
     else if truthy (flags .& TCG_CALL_NO_WRITE_GLOBALS) then sync_globals else save_globals) ;;;
    emit (Icall (cargs op) (map (fun t => t =? TCG_CALL_DUMMY_ARG) (iargs op))) ;;;
    call_oargs arg_life 0 allocated_regs (oargs op) tcg_target_call_oarg_regs.

(** ** Blocks *)

(** [tcg_reg_alloc_start] *)
Definition tcg_reg_alloc_start (r : ra_state) : ra_state :=
  mkRa (fun t =>
          let ts := temp r t in
          if is_global s t then set_val_type (if fixed_reg ts then TEMP_VAL_REG else TEMP_VAL_MEM) ts
          else
            mkTemp (reg ts) (if temp_local s t then TEMP_VAL_MEM else TEMP_VAL_DEAD) false (indirect_base ts)
              (mem_coherent ts) false (val ts) (mem_base ts) (mem_offset ts))
    (fun _ => None) (current_frame_offset r).

(** One round of the loop of [tcg_gen_code]. *)
Definition gen_op (l : live_op) : M unit :=
  let op := the_op l in
  match opc op with
  | mov_i32 => tcg_reg_alloc_mov (args op) (life l)
  | movi_i32 => tcg_reg_alloc_movi (args op) (life l)
  | insn_start => ret tt
  | discard => temp_dead (arg op 0)
  | set_label => tcg_reg_alloc_bb_end ;;; emit (Ilabel (arg op 0))
  | call => tcg_reg_alloc_call op (life l)
  | o => if OPF_NOT_PRESENT o then abort else tcg_reg_alloc_op op (life l)
  end.

(** The code of a block; the search data and the end of the buffer are left out. *)
Definition tcg_gen_code (ops : list live_op) : M unit := modify tcg_reg_alloc_start ;;; for_each gen_op ops.

End Alloc.
