(* ===== verification/TcgHostCode.v ===== *)
(** * Running the code of the register allocator

    Host registers and the memory the temporaries live in: the word at an
    offset from a base register.  The base registers are fixed, so that the
    number of the register stands for the address.  [Iop] computes its
    operation on registers and constants, with the meaning that tcg/README gives
    to it, and may destroy the registers a call may destroy; [Icall] is a helper
    that finds the globals at their places.

    This is the code at the level at which the allocator hands it to the back
    end, one instruction for each call of [tcg_out_op], [tcg_out_mov] and the
    like.  The words that the back end emits for an instruction are the subject
    of TcgArmExact.v and TcgArmGuest.v; they compute what [Iop] does here but for
    signed [setcond2_i32] and [brcond2_i32], and but for byte-swapped double-word
    loads at base zero and byte-swapped stores behind a base before ARMv6. *)

From Stdlib Require Import ZArith Lia List Bool.
From S2P Require Import Prelude Bitops TcgIr TcgOpt TcgLife TcgRegAlloc.
Import ListNotations.
Local Open Scope Z_scope.
Local Open Scope c_scope.

Record hstate := mkH { regs : Z -> Z; hmem : Z -> Z -> Z }.

Definition set_r (h : hstate) (x v : Z) : hstate := mkH (fun y => if y =? x then v else regs h y) (hmem h).
Definition set_m (h : hstate) (base off v : Z) : hstate :=
  mkH (regs h) (fun b o => if (b =? base) && (o =? off) then v else hmem h b o).

Fixpoint set_rs (h : hstate) (xs vs : list Z) : hstate :=
  match xs, vs with
  | x :: xs, v :: vs => set_rs (set_r h x v) xs vs
  | _, _ => h
  end.

(** Moves, loads and stores. *)
Definition is_move (i : hinsn) : bool :=
  match i with Imov _ _ | Imovi _ _ | Ild _ _ _ | Ist _ _ _ => true | _ => false end.

Definition move (i : hinsn) (h : hstate) : hstate :=
  match i with
  | Imov x y => set_r h x (regs h y)
  | Imovi x v => set_r h x (u32 v)
  | Ild x base off => set_r h x (hmem h base off)
  | Ist x base off => set_m h base off (regs h x)
  | _ => h
  end.

Definition moves (c : list hinsn) (h : hstate) : hstate := fold_left (fun h i => move i h) c h.

Section Run.
Variable s : TCGContext.
Context {W : Type} {host : TcgHost W (nb_globals s)} {target : TcgTarget}.
(** The globals of the context, and what is left in registers that a call destroys. *)
Variable context : Z -> TCGTemp.
Variable trash : W -> Z -> Z.

(** The place of a global. *)
Definition get_global (h : hstate) (t : Z) : Z :=
  let ts := context t in
  if fixed_reg ts then regs h (reg ts) else hmem h (reg (context (mem_base ts))) (mem_offset ts).

Definition set_global (h : hstate) (t v : Z) : hstate :=
  let ts := context t in
  if fixed_reg ts then set_r h (reg ts) v else set_m h (reg (context (mem_base ts))) (mem_offset ts) v.

Definition set_globals (h : hstate) (g : list Z) : hstate :=
  fold_left (fun h t => set_global h t (rd g t)) (globals s) h.

Definition clobber (w : W) (h : hstate) : hstate :=
  mkH (fun x => if test_reg tcg_target_call_clobber_regs x then trash w x else regs h x) (hmem h).

Inductive host_outcome :=
| HNext (h : hstate) (w : W)
| HJump (label : Z) (h : hstate) (w : W)
| HLeave (why : leave) (h : hstate) (w : W)
| HWrong.

(** Argument [k] of a call. *)
Definition call_arg (h : hstate) (k : nat) (pad : bool) : Z :=
  if pad then 0
  else if (k <? length tcg_target_call_iarg_regs)%nat then regs h (nth k tcg_target_call_iarg_regs 0)
  else hmem h TCG_REG_CALL_STACK (TCG_TARGET_CALL_STACK_OFFSET + 4 * Z.of_nat (k - length tcg_target_call_iarg_regs)).

Fixpoint call_args (h : hstate) (k : nat) (padding : list bool) : list Z :=
  match padding with
  | [] => []
  | pad :: padding => call_arg h k pad :: call_args h (S k) padding
  end.

Definition operand (h : hstate) (x : Z) (const : bool) : Z := if const then u32 x else regs h x.

Definition host_step (i : hinsn) (h : hstate) (w : W) : host_outcome :=
  match i with
  | Ilabel _ => HNext h w
  | Icall consts padding =>
      match helper consts (call_args h 0 padding) (map (get_global h) (globals s)) w with
      | Some (o, g, w) => HNext (set_rs (clobber w (set_globals h g)) tcg_target_call_oarg_regs (map (wrap 32) o)) w
      | None => HLeave Exception h w
      end
  | Iop o new_args const_args =>
      let no := nb_oargs (tcg_op_defs o) in
      let ni := nb_iargs (tcg_op_defs o) in
      let ins := map2 (operand h) (firstn ni (skipn no new_args)) (firstn ni (skipn no const_args)) in
      match compute s o ins (skipn (no + ni) new_args) w with
      | Done vs w => HNext (set_rs (if OPF_CALL_CLOBBER o then clobber w h else h) (firstn no new_args) vs) w
      | Jumps label w => HJump label h w
      | Leaves why w => HLeave why h w
      | Wrong => HWrong
      end
  | i => HNext (move i h) w
  end.

Fixpoint code_after (label : Z) (code : list hinsn) : option (list hinsn) :=
  match code with
  | [] => None
  | Ilabel l :: code => if l =? label then Some code else code_after label code
  | _ :: code => code_after label code
  end.

Inductive host_behaviour :=
| HLeft_block (why : leave) (h : hstate) (w : W)
| HFell_off (h : hstate) (w : W)
| HWent_wrong
| HOut_of_jumps.

Fixpoint host_run (jumps : nat) (prog code : list hinsn) (h : hstate) (w : W) : host_behaviour :=
  (fix go (code : list hinsn) (h : hstate) (w : W) : host_behaviour :=
     match code with
     | [] => HFell_off h w
     | i :: code =>
         match host_step i h w with
         | HNext h w => go code h w
         | HLeave why h w => HLeft_block why h w
         | HWrong => HWent_wrong
         | HJump label h w =>
             match jumps with
             | O => HOut_of_jumps
             | S jumps =>
                 match code_after label prog with
                 | Some code => host_run jumps prog code h w
                 | None => HWent_wrong
                 end
             end
         end
     end) code h w.

(** The same end, the same world and the same globals. *)
Definition same_results (b : behaviour (W := W)) (l : host_behaviour) : Prop :=
  match b, l with
  | Went_wrong, _ => True
  | Left_block why m w, HLeft_block why' h w' => why' = why /\ w' = w /\ map (get_global h) (globals s) = firstn (nb_globals s) m
  | Fell_off m w, HFell_off h w' => w' = w /\ map (get_global h) (globals s) = firstn (nb_globals s) m
  | Out_of_jumps, HOut_of_jumps => True
  | _, _ => False
  end.

End Run.
