(* ===== verification/TcgArm.v ===== *)
(** * The ARM back end's tables (tcg/arm/tcg-target.inc.c)

    Registers, the constraints on the arguments of each operation as
    [tcg_add_target_add_op_defs] reads them from [arm_op_defs], and the
    constants that fit into an instruction: the instance of [TcgTarget]. *)

From Stdlib Require Import ZArith Lia List Bool String Ascii.
From S2P Require Import Prelude Bitops TcgIr TcgOpt TcgLife TcgRegAlloc.
Import ListNotations.
Local Open Scope Z_scope.
Local Open Scope c_scope.

Definition TCG_REG_R12 : Z := 12.
Definition TCG_REG_PC : Z := 15.
Definition TCG_REG_TMP : Z := TCG_REG_R12.

Definition reg_alloc_order : list Z := [4; 5; 6; 7; 8; 9; 10; 11; 13; 0; 1; 2; 3; 12; 14].
Definition call_iarg_regs : list Z := [0; 1; 2; 3].
Definition call_oarg_regs : list Z := [0; 1].
Definition call_clobber_regs : Z :=
  (1 .<< 0) .| (1 .<< 1) .| (1 .<< 2) .| (1 .<< 3) .| (1 .<< 12) .| (1 .<< 14).
Definition available_regs : Z := 0xffff.

(** [s->reserved_regs] after [tcg_target_init]. *)
Definition target_reserved_regs : Z := add_reg (add_reg (add_reg 0 TCG_REG_CALL_STACK) TCG_REG_TMP) TCG_REG_PC.

(** The saved registers at the start of the order, reversed ([tcg_context_init]). *)
Fixpoint saved_prefix (l : list Z) : list Z * list Z :=
  match l with
  | [] => ([], [])
  | r :: l => if test_reg call_clobber_regs r then ([], r :: l) else let (a, b) := saved_prefix l in (r :: a, b)
  end.
Definition indirect_reg_alloc_order : list Z := let (a, b) := saved_prefix reg_alloc_order in rev a ++ b.

(** ** Constants *)

Definition TCG_CT_CONST_ARM : Z := 0x100.
Definition TCG_CT_CONST_INV : Z := 0x200.
Definition TCG_CT_CONST_NEG : Z := 0x400.
Definition TCG_CT_CONST_ZERO : Z := 0x800.

Definition rotl (v n : Z) : Z := u32 (v .<< n) .| (v .>> (32 - n)).

Fixpoint ctz_pos (p : positive) : Z :=
  match p with xO p => 1 + ctz_pos p | _ => 0 end.
Definition ctz32 (v : Z) : Z := match v with Zpos p => ctz_pos p | _ => 32 end.

Definition low_bits (v : Z) : bool := (v .& Z.lnot 0xff) =? 0.

Definition encode_imm (imm : Z) : Z :=
  if low_bits imm then 0
  else
    let shift := ctz32 imm .& Z.lnot 1 in
    if low_bits (imm .>> shift) then 32 - shift
    else if low_bits (rotl imm 2) then 2
    else if low_bits (rotl imm 4) then 4
    else if low_bits (rotl imm 6) then 6
    else -1.

Definition check_fit_imm (imm : Z) : bool := 0 <=? encode_imm imm.

Definition const_match (v : Z) (arg_ct : TCGArgConstraint) : bool :=
  let c := ct arg_ct in
  if truthy (c .& TCG_CT_CONST) then true
  else if truthy (c .& TCG_CT_CONST_ARM) && check_fit_imm (u32 v) then true
  else if truthy (c .& TCG_CT_CONST_INV) && check_fit_imm (u32 (Z.lnot v)) then true
  else if truthy (c .& TCG_CT_CONST_NEG) && check_fit_imm (u32 (- v)) then true
  else truthy (c .& TCG_CT_CONST_ZERO) && (v =? 0).

(** ** Constraints *)

Definition or_ct (c : TCGArgConstraint) (x : Z) : TCGArgConstraint := mkCt (ct c .| x) (alias_index c) (ct_regs c).
Definition or_regs (c : TCGArgConstraint) (x : Z) : TCGArgConstraint := mkCt (ct c) (alias_index c) (ct_regs c .| x).
Definition reset_reg (c : TCGArgConstraint) (x : Z) : TCGArgConstraint :=
  mkCt (ct c) (alias_index c) (ct_regs c .& Z.lnot (1 .<< x)).

Definition any_reg (c : TCGArgConstraint) : TCGArgConstraint :=
  or_regs (or_ct c TCG_CT_REG) ((1 .<< Z.of_nat TCG_TARGET_NB_REGS) - 1).

(** Without CONFIG_SOFTMMU. *)
Definition target_parse_constraint (c : TCGArgConstraint) (a : ascii) : option TCGArgConstraint :=
  match a with
  | "I"%char => Some (or_ct c TCG_CT_CONST_ARM)
  | "K"%char => Some (or_ct c TCG_CT_CONST_INV)
  | "N"%char => Some (or_ct c TCG_CT_CONST_NEG)
  | "Z"%char => Some (or_ct c TCG_CT_CONST_ZERO)
  | "r"%char | "l"%char => Some (any_reg c)
  | "s"%char => Some (reset_reg (reset_reg (any_reg c) 0) 1)
  | _ => None
  end.

Fixpoint parse_letters (c : TCGArgConstraint) (str : string) : option TCGArgConstraint :=
  match str with
  | EmptyString => Some c
  | String "i" str => parse_letters (or_ct c TCG_CT_CONST) str
  | String a str => let? c := target_parse_constraint c a in parse_letters c str
  end.

Definition no_ct : TCGArgConstraint := mkCt 0 0 0.

(** The digits of [str[0]]. *)
Definition digit (str : string) : option nat :=
  match str with
  | String a _ => let n := nat_of_ascii a in if (48 <=? n)%nat && (n <=? 57)%nat then Some (n - 48)%nat else None
  | EmptyString => None
  end.

(** One argument; [cts] are the constraints so far. *)
Definition add_arg_ct (cts : list TCGArgConstraint) (str : string) : option (list TCGArgConstraint) :=
  match digit str with
  | Some oarg =>
      let c := nth oarg cts no_ct in
      let i := List.length cts in
      Some (upd cts oarg (mkCt TCG_CT_ALIAS i (ct_regs c)) ++ [mkCt (ct c .| TCG_CT_IALIAS) oarg (ct_regs c)])
  | None => let? c := parse_letters no_ct str in Some (cts ++ [c])
  end.

Fixpoint add_args_ct (cts : list TCGArgConstraint) (strs : list string) : option (list TCGArgConstraint) :=
  match strs with
  | [] => Some cts
  | str :: strs => let? cts := add_arg_ct cts str in add_args_ct cts strs
  end.

(** [arm_op_defs], with TARGET_LONG_BITS = 32. *)
Definition arm_op_defs (opc : TCGOpcode) : list string :=
  match opc with
  | ld8u_i32 | ld8s_i32 | ld16u_i32 | ld16s_i32 | ld_i32 => ["r"; "r"]
  | st8_i32 | st16_i32 | st_i32 => ["r"; "r"]
  | add_i32 => ["r"; "r"; "rIN"]
  | sub_i32 => ["r"; "rI"; "rIN"]
  | mul_i32 => ["r"; "r"; "r"]
  | mulu2_i32 | muls2_i32 => ["r"; "r"; "r"; "r"]
  | and_i32 | andc_i32 => ["r"; "r"; "rIK"]
  | or_i32 | xor_i32 => ["r"; "r"; "rI"]
  | neg_i32 | not_i32 => ["r"; "r"]
  | shl_i32 | shr_i32 | sar_i32 | rotl_i32 | rotr_i32 => ["r"; "r"; "ri"]
  | brcond_i32 => ["r"; "rIN"]
  | setcond_i32 => ["r"; "r"; "rIN"]
  | movcond_i32 => ["r"; "r"; "rIN"; "rIK"; "0"]
  | add2_i32 => ["r"; "r"; "r"; "r"; "rIN"; "rIK"]
  | sub2_i32 => ["r"; "r"; "rI"; "rI"; "rIN"; "rIK"]
  | brcond2_i32 => ["r"; "r"; "rIN"; "rIN"]
  | setcond2_i32 => ["r"; "r"; "r"; "rIN"; "rIN"]
  | qemu_ld_i32 => ["r"; "l"]
  | qemu_ld_i64 => ["r"; "r"; "l"]
  | qemu_st_i32 => ["s"; "s"]
  | qemu_st_i64 => ["s"; "s"; "s"]
  | bswap16_i32 | bswap32_i32 => ["r"; "r"]
  | ext8s_i32 | ext16s_i32 | ext16u_i32 => ["r"; "r"]
  | deposit_i32 => ["r"; "0"; "rZ"]
  | div_i32 | divu_i32 => ["r"; "r"; "r"]
  | _ => []
  end%string.

Definition op_args_ct (opc : TCGOpcode) : list TCGArgConstraint :=
  match add_args_ct [] (arm_op_defs opc) with Some cts => cts | None => [] end.

(** ** The order of the arguments *)

Definition get_constraint_priority (cts : list TCGArgConstraint) (k : nat) : Z :=
  let arg_ct := nth k cts no_ct in
  if truthy (ct arg_ct .& TCG_CT_ALIAS) then Z.of_nat TCG_TARGET_NB_REGS - 1 + 1
  else if negb (truthy (ct arg_ct .& TCG_CT_REG)) then 0
  else
    let n := List.length (filter (test_reg (ct_regs arg_ct)) all_regs) in
    Z.of_nat TCG_TARGET_NB_REGS - Z.of_nat n + 1.

(** [sorted] is [def->sorted_args + start]. *)
Definition sort_swap (cts : list TCGArgConstraint) (sorted : list nat) (i j : nat) : list nat :=
  let p1 := get_constraint_priority cts (nth i sorted 0%nat) in
  let p2 := get_constraint_priority cts (nth j sorted 0%nat) in
  if p1 <? p2 then upd (upd sorted i (nth j sorted 0%nat)) j (nth i sorted 0%nat) else sorted.

Definition sort_constraints (cts : list TCGArgConstraint) (start n : nat) : list nat :=
  fold_left (fun sorted i => fold_left (fun sorted j => sort_swap cts sorted i j) (seq (i + 1) (n - (i + 1))) sorted)
    (seq 0 (n - 1)) (seq start n).

Definition op_sorted_args (opc : TCGOpcode) : list nat :=
  let def := tcg_op_defs opc in
  let cts := op_args_ct opc in
  sort_constraints cts 0 (nb_oargs def) ++ sort_constraints cts (nb_oargs def) (nb_iargs def).

#[export] Instance arm_target : TcgTarget := {
  tcg_target_reg_alloc_order := fun rev => if rev then indirect_reg_alloc_order else reg_alloc_order;
  tcg_target_call_iarg_regs := call_iarg_regs;
  tcg_target_call_oarg_regs := call_oarg_regs;
  tcg_target_call_clobber_regs := call_clobber_regs;
  tcg_target_available_regs := available_regs;
  args_ct := fun opc i => nth i (op_args_ct opc) no_ct;
  sorted_args := op_sorted_args;
  tcg_target_const_match := const_match
}.
