(* ===== verification/TcgTemps.v ===== *)
(** * Globals and temporaries (tcg/tcg.c, target-arm/translate.c)

    The table of temporaries of a context: the globals that
    [arm_translate_init] and [tcg_set_frame] enter, and the temporaries that
    a block takes and gives back.  A temporary that was taken shares no word
    with another one in use, and the globals are as the register allocator
    needs them. *)

From Stdlib Require Import ZArith Lia List Bool.
From S2P Require Import Prelude Bitops TcgIr TcgOpt TcgCopies TcgRegAlloc TcgArm.
Import ListNotations.
Local Open Scope Z_scope.
Local Open Scope c_scope.

Inductive TCGType := TCG_TYPE_I32 | TCG_TYPE_I64.

Definition type_code (ty : TCGType) : Z := match ty with TCG_TYPE_I32 => 0 | TCG_TYPE_I64 => 1 end.
Definition TCG_TYPE_COUNT : Z := 2.

(** [alloc] are the fields of [TCGTemp] that the register allocator uses. *)
Record temp_entry := mkEntry {
  base_type : TCGType; type : TCGType; indirect_reg : bool; is_local : bool; temp_allocated : bool; alloc : TCGTemp
}.

Record temp_table := mkTable {
  globals_count : nat;
  temps_count : nat;
  entry : Z -> temp_entry;
  free_temps : Z -> Z -> bool;
  nb_indirects : Z;
  reserved : Z;
  frame : Z;
  frame_from : Z;
  frame_to : Z;
  frame_offset : Z
}.

Definition same_type (x y : TCGType) : bool := type_code x =? type_code y.

Definition zero_entry : temp_entry :=
  mkEntry TCG_TYPE_I32 TCG_TYPE_I32 false false false (mkTemp 0 TEMP_VAL_DEAD false false false false 0 0 0).

Definition put_entry (c : temp_table) (t : Z) (e : temp_entry) : temp_table :=
  mkTable (globals_count c) (temps_count c) (fun u => if u =? t then e else entry c u) (free_temps c) (nb_indirects c)
    (reserved c) (frame c) (frame_from c) (frame_to c) (frame_offset c).

Definition set_free (c : temp_table) (k t : Z) (b : bool) : temp_table :=
  mkTable (globals_count c) (temps_count c) (entry c) (fun k' t' => if (k' =? k) && (t' =? t) then b else free_temps c k' t')
    (nb_indirects c) (reserved c) (frame c) (frame_from c) (frame_to c) (frame_offset c).

Definition set_counts (c : temp_table) (g n : nat) : temp_table :=
  mkTable g n (entry c) (free_temps c) (nb_indirects c) (reserved c) (frame c) (frame_from c) (frame_to c) (frame_offset c).

Definition set_reserved (c : temp_table) (r : Z) : temp_table :=
  mkTable (globals_count c) (temps_count c) (entry c) (free_temps c) (nb_indirects c) r (frame c) (frame_from c) (frame_to c) (frame_offset c).

Definition set_indirects (c : temp_table) (n : Z) : temp_table :=
  mkTable (globals_count c) (temps_count c) (entry c) (free_temps c) n (reserved c) (frame c) (frame_from c) (frame_to c) (frame_offset c).

(** ** Globals *)

Definition tcg_temp_alloc (c : temp_table) : option (temp_table * Z) :=
  let n := temps_count c in
  if (n <? TCG_MAX_TEMPS)%nat
  then Some (put_entry (set_counts c (globals_count c) (n + 1)) (Z.of_nat n) zero_entry, Z.of_nat n)
  else None.

Definition tcg_global_alloc (c : temp_table) : option (temp_table * Z) :=
  if (globals_count c =? temps_count c)%nat
  then tcg_temp_alloc (set_counts c (globals_count c + 1) (temps_count c))
  else None.

Definition tcg_global_reg_new_internal (c : temp_table) (ty : TCGType) (r : Z) : option (temp_table * Z) :=
  if negb (same_type ty TCG_TYPE_I32) then None
  else
    let? (c, t) := tcg_global_alloc c in
    let c := put_entry c t (mkEntry ty ty false false false (mkTemp r TEMP_VAL_DEAD true false false false 0 0 0)) in
    Some (set_reserved c (add_reg (reserved c) r), t).

Definition tcg_set_frame (c : temp_table) (r start size : Z) : option temp_table :=
  let? (c, t) := tcg_global_reg_new_internal c TCG_TYPE_I32 r in
  Some (mkTable (globals_count c) (temps_count c) (entry c) (free_temps c) (nb_indirects c) (reserved c) t start (start + size)
          (frame_offset c)).

Definition tcg_global_reg_new_i32 (c : temp_table) (r : Z) : option (temp_table * Z) :=
  if test_reg (reserved c) r then None else tcg_global_reg_new_internal c TCG_TYPE_I32 r.

Definition mem_entry (base_ty : TCGType) (indirect : bool) (base offset : Z) : temp_entry :=
  mkEntry base_ty TCG_TYPE_I32 indirect false false (mkTemp 0 TEMP_VAL_DEAD false false false true 0 base offset).

(** On a little-endian host of 32 bits. *)
Definition tcg_global_mem_new_internal (c : temp_table) (ty : TCGType) (base offset : Z) : option (temp_table * Z) :=
  let? (c, t) := tcg_global_alloc c in
  let base_ts := entry c base in
  let indirect := negb (fixed_reg (alloc base_ts)) in
  let? c :=
    (if indirect then
       if indirect_reg base_ts then None
       else
         let a := alloc base_ts in
         let c := put_entry c base
                    (mkEntry (base_type base_ts) (type base_ts) (indirect_reg base_ts) (is_local base_ts) (temp_allocated base_ts)
                       (mkTemp (reg a) (val_type a) (fixed_reg a) true (mem_coherent a) (mem_allocated a) (val a) (mem_base a)
                          (mem_offset a))) in
         Some (set_indirects c (nb_indirects c + if same_type ty TCG_TYPE_I64 then 2 else 1))
     else Some c) in
  match ty with
  | TCG_TYPE_I64 =>
      let? (c, t2) := tcg_global_alloc c in
      let c := put_entry c t (mem_entry TCG_TYPE_I64 indirect base offset) in
      if t2 =? t + 1 then Some (put_entry c t2 (mem_entry TCG_TYPE_I64 indirect base (offset + 4)), t) else None
  | TCG_TYPE_I32 => Some (put_entry c t (mem_entry TCG_TYPE_I32 indirect base offset), t)
  end.

(** The fields of [CPUARMState] that are globals of the translator. *)
Inductive env_field :=
| regs_at (i : nat) | at_CF | at_NF | at_VF | at_ZF
| at_exclusive_addr | at_exclusive_val | at_exclusive_test | at_exclusive_info.

Definition arm_fields : list (TCGType * env_field) :=
  map (fun i => (TCG_TYPE_I32, regs_at i)) (seq 0 16) ++
  [ (TCG_TYPE_I32, at_CF); (TCG_TYPE_I32, at_NF); (TCG_TYPE_I32, at_VF); (TCG_TYPE_I32, at_ZF);
    (TCG_TYPE_I64, at_exclusive_addr); (TCG_TYPE_I64, at_exclusive_val);
    (TCG_TYPE_I64, at_exclusive_test); (TCG_TYPE_I32, at_exclusive_info) ].

Fixpoint mem_globals (offsetof : env_field -> Z) (base : Z) (fields : list (TCGType * env_field)) (c : temp_table) : option temp_table :=
  match fields with
  | [] => Some c
  | (ty, f) :: fields => let? (c, _) := tcg_global_mem_new_internal c ty base (offsetof f) in mem_globals offsetof base fields c
  end.

Definition TCG_AREG0 : Z := 6.

Definition arm_translate_init (offsetof : env_field -> Z) (c : temp_table) : option temp_table :=
  let? (c, cpu_env) := tcg_global_reg_new_i32 c TCG_AREG0 in
  mem_globals offsetof cpu_env arm_fields c.

Definition CPU_TEMP_BUF_NLONGS : Z := 128.

(** What [tcg_target_qemu_prologue] does to the table. *)
Definition prologue_frame (c : temp_table) : option temp_table :=
  tcg_set_frame c TCG_REG_CALL_STACK TCG_STATIC_CALL_ARGS_SIZE (CPU_TEMP_BUF_NLONGS * 4).

(** The table after [tcg_context_init]: [memset], then [tcg_target_init]. *)
Definition initial_table : temp_table :=
  mkTable 0 0 (fun _ => zero_entry) (fun _ _ => false) 0 target_reserved_regs 0 0 0 0.

Definition arm_table (offsetof : env_field -> Z) : option temp_table :=
  let? c := arm_translate_init offsetof initial_table in prologue_frame c.

(** ** Temporaries *)

Definition tcg_func_start (c : temp_table) : temp_table :=
  mkTable (globals_count c) (globals_count c) (entry c) (fun _ _ => false) (nb_indirects c) (reserved c) (frame c)
    (frame_from c) (frame_to c) (frame_from c).

Definition free_list (ty : TCGType) (local : bool) : Z := type_code ty + if local then TCG_TYPE_COUNT else 0.

Definition find_first_bit (f : Z -> bool) (size : nat) : option Z := find f (map Z.of_nat (seq 0 size)).

Definition temp_entry_of (base_ty ty : TCGType) (local : bool) : temp_entry :=
  mkEntry base_ty ty false local true (alloc zero_entry).

Definition set_temp_allocated (e : temp_entry) (b : bool) : temp_entry :=
  mkEntry (base_type e) (type e) (indirect_reg e) (is_local e) b (alloc e).

Definition tcg_temp_new_internal (c : temp_table) (ty : TCGType) (local : bool) : option (temp_table * Z) :=
  let k := free_list ty local in
  match find_first_bit (free_temps c k) TCG_MAX_TEMPS with
  | Some t =>
      let c := set_free c k t false in
      let e := entry c t in
      let c := put_entry c t (set_temp_allocated e true) in
      if same_type (base_type e) ty && eqb (is_local e) local then Some (c, t) else None
  | None =>
      let? (c, t) := tcg_temp_alloc c in
      match ty with
      | TCG_TYPE_I64 =>
          let? (c, t2) := tcg_temp_alloc c in
          let c := put_entry c t (temp_entry_of ty TCG_TYPE_I32 local) in
          if t2 =? t + 1 then Some (put_entry c t2 (temp_entry_of TCG_TYPE_I64 TCG_TYPE_I32 local), t) else None
      | TCG_TYPE_I32 => Some (put_entry c t (temp_entry_of ty ty local), t)
      end
  end.

Definition tcg_temp_free_internal (c : temp_table) (t : Z) : option temp_table :=
  if (Z.of_nat (globals_count c) <=? t) && (t <? Z.of_nat (temps_count c)) then
    let e := entry c t in
    if temp_allocated e then
      Some (set_free (put_entry c t (set_temp_allocated e false)) (free_list (base_type e) (is_local e)) t true)
    else None
  else None.

(** ** The globals of the ARM front end *)

Definition fixed_temp (r : Z) : TCGTemp := mkTemp r TEMP_VAL_DEAD true false false false 0 0 0.
Definition env_temp (offset : Z) : TCGTemp := mkTemp 0 TEMP_VAL_DEAD false false false true 0 0 offset.

(** The words of a field. *)
Definition field_words (offsetof : env_field -> Z) (x : TCGType * env_field) : list Z :=
  match fst x with
  | TCG_TYPE_I32 => [offsetof (snd x)]
  | TCG_TYPE_I64 => [offsetof (snd x); offsetof (snd x) + 4]
  end.
Definition env_words (offsetof : env_field -> Z) : list Z := flat_map (field_words offsetof) arm_fields.

(** [env] is the first global; the words [ws] of the CPU state follow. *)
Record env_globals (ws : list Z) (c : temp_table) : Prop := {
  eg_count : globals_count c = S (length ws) /\ temps_count c = S (length ws);
  eg_env : alloc (entry c 0) = fixed_temp TCG_AREG0;
  eg_words : forall i, (i < length ws)%nat -> alloc (entry c (Z.of_nat (S i))) = env_temp (nth i ws 0);
  eg_reserved : reserved c = add_reg target_reserved_regs TCG_AREG0;
  eg_local : forall t, t < Z.of_nat (temps_count c) -> is_local (entry c t) = false;
  eg_direct : nb_indirects c = 0
}.

Lemma global_alloc_ok c : globals_count c = temps_count c -> (temps_count c < TCG_MAX_TEMPS)%nat ->
  tcg_global_alloc c = Some (put_entry (set_counts c (globals_count c + 1) (temps_count c + 1)) (Z.of_nat (temps_count c)) zero_entry,
                             Z.of_nat (temps_count c)).
Proof.
  intros E L; unfold tcg_global_alloc, tcg_temp_alloc; rewrite (proj2 (Nat.eqb_eq _ _) E); cbn [temps_count set_counts].
  now destruct (Nat.ltb_spec (temps_count c) TCG_MAX_TEMPS); [|lia].
Qed.

(** An entry [e] at the end of the table. *)
Lemma env_globals_snoc ws c c' off : env_globals ws c -> globals_count c' = (globals_count c + 1)%nat -> temps_count c' = (temps_count c + 1)%nat ->
  reserved c' = reserved c -> nb_indirects c' = nb_indirects c -> (exists ty, entry c' (Z.of_nat (temps_count c)) = mem_entry ty false 0 off) ->
  (forall t, t < Z.of_nat (temps_count c) -> entry c' t = entry c t) -> env_globals (ws ++ [off]) c'.
Proof.
  intros [[E1 E2] Ee Ew Er El Ed] G T R D [ty Ho] Old; constructor; rewrite ?length_app; cbn [length]; [split; lia|rewrite Old by lia; auto| |congruence| |congruence].
  1: intros i L; destruct (Nat.eq_dec i (length ws)) as [->|N].
  - now rewrite nth_middle, <- E2, Ho.
  - rewrite Old, app_nth1 by lia; apply Ew; lia.
  - intros t L; destruct (Z.eq_dec t (Z.of_nat (temps_count c))) as [->|N]; [now rewrite Ho|rewrite Old by lia; apply El; lia].
Qed.

Lemma mem_new_ok offsetof ws c x : env_globals ws c -> (temps_count c + 2 <= TCG_MAX_TEMPS)%nat ->
  exists c' t, tcg_global_mem_new_internal c (fst x) 0 (offsetof (snd x)) = Some (c', t) /\ env_globals (ws ++ field_words offsetof x) c'.
Proof.
  destruct x as [ty f]; intros E L; pose proof E as [[E1 E2] Ee _ _ _ _]; unfold tcg_global_mem_new_internal, field_words; cbn [fst snd].
  rewrite global_alloc_ok by lia; cbn [entry put_entry set_counts].
  destruct (Z.eqb_spec 0 (Z.of_nat (temps_count c))); [lia|]; rewrite Ee; cbn [fixed_reg fixed_temp negb].
  destruct ty.
  - do 2 eexists; split; [reflexivity|]; eapply env_globals_snoc; [exact E|..]; cbn; auto; [rewrite Z.eqb_refl; eauto|].
    intros t T; destruct (Z.eqb_spec t (Z.of_nat (temps_count c))); auto; lia.
  - rewrite global_alloc_ok by (cbn; lia); cbn [temps_count put_entry set_counts]; rewrite Nat2Z.inj_add, Z.eqb_refl.
    do 2 eexists; split; [reflexivity|]; change [?a; ?b] with ([a] ++ [b]); rewrite app_assoc.
    set (c1 := put_entry (set_counts c (globals_count c + 1) (temps_count c + 1)) (Z.of_nat (temps_count c)) (mem_entry TCG_TYPE_I64 false 0 (offsetof f))).
    eapply (env_globals_snoc _ c1); [eapply env_globals_snoc; [exact E|..]|..]; cbn [c1 entry put_entry set_counts temps_count globals_count reserved nb_indirects];
      auto; rewrite ?Nat2Z.inj_add, ?Z.eqb_refl; eauto;
      intros t T; repeat match goal with |- context [t =? ?x] => destruct (Z.eqb_spec t x); auto; try lia end.
Qed.

Lemma mem_globals_ok offsetof fields : forall ws c, env_globals ws c -> (temps_count c + 2 * length fields <= TCG_MAX_TEMPS)%nat ->
  exists c', mem_globals offsetof 0 fields c = Some c' /\ env_globals (ws ++ flat_map (field_words offsetof) fields) c'.
Proof.
  induction fields as [|x fields IH]; intros ws c E L; cbn [mem_globals flat_map length] in *; [exists c; rewrite app_nil_r; auto|].
  destruct (mem_new_ok offsetof ws c x E ltac:(lia)) as (c1 & t & E1 & G1); destruct x as [ty f]; cbn [fst snd] in E1; rewrite E1.
  destruct (IH _ c1 G1) as (c2 & E2 & G2); [|exists c2; rewrite app_assoc; auto].
  rewrite (proj2 (eg_count _ _ G1)), length_app; rewrite (proj2 (eg_count _ _ E)) in L; destruct ty; cbn [field_words fst snd length]; lia.
Qed.

Definition arm_reserved : Z := add_reg target_reserved_regs TCG_AREG0.

(** The table that every block starts from; the frame is the last global. *)
Record arm_globals (offsetof : env_field -> Z) (c : temp_table) : Prop := {
  ag_count : globals_count c = 29%nat /\ temps_count c = 29%nat;
  ag_env : alloc (entry c 0) = fixed_temp TCG_AREG0;
  ag_words : forall i, (i < 27)%nat -> alloc (entry c (Z.of_nat (S i))) = env_temp (nth i (env_words offsetof) 0);
  ag_frame : frame c = 28 /\ alloc (entry c 28) = fixed_temp TCG_REG_CALL_STACK /\
    frame_from c = TCG_STATIC_CALL_ARGS_SIZE /\ frame_to c = TCG_STATIC_CALL_ARGS_SIZE + CPU_TEMP_BUF_NLONGS * 4;
  ag_reserved : reserved c = arm_reserved;
  ag_local : forall t, t < 29 -> is_local (entry c t) = false;
  ag_direct : nb_indirects c = 0
}.

Lemma arm_table_ok offsetof : exists c, arm_table offsetof = Some c /\ arm_globals offsetof c.
Proof.
  unfold arm_table, arm_translate_init.
  destruct (tcg_global_reg_new_i32 initial_table TCG_AREG0) as [[c0 t]|] eqn:E0; [|discriminate]; vm_compute in E0; injection E0 as <- <-.
  set (c0 := mkTable _ _ _ _ _ _ _ _ _ _).
  assert (G0 : env_globals [] c0) by (constructor; cbn; auto; try lia; intros t _; now destruct t).
  destruct (mem_globals_ok offsetof arm_fields [] c0 G0) as (c1 & -> & [[C1 C2] Ee Ew Er El Ed]); [vm_compute; lia|].
  change (length ([] ++ _)) with 27%nat in *; change ([] ++ _) with (env_words offsetof) in Ew.
  unfold prologue_frame, tcg_set_frame, tcg_global_reg_new_internal; rewrite global_alloc_ok by (rewrite C2; auto; vm_compute; lia); rewrite C1, C2.
  eexists; split; [reflexivity|]; constructor; cbn [entry put_entry set_counts set_reserved globals_count temps_count frame frame_from frame_to reserved nb_indirects]; auto.
  - intros i L; destruct (Z.eqb_spec (Z.of_nat (S i)) (Z.of_nat 28)); [lia|]; apply Ew, L.
  - rewrite Er; reflexivity.
  - intros t L; destruct (Z.eqb_spec t (Z.of_nat 28)); [reflexivity|]; apply El; lia.
Qed.

(** ** The words of temporaries *)

Definition type_words (ty : TCGType) : Z := match ty with TCG_TYPE_I32 => 1 | TCG_TYPE_I64 => 2 end.

(** What [tcg_temp_new_internal] hands out. *)
Record handle := mkHandle { h_temp : Z; h_type : TCGType; h_local : bool }.

Definition word_of (b : handle) (t : Z) : Prop := h_temp b <= t < h_temp b + type_words (h_type b).
Definition share_no_word (b b' : handle) : Prop := forall t, word_of b t -> ~ word_of b' t.

(** The calls of a front end, which keeps its handles and gives back only those. *)
Inductive temp_call := New (ty : TCGType) (local : bool) | Free (t : Z).

Definition temp_step (what : temp_call) (x : temp_table * list handle) : option (temp_table * list handle) :=
  let (c, live) := x in
  match what with
  | New ty local => let? (c, t) := tcg_temp_new_internal c ty local in Some (c, mkHandle t ty local :: live)
  | Free t =>
      if existsb (fun b => h_temp b =? t) live then
        let? c := tcg_temp_free_internal c t in Some (c, filter (fun b => negb (h_temp b =? t)) live)
      else None
  end.

Fixpoint temp_calls (calls : list temp_call) (x : temp_table * list handle) : option (temp_table * list handle) :=
  match calls with
  | [] => Some x
  | what :: calls => let? x := temp_step what x in temp_calls calls x
  end.

(** *** The table is tiled *)

Fixpoint tiled (from : Z) (bs : list handle) (to : Z) : Prop :=
  match bs with
  | [] => from = to
  | b :: bs => h_temp b = from /\ tiled (from + type_words (h_type b)) bs to
  end.

Lemma words_pos ty : 1 <= type_words ty.
Proof. destruct ty; cbn; lia. Qed.

Lemma tiled_bounds bs : forall from to, tiled from bs to -> from <= to /\
  forall b, In b bs -> from <= h_temp b /\ h_temp b + type_words (h_type b) <= to.
Proof.
  induction bs as [|b bs IH]; cbn; intros from to; [intros ->; split; [lia|tauto]|]; intros [E T]; apply IH in T as [L H].
  pose proof (words_pos (h_type b)); split; [lia|]; intros b' [<-|I]; [lia|]; specialize (H b' I); lia.
Qed.

Lemma tiled_apart bs : forall from to b b', tiled from bs to -> In b bs -> In b' bs -> b = b' \/ share_no_word b b'.
Proof.
  induction bs as [|a bs IH]; cbn; intros from to b b' T; [tauto|]; destruct T as [E T].
  pose proof (proj2 (tiled_bounds _ _ _ T)) as H; unfold share_no_word, word_of.
  intros [<-|I] [<-|I']; auto; [right; apply H in I'; lia|right; apply H in I; lia|eapply IH; eauto].
Qed.

Lemma tiled_same bs from to b b' : tiled from bs to -> In b bs -> In b' bs -> h_temp b = h_temp b' -> b = b'.
Proof.
  intros T I I' E; destruct (tiled_apart bs from to b b' T I I') as [|A]; auto; exfalso.
  pose proof (words_pos (h_type b)); pose proof (words_pos (h_type b')); apply (A (h_temp b)); unfold word_of; lia.
Qed.

Lemma tiled_snoc bs b : forall from to, tiled from bs to -> h_temp b = to -> tiled from (bs ++ [b]) (to + type_words (h_type b)).
Proof. induction bs as [|a bs IH]; cbn; intros from to; [intros -> ->; auto|]; intros [E T] Hb; split; auto. Qed.

(** [bs] are the temporaries of the table, in use or free. *)
Record table_ok (c : temp_table) (bs : list handle) : Prop := {
  tk_globals : (globals_count c <= TCG_MAX_TEMPS)%nat;
  tk_max : (temps_count c <= TCG_MAX_TEMPS)%nat;
  tk_tiled : tiled (Z.of_nat (globals_count c)) bs (Z.of_nat (temps_count c));
  tk_base : forall b, In b bs -> base_type (entry c (h_temp b)) = h_type b;
  tk_words : forall b t, In b bs -> word_of b t ->
    type (entry c t) = TCG_TYPE_I32 /\ is_local (entry c t) = h_local b /\ alloc (entry c t) = alloc zero_entry;
  tk_free : forall k t, free_temps c k t = true <->
    exists b, In b bs /\ h_temp b = t /\ free_list (h_type b) (h_local b) = k /\ temp_allocated (entry c t) = false
}.

(** The handles of the client are those in use. *)
Definition tracks (c : temp_table) (bs live : list handle) : Prop :=
  NoDup live /\ forall b, In b live <-> In b bs /\ temp_allocated (entry c (h_temp b)) = true.

(** What temporaries do not change. *)
Record same_globals (c c' : temp_table) : Prop := {
  sg_count : globals_count c' = globals_count c;
  sg_reserved : reserved c' = reserved c;
  sg_frame : frame c' = frame c /\ frame_from c' = frame_from c /\ frame_to c' = frame_to c /\ frame_offset c' = frame_offset c;
  sg_entry : forall t, t < Z.of_nat (globals_count c) -> entry c' t = entry c t
}.

Lemma same_globals_trans c c' c'' : same_globals c c' -> same_globals c' c'' -> same_globals c c''.
Proof.
  intros [A B (C1 & C2 & C3 & C4) D] [A' B' (C1' & C2' & C3' & C4') D']; constructor; try congruence; [splits; congruence|].
  intros t T; rewrite D' by congruence; auto.
Qed.

Lemma func_start_ok c : (globals_count c <= TCG_MAX_TEMPS)%nat -> table_ok (tcg_func_start c) [] /\ tracks (tcg_func_start c) [] [].
Proof.
  intros L; split; [constructor; cbn; auto; try tauto|split; [constructor|cbn; tauto]].
  intros k t; split; [discriminate|intros (b & [] & _)].
Qed.

Lemma free_list_inj ty ty' l l' : free_list ty l = free_list ty' l' -> ty = ty' /\ l = l'.
Proof. destruct ty, ty', l, l'; cbv; intros H; (split; congruence) || discriminate. Qed.

(** *** Taking a temporary *)

(** The entry that [tcg_temp_new_internal] finds free. *)
Lemma reuse_ok c bs live b : table_ok c bs -> tracks c bs live -> In b bs -> temp_allocated (entry c (h_temp b)) = false ->
  let k := free_list (h_type b) (h_local b) in
  let c' := put_entry (set_free c k (h_temp b) false) (h_temp b) (set_temp_allocated (entry c (h_temp b)) true) in
  table_ok c' bs /\ tracks c' bs (b :: live).
Proof.
  intros [Kg Km Kt Kb Kw Kf] [Nd Li] I F k c'.
  assert (E : forall t, entry c' t = if t =? h_temp b then set_temp_allocated (entry c t) true else entry c t).
  { intros t; cbn; destruct (Z.eqb_spec t (h_temp b)) as [->|]; auto. }
  split; [constructor; auto|split].
  - intros b' I'; rewrite E; destruct (_ =? _); cbn; auto.
  - intros b' t I' Wt; rewrite E; destruct (Kw b' t I' Wt) as (A & B & C); destruct (_ =? _); cbn; auto.
  - intros k' t; rewrite E; cbn [free_temps c' put_entry set_free]; destruct (Z.eqb_spec t (h_temp b)) as [->|N]; cbn [set_temp_allocated temp_allocated].
    + rewrite andb_true_r; split; [|intros (b' & _ & _ & _ & [=])].
      destruct (Z.eqb_spec k' k) as [->|Nk]; [discriminate|]; intros X; apply Kf in X as (b' & I' & E' & Ek & _).
      rewrite (tiled_same _ _ _ b' b Kt I' I E') in Ek; now subst k k'.
    + rewrite andb_false_r; apply Kf.
  - constructor; auto; rewrite Li; intros [_ X]; congruence.
  - intros b'; rewrite E; cbn [In]; rewrite Li; destruct (Z.eqb_spec (h_temp b') (h_temp b)) as [Eq|N]; cbn.
    + split; [intros [<-|[I' _]]; auto|]; intros [I' _]; left; symmetry; apply (tiled_same _ _ _ b' b Kt I' I Eq).
    + split; [intros [<-|]; [congruence|auto]|auto].
Qed.

(** New entries at the end. *)
Lemma extend_ok c c' bs live b : table_ok c bs -> tracks c bs live ->
  h_temp b = Z.of_nat (temps_count c) -> (temps_count c' <= TCG_MAX_TEMPS)%nat ->
  globals_count c' = globals_count c -> Z.of_nat (temps_count c') = h_temp b + type_words (h_type b) -> free_temps c' = free_temps c ->
  (forall t, t < h_temp b -> entry c' t = entry c t) -> base_type (entry c' (h_temp b)) = h_type b ->
  (forall t, word_of b t -> temp_allocated (entry c' t) = true /\
     type (entry c' t) = TCG_TYPE_I32 /\ is_local (entry c' t) = h_local b /\ alloc (entry c' t) = alloc zero_entry) ->
  table_ok c' (bs ++ [b]) /\ tracks c' (bs ++ [b]) (b :: live).
Proof.
  intros [Kg Km Kt Kb Kw Kf] [Nd Li] Eb L Eg En Ef Old Hb Hw.
  assert (Lo : forall b' t, In b' bs -> word_of b' t -> t < h_temp b).
  { intros b' t I' Wt; apply (proj2 (tiled_bounds _ _ _ Kt)) in I'; unfold word_of in Wt; lia. }
  assert (Hd : forall b', word_of b' (h_temp b')) by (intros b'; pose proof (words_pos (h_type b')); unfold word_of; lia).
  assert (Nb : ~ In b bs) by (intros I; specialize (Lo b _ I (Hd b)); lia).
  split; [constructor|split].
  - congruence.
  - exact L.
  - rewrite Eg, En, Eb; apply tiled_snoc; auto.
  - intros b' I'; apply in_app_iff in I' as [I'|[<-|[]]]; auto; rewrite Old by (eapply Lo; eauto); auto.
  - intros b' t I' Wt; apply in_app_iff in I' as [I'|[<-|[]]]; [|apply Hw, Wt]; rewrite Old by (eapply Lo; eauto); eauto.
  - intros k t; rewrite Ef, Kf; split; intros (b' & I' & E' & Ek & A); exists b'; splits; auto.
    + apply in_app_iff; auto.
    + rewrite Old; auto; rewrite <- E'; eapply Lo; eauto.
    + apply in_app_iff in I' as [I'|[<-|[]]]; auto; rewrite <- E' in A; rewrite (proj1 (Hw _ (Hd b))) in A; discriminate.
    + apply in_app_iff in I' as [I'|[<-|[]]]; [|rewrite <- E' in A; rewrite (proj1 (Hw _ (Hd b))) in A; discriminate].
      rewrite Old in A; auto; rewrite <- E'; eapply Lo; eauto.
  - constructor; auto; rewrite Li; tauto.
  - intros b'; cbn [In]; rewrite Li, in_app_iff; cbn [In]; split.
    + intros [<-|[I' A]]; [split; auto; apply Hw, Hd|]; rewrite Old by (eapply Lo; eauto); auto.
    + intros [[I'|[<-|[]]] A]; auto; rewrite Old in A by (eapply Lo; eauto); auto.
Qed.

Ltac below v := repeat match goal with |- context [v =? ?x] => destruct (Z.eqb_spec v x); [lia|] end; auto.

Lemma new_ok c bs live ty local c' t : table_ok c bs -> tracks c bs live -> tcg_temp_new_internal c ty local = Some (c', t) ->
  same_globals c c' /\ exists bs', incl bs' (mkHandle t ty local :: bs) /\ table_ok c' bs' /\ tracks c' bs' (mkHandle t ty local :: live).
Proof.
  intros K Tr; pose proof (tiled_bounds _ _ _ (tk_tiled _ _ K)) as [Lg Lb].
  assert (Sn : forall b, incl (bs ++ [b]) (b :: bs)) by (intros b x; rewrite in_app_iff; cbn; tauto).
  unfold tcg_temp_new_internal; destruct (find_first_bit _ _) as [u|] eqn:Fd.
  - unfold find_first_bit in Fd; apply find_some in Fd as [_ Fu]; apply (tk_free _ _ K) in Fu as (b & I & E & Ek & A).
    apply free_list_inj in Ek as [Et El]; destruct b as [t' ty' l']; cbn in E, Et, El; subst t' ty' l'.
    destruct (_ && _); [|discriminate]; intros [= <- <-]; split; [|exists bs; split; [intros x; now right|now apply (reuse_ok c bs live (mkHandle u ty local))]].
    constructor; auto; intros v Hv; cbn; destruct (Z.eqb_spec v u) as [->|]; auto; apply Lb in I; cbn in I; lia.
  - clear Fd; unfold tcg_temp_alloc; destruct (Nat.ltb_spec (temps_count c) TCG_MAX_TEMPS) as [L|]; [|discriminate]; destruct ty.
    + intros [= <- <-]; split; [constructor; auto; intros v Hv; cbn; below v|].
      eexists; split; [apply Sn|]; eapply (extend_ok c); eauto; cbn; try lia; auto.
      * intros v Hv; below v.
      * now rewrite Z.eqb_refl.
      * intros v Hv; unfold word_of in Hv; cbn in Hv; replace v with (Z.of_nat (temps_count c)) by lia; now rewrite Z.eqb_refl.
    + cbn [temps_count put_entry set_counts]; destruct (Nat.ltb_spec (temps_count c + 1) TCG_MAX_TEMPS); [|discriminate].
      destruct (_ =? _); [|discriminate]; intros [= <- <-]; split; [constructor; auto; intros v Hv; cbn; below v|].
      eexists; split; [apply Sn|]; eapply (extend_ok c); eauto; cbn; try lia; auto.
      * intros v Hv; below v.
      * destruct (Z.eqb_spec (Z.of_nat (temps_count c)) (Z.of_nat (temps_count c + 1))); [lia|now rewrite Z.eqb_refl].
      * intros v Hv; unfold word_of in Hv; cbn in Hv; destruct (Z.eqb_spec v (Z.of_nat (temps_count c + 1))); [auto|].
        replace v with (Z.of_nat (temps_count c)) by lia; now rewrite Z.eqb_refl.
Qed.

Lemma new_total c bs ty local : table_ok c bs -> Z.of_nat (temps_count c) + type_words ty <= Z.of_nat TCG_MAX_TEMPS ->
  exists c' t, tcg_temp_new_internal c ty local = Some (c', t).
Proof.
  intros K L; unfold tcg_temp_new_internal; destruct (find_first_bit _ _) as [u|] eqn:Fd.
  - unfold find_first_bit in Fd; apply find_some in Fd as [_ Fu]; apply (tk_free _ _ K) in Fu as (b & I & E & Ek & A).
    apply free_list_inj in Ek as [Et El]; cbn [entry set_free].
    destruct (tk_words _ _ K b u I) as (_ & Lo & _); [pose proof (words_pos (h_type b)); unfold word_of; lia|].
    subst u; rewrite (tk_base _ _ K b I), Lo, Et, El, eqb_reflx; unfold same_type; rewrite Z.eqb_refl; cbn [andb]; eauto.
  - unfold tcg_temp_alloc; destruct ty; cbn [type_words] in L; (destruct (Nat.ltb_spec (temps_count c) TCG_MAX_TEMPS); [|lia]); [eauto|].
    cbn [temps_count put_entry set_counts]; destruct (Nat.ltb_spec (temps_count c + 1) TCG_MAX_TEMPS); [|lia].
    destruct (Z.eqb_spec (Z.of_nat (temps_count c + 1)) (Z.of_nat (temps_count c) + 1)); [eauto|lia].
Qed.

(** *** Giving it back *)

Lemma temp_free_ok c bs live b : table_ok c bs -> tracks c bs live -> In b live ->
  exists c', tcg_temp_free_internal c (h_temp b) = Some c' /\ same_globals c c' /\ temps_count c' = temps_count c /\
    table_ok c' bs /\ tracks c' bs (filter (fun b' => negb (h_temp b' =? h_temp b)) live).
Proof.
  intros [Kg Km Kt Kb Kw Kf] [Nd Li] I; apply Li in I as [I A]; unfold tcg_temp_free_internal; rewrite A.
  pose proof (words_pos (h_type b)); destruct (proj2 (tiled_bounds _ _ _ Kt) b I) as [L1 L2].
  destruct (Z.leb_spec (Z.of_nat (globals_count c)) (h_temp b)); [|lia]; destruct (Z.ltb_spec (h_temp b) (Z.of_nat (temps_count c))); [|lia].
  destruct (Kw b (h_temp b) I) as (_ & Lo & _); [unfold word_of; lia|]; rewrite (Kb b I), Lo; cbn [andb].
  set (c' := set_free _ _ _ _); assert (E : forall t, entry c' t = if t =? h_temp b then set_temp_allocated (entry c t) false else entry c t).
  { intros t; cbn; destruct (Z.eqb_spec t (h_temp b)) as [->|]; auto. }
  exists c'; splits; auto.
  - constructor; auto; intros v Hv; rewrite E; below v.
  - constructor; auto.
    + intros b' I'; rewrite E; destruct (_ =? _); cbn; auto.
    + intros b' t I' Wt; rewrite E; destruct (Kw b' t I' Wt) as (X & Y & Z); destruct (_ =? _); cbn; auto.
    + intros k t; rewrite E; cbn [free_temps c' put_entry set_free]; destruct (Z.eqb_spec t (h_temp b)) as [->|N].
      * rewrite andb_true_r; destruct (Z.eqb_spec k (free_list (h_type b) (h_local b))) as [->|Nk]; cbn; split; auto.
        -- intros _; eauto 6.
        -- intros X; apply Kf in X as (b' & I' & E' & Ek & A'); congruence.
        -- intros (b' & I' & E' & Ek & _); rewrite (tiled_same _ _ _ b' b Kt I' I E') in Ek; congruence.
      * rewrite andb_false_r; apply Kf.
  - split; [now apply NoDup_filter|]; intros b'; rewrite filter_In, Li, E; destruct (Z.eqb_spec (h_temp b') (h_temp b)); cbn; intuition discriminate.
Qed.

(** *** Any sequence of calls *)

Definition is_plain (what : temp_call) : bool := match what with New _ local => negb local | Free _ => true end.

Lemma temp_step_ok what c live x bs : table_ok c bs -> tracks c bs live -> temp_step what (c, live) = Some x ->
  same_globals c (fst x) /\ exists bs', table_ok (fst x) bs' /\ tracks (fst x) bs' (snd x) /\
    (is_plain what = true -> Forall (fun b => h_local b = false) bs -> Forall (fun b => h_local b = false) bs').
Proof.
  intros K Tr; destruct what as [ty local|t]; cbn.
  - destruct (tcg_temp_new_internal _ _ _) as [[c' t]|] eqn:E; [|discriminate]; intros [= <-].
    destruct (new_ok c bs live ty local c' t K Tr E) as (G & bs' & Ic & K' & Tr'); split; [exact G|]; exists bs'; splits; auto.
    intros P F; apply Forall_forall; intros b I; apply Ic in I as [<-|I]; [now destruct local|exact (proj1 (Forall_forall _ _) F b I)].
  - destruct (existsb _ _) eqn:Ex; [|discriminate]; apply existsb_exists in Ex as (b & I & Eb); apply Z.eqb_eq in Eb; subst t.
    destruct (temp_free_ok c bs live b K Tr I) as (c' & -> & G & _ & K' & Tr'); intros [= <-]; cbn; eauto 6.
Qed.

Lemma temp_calls_ok calls : forall c live x bs, table_ok c bs -> tracks c bs live -> temp_calls calls (c, live) = Some x ->
  same_globals c (fst x) /\ exists bs', table_ok (fst x) bs' /\ tracks (fst x) bs' (snd x) /\
    (forallb is_plain calls = true -> Forall (fun b => h_local b = false) bs -> Forall (fun b => h_local b = false) bs').
Proof.
  induction calls as [|what calls IH]; intros c live x bs K Tr; cbn [temp_calls forallb].
  - intros [= <-]; cbn; split; [constructor; auto|eauto].
  - destruct (temp_step what (c, live)) as [[c' live']|] eqn:E; [|discriminate].
    destruct (temp_step_ok what c live _ bs K Tr E) as (G & bs' & K' & Tr' & P'); intros E'.
    destruct (IH c' live' x bs' K' Tr' E') as (G' & bs2 & K2 & Tr2 & P2).
    split; [now apply (same_globals_trans c c')|]; exists bs2; splits; auto; rewrite andb_true_iff; intros [A B]; auto.
Qed.

(** What every sequence of calls in a block leads to. *)
Lemma block_temps_ok c0 calls c live : (globals_count c0 <= TCG_MAX_TEMPS)%nat -> temp_calls calls (tcg_func_start c0, []) = Some (c, live) ->
  same_globals (tcg_func_start c0) c /\ exists bs, table_ok c bs /\ tracks c bs live /\
    (forallb is_plain calls = true -> Forall (fun b => h_local b = false) bs).
Proof.
  intros L E; destruct (func_start_ok c0 L) as [K Tr]; destruct (temp_calls_ok calls _ _ _ _ K Tr E) as (G & bs & K' & Tr' & P).
  split; [exact G|]; exists bs; splits; auto.
Qed.

Lemma live_apart c bs live : table_ok c bs -> tracks c bs live -> ForallOrdPairs share_no_word live.
Proof.
  intros K [Nd Li]; assert (H : incl live bs) by (intros b I; now apply Li in I); clear Li.
  induction Nd as [|b live N Nd IH]; constructor.
  - apply Forall_forall; intros b' I; destruct (tiled_apart _ _ _ b b' (tk_tiled _ _ K)) as [->|]; auto; [apply H; now left|apply H; now right|tauto].
  - apply IH; intros x X; apply H; now right.
Qed.

(** *** An example *)

(** A table with two globals. *)
Definition pair_table : temp_table :=
  mkTable 2 2 (fun _ => zero_entry) (fun _ _ => false) 0 target_reserved_regs 0 0 0 0.
Definition pair_calls : list temp_call :=
  [New TCG_TYPE_I32 false; New TCG_TYPE_I64 false; Free 2; New TCG_TYPE_I32 true; New TCG_TYPE_I32 false].

Definition pair_result : temp_table * list handle :=
  match temp_calls pair_calls (tcg_func_start pair_table, []) with Some x => x | None => (pair_table, []) end.

(** The plain temporary is found again; the local one gets an entry of its own. *)
Example pair_live : snd pair_result =
  [mkHandle 2 TCG_TYPE_I32 false; mkHandle 5 TCG_TYPE_I32 true; mkHandle 3 TCG_TYPE_I64 false].
Proof. reflexivity. Qed.

(** C15: after any sequence of calls that take temporaries and give back taken ones, the
    temporaries in use share no word with each other or with a global, each has the type
    and the locality it was asked for, and no global was changed; freed entries are
    found again only for the same type and locality. *)
Theorem temps_in_use_apart (c0 c : temp_table) (calls : list temp_call) (live : list handle) :
  (globals_count c0 <= TCG_MAX_TEMPS)%nat -> temp_calls calls (tcg_func_start c0, []) = Some (c, live) ->
  ForallOrdPairs share_no_word live /\
  Forall (fun b => Z.of_nat (globals_count c0) <= h_temp b /\ h_temp b + type_words (h_type b) <= Z.of_nat (temps_count c) /\
    base_type (entry c (h_temp b)) = h_type b /\ temp_allocated (entry c (h_temp b)) = true /\
    forall t, word_of b t -> type (entry c t) = TCG_TYPE_I32 /\ is_local (entry c t) = h_local b) live /\
  (forall t, t < Z.of_nat (globals_count c0) -> entry c t = entry c0 t).
Proof.
  intros L E; destruct (block_temps_ok c0 calls c live L E) as (G & bs & K & Tr & _); splits.
  - now apply (live_apart c bs).
  - apply Forall_forall; intros b I; apply (proj2 Tr) in I as [I A]; pose proof (proj2 (tiled_bounds _ _ _ (tk_tiled _ _ K)) b I) as [B1 B2].
    rewrite (sg_count _ _ G) in B1; splits; auto; [now apply (tk_base _ _ K)|]; intros t Wt; now destruct (tk_words _ _ K b t I Wt) as (X & Y & _).
  - apply (sg_entry _ _ G).
Qed.

Lemma temps_in_use_apart_witness :
  ForallOrdPairs share_no_word (snd pair_result) /\ temp_allocated (entry (fst pair_result) 5) = true.
Proof.
  destruct (temps_in_use_apart pair_table (fst pair_result) pair_calls (snd pair_result)) as (A & B & _);
    [vm_compute; lia|vm_compute; reflexivity|]; split; [exact A|].
  rewrite Forall_forall in B; destruct (B (mkHandle 5 TCG_TYPE_I32 true)) as (_ & _ & _ & C & _); [vm_compute; tauto|exact C].
Defined.

(** C40: taking a temporary fails only when the table is full: as long as the words of
    the type fit, tcg_temp_new_internal returns one and its assertions hold, and giving
    back a temporary in use never fails and does not grow the table. *)
Theorem temps_available (c0 c : temp_table) (calls : list temp_call) (live : list handle) :
  (globals_count c0 <= TCG_MAX_TEMPS)%nat -> temp_calls calls (tcg_func_start c0, []) = Some (c, live) ->
  (forall ty local, Z.of_nat (temps_count c) + type_words ty <= Z.of_nat TCG_MAX_TEMPS ->
     exists c' t, temp_step (New ty local) (c, live) = Some (c', mkHandle t ty local :: live)) /\
  (forall b, In b live -> exists c', temp_step (Free (h_temp b)) (c, live) = Some (c', filter (fun b' => negb (h_temp b' =? h_temp b)) live) /\
     temps_count c' = temps_count c).
Proof.
  intros L E; destruct (block_temps_ok c0 calls c live L E) as (G & bs & K & Tr & _); split.
  - intros ty local B; destruct (new_total c bs ty local K B) as (c' & t & Et); exists c', t; cbn; now rewrite Et.
  - intros b I; destruct (temp_free_ok c bs live b K Tr I) as (c' & Ef & _ & En & _); exists c'; cbn; rewrite Ef.
    assert (X : existsb (fun b' => h_temp b' =? h_temp b) live = true) by (apply existsb_exists; exists b; split; [exact I|apply Z.eqb_refl]).
    now rewrite X.
Qed.

Lemma temps_available_witness :
  exists c', temp_step (Free 3) (fst pair_result, snd pair_result) =
    Some (c', filter (fun b' => negb (h_temp b' =? 3)) (snd pair_result)) /\ temps_count c' = temps_count (fst pair_result).
Proof.
  destruct (temps_available pair_table (fst pair_result) pair_calls (snd pair_result)) as [_ H]; [vm_compute; lia|vm_compute; reflexivity|].
  assert (I : In (mkHandle 3 TCG_TYPE_I64 false) (snd pair_result)) by (vm_compute; tauto).
  apply H in I; cbn [h_temp] in I; exact I.
Defined.
