(* ===== verification/TcgRegProof.v ===== *)
(** * The register allocator keeps the values (tcg/tcg.c)

    The invariant of the allocator and the effect of its primitive steps:
    storing, loading and releasing a temporary, finding a register. *)

From Stdlib Require Import ZArith Lia List Bool.
From S2P Require Import Prelude Bitops TcgIr TcgOpt TcgCopies TcgOptProof TcgLife TcgLifeProof TcgRegAlloc TcgHostCode.
Import ListNotations.
Local Open Scope Z_scope.
Local Open Scope c_scope.
Local Open Scope ra_scope.

(** ** Programs of the allocator *)

(** [f] does not abort, and [Q] holds of the state, the code and the result. *)
Definition wp {A} (f : M A) (r : ra_state) (Q : ra_state -> list hinsn -> A -> Prop) : Prop :=
  exists r' c a, f r = Some (r', c, a) /\ Q r' c a.

Lemma wp_ret {A} (a : A) r Q : Q r [] a -> wp (ret a) r Q.
Proof. intros H; now exists r, [], a. Qed.

Lemma wp_bind {A B} (f : M A) (k : A -> M B) r Q :
  wp f r (fun r1 c1 a => wp (k a) r1 (fun r2 c2 b => Q r2 (c1 ++ c2) b)) -> wp (bind f k) r Q.
Proof.
  intros (r1 & c1 & a & E & r2 & c2 & b & E' & H); exists r2, (c1 ++ c2), b; unfold bind; now rewrite E, E'.
Qed.

Lemma wp_get r Q : Q r [] r -> wp get r Q.
Proof. intros H; now exists r, [], r. Qed.

Lemma wp_modify f r (Q : ra_state -> list hinsn -> unit -> Prop) : Q (f r) [] tt -> wp (modify f) r Q.
Proof. intros H; now exists (f r), [], tt. Qed.

Lemma wp_emit i r (Q : ra_state -> list hinsn -> unit -> Prop) : Q r [i] tt -> wp (emit i) r Q.
Proof. intros H; now exists r, [i], tt. Qed.

Lemma wp_assert b r (Q : ra_state -> list hinsn -> unit -> Prop) : b = true -> Q r [] tt -> wp (tcg_debug_assert b) r Q.
Proof. intros -> H; now apply wp_ret. Qed.

Lemma wp_mono {A} (f : M A) r (P Q : ra_state -> list hinsn -> A -> Prop) :
  wp f r P -> (forall r' c a, P r' c a -> Q r' c a) -> wp f r Q.
Proof. intros (r' & c & a & E & H) I; exists r', c, a; auto. Qed.

Lemma wp_eq {A} (f g : M A) r Q : f r = g r -> wp g r Q -> wp f r Q.
Proof. intros E (r' & c & a & E' & H); exists r', c, a; split; [congruence|exact H]. Qed.

Lemma wp_get_temp t r (Q : ra_state -> list hinsn -> TCGTemp -> Prop) : Q r [] (temp r t) -> wp (get_temp t) r Q.
Proof. intros H; unfold get_temp; apply wp_bind, wp_get; now apply wp_ret. Qed.

Lemma wp_on_temp t f r (Q : ra_state -> list hinsn -> unit -> Prop) : Q (set_temp_at t f r) [] tt -> wp (on_temp t f) r Q.
Proof. apply wp_modify. Qed.

Lemma wp_set_owner x o r (Q : ra_state -> list hinsn -> unit -> Prop) : Q (set_reg_to x o r) [] tt -> wp (set_reg_to_temp x o) r Q.
Proof. apply wp_modify. Qed.

Ltac wp_step :=
  first [apply wp_get_temp | apply wp_on_temp | apply wp_set_owner | apply wp_bind | apply wp_get | apply wp_modify
        | apply wp_emit | apply wp_ret]; cbn beta.

Lemma temp_set t f r u : temp (set_temp_at t f r) u = if u =? t then f (temp r u) else temp r u.
Proof. reflexivity. Qed.

Lemma temp_set_eq t f r : temp (set_temp_at t f r) t = f (temp r t).
Proof. rewrite temp_set; now rewrite Z.eqb_refl. Qed.

Lemma temp_set_ne t f r u : u <> t -> temp (set_temp_at t f r) u = temp r u.
Proof. intros N; rewrite temp_set; now rewrite (proj2 (Z.eqb_neq u t)). Qed.

Lemma moves_app c c' h : moves (c ++ c') h = moves c' (moves c h).
Proof. apply fold_left_app. Qed.

(** ** What the allocator may rely on *)

(** A set of registers within the reserved ones and [l]. *)
Definition within_regs (reserved set : Z) (l : list Z) : Prop :=
  forall x, test_reg set x = true -> test_reg reserved x = true \/ In x l.

(** Six registers can be in use and there is still one. *)
Definition roomy {target : TcgTarget} (reserved desired : Z) : Prop :=
  forall rev l, (length l <= 6)%nat ->
    exists x, In x (tcg_target_reg_alloc_order rev) /\ test_reg desired x = true /\ test_reg reserved x = false /\ ~ In x l.

Class TargetOk (target : TcgTarget) (cfg : ra_config) := {
  ok_available : roomy (reserved_regs cfg) tcg_target_available_regs;
  ok_roomy : forall o i, OPF_NOT_PRESENT o = false -> (i < nb_oargs (tcg_op_defs o) + nb_iargs (tcg_op_defs o))%nat ->
    roomy (reserved_regs cfg) (ct_regs (args_ct o i));
  ok_sorted_outs : forall o i, OPF_NOT_PRESENT o = false ->
    In i (firstn (nb_oargs (tcg_op_defs o)) (sorted_args o)) <-> (i < nb_oargs (tcg_op_defs o))%nat;
  ok_sorted_ins : forall o i, OPF_NOT_PRESENT o = false ->
    In i (firstn (nb_iargs (tcg_op_defs o)) (skipn (nb_oargs (tcg_op_defs o)) (sorted_args o))) <->
    (nb_oargs (tcg_op_defs o) <= i < nb_oargs (tcg_op_defs o) + nb_iargs (tcg_op_defs o))%nat;
  ok_sorted_nodup : forall o, OPF_NOT_PRESENT o = false -> NoDup (sorted_args o) /\
    length (sorted_args o) = (nb_oargs (tcg_op_defs o) + nb_iargs (tcg_op_defs o))%nat;
  (** An output that shares the register of an input is the only output. *)
  ok_alias : forall o i, OPF_NOT_PRESENT o = false -> (i < nb_oargs (tcg_op_defs o))%nat -> is_alias (args_ct o i) = true ->
    nb_oargs (tcg_op_defs o) = 1%nat /\ OPF_CALL_CLOBBER o = false /\
    (1 <= alias_index (args_ct o i) < 1 + nb_iargs (tcg_op_defs o))%nat /\
    is_ialias (args_ct o (alias_index (args_ct o i))) = true /\ alias_index (args_ct o (alias_index (args_ct o i))) = i;
  ok_ialias : forall o i, OPF_NOT_PRESENT o = false -> is_ialias (args_ct o i) = true ->
    (alias_index (args_ct o i) < nb_oargs (tcg_op_defs o))%nat /\ forall v, tcg_target_const_match v (args_ct o i) = false;
  ok_clobber : forall x, test_reg tcg_target_call_clobber_regs x = true -> In x all_regs;
  ok_iargs : NoDup tcg_target_call_iarg_regs /\ (length tcg_target_call_iarg_regs <= 6)%nat;
  ok_iarg : forall x, In x tcg_target_call_iarg_regs ->
    test_reg (reserved_regs cfg) x = false /\ test_reg tcg_target_call_clobber_regs x = true /\
    forall rev, In x (tcg_target_reg_alloc_order rev);
  ok_oargs : NoDup tcg_target_call_oarg_regs /\ (2 <= length tcg_target_call_oarg_regs)%nat;
  ok_oarg : forall x, In x tcg_target_call_oarg_regs ->
    test_reg (reserved_regs cfg) x = false /\ test_reg tcg_target_call_clobber_regs x = true;
  ok_order : forall rev x, In x (tcg_target_reg_alloc_order rev) -> 0 <= x
}.

(** ** The setting *)

Section Setting.
Variable s : TCGContext.
Variable cfg : ra_config.
Context {target : TcgTarget}.
Variable context : Z -> TCGTemp.

(** Globals that are fixed to a register. *)
Definition is_fixed (t : Z) : bool := is_global s t && fixed_reg (context t).

Definition context_place (t : Z) : Z * Z := (reg (context (mem_base (context t))), mem_offset (context t)).

(** The context as the front end sets it up: the fixed registers are reserved
    and saved by calls, each of the other globals has a place of its own,
    relative to a fixed register other than the stack pointer, and the frame
    has a word for each temporary.  There are no local temporaries. *)
Record context_ok : Prop := {
  cx_locals : forall t, in_temps s t -> temp_local s t = false;
  cx_fixed : forall t, in_temps s t -> is_fixed t = true ->
    test_reg (reserved_regs cfg) (reg (context t)) = true /\ test_reg tcg_target_call_clobber_regs (reg (context t)) = false;
  cx_fixed_inj : forall t u, in_temps s t -> in_temps s u -> is_fixed t = true -> is_fixed u = true ->
    reg (context t) = reg (context u) -> t = u;
  cx_mem : forall t, in_temps s t -> is_global s t = true -> is_fixed t = false ->
    mem_allocated (context t) = true /\ in_temps s (mem_base (context t)) /\ is_fixed (mem_base (context t)) = true /\
    fst (context_place t) <> TCG_REG_CALL_STACK;
  cx_mem_inj : forall t u, in_temps s t -> in_temps s u -> is_global s t = true -> is_global s u = true ->
    is_fixed t = false -> is_fixed u = false -> context_place t = context_place u -> t = u;
  cx_frame : in_temps s (frame_temp cfg) /\ is_fixed (frame_temp cfg) = true /\ reg (context (frame_temp cfg)) = TCG_REG_CALL_STACK;
  cx_room : frame_start cfg mod 4 = 0 /\ TCG_STATIC_CALL_ARGS_SIZE <= frame_start cfg /\
    frame_start cfg + 4 * Z.of_nat (nb_temps s - nb_globals s) <= frame_end cfg
}.
End Setting.

(** A context, a target and what holds of them. *)
Class AllocSetup := {
  s : TCGContext;
  cfg : ra_config;
  target :: TcgTarget;
  context : Z -> TCGTemp;
  target_ok :: TargetOk target cfg;
  few_temps : (nb_temps s <= TCG_MAX_TEMPS)%nat;
  globals_first : (nb_globals s <= nb_temps s)%nat;
  Cx : context_ok s cfg context
}.

Abbreviation in_temps := (TcgCopies.in_temps s).
Abbreviation fixed := (is_fixed s context).
Abbreviation global_place := (context_place context).

Section Proof.
Context {setup : AllocSetup}.

(** ** The invariant *)

(** The temporaries with a word in the frame. *)
Record frame_list (r : ra_state) (L : list Z) : Prop := {
  fl_nodup : NoDup L;
  fl_temps : forall t, In t L -> in_temps t /\ is_global s t = false;
  fl_offset : current_frame_offset r = frame_start cfg + 4 * Z.of_nat (length L);
  fl_alloc : forall t, in_temps t -> is_global s t = false -> mem_allocated (temp r t) = true <-> In t L;
  fl_place : forall t, In t L -> mem_base (temp r t) = frame_temp cfg /\
    frame_start cfg <= mem_offset (temp r t) < current_frame_offset r;
  fl_inj : forall t u, In t L -> In u L -> mem_offset (temp r t) = mem_offset (temp r u) -> t = u
}.

Record struct (r : ra_state) : Prop := {
  sr_fixed : forall t, in_temps t -> fixed_reg (temp r t) = fixed t;
  sr_fixed_reg : forall t, in_temps t -> fixed t = true ->
    reg (temp r t) = reg (context t) /\ val_type (temp r t) = TEMP_VAL_REG;
  sr_owner : forall x t, reg_to_temp r x = Some t ->
    in_temps t /\ reg (temp r t) = x /\ val_type (temp r t) = TEMP_VAL_REG;
  sr_reg : forall t, in_temps t -> fixed t = false -> val_type (temp r t) = TEMP_VAL_REG ->
    reg_to_temp r (reg (temp r t)) = Some t /\ test_reg (reserved_regs cfg) (reg (temp r t)) = false /\ 0 <= reg (temp r t);
  sr_global : forall t, in_temps t -> is_global s t = true -> fixed t = false ->
    mem_allocated (temp r t) = true /\ mem_base (temp r t) = mem_base (context t) /\
    mem_offset (temp r t) = mem_offset (context t);
  sr_frame : exists L, frame_list r L
}.

(** Where a temporary is in memory. *)
Definition place (r : ra_state) (t : Z) : Z * Z := (reg (context (mem_base (temp r t))), mem_offset (temp r t)).
Definition home_word (r : ra_state) (h : hstate) (t : Z) : Z := hmem h (fst (place r t)) (snd (place r t)).

(** The states of the analysis and the records of the allocator. *)
Definition fits1 (x : Z) (t : Z) (ts : TCGTemp) : Prop :=
  (dead x = true -> val_type ts = if is_global s t then TEMP_VAL_MEM else TEMP_VAL_DEAD) /\
  (dead x = false -> val_type ts <> TEMP_VAL_DEAD /\ (val_type ts = TEMP_VAL_MEM -> mem_allocated ts = true)) /\
  (mem x = true -> mem_allocated ts = true /\ val_type ts <> TEMP_VAL_CONST /\
     (val_type ts = TEMP_VAL_REG -> mem_coherent ts = true)) /\
  (val_type ts = TEMP_VAL_REG -> mem_coherent ts = true -> mem_allocated ts = true).

Definition fits (st : temp_states) (r : ra_state) : Prop :=
  forall t, in_temps t -> fixed t = false -> fits1 (st t) t (temp r t).

(** The value of a temporary. *)
Definition loc (r : ra_state) (h : hstate) (t : Z) : option Z :=
  match val_type (temp r t) with
  | TEMP_VAL_REG => Some (regs h (reg (temp r t)))
  | TEMP_VAL_CONST => Some (u32 (val (temp r t)))
  | TEMP_VAL_MEM => Some (home_word r h t)
  | TEMP_VAL_DEAD => None
  end.

(** What the state [x] of [t] says about the value [v]. *)
Definition holds1 (x : Z) (r : ra_state) (h : hstate) (t v : Z) : Prop :=
  if fixed t then (dead x = false \/ mem x = true -> regs h (reg (context t)) = v)
  else
    (dead x = false -> loc r h t = Some v) /\
    (mem x = true -> home_word r h t = v) /\
    (val_type (temp r t) = TEMP_VAL_REG -> mem_coherent (temp r t) = true -> home_word r h t = regs h (reg (temp r t))).

(** [pend] are temporaries whose register does not hold the value yet. *)
Definition holds (pend : Z -> bool) (st : temp_states) (r : ra_state) (m : store) (h : hstate) : Prop :=
  forall t, in_temps t -> pend t = false -> holds1 (st t) r h t (rd m t).

(** The words for arguments of calls are left alone, and so are pending globals. *)
Record same_stack (pend : Z -> bool) (h h' : hstate) : Prop := {
  ss_args : forall off, off < TCG_STATIC_CALL_ARGS_SIZE -> hmem h' TCG_REG_CALL_STACK off = hmem h TCG_REG_CALL_STACK off;
  ss_pend : forall t, in_temps t -> is_global s t = true -> fixed t = false -> pend t = true ->
    hmem h' (fst (global_place t)) (snd (global_place t)) = hmem h (fst (global_place t)) (snd (global_place t))
}.

Lemma same_stack_refl pend h : same_stack pend h h.
Proof. now split. Qed.

Lemma same_stack_trans pend h1 h2 h3 : same_stack pend h1 h2 -> same_stack pend h2 h3 -> same_stack pend h1 h3.
Proof. intros [A B] [A' B']; split; intros; [rewrite A', A|rewrite B', B]; auto. Qed.

(** Code [c] brings the allocator from [r] to [r']; the registers in [keep] do
    not change. *)
Record steps (pend : Z -> bool) (st st' : temp_states) (r : ra_state) (c : list hinsn) (r' : ra_state) (keep : Z -> Prop) : Prop := {
  sp_moves : forallb is_move c = true;
  sp_struct : struct r';
  sp_fits : fits st' r';
  sp_holds : forall m h, holds pend st r m h -> holds pend st' r' m (moves c h);
  sp_regs : forall h x, keep x -> regs (moves c h) x = regs h x;
  sp_stack : forall h, same_stack pend h (moves c h)
}.

Lemma steps_nil pend st r keep : struct r -> fits st r -> steps pend st st r [] r keep.
Proof. intros S F; constructor; auto; intros h; apply same_stack_refl. Qed.

Lemma steps_trans pend st1 st2 st3 r1 c1 r2 c2 r3 k1 k2 (keep : Z -> Prop) :
  steps pend st1 st2 r1 c1 r2 k1 -> steps pend st2 st3 r2 c2 r3 k2 ->
  (forall x, keep x -> k1 x) -> (forall x, keep x -> k2 x) -> steps pend st1 st3 r1 (c1 ++ c2) r3 keep.
Proof.
  intros [A1 B1 C1 D1 E1 F1] [A2 B2 C2 D2 E2 F2] K1 K2; constructor; auto.
  - now rewrite forallb_app, A1, A2.
  - intros m h H; rewrite moves_app; auto.
  - intros h x K; rewrite moves_app, E2, E1; auto.
  - intros h; rewrite moves_app; eapply same_stack_trans; eauto.
Qed.

Lemma steps_seq pend st1 st2 st3 r1 c1 r2 c2 r3 k1 k2 :
  steps pend st1 st2 r1 c1 r2 k1 -> steps pend st2 st3 r2 c2 r3 k2 ->
  steps pend st1 st3 r1 (c1 ++ c2) r3 (fun x => k1 x /\ k2 x).
Proof. intros A B; eapply steps_trans; eauto; cbv beta; tauto. Qed.

Lemma steps_keep pend st st' r c r' (k1 k2 : Z -> Prop) :
  steps pend st st' r c r' k1 -> (forall x, k2 x -> k1 x) -> steps pend st st' r c r' k2.
Proof. intros [A B C D E F] K; constructor; auto. Qed.

(** ** Places *)

Definition nonfixed (t : Z) : Prop := in_temps t /\ fixed t = false.

Lemma fixed_global_temp t : fixed t = true -> is_global s t = true.
Proof. unfold fixed; intros H; now apply andb_true_iff in H. Qed.

Lemma base_fixed r t : struct r -> nonfixed t -> mem_allocated (temp r t) = true ->
  in_temps (mem_base (temp r t)) /\ fixed (mem_base (temp r t)) = true.
Proof.
  intros S [T F] A; destruct (is_global s t) eqn:G.
  - destruct (sr_global r S t T G F) as (_ & -> & _); destruct (cx_mem _ _ _ Cx t T G F) as (_ & I & Fx & _); now split.
  - destruct (sr_frame r S) as [L Fl]; apply (fl_alloc r L Fl t T G) in A.
    destruct (fl_place r L Fl t A) as [-> _]; destruct (cx_frame _ _ _ Cx) as (I & Fx & _); now split.
Qed.

(** The code that is emitted names the place. *)
Lemma place_base r t : struct r -> nonfixed t -> mem_allocated (temp r t) = true ->
  reg (temp r (mem_base (temp r t))) = fst (place r t).
Proof. intros S N A; destruct (base_fixed r t S N A) as [I F]; now destruct (sr_fixed_reg r S _ I F). Qed.

Lemma place_stack r t : struct r -> nonfixed t -> mem_allocated (temp r t) = true ->
  fst (place r t) = TCG_REG_CALL_STACK -> TCG_STATIC_CALL_ARGS_SIZE <= snd (place r t).
Proof.
  intros S [T F] A; unfold place; cbn [fst snd]; destruct (is_global s t) eqn:G.
  - destruct (sr_global r S t T G F) as (_ & -> & ->); destruct (cx_mem _ _ _ Cx t T G F) as (_ & _ & _ & N); contradiction.
  - intros _; destruct (sr_frame r S) as [L Fl]; apply (fl_alloc r L Fl t T G) in A.
    destruct (fl_place r L Fl t A) as [_ O]; destruct (cx_room _ _ _ Cx) as (_ & R & _); lia.
Qed.

Lemma place_inj r t u : struct r -> nonfixed t -> nonfixed u -> mem_allocated (temp r t) = true -> mem_allocated (temp r u) = true ->
  place r t = place r u -> t = u.
Proof.
  intros S [T Ft] [U Fu] At Au E; destruct (sr_frame r S) as [L Fl]; unfold place in E.
  destruct (is_global s t) eqn:Gt, (is_global s u) eqn:Gu.
  - destruct (sr_global r S t T Gt Ft) as (_ & Bt & Ot), (sr_global r S u U Gu Fu) as (_ & Bu & Ou).
    rewrite Bt, Bu, Ot, Ou in E; now apply (cx_mem_inj _ _ _ Cx).
  - destruct (sr_global r S t T Gt Ft) as (_ & Bt & Ot); apply (fl_alloc r L Fl u U Gu) in Au.
    destruct (fl_place r L Fl u Au) as [Bu _]; injection E as E _; rewrite Bt, Bu in E.
    destruct (cx_frame _ _ _ Cx) as (_ & _ & Ef); rewrite Ef in E; destruct (cx_mem _ _ _ Cx t T Gt Ft) as (_ & _ & _ & N); contradiction.
  - destruct (sr_global r S u U Gu Fu) as (_ & Bu & Ou); apply (fl_alloc r L Fl t T Gt) in At.
    destruct (fl_place r L Fl t At) as [Bt _]; injection E as E _; rewrite Bt, Bu in E; symmetry in E.
    destruct (cx_frame _ _ _ Cx) as (_ & _ & Ef); rewrite Ef in E; destruct (cx_mem _ _ _ Cx u U Gu Fu) as (_ & _ & _ & N); contradiction.
  - apply (fl_alloc r L Fl t T Gt) in At; apply (fl_alloc r L Fl u U Gu) in Au; injection E as _ E; now apply (fl_inj r L Fl).
Qed.

(** A store to the place of [t]. *)
Lemma slot_store r h t u v : struct r -> nonfixed t -> nonfixed u -> mem_allocated (temp r t) = true -> mem_allocated (temp r u) = true ->
  home_word r (set_m h (fst (place r t)) (snd (place r t)) v) u = if u =? t then v else home_word r h u.
Proof.
  intros S Nt Nu At Au; unfold home_word, set_m; cbn [hmem]; destruct (Z.eqb_spec u t) as [->|N]; [now rewrite !Z.eqb_refl|].
  destruct (Z.eqb_spec (fst (place r u)) (fst (place r t))) as [E1|]; [|reflexivity].
  destruct (Z.eqb_spec (snd (place r u)) (snd (place r t))) as [E2|]; [|reflexivity]; exfalso; apply N.
  apply (place_inj r u t); auto; destruct (place r u), (place r t); cbn in *; congruence.
Qed.

Lemma place_global r t : struct r -> in_temps t -> is_global s t = true -> fixed t = false -> place r t = global_place t.
Proof. intros S T G F; destruct (sr_global r S t T G F) as (_ & B & O); unfold place, context_place; now rewrite B, O. Qed.

Lemma stack_store pend r h t v : struct r -> nonfixed t -> mem_allocated (temp r t) = true -> pend t = false ->
  same_stack pend h (set_m h (fst (place r t)) (snd (place r t)) v).
Proof.
  intros S N A Pt; split.
  - intros off O; unfold set_m; cbn [hmem]; destruct (Z.eqb_spec TCG_REG_CALL_STACK (fst (place r t))) as [E|]; [|reflexivity].
    pose proof (place_stack r t S N A (eq_sym E)); rewrite (proj2 (Z.eqb_neq off _)) by lia; reflexivity.
  - intros u U G F Pu; rewrite <- (place_global r u S U G F); destruct (sr_global r S u U G F) as (Au & _).
    fold (home_word r h u); fold (home_word r (set_m h (fst (place r t)) (snd (place r t)) v) u).
    rewrite slot_store by (auto; now split); rewrite (proj2 (Z.eqb_neq u t)); [reflexivity|congruence].
Qed.

(** What is known of a temporary depends on its record only. *)
Lemma holds1_same x r r' h t v : temp r' t = temp r t -> holds1 x r h t v -> holds1 x r' h t v.
Proof. unfold holds1, loc, home_word, place; now intros ->. Qed.

Lemma in_temps_dec t : {in_temps t} + {~ in_temps t}.
Proof. unfold TcgCopies.in_temps; destruct (Z_le_dec 0 t), (Z_lt_dec t (Z.of_nat (nb_temps s))); auto; right; lia. Qed.

(** ** Releasing a temporary *)

Definition release (t : Z) (v : TCGTempVal) (r : ra_state) : ra_state :=
  set_temp_at t (set_val_type v)
    (if is_val TEMP_VAL_REG (temp r t) then set_reg_to (reg (temp r t)) None r else r).

Lemma is_val_iff v ts : is_val v ts = true <-> val_type ts = v.
Proof. unfold is_val; destruct (val_type ts), v; split; congruence. Qed.

Lemma temp_release t v r u : temp (release t v r) u = if u =? t then set_val_type v (temp r u) else temp r u.
Proof. unfold release; rewrite temp_set; now destruct (is_val _ _). Qed.

Lemma release_owner t v r x : struct r -> in_temps t ->
  reg_to_temp (release t v r) x = match reg_to_temp r x with Some u => if u =? t then None else Some u | None => None end.
Proof.
  intros S T; unfold release; cbn [set_temp_at reg_to_temp]; destruct (is_val TEMP_VAL_REG (temp r t)) eqn:V.
  - cbn [set_reg_to reg_to_temp]; destruct (Z.eqb_spec x (reg (temp r t))) as [->|N].
    + destruct (reg_to_temp r (reg (temp r t))) as [u|] eqn:E; [|reflexivity].
      destruct (Z.eqb_spec u t) as [|Nu]; [reflexivity|exfalso].
      destruct (sr_owner r S _ _ E) as (U & Eu & Vu); apply is_val_iff in V.
      destruct (fixed t) eqn:Ft; [|destruct (sr_reg r S t T Ft V) as [E' _]; congruence].
      destruct (fixed u) eqn:Fu.
      * apply Nu, (cx_fixed_inj _ _ _ Cx); auto; destruct (sr_fixed_reg r S u U Fu), (sr_fixed_reg r S t T Ft); congruence.
      * destruct (sr_reg r S u U Fu Vu) as (_ & R & _), (sr_fixed_reg r S t T Ft) as [Rt _], (cx_fixed _ _ _ Cx t T Ft) as [R' _]; congruence.
    + destruct (reg_to_temp r x) as [u|] eqn:E; [|reflexivity]; destruct (Z.eqb_spec u t) as [->|]; [|reflexivity].
      destruct (sr_owner r S _ _ E) as (_ & Eu & _); congruence.
  - destruct (reg_to_temp r x) as [u|] eqn:E; [|reflexivity]; destruct (Z.eqb_spec u t) as [->|]; [|reflexivity].
    destruct (sr_owner r S _ _ E) as (_ & _ & Vt); apply is_val_iff in Vt; congruence.
Qed.

(** The record of one temporary changes, but not its place. *)
Definition same_place (ts ts' : TCGTemp) : Prop :=
  fixed_reg ts' = fixed_reg ts /\ mem_allocated ts' = mem_allocated ts /\ mem_base ts' = mem_base ts /\ mem_offset ts' = mem_offset ts.

Lemma struct_change r r' t :
  struct r -> nonfixed t -> (forall u, u <> t -> temp r' u = temp r u) -> same_place (temp r t) (temp r' t) ->
  current_frame_offset r' = current_frame_offset r ->
  (forall x u, reg_to_temp r' x = Some u -> in_temps u /\ reg (temp r' u) = x /\ val_type (temp r' u) = TEMP_VAL_REG) ->
  (forall u, in_temps u -> fixed u = false -> val_type (temp r' u) = TEMP_VAL_REG ->
     reg_to_temp r' (reg (temp r' u)) = Some u /\ test_reg (reserved_regs cfg) (reg (temp r' u)) = false /\ 0 <= reg (temp r' u)) ->
  struct r'.
Proof.
  intros S [T F] O (P1 & P2 & P3 & P4) C Ow Rg.
  assert (Q : forall u, same_place (temp r u) (temp r' u)) by (intros u; destruct (Z.eq_dec u t) as [->|N]; [now splits|rewrite O by assumption; now splits]).
  constructor; auto.
  - intros u U; destruct (Q u) as [-> _]; now apply sr_fixed.
  - intros u U Fu; rewrite O by congruence; now apply (sr_fixed_reg r S).
  - intros u U G Fu; destruct (Q u) as (_ & -> & -> & ->); now apply (sr_global r S).
  - destruct (sr_frame r S) as [L [A B D E G I]]; exists L; constructor; auto.
    + now rewrite C.
    + intros u U Gu; destruct (Q u) as (_ & -> & _); auto.
    + intros u Iu; destruct (Q u) as (_ & _ & -> & ->); rewrite C; auto.
    + intros u v Iu Iv; destruct (Q u) as (_ & _ & _ & ->), (Q v) as (_ & _ & _ & ->); auto.
Qed.

Lemma release_struct t v r : struct r -> nonfixed t -> v <> TEMP_VAL_REG -> struct (release t v r).
Proof.
  intros S [T F] N; apply (struct_change r _ t); auto; [now split| | | | |].
  - intros u Nu; rewrite temp_release; now rewrite (proj2 (Z.eqb_neq u t)).
  - rewrite temp_release, Z.eqb_refl; now splits.
  - unfold release; now destruct (is_val _ _).
  - intros x u; rewrite release_owner by assumption; destruct (reg_to_temp r x) as [w|] eqn:E; [|discriminate].
    destruct (Z.eqb_spec w t) as [|Nw]; [discriminate|]; intros [= <-]; rewrite temp_release, (proj2 (Z.eqb_neq w t)) by assumption.
    now apply (sr_owner r S).
  - intros u U Fu; rewrite temp_release; destruct (Z.eqb_spec u t) as [->|Nu]; [cbn; congruence|]; intros V.
    destruct (sr_reg r S u U Fu V) as (E & R); split; [|exact R]; rewrite release_owner, E by assumption.
    now rewrite (proj2 (Z.eqb_neq u t)).
Qed.

Lemma free_or_dead_eq t fod r : struct r -> nonfixed t ->
  temp_free_or_dead s t fod r =
    Some (release t (if (fod <? 0) || is_global s t then TEMP_VAL_MEM else TEMP_VAL_DEAD) r, [], tt).
Proof.
  intros S [T F]; unfold temp_free_or_dead, get_temp, bind, get, ret, set_reg_to_temp, on_temp, modify.
  rewrite (sr_fixed r S t T), F, (cx_locals _ _ _ Cx t T), orb_false_r; unfold release; now destruct (is_val _ _).
Qed.

Lemma free_or_dead_fixed t fod r : struct r -> in_temps t -> fixed t = true -> temp_free_or_dead s t fod r = Some (r, [], tt).
Proof.
  intros S T F; unfold temp_free_or_dead, get_temp, bind, get, ret; now rewrite (sr_fixed r S t T), F.
Qed.

(** Nothing but [t] is touched. *)
Lemma fits_other st r r' t x :
  fits st r -> (forall u, u <> t -> temp r' u = temp r u) -> (fixed t = false -> fits1 x t (temp r' t)) -> fits (put st t x) r'.
Proof.
  intros Fi O H u U Fu; destruct (Z.eq_dec u t) as [->|N]; [rewrite put_eq; auto|]; rewrite put_ne, O by assumption; now apply Fi.
Qed.

Lemma holds_other pend st r r' m h t x :
  holds pend st r m h -> (forall u, u <> t -> temp r' u = temp r u) -> (in_temps t -> pend t = false -> holds1 x r' h t (rd m t)) ->
  holds pend (put st t x) r' m h.
Proof.
  intros Ho O H u U P; destruct (Z.eq_dec u t) as [->|N]; [rewrite put_eq; auto|]; rewrite put_ne by assumption.
  apply (holds1_same _ r); auto.
Qed.

Lemma temp_release_ne t v r u : u <> t -> temp (release t v r) u = temp r u.
Proof. intros N; rewrite temp_release; now rewrite (proj2 (Z.eqb_neq u t)). Qed.

Lemma slot_release t v r h u : home_word (release t v r) h u = home_word r h u.
Proof. unfold home_word, place; rewrite temp_release; now destruct (u =? t). Qed.

(** A dead temporary: its value is given up, its copy in memory, if any, is kept. *)
Lemma dead_steps pend st r t x : struct r -> fits st r -> in_temps t ->
  dead x = true -> (mem x = true -> mem (st t) = true) ->
  wp (temp_dead s t) r (fun r' c _ => c = [] /\ steps pend st (put st t x) r [] r' (fun _ => True) /\
    (forall u, u <> t -> temp r' u = temp r u) /\
    (forall y, reg_to_temp r y = None -> reg_to_temp r' y = None)).
Proof.
  intros S Fi T D M; destruct (fixed t) eqn:F.
  - exists r, [], tt; unfold temp_dead; rewrite free_or_dead_fixed by assumption; splits; auto; constructor; auto.
    + apply (fits_other st r r t x); auto; congruence.
    + intros m h Ho; apply (holds_other pend st r r m h t x); auto; intros _ P; specialize (Ho t T P).
      unfold holds1 in *; rewrite F in *; intros [E|E]; apply Ho; [congruence|right; auto].
    + intros h; apply same_stack_refl.
  - assert (N : nonfixed t) by now split.
    eexists _, [], tt; unfold temp_dead; rewrite free_or_dead_eq by assumption; split; [reflexivity|]; split; [reflexivity|].
    assert (O : forall v u, u <> t -> temp (release t v r) u = temp r u) by (intros; now apply temp_release_ne).
    split; [|split; [now apply O|intros y E; now rewrite release_owner, E]].
    constructor; auto; [destruct (is_global s t); now apply release_struct| | |intros h; apply same_stack_refl].
    + apply (fits_other st r); auto; intros _; rewrite temp_release, Z.eqb_refl; destruct (Fi t T F) as (_ & _ & Fm & _).
      unfold fits1; cbn [set_val_type val_type mem_allocated mem_coherent]; rewrite D; cbn [Z.ltb Z.compare orb].
      splits; try congruence; try (destruct (is_global s t); congruence).
      intros Mx; destruct (Fm (M Mx)) as [A _]; splits; auto; destruct (is_global s t); congruence.
    + intros m h Ho; apply (holds_other pend st r); auto; intros _ P; specialize (Ho t T P); unfold holds1 in *; rewrite F in *.
      destruct Ho as (_ & Hm & _); rewrite slot_release, temp_release, Z.eqb_refl; cbn [set_val_type val_type].
      splits; [congruence|auto|]; destruct (is_global s t); cbn; congruence.
Qed.

(** ** Storing a temporary *)

(** [st'] asks for no more than [st]. *)
Definition weaker (st st' : temp_states) : Prop :=
  forall t, in_temps t -> dead (st' t) = dead (st t) /\ (mem (st' t) = true -> mem (st t) = true).

Lemma fits_weaker st st' r : weaker st st' -> fits st r -> fits st' r.
Proof. intros Wk Fi t T F; destruct (Wk t T) as [D M], (Fi t T F) as (A & B & C & E); unfold fits1; rewrite D; splits; auto; intros; apply C; auto. Qed.

Lemma holds_weaker pend st st' r m h : weaker st st' -> holds pend st r m h -> holds pend st' r m h.
Proof.
  intros Wk Ho t T P; destruct (Wk t T) as [D M]; specialize (Ho t T P); unfold holds1 in *; rewrite D; destruct (fixed t).
  - intros [E|E]; apply Ho; auto.
  - destruct Ho as (A & B & C); splits; auto.
Qed.

Lemma steps_weaker pend st st1 st2 r c r' keep :
  steps pend st st1 r c r' keep -> weaker st1 st2 -> steps pend st st2 r c r' keep.
Proof. intros [A B C D E F] Wk; constructor; auto; [eapply fits_weaker; eauto|]; intros m h Ho; eapply holds_weaker; eauto. Qed.

Lemma weaker_put st t x y : dead y = dead x -> (mem y = true -> mem x = true) -> weaker (put st t x) (put st t y).
Proof. intros D M u U; unfold put; destruct (u =? t); auto. Qed.

Lemma weaker_refl st : weaker st st.
Proof. intros t T; auto. Qed.

Lemma put_same st t : forall u, put st t (st t) u = st u.
Proof. intros u; unfold put; destruct (Z.eqb_spec u t) as [->|]; reflexivity. Qed.

Lemma weaker_put_self st t x : dead (st t) = dead x -> (mem (st t) = true -> mem x = true) -> weaker (put st t x) st.
Proof. intros D M u U; unfold put; destruct (Z.eqb_spec u t) as [->|]; auto. Qed.

(** The state of [t] may be replaced by an equal one. *)
Lemma steps_self pend st st' t r c r' keep : steps pend st (put st' t (st' t)) r c r' keep -> steps pend st st' r c r' keep.
Proof. intros H; apply (steps_weaker pend st (put st' t (st' t))); auto; intros u U; now rewrite put_same. Qed.

Lemma frame_steps pend st r t : struct r -> fits st r -> nonfixed t -> mem_allocated (temp r t) = false ->
  wp (temp_allocate_frame cfg t) r (fun r' c _ => c = [] /\ steps pend st st r [] r' (fun _ => True) /\
    (forall u, u <> t -> temp r' u = temp r u) /\ (exists off, temp r' t = set_frame (frame_temp cfg) off (temp r t)) /\
    (forall y, reg_to_temp r' y = reg_to_temp r y)).
Proof.
  intros S Fi [T F] A; destruct (sr_frame r S) as [L Fl]; destruct (cx_room _ _ _ Cx) as (R1 & R2 & R3).
  assert (G : is_global s t = false) by (destruct (is_global s t) eqn:G; auto; destruct (sr_global r S t T G F); congruence).
  assert (NI : ~ In t L) by (intros I; apply (fl_alloc r L Fl t T G) in I; congruence).
  assert (Len : (length (t :: L) <= nb_temps s - nb_globals s)%nat).
  { rewrite <- (length_seq (nb_temps s - nb_globals s) (nb_globals s)), <- (length_map Z.of_nat); apply NoDup_incl_length.
    - constructor; [exact NI|apply (fl_nodup r L Fl)].
    - assert (X : forall u, in_temps u -> is_global s u = false -> In u (map Z.of_nat (seq (nb_globals s) (nb_temps s - nb_globals s)))).
      { intros u U Gu; apply Z.ltb_ge in Gu; unfold TcgCopies.in_temps in U; apply in_map_iff; exists (Z.to_nat u).
        split; [lia|apply in_seq; lia]. }
      intros u [<-|I]; [now apply X|]; destruct (fl_temps r L Fl u I); now apply X. }
  cbn [length] in Len; assert (C := fl_offset r L Fl); set (cur := current_frame_offset r) in *.
  assert (Al : (cur + 4 - 1) .& Z.lnot (4 - 1) = cur).
  { change (4 - 1) with (Z.ones 2); rewrite <- Z.ldiff_land, Z.ldiff_ones_r, Z.shiftl_mul_pow2, Z.shiftr_div_pow2 by lia.
    change (2 ^ 2) with 4; change (Z.ones 2) with 3; replace (cur + 4 - 3) with (cur + 1) by lia.
    assert (M : cur mod 4 = 0) by (rewrite C, Z.mul_comm, Z.mod_add by lia; exact R1).
    pose proof (Z.div_mod cur 4); rewrite <- (Z.div_unique (cur + 4 - 1) 4 (cur / 4) 3); lia. }
  unfold temp_allocate_frame; wp_step; wp_step; fold cur; rewrite Al, (proj2 (Z.ltb_ge _ _)) by lia.
  unfold on_temp; repeat wp_step; set (r' := mkRa _ _ _).
  assert (O : forall u, u <> t -> temp r' u = temp r u) by (intros u N; apply temp_set_ne; exact N).
  assert (E : temp r' t = set_frame (frame_temp cfg) cur (temp r t)) by apply temp_set_eq.
  split; [reflexivity|]; split; [|now splits; eauto]; constructor; auto; [| | |intros h; apply same_stack_refl].
  - destruct S as [S1 S2 S3 S4 S5 _]; constructor.
    + intros u U; destruct (Z.eq_dec u t) as [->|N]; [rewrite E|rewrite O by assumption]; now apply S1.
    + intros u U Fu; rewrite O by congruence; auto.
    + intros x u X; destruct (S3 x u X) as (U & Y); destruct (Z.eq_dec u t) as [->|N]; [rewrite E|rewrite O by assumption]; now split.
    + intros u U Fu; destruct (Z.eq_dec u t) as [->|N]; [rewrite E|rewrite O by assumption]; now apply S4.
    + intros u U Gu Fu; rewrite O by congruence; auto.
    + exists (t :: L); destruct Fl as [F1 F2 F3 F4 F5 F6]; constructor.
      * now constructor.
      * intros u [<-|I]; auto.
      * cbn [length]; subst r'; cbn [current_frame_offset]; lia.
      * intros u U Gu; destruct (Z.eq_dec u t) as [->|N]; [rewrite E; cbn; tauto|]; rewrite O, F4 by assumption; cbn; intuition congruence.
      * intros u [<-|I]; [rewrite E; cbn; split; [reflexivity|lia]|]; rewrite O by congruence; destruct (F5 u I); cbn; split; auto; lia.
      * assert (B : forall u, In u L -> mem_offset (temp r' u) < cur) by (intros u I; rewrite O by congruence; now apply F5).
        assert (Et : mem_offset (temp r' t) = cur) by (rewrite E; reflexivity).
        intros u v [<-|Iu] [<-|Iv]; auto; [intros X; specialize (B v Iv)|intros X; specialize (B u Iu)|]; try lia.
        rewrite !O by congruence; auto.
  - intros u U Fu; destruct (Z.eq_dec u t) as [->|N]; [rewrite E|rewrite O by assumption; now apply Fi].
    destruct (Fi t T F) as (A1 & B1 & C1 & D1); unfold fits1; cbn; splits; auto; intros X; [specialize (B1 X)|specialize (C1 X)]; tauto.
  - intros m h Ho u U P; destruct (Z.eq_dec u t) as [->|N]; [|apply (holds1_same _ r); auto].
    specialize (Ho t T P); destruct (Fi t T F) as (A1 & B1 & C1 & D1); unfold holds1, loc in *; rewrite F in *; rewrite E; cbn.
    destruct Ho as (H1 & H2 & H3); splits.
    + intros X; destruct (B1 X) as [_ Y]; specialize (H1 X); destruct (val_type (temp r t)); auto; specialize (Y eq_refl); congruence.
    + intros X; destruct (C1 X); congruence.
    + intros X Y; specialize (D1 X Y); congruence.
Qed.

(** A store to the place of [t] does not touch the others. *)
Lemma holds1_store x r h t v u w : struct r -> nonfixed t -> mem_allocated (temp r t) = true ->
  in_temps u -> u <> t -> (fixed u = false -> fits1 x u (temp r u)) ->
  holds1 x r h u w -> holds1 x r (set_m h (fst (place r t)) (snd (place r t)) v) u w.
Proof.
  intros S Nt At U N Fi; unfold holds1, loc; destruct (fixed u) eqn:Fu; [auto|]; destruct (Fi eq_refl) as (A & B & C & D).
  assert (E : mem_allocated (temp r u) = true -> home_word r (set_m h (fst (place r t)) (snd (place r t)) v) u = home_word r h u).
  { intros Au; rewrite slot_store by (auto; now split); now rewrite (proj2 (Z.eqb_neq u t)). }
  intros (H1 & H2 & H3); splits.
  - intros X; specialize (H1 X); destruct (B X) as [_ Y]; destruct (val_type (temp r u)); auto; now rewrite E by auto.
  - intros X; rewrite E by (now apply C); auto.
  - intros X Y; rewrite E by auto; cbn [set_m regs]; auto.
Qed.

(** State 2: alive and in memory. *)
Lemma state_2 : dead TS_MEM = false /\ mem TS_MEM = true.
Proof. now split. Qed.

Lemma store_steps pend st r t : struct r -> fits st r -> nonfixed t -> pend t = false ->
  val_type (temp r t) = TEMP_VAL_REG -> mem_allocated (temp r t) = true ->
  wp (store_temp (reg (temp r t)) t ;;; on_temp t (set_coherent true)) r (fun r' c _ =>
    steps pend st (put st t TS_MEM) r c r' (fun _ => True) /\
    temp r' t = set_coherent true (temp r t) /\ (forall u, u <> t -> temp r' u = temp r u) /\
    (forall y, reg_to_temp r' y = reg_to_temp r y)).
Proof.
  intros S Fi N P V A; destruct N as [T F]; assert (N : nonfixed t) by now split.
  unfold store_temp, on_temp; repeat wp_step; rewrite (place_base r t S N A); cbn [app].
  set (r' := set_temp_at t _ r).
  assert (O : forall u, u <> t -> temp r' u = temp r u) by (intros u X; apply temp_set_ne; exact X).
  assert (E : temp r' t = set_coherent true (temp r t)) by apply temp_set_eq.
  split; [|now splits]; constructor; cbn [forallb is_move moves fold_left move]; auto.
  - apply (struct_change r r' t); auto; [rewrite E; now splits| |].
    + intros x u X; destruct (sr_owner r S x u X) as (U & Y); destruct (Z.eq_dec u t) as [->|Z0]; [rewrite E|rewrite O by assumption]; now split.
    + intros u U Fu; destruct (Z.eq_dec u t) as [->|Z0]; [rewrite E|rewrite O by assumption]; now apply (sr_reg r S).
  - apply (fits_other st r r' t); auto; intros _; rewrite E; unfold fits1; cbn; rewrite V; splits; intros; splits; congruence.
  - intros m h Ho; set (h' := set_m h _ _ _).
    assert (H1 : holds pend (put st t TS_MEM) r m h').
    { intros u U Pu; specialize (Ho u U Pu); destruct (Z.eq_dec u t) as [->|X].
      - rewrite put_eq; destruct (Fi t T F) as (_ & B & _); assert (D : dead (st t) = false).
        { destruct (dead (st t)) eqn:D; auto; destruct (Fi t T F) as (A1 & _); specialize (A1 D); rewrite V in A1; destruct (is_global s t); discriminate. }
        unfold holds1, loc in *; rewrite F, V in *; destruct Ho as (H & _ & _); specialize (H D); injection H as H.
        subst h'; rewrite slot_store, Z.eqb_refl by auto; cbn [set_m regs]; splits; auto; intros _; now rewrite H.
      - rewrite put_ne by assumption; apply holds1_store; auto; intros Fu; now apply Fi. }
    apply (holds_other pend (put st t TS_MEM) r r' m h' t TS_MEM) in H1; auto.
    + intros u U Pu; specialize (H1 u U Pu); unfold put in *; now destruct (u =? t).
    + intros _ _; specialize (H1 t T P); rewrite put_eq in H1; unfold holds1, loc, home_word, place in *; rewrite E; cbn in H1 |- *; rewrite F, V in *.
      destruct H1 as (X1 & X2 & _); splits; auto; intros _ _; specialize (X1 eq_refl); specialize (X2 eq_refl); congruence.
  - intros h; now apply stack_store.
Qed.

Lemma reg_alive st r t : fits st r -> nonfixed t -> val_type (temp r t) = TEMP_VAL_REG -> dead (st t) = false.
Proof.
  intros Fi [T F] V; destruct (dead (st t)) eqn:D; auto; destruct (Fi t T F) as (A1 & _); specialize (A1 D).
  rewrite V in A1; destruct (is_global s t); discriminate.
Qed.

(** A temporary in a register with an up-to-date copy in memory. *)
Lemma coherent_steps pend st r t : struct r -> fits st r -> nonfixed t -> pend t = false ->
  val_type (temp r t) = TEMP_VAL_REG -> mem_coherent (temp r t) = true ->
  steps pend st (put st t TS_MEM) r [] r (fun _ => True).
Proof.
  intros S Fi N P V C; assert (D := reg_alive st r t Fi N V); destruct N as [T F].
  destruct (Fi t T F) as (A1 & B1 & C1 & D1); assert (Al := D1 V C); constructor; auto; [| |intros h; apply same_stack_refl].
  - apply (fits_other st r); auto; intros _; unfold fits1; rewrite V; cbn; splits; auto; intros; splits; auto; congruence.
  - intros m h Ho; apply (holds_other pend st r); auto; intros _ _; specialize (Ho t T P); unfold holds1, loc in *.
    rewrite F, V in *; destruct Ho as (H1 & H2 & H3); specialize (H1 D); specialize (H3 eq_refl C); cbn [moves fold_left]; splits; intros; congruence.
Qed.

(** Bringing memory up to date, and then releasing the register or not. *)
Definition flush_reg (t : Z) : M unit :=
  ts <- get_temp t ;;
  if mem_coherent ts then ret tt
  else (if mem_allocated ts then ret tt else temp_allocate_frame cfg t) ;;; store_temp (reg ts) t ;;; on_temp t (set_coherent true).

Lemma flush_steps pend st r t : struct r -> fits st r -> nonfixed t -> pend t = false -> val_type (temp r t) = TEMP_VAL_REG ->
  wp (flush_reg t) r (fun r' c _ =>
    steps pend st (put st t TS_MEM) r c r' (fun _ => True) /\ (forall u, u <> t -> temp r' u = temp r u) /\
    val_type (temp r' t) = TEMP_VAL_REG /\ reg (temp r' t) = reg (temp r t) /\ (forall y, reg_to_temp r' y = reg_to_temp r y)).
Proof.
  intros S Fi N P V; unfold flush_reg; wp_step; wp_step; destruct (mem_coherent (temp r t)) eqn:C.
  - apply wp_ret; splits; auto; now apply coherent_steps.
  - apply wp_bind; destruct (mem_allocated (temp r t)) eqn:A.
    + apply wp_ret; eapply wp_mono; [now apply (store_steps pend st r t)|].
      intros r' c [] (St & E & O & Ow); cbn [app]; splits; auto; rewrite E; auto.
    + eapply wp_mono; [now apply (frame_steps pend st r t)|]; intros r1 c1 [] (-> & St1 & O1 & (off & E1) & Ow1).
      assert (V1 : val_type (temp r1 t) = TEMP_VAL_REG) by (rewrite E1; exact V).
      replace (reg (temp r t)) with (reg (temp r1 t)) by (rewrite E1; reflexivity).
      eapply wp_mono; [apply (store_steps pend st r1 t); auto; [apply St1|apply St1|now rewrite E1]|].
      intros r2 c2 [] (St2 & E2 & O2 & Ow2); splits.
      * apply (steps_trans pend st st (put st t TS_MEM) r [] r1 c2 r2 (fun _ => True) (fun _ => True)); auto.
      * intros u X; rewrite O2, O1; auto.
      * rewrite E2; exact V1.
      * now rewrite E2.
      * intros y; now rewrite Ow2, Ow1.
Qed.

(** A register is given back, the value stays in memory. *)
Lemma spill_steps pend st r t : struct r -> fits st r -> nonfixed t -> val_type (temp r t) = TEMP_VAL_REG ->
  mem (st t) = true -> steps pend st st r [] (release t TEMP_VAL_MEM r) (fun _ => True).
Proof.
  intros S Fi N V M; assert (D := reg_alive st r t Fi N V); destruct N as [T F]; apply (steps_self pend st st t).
  destruct (Fi t T F) as (A1 & B1 & C1 & D1); destruct (C1 M) as (Al & _ & Co); specialize (Co V).
  assert (O : forall u, u <> t -> temp (release t TEMP_VAL_MEM r) u = temp r u) by (intros; now apply temp_release_ne).
  constructor; auto; [now apply release_struct| | |intros h; apply same_stack_refl].
  - apply (fits_other st r); auto; intros _; rewrite temp_release, Z.eqb_refl; unfold fits1; cbn; splits; intros; splits; auto; congruence.
  - intros m h Ho; apply (holds_other pend st r); auto; intros _ P; specialize (Ho t T P); unfold holds1, loc in *.
    rewrite F in *; rewrite slot_release, temp_release, Z.eqb_refl; cbn; destruct Ho as (H1 & H2 & H3); splits; auto; try congruence.
    intros _; now rewrite H2.
Qed.

Lemma truthy_pos x : 0 < x -> truthy x = true.
Proof. intros H; unfold truthy; now rewrite (proj2 (Z.eqb_neq x 0)) by lia. Qed.

(** The end of [temp_sync]: the register is kept, given back, or the value dies. *)
Definition settle (t fod : Z) : M unit := if truthy fod then temp_free_or_dead s t fod else ret tt.

Lemma settle_steps pend st r t fod x : struct r -> fits st r -> nonfixed t -> val_type (temp r t) = TEMP_VAL_REG ->
  mem (st t) = true -> dead x = (0 <? fod) ->
  wp (settle t fod) r (fun r' c _ => c = [] /\
    steps pend st (put st t x) r [] r' (fun _ => True) /\ (forall u, u <> t -> temp r' u = temp r u) /\
    (fod = 0 -> r' = r) /\ (forall y, reg_to_temp r y = None -> reg_to_temp r' y = None) /\
    (fod <> 0 -> reg_to_temp r' (reg (temp r t)) = None)).
Proof.
  intros S Fi N V M Dx; assert (D := reg_alive st r t Fi N V).
  assert (Ow2 : forall v y, reg_to_temp r y = None -> reg_to_temp (release t v r) y = None).
  { intros v y H; rewrite release_owner by (auto; apply N); now rewrite H. }
  assert (Ow3 : forall v, reg_to_temp (release t v r) (reg (temp r t)) = None).
  { intros v; rewrite release_owner by (auto; apply N); destruct (sr_reg r S t (proj1 N) (proj2 N) V) as [-> _].
    now rewrite Z.eqb_refl. }
  unfold settle; destruct (Z.lt_trichotomy fod 0) as [Hf|[->|Hf]].
  - replace (truthy fod) with true by (unfold truthy; now rewrite (proj2 (Z.eqb_neq fod 0)) by lia).
    eexists _, [], tt; rewrite free_or_dead_eq by auto; rewrite (proj2 (Z.ltb_lt fod 0)) by assumption; cbn [orb].
    split; [reflexivity|]; splits; auto; try lia; [|intros u X; now rewrite temp_release_ne].
    apply (steps_weaker pend st st); [now apply spill_steps|]; rewrite (proj2 (Z.ltb_ge 0 fod)) in Dx by lia.
    intros u U; unfold put; destruct (Z.eqb_spec u t) as [->|]; [rewrite Dx|]; auto.
  - apply wp_ret; splits; auto; try lia; apply (steps_weaker pend st st); [now apply steps_nil|].
    intros u U; unfold put; destruct (Z.eqb_spec u t) as [->|]; [cbn in Dx; rewrite Dx|]; auto.
  - rewrite truthy_pos by assumption.
    destruct (dead_steps pend st r t x S Fi (proj1 N)) as (r2 & c2 & [] & E2 & -> & St2 & O2 & W2); auto.
    { rewrite Dx; now apply Z.ltb_lt. }
    exists r2, [], tt; unfold temp_dead in E2; pose proof E2 as E3; rewrite free_or_dead_eq in E2, E3 |- * by auto.
    rewrite (proj2 (Z.ltb_ge fod 0)), (proj2 (Z.ltb_ge 1 0)) in * by lia; split; [exact E2|]; injection E3 as <-; splits; auto; lia.
Qed.

(** [temp_sync] of a temporary in a register. *)
Lemma sync_reg_steps fuel pend st r t al fod x : struct r -> fits st r -> nonfixed t -> pend t = false ->
  val_type (temp r t) = TEMP_VAL_REG -> dead x = (0 <? fod) ->
  wp (temp_sync_fuel s cfg (S fuel) t al fod) r (fun r' c _ =>
    steps pend st (put st t x) r c r' (fun _ => True) /\ (forall u, u <> t -> temp r' u = temp r u) /\
    (fod = 0 -> val_type (temp r' t) = TEMP_VAL_REG /\ reg (temp r' t) = reg (temp r t)) /\
    (forall y, reg_to_temp r y = None -> reg_to_temp r' y = None) /\
    (fod <> 0 -> reg_to_temp r' (reg (temp r t)) = None)).
Proof.
  intros S Fi N P V Dx; pose proof (flush_steps pend st r t S Fi N P V) as (r1 & c1 & [] & E1 & St1 & O1 & V1 & R1 & Ow1).
  assert (Es : temp_sync_fuel s cfg (Datatypes.S fuel) t al fod r = (flush_reg t ;;; settle t fod) r).
  { cbn [temp_sync_fuel]; unfold flush_reg, settle, get_temp, bind, get, ret; rewrite (sr_fixed r S t (proj1 N)), (proj2 N), V.
    destruct (mem_coherent (temp r t)); [destruct (truthy fod); [destruct (temp_free_or_dead s t fod r) as [[[]]|]|]; reflexivity|].
    destruct (mem_allocated (temp r t)); [|destruct (temp_allocate_frame cfg t r) as [[[r2 c2] []]|]; [|reflexivity]];
      (destruct (store_temp _ _ _) as [[[r3 c3] []]|]; [|reflexivity]); unfold on_temp, modify; cbn [app];
      destruct (truthy fod); try destruct (temp_free_or_dead s t fod _) as [[[]]|]; cbn [app];
      rewrite ?app_nil_r, ?app_assoc; reflexivity. }
  apply (wp_eq _ _ r _ Es), wp_bind; exists r1, c1, tt; split; [exact E1|].
  eapply wp_mono; [apply (settle_steps pend (put st t TS_MEM) r1 t fod x); auto; [apply St1|apply St1|now rewrite put_eq]|].
  intros r2 c2 [] (-> & St2 & O2 & K2 & W2 & X2); splits.
  - apply (steps_weaker pend st (put (put st t TS_MEM) t x)).
    + apply (steps_trans pend st (put st t TS_MEM) _ r c1 r1 [] r2 (fun _ => True) (fun _ => True)); auto.
    + intros u U; unfold put; destruct (u =? t); auto.
  - intros u X; rewrite O2, O1; auto.
  - intros X; rewrite (K2 X); auto.
  - intros y Y; apply W2; now rewrite Ow1.
  - rewrite <- R1; exact X2.
Qed.

(** ** Finding a register *)

(** A free register may be written. *)
Lemma holds_set_r pend st r m h x v : struct r -> reg_to_temp r x = None -> test_reg (reserved_regs cfg) x = false ->
  holds pend st r m h -> holds pend st r m (set_r h x v).
Proof.
  intros S Ow R Ho t T P; specialize (Ho t T P); unfold holds1, loc in *; destruct (fixed t) eqn:F.
  - destruct (cx_fixed _ _ _ Cx t T F) as [Rt _]; cbn [set_r regs]; rewrite (proj2 (Z.eqb_neq (reg (context t)) x)) by congruence; exact Ho.
  - destruct (val_type (temp r t)) eqn:V;
      try (destruct Ho as (A & B & _); change (home_word r (set_r h x v) t) with (home_word r h t); splits; auto; congruence).
    destruct (sr_reg r S t T F V) as (O & _); change (home_word r (set_r h x v) t) with (home_word r h t); cbn [set_r regs].
    rewrite (proj2 (Z.eqb_neq (reg (temp r t)) x)) by congruence; exact Ho.
Qed.

Lemma free_steps fuel pend st r x al : struct r -> fits st r ->
  (forall t, reg_to_temp r x = Some t -> fixed t = false -> pend t = false) ->
  wp (tcg_reg_free (temp_sync_fuel s cfg (S fuel)) x al) r (fun r' c _ =>
    steps pend st st r c r' (fun _ => True) /\ (forall u, reg_to_temp r x <> Some u -> temp r' u = temp r u) /\
    (forall y, reg_to_temp r y = None -> reg_to_temp r' y = None) /\
    (test_reg (reserved_regs cfg) x = false -> reg_to_temp r' x = None)).
Proof.
  intros S Fi P; unfold tcg_reg_free; wp_step; wp_step; destruct (reg_to_temp r x) as [t|] eqn:E.
  - destruct (sr_owner r S x t E) as (T & R & V); destruct (fixed t) eqn:F.
    + exists r, [], tt; cbn [temp_sync_fuel]; unfold get_temp, bind, get, ret; rewrite (sr_fixed r S t T), F; split; [reflexivity|].
      splits; auto; [now apply steps_nil|]; intros Rs; destruct (sr_fixed_reg r S t T F), (cx_fixed _ _ _ Cx t T F); congruence.
    + assert (N : nonfixed t) by now split.
      eapply wp_mono; [apply (sync_reg_steps fuel pend st r t al (-1) (st t)); auto; rewrite (reg_alive st r t); auto|].
      intros r' c [] (St & O & _ & Ow & Ow'); splits; auto; [now apply (steps_self pend st st t)|intros u Nu; apply O; congruence|].
      intros _; rewrite <- R; apply Ow'; lia.
  - apply wp_ret; splits; auto; now apply steps_nil.
Qed.

(** A register that can be taken. *)
Definition available (desired al : Z) (rev : bool) : Prop :=
  exists x, In x (tcg_target_reg_alloc_order rev) /\ test_reg desired x = true /\ test_reg al x = false.

(** Reserved registers and those of pending temporaries are not given away. *)
Definition guarded (pend : Z -> bool) (r : ra_state) (al : Z) : Prop :=
  (forall x, test_reg (reserved_regs cfg) x = true -> test_reg al x = true) /\
  (forall t, in_temps t -> pend t = true -> fixed t = false -> val_type (temp r t) = TEMP_VAL_REG ->
     test_reg al (reg (temp r t)) = true).

Lemma test_andnot d a x : 0 <= x -> test_reg (d .& Z.lnot a) x = test_reg d x && negb (test_reg a x).
Proof. intros H; unfold test_reg; rewrite Z.land_spec, Z.lnot_spec by assumption; reflexivity. Qed.

Lemma alloc_steps fuel pend st r desired al rev : struct r -> fits st r -> available desired al rev -> guarded pend r al ->
  wp (tcg_reg_alloc (temp_sync_fuel s cfg (S fuel)) desired al rev) r (fun r' c x =>
    steps pend st st r c r' (fun _ => True) /\ (forall u, reg_to_temp r x <> Some u -> temp r' u = temp r u) /\
    (forall y, reg_to_temp r y = None -> reg_to_temp r' y = None) /\
    reg_to_temp r' x = None /\ test_reg desired x = true /\ test_reg al x = false /\ 0 <= x).
Proof.
  intros S Fi (x0 & I0 & D0 & A0) [G1 G2]; unfold tcg_reg_alloc; wp_step; wp_step.
  assert (Ok : forall x, In x (tcg_target_reg_alloc_order rev) -> test_reg (desired .& Z.lnot al) x = true ->
            0 <= x /\ test_reg desired x = true /\ test_reg al x = false).
  { intros x I; pose proof (ok_order rev x I) as Hx; rewrite test_andnot, andb_true_iff, negb_true_iff by assumption; tauto. }
  destruct (find _ (tcg_target_reg_alloc_order rev)) as [x|] eqn:E1.
  - apply find_some in E1 as [I E1]; apply andb_true_iff in E1 as [E1 E2]; destruct (Ok x I E1) as (Hx & Dx & Ax).
    apply wp_ret; splits; auto; [now apply steps_nil|]; destruct (reg_to_temp r x); [discriminate|reflexivity].
  - destruct (find (test_reg _) (tcg_target_reg_alloc_order rev)) as [x|] eqn:E2.
    + apply find_some in E2 as [I E2]; destruct (Ok x I E2) as (Hx & Dx & Ax); apply wp_bind.
      assert (Rx : test_reg (reserved_regs cfg) x = false).
      { destruct (test_reg (reserved_regs cfg) x) eqn:R; auto; apply G1 in R; congruence. }
      eapply wp_mono; [apply (free_steps fuel pend st r x al); auto|].
      * intros t O F; destruct (sr_owner r S x t O) as (T & R & V); destruct (pend t) eqn:P; auto; specialize (G2 t T P F V); congruence.
      * intros r' c [] (St & O & Ow & Ow'); apply wp_ret; rewrite app_nil_r; splits; auto.
    + exfalso; pose proof (find_none _ _ E2 x0 I0) as N; cbv beta in N; rewrite test_andnot, D0, A0 in N by (eapply ok_order; eauto).
      discriminate.
Qed.

(** ** Taking a register *)

(** [t] has taken the free register [x]. *)
Record claimed (t x : Z) (r r' : ra_state) : Prop := {
  cl_other : forall u, u <> t -> temp r' u = temp r u;
  cl_place : same_place (temp r t) (temp r' t);
  cl_val : val_type (temp r' t) = TEMP_VAL_REG;
  cl_reg : reg (temp r' t) = x;
  cl_owner : forall y, reg_to_temp r' y = if y =? x then Some t else reg_to_temp r y;
  cl_frame : current_frame_offset r' = current_frame_offset r
}.

Record may_claim (t x : Z) (r : ra_state) : Prop := {
  mc_temp : nonfixed t;
  mc_free : reg_to_temp r x = None;
  mc_reserved : test_reg (reserved_regs cfg) x = false;
  mc_reg : 0 <= x;
  mc_not_owner : val_type (temp r t) <> TEMP_VAL_REG
}.

Lemma claim_struct r r' t x : struct r -> may_claim t x r -> claimed t x r r' -> struct r'.
Proof.
  intros S [N Ow R Hx Un] [O P V E W C]; apply (struct_change r r' t); auto.
  - intros y u; rewrite W; destruct (Z.eqb_spec y x) as [->|Ny].
    + intros [= <-]; splits; auto; apply N.
    + intros Oy; destruct (sr_owner r S y u Oy) as (U & Ru & Vu); rewrite O by congruence; now splits.
  - intros u U Fu; destruct (Z.eq_dec u t) as [->|Nu]; [rewrite V, E, W, Z.eqb_refl; auto|].
    rewrite O, W by assumption; intros Vu; destruct (sr_reg r S u U Fu Vu) as (Oy & R'); split; [|exact R'].
    rewrite (proj2 (Z.eqb_neq _ x)); [exact Oy|]; congruence.
Qed.

Lemma slot_same_place r r' h t : same_place (temp r t) (temp r' t) -> home_word r' h t = home_word r h t.
Proof. intros (_ & _ & B & O); unfold home_word, place; now rewrite B, O. Qed.

(** The instruction [i] brings the value [v] into the register [x] that [t] takes. *)
Lemma claim_steps pend st r r' t x y i (v : hstate -> Z) :
  struct r -> fits st r -> may_claim t x r -> claimed t x r r' -> is_move i = true -> (forall h, move i h = set_r h x (v h)) ->
  fits1 y t (temp r' t) ->
  (forall m h, pend t = false -> holds1 (st t) r h t (rd m t) ->
     v h = rd m t /\ (mem y = true \/ mem_coherent (temp r' t) = true -> home_word r h t = rd m t)) ->
  steps pend st (put st t y) r [i] r' (fun z => z <> x).
Proof.
  intros S Fi Mc Cl Mi Ei Fy Hv; assert (S' := claim_struct r r' t x S Mc Cl); destruct Mc as [N Ow R Hx Un], Cl as [O P V E W C].
  constructor; auto.
  - cbn [forallb]; now rewrite Mi.
  - apply (fits_other st r); auto.
  - intros m h Ho; unfold moves; cbn [fold_left]; rewrite Ei.
    assert (H1 := holds_set_r pend st r m h x (v h) S Ow R Ho); apply (holds_other pend st r); auto.
    intros T Pt; specialize (Ho t T Pt); destruct (Hv m h Pt Ho) as [Ev Es]; unfold holds1, loc; rewrite (proj2 N), V, E.
    rewrite (slot_same_place r r' _ t P); change (home_word r (set_r h x (v h)) t) with (home_word r h t); cbn [set_r regs]; rewrite Z.eqb_refl.
    splits; [congruence|auto|]; intros _ Co; rewrite Es; auto.
  - intros h z Z0; unfold moves; cbn [fold_left]; rewrite Ei; cbn [set_r regs]; now rewrite (proj2 (Z.eqb_neq z x)).
  - intros h; unfold moves; cbn [fold_left]; rewrite Ei; now split.
Qed.

(** ** Loading a temporary *)

Lemma guarded_reserved pend r al x : guarded pend r al -> test_reg al x = false -> test_reg (reserved_regs cfg) x = false.
Proof. intros [G _] A; destruct (test_reg (reserved_regs cfg) x) eqn:R; auto; apply G in R; congruence. Qed.

(** The end of [temp_load]. *)
Lemma take_steps pend st r t x i b (v : hstate -> Z) :
  struct r -> fits st r -> may_claim t x r -> is_move i = true -> (forall h, move i h = set_r h x (v h)) ->
  dead (st t) = false -> (mem (st t) = true -> b = true) -> (b = true -> mem_allocated (temp r t) = true) ->
  (forall m h, pend t = false -> holds1 (st t) r h t (rd m t) -> v h = rd m t /\ (b = true -> home_word r h t = rd m t)) ->
  wp (emit i ;;; on_temp t (set_coherent b) ;;;
      (on_temp t (fun ts => set_val_type TEMP_VAL_REG (set_reg x ts)) ;;; set_reg_to_temp x (Some t))) r
    (fun r' c _ => steps pend st st r c r' (fun z => z <> x) /\ claimed t x r r' /\ mem_coherent (temp r' t) = b).
Proof.
  intros S Fi Mc Mi Ei D Mb Ab Hv; repeat wp_step; cbn [app]; set (r' := set_reg_to x (Some t) _).
  assert (Et : temp r' t = set_val_type TEMP_VAL_REG (set_reg x (set_coherent b (temp r t)))).
  { subst r'; cbn [set_reg_to temp]; now rewrite !temp_set_eq. }
  assert (Cl : claimed t x r r').
  { constructor; rewrite ?Et; try reflexivity; [|now splits].
    intros u Nu; subst r'; cbn [set_reg_to temp]; now rewrite !temp_set_ne. }
  split; [|split; [exact Cl|now rewrite Et]]; apply (steps_self pend st st t), (claim_steps pend st r r' t x (st t) i v); auto.
  - rewrite Et; unfold fits1; cbn; rewrite D; splits; auto; try congruence; intros; splits; auto; congruence.
  - intros m h Pt Ho; destruct (Hv m h Pt Ho) as [E Es]; split; [exact E|]; rewrite Et; cbn; intros [M|B]; auto.
Qed.

(** [t] is in a register afterwards; the registers in [al] are left alone, with
    their owners. *)
Definition loaded (pend : Z -> bool) (st : temp_states) (r : ra_state) (t desired al : Z) (r' : ra_state) (c : list hinsn) : Prop :=
  steps pend st st r c r' (fun x => test_reg al x = true) /\ val_type (temp r' t) = TEMP_VAL_REG /\
  same_place (temp r t) (temp r' t) /\ (val_type (temp r t) = TEMP_VAL_CONST -> mem_coherent (temp r' t) = false) /\
  (val_type (temp r t) = TEMP_VAL_REG -> r' = r /\ c = []) /\
  (val_type (temp r t) <> TEMP_VAL_REG ->
     test_reg desired (reg (temp r' t)) = true /\ test_reg al (reg (temp r' t)) = false) /\
  (forall u, u <> t -> temp r' u = temp r u \/
     val_type (temp r u) = TEMP_VAL_REG /\ test_reg al (reg (temp r u)) = false) /\
  (forall x, test_reg al x = true -> reg_to_temp r x = None -> reg_to_temp r' x = None).

(** A register for [t] and the value into it. *)
Lemma fetch_steps fuel pend st r t desired al rev (i : Z -> hinsn) b (v : hstate -> Z) :
  struct r -> fits st r -> nonfixed t -> pend t = false -> val_type (temp r t) <> TEMP_VAL_REG ->
  available desired al rev -> guarded pend r al ->
  (forall x, is_move (i x) = true /\ forall h, move (i x) h = set_r h x (v h)) ->
  dead (st t) = false -> (mem (st t) = true -> b = true) -> (b = true -> mem_allocated (temp r t) = true) ->
  (val_type (temp r t) = TEMP_VAL_CONST -> b = false) ->
  (forall m h, holds1 (st t) r h t (rd m t) -> v h = rd m t /\ (b = true -> home_word r h t = rd m t)) ->
  forall k, (forall x r', temp r' t = temp r t -> struct r' -> k x r' = (emit (i x) ;;; on_temp t (set_coherent b) ;;;
      (on_temp t (fun ts => set_val_type TEMP_VAL_REG (set_reg x ts)) ;;; set_reg_to_temp x (Some t))) r') ->
  wp (x <- tcg_reg_alloc (temp_sync_fuel s cfg (S fuel)) desired al rev ;; k x) r (fun r' c _ => loaded pend st r t desired al r' c).
Proof.
  intros S Fi N P V Av G Hi D Mb Ab Hb Hv k Hk; apply wp_bind.
  eapply wp_mono; [apply (alloc_steps fuel pend st r desired al rev); auto|].
  intros r1 c1 x (St1 & O1 & W1 & Fx & Dx & Ax & Hx).
  assert (E1 : temp r1 t = temp r t) by (apply O1; intros X; destruct (sr_owner r S x t X) as (_ & _ & Y); congruence).
  assert (S1 := sp_struct _ _ _ _ _ _ _ St1); eapply wp_eq; [apply (Hk x r1 E1 S1)|].
  assert (Mc : may_claim t x r1) by (constructor; auto; [now apply (guarded_reserved pend r al)|congruence]).
  eapply wp_mono; [apply (take_steps pend st r1 t x (i x) b v); auto|].
  - apply St1.
  - apply Hi.
  - apply Hi.
  - now rewrite E1.
  - intros m h _ H; rewrite (slot_same_place r r1); [|rewrite E1; now splits]; apply Hv.
    now apply (holds1_same _ r1).
  - intros r' c2 [] (St2 & Cl & Eb); pose proof Cl as [Co Cp Cv Cr Cw Cf]; unfold loaded; splits; auto.
    + apply (steps_trans pend st st st r c1 r1 c2 r' (fun _ => True) (fun z => z <> x)); auto; intros z A ->; congruence.
    + now rewrite <- E1.
    + intros X; rewrite Eb; auto.
    + congruence.
    + intros _; rewrite Cr; auto.
    + intros u Nu; rewrite Co by assumption; destruct (reg_to_temp r x) as [w|] eqn:Ew; [|left; apply O1; congruence].
      destruct (Z.eq_dec w u) as [->|Nw]; [right|left; apply O1; congruence].
      destruct (sr_owner r S x u Ew) as (_ & -> & ->); auto.
    + intros y Ay Ey; rewrite Cw, (proj2 (Z.eqb_neq y x)) by congruence; auto.
Qed.

Lemma load_steps fuel pend st r t desired al : struct r -> fits st r -> in_temps t -> pend t = false -> dead (st t) = false ->
  available desired al (indirect_base (temp r t)) -> guarded pend r al ->
  wp (temp_load (temp_sync_fuel s cfg (S fuel)) t desired al) r (fun r' c _ => loaded pend st r t desired al r' c).
Proof.
  intros S Fi T P D Av G; unfold temp_load; wp_step; wp_step.
  assert (F : val_type (temp r t) <> TEMP_VAL_REG -> fixed t = false).
  { intros V; destruct (fixed t) eqn:F; auto; destruct (sr_fixed_reg r S t T F); congruence. }
  destruct (val_type (temp r t)) eqn:V.
  - exfalso; destruct (Fi t T (F ltac:(congruence))) as (_ & B & _); destruct (B D); congruence.
  - apply wp_ret; unfold loaded; splits; auto; try congruence; [now apply steps_nil|now splits].
  - assert (N : nonfixed t) by (split; auto; apply F; congruence); destruct (Fi t T (proj2 N)) as (_ & B & C & _).
    destruct (B D) as [_ Al]; specialize (Al V).
    apply (fetch_steps fuel pend st r t desired al (indirect_base (temp r t))
             (fun x => Ild x (fst (place r t)) (snd (place r t))) true (fun h => home_word r h t)); auto; try congruence.
    + intros m h H; unfold holds1, loc in H; rewrite (proj2 N), V in H; destruct H as (H & _); specialize (H D); injection H as H; auto.
    + intros x r' E S'; pose proof (place_base r' t S' N ltac:(now rewrite E)) as Eb; unfold place in *; rewrite E in Eb.
      cbn [fst snd] in *; rewrite <- Eb; reflexivity.
  - assert (N : nonfixed t) by (split; auto; apply F; congruence); destruct (Fi t T (proj2 N)) as (_ & B & C & _).
    apply (fetch_steps fuel pend st r t desired al (indirect_base (temp r t)) (fun x => Imovi x (val (temp r t)))
             false (fun h => u32 (val (temp r t)))); auto; try congruence.
    + intros M; destruct (C M) as (_ & X & _); congruence.
    + intros m h H; unfold holds1, loc in H; rewrite (proj2 N), V in H; destruct H as (H & _); specialize (H D); split; congruence.
Qed.

End Proof.
