(* ===== verification/TcgRegMoves.v ===== *)
(** * The register allocator on moves (tcg/tcg.c)

    [movi] and [mov] keep the values, and an output is stored or dropped where
    the life data says so. *)

From Stdlib Require Import ZArith Lia List Bool.
From S2P Require Import Prelude Bitops TcgIr TcgOpt TcgCopies TcgOptProof TcgLife TcgLifeProof TcgRegAlloc TcgHostCode TcgRegProof.
Import ListNotations.
Local Open Scope Z_scope.
Local Open Scope c_scope.
Local Open Scope ra_scope.

Lemma wp_unbind {A B} (f : M A) (k : A -> M B) r Q :
  wp (bind f k) r Q -> wp f r (fun r1 c1 a => wp (k a) r1 (fun r2 c2 b => Q r2 (c1 ++ c2) b)).
Proof.
  intros (r' & c & b & E & H); unfold bind in E; destruct (f r) as [[[r1 c1] a]|] eqn:Ef; [|discriminate].
  destruct (k a r1) as [[[r2 c2] b2]|] eqn:Ek; [|discriminate]; injection E as <- <- <-.
  exists r1, c1, a; split; [exact Ef|]; now exists r2, c2, b2.
Qed.

(** The state after some steps. *)
Ltac after_steps St S F :=
  pose proof (sp_struct _ _ _ _ _ _ _ St) as S; pose proof (sp_fits _ _ _ _ _ _ _ St) as F.

Section Moves.
Context {setup : AllocSetup}.

(** ** Sets of registers *)

Lemma test_add_reg set x y : 0 <= x -> test_reg (add_reg set x) y = test_reg set y || (y =? x).
Proof.
  intros H; unfold test_reg, add_reg; rewrite Z.lor_spec, Z.shiftl_1_l, Z.pow2_bits_eqb by assumption.
  now rewrite (Z.eqb_sym x y).
Qed.

(** The reserved registers and those in [l]. *)
Record in_use (al : Z) (l : list Z) : Prop := {
  iu_reserved : forall x, test_reg (reserved_regs cfg) x = true -> test_reg al x = true;
  iu_within : within_regs (reserved_regs cfg) al l
}.

Lemma in_use_reserved : in_use (reserved_regs cfg) [].
Proof. split; auto; intros x; auto. Qed.

Lemma in_use_add al l x : 0 <= x -> in_use al l -> in_use (add_reg al x) (x :: l).
Proof.
  intros Hx [A B]; split; intros y; rewrite test_add_reg by assumption.
  - intros R; now rewrite A.
  - intros H; apply orb_true_iff in H as [H|H]; [destruct (B y H); [now left|right; now right]|].
    apply Z.eqb_eq in H; subst; right; now left.
Qed.

Lemma in_use_room al l desired rev : in_use al l -> (length l <= 6)%nat -> roomy (reserved_regs cfg) desired -> available desired al rev.
Proof.
  intros [_ B] L R; destruct (R rev l L) as (x & I & D & Rx & N); exists x; splits; auto.
  destruct (test_reg al x) eqn:A; auto; destruct (B x A); [congruence|contradiction].
Qed.

Definition nobody : Z -> bool := fun _ => false.

Lemma in_use_guarded al l r : in_use al l -> guarded nobody r al.
Proof. intros [A _]; split; auto; discriminate. Qed.

(** ** The end of an output *)

(** [temp_sync] of a constant. *)
Lemma sync_const_steps st r t al l fod x : in_use al l -> (length l <= 6)%nat -> struct r -> fits st r -> nonfixed t -> dead (st t) = false ->
  val_type (temp r t) = TEMP_VAL_CONST -> mem_coherent (temp r t) = false -> dead x = (0 <? fod) ->
  wp (temp_sync s cfg t al fod) r (fun r' c _ => steps nobody st (put st t x) r c r' (fun _ => False)).
Proof.
  intros Al L S Fi N D V C Dx; unfold temp_sync; cbn [temp_sync_fuel].
  wp_step; wp_step; rewrite (sr_fixed r S t (proj1 N)), (proj2 N), C, V, andb_false_r; wp_step; wp_step.
  assert (Fr : wp (if mem_allocated (temp r t) then ret tt else temp_allocate_frame cfg t) r (fun r1 c1 _ =>
            c1 = [] /\ steps nobody st st r [] r1 (fun _ => True) /\ mem_allocated (temp r1 t) = true /\
            val_type (temp r1 t) = TEMP_VAL_CONST /\ mem_coherent (temp r1 t) = false)).
  { destruct (mem_allocated (temp r t)) eqn:A; [apply wp_ret; splits; auto; now apply steps_nil|].
    eapply wp_mono; [apply (frame_steps nobody st r t); auto|].
    intros r1 c1 [] (-> & St & _ & (off & E) & _); rewrite E; splits; auto. }
  eapply wp_mono; [exact Fr|]; clear Fr; intros r1 c1 [] (-> & St1 & A1 & V1 & C1); wp_step; wp_step.
  eapply wp_mono; [apply (load_steps 0 nobody st r1 t tcg_target_available_regs al); auto; try apply St1|].
  { apply N. } { apply (in_use_room al l); auto; apply ok_available. } { now apply (in_use_guarded al l). }
  intros r2 c2 [] (St2 & V2 & (_ & P2 & _) & C2 & _); wp_step; wp_step.
  assert (A2 : mem_allocated (temp r2 t) = true) by congruence.
  pose proof (wp_unbind _ _ _ _ (store_steps nobody st r2 t (sp_struct _ _ _ _ _ _ _ St2) (sp_fits _ _ _ _ _ _ _ St2) N eq_refl V2 A2)) as H2.
  eapply wp_mono; [exact H2|]; clear H2; intros r2' c3 [] H3; eapply wp_mono; [exact H3|]; clear H3; intros r3 c3' [] (St3 & E3 & _).
  eapply wp_mono; [apply (settle_steps nobody (put st t TS_MEM) r3 t fod x); [apply St3|apply St3|exact N|now rewrite E3|now rewrite put_eq|exact Dx]|].
  intros r4 c4 [] (-> & St4 & _); rewrite !app_nil_r; cbn [app]; rewrite <- app_assoc; set (c5 := c3 ++ c3') in *.
  apply (steps_weaker nobody st (put (put st t TS_MEM) t x)); [|intros u U; unfold put; destruct (u =? t); auto].
  pose proof (steps_seq _ _ _ _ _ _ _ _ _ _ _ St1 (steps_seq _ _ _ _ _ _ _ _ _ _ _ St2 (steps_seq _ _ _ _ _ _ _ _ _ _ _ St3 St4))) as H.
  rewrite app_nil_r in H; eapply steps_keep; [exact H|]; cbv beta; tauto.
Qed.

Lemma b2z_dead b : (0 <? b2z b) = b.
Proof. now destruct b. Qed.

Lemma finish_reg_steps pend st r t life i al x : struct r -> fits st r -> nonfixed t -> pend t = false ->
  val_type (temp r t) = TEMP_VAL_REG -> IS_DEAD_ARG life i = dead x -> NEED_SYNC_ARG life i = mem x ->
  wp (finish_out s cfg t life i al) r (fun r' c _ =>
    steps pend st (put st t x) r c r' (fun _ => True) /\ (forall u, u <> t -> temp r' u = temp r u) /\
    (forall y, reg_to_temp r y = None -> reg_to_temp r' y = None)).
Proof.
  intros S Fi N P V ED EM; assert (D := reg_alive st r t Fi N V); unfold finish_out; rewrite ED, EM; destruct (mem x) eqn:Mx.
  - eapply wp_mono; [apply (sync_reg_steps 1 pend st r t al _ x); auto; now rewrite b2z_dead|].
    intros r' c [] (St & O & _ & W & _); now splits.
  - destruct (dead x) eqn:Dx.
    + eapply wp_mono; [apply (dead_steps pend st r t x); auto; [apply N|congruence]|].
      intros r' c [] (-> & St & O & W); now splits.
    + apply wp_ret; splits; auto; apply (steps_weaker pend st st); [now apply steps_nil|].
      intros u U; unfold put; destruct (Z.eqb_spec u t) as [->|]; [rewrite Dx, Mx, D; now split|now split].
Qed.

Lemma finish_const_steps st r t life i al l x : in_use al l -> (length l <= 6)%nat -> struct r -> fits st r -> nonfixed t ->
  dead (st t) = false -> mem (st t) = false -> val_type (temp r t) = TEMP_VAL_CONST -> mem_coherent (temp r t) = false ->
  IS_DEAD_ARG life i = dead x -> NEED_SYNC_ARG life i = mem x ->
  wp (finish_out s cfg t life i al) r (fun r' c _ => steps nobody st (put st t x) r c r' (fun _ => False)).
Proof.
  intros Al L S Fi N D M V C ED EM; unfold finish_out; rewrite ED, EM; destruct (mem x) eqn:Mx.
  - apply (sync_const_steps st r t al l); auto; now rewrite b2z_dead.
  - destruct (dead x) eqn:Dx.
    + eapply wp_mono; [apply (dead_steps nobody st r t x); auto; [apply N|congruence]|].
      intros r' c [] (-> & St & _); eapply steps_keep; [exact St|now intros].
    + apply wp_ret; apply (steps_weaker nobody st st); [now apply steps_nil|].
      intros u U; unfold put; destruct (Z.eqb_spec u t) as [->|]; [rewrite Dx, Mx, D; now split|now split].
Qed.

(** ** Constants *)

(** The code of an operation that computes [f] on the temporaries. *)
Record computes (st0 st1 : temp_states) (r : ra_state) (c : list hinsn) (r' : ra_state) (f : store -> store) : Prop := {
  cp_moves : forallb is_move c = true;
  cp_struct : struct r';
  cp_fits : fits st1 r';
  cp_holds : forall m h, wf_store s m -> holds nobody st0 r m h -> holds nobody st1 r' (f m) (moves c h)
}.

Ltac after_code Cp S F :=
  pose proof (cp_struct _ _ _ _ _ _ Cp) as S; pose proof (cp_fits _ _ _ _ _ _ Cp) as F.

Lemma computes_then st0 st1 st2 r c r1 c' r2 f k :
  computes st0 st1 r c r1 f -> steps nobody st1 st2 r1 c' r2 k -> computes st0 st2 r (c ++ c') r2 f.
Proof.
  intros [A B C D] [A' B' C' D' _ _]; constructor; auto; [now rewrite forallb_app, A, A'|].
  intros m h Wm Ho; rewrite moves_app; auto.
Qed.

(** [st'] asks for no more than [st]: a global that is only in memory may be
    alive, and the register of a fixed one is its memory. *)
Definition relaxes (st st' : temp_states) : Prop :=
  forall t, in_temps t ->
    dead (st' t) = dead (st t) /\ (mem (st' t) = true -> mem (st t) = true) \/
    fixed t = true /\ dead (st t) = false \/
    is_global s t = true /\ dead (st t) = true /\ mem (st t) = true.

Lemma weaker_relaxes st st' : weaker st st' -> relaxes st st'.
Proof. intros Wk t T; left; auto. Qed.

Lemma fits_relaxes st st' r : struct r -> relaxes st st' -> fits st r -> fits st' r.
Proof.
  intros S Rx Fi t T F; destruct (Fi t T F) as (A & B & C & D); destruct (Rx t T) as [[E M]|[[X _]|(G & X & M)]]; [|congruence|].
  - unfold fits1; rewrite E; splits; auto; intros Y; apply C; auto.
  - destruct (sr_global r S t T G F) as (Al & _); specialize (A X); rewrite G in A; unfold fits1; rewrite A, G, Al; splits; auto;
      intros; splits; congruence.
Qed.

Lemma holds_relaxes pend st st' r m h : relaxes st st' -> fits st r -> holds pend st r m h -> holds pend st' r m h.
Proof.
  intros Rx Fi Ho t T P; specialize (Ho t T P); unfold holds1 in *; destruct (fixed t) eqn:F.
  - intros H; apply Ho; destruct (Rx t T) as [[E M]|[[_ X]|(_ & _ & X)]]; auto; destruct H; [left; congruence|auto].
  - destruct Ho as (A & B & C); destruct (Rx t T) as [[E M]|[[X _]|(G & X & M)]]; [rewrite E; splits; auto|congruence|].
    splits; auto; intros _; destruct (Fi t T F) as (V & _); specialize (V X); rewrite G in V; unfold loc; rewrite V; now rewrite B.
Qed.

Lemma computes_relaxes st0 st1 st2 r c r' f : computes st0 st1 r c r' f -> relaxes st1 st2 -> computes st0 st2 r c r' f.
Proof.
  intros [A B C D] Rx; constructor; auto; [now apply (fits_relaxes st1)|]; intros m h Wm Ho.
  apply (holds_relaxes nobody st1); auto.
Qed.

Lemma computes_ext st0 st1 r c r' f g :
  computes st0 st1 r c r' f -> (forall m h, holds nobody st0 r m h -> f m = g m) -> computes st0 st1 r c r' g.
Proof. intros [A B C D] E; constructor; auto; intros m h Wm Ho; rewrite <- (E m h Ho); auto. Qed.

(** Steps before. *)
Lemma computes_after st0 st1 st2 r c r1 c' r2 f k :
  steps nobody st0 st1 r c r1 k -> computes st1 st2 r1 c' r2 f -> computes st0 st2 r (c ++ c') r2 f.
Proof.
  intros [A' B' C' D' _ _] [A B C D]; constructor; auto; [now rewrite forallb_app, A, A'|].
  intros m h Wm Ho; rewrite moves_app; auto.
Qed.

(** One temporary gets a new value. *)
Lemma holds_write pend st r r' m h t x v : wf_store s m -> in_temps t -> holds pend st r m h ->
  (forall u, u <> t -> temp r' u = temp r u) -> (pend t = false -> holds1 x r' h t v) -> holds pend (put st t x) r' (wr m t v) h.
Proof.
  intros Wm T Ho O H u U P; destruct (Z.eq_dec u t) as [->|N].
  - rewrite put_eq, (rd_wr_eq s few_temps) by assumption; auto.
  - rewrite put_ne, (rd_wr_ne s few_temps) by (assumption || congruence); apply (holds1_same _ r); auto.
Qed.

(** [t] becomes a constant. *)
Lemma const_computes st r t f : struct r -> fits st r -> nonfixed t -> val_type (temp r t) <> TEMP_VAL_REG ->
  same_place (temp r t) (f (temp r t)) -> val_type (f (temp r t)) = TEMP_VAL_CONST ->
  computes st (put st t 0) r [] (set_temp_at t f r) (fun m => wr m t (u32 (val (f (temp r t))))).
Proof.
  intros S Fi N V P V'; set (r' := set_temp_at t f r).
  assert (Et : temp r' t = f (temp r t)) by apply temp_set_eq.
  assert (O : forall u, u <> t -> temp r' u = temp r u) by (intros u Nu; now apply temp_set_ne).
  constructor; auto.
  - apply (struct_change r r' t); auto; [now rewrite Et| |].
    + intros x u W; destruct (sr_owner r S x u W) as (U & R & Vu); rewrite O by congruence; now splits.
    + intros u U Fu; destruct (Z.eq_dec u t) as [->|Nu]; [rewrite Et; congruence|rewrite O by assumption; now apply (sr_reg r S)].
  - apply (fits_other st r); auto; intros _; rewrite Et; unfold fits1; rewrite V'; splits; try congruence; intros; try discriminate; splits; congruence.
  - intros m h Wm Ho; apply (holds_write nobody st r); auto; [apply N|]; intros _.
    unfold holds1, loc; rewrite (proj2 N), Et, V'; splits; [auto|discriminate|congruence].
Qed.

Lemma leave_reg_none t r : val_type (temp r t) <> TEMP_VAL_REG -> leave_reg t r = Some (r, [], tt).
Proof. intros V; unfold leave_reg, get_temp, bind, get, ret; destruct (is_val TEMP_VAL_REG (temp r t)) eqn:E; [apply is_val_iff in E; congruence|reflexivity]. Qed.

Lemma dead_not_reg st r t : fits st r -> nonfixed t -> dead (st t) = true -> val_type (temp r t) <> TEMP_VAL_REG.
Proof. intros Fi N D V; now rewrite (reg_alive st r t) in D. Qed.

Lemma movi_ok st0 st1 r o v life : struct r -> fits st0 r -> nonfixed o -> dead (st0 o) = true -> weaker (put st0 o (st1 o)) st1 ->
  IS_DEAD_ARG life 0 = dead (st1 o) -> NEED_SYNC_ARG life 0 = mem (st1 o) ->
  wp (tcg_reg_alloc_movi s cfg [o; v] life) r (fun r' c _ => computes st0 st1 r c r' (fun m => wr m o (u32 v))).
Proof.
  intros S Fi N D Wk ED EM; unfold tcg_reg_alloc_movi; cbn [nth]; wp_step; wp_step.
  rewrite (sr_fixed r S o (proj1 N)), (proj2 N); assert (V := dead_not_reg st0 r o Fi N D).
  wp_step; exists r, [], tt; split; [now apply leave_reg_none|]; wp_step; wp_step.
  set (f := fun ts => _); assert (C := const_computes st0 r o f S Fi N V ltac:(now splits) eq_refl); set (r1 := set_temp_at o f r) in *.
  assert (E1 : temp r1 o = f (temp r o)) by apply temp_set_eq.
  eapply wp_mono; [apply (finish_const_steps (put st0 o 0) r1 o life 0 (reserved_regs cfg) [] (st1 o)); rewrite ?put_eq, ?E1; auto|].
  - apply in_use_reserved.
  - cbn; lia.
  - apply C.
  - apply C.
  - intros r2 c [] St; cbn [app]; apply (computes_relaxes st0 (put (put st0 o 0) o (st1 o))).
    + rewrite <- (app_nil_l c); eapply computes_then; eauto.
    + apply weaker_relaxes; intros u U; destruct (Wk u U); unfold put in *; now destruct (u =? o).
Qed.

(** ** Moves *)

(** A temporary in a register. *)
Lemma reg_value st r t m h : struct r -> fits st r -> holds nobody st r m h -> in_temps t -> dead (st t) = false ->
  val_type (temp r t) = TEMP_VAL_REG -> regs h (reg (temp r t)) = rd m t.
Proof.
  intros S Fi Ho T D V; specialize (Ho t T eq_refl); unfold holds1, loc in Ho; destruct (fixed t) eqn:F.
  - destruct (sr_fixed_reg r S t T F) as [-> _]; auto.
  - rewrite V in Ho; destruct Ho as (H & _); specialize (H D); congruence.
Qed.

Lemma const_word st r t m h : nonfixed t -> holds nobody st r m h -> dead (st t) = false ->
  val_type (temp r t) = TEMP_VAL_CONST -> u32 (val (temp r t)) = rd m t.
Proof.
  intros [T F] Ho D V; specialize (Ho t T eq_refl); unfold holds1, loc in Ho; rewrite F, V in Ho.
  destruct Ho as (H & _); specialize (H D); congruence.
Qed.

(** [t] takes a register that holds its new value. *)
Lemma claim_fits st r r' t x : fits st r -> claimed t x r r' -> mem_coherent (temp r' t) = false -> fits (put st t 0) r'.
Proof.
  intros Fi [O P V E W C] Co; apply (fits_other st r); auto; intros _; unfold fits1; rewrite V, Co.
  splits; try congruence; intros; try discriminate; splits; congruence.
Qed.

Lemma claim_holds pend st r r' m h t x v : nonfixed t -> wf_store s m -> holds pend st r m h -> claimed t x r r' ->
  mem_coherent (temp r' t) = false -> regs h x = v -> holds pend (put st t 0) r' (wr m t v) h.
Proof.
  intros N Wm Ho [O P V E W C] Co Ev; apply (holds_write pend st r); auto; [apply N|]; intros _.
  unfold holds1, loc; rewrite (proj2 N), V, E, Co; splits; try congruence; discriminate.
Qed.

(** A temporary that is not in a register does not mind what its [reg] is. *)
Lemma idle_steps pend st r t x : struct r -> fits st r -> nonfixed t -> val_type (temp r t) <> TEMP_VAL_REG ->
  steps pend st st r [] (set_temp_at t (set_reg x) r) (fun _ => True).
Proof.
  intros S Fi N V; apply (steps_self pend st st t); set (r' := set_temp_at t (set_reg x) r).
  assert (Et : temp r' t = set_reg x (temp r t)) by apply temp_set_eq.
  assert (O : forall u, u <> t -> temp r' u = temp r u) by (intros u Nu; now apply temp_set_ne).
  constructor; auto; [| | |intros h; apply same_stack_refl].
  - apply (struct_change r r' t); auto; [rewrite Et; now splits| |].
    + intros y u W; destruct (sr_owner r S y u W) as (U & R & Vu); rewrite O by congruence; now splits.
    + intros u U Fu; destruct (Z.eq_dec u t) as [->|Nu]; [rewrite Et; cbn; congruence|rewrite O by assumption; now apply (sr_reg r S)].
  - apply (fits_other st r); auto; intros _; rewrite Et; exact (Fi t (proj1 N) (proj2 N)).
  - intros m h Ho; apply (holds_other pend st r); auto; intros T P; specialize (Ho t T P); unfold holds1, loc, home_word, place in *.
    rewrite (proj2 N) in *; rewrite Et; cbn in *; destruct Ho as (H1 & H2 & _).
    splits; auto; [|congruence]; intros Y; rewrite <- (H1 Y); destruct (val_type (temp r t)); auto; congruence.
Qed.

(** A store of the value of [i] to the place of [o], which is dead. *)
Lemma store_computes st r o i x : struct r -> fits st r -> nonfixed o -> dead (st o) = true -> dead x = true ->
  mem_allocated (temp r o) = true -> in_temps i -> dead (st i) = false -> val_type (temp r i) = TEMP_VAL_REG ->
  wp (store_temp (reg (temp r i)) o) r (fun r' c _ => r' = r /\ computes st (put st o x) r c r (fun m => wr m o (rd m i))).
Proof.
  intros S Fi N D Dx A I Di V; unfold store_temp; repeat wp_step; rewrite (place_base r o S N A); cbn [app]; split; [reflexivity|].
  assert (Vo := dead_not_reg st r o Fi N D); destruct (Fi o (proj1 N) (proj2 N)) as (F1 & F2 & F3 & F4).
  constructor; cbn [forallb is_move moves fold_left move]; auto.
  - apply (fits_other st r); auto; intros _; unfold fits1; rewrite Dx; splits; auto; try congruence.
    intros _; splits; auto; try congruence; rewrite F1 by assumption; destruct (is_global s o); discriminate.
  - intros m h Wm Ho; rewrite (reg_value st r i m h S Fi Ho I Di V); change (mem_offset (temp r o)) with (snd (place r o)).
    intros u U _; specialize (Ho u U eq_refl); destruct (Z.eq_dec u o) as [->|Nu].
    + rewrite put_eq, (rd_wr_eq s few_temps) by assumption; unfold holds1; rewrite (proj2 N), slot_store, Z.eqb_refl by auto.
      splits; congruence.
    + rewrite put_ne, (rd_wr_ne s few_temps) by (congruence || assumption || apply N); apply holds1_store; auto; intros Fu; now apply Fi.
Qed.

Lemma relaxes_refl st : relaxes st st.
Proof. intros t T; now left. Qed.

(** An input that dies here, or not. *)
Lemma drop_steps pend st r t life i x : struct r -> fits st r -> in_temps t -> dead (st t) = false -> (mem x = true -> mem (st t) = true) ->
  IS_DEAD_ARG life i = dead x ->
  wp (if IS_DEAD_ARG life i then temp_dead s t else ret tt) r (fun r' c _ =>
    c = [] /\ steps pend st (put st t x) r [] r' (fun _ => True) /\ (forall u, u <> t -> temp r' u = temp r u) /\
    (forall y, reg_to_temp r y = None -> reg_to_temp r' y = None)).
Proof.
  intros S Fi T D M ->; destruct (dead x) eqn:Dx; [now apply dead_steps|].
  apply wp_ret; splits; auto; apply (steps_weaker pend st st); [now apply steps_nil|].
  intros u U; unfold put; destruct (Z.eqb_spec u t) as [->|]; [rewrite D, Dx|]; now split.
Qed.

(** What the life data of [mov o, i] says. *)
Record mov_life (st0 st1 : temp_states) (o i life : Z) : Prop := {
  mv_out : nonfixed o;
  mv_in : in_temps i;
  mv_ne : o <> i;
  mv_dead : dead (st0 o) = true;
  mv_alive : dead (st0 i) = false;
  mv_needed : dead (st1 o) = true -> mem (st1 o) = true;
  mv_odead : IS_DEAD_ARG life 0 = dead (st1 o);
  mv_osync : NEED_SYNC_ARG life 0 = mem (st1 o);
  mv_idead : IS_DEAD_ARG life 1 = dead (st1 i);
  mv_imem : mem (st1 i) = true -> mem (st0 i) = true;
  mv_rest : weaker (put (put st0 i (st1 i)) o (st1 o)) st1
}.

Lemma mov_rest st0 st1 o i life x : mov_life st0 st1 o i life -> dead x = dead (st1 o) -> (mem (st1 o) = true -> mem x = true) ->
  weaker (put (put st0 o x) i (st1 i)) st1.
Proof.
  intros L D M u U; destruct (mv_rest _ _ _ _ _ L u U) as [A B]; pose proof (mv_ne _ _ _ _ _ L).
  unfold put in *; destruct (Z.eqb_spec u i), (Z.eqb_spec u o); subst; auto; try congruence; rewrite D; auto.
Qed.

(** The output is needed in memory only. *)
Lemma mov_store_ok st0 st1 r o i life : struct r -> fits st0 r -> mov_life st0 st1 o i life ->
  dead (st1 o) = true -> val_type (temp r i) = TEMP_VAL_REG ->
  wp (ots <- get_temp o ;;
      (if mem_allocated ots then ret tt else temp_allocate_frame cfg o) ;;;
      store_temp (reg (temp r i)) o ;;;
      (if IS_DEAD_ARG life 1 then temp_dead s i else ret tt) ;;;
      temp_dead s o) r (fun r' c _ => computes st0 st1 r c r' (fun m => wr m o (rd m i))).
Proof.
  intros S Fi L D V; destruct (L) as [N I Ne Dd Al _ _ _ ID IM _]; wp_step; wp_step; wp_step.
  assert (Fr : wp (if mem_allocated (temp r o) then ret tt else temp_allocate_frame cfg o) r (fun r1 c1 _ =>
            c1 = [] /\ steps nobody st0 st0 r [] r1 (fun _ => True) /\ mem_allocated (temp r1 o) = true /\ temp r1 i = temp r i)).
  { destruct (mem_allocated (temp r o)) eqn:A; [apply wp_ret; splits; auto; now apply steps_nil|].
    eapply wp_mono; [apply (frame_steps nobody st0 r o); auto|].
    intros r1 c1 [] (-> & St & O & (off & E) & _); rewrite E, O by congruence; splits; auto. }
  eapply wp_mono; [exact Fr|]; clear Fr; intros r1 c1 [] (-> & St1 & A1 & E1); rewrite <- E1; wp_step; after_steps St1 S1 F1.
  eapply wp_mono; [apply (store_computes st0 r1 o i (st1 o)); auto; congruence|]; intros r2 c2 [] (-> & Cp); wp_step; after_code Cp S2 F2.
  eapply wp_mono; [apply (drop_steps nobody (put st0 o (st1 o)) r1 i life 1 (st1 i)); rewrite ?put_ne by congruence; auto|].
  intros r3 c3 [] (-> & St3 & _); after_steps St3 S3 F3.
  eapply wp_mono; [apply (dead_steps nobody _ r3 o (st1 o) S3 F3); auto; [apply N|]|].
  { rewrite put_ne, put_eq; auto. }
  intros r4 c4 [] (-> & St4 & _); rewrite !app_nil_r; cbn [app].
  apply (computes_relaxes st0 (put (put (put st0 o (st1 o)) i (st1 i)) o (st1 o))).
  - rewrite <- (app_nil_l c2); eapply computes_after; [exact St1|]; rewrite <- (app_nil_r c2); eapply computes_then; [|exact St4].
    rewrite <- (app_nil_r c2); eapply computes_then; [exact Cp|exact St3].
  - apply weaker_relaxes; intros u U; pose proof (mov_rest st0 st1 o i life (st1 o) L eq_refl ltac:(auto) u U) as X.
    unfold put in *; destruct (Z.eqb_spec u o) as [->|]; auto.
Qed.

(** The input is a constant. *)
Lemma mov_const_ok st0 st1 r o i life : struct r -> fits st0 r -> mov_life st0 st1 o i life ->
  dead (st1 o) = false -> mem (st1 o) = false -> val_type (temp r i) = TEMP_VAL_CONST ->
  wp (leave_reg o ;;;
      on_temp o (fun t => set_known (val (temp r i)) (set_val_type TEMP_VAL_CONST t)) ;;;
      (if IS_DEAD_ARG life 1 then temp_dead s i else ret tt)) r
    (fun r' c _ => computes st0 st1 r c r' (fun m => wr m o (rd m i))).
Proof.
  intros S Fi L D M V; destruct (L) as [N I Ne Dd Al _ _ _ ID IM _].
  assert (Ni : nonfixed i) by (split; auto; destruct (fixed i) eqn:F; auto; destruct (sr_fixed_reg r S i I F); congruence).
  wp_step; exists r, [], tt; split; [now apply leave_reg_none, (dead_not_reg st0)|]; wp_step; wp_step.
  set (f := fun ts => _); pose proof (const_computes st0 r o f S Fi N (dead_not_reg st0 r o Fi N Dd) ltac:(now splits) eq_refl) as Cp.
  set (r1 := set_temp_at o f r) in *; after_code Cp S1 F1.
  eapply wp_mono; [apply (drop_steps nobody (put st0 o 0) r1 i life 1 (st1 i)); rewrite ?put_ne by congruence; auto|].
  intros r3 c3 [] (-> & St3 & _); cbn [app]; apply (computes_relaxes st0 (put (put st0 o 0) i (st1 i))).
  - apply (computes_ext _ _ _ _ _ (fun m => wr m o (u32 (val (temp r i))))); [eapply (computes_then _ _ _ _ []); eauto|].
    intros m h Ho; now rewrite (const_word st0 r i m h).
  - apply weaker_relaxes, (mov_rest st0 st1 o i life); auto; congruence.
Qed.

Lemma dead_frees r t r' c : struct r -> nonfixed t -> val_type (temp r t) = TEMP_VAL_REG -> temp_dead s t r = Some (r', c, tt) ->
  reg_to_temp r' (reg (temp r t)) = None.
Proof.
  intros S N V; unfold temp_dead; rewrite free_or_dead_eq by auto; intros [= <- <-]; rewrite release_owner by (auto; apply N).
  destruct (sr_reg r S t (proj1 N) (proj2 N) V) as [-> _]; now rewrite Z.eqb_refl.
Qed.

Lemma reg_nonneg r t : struct r -> in_temps t -> val_type (temp r t) = TEMP_VAL_REG -> 0 <= reg (temp r t).
Proof.
  intros S T V; destruct (fixed t) eqn:F; [|now apply (sr_reg r S)].
  destruct (sr_fixed_reg r S t T F) as [-> _], (cx_fixed _ _ _ Cx t T F) as [R _]; unfold test_reg in R.
  destruct (Z_lt_ge_dec (reg (context t)) 0); [rewrite Z.testbit_neg_r in R by assumption; discriminate|lia].
Qed.

(** A move into a free register. *)
Lemma mov_steps pend st r x y : struct r -> fits st r -> reg_to_temp r x = None -> test_reg (reserved_regs cfg) x = false ->
  steps pend st st r [Imov x y] r (fun z => z <> x).
Proof.
  intros S Fi W R; constructor; cbn [moves fold_left move]; auto.
  - intros m h Ho; now apply holds_set_r.
  - intros h z N; cbn [set_r regs]; now rewrite (proj2 (Z.eqb_neq z x)).
  - intros h; now split.
Qed.

(** A register for the output of [mov] that holds the value of the input. *)
Definition mov_chosen (st0 st1 : temp_states) (r : ra_state) (o i : Z) (r' : ra_state) (c : list hinsn) : Prop :=
  exists st k, steps nobody st0 st r c r' k /\ may_claim o (reg (temp r' o)) r' /\
    (forall m h, holds nobody st0 r m h -> regs (moves c h) (reg (temp r' o)) = rd m i) /\
    forall x, dead x = dead (st1 o) -> (mem (st1 o) = true -> mem x = true) -> relaxes (put st o x) st1.

Lemma mov_suppressed st0 st1 r o i life : struct r -> fits st0 r -> mov_life st0 st1 o i life ->
  val_type (temp r i) = TEMP_VAL_REG -> IS_DEAD_ARG life 1 = true -> fixed i = false ->
  wp (leave_reg o ;;; on_temp o (set_reg (reg (temp r i))) ;;; temp_dead s i ;;; ret (reserved_regs cfg)) r
    (fun r' c _ => mov_chosen st0 st1 r o i r' c).
Proof.
  intros S Fi L V ID F; destruct (L) as [N I Ne Dd Al _ _ _ ID' IM _].
  assert (Vo := dead_not_reg st0 r o Fi N Dd); wp_step; exists r, [], tt; split; [now apply leave_reg_none|]; wp_step; wp_step; wp_step.
  set (r1 := set_temp_at o _ r); pose proof (idle_steps nobody st0 r o (reg (temp r i)) S Fi N Vo) as St1; fold r1 in St1.
  assert (E1 : temp r1 i = temp r i) by (apply temp_set_ne; congruence).
  assert (Eo : temp r1 o = set_reg (reg (temp r i)) (temp r o)) by apply temp_set_eq; after_steps St1 S1 F1.
  destruct (dead_steps nobody st0 r1 i (st1 i) S1 F1 I) as (r2 & c2 & [] & E2 & -> & St2 & O2 & W2); [congruence|auto|].
  exists r2, [], tt; split; [exact E2|]; wp_step; cbn [app]; exists (put st0 i (st1 i)), (fun x => True /\ True); splits.
  - apply (steps_seq nobody st0 st0 _ r [] r1 [] r2 (fun _ => True) (fun _ => True)); auto.
  - rewrite O2, Eo by congruence; cbn [set_reg reg]; destruct (sr_reg r S i I F V) as (_ & R & Hx); constructor; auto.
    + pose proof (dead_frees r1 i r2 [] S1 ltac:(now split) ltac:(now rewrite E1) E2) as X; now rewrite E1 in X.
    + now rewrite O2, Eo by congruence.
  - intros m h Ho; rewrite O2, Eo by congruence; cbn; now apply (reg_value st0 r i m h).
  - intros x Dx Mx; apply weaker_relaxes; intros u U; pose proof (mov_rest st0 st1 o i life x L Dx Mx u U) as X.
    unfold put in *; destruct (Z.eqb_spec u o), (Z.eqb_spec u i); subst; auto; congruence.
Qed.

Lemma mov_moved st0 st1 r o i life : struct r -> fits st0 r -> mov_life st0 st1 o i life ->
  val_type (temp r i) = TEMP_VAL_REG -> (IS_DEAD_ARG life 1 = true -> fixed i = true) ->
  wp (ots <- get_temp o ;;
      allocated_regs <-
        (if is_val TEMP_VAL_REG ots then ret (reserved_regs cfg)
         else
           let allocated_regs := add_reg (reserved_regs cfg) (reg (temp r i)) in
           x <- tcg_reg_alloc (temp_sync s cfg) tcg_target_available_regs allocated_regs (indirect_base ots) ;;
           on_temp o (set_reg x) ;;; ret allocated_regs) ;;
      ots <- get_temp o ;;
      emit (Imov (reg ots) (reg (temp r i))) ;;; ret allocated_regs) r
    (fun r' c _ => mov_chosen st0 st1 r o i r' c).
Proof.
  intros S Fi L V ID; destruct (L) as [N I Ne Dd Al _ _ _ ID' IM _]; assert (Vo := dead_not_reg st0 r o Fi N Dd).
  wp_step; wp_step; destruct (is_val TEMP_VAL_REG (temp r o)) eqn:E; [apply is_val_iff in E; congruence|]; clear E.
  pose proof (in_use_add _ _ _ (reg_nonneg r i S I V) in_use_reserved) as U; set (al := add_reg _ _) in *; wp_step; wp_step.
  eapply wp_mono; [apply (alloc_steps 1 nobody st0 r tcg_target_available_regs al); auto|].
  { apply (in_use_room al [reg (temp r i)]); auto; [cbn; lia|apply ok_available]. } { now apply (in_use_guarded al [reg (temp r i)]). }
  intros r1 c1 x (St1 & O1 & W1 & Fx & Dx & Ax & Hx); repeat wp_step; cbn [app]; after_steps St1 S1 F1.
  assert (Vo1 := dead_not_reg st0 r1 o F1 N Dd); set (r2 := set_temp_at o _ r1).
  pose proof (idle_steps nobody st0 r1 o x S1 F1 N Vo1) as St2; fold r2 in St2; after_steps St2 S2 F2.
  assert (Eo : temp r2 o = set_reg x (temp r1 o)) by apply temp_set_eq; rewrite Eo; cbn [set_reg reg].
  assert (Rx : test_reg (reserved_regs cfg) x = false) by (apply (guarded_reserved nobody r al); [now apply (in_use_guarded al [reg (temp r i)])|exact Ax]).
  pose proof (mov_steps nobody st0 r2 x (reg (temp r i)) S2 F2 Fx Rx) as St3; rewrite !app_nil_r.
  exists st0; eexists; splits.
  - exact (steps_seq _ _ _ _ _ _ _ _ _ _ _ St1 (steps_seq _ _ _ _ _ _ _ _ _ _ _ St2 St3)).
  - rewrite Eo; cbn [set_reg reg]; constructor; auto; rewrite Eo; exact Vo1.
  - intros m h Ho; rewrite moves_app, Eo; cbn; rewrite Z.eqb_refl, (sp_regs _ _ _ _ _ _ _ St1) by exact Logic.I.
    now apply (reg_value st0 r i m h).
  - intros y Dy My u U'; pose proof (mov_rest st0 st1 o i life y L Dy My u U') as X; unfold put in *.
    destruct (Z.eqb_spec u i) as [->|]; [|left; exact X]; rewrite (proj2 (Z.eqb_neq i o)) in * by congruence.
    destruct (dead (st1 i)) eqn:Di; [right; left; rewrite ID in * by congruence; auto|left; rewrite Al; auto].
Qed.

Lemma mov_finish_ok st0 st1 r c r1 o i life al : mov_chosen st0 st1 r o i r1 c -> nonfixed o -> dead (st1 o) = false ->
  NEED_SYNC_ARG life 0 = mem (st1 o) -> IS_DEAD_ARG life 0 = dead (st1 o) ->
  wp (ots <- get_temp o ;;
      on_temp o (fun t => set_coherent false (set_val_type TEMP_VAL_REG t)) ;;;
      set_reg_to_temp (reg ots) (Some o) ;;;
      (if NEED_SYNC_ARG life 0 then temp_sync s cfg o al 0 else ret tt)) r1
    (fun r' c' _ => computes st0 st1 r (c ++ c') r' (fun m => wr m o (rd m i))).
Proof.
  intros (st & k & St & Mc & Val & Rx) N D EM ED; after_steps St S1 F1; repeat wp_step; cbn [app]; set (r2 := set_reg_to _ _ _).
  assert (Et : temp r2 o = set_coherent false (set_val_type TEMP_VAL_REG (temp r1 o))) by apply temp_set_eq.
  assert (Cl : claimed o (reg (temp r1 o)) r1 r2).
  { constructor; rewrite ?Et; try reflexivity; [|now splits]; intros u Nu; now apply temp_set_ne. }
  assert (Co : mem_coherent (temp r2 o) = false) by now rewrite Et.
  assert (S2 := claim_struct _ _ _ _ S1 Mc Cl); assert (F2 := claim_fits st _ _ _ _ F1 Cl Co).
  assert (Cp : computes st0 (put st o 0) r c r2 (fun m => wr m o (rd m i))).
  { constructor; auto; [apply St|]; intros m h Wm Ho; eapply (claim_holds nobody st r1); eauto; now apply (sp_holds _ _ _ _ _ _ _ St). }
  eapply wp_eq with (g := finish_out s cfg o life 0 al).
  { unfold finish_out; rewrite ED, D; destruct (NEED_SYNC_ARG life 0); reflexivity. }
  eapply wp_mono; [apply (finish_reg_steps nobody (put st o 0) r2 o life 0 al (st1 o)); auto; now rewrite Et|].
  intros r3 c3 [] (St3 & _); eapply computes_relaxes; [eapply computes_then; [exact Cp|exact St3]|].
  intros u U; destruct (Rx (st1 o) eq_refl ltac:(auto) u U) as [X|X]; [left|right]; unfold put in *; destruct (u =? o); auto.
Qed.

Lemma wp_seq {A B} (f : M A) (k : A -> M B) r (P : ra_state -> list hinsn -> A -> Prop) Q :
  wp f r P -> (forall r1 c1 a, P r1 c1 a -> wp (k a) r1 (fun r2 c2 b => Q r2 (c1 ++ c2) b)) -> wp (bind f k) r Q.
Proof. intros H K; apply wp_bind; eapply wp_mono; [exact H|exact K]. Qed.

(** The input is loaded where that is needed. *)
Lemma mov_load_ok st0 st1 r o i life : struct r -> fits st0 r -> mov_life st0 st1 o i life ->
  wp (if (NEED_SYNC_ARG life 0 || false) && negb (is_val TEMP_VAL_REG (temp r i)) || is_val TEMP_VAL_MEM (temp r i)
      then temp_load (temp_sync s cfg) i tcg_target_available_regs (reserved_regs cfg) else ret tt) r
    (fun r' c _ => steps nobody st0 st0 r c r' (fun _ => False) /\
       (val_type (temp r' i) = TEMP_VAL_REG \/ mem (st1 o) = false /\ val_type (temp r' i) = TEMP_VAL_CONST)).
Proof.
  intros S Fi L; destruct (L) as [N I Ne Dd Al _ _ EM _ _ _]; rewrite EM, orb_false_r.
  assert (V : val_type (temp r i) <> TEMP_VAL_DEAD).
  { intros V; destruct (fixed i) eqn:F; [destruct (sr_fixed_reg r S i I F); congruence|].
    destruct (Fi i I F) as (_ & B & _); now destruct (B Al). }
  destruct (_ || _) eqn:E.
  - eapply wp_mono; [apply (load_steps 1 nobody st0 r i); auto|].
    + apply (in_use_room _ []); [apply in_use_reserved|cbn; lia|apply ok_available].
    + apply (in_use_guarded _ []), in_use_reserved.
    + intros r' c [] (St & V' & _); split; [eapply steps_keep; [exact St|now intros]|now left].
  - apply wp_ret; split; [now apply steps_nil|]; apply orb_false_iff in E as [E1 E2]; unfold is_val in *.
    destruct (val_type (temp r i)), (mem (st1 o)); try discriminate; auto; congruence.
Qed.

Lemma mov_ok st0 st1 r o i life : struct r -> fits st0 r -> mov_life st0 st1 o i life ->
  wp (tcg_reg_alloc_mov s cfg [o; i] life) r (fun r' c _ => computes st0 st1 r c r' (fun m => wr m o (rd m i))).
Proof.
  intros S Fi L; destruct (L) as [N I Ne Dd Al Nd OD OS ID IM _]; unfold tcg_reg_alloc_mov; cbn [nth]; wp_step; wp_step; wp_step; wp_step.
  rewrite (sr_fixed r S o (proj1 N)), (proj2 N); eapply wp_seq; [now apply (mov_load_ok st0 st1 r o i life)|].
  intros r1 c1 [] (St1 & V1); after_steps St1 S1 F1; wp_step; wp_step; cbn [app].
  assert (Fin : forall r' c, computes st0 st1 r1 c r' (fun m => wr m o (rd m i)) ->
            computes st0 st1 r ([] ++ [] ++ c1 ++ [] ++ c) r' (fun m => wr m o (rd m i))) by (intros r' c Cp; exact (computes_after _ _ _ _ _ _ _ _ _ _ St1 Cp)).
  rewrite OD, andb_true_r; destruct (dead (st1 o)) eqn:D.
  - destruct V1 as [V1|[X _]]; [|rewrite Nd in X by reflexivity; discriminate].
    wp_step; apply wp_assert; [rewrite OS; auto|]; wp_step; apply wp_assert; [now apply is_val_iff|].
    eapply wp_mono; [now apply (mov_store_ok st0 st1 r1 o i life)|]; intros r2 c2 [] Cp; now apply Fin.
  - destruct V1 as [V1|[M V1]].
    + assert (E : is_val TEMP_VAL_CONST (temp r1 i) = false /\ is_val TEMP_VAL_REG (temp r1 i) = true) by (unfold is_val; now rewrite V1).
      destruct E as [-> E]; wp_step; apply wp_assert; [exact E|].
      eapply wp_seq with (P := fun r' c _ => mov_chosen st0 st1 r1 o i r' c).
      * rewrite (sr_fixed r1 S1 i I), andb_true_r; destruct (IS_DEAD_ARG life 1 && negb (fixed i)) eqn:X.
        -- apply andb_true_iff in X as [X1 X2]; apply negb_true_iff in X2; now apply (mov_suppressed st0 st1 r1 o i life).
        -- apply (mov_moved st0 st1 r1 o i life); auto; intros Y; rewrite Y in X; now destruct (fixed i).
      * intros r2 c2 al Ch; eapply wp_mono; [eapply (mov_finish_ok st0 st1 r1 c2 r2); eauto; congruence|].
        intros r3 c3 [] Cp; now apply Fin.
    + assert (E : is_val TEMP_VAL_CONST (temp r1 i) = true) by (unfold is_val; now rewrite V1).
      rewrite E; eapply wp_mono; [apply (mov_const_ok st0 st1 r1 o i life); auto|]; intros r2 c2 [] Cp; now apply Fin.
Qed.

End Moves.
