(* ===== verification/TcgRegEffects.v ===== *)
(** * Around an operation (tcg/tcg.c)

    What the allocator asserts before side effects and at the end of a basic
    block, the registers a call may destroy, the registers of the outputs and
    what becomes of the outputs. *)

From Stdlib Require Import ZArith Lia List Bool.
From S2P Require Import Prelude Bitops TcgIr TcgOpt TcgCopies TcgOptProof TcgLife TcgLifeProof TcgRegAlloc TcgHostCode TcgRegProof TcgRegMoves.
Import ListNotations.
Local Open Scope Z_scope.
Local Open Scope c_scope.
Local Open Scope ra_scope.

(** ** Registers and temporaries written one after the other *)

Lemma hmem_set_rs xs : forall vs h, hmem (set_rs h xs vs) = hmem h.
Proof. induction xs as [|x xs IH]; intros [|v vs] h; cbn [set_rs]; auto; now rewrite IH. Qed.

Lemma regs_set_rs_ne xs : forall vs h y, ~ In y xs -> regs (set_rs h xs vs) y = regs h y.
Proof.
  induction xs as [|x xs IH]; intros [|v vs] h y N; cbn [set_rs]; auto; rewrite IH by (intros I; apply N; now right).
  cbn; rewrite (proj2 (Z.eqb_neq y x)); auto; intros ->; apply N; now left.
Qed.

Lemma regs_set_rs_nth xs : forall vs h i x v, NoDup xs -> nth_error xs i = Some x -> nth_error vs i = Some v ->
  regs (set_rs h xs vs) x = v.
Proof.
  induction xs as [|y xs IH]; intros [|w vs] h [|i] x v N E F; try discriminate; cbn [set_rs]; inversion_clear N as [|? ? NI N'].
  - injection E as <-; injection F as <-; rewrite regs_set_rs_ne by assumption; cbn; now rewrite Z.eqb_refl.
  - eapply IH; eauto.
Qed.

Lemma for_each_checked {A} (f : A -> M unit) l r : (forall x, In x l -> f x r = Some (r, [], tt)) -> for_each f l r = Some (r, [], tt).
Proof.
  induction l as [|x l IH]; intros H; [reflexivity|]; cbn [for_each]; unfold bind; rewrite H by now left.
  now rewrite IH by (intros y I; apply H; now right).
Qed.

Section Effects.
Context {setup : AllocSetup}.

Lemma rd_wrs_ne ts : forall vs m u, in_temps u -> Forall in_temps ts -> ~ In u ts -> rd (wrs m ts vs) u = rd m u.
Proof.
  induction ts as [|t ts IH]; intros [|v vs] m u U F N; cbn [wrs]; auto; inversion_clear F as [|? ? T F'].
  rewrite IH; auto; [|intros I; apply N; now right]; apply (rd_wr_ne s few_temps); auto; intros ->; apply N; now left.
Qed.

Lemma rd_wrs_nth ts : forall vs m i t v, wf_store s m -> NoDup ts -> Forall in_temps ts -> Forall (inU 32) vs ->
  nth_error ts i = Some t -> nth_error vs i = Some v -> rd (wrs m ts vs) t = v.
Proof.
  induction ts as [|u ts IH]; intros [|w vs] m [|i] t v Wm N F Fv E1 E2; try discriminate; cbn [wrs];
    inversion_clear N as [|? ? NI N']; inversion_clear F as [|? ? T F']; inversion_clear Fv as [|? ? V Fv'].
  - injection E1 as <-; injection E2 as <-; rewrite rd_wrs_ne by assumption; now apply (rd_wr_eq s few_temps).
  - eapply IH; eauto; now apply wf_wr.
Qed.

(** ** Assertions *)

Lemma global_temp t : In t (globals s) -> in_temps t /\ is_global s t = true.
Proof. apply in_globals; [exact few_temps|exact globals_first]. Qed.

Lemma assert_true b r : b = true -> tcg_debug_assert b r = Some (r, [], tt).
Proof. now intros ->. Qed.

Lemma sync_globals_ok st r : struct r -> fits st r -> (forall t, is_global s t = true -> mem (st t) = true) ->
  sync_globals s r = Some (r, [], tt).
Proof.
  intros S Fi M; apply for_each_checked; intros t I; destruct (global_temp t I) as [T G]; unfold get_temp, bind, get, ret.
  rewrite assert_true; [reflexivity|]; rewrite (sr_fixed r S t T); destruct (fixed t) eqn:F; [now rewrite orb_true_r|].
  destruct (Fi t T F) as (_ & _ & C & _); destruct (C (M t G)) as (_ & _ & X); destruct (is_val TEMP_VAL_REG (temp r t)) eqn:V; [|reflexivity].
  apply is_val_iff in V; now rewrite X.
Qed.

Lemma temp_save_ok st r t : struct r -> fits st r -> in_temps t -> is_global s t = true -> dead (st t) = true ->
  temp_save t r = Some (r, [], tt).
Proof.
  intros S Fi T G D; unfold temp_save, get_temp, bind, get, ret; rewrite assert_true; [reflexivity|].
  rewrite (sr_fixed r S t T); destruct (fixed t) eqn:F; [apply orb_true_r|]; destruct (Fi t T F) as (A & _); specialize (A D).
  rewrite G in A; rewrite orb_false_r; now apply is_val_iff.
Qed.

Lemma save_globals_ok st r : struct r -> fits st r -> (forall t, is_global s t = true -> dead (st t) = true) ->
  save_globals s r = Some (r, [], tt).
Proof. intros S Fi D; apply for_each_checked; intros t I; destruct (global_temp t I); apply (temp_save_ok st); auto. Qed.

Lemma not_home t : in_temps t -> has_home s t = is_global s t.
Proof. intros T; unfold has_home; rewrite (cx_locals _ _ _ Cx t T); apply orb_false_r. Qed.

Lemma bb_end_dead t : in_temps t -> dead (tcg_la_bb_end s t) = true /\ mem (tcg_la_bb_end s t) = is_global s t.
Proof. intros T; rewrite bb_end_state, not_home by assumption; now destruct (is_global s t). Qed.

Lemma alloc_bb_end_ok r : struct r -> fits (tcg_la_bb_end s) r -> tcg_reg_alloc_bb_end s r = Some (r, [], tt).
Proof.
  intros S Fi; unfold tcg_reg_alloc_bb_end, bind; rewrite for_each_checked.
  - rewrite (save_globals_ok (tcg_la_bb_end s)); auto; intros t G; rewrite bb_end_state; unfold has_home; now rewrite G.
  - intros t I; unfold locals_and_temps in I; apply in_map_iff in I as (k & <- & I); apply in_seq in I; pose proof globals_first.
    assert (T : in_temps (Z.of_nat k)) by (unfold TcgCopies.in_temps; lia); rewrite (cx_locals _ _ _ Cx _ T); unfold get_temp, bind, get, ret.
    assert (G : is_global s (Z.of_nat k) = false) by (apply Z.ltb_ge; lia).
    rewrite assert_true; [reflexivity|]; apply is_val_iff; assert (F : fixed (Z.of_nat k) = false) by (unfold is_fixed; now rewrite G).
    destruct (Fi _ T F) as (A & _); rewrite A by (now apply bb_end_dead); now rewrite G.
Qed.

(** ** Registers that a call may destroy *)

Lemma clobber_not_fixed r x t : struct r -> test_reg tcg_target_call_clobber_regs x = true -> reg_to_temp r x = Some t -> nonfixed t.
Proof.
  intros S C W; destruct (sr_owner r S x t W) as (T & R & _); split; auto; destruct (fixed t) eqn:F; auto.
  destruct (sr_fixed_reg r S t T F) as [R' _], (cx_fixed _ _ _ Cx t T F) as [_ C']; congruence.
Qed.

Lemma free_clobbered_ok st r al : struct r -> fits st r ->
  wp (free_clobbered s cfg al) r (fun r' c _ => steps nobody st st r c r' (fun _ => True) /\
    (forall y, reg_to_temp r y = None -> reg_to_temp r' y = None) /\
    (forall x, test_reg tcg_target_call_clobber_regs x = true -> reg_to_temp r' x = None)).
Proof.
  intros S Fi; enough (G : forall l r, struct r -> fits st r ->
    wp (for_each (fun x => if test_reg tcg_target_call_clobber_regs x then tcg_reg_free (temp_sync s cfg) x al else ret tt) l) r
      (fun r' c _ => steps nobody st st r c r' (fun _ => True) /\ (forall y, reg_to_temp r y = None -> reg_to_temp r' y = None) /\
         (forall x, In x l -> test_reg tcg_target_call_clobber_regs x = true -> reg_to_temp r' x = None))).
  { eapply wp_mono; [apply (G all_regs r); auto|]; intros r' c [] (A & B & C); splits; auto; intros x X; apply C; auto; now apply ok_clobber. }
  induction l as [|x l IH]; intros r0 S0 F0; cbn [for_each].
  - apply wp_ret; splits; auto; [now apply steps_nil|intros x []].
  - eapply wp_seq with (P := fun r1 c1 _ => steps nobody st st r0 c1 r1 (fun _ => True) /\
      (forall y, reg_to_temp r0 y = None -> reg_to_temp r1 y = None) /\
      (test_reg tcg_target_call_clobber_regs x = true -> reg_to_temp r1 x = None)).
    + destruct (test_reg tcg_target_call_clobber_regs x) eqn:C; [|apply wp_ret; splits; auto; [now apply steps_nil|discriminate]].
      eapply wp_mono; [apply (free_steps 1 nobody st r0 x al); auto|]; intros r1 c1 [] (St & _ & W & W'); splits; auto; intros _.
      destruct (reg_to_temp r0 x) as [t|] eqn:E; [|auto]; apply W'; destruct (clobber_not_fixed r0 x t S0 C E) as [T F].
      destruct (sr_owner r0 S0 x t E) as (_ & R & V); destruct (sr_reg r0 S0 t T F V) as (_ & X & _); congruence.
    + intros r1 c1 [] (St1 & W1 & X1); after_steps St1 S1 F1; eapply wp_mono; [apply (IH r1); auto|].
      intros r2 c2 [] (St2 & W2 & X2); splits; auto; [eapply steps_trans; eauto|]; intros y [<-|I] C; auto.
Qed.

(** ** Outputs after the operation *)

Definition settled_outs (st st1 : temp_states) (outs : list Z) : temp_states := fun t => if existsb (Z.eqb t) outs then st1 t else st t.

Lemma finish_oargs_ok st1 life al outs : forall xs i st r,
  struct r -> fits st r -> NoDup outs -> Forall nonfixed outs -> (length outs <= length xs)%nat ->
  (forall t, In t outs -> val_type (temp r t) = TEMP_VAL_REG) ->
  (forall j t, nth_error outs j = Some t ->
     IS_DEAD_ARG life (i + Z.of_nat j) = dead (st1 t) /\ NEED_SYNC_ARG life (i + Z.of_nat j) = mem (st1 t)) ->
  wp (finish_oargs s cfg life i al outs xs) r (fun r' c _ => steps nobody st (settled_outs st st1 outs) r c r' (fun _ => True)).
Proof.
  induction outs as [|t outs IH]; intros [|x xs] i st r S Fi Nd Nf L V H; cbn [length] in L; try lia; cbn [finish_oargs];
    try (apply wp_ret; now apply steps_nil).
  inversion_clear Nd as [|? ? NI Nd']; inversion_clear Nf as [|? ? N Nf']; destruct (H 0%nat t eq_refl) as [HD HM].
  cbn [Z.of_nat] in HD, HM; rewrite Z.add_0_r in HD, HM; wp_step; wp_step; rewrite (sr_fixed r S t (proj1 N)), (proj2 N); cbn [andb].
  wp_step; wp_step; eapply wp_seq; [apply (finish_reg_steps nobody st r t life i al (st1 t)); auto; apply V; now left|].
  intros r1 c1 [] (St1 & O & _); after_steps St1 S1 F1.
  eapply wp_mono; [apply (IH xs (i + 1) (put st t (st1 t)) r1); auto; try lia|].
  - intros u I; rewrite O by congruence; apply V; now right.
  - intros j u E; destruct (H (Datatypes.S j) u E) as [A B]; rewrite <- A, <- B; split; f_equal; lia.
  - intros r2 c2 [] St2; cbn [app]; eapply steps_weaker; [eapply steps_trans; [exact St1|exact St2|auto|auto]|].
    intros u _; unfold settled_outs, put; cbn [existsb]; destruct (Z.eqb_spec u t) as [->|]; [|auto].
    rewrite not_in_existsb by assumption; auto.
Qed.

End Effects.
