(* ===== verification/TcgRegOps.v ===== *)
(** * The register allocator on operations (tcg/tcg.c)

    [tcg_reg_alloc_op]: the inputs are brought into registers or stay
    constants, inputs that die give their registers back, the outputs get
    registers of their own, and after the operation they are stored or dropped
    where the life data says so. *)

From Stdlib Require Import ZArith Lia List Bool.
From S2P Require Import Prelude Bitops TcgIr TcgOpt TcgCopies TcgOptProof TcgLife TcgLifeProof TcgRegAlloc TcgHostCode TcgRegProof TcgRegMoves.
Import ListNotations.
Local Open Scope Z_scope.
Local Open Scope c_scope.
Local Open Scope ra_scope.

(** An invariant of a loop, over the elements it has passed. *)
Lemma fold_each_inv {A B} (f : B -> A -> M B) (P : list A -> B -> ra_state -> list hinsn -> Prop) l :
  (forall l0 x l1 b r c, l = l0 ++ x :: l1 -> P l0 b r c ->
     wp (f b x) r (fun r' c' b' => P (l0 ++ [x]) b' r' (c ++ c'))) ->
  forall b r, P [] b r [] -> wp (fold_each f l b) r (fun r' c b' => P l b' r' c).
Proof.
  intros H; enough (G : forall l1 l0 b r c, l = l0 ++ l1 -> P l0 b r c -> wp (fold_each f l1 b) r (fun r' c' b' => P l b' r' (c ++ c'))).
  { intros b r P0; eapply wp_mono; [apply (G l [] b r []); auto|]; auto. }
  induction l1 as [|x l1 IH]; intros l0 b r c E P0; cbn [fold_each].
  - apply wp_ret; rewrite app_nil_r in *; now subst.
  - eapply wp_seq; [eapply H; eauto|]; cbv beta; intros r1 c1 b1 P1.
    eapply wp_mono; [apply (IH (l0 ++ [x]) b1 r1 (c ++ c1)); [now rewrite <- app_assoc|exact P1]|].
    cbv beta; intros r2 c2 b2; now rewrite app_assoc.
Qed.

Lemma skipn_upd_below {A} n (l : list A) i x : (i < n)%nat -> skipn n (upd l i x) = skipn n l.
Proof. revert n i; induction l as [|y l IH]; intros [|n] [|i] H; cbn; auto; try lia; apply IH; lia. Qed.

(** ** Inputs that die *)

Section Dying.
Context {setup : AllocSetup}.
Variable life : Z.
Variable mid : temp_states.

(** [st] is [mid] but for some of the inputs, which are still alive. *)
Definition still_alive (st : temp_states) (ins : list Z) : Prop :=
  forall t, in_temps t -> mem (st t) = mem (mid t) /\ (dead (st t) = dead (mid t) \/ dead (st t) = false /\ In t ins).

Lemma free_dead_ok pend ins : forall i st r,
  struct r -> fits st r -> Forall (fun t => in_temps t \/ t = TCG_CALL_DUMMY_ARG) ins ->
  (forall j t, nth_error ins j = Some t -> IS_DEAD_ARG life (i + Z.of_nat j) = negb (t =? TCG_CALL_DUMMY_ARG) && dead (mid t)) ->
  still_alive st ins ->
  wp (free_dead s life i ins) r (fun r' c _ => c = [] /\ steps pend st mid r [] r' (fun _ => True) /\
    (forall y, reg_to_temp r y = None -> reg_to_temp r' y = None) /\
    (forall j t, nth_error ins j = Some t -> nonfixed t -> IS_DEAD_ARG life (i + Z.of_nat j) = true ->
       val_type (temp r t) = TEMP_VAL_REG -> reg_to_temp r' (reg (temp r t)) = None)).
Proof.
  induction ins as [|t ins IH]; intros i st r S Fi Ft Hl Sa; cbn [free_dead].
  - apply wp_ret; splits; auto; [|intros [|j] t E; discriminate].
    apply (steps_weaker pend st st); [now apply steps_nil|]; intros t T; destruct (Sa t T) as [M [D|[_ []]]]; split; congruence.
  - inversion_clear Ft as [|? ? Ht Ft']; pose proof (Hl 0%nat t eq_refl) as H0; cbn [Z.of_nat] in H0; rewrite Z.add_0_r in H0.
    assert (Hl' : forall j u, nth_error ins j = Some u -> IS_DEAD_ARG life (i + 1 + Z.of_nat j) = negb (u =? TCG_CALL_DUMMY_ARG) && dead (mid u)).
    { intros j u E; rewrite <- (Hl (Datatypes.S j) u E); f_equal; lia. }
    eapply wp_seq with (P := fun r1 c1 _ => c1 = [] /\ (exists st', steps pend st st' r [] r1 (fun _ => True) /\ still_alive st' ins) /\
      (forall u, u <> t -> temp r1 u = temp r u) /\ (forall y, reg_to_temp r y = None -> reg_to_temp r1 y = None) /\
      (nonfixed t -> IS_DEAD_ARG life i = true -> val_type (temp r t) = TEMP_VAL_REG -> reg_to_temp r1 (reg (temp r t)) = None)).
    + rewrite H0; destruct (negb _ && _) eqn:E.
      * apply andb_true_iff in E as [E1 E2]; apply negb_true_iff, Z.eqb_neq in E1; destruct Ht as [T|]; [|contradiction].
        destruct (Sa t T) as [M _].
        destruct (dead_steps pend st r t (mid t) S Fi T E2 ltac:(congruence)) as (r1 & c1 & [] & Er & -> & St & O & W).
        exists r1, [], tt; split; [exact Er|]; splits; auto; [|intros N _ V; now apply (dead_frees r t r1 [])].
        exists (put st t (mid t)); split; [exact St|]; intros u U; unfold put; destruct (Z.eqb_spec u t) as [->|Nu]; [now split; [|left]|].
        destruct (Sa u U) as [Mu [Du|[Du [->|I]]]]; auto; congruence.
      * apply wp_ret; splits; auto; [|congruence]; exists st; split; [now apply steps_nil|]; intros u U; destruct (Sa u U) as [Mu [Du|[Du [->|I]]]]; auto.
        split; auto; left; destruct (u =? TCG_CALL_DUMMY_ARG) eqn:X; [rewrite (temp_not_dummy s few_temps globals_first) in X by assumption; discriminate|].
        cbn in E; congruence.
    + intros r1 c1 [] (-> & (st' & St & Sa') & O & W & Fr); after_steps St S1 F1.
      eapply wp_mono; [now apply (IH (i + 1) st' r1)|]; intros r2 c2 [] (-> & St2 & W2 & Fr2); splits; auto.
      * apply (steps_trans pend st st' mid r [] r1 [] r2 (fun _ => True) (fun _ => True)); auto.
      * intros [|j] u E N; [injection E as <-; cbn [Z.of_nat]; rewrite Z.add_0_r; auto|].
        intros D V; destruct (Z.eq_dec u t) as [->|Nu].
        -- apply W2, Fr; auto; rewrite H0, <- (Hl _ _ E); exact D.
        -- rewrite <- O by assumption; apply (Fr2 j); auto; [rewrite <- D; f_equal; lia|now rewrite O].
Qed.

End Dying.

Section Operation.
Context {setup : AllocSetup}.
Variable op : TCGOp.
Variable life : Z.
Variables st0 mid : temp_states.

Let o := opc op.
Let no := nb_oargs (tcg_op_defs o).
Let ni := nb_iargs (tcg_op_defs o).
Let the_arg (i : nat) : Z := nth i (args op) 0.

Hypothesis present : OPF_NOT_PRESENT o = false.
Hypothesis ins_ok : forall i, (no <= i < no + ni)%nat -> in_temps (the_arg i) /\ dead (st0 (the_arg i)) = false.
Hypothesis outs_ok : forall i, (i < no)%nat -> nonfixed (the_arg i).
Hypothesis few_args : (no <= 2 /\ ni <= 4)%nat.

(** ** Inputs *)

(** The register of an input that an output will share. *)
Definition to_share (r : ra_state) (i : nat) (x : Z) : Prop :=
  test_reg (reserved_regs cfg) x = false /\ 0 <= x /\
  (reg_to_temp r x = None \/
   nonfixed (the_arg i) /\ val_type (temp r (the_arg i)) = TEMP_VAL_REG /\ reg (temp r (the_arg i)) = x /\
   IS_DEAD_ARG life (Z.of_nat i) = true).

(** The inputs in [l] are settled. *)
Record inputs_done (r0 : ra_state) (l : list nat) (a : in_state) (r : ra_state) (c : list hinsn) : Prop := {
  in_steps : exists k, steps nobody st0 st0 r0 c r k;
  in_regs : exists xs, in_use (allocated a) xs /\ (length xs <= length l)%nat;
  in_length : length (new_args a) = (no + ni + length (cargs op))%nat /\ length (const_args a) = (no + ni)%nat;
  in_consts : skipn (no + ni) (new_args a) = cargs op;
  in_value : forall i m h, In i l -> holds nobody st0 r0 m h ->
    operand (moves c h) (nth i (new_args a) 0) (nth i (const_args a) false) = rd m (the_arg i);
  in_kept : forall i, In i l -> nth i (const_args a) false = false -> test_reg (allocated a) (nth i (new_args a) 0) = true;
  in_share : forall i, In i l -> is_ialias (args_ct o i) = true ->
    nth i (const_args a) false = false /\ to_share r i (nth i (new_args a) 0)
}.

(** What is settled stays so while the registers in use are left alone. *)
Lemma to_share_keep r r' i x al : struct r -> to_share r i x -> test_reg al x = true ->
  (reg_to_temp r x = None -> reg_to_temp r' x = None) ->
  (forall t, in_temps t -> val_type (temp r t) = TEMP_VAL_REG -> test_reg al (reg (temp r t)) = true -> temp r' t = temp r t) ->
  to_share r' i x.
Proof.
  intros S (R & Hx & H) A W K; unfold to_share; splits; auto; destruct H as [H|(N & V & E & D)]; [left; auto|right].
  rewrite K; auto; [apply N|congruence].
Qed.

(** The registers in [al] and their owners are left alone. *)
Record spares (al : Z) (r : ra_state) (c : list hinsn) (r' : ra_state) : Prop := {
  sa_steps : steps nobody st0 st0 r c r' (fun x => test_reg al x = true);
  sa_free : forall x, test_reg al x = true -> reg_to_temp r x = None -> reg_to_temp r' x = None;
  sa_temp : forall t, in_temps t -> val_type (temp r t) = TEMP_VAL_REG -> test_reg al (reg (temp r t)) = true -> temp r' t = temp r t
}.

Lemma spares_trans al r1 c1 r2 c2 r3 : spares al r1 c1 r2 -> spares al r2 c2 r3 -> spares al r1 (c1 ++ c2) r3.
Proof.
  intros [A B C] [A' B' C']; constructor; auto.
  - eapply steps_trans; eauto.
  - intros t T V R; rewrite C', C; rewrite ?C; auto.
Qed.

Lemma extend_input r0 l a r c i x b al r' c' :
  inputs_done r0 l a r c -> struct r -> ~ In i l -> (no <= i < no + ni)%nat -> spares (allocated a) r c' r' ->
  (exists xs, in_use al xs /\ (length xs <= S (length l))%nat) -> (forall y, test_reg (allocated a) y = true -> test_reg al y = true) ->
  (forall m h, holds nobody st0 r m h -> operand (moves c' h) x b = rd m (the_arg i)) -> (b = false -> test_reg al x = true) ->
  (is_ialias (args_ct o i) = true -> b = false /\ to_share r' i x) ->
  inputs_done r0 (l ++ [i]) (mkIn al (upd (new_args a) i x) (upd (const_args a) i b) (done a ++ [i])) r' (c ++ c').
Proof.
  intros [(k & St) U [L1 L2] Cs Va Ke Sh] S NI Hi [St' Fr Te] U' Mo Vx Kx Sx.
  assert (E : forall j, In j l -> i <> j) by (intros j J ->; contradiction).
  assert (Rk : forall m h j, In j l -> holds nobody st0 r0 m h ->
            operand (moves (c ++ c') h) (nth j (new_args a) 0) (nth j (const_args a) false) = rd m (the_arg j)).
  { intros m h j J Ho; rewrite moves_app, <- (Va j m h J Ho); unfold operand; destruct (nth j (const_args a) false) eqn:B; auto.
    apply (sp_regs _ _ _ _ _ _ _ St'); auto. }
  constructor; cbn [allocated new_args const_args].
  - eexists; eapply steps_seq; eauto.
  - rewrite length_app; cbn; destruct U' as (xs & Ux & Lx); exists xs; split; [exact Ux|lia].
  - now rewrite !length_upd.
  - rewrite skipn_upd_below by lia; exact Cs.
  - intros j m h J Ho; apply in_app_iff in J as [J|[<-|[]]]; [rewrite !nth_upd_ne; auto|rewrite !nth_upd_eq by lia].
    rewrite moves_app; apply Vx; now apply (sp_holds _ _ _ _ _ _ _ St).
  - intros j J; apply in_app_iff in J as [J|[<-|[]]]; [rewrite !nth_upd_ne; auto|rewrite !nth_upd_eq by lia; auto].
  - intros j J; apply in_app_iff in J as [J|[<-|[]]]; [rewrite !nth_upd_ne by auto|rewrite !nth_upd_eq by lia; auto].
    intros Ia; destruct (Sh j J Ia) as [B Sj]; split; [exact B|]; apply (to_share_keep r r' j _ (allocated a)); auto.
Qed.

Lemma loaded_spares r t desired al r' c : loaded nobody st0 r t desired al r' c -> spares al r c r'.
Proof.
  intros (St & V & _ & _ & K & _ & O & W); constructor; auto.
  intros u U Vu Ru; destruct (Z.eq_dec u t) as [->|N]; [now destruct (K Vu) as [-> _]|].
  destruct (O u N) as [E|[_ E]]; [exact E|congruence].
Qed.

Lemma alloc_spares r desired al rev xs : struct r -> fits st0 r -> in_use al xs -> (length xs <= 6)%nat -> roomy (reserved_regs cfg) desired ->
  wp (tcg_reg_alloc (temp_sync s cfg) desired al rev) r (fun r' c x =>
    spares al r c r' /\ (forall h y, regs (moves c h) y = regs h y) /\
    reg_to_temp r' x = None /\ test_reg desired x = true /\ test_reg al x = false /\ 0 <= x /\ test_reg (reserved_regs cfg) x = false).
Proof.
  intros S Fi U L Rm; pose proof (in_use_guarded al xs r U) as G.
  eapply wp_mono; [apply (alloc_steps 1 nobody st0 r desired al rev); auto; now apply (in_use_room al xs)|].
  intros r' c x (St & O & W & Fx & Dx & Ax & Hx); splits; auto.
  - constructor; auto; [eapply steps_keep; [exact St|now intros]|].
    intros t T V R; apply O; intros Y; destruct (sr_owner r S x t Y) as (_ & E & _); congruence.
  - intros h y; now apply (sp_regs _ _ _ _ _ _ _ St).
  - now apply (guarded_reserved nobody r al).
Qed.

Lemma choose_input r t al xs regs_ct rev share : struct r -> fits st0 r -> in_temps t -> dead (st0 t) = false ->
  val_type (temp r t) = TEMP_VAL_REG -> in_use al xs -> (length xs <= 6)%nat -> roomy (reserved_regs cfg) regs_ct ->
  wp (if negb share && test_reg regs_ct (reg (temp r t)) then ret (reg (temp r t))
      else x <- tcg_reg_alloc (temp_sync s cfg) regs_ct al rev ;; emit (Imov x (reg (temp r t))) ;;; ret x) r
    (fun r' c x => spares al r c r' /\ 0 <= x /\ (forall m h, holds nobody st0 r m h -> regs (moves c h) x = rd m t) /\
       (share = false /\ x = reg (temp r t) /\ r' = r \/ reg_to_temp r' x = None /\ test_reg (reserved_regs cfg) x = false)).
Proof.
  intros S Fi T D V U L Rm; assert (Sp : spares al r [] r) by (constructor; auto; now apply steps_nil).
  destruct (negb share && _) eqn:E.
  - apply andb_true_iff in E as [E _]; apply negb_true_iff in E; apply wp_ret; splits; auto; [now apply reg_nonneg|].
    intros m h Ho; now apply (reg_value st0 r t m h).
  - eapply wp_seq; [now apply (alloc_spares r regs_ct al rev xs)|]; intros r1 c1 x (Sp1 & K1 & Fx & _ & Ax & Hx & Rx).
    pose proof (sa_steps _ _ _ _ Sp1) as St1; after_steps St1 S1 F1; repeat wp_step; cbn [app]; splits; auto.
    + eapply spares_trans; [exact Sp1|]; constructor; auto; eapply steps_keep; [now apply mov_steps|]; intros y A ->; congruence.
    + intros m h Ho; rewrite moves_app; cbn; rewrite Z.eqb_refl, K1; now apply (reg_value st0 r t m h).
Qed.

Lemma alloc_iarg_ok r0 l a r c i : inputs_done r0 l a r c -> ~ In i l -> (no <= i < no + ni)%nat -> (length l < ni)%nat ->
  wp (alloc_iarg s cfg o (args op) life a i) r (fun r' c' a' => inputs_done r0 (l ++ [i]) a' r' (c ++ c')).
Proof.
  intros Id NI Hi Ll; destruct (in_steps _ _ _ _ _ Id) as (k & St); after_steps St Sr Fr; destruct (ins_ok i Hi) as [T D].
  destruct (in_regs _ _ _ _ _ Id) as (xs & U & Lx); unfold alloc_iarg; wp_step; wp_step; fold (the_arg i).
  destruct (is_val TEMP_VAL_CONST (temp r (the_arg i)) && _) eqn:E.
  - apply andb_true_iff in E as [V Cm]; apply is_val_iff in V; apply wp_ret.
    assert (N : nonfixed (the_arg i)) by (split; auto; destruct (fixed (the_arg i)) eqn:Fx; auto; destruct (sr_fixed_reg r Sr _ T Fx); congruence).
    apply (extend_input r0 l a r c); auto; [constructor; auto; now apply steps_nil|exists xs; split; auto; lia| |discriminate|].
    + intros m h Ho; now apply (const_word st0 r (the_arg i) m h).
    + intros Ia; destruct (ok_ialias o i present Ia) as [_ X]; congruence.
  - pose proof (ok_roomy o i present ltac:(fold no ni; lia)) as Rm; destruct few_args.
    eapply wp_seq; [apply (load_steps 1 nobody st0 r (the_arg i) (ct_regs (args_ct o i)) (allocated a)); auto|].
    { apply (in_use_room _ xs); auto; lia. } { now apply (in_use_guarded _ xs). }
    intros r1 c1 [] Ld; pose proof (loaded_spares _ _ _ _ _ _ Ld) as Sp1; destruct Ld as (St1 & V1 & _); after_steps St1 S1 F1.
    wp_step; wp_step; cbv zeta; set (share := if is_ialias _ then _ else _).
    eapply wp_seq; [apply (choose_input r1 (the_arg i) (allocated a) xs (ct_regs (args_ct o i)) _ share); auto; lia|].
    intros r2 c2 x (Sp2 & Hx & Vx & Hs); apply wp_ret; rewrite app_nil_r; cbn [app].
    apply (extend_input r0 l a r c); auto.
    + now apply (spares_trans _ _ _ r1).
    + exists (x :: xs); split; [now apply in_use_add|cbn; lia].
    + intros y A; now rewrite test_add_reg, A.
    + intros m h Ho; rewrite moves_app; apply Vx; now apply (sp_holds _ _ _ _ _ _ _ St1).
    + intros _; now rewrite test_add_reg, Z.eqb_refl, orb_true_r.
    + intros Ia; split; [reflexivity|]; unfold to_share; destruct Hs as [(Sh & -> & ->)|[W R]]; [|splits; auto].
      subst share; rewrite Ia, (sr_fixed r1 S1 _ T) in Sh; destruct (ok_ialias o i present Ia) as [Lo _].
      destruct (fixed (the_arg i)) eqn:Fx.
      * apply negb_false_iff, Z.eqb_eq in Sh; destruct (outs_ok _ Lo) as [_ X]; unfold the_arg in *; rewrite <- Sh in X; congruence.
      * apply orb_false_iff in Sh as [Sh _]; apply negb_false_iff in Sh; destruct (sr_reg r1 S1 _ T Fx V1) as (_ & R & _); splits; auto.
        right; splits; auto; now split.
Qed.

Definition sorted_ins : list nat := firstn ni (skipn no (sorted_args o)).
Definition sorted_outs : list nat := firstn no (sorted_args o).

Lemma sorted_split : NoDup sorted_outs /\ NoDup sorted_ins /\ length sorted_outs = no /\ length sorted_ins = ni.
Proof.
  destruct (ok_sorted_nodup o present) as [N L]; fold no ni in L; unfold sorted_outs, sorted_ins; rewrite !length_firstn, length_skipn, L.
  rewrite <- (firstn_skipn no) in N; apply NoDup_app_remove_r in N as N1; apply NoDup_app_remove_l in N as N2.
  rewrite <- (firstn_skipn ni) in N2; apply NoDup_app_remove_r in N2; splits; auto; lia.
Qed.

Lemma inputs_ok r : struct r -> fits st0 r ->
  wp (fold_each (alloc_iarg s cfg o (args op) life) sorted_ins
        (mkIn (reserved_regs cfg) (repeat 0 (no + ni) ++ cargs op) (repeat false (no + ni)) [])) r
    (fun r' c a => inputs_done r sorted_ins a r' c).
Proof.
  intros S Fi; destruct sorted_split as (_ & Nd & _ & Len); apply (fold_each_inv _ (inputs_done r)).
  - intros l0 i l1 a r1 c E Id; rewrite E in Nd, Len; rewrite length_app in Len; cbn in Len.
    apply alloc_iarg_ok; auto; [|apply (ok_sorted_ins o i present); fold no ni; fold sorted_ins; rewrite E; apply in_elt|lia].
    intros I; apply NoDup_remove_2 in Nd; apply Nd, in_app_iff; now left.
  - constructor; cbn [allocated new_args const_args]; try (intros i m h []); try (intros i []).
    + exists (fun _ => True); now apply steps_nil.
    + exists []; split; [apply in_use_reserved|auto].
    + rewrite length_app, !repeat_length; lia.
    + rewrite skipn_app, repeat_length, Nat.sub_diag, skipn_all2 by (rewrite repeat_length; lia); reflexivity.
Qed.

(** ** Outputs *)

Hypothesis outs_dead : forall i, (i < no)%nat -> dead (mid (the_arg i)) = true.
Hypothesis outs_differ : forall i j, (i < no)%nat -> (j < no)%nat -> the_arg i = the_arg j -> i = j.

Definition among (l : list nat) (t : Z) : bool := existsb (Z.eqb t) (map the_arg l).

Lemma among_iff l t : among l t = true <-> exists i, In i l /\ the_arg i = t.
Proof. unfold among; rewrite in_existsb, in_map_iff; split; intros (i & A & B); eauto. Qed.

Lemma among_snoc l i t : among (l ++ [i]) t = among l t || (t =? the_arg i).
Proof. unfold among; rewrite map_app, existsb_app; cbn; now rewrite orb_false_r. Qed.

(** The outputs have registers, but not yet values. *)
Definition pending : Z -> bool := among (seq 0 no).
Definition outs_states (l : list nat) : temp_states := fun t => if among l t then 0 else mid t.

Record outputs_done (r0 : ra_state) (args0 : list Z) (l : list nat) (b : Z * list Z) (r : ra_state) (c : list hinsn) : Prop := {
  od_steps : steps pending mid (outs_states l) r0 c r (fun _ => True);
  od_range : forall i, In i l -> (i < no)%nat;
  od_use : exists xs, in_use (fst b) xs /\ (length xs <= length l)%nat;
  od_args : length (snd b) = length args0 /\ skipn no (snd b) = skipn no args0;
  od_reg : forall i, In i l -> let ts := temp r (the_arg i) in
    val_type ts = TEMP_VAL_REG /\ reg ts = nth i (snd b) 0 /\ mem_coherent ts = false /\ test_reg (fst b) (reg ts) = true;
  od_owner : forall y, reg_to_temp r0 y = None -> reg_to_temp r y = None \/ exists i, In i l /\ reg_to_temp r y = Some (the_arg i)
}.

Lemma pending_in i : (i < no)%nat -> pending (the_arg i) = true.
Proof. intros H; apply among_iff; exists i; split; auto; apply in_seq; lia. Qed.

Lemma outputs_guarded r0 args0 l b r c : outputs_done r0 args0 l b r c -> guarded pending r (fst b).
Proof.
  intros [St Rg (xs & U & _) _ Re _]; split; [apply U|]; intros t T P F V; apply among_iff in P as (i & Ii & <-); apply in_seq in Ii.
  destruct (in_dec Nat.eq_dec i l) as [I|I]; [now apply (Re i)|exfalso]; after_steps St Sr Fr.
  apply (dead_not_reg _ r (the_arg i) Fr); auto; [now split|]; unfold outs_states.
  destruct (among l (the_arg i)) eqn:A; [|apply outs_dead; lia]; apply among_iff in A as (j & J & E).
  apply outs_differ in E; [now subst|now apply Rg|lia].
Qed.

Lemma claim_pend pend st r r' t x : struct r -> fits st r -> may_claim t x r -> claimed t x r r' -> pend t = true ->
  mem_coherent (temp r' t) = false -> steps pend st (put st t 0) r [] r' (fun _ => True).
Proof.
  intros S Fi Mc Cl P Co; constructor; auto; [now apply (claim_struct r r' t x)|now apply (claim_fits st r r' t x)| |intros h; apply same_stack_refl].
  intros m h Ho; apply (holds_other pend st r); auto; [apply Cl|congruence].
Qed.

(** The register of an output. *)
Lemma output_reg r0 args0 l b r c i : outputs_done r0 args0 l b r c -> (i < no)%nat -> (length l < no)%nat ->
  (is_alias (args_ct o i) = true -> let x := nth (alias_index (args_ct o i)) args0 0 in
     test_reg (reserved_regs cfg) x = false /\ 0 <= x /\ reg_to_temp r0 x = None) ->
  wp (if is_alias (args_ct o i) then ret (nth (alias_index (args_ct o i)) (snd b) 0)
      else tcg_reg_alloc (temp_sync s cfg) (ct_regs (args_ct o i)) (fst b) (indirect_base (temp r (the_arg i)))) r
    (fun r' c' x => steps pending (outs_states l) (outs_states l) r c' r' (fun _ => True) /\
       (forall j, In j l -> temp r' (the_arg j) = temp r (the_arg j)) /\
       (forall y, reg_to_temp r y = None -> reg_to_temp r' y = None) /\
       reg_to_temp r' x = None /\ test_reg (reserved_regs cfg) x = false /\ 0 <= x).
Proof.
  intros Od Hi Ll Sh; pose proof (outputs_guarded _ _ _ _ _ _ Od) as G; destruct Od as [St Rg (xs & U & Lx) [A1 A2] Re Ow].
  after_steps St Sr Fr; destruct (is_alias (args_ct o i)) eqn:Al.
  - destruct (ok_alias o i present Hi Al) as (E1 & _ & E3 & _); fold no in E1; destruct (Sh eq_refl) as (R & Hx & W).
    assert (l = []) as -> by (destruct l; cbn in Ll; [reflexivity|lia]).
    assert (E : nth (alias_index (args_ct o i)) (snd b) 0 = nth (alias_index (args_ct o i)) args0 0).
    { replace (alias_index (args_ct o i)) with (no + (alias_index (args_ct o i) - no))%nat by lia; now rewrite <- !nth_skipn, A2. }
    rewrite E; apply wp_ret; splits; auto; [now apply steps_nil|]; destruct (Ow _ W) as [|(j & [] & _)]; auto.
  - eapply wp_mono; [apply (alloc_steps 1 pending (outs_states l) r); auto|].
    + apply (in_use_room _ xs); auto; [destruct few_args; lia|]; apply (ok_roomy o i present); fold no; lia.
    + intros r' c' x (St' & O & W & Fx & _ & Ax & Hx); splits; auto; [|now apply (guarded_reserved pending r (fst b))].
      intros j J; apply O; intros Y; destruct (sr_owner r Sr x _ Y) as (_ & E & _); destruct (Re j J) as (_ & _ & _ & X); congruence.
Qed.

Definition shares (r0 : ra_state) (args0 : list Z) (i : nat) : Prop :=
  is_alias (args_ct o i) = true -> let x := nth (alias_index (args_ct o i)) args0 0 in
    test_reg (reserved_regs cfg) x = false /\ 0 <= x /\ reg_to_temp r0 x = None.

Lemma alloc_oarg_ok r0 args0 l b r c i : outputs_done r0 args0 l b r c -> ~ In i l -> (i < no)%nat -> (length l < no)%nat ->
  shares r0 args0 i -> (no <= length args0)%nat ->
  wp (alloc_oarg s cfg o (args op) b i) r (fun r' c' b' => outputs_done r0 args0 (l ++ [i]) b' r' (c ++ c')).
Proof.
  intros Od NI Hi Ll Sh La; pose proof Od as [St Rg (xs & U & Lx) [A1 A2] Re Ow]; after_steps St Sr Fr; destruct b as [al na]; cbn [fst snd] in *.
  destruct (outs_ok i Hi) as [T F]; assert (N : nonfixed (the_arg i)) by now split.
  unfold alloc_oarg; wp_step; wp_step; fold (the_arg i); rewrite (sr_fixed r Sr _ T), F, andb_false_r; cbn [andb].
  eapply wp_seq; [exact (output_reg r0 args0 l (al, na) r c i Od Hi Ll Sh)|]; intros r1 c1 x (St1 & K1 & W1 & Fx & Rx & Hx); after_steps St1 S1 F1.
  assert (Da : among l (the_arg i) = false).
  { destruct (among l (the_arg i)) eqn:A; auto; apply among_iff in A as (j & J & E); apply outs_differ in E; auto; now subst. }
  assert (V1 : val_type (temp r1 (the_arg i)) <> TEMP_VAL_REG).
  { apply (dead_not_reg (outs_states l)); auto; unfold outs_states; rewrite Da; auto. }
  wp_step; wp_step; exists r1, [], tt; split; [now apply leave_reg_none|]; repeat wp_step; cbn [app fst snd]; set (r2 := set_reg_to x _ _).
  assert (Et : temp r2 (the_arg i) = set_coherent false (set_reg x (set_val_type TEMP_VAL_REG (temp r1 (the_arg i))))) by apply temp_set_eq.
  assert (Cl : claimed (the_arg i) x r1 r2).
  { constructor; rewrite ?Et; try reflexivity; [|now splits]; intros u Nu; now apply temp_set_ne. }
  assert (Mc : may_claim (the_arg i) x r1) by now constructor.
  pose proof (claim_pend pending (outs_states l) r1 r2 _ x S1 F1 Mc Cl (pending_in i Hi) ltac:(now rewrite Et)) as St2.
  rewrite !app_nil_r; constructor; cbn [fst snd].
  - apply (steps_weaker pending mid (put (outs_states l) (the_arg i) 0)).
    + eapply steps_trans; [exact St| |now intros|intros y _; exact Logic.I].
      rewrite <- (app_nil_r c1); eapply steps_trans; [exact St1|exact St2|now intros|now intros].
    + intros u _; unfold outs_states, put; rewrite among_snoc; destruct (u =? the_arg i); [rewrite orb_true_r|rewrite orb_false_r]; auto.
  - intros j J; apply in_app_iff in J as [J|[<-|[]]]; auto.
  - exists (x :: xs); split; [now apply in_use_add|rewrite length_app; cbn; lia].
  - rewrite length_upd, skipn_upd_below by assumption; auto.
  - intros j J; apply in_app_iff in J as [J|[<-|[]]].
    + assert (Nj : i <> j) by congruence; rewrite nth_upd_ne, (cl_other _ _ _ _ Cl), K1 by (auto; intros E; apply Nj, outs_differ; auto).
      destruct (Re j J) as (A & B & C & D); splits; auto; now rewrite test_add_reg, D.
    + rewrite nth_upd_eq, Et by lia; cbn; splits; auto; now rewrite test_add_reg, Z.eqb_refl, orb_true_r.
  - intros y Y; rewrite (cl_owner _ _ _ _ Cl); destruct (y =? x); [right; exists i; split; auto; apply in_elt|].
    destruct (Ow y Y) as [E|(j & J & E)]; [left; auto|right; exists j; split; [apply in_app_iff; now left|]].
    destruct (Re j J) as (V & B & _); destruct (outs_ok j (Rg j J)) as [Tj Fj].
    destruct (sr_owner r Sr y _ E) as (_ & <- & _); rewrite <- (K1 j J); apply (sr_reg r1 S1); auto; now rewrite K1.
Qed.

Lemma outputs_ok r args0 : struct r -> fits mid r -> (forall i, (i < no)%nat -> shares r args0 i) -> (no <= length args0)%nat ->
  wp (fold_each (alloc_oarg s cfg o (args op)) sorted_outs (reserved_regs cfg, args0)) r
    (fun r' c b => outputs_done r args0 sorted_outs b r' c).
Proof.
  intros S Fi Sh La; destruct sorted_split as (Nd & _ & Len & _); apply (fold_each_inv _ (outputs_done r args0)).
  - intros l0 i l1 b r1 c E Od; rewrite E in Nd, Len; rewrite length_app in Len; cbn in Len.
    assert (Hi : (i < no)%nat) by (apply (ok_sorted_outs o i present); fold no; fold sorted_outs; rewrite E; apply in_elt).
    apply alloc_oarg_ok; auto; [|lia]; intros I; apply NoDup_remove_2 in Nd; apply Nd, in_app_iff; now left.
  - constructor; cbn [fst snd]; auto; try (intros i []).
    + now apply steps_nil.
    + exists []; split; [apply in_use_reserved|auto].
Qed.

End Operation.
