(* ===== verification/TcgRegCode.v ===== *)
(** * The code of an operation (tcg/tcg.c)

    The code that [tcg_reg_alloc_op] emits does on the host what the operation
    does on the temporaries. *)

From Stdlib Require Import ZArith Lia List Bool.
From S2P Require Import Prelude Bitops TcgIr TcgOpt TcgCopies TcgOptProof TcgLife TcgLifeProof TcgRegAlloc TcgHostCode TcgRegProof TcgRegMoves TcgRegEffects TcgRegOps.
Import ListNotations.
Local Open Scope Z_scope.
Local Open Scope c_scope.
Local Open Scope ra_scope.

(** ** Slices of lists *)

Lemma slice_nth {A} (l : list A) d n : forall a, (a + n <= length l)%nat -> firstn n (skipn a l) = map (fun i => nth i l d) (seq a n).
Proof.
  induction n as [|n IH]; intros a L; [reflexivity|]; cbn [seq map].
  assert (E : skipn a l = nth a l d :: skipn (S a) l).
  { clear IH; revert l L; induction a as [|a IHa]; intros [|x l] L; cbn [length] in *; try lia; [reflexivity|].
    cbn [skipn nth]; rewrite IHa by lia; reflexivity. }
  rewrite E; cbn [firstn]; now rewrite IH by lia.
Qed.

Lemma map2_same {A B C D} (f : A -> B -> C) (g : D -> A) (k : D -> B) l : map2 f (map g l) (map k l) = map (fun x => f (g x) (k x)) l.
Proof. induction l as [|x l IH]; cbn; auto; now rewrite IH. Qed.

Section Code.
Context {setup : AllocSetup}.
Context {W : Type} {host : TcgHost W (nb_globals s)}.
Variable trash : W -> Z -> Z.

Abbreviation host_run := (TcgHostCode.host_run s context trash).
Abbreviation host_step := (TcgHostCode.host_step s context trash).

(** ** Running code *)

Definition host_jump (jumps : nat) (prog : list hinsn) (label : Z) (h : hstate) (w : W) : host_behaviour (W := W) :=
  match jumps with
  | O => HOut_of_jumps
  | S jumps => match code_after label prog with Some code => host_run jumps prog code h w | None => HWent_wrong end
  end.

Lemma host_run_cons jumps prog i code h w :
  host_run jumps prog (i :: code) h w =
  match host_step i h w with
  | HNext h w => host_run jumps prog code h w
  | HLeave why h w => HLeft_block why h w
  | HWrong => HWent_wrong
  | HJump label h w => host_jump jumps prog label h w
  end.
Proof. destruct jumps; reflexivity. Qed.

Lemma host_run_moves jumps prog c code : forall h w, forallb is_move c = true ->
  host_run jumps prog (c ++ code) h w = host_run jumps prog code (moves c h) w.
Proof.
  induction c as [|i c IH]; intros h w F; [reflexivity|]; cbn [app forallb] in *; apply andb_true_iff in F as [Fi F].
  rewrite host_run_cons; cbn [moves fold_left]; fold (moves c (move i h)); rewrite <- IH by assumption.
  destruct i; try discriminate; reflexivity.
Qed.

(** The world finds the globals at their places. *)
Definition shows (m : store) (h : hstate) : Prop :=
  forall t, in_temps t -> is_global s t = true -> get_global context h t = rd m t.

(** The code [c] does what the operation does. *)
Definition chunk (st1 : temp_states) (op : TCGOp) (c : list hinsn) (r' : ra_state) (m : store) (h : hstate) (w : W) : Prop :=
  match eval_op op m w with
  | Undefined => True
  | Next m' w' => exists h',
      (forall jumps prog code, host_run jumps prog (c ++ code) h w = host_run jumps prog code h' w') /\ holds nobody st1 r' m' h'
  | Jump label m' w' => m' = m /\ exists h',
      (forall jumps prog code, host_run jumps prog (c ++ code) h w = host_jump jumps prog label h' w') /\ shows m h'
  | Leave why m' w' => exists h',
      (forall jumps prog code, host_run jumps prog (c ++ code) h w = HLeft_block why h' w') /\ shows m' h'
  end.

Lemma get_global_place h t : is_global s t = true ->
  get_global context h t = if fixed t then regs h (reg (context t)) else hmem h (fst (global_place t)) (snd (global_place t)).
Proof. intros G; unfold get_global, is_fixed; rewrite G; cbn [andb]; now destruct (fixed_reg (context t)). Qed.

Lemma holds_shows st r m h : struct r -> holds nobody st r m h -> (forall t, is_global s t = true -> mem (st t) = true) -> shows m h.
Proof.
  intros S Ho M t T G; rewrite get_global_place by assumption; specialize (Ho t T eq_refl); unfold holds1 in Ho.
  destruct (fixed t) eqn:F; [apply Ho; auto|]; destruct Ho as (_ & H & _); rewrite <- (H (M t G)); unfold home_word.
  now rewrite (place_global r t).
Qed.

(** The outputs have registers, but the globals among them are still at their places. *)
Lemma pending_shows pend mid st r0 c r k m h : struct r0 -> steps pend mid st r0 c r k -> holds nobody mid r0 m h ->
  (forall t, is_global s t = true -> mem (mid t) = true) -> (forall t, in_temps t -> pend t = false -> st t = mid t) ->
  (forall t, in_temps t -> pend t = true -> fixed t = false) -> shows m (moves c h).
Proof.
  intros S0 St Ho M E Fp t T G; pose proof (holds_shows mid r0 m h S0 Ho M t T G) as H0; rewrite get_global_place in * by assumption.
  assert (Hp : holds pend mid r0 m h) by (intros u U _; now apply Ho); apply (sp_holds _ _ _ _ _ _ _ St) in Hp.
  destruct (pend t) eqn:P.
  - rewrite (Fp t T P) in *; rewrite (ss_pend _ _ _ (sp_stack _ _ _ _ _ _ _ St h) t T G (Fp t T P) P); exact H0.
  - specialize (Hp t T P); unfold holds1 in Hp; rewrite (E t T P) in Hp; destruct (fixed t) eqn:F; [apply Hp; auto|].
    destruct Hp as (_ & H & _); rewrite <- (H (M t G)); unfold home_word; rewrite (place_global r t); auto; apply St.
Qed.

(** Code without labels. *)
Definition plain (i : hinsn) : bool := match i with Ilabel _ => false | _ => true end.

Lemma plain_moves c : forallb is_move c = true -> forallb plain c = true.
Proof. rewrite !forallb_forall; intros H i I; specialize (H i I); now destruct i. Qed.

(** The code of an operation, whatever the values are. *)
Record emitted (st0 st1 : temp_states) (op : TCGOp) (r : ra_state) (c : list hinsn) (r' : ra_state) : Prop := {
  em_struct : struct r';
  em_fits : fits st1 r';
  em_plain : forallb plain c = true;
  em_chunk : forall m h w, wf_store s m -> holds nobody st0 r m h -> chunk st1 op c r' m h w
}.

(** ** What the analysis says about an operation it keeps *)

Record kept_op (st0 mid st1 : temp_states) (op : TCGOp) (life : Z) : Prop := {
  ko_wf : live_wf s op;
  ko_free : Forall nonfixed (oargs op);
  ko_range : forall t, 0 <= mid t <= 3;
  ko_start : st0 = live_args (iargs op) mid;
  ko_outs : forall j t, nth_error (oargs op) j = Some t ->
    IS_DEAD_ARG life (0 + Z.of_nat j) = dead (st1 t) /\ NEED_SYNC_ARG life (0 + Z.of_nat j) = mem (st1 t);
  ko_ins : forall j t, nth_error (iargs op) j = Some t ->
    IS_DEAD_ARG life (Z.of_nat (n_oargs op) + Z.of_nat j) = negb (t =? TCG_CALL_DUMMY_ARG) && dead (mid t);
  ko_dead : forall t, In t (oargs op) -> dead (mid t) = true;
  ko_rest : relaxes (settled_outs mid st1 (oargs op)) st1
}.

Lemma kept_alive st0 mid st1 op life : kept_op st0 mid st1 op life -> still_alive mid st0 (iargs op).
Proof.
  intros K t T; rewrite (ko_start _ _ _ _ _ K), in_live_args by apply (ko_range _ _ _ _ _ K).
  destruct (existsb (Z.eqb t) (iargs op)) eqn:E; [|now split; [|left]]; cbn [andb].
  destruct (negb _); [|now split; [|left]]; destruct (revive_bits _ (ko_range _ _ _ _ _ K t)) as (_ & D & M & _).
  split; [exact M|right; split; [exact D|now apply in_existsb]].
Qed.

Lemma kept_input st0 mid st1 op life t : kept_op st0 mid st1 op life -> In t (iargs op) -> in_temps t -> dead (st0 t) = false.
Proof.
  intros K I T; rewrite (ko_start _ _ _ _ _ K), in_live_args by apply (ko_range _ _ _ _ _ K).
  apply in_existsb in I; rewrite I, (temp_not_dummy s few_temps globals_first) by assumption.
  now apply (revive_bits _ (ko_range _ _ _ _ _ K t)).
Qed.

(** A temporary whose register and place did not change. *)
Lemma holds1_regs x r h h' t v : (fixed t = true -> regs h' (reg (context t)) = regs h (reg (context t))) ->
  (fixed t = false -> val_type (temp r t) = TEMP_VAL_REG -> regs h' (reg (temp r t)) = regs h (reg (temp r t))) ->
  home_word r h' t = home_word r h t -> holds1 x r h t v -> holds1 x r h' t v.
Proof.
  intros F N M; unfold holds1, loc; rewrite M; destruct (fixed t); [now rewrite F|].
  intros (A & B & C); splits; auto; [|intros V; rewrite N by auto; auto].
  intros D; rewrite <- (A D); destruct (val_type (temp r t)) eqn:V; auto; now rewrite N.
Qed.

Section Operation.
Variable op : TCGOp.
Variable life : Z.
Variables st0 mid st1 : temp_states.
Hypothesis K : kept_op st0 mid st1 op life.

Let o := opc op.
Let no := nb_oargs (tcg_op_defs o).
Let ni := nb_iargs (tcg_op_defs o).
Let the_arg (i : nat) : Z := nth i (args op) 0.

Hypothesis present : OPF_NOT_PRESENT o = false.

Lemma present_op : o <> call /\ o <> discard /\ n_oargs op = no /\ n_iargs op = ni /\ (no <= 2 /\ ni <= 4)%nat.
Proof.
  assert (N1 : o <> call) by (intros E; rewrite E in present; discriminate).
  assert (N2 : o <> discard) by (intros E; rewrite E in present; discriminate).
  splits; auto; unfold n_oargs, n_iargs; fold o; try (subst no ni; destruct o; try contradiction; reflexivity);
    subst no ni; clear; destruct o; cbn; lia.
Qed.

Lemma args_length : (no + ni + length (cargs op) <= length (args op))%nat.
Proof.
  destruct present_op as (_ & _ & Eo & Ei & _); pose proof (lw_length _ _ (ko_wf _ _ _ _ _ K)) as L; rewrite Eo, Ei in L.
  unfold cargs; rewrite Eo, Ei, length_firstn, length_skipn; lia.
Qed.

Lemma the_outs : oargs op = map the_arg (seq 0 no).
Proof.
  destruct present_op as (_ & _ & Eo & _); unfold oargs; rewrite Eo; apply (slice_nth (args op) 0 no 0).
  pose proof args_length; lia.
Qed.

Lemma the_ins : iargs op = map the_arg (seq no ni).
Proof.
  destruct present_op as (_ & _ & Eo & Ei & _); unfold iargs; rewrite Eo, Ei; apply slice_nth; pose proof args_length; lia.
Qed.

Lemma among_outs t : among op (seq 0 no) t = existsb (Z.eqb t) (oargs op).
Proof. unfold among; now rewrite the_outs. Qed.

Lemma out_arg i : (i < no)%nat -> nth_error (oargs op) i = Some (the_arg i) /\ nonfixed (the_arg i) /\ dead (mid (the_arg i)) = true.
Proof.
  intros H; assert (E : nth_error (oargs op) i = Some (the_arg i)).
  { rewrite the_outs, nth_error_map, (nth_error_nth' _ 0%nat) by (now rewrite length_seq); now rewrite seq_nth. }
  assert (I : In (the_arg i) (oargs op)) by (eapply nth_error_In; eauto); splits; auto; [|now apply (ko_dead _ _ _ _ _ K)].
  exact (proj1 (Forall_forall _ _) (ko_free _ _ _ _ _ K) _ I).
Qed.

Lemma outs_differ i j : (i < no)%nat -> (j < no)%nat -> the_arg i = the_arg j -> i = j.
Proof.
  intros Hi Hj E; destruct (out_arg i Hi) as [Ei _], (out_arg j Hj) as [Ej _].
  apply (proj1 (NoDup_nth_error (oargs op)) (lw_nodup _ _ (ko_wf _ _ _ _ _ K))); [|congruence].
  apply nth_error_Some; congruence.
Qed.

Lemma in_arg i : (no <= i < no + ni)%nat -> nth_error (iargs op) (i - no) = Some (the_arg i) /\ in_temps (the_arg i) /\ dead (st0 (the_arg i)) = false.
Proof.
  intros H; assert (E : nth_error (iargs op) (i - no) = Some (the_arg i)).
  { rewrite the_ins, nth_error_map, (nth_error_nth' _ 0%nat) by (rewrite length_seq; lia); rewrite seq_nth by lia; cbn; do 2 f_equal; lia. }
  assert (I : In (the_arg i) (iargs op)) by (eapply nth_error_In; eauto); destruct present_op as (N1 & _).
  assert (T : in_temps (the_arg i)).
  { destruct (args_in_temps s op (ko_wf _ _ _ _ _ K) N1) as [_ F]; exact (proj1 (Forall_forall _ _) F _ I). }
  splits; auto; now apply (kept_input st0 mid st1 op life).
Qed.

(** The outputs have their registers. *)
Record outs_ready (r0 : ra_state) (args0 na : list Z) (r : ra_state) (c : list hinsn) : Prop := {
  or_steps : steps (pending op) mid (outs_states op mid (seq 0 no)) r0 c r (fun _ => True);
  or_args : length na = length args0 /\ skipn no na = skipn no args0;
  or_reg : forall i, (i < no)%nat -> let ts := temp r (the_arg i) in
    val_type ts = TEMP_VAL_REG /\ reg ts = nth i na 0 /\ mem_coherent ts = false;
  or_owner : forall y, reg_to_temp r0 y = None ->
    reg_to_temp r y = None \/ exists i, (i < no)%nat /\ reg_to_temp r y = Some (the_arg i)
}.

Lemma outs_ready_done r0 args0 b r c : outputs_done op mid r0 args0 (sorted_outs op) b r c -> outs_ready r0 args0 (snd b) r c.
Proof.
  assert (I : forall i, In i (sorted_outs op) <-> (i < no)%nat) by (intros i; apply (ok_sorted_outs o i present)).
  intros [St Rg _ A Re Ow]; constructor; auto.
  - apply (steps_weaker _ _ _ _ _ _ _ _ St); intros t _; unfold outs_states.
    assert (E : among op (seq 0 no) t = among op (sorted_outs op) t); [|rewrite E; auto].
    apply eq_true_iff_eq; rewrite !among_iff; split; intros (i & J & E); exists i; split; auto; [apply I; apply in_seq in J; lia|].
    apply I in J; apply in_seq; lia.
  - intros i Hi; destruct (Re i (proj2 (I i) Hi)) as (A1 & A2 & A3 & _); auto.
  - intros y Y; destruct (Ow y Y) as [|(i & J & E)]; auto; right; exists i; split; auto; now apply I.
Qed.

Hypothesis at_end : BB_END (tcg_op_defs o) = true -> mid = tcg_la_bb_end s.
Hypothesis in_memory : BB_END (tcg_op_defs o) = true \/ OPF_SIDE_EFFECTS o = true -> forall t, is_global s t = true -> mem (mid t) = true.

(** Between the inputs and the operation. *)
Definition middle (a : in_state) : M (Z * list Z) :=
  if BB_END (tcg_op_defs o) then tcg_reg_alloc_bb_end s ;;; ret (allocated a, new_args a)
  else
    (if OPF_CALL_CLOBBER o then free_clobbered s cfg (allocated a) else ret tt) ;;;
    (if OPF_SIDE_EFFECTS o then sync_globals s else ret tt) ;;;
    fold_each (alloc_oarg s cfg o (args op)) (sorted_outs op) (reserved_regs cfg, new_args a).

Definition ready (r : ra_state) (args0 na : list Z) (r' : ra_state) (c : list hinsn) : Prop :=
  exists r1 c1 c2, c = c1 ++ c2 /\ steps nobody mid mid r c1 r1 (fun _ => True) /\
    (OPF_CALL_CLOBBER o = true -> forall x, test_reg tcg_target_call_clobber_regs x = true -> reg_to_temp r1 x = None) /\
    outs_ready r1 args0 na r' c2.

Lemma middle_ok r a : struct r -> fits mid r -> (forall i, (i < no)%nat -> shares op r (new_args a) i) -> (no <= length (new_args a))%nat ->
  wp (middle a) r (fun r' c b => ready r (new_args a) (snd b) r' c).
Proof.
  intros S Fi Sh L; destruct present_op as (_ & _ & _ & _ & Few); unfold middle; destruct (BB_END (tcg_op_defs o)) eqn:B.
  - assert (N0 : no = 0%nat) by (subst no; destruct o; try discriminate B; reflexivity).
    wp_step; exists r, [], tt; split; [apply alloc_bb_end_ok; auto; now rewrite <- at_end|]; apply wp_ret; exists r, [], []; splits; auto.
    + now apply steps_nil.
    + destruct o; discriminate.
    + constructor; auto; rewrite ?N0; [now apply steps_nil|intros i Hi; lia].
  - eapply wp_seq with (P := fun r1 c1 _ => steps nobody mid mid r c1 r1 (fun _ => True) /\
      (forall y, reg_to_temp r y = None -> reg_to_temp r1 y = None) /\
      (OPF_CALL_CLOBBER o = true -> forall x, test_reg tcg_target_call_clobber_regs x = true -> reg_to_temp r1 x = None)).
    + destruct (OPF_CALL_CLOBBER o); [|apply wp_ret; splits; auto; [now apply steps_nil|discriminate]].
      eapply wp_mono; [now apply (free_clobbered_ok mid r)|]; intros r1 c1 [] (A & C & D); splits; auto.
    + intros r1 c1 [] (St1 & W1 & C1); after_steps St1 S1 F1; wp_step; exists r1, [], tt; split.
      { destruct (OPF_SIDE_EFFECTS o); [|reflexivity]; apply (sync_globals_ok mid); auto. }
      eapply wp_mono; [apply (outputs_ok op mid); auto|].
      * intros i Hi; now apply out_arg.
      * intros i Hi; now apply out_arg.
      * intros i j; apply outs_differ.
      * intros i Hi A; destruct (Sh i Hi A) as (X & Y & Z0); splits; auto.
      * intros r2 c2 b Od; exists r1, c1, c2; splits; auto; now apply outs_ready_done.
Qed.

(** *** The operation itself *)

Lemma out_regs r0 args0 na r c : outs_ready r0 args0 na r c -> (no <= length na)%nat ->
  firstn no na = map (fun i => reg (temp r (the_arg i))) (seq 0 no) /\ NoDup (firstn no na) /\
  forall y, In y (firstn no na) -> test_reg (reserved_regs cfg) y = false /\ exists i, (i < no)%nat /\ reg_to_temp r y = Some (the_arg i).
Proof.
  intros [St _ Re _] L; after_steps St Sr Fr; assert (E : firstn no na = map (fun i => reg (temp r (the_arg i))) (seq 0 no)).
  { rewrite <- (skipn_O na), (slice_nth na 0 no 0) by lia; apply map_ext_in; intros i I; apply in_seq in I; now destruct (Re i ltac:(lia)) as (_ & -> & _). }
  assert (Ow : forall i, (i < no)%nat -> reg_to_temp r (reg (temp r (the_arg i))) = Some (the_arg i) /\
            test_reg (reserved_regs cfg) (reg (temp r (the_arg i))) = false).
  { intros i Hi; destruct (out_arg i Hi) as (_ & [T F] & _), (Re i Hi) as (V & _); now destruct (sr_reg r Sr _ T F V) as (A & B & _). }
  rewrite E; splits; auto.
  - apply NoDup_map_NoDup_ForallPairs; [|apply seq_NoDup]; intros i j Ii Ij X; apply in_seq in Ii, Ij; apply outs_differ; [lia|lia|].
    destruct (Ow i ltac:(lia)) as [A _], (Ow j ltac:(lia)) as [B _]; congruence.
  - intros y I; apply in_map_iff in I as (i & <- & I); apply in_seq in I; destruct (Ow i ltac:(lia)); split; auto; exists i; split; auto; lia.
Qed.

Lemma iop_holds r0 args0 na r c m h w vs : outs_ready r0 args0 na r c -> (no <= length na)%nat ->
  (OPF_CALL_CLOBBER o = true -> forall x, test_reg tcg_target_call_clobber_regs x = true -> reg_to_temp r0 x = None) ->
  wf_store s m -> holds nobody mid r0 m h -> length vs = no -> Forall (inU 32) vs ->
  holds nobody (outs_states op mid (seq 0 no)) r (wrs m (oargs op) vs)
    (set_rs (if OPF_CALL_CLOBBER o then clobber trash w (moves c h) else moves c h) (firstn no na) vs).
Proof.
  intros Or L Hc Wm Ho Lv Fv; destruct (out_regs _ _ _ _ _ Or L) as (E & Nd & Ox); pose proof Or as [St _ Re Ow]; after_steps St Sr Fr.
  assert (Hp : holds (pending op) mid r0 m h) by (intros u U _; now apply Ho); apply (sp_holds _ _ _ _ _ _ _ St) in Hp.
  set (h1 := moves c h) in *; set (h2 := if OPF_CALL_CLOBBER o then _ else _).
  pose proof (lw_outs _ _ (ko_wf _ _ _ _ _ K)) as Fo; intros t T _; destruct (among op (seq 0 no) t) eqn:A.
  - pose proof A as B; apply among_iff in B as (i & I & <-); apply in_seq in I; assert (Hi : (i < no)%nat) by lia; fold (the_arg i) in *.
    destruct (out_arg i Hi) as (Ei & [_ F] & _), (Re i Hi) as (V & _ & Co); cbv zeta in Co.
    destruct (nth_error vs i) as [v|] eqn:Ev; [|apply nth_error_None in Ev; lia].
    rewrite (rd_wrs_nth (oargs op) vs m i _ v) by (assumption || exact (lw_nodup _ _ (ko_wf _ _ _ _ _ K))).
    unfold outs_states; rewrite A; unfold holds1, loc; rewrite F, V, Co; splits; try discriminate; intros _; f_equal.
    apply (regs_set_rs_nth _ vs h2 i); auto; rewrite E, nth_error_map, (nth_error_nth' _ 0%nat) by (now rewrite length_seq); now rewrite seq_nth.
  - assert (NO : ~ In t (oargs op)).
    { intros I; rewrite the_outs in I; apply in_map_iff in I as (i & E' & I); enough (among op (seq 0 no) t = true) by congruence.
      apply among_iff; eauto. }
    rewrite rd_wrs_ne by auto; specialize (Hp t T A).
    assert (R : forall y, ~ In y (firstn no na) -> (OPF_CALL_CLOBBER o = true -> test_reg tcg_target_call_clobber_regs y = false) ->
              regs (set_rs h2 (firstn no na) vs) y = regs h1 y).
    { intros y Ny Cy; rewrite regs_set_rs_ne by assumption; subst h2; destruct (OPF_CALL_CLOBBER o); [|reflexivity]; cbn; now rewrite Cy. }
    apply (holds1_regs _ r h1); auto.
    + intros F; destruct (cx_fixed _ _ _ Cx t T F) as [X Y]; apply R; auto; intros I; destruct (Ox _ I); congruence.
    + intros F V; destruct (sr_reg r Sr t T F V) as (W' & _); apply R.
      * intros I; destruct (Ox _ I) as (_ & i & Hi & X); apply NO; eapply nth_error_In; rewrite (proj1 (out_arg i Hi)); congruence.
      * intros C; destruct (test_reg tcg_target_call_clobber_regs _) eqn:X; auto; destruct (Ow _ (Hc C _ X)) as [Y|(i & Hi & Y)]; [congruence|].
        exfalso; apply NO; eapply nth_error_In; rewrite (proj1 (out_arg i Hi)); congruence.
    + unfold home_word; rewrite hmem_set_rs; subst h2; destruct (OPF_CALL_CLOBBER o); reflexivity.
Qed.

Lemma operands r0 a r1 c1 na m h h' : inputs_done op life st0 r0 (sorted_ins op) a r1 c1 -> holds nobody st0 r0 m h ->
  (forall x, regs h' x = regs (moves c1 h) x) -> skipn no na = skipn no (new_args a) ->
  map2 (operand h') (firstn ni (skipn no na)) (firstn ni (skipn no (const_args a))) = map (rd m) (iargs op).
Proof.
  intros [_ _ [L1 L2] _ Va _ _] Ho E ->; rewrite the_ins, (slice_nth _ 0), (slice_nth _ false), map2_same, map_map by (unfold no, ni, o in *; lia).
  apply map_ext_in; intros i I; apply in_seq in I; unfold the_arg; rewrite <- (Va i m h); auto.
  - unfold operand; destruct (nth i (const_args a) false); auto.
  - apply (ok_sorted_ins o i present); fold no ni; lia.
Qed.

(** *** The whole operation *)

Lemma shares_after r0 a r1 c1 r2 : inputs_done op life st0 r0 (sorted_ins op) a r1 c1 ->
  (forall y, reg_to_temp r1 y = None -> reg_to_temp r2 y = None) ->
  (forall j t, nth_error (iargs op) j = Some t -> nonfixed t -> IS_DEAD_ARG life (Z.of_nat (n_oargs op) + Z.of_nat j) = true ->
     val_type (temp r1 t) = TEMP_VAL_REG -> reg_to_temp r2 (reg (temp r1 t)) = None) ->
  forall i, (i < no)%nat -> shares op r2 (new_args a) i.
Proof.
  intros Id Wf Fr i Hi A; destruct (ok_alias o i present Hi A) as (N1 & _ & Hj & Ia & _); fold no ni in N1, Hj; set (j := alias_index _) in *.
  destruct (in_share _ _ _ _ _ _ _ _ Id j) as [_ (R & Hx & H)]; auto; [apply (ok_sorted_ins o j present); fold no ni; lia|].
  cbv zeta; splits; auto; destruct H as [H|(N & V & E & D)]; [auto|]; rewrite <- E; apply (Fr (j - no)%nat); auto.
  - apply in_arg; lia.
  - destruct present_op as (_ & _ & -> & _); rewrite <- D; f_equal; lia.
Qed.

Lemma op_body : tcg_reg_alloc_op s cfg op life =
  (a <- fold_each (alloc_iarg s cfg o (args op) life) (sorted_ins op)
          (mkIn (reserved_regs cfg) (repeat 0 (no + ni) ++ cargs op) (repeat false (no + ni)) []) ;;
   free_dead s life (Z.of_nat (n_oargs op)) (iargs op) ;;;
   b <- middle a ;;
   let (allocated_regs, new_args) := (b : Z * list Z) in
   emit (Iop o new_args (const_args a)) ;;;
   finish_oargs s cfg life 0 allocated_regs (oargs op) new_args).
Proof.
  destruct present_op as (_ & _ & Eo & Ei & _); unfold tcg_reg_alloc_op; rewrite Eo, Ei; reflexivity.
Qed.

Lemma op_finish_ok r0 args0 na r c al : outs_ready r0 args0 na r c -> (no <= length na)%nat ->
  wp (finish_oargs s cfg life 0 al (oargs op) na) r (fun r' c' _ => forallb is_move c' = true /\ struct r' /\ fits st1 r' /\
    forall m h, holds nobody (outs_states op mid (seq 0 no)) r m h -> holds nobody st1 r' m (moves c' h)).
Proof.
  intros [St _ Re _] L; after_steps St Sr Fr; pose proof (ko_wf _ _ _ _ _ K) as Wo.
  eapply wp_mono; [apply (finish_oargs_ok st1 life al (oargs op) na 0 (outs_states op mid (seq 0 no)) r); auto|].
  - exact (lw_nodup _ _ Wo).
  - apply (ko_free _ _ _ _ _ K).
  - rewrite the_outs, length_map, length_seq; exact L.
  - intros t I; rewrite the_outs in I; apply in_map_iff in I as (i & <- & I); apply in_seq in I; apply (Re i); lia.
  - apply (ko_outs _ _ _ _ _ K).
  - intros r' c' [] [A B C D _ _].
    assert (Rx : relaxes (settled_outs (outs_states op mid (seq 0 no)) st1 (oargs op)) st1).
    { intros t T; pose proof (ko_rest _ _ _ _ _ K t T) as X; unfold settled_outs, outs_states in *; rewrite among_outs.
      destruct (existsb _ _); exact X. }
    splits; auto; [now apply (fits_relaxes _ st1) in C|]; intros m h Ho; apply (holds_relaxes nobody _ st1 r' m _ Rx); auto.
Qed.

(** The instruction [Iop], with the code before and after it. *)
Lemma iop_chunk r r1 r3 r5 r6 c1 c3 c4 c6 a na m h w :
  inputs_done op life st0 r (sorted_ins op) a r1 c1 -> struct r3 ->
  (forall h, holds nobody st0 r m h -> holds nobody mid r3 m (moves c3 (moves c1 h))) -> (forall h x, regs (moves c3 h) x = regs h x) ->
  forallb is_move (c1 ++ c3 ++ c4) = true -> forallb is_move c6 = true -> outs_ready r3 (new_args a) na r5 c4 ->
  (OPF_CALL_CLOBBER o = true -> forall x, test_reg tcg_target_call_clobber_regs x = true -> reg_to_temp r3 x = None) ->
  (forall m h, holds nobody (outs_states op mid (seq 0 no)) r5 m h -> holds nobody st1 r6 m (moves c6 h)) ->
  wf_store s m -> holds nobody st0 r m h -> chunk st1 op (c1 ++ (c3 ++ c4) ++ Iop o na (const_args a) :: c6) r6 m h w.
Proof.
  intros Id S3 H3 K3 Mv Mv6 Or Cb H6 Wm Ho; destruct present_op as (N1 & N2 & Eo & Ei & Few); pose proof (ko_wf _ _ _ _ _ K) as Wo.
  pose proof (or_args _ _ _ _ _ Or) as [Ln Sk]; destruct (in_length _ _ _ _ _ _ _ _ Id) as [La _].
  assert (Ln' : (no <= length na)%nat) by (rewrite Ln, La; unfold no, o; lia); specialize (H3 h Ho).
  set (h3 := moves c3 (moves c1 h)) in *; set (h5 := moves c4 h3).
  assert (Run : forall jumps prog code, host_run jumps prog ((c1 ++ (c3 ++ c4) ++ Iop o na (const_args a) :: c6) ++ code) h w =
            host_run jumps prog (Iop o na (const_args a) :: c6 ++ code) h5 w).
  { intros jumps prog code; replace ((c1 ++ (c3 ++ c4) ++ Iop o na (const_args a) :: c6) ++ code)
      with ((c1 ++ c3 ++ c4) ++ Iop o na (const_args a) :: c6 ++ code) by (rewrite <- !app_assoc; reflexivity).
    rewrite host_run_moves by assumption; now rewrite !moves_app. }
  assert (In : map2 (operand h5) (firstn ni (skipn no na)) (firstn ni (skipn no (const_args a))) = map (rd m) (iargs op)).
  { apply (operands r a r1 c1 na m h h5); auto; intros x; subst h5; rewrite (sp_regs _ _ _ _ _ _ _ (or_steps _ _ _ _ _ Or)) by exact Logic.I; apply K3. }
  assert (Cs : skipn (no + ni) na = cargs op).
  { rewrite <- (in_consts _ _ _ _ _ _ _ _ Id); fold o; fold no ni; rewrite (Nat.add_comm no ni), <- !skipn_skipn, Sk; reflexivity. }
  assert (Sw : BB_END (tcg_op_defs o) = true \/ OPF_SIDE_EFFECTS o = true -> shows m h5).
  { intros X; apply (pending_shows (pending op) mid (outs_states op mid (seq 0 no)) r3 c4 r5 (fun _ => True)); auto; [apply Or| |].
    - intros t _ P; unfold outs_states; change (pending op t) with (among op (seq 0 no) t) in P; now rewrite P.
    - intros t _ P; apply among_iff in P as (i & I & <-); apply in_seq in I; apply out_arg; unfold no, o; lia. }
  unfold chunk; rewrite (eval_compute s few_temps globals_first op m w (lw_length _ _ Wo) N1 N2).
  assert (Hs : host_step (Iop o na (const_args a)) h5 w =
    match compute s o (map (rd m) (iargs op)) (cargs op) w with
    | Done vs w => HNext (set_rs (if OPF_CALL_CLOBBER o then clobber trash w h5 else h5) (firstn no na) vs) w
    | Jumps label w => HJump label h5 w
    | Leaves why w => HLeave why h5 w
    | Wrong => HWrong
    end) by (cbn [TcgHostCode.host_step]; fold no ni; now rewrite In, Cs).
  fold o; destruct (compute _ _ _ _ _) as [vs w'|lab w'|why w'|] eqn:E; cbn [of_result]; [| | |exact I].
  - destruct (compute_outs s few_temps globals_first _ _ _ _ _ _ N1 N2 (rd_words s few_temps globals_first m (iargs op) Wm) E) as [Lv Fv].
    eexists; split; [intros jumps prog code; rewrite Run, host_run_cons, Hs; now apply host_run_moves|].
    apply H6; now apply (iop_holds r3 (new_args a) na r5 c4).
  - apply compute_jumps in E as E'; destruct E' as [B ->]; split; [reflexivity|]; exists h5; split; [|auto].
    intros jumps prog code; now rewrite Run, host_run_cons, Hs.
  - apply compute_leaves in E as B; exists h5; split; [|auto]; intros jumps prog code; now rewrite Run, host_run_cons, Hs.
Qed.

Lemma op_ok r : struct r -> fits st0 r -> wp (tcg_reg_alloc_op s cfg op life) r (fun r' c _ => emitted st0 st1 op r c r').
Proof.
  intros S Fi; rewrite op_body; destruct present_op as (N1 & N2 & Eo & Ei & Few); pose proof (ko_wf _ _ _ _ _ K) as Wo.
  eapply wp_seq; [apply (inputs_ok op life st0); auto; [intros i Hi; now apply in_arg|intros i Hi; now apply out_arg]|].
  intros r1 c1 a Id; destruct (in_steps _ _ _ _ _ _ _ _ Id) as (k & St1); after_steps St1 S1 F1.
  eapply wp_seq; [apply (free_dead_ok life mid nobody (iargs op) (Z.of_nat (n_oargs op)) st0 r1); auto|].
  { exact (wf_ins s op Wo). } { apply (ko_ins _ _ _ _ _ K). } { apply (kept_alive st0 mid st1 op life K). }
  intros r2 c2 [] (-> & St2 & W2 & Fr2); after_steps St2 S2 F2; destruct (in_length _ _ _ _ _ _ _ _ Id) as [La _].
  assert (La' : (no <= length (new_args a))%nat) by (rewrite La; unfold no, o; lia).
  eapply wp_seq; [apply (middle_ok r2 a); auto; now apply (shares_after r a r1 c1)|]; intros r5 c5 [al na] (r3 & c3 & c4 & -> & St3 & Cb & Or).
  cbn [snd] in Or; pose proof (or_args _ _ _ _ _ Or) as [Ln Sk]; assert (Ln' : (no <= length na)%nat) by (rewrite Ln; exact La').
  wp_step; wp_step; eapply wp_mono; [apply (op_finish_ok r3 (new_args a) na r5 c4 al Or Ln')|].
  intros r6 c6 [] (Mv6 & S6 & F6 & H6).
  pose proof (or_steps _ _ _ _ _ Or) as St4; after_steps St3 S3 F3.
  assert (Mv : forallb is_move (c1 ++ c3 ++ c4) = true).
  { rewrite !forallb_app, (sp_moves _ _ _ _ _ _ _ St1), (sp_moves _ _ _ _ _ _ _ St3); exact (sp_moves _ _ _ _ _ _ _ St4). }
  cbn [app]; constructor; auto.
  - rewrite <- app_assoc, 2!app_assoc, forallb_app, <- app_assoc, (plain_moves _ Mv); cbn; now apply plain_moves.
  - intros m h w Wm Ho; apply (iop_chunk r r1 r3 r5 r6 c1 c3 c4 c6 a na m h w); auto.
    + intros h' Ho'; apply (sp_holds _ _ _ _ _ _ _ St3), (sp_holds _ _ _ _ _ _ _ St2 m (moves c1 h')), (sp_holds _ _ _ _ _ _ _ St1); exact Ho'.
    + intros h' x; now apply (sp_regs _ _ _ _ _ _ _ St3).
Qed.

End Operation.

End Code.
