(* ===== verification/TcgRegCalls.v ===== *)
(** * The register allocator on calls (tcg/tcg.c)

    [tcg_reg_alloc_call]: arguments on the stack and in the registers of the
    calling convention, the registers that the helper may destroy are given
    back, and the results are taken from their registers. *)

From Stdlib Require Import ZArith Lia List Bool.
From S2P Require Import Prelude Bitops TcgIr TcgOpt TcgCopies TcgOptProof TcgLife TcgLifeProof TcgRegAlloc TcgHostCode TcgRegProof TcgRegMoves TcgRegEffects TcgRegOps TcgRegCode.
Import ListNotations.
Local Open Scope Z_scope.
Local Open Scope c_scope.
Local Open Scope ra_scope.

Section Calls.
Context {setup : AllocSetup}.

(** ** Arguments on the stack *)

(** A store to the words for arguments. *)
Lemma holds_stack st r m h off v : struct r -> fits st r -> off < TCG_STATIC_CALL_ARGS_SIZE ->
  holds nobody st r m h -> holds nobody st r m (set_m h TCG_REG_CALL_STACK off v).
Proof.
  intros S Fi O Ho t T P; specialize (Ho t T P); unfold holds1, loc in *; destruct (fixed t) eqn:F; [exact Ho|].
  assert (E : mem_allocated (temp r t) = true -> home_word r (set_m h TCG_REG_CALL_STACK off v) t = home_word r h t).
  { intros A; unfold home_word, set_m; cbn [hmem]; destruct (Z.eqb_spec (fst (place r t)) TCG_REG_CALL_STACK) as [E|]; [|reflexivity].
    pose proof (place_stack r t S ltac:(now split) A E); now rewrite (proj2 (Z.eqb_neq (snd (place r t)) off)) by lia. }
  destruct (Fi t T F) as (_ & B & C & D), Ho as (H1 & H2 & H3); splits.
  - intros X; rewrite <- (H1 X); destruct (B X) as [_ Y]; destruct (val_type (temp r t)); auto; now rewrite E by auto.
  - intros X; rewrite E by (now apply C); auto.
  - intros X Y; rewrite E by auto; cbn; auto.
Qed.

Definition call_input (st0 : temp_states) (t : Z) : Prop := t = TCG_CALL_DUMMY_ARG \/ in_temps t /\ dead (st0 t) = false.

Lemma stack_args_ok st0 ins : forall off r, struct r -> fits st0 r -> Forall (call_input st0) ins ->
  off + 4 * Z.of_nat (length ins) <= TCG_STATIC_CALL_ARGS_SIZE ->
  wp (stack_args s cfg off ins) r (fun r' c _ => forallb is_move c = true /\ struct r' /\ fits st0 r' /\
    forall m h, holds nobody st0 r m h -> holds nobody st0 r' m (moves c h) /\
      (forall k t, nth_error ins k = Some t -> t <> TCG_CALL_DUMMY_ARG ->
         hmem (moves c h) TCG_REG_CALL_STACK (off + 4 * Z.of_nat k) = rd m t) /\
      (forall off', off' < off -> hmem (moves c h) TCG_REG_CALL_STACK off' = hmem h TCG_REG_CALL_STACK off')).
Proof.
  induction ins as [|t ins IH]; intros off r S Fi Fc L; cbn [stack_args length] in *.
  - apply wp_ret; splits; auto; intros m h Ho; splits; auto; intros [|k] t E; discriminate.
  - inversion_clear Fc as [|? ? Ct Fc'].
    eapply wp_seq with (P := fun r1 c1 _ => forallb is_move c1 = true /\ struct r1 /\ fits st0 r1 /\
      forall m h, holds nobody st0 r m h -> holds nobody st0 r1 m (moves c1 h) /\
        (t <> TCG_CALL_DUMMY_ARG -> hmem (moves c1 h) TCG_REG_CALL_STACK off = rd m t) /\
        (forall off', off' < off -> hmem (moves c1 h) TCG_REG_CALL_STACK off' = hmem h TCG_REG_CALL_STACK off')).
    + destruct (Z.eqb_spec t TCG_CALL_DUMMY_ARG) as [E|E]; [apply wp_ret; splits; auto; intros m h Ho; splits; auto; contradiction|].
      destruct Ct as [|[T D]]; [contradiction|].
      eapply wp_seq; [apply (load_steps 1 nobody st0 r t tcg_target_available_regs (reserved_regs cfg)); auto|].
      { apply (in_use_room _ []); [apply in_use_reserved|cbn; lia|apply ok_available]. } { apply (in_use_guarded _ []), in_use_reserved. }
      intros r1 c1 [] (St & V & _); after_steps St S1 F1; repeat wp_step; cbn [app]; splits; auto.
      * rewrite forallb_app, (sp_moves _ _ _ _ _ _ _ St); reflexivity.
      * intros m h Ho; apply (sp_holds _ _ _ _ _ _ _ St) in Ho as Ho'; rewrite moves_app; cbn [moves fold_left move]; fold (moves c1 h).
        rewrite (reg_value st0 r1 t m (moves c1 h) S1 F1 Ho' T D V); splits.
        -- apply holds_stack; auto; lia.
        -- intros _; cbn; now rewrite Z.eqb_refl.
        -- intros off' O; cbn [set_m hmem]; rewrite (proj2 (Z.eqb_neq off' off)), andb_false_r by lia.
           apply (ss_args _ _ _ (sp_stack _ _ _ _ _ _ _ St h)); lia.
    + intros r1 c1 [] (Mv1 & S1 & F1 & H1); eapply wp_mono; [apply (IH (off + 4) r1); auto; lia|].
      intros r2 c2 [] (Mv2 & S2 & F2 & H2); splits; auto; [now rewrite forallb_app, Mv1, Mv2|].
      intros m h Ho; destruct (H1 m h Ho) as (A1 & B1 & C1), (H2 m (moves c1 h) A1) as (A2 & B2 & C2); rewrite moves_app; splits; auto.
      * intros [|k] u E N; [injection E as <-; rewrite Z.add_0_r, C2 by lia; auto|].
        rewrite <- (B2 k u E N); f_equal; lia.
      * intros off' O; rewrite C2, C1; auto; lia.
Qed.

(** ** Arguments in registers *)

Lemma bit_nonneg set x : test_reg set x = true -> 0 <= x.
Proof.
  unfold test_reg; intros H; destruct (Z_lt_ge_dec x 0); [rewrite Z.testbit_neg_r in H by assumption; discriminate|lia].
Qed.

(** One argument into the register [x]. *)
Lemma reg_arg_ok st0 r t x al : struct r -> fits st0 r -> in_temps t -> dead (st0 t) = false ->
  In x tcg_target_call_iarg_regs -> test_reg al x = false -> (forall y, test_reg (reserved_regs cfg) y = true -> test_reg al y = true) ->
  wp (tcg_reg_free (temp_sync s cfg) x al ;;;
      ts <- get_temp t ;;
      (if is_val TEMP_VAL_REG ts then if reg ts =? x then ret tt else emit (Imov x (reg ts))
       else temp_load (temp_sync s cfg) t (add_reg 0 x) al) ;;;
      ret (add_reg al x)) r
    (fun r' c al' => al' = add_reg al x /\ steps nobody st0 st0 r c r' (fun y => test_reg al y = true) /\
       forall m h, holds nobody st0 r m h -> regs (moves c h) x = rd m t).
Proof.
  intros S Fi T D I A Rs; destruct (ok_iarg x I) as (Rx & Cx' & Or); pose proof (bit_nonneg _ _ Cx') as Hx.
  eapply wp_seq; [apply (free_steps 1 nobody st0 r x al); auto|]; intros r1 c1 [] (St1 & _ & _ & Fx); specialize (Fx Rx); after_steps St1 S1 F1.
  assert (St1' : steps nobody st0 st0 r c1 r1 (fun y => test_reg al y = true)) by (eapply steps_keep; [exact St1|now intros]).
  wp_step; wp_step; cbn [app]; destruct (is_val TEMP_VAL_REG (temp r1 t)) eqn:V.
  - apply is_val_iff in V; wp_step; destruct (Z.eqb_spec (reg (temp r1 t)) x) as [E|E].
    + apply wp_ret, wp_ret; cbn [app]; rewrite app_nil_r; splits; auto.
      intros m h Ho; rewrite <- E; apply (reg_value st0 r1 t); auto; now apply (sp_holds _ _ _ _ _ _ _ St1).
    + apply wp_emit, wp_ret; cbn [app]; splits; auto.
      * eapply steps_trans; [exact St1'|now apply mov_steps|auto|]; cbv beta; intros y Y ->; congruence.
      * intros m h Ho; rewrite moves_app; cbn; rewrite Z.eqb_refl; apply (reg_value st0 r1 t); auto; now apply (sp_holds _ _ _ _ _ _ _ St1).
  - assert (Av : available (add_reg 0 x) al (indirect_base (temp r1 t))).
    { exists x; splits; auto; rewrite test_add_reg, Z.eqb_refl by assumption; apply orb_true_r. }
    wp_step; eapply wp_mono; [apply (load_steps 1 nobody st0 r1 t (add_reg 0 x) al); auto|]; [split; auto; discriminate|].
    intros r2 c2 [] (St2 & V2 & _ & _ & _ & Rg & _); apply wp_ret; rewrite app_nil_r; splits; auto; [eapply steps_trans; eauto|].
    intros m h Ho; rewrite moves_app; after_steps St2 S2 F2; destruct Rg as [Rg _]; [intros Y; apply is_val_iff in Y; congruence|].
    rewrite test_add_reg in Rg by assumption; unfold test_reg in Rg; rewrite Z.testbit_0_l in Rg; apply Z.eqb_eq in Rg; rewrite <- Rg.
    apply (reg_value st0 r2 t); auto; apply (sp_holds _ _ _ _ _ _ _ St2), (sp_holds _ _ _ _ _ _ _ St1); exact Ho.
Qed.

Lemma reg_args_ok st0 ins : forall xs al r, struct r -> fits st0 r -> Forall (call_input st0) ins ->
  NoDup xs -> incl xs tcg_target_call_iarg_regs -> (forall x, In x xs -> test_reg al x = false) ->
  (forall y, test_reg (reserved_regs cfg) y = true -> test_reg al y = true) ->
  wp (reg_args s cfg al ins xs) r (fun r' c _ => steps nobody st0 st0 r c r' (fun y => test_reg al y = true) /\
    forall m h, holds nobody st0 r m h -> forall k t x, nth_error ins k = Some t -> nth_error xs k = Some x ->
      t <> TCG_CALL_DUMMY_ARG -> regs (moves c h) x = rd m t).
Proof.
  induction ins as [|t ins IH]; intros [|x xs] al r S Fi Fc Nd Ic Na Rs; cbn [reg_args];
    try (apply wp_ret; split; [now apply steps_nil|intros m h _ [|k] u y E1 E2; discriminate]).
  inversion_clear Fc as [|? ? Ct Fc']; inversion_clear Nd as [|? ? NI Nd']; pose proof (Ic x (or_introl eq_refl)) as Ix.
  assert (Hx : 0 <= x) by (destruct (ok_iarg x Ix) as (_ & C & _); now apply bit_nonneg in C).
  assert (Ic' : incl xs tcg_target_call_iarg_regs) by (intros y I; apply Ic; now right).
  destruct (Z.eqb_spec t TCG_CALL_DUMMY_ARG) as [E|E].
  - wp_step; wp_step; eapply wp_mono; [apply (IH xs al r); auto; intros y I; apply Na; now right|].
    intros r2 c2 _ (St & H); split; [exact St|]; intros m h Ho [|k] u y E1 E2 N; [injection E1 as <-; contradiction|cbn in *; eauto].
  - destruct Ct as [|[T D]]; [contradiction|]; eapply wp_seq; [apply (reg_arg_ok st0 r t x al); auto; apply Na; now left|].
    intros r1 c1 al1 (-> & St1 & V1); after_steps St1 S1 F1; eapply wp_mono; [apply (IH xs (add_reg al x) r1); auto|].
    + intros y I; rewrite test_add_reg, (Na y) by (assumption || now right); apply Z.eqb_neq; congruence.
    + intros y Y; now rewrite test_add_reg, Rs.
    + intros r2 c2 _ (St2 & H2); split.
      * eapply steps_trans; [exact St1|exact St2|auto|]; cbv beta; intros y Y; now rewrite test_add_reg, Y.
      * intros m h Ho [|k] u y E1 E2 N; rewrite moves_app.
        -- injection E1 as <-; injection E2 as <-; rewrite (sp_regs _ _ _ _ _ _ _ St2) by (now rewrite test_add_reg, Z.eqb_refl, orb_true_r); auto.
        -- apply (H2 m (moves c1 h) (sp_holds _ _ _ _ _ _ _ St1 m h Ho) k u y); auto.
Qed.

(** ** Results *)

(** One result. *)
Lemma result_ok st st1 life al i t x r : struct r -> fits st r -> nonfixed t -> dead (st t) = true ->
  reg_to_temp r x = None -> test_reg (reserved_regs cfg) x = false -> 0 <= x ->
  IS_DEAD_ARG life i = dead (st1 t) -> NEED_SYNC_ARG life i = mem (st1 t) ->
  wp (leave_reg t ;;;
      on_temp t (fun ts => set_coherent false (set_reg x (set_val_type TEMP_VAL_REG ts))) ;;;
      set_reg_to_temp x (Some t) ;;;
      finish_out s cfg t life i al) r (fun r' c _ => forallb is_move c = true /\ struct r' /\ fits (put st t (st1 t)) r' /\
    (forall u, u <> t -> temp r' u = temp r u) /\ (forall y, y <> x -> reg_to_temp r y = None -> reg_to_temp r' y = None) /\
    (forall h y, regs (moves c h) y = regs h y) /\
    forall m h, wf_store s m -> holds nobody st r m h -> holds nobody (put st t (st1 t)) r' (wr m t (regs h x)) (moves c h)).
Proof.
  intros S Fi N Dd Wx Rx Hx HD HM; assert (V := dead_not_reg st r t Fi N Dd).
  wp_step; exists r, [], tt; split; [now apply leave_reg_none|]; wp_step; wp_step; wp_step; wp_step; set (r1 := set_reg_to x _ _).
  assert (Et : temp r1 t = set_coherent false (set_reg x (set_val_type TEMP_VAL_REG (temp r t)))) by apply temp_set_eq.
  assert (Cl : claimed t x r r1).
  { constructor; rewrite ?Et; try reflexivity; [|now splits]; intros u Nu; now apply temp_set_ne. }
  assert (Co : mem_coherent (temp r1 t) = false) by now rewrite Et.
  assert (Mc : may_claim t x r) by now constructor.
  assert (S1 := claim_struct _ _ _ _ S Mc Cl); assert (F1 := claim_fits st _ _ _ _ Fi Cl Co).
  eapply wp_mono; [apply (finish_reg_steps nobody (put st t 0) r1 t life i al (st1 t)); auto; now rewrite Et|].
  intros r2 c2 [] (St2 & O2 & W2); cbn [app]; apply (steps_weaker _ _ _ (put st t (st1 t))) in St2;
    [|intros u _; unfold put; destruct (u =? t); auto]; after_steps St2 S2 F2; splits; auto.
  - apply St2.
  - intros u Nu; rewrite O2, (cl_other _ _ _ _ Cl); auto.
  - intros y Ny Y; apply W2; rewrite (cl_owner _ _ _ _ Cl), (proj2 (Z.eqb_neq y x)); auto.
  - intros h y; now apply (sp_regs _ _ _ _ _ _ _ St2).
  - intros m h Wm Ho; apply (sp_holds _ _ _ _ _ _ _ St2); now apply (claim_holds nobody st r r1 m h t x).
Qed.

Lemma call_oargs_ok st1 life al outs : forall xs i st r, struct r -> fits st r -> NoDup outs -> Forall nonfixed outs ->
  (forall t, In t outs -> dead (st t) = true) -> NoDup xs -> (length outs <= length xs)%nat ->
  (forall x, In x xs -> reg_to_temp r x = None /\ test_reg (reserved_regs cfg) x = false /\ 0 <= x) ->
  (forall j t, nth_error outs j = Some t ->
     IS_DEAD_ARG life (i + Z.of_nat j) = dead (st1 t) /\ NEED_SYNC_ARG life (i + Z.of_nat j) = mem (st1 t)) ->
  wp (call_oargs s cfg life i al outs xs) r (fun r' c _ => forallb is_move c = true /\ struct r' /\ fits (settled_outs st st1 outs) r' /\
    forall m h vs, wf_store s m -> holds nobody st r m h -> length vs = length outs -> Forall (inU 32) vs ->
      (forall k x v, nth_error xs k = Some x -> nth_error vs k = Some v -> regs h x = v) ->
      holds nobody (settled_outs st st1 outs) r' (wrs m outs vs) (moves c h)).
Proof.
  induction outs as [|t outs IH]; intros [|x xs] i st r S Fi Nd Nf Dd Nx L Fr H; cbn [length] in L; try lia; cbn [call_oargs];
    try (apply wp_ret; splits; auto; intros m h [|v vs] Wm Ho Lv Fv _; try discriminate Lv; exact Ho).
  inversion_clear Nd as [|? ? NI Nd']; inversion_clear Nf as [|? ? N Nf']; inversion_clear Nx as [|? ? NX Nx'].
  destruct (H 0%nat t eq_refl) as [HD HM]; cbn [Z.of_nat] in HD, HM; rewrite Z.add_0_r in HD, HM.
  destruct (Fr x (or_introl eq_refl)) as (Wx & Rx & Hx).
  wp_step; wp_step; wp_step; apply wp_assert; [now rewrite Wx|]; wp_step; wp_step; rewrite (sr_fixed r S t (proj1 N)), (proj2 N).
  eapply wp_seq; [apply (result_ok st st1 life al i t x r); auto; apply Dd; now left|].
  intros r1 c1 [] (Mv1 & S1 & F1 & O1 & W1 & K1 & H1); eapply wp_mono; [apply (IH xs (i + 1) (put st t (st1 t)) r1); auto; try lia|].
  - intros u I; rewrite put_ne by congruence; apply Dd; now right.
  - intros y I; destruct (Fr y (or_intror I)) as (A & B & C); splits; auto; apply W1; auto; congruence.
  - intros j u E; destruct (H (Datatypes.S j) u E) as [A B]; rewrite <- A, <- B; split; f_equal; lia.
  - intros r2 c2 [] (Mv2 & S2 & F2 & H2); cbn [app].
    assert (Wk : weaker (settled_outs (put st t (st1 t)) st1 outs) (settled_outs st st1 (t :: outs))).
    { intros u _; unfold settled_outs, put; cbn [existsb]; destruct (Z.eqb_spec u t) as [->|]; [|auto]; rewrite not_in_existsb by assumption; auto. }
    splits; auto; [now rewrite forallb_app, Mv1, Mv2|now apply (fits_weaker _ _ _ Wk)|].
    intros m h [|v vs] Wm Ho Lv Fv Hv; [discriminate|]; inversion_clear Fv as [|? ? V' Fv']; rewrite moves_app; cbn [wrs].
    apply (holds_weaker nobody _ _ _ _ _ Wk), H2; auto; [now apply wf_wr| |].
    + rewrite <- (Hv 0%nat x v eq_refl eq_refl); now apply H1.
    + intros k y u E1 E2; rewrite K1; apply (Hv (Datatypes.S k)); auto.
Qed.

(** ** The globals at their places *)

Definition same_host (h h' : hstate) : Prop := (forall x, regs h' x = regs h x) /\ (forall b o, hmem h' b o = hmem h b o).

Lemma holds_same_host st r m h h' : same_host h h' -> holds nobody st r m h -> holds nobody st r m h'.
Proof. intros [R M] Ho t T P; apply (holds1_regs _ r h); auto; unfold home_word; apply M. Qed.

Lemma set_global_get h t v u : in_temps t -> in_temps u -> is_global s t = true -> is_global s u = true ->
  get_global context (set_global context h t v) u = if u =? t then v else get_global context h u.
Proof.
  intros T U Gt Gu; unfold set_global; assert (Et : fixed_reg (context t) = fixed t) by (unfold is_fixed; now rewrite Gt).
  rewrite !get_global_place, Et by assumption; destruct (fixed t) eqn:Ft, (fixed u) eqn:Fu; cbn [set_r set_m regs hmem].
  - destruct (Z.eqb_spec (reg (context u)) (reg (context t))) as [E|E], (Z.eqb_spec u t) as [->|N]; auto; try congruence.
    exfalso; apply N; now apply (cx_fixed_inj _ _ _ Cx).
  - destruct (Z.eqb_spec u t) as [->|]; [congruence|reflexivity].
  - destruct (Z.eqb_spec u t) as [->|]; [congruence|reflexivity].
  - change (reg (context (mem_base (context t)))) with (fst (global_place t)); change (mem_offset (context t)) with (snd (global_place t)).
    destruct (Z.eqb_spec u t) as [->|N]; [now rewrite !Z.eqb_refl|].
    destruct (Z.eqb_spec (fst (global_place u)) (fst (global_place t))) as [E1|]; [|reflexivity].
    destruct (Z.eqb_spec (snd (global_place u)) (snd (global_place t))) as [E2|]; [|reflexivity]; exfalso; apply N.
    apply (cx_mem_inj _ _ _ Cx); auto; destruct (global_place u), (global_place t); cbn in *; congruence.
Qed.

Lemma set_globals_get h g t : in_temps t -> is_global s t = true -> get_global context (set_globals s context h g) t = rd g t.
Proof.
  intros T G; unfold set_globals; assert (I : In t (globals s)).
  { unfold globals; apply in_map_iff; exists (Z.to_nat t); unfold TcgCopies.in_temps in T; apply Z.ltb_lt in G; split; [lia|apply in_seq; lia]. }
  assert (A : forall u, In u (globals s) -> in_temps u /\ is_global s u = true) by apply global_temp.
  enough (H : forall l h, incl l (globals s) -> In t l \/ get_global context h t = rd g t ->
            get_global context (fold_left (fun h t => set_global context h t (rd g t)) l h) t = rd g t) by (apply H; [intros u; auto|now left]).
  induction l as [|u l IH]; intros h0 Il Ht; cbn [fold_left]; [destruct Ht as [[]|]; auto|].
  apply IH; [intros x X; apply Il; now right|]; destruct (A u (Il u (or_introl eq_refl))) as [U Gu].
  rewrite set_global_get by assumption; destruct (Z.eqb_spec t u) as [->|N]; [now right|]; destruct Ht as [[X|X]|X]; auto; congruence.
Qed.

(** Nothing else is written. *)
Lemma set_globals_regs h g x : (forall t, in_temps t -> fixed t = true -> reg (context t) <> x) -> regs (set_globals s context h g) x = regs h x.
Proof.
  intros N; unfold set_globals; assert (A : forall u, In u (globals s) -> in_temps u /\ is_global s u = true) by apply global_temp.
  revert h; induction (globals s) as [|u l IH]; intros h; cbn [fold_left]; auto; rewrite IH by (intros v I; apply A; now right).
  destruct (A u (or_introl eq_refl)) as [U G]; unfold set_global; destruct (fixed_reg (context u)) eqn:F; [|reflexivity].
  cbn; rewrite (proj2 (Z.eqb_neq x _)); auto; intros ->; apply (N u U); auto; unfold is_fixed; now rewrite G.
Qed.

Lemma set_globals_hmem h g b o : (forall t, in_temps t -> is_global s t = true -> fixed t = false -> global_place t <> (b, o)) ->
  hmem (set_globals s context h g) b o = hmem h b o.
Proof.
  intros N; unfold set_globals; assert (A : forall u, In u (globals s) -> in_temps u /\ is_global s u = true) by apply global_temp.
  revert h; induction (globals s) as [|u l IH]; intros h; cbn [fold_left]; auto; rewrite IH by (intros v I; apply A; now right).
  destruct (A u (or_introl eq_refl)) as [U G]; unfold set_global; destruct (fixed_reg (context u)) eqn:F; [reflexivity|].
  cbn [set_m hmem]; destruct (Z.eqb_spec b (reg (context (mem_base (context u))))) as [E1|]; [|reflexivity].
  destruct (Z.eqb_spec o (mem_offset (context u))) as [E2|]; [|reflexivity]; exfalso.
  apply (N u U G); [unfold is_fixed; now rewrite G|unfold context_place; congruence].
Qed.

Lemma set_global_same h t : same_host h (set_global context h t (get_global context h t)).
Proof.
  unfold set_global, get_global; destruct (fixed_reg (context t)); split; intros; cbn [set_r set_m regs hmem]; auto.
  - destruct (Z.eqb_spec x (reg (context t))) as [->|]; reflexivity.
  - destruct (Z.eqb_spec b (reg (context (mem_base (context t))))) as [->|]; [|reflexivity].
    destruct (Z.eqb_spec o (mem_offset (context t))) as [->|]; reflexivity.
Qed.

Lemma get_global_same h h' t : same_host h h' -> get_global context h' t = get_global context h t.
Proof. intros [R M]; unfold get_global; now rewrite R, M. Qed.

(** A helper that leaves the globals as they are. *)
Lemma set_globals_same h g : (forall t, In t (globals s) -> rd g t = get_global context h t) -> same_host h (set_globals s context h g).
Proof.
  intros E; unfold set_globals; enough (H : forall l h0, incl l (globals s) -> same_host h h0 ->
    same_host h (fold_left (fun h t => set_global context h t (rd g t)) l h0)) by (apply H; [intros u; auto|now split]).
  induction l as [|u l IH]; intros h0 Il Sh; cbn [fold_left]; auto; apply IH; [intros x X; apply Il; now right|].
  rewrite E, <- (get_global_same h h0) by (auto; apply Il; now left); destruct Sh as [A B], (set_global_same h0 u) as [C D].
  split; intros; [now rewrite C|now rewrite D].
Qed.

(** ** The helper *)

Context {W : Type} {host : TcgHost W (nb_globals s)} {flags : HelperFlags W (nb_globals s) host}.
Variable trash : W -> Z -> Z.
Abbreviation host_run := (TcgHostCode.host_run s context trash).

(** The registers that a call destroys hold nothing. *)
Lemma holds_clobber st r m h w : struct r -> (forall x, test_reg tcg_target_call_clobber_regs x = true -> reg_to_temp r x = None) ->
  holds nobody st r m h -> holds nobody st r m (clobber trash w h).
Proof.
  intros S C Ho t T P; apply (holds1_regs _ r h); auto; cbn [clobber regs].
  - intros F; destruct (cx_fixed _ _ _ Cx t T F) as [_ X]; now rewrite X.
  - intros F V; destruct (sr_reg r S t T F V) as (X & _); destruct (test_reg _ _) eqn:E; auto; apply C in E; congruence.
Qed.

Lemma holds_new_globals mid r m h g : struct r -> fits mid r -> wf_store s m -> length g = nb_globals s ->
  (forall t, is_global s t = true -> dead (mid t) = true /\ mem (mid t) = true) ->
  holds nobody mid r m h -> holds nobody mid r (g ++ skipn (nb_globals s) m) (set_globals s context h g).
Proof.
  intros S Fi [Lm _] Lg Mg Ho t T P; destruct (is_global s t) eqn:G.
  - apply Z.ltb_lt in G as G'; unfold TcgCopies.in_temps in T; rewrite (rd_app_low s few_temps globals_first) by lia; destruct (Mg t G) as [D M].
    pose proof (set_globals_get h g t T G) as E; rewrite get_global_place in E by assumption; unfold holds1; destruct (fixed t) eqn:F; auto.
    assert (V : val_type (temp r t) <> TEMP_VAL_REG) by (apply (dead_not_reg mid); auto; now split).
    splits; try congruence; intros _; unfold home_word; rewrite (place_global r t); auto.
  - rewrite (rd_skip s few_temps globals_first) by (auto; now apply Z.ltb_ge in G); specialize (Ho t T P).
    assert (F : fixed t = false) by (unfold is_fixed; now rewrite G); destruct (Fi t T F) as (A & B & C & D).
    assert (Es : mem_allocated (temp r t) = true -> home_word r (set_globals s context h g) t = home_word r h t).
    { intros Al; unfold home_word; apply set_globals_hmem; intros u U Gu Fu E; rewrite <- (place_global r u) in E by assumption.
      destruct (sr_global r S u U Gu Fu) as (Au & _); assert (u = t); [|congruence].
      apply (place_inj r u t S); auto; now split. }
    assert (Er : val_type (temp r t) = TEMP_VAL_REG -> regs (set_globals s context h g) (reg (temp r t)) = regs h (reg (temp r t))).
    { intros V; apply set_globals_regs; intros u U Fu E; destruct (cx_fixed _ _ _ Cx u U Fu) as [X _].
      destruct (sr_reg r S t T F V) as (_ & Y & _); congruence. }
    unfold holds1, loc in *; rewrite F in *; destruct Ho as (H1 & H2 & H3); splits.
    + intros X; rewrite <- (H1 X); destruct (B X) as [_ Y]; destruct (val_type (temp r t)) eqn:V; auto; [now rewrite Er|now rewrite Es by auto].
    + intros X; destruct (C X) as (Al & _); rewrite Es by assumption; auto.
    + intros X Y; rewrite Er, Es by auto; auto.
Qed.

(** The flags of the call and the states of the globals. *)
Definition call_states (fl : Z) (mid : temp_states) : Prop :=
  if truthy (fl .& TCG_CALL_NO_READ_GLOBALS) then True
  else if truthy (fl .& TCG_CALL_NO_WRITE_GLOBALS) then forall t, is_global s t = true -> mem (mid t) = true
  else forall t, is_global s t = true -> dead (mid t) = true /\ mem (mid t) = true.

Lemma shows_globals m h : wf_store s m -> shows m h -> map (get_global context h) (globals s) = firstn (nb_globals s) m.
Proof.
  intros [Lm _] Sh; pose proof globals_first; rewrite <- (map_rd_firstn s few_temps globals_first m) by lia; apply map_ext_in; intros t I; destruct (global_temp t I); auto.
Qed.

Lemma rd_globals h t : In t (globals s) -> rd (map (get_global context h) (globals s)) t = get_global context h t.
Proof.
  intros I; destruct (global_temp t I) as [T G]; apply Z.ltb_lt in G; unfold TcgCopies.in_temps in T; unfold rd, globals.
  rewrite map_map; rewrite (nth_indep _ 0 (get_global context h (Z.of_nat 0))) by (rewrite length_map, length_seq; lia).
  rewrite (map_nth (fun k => get_global context h (Z.of_nat k))), seq_nth by lia; f_equal; lia.
Qed.

(** What the helper does, seen from the block and on the host. *)
Lemma helper_ok mid r m h w f fl rest i : struct r -> fits mid r -> wf_store s m -> call_states fl mid ->
  (forall x, test_reg tcg_target_call_clobber_regs x = true -> reg_to_temp r x = None) -> holds nobody mid r m h ->
  match helper (f :: fl :: rest) i (firstn (nb_globals s) m) w with
  | Some (o, g, w') => exists g', helper (f :: fl :: rest) i (map (get_global context h) (globals s)) w = Some (o, g', w') /\
      wf_store s (g ++ skipn (nb_globals s) m) /\
      holds nobody mid r (g ++ skipn (nb_globals s) m) (clobber trash w' (set_globals s context h g'))
  | None => helper (f :: fl :: rest) i (map (get_global context h) (globals s)) w = None /\ shows m h
  end.
Proof.
  intros S Fi Wm Cs Cl Ho; pose proof Wm as [Lm Fm]; pose proof globals_first as Gf.
  assert (Lf : length (firstn (nb_globals s) m) = nb_globals s) by (rewrite length_firstn; lia).
  assert (Lh : length (map (get_global context h) (globals s)) = nb_globals s) by (unfold globals; now rewrite !length_map, length_seq).
  assert (Same : forall w', holds nobody mid r m (clobber trash w' (set_globals s context h (map (get_global context h) (globals s))))).
  { intros w'; apply holds_clobber; auto; apply (holds_same_host mid r m h); auto; apply set_globals_same, rd_globals. }
  unfold call_states in Cs; destruct (truthy (fl .& TCG_CALL_NO_READ_GLOBALS)) eqn:NR.
  - destruct (helper_no_read f fl rest i w NR) as (o & w' & H); rewrite !H by assumption; eexists; split; [reflexivity|].
    rewrite firstn_skipn; auto.
  - destruct (truthy (fl .& TCG_CALL_NO_WRITE_GLOBALS)) eqn:NW.
    + pose proof (holds_shows mid r m h S Ho Cs) as Sh; rewrite (shows_globals m h Wm Sh).
      destruct (helper _ _ _ _) as [[[o g] w']|] eqn:E; [|auto]; exists g; split; [reflexivity|].
      rewrite (helper_no_write _ _ _ _ _ _ _ _ _ E), firstn_skipn by (rewrite truthy_flags, NR, NW; reflexivity).
      split; auto; rewrite <- (shows_globals m h Wm Sh); auto.
    + assert (M : forall t, is_global s t = true -> mem (mid t) = true) by (intros t G; now apply Cs).
      pose proof (holds_shows mid r m h S Ho M) as Sh; rewrite (shows_globals m h Wm Sh).
      destruct (helper _ _ _ _) as [[[o g] w']|] eqn:E; [|auto]; exists g; split; [reflexivity|].
      assert (Ff : Forall (inU 32) (firstn (nb_globals s) m)) by (rewrite <- (firstn_skipn (nb_globals s) m) in Fm; now apply Forall_app in Fm).
      destruct (helper_globals _ _ _ _ _ _ _ Lf Ff E) as [Lg Fg]; split.
      * split; [rewrite length_app, length_skipn; lia|]; apply Forall_app; split; auto.
        rewrite <- (firstn_skipn (nb_globals s) m) in Fm; now apply Forall_app in Fm.
      * apply holds_clobber; auto; now apply holds_new_globals.
Qed.

(** ** The whole call *)

Lemma call_args_map h m ins : forall k0, rd m TCG_CALL_DUMMY_ARG = 0 ->
  (forall k t, nth_error ins k = Some t -> t <> TCG_CALL_DUMMY_ARG -> call_arg h (k0 + k) false = rd m t) ->
  call_args h k0 (map (fun t => t =? TCG_CALL_DUMMY_ARG) ins) = map (rd m) ins.
Proof.
  induction ins as [|t ins IH]; intros k0 D H; [reflexivity|]; cbn [map call_args]; rewrite IH; auto.
  - f_equal; destruct (Z.eqb_spec t TCG_CALL_DUMMY_ARG) as [->|N]; [now rewrite D|].
    rewrite <- (H 0%nat t eq_refl N), Nat.add_0_r; reflexivity.
  - intros k u E N; rewrite <- (H (S k) u E N); f_equal; lia.
Qed.

(** The arguments are where the helper looks for them. *)
Lemma args_passed h h1 h2 m ins nb : let xs := tcg_target_call_iarg_regs in
  nb = Nat.min (length xs) (length ins) -> rd m TCG_CALL_DUMMY_ARG = 0 -> 4 * Z.of_nat (length (skipn nb ins)) <= TCG_STATIC_CALL_ARGS_SIZE ->
  (forall k t, nth_error (skipn nb ins) k = Some t -> t <> TCG_CALL_DUMMY_ARG -> hmem h1 TCG_REG_CALL_STACK (0 + 4 * Z.of_nat k) = rd m t) ->
  (forall k t x, nth_error (firstn nb ins) k = Some t -> nth_error xs k = Some x -> t <> TCG_CALL_DUMMY_ARG -> regs h2 x = rd m t) ->
  (forall x, regs h x = regs h2 x) -> same_stack nobody h1 h ->
  call_args h 0 (map (fun t => t =? TCG_CALL_DUMMY_ARG) ins) = map (rd m) ins.
Proof.
  intros xs Enb D Lz Hs Hr Er Es; apply call_args_map; auto; intros k t E N; cbn [Nat.add]; unfold call_arg; fold xs.
  assert (Lk : (k < length ins)%nat) by (apply nth_error_Some; congruence); destruct (Nat.ltb_spec k (length xs)) as [Hk|Hk].
  - rewrite Er; apply (Hr k t); auto; [|now apply nth_error_nth'].
    rewrite nth_error_firstn; assert (Hb : (k <? nb)%nat = true) by (apply Nat.ltb_lt; lia); now rewrite Hb.
  - assert (E' : nth_error (skipn nb ins) (k - length xs) = Some t).
    { rewrite nth_error_skipn, <- E; f_equal; lia. }
    rewrite <- (Hs _ _ E' N); unfold TCG_TARGET_CALL_STACK_OFFSET; apply (ss_args _ _ _ Es).
    assert (k - length xs < length (skipn nb ins))%nat by (apply nth_error_Some; congruence); lia.
Qed.

Lemma stack_fits n : (n <= 14)%nat ->
  (TCG_STATIC_CALL_ARGS_SIZE <? (Z.of_nat n * 4 + TCG_TARGET_STACK_ALIGN - 1) .& Z.lnot (TCG_TARGET_STACK_ALIGN - 1)) = false.
Proof. intros H; do 15 (destruct n as [|n]; [reflexivity|]); lia. Qed.

Section Call.
Variables (op : TCGOp) (life : Z) (st0 mid st1 : temp_states).
Hypothesis K : kept_op st0 mid st1 op life.
Hypothesis is_call : opc op = call.

Lemma call_inputs : Forall (call_input st0) (iargs op).
Proof.
  apply Forall_forall; intros t I; pose proof (proj1 (Forall_forall _ _) (wf_ins s op (ko_wf _ _ _ _ _ K)) t I) as [T|T]; [right|now left].
  split; auto; now apply (kept_input st0 mid st1 op life).
Qed.

Lemma call_counts : n_oargs op = callo op /\ n_iargs op = calli op /\ length (iargs op) = calli op /\ length (oargs op) = callo op /\
  (callo op <= 2 /\ calli op <= 14)%nat.
Proof.
  pose proof (ko_wf _ _ _ _ _ K) as Wo; pose proof (length_ins s few_temps globals_first op Wo); pose proof (length_outs s few_temps globals_first op Wo); destruct (lw_small _ _ Wo).
  unfold n_oargs, n_iargs in *; rewrite is_call in *; splits; auto; lia.
Qed.

Let fl := arg op (callo op + calli op + 1).
Hypothesis states : call_states fl mid.

(** The assertions before the call. *)
Lemma call_checks r : struct r -> fits mid r ->
  (if truthy (fl .& TCG_CALL_NO_READ_GLOBALS) then ret tt
   else if truthy (fl .& TCG_CALL_NO_WRITE_GLOBALS) then sync_globals s else save_globals s) r = Some (r, [], tt).
Proof.
  intros S Fi; unfold call_states in states; destruct (truthy _); [reflexivity|]; destruct (truthy _).
  - now apply (sync_globals_ok mid).
  - apply (save_globals_ok mid); auto; intros t G; now apply states.
Qed.

Let pads := map (fun t => t =? TCG_CALL_DUMMY_ARG) (iargs op).

(** The instruction [Icall], with the code before and after it. *)
Lemma icall_chunk r r4 r5 c c5 m h w :
  struct r4 -> fits mid r4 -> (forall x, test_reg tcg_target_call_clobber_regs x = true -> reg_to_temp r4 x = None) ->
  forallb is_move c = true -> forallb is_move c5 = true ->
  (holds nobody st0 r m h -> holds nobody mid r4 m (moves c h) /\ call_args (moves c h) 0 pads = map (rd m) (iargs op)) ->
  (forall m h vs, wf_store s m -> holds nobody mid r4 m h -> length vs = length (oargs op) -> Forall (inU 32) vs ->
     (forall k x v, nth_error tcg_target_call_oarg_regs k = Some x -> nth_error vs k = Some v -> regs h x = v) ->
     holds nobody (settled_outs mid st1 (oargs op)) r5 (wrs m (oargs op) vs) (moves c5 h)) ->
  fits (settled_outs mid st1 (oargs op)) r5 ->
  wf_store s m -> holds nobody st0 r m h -> chunk trash st1 op (c ++ Icall (cargs op) pads :: c5) r5 m h w.
Proof.
  intros S4 F4 Cl Mv Mv5 H4 H5 F5 Wm Ho; destruct (H4 Ho) as [Ho4 Ha]; clear H4; pose proof (ko_wf _ _ _ _ _ K) as Wo.
  destruct (call_counts) as (_ & _ & Li & Lo & _ & _); destruct (call_flags_arg s few_temps globals_first op Wo is_call) as (f & rest & Ec).
  assert (Run : forall jumps prog code, host_run jumps prog ((c ++ Icall (cargs op) pads :: c5) ++ code) h w =
            host_run jumps prog (Icall (cargs op) pads :: c5 ++ code) (moves c h) w).
  { intros jumps prog code; rewrite <- app_assoc; now apply host_run_moves. }
  pose proof (helper_ok mid r4 m (moves c h) w f fl rest (map (rd m) (iargs op)) S4 F4 Wm states Cl Ho4) as Hh; fold fl in Ec; rewrite <- Ec in Hh.
  unfold chunk, eval_op; rewrite is_call; cbn [is_pure]; unfold eval_call.
  destruct (helper _ _ (firstn _ m) w) as [[[o g] w']|] eqn:E.
  - destruct Hh as (g' & Eh & Wm' & Hg).
    assert (Lv : length (map (wrap 32) o) = length (oargs op)).
    { rewrite length_map, Lo; eapply (lw_call _ _ Wo is_call); [|exact E]; now rewrite length_map. }
    eexists; split; [intros jumps prog code; rewrite Run, host_run_cons; cbn [TcgHostCode.host_step]; rewrite Ha, Eh; now apply host_run_moves|].
    apply (holds_relaxes nobody _ _ _ _ _ (ko_rest _ _ _ _ _ K) F5), H5; auto.
    + intros t T P; apply (holds1_regs _ r4 (clobber trash w' (set_globals s context (moves c h) g'))); auto.
      * intros F; apply regs_set_rs_ne; intros I; destruct (cx_fixed _ _ _ Cx t T F) as [X _], (ok_oarg _ I); congruence.
      * intros F V; apply regs_set_rs_ne; intros I; destruct (sr_reg r4 S4 t T F V) as (X & _), (ok_oarg _ I) as [_ Y]; apply Cl in Y; congruence.
      * unfold home_word; now rewrite hmem_set_rs.
    + apply Forall_map, Forall_forall; intros; apply wrap_range; lia.
    + intros k x v E1 E2; apply (regs_set_rs_nth _ _ _ k); auto; apply ok_oargs.
  - destruct Hh as [Eh Sh]; eexists; split; [|exact Sh]; intros jumps prog code; rewrite Run, host_run_cons; cbn [TcgHostCode.host_step].
    now rewrite Ha, Eh.
Qed.

Lemma alloc_call_ok r : struct r -> fits st0 r -> wp (tcg_reg_alloc_call s cfg op life) r (fun r' c _ => emitted trash st0 st1 op r c r').
Proof.
  intros S Fi; pose proof (ko_wf _ _ _ _ _ K) as Wo; destruct call_counts as (Eo & _ & Li & Lo & Bo & Bi); pose proof call_inputs as Ci.
  unfold tcg_reg_alloc_call; set (nb := Nat.min _ _); fold fl pads; rewrite stack_fits by lia.
  assert (Ls : (length (skipn nb (iargs op)) <= 14)%nat) by (rewrite length_skipn; lia).
  rewrite <- (firstn_skipn nb (iargs op)) in Ci; apply Forall_app in Ci as [Ci1 Ci2]; destruct ok_iargs as [Nx _], ok_oargs as [No Lo'].
  eapply wp_seq; [apply (stack_args_ok st0 (skipn nb (iargs op)) TCG_TARGET_CALL_STACK_OFFSET r); auto|].
  { unfold TCG_TARGET_CALL_STACK_OFFSET, TCG_STATIC_CALL_ARGS_SIZE; lia. }
  intros r1 c1 [] (Mv1 & S1 & F1 & H1); eapply wp_seq; [apply (reg_args_ok st0 _ tcg_target_call_iarg_regs (reserved_regs cfg) r1); auto|].
  { intros x; auto. } { intros x I; now apply ok_iarg. }
  intros r2 c2 al (St2 & H2); after_steps St2 S2 F2; eapply wp_seq.
  { apply (free_dead_ok life mid nobody (iargs op) (Z.of_nat (callo op)) st0 r2); auto; [exact (wf_ins s op Wo)|rewrite <- Eo; apply (ko_ins _ _ _ _ _ K)|].
    apply (kept_alive st0 mid st1 op life K). }
  intros r3 c3 [] (-> & St3 & _); after_steps St3 S3 F3; eapply wp_seq; [now apply (free_clobbered_ok mid r3 al)|].
  intros r4 c4 [] (St4 & _ & Cl); after_steps St4 S4 F4; wp_step; exists r4, [], tt; split; [now apply call_checks|]; wp_step; wp_step.
  eapply wp_mono; [apply (call_oargs_ok st1 life al (oargs op) tcg_target_call_oarg_regs 0 mid r4); auto|].
  { exact (lw_nodup _ _ Wo). } { exact (ko_free _ _ _ _ _ K). } { exact (ko_dead _ _ _ _ _ K). } { lia. }
  { intros x I; destruct (ok_oarg x I) as [A B]; splits; auto; now apply bit_nonneg in B. } { exact (ko_outs _ _ _ _ _ K). }
  intros r5 c5 [] (Mv5 & S5 & F5 & H5); cbn [app].
  replace (c1 ++ c2 ++ c4 ++ Icall (cargs op) pads :: c5) with ((c1 ++ c2 ++ c4) ++ Icall (cargs op) pads :: c5) by (now rewrite <- !app_assoc).
  assert (Mv : forallb is_move (c1 ++ c2 ++ c4) = true).
  { rewrite !forallb_app, Mv1, (sp_moves _ _ _ _ _ _ _ St2); apply St4. }
  constructor; auto.
  - now apply (fits_relaxes _ _ _ S5 (ko_rest _ _ _ _ _ K)).
  - rewrite forallb_app, (plain_moves _ Mv); cbn; now apply plain_moves.
  - intros m h w Wm Ho; apply (icall_chunk r r4 r5); auto; clear Ho; intros Ho; rewrite !moves_app; destruct (H1 m h Ho) as (A1 & B1 & _).
    split; [apply (sp_holds _ _ _ _ _ _ _ St4), (sp_holds _ _ _ _ _ _ _ St3 m (moves c2 (moves c1 h))), (sp_holds _ _ _ _ _ _ _ St2); exact A1|].
    apply (args_passed _ (moves c1 h) (moves c2 (moves c1 h)) m (iargs op) nb); auto.
    + now rewrite Li.
    + apply (rd_dummy s few_temps globals_first); apply Wm.
    + unfold TCG_STATIC_CALL_ARGS_SIZE; lia.
    + intros k t x E1 E2 N; apply (H2 m (moves c1 h) A1 k t x); auto.
    + intros x; now apply (sp_regs _ _ _ _ _ _ _ St4).
    + eapply same_stack_trans; [apply (sp_stack _ _ _ _ _ _ _ St2)|apply (sp_stack _ _ _ _ _ _ _ St4)].
Qed.

End Call.

End Calls.
