(* ===== verification/TcgGenCode.v ===== *)
(** * The code of a block (tcg/tcg.c)

    [tcg_gen_code] after [liveness_pass_1]: the states of the analysis and the
    records of the allocator go through the block together, and the code of
    the block behaves like the block. *)

From Stdlib Require Import ZArith Lia List Bool.
From S2P Require Import Prelude Bitops TcgIr TcgOpt TcgCopies TcgOptProof TcgLife TcgLifeProof TcgRegAlloc TcgHostCode TcgRegProof TcgRegMoves TcgRegEffects TcgRegOps TcgRegCode TcgRegCalls.
Import ListNotations.
Local Open Scope Z_scope.
Local Open Scope c_scope.
Local Open Scope ra_scope.

(** What the front end and the optimizer keep to: fixed registers are not
    written, the operation is one of the target's, and nothing is moved to
    itself. *)
Record alloc_wf (s : TCGContext) (context : Z -> TCGTemp) (op : TCGOp) : Prop := {
  aw_outs : forall t, In t (oargs op) -> is_fixed s context t = false;
  aw_present : OPF_NOT_PRESENT (opc op) = false \/ In (opc op) [discard; set_label; call; mov_i32; movi_i32; insn_start];
  aw_mov : opc op = mov_i32 -> arg op 0 <> arg op 1
}.

Section Block.
Context {setup : AllocSetup}.
Context {W : Type} {host : TcgHost W (nb_globals s)} {flags : HelperFlags W (nb_globals s) host}.
Variable trash : W -> Z -> Z.
Abbreviation host_run := (TcgHostCode.host_run s context trash).
Abbreviation same_results := (TcgHostCode.same_results s context).

(** ** What the analysis passes on *)

Lemma outs_nonfixed op : live_wf s op -> alloc_wf s context op -> Forall nonfixed (oargs op).
Proof. intros Wo Aw; apply Forall_forall; intros t I; split; [exact (proj1 (Forall_forall _ _) (lw_outs _ _ Wo) t I)|now apply (aw_outs _ _ _ Aw)]. Qed.

(** A middle that leaves the outputs dead and asks for enough. *)
Definition good_middle (st1 : temp_states) (op : TCGOp) (middle : temp_states -> temp_states) : Prop :=
  (forall st, states_ok s st -> states_ok s (middle st)) /\
  (forall std t, dead (std t) = true -> dead (middle std t) = true) /\
  (forall std t, in_temps t -> std t = st1 t ->
     dead (st1 t) = dead (middle std t) /\ (mem (st1 t) = true -> mem (middle std t) = true) \/
     is_global s t = true /\ dead (middle std t) = true /\ mem (middle std t) = true).

Lemma keep_op_allocates st1 middle op : live_wf s op -> alloc_wf s context op -> states_ok s st1 -> good_middle st1 op middle ->
  exists std l, let mid := middle std in
    keep_op st1 middle op = (live_args (iargs op) mid, Some l) /\ the_op l = op /\
    (forall t, std t = if existsb (Z.eqb t) (oargs op) then TS_DEAD else st1 t) /\
    kept_op (live_args (iargs op) mid) mid st1 op (life l).
Proof.
  intros Wo Aw S (M1 & M2 & M3); destruct (keep_op_kept s few_temps globals_first st1 middle op Wo S M1) as (std & l & E & Kp & Ed).
  exists std, l; cbv zeta in *; splits; auto; [apply Kp|].
  constructor; [exact Wo|now apply outs_nonfixed| |reflexivity|exact (kp_outs _ _ _ _ _ Kp)|exact (kp_ins _ _ _ _ _ Kp)| |].
  - intros t; apply (kp_states _ _ _ _ _ Kp).
  - intros t I; apply M2; rewrite Ed, (proj2 (in_existsb t _) I); reflexivity.
  - intros t T; unfold settled_outs; destruct (existsb _ _) eqn:X; [now left|].
    destruct (M3 std t T) as [Y|Y]; [now rewrite Ed, X|left; exact Y|right; right; exact Y].
Qed.

Lemma sync_state x : dead (x .| TS_MEM) = dead x /\ mem (x .| TS_MEM) = true.
Proof.
  unfold dead, mem; change TS_DEAD with (2 ^ 0); change TS_MEM with (2 ^ 1); rewrite !truthy_land_pow2, !Z.lor_spec by lia.
  split; [apply orb_false_r|apply orb_true_r].
Qed.

Lemma sync_all_state st t : let st' := sync_all st (nb_globals s) in
  dead (st' t) = dead (st t) /\ (mem (st t) = true -> mem (st' t) = true) /\ (is_global s t = true -> mem (st' t) = true).
Proof.
  cbv zeta; unfold sync_all; change (t <? Z.of_nat (nb_globals s)) with (is_global s t); destruct (sync_state (st t)).
  destruct (is_global s t); splits; auto; discriminate.
Qed.

Lemma good_same st1 op : good_middle st1 op (fun st => st).
Proof. unfold good_middle; splits; auto; intros std t T ->; left; auto. Qed.

Lemma good_sync st1 op : good_middle st1 op (fun st => sync_all st (nb_globals s)).
Proof.
  unfold good_middle; splits; [apply sync_all_ok| |]; intros std t.
  - intros D; now rewrite (proj1 (sync_all_state std t)).
  - intros T E; left; rewrite <- E; destruct (sync_all_state std t) as (A & B & _); auto.
Qed.

Lemma good_fill st1 op : good_middle st1 op (fun st => fill st (nb_globals s) (TS_DEAD .| TS_MEM)).
Proof.
  unfold good_middle; splits; [apply fill_ok| |]; intros std t; unfold fill; change (t <? Z.of_nat (nb_globals s)) with (is_global s t).
  - intros D; destruct (is_global s t); auto.
  - intros T E; destruct (is_global s t) eqn:G; [right; auto|left; rewrite E; auto].
Qed.

Lemma good_bb_end st1 op : (forall t, in_temps t -> has_home s t = false -> st1 t = TS_DEAD) -> good_middle st1 op (fun _ => tcg_la_bb_end s).
Proof.
  intros B; unfold good_middle; splits; [intros; apply bb_end_ok| |]; intros std t.
  - intros _; rewrite bb_end_state; now destruct (has_home s t).
  - intros T _; rewrite bb_end_state; destruct (has_home s t) eqn:H; [right; rewrite not_home in H by assumption; auto|].
    left; now rewrite B.
Qed.

(** An operation that stays, but for calls. *)
Lemma normal_kept st1 o op st0 r : live_wf s op -> alloc_wf s context op -> states_ok s st1 -> block_local s st1 o ->
  do_not_remove s st1 o op = (st0, r) ->
  exists l mid, r = Some l /\ the_op l = op /\ kept_op st0 mid st1 op (life l) /\
    (BB_END (tcg_op_defs o) = true -> mid = tcg_la_bb_end s) /\
    (BB_END (tcg_op_defs o) = true \/ OPF_SIDE_EFFECTS o = true -> forall t, is_global s t = true -> mem (mid t) = true) /\
    (BB_END (tcg_op_defs o) = false -> OPF_SIDE_EFFECTS o = false ->
     forall t, mid t = if existsb (Z.eqb t) (oargs op) then TS_DEAD else st1 t).
Proof.
  intros Wo Aw S B; unfold do_not_remove; destruct (BB_END (tcg_op_defs o)) eqn:Eb.
  - destruct (keep_op_allocates st1 _ op Wo Aw S (good_bb_end st1 op (B Eb))) as (std & l & E & El & _ & Ko); cbv zeta in *.
    rewrite E; intros [= <- <-]; exists l, (tcg_la_bb_end s); splits; auto; [intros _; apply bb_end_mem|discriminate].
  - destruct (OPF_SIDE_EFFECTS o).
    + destruct (keep_op_allocates st1 _ op Wo Aw S (good_sync st1 op)) as (std & l & E & El & Sd & Ko); cbv zeta in *.
      rewrite E; intros [= <- <-]; exists l, (sync_all std (nb_globals s)); splits; auto; try discriminate.
      intros _ t; now apply sync_all_state.
    + destruct (keep_op_allocates st1 _ op Wo Aw S (good_same st1 op)) as (std & l & E & El & Sd & Ko); cbv zeta in *.
      rewrite E; intros [= <- <-]; exists l, std; splits; auto; try discriminate; intros [|]; discriminate.
Qed.

Lemma call_kept st1 op st0 l : live_wf s op -> alloc_wf s context op -> states_ok s st1 -> live_call s st1 op = (st0, Some l) ->
  exists mid, the_op l = op /\ kept_op st0 mid st1 op (life l) /\ call_states (arg op (callo op + calli op + 1)) mid.
Proof.
  intros Wo Aw S; unfold live_call, call_states; set (fl := arg op _); destruct (_ && _); [discriminate|].
  rewrite truthy_flags; destruct (truthy (fl .& TCG_CALL_NO_WRITE_GLOBALS)), (truthy (fl .& TCG_CALL_NO_READ_GLOBALS)); cbn [orb negb].
  - destruct (keep_op_allocates st1 _ op Wo Aw S (good_same st1 op)) as (std & l' & E & El & Sd & Ko); cbv zeta in *.
    rewrite E; intros [= <- <-]; eauto.
  - destruct (keep_op_allocates st1 _ op Wo Aw S (good_sync st1 op)) as (std & l' & E & El & Sd & Ko); cbv zeta in *.
    rewrite E; intros [= <- <-]; eexists; splits; eauto; intros t; now apply sync_all_state.
  - destruct (keep_op_allocates st1 _ op Wo Aw S (good_same st1 op)) as (std & l' & E & El & Sd & Ko); cbv zeta in *.
    rewrite E; intros [= <- <-]; eauto.
  - destruct (keep_op_allocates st1 _ op Wo Aw S (good_fill st1 op)) as (std & l' & E & El & Sd & Ko); cbv zeta in *.
    rewrite E; intros [= <- <-]; eexists; splits; eauto; intros t G; now rewrite fill_state.
Qed.

(** ** One operation *)

Record op_step (st0 st1 : temp_states) (op : TCGOp) (r : ra_state) (c : list hinsn) (r' : ra_state) : Prop := {
  os_struct : struct r';
  os_fits : fits st1 r';
  os_label : forall label code, code_after label (c ++ code) = if is_label label op then Some code else code_after label code;
  os_entry : opc op = set_label -> fits (tcg_la_bb_end s) r';
  os_chunk : forall m h w, wf_store s m -> holds nobody st0 r m h -> chunk trash st1 op c r' m h w
}.

Lemma code_after_plain label c code : forallb plain c = true -> code_after label (c ++ code) = code_after label code.
Proof.
  induction c as [|i c IH]; intros F; [reflexivity|]; cbn [app code_after forallb] in *; apply andb_true_iff in F as [Fi F].
  destruct i; try discriminate; auto.
Qed.

Lemma not_label label op : opc op <> set_label -> is_label label op = false.
Proof. unfold is_label; destruct (opc op); congruence. Qed.

Lemma emitted_step st0 st1 op r c r' : opc op <> set_label -> emitted trash st0 st1 op r c r' -> op_step st0 st1 op r c r'.
Proof.
  intros N [A B C D]; constructor; auto; [|contradiction]; intros label code; now rewrite not_label, code_after_plain.
Qed.

Lemma computes_step st0 st1 op r c r' f : opc op <> set_label -> computes st0 st1 r c r' f ->
  (forall m w, wf_store s m -> eval_op op m w = Next (f m) w) -> op_step st0 st1 op r c r'.
Proof.
  intros N [A B C D] E; apply emitted_step; auto; constructor; auto; [now apply plain_moves|]; intros m h w Wm Ho.
  unfold chunk; rewrite E by assumption; exists (moves c h); split; [|auto]; intros jumps prog code; now apply host_run_moves.
Qed.

(** The value of a temporary that nobody needs does not matter. *)
Definition needed (x : Z) : Prop := dead x = false \/ mem x = true.

Lemma holds1_needed x r h t v v' : (needed x -> v' = v) -> holds1 x r h t v -> holds1 x r h t v'.
Proof.
  intros E; unfold holds1, needed in *; destruct (fixed t); [intros H X; rewrite E; auto|]; intros (A & B & C); splits; auto; intros X; rewrite E; auto.
Qed.

Lemma holds_needed st r m m' h : (forall t, in_temps t -> needed (st t) -> rd m' t = rd m t) ->
  holds nobody st r m h -> holds nobody st r m' h.
Proof. intros E Ho t T P; apply (holds1_needed _ _ _ _ (rd m t)); auto. Qed.

Lemma discard_step st1 op r : live_wf s op -> opc op = discard -> st1 (arg op 0) = TS_DEAD -> struct r -> fits (put st1 (arg op 0) TS_DEAD) r ->
  wp (temp_dead s (arg op 0)) r (fun r' c _ => op_step (put st1 (arg op 0) TS_DEAD) st1 op r c r').
Proof.
  intros Wo O D S Fi; assert (T := discard_temp s few_temps globals_first op Wo O); set (t := arg op 0) in *.
  eapply wp_mono; [apply (dead_steps nobody (put st1 t TS_DEAD) r t TS_DEAD); auto; rewrite put_eq; discriminate|].
  intros r' c [] (-> & St & _); assert (Wk : weaker (put (put st1 t TS_DEAD) t TS_DEAD) st1).
  { intros u _; unfold put; destruct (Z.eqb_spec u t) as [->|]; rewrite ?D; auto. }
  apply (steps_weaker _ _ _ _ _ _ _ _ St) in Wk as St'; after_steps St' S' F'.
  apply emitted_step; [congruence|]; constructor; auto; intros m h w Wm Ho; unfold chunk, eval_op; rewrite O; cbn [is_pure]; fold t.
  exists h; split; [reflexivity|]; apply (holds_needed _ _ m); [|exact (sp_holds _ _ _ _ _ _ _ St' m h Ho)].
  intros u U Nd; apply (rd_wr_ne s few_temps); auto; intros <-; rewrite D in Nd; destruct Nd; discriminate.
Qed.

Lemma insn_start_step st r op : opc op = insn_start -> struct r -> fits st r -> op_step st st op r [] r.
Proof.
  intros O S Fi; apply (computes_step _ _ _ _ _ _ (fun m => m)); [congruence|now constructor|].
  intros m w _; unfold eval_op; rewrite O; reflexivity.
Qed.

Lemma label_step st1 op life st0 r : opc op = set_label -> kept_op st0 (tcg_la_bb_end s) st1 op life -> struct r -> fits st0 r ->
  wp (tcg_reg_alloc_bb_end s ;;; emit (Ilabel (arg op 0))) r (fun r' c _ => op_step st0 st1 op r c r').
Proof.
  intros O K S Fi; assert (E : st0 = tcg_la_bb_end s) by (rewrite (ko_start _ _ _ _ _ K); unfold iargs, n_iargs; rewrite O; reflexivity).
  rewrite E in *; wp_step; exists r, [], tt; split; [now apply alloc_bb_end_ok|]; wp_step; cbn [app].
  assert (Rx : relaxes (tcg_la_bb_end s) st1).
  { intros t T; pose proof (ko_rest _ _ _ _ _ K t T) as X; unfold settled_outs, oargs, n_oargs in X; rewrite O in X; exact X. }
  constructor; auto; [now apply (fits_relaxes _ _ _ S Rx)| |].
  - intros label code; cbn [app code_after]; unfold is_label; now rewrite O.
  - intros m h w Wm Ho; unfold chunk, eval_op; rewrite O; cbn [is_pure]; exists h; split; [|now apply (holds_relaxes nobody _ _ _ _ _ Rx)].
    intros jumps prog code; cbn [app]; now rewrite host_run_cons.
Qed.

Lemma arg_list op n : (n <= length (args op))%nat -> firstn n (args op) = map (arg op) (seq 0 n).
Proof. intros L; exact (slice_nth (args op) 0 n 0 L). Qed.

Lemma movi_step st0 mid st1 op life r : opc op = movi_i32 -> kept_op st0 mid st1 op life ->
  (forall t, mid t = if existsb (Z.eqb t) (oargs op) then TS_DEAD else st1 t) -> struct r -> fits st0 r ->
  wp (tcg_reg_alloc_movi s cfg (args op) life) r (fun r' c _ => op_step st0 st1 op r c r').
Proof.
  intros O K Em S Fi; pose proof (ko_wf _ _ _ _ _ K) as Wo; pose proof (lw_length _ _ Wo) as L.
  unfold n_oargs, n_iargs, n_cargs in L; rewrite O in L; cbn in L.
  assert (Eo : oargs op = [arg op 0]) by (unfold oargs, n_oargs; rewrite O; apply (arg_list op 1); lia).
  assert (Ei : iargs op = []) by (unfold iargs, n_iargs; rewrite O; reflexivity).
  assert (Es : st0 = mid) by (rewrite (ko_start _ _ _ _ _ K), Ei; reflexivity).
  pose proof (ko_free _ _ _ _ _ K) as Fr; rewrite Eo in Fr; inversion_clear Fr as [|? ? N _].
  destruct (ko_outs _ _ _ _ _ K 0%nat (arg op 0)) as [HD HM]; [now rewrite Eo|]; cbn [Z.of_nat Z.add] in HD, HM.
  assert (Dm : dead (st0 (arg op 0)) = true) by (rewrite Es; apply (ko_dead _ _ _ _ _ K); rewrite Eo; now left).
  change (tcg_reg_alloc_movi s cfg (args op) life) with (tcg_reg_alloc_movi s cfg [arg op 0; arg op 1] life).
  eapply wp_mono; [apply (movi_ok st0 st1 r (arg op 0) (arg op 1) life); auto|].
  - intros u _; rewrite Es; unfold put; rewrite Em, Eo; cbn [existsb]; rewrite orb_false_r; destruct (Z.eqb_spec u (arg op 0)) as [->|]; auto.
  - intros r' c [] Cp; eapply computes_step; [congruence|exact Cp|]; intros m w Wm; unfold eval_op, oargs, iargs, cargs, n_oargs, n_iargs, n_cargs.
    rewrite O; cbn; unfold arg; destruct (args op) as [|a [|b l]]; cbn in *; try lia; reflexivity.
Qed.

Lemma mov_step st0 mid st1 op life r : opc op = mov_i32 -> kept_op st0 mid st1 op life -> states_ok s st1 ->
  all_dead st1 (oargs op) = false -> arg op 0 <> arg op 1 ->
  (forall t, mid t = if existsb (Z.eqb t) (oargs op) then TS_DEAD else st1 t) -> struct r -> fits st0 r ->
  wp (tcg_reg_alloc_mov s cfg (args op) life) r (fun r' c _ => op_step st0 st1 op r c r').
Proof.
  intros O K S1 Nd Ne Em S Fi; pose proof (ko_wf _ _ _ _ _ K) as Wo; pose proof (lw_length _ _ Wo) as L.
  unfold n_oargs, n_iargs, n_cargs in L; rewrite O in L; cbn in L.
  assert (Eo : oargs op = [arg op 0]) by (unfold oargs, n_oargs; rewrite O; apply (arg_list op 1); lia).
  assert (Ei : iargs op = [arg op 1]) by (unfold iargs, n_iargs, n_oargs; rewrite O; exact (slice_nth (args op) 0 1 1 L)).
  set (o := arg op 0) in *; set (i := arg op 1) in *.
  destruct (args_in_temps s op Wo ltac:(congruence)) as [_ Fi']; rewrite Ei in Fi'; inversion_clear Fi' as [|? ? I _].
  pose proof (ko_free _ _ _ _ _ K) as Fr; rewrite Eo in Fr; inversion_clear Fr as [|? ? N _].
  destruct (ko_outs _ _ _ _ _ K 0%nat o) as [HD HM]; [now rewrite Eo|]; cbn [Z.of_nat Z.add] in HD, HM.
  pose proof (ko_ins _ _ _ _ _ K 0%nat i ltac:(now rewrite Ei)) as HI; rewrite (temp_not_dummy s few_temps globals_first) in HI by assumption.
  unfold n_oargs in HI; rewrite O in HI; cbn in HI.
  assert (Em' : forall t, t <> o -> mid t = st1 t) by (intros t Nt; rewrite Em, Eo; cbn; now rewrite (proj2 (Z.eqb_neq t o))).
  assert (E0 : forall t, t <> i -> st0 t = mid t) by (intros t Nt; rewrite (ko_start _ _ _ _ _ K), Ei; apply live_args_other; intros [X|[]]; congruence).
  assert (Ml : mov_life st0 st1 o i life).
  { constructor; auto.
    - rewrite E0 by congruence; apply (ko_dead _ _ _ _ _ K); rewrite Eo; now left.
    - apply (kept_input st0 mid st1 op life); auto; rewrite Ei; now left.
    - intros D; rewrite Eo in Nd; cbn in Nd; rewrite andb_true_r, only_dead, D in Nd by apply S1; now destruct (mem (st1 o)).
    - rewrite HI, Em' by congruence; reflexivity.
    - intros M; destruct (kept_alive _ _ _ _ _ K i I) as [-> _]; now rewrite Em' by congruence.
    - intros u _; unfold put; destruct (Z.eqb_spec u o) as [->|]; auto; destruct (Z.eqb_spec u i) as [->|]; auto; now rewrite E0, Em'. }
  change (tcg_reg_alloc_mov s cfg (args op) life) with (tcg_reg_alloc_mov s cfg [o; i] life).
  eapply wp_mono; [now apply (mov_ok st0 st1)|]; intros r' c [] Cp; eapply computes_step; [congruence|exact Cp|].
  intros m w Wm; unfold eval_op; rewrite O; cbn [is_pure eval_pure]; rewrite Eo, Ei; cbn; now rewrite (wrap_id 32 (rd m i)) by exact (rd_range s few_temps m i Wm I).
Qed.

(** The state before the operation depends on the state after it. *)
Lemma gen_op_step st1 op st0 l r : live_wf s op -> alloc_wf s context op -> states_ok s st1 -> block_local s st1 (opc op) ->
  (opc op = discard -> st1 (arg op 0) = TS_DEAD) -> the_op l = op ->
  (match opc op with
   | discard => st0 = put st1 (arg op 0) TS_DEAD
   | insn_start => st0 = st1
   | call => live_call s st1 op = (st0, Some l)
   | mov_i32 => all_dead st1 (oargs op) = false /\ do_not_remove s st1 (opc op) op = (st0, Some l)
   | _ => exists o, BB_END (tcg_op_defs o) = BB_END (tcg_op_defs (opc op)) /\ OPF_SIDE_EFFECTS o = OPF_SIDE_EFFECTS (opc op) /\
            do_not_remove s st1 o op = (st0, Some l)
   end) ->
  struct r -> fits st0 r -> wp (gen_op s cfg l) r (fun r' c _ => op_step st0 st1 op r c r').
Proof.
  intros Wo Aw S1 Bl Dd El H S Fi; unfold gen_op; rewrite El.
  assert (Hp : OPF_NOT_PRESENT (opc op) = false -> (exists o, BB_END (tcg_op_defs o) = BB_END (tcg_op_defs (opc op)) /\
                 OPF_SIDE_EFFECTS o = OPF_SIDE_EFFECTS (opc op) /\ do_not_remove s st1 o op = (st0, Some l)) ->
               wp (tcg_reg_alloc_op s cfg op (life l)) r (fun r' c _ => op_step st0 st1 op r c r')).
  { intros P (o & Eb & Es & E); assert (Bl' : block_local s st1 o) by (unfold block_local in *; now rewrite Eb).
    destruct (normal_kept st1 o op st0 (Some l) Wo Aw S1 Bl' E) as (l' & mid & [= <-] & _ & K & Hb & Hs & _); rewrite Eb, Es in *.
    eapply wp_mono; [apply (op_ok trash op (life l) st0 mid st1 K P); auto|]; intros r' c [] Em; apply emitted_step; auto.
    intros X; rewrite X in P; discriminate. }
  destruct (opc op) eqn:O; cbn [OPF_NOT_PRESENT];
    try (apply Hp; [reflexivity|exact H]);
    try (exfalso; destruct (aw_present _ _ _ Aw) as [X|X]; rewrite O in X; [discriminate X|]; cbn in X; intuition discriminate).
  - rewrite H; rewrite H in Fi; apply discard_step; auto.
  - destruct H as (o & Eb & Es & E).
    destruct (normal_kept st1 o op st0 (Some l) Wo Aw S1 ltac:(unfold block_local in *; rewrite Eb; exact Bl) E) as (l' & mid & [= <-] & _ & K & Hb & _).
    rewrite (Hb Eb) in K; now apply (label_step st1 op (life l)).
  - destruct (call_kept st1 op st0 l Wo Aw S1 H) as (mid & _ & K & Cs).
    eapply wp_mono; [apply (alloc_call_ok trash op (life l) st0 mid st1 K O Cs); auto|]; intros r' c [] Em; apply emitted_step; auto; congruence.
  - destruct H as [Nd E]; destruct (normal_kept st1 mov_i32 op st0 (Some l) Wo Aw S1 Bl E) as (l' & mid & [= <-] & _ & K & _ & _ & Em).
    apply (mov_step st0 mid st1 op (life l)); auto; now apply (aw_mov _ _ _ Aw).
  - destruct H as (o & Eb & Es & E).
    destruct (normal_kept st1 o op st0 (Some l) Wo Aw S1 ltac:(unfold block_local in *; rewrite Eb; exact Bl) E) as (l' & mid & [= <-] & _ & K & _ & _ & Em).
    apply (movi_step st0 mid st1 op (life l)); auto.
  - subst st0; apply wp_ret; now apply insn_start_step.
Qed.

(** ** Narrowed operations *)

Definition double (o : TCGOpcode) : Prop := o = add2_i32 \/ o = sub2_i32 \/ o = mulu2_i32 \/ o = muls2_i32.

(** The half that is left of a double operation. *)
Definition narrow (op : TCGOp) (new : TCGOpcode) (k : nat) : TCGOp :=
  let l := upd (args op) 1 (nth 2 (args op) 0) in with_args op new (upd l 2 (nth k l 0)).

Lemma narrow_ok op new k : double (opc op) -> (new = add_i32 \/ new = sub_i32 \/ new = mul_i32) ->
  k = match opc op with add2_i32 | sub2_i32 => 4%nat | _ => 3%nat end -> live_wf s op -> alloc_wf s context op ->
  live_wf s (narrow op new k) /\ alloc_wf s context (narrow op new k) /\ forall m w, exists m', eval_op (narrow op new k) m w = Next m' w.
Proof.
  intros Db Nw -> Wo Aw; assert (N1 : opc op <> call) by (destruct Db as [->|[->|[->| ->]]]; discriminate).
  destruct (args_in_temps s op Wo N1) as [Fo Fi]; pose proof (lw_length _ _ Wo) as L; pose proof (aw_outs _ _ _ Aw) as Ao; clear Wo Aw.
  unfold narrow, with_args; destruct op as [o co ci a]; unfold oargs, iargs, n_oargs, n_iargs, n_cargs in *; cbn [opc args callo calli] in *.
  assert (E : exists a0 x y rest, upd (upd a 1 (nth 2 a 0)) 2 (nth (match o with add2_i32 | sub2_i32 => 4%nat | _ => 3%nat end) (upd a 1 (nth 2 a 0)) 0) =
            a0 :: x :: y :: rest /\ in_temps a0 /\ in_temps x /\ in_temps y /\ is_fixed s context a0 = false).
  { destruct Db as [->|[->|[->| ->]]]; cbn [tcg_op_defs nb_oargs nb_iargs nb_cargs Nat.add] in *;
      do 4 (destruct a as [|? a]; [cbn in L; lia|]); try (do 2 (destruct a as [|? a]; [cbn in L; lia|])); cbn in *;
      repeat match goal with H : Forall _ (_ :: _) |- _ => inversion_clear H end; do 4 eexists; splits; [reflexivity|auto ..]. }
  destruct E as (a0 & x & y & rest & -> & A & X & Y & Fx); splits.
  - apply (word_op_wf s few_temps globals_first); auto; destruct Nw as [->|[->| ->]]; reflexivity || discriminate.
  - constructor; unfold oargs, n_oargs; cbn [opc args callo].
    + destruct Nw as [->|[->| ->]]; cbn; intros t [<-|[]]; exact Fx.
    + destruct Nw as [->|[->| ->]]; now left.
    + destruct Nw as [->|[->| ->]]; discriminate.
  - intros m w; destruct Nw as [->|[->| ->]]; eexists; reflexivity.
Qed.

Abbreviation visited := (TcgLifeProof.visited s (fun _ => false)).

(** The code of what is left of an operation. *)
Definition visit_coded (st1 st0 : temp_states) (op : TCGOp) (l : live_op) : Prop :=
  (forall r, struct r -> fits st0 r -> wp (gen_op s cfg l) r (fun r' c _ => op_step st0 st1 (the_op l) r c r')) /\
  (the_op l = op \/ visited st1 st0 (the_op l) (Some l) /\ (forall m w, exists m', eval_op (the_op l) m w = Next m' w) /\
     opc op <> set_label /\ opc (the_op l) <> set_label).

Lemma kept_coded st1 op o st0 l : live_wf s op -> alloc_wf s context op -> states_ok s st1 -> block_local s st1 (opc op) ->
  opc op <> discard -> opc op <> call -> opc op <> insn_start ->
  BB_END (tcg_op_defs o) = BB_END (tcg_op_defs (opc op)) -> OPF_SIDE_EFFECTS o = OPF_SIDE_EFFECTS (opc op) ->
  (opc op = mov_i32 -> o = mov_i32 /\ all_dead st1 (oargs op) = false) ->
  do_not_remove s st1 o op = (st0, Some l) ->
  the_op l = op /\ forall r, struct r -> fits st0 r -> wp (gen_op s cfg l) r (fun r' c _ => op_step st0 st1 op r c r').
Proof.
  intros Wo Aw S1 Bl N1 N2 N3 Eb Es Hm E; assert (El : the_op l = op).
  { unfold do_not_remove in E; eapply (keep_the_op st1); rewrite E; reflexivity. }
  split; [exact El|]; intros r S Fi; apply (gen_op_step st1 op st0 l r); auto; [congruence|].
  destruct (opc op) eqn:O; try congruence; try (exists o; splits; auto; fail); destruct (Hm eq_refl) as [-> Nd]; auto.
Qed.

Lemma narrow_coded st1 op new k st0 l : live_wf s op -> alloc_wf s context op -> states_ok s st1 -> double (opc op) ->
  (new = add_i32 \/ new = sub_i32 \/ new = mul_i32) -> k = match opc op with add2_i32 | sub2_i32 => 4%nat | _ => 3%nat end ->
  do_not_remove s st1 (opc op) (narrow op new k) = (st0, Some l) -> visit_coded st1 st0 op l.
Proof.
  intros Wo Aw S1 Db Nw Ek E; destruct (narrow_ok op new k Db Nw Ek Wo Aw) as (Wo' & Aw' & Ev).
  assert (Op : opc (narrow op new k) = new) by reflexivity.
  assert (B : BB_END (tcg_op_defs (opc op)) = false /\ OPF_SIDE_EFFECTS (opc op) = false) by (destruct Db as [->|[->|[->| ->]]]; now split).
  assert (B' : BB_END (tcg_op_defs new) = false /\ OPF_SIDE_EFFECTS new = false) by (destruct Nw as [->|[->| ->]]; now split).
  assert (Nn : new <> discard /\ new <> call /\ new <> insn_start /\ new <> mov_i32 /\ new <> set_label) by (destruct Nw as [->|[->| ->]]; splits; discriminate).
  destruct Nn as (Nn1 & Nn2 & Nn3 & Nn4 & Nn5), B as [B1 B2], B' as [B1' B2'].
  destruct (kept_coded st1 (narrow op new k) (opc op) st0 l) as [El G]; rewrite ?Op; auto; try congruence.
  split; [now rewrite El|right]; rewrite El; splits; auto; [|destruct Db as [->|[->|[->| ->]]]; discriminate].
  apply (do_not_remove_ok s few_temps globals_first (fun _ => false) st1 (opc op)); rewrite ?Op; auto; try congruence; intros X; congruence.
Qed.

Lemma default_coded st1 op st0 l : live_wf s op -> alloc_wf s context op -> states_ok s st1 -> block_local s st1 (opc op) ->
  opc op <> discard -> opc op <> call -> opc op <> insn_start -> live_default s st1 op = (st0, Some l) -> visit_coded st1 st0 op l.
Proof.
  intros Wo Aw S1 Bl N1 N2 N3; unfold live_default; destruct (_ && all_dead _ _) eqn:A; [discriminate|]; intros E.
  destruct (kept_coded st1 op (opc op) st0 l) as [El G]; auto.
  - intros O; split; auto; unfold n_oargs in A; rewrite O in A; exact A.
  - split; [now rewrite El|now left].
Qed.

Lemma visit_is_coded st1 op st0 l : live_wf s op -> alloc_wf s context op -> states_ok s st1 -> block_local s st1 (opc op) ->
  (opc op = discard -> st1 (arg op 0) = TS_DEAD) -> visit_live s st1 op = (st0, Some l) -> visit_coded st1 st0 op l.
Proof.
  intros Wo Aw S1 Bl Dd; unfold visit_live.
  assert (Direct : the_op l = op -> (match opc op with discard => st0 = put st1 (arg op 0) TS_DEAD | insn_start => st0 = st1
            | call => live_call s st1 op = (st0, Some l) | _ => False end) -> visit_coded st1 st0 op l).
  { intros El H; split; [|now left]; rewrite El; intros r; apply (gen_op_step st1 op st0 l r); auto; destruct (opc op); auto; contradiction. }
  assert (Keep : opc op <> discard -> opc op <> call -> opc op <> insn_start -> opc op <> mov_i32 ->
            do_not_remove s st1 (opc op) op = (st0, Some l) -> visit_coded st1 st0 op l).
  { intros N1 N2 N3 N4 E; destruct (kept_coded st1 op (opc op) st0 l) as [El G]; auto; [congruence|]; split; [now rewrite El|now left]. }
  destruct (opc op) eqn:O; try (rewrite <- O in *; intros E; apply default_coded; congruence || assumption).
  - intros [= <- <-]; now apply Direct.
  - intros E; apply Direct; auto; now destruct (call_kept st1 op st0 l Wo Aw S1 E) as (_ & El & _).
  - unfold live_addsub2; rewrite O; destruct (_ =? _); [destruct (_ =? _); [discriminate|]|now apply Keep].
    intros E; apply (narrow_coded st1 op add_i32 4); auto; rewrite ?O; unfold double; auto.
  - unfold live_addsub2; rewrite O; destruct (_ =? _); [destruct (_ =? _); [discriminate|]|now apply Keep].
    intros E; apply (narrow_coded st1 op sub_i32 4); auto; rewrite ?O; unfold double; auto.
  - unfold live_mul2; rewrite O, andb_false_r; destruct (_ =? _); [destruct (_ =? _); [discriminate|]|now apply Keep].
    intros E; apply (narrow_coded st1 op mul_i32 3); auto; rewrite ?O; unfold double; auto.
  - unfold live_mul2; rewrite O, andb_false_r; destruct (_ =? _); [destruct (_ =? _); [discriminate|]|now apply Keep].
    intros E; apply (narrow_coded st1 op mul_i32 3); auto; rewrite ?O; unfold double; auto.
  - intros [= <- <-]; now apply Direct.
Qed.

Lemma visit_none st1 op st0 : visit_live s st1 op = (st0, None) -> st0 = st1.
Proof.
  assert (K : forall st middle op, snd (keep_op st middle op) <> None) by (intros; unfold keep_op; destruct (out_args _ _ _ _); discriminate).
  unfold visit_live, live_call, live_addsub2, live_mul2, live_default, do_not_remove.
  destruct (opc op); intros E;
    repeat match type of E with (if ?b then _ else _) = _ => destruct b end; try congruence; exfalso; eapply K; rewrite E; reflexivity.
Qed.

(** ** What is left of an operation does what the operation does *)

Abbreviation agree := (TcgLifeProof.agree s (fun _ => false)).

Definition at_home_places (m : store) : places := mkPlaces (fun t => Some (rd m t)) (fun _ => None).

Lemma agree_at_home st m : wf_store s m -> agree st m (at_home_places m).
Proof. intros Wm; split; auto; intros t T; now apply (placed_home s few_temps globals_first). Qed.

(** Two values for the same places. *)
Lemma agree_needed st m m' p : agree st m p -> agree st m' p -> forall t, in_temps t -> needed (st t) -> rd m' t = rd m t.
Proof.
  intros [_ A] [_ B] t T [N|N]; destruct (A t T) as (A1 & A2 & _), (B t T) as (B1 & B2 & _); [specialize (A1 N); specialize (B1 N)|specialize (A2 N); specialize (B2 N)]; congruence.
Qed.

Lemma visited_step st0 st1 op l r c r' : visited st1 st0 op (Some l) -> visited st1 st0 (the_op l) (Some l) ->
  (forall m w, exists m', eval_op (the_op l) m w = Next m' w) -> opc op <> set_label -> opc (the_op l) <> set_label ->
  op_step st0 st1 (the_op l) r c r' -> op_step st0 st1 op r c r'.
Proof.
  intros [_ V] [_ V'] Ev N N' [A B C _ D]; constructor; auto; [|contradiction|].
  - intros label code; rewrite C, !not_label; auto.
  - intros m h w Wm Ho; specialize (V m _ w (agree_at_home st0 m Wm)); specialize (V' m _ w (agree_at_home st0 m Wm)); specialize (D m h w Wm Ho).
    unfold chunk in *; unfold in_step in *; destruct (Ev m w) as (m1 & E1); rewrite E1 in D, V'; destruct V' as (p1 & L1 & A1).
    destruct (eval_op op m w) as [m2 w2|lab m2 w2|why m2 w2|]; auto.
    + destruct V as (p2 & L2 & A2); rewrite L1 in L2; injection L2 as <- <-; destruct D as (h' & R & Hh); exists h'; split; auto.
      apply (holds_needed _ _ m1); auto; now apply (agree_needed st1 m1 m2 p1).
    + destruct V as (_ & p2 & L2 & _); congruence.
    + destruct V as (p2 & L2 & _); congruence.
Qed.

(** ** Blocks *)

Abbreviation states ops := (fst (liveness_pass_1 s ops)).

(** The code of the operations, from the allocator's state [r] on. *)
Inductive coded : list TCGOp -> ra_state -> list hinsn -> Prop :=
| coded_nil r : struct r -> fits (tcg_la_func_end s) r -> coded [] r []
| coded_keep op ops r c r1 code :
    struct r -> fits (states (op :: ops)) r -> op_step (states (op :: ops)) (states ops) op r c r1 ->
    (forall m w m' w', wf_store s m -> eval_op op m w = Next m' w' -> wf_store s m') -> coded ops r1 code ->
    coded (op :: ops) r (c ++ code)
| coded_drop op ops r code :
    opc op <> set_label -> states (op :: ops) = states ops ->
    (forall m w, wf_store s m -> eval_op op m w = Undefined \/
       exists m', eval_op op m w = Next m' w /\ wf_store s m' /\ forall t, in_temps t -> needed (states ops t) -> rd m' t = rd m t) ->
    coded ops r code -> coded (op :: ops) r code.

Lemma coded_start ops r code : coded ops r code -> struct r /\ fits (states ops) r.
Proof. induction 1 as [r S F|op ops r c r1 code S F St Wf Co IH|op ops r code N E Ev Co IH]; auto; now rewrite E. Qed.

Lemma states_cons op ops : states (op :: ops) = fst (visit_live s (states ops) op).
Proof. cbn [liveness_pass_1]; destruct (liveness_pass_1 s ops) as [st out]; cbn [fst]; now destruct (visit_live s st op) as [st' [l|]]. Qed.

(** What [pass_ok] knows of the state after an operation. *)
Lemma pass_state op ops known : Forall (live_wf s) (op :: ops) -> defined_first s known (op :: ops) = true ->
  states_ok s (states ops) /\ block_local s (states ops) (opc op) /\ (opc op = discard -> states ops (arg op 0) = TS_DEAD).
Proof.
  intros F D; inversion_clear F as [|? ? Wo F']; cbn [defined_first] in D; apply andb_true_iff in D as [_ D].
  pose proof (fun t => unknown_dead s few_temps globals_first ops _ t F' D) as U; splits.
  - apply (pass_ok s few_temps globals_first (fun _ => false) ops _ F' D).
  - intros B t T Hh; apply U; auto; now rewrite B.
  - intros O; assert (T := discard_temp s few_temps globals_first op Wo O); apply U; auto; [now apply (lw_discard s op Wo)|]; rewrite O, Z.eqb_refl; reflexivity.
Qed.

Lemma gen_code_coded ops : forall known r, Forall (live_wf s) ops -> Forall (alloc_wf s context) ops -> defined_first s known ops = true ->
  struct r -> fits (states ops) r ->
  wp (for_each (gen_op s cfg) (snd (liveness_pass_1 s ops))) r (fun r' code _ => coded ops r code).
Proof.
  induction ops as [|op ops IH]; intros known r F Fa D S Fi; [apply wp_ret; now constructor|].
  destruct (pass_state op ops known F D) as (S1 & Bl & Dd); pose proof (pass_ok s few_temps globals_first (fun _ => false) _ _ F D) as [_ V].
  rewrite pass_cons; pose proof (visit_keeps_label s (states ops) op) as Lb.
  inversion_clear F as [|? ? Wo F']; inversion_clear Fa as [|? ? Aw Fa']; cbn [defined_first] in D; apply andb_true_iff in D as [_ D].
  pose proof (states_cons op ops) as Es; destruct (visit_live s (states ops) op) as [st0 [l|]] eqn:E; cbn [fst snd] in *; rewrite Es in *.
  - cbn [for_each]; destruct (visit_is_coded (states ops) op st0 l Wo Aw S1 Bl Dd E) as [G H].
    eapply wp_seq; [now apply G|]; intros r1 c1 [] St; assert (St' : op_step st0 (states ops) op r c1 r1).
    { destruct H as [<-|(V' & Ev & N & N')]; [exact St|]; now apply (visited_step st0 (states ops) op l). }
    eapply wp_mono; [apply (IH _ r1 F' Fa' D); apply St'|]; intros r2 c2 [] Co; econstructor; rewrite ?Es; eauto.
    intros m w m' w' Wm Em; destruct V as [_ V]; specialize (V m _ w (agree_at_home _ m Wm)); unfold in_step in V; rewrite Em in V.
    destruct V as (p' & _ & A); apply A.
  - apply visit_none in E; subst st0; eapply wp_mono; [apply (IH _ r F' Fa' D); auto|]; intros r2 c2 [] Co; apply coded_drop; auto.
    + intros O; specialize (Lb (arg op 0)); unfold is_label in Lb; rewrite O, Z.eqb_refl in Lb; discriminate.
    + intros m w Wm; destruct V as [_ V]; destruct (V m _ w (agree_at_home _ m Wm)) as [|(m' & Em & A)]; auto; right; exists m'; splits; auto; [apply A|].
      apply (agree_needed _ m m' (at_home_places m)); auto; now apply agree_at_home.
Qed.

(** The globals at their places are all that a basic block starts from. *)
Lemma shows_holds r m h : struct r -> fits (tcg_la_bb_end s) r -> shows m h -> holds nobody (tcg_la_bb_end s) r m h.
Proof.
  intros S Fi Sh t T _; destruct (bb_end_dead t T) as [D M]; unfold holds1; rewrite D, M; destruct (fixed t) eqn:F.
  - intros _; pose proof (fixed_global_temp t F) as G; specialize (Sh t T G); now rewrite get_global_place, F in Sh.
  - splits; [discriminate| |].
    + intros G; specialize (Sh t T G); rewrite get_global_place, F in Sh by assumption; unfold home_word; now rewrite (place_global r t).
    + intros V; exfalso; apply (dead_not_reg (tcg_la_bb_end s) r t Fi); auto; now split.
Qed.

Lemma start_relaxes ops : Forall (live_wf s) ops -> defined_first s nothing_known ops = true -> relaxes (tcg_la_bb_end s) (states ops).
Proof.
  intros F D t T; destruct (bb_end_dead t T) as [Dt Mt]; destruct (is_global s t) eqn:G; [right; right; auto|left].
  rewrite (unknown_dead s few_temps globals_first ops nothing_known t F D T); [|now rewrite not_home|reflexivity].
  rewrite Dt, Mt; now split.
Qed.

Lemma coded_after_label label prog r0 pcode : coded prog r0 pcode -> forall known ops, Forall (live_wf s) prog -> defined_first s known prog = true ->
  after_label label prog = Some ops ->
  exists r code, code_after label pcode = Some code /\ coded ops r code /\ fits (tcg_la_bb_end s) r /\
    Forall (live_wf s) ops /\ defined_first s nothing_known ops = true.
Proof.
  induction 1 as [r S F|op ops0 r c r1 code S F St Wf Co IH|op ops0 r code N E Ev Co IH]; intros known ops Fw D; cbn [after_label];
    [discriminate| |]; inversion_clear Fw as [|? ? _ Fw']; cbn [defined_first] in D; apply andb_true_iff in D as [_ D].
  - rewrite (os_label _ _ _ _ _ _ St); destruct (is_label label op) eqn:Lb; [|eauto].
    intros [= <-]; exists r1, code; splits; auto; [apply (os_entry _ _ _ _ _ _ St)|];
      unfold is_label in Lb; destruct (opc op) eqn:O; try discriminate Lb; auto.
  - rewrite not_label by assumption; eauto.
Qed.

Lemma eval_leave op m w why m' w' : eval_op op m w = Leave why m' w' -> m' = m.
Proof.
  unfold eval_op, eval_ld, eval_st, eval_call, branch; destruct (is_pure (opc op)).
  - destruct (eval_pure _ _ _); discriminate.
  - destruct (opc op); repeat match goal with
      | |- context [match ?x with Some _ => _ | None => _ end] => destruct x as [[]|]
      | |- context [match ?x with Some _ => _ | None => _ end] => destruct x
      | |- context [let (_, _) := ?x in _] => destruct x
      | |- context [if ?b then _ else _] => destruct b
      end; intros [=]; congruence.
Qed.

Lemma coded_run jumps : forall prog r0 pcode ops r code known m h w,
  coded prog r0 pcode -> Forall (live_wf s) prog -> defined_first s known prog = true -> coded ops r code -> wf_store s m ->
  holds nobody (states ops) r m h -> same_results (run jumps prog ops m w) (host_run jumps pcode code h w).
Proof.
  induction jumps as [jumps IHj] using (well_founded_induction lt_wf).
  intros prog r0 pcode ops r code known m h w Cp Fp Dp Co; revert m h w.
  induction Co as [r S F|op ops r c r1 code S F St Wf Co IH|op ops r code N E Ev Co IH]; intros m h w Wm Ho.
  - rewrite run_nil; destruct jumps; (split; [reflexivity|]); apply shows_globals; auto; apply (holds_shows (tcg_la_func_end s) r); auto;
      intros t G; unfold tcg_la_func_end; now rewrite G.
  - rewrite run_cons; pose proof (os_chunk _ _ _ _ _ _ St m h w Wm Ho) as H; unfold chunk in H.
    destruct (eval_op op m w) as [m' w'|lab m' w'|why m' w'|] eqn:Ev; cbn [continue].
    + destruct H as (h' & -> & Hh); apply IH; auto; eapply Wf; eauto.
    + destruct H as (-> & h' & -> & Sh); unfold host_jump; destruct jumps as [|jumps]; [exact I|].
      destruct (after_label lab prog) as [ops'|] eqn:Al; [|exact I].
      destruct (coded_after_label lab prog r0 pcode Cp known ops' Fp Dp Al) as (r' & code' & -> & Co' & Fb & F2 & D2).
      apply (IHj jumps ltac:(lia) prog r0 pcode ops' r' code' known); auto; destruct (coded_start _ _ _ Co') as [S' _].
      apply (holds_relaxes nobody _ _ _ _ _ (start_relaxes ops' F2 D2) Fb); now apply shows_holds.
    + destruct H as (h' & -> & Sh); apply eval_leave in Ev as ->; cbn [same_results]; splits; auto; now apply shows_globals.
    + exact I.
  - rewrite run_cons; destruct (Ev m w Wm) as [-> |(m' & -> & Wm' & Nd)]; cbn [continue]; [exact I|].
    apply IH; auto; rewrite E in Ho; now apply (holds_needed _ _ m).
Qed.

(** ** The start *)

(** The allocator starts from the records of the front end. *)
Definition fresh (r : ra_state) : Prop := (forall t, temp r t = context t) /\ current_frame_offset r = frame_start cfg.

Lemma start_struct r : fresh r -> struct (tcg_reg_alloc_start s r) /\ fits (tcg_la_bb_end s) (tcg_reg_alloc_start s r).
Proof.
  intros [Et Ec]; assert (E : forall t, in_temps t -> temp (tcg_reg_alloc_start s r) t =
    if is_global s t then set_val_type (if fixed t then TEMP_VAL_REG else TEMP_VAL_MEM) (context t)
    else mkTemp (reg (context t)) TEMP_VAL_DEAD false (indirect_base (context t)) (mem_coherent (context t)) false (val (context t))
           (mem_base (context t)) (mem_offset (context t))).
  { intros t T; unfold tcg_reg_alloc_start, is_fixed; cbn [temp]; rewrite Et, (cx_locals _ _ _ Cx t T); now destruct (is_global s t). }
  split.
  - constructor.
    + intros t T; rewrite E by assumption; unfold is_fixed; now destruct (is_global s t).
    + intros t T F; rewrite E by assumption; rewrite (fixed_global_temp t F), F; now split.
    + intros x t X; discriminate X.
    + intros t T F; rewrite E by assumption; rewrite F; destruct (is_global s t); discriminate.
    + intros t T G F; rewrite E by assumption; rewrite G; cbn; destruct (cx_mem _ _ _ Cx t T G F) as (A & _); now splits.
    + exists []; constructor; [apply NoDup_nil|intros t []|cbn; lia| |intros t []|intros t u []].
      intros t T G; rewrite E, G by assumption; cbn; split; [discriminate|intros []].
  - intros t T F; destruct (bb_end_dead t T) as [D M]; unfold fits1; rewrite D, M, E by assumption; rewrite F.
    destruct (is_global s t) eqn:G; cbn; splits; auto; try discriminate; intros _; destruct (cx_mem _ _ _ Cx t T G F) as (A & _); splits; auto; discriminate.
Qed.

Lemma gen_code_runs ops r : Forall (live_wf s) ops -> Forall (alloc_wf s context) ops -> defined_first s nothing_known ops = true -> fresh r ->
  exists r' code, tcg_gen_code s cfg (snd (liveness_pass_1 s ops)) r = Some (r', code, tt) /\
    forall jumps m h w, wf_store s m -> map (get_global context h) (globals s) = firstn (nb_globals s) m ->
      same_results (run jumps ops ops m w) (host_run jumps code code h w).
Proof.
  intros F Fa D Fr; destruct (start_struct r Fr) as [S0 F0]; set (r0 := tcg_reg_alloc_start s r) in *.
  pose proof (start_relaxes ops F D) as Rx; pose proof (fits_relaxes _ _ _ S0 Rx F0) as F1.
  destruct (gen_code_coded ops nothing_known r0 F Fa D S0 F1) as (r' & code & [] & E & Co); exists r', code; split.
  - unfold tcg_gen_code, bind, modify; fold r0; now rewrite E.
  - intros jumps m h w Wm G; apply (coded_run jumps ops r0 code ops r0 code nothing_known); auto.
    apply (holds_relaxes nobody _ _ _ _ _ Rx F0), shows_holds; auto; intros t T Gt.
    pose proof globals_first; destruct Wm as [Lm _]; rewrite <- (map_rd_firstn s few_temps globals_first m) in G by lia.
    assert (I : In t (globals s)).
    { unfold globals; apply in_map_iff; exists (Z.to_nat t); unfold TcgCopies.in_temps in T; apply Z.ltb_lt in Gt; split; [lia|apply in_seq; lia]. }
    exact (ext_in_map G t I).
Qed.

End Block.
