(* ===== verification/TcgArmGen.v ===== *)
(** * Code for the ARM host

    The tables of the ARM back end are what the register allocator relies on,
    [encode_imm] finds every immediate operand, and the code that
    [tcg_gen_code] makes of a block behaves like the block. *)

From Stdlib Require Import ZArith Lia List Bool.
From S2P Require Import Prelude Bitops TcgIr TcgOpt TcgCopies TcgOptProof TcgLife TcgLifeProof TcgRegAlloc TcgHostCode TcgArm TcgTemps TcgRegProof TcgGenCode.
Import ListNotations.
Local Open Scope Z_scope.
Local Open Scope c_scope.

(** ** The tables *)

(** The frame that [tcg_target_qemu_prologue] sets. *)
Definition arm_config (frame_temp : Z) : ra_config :=
  mkRaConfig arm_reserved frame_temp TCG_STATIC_CALL_ARGS_SIZE (TCG_STATIC_CALL_ARGS_SIZE + CPU_TEMP_BUF_NLONGS * 4).

(** Registers that can be given to a temporary. *)
Definition free_regs (desired : Z) (rev : bool) : list Z :=
  filter (fun x => test_reg desired x && negb (test_reg arm_reserved x)) (tcg_target_reg_alloc_order rev).

Definition nodup_z (l : list Z) : bool := if list_eq_dec Z.eq_dec (nodup Z.eq_dec l) l then true else false.

Lemma nodup_z_ok l : nodup_z l = true -> NoDup l.
Proof. unfold nodup_z; destruct (list_eq_dec _ _ _) as [<-|]; [intros _; apply NoDup_nodup|discriminate]. Qed.

Definition roomy_check (desired : Z) : bool :=
  forallb (fun rev => nodup_z (free_regs desired rev) && (7 <=? length (free_regs desired rev))%nat) [true; false].

Lemma pigeonhole (l big : list Z) : NoDup big -> (length l < length big)%nat -> exists x, In x big /\ ~ In x l.
Proof.
  intros N L; destruct (Exists_dec (fun x => ~ In x l) big) as [E|E].
  - intros x; destruct (in_dec Z.eq_dec x l); [right; tauto|now left].
  - apply Exists_exists in E as (x & I & H); eauto.
  - exfalso; enough (length big <= length l)%nat by lia; apply NoDup_incl_length; auto.
    intros x I; destruct (in_dec Z.eq_dec x l); auto; exfalso; apply E, Exists_exists; eauto.
Qed.

Lemma roomy_check_ok desired : roomy_check desired = true -> roomy arm_reserved desired.
Proof.
  intros C rev l L; assert (R : nodup_z (free_regs desired rev) && (7 <=? length (free_regs desired rev))%nat = true).
  { unfold roomy_check in C; cbn [forallb] in C; rewrite !andb_true_iff in C; destruct rev; rewrite andb_true_iff; tauto. }
  apply andb_true_iff in R as [R1 R2]; apply nodup_z_ok in R1; apply Nat.leb_le in R2.
  destruct (pigeonhole l (free_regs desired rev) R1 ltac:(lia)) as (x & I & N); unfold free_regs in I; apply filter_In in I as [I T].
  apply andb_true_iff in T as [T1 T2]; apply negb_true_iff in T2; eauto 10.
Qed.

(** A property of each index of a bounded list, by evaluation. *)
Lemma below_check (n : nat) (f : nat -> bool) : forallb f (seq 0 n) = true -> forall i, (i < n)%nat -> f i = true.
Proof. intros H i L; apply (proj1 (forallb_forall _ _) H), in_seq; lia. Qed.

Definition same_members (l l' : list nat) : bool :=
  forallb (fun x => existsb (Nat.eqb x) l') l && forallb (fun x => existsb (Nat.eqb x) l) l'.

Lemma same_members_ok l l' : same_members l l' = true -> forall i, In i l <-> In i l'.
Proof.
  assert (H : forall l l', forallb (fun x => existsb (Nat.eqb x) l') l = true -> forall i, In i l -> In i l').
  { intros a b F i I; apply (proj1 (forallb_forall _ _) F), existsb_exists in I as (y & Y & E); apply Nat.eqb_eq in E; now subst. }
  intros C; apply andb_true_iff in C as [A B]; intros i; split; eauto.
Qed.

Ltac each_op o := destruct o; try discriminate; vm_compute.

Lemma arm_roomy o i : OPF_NOT_PRESENT o = false -> (i < nb_oargs (tcg_op_defs o) + nb_iargs (tcg_op_defs o))%nat ->
  roomy arm_reserved (ct_regs (args_ct o i)).
Proof.
  intros P L; apply roomy_check_ok; apply (below_check _ (fun i => roomy_check (ct_regs (args_ct o i)))) with (2 := L).
  revert P; clear; each_op o; reflexivity.
Qed.

Lemma arm_sorted_outs o : OPF_NOT_PRESENT o = false -> let no := nb_oargs (tcg_op_defs o) in
  same_members (firstn no (sorted_args o)) (seq 0 no) = true.
Proof. each_op o; reflexivity. Qed.

Lemma arm_sorted_ins o : OPF_NOT_PRESENT o = false -> let no := nb_oargs (tcg_op_defs o) in let ni := nb_iargs (tcg_op_defs o) in
  same_members (firstn ni (skipn no (sorted_args o))) (seq no ni) = true.
Proof. each_op o; reflexivity. Qed.

Lemma arm_sorted_nodup o : OPF_NOT_PRESENT o = false ->
  NoDup (sorted_args o) /\ length (sorted_args o) = (nb_oargs (tcg_op_defs o) + nb_iargs (tcg_op_defs o))%nat.
Proof.
  intros P; split; [|revert P; each_op o; reflexivity].
  apply (NoDup_count_occ Nat.eq_dec); intros i; destruct (in_dec Nat.eq_dec i (sorted_args o)) as [I|N];
    [|rewrite (proj1 (count_occ_not_In Nat.eq_dec _ _) N); lia].
  revert i I; apply Forall_forall; revert P; each_op o; repeat constructor.
Qed.

Lemma arm_alias o i : OPF_NOT_PRESENT o = false -> (i < nb_oargs (tcg_op_defs o))%nat -> is_alias (args_ct o i) = true ->
  nb_oargs (tcg_op_defs o) = 1%nat /\ OPF_CALL_CLOBBER o = false /\
  (1 <= alias_index (args_ct o i) < 1 + nb_iargs (tcg_op_defs o))%nat /\
  is_ialias (args_ct o (alias_index (args_ct o i))) = true /\ alias_index (args_ct o (alias_index (args_ct o i))) = i.
Proof.
  intros P; destruct i as [|[|i]]; revert P; each_op o; try discriminate; try lia; splits; auto; lia.
Qed.

(** Only [movcond] and [deposit] have an input in the register of the output. *)
Lemma arm_ialias o i : OPF_NOT_PRESENT o = false -> is_ialias (args_ct o i) = true ->
  o = movcond_i32 /\ i = 4%nat \/ o = deposit_i32 /\ i = 1%nat.
Proof.
  intros P; do 7 (destruct i as [|i]; [revert P; each_op o; auto; discriminate|]).
  cbn [args_ct arm_target]; rewrite nth_overflow; [discriminate|revert P; clear; each_op o; lia].
Qed.

#[export] Instance arm_target_ok ft : TargetOk arm_target (arm_config ft).
Proof.
  constructor; cbn [reserved_regs arm_config].
  - apply roomy_check_ok; reflexivity.
  - apply arm_roomy.
  - intros o i P; rewrite (same_members_ok _ _ (arm_sorted_outs o P) i), in_seq; lia.
  - intros o i P; rewrite (same_members_ok _ _ (arm_sorted_ins o P) i), in_seq; lia.
  - apply arm_sorted_nodup.
  - apply arm_alias.
  - intros o i P A; destruct (arm_ialias o i P A) as [[-> ->]|[-> ->]]; split; [vm_compute; lia|reflexivity|vm_compute; lia|reflexivity].
  - intros x X; apply in_map_iff; exists (Z.to_nat x); assert (B : 0 <= x < 16).
    { unfold test_reg in X; destruct (Z.ltb_spec x 0); [rewrite Z.testbit_neg_r in X by lia; discriminate|].
      split; auto; destruct (Z.ltb_spec x 16); auto; rewrite Z.bits_above_log2 in X; [discriminate|vm_compute; congruence|change (Z.log2 _) with 14; lia]. }
    split; [lia|apply in_seq; unfold TCG_TARGET_NB_REGS; lia].
  - split; [apply nodup_z_ok; reflexivity|cbn; lia].
  - apply Forall_forall; repeat (apply Forall_cons; [|try apply Forall_nil]); splits; auto; intros []; vm_compute; tauto.
  - split; [apply nodup_z_ok; reflexivity|cbn; lia].
  - apply Forall_forall; repeat constructor.
  - intros rev; apply Forall_forall; destruct rev; repeat constructor; lia.
Qed.

(** ** The context of a block *)

(** What the passes see of the table. *)
Definition opt_view (c : temp_table) : TCGContext :=
  mkCtx (temps_count c) (globals_count c) (fun t => is_local (entry c t)) (fun t => type_code (type (entry c t))).
Definition ra_view (c : temp_table) (owners : Z -> option Z) : ra_state :=
  mkRa (fun t => alloc (entry c t)) owners (frame_offset c).
Definition config_view (c : temp_table) : ra_config := mkRaConfig (reserved c) (frame c) (frame_from c) (frame_to c).

(** The table after the calls of a front end for a block. *)
Definition block_table (offsetof : env_field -> Z) (calls : list temp_call) : option (temp_table * list handle) :=
  let? c := arm_table offsetof in temp_calls calls (tcg_func_start c, []).

Lemma tiled_cover bs : forall from to t, tiled from bs to -> from <= t < to -> exists b, In b bs /\ word_of b t.
Proof.
  induction bs as [|b bs IH]; cbn; intros from to t; [intros ->; lia|]; intros [E T] L.
  destruct (Z.ltb_spec t (from + type_words (h_type b))); [exists b; unfold word_of; split; [auto|lia]|].
  destruct (IH _ _ t T ltac:(lia)) as (b' & I & Wt); eauto.
Qed.

(** The globals and the temporaries of a block without local temporaries. *)
Record plain_table (offsetof : env_field -> Z) (c : temp_table) : Prop := {
  pt_globals : globals_count c = 29%nat /\ (29 <= temps_count c <= TCG_MAX_TEMPS)%nat;
  pt_env : alloc (entry c 0) = fixed_temp TCG_AREG0;
  pt_words : forall i, (i < 27)%nat -> alloc (entry c (Z.of_nat (S i))) = env_temp (nth i (env_words offsetof) 0);
  pt_frame : alloc (entry c 28) = fixed_temp TCG_REG_CALL_STACK;
  pt_config : config_view c = arm_config 28 /\ frame_offset c = TCG_STATIC_CALL_ARGS_SIZE;
  pt_locals : forall t, t < Z.of_nat (temps_count c) -> is_local (entry c t) = false
}.

Lemma block_table_plain offsetof calls c live : block_table offsetof calls = Some (c, live) -> forallb is_plain calls = true -> plain_table offsetof c.
Proof.
  unfold block_table; destruct (arm_table_ok offsetof) as (c0 & -> & [[C1 C2] Ae Aw (A1 & A2 & A3 & A4) Ar Al _]); intros E P.
  destruct (block_temps_ok c0 calls c live) as ([G1 G2 (F1 & F2 & F3 & F4) G4] & bs & K & Tr & Pl); auto; [rewrite C1; unfold TCG_MAX_TEMPS; lia|].
  cbn in *; rewrite C1 in *; pose proof (proj1 (tiled_bounds _ _ _ (tk_tiled _ _ K))) as B; rewrite G1 in B.
  constructor; rewrite ?G4 by lia; auto.
  - split; [exact G1|]; split; [lia|apply (tk_max _ _ K)].
  - intros i L; rewrite G4 by lia; exact (Aw i L).
  - unfold config_view, arm_config; rewrite F1, F2, F3, F4, G2, A1, A3, A4, Ar; auto.
  - intros t L; destruct (Z.ltb_spec t 29); [rewrite G4 by lia; auto|].
    destruct (tiled_cover bs _ _ t (tk_tiled _ _ K)) as (b & I & Wt); [rewrite G1; lia|].
    destruct (tk_words _ _ K b t I Wt) as (_ & -> & _); exact (proj1 (Forall_forall _ _) (Pl P) b I).
Qed.

Lemma global_cases t : 0 <= t < 29 -> t = 0 \/ t = 28 \/ exists i, (i < 27)%nat /\ t = Z.of_nat (S i).
Proof.
  intros L; destruct (Z.eq_dec t 0); [auto|]; destruct (Z.eq_dec t 28); [auto|]; right; right; exists (Z.to_nat (t - 1)); lia.
Qed.

Lemma plain_context_ok offsetof c : NoDup (env_words offsetof) -> plain_table offsetof c -> (temps_count c <= 157)%nat ->
  context_ok (opt_view c) (config_view c) (fun t => alloc (entry c t)).
Proof.
  intros Nd [[C1 C2] Pe Pw Pf [Pc Po] Pl] L; rewrite Pc.
  assert (Fx : forall t, TcgCopies.in_temps (opt_view c) t -> is_fixed (opt_view c) (fun t => alloc (entry c t)) t = true -> t = 0 \/ t = 28).
  { intros t T; unfold is_fixed, is_global; cbn; rewrite C1; rewrite andb_true_iff; intros [G F]; apply Z.ltb_lt in G.
    destruct T as [T _]; destruct (global_cases t ltac:(lia)) as [| [|(i & Li & ->)]]; auto; rewrite Pw in F by assumption; discriminate. }
  assert (Nf : forall t, TcgCopies.in_temps (opt_view c) t -> is_global (opt_view c) t = true -> is_fixed (opt_view c) (fun t => alloc (entry c t)) t = false ->
    exists i, (i < 27)%nat /\ t = Z.of_nat (S i)).
  { intros t [T _] G F; unfold is_global in G; cbn in G; rewrite C1 in G; apply Z.ltb_lt in G.
    destruct (global_cases t ltac:(lia)) as [-> | [-> |]]; auto; unfold is_fixed, is_global in F; cbn in F; rewrite C1 in F;
      [rewrite Pe in F|rewrite Pf in F]; discriminate. }
  assert (In0 : TcgCopies.in_temps (opt_view c) 0) by (unfold TcgCopies.in_temps; cbn; lia).
  assert (In28 : TcgCopies.in_temps (opt_view c) 28) by (unfold TcgCopies.in_temps; cbn; lia).
  constructor.
  - intros t [_ T]; apply Pl; exact T.
  - intros t T F; destruct (Fx t T F) as [-> | ->]; [rewrite Pe|rewrite Pf]; split; reflexivity.
  - intros t u T U F F'; destruct (Fx t T F) as [-> | ->], (Fx u U F') as [-> | ->]; auto; rewrite Pe, Pf; discriminate.
  - intros t T G F; destruct (Nf t T G F) as (i & Li & ->); unfold context_place; rewrite Pw by assumption; cbn [mem_base env_temp mem_allocated fst].
    unfold is_fixed, is_global; cbn [nb_globals opt_view]; rewrite C1, Pe; splits; auto; discriminate.
  - intros t u T U G G' F F' E; destruct (Nf t T G F) as (i & Li & ->), (Nf u U G' F') as (j & Lj & ->).
    unfold context_place in E; rewrite !Pw in E by assumption; injection E as E; do 2 f_equal.
    apply (proj1 (NoDup_nth (env_words offsetof) 0) Nd); auto.
  - cbn [frame_temp arm_config]; splits; auto; [|now rewrite Pf]; unfold is_fixed, is_global; cbn; now rewrite C1, Pf.
  - cbn [frame_start frame_end arm_config nb_temps nb_globals opt_view]; rewrite C1; unfold CPU_TEMP_BUF_NLONGS, TCG_STATIC_CALL_ARGS_SIZE; splits; [reflexivity|lia|lia].
Qed.

(** ** An example *)

Definition demo_layout (f : env_field) : Z :=
  match f with
  | regs_at i => 4 * Z.of_nat i
  | at_CF => 400 | at_NF => 404 | at_VF => 408 | at_ZF => 412
  | at_exclusive_addr => 800 | at_exclusive_val => 808 | at_exclusive_test => 816 | at_exclusive_info => 824
  end.

Definition demo_calls : list temp_call := New TCG_TYPE_I32 false :: Free 29 :: repeat (New TCG_TYPE_I32 false) 6.

Definition demo_table : temp_table :=
  match block_table demo_layout demo_calls with Some (c, _) => c | None => initial_table end.

(** A helper that adds its arguments; without flags it also counts in R1. *)
Definition demo_helper (c i g : list Z) (w : Z) : option (list Z * list Z * Z) :=
  Some ([fold_right Z.add 0 i],
        match c with _ :: fl :: _ => if truthy (fl .& 0x70) then g else upd g 2 (u32 (rd g 2 + 1)) | _ => g end, w).

Lemma some_flag fl f : truthy (fl .& f) = true -> f .& 0x70 = f -> truthy (fl .& 0x70) = true.
Proof.
  unfold truthy; rewrite !negb_true_iff, !Z.eqb_neq; intros N F E; apply N.
  now rewrite <- F, (Z.land_comm f 0x70), Z.land_assoc, E.
Qed.

#[export, program] Instance demo_host : TcgHost Z 29 := {
  host_ld := fun _ _ w => w;
  host_st := fun _ _ v _ => v;
  guest_ld := fun _ a w => if a =? 0 then None else Some (w, w);
  guest_st := fun _ a v w => if a =? 0 then None else Some v;
  helper := demo_helper;
  chained := fun _ _ => false;
  stale := fun _ _ => 0
}.
Next Obligation.
  destruct c as [|f [|fl r]]; cbn in *; auto; destruct (truthy _); auto; rewrite length_upd; split; auto.
  apply Forall_upd; auto; apply wrap_range; lia.
Qed.
Next Obligation. intros; cbn in *; now rewrite (some_flag fl 0x30). Qed.

#[export, program] Instance demo_flags : HelperFlags Z 29 demo_host.
Next Obligation. intros; cbn; unfold demo_helper; rewrite (some_flag fl TCG_CALL_NO_READ_GLOBALS) by auto; eauto. Qed.
Next Obligation. intros; cbn; unfold demo_helper; rewrite (some_flag fl TCG_CALL_NO_SIDE_EFFECTS) by auto; eauto. Qed.

(** R0 is temporary 1, R1 is 2. *)
Definition demo_block : list TCGOp :=
  [ mkOp insn_start 0 0 [0; 0; 0]; mkOp movi_i32 0 0 [29; 12]; mkOp add_i32 0 0 [30; 1; 29]; mkOp movi_i32 0 0 [31; 0x12345];
    mkOp mulu2_i32 0 0 [32; 33; 30; 31]; mkOp mov_i32 0 0 [1; 32]; mkOp brcond_i32 0 0 [33; 29; 8; 7];
    mkOp movi_i32 0 0 [34; 0xff00]; mkOp call 1 2 [29; 1; 34; 99; 0; 0]; mkOp deposit_i32 0 0 [2; 2; 29; 8; 8];
    mkOp set_label 0 0 [7]; mkOp qemu_st_i32 0 0 [1; 2; 0]; mkOp exit_tb 0 0 [0] ].

Example demo_block_code :
  option_map (fun x => snd (fst x))
    (tcg_gen_code (opt_view demo_table) (config_view demo_table) (snd (liveness_pass_1 (opt_view demo_table) demo_block))
       (ra_view demo_table (fun _ => None))) =
  Some [ Ild 4 6 0; Iop add_i32 [4; 4; 12] [false; false; true];
         Imovi 5 0x12345; Iop mulu2_i32 [4; 5; 4; 5] [false; false; false; false];
         Ist 4 6 0; Iop brcond_i32 [5; 12; 8; 7] [false; true];
         Ild 0 6 0; Imovi 1 0xff00; Icall [99; 0; 0] [false; false];
         Ild 4 6 4; Iop deposit_i32 [4; 4; 0; 8; 8] [false; false; false]; Ist 4 6 4;
         Ilabel 7; Ild 4 6 0; Ild 5 6 4; Iop qemu_st_i32 [4; 5; 0] [false; false]; Iop exit_tb [0] [] ].
Proof. vm_compute. reflexivity. Qed.

(** [live_wf] by evaluation, but for what a helper returns. *)
Definition in_temps_check (s : TCGContext) (t : Z) : bool := (0 <=? t) && (t <? Z.of_nat (nb_temps s)).
Definition live_check (s : TCGContext) (op : TCGOp) : bool :=
  (n_oargs op + n_iargs op + n_cargs op <=? length (args op))%nat && (n_oargs op <=? 2)%nat && (n_oargs op + n_iargs op <=? 14)%nat &&
  forallb (in_temps_check s) (oargs op) && nodup_z (oargs op) &&
  forallb (fun t => in_temps_check s t || match opc op with call => t =? TCG_CALL_DUMMY_ARG | _ => false end) (iargs op) &&
  match opc op with discard => negb (has_home s (arg op 0)) | _ => true end.

Lemma in_temps_check_ok s t : in_temps_check s t = true -> TcgCopies.in_temps s t.
Proof. intros H; apply andb_true_iff in H as [A B]; apply Z.leb_le in A; apply Z.ltb_lt in B; split; assumption. Qed.

Lemma live_check_ok s {W} {host : TcgHost W (nb_globals s)} ops : forallb (live_check s) ops = true ->
  (forall c i g w o g' w', helper c i g w = Some (o, g', w') -> length o = 1%nat) ->
  forallb (fun op => match opc op with call => (callo op =? 1)%nat | _ => true end) ops = true -> Forall (live_wf s) ops.
Proof.
  intros H Hh C; apply Forall_forall; intros op I; pose proof (proj1 (forallb_forall _ _) C op I) as Co; cbv beta in Co; clear C.
  apply (proj1 (forallb_forall _ _) H) in I; unfold live_check in I; rewrite !andb_true_iff in I.
  destruct I as ((((((A & B) & B') & C) & D) & E) & F); apply Nat.leb_le in A, B, B'; split; auto.
  - apply Forall_forall; intros t T; apply in_temps_check_ok, (proj1 (forallb_forall _ _) C t T).
  - now apply nodup_z_ok.
  - apply Forall_forall; intros t T; apply (proj1 (forallb_forall _ _) E), orb_true_iff in T as [T|T]; [left; now apply in_temps_check_ok|right].
    destruct (opc op); try discriminate; apply Z.eqb_eq in T; auto.
  - intros O; rewrite O in F; now apply negb_true_iff in F.
  - intros O i g w o g' w' _ X; apply Hh in X; rewrite O in Co; apply Nat.eqb_eq in Co; congruence.
Qed.

Lemma demo_block_live : Forall (live_wf (host := demo_host) (opt_view demo_table)) demo_block.
Proof.
  apply live_check_ok; [vm_compute; reflexivity| |vm_compute; reflexivity].
  intros c i g w o g' w' [= <- _ _]; reflexivity.
Qed.

(** [alloc_wf] by evaluation. *)
Definition alloc_check (s : TCGContext) (context : Z -> TCGTemp) (op : TCGOp) : bool :=
  forallb (fun t => negb (is_fixed s context t)) (oargs op) &&
  match opc op with
  | discard | set_label | call | movi_i32 | insn_start => true
  | mov_i32 => negb (arg op 0 =? arg op 1)
  | o => negb (OPF_NOT_PRESENT o)
  end.

Lemma alloc_check_ok s context ops : forallb (alloc_check s context) ops = true -> Forall (alloc_wf s context) ops.
Proof.
  intros H; apply Forall_forall; intros op I; apply (proj1 (forallb_forall _ _) H) in I; apply andb_true_iff in I as [A B]; split.
  - intros t T; apply (proj1 (forallb_forall _ _) A), negb_true_iff in T; exact T.
  - destruct (opc op); cbn; auto 10; discriminate.
  - intros O; rewrite O in B; apply negb_true_iff, Z.eqb_neq in B; exact B.
Qed.

Lemma demo_block_alloc : Forall (alloc_wf (opt_view demo_table) (fun t => alloc (entry demo_table t))) demo_block.
Proof. apply alloc_check_ok; vm_compute; reflexivity. Qed.

(** ** The theorem *)

Lemma block_code_runs (offsetof : env_field -> Z) (calls : list temp_call) (c : temp_table) (live : list handle)
    (W : Type) (host : TcgHost W (nb_globals (opt_view c))) (flags : HelperFlags W (nb_globals (opt_view c)) host)
    (trash : W -> Z -> Z) (owners : Z -> option Z) (ops : list TCGOp) :
  let s := opt_view c in
  let context := fun t => alloc (entry c t) in
  NoDup (env_words offsetof) -> block_table offsetof calls = Some (c, live) -> forallb is_plain calls = true ->
  (temps_count c <= globals_count c + 128)%nat ->
  Forall (live_wf s) ops -> Forall (alloc_wf s context) ops -> defined_first s nothing_known ops = true ->
  exists r code, tcg_gen_code s (config_view c) (snd (liveness_pass_1 s ops)) (ra_view c owners) = Some (r, code, tt) /\
    forall jumps m h w, wf_store s m -> map (get_global context h) (globals s) = firstn (nb_globals s) m ->
      same_results s context (run jumps ops ops m w) (host_run s context trash jumps code code h w).
Proof.
  intros s context Nd Eb Pl Lt Lw Aw Df; pose proof (block_table_plain offsetof calls c live Eb Pl) as P.
  pose proof (pt_globals _ _ P) as [C1 C2]; pose proof (pt_config _ _ P) as [Pc Po].
  pose proof (plain_context_ok offsetof c Nd P ltac:(lia)) as Cx; fold s context in Cx; rewrite Pc in *.
  pose (setup := Build_AllocSetup s (arm_config 28) arm_target context _ (proj2 C2) ltac:(cbn; lia) Cx).
  apply (gen_code_runs (setup := setup) trash ops); auto; split; [reflexivity|exact Po].
Qed.

(** C1: for every block on the globals of the ARM front end whose temporaries the front
    end took, none of them local and at most 128 of them, and whose operations are well
    formed, present on the host and never read a temporary before writing it in the same
    basic block (live_wf, alloc_wf, defined_first): tcg_gen_code after the liveness
    analysis does not abort, no assertion of the allocator fails, and the host code it
    makes, run with values in registers, constants in instructions, spills to the frame
    and registers destroyed by calls, takes the same branches, ends the same way and
    leaves the same world and the same globals as the block, unless the block goes
    wrong.  This is about the allocator: each operation in the host code is taken with
    the meaning that tcg/README gives to it; whether the words emitted for it have this
    meaning is what tcg_out_op_correct and the theorems on guest accesses say, with
    their exceptions (signed setcond2 and brcond2, some byte-swapped accesses). *)
Theorem tcg_gen_code_correct (offsetof : env_field -> Z) (calls : list temp_call) (c : temp_table) (live : list handle)
    (W : Type) (host : TcgHost W (nb_globals (opt_view c))) (flags : HelperFlags W (nb_globals (opt_view c)) host)
    (trash : W -> Z -> Z) (owners : Z -> option Z) (ops : list TCGOp) :
  let s := opt_view c in
  let context := fun t => alloc (entry c t) in
  NoDup (env_words offsetof) -> block_table offsetof calls = Some (c, live) -> forallb is_plain calls = true ->
  (temps_count c <= globals_count c + 128)%nat ->
  Forall (live_wf s) ops -> Forall (alloc_wf s context) ops -> defined_first s nothing_known ops = true ->
  exists r code, tcg_gen_code s (config_view c) (snd (liveness_pass_1 s ops)) (ra_view c owners) = Some (r, code, tt) /\
    forall jumps m h w, wf_store s m -> map (get_global context h) (globals s) = firstn (nb_globals s) m ->
      same_results s context (run jumps ops ops m w) (host_run s context trash jumps code code h w).
Proof. exact (block_code_runs offsetof calls c live W host flags trash owners ops). Qed.

Definition demo_values : store := map (fun i => 1000 + Z.of_nat i) (seq 0 35).
Definition demo_hstate : hstate :=
  mkH (fun r => if r =? 6 then 1000 else if r =? 13 then 1028 else 5) (fun _ o => match find (fun i => nth i (env_words demo_layout) 0 =? o) (seq 0 27) with Some i => 1001 + Z.of_nat i | None => 7 end).

Lemma tcg_gen_code_correct_witness :
  exists r code, tcg_gen_code (opt_view demo_table) (config_view demo_table) (snd (liveness_pass_1 (opt_view demo_table) demo_block))
                   (ra_view demo_table (fun _ => None)) = Some (r, code, tt) /\
    same_results (opt_view demo_table) (fun t => alloc (entry demo_table t)) (run 3 demo_block demo_block demo_values 7)
      (host_run (opt_view demo_table) (fun t => alloc (entry demo_table t)) (fun _ x => x) 3 code code demo_hstate 7).
Proof.
  destruct (tcg_gen_code_correct demo_layout demo_calls demo_table (map (fun t => mkHandle t TCG_TYPE_I32 false) [34; 33; 32; 31; 30; 29])
    Z demo_host demo_flags (fun _ x => x) (fun _ => None) demo_block) as (r & code & E & H);
    [apply nodup_z_ok; vm_compute; reflexivity|vm_compute; reflexivity|reflexivity|vm_compute; lia|exact demo_block_live|exact demo_block_alloc|vm_compute; reflexivity|].
  exists r, code; split; [exact E|]; apply H; [|vm_compute; reflexivity].
  split; [vm_compute; reflexivity|]; apply Forall_forall; intros v I; apply in_map_iff in I as (i & <- & I); apply in_seq in I; unfold inU; lia.
Defined.
