(* ===== verification/ArmIsa.v ===== *)
(** * ARM instructions

    What the words that the back end emits do on the host: the A32
    instructions that tcg/arm/tcg-target.inc.c uses, after the ARM
    Architecture Reference Manual.  [decode] takes a word apart, [exec] runs
    an instruction.  [None] is an instruction that the architecture does not
    have, whose effect is unpredictable, or that is not used (writes of the
    program counter, flags of logical operations). *)

From Stdlib Require Import ZArith Lia List Bool.
From S2P Require Import Prelude Bitops.
Import ListNotations.
Local Open Scope Z_scope.
Local Open Scope c_scope.

(** What the processor has. *)
Record arm_arch := mkArch { has_v6 : bool; has_v7 : bool; has_idiv : bool }.

Record cpu := mkCpu { greg : Z -> Z; flagN : bool; flagZ : bool; flagC : bool; flagV : bool; bytes : Z -> Z }.

Definition bits (w lo len : Z) : Z := (w .>> lo) .& (2 ^ len - 1).
Definition bit_set (w i : Z) : bool := negb (bits w i 1 =? 0).

(** ** Instructions *)

Inductive op2 :=
| OpImm (imm12 : Z)
| OpShift (rm ty imm5 : Z)
| OpShiftReg (rm ty rs : Z).

Inductive offset := OffImm (imm : Z) | OffReg (rm : Z).
Inductive extend := SXTB | SXTH | UXTH.
Inductive reverse := REV | REV16 | REVSH.

Inductive insn :=
| Dp (op : Z) (s : bool) (rd rn : Z) (o : op2)
| Movw (rd imm16 : Z)
| Movt (rd imm16 : Z)
| Mul (rd rn rm : Z)
| Mull (signed : bool) (lo hi rn rm : Z)
| Divide (signed : bool) (rd rn rm : Z)
| Extend (e : extend) (rd rm : Z)
| Reverse (e : reverse) (rd rm : Z)
| Bfi (rd rn lsb msb : Z)
| Load (size : Z) (signed : bool) (rt rn : Z) (up : bool) (o : offset)
| Store (size : Z) (rt rn : Z) (up : bool) (o : offset)
| LoadPre (rt rn rm : Z) (up : bool)
| StorePre (rt rn rm : Z) (up : bool).

(** Comparisons: TST, TEQ, CMP, CMN. *)
Definition is_test (op : Z) : bool := (8 <=? op) && (op <=? 11).
Definition is_mov (op : Z) : bool := (op =? 13) || (op =? 15).

Definition dp (op : Z) (s : bool) (rd rn : Z) (o : op2) : option insn :=
  if is_test op && (negb s || negb (rd =? 0)) then None
  else if is_mov op && negb (rn =? 0) then None
  else Some (Dp op s rd rn o).

(** Pre-indexed without write-back. *)
Definition plain_index (w : Z) : bool := bit_set w 24 && negb (bit_set w 21).

(** Pre-indexed with write-back. *)
Definition write_back (w : Z) : bool := bit_set w 24 && bit_set w 21.

Definition decode_multiply (w : Z) : option insn :=
  let a := bits w 16 4 in let b := bits w 12 4 in let c := bits w 8 4 in let d := bits w 0 4 in
  let op := bits w 20 5 in
  if (op =? 0) && (b =? 0) then Some (Mul a d c)
  else if op =? 8 then Some (Mull false b a d c)
  else if op =? 12 then Some (Mull true b a d c)
  else None.

Definition decode_extra (w : Z) : option insn :=
  if plain_index w then
    let rt := bits w 12 4 in let rn := bits w 16 4 in let up := bit_set w 23 in
    let? o := (if bit_set w 22 then Some (OffImm ((bits w 8 4 .<< 4) .| bits w 0 4))
               else if bits w 8 4 =? 0 then Some (OffReg (bits w 0 4)) else None) in
    let sh := bits w 5 2 in
    if bit_set w 20 then
      Some (if sh =? 1 then Load 16 false rt rn up o else if sh =? 2 then Load 8 true rt rn up o else Load 16 true rt rn up o)
    else if sh =? 1 then Some (Store 16 rt rn up o) else None
  else None.

Definition decode_dp_reg (w : Z) : option insn :=
  let rm := bits w 0 4 in let ty := bits w 5 2 in
  dp (bits w 21 4) (bit_set w 20) (bits w 12 4) (bits w 16 4)
    (if bit_set w 4 then OpShiftReg rm ty (bits w 8 4) else OpShift rm ty (bits w 7 5)).

Definition decode_dp_imm (w : Z) : option insn :=
  let op := bits w 20 8 in
  let imm16 := (bits w 16 4 .<< 12) .| bits w 0 12 in
  if op =? 0x30 then Some (Movw (bits w 12 4) imm16)
  else if op =? 0x34 then Some (Movt (bits w 12 4) imm16)
  else dp (bits w 21 4) (bit_set w 20) (bits w 12 4) (bits w 16 4) (OpImm (bits w 0 12)).

Definition decode_mem (w : Z) (o : offset) : option insn :=
  if plain_index w then
    let size := if bit_set w 22 then 8 else 32 in
    let rt := bits w 12 4 in let rn := bits w 16 4 in let up := bit_set w 23 in
    Some (if bit_set w 20 then Load size false rt rn up o else Store size rt rn up o)
  else if write_back w then
    match o with
    | OffReg rm =>
        let rt := bits w 12 4 in let rn := bits w 16 4 in let up := bit_set w 23 in
        if bit_set w 22 then None else Some (if bit_set w 20 then LoadPre rt rn rm up else StorePre rt rn rm up)
    | OffImm _ => None
    end
  else None.

Definition decode_extend (op lo rd rm : Z) : option insn :=
  if lo =? 0x07 then
    if op =? 0x6a then Some (Extend SXTB rd rm)
    else if op =? 0x6b then Some (Extend SXTH rd rm)
    else if op =? 0x6f then Some (Extend UXTH rd rm)
    else None
  else if (op =? 0x6b) && (lo =? 0xf3) then Some (Reverse REV rd rm)
  else if (op =? 0x6b) && (lo =? 0xfb) then Some (Reverse REV16 rd rm)
  else if (op =? 0x6f) && (lo =? 0xfb) then Some (Reverse REVSH rd rm)
  else None.

Definition decode_media (w : Z) : option insn :=
  let op := bits w 20 8 in
  let rd := bits w 12 4 in let rm := bits w 0 4 in
  if bits w 21 7 =? 0x3e then if bits w 4 3 =? 1 then Some (Bfi rd rm (bits w 7 5) (bits w 16 5)) else None
  else if (op =? 0x71) || (op =? 0x73) then
    if (bits w 12 4 =? 15) && (bits w 4 4 =? 1) then Some (Divide (op =? 0x71) (bits w 16 4) rm (bits w 8 4)) else None
  else if bits w 16 4 =? 15 then decode_extend op (bits w 4 8) rd rm
  else None.

Definition decode (w : Z) : option insn :=
  let c := bits w 25 3 in
  if c =? 0 then
    if bit_set w 4 && bit_set w 7 then if bits w 5 2 =? 0 then decode_multiply w else decode_extra w
    else decode_dp_reg w
  else if c =? 1 then decode_dp_imm w
  else if c =? 2 then decode_mem w (OffImm (bits w 0 12))
  else if c =? 3 then
    if bit_set w 4 then decode_media w
    else if bits w 4 8 =? 0 then decode_mem w (OffReg (bits w 0 4)) else None
  else None.

(** ** Meaning *)

Definition set_greg (c : cpu) (x v : Z) : cpu :=
  mkCpu (fun y => if y =? x then v else greg c y) (flagN c) (flagZ c) (flagC c) (flagV c) (bytes c).

Definition set_flags (c : cpu) (v : Z) (carry overflow : bool) : cpu :=
  mkCpu (greg c) (Z.testbit v 31) (v =? 0) carry overflow (bytes c).

(** [AddWithCarry]: the sum, the carry and the overflow. *)
Definition add_with_carry (x y : Z) (carry : bool) : Z * bool * bool :=
  let sum := x + y + b2z carry in
  (u32 sum, 2 ^ 32 <=? sum, negb (s32 (u32 sum) =? s32 x + s32 y + b2z carry)).

Definition inv (x : Z) : Z := u32 (Z.lnot x).

(** The result; carry and overflow are those of an addition. *)
Definition dp_value (op a b : Z) (carry : bool) : Z * option (bool * bool) :=
  let sum x y c := let '(v, cy, ov) := add_with_carry x y c in (v, Some (cy, ov)) in
  match op with
  | 0 | 8 => (a .& b, None)
  | 1 | 9 => (a .^ b, None)
  | 2 | 10 => sum a (inv b) true
  | 3 => sum (inv a) b true
  | 4 | 11 => sum a b false
  | 5 => sum a b carry
  | 6 => sum a (inv b) carry
  | 7 => sum (inv a) b carry
  | 12 => (a .| b, None)
  | 13 => (b, None)
  | 14 => (a .& inv b, None)
  | _ => (inv b, None)
  end.

Definition shift_value (ty x n : Z) : Z :=
  match ty with
  | 0 => u32 (x .<< n)
  | 1 => x .>> n
  | 2 => u32 (s32 x .>> n)
  | _ => ror32 x (n mod 32)
  end.

Definition expand_imm (imm12 : Z) : Z := ror32 (imm12 .& 0xff) (2 * (imm12 .>> 8)).

Definition op2_value (c : cpu) (o : op2) : option Z :=
  match o with
  | OpImm imm12 => Some (expand_imm imm12)
  | OpShift rm ty imm5 =>
      if rm =? 15 then None
      else if imm5 =? 0 then
        match ty with
        | 0 => Some (greg c rm)
        | 1 | 2 => Some (shift_value ty (greg c rm) 32)
        | _ => None
        end
      else Some (shift_value ty (greg c rm) imm5)
  | OpShiftReg rm ty rs =>
      if (rm =? 15) || (rs =? 15) then None else Some (shift_value ty (greg c rm) (greg c rs .& 0xff))
  end.

Definition load (c : cpu) (size a : Z) : Z :=
  let byte i := bytes c (u32 (a + i)) in
  match size with
  | 8 => byte 0
  | 16 => byte 0 .| (byte 1 .<< 8)
  | _ => byte 0 .| (byte 1 .<< 8) .| (byte 2 .<< 16) .| (byte 3 .<< 24)
  end.

Definition set_byte (m : Z -> Z) (a v : Z) : Z -> Z := fun b => if b =? a then u8 v else m b.

Definition store_bytes (m : Z -> Z) (size a v : Z) : Z -> Z :=
  let put m i := set_byte m (u32 (a + i)) (v .>> (8 * i)) in
  match size with
  | 8 => put m 0
  | 16 => put (put m 0) 1
  | _ => put (put (put (put m 0) 1) 2) 3
  end.

Definition set_bytes (c : cpu) (m : Z -> Z) : cpu :=
  mkCpu (greg c) (flagN c) (flagZ c) (flagC c) (flagV c) m.

Definition address (c : cpu) (rn : Z) (up : bool) (o : offset) : option Z :=
  match o with
  | OffImm i => Some (u32 (if up then greg c rn + i else greg c rn - i))
  | OffReg rm => if rm =? 15 then None else Some (u32 (if up then greg c rn + greg c rm else greg c rn - greg c rm))
  end.

(** Before version 6 an address that is not a multiple of the size is not predictable. *)
Definition aligned (arch : arm_arch) (size a : Z) : bool := has_v6 arch || (a mod (size / 8) =? 0).

Definition no_pc (l : list Z) : bool := forallb (fun x => negb (x =? 15)) l.

(** Registers that pre-indexed addressing with write-back allows. *)
Definition pre_indexed (arch : arm_arch) (rt rn rm : Z) : bool :=
  no_pc [rt; rn; rm] && negb (rt =? rn) && (has_v6 arch || negb (rm =? rn)).

Definition rev16_value (x : Z) : Z :=
  u8 (x .>> 8) .| (u8 x .<< 8) .| (u8 (x .>> 24) .<< 16) .| (u8 (x .>> 16) .<< 24).

(** A data-processing instruction with second operand [b]. *)
Definition dp_result (op : Z) (s : bool) (rd rn b : Z) (c : cpu) : option cpu :=
  let (v, cv) := dp_value op (greg c rn) b (flagC c) in
  let? c' := (if s then let? (cy, ov) := cv in Some (set_flags c v cy ov) else Some c) in
  Some (if is_test op then c' else set_greg c' rd v).

Definition exec (arch : arm_arch) (i : insn) (c : cpu) : option cpu :=
  match i with
  | Dp op s rd rn o =>
      if no_pc [rd; rn] then
        let? b := op2_value c o in dp_result op s rd rn b c
      else None
  | Movw rd imm => if has_v7 arch && no_pc [rd] then Some (set_greg c rd imm) else None
  | Movt rd imm => if has_v7 arch && no_pc [rd] then Some (set_greg c rd ((imm .<< 16) .| u16 (greg c rd))) else None
  | Mul rd rn rm =>
      if no_pc [rd; rn; rm] && (has_v6 arch || negb (rd =? rn)) then Some (set_greg c rd (u32 (greg c rn * greg c rm))) else None
  | Mull signed lo hi rn rm =>
      if no_pc [lo; hi; rn; rm] && negb (lo =? hi) && (has_v6 arch || negb ((lo =? rn) || (hi =? rn))) then
        let p := if signed then s32 (greg c rn) * s32 (greg c rm) else greg c rn * greg c rm in
        Some (set_greg (set_greg c lo (u32 p)) hi (u32 (p .>> 32)))
      else None
  | Divide signed rd rn rm =>
      if has_idiv arch && no_pc [rd; rn; rm] then
        Some (set_greg c rd
                (if greg c rm =? 0 then 0
                 else if signed then u32 (Z.quot (s32 (greg c rn)) (s32 (greg c rm))) else greg c rn / greg c rm))
      else None
  | Extend e rd rm =>
      if has_v6 arch && no_pc [rd; rm] then
        let x := greg c rm in
        Some (set_greg c rd (match e with SXTB => u32 (s8 x) | SXTH => u32 (s16 x) | UXTH => u16 x end))
      else None
  | Reverse e rd rm =>
      if has_v6 arch && no_pc [rd; rm] then
        let x := greg c rm in
        Some (set_greg c rd
                (match e with
                 | REV => u8 (x .>> 24) .| (u8 (x .>> 16) .<< 8) .| (u8 (x .>> 8) .<< 16) .| (u8 x .<< 24)
                 | REV16 => rev16_value x
                 | REVSH => u32 (s16 (rev16_value x))
                 end))
      else None
  | Bfi rd rn lsb msb =>
      if has_v7 arch && no_pc [rd] && (lsb <=? msb) then
        Some (set_greg c rd (deposit32 (greg c rd) lsb (msb + 1 - lsb) (if rn =? 15 then 0 else greg c rn)))
      else None
  | Load size signed rt rn up o =>
      if no_pc [rt; rn] then
        let? a := address c rn up o in
        let v := load c size a in
        if aligned arch size a then Some (set_greg c rt (if signed then u32 (swrap size v) else v)) else None
      else None
  | Store size rt rn up o =>
      if no_pc [rt; rn] then
        let? a := address c rn up o in
        if aligned arch size a then Some (set_bytes c (store_bytes (bytes c) size a (greg c rt))) else None
      else None
  | LoadPre rt rn rm up =>
      if pre_indexed arch rt rn rm then
        let? a := address c rn up (OffReg rm) in
        if aligned arch 32 a then Some (set_greg (set_greg c rn a) rt (load c 32 a)) else None
      else None
  | StorePre rt rn rm up =>
      if pre_indexed arch rt rn rm then
        let? a := address c rn up (OffReg rm) in
        if aligned arch 32 a then Some (set_bytes (set_greg c rn a) (store_bytes (bytes c) 32 a (greg c rt))) else None
      else None
  end.

(** [ConditionPassed] *)
Definition cond_passed (cond : Z) (c : cpu) : option bool :=
  match cond with
  | 0 => Some (flagZ c)
  | 1 => Some (negb (flagZ c))
  | 2 => Some (flagC c)
  | 3 => Some (negb (flagC c))
  | 4 => Some (flagN c)
  | 5 => Some (negb (flagN c))
  | 6 => Some (flagV c)
  | 7 => Some (negb (flagV c))
  | 8 => Some (flagC c && negb (flagZ c))
  | 9 => Some (negb (flagC c && negb (flagZ c)))
  | 10 => Some (Bool.eqb (flagN c) (flagV c))
  | 11 => Some (negb (Bool.eqb (flagN c) (flagV c)))
  | 12 => Some (Bool.eqb (flagN c) (flagV c) && negb (flagZ c))
  | 13 => Some (negb (Bool.eqb (flagN c) (flagV c) && negb (flagZ c)))
  | 14 => Some true
  | _ => None
  end.

Definition step (arch : arm_arch) (w : Z) (c : cpu) : option cpu :=
  let? i := decode w in
  let? b := cond_passed (bits w 28 4) c in
  if b then exec arch i c else Some c.

Fixpoint run_words (arch : arm_arch) (ws : list Z) (c : cpu) : option cpu :=
  match ws with
  | [] => Some c
  | w :: ws => let? c := step arch w c in run_words arch ws c
  end.
