(* ===== verification/TcgArmOut.v ===== *)
(** * The instructions of the ARM back end (tcg/arm/tcg-target.inc.c)

    The words that [tcg_out_op] and the functions below it append to the code
    of a block.  [None] is [tcg_abort] or a failed assertion.  Branches,
    exits and calls, whose words depend on their place, are in TcgArmBranch.v. *)

From Stdlib Require Import ZArith Lia List Bool.
From S2P Require Import Prelude Bitops TcgIr TcgRegAlloc TcgArm.
Import ListNotations.
Local Open Scope Z_scope.
Local Open Scope c_scope.

(** [use_armv6_instructions], [use_armv7_instructions] and [guest_base] *)
Record arm_host := mkHost { use_armv6_instructions : bool; use_armv7_instructions : bool; guest_base : Z }.

Definition TO_CPSR : Z := 1 .<< 20.
Definition ARITH_AND : Z := 0x0 .<< 21.
Definition ARITH_EOR : Z := 0x1 .<< 21.
Definition ARITH_SUB : Z := 0x2 .<< 21.
Definition ARITH_RSB : Z := 0x3 .<< 21.
Definition ARITH_ADD : Z := 0x4 .<< 21.
Definition ARITH_ADC : Z := 0x5 .<< 21.
Definition ARITH_SBC : Z := 0x6 .<< 21.
Definition ARITH_RSC : Z := 0x7 .<< 21.
Definition ARITH_TST : Z := (0x8 .<< 21) .| TO_CPSR.
Definition ARITH_CMP : Z := (0xa .<< 21) .| TO_CPSR.
Definition ARITH_CMN : Z := (0xb .<< 21) .| TO_CPSR.
Definition ARITH_ORR : Z := 0xc .<< 21.
Definition ARITH_MOV : Z := 0xd .<< 21.
Definition ARITH_BIC : Z := 0xe .<< 21.
Definition ARITH_MVN : Z := 0xf .<< 21.

Definition INSN_LDR_IMM : Z := 0x04100000.
Definition INSN_LDR_REG : Z := 0x06100000.
Definition INSN_STR_IMM : Z := 0x04000000.
Definition INSN_STR_REG : Z := 0x06000000.
Definition INSN_LDRH_IMM : Z := 0x005000b0.
Definition INSN_LDRH_REG : Z := 0x001000b0.
Definition INSN_LDRSH_IMM : Z := 0x005000f0.
Definition INSN_LDRSH_REG : Z := 0x001000f0.
Definition INSN_STRH_IMM : Z := 0x004000b0.
Definition INSN_STRH_REG : Z := 0x000000b0.
Definition INSN_LDRB_IMM : Z := 0x04500000.
Definition INSN_LDRB_REG : Z := 0x06500000.
Definition INSN_LDRSB_IMM : Z := 0x005000d0.
Definition INSN_LDRSB_REG : Z := 0x001000d0.
Definition INSN_STRB_IMM : Z := 0x04400000.
Definition INSN_STRB_REG : Z := 0x06400000.

Definition SHIFT_IMM_LSL (im : Z) : Z := (im .<< 7) .| 0x00.
Definition SHIFT_IMM_LSR (im : Z) : Z := (im .<< 7) .| 0x20.
Definition SHIFT_IMM_ASR (im : Z) : Z := (im .<< 7) .| 0x40.
Definition SHIFT_IMM_ROR (im : Z) : Z := (im .<< 7) .| 0x60.
Definition SHIFT_REG_LSL (rs : Z) : Z := (rs .<< 8) .| 0x10.
Definition SHIFT_REG_LSR (rs : Z) : Z := (rs .<< 8) .| 0x30.
Definition SHIFT_REG_ASR (rs : Z) : Z := (rs .<< 8) .| 0x50.
Definition SHIFT_REG_ROR (rs : Z) : Z := (rs .<< 8) .| 0x70.

Definition COND_EQ : Z := 0x0.
Definition COND_NE : Z := 0x1.
Definition COND_CS : Z := 0x2.
Definition COND_CC : Z := 0x3.
Definition COND_HI : Z := 0x8.
Definition COND_LS : Z := 0x9.
Definition COND_GE : Z := 0xa.
Definition COND_LT : Z := 0xb.
Definition COND_GT : Z := 0xc.
Definition COND_LE : Z := 0xd.
Definition COND_AL : Z := 0xe.

(** Entries that are not given are zero. *)
Definition tcg_cond_to_arm_cond (c : Z) : Z :=
  if c =? TCG_COND_EQ then COND_EQ
  else if c =? TCG_COND_NE then COND_NE
  else if c =? TCG_COND_LT then COND_LT
  else if c =? TCG_COND_GE then COND_GE
  else if c =? TCG_COND_LE then COND_LE
  else if c =? TCG_COND_GT then COND_GT
  else if c =? TCG_COND_LTU then COND_CC
  else if c =? TCG_COND_GEU then COND_CS
  else if c =? TCG_COND_LEU then COND_LS
  else if c =? TCG_COND_GTU then COND_HI
  else 0.

(** ** Words *)

(** The code so far is what a function returns. *)
Definition out := option (list Z).
Definition tcg_out32 (v : Z) : out := Some [u32 v].
Definition nothing : out := Some [].
Definition andthen (x y : out) : out := let? a := x in let? b := y in Some (a ++ b).

Declare Scope out_scope.
Delimit Scope out_scope with out.
Notation "x ;; y" := (andthen x y) (at level 61, right associativity) : out_scope.
Local Open Scope out_scope.

Definition tcg_out_dat_reg (cond opc rd rn rm shift : Z) : out :=
  tcg_out32 ((cond .<< 28) .| (0 .<< 25) .| opc .| (rn .<< 16) .| (rd .<< 12) .| shift .| rm).

Definition tcg_out_mov_reg (cond rd rm : Z) : out :=
  if rd =? rm then nothing else tcg_out_dat_reg cond ARITH_MOV rd 0 rm (SHIFT_IMM_LSL 0).

Definition tcg_out_dat_imm (cond opc rd rn im : Z) : out :=
  tcg_out32 ((cond .<< 28) .| (1 .<< 25) .| opc .| (rn .<< 16) .| (rd .<< 12) .| im).

Definition clz32 (v : Z) : Z := if v =? 0 then 32 else 31 - Z.log2 v.

(** [TCGMemOp] *)
Definition MO_8 : Z := 0.
Definition MO_16 : Z := 1.
Definition MO_64 : Z := 3.
Definition MO_BSWAP : Z := 8.
Definition MO_UB : Z := MO_8.
Definition MO_UW : Z := MO_16.
Definition MO_SB : Z := MO_SIGN .| MO_8.
Definition MO_SW : Z := MO_SIGN .| MO_16.
Definition MO_Q : Z := MO_64.
Definition MO_SSIZE : Z := MO_SIZE .| MO_SIGN.

Definition TCG_REG_R0 : Z := 0.

Section Host.
Variable host : arm_host.

(** The pieces of a constant, from the lowest bits on; each round clears at
    least eight bits. *)
Fixpoint movi_pieces (fuel : nat) (cond opc rd rn arg : Z) : out :=
  match fuel with
  | O => None
  | S fuel =>
      let i := ctz32 arg .& Z.lnot 1 in
      let rot := ((32 - i) .<< 7) .& 0xf00 in
      tcg_out_dat_imm cond opc rd rn (((arg .>> i) .& 0xff) .| rot) ;;
      let arg := u32 (arg .& Z.lnot (0xff .<< i)) in
      if truthy arg then movi_pieces fuel cond ARITH_EOR rd rd arg else nothing
  end.

Definition tcg_out_movi32 (cond rd arg : Z) : out :=
  let arg := u32 arg in
  let inverse := u32 (Z.lnot arg) in
  let try_imm := negb (use_armv7_instructions host) || truthy (arg .& 0xffff0000) in
  let rot := encode_imm arg in
  let rot' := encode_imm inverse in
  if try_imm && (0 <=? rot) then tcg_out_dat_imm cond ARITH_MOV rd 0 (rotl arg rot .| (rot .<< 7))
  else if try_imm && (0 <=? rot') then tcg_out_dat_imm cond ARITH_MVN rd 0 (rotl inverse rot' .| (rot' .<< 7))
  else if use_armv7_instructions host then
    tcg_out32 ((cond .<< 28) .| 0x03000000 .| (rd .<< 12) .| ((arg .<< 4) .& 0x000f0000) .| (arg .& 0xfff)) ;;
    if truthy (arg .& 0xffff0000) then
      tcg_out32 ((cond .<< 28) .| 0x03400000 .| (rd .<< 12) .| ((arg .>> 12) .& 0x000f0000) .| ((arg .>> 16) .& 0xfff))
    else nothing
  else if clz32 arg <? clz32 inverse then movi_pieces 4 cond ARITH_MVN rd 0 inverse
  else movi_pieces 4 cond ARITH_MOV rd 0 arg.

(** ** Data processing *)

Definition tcg_out_dat_rI (cond opc dst lhs rhs : Z) (rhs_is_const : bool) : out :=
  if rhs_is_const then
    let rhs := u32 rhs in
    let rot := encode_imm rhs in
    if 0 <=? rot then tcg_out_dat_imm cond opc dst lhs (rotl rhs rot .| (rot .<< 7)) else None
  else tcg_out_dat_reg cond opc dst lhs rhs (SHIFT_IMM_LSL 0).

(** With [other rhs] instead when [rhs] cannot be encoded. *)
Definition dat_either (other : Z -> Z) (cond opc opother dst lhs rhs : Z) (rhs_is_const : bool) : out :=
  if rhs_is_const then
    let rhs := u32 rhs in
    let rot := encode_imm rhs in
    if rot <? 0 then
      let rhs := u32 (other rhs) in
      let rot := encode_imm rhs in
      if 0 <=? rot then tcg_out_dat_imm cond opother dst lhs (rotl rhs rot .| (rot .<< 7)) else None
    else tcg_out_dat_imm cond opc dst lhs (rotl rhs rot .| (rot .<< 7))
  else tcg_out_dat_reg cond opc dst lhs rhs (SHIFT_IMM_LSL 0).

Definition tcg_out_dat_rIK : Z -> Z -> Z -> Z -> Z -> Z -> bool -> out := dat_either Z.lnot.
Definition tcg_out_dat_rIN : Z -> Z -> Z -> Z -> Z -> Z -> bool -> out := dat_either Z.opp.

Definition tcg_out_mul32 (cond rd rn rm : Z) : out :=
  let mul rn rm := tcg_out32 ((cond .<< 28) .| 0x90 .| (rd .<< 16) .| (rm .<< 8) .| rn) in
  if negb (use_armv6_instructions host) && (rd =? rn) then
    if rd =? rm then tcg_out_mov_reg cond TCG_REG_TMP rn ;; mul TCG_REG_TMP TCG_REG_TMP
    else mul rm rd
  else mul rn rm.

(** [tcg_out_umull32] and [tcg_out_smull32] differ in [insn]. *)
Definition mull32 (insn cond rd0 rd1 rn rm : Z) : out :=
  let mull rn rm := tcg_out32 ((cond .<< 28) .| insn .| (rd1 .<< 16) .| (rd0 .<< 12) .| (rm .<< 8) .| rn) in
  if negb (use_armv6_instructions host) && ((rd0 =? rn) || (rd1 =? rn)) then
    if (rd0 =? rm) || (rd1 =? rm) then tcg_out_mov_reg cond TCG_REG_TMP rn ;; mull TCG_REG_TMP rm
    else mull rm rn
  else mull rn rm.
Definition tcg_out_umull32 : Z -> Z -> Z -> Z -> Z -> out := mull32 0x00800090.
Definition tcg_out_smull32 : Z -> Z -> Z -> Z -> Z -> out := mull32 0x00c00090.

Definition tcg_out_sdiv (cond rd rn rm : Z) : out :=
  tcg_out32 (0x0710f010 .| (cond .<< 28) .| (rd .<< 16) .| rn .| (rm .<< 8)).
Definition tcg_out_udiv (cond rd rn rm : Z) : out :=
  tcg_out32 (0x0730f010 .| (cond .<< 28) .| (rd .<< 16) .| rn .| (rm .<< 8)).

Definition tcg_out_ext8s (cond rd rn : Z) : out :=
  if use_armv6_instructions host then tcg_out32 (0x06af0070 .| (cond .<< 28) .| (rd .<< 12) .| rn)
  else
    tcg_out_dat_reg cond ARITH_MOV rd 0 rn (SHIFT_IMM_LSL 24) ;;
    tcg_out_dat_reg cond ARITH_MOV rd 0 rd (SHIFT_IMM_ASR 24).

Definition tcg_out_ext16s (cond rd rn : Z) : out :=
  if use_armv6_instructions host then tcg_out32 (0x06bf0070 .| (cond .<< 28) .| (rd .<< 12) .| rn)
  else
    tcg_out_dat_reg cond ARITH_MOV rd 0 rn (SHIFT_IMM_LSL 16) ;;
    tcg_out_dat_reg cond ARITH_MOV rd 0 rd (SHIFT_IMM_ASR 16).

Definition tcg_out_ext16u (cond rd rn : Z) : out :=
  if use_armv6_instructions host then tcg_out32 (0x06ff0070 .| (cond .<< 28) .| (rd .<< 12) .| rn)
  else
    tcg_out_dat_reg cond ARITH_MOV rd 0 rn (SHIFT_IMM_LSL 16) ;;
    tcg_out_dat_reg cond ARITH_MOV rd 0 rd (SHIFT_IMM_LSR 16).

Definition tcg_out_bswap16s (cond rd rn : Z) : out :=
  if use_armv6_instructions host then tcg_out32 (0x06ff0fb0 .| (cond .<< 28) .| (rd .<< 12) .| rn)
  else
    tcg_out_dat_reg cond ARITH_MOV TCG_REG_TMP 0 rn (SHIFT_IMM_LSL 24) ;;
    tcg_out_dat_reg cond ARITH_MOV TCG_REG_TMP 0 TCG_REG_TMP (SHIFT_IMM_ASR 16) ;;
    tcg_out_dat_reg cond ARITH_ORR rd TCG_REG_TMP rn (SHIFT_IMM_LSR 8).

Definition tcg_out_bswap16 (cond rd rn : Z) : out :=
  if use_armv6_instructions host then tcg_out32 (0x06bf0fb0 .| (cond .<< 28) .| (rd .<< 12) .| rn)
  else
    tcg_out_dat_reg cond ARITH_MOV TCG_REG_TMP 0 rn (SHIFT_IMM_LSL 24) ;;
    tcg_out_dat_reg cond ARITH_MOV TCG_REG_TMP 0 TCG_REG_TMP (SHIFT_IMM_LSR 16) ;;
    tcg_out_dat_reg cond ARITH_ORR rd TCG_REG_TMP rn (SHIFT_IMM_LSR 8).

Definition tcg_out_bswap16st (cond rd rn : Z) : out :=
  if use_armv6_instructions host then tcg_out32 (0x06bf0fb0 .| (cond .<< 28) .| (rd .<< 12) .| rn)
  else
    tcg_out_dat_reg cond ARITH_MOV TCG_REG_TMP 0 rn (SHIFT_IMM_LSR 8) ;;
    tcg_out_dat_imm cond ARITH_AND TCG_REG_TMP TCG_REG_TMP 0xff ;;
    tcg_out_dat_reg cond ARITH_ORR rd TCG_REG_TMP rn (SHIFT_IMM_LSL 8).

Definition tcg_out_bswap32 (cond rd rn : Z) : out :=
  if use_armv6_instructions host then tcg_out32 (0x06bf0f30 .| (cond .<< 28) .| (rd .<< 12) .| rn)
  else
    tcg_out_dat_reg cond ARITH_EOR TCG_REG_TMP rn rn (SHIFT_IMM_ROR 16) ;;
    tcg_out_dat_imm cond ARITH_BIC TCG_REG_TMP TCG_REG_TMP (0xff .| 0x800) ;;
    tcg_out_dat_reg cond ARITH_MOV rd 0 rn (SHIFT_IMM_ROR 8) ;;
    tcg_out_dat_reg cond ARITH_EOR rd rd TCG_REG_TMP (SHIFT_IMM_LSR 8).

Definition tcg_target_deposit_valid (ofs len : Z) : bool := use_armv7_instructions host.

Definition tcg_out_deposit (cond rd a1 ofs len : Z) (const_a1 : bool) : out :=
  let a1 := if const_a1 then 15 else a1 in
  tcg_out32 (0x07c00010 .| (cond .<< 28) .| (rd .<< 12) .| a1 .| (ofs .<< 7) .| ((ofs + len - 1) .<< 16)).

(** ** Memory *)

Definition tcg_out_memop_r (cond opc rt rn rm : Z) (u p w : bool) : out :=
  tcg_out32 ((cond .<< 28) .| opc .| (b2z u .<< 23) .| (b2z p .<< 24) .| (b2z w .<< 21) .| (rn .<< 16) .| (rt .<< 12) .| rm).

Definition tcg_out_memop_8 (cond opc rt rn imm8 : Z) (p w : bool) : out :=
  let u := negb (imm8 <? 0) in
  let imm8 := Z.abs imm8 in
  tcg_out32 ((cond .<< 28) .| opc .| (b2z u .<< 23) .| (b2z p .<< 24) .| (b2z w .<< 21) .| (rn .<< 16) .| (rt .<< 12)
             .| ((imm8 .& 0xf0) .<< 4) .| (imm8 .& 0xf)).

Definition tcg_out_memop_12 (cond opc rt rn imm12 : Z) (p w : bool) : out :=
  let u := negb (imm12 <? 0) in
  let imm12 := Z.abs imm12 in
  tcg_out32 ((cond .<< 28) .| opc .| (b2z u .<< 23) .| (b2z p .<< 24) .| (b2z w .<< 21) .| (rn .<< 16) .| (rt .<< 12) .| imm12).

Definition tcg_out_ld32_12 (cond rt rn imm12 : Z) : out := tcg_out_memop_12 cond INSN_LDR_IMM rt rn imm12 true false.
Definition tcg_out_st32_12 (cond rt rn imm12 : Z) : out := tcg_out_memop_12 cond INSN_STR_IMM rt rn imm12 true false.
Definition tcg_out_ld32_r (cond rt rn rm : Z) : out := tcg_out_memop_r cond INSN_LDR_REG rt rn rm true true false.
Definition tcg_out_st32_r (cond rt rn rm : Z) : out := tcg_out_memop_r cond INSN_STR_REG rt rn rm true true false.
(** Register pre-increment with base writeback. *)
Definition tcg_out_ld32_rwb (cond rt rn rm : Z) : out := tcg_out_memop_r cond INSN_LDR_REG rt rn rm true true true.
Definition tcg_out_st32_rwb (cond rt rn rm : Z) : out := tcg_out_memop_r cond INSN_STR_REG rt rn rm true true true.
Definition tcg_out_ld16u_8 (cond rt rn imm8 : Z) : out := tcg_out_memop_8 cond INSN_LDRH_IMM rt rn imm8 true false.
Definition tcg_out_st16_8 (cond rt rn imm8 : Z) : out := tcg_out_memop_8 cond INSN_STRH_IMM rt rn imm8 true false.
Definition tcg_out_ld16u_r (cond rt rn rm : Z) : out := tcg_out_memop_r cond INSN_LDRH_REG rt rn rm true true false.
Definition tcg_out_st16_r (cond rt rn rm : Z) : out := tcg_out_memop_r cond INSN_STRH_REG rt rn rm true true false.
Definition tcg_out_ld16s_8 (cond rt rn imm8 : Z) : out := tcg_out_memop_8 cond INSN_LDRSH_IMM rt rn imm8 true false.
Definition tcg_out_ld16s_r (cond rt rn rm : Z) : out := tcg_out_memop_r cond INSN_LDRSH_REG rt rn rm true true false.
Definition tcg_out_ld8_12 (cond rt rn imm12 : Z) : out := tcg_out_memop_12 cond INSN_LDRB_IMM rt rn imm12 true false.
Definition tcg_out_st8_12 (cond rt rn imm12 : Z) : out := tcg_out_memop_12 cond INSN_STRB_IMM rt rn imm12 true false.
Definition tcg_out_ld8_r (cond rt rn rm : Z) : out := tcg_out_memop_r cond INSN_LDRB_REG rt rn rm true true false.
Definition tcg_out_st8_r (cond rt rn rm : Z) : out := tcg_out_memop_r cond INSN_STRB_REG rt rn rm true true false.
Definition tcg_out_ld8s_8 (cond rt rn imm8 : Z) : out := tcg_out_memop_8 cond INSN_LDRSB_IMM rt rn imm8 true false.
Definition tcg_out_ld8s_r (cond rt rn rm : Z) : out := tcg_out_memop_r cond INSN_LDRSB_REG rt rn rm true true false.

Definition tcg_out_ld32u (cond rd rn offset : Z) : out :=
  if (0xfff <? offset) || (offset <? - 0xfff) then
    tcg_out_movi32 cond TCG_REG_TMP offset ;; tcg_out_ld32_r cond rd rn TCG_REG_TMP
  else tcg_out_ld32_12 cond rd rn offset.

Definition tcg_out_st32 (cond rd rn offset : Z) : out :=
  if (0xfff <? offset) || (offset <? - 0xfff) then
    tcg_out_movi32 cond TCG_REG_TMP offset ;; tcg_out_st32_r cond rd rn TCG_REG_TMP
  else tcg_out_st32_12 cond rd rn offset.

Definition tcg_out_ld16u (cond rd rn offset : Z) : out :=
  if (0xff <? offset) || (offset <? - 0xff) then
    tcg_out_movi32 cond TCG_REG_TMP offset ;; tcg_out_ld16u_r cond rd rn TCG_REG_TMP
  else tcg_out_ld16u_8 cond rd rn offset.

Definition tcg_out_ld16s (cond rd rn offset : Z) : out :=
  if (0xff <? offset) || (offset <? - 0xff) then
    tcg_out_movi32 cond TCG_REG_TMP offset ;; tcg_out_ld16s_r cond rd rn TCG_REG_TMP
  else tcg_out_ld16s_8 cond rd rn offset.

Definition tcg_out_st16 (cond rd rn offset : Z) : out :=
  if (0xff <? offset) || (offset <? - 0xff) then
    tcg_out_movi32 cond TCG_REG_TMP offset ;; tcg_out_st16_r cond rd rn TCG_REG_TMP
  else tcg_out_st16_8 cond rd rn offset.

Definition tcg_out_ld8u (cond rd rn offset : Z) : out :=
  if (0xfff <? offset) || (offset <? - 0xfff) then
    tcg_out_movi32 cond TCG_REG_TMP offset ;; tcg_out_ld8_r cond rd rn TCG_REG_TMP
  else tcg_out_ld8_12 cond rd rn offset.

Definition tcg_out_ld8s (cond rd rn offset : Z) : out :=
  if (0xff <? offset) || (offset <? - 0xff) then
    tcg_out_movi32 cond TCG_REG_TMP offset ;; tcg_out_ld8s_r cond rd rn TCG_REG_TMP
  else tcg_out_ld8s_8 cond rd rn offset.

Definition tcg_out_st8 (cond rd rn offset : Z) : out :=
  if (0xfff <? offset) || (offset <? - 0xfff) then
    tcg_out_movi32 cond TCG_REG_TMP offset ;; tcg_out_st8_r cond rd rn TCG_REG_TMP
  else tcg_out_st8_12 cond rd rn offset.

(** ** Guest memory, without CONFIG_SOFTMMU *)

Definition tcg_out_qemu_ld_index (opc datalo datahi addrlo addend : Z) : out :=
  let bswap := truthy (opc .& MO_BSWAP) in
  let swap o := if bswap then o else nothing in
  let ssize := opc .& MO_SSIZE in
  if ssize =? MO_UB then tcg_out_ld8_r COND_AL datalo addrlo addend
  else if ssize =? MO_SB then tcg_out_ld8s_r COND_AL datalo addrlo addend
  else if ssize =? MO_UW then tcg_out_ld16u_r COND_AL datalo addrlo addend ;; swap (tcg_out_bswap16 COND_AL datalo datalo)
  else if ssize =? MO_SW then
    if bswap then tcg_out_ld16u_r COND_AL datalo addrlo addend ;; tcg_out_bswap16s COND_AL datalo datalo
    else tcg_out_ld16s_r COND_AL datalo addrlo addend
  else if ssize =? MO_Q then
    let dl := if bswap then datahi else datalo in
    let dh := if bswap then datalo else datahi in
    (if negb (dl =? addend) then
       tcg_out_ld32_rwb COND_AL dl addend addrlo ;; tcg_out_ld32_12 COND_AL dh addend 4
     else
       tcg_out_dat_reg COND_AL ARITH_ADD TCG_REG_TMP addend addrlo (SHIFT_IMM_LSL 0) ;;
       tcg_out_ld32_12 COND_AL dl TCG_REG_TMP 0 ;; tcg_out_ld32_12 COND_AL dh TCG_REG_TMP 4) ;;
    swap (tcg_out_bswap32 COND_AL dl dl ;; tcg_out_bswap32 COND_AL dh dh)
  else tcg_out_ld32_r COND_AL datalo addrlo addend ;; swap (tcg_out_bswap32 COND_AL datalo datalo).

Definition tcg_out_qemu_ld_direct (opc datalo datahi addrlo : Z) : out :=
  let bswap := truthy (opc .& MO_BSWAP) in
  let swap o := if bswap then o else nothing in
  let ssize := opc .& MO_SSIZE in
  if ssize =? MO_UB then tcg_out_ld8_12 COND_AL datalo addrlo 0
  else if ssize =? MO_SB then tcg_out_ld8s_8 COND_AL datalo addrlo 0
  else if ssize =? MO_UW then tcg_out_ld16u_8 COND_AL datalo addrlo 0 ;; swap (tcg_out_bswap16 COND_AL datalo datalo)
  else if ssize =? MO_SW then
    if bswap then tcg_out_ld16u_8 COND_AL datalo addrlo 0 ;; tcg_out_bswap16s COND_AL datalo datalo
    else tcg_out_ld16s_8 COND_AL datalo addrlo 0
  else if ssize =? MO_Q then
    let dl := if bswap then datahi else datalo in
    let dh := if bswap then datalo else datahi in
    (if dl =? addrlo then
       tcg_out_ld32_12 COND_AL dh addrlo (if bswap then 0 else 4) ;; tcg_out_ld32_12 COND_AL dl addrlo (if bswap then 4 else 0)
     else
       tcg_out_ld32_12 COND_AL dl addrlo (if bswap then 4 else 0) ;; tcg_out_ld32_12 COND_AL dh addrlo (if bswap then 0 else 4)) ;;
    swap (tcg_out_bswap32 COND_AL dl dl ;; tcg_out_bswap32 COND_AL dh dh)
  else tcg_out_ld32_12 COND_AL datalo addrlo 0 ;; swap (tcg_out_bswap32 COND_AL datalo datalo).

(** TARGET_LONG_BITS is 32. *)
Definition tcg_out_qemu_ld (args : list Z) (is64 : bool) : out :=
  let datalo := nth 0 args 0 in
  let datahi := if is64 then nth 1 args 0 else 0 in
  let args := skipn (if is64 then 2 else 1) args in
  let addrlo := nth 0 args 0 in
  let opc := get_memop (nth 1 args 0) in
  if truthy (guest_base host) then
    tcg_out_movi32 COND_AL TCG_REG_TMP (guest_base host) ;; tcg_out_qemu_ld_index opc datalo datahi addrlo TCG_REG_TMP
  else tcg_out_qemu_ld_direct opc datalo datahi addrlo.

Definition tcg_out_qemu_st_index (cond opc datalo datahi addrlo addend : Z) : out :=
  let bswap := truthy (opc .& MO_BSWAP) in
  let size := opc .& MO_SIZE in
  if size =? MO_8 then tcg_out_st8_r cond datalo addrlo addend
  else if size =? MO_16 then
    if bswap then tcg_out_bswap16st cond TCG_REG_R0 datalo ;; tcg_out_st16_r cond TCG_REG_R0 addrlo addend
    else tcg_out_st16_r cond datalo addrlo addend
  else if size =? MO_64 then
    if bswap then
      tcg_out_bswap32 cond TCG_REG_R0 datahi ;; tcg_out_st32_rwb cond TCG_REG_R0 addend addrlo ;;
      tcg_out_bswap32 cond TCG_REG_R0 datalo ;; tcg_out_st32_12 cond TCG_REG_R0 addend 4
    else tcg_out_st32_rwb cond datalo addend addrlo ;; tcg_out_st32_12 cond datahi addend 4
  else if bswap then tcg_out_bswap32 cond TCG_REG_R0 datalo ;; tcg_out_st32_r cond TCG_REG_R0 addrlo addend
  else tcg_out_st32_r cond datalo addrlo addend.

Definition tcg_out_qemu_st_direct (opc datalo datahi addrlo : Z) : out :=
  let bswap := truthy (opc .& MO_BSWAP) in
  let size := opc .& MO_SIZE in
  if size =? MO_8 then tcg_out_st8_12 COND_AL datalo addrlo 0
  else if size =? MO_16 then
    if bswap then tcg_out_bswap16st COND_AL TCG_REG_R0 datalo ;; tcg_out_st16_8 COND_AL TCG_REG_R0 addrlo 0
    else tcg_out_st16_8 COND_AL datalo addrlo 0
  else if size =? MO_64 then
    if bswap then
      tcg_out_bswap32 COND_AL TCG_REG_R0 datahi ;; tcg_out_st32_12 COND_AL TCG_REG_R0 addrlo 0 ;;
      tcg_out_bswap32 COND_AL TCG_REG_R0 datalo ;; tcg_out_st32_12 COND_AL TCG_REG_R0 addrlo 4
    else tcg_out_st32_12 COND_AL datalo addrlo 0 ;; tcg_out_st32_12 COND_AL datahi addrlo 4
  else if bswap then tcg_out_bswap32 COND_AL TCG_REG_R0 datalo ;; tcg_out_st32_12 COND_AL TCG_REG_R0 addrlo 0
  else tcg_out_st32_12 COND_AL datalo addrlo 0.

Definition tcg_out_qemu_st (args : list Z) (is64 : bool) : out :=
  let datalo := nth 0 args 0 in
  let datahi := if is64 then nth 1 args 0 else 0 in
  let args := skipn (if is64 then 2 else 1) args in
  let addrlo := nth 0 args 0 in
  let opc := get_memop (nth 1 args 0) in
  if truthy (guest_base host) then
    tcg_out_movi32 COND_AL TCG_REG_TMP (guest_base host) ;; tcg_out_qemu_st_index COND_AL opc datalo datahi addrlo TCG_REG_TMP
  else tcg_out_qemu_st_direct opc datalo datahi addrlo.

(** ** Operations *)

(** [gen_shift32] with its [c]; a shift by 0 is a move. *)
Definition out_shift (args : list Z) (const : bool) (imm reg : Z -> Z) : out :=
  let a i := nth i args 0 in
  let c := if const then if truthy (a 2%nat .& 0x1f) then imm (a 2%nat .& 0x1f) else SHIFT_IMM_LSL 0 else reg (a 2%nat) in
  tcg_out_dat_reg COND_AL ARITH_MOV (a 0%nat) 0 (a 1%nat) c.

Definition out_add2 (args : list Z) (const_args : list bool) : out :=
  let a i := nth i args 0 in
  let k i := nth i const_args false in
  let a0 := if (a 0%nat =? a 3%nat) || ((a 0%nat =? a 5%nat) && negb (k 5%nat)) then TCG_REG_TMP else a 0%nat in
  tcg_out_dat_rIN COND_AL (ARITH_ADD .| TO_CPSR) (ARITH_SUB .| TO_CPSR) a0 (a 2%nat) (a 4%nat) (k 4%nat) ;;
  tcg_out_dat_rIK COND_AL ARITH_ADC ARITH_SBC (a 1%nat) (a 3%nat) (a 5%nat) (k 5%nat) ;;
  tcg_out_mov_reg COND_AL (a 0%nat) a0.

Definition out_sub2 (args : list Z) (const_args : list bool) : out :=
  let a i := nth i args 0 in
  let k i := nth i const_args false in
  let a0 := if ((a 0%nat =? a 3%nat) && negb (k 3%nat)) || ((a 0%nat =? a 5%nat) && negb (k 5%nat)) then TCG_REG_TMP else a 0%nat in
  (if k 2%nat then
     (if k 4%nat then tcg_out_movi32 COND_AL a0 (a 4%nat) else nothing) ;;
     tcg_out_dat_rI COND_AL (ARITH_RSB .| TO_CPSR) a0 (if k 4%nat then a0 else a 4%nat) (a 2%nat) true
   else tcg_out_dat_rIN COND_AL (ARITH_SUB .| TO_CPSR) (ARITH_ADD .| TO_CPSR) a0 (a 2%nat) (a 4%nat) (k 4%nat)) ;;
  (if k 3%nat then
     (if k 5%nat then tcg_out_movi32 COND_AL (a 1%nat) (a 5%nat) else nothing) ;;
     tcg_out_dat_rI COND_AL ARITH_RSC (a 1%nat) (if k 5%nat then a 1%nat else a 5%nat) (a 3%nat) true
   else tcg_out_dat_rIK COND_AL ARITH_SBC ARITH_ADC (a 1%nat) (a 3%nat) (a 5%nat) (k 5%nat)) ;;
  tcg_out_mov_reg COND_AL (a 0%nat) a0.

(** Branches and exits depend on their place: [tcg_out_op_at] of TcgArmBranch.v. *)
Definition tcg_out_op (opc : TCGOpcode) (args : list Z) (const_args : list bool) : out :=
  let a i := nth i args 0 in
  let k i := nth i const_args false in
  match opc with
  | ld8u_i32 => tcg_out_ld8u COND_AL (a 0%nat) (a 1%nat) (s32 (a 2%nat))
  | ld8s_i32 => tcg_out_ld8s COND_AL (a 0%nat) (a 1%nat) (s32 (a 2%nat))
  | ld16u_i32 => tcg_out_ld16u COND_AL (a 0%nat) (a 1%nat) (s32 (a 2%nat))
  | ld16s_i32 => tcg_out_ld16s COND_AL (a 0%nat) (a 1%nat) (s32 (a 2%nat))
  | ld_i32 => tcg_out_ld32u COND_AL (a 0%nat) (a 1%nat) (s32 (a 2%nat))
  | st8_i32 => tcg_out_st8 COND_AL (a 0%nat) (a 1%nat) (s32 (a 2%nat))
  | st16_i32 => tcg_out_st16 COND_AL (a 0%nat) (a 1%nat) (s32 (a 2%nat))
  | st_i32 => tcg_out_st32 COND_AL (a 0%nat) (a 1%nat) (s32 (a 2%nat))
  | movcond_i32 =>
      tcg_out_dat_rIN COND_AL ARITH_CMP ARITH_CMN 0 (a 1%nat) (a 2%nat) (k 2%nat) ;;
      tcg_out_dat_rIK (tcg_cond_to_arm_cond (a 5%nat)) ARITH_MOV ARITH_MVN (a 0%nat) 0 (a 3%nat) (k 3%nat)
  | add_i32 => tcg_out_dat_rIN COND_AL ARITH_ADD ARITH_SUB (a 0%nat) (a 1%nat) (a 2%nat) (k 2%nat)
  | sub_i32 =>
      if k 1%nat then
        if k 2%nat then tcg_out_movi32 COND_AL (a 0%nat) (a 1%nat - a 2%nat)
        else tcg_out_dat_rI COND_AL ARITH_RSB (a 0%nat) (a 2%nat) (a 1%nat) true
      else tcg_out_dat_rIN COND_AL ARITH_SUB ARITH_ADD (a 0%nat) (a 1%nat) (a 2%nat) (k 2%nat)
  | and_i32 => tcg_out_dat_rIK COND_AL ARITH_AND ARITH_BIC (a 0%nat) (a 1%nat) (a 2%nat) (k 2%nat)
  | andc_i32 => tcg_out_dat_rIK COND_AL ARITH_BIC ARITH_AND (a 0%nat) (a 1%nat) (a 2%nat) (k 2%nat)
  | or_i32 => tcg_out_dat_rI COND_AL ARITH_ORR (a 0%nat) (a 1%nat) (a 2%nat) (k 2%nat)
  | xor_i32 => tcg_out_dat_rI COND_AL ARITH_EOR (a 0%nat) (a 1%nat) (a 2%nat) (k 2%nat)
  | add2_i32 => out_add2 args const_args
  | sub2_i32 => out_sub2 args const_args
  | neg_i32 => tcg_out_dat_imm COND_AL ARITH_RSB (a 0%nat) (a 1%nat) 0
  | not_i32 => tcg_out_dat_reg COND_AL ARITH_MVN (a 0%nat) 0 (a 1%nat) (SHIFT_IMM_LSL 0)
  | mul_i32 => tcg_out_mul32 COND_AL (a 0%nat) (a 1%nat) (a 2%nat)
  | mulu2_i32 => tcg_out_umull32 COND_AL (a 0%nat) (a 1%nat) (a 2%nat) (a 3%nat)
  | muls2_i32 => tcg_out_smull32 COND_AL (a 0%nat) (a 1%nat) (a 2%nat) (a 3%nat)
  | shl_i32 => out_shift args (k 2%nat) SHIFT_IMM_LSL SHIFT_REG_LSL
  | shr_i32 => out_shift args (k 2%nat) SHIFT_IMM_LSR SHIFT_REG_LSR
  | sar_i32 => out_shift args (k 2%nat) SHIFT_IMM_ASR SHIFT_REG_ASR
  | rotr_i32 => out_shift args (k 2%nat) SHIFT_IMM_ROR SHIFT_REG_ROR
  | rotl_i32 =>
      if k 2%nat then
        let n := (0x20 - a 2%nat) .& 0x1f in
        tcg_out_dat_reg COND_AL ARITH_MOV (a 0%nat) 0 (a 1%nat) (if truthy n then SHIFT_IMM_ROR n else SHIFT_IMM_LSL 0)
      else
        tcg_out_dat_imm COND_AL ARITH_RSB TCG_REG_TMP (a 2%nat) 0x20 ;;
        tcg_out_dat_reg COND_AL ARITH_MOV (a 0%nat) 0 (a 1%nat) (SHIFT_REG_ROR TCG_REG_TMP)
  | setcond_i32 =>
      tcg_out_dat_rIN COND_AL ARITH_CMP ARITH_CMN 0 (a 1%nat) (a 2%nat) (k 2%nat) ;;
      tcg_out_dat_imm (tcg_cond_to_arm_cond (a 3%nat)) ARITH_MOV (a 0%nat) 0 1 ;;
      tcg_out_dat_imm (tcg_cond_to_arm_cond (tcg_invert_cond (a 3%nat))) ARITH_MOV (a 0%nat) 0 0
  | setcond2_i32 =>
      tcg_out_dat_rIN COND_AL ARITH_CMP ARITH_CMN 0 (a 2%nat) (a 4%nat) (k 4%nat) ;;
      tcg_out_dat_rIN COND_EQ ARITH_CMP ARITH_CMN 0 (a 1%nat) (a 3%nat) (k 3%nat) ;;
      tcg_out_dat_imm (tcg_cond_to_arm_cond (a 5%nat)) ARITH_MOV (a 0%nat) 0 1 ;;
      tcg_out_dat_imm (tcg_cond_to_arm_cond (tcg_invert_cond (a 5%nat))) ARITH_MOV (a 0%nat) 0 0
  | qemu_ld_i32 => tcg_out_qemu_ld args false
  | qemu_ld_i64 => tcg_out_qemu_ld args true
  | qemu_st_i32 => tcg_out_qemu_st args false
  | qemu_st_i64 => tcg_out_qemu_st args true
  | bswap16_i32 => tcg_out_bswap16 COND_AL (a 0%nat) (a 1%nat)
  | bswap32_i32 => tcg_out_bswap32 COND_AL (a 0%nat) (a 1%nat)
  | ext8s_i32 => tcg_out_ext8s COND_AL (a 0%nat) (a 1%nat)
  | ext16s_i32 => tcg_out_ext16s COND_AL (a 0%nat) (a 1%nat)
  | ext16u_i32 => tcg_out_ext16u COND_AL (a 0%nat) (a 1%nat)
  | deposit_i32 => tcg_out_deposit COND_AL (a 0%nat) (a 2%nat) (a 3%nat) (a 4%nat) (k 2%nat)
  | div_i32 => tcg_out_sdiv COND_AL (a 0%nat) (a 1%nat) (a 2%nat)
  | divu_i32 => tcg_out_udiv COND_AL (a 0%nat) (a 1%nat) (a 2%nat)
  | _ => None
  end.

End Host.
