(* ===== verification/TcgArmWords.v ===== *)
(** * What the emitted words are

    Each function of the back end that puts an instruction together emits a
    word that [decode] takes apart again into the same fields; immediate
    operands are found exactly when they exist; [tcg_out_movi32] loads every
    constant. *)

From Stdlib Require Import ZArith Lia List Bool.
From S2P Require Import Prelude Bitops BitRoute TcgIr TcgRegAlloc TcgArm ArmIsa TcgArmOut.
Import ListNotations.
Local Open Scope Z_scope.
Local Open Scope c_scope.
Local Open Scope out_scope.

(** ** Running what was emitted *)

Section Arch.
Variable arch : arm_arch.

Definition outs (o : out) (c : cpu) (Q : cpu -> Prop) : Prop :=
  exists ws c', o = Some ws /\ run_words arch ws c = Some c' /\ Q c'.

Lemma outs_mono o c (Q R : cpu -> Prop) : outs o c Q -> (forall c', Q c' -> R c') -> outs o c R.
Proof. intros (ws & c' & A & B & C) H; exists ws, c'; auto. Qed.

Lemma outs_nothing c (Q : cpu -> Prop) : Q c -> outs nothing c Q.
Proof. intros H; exists [], c; auto. Qed.

Lemma run_app ws ws' c : run_words arch (ws ++ ws') c = let? c := run_words arch ws c in run_words arch ws' c.
Proof. revert c; induction ws as [|w ws IH]; intros c; cbn [app run_words]; [reflexivity|]; destruct (step arch w c); auto. Qed.

Lemma outs_then x y c Q : outs x c (fun c' => outs y c' Q) -> outs (x ;; y) c Q.
Proof.
  intros (ws & c1 & -> & R1 & ws' & c2 & -> & R2 & H); exists (ws ++ ws'), c2; splits; auto; now rewrite run_app, R1.
Qed.

(** One word, whose condition is [b]. *)
Lemma outs_word v w i cond b c c' (Q : cpu -> Prop) : u32 v = w -> decode w = Some i -> bits w 28 4 = cond ->
  cond_passed cond c = Some b -> (if b then exec arch i c else Some c) = Some c' -> Q c' -> outs (tcg_out32 v) c Q.
Proof.
  intros <- D <- P E H; exists [u32 v], c'; splits; auto; cbn [run_words]; unfold step; now rewrite D, P, E.
Qed.

End Arch.

(** ** Fields *)

(** [bits w lo len] is the operand [v] of which [w] is put together. *)
Ltac field w lo len v := replace (bits w lo len) with v by (unfold bits, w; route).

Lemma decode_shift cond op s rd rn rm ty im : inU 4 cond -> inU 4 op -> inU 1 s -> inU 4 rd -> inU 4 rn -> inU 4 rm -> inU 2 ty -> inU 5 im ->
  let w := u32 ((cond .<< 28) .| (0 .<< 25) .| ((op .<< 21) .| (s .<< 20)) .| (rn .<< 16) .| (rd .<< 12) .| ((im .<< 7) .| (ty .<< 5)) .| rm) in
  decode w = dp op (negb (s =? 0)) rd rn (OpShift rm ty im) /\ bits w 28 4 = cond.
Proof.
  intros Hc Ho Hs Hd Hn Hm Ht Hi w; split; [|unfold bits, w; route].
  unfold decode, bit_set; field w 25 3 0; field w 4 1 0; cbn [Z.eqb negb andb].
  unfold decode_dp_reg, bit_set; field w 0 4 rm; field w 5 2 ty; field w 21 4 op; field w 20 1 s; field w 12 4 rd; field w 16 4 rn;
    field w 4 1 0; field w 7 5 im; reflexivity.
Qed.

Lemma decode_shift_reg cond op s rd rn rm ty rs : inU 4 cond -> inU 4 op -> inU 1 s -> inU 4 rd -> inU 4 rn -> inU 4 rm -> inU 2 ty -> inU 4 rs ->
  let w := u32 ((cond .<< 28) .| (0 .<< 25) .| ((op .<< 21) .| (s .<< 20)) .| (rn .<< 16) .| (rd .<< 12) .| ((rs .<< 8) .| (0x10 .| (ty .<< 5))) .| rm) in
  decode w = dp op (negb (s =? 0)) rd rn (OpShiftReg rm ty rs) /\ bits w 28 4 = cond.
Proof.
  intros Hc Ho Hs Hd Hn Hm Ht Hi w; split; [|unfold bits, w; route].
  unfold decode, bit_set; field w 25 3 0; field w 4 1 1; field w 7 1 0; cbn [Z.eqb negb andb].
  unfold decode_dp_reg, bit_set; field w 0 4 rm; field w 5 2 ty; field w 21 4 op; field w 20 1 s; field w 12 4 rd; field w 16 4 rn;
    field w 4 1 1; field w 8 4 rs; reflexivity.
Qed.

Lemma decode_imm cond op s rd rn im : inU 4 cond -> inU 4 op -> inU 1 s -> inU 4 rd -> inU 4 rn -> inU 12 im ->
  is_test op = false \/ s = 1 ->
  let w := u32 ((cond .<< 28) .| (1 .<< 25) .| ((op .<< 21) .| (s .<< 20)) .| (rn .<< 16) .| (rd .<< 12) .| im) in
  decode w = dp op (negb (s =? 0)) rd rn (OpImm im) /\ bits w 28 4 = cond.
Proof.
  intros Hc Ho Hs Hd Hn Hi T w; split; [|unfold bits, w; route].
  unfold decode, bit_set; field w 25 3 1; cbn [Z.eqb].
  unfold decode_dp_imm, bit_set; field w 21 4 op; field w 20 1 s; field w 12 4 rd; field w 16 4 rn; field w 0 12 im.
  assert (E : bits w 20 8 = 32 + 2 * op + s).
  { replace (bits w 20 8) with (32 .| (op .<< 1) .| s) by (unfold bits, w; route).
    assert (forall i, inU 4 i -> forall j, inU 1 j -> 32 .| (i .<< 1) .| j = 32 + 2 * i + j); [|auto].
    intros i Hi' j Hj; unfold inU in *; assert (i = 0 \/ i = 1 \/ i = 2 \/ i = 3 \/ i = 4 \/ i = 5 \/ i = 6 \/ i = 7 \/ i = 8 \/ i = 9 \/ i = 10 \/ i = 11 \/ i = 12 \/ i = 13 \/ i = 14 \/ i = 15) by lia.
    assert (j = 0 \/ j = 1) by lia; intuition (subst; reflexivity). }
  rewrite E; unfold inU in *; destruct (Z.eqb_spec (32 + 2 * op + s) 0x30), (Z.eqb_spec (32 + 2 * op + s) 0x34); auto; exfalso.
  all: unfold is_test in T; destruct T as [T| ->]; [|lia]; apply andb_false_iff in T as [T|T]; apply Z.leb_gt in T; lia.
Qed.

Lemma decode_movw cond rd v : inU 4 cond -> inU 4 rd -> inU 32 v ->
  let w := u32 ((cond .<< 28) .| 0x03000000 .| (rd .<< 12) .| ((v .<< 4) .& 0x000f0000) .| (v .& 0xfff)) in
  decode w = Some (Movw rd (u16 v)) /\ bits w 28 4 = cond.
Proof.
  intros Hc Hd Hv w; split; [|unfold bits, w; route].
  unfold decode; field w 25 3 1; cbn [Z.eqb]; unfold decode_dp_imm; field w 20 8 0x30; field w 12 4 rd; cbn [Z.eqb Pos.eqb].
  do 2 f_equal; unfold bits, w; route.
Qed.

Lemma decode_movt cond rd v : inU 4 cond -> inU 4 rd -> inU 32 v ->
  let w := u32 ((cond .<< 28) .| 0x03400000 .| (rd .<< 12) .| ((v .>> 12) .& 0x000f0000) .| ((v .>> 16) .& 0xfff)) in
  decode w = Some (Movt rd (v .>> 16)) /\ bits w 28 4 = cond.
Proof.
  intros Hc Hd Hv w; split; [|unfold bits, w; route].
  unfold decode; field w 25 3 1; cbn [Z.eqb]; unfold decode_dp_imm; field w 20 8 0x34; field w 12 4 rd; cbn [Z.eqb Pos.eqb].
  do 2 f_equal; unfold bits, w; route.
Qed.

Lemma decode_mul cond rd rn rm : inU 4 cond -> inU 4 rd -> inU 4 rn -> inU 4 rm ->
  let w := u32 ((cond .<< 28) .| 0x90 .| (rd .<< 16) .| (rm .<< 8) .| rn) in
  decode w = Some (Mul rd rn rm) /\ bits w 28 4 = cond.
Proof.
  intros Hc Hd Hn Hm w; split; [|unfold bits, w; route].
  unfold decode, bit_set; field w 25 3 0; field w 4 1 1; field w 7 1 1; field w 5 2 0; cbn [Z.eqb negb andb].
  unfold decode_multiply; field w 16 4 rd; field w 12 4 0; field w 8 4 rm; field w 0 4 rn; field w 20 5 0; reflexivity.
Qed.

Lemma decode_mull (signed : bool) cond lo hi rn rm : inU 4 cond -> inU 4 lo -> inU 4 hi -> inU 4 rn -> inU 4 rm ->
  let w := u32 ((cond .<< 28) .| (if signed then 0x00c00090 else 0x00800090) .| (hi .<< 16) .| (lo .<< 12) .| (rm .<< 8) .| rn) in
  decode w = Some (Mull signed lo hi rn rm) /\ bits w 28 4 = cond.
Proof.
  intros Hc Hl Hh Hn Hm w; subst w; destruct signed; set (w := wrap 32 _); (split; [|unfold bits, w; route]);
  unfold decode, bit_set; field w 25 3 0; field w 4 1 1; field w 7 1 1; field w 5 2 0; cbn [Z.eqb negb andb];
  unfold decode_multiply; field w 16 4 hi; field w 12 4 lo; field w 8 4 rm; field w 0 4 rn; [field w 20 5 12|field w 20 5 8]; reflexivity.
Qed.

(** Words of the media class. *)
Lemma decode_div (signed : bool) cond rd rn rm : inU 4 cond -> inU 4 rd -> inU 4 rn -> inU 4 rm ->
  let w := u32 ((if signed then 0x0710f010 else 0x0730f010) .| (cond .<< 28) .| (rd .<< 16) .| rn .| (rm .<< 8)) in
  decode w = Some (Divide signed rd rn rm) /\ bits w 28 4 = cond.
Proof.
  intros Hc Hd Hn Hm w; subst w; destruct signed; set (w := wrap 32 _); (split; [|unfold bits, w; route]);
  unfold decode, bit_set; field w 25 3 3; field w 4 1 1; cbn [Z.eqb Pos.eqb negb]; unfold decode_media;
  field w 0 4 rn; field w 8 4 rm; field w 16 4 rd; field w 12 4 15; field w 4 4 1; [field w 20 8 0x71; field w 21 7 0x38|field w 20 8 0x73; field w 21 7 0x39];
  reflexivity.
Qed.

(** The fixed bits [op] at 20 and [lo] at 4. *)
Lemma decode_unary k op lo cond rd rm i : inU 4 cond -> inU 4 rd -> inU 4 rm -> inU 8 op -> inU 8 lo ->
  k = (op .<< 20) .| (15 .<< 16) .| (lo .<< 4) -> bits op 5 3 = 3 -> bits lo 0 1 = 1 -> bits op 1 7 <> 0x3e ->
  (op =? 0x71) || (op =? 0x73) = false -> decode_extend op lo rd rm = Some i ->
  let w := u32 (k .| (cond .<< 28) .| (rd .<< 12) .| rm) in
  decode w = Some i /\ bits w 28 4 = cond.
Proof.
  intros Hc Hd Hm Ho Hl -> B1 B2 B3 B4 D w; split; [|unfold bits, w; route].
  unfold decode, bit_set; replace (bits w 25 3) with (bits op 5 3) by (unfold bits, w; route); rewrite B1.
  replace (bits w 4 1) with (bits lo 0 1) by (unfold bits, w; route); rewrite B2; cbn [Z.eqb Pos.eqb negb]; unfold decode_media.
  replace (bits w 21 7) with (bits op 1 7) by (unfold bits, w; route); apply Z.eqb_neq in B3; rewrite B3.
  field w 20 8 op; rewrite B4; field w 16 4 15; field w 4 8 lo; field w 12 4 rd; field w 0 4 rm; exact D.
Qed.

Lemma decode_bfi cond rd rn lsb msb : inU 4 cond -> inU 4 rd -> inU 4 rn -> inU 5 lsb -> inU 5 msb ->
  let w := u32 (0x07c00010 .| (cond .<< 28) .| (rd .<< 12) .| rn .| (lsb .<< 7) .| (msb .<< 16)) in
  decode w = Some (Bfi rd rn lsb msb) /\ bits w 28 4 = cond.
Proof.
  intros Hc Hd Hn Hl Hm w; split; [|unfold bits, w; route].
  unfold decode, bit_set; field w 25 3 3; field w 4 1 1; cbn [Z.eqb Pos.eqb negb]; unfold decode_media.
  field w 21 7 0x3e; field w 4 3 1; field w 12 4 rd; field w 0 4 rn; field w 7 5 lsb; field w 16 5 msb; reflexivity.
Qed.

(** Loads and stores: the fixed parts of the opcodes and the up bit [u]. *)
Lemma decode_mem_imm (ld byte : bool) cond rt rn u im : inU 4 cond -> inU 4 rt -> inU 4 rn -> inU 1 u -> inU 12 im ->
  let opc := 0x04000000 .| (if ld then 1 .<< 20 else 0) .| (if byte then 1 .<< 22 else 0) in
  let w := u32 ((cond .<< 28) .| opc .| (u .<< 23) .| (1 .<< 24) .| (0 .<< 21) .| (rn .<< 16) .| (rt .<< 12) .| im) in
  let size := if byte then 8 else 32 in let up := negb (u =? 0) in
  decode w = Some (if ld then Load size false rt rn up (OffImm im) else Store size rt rn up (OffImm im)) /\ bits w 28 4 = cond.
Proof.
  intros Hc Hd Hn Hu Hm opc w; subst w opc; destruct ld, byte; set (w := wrap 32 _); (split; [|unfold bits, w; route]);
  unfold decode; field w 25 3 2; cbn [Z.eqb Pos.eqb]; unfold decode_mem, plain_index, bit_set;
  field w 24 1 1; field w 21 1 0; field w 12 4 rt; field w 16 4 rn; field w 23 1 u; field w 0 12 im;
  [field w 22 1 1; field w 20 1 1|field w 22 1 0; field w 20 1 1|field w 22 1 1; field w 20 1 0|field w 22 1 0; field w 20 1 0]; reflexivity.
Qed.

Lemma decode_mem_reg (ld byte : bool) cond rt rn rm : inU 4 cond -> inU 4 rt -> inU 4 rn -> inU 4 rm ->
  let opc := 0x06000000 .| (if ld then 1 .<< 20 else 0) .| (if byte then 1 .<< 22 else 0) in
  let w := u32 ((cond .<< 28) .| opc .| (1 .<< 23) .| (1 .<< 24) .| (0 .<< 21) .| (rn .<< 16) .| (rt .<< 12) .| rm) in
  let size := if byte then 8 else 32 in
  decode w = Some (if ld then Load size false rt rn true (OffReg rm) else Store size rt rn true (OffReg rm)) /\ bits w 28 4 = cond.
Proof.
  intros Hc Hd Hn Hm opc w; subst w opc; destruct ld, byte; set (w := wrap 32 _); (split; [|unfold bits, w; route]);
  unfold decode, bit_set; field w 25 3 3; field w 4 1 0; field w 4 8 0; cbn [Z.eqb Pos.eqb negb]; unfold decode_mem, plain_index, bit_set;
  field w 24 1 1; field w 21 1 0; field w 12 4 rt; field w 16 4 rn; field w 23 1 1; field w 0 4 rm;
  [field w 22 1 1; field w 20 1 1|field w 22 1 0; field w 20 1 1|field w 22 1 1; field w 20 1 0|field w 22 1 0; field w 20 1 0]; reflexivity.
Qed.

(** A word, with write-back. *)
Lemma decode_mem_pre (ld : bool) cond rt rn rm : inU 4 cond -> inU 4 rt -> inU 4 rn -> inU 4 rm ->
  let opc := 0x06000000 .| (if ld then 1 .<< 20 else 0) in
  let w := u32 ((cond .<< 28) .| opc .| (1 .<< 23) .| (1 .<< 24) .| (1 .<< 21) .| (rn .<< 16) .| (rt .<< 12) .| rm) in
  decode w = Some (if ld then LoadPre rt rn rm true else StorePre rt rn rm true) /\ bits w 28 4 = cond.
Proof.
  intros Hc Hd Hn Hm opc w; subst w opc; destruct ld; set (w := wrap 32 _); (split; [|unfold bits, w; route]);
  unfold decode, bit_set; field w 25 3 3; field w 4 1 0; field w 4 8 0; cbn [Z.eqb Pos.eqb negb]; unfold decode_mem, plain_index, write_back, bit_set;
  field w 24 1 1; field w 21 1 1; field w 12 4 rt; field w 16 4 rn; field w 23 1 1; field w 0 4 rm; field w 22 1 0;
  [field w 20 1 1|field w 20 1 0]; reflexivity.
Qed.

(** The access of a halfword or a signed byte: [l] is the load bit, [sh] tells which. *)
Definition extra_insn (l sh rt rn : Z) (up : bool) (o : offset) : option insn :=
  if negb (l =? 0) then
    Some (if sh =? 1 then Load 16 false rt rn up o else if sh =? 2 then Load 8 true rt rn up o else Load 16 true rt rn up o)
  else if sh =? 1 then Some (Store 16 rt rn up o) else None.

Lemma decode_extra_imm l sh cond rt rn u im : inU 1 l -> inU 2 sh -> sh <> 0 -> inU 4 cond -> inU 4 rt -> inU 4 rn -> inU 1 u -> inU 8 im ->
  let opc := 0x00400090 .| (l .<< 20) .| (sh .<< 5) in
  let w := u32 ((cond .<< 28) .| opc .| (u .<< 23) .| (1 .<< 24) .| (0 .<< 21) .| (rn .<< 16) .| (rt .<< 12) .| ((im .& 0xf0) .<< 4) .| (im .& 0xf)) in
  decode w = extra_insn l sh rt rn (negb (u =? 0)) (OffImm im) /\ bits w 28 4 = cond.
Proof.
  intros Hl Hs N Hc Hd Hn Hu Hm opc w; subst opc; split; [|unfold bits, w; route].
  unfold decode, bit_set; field w 25 3 0; field w 4 1 1; field w 7 1 1; field w 5 2 sh; cbn [Z.eqb negb andb]; apply Z.eqb_neq in N; rewrite N.
  unfold decode_extra, plain_index, bit_set; field w 24 1 1; field w 21 1 0; field w 12 4 rt; field w 16 4 rn; field w 23 1 u; field w 22 1 1;
    field w 20 1 l; field w 5 2 sh; cbn [Z.eqb negb andb].
  replace ((bits w 8 4 .<< 4) .| bits w 0 4) with im by (unfold bits, w; route); reflexivity.
Qed.

Lemma decode_extra_reg l sh cond rt rn rm : inU 1 l -> inU 2 sh -> sh <> 0 -> inU 4 cond -> inU 4 rt -> inU 4 rn -> inU 4 rm ->
  let opc := 0x00000090 .| (l .<< 20) .| (sh .<< 5) in
  let w := u32 ((cond .<< 28) .| opc .| (1 .<< 23) .| (1 .<< 24) .| (0 .<< 21) .| (rn .<< 16) .| (rt .<< 12) .| rm) in
  decode w = extra_insn l sh rt rn true (OffReg rm) /\ bits w 28 4 = cond.
Proof.
  intros Hl Hs N Hc Hd Hn Hm opc w; subst opc; split; [|unfold bits, w; route].
  unfold decode, bit_set; field w 25 3 0; field w 4 1 1; field w 7 1 1; field w 5 2 sh; cbn [Z.eqb negb andb]; apply Z.eqb_neq in N; rewrite N.
  unfold decode_extra, plain_index, bit_set; field w 24 1 1; field w 21 1 0; field w 12 4 rt; field w 16 4 rn; field w 23 1 1; field w 22 1 0;
    field w 20 1 l; field w 5 2 sh; field w 8 4 0; field w 0 4 rm; reflexivity.
Qed.

(** ** Immediate operands *)

(** The operand field of a byte that is rotated by [2 * r]. *)
Lemma expand_field b r : inU 8 b -> inU 4 r -> expand_imm (b .| (r .<< 8)) = ror32 b (2 * r).
Proof.
  intros Hb Hr; unfold expand_imm; f_equal; [route|]; f_equal; route.
Qed.

Lemma low_bits_byte v : inU 32 v -> low_bits v = true -> inU 8 v.
Proof.
  intros Hv E; unfold low_bits in E; apply Z.eqb_eq in E; replace v with (v .& 0xff); [route|].
  replace (v .& 0xff) with ((v .& 0xff) .| (v .& Z.lnot 0xff)) by (rewrite E; apply Z.lor_0_r).
  rewrite <- Z.land_lor_distr_r; change (0xff .| Z.lnot 0xff) with (-1); apply Z.land_m1_r.
Qed.

(** The number of trailing zeros, and its even part. *)
Lemma ctz_pos_spec p : 0 <= ctz_pos p /\ exists q, Z.odd q = true /\ Zpos p = q * 2 ^ ctz_pos p.
Proof.
  induction p as [p IH|p [L (q & O & E)]|]; cbn [ctz_pos]; try (split; [lia|]; eexists; rewrite Z.mul_1_r; split; [|reflexivity]; reflexivity).
  split; [lia|]; exists q; split; [exact O|]; rewrite Z.pow_add_r, Pos2Z.inj_xO, E by lia; lia.
Qed.

Lemma even_part n : 0 <= n -> n .& Z.lnot 1 = 2 * (n / 2).
Proof.
  intros H; rewrite <- Z.ldiff_land; change 1 with (Z.ones 1); rewrite Z.ldiff_ones_r, Z.shiftr_div_pow2, Z.shiftl_mul_pow2 by lia.
  change (2 ^ 1) with 2; lia.
Qed.

Lemma ctz_even v : 0 < v < 2 ^ 32 ->
  exists k, ctz32 v .& Z.lnot 1 = 2 * k /\ 0 <= k < 16 /\ v = (v .>> (2 * k)) .<< (2 * k) /\
    forall j, 0 <= j -> v mod 2 ^ (2 * j) = 0 -> j <= k.
Proof.
  destruct v as [|p|]; [lia| |lia]; intros H; cbn [ctz32]; destruct (ctz_pos_spec p) as [L (q & O & E)]; rewrite even_part by assumption.
  set (n := ctz_pos p) in *; pose proof (Z.div_mod n 2 ltac:(lia)); pose proof (Z.mod_pos_bound n 2 ltac:(lia)); exists (n / 2).
  assert (Q : 1 <= q) by (assert (0 < 2 ^ n) by lia; nia).
  assert (N : n < 32) by (apply (Z.pow_lt_mono_r_iff 2); lia || nia); splits; [reflexivity|lia|lia| |].
  - assert (E' : Zpos p = q * 2 ^ (n mod 2) * 2 ^ (2 * (n / 2))) by (rewrite E, <- Z.mul_assoc, <- Z.pow_add_r by lia; do 2 f_equal; lia).
    now rewrite Z.shiftr_div_pow2, Z.shiftl_mul_pow2, E', Z.div_mul by lia.
  - intros j J M; enough (2 * j <= n) by lia; destruct (Z.le_gt_cases (2 * j) n) as [|G]; auto; exfalso.
    apply Z.mod_divide in M as [z M]; [|lia]; rewrite E in M; replace (2 * j) with (n + 1 + (2 * j - n - 1)) in M by lia.
    rewrite !Z.pow_add_r in M by lia; change (2 ^ 1) with 2 in M.
    assert (q = z * 2 ^ (2 * j - n - 1) * 2) by (assert (0 < 2 ^ n) by lia; nia).
    subst q; rewrite Z.odd_mul, andb_false_r in O; discriminate.
Qed.

(** Rotations, by all the even counts. *)
Lemma even_counts (P : Z -> Prop) : P 0 -> P 1 -> P 2 -> P 3 -> P 4 -> P 5 -> P 6 -> P 7 -> P 8 -> P 9 -> P 10 -> P 11 -> P 12 -> P 13 -> P 14 -> P 15 ->
  forall r, 0 <= r < 16 -> P r.
Proof.
  intros H0 H1 H2 H3 H4 H5 H6 H7 H8 H9 H10 H11 H12 H13 H14 H15 r Hr.
  assert (E : r = 0 \/ r = 1 \/ r = 2 \/ r = 3 \/ r = 4 \/ r = 5 \/ r = 6 \/ r = 7 \/ r = 8 \/ r = 9 \/ r = 10 \/ r = 11 \/ r = 12 \/ r = 13 \/
    r = 14 \/ r = 15) by lia; intuition (subst; assumption).
Qed.

Lemma ror_rotl v r : inU 32 v -> 0 <= r < 16 -> ror32 (rotl v (2 * r)) (2 * r) = v.
Proof. intros Hv; revert r; apply even_counts; unfold ror32, rorw, rotl; cbn [Z.mul Pos.mul Z.sub Z.add Z.opp Z.pos_sub]; route. Qed.

Lemma rotl_shifted b k : inU 8 b -> 1 <= k < 16 -> rotl (b .<< (2 * k)) (32 - 2 * k) = b.
Proof.
  intros Hb Hk; assert (P : forall k, 0 <= k < 16 -> k = 0 \/ rotl (b .<< (2 * k)) (32 - 2 * k) = b); [|destruct (P k); lia].
  clear k Hk; apply even_counts; [now left|..]; right; unfold rotl; route.
Qed.

Lemma encode_imm_ok v : inU 32 v -> 0 <= encode_imm v ->
  exists r, inU 4 r /\ encode_imm v = 2 * r /\ inU 8 (rotl v (2 * r)).
Proof.
  intros Hv; unfold encode_imm; destruct (low_bits v) eqn:L0.
  { intros _; exists 0; splits; [unfold inU; lia..|]; apply low_bits_byte in L0; [|exact Hv].
    replace (rotl v (2 * 0)) with v; [exact L0|]; unfold rotl; cbn [Z.mul]; clear Hv; route. }
  assert (V : 0 < v < 2 ^ 32) by (unfold inU in Hv; destruct (Z.eq_dec v 0) as [->|]; [discriminate|lia]).
  destruct (ctz_even v V) as (k & -> & Hk & Ev & _); destruct (low_bits (v .>> (2 * k))) eqn:L1.
  { intros _; assert (k <> 0) by (intros ->; cbn [Z.mul] in L1; rewrite Z.shiftr_0_r in L1; congruence).
    assert (Hb : inU 32 (v .>> (2 * k))) by (unfold inU in *; rewrite Z.shiftr_div_pow2 by lia; split; [apply Z.div_pos; lia|];
      apply Z.div_lt_upper_bound; [lia|]; assert (1 <= 2 ^ (2 * k)) by lia; nia).
    apply low_bits_byte in L1; [|exact Hb]; exists (16 - k); splits; [unfold inU; lia..|].
    replace (2 * (16 - k)) with (32 - 2 * k) by lia; rewrite Ev; rewrite rotl_shifted by (auto; lia); exact L1. }
  destruct (low_bits (rotl v 2)) eqn:L2; [|destruct (low_bits (rotl v 4)) eqn:L3; [|destruct (low_bits (rotl v 6)) eqn:L4; [|lia]]]; intros _;
    [exists 1|exists 2|exists 3]; splits; try (unfold inU; lia); apply low_bits_byte; auto; unfold rotl; cbn [Z.mul Pos.mul]; route.
Qed.

(** The field of the instruction stands for the constant. *)
Lemma encode_imm_field v : inU 32 v -> 0 <= encode_imm v ->
  let f := rotl v (encode_imm v) .| (encode_imm v .<< 7) in inU 12 f /\ expand_imm f = v.
Proof.
  intros Hv E; destruct (encode_imm_ok v Hv E) as (r & Hr & -> & Hb); cbv zeta; set (b := rotl v (2 * r)) in *.
  assert (S : (2 * r) .<< 7 = r .<< 8) by (rewrite !Z.shiftl_mul_pow2 by lia; lia); rewrite S; split; [clear Hv; clearbody b; route|].
  rewrite expand_field by assumption; unfold b, inU in *; apply ror_rotl; auto; lia.
Qed.

(** Every rotated byte is found. *)
Lemma encode_imm_complete b r : inU 8 b -> 0 <= r < 16 -> 0 <= encode_imm (ror32 b (2 * r)).
Proof.
  intros Hb Hr; apply Z.leb_le.
  assert (H : forallb (fun b => forallb (fun r => 0 <=? encode_imm (ror32 (Z.of_nat b) (2 * Z.of_nat r))) (seq 0 16)) (seq 0 256) = true)
    by (vm_compute; reflexivity).
  rewrite forallb_forall in H; specialize (H (Z.to_nat b)); rewrite forallb_forall in H.
  unfold inU in Hb; specialize (H ltac:(apply in_seq; lia) (Z.to_nat r) ltac:(apply in_seq; lia)); now rewrite !Z2Nat.id in H by lia.
Qed.
