(* ===== verification/TcgArmOps.v ===== *)
(** * Data processing of the ARM back end

    Second operands that are registers or constants, constants that are
    negated or inverted to fit, and the loading of constants. *)

From Stdlib Require Import ZArith Lia List Bool.
From S2P Require Import Prelude Bitops BitRoute TcgIr TcgRegAlloc TcgArm ArmIsa TcgArmOut TcgArmWords.
Import ListNotations.
Local Open Scope Z_scope.
Local Open Scope c_scope.
Local Open Scope out_scope.

(** A register other than the program counter. *)
Definition gpr (x : Z) : Prop := 0 <= x < 15.

Lemma gpr_u4 x : gpr x -> inU 4 x.
Proof. unfold gpr, inU; lia. Qed.

Lemma gpr_tmp : gpr TCG_REG_TMP.
Proof. split; [discriminate|reflexivity]. Qed.
#[export] Hint Resolve gpr_tmp : core.

Lemma gpr_not_pc x : gpr x -> (x =? 15) = false.
Proof. unfold gpr; intros; apply Z.eqb_neq; lia. Qed.

Lemma no_pc_ok l : Forall gpr l -> no_pc l = true.
Proof. intros F; apply forallb_forall; intros x I; rewrite (gpr_not_pc x); [reflexivity|]; exact (proj1 (Forall_forall _ _) F x I). Qed.

Lemma cond_u4 cond c b : cond_passed cond c = Some b -> inU 4 cond.
Proof.
  unfold inU; destruct cond as [|p|p]; [lia| |discriminate].
  do 4 (destruct p as [p|p|]; try (cbn; discriminate); try lia).
Qed.

(** The opcode of an instruction that [decode] accepts with these registers. *)
Record dp_opcode (opc op : Z) (s : bool) (rd rn : Z) : Prop := {
  do_opc : opc = (op .<< 21) .| (b2z s .<< 20);
  do_op : inU 4 op;
  do_rd : gpr rd;
  do_rn : gpr rn;
  do_test : is_test op = true -> s = true /\ rd = 0;
  do_mov : is_mov op = true -> rn = 0
}.

Lemma dp_accepted opc op s rd rn o : dp_opcode opc op s rd rn -> dp op s rd rn o = Some (Dp op s rd rn o).
Proof.
  intros [_ _ _ _ T M]; unfold dp; destruct (is_test op) eqn:E; [destruct T as [-> ->]; auto|].
  - cbn; destruct (is_mov op); [rewrite M; auto|reflexivity].
  - cbn; destruct (is_mov op); [rewrite M; auto|reflexivity].
Qed.

Lemma b2z_u1 b : inU 1 (b2z b).
Proof. destruct b; unfold inU; cbn; lia. Qed.

Lemma b2z_flag b : negb (b2z b =? 0) = b.
Proof. now destruct b. Qed.

Section Arch.
Variable arch : arm_arch.
Abbreviation outs := (TcgArmWords.outs arch).

Lemma dat_imm_outs cond opc op s rd rn im b c c' (Q : cpu -> Prop) : dp_opcode opc op s rd rn -> inU 12 im -> cond_passed cond c = Some b ->
  (if b then dp_result op s rd rn (expand_imm im) c else Some c) = Some c' -> Q c' -> outs (tcg_out_dat_imm cond opc rd rn im) c Q.
Proof.
  intros D Hi P E H; pose proof (cond_u4 _ _ _ P) as Hc; pose proof (dp_accepted _ _ _ _ _ (OpImm im) D) as A.
  destruct D as [-> Ho Hd Hn T M]; pose proof (gpr_u4 _ Hd); pose proof (gpr_u4 _ Hn); pose proof (b2z_u1 s).
  destruct (decode_imm cond op (b2z s) rd rn im) as [D1 D2]; auto.
  { destruct (is_test op); auto; right; destruct T as [-> _]; auto. }
  rewrite b2z_flag, A in D1; eapply outs_word; [reflexivity|exact D1|exact D2|exact P| |exact H].
  destruct b; [|exact E]; cbn [exec op2_value]; now rewrite no_pc_ok by auto.
Qed.

Lemma dat_shift_outs cond opc op s rd rn rm shift ty im b y c c' (Q : cpu -> Prop) : dp_opcode opc op s rd rn -> gpr rm ->
  shift = (im .<< 7) .| (ty .<< 5) -> inU 2 ty -> inU 5 im -> cond_passed cond c = Some b ->
  op2_value c (OpShift rm ty im) = Some y ->
  (if b then dp_result op s rd rn y c else Some c) = Some c' -> Q c' -> outs (tcg_out_dat_reg cond opc rd rn rm shift) c Q.
Proof.
  intros D Hm -> Ht Hi P V E H; pose proof (cond_u4 _ _ _ P) as Hc; pose proof (dp_accepted _ _ _ _ _ (OpShift rm ty im) D) as A.
  destruct D as [-> Ho Hd Hn T M]; pose proof (gpr_u4 _ Hd); pose proof (gpr_u4 _ Hn); pose proof (gpr_u4 _ Hm); pose proof (b2z_u1 s).
  destruct (decode_shift cond op (b2z s) rd rn rm ty im) as [D1 D2]; auto.
  rewrite b2z_flag, A in D1; eapply outs_word; [reflexivity|exact D1|exact D2|exact P| |exact H].
  destruct b; [|exact E]; cbn [exec]; now rewrite no_pc_ok, V by auto.
Qed.

Lemma dat_shift_reg_outs cond opc op s rd rn rm shift ty rs b c c' (Q : cpu -> Prop) : dp_opcode opc op s rd rn -> gpr rm -> gpr rs ->
  shift = (rs .<< 8) .| (0x10 .| (ty .<< 5)) -> inU 2 ty -> cond_passed cond c = Some b ->
  (if b then dp_result op s rd rn (shift_value ty (greg c rm) (greg c rs .& 0xff)) c else Some c) = Some c' -> Q c' ->
  outs (tcg_out_dat_reg cond opc rd rn rm shift) c Q.
Proof.
  intros D Hm Hs -> Ht P E H; pose proof (cond_u4 _ _ _ P) as Hc; pose proof (dp_accepted _ _ _ _ _ (OpShiftReg rm ty rs) D) as A.
  destruct D as [-> Ho Hd Hn T M]; pose proof (gpr_u4 _ Hd); pose proof (gpr_u4 _ Hn); pose proof (gpr_u4 _ Hm); pose proof (gpr_u4 _ Hs); pose proof (b2z_u1 s).
  destruct (decode_shift_reg cond op (b2z s) rd rn rm ty rs) as [D1 D2]; auto.
  rewrite b2z_flag, A in D1; eapply outs_word; [reflexivity|exact D1|exact D2|exact P| |exact H].
  destruct b; [|exact E]; cbn [exec op2_value]; now rewrite no_pc_ok, !gpr_not_pc by auto.
Qed.

(** ** Registers and constants *)

Definition value (c : cpu) (const : bool) (x : Z) : Z := if const then u32 x else greg c x.

Lemma dat_reg_outs cond opc op s rd rn rm b c c' (Q : cpu -> Prop) : dp_opcode opc op s rd rn -> gpr rm -> cond_passed cond c = Some b ->
  (if b then dp_result op s rd rn (greg c rm) c else Some c) = Some c' -> Q c' -> outs (tcg_out_dat_reg cond opc rd rn rm (SHIFT_IMM_LSL 0)) c Q.
Proof.
  intros D Hm P E H; apply (dat_shift_outs cond opc op s rd rn rm (SHIFT_IMM_LSL 0) 0 0 b (greg c rm) c c'); auto; try (unfold inU; lia).
  cbn [op2_value]; now rewrite gpr_not_pc.
Qed.

Lemma dat_rI_outs cond opc op s rd rn rhs (k b : bool) c c' (Q : cpu -> Prop) : dp_opcode opc op s rd rn ->
  (if k then check_fit_imm (u32 rhs) = true else gpr rhs) -> cond_passed cond c = Some b ->
  (if b then dp_result op s rd rn (value c k rhs) c else Some c) = Some c' -> Q c' -> outs (tcg_out_dat_rI cond opc rd rn rhs k) c Q.
Proof.
  intros D F P E H; unfold tcg_out_dat_rI; destruct k; cbn [value] in E; [|now apply (dat_reg_outs cond opc op s rd rn rhs b c c')].
  unfold check_fit_imm in F; rewrite F; apply Z.leb_le in F.
  destruct (encode_imm_field (u32 rhs)) as [F1 F2]; [apply wrap_range; lia|exact F|].
  apply (dat_imm_outs cond opc op s rd rn _ b c c'); auto; now rewrite F2.
Qed.

(** The other instruction does the same with the changed constant. *)
Definition swaps (other : Z -> Z) (op op' : Z) (s : bool) : Prop :=
  forall rd rn y c, inU 32 y -> encode_imm y < 0 -> dp_result op' s rd rn (u32 (other y)) c = dp_result op s rd rn y c.

Lemma dat_either_outs other cond opc opc' op op' s rd rn rhs (k b : bool) c c' (Q : cpu -> Prop) :
  dp_opcode opc op s rd rn -> dp_opcode opc' op' s rd rn -> swaps other op op' s ->
  (if k then check_fit_imm (u32 rhs) = true \/ check_fit_imm (u32 (other (u32 rhs))) = true else gpr rhs) -> cond_passed cond c = Some b ->
  (if b then dp_result op s rd rn (value c k rhs) c else Some c) = Some c' -> Q c' ->
  outs (dat_either other cond opc opc' rd rn rhs k) c Q.
Proof.
  intros D D' Sw F P E H; unfold dat_either; destruct k; cbn [value] in E; [|now apply (dat_reg_outs cond opc op s rd rn rhs b c c')].
  assert (R : forall x, inU 32 (u32 x)) by (intros; apply wrap_range; lia); unfold check_fit_imm in F; rewrite !Z.leb_le in F.
  destruct (Z.ltb_spec (encode_imm (u32 rhs)) 0) as [N|N].
  - destruct F as [|F]; [lia|]; rewrite (proj2 (Z.leb_le _ _) F); destruct (encode_imm_field (u32 (other (u32 rhs)))) as [F1 F2]; auto.
    apply (dat_imm_outs cond opc' op' s rd rn _ b c c'); auto; rewrite F2, Sw by auto; exact E.
  - destruct (encode_imm_field (u32 rhs)) as [F1 F2]; auto.
    apply (dat_imm_outs cond opc op s rd rn _ b c c'); auto; now rewrite F2.
Qed.

End Arch.

(** ** Negated and inverted constants *)

Lemma unencodable y : encode_imm y < 0 -> y <> 0 /\ y <> 2 ^ 31.
Proof. split; intros ->; revert H; vm_compute; discriminate. Qed.

Lemma inv_arith y : inU 32 y -> inv y = 2 ^ 32 - 1 - y.
Proof. unfold inU, inv, Z.lnot, wrap; intros; rewrite <- (Z.mod_unique (Z.pred (- y)) (2 ^ 32) (-1) (2 ^ 32 - 1 - y)); lia. Qed.

Lemma neg_arith y : inU 32 y -> y <> 0 -> u32 (- y) = 2 ^ 32 - y.
Proof. unfold inU, wrap; intros; rewrite <- (Z.mod_unique (- y) (2 ^ 32) (-1) (2 ^ 32 - y)); lia. Qed.

Lemma inv_inv y : inU 32 y -> inv (inv y) = y.
Proof. intros Hy; rewrite (inv_arith (inv y)); rewrite inv_arith; unfold inU in *; lia. Qed.

Lemma s32_cases y : inU 32 y -> s32 y = if y <? 2 ^ 31 then y else y - 2 ^ 32.
Proof. intros Hy; apply (swrap_of_wrap 32); [lia|exact Hy]. Qed.

Lemma add_neg a y : inU 32 y -> y <> 0 -> y <> 2 ^ 31 -> add_with_carry a (u32 (- y)) false = add_with_carry a (inv y) true.
Proof.
  intros Hy N M; rewrite inv_arith, neg_arith by assumption; unfold add_with_carry; cbn [b2z].
  rewrite !(s32_cases (2 ^ 32 - 1 - y)), !(s32_cases (2 ^ 32 - y)) by (unfold inU in *; lia); unfold inU in *.
  replace (a + (2 ^ 32 - 1 - y) + 1) with (a + (2 ^ 32 - y) + 0) by lia; do 3 f_equal.
  destruct (Z.ltb_spec (2 ^ 32 - 1 - y) (2 ^ 31)), (Z.ltb_spec (2 ^ 32 - y) (2 ^ 31)); lia.
Qed.

Lemma sub_neg a y : inU 32 y -> y <> 0 -> y <> 2 ^ 31 -> add_with_carry a (inv (u32 (- y))) true = add_with_carry a y false.
Proof.
  intros Hy N M; rewrite inv_arith, neg_arith by (try apply wrap_range; auto; lia); unfold add_with_carry; cbn [b2z].
  replace (2 ^ 32 - 1 - (2 ^ 32 - y)) with (y - 1) by lia; rewrite (s32_cases y), (s32_cases (y - 1)) by (unfold inU in *; lia); unfold inU in *.
  replace (a + (y - 1) + 1) with (a + y + 0) by lia; do 3 f_equal; destruct (Z.ltb_spec y (2 ^ 31)), (Z.ltb_spec (y - 1) (2 ^ 31)); lia.
Qed.

Ltac swap_tac := intros rd rn y c Hy E; destruct (unencodable y E); unfold dp_result; cbn [dp_value is_test].

Lemma swap_add_sub s : swaps Z.opp 4 2 s.
Proof. swap_tac; now rewrite sub_neg. Qed.
Lemma swap_sub_add s : swaps Z.opp 2 4 s.
Proof. swap_tac; now rewrite add_neg. Qed.
Lemma swap_cmp_cmn s : swaps Z.opp 10 11 s.
Proof. swap_tac; now rewrite add_neg. Qed.
Lemma swap_and_bic s : swaps Z.lnot 0 14 s.
Proof. swap_tac; change (u32 (Z.lnot y)) with (inv y); now rewrite inv_inv. Qed.
Lemma swap_bic_and s : swaps Z.lnot 14 0 s.
Proof. swap_tac; reflexivity. Qed.
Lemma swap_mov_mvn s : swaps Z.lnot 13 15 s.
Proof. swap_tac; change (u32 (Z.lnot y)) with (inv y); now rewrite inv_inv. Qed.
Lemma swap_adc_sbc s : swaps Z.lnot 5 6 s.
Proof. swap_tac; change (u32 (Z.lnot y)) with (inv y); now rewrite inv_inv. Qed.
Lemma swap_sbc_adc s : swaps Z.lnot 6 5 s.
Proof. swap_tac; reflexivity. Qed.
