(* ===== verification/TcgArmMovi.v ===== *)
(** * Constants in registers (tcg/arm/tcg-target.inc.c)

    [tcg_out_movi32] loads every constant, on every version of the
    architecture: by one instruction, by MOVW and MOVT, or piece by piece. *)

From Stdlib Require Import ZArith Lia List Bool.
From S2P Require Import Prelude Bitops BitRoute TcgIr TcgRegAlloc TcgArm ArmIsa TcgArmOut TcgArmWords TcgArmOps.
Import ListNotations.
Local Open Scope Z_scope.
Local Open Scope c_scope.
Local Open Scope out_scope.

(** [rd] becomes [v] and nothing else changes. *)
Record writes (c : cpu) (rd v : Z) (c' : cpu) : Prop := {
  w_reg : greg c' rd = v;
  w_other : forall x, x <> rd -> greg c' x = greg c x;
  w_flags : flagN c' = flagN c /\ flagZ c' = flagZ c /\ flagC c' = flagC c /\ flagV c' = flagV c;
  w_bytes : bytes c' = bytes c
}.

Lemma writes_set c rd v : writes c rd v (set_greg c rd v).
Proof. constructor; cbn; auto; [now rewrite Z.eqb_refl|]; intros x N; now apply Z.eqb_neq in N as ->. Qed.

Lemma writes_trans c rd v c1 v' c2 : writes c rd v c1 -> writes c1 rd v' c2 -> writes c rd v' c2.
Proof.
  intros [A B (C1 & C2 & C3 & C4) D] [A' B' (C1' & C2' & C3' & C4') D']; constructor; auto; [|splits|]; try congruence.
  intros x N; now rewrite B', B.
Qed.

Lemma cond_flags cond c c' : flagN c' = flagN c /\ flagZ c' = flagZ c /\ flagC c' = flagC c /\ flagV c' = flagV c ->
  cond_passed cond c' = cond_passed cond c.
Proof. intros (A & B & C & D); unfold cond_passed; now rewrite A, B, C, D. Qed.

(** ** Pieces *)

(** The byte that starts at bit [2 * k]. *)
Definition piece (arg k : Z) : Z := arg .& (0xff .<< (2 * k)).

Lemma piece_field arg k : inU 32 arg -> 0 <= k < 16 ->
  let f := ((arg .>> (2 * k)) .& 0xff) .| (((32 - 2 * k) .<< 7) .& 0xf00) in inU 12 f /\ expand_imm f = piece arg k.
Proof.
  intros Ha; revert k; apply even_counts; cbv zeta; (split; [route|]);
  match goal with |- expand_imm (?x .| ?y) = _ =>
    let r := eval vm_compute in (Z.shiftr y 8) in
    replace y with (r .<< 8) by reflexivity; rewrite (expand_field x r); [unfold ror32, rorw, piece; route|route|unfold inU; lia] end.
Qed.

Lemma split_piece arg k : inU 32 arg -> 0 <= k < 16 ->
  let rest := u32 (arg .& Z.lnot (0xff .<< (2 * k))) in
  inU 32 rest /\ inU 32 (piece arg k) /\ piece arg k .^ rest = arg /\
  (arg = (arg .>> (2 * k)) .<< (2 * k) -> rest mod 2 ^ (2 * (k + 4)) = 0).
Proof.
  intros Ha; revert k; apply even_counts; cbv zeta; unfold piece; (splits; [route|route|route|]); intros E;
  match goal with |- ?r mod ?m = 0 => let n := eval vm_compute in (Z.log2 m) in change (wrap n r = 0) end; rewrite E; clear E; route.
Qed.

(** The operations that take the pieces. *)
Definition takes_pieces (op rd rn : Z) : Prop := (op = 13 /\ rn = 0) \/ (op = 15 /\ rn = 0) \/ (op = 1 /\ rn = rd).

Lemma value_xor op rd rn a x y carry : takes_pieces op rd rn -> inU 32 x -> inU 32 y ->
  fst (dp_value op a x carry) .^ y = fst (dp_value op a (x .^ y) carry) /\ snd (dp_value op a x carry) = None.
Proof.
  intros [[-> _]|[[-> _]|[-> _]]] Hx Hy; cbn; auto; (split; [|reflexivity]).
  - unfold inv. apply Z.bits_inj'; intros i Hi; rewrite Z.lxor_spec, !testbit_wrap, !Z.lnot_spec, Z.lxor_spec by lia.
    destruct (Z.ltb_spec i 32); [now destruct (Z.testbit x i), (Z.testbit y i)|]; rewrite (testbit_high 32 y) by (auto; lia); reflexivity.
  - now rewrite Z.lxor_assoc.
Qed.

Section Arch.
Variable arch : arm_arch.
Abbreviation outs := (TcgArmWords.outs arch).

Lemma opcode_of op rd rn : takes_pieces op rd rn -> gpr rd -> dp_opcode (op .<< 21) op false rd rn.
Proof.
  intros T Hd; constructor; auto.
  - cbn [b2z]; now rewrite Z.shiftl_0_l, Z.lor_0_r.
  - destruct T as [[-> _]|[[-> _]|[-> _]]]; unfold inU; lia.
  - destruct T as [[_ ->]|[[_ ->]|[_ ->]]]; auto; unfold gpr; lia.
  - destruct T as [[-> _]|[[-> _]|[-> _]]]; discriminate.
  - destruct T as [[-> ->]|[[-> ->]|[-> _]]]; auto; discriminate.
Qed.

Lemma pieces_ok fuel : forall op rd rn cond arg j c, takes_pieces op rd rn -> gpr rd -> cond_passed cond c = Some true ->
  0 < arg < 2 ^ 32 -> 0 <= j -> arg mod 2 ^ (2 * j) = 0 -> 16 - j <= 4 * Z.of_nat fuel ->
  outs (movi_pieces fuel cond (op .<< 21) rd rn arg) c (writes c rd (fst (dp_value op (greg c rn) arg (flagC c)))).
Proof.
  induction fuel as [|fuel IH]; intros op rd rn cond arg j c T Hd P Ha Hj Mj L.
  - destruct (ctz_even arg Ha) as (k & _ & Hk & _ & H); apply H in Mj; lia.
  - destruct (ctz_even arg Ha) as (k & Ek & Hk & Es & H); apply H in Mj; auto; cbn [movi_pieces]; rewrite Ek.
    assert (Hu : inU 32 arg) by (unfold inU; lia); destruct (piece_field arg k Hu Hk) as [F1 F2]; cbv zeta in *.
    destruct (split_piece arg k Hu Hk) as (R1 & R2 & R3 & R4); specialize (R4 Es); cbv zeta in *; set (rest := u32 (arg .& _)) in *.
    destruct (value_xor op rd rn (greg c rn) (piece arg k) rest (flagC c) T R2 R1) as [X N]; rewrite R3 in X.
    destruct (dp_value op (greg c rn) (piece arg k) (flagC c)) as [v cv] eqn:E; cbn [fst snd] in *.
    apply outs_then; eapply dat_imm_outs; [now apply opcode_of|exact F1|exact P| |].
    + rewrite F2; unfold dp_result; rewrite E.
      assert (Ht : is_test op = false) by (destruct T as [[-> _]|[[-> _]|[-> _]]]; reflexivity); rewrite Ht; reflexivity.
    + unfold truthy; destruct (Z.eqb_spec rest 0) as [E0|E0]; cbn [negb].
      * apply outs_nothing; rewrite <- X, E0, Z.lxor_0_r; apply writes_set.
      * eapply outs_mono; [eapply (IH 1 rd rd cond rest (k + 4))|]; auto; try lia; try (unfold takes_pieces; tauto).
        -- unfold inU in R1; lia.
        -- intros c' W; cbn [dp_value fst] in W; rewrite (w_reg _ _ _ _ (writes_set c rd v)) in W.
           rewrite <- X; exact (writes_trans c rd v _ _ c' (writes_set c rd v) W).
Qed.

(** ** All constants *)

Variable host : arm_host.
Hypothesis host_v7 : use_armv7_instructions host = true -> has_v7 arch = true.

Lemma mov_imm_outs op cond rd v c : op = 13 \/ op = 15 -> gpr rd -> cond_passed cond c = Some true -> inU 32 v -> 0 <= encode_imm v ->
  outs (tcg_out_dat_imm cond (op .<< 21) rd 0 (rotl v (encode_imm v) .| (encode_imm v .<< 7))) c
    (writes c rd (fst (dp_value op (greg c 0) v (flagC c)))).
Proof.
  intros O Hd P Hv E; destruct (encode_imm_field v Hv E) as [F1 F2]; eapply dat_imm_outs; [|exact F1|exact P| |apply writes_set].
  - apply opcode_of; auto; unfold takes_pieces; tauto.
  - rewrite F2; destruct O as [-> | ->]; reflexivity.
Qed.

Lemma movi32_outs cond rd v c : gpr rd -> cond_passed cond c = Some true -> outs (tcg_out_movi32 host cond rd v) c (writes c rd (u32 v)).
Proof.
  intros Hd P; unfold tcg_out_movi32; set (arg := u32 v); set (inverse := u32 (Z.lnot arg)).
  assert (Ha : inU 32 arg) by (apply wrap_range; lia); assert (Hi : inU 32 inverse) by (apply wrap_range; lia).
  assert (Ei : inv inverse = arg) by now apply inv_inv.
  destruct (_ && (0 <=? encode_imm arg)) eqn:T1.
  { apply andb_true_iff in T1 as [_ T1]; apply Z.leb_le in T1; apply (mov_imm_outs 13); auto. }
  destruct (_ && (0 <=? encode_imm inverse)) eqn:T2.
  { apply andb_true_iff in T2 as [_ T2]; apply Z.leb_le in T2; rewrite <- Ei; apply (mov_imm_outs 15); auto. }
  pose proof (cond_u4 _ _ _ P) as Hc; pose proof (gpr_u4 _ Hd) as Hd4; pose proof (no_pc_ok [rd] (Forall_cons _ Hd (Forall_nil _))) as Np.
  destruct (use_armv7_instructions host) eqn:V7.
  - pose proof (host_v7 eq_refl) as Hv7; destruct (decode_movw cond rd arg) as [D1 D2]; auto; destruct (decode_movt cond rd arg) as [D3 D4]; auto.
    apply outs_then; eapply outs_word; [reflexivity|exact D1|exact D2|exact P|cbn [exec]; rewrite Hv7, Np; reflexivity|].
    assert (Hw : writes c rd (u16 arg) (set_greg c rd (u16 arg))) by apply writes_set; unfold truthy.
    destruct (Z.eqb_spec (arg .& 0xffff0000) 0) as [E|E]; cbn [negb].
    + apply outs_nothing; replace (u16 arg) with arg in Hw at 1; [exact Hw|].
      replace arg with (u16 arg .| (arg .& 0xffff0000)) at 1 by route; now rewrite E, Z.lor_0_r.
    + eapply outs_word with (b := true); [reflexivity|exact D3|exact D4| |cbn [exec]; rewrite Hv7, Np; reflexivity|].
      * rewrite <- P; apply cond_flags, (w_flags _ _ _ _ Hw).
      * eapply writes_trans; [exact Hw|]; rewrite (w_reg _ _ _ _ Hw).
        replace (((arg .>> 16) .<< 16) .| u16 (u16 arg)) with arg by route; apply writes_set.
  - assert (Pos : forall x, inU 32 x -> encode_imm x < 0 -> 0 < x < 2 ^ 32) by (intros x Hx N; apply unencodable in N; unfold inU in Hx; lia).
    cbn [negb orb andb] in T1, T2; apply Z.leb_gt in T1, T2; destruct (_ <? _).
    + rewrite <- Ei; apply (pieces_ok 4 15 rd 0 cond inverse 0); [unfold takes_pieces; tauto|exact Hd|exact P|auto|lia|apply Z.mod_1_r|lia].
    + apply (pieces_ok 4 13 rd 0 cond arg 0); [unfold takes_pieces; tauto|exact Hd|exact P|auto|lia|apply Z.mod_1_r|lia].
Qed.

End Arch.
