(* ===== verification/TcgArmOp.v ===== *)
(** * Operations of the ARM back end

    The code of [tcg_out_op] for an operation that only computes puts the
    outputs into their registers and changes nothing else but the scratch
    register and the flags. *)

From Stdlib Require Import ZArith Lia List Bool.
From S2P Require Import Prelude Bitops BitRoute TcgIr TcgRegAlloc TcgArm ArmIsa TcgArmOut TcgArmWords TcgArmOps TcgArmMovi.
Import ListNotations.
Local Open Scope Z_scope.
Local Open Scope c_scope.
Local Open Scope out_scope.

(** A register that the allocator hands out, or a fixed one. *)
Definition host_reg (x : Z) : Prop := gpr x /\ x <> TCG_REG_TMP.

(** What the allocator promises for the arguments of an operation. *)
Record op_fits (opc : TCGOpcode) (args : list Z) (consts : list bool) : Prop := {
  of_args : length args = (nb_oargs (tcg_op_defs opc) + nb_iargs (tcg_op_defs opc) + nb_cargs (tcg_op_defs opc))%nat;
  of_consts : length consts = (nb_oargs (tcg_op_defs opc) + nb_iargs (tcg_op_defs opc))%nat;
  of_arg : forall i, (i < nb_oargs (tcg_op_defs opc) + nb_iargs (tcg_op_defs opc))%nat ->
    if nth i consts false
    then (nb_oargs (tcg_op_defs opc) <= i)%nat /\ const_match (nth i args 0) (nth i (op_args_ct opc) no_ct) = true
    else host_reg (nth i args 0);
  of_regs : forall i, (i < nb_oargs (tcg_op_defs opc) + nb_iargs (tcg_op_defs opc))%nat -> nth i consts false = false ->
    test_reg (ct_regs (nth i (op_args_ct opc) no_ct)) (nth i args 0) = true;
  of_outs : NoDup (firstn (nb_oargs (tcg_op_defs opc)) args);
  of_alias : forall i, is_ialias (nth i (op_args_ct opc) no_ct) = true ->
    nth i args 0 = nth (alias_index (nth i (op_args_ct opc) no_ct)) args 0
}.

Definition op_inputs (opc : TCGOpcode) (args : list Z) (consts : list bool) (c : cpu) : list Z :=
  let no := nb_oargs (tcg_op_defs opc) in let ni := nb_iargs (tcg_op_defs opc) in
  map2 (fun x k => value c k x) (firstn ni (skipn no args)) (firstn ni (skipn no consts)).

Definition op_constants (opc : TCGOpcode) (args : list Z) : list Z :=
  skipn (nb_oargs (tcg_op_defs opc) + nb_iargs (tcg_op_defs opc)) args.

(** [vs] are in the registers [rds]; only these, the scratch register and the flags have changed. *)
Definition computed (c : cpu) (rds vs : list Z) (c' : cpu) : Prop :=
  map (greg c') rds = vs /\ (forall x, ~ In x rds -> x <> TCG_REG_TMP -> greg c' x = greg c x) /\ bytes c' = bytes c.

Definition cpu_ok (c : cpu) : Prop := forall x, inU 32 (greg c x).

(** ** Constraints *)

Lemma match_r v a r : const_match v (mkCt 0x01 a r) = false.
Proof. reflexivity. Qed.
Lemma match_alias v a r : const_match v (mkCt 0x41 a r) = false.
Proof. reflexivity. Qed.
Lemma match_ri v a r : const_match v (mkCt 0x03 a r) = true.
Proof. reflexivity. Qed.
Lemma match_rI v a r : const_match v (mkCt 0x101 a r) = check_fit_imm (u32 v).
Proof. unfold const_match; cbn; now destruct (check_fit_imm _). Qed.
Lemma match_rIN v a r : const_match v (mkCt 0x501 a r) = check_fit_imm (u32 v) || check_fit_imm (u32 (- v)).
Proof. unfold const_match; cbn; now destruct (check_fit_imm _), (check_fit_imm _). Qed.
Lemma match_rIK v a r : const_match v (mkCt 0x301 a r) = check_fit_imm (u32 v) || check_fit_imm (u32 (Z.lnot v)).
Proof. unfold const_match; cbn; now destruct (check_fit_imm _), (check_fit_imm _). Qed.
Lemma match_rZ v a r : const_match v (mkCt 0x801 a r) = (v =? 0).
Proof. reflexivity. Qed.

Lemma u32_opp v : u32 (- u32 v) = u32 (- v).
Proof. unfold wrap; rewrite <- (Z.sub_0_l (v mod _)), <- (Z.sub_0_l v), Zminus_mod_idemp_r; reflexivity. Qed.

Lemma u32_lnot v : u32 (Z.lnot (u32 v)) = u32 (Z.lnot v).
Proof.
  apply Z.bits_inj'; intros i Hi; rewrite !testbit_wrap, !Z.lnot_spec, testbit_wrap by lia; now destruct (Z.ltb_spec i 32).
Qed.

(** Second operands as [tcg_out_dat_rI], [tcg_out_dat_rIN] and [tcg_out_dat_rIK] take them. *)
Definition rI_ok (k : bool) (x : Z) : Prop := if k then check_fit_imm (u32 x) = true else host_reg x.
Definition either_ok (other : Z -> Z) (k : bool) (x : Z) : Prop :=
  if k then check_fit_imm (u32 x) = true \/ check_fit_imm (u32 (other (u32 x))) = true else host_reg x.

Lemma rIN_fits (k : bool) v a r (P : Prop) : (if k then P /\ const_match v (mkCt 0x501 a r) = true else host_reg v) -> either_ok Z.opp k v.
Proof. unfold either_ok; destruct k; auto; rewrite match_rIN, orb_true_iff, u32_opp; tauto. Qed.
Lemma rIK_fits (k : bool) v a r (P : Prop) : (if k then P /\ const_match v (mkCt 0x301 a r) = true else host_reg v) -> either_ok Z.lnot k v.
Proof. unfold either_ok; destruct k; auto; rewrite match_rIK, orb_true_iff, u32_lnot; tauto. Qed.
Lemma rI_fits (k : bool) v a r (P : Prop) : (if k then P /\ const_match v (mkCt 0x101 a r) = true else host_reg v) -> rI_ok k v.
Proof. unfold rI_ok; destruct k; auto; rewrite match_rI; tauto. Qed.
Lemma r_fits (k : bool) v a r (P : Prop) : (if k then P /\ const_match v (mkCt 0x01 a r) = true else host_reg v) -> k = false /\ host_reg v.
Proof. destruct k; auto; rewrite match_r; intros [_ [=]]. Qed.
Lemma alias_fits (k : bool) v a r (P : Prop) : (if k then P /\ const_match v (mkCt 0x41 a r) = true else host_reg v) -> k = false /\ host_reg v.
Proof. destruct k; auto; rewrite match_alias; intros [_ [=]]. Qed.

(** ** Results *)

Lemma computed_set c rd v : computed c [rd] [v] (set_greg c rd v).
Proof.
  split; [cbn; now rewrite Z.eqb_refl|]; split; [|reflexivity]; cbn; intros x N _; destruct (Z.eqb_spec x rd) as [->|]; [tauto|reflexivity].
Qed.

Lemma computed_writes c rd v c' : writes c rd v c' -> computed c [rd] [v] c'.
Proof. intros [A B C D]; split; [cbn; now rewrite A|]; split; [|exact D]; intros x N _; apply B; intros ->; apply N; now left. Qed.

Section Arch.
Variable arch : arm_arch.
Abbreviation outs := (TcgArmWords.outs arch).

Lemma rI_outs cond opc op s rd rn rhs (k b : bool) c c' (Q : cpu -> Prop) : dp_opcode opc op s rd rn -> rI_ok k rhs -> cond_passed cond c = Some b ->
  (if b then dp_result op s rd rn (value c k rhs) c else Some c) = Some c' -> Q c' -> outs (tcg_out_dat_rI cond opc rd rn rhs k) c Q.
Proof. intros D F; apply dat_rI_outs with (1 := D); destruct k; auto; apply F. Qed.

Lemma either_outs other cond opc opc' op op' s rd rn rhs (k b : bool) c c' (Q : cpu -> Prop) :
  dp_opcode opc op s rd rn -> dp_opcode opc' op' s rd rn -> swaps other op op' s -> either_ok other k rhs -> cond_passed cond c = Some b ->
  (if b then dp_result op s rd rn (value c k rhs) c else Some c) = Some c' -> Q c' -> outs (dat_either other cond opc opc' rd rn rhs k) c Q.
Proof. intros D D' S F; apply dat_either_outs with (op := op) (op' := op') (s := s); auto; destruct k; auto; apply F. Qed.

Lemma mov_reg_outs rd rm c (Q : cpu -> Prop) : gpr rd -> gpr rm -> (forall c', writes c rd (greg c rm) c' -> Q c') -> outs (tcg_out_mov_reg COND_AL rd rm) c Q.
Proof.
  intros Hd Hm H; unfold tcg_out_mov_reg; destruct (Z.eqb_spec rd rm) as [->|N].
  - apply outs_nothing, H; constructor; auto.
  - eapply dat_reg_outs; [apply (opcode_of 13 rd 0)|exact Hm|reflexivity|reflexivity|apply H, writes_set]; auto; unfold takes_pieces; tauto.
Qed.
End Arch.

(** An opcode with registers from [gpr]. *)
Ltac opcode := constructor; [reflexivity|unfold inU; lia|assumption || exact gpr_tmp || (unfold gpr; lia)|assumption || exact gpr_tmp || (unfold gpr; lia)|
  first [discriminate | intros _; split; reflexivity]|first [discriminate | reflexivity]].

(** ** One lemma for each operation *)

Lemma arg_fits opc args consts i ct : op_fits opc args consts -> (i < nb_oargs (tcg_op_defs opc) + nb_iargs (tcg_op_defs opc))%nat ->
  nth i (op_args_ct opc) no_ct = ct ->
  if nth i consts false then (nb_oargs (tcg_op_defs opc) <= i)%nat /\ const_match (nth i args 0) ct = true else host_reg (nth i args 0).
Proof. intros F L <-; exact (of_arg _ _ _ F i L). Qed.

Lemma out_fits opc args consts i : op_fits opc args consts -> (i < nb_oargs (tcg_op_defs opc))%nat -> nth i consts false = false /\ host_reg (nth i args 0).
Proof. intros F L; pose proof (of_arg _ _ _ F i ltac:(lia)) as H; destruct (nth i consts false); [lia|auto]. Qed.

Ltac list2 args L a0 a1 := destruct args as [|a0 [|a1 [|]]]; try discriminate L; clear L.
Ltac list3 args L a0 a1 a2 := destruct args as [|a0 [|a1 [|a2 [|]]]]; try discriminate L; clear L.
Ltac list4 args L a0 a1 a2 a3 := destruct args as [|a0 [|a1 [|a2 [|a3 [|]]]]]; try discriminate L; clear L.
Ltac list5 args L a0 a1 a2 a3 a4 := destruct args as [|a0 [|a1 [|a2 [|a3 [|a4 [|]]]]]]; try discriminate L; clear L.
Ltac list6 args L a0 a1 a2 a3 a4 a5 := destruct args as [|a0 [|a1 [|a2 [|a3 [|a4 [|a5 [|]]]]]]]; try discriminate L; clear L.

(** Output [i]; input [i] with constraint [ct], by [lemma]. *)
Ltac output F i H k := let E := fresh in destruct (out_fits _ _ _ i F) as [E H]; [cbn; lia|]; cbn [nth] in E, H; try subst k.
Ltac input F i ct lemma H := pose proof (arg_fits _ _ _ i ct F ltac:(cbn; lia) eq_refl) as H; cbn [nth] in H; apply lemma in H.

(** The start of the proof for an operation with one output and two inputs. *)
Ltac binary F E args consts a0 a1 a2 k0 k1 k2 H0 :=
  let La := fresh in let Lk := fresh in
  pose proof (of_args _ _ _ F) as La; pose proof (of_consts _ _ _ F) as Lk; list3 args La a0 a1 a2; list3 consts Lk k0 k1 k2; output F 0%nat H0 k0; destruct H0 as [H0 ?].

Ltac unary F E args consts a0 a1 k0 k1 H0 H1 :=
  let La := fresh in let Lk := fresh in
  pose proof (of_args _ _ _ F) as La; pose proof (of_consts _ _ _ F) as Lk; list2 args La a0 a1; list2 consts Lk k0 k1; output F 0%nat H0 k0; destruct H0 as [H0 ?];
  input F 1%nat (mkCt 0x01 0 0xffff) r_fits H1; destruct H1 as [-> [H1 ?]].

Section Ops.
Variable arch : arm_arch.
Variable host : arm_host.
Hypothesis host_v6 : use_armv6_instructions host = true -> has_v6 arch = true.
Hypothesis host_v7 : use_armv7_instructions host = true -> has_v7 arch = true.
Abbreviation outs := (TcgArmWords.outs arch).

(** The operation on [c] is done. *)
Definition op_done (opc : TCGOpcode) (args : list Z) (consts : list bool) (c : cpu) : Prop :=
  forall vs, eval_pure opc (op_inputs opc args consts c) (op_constants opc args) = Some vs ->
    outs (tcg_out_op host opc args consts) c (computed c (firstn (nb_oargs (tcg_op_defs opc)) args) vs).

Lemma plain_sum x y : fst (fst (add_with_carry x y false)) = u32 (x + y).
Proof. cbn; now rewrite Z.add_0_r. Qed.

Lemma inv_sum x y : inU 32 y -> u32 (x + inv y + 1) = u32 (x - y).
Proof.
  intros Hy; rewrite inv_arith by assumption; replace (x + (2 ^ 32 - 1 - y) + 1) with (x - y + 1 * 2 ^ 32) by lia; unfold wrap; now rewrite Z_mod_plus_full.
Qed.

Lemma value_range c k x : cpu_ok c -> inU 32 (value c k x).
Proof. intros H; destruct k; [apply wrap_range; lia|apply H]. Qed.

Lemma add_done args consts c : op_fits add_i32 args consts -> cpu_ok c -> op_done add_i32 args consts c.
Proof.
  intros F Ok vs E; pose proof (of_args _ _ _ F) as La; pose proof (of_consts _ _ _ F) as Lk; list3 args La a0 a1 a2; list3 consts Lk k0 k1 k2.
  output F 0%nat H0 k0; input F 1%nat (mkCt 0x01 0 0xffff) r_fits H1; input F 2%nat (mkCt 0x501 0 0xffff) rIN_fits H2; destruct H0, H1 as [-> [H1 _]].
  cbn in E; injection E as <-; cbn [tcg_out_op nth firstn nb_oargs tcg_op_defs].
  eapply (either_outs arch Z.opp COND_AL ARITH_ADD ARITH_SUB 4 2 false); [opcode|opcode|apply swap_add_sub|exact H2|reflexivity|reflexivity|].
  cbn; rewrite Z.add_0_r; apply computed_set.
Qed.

Lemma u32_land x y : inU 32 x -> inU 32 y -> u32 (x .& y) = x .& y.
Proof. intros Hx Hy; apply wrap_id; route. Qed.
Lemma u32_lor x y : inU 32 x -> inU 32 y -> u32 (x .| y) = x .| y.
Proof. intros Hx Hy; apply wrap_id; route. Qed.
Lemma u32_lxor x y : inU 32 x -> inU 32 y -> u32 (x .^ y) = x .^ y.
Proof. intros Hx Hy; apply wrap_id; route. Qed.
Lemma land_inv x y : inU 32 x -> x .& inv y = u32 (x .& Z.lnot y).
Proof.
  intros Hx; apply Z.bits_inj'; intros i Hi; unfold inv; rewrite testbit_wrap, !Z.land_spec, testbit_wrap by lia.
  destruct (Z.ltb_spec i 32); [reflexivity|apply andb_false_r].
Qed.

Lemma and_done args consts c : op_fits and_i32 args consts -> cpu_ok c -> op_done and_i32 args consts c.
Proof.
  intros F Ok vs E; binary F E args consts a0 a1 a2 k0 k1 k2 H0; input F 1%nat (mkCt 0x01 0 0xffff) r_fits H1; input F 2%nat (mkCt 0x301 0 0xffff) rIK_fits H2.
  destruct H1 as [-> [H1 _]]; cbn in E; rewrite u32_land in E by (apply Ok || now apply value_range); injection E as <-.
  eapply (either_outs arch Z.lnot COND_AL ARITH_AND ARITH_BIC 0 14 false); [opcode|opcode|apply swap_and_bic|exact H2|reflexivity|reflexivity|apply computed_set].
Qed.

Lemma andc_done args consts c : op_fits andc_i32 args consts -> cpu_ok c -> op_done andc_i32 args consts c.
Proof.
  intros F Ok vs E; binary F E args consts a0 a1 a2 k0 k1 k2 H0; input F 1%nat (mkCt 0x01 0 0xffff) r_fits H1; input F 2%nat (mkCt 0x301 0 0xffff) rIK_fits H2.
  destruct H1 as [-> [H1 _]]; cbn in E; rewrite <- land_inv in E by apply Ok; injection E as <-.
  eapply (either_outs arch Z.lnot COND_AL ARITH_BIC ARITH_AND 14 0 false); [opcode|opcode|apply swap_bic_and|exact H2|reflexivity|reflexivity|apply computed_set].
Qed.

Lemma or_done args consts c : op_fits or_i32 args consts -> cpu_ok c -> op_done or_i32 args consts c.
Proof.
  intros F Ok vs E; binary F E args consts a0 a1 a2 k0 k1 k2 H0; input F 1%nat (mkCt 0x01 0 0xffff) r_fits H1; input F 2%nat (mkCt 0x101 0 0xffff) rI_fits H2.
  destruct H1 as [-> [H1 _]]; cbn in E; rewrite u32_lor in E by (apply Ok || now apply value_range); injection E as <-.
  eapply (rI_outs arch COND_AL ARITH_ORR 12 false); [opcode|exact H2|reflexivity|reflexivity|apply computed_set].
Qed.

Lemma xor_done args consts c : op_fits xor_i32 args consts -> cpu_ok c -> op_done xor_i32 args consts c.
Proof.
  intros F Ok vs E; binary F E args consts a0 a1 a2 k0 k1 k2 H0; input F 1%nat (mkCt 0x01 0 0xffff) r_fits H1; input F 2%nat (mkCt 0x101 0 0xffff) rI_fits H2.
  destruct H1 as [-> [H1 _]]; cbn in E; rewrite u32_lxor in E by (apply Ok || now apply value_range); injection E as <-.
  eapply (rI_outs arch COND_AL ARITH_EOR 1 false); [opcode|exact H2|reflexivity|reflexivity|apply computed_set].
Qed.

Lemma rsb_sum x y : inU 32 x -> u32 (inv x + y + 1) = u32 (y - x).
Proof. intros Hx; rewrite (Z.add_comm (inv x)); now apply inv_sum. Qed.

Lemma sub_done args consts c : op_fits sub_i32 args consts -> cpu_ok c -> op_done sub_i32 args consts c.
Proof.
  intros F Ok vs E; binary F E args consts a0 a1 a2 k0 k1 k2 H0; input F 1%nat (mkCt 0x101 0 0xffff) rI_fits H1; input F 2%nat (mkCt 0x501 0 0xffff) rIN_fits H2.
  cbn in E; injection E as <-; cbn [tcg_out_op nth firstn nb_oargs tcg_op_defs]; destruct k1; [destruct k2|].
  - eapply outs_mono; [apply movi32_outs; [exact host_v7|exact H0|reflexivity]|]; intros c' W; cbn [value].
    replace (u32 (u32 a1 - u32 a2)) with (u32 (a1 - a2)) by (unfold wrap; now rewrite <- Zminus_mod); now apply computed_writes.
  - destruct H2 as [H2 _]; eapply (rI_outs arch COND_AL ARITH_RSB 3 false _ _ _ true); [opcode|exact H1|reflexivity|reflexivity|].
    cbn -[Z.pow]; rewrite rsb_sum by apply Ok; apply computed_set.
  - destruct H1 as [H1 _]; eapply (either_outs arch Z.opp COND_AL ARITH_SUB ARITH_ADD 2 4 false); [opcode|opcode|apply swap_sub_add|exact H2|reflexivity|reflexivity|].
    cbn [dp_value fst add_with_carry b2z value is_test set_greg]; rewrite inv_sum by (now apply value_range); apply computed_set.
Qed.

(** *** One input *)

Lemma neg_done args consts c : op_fits neg_i32 args consts -> cpu_ok c -> op_done neg_i32 args consts c.
Proof.
  intros F Ok vs E; unary F E args consts a0 a1 k0 k1 H0 H1; cbn in E; injection E as <-.
  eapply (dat_imm_outs arch COND_AL ARITH_RSB 3 false); [opcode|unfold inU; lia|reflexivity|reflexivity|].
  change (expand_imm 0) with 0; cbn [dp_value add_with_carry b2z is_test fst]; rewrite rsb_sum by apply Ok; apply computed_set.
Qed.

Lemma not_done args consts c : op_fits not_i32 args consts -> cpu_ok c -> op_done not_i32 args consts c.
Proof.
  intros F Ok vs E; unary F E args consts a0 a1 k0 k1 H0 H1; cbn in E; injection E as <-.
  eapply (dat_reg_outs arch COND_AL ARITH_MVN 15 false); [opcode|exact H1|reflexivity|reflexivity|apply computed_set].
Qed.

(** A move with a shift by a constant. *)
Lemma mov_shift_outs rd rm ty n c (Q : cpu -> Prop) : gpr rd -> gpr rm -> inU 2 ty -> 0 < n < 32 -> Q (set_greg c rd (shift_value ty (greg c rm) n)) ->
  outs (tcg_out_dat_reg COND_AL ARITH_MOV rd 0 rm ((n .<< 7) .| (ty .<< 5))) c Q.
Proof.
  intros Hd Hm Ht Hn H; eapply (dat_shift_outs arch COND_AL ARITH_MOV 13 false _ _ _ _ ty n true); [opcode|exact Hm|reflexivity|exact Ht|unfold inU; lia|reflexivity| |reflexivity|exact H].
  cbn [op2_value]; rewrite gpr_not_pc by assumption; now destruct (Z.eqb_spec n 0); [lia|].
Qed.

(** An instruction with one operand of version 6. *)
Lemma unary_outs k op lo rd rm i c c' (Q : cpu -> Prop) : gpr rd -> gpr rm -> inU 8 op -> inU 8 lo ->
  k = (op .<< 20) .| (15 .<< 16) .| (lo .<< 4) -> bits op 5 3 = 3 -> bits lo 0 1 = 1 -> bits op 1 7 <> 0x3e ->
  (op =? 0x71) || (op =? 0x73) = false -> decode_extend op lo rd rm = Some i -> exec arch i c = Some c' -> Q c' ->
  outs (tcg_out32 (k .| (COND_AL .<< 28) .| (rd .<< 12) .| rm)) c Q.
Proof.
  intros Hd Hm Ho Hl K B1 B2 B3 B4 D X H; destruct (decode_unary k op lo COND_AL rd rm i) as [D1 D2]; auto using gpr_u4; try (unfold inU, COND_AL; lia).
  now apply (outs_word arch _ _ i COND_AL true c c' Q eq_refl D1 D2 eq_refl).
Qed.

Ltac v6_unary op lo := eapply (unary_outs _ op lo); [assumption|assumption|unfold inU; lia|unfold inU; lia|reflexivity|reflexivity|reflexivity|discriminate|reflexivity|reflexivity|
  cbn [exec]; rewrite host_v6, no_pc_ok by auto; reflexivity|].

(** Two shifts by [n], to the left and back. *)
Lemma shifts_outs a0 a1 ty n c (Q : cpu -> Prop) : gpr a0 -> gpr a1 -> inU 2 ty -> 0 < n < 32 ->
  (forall c', writes c a0 (shift_value ty (u32 (greg c a1 .<< n)) n) c' -> Q c') ->
  outs (tcg_out_dat_reg COND_AL ARITH_MOV a0 0 a1 ((n .<< 7) .| (0 .<< 5)) ;; tcg_out_dat_reg COND_AL ARITH_MOV a0 0 a0 ((n .<< 7) .| (ty .<< 5))) c Q.
Proof.
  intros H0 H1 Ht Hn H; apply outs_then, mov_shift_outs, mov_shift_outs; auto; try (unfold inU; lia).
  apply H; eapply writes_trans; [apply writes_set|]; rewrite (w_reg _ _ _ _ (writes_set _ _ _)); apply writes_set.
Qed.

(** The value that a proof by bits is about. *)
Ltac about c a Ok := let Hx := fresh in pose proof (Ok a) as Hx; generalize dependent (greg c a); intros ? Hx.

Lemma ext8s_done args consts c : op_fits ext8s_i32 args consts -> cpu_ok c -> op_done ext8s_i32 args consts c.
Proof.
  intros F Ok vs E; unary F E args consts a0 a1 k0 k1 H0 H1; cbn in E; injection E as <-; cbn [tcg_out_op nth firstn nb_oargs tcg_op_defs].
  unfold tcg_out_ext8s; destruct (use_armv6_instructions host); [v6_unary 0x6a 0x07; apply computed_set|].
  apply (shifts_outs a0 a1 2 24); auto; try (unfold inU; lia); intros c' W; apply computed_writes; cbn [shift_value] in W.
  replace (u32 (s8 (greg c a1))) with (u32 (s32 (u32 (greg c a1 .<< 24)) .>> 24)); [exact W|]; clear W; about c a1 Ok; route.
Qed.

Lemma ext16s_done args consts c : op_fits ext16s_i32 args consts -> cpu_ok c -> op_done ext16s_i32 args consts c.
Proof.
  intros F Ok vs E; unary F E args consts a0 a1 k0 k1 H0 H1; cbn in E; injection E as <-; cbn [tcg_out_op nth firstn nb_oargs tcg_op_defs].
  unfold tcg_out_ext16s; destruct (use_armv6_instructions host); [v6_unary 0x6b 0x07; apply computed_set|].
  apply (shifts_outs a0 a1 2 16); auto; try (unfold inU; lia); intros c' W; apply computed_writes; cbn [shift_value] in W.
  replace (u32 (s16 (greg c a1))) with (u32 (s32 (u32 (greg c a1 .<< 16)) .>> 16)); [exact W|]; clear W; about c a1 Ok; route.
Qed.

Lemma ext16u_done args consts c : op_fits ext16u_i32 args consts -> cpu_ok c -> op_done ext16u_i32 args consts c.
Proof.
  intros F Ok vs E; unary F E args consts a0 a1 k0 k1 H0 H1; cbn in E; injection E as <-; cbn [tcg_out_op nth firstn nb_oargs tcg_op_defs].
  replace (u32 (u16 (greg c a1))) with (u16 (greg c a1)) by (about c a1 Ok; route).
  unfold tcg_out_ext16u; destruct (use_armv6_instructions host); [v6_unary 0x6f 0x07; apply computed_set|].
  apply (shifts_outs a0 a1 1 16); auto; try (unfold inU; lia); intros c' W; apply computed_writes; cbn [shift_value] in W.
  replace (u16 (greg c a1)) with (u32 (greg c a1 .<< 16) .>> 16); [exact W|]; clear W; about c a1 Ok; route.
Qed.
End Ops.
