(* ===== verification/TcgArmBits.v ===== *)
(** * Shifts, fields and products of the ARM back end

    The operations of [tcg_out_op] that move bits around, multiply and
    divide. *)

From Stdlib Require Import ZArith Lia List Bool.
From S2P Require Import Prelude Bitops BitRoute TcgIr TcgRegAlloc TcgArm ArmIsa TcgArmOut TcgArmWords TcgArmOps TcgArmMovi TcgArmOp.
Import ListNotations.
Local Open Scope Z_scope.
Local Open Scope c_scope.
Local Open Scope out_scope.

Section Ops.
Variable arch : arm_arch.
Variable host : arm_host.
Hypothesis host_v6 : use_armv6_instructions host = true -> has_v6 arch = true.
Hypothesis host_v7 : use_armv7_instructions host = true -> has_v7 arch = true.
Abbreviation outs := (TcgArmWords.outs arch).
Abbreviation op_done := (TcgArmOp.op_done arch host).

Ltac v6_unary op lo := eapply (unary_outs arch _ op lo); [assumption|assumption|unfold inU; lia|unfold inU; lia|reflexivity|reflexivity|reflexivity|discriminate|
  reflexivity|reflexivity|cbn [exec]; rewrite host_v6, no_pc_ok by auto; reflexivity|].

(** The value that a proof by bits is about. *)
Ltac about c a Ok := let Hx := fresh in pose proof (Ok a) as Hx; generalize dependent (greg c a); intros ? Hx.

Lemma greg_set_eq c x v : greg (set_greg c x v) x = v.
Proof. cbn; now rewrite Z.eqb_refl. Qed.
Lemma greg_set_ne c x y v : y <> x -> greg (set_greg c x v) y = greg c y.
Proof. intros N; cbn; apply Z.eqb_neq in N; now rewrite N. Qed.

Ltac regs := repeat first [rewrite greg_set_eq | rewrite greg_set_ne by auto using not_eq_sym].

(** The scratch register may have been used. *)
Lemma computed_tmp c u rd v : computed c [rd] [v] (set_greg (set_greg c TCG_REG_TMP u) rd v).
Proof.
  split; [cbn; now rewrite Z.eqb_refl|]; split; [|reflexivity]; intros x N T; rewrite !greg_set_ne; auto; intros ->; apply N; now left.
Qed.

Lemma computed_all c u rds vs c' : ~ In TCG_REG_TMP rds -> computed (set_greg c TCG_REG_TMP u) rds vs c' -> computed c rds vs c'.
Proof.
  intros N (A & B & C); split; [exact A|]; split; [|exact C]; intros x Nx T; rewrite (B x Nx T); now apply greg_set_ne.
Qed.

Lemma computed_pair c lo hi u v : lo <> hi -> computed c [lo; hi] [u; v] (set_greg (set_greg c lo u) hi v).
Proof.
  intros N; split; [cbn [map]; rewrite (greg_set_ne _ _ lo), !greg_set_eq by assumption; reflexivity|]; split; [|reflexivity].
  intros x Nx _; rewrite !greg_set_ne; auto; intros ->; apply Nx; cbn; auto.
Qed.

(** A shifted register that is combined with the scratch register. *)
Lemma orr_tmp_outs rd rn ty n c (Q : cpu -> Prop) : gpr rd -> gpr rn -> inU 2 ty -> 0 < n < 32 ->
  Q (set_greg c rd (greg c TCG_REG_TMP .| shift_value ty (greg c rn) n)) ->
  outs (tcg_out_dat_reg COND_AL ARITH_ORR rd TCG_REG_TMP rn ((n .<< 7) .| (ty .<< 5))) c Q.
Proof.
  intros Hd Hn Ht Ln H; eapply (dat_shift_outs arch COND_AL ARITH_ORR 12 false rd TCG_REG_TMP rn _ ty n true); [opcode|exact Hn|reflexivity|exact Ht|unfold inU; lia|reflexivity| |reflexivity|exact H].
  cbn [op2_value]; rewrite gpr_not_pc by assumption; now destruct (Z.eqb_spec n 0); [lia|].
Qed.

(** Two shifts of [rn] in the scratch register. *)
Lemma tmp_shifts_outs rn ty n ty' n' c (Q : cpu -> Prop) : gpr rn -> inU 2 ty -> inU 2 ty' -> 0 < n < 32 -> 0 < n' < 32 ->
  (forall u, Q (set_greg (set_greg c TCG_REG_TMP u) TCG_REG_TMP (shift_value ty' (shift_value ty (greg c rn) n) n'))) ->
  outs (tcg_out_dat_reg COND_AL ARITH_MOV TCG_REG_TMP 0 rn ((n .<< 7) .| (ty .<< 5)) ;;
        tcg_out_dat_reg COND_AL ARITH_MOV TCG_REG_TMP 0 TCG_REG_TMP ((n' .<< 7) .| (ty' .<< 5))) c Q.
Proof.
  intros Hn Ht Ht' L L' H; apply outs_then, mov_shift_outs, mov_shift_outs; auto; rewrite greg_set_eq; apply H.
Qed.

Lemma outs_assoc x y z c Q : outs ((x ;; y) ;; z) c Q -> outs (x ;; y ;; z) c Q.
Proof.
  intros (ws & c' & E & R & H); exists ws, c'; splits; auto; rewrite <- E; unfold andthen; destruct x, y, z; auto; now rewrite app_assoc.
Qed.

Lemma bswap16_outs rd rn c : host_reg rd -> host_reg rn -> inU 16 (greg c rn) ->
  outs (tcg_out_bswap16 host COND_AL rd rn) c (computed c [rd] [bswap16 (greg c rn)]).
Proof.
  intros [Hd Td] [Hn Tn] Hx; unfold tcg_out_bswap16; destruct (use_armv6_instructions host).
  { v6_unary 0x6b 0xfb; replace (rev16_value (greg c rn)) with (bswap16 (greg c rn)); [apply computed_set|].
    unfold rev16_value, bswap16; generalize dependent (greg c rn); intros x Hx; route. }
  apply outs_assoc, outs_then, (tmp_shifts_outs rn 0 24 1 16); auto; try (unfold inU; lia); intros u; apply (orr_tmp_outs rd rn 1 8); auto; try (unfold inU; lia).
  regs; cbn [shift_value]; apply (computed_all c u); [cbn; tauto|].
  replace (bswap16 (greg c rn)) with ((u32 (greg c rn .<< 24) .>> 16) .| (greg c rn .>> 8)); [apply computed_tmp|].
  unfold bswap16; generalize dependent (greg c rn); intros x Hx; route.
Qed.

Lemma bswap16s_outs rd rn c : host_reg rd -> host_reg rn -> inU 16 (greg c rn) ->
  outs (tcg_out_bswap16s host COND_AL rd rn) c (computed c [rd] [u32 (s16 (bswap16 (greg c rn)))]).
Proof.
  intros [Hd Td] [Hn Tn] Hx; unfold tcg_out_bswap16s; destruct (use_armv6_instructions host).
  { v6_unary 0x6f 0xfb; replace (rev16_value (greg c rn)) with (bswap16 (greg c rn)); [apply computed_set|].
    unfold rev16_value, bswap16; generalize dependent (greg c rn); intros x Hx; route. }
  apply outs_assoc, outs_then, (tmp_shifts_outs rn 0 24 2 16); auto; try (unfold inU; lia); intros u; apply (orr_tmp_outs rd rn 1 8); auto; try (unfold inU; lia).
  regs; cbn [shift_value]; apply (computed_all c u); [cbn; tauto|].
  replace (u32 (s16 (bswap16 (greg c rn)))) with (u32 (s32 (u32 (greg c rn .<< 24)) .>> 16) .| (greg c rn .>> 8)); [apply computed_tmp|].
  unfold bswap16; generalize dependent (greg c rn); intros x Hx; route.
Qed.

(** The low half is swapped; the rest is anything. *)
Lemma bswap16st_outs rd rn c : host_reg rd -> host_reg rn -> inU 32 (greg c rn) ->
  outs (tcg_out_bswap16st host COND_AL rd rn) c (fun c' => exists v, computed c [rd] [v] c' /\ inU 32 v /\ u16 v = bswap16 (u16 (greg c rn)) /\
    (use_armv6_instructions host = true -> greg c' TCG_REG_TMP = greg c TCG_REG_TMP)).
Proof.
  intros [Hd Td] [Hn Tn] Hx; unfold tcg_out_bswap16st; destruct (use_armv6_instructions host).
  { v6_unary 0x6b 0xfb; eexists; splits; [apply computed_set| | |intros _; now regs];
    unfold rev16_value, bswap16; generalize dependent (greg c rn); intros x Hx; route. }
  apply outs_then, (mov_shift_outs arch TCG_REG_TMP rn 1 8); auto; try (unfold inU; lia).
  apply outs_then; eapply (dat_imm_outs arch COND_AL ARITH_AND 0 false); [opcode|unfold inU; lia|reflexivity|reflexivity|].
  apply (orr_tmp_outs rd rn 0 8); auto; try (unfold inU; lia); change (is_test 0) with false; regs; cbn [shift_value dp_value]; change (expand_imm 0xff) with 0xff.
  eexists; splits; [eapply (computed_all c); [cbn; tauto|apply computed_tmp]| | |discriminate];
  unfold bswap16; generalize dependent (greg c rn); intros x Hx; route.
Qed.

Lemma bswap16_done args consts c : op_fits bswap16_i32 args consts -> cpu_ok c -> op_done bswap16_i32 args consts c.
Proof.
  intros F Ok vs E; unary F E args consts a0 a1 k0 k1 H0 H1; cbn -[bswap16 Z.pow] in E; destruct (Z.ltb_spec (greg c a1) (2 ^ 16)) as [L|]; [|discriminate].
  assert (Hx : inU 16 (greg c a1)) by (pose proof (Ok a1); unfold inU in *; lia); injection E as <-; now apply bswap16_outs.
Qed.

Lemma land_lxor x y z : (x .^ y) .& z = (x .& z) .^ (y .& z).
Proof. apply Z.bits_inj'; intros i _; rewrite Z.lxor_spec, !Z.land_spec, Z.lxor_spec; now destruct (Z.testbit x i), (Z.testbit y i), (Z.testbit z i). Qed.

Lemma bswap_by_xor x : inU 32 x ->
  ror32 x 8 .^ (((x .^ ror32 x 16) .& inv 0x00ff0000) .>> 8) = bswap32 x.
Proof.
  intros Hx; rewrite land_lxor, Z.shiftr_lxor; change (inv 0x00ff0000) with 0xff00ffff.
  replace (ror32 x 8) with (((u8 x .<< 24) .| (u8 (x .>> 16) .<< 8)) .^ ((x .& 0xff00ffff) .>> 8)) by (unfold ror32, rorw; route).
  rewrite Z.lxor_assoc, <- (Z.lxor_assoc ((x .& _) .>> 8)), Z.lxor_nilpotent, Z.lxor_0_l; unfold ror32, rorw, bswap32; route.
Qed.

(** What the swap without REV leaves in the scratch register. *)
Definition bswap_scratch (x : Z) : Z := (x .^ ror32 x 16) .& 0xff00ffff.

Lemma bswap32_exact rd rn c : host_reg rd -> host_reg rn -> inU 32 (greg c rn) ->
  outs (tcg_out_bswap32 host COND_AL rd rn) c (fun c' => computed c [rd] [bswap32 (greg c rn)] c' /\
    greg c' TCG_REG_TMP = if use_armv6_instructions host then greg c TCG_REG_TMP else bswap_scratch (greg c rn)).
Proof.
  intros [H0 T0] [H1 T1] Hx; unfold tcg_out_bswap32; destruct (use_armv6_instructions host); [v6_unary 0x6b 0xf3; split; [apply computed_set|now regs]|].
  apply outs_then; eapply (dat_shift_outs arch COND_AL ARITH_EOR 1 false TCG_REG_TMP rn rn _ 3 16 true); [opcode|exact H1|reflexivity|unfold inU; lia|unfold inU; lia|reflexivity| |reflexivity|].
  { cbn [op2_value Z.eqb]; rewrite gpr_not_pc by assumption; reflexivity. }
  apply outs_then; eapply (dat_imm_outs arch COND_AL ARITH_BIC 14 false); [opcode|unfold inU; cbn; lia|reflexivity|reflexivity|].
  apply outs_then, (mov_shift_outs arch rd rn 3 8); auto; try (unfold inU; lia).
  eapply (dat_shift_outs arch COND_AL ARITH_EOR 1 false rd rd TCG_REG_TMP _ 1 8 true); [opcode|auto|reflexivity|unfold inU; lia|unfold inU; lia|reflexivity|reflexivity|reflexivity|].
  cbn [dp_value is_test shift_value]; change (expand_imm (0xff .| 0x800)) with 0x00ff0000; change (8 mod 32) with 8; change (16 mod 32) with 16.
  change (is_test 1) with false; change (is_test 14) with false; regs; rewrite bswap_by_xor by exact Hx; split; [|reflexivity].
  split; [cbn; now rewrite Z.eqb_refl|]; split; [|reflexivity]; intros x N T; rewrite !greg_set_ne; auto; intros ->; apply N; now left.
Qed.

Lemma bswap32_outs rd rn c : host_reg rd -> host_reg rn -> inU 32 (greg c rn) ->
  outs (tcg_out_bswap32 host COND_AL rd rn) c (fun c' => computed c [rd] [bswap32 (greg c rn)] c' /\
    (use_armv6_instructions host = true -> greg c' TCG_REG_TMP = greg c TCG_REG_TMP)).
Proof. intros Hd Hn Hx; eapply outs_mono; [now apply bswap32_exact|]; intros c' [C ->]; split; [exact C|now intros ->]. Qed.

Lemma bswap32_done args consts c : op_fits bswap32_i32 args consts -> cpu_ok c -> op_done bswap32_i32 args consts c.
Proof.
  intros F Ok vs E; unary F E args consts a0 a1 k0 k1 H0 H1; cbn -[bswap32] in E; injection E as <-; cbn [tcg_out_op nth firstn nb_oargs tcg_op_defs].
  replace (u32 (bswap32 (greg c a1))) with (bswap32 (greg c a1)) by (unfold bswap32; about c a1 Ok; route).
  eapply outs_mono; [apply bswap32_outs; [now split|now split|apply Ok]|]; now intros c' [C _].
Qed.

(** ** Products and quotients *)

Lemma mul_outs rd rn rm c (Q : cpu -> Prop) : gpr rd -> gpr rn -> gpr rm -> has_v6 arch = true \/ rd <> rn ->
  Q (set_greg c rd (u32 (greg c rn * greg c rm))) -> outs (tcg_out32 ((COND_AL .<< 28) .| 0x90 .| (rd .<< 16) .| (rm .<< 8) .| rn)) c Q.
Proof.
  intros Hd Hn Hm V H; destruct (decode_mul COND_AL rd rn rm) as [D1 D2]; auto using gpr_u4; try (unfold inU, COND_AL; lia).
  eapply (outs_word arch _ _ _ COND_AL true c _ Q eq_refl D1 D2 eq_refl); [cbn [exec]; rewrite no_pc_ok by auto|exact H].
  now destruct V as [-> | N%Z.eqb_neq]; [|rewrite N, orb_true_r].
Qed.

Lemma mul_done args consts c : op_fits mul_i32 args consts -> op_done mul_i32 args consts c.
Proof.
  intros F vs E; binary F E args consts a0 a1 a2 k0 k1 k2 H0; input F 1%nat (mkCt 0x01 0 0xffff) r_fits H1; input F 2%nat (mkCt 0x01 0 0xffff) r_fits H2.
  destruct H1 as [-> [H1 ?]], H2 as [-> [H2 ?]]; cbn in E; injection E as <-; cbn [tcg_out_op nth firstn nb_oargs tcg_op_defs]; unfold tcg_out_mul32.
  destruct (use_armv6_instructions host); cbn [negb andb]; [apply mul_outs; auto; apply computed_set|].
  destruct (Z.eqb_spec a0 a1) as [<-|N]; [|apply mul_outs; auto; apply computed_set]; destruct (Z.eqb_spec a0 a2) as [<-|N].
  - apply outs_then, mov_reg_outs; auto; intros c' [A B C D]; apply mul_outs; auto; rewrite A; split; [cbn; now rewrite Z.eqb_refl|]; split; [|exact D].
    intros x Nx T; rewrite greg_set_ne, B; auto; intros ->; apply Nx; now left.
  - apply mul_outs; auto; rewrite Z.mul_comm; apply computed_set.
Qed.

Lemma mull_outs signed insn lo hi rn rm c (Q : cpu -> Prop) : insn = (if signed : bool then 0x00c00090 else 0x00800090) ->
  gpr lo -> gpr hi -> gpr rn -> gpr rm -> lo <> hi -> has_v6 arch = true \/ (lo <> rn /\ hi <> rn) ->
  (let p := if signed then s32 (greg c rn) * s32 (greg c rm) else greg c rn * greg c rm in Q (set_greg (set_greg c lo (u32 p)) hi (u32 (p .>> 32)))) ->
  outs (tcg_out32 ((COND_AL .<< 28) .| insn .| (hi .<< 16) .| (lo .<< 12) .| (rm .<< 8) .| rn)) c Q.
Proof.
  intros -> Hl Hh Hn Hm N V H; destruct (decode_mull signed COND_AL lo hi rn rm) as [D1 D2]; auto using gpr_u4; try (unfold inU, COND_AL; lia).
  eapply (outs_word arch _ _ _ COND_AL true c _ Q eq_refl D1 D2 eq_refl); [cbn [exec]; rewrite no_pc_ok by auto|exact H].
  apply Z.eqb_neq in N; rewrite N; now destruct V as [-> | [N1%Z.eqb_neq N2%Z.eqb_neq]]; [|rewrite N1, N2, orb_true_r].
Qed.

Lemma mull32_outs signed insn lo hi rn rm c : insn = (if signed : bool then 0x00c00090 else 0x00800090) ->
  host_reg lo -> host_reg hi -> host_reg rn -> host_reg rm -> lo <> hi ->
  outs (mull32 host insn COND_AL lo hi rn rm) c
    (computed c [lo; hi] (words_of (if signed then s32 (greg c rn) * s32 (greg c rm) else greg c rn * greg c rm))).
Proof.
  intros I [Hl Tl] [Hh Th] [Hn Tn] [Hm Tm] N; unfold mull32.
  destruct (use_armv6_instructions host); cbn [negb andb]; [eapply mull_outs; eauto; now apply computed_pair|].
  destruct (Z.eqb_spec lo rn), (Z.eqb_spec hi rn); cbn [orb]; [..|eapply mull_outs; eauto; now apply computed_pair].
  all: destruct (Z.eqb_spec lo rm), (Z.eqb_spec hi rm); cbn [orb].
  all: try (eapply mull_outs; eauto; destruct signed; rewrite Z.mul_comm; now apply computed_pair).
  all: apply outs_then, mov_reg_outs; auto; intros c' [A B C D]; eapply mull_outs; eauto; rewrite A, (B rm) by auto.
  all: split; [cbn [map]; rewrite (greg_set_ne _ _ lo), !greg_set_eq by assumption; reflexivity|]; split; [|exact D].
  all: intros x Nx T; rewrite !greg_set_ne, B; auto; intros ->; apply Nx; cbn; auto.
Qed.

Ltac mull F args consts a0 a1 a2 a3 k0 k1 k2 k3 :=
  let La := fresh in let Lk := fresh in let N := fresh "N" in let H0 := fresh "H0" in let H1 := fresh "H1" in let H2 := fresh "H2" in let H3 := fresh "H3" in
  pose proof (of_args _ _ _ F) as La; pose proof (of_consts _ _ _ F) as Lk; list4 args La a0 a1 a2 a3; list4 consts Lk k0 k1 k2 k3;
  pose proof (of_outs _ _ _ F) as N; cbn in N; output F 0%nat H0 k0; output F 1%nat H1 k1;
  input F 2%nat (mkCt 0x01 0 0xffff) r_fits H2; input F 3%nat (mkCt 0x01 0 0xffff) r_fits H3; destruct H2 as [-> H2], H3 as [-> H3];
  assert (a0 <> a1) by (intros ->; inversion N; cbn in *; tauto).

Lemma mulu2_done args consts c : op_fits mulu2_i32 args consts -> op_done mulu2_i32 args consts c.
Proof. intros F vs E; mull F args consts a0 a1 a2 a3 k0 k1 k2 k3; injection E as <-; now apply (mull32_outs false). Qed.

Lemma muls2_done args consts c : op_fits muls2_i32 args consts -> op_done muls2_i32 args consts c.
Proof. intros F vs E; mull F args consts a0 a1 a2 a3 k0 k1 k2 k3; injection E as <-; now apply (mull32_outs true). Qed.

Lemma div_outs signed insn rd rn rm c (Q : cpu -> Prop) : insn = (if signed : bool then 0x0710f010 else 0x0730f010) -> has_idiv arch = true ->
  gpr rd -> gpr rn -> gpr rm -> greg c rm <> 0 ->
  Q (set_greg c rd (if signed then u32 (Z.quot (s32 (greg c rn)) (s32 (greg c rm))) else greg c rn / greg c rm)) ->
  outs (tcg_out32 (insn .| (COND_AL .<< 28) .| (rd .<< 16) .| rn .| (rm .<< 8))) c Q.
Proof.
  intros -> V Hd Hn Hm N%Z.eqb_neq H; destruct (decode_div signed COND_AL rd rn rm) as [D1 D2]; auto using gpr_u4; try (unfold inU, COND_AL; lia).
  eapply (outs_word arch _ _ _ COND_AL true c _ Q eq_refl D1 D2 eq_refl); [cbn [exec]|exact H]; now rewrite no_pc_ok, V, N by auto.
Qed.

Lemma div_done args consts c : has_idiv arch = true -> op_fits div_i32 args consts -> op_done div_i32 args consts c.
Proof.
  intros V F vs E; binary F E args consts a0 a1 a2 k0 k1 k2 H0; input F 1%nat (mkCt 0x01 0 0xffff) r_fits H1; input F 2%nat (mkCt 0x01 0 0xffff) r_fits H2.
  destruct H1 as [-> [H1 ?]], H2 as [-> [H2 ?]]; cbn -[Z.pow Z.quot] in E; destruct (Z.eqb_spec (greg c a2) 0); [discriminate|].
  destruct (_ && _) in E; [discriminate|]; injection E as <-; apply (div_outs true); auto; apply computed_set.
Qed.

Lemma divu_done args consts c : has_idiv arch = true -> op_fits divu_i32 args consts -> cpu_ok c -> op_done divu_i32 args consts c.
Proof.
  intros V F Ok vs E; binary F E args consts a0 a1 a2 k0 k1 k2 H0; input F 1%nat (mkCt 0x01 0 0xffff) r_fits H1; input F 2%nat (mkCt 0x01 0 0xffff) r_fits H2.
  destruct H1 as [-> [H1 ?]], H2 as [-> [H2 ?]]; cbn -[Z.div] in E; destruct (Z.eqb_spec (greg c a2) 0); [discriminate|]; injection E as <-.
  rewrite wrap_id; [apply (div_outs false); auto; apply computed_set|]; pose proof (Ok a1); pose proof (Ok a2); unfold inU in *.
  split; [apply Z.div_pos; lia|]; apply Z.div_lt_upper_bound; nia.
Qed.

(** ** Fields *)

Lemma bfi_outs rd rn lsb msb c (Q : cpu -> Prop) : has_v7 arch = true -> gpr rd -> inU 4 rn -> 0 <= lsb <= msb -> msb < 32 ->
  Q (set_greg c rd (deposit32 (greg c rd) lsb (msb + 1 - lsb) (if rn =? 15 then 0 else greg c rn))) ->
  outs (tcg_out32 (0x07c00010 .| (COND_AL .<< 28) .| (rd .<< 12) .| rn .| (lsb .<< 7) .| (msb .<< 16))) c Q.
Proof.
  intros V Hd Hn Hl Hm H; destruct (decode_bfi COND_AL rd rn lsb msb) as [D1 D2]; auto using gpr_u4; try (unfold inU, COND_AL; lia).
  eapply (outs_word arch _ _ _ COND_AL true c _ Q eq_refl D1 D2 eq_refl); [cbn [exec]|exact H]; rewrite no_pc_ok, V by auto.
  now rewrite (proj2 (Z.leb_le _ _) (proj2 Hl)).
Qed.

Lemma rZ_fits (k : bool) v a r (P : Prop) : (if k then P /\ const_match v (mkCt 0x801 a r) = true else host_reg v) -> if k then v = 0 else gpr v.
Proof. destruct k; [rewrite match_rZ, Z.eqb_eq; tauto|intros [H _]; exact H]. Qed.

Lemma deposit_done args consts c : use_armv7_instructions host = true -> op_fits deposit_i32 args consts -> cpu_ok c -> op_done deposit_i32 args consts c.
Proof.
  intros V F Ok vs E; pose proof (of_args _ _ _ F) as La; pose proof (of_consts _ _ _ F) as Lk; list5 args La a0 a1 a2 pos len; list3 consts Lk k0 k1 k2.
  output F 0%nat H0 k0; destruct H0 as [H0 _]; input F 1%nat (mkCt 0x41 0 0xffff) alias_fits H1; destruct H1 as [-> _].
  input F 2%nat (mkCt 0x801 0 0xffff) rZ_fits H2; assert (a1 = a0) as -> by exact (of_alias _ _ _ F 1%nat eq_refl).
  cbn -[deposit32 value Z.sub] in E; destruct (Z.leb_spec 0 pos), (Z.ltb_spec 0 len), (Z.leb_spec len (32 - pos)); try discriminate; injection E as <-.
  cbn [tcg_out_op nth firstn nb_oargs tcg_op_defs]; apply bfi_outs; auto; try lia; [destruct k2; [split; [discriminate|reflexivity]|now apply gpr_u4]|].
  replace (pos + len - 1 + 1 - pos) with len by lia; destruct k2; cbn [value]; [subst a2; apply computed_set|].
  rewrite (gpr_not_pc a2) by assumption; apply computed_set.
Qed.

(** ** Shifts and rotations *)

Lemma count_const a : u32 a < 32 -> a .& 0x1f = u32 a.
Proof.
  intros H; pose proof (wrap_range 32 a ltac:(lia)) as R; change 0x1f with (Z.ones 5); rewrite Z.land_ones by lia; unfold wrap, inU in *.
  rewrite <- (Z.mod_small (a mod 2 ^ 32) (2 ^ 5)) by lia; symmetry; apply Z.mod_mod_divide; now exists (2 ^ 27).
Qed.

Lemma count_reg y : 0 <= y < 256 -> y .& 0xff = y.
Proof. intros H; change 0xff with (Z.ones 8); rewrite Z.land_ones by lia; apply Z.mod_small; lia. Qed.

Lemma ri_fits (k : bool) v a r (P : Prop) : (if k then P /\ const_match v (mkCt 0x03 a r) = true else host_reg v) -> if k then True else host_reg v.
Proof. destruct k; auto. Qed.

(** A move with a shift by [n], which is a move when [n] is 0. *)
Lemma mov_count_outs rd rm ty n c v : gpr rd -> gpr rm -> inU 2 ty -> 0 <= n < 32 ->
  (n = 0 -> v = greg c rm) -> (0 < n -> v = shift_value ty (greg c rm) n) ->
  outs (tcg_out_dat_reg COND_AL ARITH_MOV rd 0 rm (if truthy n then (n .<< 7) .| (ty .<< 5) else SHIFT_IMM_LSL 0)) c (computed c [rd] [v]).
Proof.
  intros Hd Hm Ht Hn Z0 P; unfold truthy; destruct (Z.eqb_spec n 0) as [->|N]; cbn [negb].
  - rewrite Z0 by reflexivity; eapply (dat_reg_outs arch COND_AL ARITH_MOV 13 false); [opcode|exact Hm|reflexivity|reflexivity|apply computed_set].
  - rewrite P by lia; apply mov_shift_outs; auto; [lia|apply computed_set].
Qed.

Lemma shift_outs ty f imm reg a0 a1 a2 (k2 : bool) c : gpr a0 -> gpr a1 -> (if k2 then True else host_reg a2) -> inU 2 ty ->
  (forall n, imm n = (n .<< 7) .| (ty .<< 5)) -> (forall rs, reg rs = (rs .<< 8) .| (0x10 .| (ty .<< 5))) ->
  (forall x n, inU 32 x -> 0 <= n < 32 -> shift_value ty x n = u32 (f x n)) -> (forall x, inU 32 x -> u32 (f x 0) = x) ->
  cpu_ok c -> value c k2 a2 < 32 -> outs (out_shift [a0; a1; a2] k2 imm reg) c (computed c [a0] [u32 (f (greg c a1) (value c k2 a2))]).
Proof.
  intros H0 H1 H2 Ht Ei Er V V0 Ok L; pose proof (value_range c k2 a2 Ok) as R; unfold out_shift; cbn [nth]; unfold inU in R; destruct k2; cbn [value] in *.
  - rewrite Ei, (count_const a2) by assumption; apply mov_count_outs; auto; try lia; [intros ->; apply V0, Ok|intros _; symmetry; apply V; [apply Ok|lia]].
  - destruct H2 as [H2 _]; eapply (dat_shift_reg_outs arch COND_AL ARITH_MOV 13 false); [opcode|exact H1|exact H2|apply Er|exact Ht|reflexivity|reflexivity|].
    cbn [dp_value is_test]; rewrite count_reg by lia; rewrite V by (auto; lia); apply computed_set.
Qed.

(** The proof for [f], with the values of the shift by [V] and of the shift by 0 by [V0]. *)
Ltac shifted F E args consts ty f imm reg V V0 :=
  let H0 := fresh "H0" in let H1 := fresh "H1" in let H2 := fresh "H2" in let a0 := fresh "a0" in let a1 := fresh "a1" in let a2 := fresh "a2" in
  let k0 := fresh "k0" in let k1 := fresh "k1" in let k2 := fresh "k2" in
  binary F E args consts a0 a1 a2 k0 k1 k2 H0; input F 1%nat (mkCt 0x01 0 0xffff) r_fits H1; input F 2%nat (mkCt 0x03 0 0xffff) ri_fits H2;
  destruct H1 as [-> [H1 _]]; cbn -[value shift] in E; unfold shift in E; cbn [value] in E;
  match type of E with context [?y <? 32] => destruct (Z.ltb_spec y 32); [|discriminate] end; injection E as <-;
  apply (shift_outs ty f imm reg); auto; unfold inU; lia.

Lemma shl_done args consts c : op_fits shl_i32 args consts -> cpu_ok c -> op_done shl_i32 args consts c.
Proof.
  intros F Ok vs E; assert (V : forall x n, inU 32 x -> 0 <= n < 32 -> shift_value 0 x n = u32 (x .<< n)) by reflexivity.
  assert (V0 : forall x, inU 32 x -> u32 (x .<< 0) = x) by (intros; rewrite Z.shiftl_0_r; now apply wrap_id).
  shifted F E args consts 0 Z.shiftl SHIFT_IMM_LSL SHIFT_REG_LSL V V0.
Qed.

Lemma shift_right_range x n : inU 32 x -> 0 <= n -> inU 32 (x .>> n).
Proof.
  intros Hx Hn; rewrite Z.shiftr_div_pow2 by lia; unfold inU in *; pose proof (pow2_pos n); split; [apply Z.div_pos; lia|].
  apply Z.div_lt_upper_bound; nia.
Qed.

Lemma shr_done args consts c : op_fits shr_i32 args consts -> cpu_ok c -> op_done shr_i32 args consts c.
Proof.
  intros F Ok vs E; assert (V : forall x n, inU 32 x -> 0 <= n < 32 -> shift_value 1 x n = u32 (x .>> n))
    by (intros; cbn; symmetry; apply wrap_id, shift_right_range; auto; lia).
  assert (V0 : forall x, inU 32 x -> u32 (x .>> 0) = x) by (intros; rewrite Z.shiftr_0_r; now apply wrap_id).
  shifted F E args consts 1 Z.shiftr SHIFT_IMM_LSR SHIFT_REG_LSR V V0.
Qed.

Lemma sar_done args consts c : op_fits sar_i32 args consts -> cpu_ok c -> op_done sar_i32 args consts c.
Proof.
  intros F Ok vs E; assert (V : forall x n, inU 32 x -> 0 <= n < 32 -> shift_value 2 x n = u32 (s32 x .>> n)) by reflexivity.
  assert (V0 : forall x, inU 32 x -> u32 (s32 x .>> 0) = x) by (intros x Hx; rewrite Z.shiftr_0_r, wrap_swrap; [now apply wrap_id|lia..]).
  shifted F E args consts 2 (fun x y => s32 x .>> y) SHIFT_IMM_ASR SHIFT_REG_ASR V V0.
Qed.

Lemma ror_zero x : inU 32 x -> ror32 x 0 = x.
Proof. unfold ror32, rorw; cbn [Z.sub Z.add Z.opp]; intros Hx; route. Qed.

Lemma rotr_done args consts c : op_fits rotr_i32 args consts -> cpu_ok c -> op_done rotr_i32 args consts c.
Proof.
  intros F Ok vs E; assert (V : forall x n, inU 32 x -> 0 <= n < 32 -> shift_value 3 x n = u32 (ror32 x n))
    by (intros; cbn [shift_value]; rewrite Z.mod_small by lia; symmetry; apply wrap_id, rorw_range; auto).
  assert (V0 : forall x, inU 32 x -> u32 (ror32 x 0) = x) by (intros; rewrite ror_zero by assumption; now apply wrap_id).
  shifted F E args consts 3 ror32 SHIFT_IMM_ROR SHIFT_REG_ROR V V0.
Qed.

Lemma ror_rol x n : inU 32 x -> 0 <= n < 32 -> ror32 x ((32 - n) mod 32) = u32 (rol32 x n).
Proof.
  intros Hx Hn; rewrite wrap_id by (apply rolw_range; auto; lia); destruct (Z.eq_dec n 0) as [->|N]; [cbn -[ror32 rol32]; rewrite ror_zero by assumption|].
  - unfold rol32, rolw; cbn [Z.sub Z.add Z.opp]; symmetry; route.
  - rewrite Z.mod_small by lia; unfold ror32, rol32, rorw, rolw; rewrite Z.lor_comm; do 3 f_equal; lia.
Qed.

Lemma rotl_done args consts c : op_fits rotl_i32 args consts -> cpu_ok c -> op_done rotl_i32 args consts c.
Proof.
  intros F Ok vs E; binary F E args consts a0 a1 a2 k0 k1 k2 H0; input F 1%nat (mkCt 0x01 0 0xffff) r_fits H1; input F 2%nat (mkCt 0x03 0 0xffff) ri_fits H2.
  destruct H1 as [-> [H1 ?]]; pose proof (value_range c k2 a2 Ok) as R; unfold inU in R.
  cbn -[value shift] in E; unfold shift in E; cbn [value] in E; destruct (Z.ltb_spec (value c k2 a2) 32) as [L|]; [|discriminate]; injection E as <-.
  cbn [tcg_out_op nth firstn nb_oargs tcg_op_defs]; rewrite <- ror_rol by (apply Ok || lia); destruct k2; cbn [value] in *.
  - assert (A : (0x20 - a2) .& 0x1f = (32 - u32 a2) mod 32).
    { change 0x1f with (Z.ones 5); rewrite Z.land_ones by lia; change (2 ^ 5) with 32; rewrite <- (count_const a2) by assumption.
      change 0x1f with (Z.ones 5); rewrite Z.land_ones by lia; symmetry; apply Zminus_mod_idemp_r. }
    rewrite A; pose proof (Z.mod_pos_bound (32 - u32 a2) 32 ltac:(lia)); apply (mov_count_outs a0 a1 3); auto; try (unfold inU; lia).
    + intros ->; apply ror_zero, Ok.
    + intros _; cbn [shift_value]; now rewrite Z.mod_mod.
  - destruct H2 as [H2 T]; apply outs_then; eapply (dat_imm_outs arch COND_AL ARITH_RSB 3 false); [opcode|unfold inU; lia|reflexivity|reflexivity|].
    change (expand_imm 0x20) with 32; cbn [dp_value add_with_carry b2z is_test fst]; rewrite rsb_sum by apply Ok; rewrite wrap_id by (unfold inU; lia).
    eapply (dat_shift_reg_outs arch COND_AL ARITH_MOV 13 false a0 0 a1 _ 3 TCG_REG_TMP); [opcode|exact H1|auto|reflexivity|unfold inU; lia|reflexivity|reflexivity|].
    change (is_test 13) with false; change (is_test 3) with false; cbn [shift_value]; regs; rewrite count_reg by lia; apply computed_tmp.
Qed.
End Ops.
