(* ===== verification/TcgArmCond.v ===== *)
(** * Comparisons of the ARM back end

    What the flags say after CMP, and the operations of [tcg_out_op] that
    compare: [setcond_i32], [movcond_i32] and [setcond2_i32].  The last one
    compares the low words with the condition itself when the high words are
    equal, which is not the comparison of double words for the signed
    conditions. *)

From Stdlib Require Import ZArith Lia List Bool.
From S2P Require Import Prelude Bitops TcgIr TcgRegAlloc TcgFold TcgArm ArmIsa TcgArmOut TcgArmWords TcgArmOps TcgArmMovi TcgArmOp TcgArmBits.
Import ListNotations.
Local Open Scope Z_scope.
Local Open Scope c_scope.
Local Open Scope out_scope.

(** ** Flags *)

(** After CMP of [x] and [y]. *)
Definition compared (c : cpu) (x y : Z) : cpu :=
  let '(v, cy, ov) := add_with_carry x (inv y) true in set_flags c v cy ov.

Lemma compared_regs c x y : greg (compared c x y) = greg c /\ bytes (compared c x y) = bytes c.
Proof. split; reflexivity. Qed.

Lemma compared_greg c x y : greg (compared c x y) = greg c.
Proof. reflexivity. Qed.

Lemma compared_z c x y : inU 32 x -> inU 32 y -> flagZ (compared c x y) = (x =? y).
Proof.
  intros Hx Hy; cbn -[Z.pow inv]; rewrite inv_sum by assumption; apply eq_true_iff_eq; rewrite !Z.eqb_eq; unfold wrap, inU in *.
  destruct (Z.ltb_spec x y); [rewrite <- (Z.mod_unique (x - y) (2 ^ 32) (-1) (x - y + 2 ^ 32))|rewrite Z.mod_small]; lia.
Qed.

Lemma compared_c c x y : inU 32 x -> inU 32 y -> flagC (compared c x y) = (y <=? x).
Proof. intros Hx Hy; cbn -[Z.pow inv Z.leb]; rewrite inv_arith by assumption; apply eq_true_iff_eq; rewrite !Z.leb_le; unfold inU in *; lia. Qed.

Lemma sign_bit v : inU 32 v -> Z.testbit v 31 = negb (v <? 2 ^ 31).
Proof.
  intros Hv; rewrite Z.testbit_eqb by lia; unfold inU in Hv; destruct (Z.ltb_spec v (2 ^ 31)) as [L|L].
  - rewrite Z.div_small by lia; reflexivity.
  - rewrite <- (Z.div_unique v (2 ^ 31) 1 (v - 2 ^ 31)) by lia; reflexivity.
Qed.

Lemma compared_ge c x y : inU 32 x -> inU 32 y -> Bool.eqb (flagN (compared c x y)) (flagV (compared c x y)) = (s32 y <=? s32 x).
Proof.
  intros Hx Hy; cbn -[Z.pow inv Z.testbit swrap wrap]; rewrite inv_sum by assumption; pose proof (wrap_range 32 (x - y) ltac:(lia)) as R.
  rewrite sign_bit by exact R; rewrite (s32_cases (u32 (x - y))) by exact R; rewrite (s32_cases (inv y)) by (apply wrap_range; lia).
  rewrite inv_arith, (s32_cases x), (s32_cases y) by assumption.
  assert (W : u32 (x - y) = if x <? y then x - y + 2 ^ 32 else x - y).
  { unfold wrap, inU in *; destruct (Z.ltb_spec x y); [symmetry; apply (Z.mod_unique (x - y) (2 ^ 32) (-1)); lia|apply Z.mod_small; lia]. }
  rewrite W; unfold inU in *; destruct (Z.ltb_spec x y), (Z.ltb_spec x (2 ^ 31)), (Z.ltb_spec y (2 ^ 31)), (Z.ltb_spec (2 ^ 32 - 1 - y) (2 ^ 31)); try lia; cases; exfalso; lia.
Qed.

Lemma holds_comparison w cond x y b : cond_holds w cond x y = Some b -> comparison cond = true.
Proof.
  unfold cond_holds, comparison; cbn [existsb]; repeat (destruct (cond =? _); [reflexivity|]); discriminate.
Qed.

Lemma cond_compared cond c x y : inU 32 x -> inU 32 y -> comparison cond = true ->
  cond_passed (tcg_cond_to_arm_cond cond) (compared c x y) = cond_holds 32 cond x y.
Proof.
  intros Hx Hy C; pose proof (compared_z c x y Hx Hy) as Ez; pose proof (compared_c c x y Hx Hy) as Ec; pose proof (compared_ge c x y Hx Hy) as Eg.
  assert (N : (x =? y) = (s32 x =? s32 y)) by (apply eq_true_iff_eq; rewrite !Z.eqb_eq; split; [congruence|]; intros E; rewrite <- (wrap_id 32 x), <- (wrap_id 32 y) by assumption;
    now rewrite <- (wrap_swrap 32 x), <- (wrap_swrap 32 y), E by lia).
  generalize dependent (compared c x y); intros c' Ez Ec Eg; by_comparison cond; cbn [cond_passed tcg_cond_to_arm_cond]; unfold cond_holds; cbn -[swrap Z.leb Z.ltb Bool.eqb];
    rewrite ?Ez, ?Ec, ?Eg; try reflexivity; f_equal; rewrite ?N; cases.
Qed.

Section Ops.
Variable arch : arm_arch.
Variable host : arm_host.
Abbreviation outs := (TcgArmWords.outs arch).
Abbreviation op_done := (TcgArmOp.op_done arch host).

(** ** Instructions *)

Lemma cmp_outs cond rn rhs (k b : bool) c (Q : cpu -> Prop) : gpr rn -> either_ok Z.opp k rhs -> cond_passed cond c = Some b ->
  Q (if b then compared c (greg c rn) (value c k rhs) else c) -> outs (tcg_out_dat_rIN cond ARITH_CMP ARITH_CMN 0 rn rhs k) c Q.
Proof.
  intros Hn Hk P H; eapply (either_outs arch Z.opp cond ARITH_CMP ARITH_CMN 10 11 true); [opcode|opcode|apply swap_cmp_cmn|exact Hk|exact P| |exact H].
  destruct b; reflexivity.
Qed.

(** A move of a constant under a condition. *)
Lemma mov_if_outs cond rd im (b : bool) c (Q : cpu -> Prop) : gpr rd -> inU 8 im -> cond_passed cond c = Some b ->
  Q (if b then set_greg c rd im else c) -> outs (tcg_out_dat_imm cond ARITH_MOV rd 0 im) c Q.
Proof.
  intros Hd Hi P H; eapply (dat_imm_outs arch cond ARITH_MOV 13 false); [opcode|unfold inU in *; lia|exact P| |exact H].
  assert (E : expand_imm im = im) by (pose proof (expand_field im 0 Hi) as X; change (0 .<< 8) with 0 in X; rewrite Z.lor_0_r in X; rewrite X by (unfold inU; lia);
    apply ror_zero; unfold inU in *; lia).
  unfold dp_result; cbn [dp_value is_test]; rewrite E; now destruct b.
Qed.

(** The truth value of a condition that the flags hold. *)
Lemma set_outs cond rd (b : bool) c : gpr rd -> cond_passed (tcg_cond_to_arm_cond cond) c = Some b ->
  cond_passed (tcg_cond_to_arm_cond (tcg_invert_cond cond)) c = Some (negb b) ->
  outs (tcg_out_dat_imm (tcg_cond_to_arm_cond cond) ARITH_MOV rd 0 1 ;; tcg_out_dat_imm (tcg_cond_to_arm_cond (tcg_invert_cond cond)) ARITH_MOV rd 0 0) c
    (writes c rd (b2z b)).
Proof.
  intros Hd P P'; apply outs_then; eapply mov_if_outs; [exact Hd|unfold inU; lia|exact P|].
  apply (mov_if_outs _ rd 0 (negb b)); [exact Hd|unfold inU; lia|destruct b; exact P'|destruct b; apply writes_set].
Qed.

Lemma writes_compared c x y rd v c' : writes (compared c x y) rd v c' -> computed c [rd] [v] c'.
Proof. intros W; apply computed_writes in W; exact W. Qed.

(** ** Operations *)

Lemma setcond_done args consts c : op_fits setcond_i32 args consts -> cpu_ok c -> op_done setcond_i32 args consts c.
Proof.
  intros F Ok vs E; pose proof (of_args _ _ _ F) as La; pose proof (of_consts _ _ _ F) as Lk; list4 args La a0 a1 a2 cond; list3 consts Lk k0 k1 k2.
  output F 0%nat H0 k0; destruct H0 as [H0 _]; input F 1%nat (mkCt 0x01 0 0xffff) r_fits H1; input F 2%nat (mkCt 0x501 0 0xffff) rIN_fits H2; destruct H1 as [-> [H1 _]].
  cbn -[cond_holds value] in E; cbn [value] in E; destruct (cond_holds 32 cond _ _) as [b|] eqn:B; [|discriminate]; injection E as <-.
  cbn [tcg_out_op nth firstn nb_oargs tcg_op_defs]; pose proof (holds_comparison _ _ _ _ _ B) as C; pose proof (value_range c k2 a2 Ok).
  apply outs_then; eapply cmp_outs; [exact H1|exact H2|reflexivity|]; destruct (invert_cond_ok 32 cond (greg c a1) (value c k2 a2) C) as [C' I].
  eapply outs_mono; [eapply (set_outs cond a0 b); [exact H0|rewrite cond_compared; auto|rewrite cond_compared, I, B; auto]|]; apply writes_compared.
Qed.

Lemma movcond_done args consts c : op_fits movcond_i32 args consts -> cpu_ok c -> op_done movcond_i32 args consts c.
Proof.
  intros F Ok vs E; pose proof (of_args _ _ _ F) as La; pose proof (of_consts _ _ _ F) as Lk; list6 args La a0 a1 a2 a3 a4 cond; list5 consts Lk k0 k1 k2 k3 k4.
  output F 0%nat H0 k0; destruct H0 as [H0 _]; input F 1%nat (mkCt 0x01 0 0xffff) r_fits H1; input F 2%nat (mkCt 0x501 0 0xffff) rIN_fits H2; destruct H1 as [-> [H1 _]].
  input F 3%nat (mkCt 0x301 0 0xffff) rIK_fits H3; input F 4%nat (mkCt 0x41 0 0xffff) alias_fits H4; destruct H4 as [-> _].
  assert (a4 = a0) as -> by exact (of_alias _ _ _ F 4%nat eq_refl).
  cbn -[cond_holds value] in E; cbn [value] in E; destruct (cond_holds 32 cond _ _) as [b|] eqn:B; [|discriminate]; injection E as <-.
  cbn [tcg_out_op nth firstn nb_oargs tcg_op_defs]; pose proof (holds_comparison _ _ _ _ _ B) as C; pose proof (value_range c k2 a2 Ok).
  apply outs_then; eapply cmp_outs; [exact H1|exact H2|reflexivity|].
  destruct b; (eapply (either_outs arch Z.lnot (tcg_cond_to_arm_cond cond) ARITH_MOV ARITH_MVN 13 15 false);
    [opcode|opcode|apply swap_mov_mvn|exact H3|rewrite cond_compared by auto; exact B|reflexivity|]); [|now split].
  eapply writes_compared, writes_set.
Qed.

(** What [setcond2_i32] computes: the condition on the low words if the high words are equal. *)
Definition setcond2_value (cond al ah bl bh : Z) : option bool := if ah =? bh then cond_holds 32 cond al bl else cond_holds 32 cond ah bh.

Lemma setcond2_outs cond a0 a1 a2 a3 a4 (k3 k4 b : bool) c : op_fits setcond2_i32 [a0; a1; a2; a3; a4; cond] [false; false; false; k3; k4] -> cpu_ok c ->
  setcond2_value cond (greg c a1) (greg c a2) (value c k3 a3) (value c k4 a4) = Some b ->
  outs (tcg_out_op host setcond2_i32 [a0; a1; a2; a3; a4; cond] [false; false; false; k3; k4]) c (computed c [a0] [b2z b]).
Proof.
  intros F Ok B; output F 0%nat H0 k0; destruct H0 as [H0 _]; assert (H1 : host_reg a1) by exact (of_arg _ _ _ F 1%nat ltac:(cbn; lia)).
  assert (H2 : host_reg a2) by exact (of_arg _ _ _ F 2%nat ltac:(cbn; lia)); destruct H1 as [H1 _], H2 as [H2 _].
  input F 3%nat (mkCt 0x501 0 0xffff) rIN_fits H3; input F 4%nat (mkCt 0x501 0 0xffff) rIN_fits H4.
  pose proof (value_range c k3 a3 Ok); pose proof (value_range c k4 a4 Ok); cbn [tcg_out_op nth]; unfold setcond2_value in B.
  apply outs_then; eapply cmp_outs; [exact H2|exact H4|reflexivity|]; apply outs_then; eapply cmp_outs; [exact H1|exact H3|reflexivity|].
  change (greg (compared _ _ _)) with (greg c); change (value (compared _ _ _) k3 a3) with (value c k3 a3); rewrite compared_z by auto.
  destruct (greg c a2 =? value c k4 a4) eqn:Eh; pose proof (holds_comparison _ _ _ _ _ B) as C;
    [destruct (invert_cond_ok 32 cond (greg c a1) (value c k3 a3) C) as [C' I]|destruct (invert_cond_ok 32 cond (greg c a2) (value c k4 a4) C) as [C' I]].
  all: eapply outs_mono; [eapply (set_outs cond a0 b); [exact H0|rewrite cond_compared; auto|rewrite cond_compared, I, B; auto]|]; intros c' W; apply computed_writes in W; exact W.
Qed.

(** The conditions for which that is the comparison of double words. *)
Definition unsigned_cond (cond : Z) : bool :=
  negb ((cond =? TCG_COND_LT) || (cond =? TCG_COND_GE) || (cond =? TCG_COND_LE) || (cond =? TCG_COND_GT)).

Lemma setcond2_unsigned cond al ah bl bh : inU 32 al -> inU 32 ah -> inU 32 bl -> inU 32 bh -> comparison cond = true -> unsigned_cond cond = true ->
  setcond2_value cond al ah bl bh = cond_holds 64 cond (dword al ah) (dword bl bh).
Proof.
  intros Hal Hah Hbl Hbh C; unfold setcond2_value, dword, inU in *; by_comparison cond; try discriminate; intros _; unfold cond_holds; cbn -[Z.pow Z.mul Z.leb Z.ltb Z.add];
    destruct (Z.eqb_spec ah bh); f_equal; cases; lia.
Qed.

(** For the signed ones it is the comparison unless the high words are equal and
    the sign bits of the low words differ: then it is the opposite. *)
Lemma setcond2_signed cond al ah bl bh : inU 32 al -> inU 32 ah -> inU 32 bl -> inU 32 bh -> comparison cond = true -> unsigned_cond cond = false ->
  exists b, cond_holds 64 cond (dword al ah) (dword bl bh) = Some b /\
    setcond2_value cond al ah bl bh = Some (xorb b ((ah =? bh) && xorb (al <? 2 ^ 31) (bl <? 2 ^ 31))).
Proof.
  intros Hal Hah Hbl Hbh C.
  assert (S32 : forall x, inU 32 x -> swrap 32 x = if x <? 2 ^ 31 then x else x - 2 ^ 32) by (intros x; now apply (swrap_of_wrap 32)).
  assert (S64 : forall l h, inU 32 l -> inU 32 h -> swrap 64 (dword l h) = l + 2 ^ 32 * swrap 32 h).
  { intros l h Hl Hh; unfold dword; rewrite S32, (swrap_of_wrap 64) by (unfold inU in *; lia); change (2 ^ (64 - 1)) with (2 ^ 63).
    unfold inU in *; destruct (Z.ltb_spec h (2 ^ 31)), (Z.ltb_spec (l + h * 2 ^ 32) (2 ^ 63)); lia. }
  by_comparison cond; try discriminate; intros _; unfold setcond2_value, cond_holds; cbn -[Z.pow Z.mul Z.leb Z.ltb Z.add dword swrap];
    rewrite !S64 by assumption; eexists; split; try reflexivity; destruct (Z.eqb_spec ah bh) as [->|]; cbn [andb]; rewrite ?xorb_false_r; f_equal;
    rewrite ?(S32 al), ?(S32 bl), ?(S32 ah), ?(S32 bh) by assumption; unfold inU in *;
    destruct (Z.ltb_spec al (2 ^ 31)), (Z.ltb_spec bl (2 ^ 31)), (Z.ltb_spec bh (2 ^ 31)); try destruct (Z.ltb_spec ah (2 ^ 31)); cases; lia.
Qed.

Lemma setcond2_done args consts c : unsigned_cond (nth 5 args 0) = true -> op_fits setcond2_i32 args consts -> cpu_ok c -> op_done setcond2_i32 args consts c.
Proof.
  intros U F Ok vs E; pose proof (of_args _ _ _ F) as La; pose proof (of_consts _ _ _ F) as Lk; list6 args La a0 a1 a2 a3 a4 cond; list5 consts Lk k0 k1 k2 k3 k4.
  output F 0%nat H0 k0; pose proof F as F'; input F 1%nat (mkCt 0x01 0 0xffff) r_fits H1; input F 2%nat (mkCt 0x01 0 0xffff) r_fits H2; destruct H1 as [-> _], H2 as [-> _].
  cbn -[cond_holds value dword] in E; cbn [value] in E; destruct (cond_holds 64 cond _ _) as [b|] eqn:B; [|discriminate]; injection E as <-.
  apply setcond2_outs; auto; rewrite setcond2_unsigned; auto; try (apply Ok || now apply value_range); now apply holds_comparison in B.
Qed.

Lemma setcond2_signed_outs args consts c : comparison (nth 5 args 0) = true -> unsigned_cond (nth 5 args 0) = false ->
  op_fits setcond2_i32 args consts -> cpu_ok c ->
  exists al ah bl bh b, op_inputs setcond2_i32 args consts c = [al; ah; bl; bh] /\
    eval_pure setcond2_i32 [al; ah; bl; bh] (op_constants setcond2_i32 args) = Some [b2z b] /\
    outs (tcg_out_op host setcond2_i32 args consts) c
      (computed c (firstn 1 args) [b2z (xorb b ((ah =? bh) && xorb (al <? 2 ^ 31) (bl <? 2 ^ 31)))]).
Proof.
  intros Cm U F Ok; pose proof (of_args _ _ _ F) as La; pose proof (of_consts _ _ _ F) as Lk; list6 args La a0 a1 a2 a3 a4 cond; list5 consts Lk k0 k1 k2 k3 k4.
  output F 0%nat H0 k0; pose proof F as F'; input F 1%nat (mkCt 0x01 0 0xffff) r_fits H1; input F 2%nat (mkCt 0x01 0 0xffff) r_fits H2; destruct H1 as [-> _], H2 as [-> _].
  cbn [nth] in Cm, U.
  destruct (setcond2_signed cond (greg c a1) (greg c a2) (value c k3 a3) (value c k4 a4)) as (b & E & V); auto; try (apply Ok || now apply value_range).
  exists (greg c a1), (greg c a2), (value c k3 a3), (value c k4 a4), b; split; [reflexivity|]; split.
  - cbn [eval_pure op_constants skipn nb_oargs nb_iargs tcg_op_defs Nat.add]; now rewrite E.
  - cbn [firstn]; now apply setcond2_outs.
Qed.
End Ops.
