(* ===== verification/TcgArmDouble.v ===== *)
(** * Double words in the ARM back end

    [add2_i32] and [sub2_i32]: the low words leave the carry in the flags,
    and the scratch register takes the low word when its register is still
    needed for the high words. *)

From Stdlib Require Import ZArith Lia List Bool.
From S2P Require Import Prelude Bitops TcgIr TcgRegAlloc TcgFold TcgArm ArmIsa TcgArmOut TcgArmWords TcgArmOps TcgArmMovi TcgArmOp TcgArmBits.
Import ListNotations.
Local Open Scope Z_scope.
Local Open Scope c_scope.
Local Open Scope out_scope.

(** [rd] becomes [v]; the flags may change. *)
Record sets (c : cpu) (rd v : Z) (c' : cpu) : Prop := {
  s_reg : greg c' rd = v;
  s_other : forall x, x <> rd -> greg c' x = greg c x;
  s_bytes : bytes c' = bytes c
}.

Lemma sets_dp c rd v n z cy ov : sets c rd v (set_greg (mkCpu (greg c) n z cy ov (bytes c)) rd v).
Proof. constructor; [apply greg_set_eq|intros x N; rewrite greg_set_ne; auto|reflexivity]. Qed.

Lemma sets_set c rd v : sets c rd v (set_greg c rd v).
Proof. constructor; [apply greg_set_eq|intros x N; now apply greg_set_ne|reflexivity]. Qed.

Lemma sets_after c rd v c1 v' c2 : writes c rd v c1 -> sets c1 rd v' c2 -> sets c rd v' c2.
Proof. intros [A B _ D] [A' B' D']; constructor; auto; [|congruence]; intros x N; now rewrite B', B. Qed.

(** Registers that a step does not write keep what an operand stands for. *)
Lemma sets_value c rd v c' (k : bool) x : sets c rd v c' -> (k = false -> x <> rd) -> value c' k x = value c k x.
Proof. intros S N; destruct k; [reflexivity|]; cbn; now apply (s_other _ _ _ _ S), N. Qed.

(** ** Carries *)

Lemma add_words al ah bl bh : inU 32 al -> inU 32 bl ->
  words_of (dword al ah + dword bl bh) = [u32 (al + bl); u32 (ah + bh + b2z (2 ^ 32 <=? al + bl))].
Proof.
  unfold words_of, dword, inU; intros Hal Hbl; rewrite Z.shiftr_div_pow2 by lia.
  replace (al + ah * 2 ^ 32 + (bl + bh * 2 ^ 32)) with (al + bl + (ah + bh) * 2 ^ 32) by lia.
  rewrite Z.div_add by lia; unfold wrap at 1; rewrite Z_mod_plus_full; do 3 f_equal.
  destruct (Z.leb_spec (2 ^ 32) (al + bl)); cbn [b2z]; [rewrite <- (Z.div_unique (al + bl) (2 ^ 32) 1 (al + bl - 2 ^ 32))|rewrite Z.div_small]; lia.
Qed.

Lemma sub_words al ah bl bh : inU 32 al -> inU 32 bl -> inU 32 bh ->
  words_of (dword al ah - dword bl bh) = [u32 (al - bl); u32 (ah + inv bh + b2z (bl <=? al))].
Proof.
  intros Hal Hbl Hbh; rewrite inv_arith by assumption; unfold words_of, dword, inU in *; rewrite Z.shiftr_div_pow2 by lia.
  replace (al + ah * 2 ^ 32 - (bl + bh * 2 ^ 32)) with (al - bl + (ah - bh) * 2 ^ 32) by lia.
  rewrite Z.div_add by lia; unfold wrap; rewrite Z_mod_plus_full; f_equal; f_equal.
  replace (ah + (2 ^ 32 - 1 - bh) + b2z (bl <=? al)) with (ah - bh - 1 + b2z (bl <=? al) + 1 * 2 ^ 32) by lia; rewrite Z_mod_plus_full; f_equal.
  destruct (Z.leb_spec bl al); cbn [b2z]; [rewrite Z.div_small|rewrite <- (Z.div_unique (al - bl) (2 ^ 32) (-1) (al - bl + 2 ^ 32))]; lia.
Qed.

Lemma borrow x y : inU 32 y -> (2 ^ 32 <=? x + inv y + 1) = (y <=? x).
Proof. intros Hy; rewrite inv_arith by assumption; apply eq_true_iff_eq; rewrite !Z.leb_le; unfold inU in *; lia. Qed.

Section Ops.
Variable arch : arm_arch.
Variable host : arm_host.
Hypothesis host_v7 : use_armv7_instructions host = true -> has_v7 arch = true.
Abbreviation outs := (TcgArmWords.outs arch).
Abbreviation op_done := (TcgArmOp.op_done arch host).

(** The low word goes to [t], the high word to [a1], then [t] to [a0]. *)
Lemma pair_outs low high a0 a1 t v w cy c : gpr a0 -> gpr t -> a0 <> a1 -> t <> a1 -> t = a0 \/ t = TCG_REG_TMP ->
  outs low c (fun c1 => sets c t v c1 /\ flagC c1 = cy) ->
  (forall c1, sets c t v c1 -> flagC c1 = cy -> outs high c1 (sets c1 a1 w)) ->
  outs (low ;; high ;; tcg_out_mov_reg COND_AL a0 t) c (computed c [a0; a1] [v; w]).
Proof.
  intros H0 Ht N T Et L H; apply outs_then; eapply outs_mono; [exact L|]; cbv beta; intros c1 [S1 C1].
  apply outs_then; eapply outs_mono; [now apply H|]; intros c2 S2; apply mov_reg_outs; auto; intros c3 [A B C D].
  rewrite (s_other _ _ _ _ S2) in A by assumption; split; [cbn; rewrite A, (s_reg _ _ _ _ S1), B, (s_reg _ _ _ _ S2) by auto; reflexivity|].
  split; [|now rewrite D, (s_bytes _ _ _ _ S2), (s_bytes _ _ _ _ S1)].
  intros x Nx Tx; cbn in Nx; rewrite B, (s_other _ _ _ _ S2), (s_other _ _ _ _ S1); auto; destruct Et; subst; auto.
Qed.

(** The register of the low word: the scratch register if [b]. *)
Lemma scratch_ok (b : bool) a0 a1 : host_reg a0 -> host_reg a1 -> a0 <> a1 ->
  let t := if b then TCG_REG_TMP else a0 in gpr t /\ t <> a1 /\ (t = a0 \/ t = TCG_REG_TMP).
Proof. intros [H0 T0] [H1 T1] N; destruct b; cbn; auto. Qed.

Lemma scratch_apart (b : bool) a0 x : x <> TCG_REG_TMP -> (x = a0 -> b = true) -> x <> (if b then TCG_REG_TMP else a0).
Proof. intros T E; destruct b; auto; intros ->; now discriminate E. Qed.

Ltac six F args consts a0 a1 a2 a3 a4 a5 k0 k1 k2 k3 k4 k5 H0 H1 Ne :=
  let La := fresh in let Lk := fresh in let D := fresh in
  pose proof (of_args _ _ _ F) as La; pose proof (of_consts _ _ _ F) as Lk; list6 args La a0 a1 a2 a3 a4 a5; list6 consts Lk k0 k1 k2 k3 k4 k5;
  output F 0%nat H0 k0; output F 1%nat H1 k1; assert (Ne : a0 <> a1) by (intros ->; pose proof (of_outs _ _ _ F) as D; inversion D; cbn in *; tauto).

Lemma add2_done args consts c : op_fits add2_i32 args consts -> cpu_ok c -> op_done add2_i32 args consts c.
Proof.
  intros F Ok vs E; six F args consts a0 a1 a2 a3 a4 a5 k0 k1 k2 k3 k4 k5 H0 H1 Ne; input F 2%nat (mkCt 0x01 0 0xffff) r_fits H2; input F 3%nat (mkCt 0x01 0 0xffff) r_fits H3.
  input F 4%nat (mkCt 0x501 0 0xffff) rIN_fits H4; input F 5%nat (mkCt 0x301 0 0xffff) rIK_fits H5; destruct H2 as [-> [H2 _]], H3 as [-> [H3 T3]].
  cbn -[words_of dword value] in E; cbn [value] in E; injection E as <-; rewrite add_words by (apply Ok || now apply value_range).
  cbn [tcg_out_op nth firstn nb_oargs tcg_op_defs]; unfold out_add2; cbn [nth]; set (b := _ || _).
  destruct (scratch_ok b a0 a1 H0 H1 Ne) as (Ht & Nt & Et); set (t := if b then TCG_REG_TMP else a0) in *; destruct H0 as [H0 T0], H1 as [H1 T1].
  assert (N3 : a3 <> t) by (apply scratch_apart; auto; intros ->; unfold b; now rewrite Z.eqb_refl).
  assert (N5 : k5 = false -> a5 <> t) by (intros ->; apply scratch_apart; [apply H5|]; intros ->; unfold b; now rewrite Z.eqb_refl, orb_true_r).
  apply pair_outs with (cy := 2 ^ 32 <=? greg c a2 + value c k4 a4); auto.
  - eapply (either_outs arch Z.opp COND_AL _ _ 4 2 true); [opcode|opcode|apply swap_add_sub|exact H4|reflexivity|reflexivity|].
    cbn -[Z.pow Z.leb]; rewrite Z.add_0_r; split; [apply sets_dp|reflexivity].
  - intros c1 S C1; eapply (either_outs arch Z.lnot COND_AL _ _ 5 6 false); [opcode|opcode|apply swap_adc_sbc|exact H5|reflexivity|reflexivity|].
    cbn -[Z.pow]; rewrite C1, (s_other _ _ _ _ S a3 N3), (sets_value _ _ _ _ _ _ S N5); apply sets_set.
Qed.

(** The low word of a difference. *)
Lemma sub_low_outs (k2 k4 : bool) a2 a4 t c : gpr t -> rI_ok k2 a2 -> either_ok Z.opp k4 a4 -> cpu_ok c ->
  outs (if k2 then
     (if k4 then tcg_out_movi32 host COND_AL t a4 else nothing) ;;
     tcg_out_dat_rI COND_AL (ARITH_RSB .| TO_CPSR) t (if k4 then t else a4) a2 true
   else tcg_out_dat_rIN COND_AL (ARITH_SUB .| TO_CPSR) (ARITH_ADD .| TO_CPSR) t a2 a4 k4) c
  (fun c1 => sets c t (u32 (value c k2 a2 - value c k4 a4)) c1 /\ flagC c1 = (value c k4 a4 <=? value c k2 a2)).
Proof.
  intros Ht H2 H4 Ok; pose proof (value_range c k4 a4 Ok) as R4; destruct k2.
  - assert (L : forall c1 rn, gpr rn -> greg c1 rn = value c k4 a4 -> outs (tcg_out_dat_rI COND_AL (ARITH_RSB .| TO_CPSR) t rn a2 true) c1
      (fun c2 => sets c1 t (u32 (value c true a2 - value c k4 a4)) c2 /\ flagC c2 = (value c k4 a4 <=? value c true a2))).
    { intros c1 rn Hn En; eapply (rI_outs arch COND_AL _ 3 true); [opcode|exact H2|reflexivity|reflexivity|].
      cbn -[Z.pow inv Z.leb]; rewrite En, rsb_sum, (Z.add_comm (inv _)), borrow by exact R4; split; [apply sets_dp|reflexivity]. }
    apply outs_then; destruct k4.
    + eapply outs_mono; [apply movi32_outs; [exact host_v7|exact Ht|reflexivity]|]; intros c1 W; eapply outs_mono; [apply L; [exact Ht|apply (w_reg _ _ _ _ W)]|].
      cbv beta; intros c2 [S C]; split; [eapply sets_after; eassumption|exact C].
    + apply outs_nothing, L; [apply H4|reflexivity].
  - destruct H2 as [H2 _]; eapply (either_outs arch Z.opp COND_AL _ _ 2 4 true); [opcode|opcode|apply swap_sub_add|exact H4|reflexivity|reflexivity|].
    cbn -[Z.pow inv Z.leb]; rewrite inv_sum, borrow by exact R4; split; [apply sets_dp|reflexivity].
Qed.

(** The high word, from the state that the low word leaves. *)
Lemma sub_high_outs (k3 k5 : bool) a1 a3 a5 t v c c1 : gpr a1 -> rI_ok k3 a3 -> either_ok Z.lnot k5 a5 -> cpu_ok c ->
  (k3 = false -> a3 <> t) -> (k5 = false -> a5 <> t) -> sets c t v c1 ->
  outs (if k3 then
     (if k5 then tcg_out_movi32 host COND_AL a1 a5 else nothing) ;;
     tcg_out_dat_rI COND_AL ARITH_RSC a1 (if k5 then a1 else a5) a3 true
   else tcg_out_dat_rIK COND_AL ARITH_SBC ARITH_ADC a1 a3 a5 k5) c1
  (sets c1 a1 (u32 (value c k3 a3 + inv (value c k5 a5) + b2z (flagC c1)))).
Proof.
  intros H1 H3 H5 Ok N3 N5 S; pose proof (sets_value _ _ _ _ _ _ S N3) as V3; pose proof (sets_value _ _ _ _ _ _ S N5) as V5; destruct k3.
  - assert (L : forall c2 rn, gpr rn -> greg c2 rn = value c k5 a5 -> flagC c2 = flagC c1 -> outs (tcg_out_dat_rI COND_AL ARITH_RSC a1 rn a3 true) c2
      (sets c2 a1 (u32 (value c true a3 + inv (value c k5 a5) + b2z (flagC c1))))).
    { intros c2 rn Hn En Ec; eapply (rI_outs arch COND_AL ARITH_RSC 7 false); [opcode|exact H3|reflexivity|reflexivity|].
      cbn -[Z.pow inv]; rewrite En, Ec, (Z.add_comm (inv _)); apply sets_set. }
    apply outs_then; destruct k5.
    + eapply outs_mono; [apply movi32_outs; [exact host_v7|exact H1|reflexivity]|]; intros c2 W; eapply outs_mono; [apply L; [exact H1|apply (w_reg _ _ _ _ W)|apply (w_flags _ _ _ _ W)]|].
      intros c3 S3; eapply sets_after; eassumption.
    + apply outs_nothing, L; [apply H5|exact V5|reflexivity].
  - destruct H3 as [H3 _]; eapply (either_outs arch Z.lnot COND_AL ARITH_SBC ARITH_ADC 6 5 false); [opcode|opcode|apply swap_sbc_adc|exact H5|reflexivity|reflexivity|].
    cbn [dp_value is_test add_with_carry]; rewrite V5; cbn [value] in V3; rewrite V3; apply sets_set.
Qed.

Lemma sub2_done args consts c : op_fits sub2_i32 args consts -> cpu_ok c -> op_done sub2_i32 args consts c.
Proof.
  intros F Ok vs E; six F args consts a0 a1 a2 a3 a4 a5 k0 k1 k2 k3 k4 k5 H0 H1 Ne; input F 2%nat (mkCt 0x101 0 0xffff) rI_fits H2; input F 3%nat (mkCt 0x101 0 0xffff) rI_fits H3.
  input F 4%nat (mkCt 0x501 0 0xffff) rIN_fits H4; input F 5%nat (mkCt 0x301 0 0xffff) rIK_fits H5.
  cbn -[words_of dword value] in E; injection E as <-; rewrite sub_words by (now apply value_range).
  cbn [tcg_out_op nth firstn nb_oargs tcg_op_defs]; unfold out_sub2; cbn [nth]; set (b := _ || _).
  destruct (scratch_ok b a0 a1 H0 H1 Ne) as (Ht & Nt & Et); set (t := if b then TCG_REG_TMP else a0) in *; destruct H0 as [H0 T0], H1 as [H1 T1].
  assert (N3 : k3 = false -> a3 <> t) by (intros ->; apply scratch_apart; [apply H3|]; intros ->; unfold b; now rewrite Z.eqb_refl).
  assert (N5 : k5 = false -> a5 <> t) by (intros ->; apply scratch_apart; [apply H5|]; intros ->; unfold b; now rewrite Z.eqb_refl, orb_true_r).
  apply pair_outs with (cy := value c k4 a4 <=? value c k2 a2); auto; [now apply sub_low_outs|].
  intros c1 S C1; rewrite <- C1; eapply sub_high_outs; eassumption.
Qed.
End Ops.
