(* ===== verification/TcgArmMem.v ===== *)
(** * Loads and stores of the ARM back end

    The operations of [tcg_out_op] that access the memory of the host at an
    offset from a register: with the offset in the instruction if it fits,
    through the scratch register otherwise. *)

From Stdlib Require Import ZArith Lia List Bool.
From S2P Require Import Prelude Bitops TcgIr TcgRegAlloc TcgArm ArmIsa TcgArmOut TcgArmWords TcgArmOps TcgArmMovi TcgArmOp TcgArmBits.
Import ListNotations.
Local Open Scope Z_scope.
Local Open Scope c_scope.
Local Open Scope out_scope.

(** What a load or a store does at address [a] with the register [rt]. *)
Inductive access := Reads (size : Z) (signed : bool) | Writes (size : Z).

Definition effect (k : access) (rt a : Z) (c : cpu) : cpu :=
  match k with
  | Reads size signed => let v := load c size a in set_greg c rt (if signed then u32 (swrap size v) else v)
  | Writes size => set_bytes c (store_bytes (bytes c) size a (greg c rt))
  end.

Definition insn_of (k : access) (rt rn : Z) (up : bool) (o : offset) : insn :=
  match k with Reads size signed => Load size signed rt rn up o | Writes size => Store size rt rn up o end.

Definition access_size (k : access) : Z := match k with Reads size _ | Writes size => size end.

Lemma exec_access arch k rt rn up o a c : gpr rt -> gpr rn -> address c rn up o = Some a -> aligned arch (access_size k) a = true ->
  exec arch (insn_of k rt rn up o) c = Some (effect k rt a c).
Proof. intros Ht Hn A Al; destruct k; cbn [exec insn_of access_size] in *; rewrite no_pc_ok by auto; now rewrite A, Al. Qed.

(** The access of each operation. *)
Definition access_of (opc : TCGOpcode) : option access :=
  match opc with
  | ld8u_i32 => Some (Reads 8 false)
  | ld8s_i32 => Some (Reads 8 true)
  | ld16u_i32 => Some (Reads 16 false)
  | ld16s_i32 => Some (Reads 16 true)
  | ld_i32 => Some (Reads 32 false)
  | st8_i32 => Some (Writes 8)
  | st16_i32 => Some (Writes 16)
  | st_i32 => Some (Writes 32)
  | _ => None
  end.

Section Ops.
Variable arch : arm_arch.
Variable host : arm_host.
Hypothesis host_v7 : use_armv7_instructions host = true -> has_v7 arch = true.
Abbreviation outs := (TcgArmWords.outs arch).

(** A word that is such an instruction. *)
Lemma access_outs k rt rn up o a v c (Q : cpu -> Prop) : gpr rt -> gpr rn -> decode (u32 v) = Some (insn_of k rt rn up o) -> bits (u32 v) 28 4 = COND_AL ->
  address c rn up o = Some a -> aligned arch (access_size k) a = true -> Q (effect k rt a c) -> outs (tcg_out32 v) c Q.
Proof.
  intros Ht Hn D B A Al H; eapply (outs_word arch _ _ _ COND_AL true c _ Q eq_refl D B eq_refl); [exact (exec_access arch k rt rn up o a c Ht Hn A Al)|exact H].
Qed.

(** Words and bytes: [ld] and [byte] tell which. *)
Definition access12 (ld byte : bool) : access := let size := if byte then 8 else 32 in if ld then Reads size false else Writes size.

Lemma insn12 (ld byte : bool) rt rn up o : (if ld then Load (if byte then 8 else 32) false rt rn up o else Store (if byte then 8 else 32) rt rn up o) =
  insn_of (access12 ld byte) rt rn up o.
Proof. now destruct ld. Qed.

Definition opc12 (ld byte : bool) (reg : Z) : Z := reg .| (if ld then 1 .<< 20 else 0) .| (if byte then 1 .<< 22 else 0).

Lemma small_address c rn off : greg c rn + off = if negb (off <? 0) then greg c rn + Z.abs off else greg c rn - Z.abs off.
Proof. destruct (Z.ltb_spec off 0); cbn [negb]; lia. Qed.

Lemma al_u4 : inU 4 COND_AL.
Proof. split; [discriminate|reflexivity]. Qed.
Hint Resolve al_u4 gpr_u4 b2z_u1 : core.

Lemma memop12_outs ld byte opc rt rn off c (Q : cpu -> Prop) : opc = opc12 ld byte 0x04000000 -> gpr rt -> gpr rn -> - 0xfff <= off <= 0xfff ->
  aligned arch (access_size (access12 ld byte)) (u32 (greg c rn + off)) = true -> Q (effect (access12 ld byte) rt (u32 (greg c rn + off)) c) ->
  outs (tcg_out_memop_12 COND_AL opc rt rn off true false) c Q.
Proof.
  intros -> Ht Hn Ho Al H; destruct (decode_mem_imm ld byte COND_AL rt rn (b2z (negb (off <? 0))) (Z.abs off)) as [D B]; auto; [unfold inU; lia|].
  rewrite insn12, b2z_flag in D; eapply access_outs; [exact Ht|exact Hn|exact D|exact B|reflexivity|..]; now rewrite <- small_address.
Qed.

Lemma memop12_reg_outs ld byte opc rt rn rm c (Q : cpu -> Prop) : opc = opc12 ld byte 0x06000000 -> gpr rt -> gpr rn -> gpr rm ->
  aligned arch (access_size (access12 ld byte)) (u32 (greg c rn + greg c rm)) = true -> Q (effect (access12 ld byte) rt (u32 (greg c rn + greg c rm)) c) ->
  outs (tcg_out_memop_r COND_AL opc rt rn rm true true false) c Q.
Proof.
  intros -> Ht Hn Hm Al H; destruct (decode_mem_reg ld byte COND_AL rt rn rm) as [D B]; auto; rewrite insn12 in D.
  eapply access_outs; [exact Ht|exact Hn|exact D|exact B|cbn [address]; rewrite gpr_not_pc by assumption; reflexivity|exact Al|exact H].
Qed.

(** Halfwords and signed bytes. *)
Lemma memop8_outs k l sh opc rt rn off c (Q : cpu -> Prop) : opc = 0x00400090 .| (l .<< 20) .| (sh .<< 5) -> inU 1 l -> inU 2 sh -> sh <> 0 ->
  (forall up o, extra_insn l sh rt rn up o = Some (insn_of k rt rn up o)) -> gpr rt -> gpr rn -> - 0xff <= off <= 0xff ->
  aligned arch (access_size k) (u32 (greg c rn + off)) = true -> Q (effect k rt (u32 (greg c rn + off)) c) ->
  outs (tcg_out_memop_8 COND_AL opc rt rn off true false) c Q.
Proof.
  intros -> Hl Hs N X Ht Hn Ho Al H; destruct (decode_extra_imm l sh COND_AL rt rn (b2z (negb (off <? 0))) (Z.abs off)) as [D B]; auto; [unfold inU; lia|].
  rewrite X, b2z_flag in D; eapply access_outs; [exact Ht|exact Hn|exact D|exact B|reflexivity|..]; now rewrite <- small_address.
Qed.

Lemma memop8_reg_outs k l sh opc rt rn rm c (Q : cpu -> Prop) : opc = 0x00000090 .| (l .<< 20) .| (sh .<< 5) -> inU 1 l -> inU 2 sh -> sh <> 0 ->
  (forall up o, extra_insn l sh rt rn up o = Some (insn_of k rt rn up o)) -> gpr rt -> gpr rn -> gpr rm ->
  aligned arch (access_size k) (u32 (greg c rn + greg c rm)) = true -> Q (effect k rt (u32 (greg c rn + greg c rm)) c) ->
  outs (tcg_out_memop_r COND_AL opc rt rn rm true true false) c Q.
Proof.
  intros -> Hl Hs N X Ht Hn Hm Al H; destruct (decode_extra_reg l sh COND_AL rt rn rm) as [D B]; auto; rewrite X in D.
  eapply access_outs; [exact Ht|exact Hn|exact D|exact B|cbn [address]; rewrite gpr_not_pc by assumption; reflexivity|exact Al|exact H].
Qed.

(** ** The offset in the instruction or in the scratch register *)

(** The access has been made; only the scratch register may have changed beside. *)
Definition accessed (k : access) (rt a : Z) (c c' : cpu) : Prop :=
  match k with
  | Reads size signed => let v := load c size a in computed c [rt] [if signed then u32 (swrap size v) else v] c'
  | Writes size => (forall x, x <> TCG_REG_TMP -> greg c' x = greg c x) /\ bytes c' = store_bytes (bytes c) size a (greg c rt)
  end.

Lemma accessed_now k rt a c : accessed k rt a c (effect k rt a c).
Proof. destruct k; [apply computed_set|split; reflexivity]. Qed.

Lemma accessed_later k rt a v c c1 : rt <> TCG_REG_TMP -> writes c TCG_REG_TMP v c1 -> accessed k rt a c (effect k rt a c1).
Proof.
  intros N [A B C D]; destruct k as [size signed|size]; cbn [accessed effect].
  - assert (L : load c1 size a = load c size a) by (unfold load; now rewrite D); rewrite L.
    split; [cbn [map]; now rewrite greg_set_eq|]; split; [|exact D]; intros x Nx T; rewrite greg_set_ne, B; auto; intros ->; apply Nx; now left.
  - cbn; rewrite D, (B rt N); split; [exact B|reflexivity].
Qed.

Lemma offset_outs (big : bool) k rt rn off reg imm c : host_reg rt -> host_reg rn ->
  (forall c1, u32 (greg c1 rn + greg c1 TCG_REG_TMP) = u32 (greg c rn + off) ->
     outs reg c1 (eq (effect k rt (u32 (greg c1 rn + greg c1 TCG_REG_TMP)) c1))) ->
  (big = false -> outs imm c (eq (effect k rt (u32 (greg c rn + off)) c))) ->
  outs (if big then tcg_out_movi32 host COND_AL TCG_REG_TMP off ;; reg else imm) c (accessed k rt (u32 (greg c rn + off)) c).
Proof.
  intros [_ Tt] [_ Tn] Hr Hi; destruct big.
  - apply outs_then; eapply outs_mono; [apply movi32_outs; [exact host_v7|apply gpr_tmp|reflexivity]|]; intros c1 W.
    pose proof (w_reg _ _ _ _ W) as Et; pose proof (w_other _ _ _ _ W rn Tn) as En; 
    assert (Ea : u32 (greg c1 rn + greg c1 TCG_REG_TMP) = u32 (greg c rn + off)) by (rewrite Et, En; unfold wrap; now rewrite Zplus_mod_idemp_r).
    eapply outs_mono; [now apply Hr|]; intros c2 <-; rewrite Ea; eapply accessed_later; eassumption.
  - eapply outs_mono; [now apply Hi|]; intros c2 <-; apply accessed_now.
Qed.

Lemma out_of_range n off : (n <? off) || (off <? - n) = false -> - n <= off <= n.
Proof. rewrite orb_false_iff, !Z.ltb_ge; lia. Qed.

Ltac mem12 ld byte := apply offset_outs; auto; [intros c1 Ea; apply (memop12_reg_outs ld byte); rewrite ?Ea; auto|intros R%out_of_range; now apply (memop12_outs ld byte)].
Ltac mem8 k l sh := apply (offset_outs _ k); auto; [intros c1 Ea; apply (memop8_reg_outs k l sh); rewrite ?Ea|intros R%out_of_range; apply (memop8_outs k l sh)];
  auto; (reflexivity || discriminate || (unfold inU; lia)).

Lemma access_done opc k rt rn off consts c : access_of opc = Some k -> host_reg rt -> host_reg rn ->
  aligned arch (access_size k) (u32 (greg c rn + s32 off)) = true ->
  outs (tcg_out_op host opc [rt; rn; off] consts) c (accessed k rt (u32 (greg c rn + s32 off)) c).
Proof.
  intros E Hr Hn Al; pose proof Hr as [Gr _]; pose proof Hn as [Gn _]; destruct opc; try discriminate E; injection E as <-; cbn [tcg_out_op nth].
  - mem12 true true.
  - mem8 (Reads 8 true) 1 2.
  - mem8 (Reads 16 false) 1 1.
  - mem8 (Reads 16 true) 1 3.
  - mem12 true false.
  - mem12 false true.
  - mem8 (Writes 16) 0 1.
  - mem12 false false.
Qed.
End Ops.
