(* ===== verification/TcgArmExact.v ===== *)
(** * What the ARM back end emits is right

    The statements about immediate operands, constants, operations and
    memory, for every host processor. *)

From Stdlib Require Import ZArith Lia List Bool.
From S2P Require Import Prelude Bitops TcgIr TcgRegAlloc TcgArm ArmIsa TcgArmOut TcgArmWords TcgArmOps TcgArmMovi TcgArmOp TcgArmBits TcgArmCond TcgArmDouble TcgArmMem.
Import ListNotations.
Local Open Scope Z_scope.
Local Open Scope c_scope.

(** The back end uses no instruction that the processor does not have. *)
Record host_fits (host : arm_host) (arch : arm_arch) : Prop := {
  hf_v6 : use_armv6_instructions host = true -> has_v6 arch = true;
  hf_v7 : use_armv7_instructions host = true -> has_v7 arch = true
}.

(** The operations that [tcg_out_op] computes: division where the processor
    has it, fields where [tcg_target_deposit_valid], and comparisons of
    double words but for the signed ones. *)
Definition out_computes (host : arm_host) (arch : arm_arch) (opc : TCGOpcode) (args : list Z) : bool :=
  match opc with
  | add_i32 | sub_i32 | and_i32 | andc_i32 | or_i32 | xor_i32 | neg_i32 | not_i32 | mul_i32 | mulu2_i32 | muls2_i32
  | shl_i32 | shr_i32 | sar_i32 | rotl_i32 | rotr_i32 | setcond_i32 | movcond_i32 | add2_i32 | sub2_i32
  | bswap16_i32 | bswap32_i32 | ext8s_i32 | ext16s_i32 | ext16u_i32 => true
  | div_i32 | divu_i32 => has_idiv arch
  | deposit_i32 => tcg_target_deposit_valid host (nth 3 args 0) (nth 4 args 0)
  | setcond2_i32 => unsigned_cond (nth 5 args 0)
  | _ => false
  end.

Lemma op_is_done host arch opc args consts c : host_fits host arch -> out_computes host arch opc args = true ->
  op_fits opc args consts -> cpu_ok c -> op_done arch host opc args consts c.
Proof.
  intros [V6 V7] H F Ok; destruct opc; try discriminate H;
    eauto using setcond_done, movcond_done, add_done, sub_done, mul_done, div_done, divu_done, and_done, or_done, xor_done, shl_done, shr_done, sar_done,
      rotl_done, rotr_done, deposit_done, add2_done, sub2_done, mulu2_done, muls2_done, setcond2_done, ext8s_done, ext16s_done, ext16u_done,
      bswap16_done, bswap32_done, not_done, neg_done, andc_done.
Qed.

(** [op_fits] for given arguments. *)
Fixpoint distinct (l : list Z) : bool := match l with [] => true | x :: l => negb (existsb (Z.eqb x) l) && distinct l end.

Definition fits_check (opc : TCGOpcode) (args : list Z) (consts : list bool) : bool :=
  let def := tcg_op_defs opc in
  let no := nb_oargs def in
  let nargs := (no + nb_iargs def)%nat in
  let ct i := nth i (op_args_ct opc) no_ct in
  (length args =? nargs + nb_cargs def)%nat && (length consts =? nargs)%nat &&
  forallb (fun i => let x := nth i args 0 in
    if nth i consts false then (no <=? i)%nat && const_match x (ct i) else (0 <=? x) && (x <? 15) && negb (x =? TCG_REG_TMP) && test_reg (ct_regs (ct i)) x) (seq 0 nargs) &&
  distinct (firstn no args) &&
  forallb (fun i => negb (is_ialias (ct i)) || (nth i args 0 =? nth (alias_index (ct i)) args 0)) (seq 0 (length (op_args_ct opc))).

Lemma distinct_ok l : distinct l = true -> NoDup l.
Proof.
  induction l as [|x l IH]; cbn; [constructor|]; rewrite andb_true_iff, negb_true_iff; intros [N D]; constructor; auto.
  intros I; assert (T : existsb (Z.eqb x) l = true) by (apply existsb_exists; exists x; split; [exact I|apply Z.eqb_refl]); congruence.
Qed.

Lemma fits_check_ok opc args consts : fits_check opc args consts = true -> op_fits opc args consts.
Proof.
  unfold fits_check; rewrite !andb_true_iff, !Nat.eqb_eq, !forallb_forall; intros [[[[A B] C] D] E]; constructor; auto using distinct_ok.
  - intros i L; specialize (C i ltac:(apply in_seq; lia)); cbv zeta in C; destruct (nth i consts false).
    + apply andb_true_iff in C as [C1%Nat.leb_le C2]; auto.
    + rewrite !andb_true_iff, Z.leb_le, Z.ltb_lt, negb_true_iff, Z.eqb_neq in C; unfold host_reg, gpr; tauto.
  - intros i L K; specialize (C i ltac:(apply in_seq; lia)); cbv zeta in C; rewrite K, !andb_true_iff in C; tauto.
  - intros i Al; destruct (Nat.ltb_spec i (length (op_args_ct opc))) as [L|L].
    + specialize (E i ltac:(apply in_seq; lia)); rewrite Al in E; now apply Z.eqb_eq in E.
    + rewrite nth_overflow in Al by assumption; discriminate Al.
Qed.

(** Registers with the values that the witnesses use. *)
Definition demo_cpu : cpu := mkCpu (fun x => u32 (x * 0x12345679 + 0x7fffffff)) false false false false (fun a => u8 a).

Lemma demo_ok : cpu_ok demo_cpu.
Proof. intros x; apply wrap_range; lia. Qed.

(** Processors with and without the instructions of versions 6 and 7. *)
Definition cortex_a9 : arm_arch := mkArch true true false.
Definition arm_v5 : arm_arch := mkArch false false false.

Lemma a9_fits : host_fits (mkHost true true 0) cortex_a9.
Proof. now constructor. Qed.

Lemma v5_fits : host_fits (mkHost false false 0) arm_v5.
Proof. now constructor. Qed.

(** C2: for every operation that the back end implements (arithmetic, logic, shifts and
    rotations, products, fields, byte swaps, extensions, comparisons, conditional moves,
    double-word sums and differences; division where the processor has it, double-word
    comparisons but for the signed ones), with any registers and constants that meet the
    constraints of the operation, however the registers overlap, and on processors with
    and without the instructions of ARMv6 and ARMv7: the words that tcg_out_op emits run
    on the processor without an unpredictable instruction, leave in the output registers
    the values that the operation specifies, and change nothing else but the scratch
    register and the flags. *)
Theorem tcg_out_op_correct host arch opc args consts c vs :
  host_fits host arch -> op_fits opc args consts -> out_computes host arch opc args = true -> cpu_ok c ->
  eval_pure opc (op_inputs opc args consts c) (op_constants opc args) = Some vs ->
  exists ws c', tcg_out_op host opc args consts = Some ws /\ run_words arch ws c = Some c' /\
    computed c (firstn (nb_oargs (tcg_op_defs opc)) args) vs c'.
Proof. intros Hf F O Ok E; exact (op_is_done host arch opc args consts c Hf O F Ok vs E). Qed.

(** The first word of the sum is still needed for the second, so that it goes through the scratch register. *)
Lemma tcg_out_op_correct_witness :
  exists ws c', tcg_out_op (mkHost true true 0) sub2_i32 [0; 1; 2; 0; 4; 0xfffffff0] [false; false; false; false; false; true] = Some ws /\
    length ws = 3%nat /\ run_words cortex_a9 ws demo_cpu = Some c' /\
    computed demo_cpu [0; 1] (words_of (dword (greg demo_cpu 2) (greg demo_cpu 0) - dword (greg demo_cpu 4) 0xfffffff0)) c'.
Proof.
  destruct (tcg_out_op_correct (mkHost true true 0) cortex_a9 sub2_i32 [0; 1; 2; 0; 4; 0xfffffff0] [false; false; false; false; false; true] demo_cpu
    (words_of (dword (greg demo_cpu 2) (greg demo_cpu 0) - dword (greg demo_cpu 4) 0xfffffff0)) a9_fits) as (ws & c' & E & R & C);
    [apply fits_check_ok; vm_compute; reflexivity|reflexivity|exact demo_ok|reflexivity|].
  exists ws, c'; split; [exact E|]; split; [|now split]; vm_compute in E; injection E as <-; reflexivity.
Defined.

(** C16: tcg_out_movi32 loads every 32-bit constant into every register, by one MOV or
    MVN, by MOVW and MOVT, or by at most four pieces before ARMv7, and changes neither
    another register nor the flags. *)
Theorem tcg_out_movi32_correct host arch rd v c : host_fits host arch -> gpr rd ->
  exists ws c', tcg_out_movi32 host COND_AL rd v = Some ws /\ run_words arch ws c = Some c' /\ writes c rd (u32 v) c'.
Proof. intros [_ V7] Hd; now apply movi32_outs. Qed.

(** Four instructions without MOVW, two with it. *)
Lemma tcg_out_movi32_correct_witness :
  (exists ws c', tcg_out_movi32 (mkHost false false 0) COND_AL 3 0x12345678 = Some ws /\ run_words arm_v5 ws demo_cpu = Some c' /\ writes demo_cpu 3 0x12345678 c') /\
  option_map (@length Z) (tcg_out_movi32 (mkHost false false 0) COND_AL 3 0x12345678) = Some 4%nat /\
  option_map (@length Z) (tcg_out_movi32 (mkHost true true 0) COND_AL 3 0x12345678) = Some 2%nat.
Proof. split; [apply (tcg_out_movi32_correct _ _ 3 0x12345678 demo_cpu v5_fits); unfold gpr; lia|split; reflexivity]. Defined.

(** C17: encode_imm finds a rotation exactly for the words that are a byte rotated to
    the right by an even amount, and the operand field that the back end builds from it
    fits twelve bits and is expanded by the processor to the word itself. *)
Theorem encode_imm_exact v : inU 32 v ->
  (0 <= encode_imm v <-> exists b r, inU 8 b /\ 0 <= r < 16 /\ v = ror32 b (2 * r)) /\
  (0 <= encode_imm v -> let field := rotl v (encode_imm v) .| (encode_imm v .<< 7) in inU 12 field /\ expand_imm field = v).
Proof.
  intros Hv; split; [|now apply encode_imm_field]; split.
  - intros E; destruct (encode_imm_ok v Hv E) as (r & Hr & _ & Hb); exists (rotl v (2 * r)), r; unfold inU in Hr; splits; [exact Hb|lia|lia|].
    symmetry; apply ror_rotl; [exact Hv|lia].
  - intros (b & r & Hb & Hr & ->); now apply encode_imm_complete.
Qed.

Lemma encode_imm_exact_witness : let field := rotl 0xf000000f (encode_imm 0xf000000f) .| (encode_imm 0xf000000f .<< 7) in inU 12 field /\ expand_imm field = 0xf000000f.
Proof. apply (encode_imm_exact 0xf000000f); [unfold inU; lia|vm_compute; discriminate]. Defined.

(** C18: the loads and stores of tcg_out_op (signed and unsigned bytes and halfwords,
    words) access the word at the register plus the offset for every 32-bit offset, in
    the instruction where it fits and through the scratch register otherwise, with the
    extension the operation asks for; before ARMv6 the address must be aligned. *)
Theorem tcg_out_access_correct host arch opc k rt rn off consts c : host_fits host arch -> access_of opc = Some k -> host_reg rt -> host_reg rn ->
  aligned arch (access_size k) (u32 (greg c rn + s32 off)) = true ->
  exists ws c', tcg_out_op host opc [rt; rn; off] consts = Some ws /\ run_words arch ws c = Some c' /\
    accessed k rt (u32 (greg c rn + s32 off)) c c'.
Proof. intros [_ V7] E Hr Hn Al; exact (access_done arch host V7 opc k rt rn off consts c E Hr Hn Al). Qed.

(** An offset that does not fit the instruction. *)
Lemma tcg_out_access_correct_witness :
  exists ws c', tcg_out_op (mkHost true true 0) ld16s_i32 [0; 6; 0x12f8] [false; false] = Some ws /\ run_words cortex_a9 ws demo_cpu = Some c' /\
    accessed (Reads 16 true) 0 (u32 (greg demo_cpu 6 + 0x12f8)) demo_cpu c'.
Proof.
  apply (tcg_out_access_correct (mkHost true true 0) cortex_a9 ld16s_i32 (Reads 16 true) 0 6 0x12f8 [false; false] demo_cpu a9_fits eq_refl);
    [split; [unfold gpr; lia|discriminate]|split; [unfold gpr; lia|discriminate]|reflexivity].
Defined.

(** C21: what setcond2_i32 computes for a signed condition, with any registers and
    constants that meet the constraints and on every processor: the comparison of the
    double words that the operation specifies, inverted exactly when the high words are
    equal and the sign bits of the low words differ, since the low words are then
    compared as signed numbers. *)
Theorem setcond2_signed_exact host arch args consts c :
  comparison (nth 5 args 0) = true -> unsigned_cond (nth 5 args 0) = false -> op_fits setcond2_i32 args consts -> cpu_ok c ->
  exists al ah bl bh b ws c', op_inputs setcond2_i32 args consts c = [al; ah; bl; bh] /\
    eval_pure setcond2_i32 [al; ah; bl; bh] (op_constants setcond2_i32 args) = Some [b2z b] /\
    tcg_out_op host setcond2_i32 args consts = Some ws /\ run_words arch ws c = Some c' /\
    computed c (firstn 1 args) [b2z (xorb b ((ah =? bh) && xorb (al <? 2 ^ 31) (bl <? 2 ^ 31)))] c'.
Proof.
  intros Cm U F Ok; destruct (setcond2_signed_outs arch host args consts c Cm U F Ok) as (al & ah & bl & bh & b & I & E & ws & c' & W & R & C).
  exists al, ah, bl, bh, b, ws, c'; now splits.
Qed.

(** Zero but for the low word of the first operand. *)
Definition signed_cpu : cpu := mkCpu (fun x => if x =? 1 then 0x80000000 else 0) false false false false (fun _ => 0).

(** 0x80000000 counts as less than 1. *)
Lemma setcond2_signed_exact_witness :
  let args := [0; 1; 2; 1; 0; TCG_COND_LT] in let consts := [false; false; false; true; true] in
  exists ws c', tcg_out_op (mkHost true true 0) setcond2_i32 args consts = Some ws /\ run_words cortex_a9 ws signed_cpu = Some c' /\ greg c' 0 = 1.
Proof.
  destruct (setcond2_signed_exact (mkHost true true 0) cortex_a9 [0; 1; 2; 1; 0; TCG_COND_LT] [false; false; false; true; true] signed_cpu)
    as (al & ah & bl & bh & b & ws & c' & I & E & W & R & C & _);
    [reflexivity|reflexivity|apply fits_check_ok; vm_compute; reflexivity|intros x; cbn; destruct (x =? 1); unfold inU; lia|].
  exists ws, c'; split; [exact W|split; [exact R|]]; vm_compute in I; injection I as <- <- <- <-; vm_compute in E.
  destruct b; [discriminate E|]; now injection C.
Defined.
