(* ===== verification/TcgArmGuestLd.v ===== *)
(** * Guest loads of the ARM back end

    What an access of the guest is, and [tcg_out_qemu_ld] of a build without
    CONFIG_SOFTMMU: bytes, halfwords and words through one sequence with its
    loads as an argument, then double words. *)

From Stdlib Require Import ZArith Lia List Bool.
From S2P Require Import Prelude Bitops BitRoute TcgIr TcgRegAlloc TcgArm ArmIsa TcgArmOut TcgArmWords TcgArmOps TcgArmMovi TcgArmOp TcgArmBits TcgArmMem TcgArmExact.
Import ListNotations.
Local Open Scope Z_scope.
Local Open Scope c_scope.
Local Open Scope out_scope.

(** ** What a guest access is *)

(** The word of [n] bytes, the lowest first. *)
Fixpoint word_of (f : Z -> Z) (n : nat) : Z :=
  match n with O => 0 | S n => word_of f n .| (f (Z.of_nat n) .<< (8 * Z.of_nat n)) end.

Definition op_bytes (opc : Z) : Z := 2 ^ (opc .& MO_SIZE).

(** The place in the value of the byte [d] above the address; the host is little-endian. *)
Definition place (opc d : Z) : Z := if truthy (opc .& MO_BSWAP) then op_bytes opc - 1 - d else d.

Definition guest_value (c : cpu) (opc a : Z) : Z := word_of (fun k => bytes c (u32 (a + place opc k))) (Z.to_nat (op_bytes opc)).

(** The registers of the value that is loaded. *)
Definition guest_words (is64 : bool) (opc v : Z) : list Z :=
  if is64 then words_of v else [u32 (if truthy (opc .& MO_SIGN) then swrap (8 * op_bytes opc) v else v)].

(** The byte at [b] after [v] was stored at [a]. *)
Definition guest_stored (m : Z -> Z) (opc a v b : Z) : Z :=
  let d := u32 (b - a) in if d <? op_bytes opc then u8 (v .>> (8 * place opc d)) else m b.

(** An operation has the size of its data. *)
Definition size_fits (is64 : bool) (opc : Z) : bool :=
  if is64 then opc .& MO_SSIZE =? MO_Q else negb (opc .& MO_SIZE =? MO_64).

Definition guest_aligned (arch : arm_arch) (opc a : Z) : bool := aligned arch (Z.min 32 (8 * op_bytes opc)) a.

Definition bytes_ok (c : cpu) : Prop := forall a, inU 8 (bytes c a).

(** ** Loaded words *)

Ltac the_bytes B c :=
  repeat match goal with |- context [bytes c ?x] => let b := fresh "b" in let H := fresh "H" in pose proof (B x) as H; generalize dependent (bytes c x); intros b H end.

Lemma load8_range c a : bytes_ok c -> inU 8 (load c 8 a).
Proof. intros B; apply B. Qed.

Lemma load16_range c a : bytes_ok c -> inU 16 (load c 16 a).
Proof. intros B; cbn [load]; the_bytes B c; route. Qed.

Lemma load32_range c a : bytes_ok c -> inU 32 (load c 32 a).
Proof. intros B; cbn [load]; the_bytes B c; route. Qed.

Lemma load_bytes c c' size a : bytes c' = bytes c -> load c' size a = load c size a.
Proof. intros E; unfold load; now rewrite E. Qed.

(** The cases of [opc] that the code tells apart. *)
Lemma size_of_ssize opc : opc .& MO_SIZE = (opc .& MO_SSIZE) .& MO_SIZE.
Proof. now rewrite <- Z.land_assoc. Qed.
Lemma sign_of_ssize opc : opc .& MO_SIGN = (opc .& MO_SSIZE) .& MO_SIGN.
Proof. now rewrite <- Z.land_assoc. Qed.

Lemma ssize_cases opc : let s := opc .& MO_SSIZE in s = 0 \/ s = 1 \/ s = 2 \/ s = 3 \/ s = 4 \/ s = 5 \/ s = 6 \/ s = 7.
Proof.
  cbv zeta; change MO_SSIZE with (Z.ones 3); rewrite Z.land_ones by lia; pose proof (Z.mod_pos_bound opc (2 ^ 3) ltac:(lia)); lia.
Qed.

(** The value of a word, in terms of the loads of the processor. *)
Definition raw_words (opc : Z) (bswap : bool) (c : cpu) (a : Z) : list Z :=
  let s := opc .& MO_SSIZE in
  let x := load c 8 a in let y := load c 16 a in let z := load c 32 a in
  if s =? 0 then [x] else if s =? 4 then [u32 (s8 x)]
  else if s =? 1 then [if bswap then bswap16 y else y]
  else if s =? 5 then [u32 (s16 (if bswap then bswap16 y else y))]
  else [if bswap then bswap32 z else z].

(** Evaluate the numbers that do not depend on the guest. *)
Ltac evaluate t := let v := eval vm_compute in t in change t with v.
Ltac ground :=
  repeat match goal with
    | |- context [truthy (Z.pos ?p .& ?m)] => evaluate (truthy (Z.pos p .& m))
    | |- context [truthy (0 .& ?m)] => evaluate (truthy (0 .& m))
    | |- context [2 ^ (Z.pos ?p .& MO_SIZE)] => evaluate (2 ^ (Z.pos p .& MO_SIZE))
    | |- context [2 ^ (0 .& MO_SIZE)] => evaluate (2 ^ (0 .& MO_SIZE))
    | |- context [Z.to_nat (Z.pos ?p)] => evaluate (Z.to_nat (Z.pos p))
    | |- context [8 * Z.pos ?p] => evaluate (8 * Z.pos p)
    end; cbn [word_of load Z.eqb Pos.eqb];
  repeat match goal with
    | |- context [Z.of_nat ?n] => evaluate (Z.of_nat n)
    | |- context [8 * ?n] => evaluate (8 * n)
    | |- context [?n - 1 - ?m] => evaluate (n - 1 - m)
    end; unfold bswap16, bswap32; rewrite ?Z.add_0_r.

Lemma raw_words_ok opc c a : bytes_ok c -> size_fits false opc = true ->
  raw_words opc (truthy (opc .& MO_BSWAP)) c a = guest_words false opc (guest_value c opc a).
Proof.
  unfold size_fits, raw_words, guest_words, guest_value, place, op_bytes; rewrite size_of_ssize, sign_of_ssize; intros B.
  destruct (truthy (opc .& MO_BSWAP)); destruct (ssize_cases opc) as [->|[->|[->|[->|[->|[->|[->| ->]]]]]]]; try discriminate; intros _.
  all: ground; the_bytes B c; f_equal; route.
Qed.

Lemma aligned_above arch a : aligned arch 32 a = true -> aligned arch 32 (u32 (a + 4)) = true.
Proof.
  unfold aligned; destruct (has_v6 arch); [reflexivity|]; cbn [orb]; change (32 / 8) with 4; rewrite !Z.eqb_eq; intros E; unfold wrap.
  rewrite Z.mod_mod_divide by (now exists (2 ^ 30)); now rewrite <- Zplus_mod_idemp_l, E.
Qed.

Section Load.
Variable arch : arm_arch.
Variable host : arm_host.
Hypothesis host_v6 : use_armv6_instructions host = true -> has_v6 arch = true.
Hypothesis host_v7 : use_armv7_instructions host = true -> has_v7 arch = true.
Abbreviation outs := (TcgArmWords.outs arch).

(** ** Up to a word *)

Lemma computed_again c rd v c1 w c2 : computed c [rd] [v] c1 -> computed c1 [rd] [w] c2 -> computed c [rd] [w] c2.
Proof.
  intros (_ & B & D) (A' & B' & D'); split; [exact A'|]; split; [|congruence]; intros x N T; now rewrite B', B.
Qed.

Lemma computed_reg c rd v c1 : computed c [rd] [v] c1 -> greg c1 rd = v.
Proof. now intros [[= E] _]. Qed.

(** The code with its loads as an argument, but for double words. *)
Definition narrow_ld (loader : access -> out) (wide : out) (opc rd : Z) : out :=
  let bswap := truthy (opc .& MO_BSWAP) in
  let swap o := if bswap then o else nothing in
  let ssize := opc .& MO_SSIZE in
  if ssize =? MO_UB then loader (Reads 8 false)
  else if ssize =? MO_SB then loader (Reads 8 true)
  else if ssize =? MO_UW then loader (Reads 16 false) ;; swap (tcg_out_bswap16 host COND_AL rd rd)
  else if ssize =? MO_SW then
    if bswap then loader (Reads 16 false) ;; tcg_out_bswap16s host COND_AL rd rd
    else loader (Reads 16 true)
  else if ssize =? MO_Q then wide
  else loader (Reads 32 false) ;; swap (tcg_out_bswap32 host COND_AL rd rd).

Lemma narrow_ld_outs loader wide opc rd a c : host_reg rd -> bytes_ok c -> size_fits false opc = true -> guest_aligned arch opc a = true ->
  (forall size signed, In (size, signed) [(8, false); (8, true); (16, false); (16, true); (32, false)] -> aligned arch size a = true ->
     outs (loader (Reads size signed)) c (accessed (Reads size signed) rd a c)) ->
  outs (narrow_ld loader wide opc rd) c (computed c [rd] (guest_words false opc (guest_value c opc a))).
Proof.
  intros Hd B Sf Al L; rewrite <- raw_words_ok by assumption; pose proof Sf as Sf'; unfold size_fits in Sf'; rewrite size_of_ssize in Sf'.
  unfold guest_aligned, op_bytes in Al; rewrite size_of_ssize in Al; unfold raw_words, narrow_ld.
  assert (Sw : forall x size signed v w o, outs (loader (Reads size signed)) c (accessed (Reads size signed) rd a c) ->
    v = (if signed : bool then u32 (swrap size (load c size a)) else load c size a) -> (x = false -> w = v) ->
    (x = true -> forall c1, computed c [rd] [v] c1 -> outs o c1 (computed c1 [rd] [w])) ->
    outs (loader (Reads size signed) ;; (if x : bool then o else nothing)) c (computed c [rd] [w])).
  { intros x size signed v w o O -> E S; apply outs_then; eapply outs_mono; [exact O|]; intros c1 C1; destruct x; [|rewrite E by reflexivity; now apply outs_nothing].
    eapply outs_mono; [now apply S|]; intros c2 C2; exact (computed_again _ _ _ _ _ _ C1 C2). }
  destruct (ssize_cases opc) as [E|[E|[E|[E|[E|[E|[E|E]]]]]]]; rewrite E in *; cbn in Al; try discriminate Sf'; cbn -[load wrap swrap bswap16 bswap32 truthy]; generalize (truthy (opc .& MO_BSWAP)); intros x.
  - apply L; cbn; tauto.
  - apply (Sw _ _ _ (load c 16 a)); auto; [apply L; cbn; tauto|now intros ->|]; intros -> c1 C1; rewrite <- (computed_reg _ _ _ _ C1).
    apply bswap16_outs; auto; rewrite (computed_reg _ _ _ _ C1); now apply load16_range.
  - apply (Sw _ _ _ (load c 32 a)); auto; [apply L; cbn; tauto|now intros ->|]; intros -> c1 C1; rewrite <- (computed_reg _ _ _ _ C1).
    eapply outs_mono; [apply bswap32_outs; auto; rewrite (computed_reg _ _ _ _ C1); now apply load32_range|]; now intros c2 [C2 _].
  - apply L; cbn; tauto.
  - destruct x; [|apply L; cbn; tauto].
    apply (Sw true _ _ (load c 16 a)); auto; [apply L; cbn; tauto|discriminate|]; intros _ c1 C1; rewrite <- (computed_reg _ _ _ _ C1).
    apply bswap16s_outs; auto; rewrite (computed_reg _ _ _ _ C1); now apply load16_range.
  - apply (Sw _ _ _ (load c 32 a)); auto; [apply L; cbn; tauto|now intros ->|]; intros -> c1 C1; rewrite <- (computed_reg _ _ _ _ C1).
    eapply outs_mono; [apply bswap32_outs; auto; rewrite (computed_reg _ _ _ _ C1); now apply load32_range|]; now intros c2 [C2 _].
Qed.

(** The loads of [tcg_out_qemu_ld_index] and [tcg_out_qemu_ld_direct]. *)
Definition loader_r (rd rn rm : Z) (k : access) : out :=
  match k with
  | Reads 8 false => tcg_out_ld8_r COND_AL rd rn rm
  | Reads 8 true => tcg_out_ld8s_r COND_AL rd rn rm
  | Reads 16 false => tcg_out_ld16u_r COND_AL rd rn rm
  | Reads 16 true => tcg_out_ld16s_r COND_AL rd rn rm
  | _ => tcg_out_ld32_r COND_AL rd rn rm
  end.

Definition loader_0 (rd rn : Z) (k : access) : out :=
  match k with
  | Reads 8 false => tcg_out_ld8_12 COND_AL rd rn 0
  | Reads 8 true => tcg_out_ld8s_8 COND_AL rd rn 0
  | Reads 16 false => tcg_out_ld16u_8 COND_AL rd rn 0
  | Reads 16 true => tcg_out_ld16s_8 COND_AL rd rn 0
  | _ => tcg_out_ld32_12 COND_AL rd rn 0
  end.

Ltac each_load I := cbn [In] in I; destruct I as [I|[I|[I|[I|[I|[]]]]]]; injection I as <- <-.

Lemma loader_r_ok rd rn rm c size signed : gpr rd -> gpr rn -> gpr rm -> In (size, signed) [(8, false); (8, true); (16, false); (16, true); (32, false)] ->
  let a := u32 (greg c rn + greg c rm) in aligned arch size a = true -> outs (loader_r rd rn rm (Reads size signed)) c (accessed (Reads size signed) rd a c).
Proof.
  intros Hd Hn Hm I a Al; apply (outs_mono arch _ c (eq (effect (Reads size signed) rd a c))); [|intros c' <-; apply accessed_now]; cbn [loader_r]; each_load I.
  - now apply (memop12_reg_outs arch true true).
  - apply (memop8_reg_outs arch (Reads 8 true) 1 2); auto; (reflexivity || discriminate || (unfold inU; lia)).
  - apply (memop8_reg_outs arch (Reads 16 false) 1 1); auto; (reflexivity || discriminate || (unfold inU; lia)).
  - apply (memop8_reg_outs arch (Reads 16 true) 1 3); auto; (reflexivity || discriminate || (unfold inU; lia)).
  - now apply (memop12_reg_outs arch true false).
Qed.

Lemma loader_0_ok rd rn c size signed : gpr rd -> gpr rn -> In (size, signed) [(8, false); (8, true); (16, false); (16, true); (32, false)] ->
  let a := u32 (greg c rn + 0) in aligned arch size a = true -> outs (loader_0 rd rn (Reads size signed)) c (accessed (Reads size signed) rd a c).
Proof.
  intros Hd Hn I a Al; apply (outs_mono arch _ c (eq (effect (Reads size signed) rd a c))); [|intros c' <-; apply accessed_now]; cbn [loader_0]; each_load I.
  - now apply (memop12_outs arch true true).
  - apply (memop8_outs arch (Reads 8 true) 1 2); auto; (reflexivity || discriminate || (unfold inU; lia) || lia).
  - apply (memop8_outs arch (Reads 16 false) 1 1); auto; (reflexivity || discriminate || (unfold inU; lia) || lia).
  - apply (memop8_outs arch (Reads 16 true) 1 3); auto; (reflexivity || discriminate || (unfold inU; lia) || lia).
  - now apply (memop12_outs arch true false).
Qed.

(** ** Double words *)

Lemma above a i : u32 (u32 (a + 4) + i) = u32 (a + (4 + i)).
Proof. unfold wrap; rewrite Zplus_mod_idemp_l; f_equal; lia. Qed.

Lemma wide_words opc c a : bytes_ok c -> size_fits true opc = true ->
  words_of (guest_value c opc a) =
  if truthy (opc .& MO_BSWAP) then [bswap32 (load c 32 (u32 (a + 4))); bswap32 (load c 32 a)] else [load c 32 a; load c 32 (u32 (a + 4))].
Proof.
  unfold size_fits; intros B E%Z.eqb_eq; unfold guest_value, place, op_bytes; rewrite size_of_ssize, E; destruct (truthy (opc .& MO_BSWAP)).
  all: change MO_Q with 3; ground; rewrite (wrap_id 32 (u32 (a + 4))), !above by (apply wrap_range; lia); cbn [Z.add Pos.add Pos.succ]; the_bytes B c; unfold words_of; f_equal; [|f_equal]; route.
Qed.

Lemma computed_swap c x y u v c' : computed c [x; y] [u; v] c' -> computed c [y; x] [v; u] c'.
Proof.
  intros ([= A A'] & B & C); split; [cbn; now rewrite A, A'|]; split; [|exact C]; intros z N; apply B; cbn in *; tauto.
Qed.

Lemma swap_pair_outs c c1 x y u v : host_reg x -> host_reg y -> x <> y -> inU 32 u -> inU 32 v -> computed c [x; y] [u; v] c1 ->
  outs (tcg_out_bswap32 host COND_AL x x ;; tcg_out_bswap32 host COND_AL y y) c1 (computed c [x; y] [bswap32 u; bswap32 v]).
Proof.
  intros Hx Hy N Hu Hv ([= A A'] & B & C); apply outs_then; eapply outs_mono; [apply bswap32_outs; auto; now rewrite A|]; intros c2 [([= E] & B2 & C2) _].
  assert (Ey : greg c2 y = v) by (rewrite B2; [exact A'|cbn; intuition congruence|apply Hy]).
  eapply outs_mono; [apply bswap32_outs; auto; now rewrite Ey|]; intros c3 [([= E3] & B3 & C3) _]; split; [|split; [|congruence]].
  - cbn [map]; rewrite E3, Ey, B3, E, A; auto; [cbn; intuition congruence|apply Hx].
  - intros z Nz T; cbn in Nz; rewrite B3, B2, B; auto; cbn; tauto.
Qed.

Lemma pre_ld_outs rt rn rm c (Q : cpu -> Prop) : gpr rt -> gpr rn -> gpr rm -> rt <> rn -> rm <> rn ->
  let a := u32 (greg c rn + greg c rm) in aligned arch 32 a = true ->
  Q (set_greg (set_greg c rn a) rt (load c 32 a)) -> outs (tcg_out_ld32_rwb COND_AL rt rn rm) c Q.
Proof.
  intros Ht Hn Hm N N' a Al H; destruct (decode_mem_pre true COND_AL rt rn rm) as [D B]; auto using gpr_u4, al_u4.
  eapply (outs_word arch _ _ _ COND_AL true c _ Q eq_refl D B eq_refl); [cbn [exec]|exact H]; unfold pre_indexed; rewrite no_pc_ok by auto.
  apply Z.eqb_neq in N, N'; rewrite N, N', orb_true_r; cbn [negb andb]; cbn [address]; rewrite gpr_not_pc by assumption; fold a; now rewrite Al.
Qed.

Lemma wide_size opc : size_fits true opc = true -> opc .& MO_SSIZE = MO_Q /\ op_bytes opc = 8.
Proof. unfold size_fits; intros E%Z.eqb_eq; split; [exact E|]; unfold op_bytes; now rewrite size_of_ssize, E. Qed.

(** What both functions are told. *)
Record ld_args (is64 : bool) (opc lo hi addr : Z) : Prop := {
  la_lo : host_reg lo;
  la_hi : is64 = true -> host_reg hi /\ lo <> hi;
  la_addr : host_reg addr;
  la_size : size_fits is64 opc = true
}.

Definition ld_regs (is64 : bool) (lo hi : Z) : list Z := if is64 then [lo; hi] else [lo].

(** The words [u] at the address and [v] above it, in [x] and [y], are brought into the byte order and the order of the guest. *)
Lemma ordered_outs opc lo hi a c c1 : ld_args true opc lo hi 0 -> bytes_ok c -> let bswap := truthy (opc .& MO_BSWAP) in
  let dl := if bswap then hi else lo in let dh := if bswap then lo else hi in
  computed c [dl; dh] [load c 32 a; load c 32 (u32 (a + 4))] c1 ->
  outs (if bswap then tcg_out_bswap32 host COND_AL dl dl ;; tcg_out_bswap32 host COND_AL dh dh else nothing) c1
    (computed c [lo; hi] (words_of (guest_value c opc a))).
Proof.
  intros [Hl Hh _ Hs] B; cbv zeta; destruct (Hh eq_refl) as [Hh' N]; rewrite (wide_words opc c a B Hs).
  destruct (truthy (opc .& MO_BSWAP)); intros C; [|now apply outs_nothing].
  eapply outs_mono; [apply (swap_pair_outs c c1 hi lo (load c 32 a) (load c 32 (u32 (a + 4)))); auto using load32_range|]; intros c2; apply computed_swap.
Qed.

Lemma ld_index_outs is64 opc lo hi addr c : ld_args is64 opc lo hi addr -> bytes_ok c ->
  let a := u32 (greg c addr + greg c TCG_REG_TMP) in guest_aligned arch opc a = true ->
  outs (tcg_out_qemu_ld_index host opc lo hi addr TCG_REG_TMP) c (computed c (ld_regs is64 lo hi) (guest_words is64 opc (guest_value c opc a))).
Proof.
  intros [Hl Hh Ha Hs] B a Al; destruct is64; cbn [ld_regs].
  - destruct (wide_size _ Hs) as [E E8], (Hh eq_refl) as [Hh' N]; unfold guest_aligned in Al; rewrite E8 in Al; change (Z.min 32 (8 * 8)) with 32 in Al.
    unfold tcg_out_qemu_ld_index; rewrite E; cbn [Z.eqb Pos.eqb MO_Q MO_UB MO_SB MO_UW MO_SW MO_64 MO_8 MO_16 MO_SIGN Z.lor Pos.lor]; cbv zeta.
    set (bswap := truthy _); set (dl := if bswap then hi else lo); set (dh := if bswap then lo else hi).
    assert (Hdl : host_reg dl) by (unfold dl; now destruct bswap); assert (Hdh : host_reg dh) by (unfold dh; now destruct bswap).
    assert (Nd : dl <> dh) by (unfold dl, dh; destruct bswap; auto); rewrite (proj2 (Z.eqb_neq _ _) (proj2 Hdl)); cbn [negb].
    apply outs_then, outs_then, pre_ld_outs; try apply Hdl; try apply Ha; auto; [now rewrite Z.add_comm|]; rewrite (Z.add_comm (greg c TCG_REG_TMP)); fold a.
    set (c1 := set_greg (set_greg c TCG_REG_TMP a) dl (load c 32 a)); assert (Et : greg c1 TCG_REG_TMP = a) by (unfold c1; rewrite greg_set_ne, greg_set_eq; [reflexivity|apply not_eq_sym, Hdl]).
    apply (memop12_outs arch true false); auto; try apply Hdh; try lia; rewrite Et; [now apply aligned_above|]; cbn [effect access12].
    rewrite (load_bytes c c1) by reflexivity; apply ordered_outs; [now constructor|exact B|]; apply (computed_all c a); [intros [X|[X|[]]]; [now apply (proj2 Hdl)|now apply (proj2 Hdh)]|].
    now apply computed_pair.
  - apply (narrow_ld_outs (loader_r lo addr TCG_REG_TMP) _ opc lo a c); auto; intros size signed I; apply loader_r_ok; auto; (apply Hl || apply Ha).
Qed.

(** A double word at the address itself.  In the other byte order its words are
    in their places but the registers are exchanged. *)
Lemma wide_direct_outs opc lo hi addr c : ld_args true opc lo hi addr -> bytes_ok c ->
  let a := u32 (greg c addr + 0) in guest_aligned arch opc a = true ->
  outs (tcg_out_qemu_ld_direct host opc lo hi addr) c
    (computed c (if truthy (opc .& MO_BSWAP) then [hi; lo] else [lo; hi]) (words_of (guest_value c opc a))).
Proof.
  intros [Hl Hh Ha Hs] B a Al; destruct (wide_size _ Hs) as [E E8], (Hh eq_refl) as [Hh' N].
  unfold guest_aligned in Al; rewrite E8 in Al; change (Z.min 32 (8 * 8)) with 32 in Al.
  unfold tcg_out_qemu_ld_direct; rewrite E, wide_words by assumption.
  cbn [Z.eqb Pos.eqb MO_Q MO_UB MO_SB MO_UW MO_SW MO_64 MO_8 MO_16 MO_SIGN Z.lor Pos.lor]; cbv zeta.
  assert (A4 : u32 (greg c addr + 4) = u32 (a + 4)) by (unfold a; rewrite Z.add_0_r; unfold wrap; now rewrite Zplus_mod_idemp_l).
  assert (One : forall rt off c1, host_reg rt -> off = 0 \/ off = 4 -> greg c1 addr = greg c addr -> bytes c1 = bytes c ->
    outs (tcg_out_ld32_12 COND_AL rt addr off) c1 (eq (set_greg c1 rt (load c 32 (u32 (greg c addr + off)))))).
  { intros rt off c1 Hr Ho Er Eb; apply (memop12_outs arch true false); auto; try apply Hr; try apply Ha; [lia| |]; rewrite Er.
    - destruct Ho as [-> | ->]; [exact Al|rewrite A4; now apply aligned_above].
    - cbn [effect access12]; now rewrite (load_bytes c c1). }
  assert (Both : forall x y o o', host_reg x -> host_reg y -> x <> y -> (o = 0 \/ o = 4) -> (o' = 0 \/ o' = 4) ->
    outs (if x =? addr then tcg_out_ld32_12 COND_AL y addr o' ;; tcg_out_ld32_12 COND_AL x addr o
          else tcg_out_ld32_12 COND_AL x addr o ;; tcg_out_ld32_12 COND_AL y addr o') c
      (computed c [x; y] [load c 32 (u32 (greg c addr + o)); load c 32 (u32 (greg c addr + o'))])).
  { intros x y o o' Hx Hy Nxy Ho Ho'; destruct (Z.eqb_spec x addr) as [Ea|Na].
    - apply outs_then; eapply outs_mono; [apply (One y o' c); auto|]; intros c1 <-; eapply outs_mono; [apply (One x o); auto; apply greg_set_ne; congruence|].
      intros c2 <-; apply computed_swap, computed_pair; auto.
    - apply outs_then; eapply outs_mono; [apply (One x o c); auto|]; intros c1 <-; eapply outs_mono; [apply (One y o'); auto; apply greg_set_ne; congruence|].
      intros c2 <-; now apply computed_pair. }
  destruct (truthy (opc .& MO_BSWAP)); apply outs_then.
  - eapply outs_mono; [apply (Both hi lo 4 0); auto|]; intros c1 C; rewrite A4 in C; fold a in C.
    eapply swap_pair_outs; auto using load32_range.
  - eapply outs_mono; [apply (Both lo hi 0 4); auto|]; intros c1 C; rewrite A4 in C; fold a in C; now apply outs_nothing.
Qed.

(** A double word in the other byte order is left out. *)
Lemma ld_direct_outs is64 opc lo hi addr c : ld_args is64 opc lo hi addr -> bytes_ok c -> is64 && truthy (opc .& MO_BSWAP) = false ->
  let a := u32 (greg c addr + 0) in guest_aligned arch opc a = true ->
  outs (tcg_out_qemu_ld_direct host opc lo hi addr) c (computed c (ld_regs is64 lo hi) (guest_words is64 opc (guest_value c opc a))).
Proof.
  intros La B Sw a Al; destruct is64; cbn [ld_regs andb guest_words] in *.
  - pose proof (wide_direct_outs opc lo hi addr c La B Al) as X; now rewrite Sw in X.
  - destruct La as [Hl _ Ha Hs].
    apply (narrow_ld_outs (loader_0 lo addr) _ opc lo a c); auto; intros size signed I; apply loader_0_ok; auto; (apply Hl || apply Ha).
Qed.
End Load.

