(* ===== verification/TcgArmGuestSt.v ===== *)
(** * Guest stores of the ARM back end

    [tcg_out_qemu_st] of a build without CONFIG_SOFTMMU, and the bytes that
    it writes. *)

From Stdlib Require Import ZArith Lia List Bool.
From S2P Require Import Prelude Bitops BitRoute TcgIr TcgRegAlloc TcgArm ArmIsa TcgArmOut TcgArmWords TcgArmOps TcgArmMovi TcgArmOp TcgArmBits TcgArmMem TcgArmExact TcgArmGuestLd.
Import ListNotations.
Local Open Scope Z_scope.
Local Open Scope c_scope.
Local Open Scope out_scope.

(** ** Stored bytes *)

Lemma at_offset a b i : inU 32 b -> 0 <= i < 2 ^ 32 -> (b =? u32 (a + i)) = (u32 (b - a) =? i).
Proof.
  intros Hb Hi; apply eq_true_iff_eq; rewrite !Z.eqb_eq; unfold wrap, inU in *; split; intros E.
  - rewrite E, Zminus_mod_idemp_l; replace (a + i - a) with i by lia; apply Z.mod_small; lia.
  - rewrite <- E, Zplus_mod_idemp_r; replace (a + (b - a)) with b by lia; symmetry; now apply Z.mod_small.
Qed.

Lemma store_bytes_at m size a v b : In size [8; 16; 32] -> inU 32 b ->
  store_bytes m size a v b = let d := u32 (b - a) in if d <? size / 8 then u8 (v .>> (8 * d)) else m b.
Proof.
  intros I Hb; pose proof (wrap_range 32 (b - a) ltac:(lia)) as Hd; cbv zeta; unfold inU in Hd.
  cbn [In] in I; destruct I as [<-|[<-|[<-|[]]]]; cbn [store_bytes]; unfold set_byte; rewrite !at_offset by (assumption || lia); set (d := u32 (b - a)) in *.
  - change (8 / 8) with 1; destruct (Z.ltb_spec d 1), (Z.eqb_spec d 0) as [E|]; try lia; rewrite ?E; reflexivity.
  - change (16 / 8) with 2; destruct (Z.ltb_spec d 2), (Z.eqb_spec d 1) as [E|], (Z.eqb_spec d 0) as [E'|]; try lia; rewrite ?E, ?E'; reflexivity.
  - change (32 / 8) with 4; destruct (Z.ltb_spec d 4), (Z.eqb_spec d 3) as [E|], (Z.eqb_spec d 2) as [E'|], (Z.eqb_spec d 1) as [E1|], (Z.eqb_spec d 0) as [E0|];
      try lia; rewrite ?E, ?E', ?E1, ?E0; reflexivity.
Qed.

Lemma two_words m a x y b : inU 32 b ->
  store_bytes (store_bytes m 32 a x) 32 (u32 (a + 4)) y b =
  let d := u32 (b - a) in if d <? 4 then u8 (x .>> (8 * d)) else if d <? 8 then u8 (y .>> (8 * (d - 4))) else m b.
Proof.
  intros Hb; pose proof (wrap_range 32 (b - a) ltac:(lia)) as Hd; rewrite store_bytes_at, store_bytes_at by (cbn; auto); cbv zeta; change (32 / 8) with 4.
  assert (E : u32 (b - u32 (a + 4)) = u32 (u32 (b - a) - 4)) by (unfold wrap; rewrite Zminus_mod_idemp_l, Zminus_mod_idemp_r; f_equal; lia).
  rewrite E; set (d := u32 (b - a)) in *; assert (E' : u32 (d - 4) = if d <? 4 then d - 4 + 2 ^ 32 else d - 4).
  { unfold wrap, inU in *; destruct (Z.ltb_spec d 4); [symmetry; apply (Z.mod_unique (d - 4) (2 ^ 32) (-1)); lia|apply Z.mod_small; lia]. }
  rewrite E'; unfold inU in *; destruct (Z.ltb_spec d 4); [destruct (Z.ltb_spec (d - 4 + 2 ^ 32) 4); [lia|reflexivity]|].
  destruct (Z.ltb_spec (d - 4) 4), (Z.ltb_spec d 8); (reflexivity || lia).
Qed.

(** The byte at each place of a small word. *)
Ltac each_place d := let H := fresh in
  first [ assert (H : d = 0) by lia | assert (H : d = 0 \/ d = 1) by lia | assert (H : d = 0 \/ d = 1 \/ d = 2 \/ d = 3) by lia
        | assert (H : d = 0 \/ d = 1 \/ d = 2 \/ d = 3 \/ d = 4 \/ d = 5 \/ d = 6 \/ d = 7) by lia ];
  repeat (destruct H as [H|H]; [rewrite H; clear H|]); try (rewrite H; clear H).

(** What is stored for the value [v] in a register: [v] itself or its bytes in the other order. *)
Definition reversed (size v r : Z) : Prop :=
  match size with 16 => u16 r = bswap16 (u16 v) | _ => r = bswap32 v end.

Lemma stored_plain m opc a v b : truthy (opc .& MO_BSWAP) = false -> In (8 * op_bytes opc) [8; 16; 32] -> inU 32 b ->
  store_bytes m (8 * op_bytes opc) a v b = guest_stored m opc a v b.
Proof.
  intros Sw I Hb; rewrite store_bytes_at by assumption; unfold guest_stored, place; rewrite Sw, (Z.mul_comm 8), Z.div_mul by lia; reflexivity.
Qed.

Lemma stored_reversed m opc a v r b : truthy (opc .& MO_BSWAP) = true -> In (8 * op_bytes opc) [16; 32] -> inU 32 v -> inU 32 r -> reversed (8 * op_bytes opc) v r -> inU 32 b ->
  store_bytes m (8 * op_bytes opc) a r b = guest_stored m opc a v b.
Proof.
  intros Sw I Hv Hr R Hb; rewrite store_bytes_at by (cbn in *; tauto || assumption); unfold guest_stored, place; rewrite Sw.
  pose proof (wrap_range 32 (b - a) ltac:(lia)) as Hd; unfold inU in Hd; cbv zeta; set (d := u32 (b - a)) in *; cbn [In] in I; destruct I as [I|[I|[]]]; rewrite <- I in *.
  - assert (E : op_bytes opc = 2) by lia; rewrite E; change (16 / 8) with 2; destruct (Z.ltb_spec d 2); [|reflexivity]; cbn [reversed] in R.
    assert (Rb : u8 r = u8 (v .>> 8) /\ u8 (r .>> 8) = u8 v).
    { replace (u8 r) with (u8 (u16 r)) by route; replace (u8 (r .>> 8)) with (u8 (u16 r .>> 8)) by route; rewrite R; unfold bswap16; split; route. }
    each_place d; [exact (proj1 Rb)|exact (proj2 Rb)].
  - assert (E : op_bytes opc = 4) by lia; rewrite E; change (32 / 8) with 4; destruct (Z.ltb_spec d 4); [|reflexivity]; cbn [reversed] in R; subst r.
    unfold bswap32; each_place d; [evaluate (8 * 0); evaluate (8 * (4 - 1 - 0))|evaluate (8 * 1); evaluate (8 * (4 - 1 - 1))|evaluate (8 * 2); evaluate (8 * (4 - 1 - 2))|
      evaluate (8 * 3); evaluate (8 * (4 - 1 - 3))]; route.
Qed.

(** The counts of the shifts in the goal. *)
Ltac counts := repeat match goal with
  | |- context [8 * (8 - 1 - ?n)] => evaluate (8 * (8 - 1 - n))
  | |- context [8 * (?n - 4)] => evaluate (8 * (n - 4))
  | |- context [8 * ?n] => evaluate (8 * n)
  end.

Lemma stored_wide m opc a lo hi b : size_fits true opc = true -> inU 32 lo -> inU 32 hi -> inU 32 b ->
  (if truthy (opc .& MO_BSWAP) then store_bytes (store_bytes m 32 a (bswap32 hi)) 32 (u32 (a + 4)) (bswap32 lo) b
   else store_bytes (store_bytes m 32 a lo) 32 (u32 (a + 4)) hi b) = guest_stored m opc a (dword lo hi) b.
Proof.
  intros Hs Hl Hh Hb; destruct (wide_size _ Hs) as [_ E8]; rewrite !two_words by assumption; unfold guest_stored, place; rewrite E8; cbv zeta.
  pose proof (wrap_range 32 (b - a) ltac:(lia)) as Hd; unfold inU in Hd; set (d := u32 (b - a)) in *.
  assert (D : dword lo hi = lo .| (hi .<< 32)) by (unfold dword; symmetry; now apply lor_shiftl_add); rewrite D; clear D.
  assert (Big : d < 8 -> d = 0 \/ d = 1 \/ d = 2 \/ d = 3 \/ d = 4 \/ d = 5 \/ d = 6 \/ d = 7) by lia.
  destruct (Z.ltb_spec d 8) as [L|L]; [|destruct (Z.ltb_spec d 4); [lia|now destruct (truthy _)]].
  clearbody d; clear Hd; unfold bswap32; destruct (truthy _), (Big L) as [->|[->|[->|[->|[->|[->|[->| ->]]]]]]]; cbn [Z.ltb Z.compare Pos.compare Pos.compare_cont]; counts; route.
Qed.

Lemma min_size n : In (8 * n) [8; 16; 32] -> Z.min 32 (8 * n) = 8 * n.
Proof. cbn [In]; lia. Qed.

Lemma bswap32_range x : inU 32 x -> inU 32 (bswap32 x).
Proof. intros Hx; unfold bswap32; route. Qed.

Section Store.
Variable arch : arm_arch.
Variable host : arm_host.
Hypothesis host_v6 : use_armv6_instructions host = true -> has_v6 arch = true.
Hypothesis host_v7 : use_armv7_instructions host = true -> has_v7 arch = true.
Abbreviation outs := (TcgArmWords.outs arch).

(** The guest has stored [v] at [a]; the scratch register and R0 may have changed. *)
Definition guest_wrote (c : cpu) (opc a v : Z) (c' : cpu) : Prop :=
  (forall x, x <> TCG_REG_TMP -> x <> TCG_REG_R0 -> greg c' x = greg c x) /\
  forall b, inU 32 b -> bytes c' b = guest_stored (bytes c) opc a v b.

(** Registers that are neither the scratch register nor R0 keep their values. *)
Definition same_regs (c c1 : cpu) : Prop := forall x, x <> TCG_REG_TMP -> x <> TCG_REG_R0 -> greg c1 x = greg c x.

Lemma r0_reg : host_reg TCG_REG_R0.
Proof. split; [unfold gpr, TCG_REG_R0; lia|discriminate]. Qed.

(** What both functions are told. *)
Record st_args (is64 : bool) (opc lo hi addr : Z) : Prop := {
  sa_lo : host_reg lo /\ lo <> TCG_REG_R0;
  sa_hi : is64 = true -> host_reg hi /\ hi <> TCG_REG_R0;
  sa_addr : host_reg addr /\ addr <> TCG_REG_R0;
  sa_size : size_fits is64 opc = true
}.

(** The code with its stores as an argument, but for double words. *)
Definition narrow_st (storer : Z -> Z -> out) (wide : out) (opc lo : Z) : out :=
  let bswap := truthy (opc .& MO_BSWAP) in
  let size := opc .& MO_SIZE in
  if size =? MO_8 then storer 8 lo
  else if size =? MO_16 then
    if bswap then tcg_out_bswap16st host COND_AL TCG_REG_R0 lo ;; storer 16 TCG_REG_R0
    else storer 16 lo
  else if size =? MO_64 then wide
  else if bswap then tcg_out_bswap32 host COND_AL TCG_REG_R0 lo ;; storer 32 TCG_REG_R0
  else storer 32 lo.

(** [keeps c1]: the registers that make up the address are as they were. *)
Lemma narrow_st_outs storer wide opc lo a c (keeps : cpu -> Prop) : host_reg lo -> cpu_ok c -> size_fits false opc = true -> guest_aligned arch opc a = true ->
  keeps c ->
  (truthy (opc .& MO_BSWAP) = true -> op_bytes opc <> 1 -> forall c1, same_regs c c1 ->
     (use_armv6_instructions host = true -> greg c1 TCG_REG_TMP = greg c TCG_REG_TMP) -> keeps c1) ->
  (forall size r c1, In size [8; 16; 32] -> host_reg r -> keeps c1 -> aligned arch size a = true -> outs (storer size r) c1 (accessed (Writes size) r a c1)) ->
  outs (narrow_st storer wide opc lo) c (guest_wrote c opc a (greg c lo)).
Proof.
  intros Hl Ok Sf Al K Ks St; unfold size_fits in Sf; unfold guest_aligned in Al.
  assert (Plain : truthy (opc .& MO_BSWAP) = false \/ op_bytes opc = 1 -> In (8 * op_bytes opc) [8; 16; 32] -> outs (storer (8 * op_bytes opc) lo) c (guest_wrote c opc a (greg c lo))).
  { intros Sw I; eapply outs_mono; [apply St; auto; now rewrite min_size in Al|].
    intros c' [R B]; split; [now intros x T _; apply R|]; intros b Hb; rewrite B; destruct Sw as [Sw|E1]; [now apply stored_plain|].
    rewrite store_bytes_at by assumption; unfold guest_stored, place; rewrite E1; change (8 * 1 / 8) with 1; cbv zeta.
    pose proof (wrap_range 32 (b - a) ltac:(lia)) as Hd; unfold inU in Hd; destruct (Z.ltb_spec (u32 (b - a)) 1); [|reflexivity].
    assert (E0 : u32 (b - a) = 0) by lia; rewrite E0; now destruct (truthy _). }
  assert (Swap : forall c1 r, truthy (opc .& MO_BSWAP) = true -> op_bytes opc <> 1 -> In (8 * op_bytes opc) [16; 32] -> inU 32 r -> computed c [TCG_REG_R0] [r] c1 ->
    (use_armv6_instructions host = true -> greg c1 TCG_REG_TMP = greg c TCG_REG_TMP) -> reversed (8 * op_bytes opc) (greg c lo) r ->
    outs (storer (8 * op_bytes opc) TCG_REG_R0) c1 (guest_wrote c opc a (greg c lo))).
  { intros c1 r Sw N I Hr ([= A] & B & C) T R; assert (Sr : same_regs c c1) by (intros x Tx Rx; apply B; cbn; [intros [X|[]]; congruence|exact Tx]).
    eapply outs_mono; [assert (I' : In (8 * op_bytes opc) [8; 16; 32]) by (right; exact I); apply St; [exact I'|apply r0_reg|now apply Ks|now rewrite min_size in Al]|].
    intros c' [R' B']; split; [intros x Tx Rx; rewrite R' by assumption; now apply Sr|]; intros b Hb; rewrite B', C, A; apply stored_reversed; auto; apply Ok. }
  unfold narrow_st, op_bytes in *; rewrite size_of_ssize in *.
  destruct (ssize_cases opc) as [E|[E|[E|[E|[E|[E|[E|E]]]]]]]; rewrite E in *; try discriminate Sf; cbn in Plain, Swap |- *.
  all: try (apply Plain; [now right|auto]).
  all: destruct (truthy (opc .& MO_BSWAP)) eqn:Sw; [|apply Plain; [now left|auto]]; apply outs_then.
  all: try (eapply outs_mono; [apply bswap16st_outs; auto using r0_reg|]; intros c1 (v & C & Hv & R & T); apply (Swap c1 v); auto; discriminate).
  all: eapply outs_mono; [apply bswap32_outs; auto using r0_reg|]; intros c1 [C T]; apply (Swap c1 (bswap32 (greg c lo))); auto using bswap32_range; discriminate.
Qed.

Definition storer_r (addr addend size r : Z) : out :=
  match size with
  | 8 => tcg_out_st8_r COND_AL r addr addend
  | 16 => tcg_out_st16_r COND_AL r addr addend
  | _ => tcg_out_st32_r COND_AL r addr addend
  end.

Definition storer_0 (addr size r : Z) : out :=
  match size with
  | 8 => tcg_out_st8_12 COND_AL r addr 0
  | 16 => tcg_out_st16_8 COND_AL r addr 0
  | _ => tcg_out_st32_12 COND_AL r addr 0
  end.

Lemma storer_r_ok addr addend size r c : gpr addr -> gpr addend -> gpr r -> In size [8; 16; 32] ->
  let a := u32 (greg c addr + greg c addend) in aligned arch size a = true -> outs (storer_r addr addend size r) c (accessed (Writes size) r a c).
Proof.
  intros Ha Hm Hr I a Al; apply (outs_mono arch _ c (eq (effect (Writes size) r a c))); [|intros c' <-; apply accessed_now].
  cbn [In] in I; destruct I as [<-|[<-|[<-|[]]]]; cbn [storer_r]; [now apply (memop12_reg_outs arch false true)| |now apply (memop12_reg_outs arch false false)].
  apply (memop8_reg_outs arch (Writes 16) 0 1); auto; (reflexivity || discriminate || (unfold inU; lia)).
Qed.

Lemma storer_0_ok addr size r c : gpr addr -> gpr r -> In size [8; 16; 32] ->
  let a := u32 (greg c addr + 0) in aligned arch size a = true -> outs (storer_0 addr size r) c (accessed (Writes size) r a c).
Proof.
  intros Ha Hr I a Al; apply (outs_mono arch _ c (eq (effect (Writes size) r a c))); [|intros c' <-; apply accessed_now].
  cbn [In] in I; destruct I as [<-|[<-|[<-|[]]]]; cbn [storer_0]; [now apply (memop12_outs arch false true)| |now apply (memop12_outs arch false false)].
  apply (memop8_outs arch (Writes 16) 0 1); auto; (reflexivity || discriminate || (unfold inU; lia) || lia).
Qed.

Lemma pre_st_outs rt rn rm c (Q : cpu -> Prop) : gpr rt -> gpr rn -> gpr rm -> rt <> rn -> rm <> rn ->
  let a := u32 (greg c rn + greg c rm) in aligned arch 32 a = true ->
  Q (set_bytes (set_greg c rn a) (store_bytes (bytes c) 32 a (greg c rt))) -> outs (tcg_out_st32_rwb COND_AL rt rn rm) c Q.
Proof.
  intros Ht Hn Hm N N' a Al H; destruct (decode_mem_pre false COND_AL rt rn rm) as [D B]; auto using gpr_u4, al_u4.
  eapply (outs_word arch _ _ _ COND_AL true c _ Q eq_refl D B eq_refl); [cbn [exec]|exact H]; unfold pre_indexed; rewrite no_pc_ok by auto.
  apply Z.eqb_neq in N, N'; rewrite N, N', orb_true_r; cbn [negb andb]; cbn [address]; rewrite gpr_not_pc by assumption; fold a; now rewrite Al.
Qed.

(** Both words are written, the second above the first. *)
Lemma guest_wrote_wide opc lo hi addr a c c' : st_args true opc lo hi addr -> cpu_ok c -> same_regs c c' ->
  (let bswap := truthy (opc .& MO_BSWAP) in
   bytes c' = store_bytes (store_bytes (bytes c) 32 a (if bswap then bswap32 (greg c hi) else greg c lo)) 32 (u32 (a + 4)) (if bswap then bswap32 (greg c lo) else greg c hi)) ->
  guest_wrote c opc a (dword (greg c lo) (greg c hi)) c'.
Proof.
  intros [_ _ _ Hs] Ok Sr B; split; [exact Sr|]; intros b Hb; rewrite B; rewrite <- stored_wide; auto; now destruct (truthy _).
Qed.

Definition st_value (is64 : bool) (lo hi : Z) (c : cpu) : Z := if is64 then dword (greg c lo) (greg c hi) else greg c lo.

(** A word from [r] or, swapped through R0, from [r]. *)
Lemma swapped_outs (bswap : bool) r c : host_reg r -> inU 32 (greg c r) ->
  outs (if bswap then tcg_out_bswap32 host COND_AL TCG_REG_R0 r else nothing) c (fun c1 =>
    greg c1 (if bswap then TCG_REG_R0 else r) = (if bswap then bswap32 (greg c r) else greg c r) /\ same_regs c c1 /\ bytes c1 = bytes c /\
    (bswap = false \/ use_armv6_instructions host = true -> greg c1 TCG_REG_TMP = greg c TCG_REG_TMP)).
Proof.
  intros Hr Hv; destruct bswap; [|apply outs_nothing; splits; auto; now intros x].
  eapply outs_mono; [apply bswap32_outs; auto using r0_reg|]; intros c1 [([= A] & B & C) T]; splits; auto.
  - intros x Tx Rx; apply B; auto; intros [X|[]]; congruence.
  - intros [|]; [discriminate|auto].
Qed.

Lemma same_regs_trans c c1 c2 : same_regs c c1 -> same_regs c1 c2 -> same_regs c c2.
Proof. intros A B x T R; now rewrite B, A. Qed.

(** A word to the scratch register plus 4, from a state in which that is [a + 4]. *)
Lemma st_second_outs r a c (Q : cpu -> Prop) : gpr r -> greg c TCG_REG_TMP = a -> aligned arch 32 (u32 (a + 4)) = true ->
  Q (set_bytes c (store_bytes (bytes c) 32 (u32 (a + 4)) (greg c r))) -> outs (tcg_out_st32_12 COND_AL r TCG_REG_TMP 4) c Q.
Proof. intros Hr <- Al H; apply (memop12_outs arch false false); auto; lia. Qed.

Lemma st_index_outs is64 opc lo hi addr c : st_args is64 opc lo hi addr -> cpu_ok c ->
  truthy (opc .& MO_BSWAP) = false \/ op_bytes opc = 1 \/ use_armv6_instructions host = true ->
  let a := u32 (greg c addr + greg c TCG_REG_TMP) in guest_aligned arch opc a = true ->
  outs (tcg_out_qemu_st_index host COND_AL opc lo hi addr TCG_REG_TMP) c (guest_wrote c opc a (st_value is64 lo hi c)).
Proof.
  intros Sa Ok V a Al; pose proof Sa as [[Hl Rl] Hh [Ha Ra] Hs]; destruct is64; cbn [st_value].
  - destruct (wide_size _ Hs) as [E E8], (Hh eq_refl) as [Hh' Rh]; unfold guest_aligned in Al; rewrite E8 in Al; change (Z.min 32 (8 * 8)) with 32 in Al.
    unfold tcg_out_qemu_st_index; rewrite size_of_ssize, E; change (MO_Q .& MO_SIZE) with 3; cbn [Z.eqb Pos.eqb MO_8 MO_16 MO_64].
    assert (First : forall x c1 (Q : cpu -> Prop), host_reg x -> same_regs c c1 -> greg c1 TCG_REG_TMP = greg c TCG_REG_TMP ->
      Q (set_bytes (set_greg c1 TCG_REG_TMP a) (store_bytes (bytes c1) 32 a (greg c1 x))) -> outs (tcg_out_st32_rwb COND_AL x TCG_REG_TMP addr) c1 Q).
    { intros x c1 Q [Hx Tx] S T H; assert (Ea : u32 (greg c1 TCG_REG_TMP + greg c1 addr) = a) by (rewrite T, S, Z.add_comm; [reflexivity|apply Ha|exact Ra]).
      apply pre_st_outs; auto; try apply Ha; rewrite Ea; auto. }
    destruct (truthy (opc .& MO_BSWAP)) eqn:Sw.
    + assert (V6 : use_armv6_instructions host = true) by (destruct V as [|[|]]; auto; [discriminate|congruence]).
      apply outs_then; eapply outs_mono; [apply (swapped_outs true hi c Hh' (Ok hi))|]; cbn beta iota; intros c1 (R1 & S1 & B1 & T1).
      apply outs_then, First; auto using r0_reg; rewrite R1, B1; set (c2 := set_bytes _ _); assert (S2 : same_regs c c2) by (intros x Tx Rx; unfold c2; cbn [greg set_bytes]; rewrite greg_set_ne by assumption; auto).
      assert (Lo : greg c2 lo = greg c lo) by (apply S2; [apply Hl|exact Rl]); apply outs_then; eapply outs_mono; [apply (swapped_outs true lo c2 Hl); rewrite Lo; apply Ok|].
      cbn beta iota; intros c3 (R3 & S3 & B3 & T3); apply (st_second_outs _ a); [apply r0_reg|rewrite T3 by auto; apply greg_set_eq|now apply aligned_above|].
      rewrite R3, Lo, B3; apply (guest_wrote_wide opc lo hi addr); auto; [exact (same_regs_trans _ _ _ S2 S3)|cbv zeta; now rewrite Sw].
    + apply outs_then, First; auto; [now intros x|]; apply (st_second_outs _ a); [apply Hh'|apply greg_set_eq|now apply aligned_above|].
      cbn [greg set_bytes]; rewrite greg_set_ne by apply Hh'; apply (guest_wrote_wide opc lo hi addr); auto; [|cbv zeta; now rewrite Sw].
      intros x Tx Rx; cbn [greg set_bytes]; now apply greg_set_ne.
  - apply (narrow_st_outs (storer_r addr TCG_REG_TMP) _ opc lo a c (fun c1 => greg c1 addr = greg c addr /\ greg c1 TCG_REG_TMP = greg c TCG_REG_TMP)); auto.
    + intros Sw N c1 S T; split; [apply S; [apply Ha|exact Ra]|apply T; destruct V as [|[|]]; auto; congruence].
    + intros size r c1 I [Hr _] [E1 E2] Al'; assert (Ea : a = u32 (greg c1 addr + greg c1 TCG_REG_TMP)) by now rewrite E1, E2.
      rewrite Ea in *; apply storer_r_ok; auto; apply Ha.
Qed.

Lemma st_direct_outs is64 opc lo hi addr c : st_args is64 opc lo hi addr -> cpu_ok c ->
  let a := u32 (greg c addr + 0) in guest_aligned arch opc a = true ->
  outs (tcg_out_qemu_st_direct host opc lo hi addr) c (guest_wrote c opc a (st_value is64 lo hi c)).
Proof.
  intros Sa Ok a Al; pose proof Sa as [[Hl Rl] Hh [Ha Ra] Hs]; destruct is64; cbn [st_value].
  - destruct (wide_size _ Hs) as [E E8], (Hh eq_refl) as [Hh' Rh]; unfold guest_aligned in Al; rewrite E8 in Al; change (Z.min 32 (8 * 8)) with 32 in Al.
    unfold tcg_out_qemu_st_direct; rewrite size_of_ssize, E; change (MO_Q .& MO_SIZE) with 3; cbn [Z.eqb Pos.eqb MO_8 MO_16 MO_64].
    assert (A4 : u32 (greg c addr + 4) = u32 (a + 4)) by (unfold a; rewrite Z.add_0_r; unfold wrap; now rewrite Zplus_mod_idemp_l).
    assert (One : forall x off c1 (Q : cpu -> Prop), host_reg x -> off = 0 \/ off = 4 -> same_regs c c1 ->
      Q (set_bytes c1 (store_bytes (bytes c1) 32 (u32 (a + off)) (greg c1 x))) -> outs (tcg_out_st32_12 COND_AL x addr off) c1 Q).
    { intros x off c1 Q [Hx _] Ho S H; assert (Ea : u32 (greg c1 addr + off) = u32 (a + off)) by (rewrite S by (auto; apply Ha); unfold a; rewrite Z.add_0_r; unfold wrap; now rewrite Zplus_mod_idemp_l).
      apply (memop12_outs arch false false); auto; try apply Ha; [lia| |now rewrite Ea]; rewrite Ea; destruct Ho as [-> | ->]; [|now apply aligned_above].
      rewrite Z.add_0_r, wrap_id; [exact Al|apply wrap_range; lia]. }
    assert (A0 : u32 (a + 0) = a) by (rewrite Z.add_0_r; apply wrap_id, wrap_range; lia).
    destruct (truthy (opc .& MO_BSWAP)) eqn:Sw.
    + apply outs_then; eapply outs_mono; [apply (swapped_outs true hi c Hh' (Ok hi))|]; cbn beta iota; intros c1 (R1 & S1 & B1 & _).
      apply outs_then, One; auto using r0_reg; rewrite R1, B1, A0; set (c2 := set_bytes _ _); assert (S2 : same_regs c c2) by (intros x Tx Rx; now apply S1).
      assert (Lo : greg c2 lo = greg c lo) by (apply S2; [apply Hl|exact Rl]); apply outs_then; eapply outs_mono; [apply (swapped_outs true lo c2 Hl); rewrite Lo; apply Ok|].
      cbn beta iota; intros c3 (R3 & S3 & B3 & _); apply One; [apply r0_reg|auto|exact (same_regs_trans _ _ _ S2 S3)|].
      rewrite R3, Lo, B3; apply (guest_wrote_wide opc lo hi addr); auto; [exact (same_regs_trans _ _ _ S2 S3)|cbv zeta; now rewrite Sw].
    + apply outs_then, One; auto; [now intros x|]; rewrite A0; apply One; auto; [now intros x|].
      apply (guest_wrote_wide opc lo hi addr); auto; [now intros x|cbv zeta; now rewrite Sw].
  - apply (narrow_st_outs (storer_0 addr) _ opc lo a c (fun c1 => greg c1 addr = greg c addr)); auto.
    + intros Sw N c1 S T; apply S; [apply Ha|exact Ra].
    + intros size r c1 I [Hr _] E1 Al'; assert (Ea : a = u32 (greg c1 addr + 0)) by now rewrite E1.
      rewrite Ea in *; apply storer_0_ok; auto; apply Ha.
Qed.
(** Before ARMv6 the swap of a word overwrites the scratch register, and the word
    goes to the address plus what is left there. *)
Lemma st_misplaced_outs opc lo hi addr c : st_args false opc lo hi addr -> cpu_ok c ->
  truthy (opc .& MO_BSWAP) = true -> op_bytes opc = 4 -> use_armv6_instructions host = false ->
  let a := u32 (greg c addr + bswap_scratch (greg c lo)) in aligned arch 32 a = true ->
  outs (tcg_out_qemu_st_index host COND_AL opc lo hi addr TCG_REG_TMP) c (guest_wrote c opc a (greg c lo)).
Proof.
  intros [[Hl Rl] _ [Ha Ra] Hs] Ok Sw E4 V6 a Al.
  assert (Es : tcg_out_qemu_st_index host COND_AL opc lo hi addr TCG_REG_TMP = (tcg_out_bswap32 host COND_AL TCG_REG_R0 lo ;; storer_r addr TCG_REG_TMP 32 TCG_REG_R0)).
  { unfold tcg_out_qemu_st_index, op_bytes in *; rewrite size_of_ssize in *; rewrite Sw.
    destruct (ssize_cases opc) as [E|[E|[E|[E|[E|[E|[E|E]]]]]]]; rewrite E in *; try discriminate E4; reflexivity. }
  rewrite Es; apply outs_then; eapply outs_mono; [apply bswap32_exact; auto using r0_reg|]; intros c1 [([= A] & B & C) T]; rewrite V6 in T.
  assert (Sr : same_regs c c1) by (intros x Tx Rx; apply B; [intros [X|[]]; congruence|exact Tx]).
  assert (Ea : u32 (greg c1 addr + greg c1 TCG_REG_TMP) = a) by (rewrite T, Sr; auto; apply Ha).
  eapply outs_mono; [apply storer_r_ok; [apply Ha|apply gpr_tmp|apply r0_reg|cbn; auto|rewrite Ea; exact Al]|].
  rewrite Ea; intros c' [R' B']; split; [intros x Tx Rx; rewrite R' by assumption; now apply Sr|].
  intros b Hb; rewrite B', C, A; change 32 with (8 * 4); rewrite <- E4; apply stored_reversed; rewrite ?E4; cbn; auto using bswap32_range.
Qed.
End Store.

