(* ===== verification/TcgArmGuest.v ===== *)
(** * Guest memory in the ARM back end

    The operations [qemu_ld_i32], [qemu_ld_i64], [qemu_st_i32] and
    [qemu_st_i64] access the memory of the guest at [guest_base], in either
    byte order.  Two sequences are wrong: the load of a big-endian double
    word when [guest_base] is 0 exchanges its halves, and before ARMv6 the
    swapping of a stored value destroys the scratch register that holds
    [guest_base]. *)

From Stdlib Require Import ZArith Lia List Bool.
From S2P Require Import Prelude Bitops BitRoute TcgIr TcgRegAlloc TcgArm ArmIsa TcgArmOut TcgArmWords TcgArmOps TcgArmMovi TcgArmOp TcgArmBits TcgArmMem TcgArmExact TcgArmGuestLd TcgArmGuestSt.
Import ListNotations.
Local Open Scope Z_scope.
Local Open Scope c_scope.
Local Open Scope out_scope.

(** ** The operations *)

Definition ld_op (is64 : bool) : TCGOpcode := if is64 then qemu_ld_i64 else qemu_ld_i32.
Definition st_op (is64 : bool) : TCGOpcode := if is64 then qemu_st_i64 else qemu_st_i32.
Definition access_args (is64 : bool) (lo hi addr oi : Z) : list Z := if is64 then [lo; hi; addr; oi] else [lo; addr; oi].

Lemma ld_args_fit is64 lo hi addr oi consts opc : op_fits (ld_op is64) (access_args is64 lo hi addr oi) consts -> size_fits is64 opc = true -> ld_args is64 opc lo hi addr.
Proof.
  intros F Hs; destruct is64; cbn [ld_op access_args] in F; pose proof (of_consts _ _ _ F) as Lk.
  - list3 consts Lk k0 k1 k2; output F 0%nat H0 k0; output F 1%nat H1 k1; input F 2%nat (mkCt 0x01 0 0xffff) r_fits H2; destruct H2 as [_ H2].
    constructor; auto; intros _; split; auto; intros ->; pose proof (of_outs _ _ _ F) as D; inversion D; cbn in *; tauto.
  - list2 consts Lk k0 k1; output F 0%nat H0 k0; input F 1%nat (mkCt 0x01 0 0xffff) r_fits H1; destruct H1 as [_ H1]; constructor; auto; discriminate.
Qed.

Lemma not_r0 opc args consts i ct x : op_fits opc args consts -> (i < nb_oargs (tcg_op_defs opc) + nb_iargs (tcg_op_defs opc))%nat -> nth i (op_args_ct opc) no_ct = ct ->
  nth i consts false = false -> nth i args 0 = x -> test_reg (ct_regs ct) 0 = false -> x <> TCG_REG_R0.
Proof. intros F L <- K <- T E; pose proof (of_regs _ _ _ F i L K) as R; rewrite E in R; change TCG_REG_R0 with 0 in R; congruence. Qed.

Lemma st_args_fit is64 lo hi addr oi consts opc : op_fits (st_op is64) (access_args is64 lo hi addr oi) consts -> size_fits is64 opc = true -> st_args is64 opc lo hi addr.
Proof.
  intros F Hs; destruct is64; cbn [st_op access_args] in F; pose proof (of_consts _ _ _ F) as Lk.
  - list3 consts Lk k0 k1 k2; input F 0%nat (mkCt 0x01 0 0xfffc) r_fits H0; input F 1%nat (mkCt 0x01 0 0xfffc) r_fits H1; input F 2%nat (mkCt 0x01 0 0xfffc) r_fits H2.
    destruct H0 as [-> H0], H1 as [-> H1], H2 as [-> H2]; constructor; auto; [split; auto|intros _; split; auto|split; auto].
    + eapply (not_r0 _ _ _ 0%nat); [exact F|cbn; lia|reflexivity..].
    + eapply (not_r0 _ _ _ 1%nat); [exact F|cbn; lia|reflexivity..].
    + eapply (not_r0 _ _ _ 2%nat); [exact F|cbn; lia|reflexivity..].
  - list2 consts Lk k0 k1; input F 0%nat (mkCt 0x01 0 0xfffc) r_fits H0; input F 1%nat (mkCt 0x01 0 0xfffc) r_fits H1; destruct H0 as [-> H0], H1 as [-> H1].
    constructor; auto; [split; auto|discriminate|split; auto].
    + eapply (not_r0 _ _ _ 0%nat); [exact F|cbn; lia|reflexivity..].
    + eapply (not_r0 _ _ _ 1%nat); [exact F|cbn; lia|reflexivity..].
Qed.

Lemma guest_value_bytes c c' opc a : bytes c' = bytes c -> guest_value c' opc a = guest_value c opc a.
Proof. intros E; unfold guest_value; now rewrite E. Qed.

(** Through [guest_base] in the scratch register. *)
Lemma based_outs host arch (o : out) addr c (Q : cpu -> Prop) : host_fits host arch -> host_reg addr ->
  (forall c1, writes c TCG_REG_TMP (u32 (guest_base host)) c1 -> u32 (greg c1 addr + greg c1 TCG_REG_TMP) = u32 (greg c addr + guest_base host) -> outs arch o c1 Q) ->
  outs arch (tcg_out_movi32 host COND_AL TCG_REG_TMP (guest_base host) ;; o) c Q.
Proof.
  intros [_ V7] [_ Ta] H; apply outs_then; eapply outs_mono; [apply movi32_outs; [exact V7|apply gpr_tmp|reflexivity]|]; intros c1 W; apply H; [exact W|].
  rewrite (w_reg _ _ _ _ W), (w_other _ _ _ _ W) by assumption; unfold wrap; now rewrite Zplus_mod_idemp_r.
Qed.

Lemma computed_based c u c1 rds vs c' : writes c TCG_REG_TMP u c1 -> computed c1 rds vs c' -> computed c rds vs c'.
Proof. intros W (A & B & C); split; [exact A|]; split; [|now rewrite C, (w_bytes _ _ _ _ W)]; intros x N T; rewrite B by assumption; now apply (w_other _ _ _ _ W). Qed.

Lemma ld_outs host arch is64 opc lo hi addr c : let a := u32 (greg c addr + guest_base host) in
  host_fits host arch -> ld_args is64 opc lo hi addr -> bytes_ok c -> guest_aligned arch opc a = true ->
  is64 && truthy (opc .& MO_BSWAP) && (guest_base host =? 0) = false ->
  outs arch (if truthy (guest_base host) then tcg_out_movi32 host COND_AL TCG_REG_TMP (guest_base host) ;; tcg_out_qemu_ld_index host opc lo hi addr TCG_REG_TMP
             else tcg_out_qemu_ld_direct host opc lo hi addr) c (computed c (ld_regs is64 lo hi) (guest_words is64 opc (guest_value c opc a))).
Proof.
  intros a Hf La B Al Sw; unfold truthy at 1; destruct (Z.eqb_spec (guest_base host) 0) as [G|G]; cbn [negb].
  - unfold a in *; rewrite G in *; rewrite andb_true_r in Sw; apply ld_direct_outs; auto; apply Hf.
  - apply (based_outs host arch _ addr); auto; [apply La|]; intros c1 W Ea; rewrite <- (guest_value_bytes c c1) by apply W; eapply outs_mono; [|intros c' C; exact (computed_based c _ c1 _ _ c' W C)].
    unfold a in *; rewrite <- Ea in *; apply ld_index_outs; auto; [apply Hf|]; intros x; rewrite (w_bytes _ _ _ _ W); apply B.
Qed.

Lemma st_outs host arch is64 opc lo hi addr c : let a := u32 (greg c addr + guest_base host) in
  host_fits host arch -> st_args is64 opc lo hi addr -> cpu_ok c -> guest_aligned arch opc a = true ->
  truthy (opc .& MO_BSWAP) && negb (op_bytes opc =? 1) && negb (guest_base host =? 0) && negb (use_armv6_instructions host) = false ->
  outs arch (if truthy (guest_base host) then tcg_out_movi32 host COND_AL TCG_REG_TMP (guest_base host) ;; tcg_out_qemu_st_index host COND_AL opc lo hi addr TCG_REG_TMP
             else tcg_out_qemu_st_direct host opc lo hi addr) c (guest_wrote c opc a (st_value is64 lo hi c)).
Proof.
  intros a Hf Sa Ok Al Sw; unfold truthy at 1; destruct (Z.eqb_spec (guest_base host) 0) as [G|G]; cbn [negb].
  - unfold a in *; rewrite G in *; apply st_direct_outs; auto; apply Hf.
  - apply (based_outs host arch _ addr); auto; [apply Sa|]; intros c1 W Ea; rewrite andb_true_r in Sw.
    assert (Sr : same_regs c c1) by (intros x T _; now apply (w_other _ _ _ _ W)).
    assert (Ok1 : cpu_ok c1) by (intros x; destruct (Z.eq_dec x TCG_REG_TMP) as [->|N]; [rewrite (w_reg _ _ _ _ W); apply wrap_range; lia|rewrite (w_other _ _ _ _ W) by assumption; apply Ok]).
    assert (Ev : st_value is64 lo hi c = st_value is64 lo hi c1).
    { destruct Sa as [[L1 L2] H _ _]; unfold st_value; destruct is64; [destruct (H eq_refl) as [[H1 H2] H3]; rewrite (Sr hi), (Sr lo); auto; apply L1|rewrite Sr; auto; apply L1]. }
    unfold a in *; rewrite <- Ea in *; rewrite Ev; eapply outs_mono.
    + apply st_index_outs; eauto; try apply Hf; destruct (truthy (opc .& MO_BSWAP)); auto; right; destruct (Z.eqb_spec (op_bytes opc) 1); auto; right; cbn in Sw; now apply negb_false_iff in Sw.
    + intros c' [R Bw]; split; [exact (same_regs_trans _ _ _ Sr R)|]; intros b Hb; rewrite Bw by assumption; unfold guest_stored; now rewrite (w_bytes _ _ _ _ W).
Qed.

(** The arguments in their places. *)
Lemma access_args_ok (is64 : bool) lo hi addr oi : let args := access_args is64 lo hi addr oi in let rest := skipn (if is64 then 2 else 1) args in
  nth 0 args 0 = lo /\ (if is64 then nth 1 args 0 else 0) = (if is64 then hi else 0) /\ nth 0 rest 0 = addr /\ nth 1 rest 0 = oi.
Proof. now destruct is64. Qed.

(** C19: a load of guest memory by tcg_out_op (qemu_ld_i32 and qemu_ld_i64: bytes,
    halfwords, words and double words, signed or not, in either byte order, with the
    base of guest memory zero or not, however the address overlaps the destination)
    leaves the guest's value in the destination registers and changes nothing else but
    the scratch register and the flags, except for byte-swapped double words at base
    zero; before ARMv6 the address must be aligned. *)
Theorem tcg_out_qemu_ld_correct host arch is64 lo hi addr oi consts c : let opc := get_memop oi in let a := u32 (greg c addr + guest_base host) in
  host_fits host arch -> op_fits (ld_op is64) (access_args is64 lo hi addr oi) consts -> size_fits is64 opc = true -> bytes_ok c ->
  guest_aligned arch opc a = true -> is64 && truthy (opc .& MO_BSWAP) && (guest_base host =? 0) = false ->
  exists ws c', tcg_out_op host (ld_op is64) (access_args is64 lo hi addr oi) consts = Some ws /\ run_words arch ws c = Some c' /\
    computed c (ld_regs is64 lo hi) (guest_words is64 opc (guest_value c opc a)) c'.
Proof.
  intros opc a Hf F Hs B Al Sw; pose proof (ld_args_fit is64 lo hi addr oi consts opc F Hs) as La.
  assert (E : tcg_out_op host (ld_op is64) (access_args is64 lo hi addr oi) consts = tcg_out_qemu_ld host (access_args is64 lo hi addr oi) is64) by now destruct is64.
  rewrite E; unfold tcg_out_qemu_ld; destruct (access_args_ok is64 lo hi addr oi) as (-> & -> & -> & ->); fold opc.
  replace (ld_regs is64 lo hi) with (ld_regs is64 lo (if is64 then hi else 0)) by now destruct is64.
  apply ld_outs; auto; destruct is64; auto; destruct La; constructor; auto; discriminate.
Qed.

(** C20: a store to guest memory by tcg_out_op (qemu_st_i32 and qemu_st_i64, every size,
    either byte order, any base of guest memory) writes exactly the bytes of the value
    at the guest's address and no other, and keeps all registers but the scratch
    register and R0, except for byte-swapped values behind a nonzero base before ARMv6;
    before ARMv6 the address must be aligned. *)
Theorem tcg_out_qemu_st_correct host arch is64 lo hi addr oi consts c : let opc := get_memop oi in let a := u32 (greg c addr + guest_base host) in
  host_fits host arch -> op_fits (st_op is64) (access_args is64 lo hi addr oi) consts -> size_fits is64 opc = true -> cpu_ok c ->
  guest_aligned arch opc a = true ->
  truthy (opc .& MO_BSWAP) && negb (op_bytes opc =? 1) && negb (guest_base host =? 0) && negb (use_armv6_instructions host) = false ->
  exists ws c', tcg_out_op host (st_op is64) (access_args is64 lo hi addr oi) consts = Some ws /\ run_words arch ws c = Some c' /\
    guest_wrote c opc a (st_value is64 lo hi c) c'.
Proof.
  intros opc a Hf F Hs Ok Al Sw; pose proof (st_args_fit is64 lo hi addr oi consts opc F Hs) as Sa.
  assert (E : tcg_out_op host (st_op is64) (access_args is64 lo hi addr oi) consts = tcg_out_qemu_st host (access_args is64 lo hi addr oi) is64) by now destruct is64.
  rewrite E; unfold tcg_out_qemu_st; destruct (access_args_ok is64 lo hi addr oi) as (-> & -> & -> & ->); fold opc.
  replace (st_value is64 lo hi c) with (st_value is64 lo (if is64 then hi else 0) c) by now destruct is64.
  apply st_outs; auto; destruct is64; auto; destruct Sa; constructor; auto; discriminate.
Qed.

(** A big-endian double word through [guest_base]. *)
Lemma tcg_out_qemu_ld_correct_witness :
  exists ws c', tcg_out_op (mkHost true true 0x10000) qemu_ld_i64 [2; 3; 4; 176] [false; false; false] = Some ws /\ run_words cortex_a9 ws demo_cpu = Some c' /\
    computed demo_cpu [2; 3] (guest_words true 11 (guest_value demo_cpu 11 (u32 (greg demo_cpu 4 + 0x10000)))) c'.
Proof.
  apply (tcg_out_qemu_ld_correct (mkHost true true 0x10000) cortex_a9 true 2 3 4 176 [false; false; false] demo_cpu);
    [now constructor|apply fits_check_ok; vm_compute; reflexivity|reflexivity|intros x; apply wrap_range; lia|reflexivity|reflexivity].
Defined.

(** A big-endian word through [guest_base], from R2. *)
Lemma tcg_out_qemu_st_correct_witness :
  exists ws c', tcg_out_op (mkHost true true 0x10000) qemu_st_i32 [2; 5; 160] [false; false] = Some ws /\ run_words cortex_a9 ws demo_cpu = Some c' /\
    guest_wrote demo_cpu 10 (u32 (greg demo_cpu 5 + 0x10000)) (greg demo_cpu 2) c'.
Proof.
  apply (tcg_out_qemu_st_correct (mkHost true true 0x10000) cortex_a9 false 2 0 5 160 [false; false] demo_cpu);
    [now constructor|apply fits_check_ok; vm_compute; reflexivity|reflexivity|exact demo_ok|reflexivity|reflexivity].
Defined.

(** What the guest accesses that the theorems on loads and stores leave out do: with the
    base of guest memory at zero a byte-swapped double word is loaded with its halves
    exchanged, whatever the registers and the address; before ARMv6 a byte-swapped word
    is stored, behind a nonzero base, not at the address plus the base but at the
    address plus (x ^ ror32(x, 16)) & 0xff00ffff for the value x, because the swap uses
    the scratch register that holds the base. *)
Theorem guest_access_exceptions host arch oi consts c : let opc := get_memop oi in
  host_fits host arch -> cpu_ok c -> bytes_ok c -> truthy (opc .& MO_BSWAP) = true ->
  (forall lo hi addr, let a := u32 (greg c addr + 0) in
     guest_base host = 0 -> op_fits qemu_ld_i64 [lo; hi; addr; oi] consts -> size_fits true opc = true -> guest_aligned arch opc a = true ->
     exists ws c', tcg_out_op host qemu_ld_i64 [lo; hi; addr; oi] consts = Some ws /\ run_words arch ws c = Some c' /\
       computed c [hi; lo] (guest_words true opc (guest_value c opc a)) c') /\
  (forall lo addr, let x := greg c lo in let a := u32 (greg c addr + ((x .^ ror32 x 16) .& 0xff00ffff)) in
     guest_base host <> 0 -> use_armv6_instructions host = false ->
     op_fits qemu_st_i32 [lo; addr; oi] consts -> size_fits false opc = true -> op_bytes opc = 4 -> aligned arch 32 a = true ->
     exists ws c', tcg_out_op host qemu_st_i32 [lo; addr; oi] consts = Some ws /\ run_words arch ws c = Some c' /\
       guest_wrote c opc a x c').
Proof.
  intros opc Hf Ok B Sw; split.
  - intros lo hi addr a G F Hs Al; pose proof (ld_args_fit true lo hi addr oi consts opc F Hs) as La.
    change (tcg_out_op host qemu_ld_i64 [lo; hi; addr; oi] consts) with (tcg_out_qemu_ld host [lo; hi; addr; oi] true).
    unfold tcg_out_qemu_ld; cbn [nth skipn]; fold opc; rewrite G; change (truthy 0) with false; cbv iota.
    pose proof (wide_direct_outs arch host (hf_v6 _ _ Hf) opc lo hi addr c La B Al) as X; rewrite Sw in X; exact X.
  - intros lo addr x a G V F Hs E4 Al; pose proof (st_args_fit false lo 0 addr oi consts opc F Hs) as Sa.
    change (tcg_out_op host qemu_st_i32 [lo; addr; oi] consts) with (tcg_out_qemu_st host [lo; addr; oi] false).
    unfold tcg_out_qemu_st; cbn [nth skipn]; fold opc; unfold truthy at 1; rewrite (proj2 (Z.eqb_neq _ 0) G); cbn [negb].
    apply (based_outs host arch _ addr); auto; [apply Sa|]; intros c1 W _.
    assert (Sr : same_regs c c1) by (intros y T _; now apply (w_other _ _ _ _ W)).
    assert (Ok1 : cpu_ok c1) by (intros y; destruct (Z.eq_dec y TCG_REG_TMP) as [->|N]; [rewrite (w_reg _ _ _ _ W); apply wrap_range; lia|rewrite (w_other _ _ _ _ W) by assumption; apply Ok]).
    pose proof Sa as [[Hl Rl] _ [Ha Ra] _].
    assert (El : greg c1 lo = x) by (apply Sr; [apply Hl|exact Rl]); assert (Ea : greg c1 addr = greg c addr) by (apply Sr; [apply Ha|exact Ra]).
    eapply outs_mono; [apply (st_misplaced_outs arch host (hf_v6 _ _ Hf) opc lo 0 addr c1); auto; rewrite El, Ea; exact Al|].
    rewrite El, Ea; intros c' [R Bw]; split; [exact (same_regs_trans _ _ _ Sr R)|].
    intros b Hb; rewrite Bw by assumption; unfold guest_stored; now rewrite (w_bytes _ _ _ _ W).
Qed.

Definition st_cpu : cpu := mkCpu (fun x => if x =? 2 then 0x01040300 else if x =? 5 then 0x100 else 0) false false false false (fun _ => 0).

(** A double word on a Cortex-A9, whose low half is 0xe7e8e9ea; a word on an ARMv5, meant for 0x1100. *)
Lemma guest_access_exceptions_witness :
  (exists ws c', tcg_out_op (mkHost true true 0) qemu_ld_i64 [2; 3; 4; 176] [false; false; false] = Some ws /\ run_words cortex_a9 ws demo_cpu = Some c' /\
     map (greg c') [3; 2] = [0xe7e8e9ea; 0xe3e4e5e6]) /\
  (exists ws c', tcg_out_op (mkHost false false 0x1000) qemu_st_i32 [2; 5; 160] [false; false] = Some ws /\ run_words arm_v5 ws st_cpu = Some c' /\
     map (bytes c') [0x1100; 0x02000304] = [0; 1]).
Proof.
  split.
  - destruct (guest_access_exceptions (mkHost true true 0) cortex_a9 176 [false; false; false] demo_cpu) as [A _];
      [now constructor|exact demo_ok|intros x; apply wrap_range; lia|reflexivity|].
    destruct (A 2 3 4) as (ws & c' & E & R & C & _); [reflexivity|apply fits_check_ok; vm_compute; reflexivity|reflexivity|reflexivity|].
    exists ws, c'; split; [exact E|split; [exact R|rewrite C; vm_compute; reflexivity]].
  - destruct (guest_access_exceptions (mkHost false false 0x1000) arm_v5 160 [false; false] st_cpu) as [_ A];
      [now constructor|intros x; cbn; destruct (x =? 2), (x =? 5); unfold inU; lia|intros x; cbn; unfold inU; lia|reflexivity|].
    destruct (A 2 5) as (ws & c' & E & R & _ & C); [discriminate|reflexivity|apply fits_check_ok; vm_compute; reflexivity|reflexivity|reflexivity|reflexivity|].
    exists ws, c'; split; [exact E|split; [exact R|]]; cbn [map]; rewrite !C by (unfold inU; lia); vm_compute; reflexivity.
Defined.
