(* ===== verification/TcgArmTotal.v ===== *)
(** * The back end has code for every operation

    [tcg_out_op] and the other emitters do not abort on operands that meet
    the constraints, on no version of the processor. *)

From Stdlib Require Import ZArith Lia List Bool.
From S2P Require Import Prelude Bitops TcgIr TcgRegAlloc TcgArm ArmIsa TcgArmOut TcgArmWords TcgArmOps TcgArmMovi TcgArmOp TcgArmExact.
Import ListNotations.
Local Open Scope Z_scope.
Local Open Scope c_scope.
Local Open Scope out_scope.

Definition emits (o : out) : Prop := o <> None.

Lemma emits_some o : emits o -> exists ws, o = Some ws.
Proof. unfold emits; destruct o as [ws|]; [eauto|congruence]. Qed.

Lemma emits_then x y : emits x -> emits y -> emits (x ;; y).
Proof. unfold emits, andthen; destruct x, y; congruence. Qed.

(** Whether a constant falls into four pieces does not depend on where it goes. *)
Lemma pieces_emit fuel cond' opc' rd' rn' : forall cond opc rd rn arg, emits (movi_pieces fuel cond opc rd rn arg) -> emits (movi_pieces fuel cond' opc' rd' rn' arg).
Proof.
  revert cond' opc' rd' rn'; induction fuel as [|fuel IH]; intros cond' opc' rd' rn' cond opc rd rn arg; cbn [movi_pieces]; [auto|].
  set (rest := u32 _); destruct (truthy rest); [|discriminate]; unfold emits at 1, andthen at 1; cbn [tcg_out_dat_imm tcg_out32].
  destruct (movi_pieces fuel cond ARITH_EOR rd rd rest) eqn:E; [intros _|congruence]; apply emits_then; [discriminate|]; apply (IH _ _ _ _ cond ARITH_EOR rd rd); unfold emits; congruence.
Qed.

Section Host.
Variable host : arm_host.

Lemma movi_emits cond rd v : emits (tcg_out_movi32 host cond rd v).
Proof.
  destruct (movi32_outs (mkArch true true true) host (fun _ => eq_refl) COND_AL 0 v demo_cpu ltac:(unfold gpr; lia) eq_refl) as (ws & c' & E & _); revert E; unfold tcg_out_movi32; cbv zeta.
  destruct (_ && _); [discriminate|]; destruct (_ && _); [discriminate|]; destruct (use_armv7_instructions host); [intros _; destruct (truthy _); discriminate|].
  destruct (_ <? _); intros E; eapply pieces_emit; unfold emits; rewrite E; discriminate.
Qed.

Lemma rI_emits cond opc rd rn rhs k : rI_ok k rhs -> emits (tcg_out_dat_rI cond opc rd rn rhs k).
Proof. unfold rI_ok, tcg_out_dat_rI, check_fit_imm; destruct k; [|discriminate]; cbv zeta; intros ->; discriminate. Qed.

Lemma either_emits other cond opc opo rd rn rhs k : either_ok other k rhs -> emits (dat_either other cond opc opo rd rn rhs k).
Proof.
  unfold either_ok, dat_either, check_fit_imm; destruct k; [|discriminate]; cbv zeta; rewrite !Z.leb_le; destruct (Z.ltb_spec (encode_imm (u32 rhs)) 0) as [L|]; [|discriminate].
  intros [H|H]; [lia|]; apply Z.leb_le in H; rewrite H; discriminate.
Qed.

(** An operand that a constraint with immediates allows. *)
Lemma rI_at opc args consts i a r : op_fits opc args consts -> (i < nb_oargs (tcg_op_defs opc) + nb_iargs (tcg_op_defs opc))%nat -> nth i (op_args_ct opc) no_ct = mkCt 0x101 a r ->
  rI_ok (nth i consts false) (nth i args 0).
Proof. intros F L E; exact (rI_fits _ _ _ _ _ (arg_fits _ _ _ i _ F L E)). Qed.
Lemma rI_const opc args consts i a r : op_fits opc args consts -> (i < nb_oargs (tcg_op_defs opc) + nb_iargs (tcg_op_defs opc))%nat -> nth i (op_args_ct opc) no_ct = mkCt 0x101 a r ->
  nth i consts false = true -> rI_ok true (nth i args 0).
Proof. intros F L E K; rewrite <- K; exact (rI_at _ _ _ _ _ _ F L E). Qed.
Lemma rIN_at opc args consts i a r : op_fits opc args consts -> (i < nb_oargs (tcg_op_defs opc) + nb_iargs (tcg_op_defs opc))%nat -> nth i (op_args_ct opc) no_ct = mkCt 0x501 a r ->
  either_ok Z.opp (nth i consts false) (nth i args 0).
Proof. intros F L E; exact (rIN_fits _ _ _ _ _ (arg_fits _ _ _ i _ F L E)). Qed.
Lemma rIK_at opc args consts i a r : op_fits opc args consts -> (i < nb_oargs (tcg_op_defs opc) + nb_iargs (tcg_op_defs opc))%nat -> nth i (op_args_ct opc) no_ct = mkCt 0x301 a r ->
  either_ok Z.lnot (nth i consts false) (nth i args 0).
Proof. intros F L E; exact (rIK_fits _ _ _ _ _ (arg_fits _ _ _ i _ F L E)). Qed.

Ltac emitting F :=
  cbv zeta;
  lazymatch goal with
  | |- emits (andthen _ _) => apply emits_then; emitting F
  | |- emits (tcg_out_movi32 _ _ _ _) => apply movi_emits
  | |- emits (tcg_out_dat_rI _ _ _ _ (nth ?i _ _) true) => apply rI_emits; apply (rI_const _ _ _ i 0 0xffff F); [cbn; lia|reflexivity|assumption]
  | |- emits (tcg_out_dat_rI _ _ _ _ _ _) => apply rI_emits; eapply rI_at; [exact F|cbn; lia|reflexivity]
  | |- emits (tcg_out_dat_rIN _ _ _ _ _ _ _) => apply either_emits; eapply rIN_at; [exact F|cbn; lia|reflexivity]
  | |- emits (tcg_out_dat_rIK _ _ _ _ _ _ _) => apply either_emits; eapply rIK_at; [exact F|cbn; lia|reflexivity]
  | |- emits (if ?b then _ else _) => destruct b eqn:?; emitting F
  | |- emits (?f _ _ _ _ _ _ _ _) => unfold f; emitting F
  | |- emits (?f _ _ _ _ _ _ _) => unfold f; emitting F
  | |- emits (?f _ _ _ _ _ _) => unfold f; emitting F
  | |- emits (?f _ _ _ _ _) => unfold f; emitting F
  | |- emits (?f _ _ _ _) => unfold f; emitting F
  | |- emits (?f _ _ _) => unfold f; emitting F
  | |- emits (?f _ _) => unfold f; emitting F
  | |- emits (tcg_out32 _) => discriminate
  | |- emits nothing => discriminate
  | |- _ => idtac
  end.

(** The operations that [tcg_out_op] has a case for, apart from branches and exits. *)
Definition goes_on (o : TCGOpcode) : bool := match o with br | brcond_i32 | brcond2_i32 | exit_tb | goto_tb => false | _ => true end.

Lemma op_emits opc args consts : OPF_NOT_PRESENT opc = false -> goes_on opc = true -> op_fits opc args consts -> emits (tcg_out_op host opc args consts).
Proof.
  intros P G F; destruct opc; try discriminate P; try discriminate G; cbn [tcg_out_op]; emitting F.
Qed.
End Host.
