(* ===== verification/TcgArmKeep.v ===== *)
(** * Register allocation keeps to what the ARM back end can emit

    A partial logic for the allocator: [ok P m Q] when every instruction that
    [m] emits is [fit], with registers and constants that [tcg_out_op] can take,
    no write to a reserved register (the stack pointer, the program counter,
    the scratch register, the register of a global), loads and stores only at
    the places of temporaries. *)

From Stdlib Require Import ZArith Lia List Bool.
From S2P Require Import Prelude Bitops TcgIr TcgOpt TcgLife TcgLifeProof TcgRegAlloc TcgHostCode TcgArm TcgTemps TcgRegProof TcgRegOps TcgGenCode TcgArmGen ArmIsa TcgArmOut TcgArmOps TcgArmOp.
Import ListNotations.
Local Open Scope Z_scope.
Local Open Scope c_scope.
Local Open Scope ra_scope.

Section Keep.
Variable s : TCGContext.
Variable cfg : ra_config.
Variable context : Z -> TCGTemp.
(** The words of memory, at an offset from a register, that temporaries may have. *)
Variable place : Z -> Z -> Prop.
(** The operations of the block, with their constants. *)
Variable allowed : TCGOpcode -> list Z -> Prop.
Hypothesis arm_regs : reserved_regs cfg = arm_reserved.
Hypothesis no_locals : forall t, temp_local s t = false.
(** The temporaries that are fixed to a register. *)
Abbreviation fixed := (is_fixed s context).
Hypothesis frame_reg : fixed (frame_temp cfg) = true /\ reg (context (frame_temp cfg)) = TCG_REG_CALL_STACK.
Hypothesis frame_places : forall off, 0 <= off -> off + 4 <= frame_end cfg -> off mod 4 = 0 -> place TCG_REG_CALL_STACK off.
Hypothesis call_places : TCG_STATIC_CALL_ARGS_SIZE <= frame_end cfg.

(** A register that may be written. *)
Definition usable (x : Z) : Prop := host_reg x /\ test_reg (reserved_regs cfg) x = false.

Definition fit (i : hinsn) : Prop :=
  match i with
  | Imov x y => usable x /\ host_reg y
  | Imovi x _ => usable x
  | Ild x b off => usable x /\ place b off
  | Ist x b off => host_reg x /\ place b off
  | Iop o new_args const_args => op_fits o new_args const_args /\ Forall usable (firstn (nb_oargs (tcg_op_defs o)) new_args) /\ allowed o (op_constants o new_args) /\ OPF_NOT_PRESENT o = false
  | Icall consts _ => allowed call consts
  | Ilabel _ => True
  end.

Definition in_memory (ts : TCGTemp) : bool := is_val TEMP_VAL_MEM ts || mem_coherent ts.

Record temp_fine (t : Z) (ts : TCGTemp) : Prop := {
  tf_reg : host_reg (reg ts);
  tf_fixed : fixed_reg ts = fixed t;
  tf_free : fixed t = false -> test_reg (reserved_regs cfg) (reg ts) = false;
  tf_own : fixed t = true -> reg ts = reg (context t);
  tf_val : fixed t = true -> val_type ts = TEMP_VAL_REG;
  tf_place : mem_allocated ts = true -> fixed (mem_base ts) = true /\ place (reg (context (mem_base ts))) (mem_offset ts);
  tf_mem : 0 <= t -> fixed t = false -> in_memory ts = true \/ is_global s t = true -> mem_allocated ts = true
}.

Record fine (r : ra_state) : Prop := {
  fi_temp : forall t, temp_fine t (temp r t);
  fi_owner : forall x t, reg_to_temp r x = Some t -> 0 <= t;
  fi_frame : TCG_STATIC_CALL_ARGS_SIZE <= current_frame_offset r
}.

(** A temporary has a word in memory. *)
Definition has (t : Z) (r : ra_state) : Prop := mem_allocated (temp r t) = true.

(** ** What holds when a run ends *)

Definition ok {A : Type} (P : ra_state -> Prop) (m : M A) (Q : A -> ra_state -> Prop) : Prop :=
  forall r, fine r -> P r -> match m r with Some (r', c, a) => fine r' /\ (forall t, has t r -> has t r') /\ Forall fit c /\ Q a r' | None => True end.

Definition keeps {A : Type} (m : M A) (Q : A -> Prop) : Prop := ok (fun _ => True) m (fun a _ => Q a).

Lemma ok_mono {A} (P P' : ra_state -> Prop) (m : M A) (Q Q' : A -> ra_state -> Prop) : ok P m Q -> (forall r, P' r -> P r) -> (forall a r, Q a r -> Q' a r) -> ok P' m Q'.
Proof. intros H I J r F P1; specialize (H r F (I r P1)); destruct (m r) as [[[r' c] a]|]; auto; intuition auto. Qed.

Lemma ok_bind {A B} P (m : M A) (k : A -> M B) R Q : ok P m R -> (forall a, ok (R a) (k a) Q) -> ok P (bind m k) Q.
Proof.
  intros H K r F P1; specialize (H r F P1); unfold bind; destruct (m r) as [[[r' c] a]|]; auto; destruct H as (F' & G & C & R').
  specialize (K a r' F' R'); destruct (k a r') as [[[r2 c2] b]|]; auto; destruct K as (F2 & G2 & C2 & Q2); splits; auto; now apply Forall_app.
Qed.

(** The word of a temporary stays. *)
Lemma ok_has {A} t (m : M A) Q : keeps m Q -> ok (has t) m (fun a r => Q a /\ has t r).
Proof. intros H r F P; specialize (H r F I); destruct (m r) as [[[r' c] a]|]; auto; intuition auto. Qed.

Lemma ok_pure {A} (P : Prop) (R : ra_state -> Prop) (m : M A) Q : (P -> ok R m Q) -> ok (fun r => P /\ R r) m Q.
Proof. intros H r F [P1 R1]; now apply H. Qed.

Lemma ok_keeps {A} P (m : M A) Q : keeps m Q -> ok P m (fun a _ => Q a).
Proof. intros H; eapply ok_mono; [exact H|now intros|now intros]. Qed.

Lemma keeps_mono {A} (m : M A) (P Q : A -> Prop) : keeps m P -> (forall a, P a -> Q a) -> keeps m Q.
Proof. intros H J; eapply ok_mono; [exact H|now intros|intros a r; apply J]. Qed.

Lemma ok_ret {A} (P : ra_state -> Prop) (a : A) (Q : A -> ra_state -> Prop) : (forall r, fine r -> P r -> Q a r) -> ok P (ret a) Q.
Proof. intros H r F P1; cbn; auto. Qed.

Lemma keeps_ret {A} (a : A) (Q : A -> Prop) : Q a -> keeps (ret a) Q.
Proof. intros H; now apply ok_ret. Qed.

Lemma ok_abort {A} P (Q : A -> ra_state -> Prop) : ok P abort Q.
Proof. intros r F _; exact I. Qed.

Lemma keeps_abort {A} (Q : A -> Prop) : keeps abort Q.
Proof. apply ok_abort. Qed.

Lemma keeps_bind {A B} (m : M A) (k : A -> M B) (P : A -> Prop) (Q : B -> Prop) : keeps m P -> (forall a, P a -> keeps (k a) Q) -> keeps (bind m k) Q.
Proof. intros H K; eapply ok_bind; [exact H|]; intros a r F P1; exact (K a P1 r F I). Qed.

Lemma keeps_emit i : fit i -> keeps (emit i) (fun _ => True).
Proof. intros H r F _; cbn; auto. Qed.

Lemma keeps_get : keeps get fine.
Proof. intros r F _; cbn; auto. Qed.

Lemma ok_temp P t : ok P (get_temp t) (fun ts r => P r /\ temp_fine t ts /\ ts = temp r t).
Proof. intros r F P1; cbn; splits; auto; apply F. Qed.

Lemma keeps_temp t : keeps (get_temp t) (temp_fine t).
Proof. eapply ok_mono; [apply (ok_temp (fun _ => True))|now intros|]; now intros ts r (_ & H & _). Qed.

Lemma keeps_modify f : (forall r, fine r -> fine (f r)) -> (forall r t, has t r -> has t (f r)) -> keeps (modify f) (fun _ => True).
Proof. intros H G r F _; cbn; auto. Qed.

Lemma ok_on P t f : (forall r, fine r -> P r -> temp_fine t (f (temp r t)) /\ (has t r -> mem_allocated (f (temp r t)) = true)) -> ok P (on_temp t f) (fun _ _ => True).
Proof.
  intros H r F P1; destruct (H r F P1) as [A B]; cbn; splits; auto.
  - split; [|apply F|apply F]; intros u; cbn; destruct (Z.eqb_spec u t) as [->|]; auto; apply F.
  - intros u U; unfold has; cbn; destruct (Z.eqb_spec u t) as [->|]; auto.
Qed.

Lemma keeps_owner x o : match o with Some t => 0 <= t | None => True end -> keeps (set_reg_to_temp x o) (fun _ => True).
Proof.
  intros H; apply keeps_modify; auto; intros r F; split; try apply F; intros y t; cbn; destruct (Z.eqb_spec y x) as [->|]; [intros ->; exact H|apply F].
Qed.

Lemma keeps_assert b : keeps (tcg_debug_assert b) (fun _ => True).
Proof. destruct b; [now apply keeps_ret|apply keeps_abort]. Qed.

Lemma ok_if {A} (b : bool) P (x y : M A) Q : (b = true -> ok P x Q) -> (b = false -> ok P y Q) -> ok P (if b then x else y) Q.
Proof. destruct b; auto. Qed.

Lemma keeps_if {A} (b : bool) (x y : M A) Q : (b = true -> keeps x Q) -> (b = false -> keeps y Q) -> keeps (if b then x else y) Q.
Proof. destruct b; auto. Qed.

Lemma keeps_each {A} (f : A -> M unit) l : (forall x, In x l -> keeps (f x) (fun _ => True)) -> keeps (for_each f l) (fun _ => True).
Proof.
  induction l as [|x l IH]; intros H; cbn [for_each]; [now apply keeps_ret|]; eapply keeps_bind; [apply H; now left|].
  intros _ _; apply IH; intros y I; apply H; now right.
Qed.

Lemma then_keeps {B} (m : M unit) (k : M B) (Q : B -> Prop) : keeps m (fun _ => True) -> keeps k Q -> keeps (m ;;; k) Q.
Proof. intros H K; eapply keeps_bind; eauto. Qed.

(** An update that keeps the register and claims no more about memory. *)
Record mild (f : TCGTemp -> TCGTemp) : Prop := {
  mi_reg : forall ts, reg (f ts) = reg ts;
  mi_flag : forall ts, fixed_reg (f ts) = fixed_reg ts;
  mi_word : forall ts, mem_allocated (f ts) = mem_allocated ts /\ mem_base (f ts) = mem_base ts /\ mem_offset (f ts) = mem_offset ts;
  mi_mem : forall ts, in_memory (f ts) = true -> in_memory ts = true
}.

Lemma mild_fine t f ts : fixed t = false -> mild f -> temp_fine t ts -> temp_fine t (f ts).
Proof.
  intros Nf [A B C D] [F1 F2 F3 F4 Fv F5 F6]; destruct (C ts) as (C1 & C2 & C3); split; rewrite ?A, ?B, ?C1, ?C2, ?C3; auto; try congruence.
  intros T N [I|I]; apply F6; auto.
Qed.

Lemma mild_keeps t f : fixed t = false -> mild f -> keeps (on_temp t f) (fun _ => True).
Proof. intros N H; apply ok_on; intros r F _; split; [apply mild_fine; [exact N|exact H|apply F]|]; unfold has; now rewrite (proj1 (mi_word _ H _)). Qed.

Lemma fine_reg t x ts : usable x -> fixed t = false -> temp_fine t ts -> temp_fine t (set_reg x ts).
Proof. intros [U U'] N [F1 F2 F3 F4 Fv F5 F6]; split; cbn; auto; congruence. Qed.

Lemma reg_keeps t f x : usable x -> fixed t = false -> mild f -> keeps (on_temp t (fun ts => f (set_reg x ts))) (fun _ => True).
Proof.
  intros U N H; apply ok_on; intros r F _; split; [apply mild_fine, fine_reg; auto; apply F|]; unfold has; rewrite (proj1 (mi_word _ H _)); auto.
Qed.

Lemma mild_id : mild (fun ts => ts).
Proof. split; auto. Qed.

Ltac mild := split; [reflexivity|reflexivity|auto|intros [? [] ? ? [] ? ? ? ?]; cbn; auto].

(** ** Registers *)

Definition within (al : Z) : Prop := forall x, test_reg (reserved_regs cfg) x = true -> test_reg al x = true.

Lemma within_reserved : within (reserved_regs cfg).
Proof. now intros x. Qed.

Lemma within_add al x : within al -> within (add_reg al x).
Proof. intros H y T; unfold test_reg, add_reg in *; now rewrite Z.lor_spec, H. Qed.

Lemma order_host rev x : In x (tcg_target_reg_alloc_order rev) -> test_reg (reserved_regs cfg) x = false -> host_reg x.
Proof.
  rewrite arm_regs; assert (H : forallb (fun x => test_reg arm_reserved x || ((0 <=? x) && (x <? 15) && negb (x =? TCG_REG_TMP))) (tcg_target_reg_alloc_order rev) = true) by (destruct rev; reflexivity).
  intros I T; rewrite forallb_forall in H; specialize (H x I); rewrite T in H; cbn [orb] in H; rewrite !andb_true_iff, Z.leb_le, Z.ltb_lt, negb_true_iff, Z.eqb_neq in H.
  unfold host_reg, gpr; tauto.
Qed.

Lemma test_diff desired al x : test_reg (desired .& Z.lnot al) x = true -> test_reg desired x = true /\ test_reg al x = false.
Proof.
  unfold test_reg; destruct (Z.ltb_spec x 0); [rewrite Z.testbit_neg_r by lia; discriminate|].
  rewrite Z.land_spec, Z.lnot_spec, andb_true_iff, negb_true_iff by lia; auto.
Qed.

Definition allocates (desired al x : Z) : Prop := usable x /\ test_reg desired x = true /\ test_reg al x = false.

Lemma allocates_order desired al rev x : within al -> In x (tcg_target_reg_alloc_order rev) -> test_reg (desired .& Z.lnot al) x = true -> allocates desired al x.
Proof.
  intros W I T; apply test_diff in T as [T1 T2]; assert (N : test_reg (reserved_regs cfg) x = false) by (destruct (test_reg (reserved_regs cfg) x) eqn:E; auto; apply W in E; congruence).
  split; [split; [now apply (order_host rev)|exact N]|auto].
Qed.

Section Open.
Variable sync : Z -> Z -> Z -> M unit.
Hypothesis sync_keeps : forall t al f, 0 <= t -> within al -> keeps (sync t al f) (fun _ => True).

Lemma reg_free_keeps x al : within al -> keeps (tcg_reg_free sync x al) (fun _ => True).
Proof. intros W; eapply keeps_bind; [apply keeps_get|]; intros r F; destruct (reg_to_temp r x) eqn:E; [apply sync_keeps; [exact (fi_owner _ F _ _ E)|exact W]|now apply keeps_ret]. Qed.

Lemma reg_alloc_keeps desired al rev : within al -> keeps (tcg_reg_alloc sync desired al rev) (allocates desired al).
Proof.
  intros W; eapply keeps_bind; [apply keeps_get|]; intros r _; destruct (find _ _) as [x|] eqn:E.
  - apply find_some in E as [I T]; apply andb_true_iff in T as [T _]; apply keeps_ret; now apply (allocates_order _ _ rev).
  - clear E; destruct (find _ _) as [x|] eqn:E; [|apply keeps_abort]; apply find_some in E as [I T].
    apply then_keeps; [now apply reg_free_keeps|]; apply keeps_ret; now apply (allocates_order _ _ rev).
Qed.

Lemma base_reg ts base : mem_allocated ts = true -> temp_fine (mem_base ts) base -> (exists t, temp_fine t ts) -> place (reg base) (mem_offset ts).
Proof. intros M B [t T]; destruct (tf_place _ _ T M) as [Fb Pl]; now rewrite (tf_own _ _ B Fb). Qed.

Lemma coherent_ok t b : fixed t = false -> ok (has t) (on_temp t (set_coherent b)) (fun _ _ => True).
Proof.
  intros N; apply ok_on; intros r F H; split; [|auto]; destruct (fi_temp _ F t) as [F1 F2 F3 F4 Fv F5 F6]; split; auto.
Qed.

Lemma load_keeps t desired al : 0 <= t -> within al -> keeps (temp_load sync t desired al) (fun _ => True).
Proof.
  intros T W; unfold temp_load; eapply ok_bind; [apply ok_temp|]; intros ts; cbv beta.
  assert (Fin : forall x, usable x -> fixed t = false -> keeps (on_temp t (fun ts => set_val_type TEMP_VAL_REG (set_reg x ts)) ;;; set_reg_to_temp x (Some t)) (fun _ => True)).
  { intros x U N; apply then_keeps; [apply (reg_keeps t (set_val_type TEMP_VAL_REG) x U N); mild|now apply keeps_owner]. }
  destruct (val_type ts) eqn:V; [apply ok_abort|now apply ok_ret| |].
  - intros r F (_ & Ft & E); assert (N : fixed t = false) by (destruct (fixed t) eqn:X; auto; rewrite (tf_val _ _ Ft X) in V; discriminate).
    assert (Mt : mem_allocated ts = true) by (apply (tf_mem _ _ Ft T N); left; unfold in_memory, is_val; now rewrite V).
    refine (ok_bind (has t) _ _ (fun x r => allocates desired al x /\ has t r) _ _ _ r F ltac:(unfold has; now rewrite <- E)); [apply ok_has; now apply reg_alloc_keeps|].
    intros x; apply ok_pure; intros (U & _ & _); eapply (ok_bind _ _ _ (fun base r => place (reg base) (mem_offset ts) /\ has t r)).
    + eapply ok_mono; [apply (ok_temp (has t))|auto|]; intros base r1 (H & B & _); split; [apply base_reg; eauto|exact H].
    + intros base; apply ok_pure; intros Pl; eapply (ok_bind _ _ _ (fun _ r => True /\ has t r)); [apply ok_has, keeps_emit; now split|].
      intros _; apply ok_pure; intros _; eapply (ok_bind _ _ _ (fun _ _ => True)); [now apply coherent_ok|intros _; now apply Fin].
  - apply ok_pure; intros _; apply ok_pure; intros Ft; assert (N : fixed t = false) by (destruct (fixed t) eqn:X; auto; rewrite (tf_val _ _ Ft X) in V; discriminate).
    apply ok_keeps; eapply keeps_bind; [now apply reg_alloc_keeps|]; intros x (U & _ & _); apply then_keeps; [now apply keeps_emit|].
    apply then_keeps; [apply mild_keeps; [exact N|mild]|now apply Fin].
Qed.
End Open.

Lemma round_up_4 x : (x + 4 - 1) .& Z.lnot (4 - 1) = 4 * ((x + 3) / 4).
Proof.
  change (4 - 1) with (Z.ones 2); rewrite <- Z.ldiff_land, Z.ldiff_ones_r, Z.shiftl_mul_pow2, Z.shiftr_div_pow2 by lia; change (2 ^ 2) with 4; replace (x + 4 - 1) with (x + 3) by lia; lia.
Qed.

Lemma frame_ok P t : fixed t = false -> ok P (temp_allocate_frame cfg t) (fun _ => has t).
Proof.
  intros N r F _; unfold temp_allocate_frame, bind, get; rewrite round_up_4; remember (4 * ((current_frame_offset r + 3) / 4)) as off eqn:Eo.
  destruct (Z.ltb_spec (frame_end cfg) (off + 4)) as [|L]; [exact I|]; pose proof (fi_frame _ F) as L0; destruct frame_reg as [Fx Fr].
  assert (Lo : current_frame_offset r <= off) by (rewrite Eo; pose proof (Z.mod_pos_bound (current_frame_offset r + 3) 4); pose proof (Z.div_mod (current_frame_offset r + 3) 4); lia).
  cbn; splits; auto; [split; cbn| |].
  - intros u; destruct (Z.eqb_spec u t) as [->|]; [|apply F]; destruct (fi_temp _ F t) as [F1 F2 F3 F4 Fv F5 F6]; split; cbn; auto; intros _.
    split; [exact Fx|]; rewrite Fr; apply frame_places; unfold TCG_STATIC_CALL_ARGS_SIZE in *; [lia|lia|rewrite Eo, Z.mul_comm; apply Z_mod_mult].
  - apply F.
  - lia.
  - intros u U; unfold has in *; cbn; destruct (Z.eqb_spec u t); auto.
  - unfold has; cbn; now rewrite Z.eqb_refl.
Qed.

(** [if (!ts->mem_allocated) temp_allocate_frame(s, temp)] *)
Lemma placed_ok t ts : fixed t = false -> ok (fun r => ts = temp r t) (if mem_allocated ts then ret tt else temp_allocate_frame cfg t) (fun _ => has t).
Proof. intros N; apply ok_if; intros E; [apply ok_ret; intros r _ ->; exact E|now apply frame_ok]. Qed.

(** Only a temporary with a word may be left to memory. *)
Definition may_leave (t f : Z) (r : ra_state) : Prop := f < 0 -> has t r.

Lemma free_or_dead_ok t f : 0 <= t -> ok (may_leave t f) (temp_free_or_dead s t f) (fun _ _ => True).
Proof.
  intros T; eapply ok_bind; [apply ok_temp|]; intros ts; cbv beta; apply ok_if; intros B; [now apply ok_ret|].
  intros r F (M & Ft & E); assert (N : fixed t = false) by (rewrite <- (tf_fixed _ _ Ft); exact B).
  refine (ok_bind (may_leave t f) _ _ (fun _ => may_leave t f) _ _ _ r F M).
  - intros r1 F1 M1; assert (K : keeps (if is_val TEMP_VAL_REG ts then set_reg_to_temp (reg ts) None else ret tt) (fun _ => True)).
    { apply keeps_if; intros _; [now apply keeps_owner|now apply keeps_ret]. }
    specialize (K r1 F1 I); destruct (_ r1) as [[[r2 c] a]|]; auto; destruct K as (A & G & C & _); splits; auto; intros L; auto.
  - intros _; apply ok_on; intros r1 F1 M1; split; [|auto]; destruct (fi_temp _ F1 t) as [G1 G2 G3 G4 Gv G5 G6]; split; cbn; auto; try congruence.
    intros _ _ I; rewrite no_locals, orb_false_r in I; destruct (Z.ltb_spec f 0) as [L|L]; [exact (M1 L)|]; cbn [orb] in I; apply G6; auto; destruct I as [I|I]; auto.
    unfold in_memory in *; cbn in *; destruct (is_global s t) eqn:G; [now right|left]; cbn in I; rewrite I; apply orb_true_r.
Qed.

Lemma free_or_dead_keeps t f : 0 <= t -> 0 <= f -> keeps (temp_free_or_dead s t f) (fun _ => True).
Proof. intros T L; eapply ok_mono; [now apply free_or_dead_ok|intros r _ H; lia|auto]. Qed.

Lemma store_ok x t : host_reg x -> ok (has t) (store_temp x t) (fun _ _ => True).
Proof.
  intros H; eapply ok_bind; [apply ok_temp|]; intros ts; cbv beta; eapply (ok_bind _ _ _ (fun base r => place (reg base) (mem_offset ts) /\ True)).
  - intros r F (M & Ft & ->); pose proof (fi_temp _ F (mem_base (temp r t))) as B; cbn; splits; auto; now apply base_reg; eauto.
  - intros base; apply ok_pure; intros Pl; apply keeps_emit; now split.
Qed.

Lemma sync_fuel_keeps fuel : forall t al f, 0 <= t -> within al -> keeps (temp_sync_fuel s cfg fuel t al f) (fun _ => True).
Proof.
  induction fuel as [|fuel IH]; intros t al f T W; [apply keeps_abort|]; cbn [temp_sync_fuel].
  eapply ok_bind; [apply ok_temp|]; intros ts; cbv beta; apply ok_if; intros B; [now apply ok_ret|].
  intros r F (_ & Ft & E); assert (N : fixed t = false) by (rewrite <- (tf_fixed _ _ Ft); exact B).
  refine (ok_bind (fun r => ts = temp r t) _ _ (fun _ => has t) _ _ _ r F E); [|intros _; apply ok_if; intros _; [eapply ok_mono; [now apply free_or_dead_ok|intros r1 H _; exact H|auto]|now apply ok_ret]].
  apply ok_if; intros Co; [apply ok_ret; intros r1 _ E1; unfold has; rewrite <- E1; apply (tf_mem _ _ Ft T N); left; unfold in_memory; rewrite Co; apply orb_true_r|].
  eapply ok_bind; [now apply placed_ok|]; intros []; cbv beta; eapply (ok_bind _ _ _ (fun _ => has t)).
  - destruct (val_type ts); [apply ok_abort| |apply ok_ret; auto|].
    + intros r1 F1 H; pose proof (store_ok (reg ts) t (tf_reg _ _ Ft) r1 F1 H) as S; destruct (store_temp _ _ _) as [[[r2 c] a]|]; auto; intuition auto.
    + apply ok_if; intros _; [apply ok_ret; auto|]; eapply (ok_bind _ _ _ (fun _ r => True /\ has t r)); [apply ok_has; apply load_keeps; auto|].
      intros _; apply ok_pure; intros _; eapply ok_bind; [apply ok_temp|]; intros ts'; cbv beta; intros r1 F1 (H & Ft' & _).
      pose proof (store_ok (reg ts') t (tf_reg _ _ Ft') r1 F1 H) as S; destruct (store_temp _ _ _) as [[[r2 c] a]|]; auto; intuition auto.
  - intros _ r1 F1 H; pose proof (coherent_ok t true N r1 F1 H) as S; destruct (on_temp _ _ _) as [[[r2 c] a]|]; auto; intuition auto.
Qed.

Lemma sync_keeps t al f : 0 <= t -> within al -> keeps (temp_sync s cfg t al f) (fun _ => True).
Proof. apply sync_fuel_keeps. Qed.

Lemma alloc_keeps desired al rev : within al -> keeps (tcg_reg_alloc (temp_sync s cfg) desired al rev) (allocates desired al).
Proof. intros W; apply reg_alloc_keeps; [intros; now apply sync_keeps|exact W]. Qed.

Lemma load_temp_keeps t desired al : 0 <= t -> within al -> keeps (temp_load (temp_sync s cfg) t desired al) (fun _ => True).
Proof. intros T W; apply load_keeps; auto; intros; now apply sync_keeps. Qed.

Lemma free_reg_keeps x al : within al -> keeps (tcg_reg_free (temp_sync s cfg) x al) (fun _ => True).
Proof. intros W; apply reg_free_keeps; auto; intros; now apply sync_keeps. Qed.

Lemma finish_out_keeps t life i al : 0 <= t -> within al -> keeps (finish_out s cfg t life i al) (fun _ => True).
Proof. intros T W; unfold finish_out; repeat (apply keeps_if; intros _); [now apply sync_keeps|apply free_or_dead_keeps; auto; lia|now apply keeps_ret]. Qed.

Lemma leave_reg_keeps t : keeps (leave_reg t) (fun _ => True).
Proof. eapply keeps_bind; [apply keeps_temp|]; intros ts _; apply keeps_if; intros _; [now apply keeps_owner|now apply keeps_ret]. Qed.

Lemma bb_end_keeps : keeps (tcg_reg_alloc_bb_end s) (fun _ => True).
Proof.
  assert (Sv : forall t, keeps (temp_save t) (fun _ => True)) by (intros t; eapply keeps_bind; [apply keeps_temp|]; intros ts _; apply keeps_assert).
  apply then_keeps; apply keeps_each; intros t _; [|apply Sv]; apply keeps_if; intros _; [apply Sv|].
  eapply keeps_bind; [apply keeps_temp|]; intros ts _; apply keeps_assert.
Qed.

Lemma sync_globals_keeps : keeps (sync_globals s) (fun _ => True).
Proof. apply keeps_each; intros t _; eapply keeps_bind; [apply keeps_temp|]; intros ts _; apply keeps_assert. Qed.

Lemma save_globals_keeps : keeps (save_globals s) (fun _ => True).
Proof. apply keeps_each; intros t _; eapply keeps_bind; [apply keeps_temp|]; intros ts _; apply keeps_assert. Qed.

Lemma free_clobbered_keeps al : within al -> keeps (free_clobbered s cfg al) (fun _ => True).
Proof. intros W; apply keeps_each; intros x _; apply keeps_if; intros _; [now apply free_reg_keeps|now apply keeps_ret]. Qed.

Lemma free_dead_keeps life ins : forall i, Forall (Z.le 0) ins -> keeps (free_dead s life i ins) (fun _ => True).
Proof.
  induction ins as [|t ins IH]; intros i F; cbn [free_dead]; [now apply keeps_ret|]; inversion_clear F; apply then_keeps; [|now apply IH].
  apply keeps_if; intros _; [apply free_or_dead_keeps; auto; lia|now apply keeps_ret].
Qed.

(** ** Moves and calls *)

Lemma nonfixed_usable t ts : fixed t = false -> temp_fine t ts -> usable (reg ts).
Proof. intros N F; split; [apply F|now apply (tf_free _ _ F)]. Qed.

Lemma nonfixed_flag t ts : fixed t = false -> temp_fine t ts -> fixed_reg ts = false.
Proof. intros N F; rewrite (tf_fixed _ _ F); exact N. Qed.

(** A temporary that an operation may write. *)
Definition writable (t : Z) : Prop := 0 <= t /\ fixed t = false.

(** The register of an output. *)
Lemma out_reg_keeps t x : usable x -> fixed t = false -> keeps (on_temp t (fun ts => set_coherent false (set_reg x (set_val_type TEMP_VAL_REG ts)))) (fun _ => True).
Proof.
  intros U N; apply ok_on; intros r F _; split; [|auto]; apply (mild_fine t (set_coherent false)); [exact N|mild|]; apply fine_reg; auto.
  apply (mild_fine t (set_val_type TEMP_VAL_REG)); [exact N|mild|apply F].
Qed.

Lemma movi_keeps args life : writable (nth 0 args 0) -> keeps (tcg_reg_alloc_movi s cfg args life) (fun _ => True).
Proof.
  intros [T N]; eapply keeps_bind; [apply keeps_temp|]; intros ts Ft; rewrite (nonfixed_flag _ _ N Ft); apply then_keeps; [apply leave_reg_keeps|].
  apply then_keeps; [apply mild_keeps; [exact N|mild]|apply finish_out_keeps; [exact T|apply within_reserved]].
Qed.

(** A temporary that dies in its only copy, in memory. *)
Lemma store_dead_keeps {B} x o (k : M B) Q : host_reg x -> writable o -> keeps k Q ->
  keeps (ots <- get_temp o ;; (if mem_allocated ots then ret tt else temp_allocate_frame cfg o) ;;; store_temp x o ;;; k) Q.
Proof.
  intros H [T N] K; eapply ok_bind; [apply ok_temp|]; intros ots; cbv beta; eapply (ok_bind _ _ _ (fun _ => has o)).
  - eapply ok_mono; [now apply placed_ok|now intros r (_ & _ & E)|auto].
  - intros []; cbv beta; eapply ok_bind; [now apply store_ok|]; intros []; exact K.
Qed.

Lemma mov_keeps args life : writable (nth 0 args 0) -> 0 <= nth 1 args 0 -> keeps (tcg_reg_alloc_mov s cfg args life) (fun _ => True).
Proof.
  intros Wo Ti; unfold tcg_reg_alloc_mov; set (o := nth 0 args 0) in *; set (i := nth 1 args 0) in *; pose proof within_reserved as W; destruct Wo as [T N].
  eapply keeps_bind; [apply keeps_temp|]; intros ots Fo; eapply keeps_bind; [apply keeps_temp|]; intros ts0 Ft0.
  apply then_keeps; [apply keeps_if; intros _; [now apply load_temp_keeps|now apply keeps_ret]|]; eapply keeps_bind; [apply keeps_temp|]; intros ts Ft.
  assert (Dd : forall t f, 0 <= t -> 0 <= f -> keeps (temp_free_or_dead s t f) (fun _ => True)) by (intros; now apply free_or_dead_keeps).
  apply keeps_if; intros _.
  { do 2 (apply then_keeps; [apply keeps_assert|]).
    apply store_dead_keeps; [apply Ft|now split|]; apply then_keeps; [apply keeps_if; intros _; [apply Dd; auto; lia|now apply keeps_ret]|apply Dd; auto; lia]. }
  apply keeps_if; intros _.
  { apply then_keeps; [apply leave_reg_keeps|]; apply then_keeps; [apply mild_keeps; [exact N|mild]|]; apply keeps_if; intros _; [apply Dd; auto; lia|now apply keeps_ret]. }
  apply then_keeps; [apply keeps_assert|]; eapply (keeps_bind _ _ within).
  - apply keeps_if; intros E.
    + apply then_keeps; [apply leave_reg_keeps|]; apply then_keeps; [|apply then_keeps; [apply Dd; auto; lia|now apply keeps_ret]].
      apply (reg_keeps o (fun ts => ts) (reg ts)); auto using mild_id; apply (nonfixed_usable i); [|exact Ft]; rewrite !andb_true_iff, !negb_true_iff in E; rewrite <- (tf_fixed _ _ Ft); tauto.
    + eapply keeps_bind; [apply keeps_temp|]; intros ots' _; eapply (keeps_bind _ _ within).
      * apply keeps_if; intros _; [now apply keeps_ret|]; eapply keeps_bind; [apply alloc_keeps; now apply within_add|].
        intros x (U & _ & _); apply then_keeps; [apply (reg_keeps o (fun ts => ts) x); auto using mild_id|apply keeps_ret; now apply within_add].
      * intros al Wa; eapply keeps_bind; [apply keeps_temp|]; intros ots2 F2; apply then_keeps; [|now apply keeps_ret].
        apply keeps_emit; split; [now apply (nonfixed_usable o)|apply Ft].
  - intros al Wa; eapply keeps_bind; [apply keeps_temp|]; intros ots3 _; apply then_keeps; [apply mild_keeps; [exact N|mild]|]; apply then_keeps; [now apply keeps_owner|].
    apply keeps_if; intros _; [now apply sync_keeps|now apply keeps_ret].
Qed.

Lemma stack_args_keeps ins : forall off, Forall (Z.le 0) ins -> 0 <= off -> off mod 4 = 0 -> off + 4 * Z.of_nat (length ins) <= TCG_STATIC_CALL_ARGS_SIZE ->
  keeps (stack_args s cfg off ins) (fun _ => True).
Proof.
  induction ins as [|t ins IH]; intros off F O1 O2 L; cbn [stack_args]; [now apply keeps_ret|]; inversion_clear F; cbn [length] in L.
  apply then_keeps; [|apply IH; auto; try lia; rewrite Zplus_mod, O2; reflexivity]; apply keeps_if; intros _; [now apply keeps_ret|].
  apply then_keeps; [apply load_temp_keeps; [assumption|apply within_reserved]|]; eapply keeps_bind; [apply keeps_temp|]; intros ts Ft.
  apply keeps_emit; split; [apply Ft|]; apply frame_places; auto; lia.
Qed.

Lemma call_reg_usable x : In x tcg_target_call_iarg_regs \/ In x tcg_target_call_oarg_regs -> usable x.
Proof.
  intros I; unfold usable; rewrite arm_regs; assert (E : x = 0 \/ x = 1 \/ x = 2 \/ x = 3) by (cbn in I; intuition auto).
  destruct E as [->|[->|[->| ->]]]; (split; [split; [unfold gpr; lia|discriminate]|reflexivity]).
Qed.

Lemma reg_args_keeps ins : forall xs al, Forall (Z.le 0) ins -> within al -> Forall usable xs -> keeps (reg_args s cfg al ins xs) within.
Proof.
  induction ins as [|t ins IH]; intros [|x xs] al F W U; cbn [reg_args]; try now apply keeps_ret.
  inversion_clear U as [|? ? Ux Us]; inversion_clear F; eapply (keeps_bind _ _ within); [|intros al' W'; now apply IH].
  apply keeps_if; intros _; [now apply keeps_ret|]; apply then_keeps; [now apply free_reg_keeps|].
  eapply keeps_bind; [apply keeps_temp|]; intros ts Ft; apply then_keeps; [|apply keeps_ret; now apply within_add]; apply keeps_if; intros _.
  - apply keeps_if; intros _; [now apply keeps_ret|apply keeps_emit; split; [exact Ux|apply Ft]].
  - now apply load_temp_keeps.
Qed.

Lemma call_oargs_keeps life outs : forall i al xs, within al -> Forall usable xs -> Forall writable outs -> keeps (call_oargs s cfg life i al outs xs) (fun _ => True).
Proof.
  induction outs as [|t outs IH]; intros i al [|x xs] W U N; cbn [call_oargs]; try now apply keeps_ret.
  inversion_clear U as [|? ? Ux Us]; inversion_clear N as [|? ? [T Nt] Ns]; eapply keeps_bind; [apply keeps_get|]; intros r _; apply then_keeps; [apply keeps_assert|].
  eapply keeps_bind; [apply keeps_temp|]; intros ts Ft; apply then_keeps; [|now apply IH]; rewrite (nonfixed_flag _ _ Nt Ft).
  apply then_keeps; [apply leave_reg_keeps|]; apply then_keeps; [now apply out_reg_keeps|]; apply then_keeps; [now apply keeps_owner|now apply finish_out_keeps].
Qed.

Lemma stack_size n : (TCG_STATIC_CALL_ARGS_SIZE <? ((Z.of_nat n * 4 + TCG_TARGET_STACK_ALIGN - 1) .& Z.lnot (TCG_TARGET_STACK_ALIGN - 1))) = false -> 4 * Z.of_nat n <= TCG_STATIC_CALL_ARGS_SIZE.
Proof.
  rewrite Z.ltb_ge; unfold TCG_TARGET_STACK_ALIGN; change (8 - 1) with (Z.ones 3); rewrite <- Z.ldiff_land, Z.ldiff_ones_r, Z.shiftl_mul_pow2, Z.shiftr_div_pow2 by lia.
  change (2 ^ 3) with 8; set (x := Z.of_nat n * 4 + 8 - 1); pose proof (Z.div_mod x 8); pose proof (Z.mod_pos_bound x 8); unfold x in *; lia.
Qed.

Lemma call_keeps op life : allowed call (cargs op) -> Forall (Z.le 0) (iargs op) -> (length (iargs op) <= calli op)%nat -> Forall writable (oargs op) -> keeps (tcg_reg_alloc_call s cfg op life) (fun _ => True).
Proof.
  intros Al Fi Li N; unfold tcg_reg_alloc_call; apply keeps_if; intros Sz; [apply keeps_abort|]; apply stack_size in Sz; apply then_keeps.
  - apply stack_args_keeps; [|reflexivity|reflexivity|rewrite length_skipn; unfold TCG_TARGET_CALL_STACK_OFFSET; lia].
    rewrite <- (firstn_skipn (Nat.min (length tcg_target_call_iarg_regs) (calli op)) (iargs op)) in Fi; apply Forall_app in Fi; apply Fi.
  - eapply keeps_bind; [apply reg_args_keeps; [|apply within_reserved|apply Forall_forall; intros x I; apply call_reg_usable; now left]|]; [|intros al W].
    { rewrite <- (firstn_skipn (Nat.min (length tcg_target_call_iarg_regs) (calli op)) (iargs op)) in Fi; apply Forall_app in Fi; apply Fi. }
    apply then_keeps; [now apply free_dead_keeps|]; apply then_keeps; [now apply free_clobbered_keeps|].
    apply then_keeps; [repeat (apply keeps_if; intros _); [now apply keeps_ret|apply sync_globals_keeps|apply save_globals_keeps]|].
    apply then_keeps; [now apply keeps_emit|]; apply call_oargs_keeps; auto; apply Forall_forall; intros x I; apply call_reg_usable; now right.
Qed.

(** ** Operations *)

Lemma keeps_fold {A B} (f : B -> A -> M B) (P : list A -> B -> Prop) l : forall dn b,
  (forall dn b x, In x l -> P dn b -> keeps (f b x) (P (dn ++ [x]))) -> P dn b -> keeps (fold_each f l b) (P (dn ++ l)).
Proof.
  induction l as [|x l IH]; intros dn b H Hb; cbn [fold_each]; [rewrite app_nil_r; now apply keeps_ret|].
  eapply keeps_bind; [apply (H dn); [now left|exact Hb]|]; intros b' Hb'; rewrite (app_assoc dn [x] l : dn ++ x :: l = _).
  apply IH; auto; intros dn' b2 y I; apply H; now right.
Qed.

Section Op.
Variable op : TCGOp.
Variable arg_life : Z.
Abbreviation o := (opc op).
Abbreviation no := (nb_oargs (tcg_op_defs (opc op))).
Abbreviation ni := (nb_iargs (tcg_op_defs (opc op))).
Hypothesis present : OPF_NOT_PRESENT o = false.
Hypothesis not_call : o <> call.
Hypothesis enough : (no + ni + nb_cargs (tcg_op_defs o) <= length (args op))%nat.
Hypothesis outs_free : Forall writable (firstn no (args op)).
Hypothesis allowed_op : allowed o (cargs op).
Hypothesis ins_temps : Forall (Z.le 0) (firstn ni (skipn no (args op))).

Lemma out_free i : (i < no)%nat -> writable (nth i (args op) 0).
Proof.
  intros L; apply (proj1 (Forall_forall _ _) outs_free); replace (nth i (args op) 0) with (nth i (firstn no (args op)) 0) by (rewrite nth_firstn, (proj2 (Nat.ltb_lt i no) L); reflexivity).
  apply nth_In; rewrite length_firstn; lia.
Qed.

Lemma in_temp i : (no <= i < no + ni)%nat -> 0 <= nth i (args op) 0.
Proof.
  intros L; apply (proj1 (Forall_forall _ _) ins_temps); replace (nth i (args op) 0) with (nth (i - no) (firstn ni (skipn no (args op))) 0).
  - apply nth_In; rewrite length_firstn, length_skipn; lia.
  - rewrite nth_firstn, nth_skipn, (proj2 (Nat.ltb_lt (i - no) ni)) by lia; f_equal; lia.
Qed.

(** A register for argument [i]. *)
Definition reg_ok (i : nat) (x : Z) : Prop := host_reg x /\ test_reg (ct_regs (args_ct o i)) x = true.

(** What the loop over the inputs has done for those in [dn]. *)
Record ins_ok (dn : list nat) (st : in_state) : Prop := {
  io_args : length (new_args st) = (no + ni + nb_cargs (tcg_op_defs o))%nat;
  io_consts : length (const_args st) = (no + ni)%nat;
  io_cargs : skipn (no + ni) (new_args st) = cargs op;
  io_within : within (allocated st);
  io_rest : forall i, ~ In i dn -> nth i (const_args st) false = false;
  io_const : forall i, In i dn -> nth i (const_args st) false = true -> const_match (nth i (new_args st) 0) (args_ct o i) = true;
  io_reg : forall i, In i dn -> nth i (const_args st) false = false -> reg_ok i (nth i (new_args st) 0) /\ (is_ialias (args_ct o i) = true -> usable (nth i (new_args st) 0))
}.

Lemma ins_set dn st i x (k : bool) al : ins_ok dn st -> (i < no + ni)%nat -> within al ->
  (if k then const_match x (args_ct o i) = true else reg_ok i x /\ (is_ialias (args_ct o i) = true -> usable x)) ->
  ins_ok (dn ++ [i]) (mkIn al (upd (new_args st) i x) (upd (const_args st) i k) (done st ++ [i])).
Proof.
  intros [A B Ac W R C G] L Wa H; assert (Cs : forall j, In j (dn ++ [i]) -> j = i \/ j <> i /\ In j dn).
  { intros j I; destruct (Nat.eq_dec j i); [now left|right]; apply in_app_or in I as [I|[<-|[]]]; tauto. }
  split; cbn [allocated new_args const_args]; rewrite ?length_upd, ?skipn_upd_below by exact L; auto.
  - intros j N; assert (j <> i) by (intros ->; apply N, in_or_app; cbn; auto); rewrite nth_upd_ne by congruence; apply R; intros I; apply N, in_or_app; auto.
  - intros j I; destruct (Cs j I) as [->|[N J]]; [rewrite !nth_upd_eq by lia; intros ->; exact H|rewrite !nth_upd_ne by congruence; auto].
  - intros j I; destruct (Cs j I) as [->|[N J]]; [rewrite !nth_upd_eq by lia; intros ->; exact H|rewrite !nth_upd_ne by congruence; auto].
Qed.

Lemma ialias_index i : is_ialias (args_ct o i) = true -> (no <= i < no + ni)%nat /\ alias_index (args_ct o i) = 0%nat /\ (0 < no)%nat /\ is_alias (args_ct o 0) = true /\
  alias_index (args_ct o 0) = i /\ ct_regs (args_ct o 0) = ct_regs (args_ct o i) /\ forall v, const_match v (args_ct o i) = false.
Proof.
  intros A; destruct (arm_ialias o i present A) as [[E ->]|[E ->]]; rewrite E; splits; try reflexivity; try (vm_compute; lia).
Qed.

Lemma iarg_keeps dn st i : (no <= i < no + ni)%nat -> ins_ok dn st -> keeps (alloc_iarg s cfg o (args op) arg_life st i) (ins_ok (dn ++ [i])).
Proof.
  intros L Io; unfold alloc_iarg; pose proof (io_within _ _ Io) as W; eapply keeps_bind; [apply keeps_temp|]; intros ts _; apply keeps_if; intros E.
  - apply andb_true_iff in E as [_ E]; apply keeps_ret; apply (ins_set dn st i _ true); auto; lia.
  - apply then_keeps; [apply load_temp_keeps; [now apply in_temp|exact W]|]; eapply keeps_bind; [apply keeps_temp|]; intros ts' Ft.
    eapply (keeps_bind _ _ (fun x => reg_ok i x /\ (is_ialias (args_ct o i) = true -> usable x))).
    + apply keeps_if; intros B.
      * apply keeps_ret; apply andb_true_iff in B as [B1 B2]; split; [split; [apply Ft|exact B2]|]; intros A; rewrite A in B1.
        destruct (fixed (nth i (args op) 0)) eqn:Fx; [|now apply (nonfixed_usable (nth i (args op) 0))]; exfalso.
        destruct (ialias_index i A) as (_ & Ai & Lo & _); rewrite Ai, (tf_fixed _ _ Ft), Fx, negb_involutive in B1; apply Z.eqb_eq in B1.
        rewrite B1, (proj2 (out_free 0 Lo)) in Fx; discriminate.
      * eapply keeps_bind; [now apply alloc_keeps|]; intros x (U & D & _).
        apply then_keeps; [apply keeps_emit; split; [exact U|apply Ft]|]; apply keeps_ret; split; [split; [apply U|exact D]|auto].
    + intros x Hx; apply keeps_ret; apply (ins_set dn st i x false); auto; [lia|now apply within_add].
Qed.

(** What the loop over the outputs has done for those in [dn], from the arguments [start] on. *)
Record outs_ok (start : list Z) (dn : list nat) (st : Z * list Z) : Prop := {
  oo_args : length (snd st) = length start;
  oo_within : within (fst st);
  oo_cargs : skipn (no + ni) (snd st) = skipn (no + ni) start;
  oo_ins : forall i, (no <= i)%nat -> nth i (snd st) 0 = nth i start 0;
  oo_reg : forall i, In i dn -> usable (nth i (snd st) 0) /\ reg_ok i (nth i (snd st) 0) /\ test_reg (fst st) (nth i (snd st) 0) = true;
  oo_apart : forall i j, In i dn -> In j dn -> nth i (snd st) 0 = nth j (snd st) 0 -> i = j;
  oo_alias : forall i, In i dn -> is_alias (args_ct o i) = true -> nth i (snd st) 0 = nth (alias_index (args_ct o i)) start 0
}.

Lemma tests_added al x y : host_reg x -> test_reg (add_reg al x) y = test_reg al y || (y =? x).
Proof.
  intros [[H _] _]; unfold test_reg, add_reg; destruct (Z.ltb_spec y 0); [rewrite !Z.testbit_neg_r by lia; symmetry; apply orb_false_iff; split; [reflexivity|apply Z.eqb_neq; lia]|].
  rewrite Z.lor_spec, Z.shiftl_spec by lia; f_equal; destruct (Z.eqb_spec y x) as [->|N]; [now rewrite Z.sub_diag|].
  destruct (Z.ltb_spec y x); [now rewrite Z.testbit_neg_r by lia|]; change 1 with (2 ^ 0); apply Z.pow2_bits_false; lia.
Qed.

Lemma outs_set start dn al new i x : outs_ok start dn (al, new) -> (i < no)%nat -> (no <= length start)%nat -> usable x -> reg_ok i x ->
  (forall j, In j dn -> j <> i -> nth j new 0 <> x) -> (is_alias (args_ct o i) = true -> x = nth (alias_index (args_ct o i)) start 0) ->
  outs_ok start (dn ++ [i]) (add_reg al x, upd new i x).
Proof.
  intros [A W Ac N R D Al] L Ls U G Ap H; cbn [fst snd] in *.
  assert (Cs : forall j, In j (dn ++ [i]) -> j = i /\ nth j (upd new i x) 0 = x \/ j <> i /\ In j dn /\ nth j (upd new i x) 0 = nth j new 0).
  { intros j I; destruct (Nat.eq_dec j i) as [->|E]; [left; split; [auto|apply nth_upd_eq; lia]|right]; apply in_app_or in I as [I|[<-|[]]]; [|tauto]; splits; auto; now apply nth_upd_ne. }
  split; cbn [fst snd]; rewrite ?length_upd, ?skipn_upd_below by lia; auto; [now apply within_add|intros j Lj; rewrite nth_upd_ne by lia; auto| | |].
  - intros j I; rewrite tests_added by apply U; destruct (Cs j I) as [[-> ->]|(E & J & ->)]; [rewrite Z.eqb_refl, orb_true_r; auto|].
    destruct (R j J) as (R1 & R2 & R3); rewrite R3; auto.
  - intros j k I K; destruct (Cs j I) as [[-> ->]|(E & J & ->)], (Cs k K) as [[-> ->]|(E' & J' & ->)]; auto; [|intros X; elim (Ap j J E X)].
    intros X; elim (Ap k J' E'); auto.
  - intros j I; destruct (Cs j I) as [[-> ->]|(E & J & ->)]; auto.
Qed.

Lemma oarg_keeps start dn st i : (i < no <= length start)%nat -> outs_ok start dn st -> (forall j, In j dn -> (j < no)%nat) ->
  (forall j, is_ialias (args_ct o j) = true -> usable (nth j start 0) /\ reg_ok j (nth j start 0)) ->
  keeps (alloc_oarg s cfg o (args op) st i) (outs_ok start (dn ++ [i])).
Proof.
  intros [L Ls] Oo Dn Ia; destruct st as [al new]; unfold alloc_oarg; pose proof (oo_within _ _ _ Oo) as W; cbn [fst] in W.
  eapply keeps_bind; [apply keeps_temp|]; intros ts Ft; destruct (out_free i L) as [Tf Nf]; rewrite (nonfixed_flag _ _ Nf Ft), andb_false_r; cbn [andb].
  eapply (keeps_bind _ _ (fun x => usable x /\ outs_ok start (dn ++ [i]) (add_reg al x, upd new i x))).
  - apply keeps_if; intros A.
    + destruct (arm_alias o i present L A) as (N1 & _ & _ & I1 & I2); set (j := alias_index (args_ct o i)) in *.
      destruct (ialias_index j I1) as ([Lj _] & Aj & _ & _ & _ & Er & _); destruct (Ia j I1) as [U [Rh Rt]]; assert (i = 0%nat) as -> by lia.
      apply keeps_ret; rewrite (oo_ins _ _ _ Oo j Lj : nth j new 0 = _); split; [exact U|]; apply outs_set; auto; [split; [exact Rh|now rewrite Er]|].
      intros k K E; specialize (Dn k K); lia.
    + eapply keeps_mono; [now apply alloc_keeps|]; intros x (U & D & T); split; [exact U|].
      apply outs_set; auto; [split; [apply U|exact D]| |congruence]; intros j J _ E; destruct (oo_reg _ _ _ Oo j J) as (_ & _ & T'); cbn in T'; congruence.
  - intros x [U H]; apply then_keeps; [|now apply keeps_ret]; apply then_keeps; [apply leave_reg_keeps|]; apply then_keeps; [now apply out_reg_keeps|now apply keeps_owner].
Qed.

Lemma finish_oargs_keeps al outs : forall i new, within al -> Forall writable outs -> keeps (finish_oargs s cfg arg_life i al outs new) (fun _ => True).
Proof.
  induction outs as [|t outs IH]; intros i [|x new] W N; cbn [finish_oargs]; try now apply keeps_ret.
  inversion_clear N as [|? ? [Tt Nt] Ns]; eapply keeps_bind; [apply keeps_temp|]; intros ts Ft; rewrite (nonfixed_flag _ _ Nt Ft); cbn [andb].
  apply then_keeps; [now apply keeps_ret|]; apply then_keeps; [now apply finish_out_keeps|now apply IH].
Qed.

Lemma sorted_in i : In i (firstn ni (skipn no (sorted_args o))) <-> (no <= i < no + ni)%nat.
Proof. rewrite (same_members_ok _ _ (arm_sorted_ins o present) i), in_seq; lia. Qed.

Lemma sorted_out i : In i (firstn no (sorted_args o)) <-> (i < no)%nat.
Proof. rewrite (same_members_ok _ _ (arm_sorted_outs o present) i), in_seq; lia. Qed.

(** The arguments are right when both loops have ended. *)
Lemma loops_fit ins outs st st' : (forall i, In i ins <-> (no <= i < no + ni)%nat) -> (forall i, In i outs <-> (i < no)%nat) ->
  ins_ok ins st -> outs_ok (new_args st) outs st' -> op_fits o (snd st') (const_args st) /\ Forall usable (firstn no (snd st')) /\ allowed o (op_constants o (snd st')).
Proof.
  intros Hi Ho Io Oo; assert (Lo : length (snd st') = (no + ni + nb_cargs (tcg_op_defs o))%nat) by (rewrite (oo_args _ _ _ Oo); apply Io).
  assert (Of : forall i, (i < no)%nat -> nth i (const_args st) false = false) by (intros i L; apply (io_rest _ _ Io); rewrite Hi; lia).
  assert (Rg : forall i, (i < no + ni)%nat -> nth i (const_args st) false = false -> reg_ok i (nth i (snd st') 0)).
  { intros i L K; destruct (Nat.ltb_spec i no); [apply (oo_reg _ _ _ Oo), Ho; lia|]; rewrite (oo_ins _ _ _ Oo) by lia; apply (io_reg _ _ Io); auto; apply Hi; lia. }
  split; [split; auto|].
  - apply Io.
  - intros i L; destruct (nth i (const_args st) false) eqn:K; [|now apply Rg]; destruct (Nat.ltb_spec i no) as [Lt|Ge]; [rewrite Of in K by exact Lt; discriminate|].
    split; [exact Ge|]; rewrite (oo_ins _ _ _ Oo) by lia; apply (io_const _ _ Io); auto; apply Hi; lia.
  - intros i L K; now apply Rg.
  - apply (NoDup_nth _ 0); rewrite length_firstn; intros i j Li Lj; rewrite !nth_firstn; destruct (Nat.ltb_spec i no), (Nat.ltb_spec j no); try lia.
    apply (oo_apart _ _ _ Oo); apply Ho; lia.
  - intros i A; destruct (ialias_index i A) as (Li & Ai & Lz & Al & Aj & _ & _); change (nth i (op_args_ct o) no_ct) with (args_ct o i); rewrite Ai.
    rewrite (oo_alias _ _ _ Oo 0%nat) by (auto; apply Ho; lia); rewrite Aj; apply (oo_ins _ _ _ Oo); lia.
  - split; [|unfold op_constants; now rewrite (oo_cargs _ _ _ Oo), (io_cargs _ _ Io)].
    apply Forall_forall; intros x I; apply (In_nth _ _ 0) in I as (i & L & <-); rewrite length_firstn in L; rewrite nth_firstn; destruct (Nat.ltb_spec i no); [|lia].
    apply (oo_reg _ _ _ Oo), Ho; lia.
Qed.

Lemma op_keeps : keeps (tcg_reg_alloc_op s cfg op arg_life) (fun _ => True).
Proof.
  assert (En : n_oargs op = no /\ n_iargs op = ni) by (unfold n_oargs, n_iargs; destruct (opc op); tauto || congruence); destruct En as [En Ei].
  unfold tcg_reg_alloc_op; rewrite En, Ei; eapply keeps_bind; [apply (keeps_fold _ ins_ok _ [])|]; cbn [app].
  - intros dn st i I; apply iarg_keeps; now apply sorted_in.
  - split; cbn [new_args const_args allocated]; try contradiction; rewrite ?length_app, ?repeat_length; auto; [| |apply within_reserved|intros; apply nth_repeat].
    2: now rewrite skipn_app, skipn_all2, repeat_length, Nat.sub_diag by now rewrite repeat_length.
    unfold cargs; rewrite En, Ei, length_firstn, length_skipn; unfold n_cargs; lia.
  - intros st Io; apply then_keeps; [apply free_dead_keeps; unfold iargs; now rewrite En, Ei|].
    assert (Start : outs_ok (new_args st) [] (reserved_regs cfg, new_args st)) by (split; cbn; try contradiction; auto; apply within_reserved).
    eapply (keeps_bind _ _ (fun st' => within (fst st') /\ op_fits o (snd st') (const_args st) /\ Forall usable (firstn no (snd st')) /\ allowed o (op_constants o (snd st')))).
    + apply keeps_if; intros B.
      * apply then_keeps; [apply bb_end_keeps|]; apply keeps_ret; split; [apply Io|].
        assert (Z0 : no = 0%nat) by (revert B; destruct (opc op); reflexivity || discriminate).
        apply (loops_fit _ [] st (allocated st, new_args st) sorted_in); auto; [rewrite Z0; cbn; intros; lia|split; cbn; try contradiction; auto; apply Io].
      * apply then_keeps; [apply keeps_if; intros _; [apply free_clobbered_keeps, Io|now apply keeps_ret]|].
        apply then_keeps; [apply keeps_if; intros _; [apply sync_globals_keeps|now apply keeps_ret]|].
        eapply keeps_mono; [apply (keeps_fold _ (fun dn b => outs_ok (new_args st) dn b /\ forall j, In j dn -> (j < no)%nat) _ []); [|split; [exact Start|contradiction]]|]; cbn [app].
        -- intros dn b i I [Ob Dn]; apply sorted_out in I; eapply keeps_mono; [apply (oarg_keeps (new_args st) dn); auto; [rewrite (io_args _ _ Io); lia|]|].
           ++ intros j A; destruct (ialias_index j A) as (Lj & _ & _ & _ & _ & _ & Nc); destruct (nth j (const_args st) false) eqn:K.
              ** pose proof (io_const _ _ Io j (proj2 (sorted_in j) Lj) K) as X; rewrite Nc in X; discriminate.
              ** destruct (io_reg _ _ Io j (proj2 (sorted_in j) Lj) K); auto.
           ++ intros b' Ob'; split; [exact Ob'|]; intros j J; apply in_app_or in J as [J|[<-|[]]]; auto.
        -- intros b [Ob _]; split; [apply Ob|]; exact (loops_fit _ _ st b sorted_in sorted_out Io Ob).
    + intros [al new] (W & Fo & Us & Ac); apply then_keeps; [now apply keeps_emit|]; apply finish_oargs_keeps; [exact W|]; unfold oargs; now rewrite En.
Qed.
End Op.

(** ** The block *)

(** What an operation must have when its turn comes. *)
Record gen_wf (op : TCGOp) : Prop := {
  gw_length : (n_oargs op + n_iargs op + n_cargs op <= length (args op))%nat;
  gw_outs : Forall writable (oargs op);
  gw_ins : Forall (Z.le 0) (iargs op);
  gw_allowed : allowed (opc op) (cargs op);
  gw_discard : opc op = discard -> 0 <= arg op 0
}.

Lemma first_out op : gen_wf op -> (0 < n_oargs op)%nat -> writable (nth 0 (args op) 0).
Proof. intros [L F _ _ _] N; unfold oargs in F; destruct (args op); cbn [length] in L; [lia|]; destruct (n_oargs op); [lia|]; now inversion F. Qed.

Lemma gen_op_keeps l : gen_wf (the_op l) -> keeps (gen_op s cfg l) (fun _ => True).
Proof.
  intros G; set (op := the_op l) in *.
  assert (Op : opc op <> call -> keeps (if OPF_NOT_PRESENT (opc op) then abort else tcg_reg_alloc_op s cfg op (life l)) (fun _ => True)).
  { intros N; apply keeps_if; intros P; [apply keeps_abort|]; destruct G as [L F Fi Al _]; apply op_keeps; auto; unfold oargs, iargs, n_oargs, n_iargs, n_cargs in *; destruct (opc op); auto; congruence. }
  unfold gen_op; fold op; destruct (opc op) eqn:O; try (apply Op; congruence).
  - apply free_or_dead_keeps; [now apply G|lia].
  - apply then_keeps; [apply bb_end_keeps|now apply keeps_emit].
  - apply call_keeps; [rewrite <- O; apply G|apply G| |apply G]; unfold iargs, n_iargs; rewrite O, length_firstn; lia.
  - apply mov_keeps; [apply (first_out op G); unfold n_oargs; rewrite O; cbn; lia|].
    pose proof (gw_ins _ G) as Fi; pose proof (gw_length _ G) as L; unfold iargs, n_iargs, n_oargs, n_cargs in *; rewrite O in *; cbn in Fi, L.
    destruct (args op) as [|x [|y rest]]; cbn [length] in L; try lia; now inversion Fi.
  - apply movi_keeps, (first_out op G); unfold n_oargs; rewrite O; cbn; lia.
  - now apply keeps_ret.
Qed.

Definition start_fine (r : ra_state) : Prop := TCG_STATIC_CALL_ARGS_SIZE <= current_frame_offset r /\ forall t, host_reg (reg (temp r t)) /\
  fixed t = is_global s t && fixed_reg (temp r t) /\ (fixed t = false -> test_reg (reserved_regs cfg) (reg (temp r t)) = false) /\
  (fixed t = true -> reg (temp r t) = reg (context t)) /\ mem_coherent (temp r t) = false /\
  (mem_allocated (temp r t) = true -> fixed (mem_base (temp r t)) = true /\ place (reg (context (mem_base (temp r t)))) (mem_offset (temp r t))) /\
  (0 <= t -> fixed t = false -> is_global s t = true -> mem_allocated (temp r t) = true).

Lemma start_keeps r : start_fine r -> fine (tcg_reg_alloc_start s r).
Proof.
  intros [L H]; split; [|intros x t; discriminate|exact L]; intros t; destruct (H t) as (A & B & C & D & E & F & G); cbn; rewrite no_locals.
  destruct (is_global s t) eqn:Gl; cbn [andb] in B; split; cbn; auto; try congruence.
  - intros X; rewrite X in B; now rewrite <- B.
  - intros _ _ [X|X]; congruence.
Qed.

Lemma gen_code_keeps ops r : Forall (fun l => gen_wf (the_op l)) ops -> start_fine r ->
  match tcg_gen_code s cfg ops r with Some (_, code, _) => Forall fit code | None => True end.
Proof.
  intros F H; assert (K : keeps (for_each (gen_op s cfg) ops) (fun _ => True)) by (apply keeps_each; intros l I; apply gen_op_keeps; exact (proj1 (Forall_forall _ _) F l I)).
  unfold tcg_gen_code, bind, modify; specialize (K _ (start_keeps r H) I); destruct (for_each _ _ _) as [[[r' c] a]|]; auto; apply K.
Qed.

(** Liveness analysis leaves operations of this form. *)
Lemma keep_is st middle op st0 l : keep_op st middle op = (st0, Some l) -> the_op l = op.
Proof. unfold keep_op; destruct (out_args _ _ _ _); intros [= _ <-]; reflexivity. Qed.

Hypothesis narrow_allowed : allowed add_i32 [] /\ allowed sub_i32 [] /\ allowed mul_i32 [].

(** An operation on one word in place of one on two: its arguments are some of the others. *)
Lemma narrow_wf op o l k : gen_wf op -> (n_oargs op = 2 /\ 4 <= 2 + n_iargs op)%nat -> o = add_i32 \/ o = sub_i32 \/ o = mul_i32 -> (3 <= k < 2 + n_iargs op)%nat ->
  l = upd (upd (args op) 1 (nth 2 (args op) 0)) 2 (nth k (upd (args op) 1 (nth 2 (args op) 0)) 0) -> gen_wf (with_args op o l).
Proof.
  intros G [N2 N4] Ho Lk ->; pose proof (gw_length _ G) as L; pose proof (gw_outs _ G) as Fo; pose proof (gw_ins _ G) as Fi; unfold oargs, iargs in Fo, Fi; rewrite N2 in *.
  assert (In_ge : forall j, (2 <= j < 2 + n_iargs op)%nat -> 0 <= nth j (args op) 0).
  { intros j Lj; apply (proj1 (Forall_forall _ _) Fi); replace (nth j (args op) 0) with (nth (j - 2) (firstn (n_iargs op) (skipn 2 (args op))) 0); [apply nth_In; rewrite length_firstn, length_skipn; lia|].
    rewrite nth_firstn, nth_skipn, (proj2 (Nat.ltb_lt (j - 2) (n_iargs op))) by lia; f_equal; lia. }
  assert (D : n_oargs (with_args op o (args op)) = 1%nat /\ n_iargs (with_args op o (args op)) = 2%nat /\ n_cargs (with_args op o (args op)) = 0%nat) by (destruct Ho as [->|[->| ->]]; auto).
  destruct D as (D1 & D2 & D3); unfold n_oargs, n_iargs, n_cargs, with_args in D1, D2, D3; cbn [opc callo calli] in D1, D2, D3.
  pose proof (In_ge 2%nat ltac:(lia)) as I2; pose proof (In_ge k ltac:(lia)) as Ik; rewrite nth_upd_ne by lia.
  destruct (args op) as [|a0 [|a1 [|a2 rest]]]; cbn [length] in L; try lia; inversion_clear Fo; cbn [nth upd] in *.
  split; unfold oargs, iargs, n_oargs, n_iargs, n_cargs, with_args; cbn [opc args callo calli]; rewrite ?D1, ?D2, ?D3; cbn; auto; try lia.
  - destruct narrow_allowed as (A1 & A2 & A3); unfold cargs, n_cargs; cbn [opc]; rewrite D3; destruct Ho as [->|[->| ->]]; assumption.
  - destruct Ho as [->|[->| ->]]; discriminate.
Qed.

Lemma visit_wf st op st0 l : gen_wf op -> visit_live s st op = (st0, Some l) -> gen_wf (the_op l).
Proof.
  intros G; assert (K : forall st o st0 l op, gen_wf op -> do_not_remove s st o op = (st0, Some l) -> gen_wf (the_op l)) by (intros ? ? ? ? ? H E; apply keep_is in E; now rewrite E).
  assert (D : live_default s st op = (st0, Some l) -> gen_wf (the_op l)) by (unfold live_default; destruct (_ && _); [discriminate|now apply K]).
  unfold visit_live; destruct (opc op) eqn:O; auto.
  1: now intros [= _ <-].
  1: unfold live_call; destruct (_ && _); [discriminate|]; intros E; apply keep_is in E; now rewrite E.
  1,2: unfold live_addsub2; repeat (destruct (_ =? _)); try discriminate; apply K; auto; apply (narrow_wf op _ _ 4); unfold n_oargs, n_iargs; rewrite ?O; cbn; auto; lia.
  1,2: unfold live_mul2; rewrite andb_false_r; repeat (destruct (_ =? _)); try discriminate; apply K; auto; apply (narrow_wf op _ _ 3); unfold n_oargs, n_iargs; rewrite ?O; cbn; auto; lia.
  now intros [= _ <-].
Qed.

Lemma pass_wf ops : Forall gen_wf ops -> Forall (fun l => gen_wf (the_op l)) (snd (liveness_pass_1 s ops)).
Proof.
  induction 1 as [|op ops G F IH]; cbn [liveness_pass_1]; [constructor|]; destruct (liveness_pass_1 s ops) as [st out]; cbn [snd] in *.
  destruct (visit_live s st op) as [st0 [l|]] eqn:E; cbn [snd]; auto; constructor; auto; now apply (visit_wf st op st0).
Qed.
End Keep.
