(* ===== verification/TcgArmFits.v ===== *)
(** * The code of a block can be emitted

    The table of temporaries of a block is what the logic of TcgArmKeep.v
    starts from, so that all code of [tcg_gen_code] is fit for the emitters of
    the ARM back end. *)

From Stdlib Require Import ZArith Lia List Bool.
From S2P Require Import Prelude Bitops TcgIr TcgOpt TcgLife TcgLifeProof TcgRegAlloc TcgHostCode TcgArm TcgTemps TcgRegProof TcgRegOps TcgGenCode TcgArmGen ArmIsa TcgArmOut TcgArmOps TcgArmOp TcgArmKeep.
Import ListNotations.
Local Open Scope Z_scope.
Local Open Scope c_scope.

(** ** The table *)

Abbreviation blank := (alloc zero_entry).

(** No temporary is local, and those that are not globals are blank for the allocator. *)
Definition table_fine (c : temp_table) : Prop :=
  forall t, is_local (entry c t) = false /\ (t < 0 \/ Z.of_nat (globals_count c) <= t -> alloc (entry c t) = blank).

Definition is_entry (c : temp_table) (t : Z) : Prop := 0 <= t < Z.of_nat (globals_count c).

Lemma put_fine c t e : table_fine c -> is_local e = false -> is_entry c t \/ alloc e = blank -> table_fine (put_entry c t e).
Proof. intros H E L u; cbn; destruct (Z.eqb_spec u t) as [->|]; [|apply H]; split; auto; unfold is_entry in L; intros G; destruct L; auto; lia. Qed.

Lemma counts_fine c g n : table_fine c -> (globals_count c <= g)%nat -> table_fine (set_counts c g n).
Proof. intros H L t; destruct (H t) as [A B]; split; auto; cbn; intros G; apply B; lia. Qed.

Lemma temp_alloc_fine c c' t : table_fine c -> tcg_temp_alloc c = Some (c', t) -> table_fine c' /\ globals_count c' = globals_count c /\ t = Z.of_nat (temps_count c).
Proof.
  intros H; unfold tcg_temp_alloc; destruct (_ <? _)%nat; [|discriminate]; intros [= <- <-]; splits; auto.
  apply put_fine; [now apply counts_fine|reflexivity|now right].
Qed.

Lemma global_alloc_fine c c' t : table_fine c -> tcg_global_alloc c = Some (c', t) -> table_fine c' /\ is_entry c' t /\ (globals_count c <= globals_count c')%nat.
Proof.
  intros H; unfold tcg_global_alloc; destruct (Nat.eqb_spec (globals_count c) (temps_count c)) as [E|]; [|discriminate]; intros X.
  apply temp_alloc_fine in X as (A & B & ->); [|apply counts_fine; auto; lia]; unfold is_entry; rewrite B; cbn; splits; auto; lia.
Qed.

Lemma reg_new_fine c r c' t : table_fine c -> tcg_global_reg_new_internal c TCG_TYPE_I32 r = Some (c', t) -> table_fine c' /\ is_entry c' t.
Proof.
  intros H; unfold tcg_global_reg_new_internal; cbn [negb same_type type_code]; destruct (tcg_global_alloc c) as [[c1 t1]|] eqn:E; [|discriminate].
  apply global_alloc_fine in E as (F & L & _); auto; intros [= <- <-]; split; [apply (put_fine c1 t1 _ F); auto|exact L].
Qed.

Lemma mem_new_fine c ty base off c' t : table_fine c -> is_entry c base -> tcg_global_mem_new_internal c ty base off = Some (c', t) -> table_fine c' /\ is_entry c' base.
Proof.
  intros H B; unfold tcg_global_mem_new_internal; destruct (tcg_global_alloc c) as [[c1 t1]|] eqn:E; [|discriminate]; apply global_alloc_fine in E as (F & L & Le); auto.
  assert (B1 : is_entry c1 base) by (unfold is_entry in *; lia).
  set (step := if negb _ then _ else _); assert (S : forall c2, step = Some c2 -> table_fine c2 /\ globals_count c2 = globals_count c1).
  { unfold step; destruct (negb _); [|now intros c2 [= <-]]; destruct (indirect_reg _); [discriminate|]; intros c2 [= <-]; split; [|reflexivity].
    apply (put_fine c1 base); [exact F|exact (proj1 (F base))|now left]. }
  destruct step as [c2|]; [|discriminate]; destruct (S c2 eq_refl) as [F2 G2]; clear S; unfold is_entry in *.
  destruct ty; [intros [= <- <-]; split; [apply put_fine; auto; left; unfold is_entry; lia|cbn; lia]|].
  destruct (tcg_global_alloc c2) as [[c3 t3]|] eqn:E3; [|discriminate]; apply global_alloc_fine in E3 as (F3 & L3 & Le3); auto.
  destruct (_ =? _); [|discriminate]; intros [= <- <-]; split; [|cbn; lia]; apply put_fine; [apply put_fine|..]; auto; left; unfold is_entry in *; cbn; lia.
Qed.

Lemma mem_globals_fine offsetof base fields : forall c c', table_fine c -> is_entry c base -> mem_globals offsetof base fields c = Some c' -> table_fine c'.
Proof.
  induction fields as [|[ty f] fields IH]; intros c c' H B; cbn [mem_globals]; [now intros [= <-]|].
  destruct (tcg_global_mem_new_internal _ _ _ _) as [[c1 t]|] eqn:E; [|discriminate]; apply mem_new_fine in E as [F B1]; auto; now apply IH.
Qed.

Lemma arm_table_fine offsetof c : arm_table offsetof = Some c -> table_fine c.
Proof.
  unfold arm_table, arm_translate_init, tcg_global_reg_new_i32; change (test_reg (reserved initial_table) TCG_AREG0) with false; cbv iota.
  destruct (tcg_global_reg_new_internal initial_table _ _) as [[c0 t]|] eqn:E0; [|discriminate].
  apply reg_new_fine in E0 as [F0 B0]; [|intros u; split; reflexivity].
  destruct (mem_globals _ _ _ _) as [c1|] eqn:E1; [|discriminate]; apply mem_globals_fine in E1; auto; unfold prologue_frame, tcg_set_frame.
  destruct (tcg_global_reg_new_internal c1 _ _) as [[c2 t2]|] eqn:E2; [|discriminate]; intros [= <-].
  apply reg_new_fine in E2 as [F2 _]; auto.
Qed.

Lemma new_fine c ty c' t : table_fine c -> tcg_temp_new_internal c ty false = Some (c', t) -> table_fine c'.
Proof.
  intros H; assert (P : forall c t ty ty', table_fine c -> table_fine (put_entry c t (temp_entry_of ty ty' false))) by (intros; apply put_fine; auto).
  unfold tcg_temp_new_internal; destruct (find_first_bit _ _) as [u|].
  - set (c1 := put_entry _ _ _); assert (table_fine c1) by (intros v; cbn; destruct (Z.eqb_spec v u) as [->|]; apply H).
    destruct (_ && _); [now intros [= <- <-]|discriminate].
  - destruct (tcg_temp_alloc c) as [[c1 t1]|] eqn:E1; [|discriminate]; apply temp_alloc_fine in E1 as (F1 & _ & _); auto; destruct ty; [intros [= <- <-]; now apply P|].
    destruct (tcg_temp_alloc c1) as [[c2 t2]|] eqn:E2; [|discriminate]; apply temp_alloc_fine in E2 as (F2 & _ & _); auto.
    destruct (_ =? _); [intros [= <- <-]; now apply P, P|discriminate].
Qed.

Lemma temp_free_fine c t c' : table_fine c -> tcg_temp_free_internal c t = Some c' -> table_fine c'.
Proof.
  intros H; unfold tcg_temp_free_internal; destruct ((_ <=? _) && _); [|discriminate]; destruct (temp_allocated _); [|discriminate]; intros [= <-].
  intros v; cbn; destruct (Z.eqb_spec v t) as [->|]; apply H.
Qed.

Lemma temp_calls_fine calls : forall c live c' live', forallb is_plain calls = true -> table_fine c -> temp_calls calls (c, live) = Some (c', live') -> table_fine c'.
Proof.
  induction calls as [|[ty local|t] calls IH]; intros c live c' live' P H; cbn [temp_calls temp_step]; [now intros [= <- _]| |]; cbn [forallb is_plain] in P; apply andb_true_iff in P as [P1 P2].
  - apply negb_true_iff in P1; subst local; destruct (tcg_temp_new_internal _ _ _) as [[c1 t]|] eqn:E; [|discriminate]; apply IH; auto; now apply new_fine in E.
  - destruct (existsb _ _); [|discriminate]; destruct (tcg_temp_free_internal _ _) as [c1|] eqn:E; [|discriminate]; apply IH; auto; now apply temp_free_fine in E.
Qed.

Lemma block_table_fine offsetof calls c live : block_table offsetof calls = Some (c, live) -> forallb is_plain calls = true -> table_fine c.
Proof.
  unfold block_table; destruct (arm_table offsetof) as [c0|] eqn:E; [|discriminate]; intros X P; revert X; apply temp_calls_fine; auto; intros t.
  exact (arm_table_fine _ _ E t).
Qed.

(** ** The theorem *)

(** The words of the CPU state that are globals, and the frame. *)
Definition arm_place (offsetof : env_field -> Z) (base off : Z) : Prop :=
  base = TCG_AREG0 /\ In off (env_words offsetof) \/
  base = TCG_REG_CALL_STACK /\ 0 <= off /\ off + 4 <= TCG_STATIC_CALL_ARGS_SIZE + CPU_TEMP_BUF_NLONGS * 4 /\ off mod 4 = 0.

(** What the table says of temporary [t]. *)
Lemma entry_cases offsetof c t : plain_table offsetof c -> table_fine c -> let a := alloc (entry c t) in
  is_fixed (opt_view c) (fun t => alloc (entry c t)) t = true /\ is_global (opt_view c) t = true /\ (t = 0 /\ a = fixed_temp TCG_AREG0 \/ t = 28 /\ a = fixed_temp TCG_REG_CALL_STACK) \/
  is_fixed (opt_view c) (fun t => alloc (entry c t)) t = false /\ ((exists off, In off (env_words offsetof) /\ a = env_temp off) \/ a = blank /\ (0 <= t -> is_global (opt_view c) t = false)).
Proof.
  intros [[C1 C2] Pe Pw Pf _ _] H a; destruct (H t) as [_ B]; unfold is_fixed, is_global; cbn [nb_globals opt_view]; rewrite C1 in *; fold a in B |- *; change (Z.of_nat 29) with 29 in *.
  destruct (Z.ltb_spec t 29) as [L|L]; cbn [andb]; [|now right; auto 6].
  destruct (Z.ltb_spec t 0) as [L0|L0]; [right; rewrite B by lia; split; auto; right; split; auto; lia|].
  destruct (global_cases t ltac:(lia)) as [->|[->|(i & Li & ->)]]; [left; unfold a; rewrite Pe; auto|left; unfold a; rewrite Pf; auto|right].
  unfold a; rewrite Pw by exact Li; split; auto; left; exists (nth i (env_words offsetof) 0); split; [apply nth_In; exact Li|reflexivity].
Qed.

Lemma block_start offsetof calls c live owners : block_table offsetof calls = Some (c, live) -> forallb is_plain calls = true ->
  start_fine (opt_view c) (config_view c) (fun t => alloc (entry c t)) (arm_place offsetof) (ra_view c owners).
Proof.
  intros E P; pose proof (block_table_plain offsetof calls c live E P) as Pt; pose proof (block_table_fine offsetof calls c live E P) as Tf.
  destruct (pt_config _ _ Pt) as [Pc Po]; split; [cbn; rewrite Po; lia|]; intros t; cbn [temp ra_view].
  assert (R0 : test_reg (reserved_regs (config_view c)) 0 = false) by now rewrite Pc.
  assert (H0 : host_reg 0) by (split; [unfold gpr; lia|discriminate]).
  assert (Fx0 : is_fixed (opt_view c) (fun t => alloc (entry c t)) 0 = true) by (unfold is_fixed, is_global; cbn; rewrite (proj1 (pt_globals _ _ Pt)), (pt_env _ _ Pt); reflexivity).
  destruct (entry_cases offsetof c t Pt Tf) as [(Fx & Gl & Cs)|(Fx & Cs)]; rewrite Fx.
  - assert (A : exists x, (x = TCG_AREG0 \/ x = TCG_REG_CALL_STACK) /\ alloc (entry c t) = fixed_temp x) by (destruct Cs as [[_ A]|[_ A]]; eauto); destruct A as (x & X & ->); rewrite Gl; cbn.
    split; [destruct X as [->| ->]; split; [unfold gpr, TCG_AREG0; lia|discriminate|unfold gpr, TCG_REG_CALL_STACK; lia|discriminate]|].
    split; [reflexivity|split; [discriminate|split; [reflexivity|split; [reflexivity|split; discriminate]]]].
  - assert (N : forall a, reg a = 0 -> fixed_reg a = false -> mem_coherent a = false ->
      (mem_allocated a = true -> mem_base a = 0 /\ In (mem_offset a) (env_words offsetof)) -> (0 <= t -> is_global (opt_view c) t = true -> mem_allocated a = true) ->
      host_reg (reg a) /\ false = is_global (opt_view c) t && fixed_reg a /\ (false = false -> test_reg (reserved_regs (config_view c)) (reg a) = false) /\
      (false = true -> reg a = reg (alloc (entry c t))) /\ mem_coherent a = false /\
      (mem_allocated a = true -> is_fixed (opt_view c) (fun t => alloc (entry c t)) (mem_base a) = true /\ arm_place offsetof (reg (alloc (entry c (mem_base a)))) (mem_offset a)) /\
      (0 <= t -> false = false -> is_global (opt_view c) t = true -> mem_allocated a = true)).
    { intros a A1 A2 A3 A4 A5; rewrite A1, A2, andb_false_r; split; [exact H0|]; split; [reflexivity|]; split; [intros _; exact R0|]; split; [discriminate|]; split; [exact A3|]; split; [|intros T _; exact (A5 T)].
      intros M; destruct (A4 M) as [-> I]; split; [exact Fx0|]; rewrite (pt_env _ _ Pt); left; split; [reflexivity|exact I]. }
    apply N; destruct Cs as [(off & I & ->)|[-> G]]; try reflexivity; cbn; [intros _; split; [reflexivity|exact I]|discriminate|]; intros T X; rewrite G in X by exact T; discriminate.
Qed.

Lemma block_code_fits (offsetof : env_field -> Z) (calls : list temp_call) (c : temp_table) (live : list handle)
    {W : Type} {host : TcgHost W (nb_globals (opt_view c))} (allowed : TCGOpcode -> list Z -> Prop) (owners : Z -> option Z) (ops : list TCGOp) r code :
  let s := opt_view c in
  block_table offsetof calls = Some (c, live) -> forallb is_plain calls = true ->
  Forall (live_wf s) ops -> Forall (alloc_wf s (fun t => alloc (entry c t))) ops ->
  allowed add_i32 [] /\ allowed sub_i32 [] /\ allowed mul_i32 [] -> Forall (fun op => allowed (opc op) (cargs op)) ops ->
  tcg_gen_code s (config_view c) (snd (liveness_pass_1 s ops)) (ra_view c owners) = Some (r, code, tt) ->
  Forall (fit (config_view c) (arm_place offsetof) allowed) code.
Proof.
  intros s Eb P Lw Aw Na Al E; set (context := fun t => alloc (entry c t)) in *.
  pose proof (block_table_plain offsetof calls c live Eb P) as Pt; pose proof (block_table_fine offsetof calls c live Eb P) as Tf; destruct (pt_config _ _ Pt) as [Pc Po].
  assert (Ft : (nb_temps s <= TCG_MAX_TEMPS)%nat) by exact (proj2 (proj2 (pt_globals _ _ Pt))).
  assert (Fg : (nb_globals s <= nb_temps s)%nat) by (cbn; pose proof (pt_globals _ _ Pt); lia).
  assert (G : Forall (gen_wf s context allowed) ops).
  { clear - Lw Aw Al Ft Fg; induction Lw as [|op ops L _ IH]; inversion_clear Aw as [|? ? A]; inversion_clear Al; constructor; auto; split; [apply L| | |assumption|].
    - apply Forall_forall; intros t I; split; [apply (proj1 (Forall_forall _ _) (lw_outs _ _ L) t I)|now apply (aw_outs _ _ _ A)].
    - apply Forall_forall; intros t I; destruct (proj1 (Forall_forall _ _) (lw_ins _ _ L) t I) as [[X _]|[_ ->]]; [exact X|unfold TCG_CALL_DUMMY_ARG; lia].
    - intros O; apply (discard_temp s Ft Fg op L O). }
  pose proof (gen_code_keeps s (config_view c) context (arm_place offsetof) allowed) as K; rewrite Pc in K at 1; specialize (K eq_refl).
  assert (Fr : is_fixed s context (frame_temp (config_view c)) = true /\ reg (context (frame_temp (config_view c))) = TCG_REG_CALL_STACK).
  { rewrite Pc; cbn [frame_temp arm_config]; unfold context, is_fixed, is_global, s; cbn [nb_globals opt_view]; rewrite (pt_frame _ _ Pt), (proj1 (pt_globals _ _ Pt)); split; reflexivity. }
  specialize (K (fun t => proj1 (Tf t)) Fr).
  specialize (K ltac:(rewrite Pc; intros off L1 L2 L3; right; cbn in L2; auto)).
  specialize (K ltac:(rewrite Pc; vm_compute; discriminate) (snd (liveness_pass_1 s ops)) (ra_view c owners)).
  rewrite E in K; apply K; [now apply pass_wf|exact (block_start offsetof calls c live owners Eb P)].
Qed.

(** The operations of the block with their constants; the liveness analysis
    turns double-word sums and products into single ones. *)
Definition of_block (ops : list TCGOp) (o : TCGOpcode) (consts : list Z) : Prop :=
  In o [add_i32; sub_i32; mul_i32] /\ consts = [] \/ exists op, In op ops /\ opc op = o /\ cargs op = consts.

(** C3: what the register allocator emits is what the ARM back end can take: for every
    block as in tcg_gen_code_correct, each instruction of the host code is an operation
    that is present on the host, with operands that meet its constraints (the hypothesis
    of tcg_out_op_correct) and the constants of an operation of the block, writes no
    reserved register (the stack pointer, the program counter, the scratch register, the
    register of a global), and loads and stores temporaries only at the words of globals
    in the CPU state and, word-aligned, inside the frame of the prologue. *)
Theorem gen_code_fits (offsetof : env_field -> Z) (calls : list temp_call) (c : temp_table) (live : list handle)
    (W : Type) (host : TcgHost W (nb_globals (opt_view c))) (flags : HelperFlags W (nb_globals (opt_view c)) host)
    (owners : Z -> option Z) (ops : list TCGOp) :
  let s := opt_view c in
  let context := fun t => alloc (entry c t) in
  NoDup (env_words offsetof) -> block_table offsetof calls = Some (c, live) -> forallb is_plain calls = true ->
  (temps_count c <= globals_count c + 128)%nat ->
  Forall (live_wf s) ops -> Forall (alloc_wf s context) ops -> defined_first s nothing_known ops = true ->
  exists r code, tcg_gen_code s (config_view c) (snd (liveness_pass_1 s ops)) (ra_view c owners) = Some (r, code, tt) /\
    Forall (fit (config_view c) (arm_place offsetof) (of_block ops)) code.
Proof.
  intros s context Nd Eb Pl Lt Lw Aw Df.
  destruct (block_code_runs offsetof calls c live W host flags (fun _ _ => 0) owners ops Nd Eb Pl Lt Lw Aw Df) as (r & code & E & _); fold s in E.
  exists r, code; split; [exact E|]; apply (block_code_fits offsetof calls c live (of_block ops) owners ops r code Eb Pl Lw Aw); auto.
  - splits; left; split; cbn; auto.
  - apply Forall_forall; intros op I; right; eauto.
Qed.

(** The demonstration block of TcgArmGen.v. *)
Lemma gen_code_fits_witness :
  exists r code, tcg_gen_code (opt_view demo_table) (config_view demo_table) (snd (liveness_pass_1 (opt_view demo_table) demo_block)) (ra_view demo_table (fun _ => None)) =
    Some (r, code, tt) /\ Forall (fit (config_view demo_table) (arm_place demo_layout) (of_block demo_block)) code.
Proof.
  apply (gen_code_fits demo_layout demo_calls demo_table (snd (match block_table demo_layout demo_calls with Some x => x | None => (initial_table, []) end)) Z demo_host demo_flags (fun _ => None) demo_block).
  - apply nodup_z_ok; vm_compute; reflexivity.
  - unfold demo_table; destruct (block_table demo_layout demo_calls) as [[c l]|] eqn:E; [reflexivity|vm_compute in E; discriminate].
  - reflexivity.
  - vm_compute; lia.
  - exact demo_block_live.
  - exact demo_block_alloc.
  - vm_compute; reflexivity.
Defined.
