(* ===== verification/ArmRun.v ===== *)
(** * Running ARM code

    The processor with its program counter, after the ARM Architecture
    Reference Manual: branches, calls, the reading of the program counter and
    of words beside the code, the saving of registers on the stack.  All
    other words run as ArmIsa.v says.  Code and data are kept apart: the
    emitted code does not write itself. *)

From Stdlib Require Import ZArith Lia List Bool.
From S2P Require Import Prelude Bitops ArmIsa.
Import ListNotations.
Local Open Scope Z_scope.
Local Open Scope c_scope.

(** [thumb] when the other instruction set is to be run. *)
Record machine := mkMachine { core : cpu; pc : Z; thumb : bool }.

(** Instructions that read or write the program counter, and stack frames. *)
Inductive jump :=
| B (off : Z)
| BL (off : Z)
| BLXi (off : Z)
| BX (rm : Z)
| BLX (rm : Z)
| MovPc (rm : Z)
| AddPc (rd imm12 : Z)
| LdrPc (off : Z)
| Push (regs : Z)
| Pop (regs : Z).

Definition imm24 (w : Z) : Z := 4 * swrap 24 (bits w 0 24).

Definition decode_jump (w : Z) : option jump :=
  if bits w 28 4 =? 15 then if bits w 25 3 =? 5 then Some (BLXi (imm24 w + 2 * bits w 24 1)) else None
  else if bits w 24 4 =? 10 then Some (B (imm24 w))
  else if bits w 24 4 =? 11 then Some (BL (imm24 w))
  else if bits w 4 24 =? 0x12fff1 then Some (BX (bits w 0 4))
  else if bits w 4 24 =? 0x12fff3 then Some (BLX (bits w 0 4))
  else if bits w 4 24 =? 0x1a0f00 then Some (MovPc (bits w 0 4))
  else if bits w 16 12 =? 0x28f then Some (AddPc (bits w 12 4) (bits w 0 12))
  else if bits w 12 16 =? 0x51ff then Some (LdrPc (- bits w 0 12))
  else if bits w 16 12 =? 0x92d then Some (Push (bits w 0 16))
  else if bits w 16 12 =? 0x8bd then Some (Pop (bits w 0 16))
  else None.

(** [BXWritePC]: bit 0 selects the instruction set. *)
Definition go_to (c : cpu) (a : Z) : option machine :=
  if Z.testbit a 0 then Some (mkMachine c (a - 1) true)
  else if a mod 4 =? 0 then Some (mkMachine c a false) else None.

Definition stack_regs (regs : Z) : list Z := filter (fun x => Z.testbit regs x) (map Z.of_nat (seq 0 16)).

Fixpoint push_words (c : cpu) (m : Z -> Z) (a : Z) (xs : list Z) : Z -> Z :=
  match xs with
  | [] => m
  | x :: xs => push_words c (store_bytes m 32 a (greg c x)) (u32 (a + 4)) xs
  end.

Fixpoint pop_words (c : cpu) (a : Z) (xs : list Z) : cpu :=
  match xs with
  | [] => c
  | x :: xs => pop_words (set_greg c x (load c 32 a)) (u32 (a + 4)) xs
  end.

Section Run.
Variable arch : arm_arch.
(** Version 5T: BLX, and loads of the program counter that change the instruction set. *)
Variable v5t : bool.
(** The words of the code. *)
Variable code : Z -> Z.

Definition do_jump (j : jump) (c : cpu) (at_pc : Z) : option machine :=
  let next := u32 (at_pc + 4) in
  let here := at_pc + 8 in
  let linked := set_greg c 14 next in
  match j with
  | B off => Some (mkMachine c (u32 (here + off)) false)
  | BL off => Some (mkMachine linked (u32 (here + off)) false)
  | BLXi off => if v5t then Some (mkMachine linked (u32 (here + off)) true) else None
  | BX rm => if rm =? 15 then None else go_to c (greg c rm)
  | BLX rm => if v5t && negb (rm =? 15) then go_to linked (greg c rm) else None
  | MovPc rm => if negb (rm =? 15) && (greg c rm mod 4 =? 0) then Some (mkMachine c (greg c rm) false) else None
  | AddPc rd imm12 => if rd =? 15 then None else Some (mkMachine (set_greg c rd (u32 (here + expand_imm imm12))) next false)
  | LdrPc off =>
      let a := code (u32 (here + off)) in
      if v5t then go_to c a else if a mod 4 =? 0 then Some (mkMachine c a false) else None
  | Push regs =>
      let xs := stack_regs regs in
      let sp := u32 (greg c 13 - 4 * Z.of_nat (length xs)) in
      if Z.testbit regs 13 || Z.testbit regs 15 || negb (greg c 13 mod 4 =? 0) then None
      else Some (mkMachine (set_greg (set_bytes c (push_words c (bytes c) sp xs)) 13 sp) next false)
  | Pop regs =>
      let xs := stack_regs regs in
      if Z.testbit regs 13 || negb (greg c 13 mod 4 =? 0) then None
      else
        let c' := pop_words c (greg c 13) (filter (fun x => negb (x =? 15)) xs) in
        let sp := u32 (greg c 13 + 4 * Z.of_nat (length xs)) in
        let c' := set_greg c' 13 sp in
        if Z.testbit regs 15 then
          let a := load c 32 (u32 (sp - 4)) in
          if v5t then go_to c' a else if a mod 4 =? 0 then Some (mkMachine c' a false) else None
        else Some (mkMachine c' next false)
  end.

(** What ArmIsa.v cannot run is a jump: it has no instruction that uses the
    program counter, unless the condition fails. *)
Definition step_at (m : machine) : option machine :=
  let w := code (pc m) in
  let c := core m in
  if thumb m then None
  else
    match step arch w c with
    | Some c' => Some (mkMachine c' (u32 (pc m + 4)) false)
    | None =>
        let? j := decode_jump w in
        let? b := (if bits w 28 4 =? 15 then Some true else cond_passed (bits w 28 4) c) in
        if b then do_jump j c (pc m) else Some (mkMachine c (u32 (pc m + 4)) false)
    end.

Fixpoint run_machine (n : nat) (m : machine) : option machine :=
  match n with
  | O => Some m
  | S n => let? m := step_at m in run_machine n m
  end.

Definition reaches (m m' : machine) : Prop := exists n, run_machine n m = Some m'.

Lemma run_machine_app n n' m : run_machine (n + n') m = let? m := run_machine n m in run_machine n' m.
Proof. revert m; induction n as [|n IH]; intros m; cbn; [reflexivity|]; destruct (step_at m); auto. Qed.

Lemma reaches_refl m : reaches m m.
Proof. now exists O. Qed.

Lemma reaches_trans m1 m2 m3 : reaches m1 m2 -> reaches m2 m3 -> reaches m1 m3.
Proof. intros [n E] [n' E']; exists (n + n')%nat; now rewrite run_machine_app, E. Qed.

Lemma reaches_step m m' : step_at m = Some m' -> reaches m m'.
Proof. intros E; exists 1%nat; cbn; now rewrite E. Qed.

(** A word that ArmIsa.v can run. *)
Lemma reaches_word c a c' : step arch (code a) c = Some c' -> reaches (mkMachine c a false) (mkMachine c' (u32 (a + 4)) false).
Proof. intros E; apply reaches_step; unfold step_at; cbn; now rewrite E. Qed.

(** Words one after the other. *)
Lemma reaches_words ws : forall a c c', run_words arch ws c = Some c' -> (forall k, (k < length ws)%nat -> code (u32 (a + 4 * Z.of_nat k)) = nth k ws 0) ->
  inU 32 a -> reaches (mkMachine c a false) (mkMachine c' (u32 (a + 4 * Z.of_nat (length ws))) false).
Proof.
  induction ws as [|w ws IH]; intros a c c' E H Ha; cbn [run_words length] in *; [injection E as <-; rewrite Z.add_0_r, wrap_id by exact Ha; apply reaches_refl|].
  pose proof (H 0%nat ltac:(lia)) as H0; rewrite Z.add_0_r, wrap_id in H0 by exact Ha; cbn [nth] in H0; destruct (step arch w c) as [c1|] eqn:Es; [|discriminate].
  eapply reaches_trans; [apply reaches_word; rewrite H0; exact Es|].
  replace (u32 (a + 4 * Z.of_nat (S (length ws)))) with (u32 (u32 (a + 4) + 4 * Z.of_nat (length ws))) by (unfold wrap; rewrite Zplus_mod_idemp_l; f_equal; lia).
  apply IH; [exact E| |apply wrap_range; lia]; intros k L; specialize (H (S k) ltac:(lia)); cbn [nth] in H; rewrite <- H; f_equal; unfold wrap; rewrite Zplus_mod_idemp_l; f_equal; lia.
Qed.
End Run.
