(* ===== verification/TcgArmBranch.v ===== *)
(** * Branches and calls of the ARM back end

    The emitters of tcg/arm/tcg-target.inc.c whose words depend on the place
    they are put: branches to labels with their relocations, the ways out of
    a block, calls, and the prologue.  The code buffer is the function
    [code_at] from addresses to words. *)

From Stdlib Require Import ZArith Lia List Bool.
From S2P Require Import Prelude Bitops TcgIr TcgRegAlloc TcgArm TcgTemps ArmIsa TcgArmOut.
Import ListNotations.
Local Open Scope Z_scope.
Local Open Scope c_scope.

(** [u.first_reloc] are the words to patch; all relocations are R_ARM_PC24 with addend 0. *)
Record TCGLabel := mkLabel { has_value : bool; value_ptr : Z; first_reloc : list Z }.

Record buffer := mkBuffer {
  code_at : Z -> Z;
  code_ptr : Z;
  labels : Z -> TCGLabel;
  tb_jmp_insn_offset : Z -> Z;
  tb_jmp_reset_offset : Z -> Z
}.

Definition put_at {A} (f : Z -> A) (a : Z) (v : A) : Z -> A := fun b => if b =? a then v else f b.

(** ** State and failure *)

Definition emitter := buffer -> option buffer.

Definition put32 (b : buffer) (v : Z) : buffer :=
  mkBuffer (put_at (code_at b) (code_ptr b) v) (code_ptr b + 4) (labels b) (tb_jmp_insn_offset b) (tb_jmp_reset_offset b).
Definition set_code (b : buffer) (f : Z -> Z) : buffer := mkBuffer f (code_ptr b) (labels b) (tb_jmp_insn_offset b) (tb_jmp_reset_offset b).
Definition set_label_at (b : buffer) (l : Z) (x : TCGLabel) : buffer :=
  mkBuffer (code_at b) (code_ptr b) (put_at (labels b) l x) (tb_jmp_insn_offset b) (tb_jmp_reset_offset b).

Definition out_words (o : out) : emitter := fun b => let? ws := o in Some (fold_left put32 ws b).
Definition then_out (x y : emitter) : emitter := fun b => let? b := x b in y b.

Declare Scope emit_scope.
Delimit Scope emit_scope with emit.
Notation "x >>> y" := (then_out x y) (at level 61, right associativity) : emit_scope.
Local Open Scope emit_scope.

(** ** Branches *)

Definition b_word (cond offset : Z) : Z := (cond .<< 28) .| 0x0a000000 .| (((offset - 8) .>> 2) .& 0x00ffffff).
Definition tcg_out_b (cond offset : Z) : out := tcg_out32 (b_word cond offset).
Definition tcg_out_bl (cond offset : Z) : out := tcg_out32 ((cond .<< 28) .| 0x0b000000 .| (((offset - 8) .>> 2) .& 0x00ffffff)).
Definition tcg_out_bx (cond rn : Z) : out := tcg_out32 ((cond .<< 28) .| 0x012fff10 .| rn).
Definition tcg_out_blx (cond rn : Z) : out := tcg_out32 ((cond .<< 28) .| 0x012fff30 .| rn).
Definition tcg_out_blx_imm (offset : Z) : out :=
  tcg_out32 (0xfa000000 .| ((offset .& 2) .<< 23) .| (((offset - 8) .>> 2) .& 0x00ffffff)).

(** The target bits that are in the buffer stay. *)
Definition tcg_out_b_noaddr (cond : Z) : emitter :=
  fun b => out_words (tcg_out32 (deposit32 (code_at b (code_ptr b)) 24 8 ((cond .<< 4) .| 0x0a))) b.

Definition reloc_pc24 (code : Z -> Z) (ptr target : Z) : Z -> Z :=
  let offset := (s32 (target - ptr) - 8) .>> 2 in
  put_at code ptr (u32 ((code ptr .& Z.lnot 0xffffff) .| (offset .& 0xffffff))).

Definition patch_reloc (code : Z -> Z) (ptr value : Z) : Z -> Z := reloc_pc24 code ptr value.

Definition tcg_out_reloc (b : buffer) (ptr l : Z) : buffer :=
  let x := labels b l in
  if has_value x then set_code b (patch_reloc (code_at b) ptr (value_ptr x))
  else set_label_at b l (mkLabel false (value_ptr x) (ptr :: first_reloc x)).

Definition tcg_out_label (l ptr : Z) : emitter :=
  fun b =>
    let x := labels b l in
    if has_value x then None
    else
      let code := fold_left (fun code r => patch_reloc code r ptr) (first_reloc x) (code_at b) in
      Some (set_label_at (set_code b code) l (mkLabel true ptr [])).

Section Host.
Variable host : arm_host.
Variable use_armv5t_instructions : bool.
(** The end of the prologue, where blocks return to. *)
Variable tb_ret_addr : Z.
(** The start of the code of the block. *)
Variable code_buf : Z.

Definition tcg_pcrel_diff (b : buffer) (addr : Z) : Z := s32 (addr - code_ptr b).

Definition tcg_out_goto (cond addr : Z) : emitter :=
  fun b =>
    let disp := tcg_pcrel_diff b addr in
    if (addr .& 1 =? 0) && (disp - 8 <? 0x01fffffd) && (-0x01fffffd <? disp - 8) then out_words (tcg_out_b cond disp) b
    else
      (out_words (tcg_out_movi32 host cond TCG_REG_TMP addr) >>>
       if use_armv5t_instructions then out_words (tcg_out_bx cond TCG_REG_TMP)
       else if truthy (addr .& 1) then fun _ => None
       else out_words (tcg_out_mov_reg cond TCG_REG_PC TCG_REG_TMP)) b.

Definition TCG_REG_R14 : Z := 14.

Definition tcg_out_call (addr : Z) : emitter :=
  fun b =>
    let disp := tcg_pcrel_diff b addr in
    if (disp - 8 <? 0x02000000) && (-0x02000000 <=? disp - 8) then
      if truthy (addr .& 1) then
        if negb use_armv5t_instructions then None else out_words (tcg_out_blx_imm disp) b
      else out_words (tcg_out_bl COND_AL disp) b
    else if use_armv7_instructions host then
      (out_words (tcg_out_movi32 host COND_AL TCG_REG_TMP addr) >>> out_words (tcg_out_blx COND_AL TCG_REG_TMP)) b
    else
      (out_words (tcg_out_dat_imm COND_AL ARITH_ADD TCG_REG_R14 TCG_REG_PC 4) >>>
       out_words (tcg_out_ld32_12 COND_AL TCG_REG_PC TCG_REG_PC (-4)) >>>
       out_words (tcg_out32 addr)) b.

Definition tcg_out_goto_label (cond l : Z) : emitter :=
  fun b =>
    let x := labels b l in
    if has_value x then tcg_out_goto cond (value_ptr x) b
    else tcg_out_b_noaddr cond (tcg_out_reloc b (code_ptr b) l).

Definition tcg_current_code_size (b : buffer) : Z := code_ptr b - code_buf.

(** With the direct jump method. *)
Definition out_goto_tb (n : Z) : emitter :=
  fun b =>
    let b := mkBuffer (code_at b) (code_ptr b) (labels b) (put_at (tb_jmp_insn_offset b) n (tcg_current_code_size b)) (tb_jmp_reset_offset b) in
    let? b := tcg_out_b_noaddr COND_AL b in
    Some (mkBuffer (code_at b) (code_ptr b) (labels b) (tb_jmp_insn_offset b) (put_at (tb_jmp_reset_offset b) n (tcg_current_code_size b))).

(** All of [tcg_out_op]. *)
Definition tcg_out_op_at (opc : TCGOpcode) (args : list Z) (const_args : list bool) : emitter :=
  let a i := nth i args 0 in
  let k i := nth i const_args false in
  match opc with
  | exit_tb => out_words (tcg_out_movi32 host COND_AL TCG_REG_R0 (a 0%nat)) >>> tcg_out_goto COND_AL tb_ret_addr
  | goto_tb => out_goto_tb (a 0%nat)
  | br => tcg_out_goto_label COND_AL (a 0%nat)
  | brcond_i32 =>
      out_words (tcg_out_dat_rIN COND_AL ARITH_CMP ARITH_CMN 0 (a 0%nat) (a 1%nat) (k 1%nat)) >>>
      tcg_out_goto_label (tcg_cond_to_arm_cond (a 2%nat)) (a 3%nat)
  | brcond2_i32 =>
      out_words (tcg_out_dat_rIN COND_AL ARITH_CMP ARITH_CMN 0 (a 1%nat) (a 3%nat) (k 3%nat)) >>>
      out_words (tcg_out_dat_rIN COND_EQ ARITH_CMP ARITH_CMN 0 (a 0%nat) (a 2%nat) (k 2%nat)) >>>
      tcg_out_goto_label (tcg_cond_to_arm_cond (a 4%nat)) (a 5%nat)
  | _ => out_words (tcg_out_op host opc args const_args)
  end.

(** ** The instructions of the register allocator *)

Definition tcg_out_ld (arg arg1 arg2 : Z) : out := tcg_out_ld32u host COND_AL arg arg1 arg2.
Definition tcg_out_st (arg arg1 arg2 : Z) : out := tcg_out_st32 host COND_AL arg arg1 arg2.
Definition tcg_out_mov (ret arg : Z) : out := tcg_out_dat_reg COND_AL ARITH_MOV ret 0 arg (SHIFT_IMM_LSL 0).
Definition tcg_out_movi (ret arg : Z) : out := tcg_out_movi32 host COND_AL ret arg.

Definition out_insn (i : hinsn) : emitter :=
  match i with
  | Imov x y => out_words (tcg_out_mov x y)
  | Imovi x v => out_words (tcg_out_movi x v)
  | Ild x base off => out_words (tcg_out_ld x base off)
  | Ist x base off => out_words (tcg_out_st x base off)
  | Iop o new_args const_args => tcg_out_op_at o new_args const_args
  | Icall consts _ => tcg_out_call (nth 0 consts 0)
  | Ilabel l => fun b => tcg_out_label l (code_ptr b) b
  end.

Fixpoint out_code (code : list hinsn) : emitter :=
  match code with
  | [] => fun b => Some b
  | i :: code => out_insn i >>> out_code code
  end.

(** ** Prologue *)

Definition PUSH_SIZE : Z := (11 - 4 + 1 + 1) * 4.
Definition FRAME_SIZE : Z :=
  (PUSH_SIZE + TCG_STATIC_CALL_ARGS_SIZE + CPU_TEMP_BUF_NLONGS * 4 + TCG_TARGET_STACK_ALIGN - 1) .& (- TCG_TARGET_STACK_ALIGN).
Definition stack_addend : Z := FRAME_SIZE - PUSH_SIZE.

(** Up to the jump into a block, and from [tb_ret_addr] on. *)
Definition prologue_out : out :=
  (tcg_out32 ((COND_AL .<< 28) .| 0x092d4ff0) ;;
   tcg_out_dat_rI COND_AL ARITH_SUB TCG_REG_CALL_STACK TCG_REG_CALL_STACK stack_addend true ;;
   tcg_out_mov TCG_AREG0 (nth 0 call_iarg_regs 0) ;;
   tcg_out_bx COND_AL (nth 1 call_iarg_regs 0))%out.
Definition epilogue_out : out :=
  (tcg_out_dat_rI COND_AL ARITH_ADD TCG_REG_CALL_STACK TCG_REG_CALL_STACK stack_addend true ;;
   tcg_out32 ((COND_AL .<< 28) .| 0x08bd8ff0))%out.

Definition tcg_target_qemu_prologue (b : buffer) : option (buffer * Z) :=
  let? b := out_words prologue_out b in
  let ret_addr := code_ptr b in
  let? b := out_words epilogue_out b in
  Some (b, ret_addr).

End Host.
