(* ===== verification/TcgArmJump.v ===== *)
(** * Branch words of the ARM back end

    Where the emitted branches and calls lead when they are run. *)

From Stdlib Require Import ZArith Lia List Bool.
From S2P Require Import Prelude Bitops BitRoute TcgIr TcgRegAlloc TcgArm TcgTemps ArmIsa ArmRun TcgArmOut TcgArmWords TcgArmOps TcgArmMovi TcgArmOp TcgArmBits TcgArmExact TcgArmBranch.
Import ListNotations.
Local Open Scope Z_scope.
Local Open Scope c_scope.
Local Open Scope emit_scope.

(** ** Words *)

Lemma decode_branch cond link n : inU 4 cond -> inU 1 link -> inU 24 n -> cond <> 15 ->
  let w := u32 ((cond .<< 28) .| (0x0a000000 .| (link .<< 24)) .| n) in
  decode w = None /\ bits w 28 4 = cond /\ decode_jump w = Some (if link =? 0 then B (4 * swrap 24 n) else BL (4 * swrap 24 n)).
Proof.
  intros Hc Hl Hn N w; assert (E : bits w 28 4 = cond) by (unfold bits, w; route); splits; auto.
  - unfold decode; field w 25 3 5; reflexivity.
  - unfold decode_jump, imm24; rewrite E; destruct (Z.eqb_spec cond 15); [lia|]; replace (bits w 24 4) with (10 .| link) by (unfold bits, w; route); field w 0 24 n.
    unfold inU in Hl; assert (link = 0 \/ link = 1) as [->| ->] by lia; reflexivity.
Qed.

Lemma decode_bx cond (link : bool) rn : inU 4 cond -> inU 4 rn -> cond <> 15 ->
  let w := u32 ((cond .<< 28) .| (if link then 0x012fff30 else 0x012fff10) .| rn) in
  decode w = None /\ bits w 28 4 = cond /\ decode_jump w = Some (if link then BLX rn else BX rn).
Proof.
  intros Hc Hn N w; subst w; destruct link; set (w := wrap 32 _); (assert (E : bits w 28 4 = cond) by (unfold bits, w; route)); splits; auto.
  all: try (unfold decode, bit_set; field w 25 3 0; field w 4 1 1; field w 7 1 0; cbn [Z.eqb negb andb]; unfold decode_dp_reg, bit_set; field w 21 4 9; field w 20 1 0; reflexivity).
  all: unfold decode_jump; rewrite E; destruct (Z.eqb_spec cond 15); [lia|]; field w 24 4 1; field w 0 4 rn;
    (field w 4 24 0x12fff3 || field w 4 24 0x12fff1); reflexivity.
Qed.

Lemma decode_blx_imm h n : inU 1 h -> inU 24 n -> let w := u32 (0xfa000000 .| (h .<< 24) .| n) in
  decode w = None /\ bits w 28 4 = 15 /\ decode_jump w = Some (BLXi (4 * swrap 24 n + 2 * h)).
Proof.
  intros Hh Hn w; assert (E : bits w 28 4 = 15) by (unfold bits, w; route); splits; auto; [unfold decode; field w 25 3 5; reflexivity|].
  unfold decode_jump, imm24; rewrite E; cbn [Z.eqb Pos.eqb]; field w 25 3 5; field w 0 24 n; field w 24 1 h; reflexivity.
Qed.

(** The field of a distance holds it. *)
Lemma branch_field off : off mod 4 = 0 -> - 2 ^ 25 <= off - 8 < 2 ^ 25 -> 4 * swrap 24 (((off - 8) .>> 2) .& 0x00ffffff) = off - 8.
Proof.
  intros M R; rewrite Z.shiftr_div_pow2 by lia; change (2 ^ 2) with 4; assert (D : 4 * ((off - 8) / 4) = off - 8).
  { pose proof (Z.div_mod (off - 8) 4); assert ((off - 8) mod 4 = 0) by (rewrite Zminus_mod, M; reflexivity); lia. }
  change 0x00ffffff with (Z.ones 24); rewrite Z.land_ones by lia; fold (wrap 24 ((off - 8) / 4)); rewrite swrap_wrap by lia; rewrite swrap_id; [exact D|lia|unfold inS; lia].
Qed.

Lemma field_u24 n : inU 24 (n .& 0x00ffffff).
Proof. change 0x00ffffff with (Z.ones 24); rewrite Z.land_ones by lia; apply wrap_range; lia. Qed.

(** ** Words in the buffer *)

Definition holds_words (code : Z -> Z) (a : Z) (ws : list Z) : Prop := forall k, (k < length ws)%nat -> code (a + 4 * Z.of_nat k) = nth k ws 0.

Lemma put32_fold ws : forall b, let b' := fold_left put32 ws b in
  code_ptr b' = code_ptr b + 4 * Z.of_nat (length ws) /\ labels b' = labels b /\ holds_words (code_at b') (code_ptr b) ws /\
  (forall a, a < code_ptr b \/ code_ptr b + 4 * Z.of_nat (length ws) <= a -> code_at b' a = code_at b a).
Proof.
  induction ws as [|w ws IH]; intros b; cbn [fold_left length].
  - splits; auto; [lia|intros k L; cbn in L; lia].
  - destruct (IH (put32 b w)) as (A & L & H & O); cbn [code_ptr put32 labels code_at] in A, L, H, O; splits; auto; [rewrite A; lia| |].
    + intros k Lk; destruct k as [|k]; cbn [nth length] in *; [|rewrite <- (H k) by lia; f_equal; lia].
      rewrite O by lia; unfold put_at; replace (code_ptr b + 4 * Z.of_nat 0) with (code_ptr b) by lia; now rewrite Z.eqb_refl.
    + intros a Ha; rewrite O by lia; unfold put_at; destruct (Z.eqb_spec a (code_ptr b)); auto; lia.
Qed.

Lemma out_words_app x y b : (out_words x >>> out_words y) b = out_words (x ;; y)%out b.
Proof.
  unfold then_out, out_words, andthen; destruct x as [ws|]; [|reflexivity]; destruct y as [ws'|]; [|reflexivity]; now rewrite fold_left_app.
Qed.

Lemma holds_app code a ws ws' : holds_words code a (ws ++ ws') <-> holds_words code a ws /\ holds_words code (a + 4 * Z.of_nat (length ws)) ws'.
Proof.
  split; [intros H; split; intros k L|intros [H H'] k L].
  - rewrite H by (rewrite length_app; lia); now apply app_nth1.
  - replace (a + 4 * Z.of_nat (length ws) + 4 * Z.of_nat k) with (a + 4 * Z.of_nat (length ws + k)) by lia; rewrite H by (rewrite length_app; lia); now rewrite app_nth2_plus.
  - rewrite length_app in L; destruct (Nat.ltb_spec k (length ws)); [rewrite app_nth1 by lia; now apply H|].
    rewrite app_nth2 by lia; rewrite <- H' by lia; f_equal; lia.
Qed.

(** ** Running them *)

Section Run.
Variable arch : arm_arch.
Variable v5t : bool.
Variable code : Z -> Z.
Abbreviation reaches := (ArmRun.reaches arch v5t code).

Lemma reaches_out o a c (Q : cpu -> Prop) ws : outs arch o c Q -> o = Some ws -> holds_words code a ws -> 0 <= a -> a + 4 * Z.of_nat (length ws) < 2 ^ 32 ->
  exists c', Q c' /\ reaches (mkMachine c a false) (mkMachine c' (a + 4 * Z.of_nat (length ws)) false).
Proof.
  intros (ws' & c' & E & R & H) E' W La Lb; rewrite E in E'; injection E' as ->; exists c'; split; [exact H|].
  rewrite <- (wrap_id 32 (a + 4 * Z.of_nat (length ws))) by (unfold inU; lia); apply reaches_words; [exact R| |unfold inU; lia].
  intros k L; rewrite wrap_id by (unfold inU; lia); now apply W.
Qed.

Lemma reaches_jump a c j cond b m : decode (code a) = None -> decode_jump (code a) = Some j -> bits (code a) 28 4 = cond -> cond <> 15 -> cond_passed cond c = Some b ->
  (if b then do_jump v5t code j c a else Some (mkMachine c (u32 (a + 4)) false)) = Some m -> reaches (mkMachine c a false) m.
Proof.
  intros D J C N P E; apply reaches_step; unfold step_at, step; cbn [thumb core pc]; rewrite D, J, C, P; now destruct (Z.eqb_spec cond 15).
Qed.

Lemma cond_not_15 cond c b : cond_passed cond c = Some b -> cond <> 15.
Proof. intros P ->; discriminate. Qed.

(** A branch over [off] bytes. *)
Lemma reaches_b a c cond off b : code a = u32 (b_word cond off) -> cond_passed cond c = Some b -> off mod 4 = 0 -> - 2 ^ 25 <= off - 8 < 2 ^ 25 ->
  reaches (mkMachine c a false) (mkMachine c (u32 (a + if b then off else 4)) false).
Proof.
  intros E P M R; pose proof (cond_u4 _ _ _ P) as Hc; pose proof (cond_not_15 _ _ _ P) as N.
  destruct (decode_branch cond 0 (((off - 8) .>> 2) .& 0x00ffffff) Hc ltac:(unfold inU; lia) (field_u24 _) N) as (D1 & D2 & D3).
  change (0x0a000000 .| (0 .<< 24)) with 0x0a000000 in *; fold (b_word cond off) in *; rewrite <- E in *.
  eapply reaches_jump; [exact D1|exact D3|exact D2|exact N|exact P|]; cbn [Z.eqb]; rewrite branch_field by assumption; destruct b; [|reflexivity].
  cbn [do_jump]; do 3 f_equal; lia.
Qed.
End Run.

(** Where an address leads: the other instruction set has odd addresses. *)
Definition target (c : cpu) (addr : Z) : machine := mkMachine c (addr - addr mod 2) (Z.testbit addr 0).
Definition is_target (v5t : bool) (addr : Z) : Prop := inU 32 addr /\ (addr mod 4 = 0 \/ Z.testbit addr 0 = true /\ v5t = true).

Lemma odd_land addr : truthy (addr .& 1) = Z.testbit addr 0.
Proof. unfold truthy; change 1 with (Z.ones 1); rewrite Z.land_ones by lia; rewrite Z.bit0_eqb; change (2 ^ 1) with 2; pose proof (Z.mod_pos_bound addr 2); destruct (Z.eqb_spec (addr mod 2) 0), (Z.eqb_spec (addr mod 2) 1); auto; lia. Qed.

Lemma testbit_0 addr : Z.testbit addr 0 = (addr mod 2 =? 1).
Proof. now rewrite Z.bit0_eqb. Qed.

Lemma go_to_target v5t c addr : is_target v5t addr -> go_to c addr = Some (target c addr).
Proof.
  intros [R [M|[T _]]]; unfold go_to, target.
  - assert (E : addr mod 2 = 0) by (replace (addr mod 2) with ((addr mod 4) mod 2) by (apply (Z.mod_mod_divide addr 4 2); exists 2; reflexivity); now rewrite M).
    rewrite testbit_0, E, M; cbn; now rewrite Z.sub_0_r.
  - rewrite T; pose proof T as T'; rewrite testbit_0 in T'; apply Z.eqb_eq in T'; now rewrite T'.
Qed.

(** ** Far and near *)

Section Goto.
Variables (host : arm_host) (arch : arm_arch) (v5t : bool).
Hypothesis fits : host_fits host arch.

(** Only the scratch register has changed. *)
Definition kept (c c' : cpu) : Prop := (forall x, x <> TCG_REG_TMP -> greg c' x = greg c x) /\ bytes c' = bytes c.

(** The words of [tcg_out_goto] at address [a]. *)
Definition goto_out (a cond addr : Z) : out :=
  let disp := s32 (addr - a) in
  if (addr .& 1 =? 0) && (disp - 8 <? 0x01fffffd) && (-0x01fffffd <? disp - 8) then tcg_out_b cond disp
  else
    (tcg_out_movi32 host cond TCG_REG_TMP addr ;;
     if v5t then tcg_out_bx cond TCG_REG_TMP else if truthy (addr .& 1) then None else tcg_out_mov_reg cond TCG_REG_PC TCG_REG_TMP)%out.

Lemma goto_is_out cond addr b : tcg_out_goto host v5t cond addr b = out_words (goto_out (code_ptr b) cond addr) b.
Proof.
  unfold tcg_out_goto, goto_out, tcg_pcrel_diff; destruct (_ && _ && _); [reflexivity|]; rewrite <- out_words_app.
  destruct v5t; [reflexivity|]; destruct (truthy _); [|reflexivity]; unfold then_out; destruct (out_words _ b); reflexivity.
Qed.

Lemma disp_back a addr : inU 32 addr -> u32 (a + s32 (addr - a)) = addr.
Proof. intros H; unfold wrap; rewrite <- Zplus_mod_idemp_r; fold (wrap 32 (s32 (addr - a))); rewrite wrap_swrap by lia; unfold wrap; rewrite Zplus_mod_idemp_r; replace (a + (addr - a)) with addr by lia; now apply Z.mod_small. Qed.

Lemma disp_mod a addr : a mod 4 = 0 -> addr mod 4 = 0 -> s32 (addr - a) mod 4 = 0.
Proof.
  intros Ha Hd; assert (E : u32 (s32 (addr - a)) = u32 (addr - a)) by (apply wrap_swrap; lia); unfold wrap in E.
  replace (s32 (addr - a) mod 4) with ((s32 (addr - a) mod 2 ^ 32) mod 4) by (apply (Z.mod_mod_divide _ (2 ^ 32) 4); exists (2 ^ 30); reflexivity).
  rewrite E; replace ((addr - a) mod 2 ^ 32 mod 4) with ((addr - a) mod 4) by (symmetry; apply (Z.mod_mod_divide _ (2 ^ 32) 4); exists (2 ^ 30); reflexivity).
  now rewrite Zminus_mod, Hd, Ha.
Qed.

(** MOV of the program counter. *)
Lemma decode_mov_pc cond rm : inU 4 cond -> inU 4 rm -> cond <> 15 ->
  let w := u32 ((cond .<< 28) .| (0 .<< 25) .| ARITH_MOV .| (0 .<< 16) .| (TCG_REG_PC .<< 12) .| SHIFT_IMM_LSL 0 .| rm) in
  decode w = Some (Dp 13 false 15 0 (OpShift rm 0 0)) /\ bits w 28 4 = cond /\ decode_jump w = Some (MovPc rm).
Proof.
  intros Hc Hm N w; unfold ARITH_MOV, TCG_REG_PC, SHIFT_IMM_LSL in w.
  assert (E : bits w 28 4 = cond) by (unfold bits, w; route); splits; auto.
  - unfold decode, bit_set; field w 25 3 0; field w 4 1 0; cbn [Z.eqb negb andb]; unfold decode_dp_reg, bit_set; field w 0 4 rm; field w 5 2 0; field w 21 4 13; field w 20 1 0;
      field w 12 4 15; field w 16 4 0; field w 4 1 0; field w 7 5 0; reflexivity.
  - unfold decode_jump; rewrite E; destruct (Z.eqb_spec cond 15); [lia|]; field w 24 4 1; field w 4 24 0x1a0f00; field w 0 4 rm; reflexivity.
Qed.

Lemma mov_pc_step code a cond rm c : code a = u32 ((cond .<< 28) .| (0 .<< 25) .| ARITH_MOV .| (0 .<< 16) .| (TCG_REG_PC .<< 12) .| SHIFT_IMM_LSL 0 .| rm) -> gpr rm ->
  cond_passed cond c = Some true -> greg c rm mod 4 = 0 -> ArmRun.reaches arch v5t code (mkMachine c a false) (mkMachine c (greg c rm) false).
Proof.
  intros E Hm P M; destruct (decode_mov_pc cond rm (cond_u4 _ _ _ P) (gpr_u4 _ Hm) (cond_not_15 _ _ _ P)) as (D1 & D2 & D3); rewrite <- E in D1, D2, D3.
  apply reaches_step; unfold step_at, step; cbn [thumb core pc]; rewrite D1, D2, P; cbn [exec no_pc forallb Z.eqb Pos.eqb negb andb]; rewrite D3.
  destruct (Z.eqb_spec cond 15) as [->|]; [discriminate P|]; cbn [do_jump]; rewrite (gpr_not_pc rm Hm), M; reflexivity.
Qed.

(** The jump is made. *)
Lemma goto_reaches code a cond addr c : is_target v5t addr -> 0 <= a -> a mod 4 = 0 -> cond_passed cond c = Some true ->
  exists ws, goto_out a cond addr = Some ws /\
    (holds_words code a ws -> a + 4 * Z.of_nat (length ws) < 2 ^ 32 -> exists c', kept c c' /\ ArmRun.reaches arch v5t code (mkMachine c a false) (target c' addr)).
Proof.
  intros [R T] La Ma P; unfold goto_out; destruct (_ && _ && _) eqn:Near.
  - rewrite !andb_true_iff, !Z.ltb_lt in Near; destruct Near as [[Ev N1] N2]; apply Z.eqb_eq in Ev.
    assert (M : addr mod 4 = 0) by (destruct T as [M|[O _]]; auto; rewrite <- odd_land in O; unfold truthy in O; rewrite Ev in O; discriminate).
    eexists; split; [reflexivity|]; intros H L; specialize (H 0%nat ltac:(cbn; lia)); cbn [nth] in H; rewrite Z.add_0_r in H.
    exists c; split; [split; auto|]; pose proof (reaches_b arch v5t code a c cond _ true H P (disp_mod a addr Ma M) ltac:(lia)) as X; cbv iota in X; rewrite disp_back in X by exact R.
    unfold target; assert (E2 : addr mod 2 = 0) by (change 1 with (Z.ones 1) in Ev; rewrite Z.land_ones in Ev by lia; exact Ev); rewrite testbit_0, E2, Z.sub_0_r; exact X.
  - clear Near; destruct fits as [V6 V7]; pose proof (movi32_outs arch host V7 cond TCG_REG_TMP addr c gpr_tmp P) as Mv.
    assert (Last : exists w, (if v5t then tcg_out_bx cond TCG_REG_TMP else if truthy (addr .& 1) then None else tcg_out_mov_reg cond TCG_REG_PC TCG_REG_TMP) = Some [w] /\
      forall a c1, writes c TCG_REG_TMP (u32 addr) c1 -> code a = w -> ArmRun.reaches arch v5t code (mkMachine c1 a false) (target c1 addr)).
    { destruct v5t eqn:V; rewrite ?odd_land.
      - eexists; split; [reflexivity|]; intros a1 c1 Wr E; destruct (decode_bx cond false TCG_REG_TMP (cond_u4 _ _ _ P) (gpr_u4 _ gpr_tmp) (cond_not_15 _ _ _ P)) as (D1 & D2 & D3); rewrite <- E in *.
        eapply reaches_jump; [exact D1|exact D3|exact D2|exact (cond_not_15 _ _ _ P)|rewrite (cond_flags cond c c1) by apply Wr; exact P|].
        cbn [do_jump]; rewrite (w_reg _ _ _ _ Wr), wrap_id by exact R; apply (go_to_target true); now split.
      - destruct T as [M|[_ X]]; [|discriminate]; assert (Ev : Z.testbit addr 0 = false).
        { rewrite testbit_0; replace (addr mod 2) with ((addr mod 4) mod 2) by (apply (Z.mod_mod_divide addr 4 2); exists 2; reflexivity); now rewrite M. }
        rewrite Ev; eexists; split; [reflexivity|]; intros a1 c1 Wr E.
        assert (Eg : greg c1 TCG_REG_TMP = addr) by (rewrite (w_reg _ _ _ _ Wr); now apply wrap_id).
        pose proof (mov_pc_step code a1 cond TCG_REG_TMP c1 E gpr_tmp ltac:(rewrite (cond_flags cond c c1) by apply Wr; exact P) ltac:(rewrite Eg; exact M)) as X; rewrite Eg in X.
        unfold target; rewrite Ev; rewrite testbit_0 in Ev; apply Z.eqb_neq in Ev; pose proof (Z.mod_pos_bound addr 2); replace (addr - addr mod 2) with addr by lia; rewrite V in X; exact X. }
    destruct Last as (w & -> & Last); destruct Mv as (ws & c1 & Ew & Rw & Wr); rewrite Ew; eexists; split; [reflexivity|]; intros H L; apply holds_app in H as [H1 H2]; rewrite length_app in L; cbn [length] in L.
    exists c1; split; [split; [apply (w_other _ _ _ _ Wr)|apply Wr]|].
    destruct (reaches_out arch v5t code (Some ws) a c (eq c1) ws) as (c2 & <- & R1); auto; [exists ws, c1; auto|lia|].
    eapply reaches_trans; [exact R1|]; apply Last; [exact Wr|]; specialize (H2 0%nat ltac:(cbn; lia)); rewrite Z.add_0_r in H2; exact H2.
Qed.

(** ** Calls *)

(** Only the scratch and the link register have changed. *)
Definition called (a : Z) (c c' : cpu) : Prop := greg c' 14 = a /\ (forall x, x <> TCG_REG_TMP -> x <> 14 -> greg c' x = greg c x) /\ bytes c' = bytes c.

Lemma called_link a c c1 : kept c c1 -> called a c (set_greg c1 14 a).
Proof. intros [A B]; split; [apply greg_set_eq|]; split; [intros x N1 N2; rewrite greg_set_ne by exact N2; auto|exact B]. Qed.

Lemma kept_refl c : kept c c.
Proof. split; auto. Qed.

Lemma even_target addr : is_target v5t addr -> Z.testbit addr 0 = false -> addr mod 4 = 0 /\ forall c, target c addr = mkMachine c addr false.
Proof.
  intros [R [M|[T _]]] E; [|congruence]; split; [exact M|]; intros c; unfold target; rewrite E; rewrite testbit_0 in E; apply Z.eqb_neq in E.
  pose proof (Z.mod_pos_bound addr 2); f_equal; lia.
Qed.

Lemma bl_step code a addr c : is_target v5t addr -> Z.testbit addr 0 = false -> a mod 4 = 0 -> let disp := s32 (addr - a) in - 2 ^ 25 <= disp - 8 < 2 ^ 25 ->
  code a = u32 ((COND_AL .<< 28) .| 0x0b000000 .| (((disp - 8) .>> 2) .& 0x00ffffff)) ->
  ArmRun.reaches arch v5t code (mkMachine c a false) (target (set_greg c 14 (u32 (a + 4))) addr).
Proof.
  intros T E Ma disp L H; destruct (even_target addr T E) as [M Tg]; destruct (decode_branch COND_AL 1 (((disp - 8) .>> 2) .& 0x00ffffff)) as (D1 & D2 & D3);
    [unfold inU, COND_AL; lia|unfold inU; lia|apply field_u24|discriminate|].
  change (0x0a000000 .| (1 .<< 24)) with 0x0b000000 in *; rewrite <- H in *; rewrite Tg.
  eapply (reaches_jump arch v5t code a c _ COND_AL true); [exact D1|exact D3|exact D2|discriminate|reflexivity|]; cbn [Z.eqb do_jump]; rewrite branch_field by (auto; now apply disp_mod).
  do 2 f_equal; replace (a + 8 + (disp - 8)) with (a + disp) by lia; apply disp_back, T.
Qed.

Lemma blx_imm_step code a addr c : Z.testbit addr 0 = true -> inU 32 addr -> v5t = true -> a mod 4 = 0 -> let disp := s32 (addr - a) in - 2 ^ 25 <= disp - 8 < 2 ^ 25 ->
  code a = u32 (0xfa000000 .| ((disp .& 2) .<< 23) .| (((disp - 8) .>> 2) .& 0x00ffffff)) ->
  ArmRun.reaches arch v5t code (mkMachine c a false) (target (set_greg c 14 (u32 (a + 4))) addr).
Proof.
  intros T R V Ma disp L H; set (h := (disp / 2) mod 2); set (n := ((disp - 8) .>> 2) .& 0x00ffffff) in *.
  assert (Eh : (disp .& 2) .<< 23 = h .<< 24).
  { apply Z.bits_inj'; intros i Hi; rewrite !Z.shiftl_spec, Z.land_spec by lia; change 2 with (2 ^ 1); rewrite Z.pow2_bits_eqb by lia; unfold h; change 2 with (2 ^ 1) at 2.
    destruct (Z.eqb_spec 1 (i - 23)) as [Ei|Ni].
    - replace (i - 23) with 1 by lia; replace (i - 24) with 0 by lia; rewrite andb_true_r, Z.bit0_eqb, Z.mod_mod, Z.testbit_eqb by lia; reflexivity.
    - rewrite andb_false_r; destruct (Z.ltb_spec (i - 24) 0); [now rewrite Z.testbit_neg_r by lia|]; rewrite Z.mod_pow2_bits_high by lia; reflexivity. }
  rewrite Eh in H; assert (Hh : inU 1 h) by (unfold inU, h; change (2 ^ 1) with 2; apply Z.mod_pos_bound; lia).
  destruct (decode_blx_imm h n Hh (field_u24 _)) as (D1 & D2 & D3); rewrite <- H in *.
  apply reaches_step; unfold step_at, step; cbn [thumb core pc]; rewrite D1, D3, D2; cbn [Z.eqb Pos.eqb do_jump]; rewrite V; unfold target; rewrite T; do 2 f_equal.
  rewrite testbit_0 in T; apply Z.eqb_eq in T; rewrite T.
  assert (Od : disp mod 2 = 1).
  { assert (E : u32 disp = u32 (addr - a)) by (apply wrap_swrap; lia); unfold wrap in E.
    replace (disp mod 2) with ((disp mod 2 ^ 32) mod 2) by (apply (Z.mod_mod_divide _ (2 ^ 32) 2); exists (2 ^ 31); reflexivity); rewrite E.
    replace ((addr - a) mod 2 ^ 32 mod 2) with ((addr - a) mod 2) by (symmetry; apply (Z.mod_mod_divide _ (2 ^ 32) 2); exists (2 ^ 31); reflexivity).
    rewrite Zminus_mod, T; replace (a mod 2) with ((a mod 4) mod 2) by (apply (Z.mod_mod_divide a 4 2); exists 2; reflexivity); now rewrite Ma. }
  set (q := 4 * (disp / 4)); assert (Eq : disp = q + 2 * h + 1).
  { unfold q, h; pose proof (Z.div_mod disp 2 ltac:(lia)) as E1; pose proof (Z.div_mod (disp / 2) 2 ltac:(lia)) as E2; rewrite Z.div_div in E2 by lia; change (2 * 2) with 4 in E2; lia. }
  assert (En : 4 * swrap 24 n = q - 8).
  { unfold n; replace ((disp - 8) .>> 2) with ((q - 8) .>> 2); [apply branch_field; unfold q; [rewrite Z.mul_comm; apply Z_mod_mult|]|].
    - fold q; unfold inU in Hh; change (2 ^ 1) with 2 in Hh; lia.
    - rewrite !Z.shiftr_div_pow2 by lia; change (2 ^ 2) with 4; unfold q; replace (4 * (disp / 4) - 8) with ((disp / 4 - 2) * 4) by lia; rewrite Z.div_mul by lia.
      replace (disp - 8) with (disp + (-2) * 4) by lia; rewrite Z.div_add by lia; lia. }
  rewrite En; replace (a + 8 + (q - 8 + 2 * h)) with (a + disp - 1) by lia.
  pose proof (disp_back a addr R) as X; fold disp in X; unfold wrap in *; rewrite <- X; unfold inU in R.
  rewrite <- (Zminus_mod_idemp_l (a + disp) 1), X; rewrite Z.mod_small; [reflexivity|]; pose proof (Z.mod_pos_bound addr 2); pose proof (Z.div_mod addr 2); lia.
Qed.

(** Through the scratch register. *)
Lemma blx_reaches code a addr c ws : is_target v5t addr -> v5t = true -> (tcg_out_movi32 host COND_AL TCG_REG_TMP addr ;; tcg_out_blx COND_AL TCG_REG_TMP)%out = Some ws ->
  holds_words code a ws -> 0 <= a -> a + 4 * Z.of_nat (length ws) < 2 ^ 32 ->
  exists c', called (a + 4 * Z.of_nat (length ws)) c c' /\ ArmRun.reaches arch v5t code (mkMachine c a false) (target c' addr).
Proof.
  intros T V E H La L; destruct fits as [V6 V7]; destruct (movi32_outs arch host V7 COND_AL TCG_REG_TMP addr c gpr_tmp eq_refl) as (wm & c1 & Em & Rm & Wr).
  unfold andthen in E; rewrite Em in E; injection E as <-; apply holds_app in H as [H1 H2]; rewrite length_app in *; cbn [length] in *.
  destruct (reaches_out arch v5t code (Some wm) a c (eq c1) wm) as (c2 & <- & R1); auto; [exists wm, c1; auto|lia|].
  specialize (H2 0%nat ltac:(cbn; lia)); rewrite Z.add_0_r in H2; cbn [nth] in H2; set (a1 := a + 4 * Z.of_nat (length wm)) in *.
  destruct (decode_bx COND_AL true TCG_REG_TMP ltac:(unfold inU, COND_AL; lia) (gpr_u4 _ gpr_tmp) ltac:(discriminate)) as (D1 & D2 & D3).
  exists (set_greg c1 14 (u32 (a1 + 4))); split.
  - replace (a + 4 * Z.of_nat (length wm + 1)) with (u32 (a1 + 4)) by (unfold a1 in *; rewrite wrap_id; [lia|unfold inU; lia]); apply called_link; split; [apply (w_other _ _ _ _ Wr)|apply Wr].
  - eapply reaches_trans; [exact R1|]; eapply (reaches_jump arch v5t code a1 c1 _ COND_AL true); [rewrite H2; exact D1|rewrite H2; exact D3|rewrite H2; exact D2|discriminate|reflexivity|].
    cbn [do_jump]; rewrite V; change (TCG_REG_TMP =? 15) with false; cbn [negb andb]; rewrite (w_reg _ _ _ _ Wr), (wrap_id 32 addr) by apply T; now apply (go_to_target v5t).
Qed.

(** Before version 7: the address is a word after the code. *)
Lemma literal_reaches code a addr c : is_target v5t addr -> holds_words code a [0xe28fe004; 0xe51ff004; addr] -> 0 <= a -> a + 12 < 2 ^ 32 ->
  exists c', called (a + 12) c c' /\ ArmRun.reaches arch v5t code (mkMachine c a false) (target c' addr).
Proof.
  intros T H La L; pose proof (H 0%nat ltac:(cbn; lia)) as H0; pose proof (H 1%nat ltac:(cbn; lia)) as H1; pose proof (H 2%nat ltac:(cbn; lia)) as H2.
  cbn [nth] in H0, H1, H2; rewrite Z.add_0_r in H0; change (4 * Z.of_nat 1) with 4 in H1; change (4 * Z.of_nat 2) with 8 in H2.
  set (c1 := set_greg c 14 (a + 12)); exists c1; split; [apply called_link, kept_refl|].
  eapply (reaches_trans arch v5t code _ (mkMachine c1 (a + 4) false)).
  - apply reaches_step; unfold step_at, step; cbn [thumb core pc]; rewrite H0; change (decode 0xe28fe004) with (Some (Dp 4 false 14 15 (OpImm 4))).
    change (bits 0xe28fe004 28 4) with 14; cbn [cond_passed exec no_pc forallb Z.eqb Pos.eqb negb andb]; change (decode_jump 0xe28fe004) with (Some (AddPc 14 4)).
    cbn [do_jump Z.eqb Pos.eqb]; change (expand_imm 4) with 4; rewrite !wrap_id by (unfold inU; lia); unfold c1; do 3 f_equal; lia.
  - apply reaches_step; unfold step_at, step; cbn [thumb core pc]; rewrite H1; change (decode 0xe51ff004) with (Some (Load 32 false 15 15 false (OffImm 4))).
    change (bits 0xe51ff004 28 4) with 14; cbn [cond_passed exec no_pc forallb Z.eqb Pos.eqb negb andb]; change (decode_jump 0xe51ff004) with (Some (LdrPc (-4))).
    cbn [do_jump]; replace (u32 (a + 4 + 8 + -4)) with (a + 8) by (rewrite wrap_id; [lia|unfold inU; lia]); rewrite H2.
    pose proof (go_to_target v5t c1 addr T) as G; destruct (Z.testbit addr 0) eqn:Od.
    + destruct T as [R [M|[_ X]]]; [|rewrite X; exact G]; rewrite testbit_0 in Od; apply Z.eqb_eq in Od.
      assert (addr mod 2 = (addr mod 4) mod 2) by (symmetry; apply (Z.mod_mod_divide addr 4 2); exists 2; reflexivity); rewrite M in *; cbn in *; lia.
    + destruct (even_target addr T Od) as [M Tg]; rewrite Tg in *; destruct v5t; [exact G|rewrite M; reflexivity].
Qed.

(** The words of [tcg_out_call] at address [a]. *)
Definition call_out (a addr : Z) : out :=
  let disp := s32 (addr - a) in
  if (disp - 8 <? 0x02000000) && (-0x02000000 <=? disp - 8) then
    if truthy (addr .& 1) then if negb v5t then None else tcg_out_blx_imm disp else tcg_out_bl COND_AL disp
  else if use_armv7_instructions host then (tcg_out_movi32 host COND_AL TCG_REG_TMP addr ;; tcg_out_blx COND_AL TCG_REG_TMP)%out
  else (tcg_out_dat_imm COND_AL ARITH_ADD TCG_REG_R14 TCG_REG_PC 4 ;; tcg_out_ld32_12 COND_AL TCG_REG_PC TCG_REG_PC (-4) ;; tcg_out32 addr)%out.

Lemma call_is_out addr b : tcg_out_call host v5t addr b = out_words (call_out (code_ptr b) addr) b.
Proof.
  unfold tcg_out_call, call_out, tcg_pcrel_diff; destruct (_ && _); [destruct (truthy _); [now destruct v5t|reflexivity]|]; destruct (use_armv7_instructions host); [apply out_words_app|].
  now rewrite <- out_words_app; unfold then_out; destruct (out_words _ b); [rewrite <- out_words_app|].
Qed.

Lemma call_reaches code a addr c : is_target v5t addr -> (use_armv7_instructions host = true -> v5t = true) -> 0 <= a -> a mod 4 = 0 ->
  exists ws, call_out a addr = Some ws /\
    (holds_words code a ws -> a + 4 * Z.of_nat (length ws) < 2 ^ 32 ->
     exists c', called (a + 4 * Z.of_nat (length ws)) c c' /\ ArmRun.reaches arch v5t code (mkMachine c a false) (target c' addr)).
Proof.
  intros T V7 La Ma; unfold call_out; set (disp := s32 (addr - a)).
  assert (Link : a + 4 * Z.of_nat 1 < 2 ^ 32 -> called (a + 4 * Z.of_nat 1) c (set_greg c 14 (u32 (a + 4)))).
  { intros L; replace (a + 4 * Z.of_nat 1) with (u32 (a + 4)) by (rewrite wrap_id; [lia|unfold inU; lia]); apply called_link, kept_refl. }
  destruct ((disp - 8 <? 0x02000000) && (-0x02000000 <=? disp - 8)) eqn:Near.
  - apply andb_true_iff in Near as [N1 N2]; apply Z.ltb_lt in N1; apply Z.leb_le in N2; rewrite odd_land; destruct (Z.testbit addr 0) eqn:Od.
    + assert (V : v5t = true) by (destruct T as [_ [M|[_ V]]]; auto; rewrite testbit_0 in Od; apply Z.eqb_eq in Od; exfalso;
        assert (addr mod 2 = (addr mod 4) mod 2) by (symmetry; apply (Z.mod_mod_divide addr 4 2); exists 2; reflexivity); rewrite M in *; cbn in *; lia).
      replace (negb v5t) with false by (now rewrite V); eexists; split; [reflexivity|]; intros H Lm; cbn [length] in *; specialize (H 0%nat ltac:(cbn; lia)); rewrite Z.add_0_r in H.
      exists (set_greg c 14 (u32 (a + 4))); split; [now apply Link|]; apply blx_imm_step; [exact Od|apply T|exact V|exact Ma|fold disp; lia|exact H].
    + eexists; split; [reflexivity|]; intros H Lm; cbn [length] in *; specialize (H 0%nat ltac:(cbn; lia)); rewrite Z.add_0_r in H.
      exists (set_greg c 14 (u32 (a + 4))); split; [now apply Link|]; apply bl_step; [exact T|exact Od|exact Ma|fold disp; lia|exact H].
  - destruct (use_armv7_instructions host) eqn:H7.
    + destruct fits as [F6 F7]; destruct (movi32_outs arch host F7 COND_AL TCG_REG_TMP addr c gpr_tmp eq_refl) as (wm & c1 & Em & _).
      set (o := andthen _ _); assert (Eo : exists ws, o = Some ws) by (unfold o, andthen; rewrite Em; eexists; reflexivity); destruct Eo as [ws Eo].
      exists ws; split; [exact Eo|]; intros H L; now apply (blx_reaches code a addr c ws); auto.
    + eexists; split; [reflexivity|]; intros H L; cbn [app length] in *; change (4 * Z.of_nat 3) with 12 in *; apply literal_reaches; auto.
      rewrite (wrap_id 32 addr) in H by apply T; exact H.
Qed.
End Goto.
