(* ===== verification/TcgArmEmit.v ===== *)
(** * The layout of emitted code

    Which words the code buffer holds when all instructions of a block have
    been emitted and all relocations patched: every branch to a label leads
    to the place of the label, forwards or backwards. *)

From Stdlib Require Import ZArith Lia List Bool.
From S2P Require Import Prelude Bitops BitRoute TcgIr TcgRegAlloc TcgArm TcgTemps ArmIsa ArmRun TcgArmOut TcgArmWords TcgArmOps TcgArmMovi TcgArmOp TcgArmExact TcgArmBranch TcgArmJump.
Import ListNotations.
Local Open Scope Z_scope.
Local Open Scope c_scope.
Local Open Scope emit_scope.

(** A word, a branch to a label, or the jump to another block that is patched when the blocks are linked. *)
Inductive item := Plain (w : Z) | Goto (cond l : Z) | Chain (n : Z).

Definition plain (o : out) : option (list item) := let? ws := o in Some (map Plain ws).

Section Layout.
Variable host : arm_host.
Variable v5t : bool.
Variable tb_ret_addr : Z.
Variable code_buf : Z.

(** The words of an instruction that is put at address [a]. *)
Definition insn_items (a : Z) (i : hinsn) : option (list item) :=
  match i with
  | Imov x y => plain (tcg_out_mov x y)
  | Imovi x v => plain (tcg_out_movi host x v)
  | Ild x base off => plain (tcg_out_ld host x base off)
  | Ist x base off => plain (tcg_out_st host x base off)
  | Ilabel _ => Some []
  | Icall consts _ => plain (call_out host v5t a (nth 0 consts 0))
  | Iop o args consts =>
      let r i := nth i args 0 in
      let k i := nth i consts false in
      match o with
      | goto_tb => Some [Chain (r 0%nat)]
      | exit_tb =>
          let? ws := tcg_out_movi32 host COND_AL TCG_REG_R0 (r 0%nat) in
          let? ws' := goto_out host v5t (a + 4 * Z.of_nat (length ws)) COND_AL tb_ret_addr in
          Some (map Plain (ws ++ ws'))
      | br => Some [Goto COND_AL (r 0%nat)]
      | brcond_i32 =>
          let? its := plain (tcg_out_dat_rIN COND_AL ARITH_CMP ARITH_CMN 0 (r 0%nat) (r 1%nat) (k 1%nat)) in
          Some (its ++ [Goto (tcg_cond_to_arm_cond (r 2%nat)) (r 3%nat)])
      | brcond2_i32 =>
          let? its := plain (tcg_out_dat_rIN COND_AL ARITH_CMP ARITH_CMN 0 (r 1%nat) (r 3%nat) (k 3%nat) ;;
                             tcg_out_dat_rIN COND_EQ ARITH_CMP ARITH_CMN 0 (r 0%nat) (r 2%nat) (k 2%nat))%out in
          Some (its ++ [Goto (tcg_cond_to_arm_cond (r 4%nat)) (r 5%nat)])
      | o => plain (tcg_out_op host o args consts)
      end
  end.

Fixpoint code_items (a : Z) (code : list hinsn) : option (list item) :=
  match code with
  | [] => Some []
  | i :: code =>
      let? x := insn_items a i in
      let? y := code_items (a + 4 * Z.of_nat (length x)) code in
      Some (x ++ y)
  end.

Definition items_length (x : option (list item)) : nat := match x with Some x => length x | None => 0%nat end.

(** The address of a label. *)
Fixpoint label_at (a : Z) (code : list hinsn) (l : Z) : option Z :=
  match code with
  | [] => None
  | i :: code =>
      match i with
      | Ilabel l' => if l' =? l then Some a else label_at a code l
      | _ => label_at (a + 4 * Z.of_nat (items_length (insn_items a i))) code l
      end
  end.

Definition code_labels (code : list hinsn) : list Z := flat_map (fun i => match i with Ilabel l => [l] | _ => [] end) code.

(** ** Branches that wait for their label *)

Definition is_goto (cond w : Z) : Prop := inU 32 w /\ bits w 24 8 = (cond .<< 4) .| 0x0a.

Lemma noaddr_goto cond x : inU 4 cond -> inU 32 x -> is_goto cond (u32 (deposit32 x 24 8 ((cond .<< 4) .| 0x0a))).
Proof. intros Hc Hx; split; [apply wrap_range; lia|]; unfold bits, deposit32, depositw; cbv zeta; route. Qed.

Lemma b_word_goto cond n : inU 4 cond -> inU 24 n -> is_goto cond (u32 ((cond .<< 28) .| 0x0a000000 .| n)).
Proof. intros Hc Hn; split; [apply wrap_range; lia|]; unfold bits; route. Qed.

Lemma patched_goto cond w n : inU 4 cond -> is_goto cond w -> inU 24 n -> u32 ((w .& Z.lnot 0xffffff) .| n) = u32 ((cond .<< 28) .| 0x0a000000 .| n).
Proof.
  intros Hc [Hw E] Hn; transitivity (u32 ((bits w 24 8 .<< 24) .| n)); [unfold bits; route|]; rewrite E; route.
Qed.

(** Patching all words of [rs]. *)
Definition patch_all (rs : list Z) (v : Z) (code : Z -> Z) : Z -> Z := fold_left (fun code r => patch_reloc code r v) rs code.

Lemma patch_other rs v : forall code q, ~ In q rs -> patch_all rs v code q = code q.
Proof.
  induction rs as [|r rs IH]; intros code q N; [reflexivity|]; change (patch_all (r :: rs) v code) with (patch_all rs v (patch_reloc code r v)); rewrite (IH (patch_reloc code r v) q) by (intros I; apply N; now right).
  unfold patch_reloc, reloc_pc24, put_at; destruct (Z.eqb_spec q r) as [->|]; [elim N; now left|reflexivity].
Qed.

Lemma patch_one code cond r v : inU 4 cond -> is_goto cond (code r) -> - 2 ^ 31 <= v - r < 2 ^ 31 -> patch_reloc code r v r = u32 (b_word cond (v - r)).
Proof.
  intros Hc G R; unfold patch_reloc, reloc_pc24, put_at; rewrite Z.eqb_refl, swrap_id by (unfold inS; lia); unfold b_word; change 0x00ffffff with 0xffffff.
  apply patched_goto; auto; apply field_u24.
Qed.

Lemma patch_in rs v cond q : inU 4 cond -> - 2 ^ 31 <= v - q < 2 ^ 31 -> forall code, In q rs -> is_goto cond (code q) -> patch_all rs v code q = u32 (b_word cond (v - q)).
Proof.
  intros Hc R; induction rs as [|r rs IH]; intros code I G; [destruct I|]; change (patch_all (r :: rs) v code) with (patch_all rs v (patch_reloc code r v)); destruct (Z.eq_dec r q) as [->|N].
  - pose proof (patch_one code cond q v Hc G R) as E; destruct (in_dec Z.eq_dec q rs) as [I'|N']; [|rewrite (patch_other rs v (patch_reloc code q v) q N'); exact E].
    apply IH; [exact I'|]; rewrite E; apply b_word_goto; [exact Hc|apply field_u24].
  - apply (IH (patch_reloc code r v)); [destruct I; [congruence|assumption]|]; unfold patch_reloc, reloc_pc24, put_at; destruct (Z.eqb_spec q r); [congruence|exact G].
Qed.

(** ** The invariant of the buffer *)

Definition item_ok (b : buffer) (labs : Z -> option Z) (a : Z) (x : item) : Prop :=
  match x with
  | Plain w => code_at b a = w
  | Goto cond l =>
      inU 4 cond /\
      match labs l with
      | Some v => code_at b a = u32 (b_word cond (v - a))
      | None => is_goto cond (code_at b a) /\ In a (first_reloc (labels b l))
      end
  | Chain n =>
      is_goto COND_AL (code_at b a) /\ tb_jmp_insn_offset b n = a - code_buf /\ tb_jmp_reset_offset b n = a + 4 - code_buf
  end.

Record laid (start : Z) (b : buffer) (items : list item) (labs : Z -> option Z) : Prop := {
  la_ptr : code_ptr b = start + 4 * Z.of_nat (length items);
  la_fresh : forall a, code_ptr b <= a -> inU 32 (code_at b a);
  la_item : forall k x, nth_error items k = Some x -> item_ok b labs (start + 4 * Z.of_nat k) x;
  la_label : forall l,
    match labs l with
    | Some v => has_value (labels b l) = true /\ value_ptr (labels b l) = v /\ start <= v <= code_ptr b /\ (v - start) mod 4 = 0
    | None => has_value (labels b l) = false /\
        forall p, In p (first_reloc (labels b l)) -> exists k cond, p = start + 4 * Z.of_nat k /\ nth_error items k = Some (Goto cond l)
    end
}.

(** What the block may take. *)
Definition small (start : Z) (b : buffer) : Prop := code_ptr b - start < 2 ^ 24.

(** The numbers of the jumps to other blocks are where they were. *)
Definition same_offsets (b b' : buffer) : Prop := tb_jmp_insn_offset b' = tb_jmp_insn_offset b /\ tb_jmp_reset_offset b' = tb_jmp_reset_offset b.

Lemma put32_offsets ws : forall b, same_offsets b (fold_left put32 ws b).
Proof. induction ws as [|w ws IH]; intros b; [now split|]; exact (IH (put32 b w)). Qed.

Lemma item_kept b b' labs a x : code_at b' a = code_at b a -> (forall l, first_reloc (labels b' l) = first_reloc (labels b l)) -> same_offsets b b' -> item_ok b labs a x -> item_ok b' labs a x.
Proof.
  intros E L [O1 O2]; destruct x; cbn; rewrite E, ?O1, ?O2; auto; intros [H0 H]; split; [exact H0|]; destruct (labs l); auto; now rewrite L.
Qed.

Lemma nth_error_bound {A} (l : list A) k x : nth_error l k = Some x -> (k < length l)%nat.
Proof. intros E; apply nth_error_Some; congruence. Qed.

Lemma nth_error_snoc {A} (l l' : list A) k x : nth_error (l ++ l') k = Some x -> nth_error l k = Some x \/ (length l <= k)%nat /\ nth_error l' (k - length l) = Some x.
Proof. destruct (Nat.ltb_spec k (length l)); [rewrite nth_error_app1 by lia; auto|rewrite nth_error_app2 by lia; auto]. Qed.

Lemma laid_words start b items labs ws : laid start b items labs -> laid start (fold_left put32 ws b) (items ++ map Plain ws) labs.
Proof.
  intros [P F I L]; destruct (put32_fold ws b) as (A & Lb & H & O); split.
  - rewrite A, P, length_app, length_map; lia.
  - intros a La; rewrite O by lia; apply F; lia.
  - intros k x E; apply nth_error_snoc in E as [E|[Lk E]].
    + pose proof (nth_error_bound _ _ _ E); eapply item_kept; [apply O; lia|intros l; now rewrite Lb|apply put32_offsets|now apply I].
    + rewrite nth_error_map in E; destruct (nth_error ws (k - length items)) as [w|] eqn:Ew; [|discriminate]; injection E as <-; unfold item_ok.
      pose proof (nth_error_bound _ _ _ Ew) as Lw; specialize (H _ Lw); rewrite P in H; replace (start + 4 * Z.of_nat k) with (start + 4 * Z.of_nat (length items) + 4 * Z.of_nat (k - length items)) by lia.
      rewrite H; now apply nth_error_nth.
  - intros l; specialize (L l); rewrite Lb; destruct (labs l) as [v|].
    + destruct L as (L1 & L2 & L3 & L4); splits; auto; lia.
    + destruct L as [L1 L2]; split; [exact L1|]; intros p Ip; destruct (L2 p Ip) as (k & cond & Ep & Ek); exists k, cond; split; [exact Ep|].
      rewrite nth_error_app1; [exact Ek|now apply nth_error_bound in Ek].
Qed.

Lemma laid_goto start b items labs cond l : laid start b items labs -> inU 4 cond -> small start b -> start mod 4 = 0 -> 0 <= start ->
  exists b', tcg_out_goto_label host v5t cond l b = Some b' /\ laid start b' (items ++ [Goto cond l]) labs.
Proof.
  intros La Hc Sm Ms S0; pose proof La as [P F I L]; unfold tcg_out_goto_label; specialize (L l) as Ll; unfold small in Sm.
  assert (Other : forall b' : buffer, code_ptr b' = code_ptr b + 4 -> (forall a, a <> code_ptr b -> code_at b' a = code_at b a) -> labels b' = labels b -> same_offsets b b' ->
    item_ok b' labs (code_ptr b) (Goto cond l) -> laid start b' (items ++ [Goto cond l]) labs).
  { intros b' Ep Eo El So Ho; split.
    - rewrite Ep, P, length_app; cbn [length]; lia.
    - intros a A; rewrite Eo by lia; apply F; lia.
    - intros k x E; apply nth_error_snoc in E as [E|[Lk E]].
      + pose proof (nth_error_bound _ _ _ E); eapply item_kept; [apply Eo; lia|intros l'; now rewrite El|exact So|now apply I].
      + pose proof (nth_error_bound _ _ _ E) as Lx; cbn [length] in Lx; replace (k - length items)%nat with 0%nat in E by lia; injection E as <-.
        replace (start + 4 * Z.of_nat k) with (code_ptr b) by lia; exact Ho.
    - intros l'; specialize (L l'); rewrite El; destruct (labs l') as [v|]; [destruct L as (L1 & L2 & L3 & L4); splits; auto; lia|].
      destruct L as [L1 L2]; split; [exact L1|]; intros p Ip; destruct (L2 p Ip) as (k & cd & Epp & Ek); exists k, cd; split; [exact Epp|].
      rewrite nth_error_app1; [exact Ek|now apply nth_error_bound in Ek]. }
  destruct (labs l) as [v|] eqn:El.
  - destruct Ll as (-> & -> & Lv & Mv); rewrite goto_is_out; unfold goto_out; assert (Es : s32 (v - code_ptr b) = v - code_ptr b) by (apply swrap_id; [lia|unfold inS; lia]).
    assert (Ev : v mod 2 = 0) by (pose proof (Z.div_mod (v - start) 4); pose proof (Z.div_mod start 4); replace v with (2 * (2 * ((v - start) / 4) + 2 * (start / 4))) by lia; rewrite Z.mul_comm; apply Z_mod_mult).
    assert (E1 : (v .& 1 =? 0) = true) by (change 1 with (Z.ones 1); rewrite Z.land_ones by lia; change (2 ^ 1) with 2; now rewrite Ev).
    rewrite Es, E1; destruct (Z.ltb_spec (v - code_ptr b - 8) 0x01fffffd); [|lia]; destruct (Z.ltb_spec (-0x01fffffd) (v - code_ptr b - 8)); [|lia]; cbn [andb].
    eexists; split; [reflexivity|]; apply Other; try reflexivity; [|apply (put32_offsets [_])|]; unfold out_words, tcg_out_b, tcg_out32; cbn [fold_left code_at put32 item_ok].
    + intros a Na; unfold put_at; destruct (Z.eqb_spec a (code_ptr b)); [contradiction|reflexivity].
    + rewrite El; split; [exact Hc|]; unfold put_at; now rewrite Z.eqb_refl.
  - destruct Ll as [Hv Hr]; rewrite Hv; unfold tcg_out_reloc; rewrite Hv; eexists; split; [reflexivity|].
    set (b1 := set_label_at b l (mkLabel false (value_ptr (labels b l)) (code_ptr b :: first_reloc (labels b l)))).
    set (w := u32 (deposit32 (code_at b (code_ptr b)) 24 8 ((cond .<< 4) .| 0x0a))).
    change (laid start (put32 b1 w) (items ++ [Goto cond l]) labs); assert (G : is_goto cond w) by (apply noaddr_goto; [exact Hc|apply F; lia]).
    split.
    + cbn [code_ptr put32 b1 set_label_at]; rewrite P, length_app; cbn [length]; lia.
    + intros a A; cbn [code_at code_ptr labels put32 set_label_at item_ok first_reloc has_value value_ptr b1] in *; unfold put_at; destruct (Z.eqb_spec a (code_ptr b)); [lia|]; apply F; lia.
    + intros k x E; apply nth_error_snoc in E as [E|[Lk E]].
      * pose proof (nth_error_bound _ _ _ E) as Lk; pose proof (I k x E) as Io; destruct x as [w'|cd l'|n']; cbn [code_at code_ptr labels put32 set_label_at item_ok first_reloc has_value value_ptr b1] in *; unfold put_at; destruct (Z.eqb_spec (start + 4 * Z.of_nat k) (code_ptr b)); try lia; try exact Io.
        destruct Io as [Io1 Io2]; split; [exact Io1|]; destruct (labs l') eqn:El'; [exact Io2|]; destruct Io2 as [Io2 Io3]; split; [exact Io2|].
        destruct (Z.eqb_spec l' l) as [->|]; [right|]; auto.
      * pose proof (nth_error_bound _ _ _ E) as Lx; cbn [length] in Lx; replace (k - length items)%nat with 0%nat in E by lia; injection E as <-.
        replace (start + 4 * Z.of_nat k) with (code_ptr b) by lia; cbn [code_at code_ptr labels put32 set_label_at item_ok first_reloc has_value value_ptr b1]; unfold put_at; rewrite !Z.eqb_refl, El; splits; auto; now left.
    + intros l'; specialize (L l'); cbn [code_at code_ptr labels put32 set_label_at item_ok first_reloc has_value value_ptr b1]; unfold put_at; destruct (Z.eqb_spec l' l) as [->|Nl].
      * rewrite El; cbn [has_value first_reloc]; split; [reflexivity|]; intros p [<-|Ip].
        -- exists (length items), cond; split; [exact P|]; rewrite nth_error_app2, Nat.sub_diag by lia; reflexivity.
        -- destruct (Hr p Ip) as (k & cd & Epp & Ek); exists k, cd; split; [exact Epp|]; rewrite nth_error_app1; [exact Ek|now apply nth_error_bound in Ek].
      * destruct (labs l') as [v|]; [destruct L as (L1 & L2 & L3 & L4); splits; auto; lia|].
        destruct L as [L1 L2]; split; [exact L1|]; intros p Ip; destruct (L2 p Ip) as (k & cd & Epp & Ek); exists k, cd; split; [exact Epp|].
        rewrite nth_error_app1; [exact Ek|now apply nth_error_bound in Ek].
Qed.

Definition set_lab (labs : Z -> option Z) (l v : Z) : Z -> option Z := fun l' => if l' =? l then Some v else labs l'.

Lemma laid_label start b items labs l : laid start b items labs -> labs l = None -> small start b -> start mod 4 = 0 ->
  exists b', tcg_out_label l (code_ptr b) b = Some b' /\ code_ptr b' = code_ptr b /\ laid start b' items (set_lab labs l (code_ptr b)).
Proof.
  intros [P F I L] El Sm Ms; unfold tcg_out_label; pose proof (L l) as Ll; rewrite El in Ll; destruct Ll as [-> Hr]; eexists; split; [reflexivity|]; split; [reflexivity|].
  fold (patch_all (first_reloc (labels b l)) (code_ptr b) (code_at b)); set (code := patch_all _ _ _); unfold small in Sm.
  assert (Rg : forall p, In p (first_reloc (labels b l)) -> exists k cond, p = start + 4 * Z.of_nat k /\ nth_error items k = Some (Goto cond l) /\ (k < length items)%nat).
  { intros p Ip; destruct (Hr p Ip) as (k & cond & E & N); exists k, cond; splits; auto; now apply nth_error_bound in N. }
  split; cbn [code_ptr set_label_at set_code code_at labels]; auto.
  - intros a A; unfold code; rewrite patch_other; [now apply F|]; intros X; destruct (Rg a X) as (k & cond & -> & _ & Lk); lia.
  - intros k x E; pose proof (nth_error_bound _ _ _ E) as Lk; pose proof (I k x E) as Io; set (a := start + 4 * Z.of_nat k) in *.
    assert (Same : ~ In a (first_reloc (labels b l)) -> code a = code_at b a) by (intros N; now apply patch_other).
    assert (Own : In a (first_reloc (labels b l)) -> exists cond, x = Goto cond l).
    { intros X; destruct (Rg a X) as (k' & cond & Ea & Ek & _); exists cond; assert (k' = k) as -> by (unfold a in Ea; lia); congruence. }
    destruct x as [w|cond l'|n']; cbn [item_ok code_at set_label_at set_code labels tb_jmp_insn_offset tb_jmp_reset_offset] in *; [| |rewrite Same; auto; intros X; destruct (Own X); discriminate].
    + rewrite Same; auto; intros X; destruct (Own X); discriminate.
    + destruct Io as [Hc Io]; split; [exact Hc|]; unfold set_lab; destruct (Z.eqb_spec l' l) as [->|Nl].
      * rewrite El in Io; destruct Io as [G In]; apply patch_in; auto; unfold a; lia.
      * assert (Na : ~ In a (first_reloc (labels b l))) by (intros X; destruct (Own X) as [cd X']; congruence); rewrite (Same Na).
        destruct (labs l'); [exact Io|]; unfold put_at; destruct (Z.eqb_spec l' l); [congruence|exact Io].
  - intros l'; unfold set_lab, put_at; specialize (L l'); destruct (Z.eqb_spec l' l) as [->|Nl]; [|exact L]; cbn; splits; auto; [rewrite P; lia|lia|].
    replace (code_ptr b - start) with (Z.of_nat (length items) * 4) by lia; apply Z_mod_mult.
Qed.

(** ** All instructions *)

Lemma plain_words o its b : plain o = Some its -> exists ws, o = Some ws /\ its = map Plain ws /\ out_words o b = Some (fold_left put32 ws b).
Proof. unfold plain; destruct o as [ws|]; [|discriminate]; intros [= <-]; exists ws; auto. Qed.

Lemma out_words_then x y g b : (out_words x >>> out_words y >>> g) b = (out_words (x ;; y)%out >>> g) b.
Proof.
  unfold then_out; rewrite <- out_words_app; unfold then_out; now destruct (out_words x b).
Qed.

Definition new_labs (labs : Z -> option Z) (a : Z) (i : hinsn) : Z -> option Z := match i with Ilabel l => set_lab labs l a | _ => labs end.

(** A condition that the back end has. *)
Definition cond_ok (i : hinsn) : Prop :=
  match i with
  | Iop brcond_i32 args _ => inU 4 (tcg_cond_to_arm_cond (nth 2 args 0))
  | Iop brcond2_i32 args _ => inU 4 (tcg_cond_to_arm_cond (nth 4 args 0))
  | _ => True
  end.

(** The words before the branch of a comparison. *)
Lemma laid_compare start b items labs o its cond l : laid start b items labs -> plain o = Some its -> inU 4 cond -> start mod 4 = 0 -> 0 <= start ->
  code_ptr b + 4 * Z.of_nat (length (its ++ [Goto cond l])) - start < 2 ^ 24 ->
  exists b', (out_words o >>> tcg_out_goto_label host v5t cond l) b = Some b' /\ laid start b' (items ++ its ++ [Goto cond l]) labs.
Proof.
  intros La E Hc Ms S0 Sm; destruct (plain_words _ _ b E) as (ws & -> & -> & Eo); unfold then_out; rewrite Eo; pose proof (laid_words _ _ _ _ ws La) as La1.
  rewrite app_assoc; apply laid_goto; auto; unfold small; rewrite (la_ptr _ _ _ _ La1), !length_app, length_map in *; rewrite (la_ptr _ _ _ _ La) in Sm; cbn [length] in Sm; lia.
Qed.

(** The jump to another block: its place and the place after it are recorded. *)
Lemma laid_chain start b items labs n : laid start b items labs -> ~ In (Chain n) items ->
  exists b', out_goto_tb code_buf n b = Some b' /\ laid start b' (items ++ [Chain n]) labs.
Proof.
  intros [P F I L] N; unfold out_goto_tb, tcg_out_b_noaddr, out_words, tcg_out32, tcg_current_code_size; cbn [code_at code_ptr fold_left put32]; set (w := u32 (deposit32 _ _ _ _)).
  assert (G : is_goto COND_AL w) by (apply noaddr_goto; [unfold inU, COND_AL; lia|apply F; lia]).
  eexists; split; [reflexivity|]; split; cbn [code_ptr code_at labels].
  - rewrite P, length_app; cbn [length]; lia.
  - intros a A; unfold put_at; destruct (Z.eqb_spec a (code_ptr b)); [lia|]; apply F; lia.
  - intros k x E; apply nth_error_snoc in E as [E|[Lk E]].
    + pose proof (nth_error_bound _ _ _ E) as Lk; pose proof (I k x E) as Io; pose proof (nth_error_In _ _ E) as Ix.
      destruct x as [w'|cd l'|n']; cbn [item_ok code_at labels tb_jmp_insn_offset tb_jmp_reset_offset put32] in *; unfold put_at; destruct (Z.eqb_spec (start + 4 * Z.of_nat k) (code_ptr b)); try lia; try exact Io.
      destruct (Z.eqb_spec n' n) as [->|]; [contradiction|exact Io].
    + pose proof (nth_error_bound _ _ _ E) as Lx; cbn [length] in Lx; replace (k - length items)%nat with 0%nat in E by lia; injection E as <-.
      replace (start + 4 * Z.of_nat k) with (code_ptr b) by lia; cbn [item_ok code_at tb_jmp_insn_offset tb_jmp_reset_offset put32]; unfold put_at; rewrite !Z.eqb_refl; splits; auto; lia.
  - intros l; specialize (L l); destruct (labs l) as [v|]; [destruct L as (L1 & L2 & L3 & L4); splits; auto; lia|].
    destruct L as [L1 L2]; split; [exact L1|]; intros p Ip; destruct (L2 p Ip) as (k & cd & Epp & Ek); exists k, cd; split; [exact Epp|].
    rewrite nth_error_app1; [exact Ek|now apply nth_error_bound in Ek].
Qed.

Lemma laid_insn start b items labs i its : laid start b items labs -> insn_items (code_ptr b) i = Some its -> cond_ok i -> start mod 4 = 0 -> 0 <= start ->
  code_ptr b + 4 * Z.of_nat (length its) - start < 2 ^ 24 -> (forall l, i = Ilabel l -> labs l = None) -> (forall n, In (Chain n) its -> ~ In (Chain n) items) ->
  exists b', out_insn host v5t tb_ret_addr code_buf i b = Some b' /\ laid start b' (items ++ its) (new_labs labs (code_ptr b) i).
Proof.
  intros La E Co Ms S0 Sm Nl Nc.
  assert (Pl : forall o, plain o = Some its -> new_labs labs (code_ptr b) i = labs -> exists b', out_words o b = Some b' /\ laid start b' (items ++ its) (new_labs labs (code_ptr b) i)).
  { intros o Ep ->; destruct (plain_words _ _ b Ep) as (ws & -> & -> & Eo); rewrite Eo; eexists; split; [reflexivity|now apply laid_words]. }
  destruct i as [x y|x v|x bs off|x bs off|o args consts|cs pad|l]; cbn [insn_items out_insn new_labs] in *; try (apply Pl; [exact E|reflexivity]); [|rewrite call_is_out; apply Pl; [exact E|reflexivity]|].
  - assert (Ot : plain (tcg_out_op host o args consts) = Some its -> exists b', out_words (tcg_out_op host o args consts) b = Some b' /\ laid start b' (items ++ its) labs) by (intros Ep; apply Pl; auto).
    destruct o; cbn [cond_ok] in Co; try (apply Ot; exact E); cbn [tcg_out_op_at].
    + injection E as <-; apply laid_goto; auto; [unfold inU, COND_AL; lia|unfold small; cbn [length] in Sm; lia].
    + destruct (plain _) as [x|] eqn:Ep; [|discriminate]; injection E as <-; now apply laid_compare.
    + destruct (plain _) as [x|] eqn:Ep; [|discriminate]; injection E as <-; rewrite out_words_then; now apply laid_compare.
    + destruct (tcg_out_movi32 _ _ _ _) as [ws|] eqn:Em; [|discriminate]; destruct (goto_out _ _ _ _ _) as [ws'|] eqn:Eg; [|discriminate]; injection E as <-.
      unfold then_out, out_words at 1; rewrite goto_is_out, (proj1 (put32_fold ws b)), Eg; eexists; split; [reflexivity|]; rewrite map_app, app_assoc; now apply laid_words, laid_words.
    + injection E as <-; apply laid_chain; [exact La|apply Nc; now left].
  - injection E as <-; rewrite app_nil_r; destruct (laid_label start b items labs l) as (b' & E' & _ & La'); auto; [unfold small; cbn [length] in Sm; lia|eauto].
Qed.

(** ** A whole block *)

Definition code_chains (code : list hinsn) : list Z :=
  flat_map (fun i => match i with Iop goto_tb args _ => [nth 0 args 0] | _ => [] end) code.

Lemma plain_chain o its n : plain o = Some its -> ~ In (Chain n) its.
Proof. unfold plain; destruct o; [|discriminate]; intros [= <-] I; apply in_map_iff in I as (w & E & _); discriminate. Qed.

Lemma insn_chain a i its n : insn_items a i = Some its -> In (Chain n) its -> In n (code_chains [i]).
Proof.
  intros E I.
  assert (Pl : forall o, plain o = Some its -> In n (code_chains [i])) by (intros o Ep; elim (plain_chain _ _ n Ep I)).
  destruct i as [x y|x v|x bs off|x bs off|o args consts|cs pad|l]; cbn [insn_items] in E; try (now apply (Pl _ E)); [|injection E as <-; destruct I].
  destruct o; try (now apply (Pl _ E)).
  - injection E as <-; destruct I as [I|[]]; discriminate.
  - destruct (plain _) as [x|] eqn:Ep; [|discriminate]; injection E as <-; apply in_app_iff in I as [I|[I|[]]]; [elim (plain_chain _ _ n Ep I)|discriminate].
  - destruct (plain _) as [x|] eqn:Ep; [|discriminate]; injection E as <-; apply in_app_iff in I as [I|[I|[]]]; [elim (plain_chain _ _ n Ep I)|discriminate].
  - destruct (tcg_out_movi32 _ _ _ _); [|discriminate]; destruct (goto_out _ _ _ _ _); [|discriminate]; injection E as <-; apply in_map_iff in I as (w & X & _); discriminate.
  - injection E as <-; destruct I as [[= <-]|[]]; now left.
Qed.

Lemma laid_ext start b items labs labs' : (forall l, labs' l = labs l) -> laid start b items labs -> laid start b items labs'.
Proof.
  intros E [P F I L]; split; auto.
  - intros k x Ek; specialize (I k x Ek); destruct x; cbn [item_ok] in *; auto; now rewrite E.
  - intros l; rewrite E; apply L.
Qed.

(** The labels of [code] at their addresses, the others as they were. *)
Definition with_labels (labs : Z -> option Z) (a : Z) (code : list hinsn) : Z -> option Z :=
  fun l => match label_at a code l with Some v => Some v | None => labs l end.

Lemma label_absent code l : forall a, ~ In l (code_labels code) -> label_at a code l = None.
Proof.
  induction code as [|i code IH]; intros a N; [reflexivity|]; destruct i as [? ?|? ?|? ? ?|? ? ?|? ? ?|? ?|l0]; cbn [label_at]; try (apply IH; intros I; apply N; cbn; rewrite ?in_app_iff; now right || exact I).
  destruct (Z.eqb_spec l0 l) as [->|]; [elim N; now left|]; apply IH; intros I; apply N; now right.
Qed.

Lemma laid_code start : start mod 4 = 0 -> 0 <= start -> forall code b items labs more,
  laid start b items labs -> code_items (code_ptr b) code = Some more -> Forall cond_ok code ->
  code_ptr b + 4 * Z.of_nat (length more) - start < 2 ^ 24 ->
  NoDup (code_labels code) -> (forall l, In l (code_labels code) -> labs l = None) ->
  NoDup (code_chains code) -> (forall n, In n (code_chains code) -> ~ In (Chain n) items) ->
  exists b', out_code host v5t tb_ret_addr code_buf code b = Some b' /\ laid start b' (items ++ more) (with_labels labs (code_ptr b) code).
Proof.
  intros Ms S0; induction code as [|i code IH]; intros b items labs more La E Co Sm Nl Fl Nc Fc.
  - injection E as <-; exists b; split; [reflexivity|]; rewrite app_nil_r; now apply (laid_ext start b items labs).
  - cbn [code_items] in E; destruct (insn_items (code_ptr b) i) as [x|] eqn:Ei; [|discriminate]; destruct (code_items _ code) as [y|] eqn:Ey; [|discriminate]; injection E as <-.
    inversion_clear Co as [|? ? Ci Co']; rewrite length_app in Sm.
    destruct (laid_insn start b items labs i x La Ei Ci Ms S0) as (b1 & E1 & La1); [lia| | |].
    + intros l ->; apply Fl; now left.
    + intros n I; apply Fc; apply insn_chain with (n := n) in Ei; [|exact I]; change (i :: code) with ([i] ++ code); unfold code_chains in *; rewrite flat_map_app, in_app_iff; now left.
    + assert (P1 : code_ptr b1 = code_ptr b + 4 * Z.of_nat (length x)) by (rewrite (la_ptr _ _ _ _ La1), (la_ptr _ _ _ _ La), length_app; lia).
      rewrite <- P1 in Ey; change (i :: code) with ([i] ++ code) in Nl, Nc, Fl, Fc; unfold code_labels, code_chains in Nl, Nc, Fl, Fc; rewrite flat_map_app in Nl, Nc, Fl, Fc; fold code_labels in Nl, Fl; fold code_chains in Nc, Fc.
      fold (code_labels [i]) in *; fold (code_labels code) in *; fold (code_chains [i]) in *; fold (code_chains code) in *.
      destruct (IH b1 (items ++ x) (new_labs labs (code_ptr b) i) y La1 Ey Co') as (b' & E' & La'); [lia| | | | |].
      * now apply NoDup_app_remove_l in Nl.
      * intros l I; destruct i as [? ?|? ?|? ? ?|? ? ?|? ? ?|? ?|l0]; cbn [new_labs]; try (apply Fl, in_app_iff; now right); unfold set_lab; destruct (Z.eqb_spec l l0) as [->|]; [|apply Fl, in_app_iff; now right].
        cbn in Nl; inversion_clear Nl as [|? ? X _]; contradiction.
      * now apply NoDup_app_remove_l in Nc.
      * intros n I X; apply in_app_iff in X as [X|X]; [apply (Fc n); [apply in_app_iff; now right|exact X]|].
        apply insn_chain with (n := n) in Ei; [|exact X]; revert Ei I; clear -Nc; induction (code_chains [i]) as [|z zs IHz]; [intros []|]; cbn in Nc; inversion_clear Nc as [|? ? A B].
        intros [->|I1] I2; [apply A, in_app_iff; now right|now apply IHz].
      * exists b'; split; [cbn [out_code]; unfold then_out; now rewrite E1|]; rewrite app_assoc; eapply laid_ext; [|exact La'].
        intros l; unfold with_labels; destruct i as [? ?|? ?|? ? ?|? ? ?|? ? ?|? ?|l0]; cbn [label_at new_labs insn_items] in *; rewrite ?P1; try (rewrite Ei; reflexivity).
        injection Ei as <-; replace (code_ptr b + 4 * Z.of_nat (length (@nil item))) with (code_ptr b) by (cbn [length]; lia); unfold set_lab; rewrite (Z.eqb_sym l l0); destruct (Z.eqb_spec l0 l) as [->|]; [|reflexivity].
        rewrite label_absent; [reflexivity|]; cbn in Nl; inversion_clear Nl; assumption.
Qed.
End Layout.
