(* ===== verification/TcgArmPlace.v ===== *)
(** * The code of a block in its place

    The code that the back end has put into the buffer for the instructions
    of a block, run at the addresses where it lies: every instruction has its
    effect and leads to the next one, a branch to its label, a call to the
    function with the return address behind it, the exit to the epilogue. *)

From Stdlib Require Import ZArith Lia List Bool.
From S2P Require Import Prelude Bitops TcgIr TcgFold TcgRegAlloc TcgArm TcgTemps ArmIsa ArmRun TcgArmOut TcgArmWords TcgArmOps TcgArmMovi TcgArmOp TcgArmCond TcgArmMem TcgArmExact TcgArmTotal TcgArmKeep TcgArmFits TcgArmBranch TcgArmJump TcgArmEmit.
Import ListNotations.
Local Open Scope Z_scope.
Local Open Scope c_scope.

Section Place.
Variables (host : arm_host) (arch : arm_arch) (v5t : bool).
Variable tb_ret_addr : Z.
Hypothesis fits : host_fits host arch.
Hypothesis blx : use_armv7_instructions host = true -> v5t = true.
Hypothesis epilogue : is_target v5t tb_ret_addr.
Abbreviation insn_items := (TcgArmEmit.insn_items host v5t tb_ret_addr).
Abbreviation code_items := (TcgArmEmit.code_items host v5t tb_ret_addr).
Abbreviation label_at := (TcgArmEmit.label_at host v5t tb_ret_addr).

(** Operands that the back end takes. *)
Definition takes (i : hinsn) : Prop :=
  match i with
  | Imov x y => host_reg x /\ host_reg y
  | Imovi x _ => host_reg x
  | Ild x base off | Ist x base off => host_reg x /\ host_reg base /\ inS 32 off
  | Iop o args consts =>
      op_fits o args consts /\ OPF_NOT_PRESENT o = false /\
      match o with
      | brcond_i32 => comparison (nth 2 args 0) = true
      | brcond2_i32 => comparison (nth 4 args 0) = true
      | _ => True
      end
  | Icall consts _ => is_target v5t (nth 0 consts 0)
  | Ilabel _ => True
  end.



(** ** One instruction *)

Section One.
Variables (b : buffer) (labs : Z -> option Z) (start a a' : Z) (its : list item).
Hypothesis La : 0 <= a.
Hypothesis Ma : a mod 4 = 0.
Hypothesis Ea : a' = a + 4 * Z.of_nat (length its).
Hypothesis Lb : a' < 2 ^ 32.
Hypothesis At : forall k x, nth_error its k = Some x -> item_ok start b labs (a + 4 * Z.of_nat k) x.
Hypothesis Lv : forall l v, labs l = Some v -> 0 <= v < 2 ^ 32 /\ v mod 4 = 0 /\ - 2 ^ 24 <= v - a /\ v - a <= 2 ^ 24 /\ v - a' <= 2 ^ 24 /\ - 2 ^ 24 <= v - a'.










End One.

(** ** All instructions *)







End Place.

(** What the register allocator emits for a block is taken, see [gen_code_fits]. *)
Lemma fit_takes v5t cfg offsetof ops i : Forall (inS 32) (env_words offsetof) ->
  Forall (fun op => match opc op with
                    | call => is_target v5t (nth 0 (cargs op) 0)
                    | brcond_i32 | brcond2_i32 => comparison (nth 0 (cargs op) 0) = true
                    | _ => True
                    end) ops ->
  fit cfg (arm_place offsetof) (of_block ops) i -> takes v5t i.
Proof.
  intros W Ok; rewrite Forall_forall in Ok.
  assert (Cl : forall cs, of_block ops call cs -> is_target v5t (nth 0 cs 0)).
  { intros cs [[I _]|(op & I & E & <-)]; [cbn in I; intuition discriminate|]; specialize (Ok op I); now rewrite E in Ok. }
  assert (Cc : forall cs, of_block ops brcond_i32 cs \/ of_block ops brcond2_i32 cs -> comparison (nth 0 cs 0) = true).
  { intros cs [[[I _]|(op & I & E & <-)]|[[I _]|(op & I & E & <-)]]; try (cbn in I; intuition discriminate); specialize (Ok op I); now rewrite E in Ok. }
  assert (Pl : forall base off, arm_place offsetof base off -> host_reg base /\ inS 32 off).
  { intros base off [[-> I]|(-> & L1 & L2 & _)]; split; try (split; [unfold gpr, TCG_AREG0, TCG_REG_CALL_STACK; lia|discriminate]); [now apply (proj1 (Forall_forall _ _) W)|].
    unfold inS, TCG_STATIC_CALL_ARGS_SIZE, CPU_TEMP_BUF_NLONGS in *; lia. }
  destruct i as [x y|x v|x base off|x base off|o args consts|cs pad|l]; cbn [fit takes]; auto.
  - now intros [[H _] H'].
  - now intros [H _].
  - now intros [[H _] P%Pl].
  - now intros [H P%Pl].
  - intros (F & _ & A & P); split; [exact F|]; split; [exact P|]; destruct o; auto; pose proof (Cc _ (or_introl A)) as X || pose proof (Cc _ (or_intror A)) as X; unfold op_constants in X; cbn [nb_oargs nb_iargs tcg_op_defs Nat.add] in X; now rewrite nth_skipn in X.
Qed.




