(* ===== verification/TbFlags.v ===== *)
(** * The state a translation depends on (target-arm/cpu.h)

    [cpu_get_tb_cpu_state] packs the part of the CPU state that the decoder
    reads into the 32-bit [flags] of a translation block; the decoder reads it
    back with the [ARM_TBFLAG_*] macros.  The build is CONFIG_USER_ONLY, so
    that no state is secure. *)

From Stdlib Require Import ZArith Lia List Bool.
From S2P Require Import Prelude Bitops Cpu Psr.
Import ListNotations.
Local Open Scope Z_scope.
Local Open Scope c_scope.

(** ** Exception levels, debug and endianness *)

Definition SCTLR_B : Z := 1 .<< 7.
Definition SCTLR_E0E : Z := 1 .<< 24.
Definition SCTLR_EE : Z := 1 .<< 25.
Definition CPSR_E : Z := 1 .<< 9.
Definition PSTATE_D : Z := 1 .<< 9.
Definition PSTATE_SS : Z := 1 .<< 21.
Definition HCR_RW : Z := 1 .<< 31.
Definition SCR_NS : Z := 1.
Definition SCR_RW : Z := 1 .<< 10.
Definition ARM_FEATURE_V6 : Z := 4.
Definition ARM_FEATURE_AARCH64 : Z := 33.
Definition ARMMMUIdx_S1SE0 : Z := 4.

Definition is_a64 (env : CPUARMState) : bool := truthy (aarch64 (sys env)).

Definition arm_el_is_aa64 (env : CPUARMState) (el : Z) : bool :=
  let aa64 := arm_feature env ARM_FEATURE_AARCH64 in
  if el =? 3 then aa64
  else
    let aa64 := if arm_feature env ARM_FEATURE_EL3 then aa64 && truthy (scr_el3 (sys env) .& SCR_RW)
                else aa64 in
    if el =? 2 then aa64
    else if arm_feature env ARM_FEATURE_EL2 && negb (arm_is_secure_below_el3 env)
    then aa64 && truthy (hcr_el2 (sys env) .& HCR_RW)
    else aa64.

Definition access_secure_reg (env : CPUARMState) : bool :=
  arm_feature env ARM_FEATURE_EL3 && negb (arm_el_is_aa64 env 3)
    && negb (truthy (scr_el3 (sys env) .& SCR_NS)).

Definition cpu_mmu_index (env : CPUARMState) : Z :=
  let el := arm_current_el env in
  if (el <? 2) && arm_is_secure_below_el3 env then ARMMMUIdx_S1SE0 + el else el.

Definition arm_debug_target_el (env : CPUARMState) : Z :=
  let secure := arm_is_secure env in
  let route_to_el2 :=
    if arm_feature env ARM_FEATURE_EL2 && negb secure
    then truthy (hcr_el2 (sys env) .& HCR_TGE) || truthy (mdcr_el2 (sys env) .& (1 .<< 8))
    else false in
  if route_to_el2 then 2
  else if arm_feature env ARM_FEATURE_EL3 && negb (arm_el_is_aa64 env 3) && secure then 3
  else 1.

Definition aa64_generate_debug_exceptions (env : CPUARMState) : bool :=
  if arm_is_secure env
     && (negb (extract32 (mdcr_el3 (sys env)) 16 1 =? 0) || (arm_current_el env =? 3))
  then false
  else if (arm_current_el env =? arm_debug_target_el env)
          && ((extract32 (mdscr_el1 (sys env)) 13 1 =? 0) || truthy (daif env .& PSTATE_D))
  then false
  else true.

Definition aa32_generate_debug_exceptions (env : CPUARMState) : bool :=
  let el := arm_current_el env in
  if (el =? 0) && arm_el_is_aa64 env 1 then aa64_generate_debug_exceptions env
  else if arm_is_secure env then
    if (el =? 0) && truthy (sder (sys env) .& 1) then true
    else negb (extract32 (mdcr_el3 (sys env)) 14 2 =? 2)
  else negb (el =? 2).

Definition arm_generate_debug_exceptions (env : CPUARMState) : bool :=
  if is_a64 env then aa64_generate_debug_exceptions env else aa32_generate_debug_exceptions env.

Definition arm_singlestep_active (env : CPUARMState) : bool :=
  truthy (extract32 (mdscr_el1 (sys env)) 0 1) && arm_el_is_aa64 env (arm_debug_target_el env)
    && arm_generate_debug_exceptions env.

Definition arm_sctlr_b (env : CPUARMState) : bool :=
  truthy (nth 1 (sctlr_el (sys env)) 0 .& SCTLR_B).

Definition arm_cpu_data_is_big_endian (env : CPUARMState) : bool :=
  if negb (is_a64 env) then arm_sctlr_b env || truthy (uncached_cpsr env .& CPSR_E)
  else
    let cur_el := arm_current_el env in
    if cur_el =? 0 then truthy (nth 1 (sctlr_el (sys env)) 0 .& SCTLR_E0E)
    else truthy (nth (Z.to_nat cur_el) (sctlr_el (sys env)) 0 .& SCTLR_EE).

(** The traps of CPTR_EL2 and CPTR_EL3, after the [switch]. *)
Definition fp_trap_el (env : CPUARMState) : Z :=
  if (arm_current_el env <=? 2) && truthy (extract32 (nth 2 (cptr_el (sys env)) 0) 10 1)
     && negb (arm_is_secure_below_el3 env) then 2
  else if truthy (extract32 (nth 3 (cptr_el (sys env)) 0) 10 1) then 3
  else 0.

Definition fp_exception_el (env : CPUARMState) : Z :=
  let cur_el := arm_current_el env in
  if negb (arm_feature env ARM_FEATURE_V6) then 0
  else
    let fpen := extract32 (cpacr_el1 (sys env)) 20 2 in
    if (fpen =? 0) || (fpen =? 2) then
      if (cur_el =? 0) || (cur_el =? 1) then
        if arm_is_secure env && negb (arm_el_is_aa64 env 3) then 3 else 1
      else if (cur_el =? 3) && negb (is_a64 env) then 3
      else fp_trap_el env
    else if fpen =? 1 then
      if cur_el =? 0 then 1 else fp_trap_el env
    else fp_trap_el env.

(** ** The flags *)

Definition ARM_TBFLAG_AARCH64_STATE_SHIFT : Z := 31.
Definition ARM_TBFLAG_AARCH64_STATE_MASK : Z := 1 .<< 31.
Definition ARM_TBFLAG_MMUIDX_SHIFT : Z := 28.
Definition ARM_TBFLAG_MMUIDX_MASK : Z := 0x7 .<< 28.
Definition ARM_TBFLAG_SS_ACTIVE_SHIFT : Z := 27.
Definition ARM_TBFLAG_SS_ACTIVE_MASK : Z := 1 .<< 27.
Definition ARM_TBFLAG_PSTATE_SS_SHIFT : Z := 26.
Definition ARM_TBFLAG_PSTATE_SS_MASK : Z := 1 .<< 26.
Definition ARM_TBFLAG_FPEXC_EL_SHIFT : Z := 24.
Definition ARM_TBFLAG_FPEXC_EL_MASK : Z := 0x3 .<< 24.
Definition ARM_TBFLAG_THUMB_SHIFT : Z := 0.
Definition ARM_TBFLAG_THUMB_MASK : Z := 1.
Definition ARM_TBFLAG_VECLEN_SHIFT : Z := 1.
Definition ARM_TBFLAG_VECLEN_MASK : Z := 0x7 .<< 1.
Definition ARM_TBFLAG_VECSTRIDE_SHIFT : Z := 4.
Definition ARM_TBFLAG_VECSTRIDE_MASK : Z := 0x3 .<< 4.
Definition ARM_TBFLAG_VFPEN_SHIFT : Z := 7.
Definition ARM_TBFLAG_VFPEN_MASK : Z := 1 .<< 7.
Definition ARM_TBFLAG_CONDEXEC_SHIFT : Z := 8.
Definition ARM_TBFLAG_CONDEXEC_MASK : Z := 0xff .<< 8.
Definition ARM_TBFLAG_SCTLR_B_SHIFT : Z := 16.
Definition ARM_TBFLAG_SCTLR_B_MASK : Z := 1 .<< 16.
Definition ARM_TBFLAG_XSCALE_CPAR_SHIFT : Z := 17.
Definition ARM_TBFLAG_XSCALE_CPAR_MASK : Z := 3 .<< 17.
Definition ARM_TBFLAG_NS_SHIFT : Z := 19.
Definition ARM_TBFLAG_NS_MASK : Z := 1 .<< 19.
Definition ARM_TBFLAG_BE_DATA_SHIFT : Z := 20.
Definition ARM_TBFLAG_BE_DATA_MASK : Z := 1 .<< 20.

Definition ARM_TBFLAG_AARCH64_STATE (F : Z) : Z :=
  (F .& ARM_TBFLAG_AARCH64_STATE_MASK) .>> ARM_TBFLAG_AARCH64_STATE_SHIFT.
Definition ARM_TBFLAG_MMUIDX (F : Z) : Z := (F .& ARM_TBFLAG_MMUIDX_MASK) .>> ARM_TBFLAG_MMUIDX_SHIFT.
Definition ARM_TBFLAG_SS_ACTIVE (F : Z) : Z :=
  (F .& ARM_TBFLAG_SS_ACTIVE_MASK) .>> ARM_TBFLAG_SS_ACTIVE_SHIFT.
Definition ARM_TBFLAG_PSTATE_SS (F : Z) : Z :=
  (F .& ARM_TBFLAG_PSTATE_SS_MASK) .>> ARM_TBFLAG_PSTATE_SS_SHIFT.
Definition ARM_TBFLAG_FPEXC_EL (F : Z) : Z :=
  (F .& ARM_TBFLAG_FPEXC_EL_MASK) .>> ARM_TBFLAG_FPEXC_EL_SHIFT.
Definition ARM_TBFLAG_THUMB (F : Z) : Z := (F .& ARM_TBFLAG_THUMB_MASK) .>> ARM_TBFLAG_THUMB_SHIFT.
Definition ARM_TBFLAG_VECLEN (F : Z) : Z := (F .& ARM_TBFLAG_VECLEN_MASK) .>> ARM_TBFLAG_VECLEN_SHIFT.
Definition ARM_TBFLAG_VECSTRIDE (F : Z) : Z :=
  (F .& ARM_TBFLAG_VECSTRIDE_MASK) .>> ARM_TBFLAG_VECSTRIDE_SHIFT.
Definition ARM_TBFLAG_VFPEN (F : Z) : Z := (F .& ARM_TBFLAG_VFPEN_MASK) .>> ARM_TBFLAG_VFPEN_SHIFT.
Definition ARM_TBFLAG_CONDEXEC (F : Z) : Z :=
  (F .& ARM_TBFLAG_CONDEXEC_MASK) .>> ARM_TBFLAG_CONDEXEC_SHIFT.
Definition ARM_TBFLAG_SCTLR_B (F : Z) : Z :=
  (F .& ARM_TBFLAG_SCTLR_B_MASK) .>> ARM_TBFLAG_SCTLR_B_SHIFT.
Definition ARM_TBFLAG_XSCALE_CPAR (F : Z) : Z :=
  (F .& ARM_TBFLAG_XSCALE_CPAR_MASK) .>> ARM_TBFLAG_XSCALE_CPAR_SHIFT.
Definition ARM_TBFLAG_NS (F : Z) : Z := (F .& ARM_TBFLAG_NS_MASK) .>> ARM_TBFLAG_NS_SHIFT.
Definition ARM_TBFLAG_BE_DATA (F : Z) : Z :=
  (F .& ARM_TBFLAG_BE_DATA_MASK) .>> ARM_TBFLAG_BE_DATA_SHIFT.

(** [*flags |= mask;] under a condition. *)
Definition flag_if (c : bool) (mask flags : Z) : Z := if c then flags .| mask else flags.

Definition aa32_flags (env : CPUARMState) : Z :=
  let flags :=
    u32 ((thumb env .<< ARM_TBFLAG_THUMB_SHIFT)
         .| (vec_len (vfp env) .<< ARM_TBFLAG_VECLEN_SHIFT)
         .| (vec_stride (vfp env) .<< ARM_TBFLAG_VECSTRIDE_SHIFT)
         .| (condexec_bits env .<< ARM_TBFLAG_CONDEXEC_SHIFT)
         .| (b2z (arm_sctlr_b env) .<< ARM_TBFLAG_SCTLR_B_SHIFT)) in
  let flags := flag_if (negb (access_secure_reg env)) ARM_TBFLAG_NS_MASK flags in
  let flags :=
    flag_if (truthy (xreg env ARM_VFP_FPEXC .& (1 .<< 30)) || arm_el_is_aa64 env 1)
      ARM_TBFLAG_VFPEN_MASK flags in
  flags .| u32 (extract32 (c15_cpar (sys env)) 0 2 .<< ARM_TBFLAG_XSCALE_CPAR_SHIFT).

(** [pc], [cs_base] and [flags]. *)
Definition cpu_get_tb_cpu_state (env : CPUARMState) : Z * Z * Z :=
  let pc := if is_a64 env then u32 (pc64 (sys env)) else nth 15 (regs env) 0 in
  let flags := if is_a64 env then ARM_TBFLAG_AARCH64_STATE_MASK else aa32_flags env in
  let flags := flags .| u32 (cpu_mmu_index env .<< ARM_TBFLAG_MMUIDX_SHIFT) in
  let flags := flag_if (arm_singlestep_active env) ARM_TBFLAG_SS_ACTIVE_MASK flags in
  let flags :=
    flag_if (arm_singlestep_active env
             && truthy ((if is_a64 env then pstate (sys env) else uncached_cpsr env) .& PSTATE_SS))
      ARM_TBFLAG_PSTATE_SS_MASK flags in
  let flags := flag_if (arm_cpu_data_is_big_endian env) ARM_TBFLAG_BE_DATA_MASK flags in
  let flags := flags .| u32 (fp_exception_el env .<< ARM_TBFLAG_FPEXC_EL_SHIFT) in
  (pc, 0, flags).

(** ** What the flags say *)

(** The fields that are packed have the width of their fields. *)
Record tb_state_wf (env : CPUARMState) : Prop := {
  tbw_thumb : inU 1 (thumb env);
  tbw_len : inU 3 (vec_len (vfp env));
  tbw_stride : inU 2 (vec_stride (vfp env));
  tbw_it : inU 8 (condexec_bits env)
}.

Lemma testbit_field w s x p :
  0 <= w -> 0 <= s -> s + w <= 32 -> inU w x -> 0 <= p ->
  Z.testbit (u32 (x .<< s)) p = (s <=? p) && (p <? s + w) && Z.testbit x (p - s).
Proof.
  intros Hw Hs Hb Hx Hp; rewrite testbit_wrap, Z.shiftl_spec by lia.
  destruct (Z.leb_spec s p); cbn [andb].
  - destruct (Z.ltb_spec p (s + w)), (Z.ltb_spec p 32); cbn [andb]; try lia; try reflexivity.
    apply (testbit_high w); [assumption|lia].
  - rewrite Z.testbit_neg_r by lia; apply andb_false_r.
Qed.

Lemma testbit_flag_if c k f p :
  0 <= k -> 0 <= p -> Z.testbit (flag_if c (1 .<< k) f) p = Z.testbit f p || (c && (p =? k)).
Proof.
  intros; unfold flag_if; destruct c; cbn [andb]; [|now rewrite orb_false_r].
  rewrite Z.lor_spec; f_equal; rewrite Z.shiftl_1_l, Z.pow2_bits_eqb by lia; apply Z.eqb_sym.
Qed.

Lemma b2z_inU b : inU 1 (b2z b).
Proof. destruct b; unfold inU; cbn; lia. Qed.

Lemma arm_current_el_range env : inU 2 (arm_current_el env).
Proof.
  unfold arm_current_el; destruct (arm_feature _ _); [eapply inU_le, b2z_inU; lia|].
  destruct (truthy _); [unfold extract32; rewrite extractw_wrap by lia; apply wrap_range; lia|].
  repeat match goal with |- context [if ?c then _ else _] => destruct c end; unfold inU; lia.
Qed.

Lemma fp_exception_el_range env : inU 2 (fp_exception_el env).
Proof.
  unfold fp_exception_el, fp_trap_el; cbv zeta.
  repeat match goal with |- context [if ?c then _ else _] => destruct c end; unfold inU; lia.
Qed.

(** A field of the flags is what was put in it. *)
Lemma flag_field F w s x :
  0 <= w -> 0 <= s -> inU w x ->
  (forall j, 0 <= j < w -> Z.testbit F (j + s) = Z.testbit x j) ->
  (F .& (Z.ones w .<< s)) .>> s = x.
Proof.
  intros Hw Hs Hx H; apply Z.bits_inj'; intros j Hj.
  rewrite Z.shiftr_spec, Z.land_spec, Z.shiftl_spec by lia.
  replace (j + s - s) with j by lia; rewrite Z.testbit_ones_nonneg by lia.
  destruct (Z.ltb_spec j w); [now rewrite H, andb_true_r by lia|].
  now rewrite andb_false_r, (testbit_high w x) by (assumption || lia).
Qed.

Lemma testbit_aa32_flags env p :
  tb_state_wf env -> 0 <= p < 32 ->
  Z.testbit (aa32_flags env) p =
    ((p =? 0) && Z.testbit (thumb env) p)
    || ((1 <=? p) && (p <? 4) && Z.testbit (vec_len (vfp env)) (p - 1))
    || ((4 <=? p) && (p <? 6) && Z.testbit (vec_stride (vfp env)) (p - 4))
    || ((8 <=? p) && (p <? 16) && Z.testbit (condexec_bits env) (p - 8))
    || ((p =? 16) && arm_sctlr_b env)
    || (negb (access_secure_reg env) && (p =? 19))
    || ((truthy (xreg env ARM_VFP_FPEXC .& (1 .<< 30)) || arm_el_is_aa64 env 1) && (p =? 7))
    || ((17 <=? p) && (p <? 19) && Z.testbit (extract32 (c15_cpar (sys env)) 0 2) (p - 17)).
Proof.
  intros [Ht Hl Hs Hi] Hp; unfold aa32_flags, ARM_TBFLAG_NS_MASK, ARM_TBFLAG_VFPEN_MASK; cbv zeta.
  rewrite Z.lor_spec, !testbit_flag_if by lia.
  rewrite !wrap_lor, !Z.lor_spec by lia.
  rewrite (testbit_field 1), (testbit_field 3), (testbit_field 2 _ (vec_stride _)), (testbit_field 8),
    (testbit_field 1 _ (b2z _)), (testbit_field 2 _ (extract32 _ _ _))
    by (unfold ARM_TBFLAG_THUMB_SHIFT, ARM_TBFLAG_VECLEN_SHIFT, ARM_TBFLAG_VECSTRIDE_SHIFT,
          ARM_TBFLAG_CONDEXEC_SHIFT, ARM_TBFLAG_SCTLR_B_SHIFT, ARM_TBFLAG_XSCALE_CPAR_SHIFT;
        assumption || lia || apply b2z_inU
        || (unfold extract32; rewrite extractw_wrap by lia; apply wrap_range; lia)).
  rewrite testbit_b2z.
  unfold ARM_TBFLAG_THUMB_SHIFT, ARM_TBFLAG_VECLEN_SHIFT, ARM_TBFLAG_VECSTRIDE_SHIFT,
    ARM_TBFLAG_CONDEXEC_SHIFT, ARM_TBFLAG_SCTLR_B_SHIFT, ARM_TBFLAG_XSCALE_CPAR_SHIFT.
  replace ((0 <=? p) && (p <? 0 + 1)) with (p =? 0) by (cases; lia).
  replace ((16 <=? p) && (p <? 16 + 1) && ((p - 16 =? 0) && arm_sctlr_b env))
    with ((p =? 16) && arm_sctlr_b env) by (destruct (arm_sctlr_b env); cases; lia).
  now rewrite Z.sub_0_r.
Qed.

Definition env_flags (env : CPUARMState) : Z := snd (cpu_get_tb_cpu_state env).

Definition single_step (env : CPUARMState) : bool :=
  truthy ((if is_a64 env then pstate (sys env) else uncached_cpsr env) .& PSTATE_SS).

Lemma cpu_mmu_index_el env : cpu_mmu_index env = arm_current_el env.
Proof. unfold cpu_mmu_index, arm_is_secure_below_el3; now rewrite andb_false_r. Qed.

Lemma testbit_tb_flags env p :
  0 <= p < 32 ->
  Z.testbit (env_flags env) p =
    (if is_a64 env then p =? 31 else Z.testbit (aa32_flags env) p)
    || ((28 <=? p) && (p <? 31) && Z.testbit (arm_current_el env) (p - 28))
    || (arm_singlestep_active env && (p =? 27))
    || (arm_singlestep_active env && single_step env && (p =? 26))
    || (arm_cpu_data_is_big_endian env && (p =? 20))
    || ((24 <=? p) && (p <? 26) && Z.testbit (fp_exception_el env) (p - 24)).
Proof.
  intros Hp; unfold env_flags, cpu_get_tb_cpu_state; cbn [snd].
  rewrite cpu_mmu_index_el.
  unfold ARM_TBFLAG_SS_ACTIVE_MASK, ARM_TBFLAG_PSTATE_SS_MASK, ARM_TBFLAG_BE_DATA_MASK,
    ARM_TBFLAG_MMUIDX_SHIFT, ARM_TBFLAG_FPEXC_EL_SHIFT; fold (single_step env).
  rewrite Z.lor_spec, !testbit_flag_if, Z.lor_spec by lia.
  rewrite (testbit_field 3), (testbit_field 2 24)
    by (lia || (eapply inU_le, arm_current_el_range; lia) || apply fp_exception_el_range).
  replace (Z.testbit (if is_a64 env then _ else _) p)
    with (if is_a64 env then p =? 31 else Z.testbit (aa32_flags env) p); [reflexivity|].
  destruct (is_a64 env); [|reflexivity].
  unfold ARM_TBFLAG_AARCH64_STATE_MASK; rewrite Z.shiftl_1_l, Z.pow2_bits_eqb by lia; apply Z.eqb_sym.
Qed.

(** Where the position of a bit in the flags is known, the other fields have no part in it. *)
Ltac decide_le :=
  repeat match goal with
  | |- context [?a <=? ?b] => first [rewrite (proj2 (Z.leb_le a b)) by lia | rewrite (proj2 (Z.leb_gt a b)) by lia]
  | |- context [?a <? ?b] => first [rewrite (proj2 (Z.ltb_lt a b)) by lia | rewrite (proj2 (Z.ltb_ge a b)) by lia]
  | |- context [?a =? ?b] => first [rewrite (proj2 (Z.eqb_eq a b)) by lia | rewrite (proj2 (Z.eqb_neq a b)) by lia]
  end.

Ltac flag_bits :=
  let j := fresh "j" in let Hj := fresh "Hj" in
  intros j Hj; rewrite testbit_tb_flags by lia;
  try match goal with E : is_a64 _ = false |- _ =>
    rewrite E, testbit_aa32_flags by (assumption || lia) end;
  rewrite ?testbit_b2z;
  try match goal with |- context [is_a64 ?e] =>
    destruct (is_a64 e) eqn:?; [|rewrite testbit_aa32_flags by (assumption || lia)] end;
  decide_le; cbn [andb orb]; rewrite ?andb_true_r, ?andb_false_r, ?orb_false_r, ?orb_true_r;
  cbn [andb orb];
  try match goal with |- Z.testbit _ ?a = Z.testbit _ ?b => replace a with b by lia end; reflexivity.

Lemma tb_flags_common env :
  tb_state_wf env ->
  ARM_TBFLAG_AARCH64_STATE (env_flags env) = b2z (is_a64 env) /\
  ARM_TBFLAG_MMUIDX (env_flags env) = cpu_mmu_index env /\
  ARM_TBFLAG_SS_ACTIVE (env_flags env) = b2z (arm_singlestep_active env) /\
  ARM_TBFLAG_PSTATE_SS (env_flags env) = b2z (arm_singlestep_active env && single_step env) /\
  ARM_TBFLAG_BE_DATA (env_flags env) = b2z (arm_cpu_data_is_big_endian env) /\
  ARM_TBFLAG_FPEXC_EL (env_flags env) = fp_exception_el env.
Proof.
  intros W; rewrite cpu_mmu_index_el; splits.
  - apply (flag_field _ 1 31); [lia|lia|apply b2z_inU|flag_bits].
  - apply (flag_field _ 3 28); [lia|lia|eapply inU_le, arm_current_el_range; lia|flag_bits].
  - apply (flag_field _ 1 27); [lia|lia|apply b2z_inU|flag_bits].
  - apply (flag_field _ 1 26); [lia|lia|apply b2z_inU|flag_bits].
  - apply (flag_field _ 1 20); [lia|lia|apply b2z_inU|flag_bits].
  - apply (flag_field _ 2 24); [lia|lia|apply fp_exception_el_range|flag_bits].
Qed.

Lemma tb_flags_aa32 env :
  tb_state_wf env -> is_a64 env = false ->
  ARM_TBFLAG_THUMB (env_flags env) = thumb env /\
  ARM_TBFLAG_VECLEN (env_flags env) = vec_len (vfp env) /\
  ARM_TBFLAG_VECSTRIDE (env_flags env) = vec_stride (vfp env) /\
  ARM_TBFLAG_CONDEXEC (env_flags env) = condexec_bits env /\
  ARM_TBFLAG_SCTLR_B (env_flags env) = b2z (arm_sctlr_b env) /\
  ARM_TBFLAG_NS (env_flags env) = b2z (negb (access_secure_reg env)) /\
  ARM_TBFLAG_VFPEN (env_flags env) =
    b2z (truthy (xreg env ARM_VFP_FPEXC .& (1 .<< 30)) || arm_el_is_aa64 env 1) /\
  ARM_TBFLAG_XSCALE_CPAR (env_flags env) = extract32 (c15_cpar (sys env)) 0 2.
Proof.
  intros W E; assert (X := W); destruct X as [Ht Hl Hs Hi]; splits.
  - unfold ARM_TBFLAG_THUMB; apply (flag_field _ 1 0); [lia|lia|assumption|flag_bits].
  - apply (flag_field _ 3 1); [lia|lia|assumption|flag_bits].
  - apply (flag_field _ 2 4); [lia|lia|assumption|flag_bits].
  - apply (flag_field _ 8 8); [lia|lia|assumption|flag_bits].
  - apply (flag_field _ 1 16); [lia|lia|apply b2z_inU|flag_bits].
  - apply (flag_field _ 1 19); [lia|lia|apply b2z_inU|flag_bits].
  - apply (flag_field _ 1 7); [lia|lia|apply b2z_inU|flag_bits].
  - apply (flag_field _ 2 17); [lia|lia| |flag_bits].
    unfold extract32; rewrite extractw_wrap by lia; apply wrap_range; lia.
Qed.

(** C39: the flags of a block determine the state its translation depends on: each field
    that cpu_get_tb_cpu_state packs is read back by the accessor of the decoder, no two
    fields overlap. *)
Theorem tb_flags_exact env :
  tb_state_wf env ->
  let '(pc, cs_base, F) := cpu_get_tb_cpu_state env in
  ARM_TBFLAG_AARCH64_STATE F = b2z (is_a64 env) /\ ARM_TBFLAG_MMUIDX F = cpu_mmu_index env /\
  ARM_TBFLAG_SS_ACTIVE F = b2z (arm_singlestep_active env) /\
  ARM_TBFLAG_PSTATE_SS F = b2z (arm_singlestep_active env && single_step env) /\
  ARM_TBFLAG_BE_DATA F = b2z (arm_cpu_data_is_big_endian env) /\
  ARM_TBFLAG_FPEXC_EL F = fp_exception_el env /\
  (is_a64 env = false ->
   pc = nth 15 (regs env) 0 /\
   ARM_TBFLAG_THUMB F = thumb env /\ ARM_TBFLAG_VECLEN F = vec_len (vfp env) /\
   ARM_TBFLAG_VECSTRIDE F = vec_stride (vfp env) /\ ARM_TBFLAG_CONDEXEC F = condexec_bits env /\
   ARM_TBFLAG_SCTLR_B F = b2z (arm_sctlr_b env) /\
   ARM_TBFLAG_NS F = b2z (negb (access_secure_reg env)) /\
   ARM_TBFLAG_VFPEN F = b2z (truthy (xreg env ARM_VFP_FPEXC .& (1 .<< 30)) || arm_el_is_aa64 env 1) /\
   ARM_TBFLAG_XSCALE_CPAR F = extract32 (c15_cpar (sys env)) 0 2).
Proof.
  intros W; destruct (cpu_get_tb_cpu_state env) as [[pc cs_base] F] eqn:E.
  assert (EF : env_flags env = F) by (unfold env_flags; now rewrite E).
  rewrite <- EF; destruct (tb_flags_common env W) as (A & B & C & D & G & H); splits; auto.
  intros N; split; [|now apply tb_flags_aa32].
  unfold cpu_get_tb_cpu_state in E; rewrite N in E; now injection E as <-.
Qed.

(** A CPU in Thumb state, inside an IT block, with VFP enabled. *)
Definition thumb_cpu : CPUARMState :=
  mkEnv (upd (repeat 0 16) 15 0x8000) ARM_CPU_MODE_USR 0 0 0 1 0 0 1 0xa8 0
    (mkVfp (repeat 0 64) (upd (repeat 0 16) ARM_VFP_FPEXC (1 .<< 30)) 3 1
       (mkFst 0 0 false false false) (mkFst 0 0 true true true))
    (mkSys 0x10 0 0 0 0 0 [0; 0x80; 0; 0] (repeat 0 4) 0x300000 0 0 0 0 0 0 0).

Lemma tb_flags_exact_witness :
  let '(pc, cs_base, F) := cpu_get_tb_cpu_state thumb_cpu in
  ARM_TBFLAG_MMUIDX F = 0 /\ ARM_TBFLAG_FPEXC_EL F = 0 /\ pc = 0x8000 /\
  ARM_TBFLAG_CONDEXEC F = 0xa8 /\ ARM_TBFLAG_SCTLR_B F = 1 /\ ARM_TBFLAG_VFPEN F = 1.
Proof.
  assert (W : tb_state_wf thumb_cpu) by (constructor; unfold inU; cbn; lia).
  pose proof (tb_flags_exact thumb_cpu W) as T; destruct (cpu_get_tb_cpu_state thumb_cpu) as [[pc cs] F].
  destruct T as (_ & A & _ & _ & _ & B & C); destruct (C eq_refl) as (D & _ & _ & _ & E & G & _ & H & _).
  rewrite A, B, D, E, G, H; repeat split; reflexivity.
Defined.
