(* ===== verification/NeonDetect.v ===== *)
(** * Finding the NEON instructions (tcg-arm/cpu-exec.c)

    [exec] is entered on an undefined-instruction trap; before a block is
    translated [neon_icount] decodes ahead and counts how many consecutive
    instructions the emulator has to run.  The classifiers are copies of the
    top of the decoder, with tests of masked bits; [mask_test] below is a
    decision procedure for such tests. *)

From Stdlib Require Import ZArith Lia List Bool.
From S2P Require Import Prelude Bitops Cpu BitRoute Psr TbFlags.
Import ListNotations.
Local Open Scope Z_scope.
Local Open Scope c_scope.

(** ** The code *)

(** Guest memory, byte by byte; the target is little endian. *)
Definition guest_memory : Type := Z -> Z.

Definition cpu_lduw_code (mem : guest_memory) (addr : Z) : Z :=
  mem (u32 addr) .| (mem (u32 (addr + 1)) .<< 8).

Definition cpu_ldl_code (mem : guest_memory) (addr : Z) : Z :=
  cpu_lduw_code mem addr .| (cpu_lduw_code mem (addr + 2) .<< 16).

Definition bswap16 (x : Z) : Z := ((x .& 0x00ff) .<< 8) .| ((x .& 0xff00) .>> 8).

Definition bswap32 (x : Z) : Z :=
  ((x .& 0x000000ff) .<< 24) .| ((x .& 0x0000ff00) .<< 8)
  .| ((x .& 0x00ff0000) .>> 8) .| ((x .& 0xff000000) .>> 24).

Definition bswap_code (sctlr_b : Z) : bool := truthy sctlr_b.

Definition arm_ldl_code (mem : guest_memory) (addr sctlr_b : Z) : Z :=
  let insn := cpu_ldl_code mem addr in
  if bswap_code sctlr_b then bswap32 insn else insn.

Definition arm_lduw_code (mem : guest_memory) (addr sctlr_b : Z) : Z :=
  let insn := cpu_lduw_code mem addr in
  if bswap_code sctlr_b then bswap16 insn else insn.

Definition is_arm_neon (insn : Z) : bool :=
  let handle_insn := false in
  let cond := insn .>> 28 in
  let handle_insn :=
    if cond =? 0xf then
      let handle_insn := if (insn .>> 25) .& 7 =? 1 then true else handle_insn in
      let handle_insn := if insn .& 0x0f100000 =? 0x04000000 then true else handle_insn in
      if insn .& 0x0f000e10 =? 0x0e000a00 then true else handle_insn
    else handle_insn in
  if insn .& 0x0f900000 =? 0x03000000 then handle_insn
  else if (insn .& 0x0f900000 =? 0x01000000) && negb (insn .& 0x00000090 =? 0x00000090) then handle_insn
  else if ((insn .& 0x0e000000 =? 0) && negb (insn .& 0x00000090 =? 0x90))
          || (insn .& 0x0e000000 =? 1 .<< 25) then handle_insn
  else
    let op1 := (insn .>> 24) .& 0xf in
    if (op1 =? 0xc) || (op1 =? 0xd) || (op1 =? 0xe) then
      if (insn .>> 8) .& 0xe =? 10 then true else handle_insn
    else handle_insn.

(** The last case of the [switch], also reached from the one above it. *)
Definition thumb2_ls (insn : Z) : bool := insn .& 0x01100000 =? 0x01000000.

Definition is_thumb2_insn (insn : Z) : bool :=
  let op := (insn .>> 25) .& 0xf in
  if (op =? 6) || (op =? 7) || (op =? 14) || (op =? 15) then
    if (insn .>> 24) .& 3 =? 3 then true
    else if (insn .>> 8) .& 0xe =? 10 then true
    else thumb2_ls insn
  else if op =? 12 then thumb2_ls insn
  else false.

Definition is_thumb2_neon (mem : guest_memory) (pc sctlr_b insn_hw1 : Z) : bool :=
  is_thumb2_insn (arm_lduw_code mem pc sctlr_b .| u32 (insn_hw1 .<< 16)).

Definition is_thumb_neon (mem : guest_memory) (pc sctlr_b insn : Z) : bool :=
  let handle_insn := false in
  if insn .>> 12 =? 14 then
    let handle_insn :=
      if truthy (insn .& (1 .<< 11)) then is_thumb2_neon mem pc sctlr_b insn else handle_insn in
    is_thumb2_neon mem pc sctlr_b insn
  else if insn .>> 12 =? 15 then is_thumb2_neon mem pc sctlr_b insn
  else handle_insn.

(** The loop over ARM instructions; [None] when it has not stopped. *)
Fixpoint neon_loop (fuel : nat) (mem : guest_memory) (pc sctlr_b icount : Z) : option Z :=
  match fuel with
  | O => None
  | S fuel =>
      if is_arm_neon (arm_ldl_code mem pc sctlr_b)
      then neon_loop fuel mem (u32 (pc + 4)) sctlr_b (icount + 1)
      else Some icount
  end.

Definition neon_icount (fuel : nat) (mem : guest_memory) (env : CPUARMState) (pc flags : Z) : option Z :=
  let cpsr := cpsr_read env .& 0xffffffff in
  let thumb := truthy (cpsr .& CPSR_T) in
  let sctlr_b := ARM_TBFLAG_SCTLR_B flags in
  let? icount := if negb thumb then neon_loop fuel mem pc sctlr_b 0 else Some 1 in
  Some (if icount =? 0 then 1 else icount).

(** ** Tests of masked bits *)

(** Boolean combinations of tests [(x & m) == v], decided by trying every
    combination of the bits that are looked at. *)
Inductive mask_test :=
| Test (m v : Z)
| Tand (a b : mask_test) | Tor (a b : mask_test) | Tnot (a : mask_test) | Tfalse | Ttrue
| Tif (c a b : mask_test).

Fixpoint holds (t : mask_test) (x : Z) : bool :=
  match t with
  | Test m v => x .& m =? v
  | Tand a b => holds a x && holds b x
  | Tor a b => holds a x || holds b x
  | Tnot a => negb (holds a x)
  | Tfalse => false
  | Ttrue => true
  | Tif c a b => if holds c x then holds a x else holds b x
  end.

Fixpoint looks_at (t : mask_test) : Z :=
  match t with
  | Test m _ => m
  | Tand a b | Tor a b => looks_at a .| looks_at b
  | Tnot a => looks_at a
  | Tfalse | Ttrue => 0
  | Tif c a b => looks_at c .| (looks_at a .| looks_at b)
  end.

Lemma holds_masked t x u : looks_at t .& Z.lnot u = 0 -> holds t (x .& u) = holds t x.
Proof.
  induction t as [m v|a IHa b IHb|a IHa b IHb|a IHa| | |c IHc a IHa b IHb]; cbn [holds looks_at];
    rewrite ?Z.land_lor_distr_l, ?Z.lor_eq_0_iff; intros E;
    try (now rewrite IHa, IHb by apply E); try (now rewrite IHa); try reflexivity;
    try (now rewrite IHc, IHa, IHb by apply E).
  f_equal; rewrite <- Z.land_assoc; f_equal.
  apply Z.bits_inj'; intros i Hi; rewrite Z.land_spec.
  pose proof (f_equal (fun z => Z.testbit z i) E) as B; cbn beta in B.
  rewrite Z.land_spec, Z.lnot_spec, Z.bits_0 in B by lia.
  destruct (Z.testbit m i), (Z.testbit u i); cbn in *; congruence.
Qed.

(** The numbers made of the given bits. *)
Fixpoint combinations (bits : list Z) : list Z :=
  match bits with
  | [] => [0]
  | b :: bits => let l := combinations bits in l ++ map (Z.lor (2 ^ b)) l
  end.

Definition bits_mask (bits : list Z) : Z := fold_right (fun b m => 2 ^ b .| m) 0 bits.

Lemma land_combinations x bits :
  Forall (fun b => 0 <= b) bits -> In (x .& bits_mask bits) (combinations bits).
Proof.
  induction 1 as [|b bits Hb _ IH]; cbn [bits_mask fold_right combinations]; [rewrite Z.land_0_r; now left|].
  fold (bits_mask bits); rewrite Z.land_lor_distr_r, land_pow2 by assumption; apply in_or_app.
  destruct (Z.testbit x b); [right; now apply in_map|now left].
Qed.

Definition same_tests (bits : list Z) (s t : mask_test) : bool :=
  forallb (Z.leb 0) bits
  && (looks_at s .& Z.lnot (bits_mask bits) =? 0) && (looks_at t .& Z.lnot (bits_mask bits) =? 0)
  && forallb (fun x => Bool.eqb (holds s x) (holds t x)) (combinations bits).

Lemma same_tests_sound bits s t x : same_tests bits s t = true -> holds s x = holds t x.
Proof.
  unfold same_tests; rewrite !andb_true_iff, !Z.eqb_eq; intros [[[Hb Hs] Ht] Hc].
  rewrite <- (holds_masked s x (bits_mask bits)), <- (holds_masked t x (bits_mask bits)) by assumption.
  rewrite forallb_forall in Hc; apply Bool.eqb_prop, Hc, land_combinations.
  rewrite forallb_forall in Hb; apply Forall_forall; intros b B; apply Z.leb_le, Hb, B.
Qed.

Lemma shift_test x k m v : 0 <= k -> ((x .>> k) .& m =? v) = (x .& (m .<< k) =? v .<< k).
Proof.
  intros Hk; apply Bool.eq_true_iff_eq; rewrite !Z.eqb_eq.
  assert (E : x .& (m .<< k) = ((x .>> k) .& m) .<< k).
  { apply Z.bits_inj'; intros i Hi; rewrite Z.land_spec, !Z.shiftl_spec by lia.
    destruct (Z.le_gt_cases k i); [|now rewrite !(Z.testbit_neg_r _ (i - k)), andb_false_r by lia].
    rewrite Z.land_spec, Z.shiftr_spec by lia; do 2 f_equal; lia. }
  rewrite E; split; [now intros ->|]; intros H.
  rewrite !Z.shiftl_mul_pow2 in H by lia; apply Z.mul_cancel_r in H; auto.
  pose proof (pow2_pos k Hk); lia.
Qed.


(** ** ARM instructions *)

(** Advanced SIMD data processing, Advanced SIMD element or structure load and
    store, and the coprocessor space of the coprocessors 10 and 11. *)
Definition simd_data (insn : Z) : bool := insn .& 0xfe000000 =? 0xf2000000.
Definition simd_load_store (insn : Z) : bool := insn .& 0xff100000 =? 0xf4000000.
Definition vfp_space (insn : Z) : bool :=
  (insn .& 0x0c000e00 =? 0x0c000a00) && negb (insn .& 0x0f000000 =? 0x0f000000).

Definition neon_class : mask_test :=
  Tor (Tor (Test 0xfe000000 0xf2000000) (Test 0xff100000 0xf4000000))
    (Tand (Test 0x0c000e00 0x0c000a00) (Tnot (Test 0x0f000000 0x0f000000))).

Definition neon_tests : mask_test :=
  let handle :=
    Tif (Test 0xf0000000 0xf0000000)
      (Tif (Test 0x0f000e10 0x0e000a00) Ttrue
        (Tif (Test 0x0f100000 0x04000000) Ttrue (Tif (Test 0x0e000000 0x02000000) Ttrue Tfalse)))
      Tfalse in
  Tif (Test 0x0f900000 0x03000000) handle
    (Tif (Tand (Test 0x0f900000 0x01000000) (Tnot (Test 0x90 0x90))) handle
       (Tif (Tor (Tand (Test 0x0e000000 0) (Tnot (Test 0x90 0x90))) (Test 0x0e000000 0x02000000)) handle
          (Tif (Tor (Tor (Test 0x0f000000 0x0c000000) (Test 0x0f000000 0x0d000000)) (Test 0x0f000000 0x0e000000))
             (Tif (Test 0xe00 0xa00) Ttrue handle) handle))).

Lemma is_arm_neon_tests insn : inU 32 insn -> is_arm_neon insn = holds neon_tests insn.
Proof.
  intros H; unfold is_arm_neon; cbv zeta.
  replace (insn .>> 28) with ((insn .>> 28) .& 0xf) by
    (change 0xf with (Z.ones 4); rewrite Z.land_ones, Z.shiftr_div_pow2 by lia; apply Z.mod_small;
     unfold inU in H; split; [apply Z.div_pos|apply Z.div_lt_upper_bound]; lia).
  rewrite !shift_test by lia; reflexivity.
Qed.

Lemma is_arm_neon_class insn :
  inU 32 insn -> is_arm_neon insn = simd_data insn || simd_load_store insn || vfp_space insn.
Proof.
  intros H; rewrite is_arm_neon_tests by assumption.
  change (simd_data insn || simd_load_store insn || vfp_space insn) with (holds neon_class insn).
  apply (same_tests_sound [31; 30; 29; 28; 27; 26; 25; 24; 23; 20; 11; 10; 9; 7; 4]).
  vm_compute; reflexivity.
Qed.

(** ** Instruction words *)

Definition guest_bytes (mem : guest_memory) : Prop := forall a, inU 8 (mem a).

(** The word at an address: little endian, or big endian where SCTLR.B is set. *)
Definition insn_word (mem : guest_memory) (addr : Z) (big : bool) : Z :=
  let b i := mem (u32 (addr + i)) in
  if big then (b 0 .<< 24) .| (b 1 .<< 16) .| (b 2 .<< 8) .| b 3
  else b 0 .| (b 1 .<< 8) .| (b 2 .<< 16) .| (b 3 .<< 24).

Lemma arm_ldl_code_word mem addr big :
  guest_bytes mem ->
  arm_ldl_code mem addr (b2z big) = insn_word mem addr big /\ inU 32 (insn_word mem addr big).
Proof.
  intros G; pose proof (G (u32 (addr + 0))) as H0; pose proof (G (u32 (addr + 1))) as H1.
  pose proof (G (u32 (addr + 2))) as H2; pose proof (G (u32 (addr + 3))) as H3.
  unfold arm_ldl_code, cpu_ldl_code, cpu_lduw_code, insn_word, bswap_code; cbv zeta.
  replace (addr + 2 + 1) with (addr + 3) by lia.
  replace (u32 addr) with (u32 (addr + 0)) by (f_equal; lia).
  clear G; revert H0 H1 H2 H3.
  generalize (mem (u32 (addr + 0))), (mem (u32 (addr + 1))), (mem (u32 (addr + 2))), (mem (u32 (addr + 3))).
  intros b0 b1 b2 b3 H0 H1 H2 H3.
  destruct big; cbn [b2z truthy Z.eqb negb]; unfold bswap32; split; route.
Qed.

(** ** Counting *)

Definition is_neon (insn : Z) : bool := simd_data insn || simd_load_store insn || vfp_space insn.

Section Counting.
Variables (mem : guest_memory) (big : bool) (pc : Z).
Hypothesis bytes : guest_bytes mem.

Definition insn_at (i : nat) : Z := insn_word mem (u32 (pc + 4 * Z.of_nat i)) big.

Lemma next_insn i : u32 (u32 (pc + 4 * Z.of_nat i) + 4) = u32 (pc + 4 * Z.of_nat (S i)).
Proof. rewrite wrap_add_l by lia; f_equal; lia. Qed.

Lemma neon_loop_counts k : forall i fuel,
  (forall j, (i <= j < i + k)%nat -> is_neon (insn_at j) = true) ->
  is_neon (insn_at (i + k)) = false -> (k < fuel)%nat ->
  neon_loop fuel mem (u32 (pc + 4 * Z.of_nat i)) (b2z big) (Z.of_nat i) = Some (Z.of_nat (i + k)).
Proof.
  induction k as [|k IH]; intros i [|fuel] Hin Hout Hf; try lia; cbn [neon_loop];
    destruct (arm_ldl_code_word mem (u32 (pc + 4 * Z.of_nat i)) big bytes) as [-> R];
    rewrite is_arm_neon_class by assumption; fold (insn_at i) (is_neon (insn_at i)).
  - rewrite Nat.add_0_r in *; now rewrite Hout.
  - rewrite Hin by lia; rewrite next_insn; replace (Z.of_nat i + 1) with (Z.of_nat (S i)) by lia.
    rewrite IH; [do 2 f_equal; lia| |now rewrite Nat.add_succ_comm|lia].
    intros j Hj; apply Hin; lia.
Qed.

End Counting.

Lemma thumb_bit env : cpsr_wf env -> truthy (cpsr_read env .& 0xffffffff .& CPSR_T) = (thumb env =? 1).
Proof.
  intros W; unfold CPSR_T; rewrite truthy_land_bit, Z.land_spec, testbit_cpsr_read by (assumption || lia).
  pose proof (wf_thumb env W) as H; unfold inU in H.
  assert (C : thumb env = 0 \/ thumb env = 1) by lia.
  change (cpsr_bit env 5) with (Z.testbit (thumb env) 0); now destruct C as [-> | ->].
Qed.

(** C38: neon_icount returns the number of consecutive instructions at pc that are
    Advanced SIMD data processing, Advanced SIMD loads and stores or in the coprocessor
    space 10 and 11, at least 1, reading memory in the byte order of SCTLR.B, and 1 in
    Thumb state. *)
Theorem neon_icount_exact mem env pc F k fuel :
  guest_bytes mem -> cpsr_wf env -> tb_state_wf env -> is_a64 env = false -> inU 32 pc ->
  F = env_flags env -> (k < fuel)%nat ->
  (forall j, (j < k)%nat -> is_neon (insn_at mem (arm_sctlr_b env) pc j) = true) ->
  is_neon (insn_at mem (arm_sctlr_b env) pc k) = false ->
  neon_icount fuel mem env pc F = Some (if thumb env =? 1 then 1 else Z.max 1 (Z.of_nat k)).
Proof.
  intros G W T A P -> Hf Hin Hout; unfold neon_icount; cbv zeta; rewrite thumb_bit by assumption.
  destruct (tb_flags_aa32 env T A) as (_ & _ & _ & _ & -> & _).
  destruct (thumb env =? 1); cbn [negb]; [reflexivity|].
  replace pc with (u32 (pc + 4 * Z.of_nat 0)) at 1 by (rewrite Z.add_0_r; now apply wrap_id).
  change 0 with (Z.of_nat 0) at 2.
  rewrite (neon_loop_counts mem (arm_sctlr_b env) pc G k 0) by (assumption || (intros; apply Hin; lia)).
  cbn [Nat.add]; destruct (Z.eqb_spec (Z.of_nat k) (Z.of_nat 0)); f_equal; lia.
Qed.


(** VADD, VLD1 and VMUL.F32, then a return. *)
Definition neon_code : guest_memory := fun a =>
  let insn := nth (Z.to_nat (a / 4 - 0x2000)) [0xf2200842; 0xf420078f; 0xee200a20; 0xe12fff1e] 0 in
  (insn .>> (8 * (a mod 4))) .& 0xff.

Lemma neon_icount_exact_witness : neon_icount 10 neon_code user_cpu 0x8000 (env_flags user_cpu) = Some 3.
Proof.
  apply (neon_icount_exact neon_code user_cpu 0x8000 (env_flags user_cpu) 3).
  - intros a; unfold neon_code; rewrite Z.land_comm; apply land_range; unfold inU; lia.
  - exact user_cpu_wf.
  - constructor; unfold inU; cbn; lia.
  - reflexivity.
  - unfold inU; lia.
  - reflexivity.
  - lia.
  - intros [|[|[|j]]] H; [vm_compute; reflexivity..|lia].
  - vm_compute; reflexivity.
Defined.

(** ** Thumb instructions *)

(** The classes of the decoder: in the coprocessor space, Advanced SIMD data
    processing or the coprocessors 10 and 11; elsewhere, the element loads and
    stores. *)
Definition thumb2_class : mask_test :=
  let coprocessor := Test 0x0c000000 0x0c000000 in
  Tor (Tand coprocessor (Tor (Test 0x03000000 0x03000000) (Test 0xe00 0xa00)))
    (Test 0x1f100000 0x19000000).

Definition thumb2_tests : mask_test :=
  let op v := Test (0xf .<< 25) (v .<< 25) in
  let ls := Test 0x01100000 0x01000000 in
  Tif (Tor (Tor (Tor (op 6) (op 7)) (op 14)) (op 15))
    (Tif (Test 0x03000000 0x03000000) Ttrue (Tif (Test 0xe00 0xa00) Ttrue ls))
    (Tif (op 12) ls Tfalse).

(** For want of a [break] the test for element loads and stores is applied to
    the coprocessor space too: besides the classes of the decoder, every
    coprocessor instruction with bit 24 set and bit 20 clear counts as NEON. *)
Lemma is_thumb2_insn_class insn :
  is_thumb2_insn insn =
    holds thumb2_class insn || ((insn .& 0x0c000000 =? 0x0c000000) && (insn .& 0x01100000 =? 0x01000000)).
Proof.
  change (_ || _) with
    (holds (Tor thumb2_class (Tand (Test 0x0c000000 0x0c000000) (Test 0x01100000 0x01000000))) insn).
  transitivity (holds thumb2_tests insn).
  - unfold is_thumb2_insn; cbv zeta; rewrite !shift_test by lia; reflexivity.
  - apply (same_tests_sound [28; 27; 26; 25; 24; 20; 11; 10; 9]); vm_compute; reflexivity.
Qed.

(** STC p1: a store of coprocessor 1 is taken for a NEON instruction. *)
Example thumb2_stc_is_neon : is_thumb2_insn 0xed000100 = true /\ holds thumb2_class 0xed000100 = false.
Proof. split; reflexivity. Qed.
