(* ===== verification/SearchData.v ===== *)
(** * Host addresses back to guest instructions (translate-all.c)

    Behind the code of a translation block lies a compressed table: for every
    guest instruction, the words the front end recorded for it (the pc, the IT
    bits, the syndrome) and the offset at which its host code ends, as signed
    LEB128 differences to the row before.  [cpu_restore_state_from_tb] decodes
    it to find the guest state at a host address. *)

From Stdlib Require Import ZArith Lia List Bool.
From S2P Require Import Prelude Bitops Cpu Psr TbFlags.
Import ListNotations.
Local Open Scope Z_scope.
Local Open Scope c_scope.

(** ** Signed LEB128 *)

(** [None] when the loop has not stopped. *)
Fixpoint encode_loop (fuel : nat) (val : Z) : option (list Z) :=
  match fuel with
  | O => None
  | S fuel =>
      let byte := val .& 0x7f in
      let val := val .>> 7 in
      let more := negb (((val =? 0) && (byte .& 0x40 =? 0)) || ((val =? -1) && negb (byte .& 0x40 =? 0))) in
      if more then let? p := encode_loop fuel val in Some ((byte .| 0x80) :: p)
      else Some [byte]
  end.

(** A 32-bit value has at most five groups of seven bits. *)
Definition encode_sleb128 (val : Z) : option (list Z) := encode_loop 5 val.

(** [None] when the bytes run out. *)
Fixpoint decode_loop (p : list Z) (val shift : Z) : option (Z * Z * Z * list Z) :=
  match p with
  | [] => None
  | byte :: p =>
      let val := val .| u32 ((byte .& 0x7f) .<< shift) in
      let shift := shift + 7 in
      if truthy (byte .& 0x80) then decode_loop p val shift else Some (val, shift, byte, p)
  end.

Definition TARGET_LONG_BITS : Z := 32.

Definition decode_sleb128 (p : list Z) : option (Z * list Z) :=
  let? (val, shift, byte, p) := decode_loop p 0 0 in
  let val :=
    if (shift <? TARGET_LONG_BITS) && truthy (byte .& 0x40)
    then val .| u32 (u32 (-1) .<< shift) else val in
  Some (swrap 32 val, p).

(** ** The table *)

Record insn_row := mkRow {
  gen_insn_data : list Z;      (* target_ulong [TARGET_INSN_START_WORDS] *)
  gen_insn_end_off : Z         (* uint16_t *)
}.

Definition TARGET_INSN_START_WORDS : nat := 3.

(** The inner loop of [encode_search]: one row against the one before. *)
Fixpoint encode_words (prev data : list Z) : option (list Z) :=
  match prev, data with
  | x :: prev, y :: data =>
      let? p := encode_sleb128 (swrap 32 (u32 (y - x))) in
      let? q := encode_words prev data in Some (p ++ q)
  | _, _ => Some []
  end.

Definition encode_row (prev row : insn_row) : option (list Z) :=
  let? p := encode_words (gen_insn_data prev) (gen_insn_data row) in
  let? q := encode_sleb128 (swrap 32 (u32 (gen_insn_end_off row - gen_insn_end_off prev))) in
  Some (p ++ q).

(** [p] is the address after the bytes written so far; [None] is the return of -1. *)
Fixpoint encode_rows (highwater p : Z) (prev : insn_row) (rows : list insn_row) : option (list Z) :=
  match rows with
  | [] => Some []
  | row :: rows =>
      let? bytes := encode_row prev row in
      let p := p + Z.of_nat (length bytes) in
      if highwater <? p then None
      else let? rest := encode_rows highwater p row rows in Some (bytes ++ rest)
  end.

(** The row the first one is compared with. *)
Definition seed_row (pc : Z) : insn_row := mkRow (pc :: repeat 0 (TARGET_INSN_START_WORDS - 1)) 0.

Definition encode_search (highwater block pc : Z) (rows : list insn_row) : option (list Z) :=
  encode_rows highwater block (seed_row pc) rows.

(** ** Decoding *)

(** [for (j...) data[j] += decode_sleb128(&p);] *)
Fixpoint decode_words (data p : list Z) : option (list Z * list Z) :=
  match data with
  | [] => Some ([], p)
  | x :: data =>
      let? (d, p) := decode_sleb128 p in
      let? (data, p) := decode_words data p in Some (u32 (x + d) :: data, p)
  end.

(** The loop over the instructions: the index and the words of the one found. *)
Fixpoint search_rows (n i : nat) (data : list Z) (host_pc searched_pc : Z) (p : list Z)
    : option (option (nat * list Z)) :=
  match n with
  | O => Some None
  | S n =>
      let? (data, p) := decode_words data p in
      let? (d, p) := decode_sleb128 p in
      let host_pc := u32 (host_pc + d) in
      if searched_pc <? host_pc then Some (Some (i, data))
      else search_rows n (S i) data host_pc searched_pc p
  end.

Definition ARM_INSN_START_WORD2_SHIFT : Z := 14.

(** The state after [restore_state_to_opc], and the syndrome. *)
Definition restore_state_to_opc (env : CPUARMState) (data : list Z) : CPUARMState * Z :=
  let syndrome := u32 (nth 2 data 0 .<< ARM_INSN_START_WORD2_SHIFT) in
  let s := sys env in
  let set_it it regs sys :=
    mkEnv regs (uncached_cpsr env) (CF env) (VF env) (NF env) (ZF env) (QF env) (GE env)
      (thumb env) it (daif env) (vfp env) sys in
  if is_a64 env then
    (set_it 0 (regs env)
       (mkSys (features s) (aarch64 s) (pstate s) (nth 0 data 0) (scr_el3 s) (hcr_el2 s) (sctlr_el s)
          (cptr_el s) (cpacr_el1 s) (mdscr_el1 s) (mdcr_el2 s) (mdcr_el3 s) (sder s) (c15_cpar s)
          (v7m_control s) (v7m_exception s)), syndrome)
  else (set_it (nth 1 data 0) (upd (regs env) 15 (nth 0 data 0)) s, syndrome).

(** The part of [CPUState] that counts instructions. *)
Record icount_state := mkIcount { icount_decr_low : Z; can_do_io : bool }.

Definition CF_USE_ICOUNT : Z := 0x20000.

Inductive restored :=
| Restored (env : CPUARMState) (syndrome : Z) (ic : icount_state)
| NotFound.

(** [None] is a read beyond the table; [tc_search] is the bytes from there on. *)
Definition cpu_restore_state_from_tb (env : CPUARMState) (ic : icount_state)
    (pc tc_ptr cflags : Z) (icount : nat) (tc_search : list Z) (searched_pc : Z) : option restored :=
  if searched_pc <? tc_ptr then Some NotFound
  else
    let? found := search_rows icount 0 (gen_insn_data (seed_row pc)) tc_ptr searched_pc tc_search in
    match found with
    | None => Some NotFound
    | Some (i, data) =>
        let ic :=
          if truthy (cflags .& CF_USE_ICOUNT)
          then mkIcount (u16 (icount_decr_low ic + Z.of_nat icount)) false else ic in
        let ic := mkIcount (u16 (icount_decr_low ic - Z.of_nat i)) (can_do_io ic) in
        let (env, syndrome) := restore_state_to_opc env data in
        Some (Restored env syndrome ic)
    end.

(** ** The round trip of a number *)

Lemma low7 v : v .& 0x7f = v mod 128.
Proof. change 0x7f with (Z.ones 7); now rewrite Z.land_ones by lia. Qed.

Lemma sign6 b : 0 <= b < 128 -> (b .& 0x40 =? 0) = (b <? 64).
Proof.
  intros H; change 0x40 with (2 ^ 6); rewrite land_pow2 by lia.
  change 6 with (7 - 1); rewrite (testbit_top 7) by (unfold inU; lia).
  change (2 ^ (7 - 1)) with 64; destruct (Z.leb_spec 64 b), (Z.ltb_spec b 64); lia || reflexivity.
Qed.

Lemma last_byte b : 0 <= b < 128 -> truthy (b .& 0x80) = false.
Proof.
  intros H; change 0x80 with (2 ^ 7); rewrite truthy_land_pow2 by lia.
  apply (testbit_high 7); [unfold inU|]; lia.
Qed.

Lemma more_byte b : 0 <= b < 128 -> (b .| 0x80) .& 0x7f = b /\ truthy ((b .| 0x80) .& 0x80) = true.
Proof.
  intros H; split.
  - rewrite Z.land_lor_distr_l; change (0x80 .& 0x7f) with 0; rewrite Z.lor_0_r, low7; apply Z.mod_small; lia.
  - change 0x80 with (2 ^ 7) at 2; rewrite truthy_land_pow2, Z.lor_spec by lia; apply orb_true_r.
Qed.

(** The shift of each round. *)
Definition sleb_shift (s : Z) : Prop := s = 0 \/ s = 7 \/ s = 14 \/ s = 21 \/ s = 28.

Lemma append_group acc b s :
  sleb_shift s -> inU s acc -> 0 <= b -> b * 2 ^ s < 2 ^ 32 ->
  acc .| u32 (b .<< s) = acc + b * 2 ^ s.
Proof.
  intros S Ha Hb Hr.
  assert (0 <= s) by (unfold sleb_shift in S; lia).
  rewrite wrap_id; [now apply lor_shiftl_add|].
  rewrite Z.shiftl_mul_pow2 by assumption; unfold inU; pose proof (pow2_pos s); nia.
Qed.

(** What the decoder makes of the last byte. *)
Definition finish (val shift byte : Z) : Z :=
  swrap 32 (if (shift <? TARGET_LONG_BITS) && truthy (byte .& 0x40)
            then val .| u32 (u32 (-1) .<< shift) else val).

Lemma truthy_bit6 b : 0 <= b < 128 -> truthy (b .& 0x40) = negb (b <? 64).
Proof. intros H; unfold truthy; now rewrite sign6. Qed.

Lemma finish_last acc v s :
  sleb_shift s -> inU s acc -> -64 <= v < 64 -> inS 32 (acc + v * 2 ^ s) ->
  finish (acc .| u32 ((v mod 128) .<< s)) (s + 7) (v mod 128) = acc + v * 2 ^ s.
Proof.
  intros S Ha Hv Hr; unfold finish, TARGET_LONG_BITS.
  rewrite truthy_bit6 by (apply Z.mod_pos_bound; lia).
  destruct (Z.le_gt_cases 0 v) as [P|N].
  - rewrite Z.mod_small by lia; rewrite (proj2 (Z.ltb_lt v 64)) by lia; cbn [negb]; rewrite andb_false_r.
    rewrite append_group; auto; [now apply swrap_id|].
    unfold inS in Hr; unfold inU in Ha; change (2 ^ (32 - 1)) with 2147483648 in Hr; lia.
  - assert (E : v mod 128 = v + 128) by (symmetry; apply (Z.mod_unique _ _ (-1)); lia).
    rewrite E, (proj2 (Z.ltb_ge (v + 128) 64)) by lia; cbn [negb]; rewrite andb_true_r.
    destruct (Z.ltb_spec (s + 7) 32).
    + assert (Q : s = 0 \/ s = 7 \/ s = 14 \/ s = 21) by (unfold sleb_shift in S; lia).
      rewrite (append_group acc (v + 128) s); [|assumption|assumption|lia|destruct Q as [-> | [-> | [-> | ->]]]; cbn; lia].
      replace (u32 (u32 (-1) .<< (s + 7))) with ((2 ^ (25 - s) - 1) .<< (s + 7))
        by (destruct Q as [-> | [-> | [-> | ->]]]; reflexivity).
      rewrite lor_shiftl_add by (unfold inU in *; destruct Q as [-> | [-> | [-> | ->]]]; cbn in *; lia).
      rewrite <- (swrap_id 32 (acc + v * 2 ^ s)) by (assumption || lia).
      apply swrap_eq_wrap; [lia|]; apply wrap_eq_iff; [lia|]; exists 1.
      destruct Q as [-> | [-> | [-> | ->]]]; cbn; lia.
    + assert (s = 28) as -> by (unfold sleb_shift in S; lia).
      unfold inU, inS in *; change (2 ^ 28) with 268435456 in *; change (2 ^ (32 - 1)) with 2147483648 in *.
      replace (u32 ((v + 128) .<< 28)) with ((v + 16) .<< 28).
      2:{ rewrite !Z.shiftl_mul_pow2 by lia; symmetry; rewrite <- (wrap_id 32 ((v + 16) * 2 ^ 28)) by (unfold inU; cbn; lia).
          apply wrap_eq_iff; [lia|]; exists 7; cbn; lia. }
      rewrite lor_shiftl_add by (unfold inU; cbn; lia).
      rewrite <- (swrap_id 32 (acc + v * 268435456)) by (unfold inS; cbn; lia).
      apply swrap_eq_wrap; [lia|]; apply wrap_eq_iff; [lia|]; exists 1; cbn; lia.
Qed.

Lemma decode_encode_loop n : forall v acc rest s,
  s = 35 - 7 * Z.of_nat n -> (1 <= n <= 5)%nat -> inU s acc -> inS 32 (acc + v * 2 ^ s) ->
  exists bytes val shift byte,
    encode_loop n v = Some bytes /\ (length bytes <= n)%nat /\ Forall (inU 8) bytes /\
    decode_loop (bytes ++ rest) acc s = Some (val, shift, byte, rest) /\
    finish val shift byte = acc + v * 2 ^ s.
Proof.
  induction n as [|n IH]; intros v acc rest s Es Hn Ha Hr; [lia|].
  assert (Sh : sleb_shift s) by (unfold sleb_shift; lia).
  assert (B : 0 <= v mod 128 < 128) by (apply Z.mod_pos_bound; lia).
  cbn [encode_loop]; rewrite low7, Z.shiftr_div_pow2, sign6 by (assumption || lia); change (2 ^ 7) with 128.
  destruct (((v / 128 =? 0) && (v mod 128 <? 64)) || ((v / 128 =? -1) && negb (v mod 128 <? 64))) eqn:D; cbn [negb].
  - assert (-64 <= v < 64).
    { pose proof (Z.div_mod v 128); apply orb_prop in D as [D|D]; apply andb_prop in D as [D D'];
        apply Z.eqb_eq in D; [apply Z.ltb_lt in D'|apply negb_true_iff, Z.ltb_ge in D']; lia. }
    exists [v mod 128], (acc .| u32 ((v mod 128) .<< s)), (s + 7), (v mod 128).
    splits; auto; [cbn; lia|repeat constructor; lia| |now apply finish_last].
    cbn [app decode_loop]; rewrite last_byte, low7 by assumption.
    now rewrite (Z.mod_small (v mod 128)) by assumption.
  - assert (n <> 0%nat).
    { intros ->; assert (s = 28) as -> by lia; unfold inU, inS in *; cbn in Ha, Hr.
      pose proof (Z.div_mod v 128); assert (v / 128 = 0 \/ v / 128 = -1) as [E|E] by lia;
        rewrite E in D; cbn in D; destruct (Z.ltb_spec (v mod 128) 64); try discriminate; lia. }
    assert (P7 : 2 ^ (s + 7) = 128 * 2 ^ s) by (rewrite Z.pow_add_r by lia; lia).
    assert (Eq : acc + (v mod 128) * 2 ^ s + v / 128 * 2 ^ (s + 7) = acc + v * 2 ^ s).
    { rewrite P7; pose proof (Z.div_mod v 128); nia. }
    assert (Hs : s <= 21) by lia.
    assert (Ha' : inU (s + 7) (acc + (v mod 128) * 2 ^ s)).
    { unfold inU in *; rewrite P7; pose proof (pow2_pos s); nia. }
    destruct (IH (v / 128) (acc + (v mod 128) * 2 ^ s) rest (s + 7)) as (bytes & val & sh & byte & E & L & F & Dc & Fi);
      [lia|lia|assumption|now rewrite Eq|].
    rewrite E; exists ((v mod 128 .| 0x80) :: bytes), val, sh, byte; splits; auto; [cbn; lia| | |now rewrite Fi].
    + constructor; [|assumption]; apply lor_range; unfold inU; lia.
    + destruct (more_byte (v mod 128) B) as [M1 M2]; cbn [app decode_loop]; rewrite M1, M2.
      rewrite append_group; auto; try lia.
      pose proof (Z.pow_le_mono_r 2 s 21); nia.
Qed.

Lemma sleb128_roundtrip v rest :
  inS 32 v ->
  exists bytes, encode_sleb128 v = Some bytes /\ (length bytes <= 5)%nat /\ Forall (inU 8) bytes /\
    decode_sleb128 (bytes ++ rest) = Some (v, rest).
Proof.
  intros H; destruct (decode_encode_loop 5 v 0 rest 0) as (bytes & val & sh & byte & E & L & F & D & Fi);
    [reflexivity|lia|unfold inU; lia|now rewrite Z.mul_1_r|].
  exists bytes; splits; auto; unfold decode_sleb128; rewrite D.
  unfold finish in Fi; now rewrite Fi, Z.mul_1_r.
Qed.

(** ** The round trip of the table *)

Lemma delta_back x y : inU 32 y -> u32 (x + swrap 32 (u32 (y - x))) = y.
Proof.
  intros H; rewrite swrap_wrap by lia; rewrite <- wrap_add_r, wrap_swrap, wrap_add_r by lia.
  replace (x + (y - x)) with y by lia; now apply wrap_id.
Qed.

Record row_wf (row : insn_row) : Prop := {
  row_words : length (gen_insn_data row) = TARGET_INSN_START_WORDS;
  row_range : Forall (inU 32) (gen_insn_data row);
  row_off : inU 16 (gen_insn_end_off row)
}.

Lemma encode_words_ok prev : forall data rest,
  length prev = length data -> Forall (inU 32) data ->
  exists bytes, encode_words prev data = Some bytes /\ (length bytes <= 5 * length data)%nat /\
    decode_words prev (bytes ++ rest) = Some (data, rest).
Proof.
  induction prev as [|x prev IH]; intros [|y data] rest L F; try discriminate L; cbn [encode_words decode_words].
  - exists []; splits; auto.
  - inversion F as [|? ? Hy F']; subst.
    destruct (sleb128_roundtrip (swrap 32 (u32 (y - x))) []) as (p & Ep & Lp & _); [apply swrap_range; lia|].
    destruct (IH data rest) as (q & Eq & Lq & Dq); [cbn in L; lia|assumption|].
    destruct (sleb128_roundtrip (swrap 32 (u32 (y - x))) (q ++ rest)) as (p' & Ep' & _ & _ & Dp); [apply swrap_range; lia|].
    assert (p' = p) as -> by congruence.
    rewrite Ep, Eq; exists (p ++ q); splits; auto; [rewrite length_app; cbn [length]; lia|].
    now rewrite <- app_assoc, Dp, Dq, delta_back.
Qed.

Lemma encode_row_ok prev row tc_ptr rest :
  length (gen_insn_data prev) = TARGET_INSN_START_WORDS -> row_wf row ->
  exists bytes, encode_row prev row = Some bytes /\ (length bytes <= 20)%nat /\
    (let? (data, p) := decode_words (gen_insn_data prev) (bytes ++ rest) in
     let? (d, p) := decode_sleb128 p in
     Some (data, u32 (u32 (tc_ptr + gen_insn_end_off prev) + d), p)) =
    Some (gen_insn_data row, u32 (tc_ptr + gen_insn_end_off row), rest).
Proof.
  intros Lp [L F O]; unfold encode_row.
  destruct (sleb128_roundtrip (swrap 32 (u32 (gen_insn_end_off row - gen_insn_end_off prev))) rest)
    as (q & Eq & Lq & _ & Dq); [apply swrap_range; lia|].
  destruct (encode_words_ok (gen_insn_data prev) (gen_insn_data row) (q ++ rest)) as (p & Ep & Lw & Dp);
    [congruence|assumption|].
  rewrite Ep, Eq; exists (p ++ q); splits; auto.
  - rewrite length_app; unfold TARGET_INSN_START_WORDS in *; lia.
  - rewrite <- app_assoc, Dp, Dq; do 3 f_equal.
    rewrite wrap_add_l, swrap_wrap, <- wrap_add_r, wrap_swrap, wrap_add_r by lia; f_equal; lia.
Qed.

(** The first row whose host code ends behind the address. *)
Fixpoint find_row (i : nat) (tc_ptr searched_pc : Z) (rows : list insn_row) : option (nat * list Z) :=
  match rows with
  | [] => None
  | row :: rows =>
      if searched_pc <? u32 (tc_ptr + gen_insn_end_off row) then Some (i, gen_insn_data row)
      else find_row (S i) tc_ptr searched_pc rows
  end.

Lemma search_rows_ok tc_ptr searched_pc highwater rest rows : forall prev p i bytes,
  length (gen_insn_data prev) = TARGET_INSN_START_WORDS -> Forall row_wf rows ->
  encode_rows highwater p prev rows = Some bytes ->
  search_rows (length rows) i (gen_insn_data prev) (u32 (tc_ptr + gen_insn_end_off prev)) searched_pc (bytes ++ rest)
  = Some (find_row i tc_ptr searched_pc rows).
Proof.
  induction rows as [|row rows IH]; intros prev p i bytes L F E; [reflexivity|].
  inversion F as [|? ? W F']; subst; cbn [encode_rows] in E.
  destruct (encode_row_ok prev row tc_ptr [] L W) as (b & Eb & _); rewrite Eb in E.
  destruct (highwater <? _); [discriminate|].
  destruct (encode_rows highwater _ row rows) as [b'|] eqn:E'; [|discriminate]; injection E as <-.
  destruct (encode_row_ok prev row tc_ptr (b' ++ rest) L W) as (b2 & Eb2 & _ & D).
  assert (b2 = b) as -> by congruence.
  cbn [length search_rows find_row]; rewrite <- app_assoc.
  destruct (decode_words _ _) as [[data q]|]; [|discriminate].
  destruct (decode_sleb128 q) as [[d r]|]; [|discriminate].
  injection D as -> Eh ->; rewrite Eh; destruct (searched_pc <? _); [reflexivity|].
  now apply IH with (p := p + Z.of_nat (length b)); [apply W| |].
Qed.

Lemma encode_rows_fits highwater rows : forall prev p,
  length (gen_insn_data prev) = TARGET_INSN_START_WORDS -> Forall row_wf rows ->
  p + 20 * Z.of_nat (length rows) <= highwater ->
  exists bytes, encode_rows highwater p prev rows = Some bytes.
Proof.
  induction rows as [|row rows IH]; intros prev p L F H; cbn [encode_rows length] in *; [now exists []|].
  inversion F as [|? ? W F']; subst.
  destruct (encode_row_ok prev row 0 [] L W) as (b & -> & Lb & _).
  destruct (Z.ltb_spec highwater (p + Z.of_nat (length b))); [lia|].
  destruct (IH row (p + Z.of_nat (length b))) as [b' ->]; [apply W|assumption|lia|]; eauto.
Qed.

(** What the search has to find: nothing before the code or behind its last
    instruction, else the first instruction that ends behind the address. *)
Definition row_at (tc_ptr searched_pc : Z) (rows : list insn_row) (i : nat) (row : insn_row) : Prop :=
  nth_error rows i = Some row /\ searched_pc < tc_ptr + gen_insn_end_off row /\
  forall j row', (j < i)%nat -> nth_error rows j = Some row' -> tc_ptr + gen_insn_end_off row' <= searched_pc.

Lemma find_row_spec tc_ptr searched_pc rows : forall k,
  0 <= tc_ptr < 2 ^ 32 - 2 ^ 16 -> Forall row_wf rows ->
  match find_row k tc_ptr searched_pc rows with
  | Some (i, data) => exists row, (k <= i)%nat /\ row_at tc_ptr searched_pc rows (i - k) row /\ data = gen_insn_data row
  | None => Forall (fun row => tc_ptr + gen_insn_end_off row <= searched_pc) rows
  end.
Proof.
  induction rows as [|row rows IH]; intros k T F; cbn [find_row]; [constructor|].
  inversion F as [|? ? W F']; subst.
  assert (R := row_off row W); rewrite wrap_id by (unfold inU in *; lia).
  destruct (Z.ltb_spec searched_pc (tc_ptr + gen_insn_end_off row)).
  - exists row; rewrite Nat.sub_diag; splits; auto; split; [reflexivity|]; split; [assumption|intros; lia].
  - specialize (IH (S k) T F'); destruct (find_row (S k) tc_ptr searched_pc rows) as [[i data]|].
    + destruct IH as (row' & Hk & (N & Lt & Fst) & ->); exists row'; splits; [lia| |reflexivity].
      replace (i - k)%nat with (S (i - S k)) by lia; split; [exact N|split; [exact Lt|]].
      intros [|j] r Hj Nj; [injection Nj as <-; assumption|apply (Fst j); [lia|exact Nj]].
    + now constructor.
Qed.

Lemma row_at_unique tc_ptr searched_pc rows i j row row' :
  row_at tc_ptr searched_pc rows i row -> row_at tc_ptr searched_pc rows j row' -> i = j /\ row = row'.
Proof.
  intros (N & L & F) (N' & L' & F').
  destruct (Nat.lt_trichotomy i j) as [H|[<-|H]]; [specialize (F' i row H N); lia| |specialize (F j row' H N'); lia].
  split; congruence.
Qed.

(** The counters after the restart at instruction [i]. *)
Definition icount_at (ic : icount_state) (cflags : Z) (n i : nat) : icount_state :=
  if truthy (cflags .& CF_USE_ICOUNT)
  then mkIcount (u16 (u16 (icount_decr_low ic + Z.of_nat n) - Z.of_nat i)) false
  else mkIcount (u16 (icount_decr_low ic - Z.of_nat i)) (can_do_io ic).

(** What the search makes of encoded rows. *)
Lemma restore_exact highwater block pc rows bytes env ic tc_ptr cflags rest searched_pc :
  Forall row_wf rows -> encode_search highwater block pc rows = Some bytes -> 0 <= tc_ptr < 2 ^ 32 - 2 ^ 16 ->
  let result := cpu_restore_state_from_tb env ic pc tc_ptr cflags (length rows) (bytes ++ rest) searched_pc in
  (searched_pc < tc_ptr \/ Forall (fun row => tc_ptr + gen_insn_end_off row <= searched_pc) rows ->
   result = Some NotFound) /\
  (forall i row, tc_ptr <= searched_pc -> row_at tc_ptr searched_pc rows i row ->
   result = Some (let (env, syndrome) := restore_state_to_opc env (gen_insn_data row) in
                  Restored env syndrome (icount_at ic cflags (length rows) i))).
Proof.
  intros F E T result.
  assert (S := search_rows_ok tc_ptr searched_pc highwater rest rows (seed_row pc) block 0 bytes eq_refl F E).
  assert (D := find_row_spec tc_ptr searched_pc rows 0 T F).
  assert (T0 : u32 (tc_ptr + 0) = tc_ptr) by (rewrite Z.add_0_r; apply wrap_id; unfold inU; lia).
  cbn [gen_insn_end_off seed_row] in S; rewrite T0 in S.
  unfold result, cpu_restore_state_from_tb; destruct (Z.ltb_spec searched_pc tc_ptr) as [Lt|Ge].
  - split; [reflexivity|intros; lia].
  - rewrite S; destruct (find_row 0 tc_ptr searched_pc rows) as [[i data]|].
    + destruct D as (row & _ & R & ->); rewrite Nat.sub_0_r in R; split.
      * intros [?|A]; [lia|]; destruct R as (N & L & _).
        rewrite Forall_forall in A; specialize (A row (nth_error_In _ _ N)); lia.
      * intros j row' _ R'; destruct (row_at_unique _ _ _ _ _ _ _ R R') as [<- <-].
        unfold icount_at; destruct (restore_state_to_opc env (gen_insn_data row)), (truthy _); reflexivity.
    + split; [reflexivity|]; intros i row _ (N & L & _).
      rewrite Forall_forall in D; specialize (D row (nth_error_In _ _ N)); lia.
Qed.

(** C24: the table behind the code of a block is decoded to what was encoded: for every
    host address the search finds exactly the guest instruction whose code contains it,
    restores its pc, IT bits and syndrome and adjusts the counters, and finds nothing
    outside the code; encoding fails only at the high-water mark, with at most 20 bytes
    for each instruction. *)
Theorem search_data_exact highwater block pc rows :
  inU 32 pc -> Forall row_wf rows ->
  (block + 20 * Z.of_nat (length rows) <= highwater -> exists bytes, encode_search highwater block pc rows = Some bytes) /\
  forall bytes env ic tc_ptr cflags rest searched_pc,
    encode_search highwater block pc rows = Some bytes -> 0 <= tc_ptr < 2 ^ 32 - 2 ^ 16 ->
    let result := cpu_restore_state_from_tb env ic pc tc_ptr cflags (length rows) (bytes ++ rest) searched_pc in
    (searched_pc < tc_ptr \/ Forall (fun row => tc_ptr + gen_insn_end_off row <= searched_pc) rows ->
     result = Some NotFound) /\
    (forall i row, tc_ptr <= searched_pc -> row_at tc_ptr searched_pc rows i row ->
     result = Some (let (env, syndrome) := restore_state_to_opc env (gen_insn_data row) in
                    Restored env syndrome (icount_at ic cflags (length rows) i))).
Proof.
  intros P F; split; [now apply encode_rows_fits|].
  intros; now apply (restore_exact highwater block).
Qed.

(** A block of two instructions at 0x8000 with host code at 0x1000. *)
Definition two_rows : list insn_row := [mkRow [0x8000; 0; 0] 12; mkRow [0x8004; 0; 5] 40].

Lemma search_data_exact_witness :
  exists bytes, encode_search 0x2000 0x1100 0x8000 two_rows = Some bytes /\
    cpu_restore_state_from_tb user_cpu (mkIcount 0 true) 0x8000 0x1000 0 2 bytes 0x1010
    = Some (let (env, syndrome) := restore_state_to_opc user_cpu [0x8004; 0; 5] in
            Restored env syndrome (icount_at (mkIcount 0 true) 0 2 1)).
Proof.
  assert (F : Forall row_wf two_rows).
  { repeat constructor; unfold inU; cbn; lia. }
  assert (P : inU 32 0x8000) by (unfold inU; lia).
  destruct (search_data_exact 0x2000 0x1100 0x8000 two_rows P F) as [A B].
  destruct A as [bytes E]; [cbn; lia|]; exists bytes; split; [exact E|].
  destruct (B bytes user_cpu (mkIcount 0 true) 0x1000 0 [] 0x1010 E) as [_ C]; [lia|].
  rewrite app_nil_r in C; apply (C 1%nat (mkRow [0x8004; 0; 5] 40)); [lia|].
  split; [reflexivity|split; [cbn; lia|]]; intros [|j] row' Hj N; [injection N as <-; cbn; lia|lia].
Defined.
