(* ===== verification/Qht.v ===== *)
(** * The hash table of translation blocks (util/qht.c)

    A table of chains of buckets; a bucket has six entries, each a hash and a
    pointer.  A chain is its buckets from the head on, linked by [next].  The
    operations run here as their critical sections do: a writer holds the
    lock of the head bucket, a reader retries until no writer was active.
    NULL is 0; memory allocation succeeds, and the number of buckets stays far
    below the range of [size_t]. *)

From Stdlib Require Import ZArith Lia List Bool Permutation Morphisms.
From S2P Require Import Prelude.
Import ListNotations.
Local Open Scope Z_scope.
Local Open Scope c_scope.

(** ** Sizes (include/qemu/host-utils.h) *)

Definition clz64 (val : Z) : Z := if val =? 0 then 64 else 63 - Z.log2 val.

Definition is_power_of_2 (value : Z) : bool :=
  if value =? 0 then false else (value .& (value - 1)) =? 0.

Definition pow2ceil (value : Z) : Z :=
  let nlz := clz64 value in
  if is_power_of_2 value then value else if nlz =? 0 then 0 else 1 .<< (64 - nlz).

Definition QHT_BUCKET_ENTRIES : nat := 6.

Definition qht_elems_to_buckets (n_elems : Z) : Z := pow2ceil (n_elems / Z.of_nat QHT_BUCKET_ENTRIES).

(** ** Buckets *)

(** [hashes[i]] and [pointers[i]]. *)
Record entry := mkEntry { e_hash : Z; e_ptr : Z }.

Definition no_entry : entry := mkEntry 0 0.

Definition bucket : Type := list entry.
Definition chain : Type := list bucket.

Definition empty_bucket : bucket := repeat no_entry QHT_BUCKET_ENTRIES.

Definition is_null (e : entry) : bool := e_ptr e =? 0.

(** The loop over the entries of a bucket in [qht_do_lookup]. *)
Fixpoint lookup_entries (b : bucket) (func : Z -> bool) (hash : Z) : option Z :=
  match b with
  | [] => None
  | e :: b =>
      if (e_hash e =? hash) && negb (is_null e) && func (e_ptr e) then Some (e_ptr e)
      else lookup_entries b func hash
  end.

Fixpoint qht_do_lookup (c : chain) (func : Z -> bool) (hash : Z) : Z :=
  match c with
  | [] => 0
  | b :: next =>
      match lookup_entries b func hash with
      | Some p => p
      | None => qht_do_lookup next func hash
      end
  end.

(** The loop over the entries of a bucket in [qht_insert__locked]. *)
Inductive placed := Present | Placed (b : bucket) | Full.

Fixpoint insert_entries (b : bucket) (p hash : Z) : placed :=
  match b with
  | [] => Full
  | e :: b =>
      if is_null e then Placed (mkEntry hash p :: b)
      else if e_ptr e =? p then Present
      else match insert_entries b p hash with
           | Placed b => Placed (e :: b)
           | r => r
           end
  end.

(** The chain afterwards and whether a bucket was added; [None] when the
    pointer is there already. *)
Fixpoint insert_chain (c : chain) (p hash : Z) : option (chain * bool) :=
  match c with
  | [] => Some ([mkEntry hash p :: repeat no_entry (QHT_BUCKET_ENTRIES - 1)], true)
  | b :: next =>
      match insert_entries b p hash with
      | Present => None
      | Placed b => Some (b :: next, false)
      | Full => let? (next, added) := insert_chain next p hash in Some (b :: next, added)
      end
  end.

(** ** Removing an entry *)

Definition entry_at (c : chain) (k i : nat) : entry := nth i (nth k c []) no_entry.

Definition set_entry (c : chain) (k i : nat) (e : entry) : chain := upd c k (upd (nth k c []) i e).

(** [c] is the chain from [b] on. *)
Definition qht_entry_is_last (c : chain) (pos : nat) : bool :=
  if (pos =? QHT_BUCKET_ENTRIES - 1)%nat then
    match nth_error c 1 with
    | None => true
    | Some _ => is_null (entry_at c 1 0)
    end
  else is_null (entry_at c 0 (pos + 1)).

(** From bucket [k], entry [j] to the first bucket, entry [i]. *)
Definition qht_entry_move (c : chain) (i k j : nat) : chain :=
  set_entry (set_entry c 0 i (entry_at c k j)) k j no_entry.

Fixpoint first_null (b : bucket) : option nat :=
  match b with
  | [] => None
  | e :: b => if is_null e then Some O else option_map S (first_null b)
  end.

(** The last valid entry; [k] is the number of the bucket, [k - 1] that of [prev]. *)
Fixpoint last_valid (k : nat) (c : chain) : nat * nat :=
  match c with
  | [] => (k - 1, QHT_BUCKET_ENTRIES - 1)%nat
  | b :: next =>
      match first_null b with
      | None => last_valid (S k) next
      | Some O => (k - 1, QHT_BUCKET_ENTRIES - 1)%nat
      | Some (S i) => (k, i)
      end
  end.

(** [c] is the chain from [orig] on. *)
Definition qht_bucket_remove_entry (c : chain) (pos : nat) : chain :=
  if qht_entry_is_last c pos then set_entry c 0 pos no_entry
  else let (k, j) := last_valid 0 c in qht_entry_move c pos k j.

(** The loop over the entries of a bucket in [qht_remove__locked]. *)
Inductive found := Stop | At (i : nat) | NotHere.

Fixpoint find_entry (b : bucket) (i : nat) (p : Z) : found :=
  match b with
  | [] => NotHere
  | e :: b =>
      if is_null e then Stop
      else if e_ptr e =? p then At i
      else find_entry b (S i) p
  end.

(** [None] is the return of false. *)
Fixpoint remove_chain (c : chain) (p : Z) : option chain :=
  match c with
  | [] => None
  | b :: next =>
      match find_entry b 0 p with
      | Stop => None
      | At i => Some (qht_bucket_remove_entry c i)
      | NotHere => option_map (cons b) (remove_chain next p)
      end
  end.

(** ** Maps *)

Record qht_map := mkMap {
  buckets : list chain;
  n_buckets : Z;
  n_added_buckets : Z;
  n_added_buckets_threshold : Z
}.

Definition QHT_NR_ADDED_BUCKETS_THRESHOLD_DIV : Z := 8.

Definition qht_map_create (n : Z) : qht_map :=
  let t := n / QHT_NR_ADDED_BUCKETS_THRESHOLD_DIV in
  mkMap (repeat [empty_bucket] (Z.to_nat n)) n 0 (if t =? 0 then 1 else t).

(** The number of the head bucket. *)
Definition qht_map_to_bucket (m : qht_map) (hash : Z) : nat := Z.to_nat (hash .& (n_buckets m - 1)).

Definition qht_map_needs_resize (m : qht_map) : bool := n_added_buckets_threshold m <? n_added_buckets m.

Definition set_chain (m : qht_map) (i : nat) (c : chain) (added : bool) : qht_map :=
  mkMap (upd (buckets m) i c) (n_buckets m) (n_added_buckets m + b2z added) (n_added_buckets_threshold m).

(** The result, the map, and [needs_resize]. *)
Definition qht_insert__locked (m : qht_map) (head : nat) (p hash : Z) : bool * qht_map * bool :=
  match insert_chain (nth head (buckets m) []) p hash with
  | None => (false, m, false)
  | Some (c, added) =>
      let m := set_chain m head c added in
      (true, m, added && qht_map_needs_resize m)
  end.

Definition qht_remove__locked (m : qht_map) (head : nat) (p : Z) : bool * qht_map :=
  match remove_chain (nth head (buckets m) []) p with
  | None => (false, m)
  | Some c => (true, set_chain m head c false)
  end.

(** The entries [qht_bucket_iter] calls the function on, up to the first empty one. *)
Fixpoint valid_prefix (b : list entry) : list entry :=
  match b with
  | [] => []
  | e :: b => if is_null e then [] else e :: valid_prefix b
  end.

Definition qht_bucket_iter (c : chain) : list entry := valid_prefix (concat c).

Definition qht_map_iter__all_locked (m : qht_map) : list entry := flat_map qht_bucket_iter (buckets m).

Definition qht_map_copy (new : qht_map) (e : entry) : qht_map :=
  snd (fst (qht_insert__locked new (qht_map_to_bucket new (e_hash e)) (e_ptr e) (e_hash e))).

(** Entries are emptied up to the first empty one. *)
Fixpoint reset_entries (b : bucket) : bucket * bool :=
  match b with
  | [] => ([], false)
  | e :: b =>
      if is_null e then (e :: b, true)
      else let (b, stop) := reset_entries b in (no_entry :: b, stop)
  end.

Fixpoint qht_bucket_reset__locked (c : chain) : chain :=
  match c with
  | [] => []
  | b :: next =>
      let (b, stop) := reset_entries b in
      if stop then b :: next else b :: qht_bucket_reset__locked next
  end.

Definition qht_map_reset__all_locked (m : qht_map) : qht_map :=
  mkMap (map qht_bucket_reset__locked (buckets m)) (n_buckets m) (n_added_buckets m)
    (n_added_buckets_threshold m).

(** ** Tables *)

Record qht := mkQht { ht_map : qht_map; ht_mode : Z }.

Definition QHT_MODE_AUTO_RESIZE : Z := 1.

Definition qht_init (n_elems mode : Z) : qht := mkQht (qht_map_create (qht_elems_to_buckets n_elems)) mode.

(** [None] is the failed assertion that the sizes differ. *)
Definition qht_do_resize (ht : qht) (new : qht_map) : option qht :=
  if n_buckets new =? n_buckets (ht_map ht) then None
  else Some (mkQht (fold_left qht_map_copy (qht_map_iter__all_locked (ht_map ht)) new) (ht_mode ht)).

Definition qht_resize (ht : qht) (n_elems : Z) : option (bool * qht) :=
  let n := qht_elems_to_buckets n_elems in
  if negb (n =? n_buckets (ht_map ht)) then
    let? ht := qht_do_resize ht (qht_map_create n) in Some (true, ht)
  else Some (false, ht).

Definition qht_reset (ht : qht) : qht := mkQht (qht_map_reset__all_locked (ht_map ht)) (ht_mode ht).

Definition qht_reset_size (ht : qht) (n_elems : Z) : option (bool * qht) :=
  let n := qht_elems_to_buckets n_elems in
  let resize := negb (n =? n_buckets (ht_map ht)) in
  let ht := mkQht (qht_map_reset__all_locked (ht_map ht)) (ht_mode ht) in
  if resize then let? ht := qht_do_resize ht (qht_map_create n) in Some (true, ht)
  else Some (false, ht).

(** [busy]: another thread holds [ht->lock]. *)
Definition qht_grow_maybe (busy : bool) (ht : qht) : option qht :=
  if busy then Some ht
  else if qht_map_needs_resize (ht_map ht)
  then qht_do_resize ht (qht_map_create (n_buckets (ht_map ht) * 2))
  else Some ht.

Definition qht_lookup (ht : qht) (func : Z -> bool) (hash : Z) : Z :=
  qht_do_lookup (nth (qht_map_to_bucket (ht_map ht) hash) (buckets (ht_map ht)) []) func hash.

Definition qht_insert (busy : bool) (ht : qht) (p hash : Z) : option (bool * qht) :=
  let '(ret, m, needs_resize) :=
    qht_insert__locked (ht_map ht) (qht_map_to_bucket (ht_map ht) hash) p hash in
  let ht := mkQht m (ht_mode ht) in
  let? ht := if needs_resize && truthy (ht_mode ht .& QHT_MODE_AUTO_RESIZE)
             then qht_grow_maybe busy ht else Some ht in
  Some (ret, ht).

Definition qht_remove (ht : qht) (p hash : Z) : bool * qht :=
  let (ret, m) := qht_remove__locked (ht_map ht) (qht_map_to_bucket (ht_map ht) hash) p in
  (ret, mkQht m (ht_mode ht)).

Definition qht_iter (ht : qht) : list entry := qht_map_iter__all_locked (ht_map ht).

(** ** A chain holds a list of entries *)

Definition nonnull (e : entry) : Prop := e_ptr e <> 0.

Definition has (v : list entry) (p : Z) : bool := existsb (fun e => e_ptr e =? p) v.

(** The buckets hold [v], packed to the front. *)
Record holds_entries (c : chain) (v : list entry) : Prop := {
  he_len : Forall (fun b => length b = QHT_BUCKET_ENTRIES) c;
  he_packed : exists k, concat c = v ++ repeat no_entry k;
  he_nonnull : Forall nonnull v
}.

Lemma is_null_false e : nonnull e -> is_null e = false.
Proof. intros H; now apply Z.eqb_neq. Qed.

Lemma valid_prefix_packed v k : Forall nonnull v -> valid_prefix (v ++ repeat no_entry k) = v.
Proof.
  induction 1 as [|e v He _ IH]; cbn; [destruct k; reflexivity|].
  now rewrite is_null_false, IH.
Qed.

Lemma iter_holds c v : holds_entries c v -> qht_bucket_iter c = v.
Proof. intros [_ [k E] N]; unfold qht_bucket_iter; rewrite E; now apply valid_prefix_packed. Qed.

Lemma holds_empty : holds_entries [empty_bucket] [].
Proof. constructor; [now repeat constructor|now exists QHT_BUCKET_ENTRIES|constructor]. Qed.

Lemma app_inj_length {A} (a b c d : list A) : a ++ b = c ++ d -> length a = length c -> a = c /\ b = d.
Proof.
  revert c; induction a as [|x a IH]; intros [|y c] E L; try discriminate L; [now split|].
  injection E as -> E; injection L as L; now destruct (IH c E L) as [-> ->].
Qed.

(** Either the first bucket has room or it is full of entries. *)
Lemma packed_split (b r v : list entry) k :
  b ++ r = v ++ repeat no_entry k ->
  (exists j, (0 < j <= k)%nat /\ b = v ++ repeat no_entry j /\ r = repeat no_entry (k - j)) \/
  (exists v', v = b ++ v' /\ r = v' ++ repeat no_entry k).
Proof.
  revert v; induction b as [|x b IH]; intros v E.
  - right; exists v; split; [reflexivity|exact E].
  - destruct v as [|y v]; cbn in E.
    + left; destruct k as [|k]; [discriminate|]; injection E as -> E.
      assert (L := f_equal (@length entry) E); rewrite length_app, repeat_length in L.
      exists (S (length b)); split; [lia|].
      rewrite <- (Nat.sub_add (length b) k) in E by lia; rewrite Nat.add_comm, repeat_app in E.
      apply app_inj_length in E as [Eb Er]; [|now rewrite repeat_length].
      cbn; split; [now rewrite Eb at 1|exact Er].
    + injection E as -> E; destruct (IH v E) as [(j & Hj & -> & ->)|(v' & -> & ->)]; [left; now exists j|right; now exists v'].
Qed.

(** ** Lookup *)

Lemma lookup_app a b f h :
  lookup_entries (a ++ b) f h =
  match lookup_entries a f h with Some p => Some p | None => lookup_entries b f h end.
Proof. induction a as [|e a IH]; cbn; [reflexivity|]; now destruct (_ && _). Qed.

Lemma lookup_nulls k f h : lookup_entries (repeat no_entry k) f h = None.
Proof. induction k; cbn; [reflexivity|]; now rewrite andb_false_r. Qed.

Lemma do_lookup_flat c f h :
  qht_do_lookup c f h = match lookup_entries (concat c) f h with Some p => p | None => 0 end.
Proof. induction c as [|b c IH]; cbn; [reflexivity|]; rewrite lookup_app; now destruct (lookup_entries b f h). Qed.

Lemma lookup_spec v f h :
  Forall nonnull v ->
  match lookup_entries v f h with
  | Some p => In (mkEntry h p) v /\ f p = true /\ p <> 0
  | None => forall p, In (mkEntry h p) v -> f p = false
  end.
Proof.
  induction 1 as [|e v He _ IH]; cbn [lookup_entries]; [intros p []|].
  rewrite is_null_false by assumption; cbn [negb]; rewrite andb_true_r.
  destruct (Z.eqb_spec (e_hash e) h) as [E|N]; cbn [andb].
  - destruct (f (e_ptr e)) eqn:F.
    + splits; auto; left; destruct e; cbn in *; congruence.
    + destruct (lookup_entries v f h); [destruct IH as (A & B & C); splits; auto; now right|].
      intros p [->|I]; [exact F|now apply IH].
  - destruct (lookup_entries v f h); [destruct IH as (A & B & C); splits; auto; now right|].
    intros p [->|I]; [now destruct N|now apply IH].
Qed.

Lemma do_lookup_ok c v f h :
  holds_entries c v ->
  (qht_do_lookup c f h = 0 /\ forall p, In (mkEntry h p) v -> f p = false) \/
  (qht_do_lookup c f h <> 0 /\ In (mkEntry h (qht_do_lookup c f h)) v /\ f (qht_do_lookup c f h) = true).
Proof.
  intros [_ [k E] N]; rewrite do_lookup_flat, E, lookup_app, lookup_nulls.
  pose proof (lookup_spec v f h N) as S; destruct (lookup_entries v f h); [right|left]; intuition.
Qed.

(** ** Insertion *)

Lemma insert_entries_spec v k p h :
  Forall nonnull v ->
  insert_entries (v ++ repeat no_entry k) p h =
    if has v p then Present
    else match k with O => Full | S k => Placed (v ++ mkEntry h p :: repeat no_entry k) end.
Proof.
  induction 1 as [|e v He _ IH]; cbn [app insert_entries has existsb]; [destruct k; reflexivity|].
  rewrite is_null_false by assumption; destruct (e_ptr e =? p); [reflexivity|]; cbn [orb].
  fold (has v p); rewrite IH; destruct (has v p); [reflexivity|]; destruct k; reflexivity.
Qed.

Lemma has_app a b p : has (a ++ b) p = has a p || has b p.
Proof. apply existsb_app. Qed.

Lemma insert_chain_ok c : forall v p h,
  holds_entries c v -> p <> 0 ->
  match insert_chain c p h with
  | None => has v p = true
  | Some (c', _) => has v p = false /\ holds_entries c' (v ++ [mkEntry h p]) /\ c' <> []
  end.
Proof.
  induction c as [|b c IH]; intros v p h [L [k E] N] Hp.
  - destruct v; [|discriminate]; cbn; splits; [reflexivity| |discriminate].
    constructor; [now repeat constructor|now exists 5%nat|now repeat constructor].
  - inversion L as [|? ? Lb Lc]; subst; cbn [concat] in E.
    cbn [insert_chain]; destruct (packed_split _ _ _ _ E) as [(j & Hj & -> & Er)|(v' & -> & Er)].
    + rewrite insert_entries_spec by assumption; destruct (has v p) eqn:Hh; [reflexivity|].
      destruct j as [|j]; [lia|]; splits; [reflexivity| |discriminate].
      constructor.
      * constructor; [|assumption]; rewrite !length_app, !repeat_length in *; cbn [length]; rewrite repeat_length; lia.
      * exists (k - 1)%nat; cbn [concat]; rewrite Er, <- !app_assoc; cbn [app]; rewrite <- repeat_app; do 3 f_equal; lia.
      * apply Forall_app; split; [assumption|now repeat constructor].
    + apply Forall_app in N as [Nb Nv].
      assert (Eb := insert_entries_spec b 0 p h Nb); rewrite app_nil_r in Eb; rewrite Eb, has_app; clear Eb.
      destruct (has b p); [reflexivity|]; cbn [orb].
      specialize (IH v' p h); destruct (insert_chain c p h) as [[c' added]|].
      * destruct IH as (A & B & C); [constructor; eauto|assumption|]; splits; [assumption| |discriminate].
        destruct B as [Lc' [k' E'] N']; constructor; [now constructor| |].
        -- exists k'; cbn [concat]; now rewrite E', <- !app_assoc.
        -- rewrite <- app_assoc; now apply Forall_app.
      * apply IH; [constructor; eauto|assumption].
Qed.

(** ** Removal *)

Lemma upd_app_l {A} (a b : list A) i x : (i < length a)%nat -> upd (a ++ b) i x = upd a i x ++ b.
Proof. revert i; induction a; intros [|i] H; cbn in *; try lia; f_equal; auto with arith. Qed.

Lemma upd_app_r {A} (a b : list A) i x : upd (a ++ b) (length a + i) x = a ++ upd b i x.
Proof. induction a; cbn; f_equal; auto. Qed.

Lemma upd_out {A} (l : list A) i x : (length l <= i)%nat -> upd l i x = l.
Proof. revert i; induction l; intros [|i] H; cbn in *; try lia; f_equal; auto with arith. Qed.

Section Flat.
Variable c : chain.
Hypothesis lens : Forall (fun b => length b = QHT_BUCKET_ENTRIES) c.

Lemma entry_at_flat k j :
  (j < QHT_BUCKET_ENTRIES)%nat -> entry_at c k j = nth (QHT_BUCKET_ENTRIES * k + j) (concat c) no_entry.
Proof.
  intros Hj; unfold entry_at; revert k; induction lens as [|b c' Lb Lc IH]; intros k; [destruct k, j; reflexivity|].
  cbn beta in Lb; destruct k; cbn [concat nth].
  - rewrite Nat.mul_0_r, app_nth1 by lia; reflexivity.
  - rewrite (IH Lc), app_nth2 by lia; f_equal; lia.
Qed.

Lemma set_entry_flat k j e :
  (j < QHT_BUCKET_ENTRIES)%nat ->
  concat (set_entry c k j e) = upd (concat c) (QHT_BUCKET_ENTRIES * k + j) e /\
  Forall (fun b => length b = QHT_BUCKET_ENTRIES) (set_entry c k j e).
Proof.
  intros Hj; unfold set_entry; revert k; induction lens as [|b c' Lb Lc IH]; intros k; [now destruct k, j|].
  cbn beta in Lb; destruct k; cbn [concat nth upd].
  - rewrite Nat.mul_0_r, upd_app_l by lia; split; [reflexivity|]; constructor; [now rewrite length_upd|assumption].
  - destruct (IH Lc k) as [-> F]; split; [|now constructor].
    replace (QHT_BUCKET_ENTRIES * S k + j)%nat with (length b + (QHT_BUCKET_ENTRIES * k + j))%nat by lia.
    now rewrite upd_app_r.
Qed.

End Flat.

Lemma null_at v k i :
  Forall nonnull v -> is_null (nth i (v ++ repeat no_entry k) no_entry) = (length v <=? i)%nat.
Proof.
  intros N; destruct (Nat.leb_spec (length v) i) as [G|L].
  - rewrite app_nth2 by lia; destruct (Nat.le_gt_cases k (i - length v)).
    + now rewrite nth_overflow by (rewrite repeat_length; lia).
    + now rewrite nth_repeat.
  - rewrite app_nth1 by lia; apply is_null_false.
    rewrite Forall_forall in N; apply N, nth_In, L.
Qed.

Lemma first_null_spec v k :
  Forall nonnull v -> first_null (v ++ repeat no_entry k) = match k with O => None | _ => Some (length v) end.
Proof.
  induction 1 as [|e v He _ IH]; cbn; [destruct k; reflexivity|].
  rewrite is_null_false, IH by assumption; destruct k; reflexivity.
Qed.

Lemma last_valid_spec c : forall v k n,
  Forall (fun b => length b = QHT_BUCKET_ENTRIES) c -> concat c = v ++ repeat no_entry n -> Forall nonnull v ->
  (1 <= k \/ v <> [])%nat ->
  exists q j, last_valid k c = (q, j) /\ (j < QHT_BUCKET_ENTRIES)%nat /\
    (QHT_BUCKET_ENTRIES * q + j + 1 = QHT_BUCKET_ENTRIES * k + length v)%nat.
Proof.
  unfold QHT_BUCKET_ENTRIES; induction c as [|b c IH]; intros v k n L E N D; cbn [last_valid].
  - destruct v; [|discriminate]; exists (k - 1)%nat, 5%nat; splits; try reflexivity; try lia.
    destruct D; [|congruence]; cbn [length]; lia.
  - inversion L as [|? ? Lb Lc]; subst.
    destruct (packed_split _ _ _ _ E) as [(j & Hj & -> & Er)|(v' & -> & Er)].
    + rewrite first_null_spec by assumption; destruct j as [|j]; [lia|].
      rewrite length_app, repeat_length in Lb.
      destruct v as [|e v]; cbn [length] in *.
      * exists (k - 1)%nat, 5%nat; splits; try reflexivity; try lia; destruct D; [lia|congruence].
      * exists k, (length v); splits; lia || reflexivity.
    + apply Forall_app in N as [Nb Nv].
      assert (F := first_null_spec b 0 Nb); rewrite app_nil_r in F; rewrite F.
      destruct (IH v' (S k) n Lc Er Nv) as (q & j & -> & Hj & Eq); [lia|].
      exists q, j; splits; auto; rewrite length_app, Lb; lia.
Qed.

(** The last entry takes the place of the one removed. *)
Definition remove_at (v : list entry) (i : nat) : list entry := upd (removelast v) i (last v no_entry).

Lemma remove_at_snoc v x i : remove_at (v ++ [x]) i = upd v i x.
Proof. unfold remove_at; now rewrite removelast_last, last_last. Qed.

Lemma remove_at_app a v i : v <> [] -> remove_at (a ++ v) (length a + i) = a ++ remove_at v i.
Proof.
  destruct v as [|x v _] using rev_ind; [congruence|]; intros _.
  rewrite app_assoc, !remove_at_snoc; apply upd_app_r.
Qed.

Lemma remove_at_perm v i :
  (i < length v)%nat -> Permutation (nth i v no_entry :: remove_at v i) v.
Proof.
  destruct v as [|x v _] using rev_ind; cbn; [lia|]; rewrite length_app, remove_at_snoc; cbn; intros H.
  destruct (Nat.eq_dec i (length v)) as [->|N].
  - rewrite upd_out, nth_middle by lia; apply Permutation_cons_append.
  - destruct (nth_split v no_entry (n := i)) as (a & b & E & La); [lia|].
    rewrite app_nth1 by lia; revert E; generalize (nth i v no_entry); intros y ->.
    rewrite <- La; replace (length a) with (length a + 0)%nat by lia; rewrite upd_app_r; cbn [upd].
    rewrite <- app_assoc; cbn [app].
    etransitivity; [apply Permutation_middle|]; apply Permutation_app_head.
    constructor; apply Permutation_cons_append.
Qed.

Lemma remove_at_nonnull v i : Forall nonnull v -> (i < length v)%nat -> Forall nonnull (remove_at v i).
Proof.
  intros N H; assert (P := remove_at_perm v i H); apply Permutation_sym in P.
  rewrite P in N; now inversion N.
Qed.

Lemma last_entry_flat c v k pos :
  Forall (fun b => length b = QHT_BUCKET_ENTRIES) c -> concat c = v ++ repeat no_entry k -> Forall nonnull v ->
  (pos < QHT_BUCKET_ENTRIES)%nat -> (pos < length v)%nat ->
  qht_entry_is_last c pos = (length v <=? S pos)%nat.
Proof.
  intros L E N Hp Hv; unfold qht_entry_is_last.
  assert (D : forall q j, (j < QHT_BUCKET_ENTRIES)%nat ->
            is_null (entry_at c q j) = (length v <=? QHT_BUCKET_ENTRIES * q + j)%nat).
  { intros q j Hj; rewrite entry_at_flat, E by assumption; now apply null_at. }
  destruct (Nat.eqb_spec pos (QHT_BUCKET_ENTRIES - 1)) as [->|X].
  - destruct c as [|b [|b1 c]]; cbn [nth_error].
    + destruct v; [cbn in Hv; lia|discriminate].
    + inversion L; subst; cbn in E; rewrite app_nil_r in E.
      apply (f_equal (@length entry)) in E; rewrite length_app in E; symmetry; apply Nat.leb_le.
      unfold QHT_BUCKET_ENTRIES in *; lia.
    + rewrite D by (unfold QHT_BUCKET_ENTRIES; lia); f_equal.
  - rewrite D by lia; f_equal; lia.
Qed.

Lemma remove_entry_ok c v pos :
  holds_entries c v -> (pos < QHT_BUCKET_ENTRIES)%nat -> (pos < length v)%nat ->
  holds_entries (qht_bucket_remove_entry c pos) (remove_at v pos).
Proof.
  intros [L [k E] N] Hp Hv; unfold qht_bucket_remove_entry.
  assert (R := remove_at_nonnull v pos N Hv).
  rewrite (last_entry_flat c v k) by assumption.
  destruct v as [|x v _] using rev_ind; cbn in Hv; [lia|].
  rewrite remove_at_snoc in *; rewrite length_app in *; cbn [length] in *.
  assert (Cl : upd (concat c) (length v) no_entry = v ++ repeat no_entry (S k)).
  { rewrite E, <- app_assoc; replace (length v) with (length v + 0)%nat by lia; rewrite upd_app_r; reflexivity. }
  destruct (Nat.leb_spec (length v + 1) (S pos)).
  - assert (pos = length v) as -> by lia.
    destruct (set_entry_flat c L 0 (length v) no_entry Hp) as [E' L']; rewrite Nat.mul_0_r in E'; cbn [Nat.add] in E'.
    rewrite upd_out in * by lia; constructor; auto; exists (S k); now rewrite E', Cl.
  - destruct (last_valid_spec c (v ++ [x]) 0 k L E N) as (q & j & -> & Hj & Eq); [right; now destruct v|].
    rewrite length_app in Eq; cbn [length] in Eq; unfold qht_entry_move.
    assert (Ix : (QHT_BUCKET_ENTRIES * q + j = length v)%nat) by lia.
    destruct (set_entry_flat c L 0 pos (entry_at c q j) Hp) as [E1 L1].
    destruct (set_entry_flat _ L1 q j no_entry Hj) as [E2 L2].
    constructor; auto; exists (S k); rewrite E2, E1, Ix, Nat.mul_0_r, entry_at_flat, Ix by assumption; cbn [Nat.add].
    rewrite E, <- app_assoc; cbn [app]; rewrite nth_middle, upd_app_l by lia.
    replace (length v) with (length (upd v pos x) + 0)%nat at 1 by (rewrite length_upd; lia).
    rewrite upd_app_r; reflexivity.
Qed.

Lemma find_entry_spec v k p : forall i,
  Forall nonnull v ->
  match find_entry (v ++ repeat no_entry k) i p with
  | At m => exists q, m = (i + q)%nat /\ (q < length v)%nat /\ e_ptr (nth q v no_entry) = p
  | Stop => has v p = false /\ k <> O
  | NotHere => has v p = false /\ k = O
  end.
Proof.
  intros i N; revert i; induction N as [|e v He _ IH]; intros i; cbn [app find_entry has existsb].
  - destruct k; cbn; auto.
  - rewrite is_null_false by assumption; destruct (Z.eqb_spec (e_ptr e) p).
    + exists O; cbn; splits; auto; lia.
    + cbn [orb]; fold (has v p); specialize (IH (S i)).
      destruct (find_entry _ _ _) as [|m|]; auto.
      destruct IH as (q & -> & Hq & Ep); exists (S q); cbn; splits; auto; lia.
Qed.

Lemma remove_chain_ok c : forall v p,
  holds_entries c v ->
  match remove_chain c p with
  | None => has v p = false
  | Some c' => exists i, (i < length v)%nat /\ e_ptr (nth i v no_entry) = p /\ holds_entries c' (remove_at v i)
  end.
Proof.
  induction c as [|b c IH]; intros v p H; assert (W := H); destruct H as [L [k E] N].
  - now destruct v.
  - inversion L as [|? ? Lb Lc]; subst; cbn [remove_chain].
    destruct (packed_split _ _ _ _ E) as [(j & Hj & -> & Er)|(v' & -> & Er)].
    + assert (F := find_entry_spec v j p 0 N); rewrite length_app, repeat_length in Lb.
      destruct (find_entry _ 0 p) as [|m|]; [apply F| |destruct F; lia].
      destruct F as (q & -> & Hq & Ep); exists q; splits; auto; apply remove_entry_ok; auto; lia.
    + apply Forall_app in N as [Nb Nv].
      assert (F := find_entry_spec b 0 p 0 Nb); rewrite app_nil_r in F; rewrite has_app.
      destruct (find_entry b 0 p) as [|m|]; [now destruct F| |].
      * destruct F as (q & -> & Hq & Ep); exists q; rewrite length_app, app_nth1 by assumption.
        splits; auto; [lia|]; apply remove_entry_ok; auto; [lia|rewrite length_app; lia].
      * destruct F as [F _]; rewrite F; cbn [orb].
        specialize (IH v' p); destruct (remove_chain c p) as [c'|]; cbn [option_map].
        -- destruct IH as (i & Hi & Ep & [L' [k' E'] N']); [constructor; eauto|].
           exists (length b + i)%nat; rewrite length_app, app_nth2_plus; splits; auto; [lia|].
           rewrite remove_at_app by (destruct v'; [cbn in Hi; lia|discriminate]).
           constructor; [now constructor| |now apply Forall_app].
           exists k'; cbn [concat]; now rewrite E', app_assoc.
        -- apply IH; constructor; eauto.
Qed.

(** ** A map holds a set of entries *)

Abbreviation contents := qht_map_iter__all_locked.

Record map_wf (m : qht_map) : Prop := {
  mw_size : exists j, 0 <= j /\ n_buckets m = 2 ^ j;
  mw_len : length (buckets m) = Z.to_nat (n_buckets m);
  mw_chains : forall i, (i < length (buckets m))%nat ->
    holds_entries (nth i (buckets m) []) (qht_bucket_iter (nth i (buckets m) []));
  mw_home : forall i e, (i < length (buckets m))%nat -> In e (qht_bucket_iter (nth i (buckets m) [])) ->
    qht_map_to_bucket m (e_hash e) = i /\ inU 32 (e_hash e);
  mw_nodup : NoDup (map e_ptr (contents m))
}.

Lemma home_lt m h : map_wf m -> (qht_map_to_bucket m h < length (buckets m))%nat.
Proof.
  intros W; rewrite (mw_len m W); destruct (mw_size m W) as (j & Hj & E); unfold qht_map_to_bucket; rewrite E.
  replace (2 ^ j - 1) with (Z.ones j) by (rewrite Z.ones_equiv; lia); rewrite Z.land_ones by lia.
  pose proof (pow2_pos j Hj); pose proof (Z.mod_pos_bound h (2 ^ j)); apply Z2Nat.inj_lt; lia.
Qed.

Lemma flat_map_upd {A B} (f : A -> list B) (l : list A) i d :
  (i < length l)%nat ->
  exists a b, flat_map f l = a ++ f (nth i l d) ++ b /\ forall x, flat_map f (upd l i x) = a ++ f x ++ b.
Proof.
  revert i; induction l as [|y l IH]; intros [|i] H; cbn in *; try lia.
  - exists [], (flat_map f l); now split.
  - destruct (IH i) as (a & b & E & F); [lia|]; exists (f y ++ a), b; split; [|intros x]; rewrite ?E, ?F; now rewrite !app_assoc.
Qed.

Lemma in_contents m e :
  map_wf m -> In e (contents m) -> In e (qht_bucket_iter (nth (qht_map_to_bucket m (e_hash e)) (buckets m) [])) /\ inU 32 (e_hash e).
Proof.
  intros W I; apply in_flat_map in I as (c & Ic & Ie).
  destruct (In_nth _ _ [] Ic) as (i & Hi & <-); destruct (mw_home m W i e Hi Ie) as [-> R]; auto.
Qed.

Lemma contents_in m i e :
  (i < length (buckets m))%nat -> In e (qht_bucket_iter (nth i (buckets m) [])) -> In e (contents m).
Proof. intros Hi I; apply in_flat_map; eexists; split; [apply nth_In, Hi|exact I]. Qed.

Lemma contents_nonnull m e : map_wf m -> In e (contents m) -> nonnull e.
Proof.
  intros W I; apply in_contents in I as [I _]; [|assumption].
  pose proof (he_nonnull _ _ (mw_chains m W _ (home_lt m (e_hash e) W))) as N.
  rewrite Forall_forall in N; now apply N.
Qed.

(** A chain is replaced. *)
Lemma set_chain_ok m i c v added rest :
  map_wf m -> (i < length (buckets m))%nat -> holds_entries c v ->
  (forall e, In e v -> qht_map_to_bucket m (e_hash e) = i /\ inU 32 (e_hash e)) ->
  Permutation (contents m) (qht_bucket_iter (nth i (buckets m) []) ++ rest) ->
  NoDup (map e_ptr (v ++ rest)) ->
  map_wf (set_chain m i c added) /\ Permutation (contents (set_chain m i c added)) (v ++ rest).
Proof.
  intros W Hi Hc Hh P N.
  assert (P' : Permutation (contents (set_chain m i c added)) (v ++ rest)).
  { unfold contents, set_chain; cbn [buckets].
    destruct (flat_map_upd qht_bucket_iter (buckets m) i [] Hi) as (a & b & E & F).
    unfold contents in P; rewrite E in P; rewrite F, (iter_holds c v Hc).
    rewrite Permutation_app_swap_app in P |- *; apply Permutation_app_inv_l in P.
    now apply Permutation_app_head. }
  split; [|exact P']; destruct W as [S L C H D]; constructor; cbn [set_chain buckets n_buckets]; auto.
  - now rewrite length_upd.
  - rewrite length_upd; intros k Hk; destruct (Nat.eq_dec k i) as [->|Nk].
    + rewrite nth_upd_eq by assumption; now rewrite (iter_holds c v Hc).
    + rewrite nth_upd_ne by congruence; auto.
  - rewrite length_upd; intros k e Hk; destruct (Nat.eq_dec k i) as [->|Nk].
    + rewrite nth_upd_eq, (iter_holds c v Hc) by assumption; apply Hh.
    + rewrite nth_upd_ne by congruence; apply H, Hk.
  - now rewrite P'.
Qed.

Lemma chain_rest m i :
  (i < length (buckets m))%nat ->
  exists rest, Permutation (contents m) (qht_bucket_iter (nth i (buckets m) []) ++ rest).
Proof.
  intros Hi; destruct (flat_map_upd qht_bucket_iter (buckets m) i [] Hi) as (a & b & E & _).
  exists (a ++ b); unfold contents; rewrite E; apply Permutation_app_swap_app.
Qed.

Lemma has_iff v p : has v p = true <-> In p (map e_ptr v).
Proof.
  unfold has; rewrite existsb_exists, in_map_iff; split; intros (e & A & B).
  - apply Z.eqb_eq in B; eauto.
  - exists e; split; [exact B|now apply Z.eqb_eq].
Qed.

(** The hash goes with the pointer. *)
Definition hash_of (v : list entry) (p h : Z) : Prop := forall e, In e v -> e_ptr e = p -> e_hash e = h.

Lemma has_home m p h :
  map_wf m -> hash_of (contents m) p h ->
  has (qht_bucket_iter (nth (qht_map_to_bucket m h) (buckets m) [])) p = has (contents m) p.
Proof.
  intros W H; apply Bool.eq_true_iff_eq; rewrite !has_iff, !in_map_iff; split; intros (e & E & I); exists e; split; auto.
  - eapply contents_in; [apply home_lt, W|exact I].
  - assert (X := H e I E); apply in_contents in I as [I _]; [now rewrite X in I|assumption].
Qed.

Lemma insert_locked_ok m p h :
  map_wf m -> p <> 0 -> inU 32 h -> hash_of (contents m) p h ->
  let '(ret, m', needs_resize) := qht_insert__locked m (qht_map_to_bucket m h) p h in
  map_wf m' /\ n_buckets m' = n_buckets m /\ ret = negb (has (contents m) p) /\
  Permutation (contents m') (if ret then mkEntry h p :: contents m else contents m).
Proof.
  intros W Hp Hh Ho; assert (Hi := home_lt m h W); unfold qht_insert__locked.
  assert (C := mw_chains m W _ Hi); assert (I := insert_chain_ok _ _ p h C Hp).
  destruct (insert_chain _ p h) as [[c added]|].
  - rewrite has_home in I by assumption; destruct I as (Nh & Hc & _).
    destruct (chain_rest m _ Hi) as [rest Pr].
    set (v := qht_bucket_iter _) in *.
    assert (Pm : Permutation ((v ++ [mkEntry h p]) ++ rest) (mkEntry h p :: v ++ rest)).
    { rewrite <- app_assoc; cbn [app]; symmetry; apply Permutation_middle. }
    destruct (set_chain_ok m (qht_map_to_bucket m h) c (v ++ [mkEntry h p]) added rest) as [W' P']; auto.
    + intros e Ie; apply in_app_or in Ie as [Ie|[<-|[]]]; [now apply (mw_home m W)|now split].
    + rewrite Pm; cbn [map e_ptr]; constructor; [|rewrite <- Pr; apply W].
      rewrite <- Pr; intros X; apply has_iff in X; congruence.
    + splits; auto; [now rewrite Nh|]; rewrite P', Pm; now constructor.
  - rewrite has_home in I by assumption; splits; auto; now rewrite I.
Qed.

Lemma remove_locked_ok m p h :
  map_wf m -> hash_of (contents m) p h ->
  let (ret, m') := qht_remove__locked m (qht_map_to_bucket m h) p in
  map_wf m' /\ ret = has (contents m) p /\
  Permutation (if ret then mkEntry h p :: contents m' else contents m') (contents m).
Proof.
  intros W Ho; assert (Hi := home_lt m h W); unfold qht_remove__locked.
  assert (C := mw_chains m W _ Hi); assert (I := remove_chain_ok _ _ p C).
  destruct (remove_chain _ p) as [c|].
  - destruct I as (q & Hq & Ep & Hc); destruct (chain_rest m _ Hi) as [rest Pr].
    set (v := qht_bucket_iter _) in *; assert (Rp := remove_at_perm v q Hq).
    assert (Iq : In (nth q v no_entry) v) by now apply nth_In.
    assert (Eq : nth q v no_entry = mkEntry h p).
    { assert (X := Ho _ (contents_in m _ _ Hi Iq) Ep); destruct (nth q v no_entry); cbn in *; congruence. }
    rewrite Eq in Rp, Iq.
    assert (Pa : Permutation (mkEntry h p :: remove_at v q ++ rest) (contents m)) by (rewrite Pr; exact (Permutation_app_tail rest Rp)).
    destruct (set_chain_ok m (qht_map_to_bucket m h) c (remove_at v q) false rest) as [W' P']; auto.
    + intros e Ie; apply (mw_home m W); auto; apply (Permutation_in _ Rp); now right.
    + assert (N := mw_nodup m W); rewrite <- Pa in N; now inversion N.
    + splits; auto; [|now rewrite P'].
      symmetry; apply has_iff, in_map_iff; exists (mkEntry h p); split; [reflexivity|].
      now apply (contents_in m _ _ Hi).
  - rewrite has_home in I by assumption; splits; auto.
Qed.

(** ** New maps *)

Lemma repeat_nth {A} (x d : A) n i : (i < n)%nat -> nth i (repeat x n) d = x.
Proof. revert i; induction n; intros [|i] H; cbn; try lia; auto with arith. Qed.

Lemma map_create_ok j : 0 <= j -> map_wf (qht_map_create (2 ^ j)) /\ contents (qht_map_create (2 ^ j)) = [].
Proof.
  intros Hj; set (m := qht_map_create (2 ^ j)).
  assert (Nt : forall i, (i < length (buckets m))%nat -> nth i (buckets m) [] = [empty_bucket]).
  { intros i Hi; cbn [buckets m qht_map_create] in *; rewrite repeat_length in Hi; now apply repeat_nth. }
  assert (C : contents m = []).
  { unfold contents, m, qht_map_create; cbn [buckets]; induction (Z.to_nat (2 ^ j)) as [|n IH]; [reflexivity|exact IH]. }
  split; [|exact C]; constructor.
  - now exists j.
  - apply repeat_length.
  - intros i Hi; rewrite Nt by assumption; exact holds_empty.
  - intros i e Hi; rewrite Nt by assumption; intros [].
  - rewrite C; constructor.
Qed.

Lemma is_power_of_2_spec v : 0 < v -> is_power_of_2 v = true -> exists j, 0 <= j /\ v = 2 ^ j.
Proof.
  intros Hv; unfold is_power_of_2; destruct (Z.eqb_spec v 0); [discriminate|].
  intros E; apply Z.eqb_eq in E; exists (Z.log2 v); split; [apply Z.log2_nonneg|].
  destruct (Z.log2_spec v Hv) as [L U].
  destruct (Z.eq_dec v (2 ^ Z.log2 v)) as [|Ne]; [assumption|exfalso].
  assert (T : forall x, 2 ^ Z.log2 v <= x -> x < 2 ^ Z.succ (Z.log2 v) -> Z.testbit x (Z.log2 v) = true).
  { intros x Lx Ux; replace (Z.log2 v) with (Z.log2 x); [apply Z.bit_log2; pose proof (pow2_pos (Z.log2 v)); pose proof (Z.log2_nonneg v); lia|].
    apply Z.log2_unique; [apply Z.log2_nonneg|lia]. }
  assert (B : Z.testbit (v .& (v - 1)) (Z.log2 v) = true) by (rewrite Z.land_spec, !T by lia; reflexivity).
  rewrite E, Z.bits_0 in B; discriminate.
Qed.

(** The number of buckets is a power of two, enough for six entries each. *)
Lemma elems_to_buckets_pow2 n :
  0 <= n < 2 ^ 32 ->
  exists j, 0 <= j /\ qht_elems_to_buckets n = 2 ^ j /\ n / Z.of_nat QHT_BUCKET_ENTRIES <= 2 ^ j.
Proof.
  intros Hn; unfold qht_elems_to_buckets; set (v := n / _).
  assert (Hv : 0 <= v < 2 ^ 32) by (unfold v, QHT_BUCKET_ENTRIES; split; [apply Z.div_pos|apply Z.div_lt_upper_bound]; lia).
  unfold pow2ceil; destruct (is_power_of_2 v) eqn:P.
  - destruct (Z.eq_dec v 0) as [E|]; [rewrite E in P; discriminate|].
    destruct (is_power_of_2_spec v) as (j & Hj & E); [lia|assumption|]; exists j; splits; auto; lia.
  - unfold clz64; destruct (Z.eqb_spec v 0) as [E|N]; [exists 0; rewrite E; splits; cbn; lia|].
    assert (L := Z.log2_nonneg v); assert (U : Z.log2 v < 32) by (apply Z.log2_lt_pow2; lia).
    destruct (Z.eqb_spec (63 - Z.log2 v) 0); [lia|].
    exists (Z.log2 v + 1); rewrite Z.shiftl_1_l; splits; [lia|f_equal; lia|].
    destruct (Z.log2_spec v); unfold Z.succ in *; lia.
Qed.

(** ** Resizing *)

Lemma hash_of_fresh v p h : ~ In p (map e_ptr v) -> hash_of v p h.
Proof. intros N e I <-; now destruct N; apply in_map. Qed.

Lemma copy_all es : forall m,
  map_wf m -> Forall (fun e => nonnull e /\ inU 32 (e_hash e)) es -> NoDup (map e_ptr (es ++ contents m)) ->
  map_wf (fold_left qht_map_copy es m) /\ n_buckets (fold_left qht_map_copy es m) = n_buckets m /\
  Permutation (contents (fold_left qht_map_copy es m)) (es ++ contents m).
Proof.
  induction es as [|[h p] es IH]; intros m W F N; cbn [fold_left]; [now splits|].
  inversion F as [|? ? [Hp Hh] F']; subst; cbn [map e_ptr app] in N; apply NoDup_cons_iff in N as [Np N].
  assert (Nc : ~ In p (map e_ptr (contents m))) by (intros X; apply Np; rewrite map_app; apply in_or_app; now right).
  assert (I := insert_locked_ok m p h W Hp Hh (hash_of_fresh _ _ h Nc)).
  unfold qht_map_copy at 2 4 6; cbn [e_hash e_ptr].
  destruct (qht_insert__locked m (qht_map_to_bucket m h) p h) as [[ret m'] nr]; cbn [fst snd].
  destruct I as (W' & S' & -> & P').
  destruct (has (contents m) p) eqn:Hh'; [now apply has_iff in Hh'|]; cbn [negb] in P'.
  destruct (IH m' W' F') as (A & B & C).
  - rewrite P', <- Permutation_middle; now constructor.
  - splits; auto; [congruence|]; rewrite C, P'; symmetry; apply Permutation_middle.
Qed.

Lemma do_resize_ok ht j :
  map_wf (ht_map ht) -> 0 <= j -> 2 ^ j <> n_buckets (ht_map ht) ->
  exists m, qht_do_resize ht (qht_map_create (2 ^ j)) = Some (mkQht m (ht_mode ht)) /\
    map_wf m /\ n_buckets m = 2 ^ j /\ Permutation (contents m) (contents (ht_map ht)).
Proof.
  intros W Hj N; unfold qht_do_resize; cbn [n_buckets qht_map_create].
  destruct (Z.eqb_spec (2 ^ j) (n_buckets (ht_map ht))); [congruence|].
  destruct (map_create_ok j Hj) as [Wc Cc].
  destruct (copy_all (contents (ht_map ht)) (qht_map_create (2 ^ j)) Wc) as (A & B & C).
  - apply Forall_forall; intros e I; split; [now apply (contents_nonnull (ht_map ht))|exact (proj2 (in_contents _ e W I))].
  - rewrite Cc, app_nil_r; apply W.
  - rewrite Cc, app_nil_r in C; eexists; splits; [reflexivity|assumption..].
Qed.

(** ** Emptying *)

Lemma reset_entries_packed v k :
  Forall nonnull v ->
  reset_entries (v ++ repeat no_entry k) = (repeat no_entry (length v + k), negb (k =? 0)%nat).
Proof.
  induction 1 as [|e v He _ IH]; cbn [app reset_entries length Nat.add]; [destruct k; reflexivity|].
  now rewrite is_null_false, IH by assumption.
Qed.

Lemma reset_chain_ok c : forall v,
  holds_entries c v -> holds_entries (qht_bucket_reset__locked c) [].
Proof.
  assert (X : forall c v k, Forall (fun b => length b = QHT_BUCKET_ENTRIES) c -> concat c = v ++ repeat no_entry k ->
            Forall nonnull v -> Forall (fun b => length b = QHT_BUCKET_ENTRIES) (qht_bucket_reset__locked c) /\
            concat (qht_bucket_reset__locked c) = repeat no_entry (length v + k)).
  { clear; induction c as [|b c IH]; intros v k L E N.
    - destruct v; [|discriminate]; destruct k; [now split|discriminate].
    - inversion L as [|? ? Lb Lc]; subst; cbn [qht_bucket_reset__locked]; cbn [concat] in E.
      destruct (packed_split _ _ _ _ E) as [(j & Hj & -> & Er)|(v' & -> & Er)].
      + rewrite reset_entries_packed by assumption; destruct j as [|j]; [lia|]; cbn [Nat.eqb negb].
        rewrite length_app, repeat_length in Lb; split; [constructor; [now rewrite repeat_length|assumption]|].
        cbn [concat]; rewrite Er, <- repeat_app; f_equal; lia.
      + apply Forall_app in N as [Nb Nv]; assert (R := reset_entries_packed b 0 Nb); rewrite app_nil_r in R.
        rewrite R; cbn [Nat.eqb negb]; destruct (IH v' k Lc Er Nv) as [A B].
        split; [constructor; [rewrite repeat_length; lia|assumption]|].
        cbn [concat]; rewrite B, <- repeat_app, length_app; f_equal; lia. }
  intros v [L [k E] N]; destruct (X c v k L E N) as [A B]; constructor; [assumption|now exists (length v + k)%nat|constructor].
Qed.

Lemma map_reset_ok m :
  map_wf m -> map_wf (qht_map_reset__all_locked m) /\ contents (qht_map_reset__all_locked m) = [].
Proof.
  intros [S L C H D]; set (m' := qht_map_reset__all_locked m).
  assert (E : forall i, (i < length (buckets m))%nat -> holds_entries (nth i (buckets m') []) []).
  { intros i Hi; cbn [buckets m' qht_map_reset__all_locked].
    change (@nil bucket) with (qht_bucket_reset__locked []) at 1; rewrite map_nth; eapply reset_chain_ok, C, Hi. }
  assert (L' : length (buckets m') = length (buckets m)) by apply length_map.
  assert (Nil : contents m' = []).
  { apply incl_l_nil; intros e I; apply in_flat_map in I as (c & Ic & Ie).
    destruct (In_nth _ _ [] Ic) as (i & Hi & <-).
    assert (Hi' : (i < length (buckets m))%nat) by (rewrite <- L'; exact Hi).
    pose proof (iter_holds _ _ (E i Hi')) as X; change (In e (qht_bucket_iter (nth i (buckets m') []))) in Ie.
    now rewrite X in Ie. }
  split; [|exact Nil]; constructor; auto; rewrite ?L'; auto.
  - intros i Hi; rewrite (iter_holds _ _ (E i Hi)); auto.
  - intros i e Hi; rewrite (iter_holds _ _ (E i Hi)); intros [].
  - rewrite Nil; constructor.
Qed.

(** ** What the table promises *)

Definition qht_ok (ht : qht) : Prop := map_wf (ht_map ht).

Lemma qht_lookup_ok ht f h :
  qht_ok ht ->
  (qht_lookup ht f h = 0 /\ forall p, In (mkEntry h p) (qht_iter ht) -> f p = false) \/
  (qht_lookup ht f h <> 0 /\ In (mkEntry h (qht_lookup ht f h)) (qht_iter ht) /\ f (qht_lookup ht f h) = true).
Proof.
  intros W; assert (Hi := home_lt (ht_map ht) h W); unfold qht_lookup, qht_iter.
  destruct (do_lookup_ok _ _ f h (mw_chains _ W _ Hi)) as [[-> N]|(A & B & C)]; [left|right].
  - split; [reflexivity|]; intros p I; apply N; exact (proj1 (in_contents _ _ W I)).
  - splits; auto; exact (contents_in _ _ _ Hi B).
Qed.

Lemma qht_insert_ok busy ht p h :
  qht_ok ht -> p <> 0 -> inU 32 h -> hash_of (qht_iter ht) p h ->
  exists ht', qht_insert busy ht p h = Some (negb (has (qht_iter ht) p), ht') /\ qht_ok ht' /\
    Permutation (qht_iter ht') (if has (qht_iter ht) p then qht_iter ht else mkEntry h p :: qht_iter ht).
Proof.
  intros W Hp Hh Ho; assert (I := insert_locked_ok (ht_map ht) p h W Hp Hh Ho); unfold qht_insert, qht_ok, qht_iter in *.
  destruct (qht_insert__locked _ _ p h) as [[ret m] nr]; destruct I as (W' & S' & -> & P').
  assert (P2 : Permutation (contents m) (if has (contents (ht_map ht)) p then contents (ht_map ht)
                                         else mkEntry h p :: contents (ht_map ht))) by now destruct (has _ p).
  destruct (nr && _); [|eexists; splits; [reflexivity|assumption..]].
  unfold qht_grow_maybe; destruct busy; [eexists; splits; [reflexivity|assumption..]|].
  cbn [ht_map]; destruct (qht_map_needs_resize m); [|eexists; splits; [reflexivity|assumption..]].
  destruct (mw_size m W') as (j & Hj & E).
  destruct (do_resize_ok (mkQht m (ht_mode ht)) (j + 1)) as (m2 & R & W2 & _ & P3); auto; [lia|cbn [ht_map]|].
  - rewrite E; pose proof (pow2_pos j Hj); rewrite Z.pow_add_r by lia; lia.
  - rewrite E; replace (2 ^ j * 2) with (2 ^ (j + 1)) by (rewrite Z.pow_add_r by lia; lia).
    rewrite R; eexists; splits; [reflexivity|assumption|]; cbn [ht_map] in *; now rewrite P3.
Qed.

Lemma qht_remove_ok ht p h :
  qht_ok ht -> hash_of (qht_iter ht) p h ->
  exists ht', qht_remove ht p h = (has (qht_iter ht) p, ht') /\ qht_ok ht' /\
    Permutation (if has (qht_iter ht) p then mkEntry h p :: qht_iter ht' else qht_iter ht') (qht_iter ht).
Proof.
  intros W Ho; assert (I := remove_locked_ok (ht_map ht) p h W Ho); unfold qht_remove, qht_ok, qht_iter in *.
  destruct (qht_remove__locked _ _ p) as [ret m]; destruct I as (W' & -> & P').
  eexists; splits; [reflexivity|assumption|exact P'].
Qed.

Lemma qht_reset_size_ok ht n :
  qht_ok ht -> 0 <= n < 2 ^ 32 ->
  exists r ht', qht_reset_size ht n = Some (r, ht') /\ qht_ok ht' /\ qht_iter ht' = [].
Proof.
  intros W Hn; unfold qht_reset_size, qht_ok, qht_iter in *.
  destruct (map_reset_ok (ht_map ht) W) as [W' C']; destruct (elems_to_buckets_pow2 n Hn) as (j & Hj & E & _).
  rewrite E; destruct (Z.eqb_spec (2 ^ j) (n_buckets (ht_map ht))); cbn [negb].
  - eexists _, _; splits; [reflexivity|assumption..].
  - destruct (do_resize_ok (mkQht (qht_map_reset__all_locked (ht_map ht)) (ht_mode ht)) j) as (m & -> & Wm & _ & P); auto.
    eexists _, _; splits; [reflexivity|assumption|]; cbn [ht_map] in *; rewrite C' in P.
    now apply Permutation_nil, Permutation_sym.
Qed.

Lemma qht_resize_ok ht n :
  qht_ok ht -> 0 <= n < 2 ^ 32 ->
  exists r ht', qht_resize ht n = Some (r, ht') /\ qht_ok ht' /\ Permutation (qht_iter ht') (qht_iter ht).
Proof.
  intros W Hn; unfold qht_resize, qht_ok, qht_iter in *; destruct (elems_to_buckets_pow2 n Hn) as (j & Hj & E & _).
  rewrite E; destruct (Z.eqb_spec (2 ^ j) (n_buckets (ht_map ht))); cbn [negb].
  - eexists _, _; splits; [reflexivity|assumption|reflexivity].
  - destruct (do_resize_ok ht j) as (m & -> & Wm & _ & P); auto.
    eexists _, _; splits; [reflexivity|assumption..].
Qed.

Lemma qht_init_ok n mode : 0 <= n < 2 ^ 32 -> qht_ok (qht_init n mode) /\ qht_iter (qht_init n mode) = [].
Proof.
  intros Hn; destruct (elems_to_buckets_pow2 n Hn) as (j & Hj & E & _).
  unfold qht_ok, qht_iter, qht_init; rewrite E; now apply map_create_ok.
Qed.

(** What a client may rely on: a set of pairs of a hash and a pointer. *)
Class HashTable (T : Type) := {
  tab_ok : T -> Prop;
  tab_entries : T -> list entry;
  tab_lookup : T -> (Z -> bool) -> Z -> Z;
  tab_insert : bool -> T -> Z -> Z -> option (bool * T);
  tab_remove : T -> Z -> Z -> bool * T;
  tab_reset_size : T -> Z -> option (bool * T);
  tab_lookup_ok t f h : tab_ok t ->
    (tab_lookup t f h = 0 /\ forall p, In (mkEntry h p) (tab_entries t) -> f p = false) \/
    (tab_lookup t f h <> 0 /\ In (mkEntry h (tab_lookup t f h)) (tab_entries t) /\ f (tab_lookup t f h) = true);
  tab_insert_ok busy t p h : tab_ok t -> p <> 0 -> inU 32 h -> hash_of (tab_entries t) p h ->
    exists t', tab_insert busy t p h = Some (negb (has (tab_entries t) p), t') /\ tab_ok t' /\
      Permutation (tab_entries t') (if has (tab_entries t) p then tab_entries t else mkEntry h p :: tab_entries t);
  tab_remove_ok t p h : tab_ok t -> hash_of (tab_entries t) p h ->
    exists t', tab_remove t p h = (has (tab_entries t) p, t') /\ tab_ok t' /\
      Permutation (if has (tab_entries t) p then mkEntry h p :: tab_entries t' else tab_entries t') (tab_entries t);
  tab_reset_ok t n : tab_ok t -> 0 <= n < 2 ^ 32 ->
    exists r t', tab_reset_size t n = Some (r, t') /\ tab_ok t' /\ tab_entries t' = [];
  tab_nodup t : tab_ok t -> NoDup (map e_ptr (tab_entries t))
}.

#[export] Instance qht_table : HashTable qht := {|
  tab_ok := qht_ok; tab_entries := qht_iter; tab_lookup := qht_lookup; tab_insert := qht_insert;
  tab_remove := qht_remove; tab_reset_size := qht_reset_size;
  tab_lookup_ok := qht_lookup_ok; tab_insert_ok := qht_insert_ok; tab_remove_ok := qht_remove_ok;
  tab_reset_ok := qht_reset_size_ok; tab_nodup ht W := mw_nodup (ht_map ht) W
|}.

(** ** The table refines a set *)

Inductive qht_op := OpInsert (p h : Z) | OpRemove (p h : Z) | OpResize (n : Z) | OpReset.

Definition qht_step (busy : bool) (ht : qht) (op : qht_op) : option (bool * qht) :=
  match op with
  | OpInsert p h => qht_insert busy ht p h
  | OpRemove p h => Some (qht_remove ht p h)
  | OpResize n => qht_resize ht n
  | OpReset => Some (true, qht_reset ht)
  end.

(** The set of pairs after an operation, and what insertion and removal return. *)
Definition set_step (s : list entry) (op : qht_op) : list entry :=
  match op with
  | OpInsert p h => if has s p then s else mkEntry h p :: s
  | OpRemove p _ => filter (fun e => negb (e_ptr e =? p)) s
  | OpResize _ => s
  | OpReset => []
  end.

Definition op_pre (s : list entry) (op : qht_op) : Prop :=
  match op with
  | OpInsert p h => p <> 0 /\ inU 32 h /\ hash_of s p h
  | OpRemove p h => hash_of s p h
  | OpResize n => 0 <= n < 2 ^ 32
  | OpReset => True
  end.

Definition op_returns (s : list entry) (op : qht_op) (r : bool) : Prop :=
  match op with
  | OpInsert p _ => r = negb (has s p)
  | OpRemove p _ => r = has s p
  | _ => True
  end.

Lemma filter_other v p : ~ In p (map e_ptr v) -> filter (fun e => negb (e_ptr e =? p)) v = v.
Proof.
  induction v as [|e v IH]; cbn; [reflexivity|]; intros N.
  destruct (Z.eqb_spec (e_ptr e) p) as [E|_]; [now destruct N; left|]; cbn; f_equal; apply IH; tauto.
Qed.

#[export] Instance filter_perm {A} (f : A -> bool) : Proper (@Permutation A ==> @Permutation A) (filter f).
Proof.
  intros v w P; induction P as [|x v w _ IH|x y v|u v w _ IHu _ IHv]; cbn; auto.
  - destruct (f x); auto.
  - destruct (f x), (f y); auto; constructor.
  - now rewrite IHu.
Qed.

Lemma removed_filter v p h w :
  NoDup (map e_ptr v) -> Permutation (mkEntry h p :: w) v ->
  Permutation w (filter (fun e => negb (e_ptr e =? p)) v).
Proof.
  intros N P; rewrite <- P in N |- *; cbn [map e_ptr] in N; apply NoDup_cons_iff in N as [N _].
  cbn [filter e_ptr]; rewrite Z.eqb_refl; cbn [negb]; now rewrite filter_other.
Qed.

(** C11: the hash table implements a set of pointers with hashes: insertion, removal,
    resizing and reset change its contents as they change the set, also when an
    insertion triggers a resize, their results tell whether the pointer was there, and a
    lookup afterwards returns a matching pointer of the set exactly when there is one.
    *)
Theorem qht_refines_set busy ht op :
  qht_ok ht -> op_pre (qht_iter ht) op ->
  exists r ht', qht_step busy ht op = Some (r, ht') /\ qht_ok ht' /\
    Permutation (qht_iter ht') (set_step (qht_iter ht) op) /\ op_returns (qht_iter ht) op r /\
    (forall f h,
      (qht_lookup ht' f h = 0 /\ forall p, In (mkEntry h p) (set_step (qht_iter ht) op) -> f p = false) \/
      (qht_lookup ht' f h <> 0 /\ In (mkEntry h (qht_lookup ht' f h)) (set_step (qht_iter ht) op) /\
       f (qht_lookup ht' f h) = true)).
Proof.
  intros W Pre.
  assert (S : exists r ht', qht_step busy ht op = Some (r, ht') /\ qht_ok ht' /\
            Permutation (qht_iter ht') (set_step (qht_iter ht) op) /\ op_returns (qht_iter ht) op r).
  { destruct op as [p h|p h|n|]; cbn [qht_step set_step op_pre op_returns] in *.
    - destruct (qht_insert_ok busy ht p h W) as (ht' & E & W' & P); try tauto; eexists _, _; splits; eauto.
    - destruct (qht_remove_ok ht p h W Pre) as (ht' & E & W' & P); rewrite E; eexists _, _; splits; eauto.
      destruct (has (qht_iter ht) p) eqn:H.
      + apply (removed_filter _ p h); [apply W|exact P].
      + rewrite filter_other; [exact P|]; rewrite <- has_iff; congruence.
    - destruct (qht_resize_ok ht n W Pre) as (r & ht' & E & W' & P); eexists _, _; splits; eauto.
    - destruct (map_reset_ok (ht_map ht) W) as [W' C]; eexists _, _; splits; eauto.
      unfold qht_reset, qht_iter; cbn [ht_map]; now rewrite C. }
  destruct S as (r & ht' & E & W' & P & R); exists r, ht'; splits; auto; intros f h.
  destruct (qht_lookup_ok ht' f h W') as [[A B]|(A & B & C)]; [left|right]; splits; auto.
  - intros p I; apply B; now rewrite P.
  - now rewrite <- P.
Qed.

Lemma qht_refines_set_witness :
  exists r ht', qht_step false (qht_init 0 QHT_MODE_AUTO_RESIZE) (OpInsert 0x1000 7) = Some (r, ht') /\
    qht_ok ht' /\ Permutation (qht_iter ht') [mkEntry 7 0x1000].
Proof.
  destruct (qht_init_ok 0 QHT_MODE_AUTO_RESIZE) as [W _]; [lia|].
  destruct (qht_refines_set false (qht_init 0 QHT_MODE_AUTO_RESIZE) (OpInsert 0x1000 7) W) as (r & ht' & A & B & C & _).
  - split; [lia|]; split; [unfold inU; lia|]; intros e [].
  - exists r, ht'; split; [exact A|split; [exact B|exact C]].
Defined.
