(* ===== verification/TbChain.v ===== *)
(** * Translation blocks and their jump lists (exec-all.h, translate-all.c)

    A translation block may jump directly to two others.  The blocks that jump
    to a block are in a circular list: [jmp_list_first] of the target leads to
    the first, [jmp_list_next[n]] of a source [tb], used for its jump [n], to
    the following one and at the end back to the target.  The low two bits of
    a link say which field of the block it leads to goes on: 0 or 1 for
    [jmp_list_next], 2 for [jmp_list_first].  The jumps themselves are branch
    instructions in the generated code, patched in place. *)

From Stdlib Require Import ZArith Lia List Bool FinFun.
From S2P Require Import Prelude Bitops.
Import ListNotations.
Local Open Scope Z_scope.
Local Open Scope c_scope.

(** ** Blocks *)

(** An array of two. *)
Definition sel2 {A} (a : A * A) (n : Z) : A := if n =? 0 then fst a else snd a.
Definition set2 {A} (a : A * A) (n : Z) (x : A) : A * A := if n =? 0 then (x, snd a) else (fst a, x).

Record TranslationBlock := mkTB {
  tb_pc : Z; tb_cs_base : Z; tb_flags : Z;
  tb_size : Z; tb_icount : Z; tb_cflags : Z;
  tc_ptr : Z;
  page_next : Z * Z;
  page_addr : Z * Z;
  jmp_reset_offset : Z * Z;
  jmp_insn_offset : Z * Z;
  jmp_list_next : Z * Z;
  jmp_list_first : Z
}.

Definition TB_JMP_RESET_OFFSET_INVALID : Z := 0xffff.

Definition set_jmp_list_next (t : TranslationBlock) (n v : Z) : TranslationBlock :=
  mkTB (tb_pc t) (tb_cs_base t) (tb_flags t) (tb_size t) (tb_icount t) (tb_cflags t) (tc_ptr t)
    (page_next t) (page_addr t) (jmp_reset_offset t) (jmp_insn_offset t) (set2 (jmp_list_next t) n v)
    (jmp_list_first t).

Definition set_jmp_list_first (t : TranslationBlock) (v : Z) : TranslationBlock :=
  mkTB (tb_pc t) (tb_cs_base t) (tb_flags t) (tb_size t) (tb_icount t) (tb_cflags t) (tc_ptr t)
    (page_next t) (page_addr t) (jmp_reset_offset t) (jmp_insn_offset t) (jmp_list_next t) v.

(** The blocks by their address, and the words of the generated code by theirs. *)
Record tb_store := mkStore { tb_at : Z -> TranslationBlock; host_code : Z -> Z }.

Definition set_fun {A} (f : Z -> A) (a : Z) (x : A) : Z -> A := fun b => if b =? a then x else f b.

Definition set_tb (st : tb_store) (a : Z) (t : TranslationBlock) : tb_store :=
  mkStore (set_fun (tb_at st) a t) (host_code st).

(** ** Patching a jump (tcg/arm/tcg-target.inc.c) *)

Definition reloc_pc24_atomic (st : tb_store) (code_ptr target : Z) : tb_store :=
  let offset := swrap 32 (target - code_ptr - 8) .>> 2 in
  let insn := host_code st code_ptr in
  mkStore (tb_at st) (set_fun (host_code st) code_ptr (deposit32 insn 0 24 offset)).

Definition arm_tb_set_jmp_target (st : tb_store) (jmp_addr addr : Z) : tb_store :=
  reloc_pc24_atomic st jmp_addr addr.

Definition tb_set_jmp_target (st : tb_store) (tb n addr : Z) : tb_store :=
  let offset := sel2 (jmp_insn_offset (tb_at st tb)) n in
  arm_tb_set_jmp_target st (u32 (tc_ptr (tb_at st tb) + offset)) addr.

Definition tb_reset_jump (st : tb_store) (tb n : Z) : tb_store :=
  let t := tb_at st tb in
  let addr := u32 (tc_ptr t + sel2 (jmp_reset_offset t) n) in
  tb_set_jmp_target st tb n addr.

(** ** The lists *)

Definition tb_add_jump (st : tb_store) (tb n tb_next : Z) : tb_store :=
  if truthy (sel2 (jmp_list_next (tb_at st tb)) n) then st
  else
    let st := tb_set_jmp_target st tb n (tc_ptr (tb_at st tb_next)) in
    let st := set_tb st tb (set_jmp_list_next (tb_at st tb) n (jmp_list_first (tb_at st tb_next))) in
    set_tb st tb_next (set_jmp_list_first (tb_at st tb_next) (tb .| n)).

(** The field a pointer into a list points to. *)
Inductive slot := First (tb : Z) | Next (tb n : Z).

Definition read_slot (st : tb_store) (s : slot) : Z :=
  match s with
  | First tb => jmp_list_first (tb_at st tb)
  | Next tb n => sel2 (jmp_list_next (tb_at st tb)) n
  end.

Definition write_slot (st : tb_store) (s : slot) (v : Z) : tb_store :=
  match s with
  | First tb => set_tb st tb (set_jmp_list_first (tb_at st tb) v)
  | Next tb n => set_tb st tb (set_jmp_list_next (tb_at st tb) n v)
  end.

(** [n1 = ntb & 3] and [tb1 = ntb & ~3] *)
Definition link_n (ntb : Z) : Z := ntb .& 3.
Definition link_tb (ntb : Z) : Z := ntb .& u32 (Z.lnot 3).

(** The search for tb(n) in the list, from the field [ptb] on: the field that
    leads to it; [None] when it has not been found. *)
Fixpoint find_link (fuel : nat) (st : tb_store) (ptb : slot) (tb n : Z) : option slot :=
  match fuel with
  | O => None
  | S fuel =>
      let ntb := read_slot st ptb in
      let n1 := link_n ntb in
      let tb1 := link_tb ntb in
      if (n1 =? n) && (tb1 =? tb) then Some ptb
      else find_link fuel st (if n1 =? 2 then First tb1 else Next tb1 n1) tb n
  end.

Definition tb_remove_from_jmp_list (fuel : nat) (st : tb_store) (tb n : Z) : option tb_store :=
  if truthy (read_slot st (Next tb n)) then
    let? ptb := find_link fuel st (Next tb n) tb n in
    let st := write_slot st ptb (sel2 (jmp_list_next (tb_at st tb)) n) in
    Some (write_slot st (Next tb n) 0)
  else Some st.

Fixpoint tb_jmp_unlink (fuel : nat) (st : tb_store) (tb : Z) : option tb_store :=
  match fuel with
  | O => None
  | S fuel =>
      let ntb := read_slot st (First tb) in
      let n1 := link_n ntb in
      let tb1 := link_tb ntb in
      if n1 =? 2 then Some st
      else
        let st := tb_reset_jump st tb1 n1 in
        let st := write_slot st (First tb) (sel2 (jmp_list_next (tb_at st tb1)) n1) in
        let st := write_slot st (Next tb1 n1) 0 in
        tb_jmp_unlink fuel st tb
  end.

(** ** Branches *)

(** Where the branch instruction at an address leads. *)
Definition branch_target (st : tb_store) (a : Z) : Z := u32 (a + 8 + 4 * sextract32 (host_code st a) 0 24).

(** The generated code lies in one buffer of at most 16 megabytes. *)
Definition MAX_CODE_GEN_BUFFER_SIZE : Z := 16 * 1024 * 1024.

Definition in_buffer (base a : Z) : Prop :=
  base <= a < base + MAX_CODE_GEN_BUFFER_SIZE /\ a mod 4 = 0 /\ 0 <= base /\ base + MAX_CODE_GEN_BUFFER_SIZE < 2 ^ 32.

Lemma patched_target st base a target :
  in_buffer base a -> in_buffer base target -> inU 32 (host_code st a) ->
  let st' := reloc_pc24_atomic st a target in
  branch_target st' a = target /\ inU 32 (host_code st' a) /\
  extract32 (host_code st' a) 24 8 = extract32 (host_code st a) 24 8 /\
  forall b, b <> a -> host_code st' b = host_code st b.
Proof.
  unfold in_buffer, MAX_CODE_GEN_BUFFER_SIZE; intros (Ha & Aa & B0 & B1) (Ht & At & _ & _) Hc; cbv zeta.
  unfold branch_target, reloc_pc24_atomic; cbn [host_code]; unfold set_fun; rewrite Z.eqb_refl.
  set (d := target - a - 8).
  assert (Hd : - 2 ^ 25 <= d < 2 ^ 25) by (unfold d; lia).
  rewrite (swrap_id 32 d) by (unfold inS; lia).
  assert (Ho : inS 24 (d .>> 2)).
  { rewrite Z.shiftr_div_pow2 by lia; unfold inS; change (2 ^ 2) with 4; change (2 ^ (24 - 1)) with 8388608.
    change (2 ^ 25) with 33554432 in Hd; split; [apply Z.div_le_lower_bound|apply Z.div_lt_upper_bound]; lia. }
  splits.
  - unfold sextract32, deposit32; rewrite sextractw_swrap, Z.shiftr_0_r by lia.
    assert (E : swrap 24 (depositw 32 (host_code st a) 0 24 (d .>> 2)) = d .>> 2).
    { rewrite <- (swrap_id 24 (d .>> 2)) at 2 by (assumption || lia); apply swrap_eq_wrap; [lia|].
      transitivity (extractw 32 (depositw 32 (host_code st a) 0 24 (d .>> 2)) 0 24).
      - now rewrite extractw_wrap, Z.shiftr_0_r by lia.
      - now rewrite extractw_depositw by (assumption || lia). }
    rewrite E, Z.shiftr_div_pow2 by lia; change (2 ^ 2) with 4.
    assert (D4 : 4 * (d / 4) = d).
    { assert (d mod 4 = 0); [|pose proof (Z.div_mod d 4); lia].
      pose proof (Z.div_mod target 4); pose proof (Z.div_mod a 4).
      replace d with ((target / 4 - a / 4 - 2) * 4) by (unfold d; lia); apply Z_mod_mult. }
    rewrite D4; unfold d; rewrite wrap_id; unfold inU; lia.
  - apply depositw_range; lia || assumption.
  - apply extractw_depositw_disjoint; lia || assumption.
  - intros b Hb; now rewrite (proj2 (Z.eqb_neq b a) Hb).
Qed.

(** ** Links *)

Definition is_tb_ptr (a : Z) : Prop := inU 32 a /\ a .& 3 = 0 /\ a <> 0.

Definition jump : Type := Z * Z.
Definition jump_slot (j : jump) : slot := Next (fst j) (snd j).
Definition is_n (n : Z) : Prop := n = 0 \/ n = 1.

(** The link to a field. *)
Definition link (s : slot) : Z := match s with First tb => tb .| 2 | Next tb n => tb .| n end.

Definition good_slot (s : slot) : Prop :=
  match s with First tb => is_tb_ptr tb | Next tb n => is_tb_ptr tb /\ is_n n end.

Lemma link_parts tb n :
  is_tb_ptr tb -> 0 <= n < 4 -> link_n (tb .| n) = n /\ link_tb (tb .| n) = tb /\ tb .| n <> 0.
Proof.
  intros (R & A & Z0) Hn; unfold link_n, link_tb; splits.
  - rewrite Z.land_lor_distr_l, A; change 3 with (Z.ones 2); rewrite Z.land_ones by lia; apply Z.mod_small; lia.
  - rewrite Z.land_lor_distr_l.
    assert (En : n .& u32 (Z.lnot 3) = 0).
    { assert (n = 0 \/ n = 1 \/ n = 2 \/ n = 3) as [-> | [-> | [-> | ->]]] by lia; reflexivity. }
    rewrite En, Z.lor_0_r; apply Z.bits_inj'; intros i Hi; rewrite Z.land_spec, testbit_wrap, Z.lnot_spec by lia.
    pose proof (f_equal (fun z => Z.testbit z i) A) as B; cbn beta in B; rewrite Z.land_spec, Z.bits_0 in B.
    destruct (Z.testbit tb i) eqn:T; [|reflexivity]; cbn in B; rewrite B.
    destruct (Z.ltb_spec i 32); [reflexivity|]; rewrite (testbit_high 32) in T by assumption; discriminate.
  - intros E; apply Z.lor_eq_0_iff in E as [E _]; contradiction.
Qed.

Lemma is_n_range n : is_n n -> 0 <= n < 4 /\ n <> 2.
Proof. intros [-> | ->]; lia. Qed.

Lemma link_slot s :
  good_slot s ->
  link s <> 0 /\ (if link_n (link s) =? 2 then First (link_tb (link s)) else Next (link_tb (link s)) (link_n (link s))) = s.
Proof.
  destruct s as [tb|tb n]; cbn [good_slot link].
  - intros P; destruct (link_parts tb 2 P) as (-> & -> & N); [lia|]; now split.
  - intros [P I]; destruct (is_n_range n I); destruct (link_parts tb n P) as (-> & -> & N); [lia|].
    split; [exact N|]; now rewrite (proj2 (Z.eqb_neq n 2)) by lia.
Qed.

Lemma link_inj s s' : good_slot s -> good_slot s' -> link s = link s' -> s = s'.
Proof. intros G G' E; destruct (link_slot s G) as [_ <-]; rewrite E; now apply link_slot. Qed.

(** ** Reading and writing fields *)

Lemma read_write_eq st s v : good_slot s -> read_slot (write_slot st s v) s = v.
Proof.
  destruct s as [tb|tb n]; cbn; unfold set_fun; rewrite Z.eqb_refl; [reflexivity|]; cbn.
  unfold set2, sel2; intros _; destruct (n =? 0); reflexivity.
Qed.

Lemma read_write_ne st s s' v : good_slot s -> good_slot s' -> s' <> s -> read_slot (write_slot st s v) s' = read_slot st s'.
Proof.
  destruct s as [a|a n], s' as [b|b m]; cbn; unfold set_fun; intros G G' N;
    destruct (Z.eqb_spec b a) as [->|]; try reflexivity; cbn; try congruence.
  unfold set2, sel2; destruct G as [_ [-> | ->]], G' as [_ [-> | ->]]; try congruence; reflexivity.
Qed.

(** Only the lists change. *)
Definition same_fields (st st' : tb_store) : Prop :=
  forall a, let t := tb_at st a in let t' := tb_at st' a in
    tb_pc t' = tb_pc t /\ tb_cs_base t' = tb_cs_base t /\ tb_flags t' = tb_flags t /\ tb_size t' = tb_size t /\
    tb_cflags t' = tb_cflags t /\ page_next t' = page_next t /\ page_addr t' = page_addr t /\
    tc_ptr t' = tc_ptr t /\ jmp_reset_offset t' = jmp_reset_offset t /\ jmp_insn_offset t' = jmp_insn_offset t /\
    tb_icount t' = tb_icount t.

Definition same_static (st st' : tb_store) : Prop := host_code st' = host_code st /\ same_fields st st'.

Lemma same_fields_refl st : same_fields st st.
Proof. intros a; now splits. Qed.

Lemma same_fields_trans a b c : same_fields a b -> same_fields b c -> same_fields a c.
Proof.
  intros F F' x; specialize (F x); specialize (F' x); cbv zeta in *.
  destruct F as (? & ? & ? & ? & ? & ? & ? & ? & ? & ? & ?), F' as (? & ? & ? & ? & ? & ? & ? & ? & ? & ? & ?).
  splits; congruence.
Qed.

Lemma same_static_trans a b c : same_static a b -> same_static b c -> same_static a c.
Proof. intros [H F] [H' F']; split; [congruence|eapply same_fields_trans; eassumption]. Qed.

Lemma write_static st s v : same_static st (write_slot st s v).
Proof.
  destruct s; split; try reflexivity; intros x; cbn; unfold set_fun; destruct (Z.eqb_spec x tb) as [->|];
    now splits.
Qed.

(** ** Paths *)

(** From field [s] the links lead through the fields [l] to the link [e]. *)
Fixpoint path (st : tb_store) (s : slot) (l : list slot) (e : Z) : Prop :=
  match l with
  | [] => read_slot st s = e
  | x :: l => read_slot st s = link x /\ path st x l e
  end.

Lemma path_app st l1 : forall s x l2 e, path st s (l1 ++ x :: l2) e <-> path st s l1 (link x) /\ path st x l2 e.
Proof. induction l1 as [|y l1 IH]; intros; cbn [app path]; [tauto|]; rewrite IH; tauto. Qed.

(** A path only depends on the fields along it. *)
Lemma path_move st st' s s' l e :
  read_slot st' s' = read_slot st s -> (forall x, In x l -> read_slot st' x = read_slot st x) ->
  path st s l e -> path st' s' l e.
Proof.
  revert s s'; induction l as [|x l IH]; intros s s' E F; cbn [path]; [congruence|].
  intros [L P]; split; [congruence|]; apply (IH x x); auto with datatypes.
Qed.

Lemma last_cons {A} (l : list A) : forall x s, last (x :: l) s = last l x.
Proof. induction l as [|y l IH]; intros; [reflexivity|]; cbn [last] in *; now rewrite (IH y s), (IH y x). Qed.

Lemma last_app_cons {A} (l : list A) x l' : forall s, last (l ++ x :: l') s = last l' x.
Proof. induction l as [|y l IH]; intros s; cbn [app]; rewrite last_cons; auto. Qed.

Lemma last_in {A} (l : list A) : forall s, In (last l s) (s :: l).
Proof. induction l as [|x l IH]; intros s; [now left|]; rewrite last_cons; right; apply IH. Qed.

(** The last field is redirected. *)
Lemma path_redirect st st' l : forall s v e,
  NoDup (s :: l) -> read_slot st' (last l s) = v ->
  (forall x, In x (s :: l) -> x <> last l s -> read_slot st' x = read_slot st x) ->
  path st s l e -> path st' s l v.
Proof.
  induction l as [|x l IH]; intros s v e N E F; cbn [path]; [intros _; exact E|].
  intros [L P]; apply NoDup_cons_iff in N as [Ns N]; rewrite last_cons in *; split.
  - rewrite F; [assumption|now left|]; intros ->; apply Ns, last_in.
  - apply (IH x v e); auto; intros z Hz; apply F; now right.
Qed.

(** The search stops at the field that leads to tb(n). *)
Lemma find_link_ok st tb n l : forall s fuel,
  path st s l (link (Next tb n)) -> Forall good_slot l -> good_slot (Next tb n) -> ~ In (Next tb n) l ->
  (length l < fuel)%nat -> find_link fuel st s tb n = Some (last l s).
Proof.
  induction l as [|x l IH]; intros s [|fuel] P F G N L; cbn [length] in L; try lia; cbn [find_link path] in *.
  - rewrite P; destruct G as [Gt Gn]; cbn [link]; destruct (is_n_range n Gn).
    destruct (link_parts tb n Gt) as (-> & -> & _); [lia|]; now rewrite !Z.eqb_refl.
  - destruct P as [E P]; inversion F as [|? ? Gx F']; subst; rewrite E.
    destruct (link_slot x Gx) as [_ Ex]; rewrite last_cons.
    destruct ((link_n (link x) =? n) && (link_tb (link x) =? tb)) eqn:D.
    + exfalso; apply N; left; apply andb_prop in D as [D1 D2]; apply Z.eqb_eq in D1, D2.
      rewrite D1, D2 in Ex; destruct G as [_ Gn]; destruct (is_n_range n Gn).
      now rewrite (proj2 (Z.eqb_neq n 2)) in Ex by lia.
    + rewrite Ex; apply IH; auto; [intros I; apply N; now right|lia].
Qed.

(** ** The invariant of the lists *)

(** [live]: the blocks in use; [J T]: the jumps to the block [T], in the order
    of its list. *)
Record lists_ok (live : list Z) (J : Z -> list jump) (st : tb_store) : Prop := {
  lo_live : forall T, In T live -> is_tb_ptr T;
  lo_member : forall T j, In T live -> In j (J T) -> In (fst j) live /\ is_n (snd j);
  lo_path : forall T, In T live -> path st (First T) (map jump_slot (J T)) (link (First T));
  lo_nodup : forall T, In T live -> NoDup (J T);
  lo_once : forall T T' j, In T live -> In T' live -> In j (J T) -> In j (J T') -> T = T';
  lo_free : forall j, In (fst j) live -> is_n (snd j) -> (forall T, In T live -> ~ In j (J T)) ->
    read_slot st (jump_slot j) = 0
}.

Definition upd_fun (J : Z -> list jump) (T : Z) (l : list jump) : Z -> list jump :=
  fun x => if x =? T then l else J x.

Lemma upd_fun_eq J T l : upd_fun J T l T = l.
Proof. unfold upd_fun; now rewrite Z.eqb_refl. Qed.

Lemma upd_fun_ne J T l x : x <> T -> upd_fun J T l x = J x.
Proof. intros N; unfold upd_fun; now rewrite (proj2 (Z.eqb_neq x T) N). Qed.

Lemma jump_eq_dec (j k : jump) : {j = k} + {j <> k}.
Proof. decide equality; apply Z.eq_dec. Qed.

Lemma jump_slot_inj j j' : jump_slot j = jump_slot j' -> j = j'.
Proof. destruct j, j'; unfold jump_slot; cbn; congruence. Qed.

Lemma in_jump_slots j l : In (jump_slot j) (map jump_slot l) <-> In j l.
Proof.
  rewrite in_map_iff; split; [intros (x & E & I); now rewrite <- (jump_slot_inj _ _ E)|eauto].
Qed.

Lemma first_not_jump T l : ~ In (First T) (map jump_slot l).
Proof. rewrite in_map_iff; intros (x & E & _); discriminate. Qed.

Lemma NoDup_slots l : NoDup l -> NoDup (map jump_slot l).
Proof. intros N; apply Finite.Injective_map_NoDup; [intros x y; apply jump_slot_inj|exact N]. Qed.

Section Lists.
Variables (live : list Z) (J : Z -> list jump) (st : tb_store).
Hypothesis ok : lists_ok live J st.

Lemma good_first T : In T live -> good_slot (First T).
Proof. apply ok. Qed.

Lemma good_jump T j : In T live -> In j (J T) -> good_slot (jump_slot j).
Proof. intros L I; destruct (lo_member _ _ _ ok T j L I); split; [now apply ok|assumption]. Qed.

Lemma good_jumps T : In T live -> Forall good_slot (map jump_slot (J T)).
Proof. intros L; apply Forall_map, Forall_forall; intros j I; now apply (good_jump T). Qed.

(** A jump in a list has a link. *)
Lemma linked_nonzero T j : In T live -> In j (J T) -> read_slot st (jump_slot j) <> 0.
Proof.
  intros L I; apply in_split in I as (l1 & l2 & E).
  assert (P := lo_path _ _ _ ok T L); rewrite E, map_app in P; cbn [map] in P; apply path_app in P as [_ P].
  destruct l2 as [|k l2]; cbn [map path] in P.
  - rewrite P; apply link_slot, good_first, L.
  - destruct P as [-> _]; apply link_slot; apply (good_jump T); auto; rewrite E; apply in_or_app; right; right; now left.
Qed.

Lemma add_lists T j :
  In T live -> In (fst j) live -> is_n (snd j) -> (forall T', In T' live -> ~ In j (J T')) ->
  lists_ok live (upd_fun J T (j :: J T))
    (write_slot (write_slot st (jump_slot j) (read_slot st (First T))) (First T) (link (jump_slot j))).
Proof.
  intros LT Lj Nj Fr.
  assert (GT := good_first T LT).
  assert (Gj : good_slot (jump_slot j)) by (split; [now apply ok|assumption]).
  set (st1 := write_slot st (jump_slot j) _); set (st2 := write_slot st1 _ _).
  assert (R : forall s, good_slot s -> s <> First T -> s <> jump_slot j -> read_slot st2 s = read_slot st s).
  { intros s G N N'; unfold st2, st1; now rewrite !read_write_ne by (auto; discriminate). }
  assert (Rj : read_slot st2 (jump_slot j) = read_slot st (First T)).
  { unfold st2; rewrite read_write_ne by (auto; discriminate); now apply read_write_eq. }
  assert (Rl : forall T' k, In T' live -> In k (J T') -> read_slot st2 (jump_slot k) = read_slot st (jump_slot k)).
  { intros T' k LT' I; apply R; [now apply (good_jump T')|discriminate|]; intros E; apply jump_slot_inj in E as ->.
    now apply (Fr T'). }
  constructor; try apply ok.
  - intros T' k LT' I; unfold upd_fun in I; destruct (Z.eqb_spec T' T) as [->|]; [destruct I as [<-|I]; [now split|]|];
      eapply (lo_member _ _ _ ok); eauto.
  - intros T' LT'; unfold upd_fun; destruct (Z.eqb_spec T' T) as [->|N].
    + cbn [map path]; split; [apply read_write_eq, GT|].
      apply (path_move st st2 (First T)); [exact Rj| |now apply ok].
      intros x I; apply in_map_iff in I as (k & <- & Ik); now apply (Rl T).
    + apply (path_move st st2 (First T')); [|intros x I; apply in_map_iff in I as (k & <- & Ik); now apply (Rl T')|now apply ok].
      apply R; [now apply good_first|congruence|discriminate].
  - intros T' LT'; unfold upd_fun; destruct (Z.eqb_spec T' T) as [->|]; [constructor; [now apply Fr|]|]; now apply ok.
  - intros A B k LA LB IA IB; unfold upd_fun in *.
    destruct (Z.eqb_spec A T) as [->|NA], (Z.eqb_spec B T) as [->|NB]; try reflexivity.
    + destruct IA as [<-|IA]; [now destruct (Fr B)|now apply (lo_once _ _ _ ok T B k)].
    + destruct IB as [<-|IB]; [now destruct (Fr A)|now apply (lo_once _ _ _ ok A T k)].
    + now apply (lo_once _ _ _ ok A B k).
  - intros k Lk Nk Fk; assert (k <> j) by (intros ->; apply (Fk T LT); rewrite upd_fun_eq; now left).
    rewrite R; [|split; [now apply ok|assumption]|discriminate|intros E; apply jump_slot_inj in E; congruence].
    apply ok; auto; intros T' LT' I; apply (Fk T' LT'); unfold upd_fun.
    destruct (Z.eqb_spec T' T) as [->|]; [now right|assumption].
Qed.

(** The field that leads to a jump. *)
Definition leads_to (T : Z) (l1 : list jump) : slot := last (map jump_slot l1) (First T).

Lemma leads_to_cases T l1 : leads_to T l1 = First T \/ exists k, In k l1 /\ leads_to T l1 = jump_slot k.
Proof.
  destruct (last_in (map jump_slot l1) (First T)) as [E|I]; [left; now symmetry|right].
  apply in_map_iff in I as (k & E & I); exists k; now split.
Qed.

Lemma NoDup_apart {A} (l1 l2 : list A) x : NoDup (l1 ++ l2) -> In x l1 -> In x l2 -> False.
Proof.
  intros N I1 I2; apply in_split in I1 as (a & b & ->); rewrite <- app_assoc in N.
  apply NoDup_remove_2 in N; apply N; rewrite !in_app_iff; auto.
Qed.

Section Remove.
Variables (T : Z) (l1 : list jump) (j : jump) (l2 : list jump).
Hypothesis LT : In T live.
Hypothesis E : J T = l1 ++ j :: l2.

Lemma removed_nodup : NoDup (l1 ++ l2) /\ ~ In j (l1 ++ l2).
Proof.
  assert (ND := lo_nodup _ _ _ ok T LT); rewrite E in ND.
  split; [exact (NoDup_remove_1 _ _ _ ND)|exact (NoDup_remove_2 _ _ _ ND)].
Qed.

Lemma removed_in k : In k (l1 ++ l2) -> In k (J T).
Proof. rewrite E, !in_app_iff; cbn [In]; tauto. Qed.

Lemma removed_good : good_slot (jump_slot j) /\ good_slot (leads_to T l1).
Proof.
  split; [apply (good_jump T); auto; rewrite E; apply in_or_app; right; now left|].
  destruct (leads_to_cases T l1) as [->|(k & I & ->)]; [now apply good_first|].
  apply (good_jump T); auto; apply removed_in, in_or_app; now left.
Qed.

Lemma leads_to_other k : ~ In k l1 -> jump_slot k <> leads_to T l1.
Proof.
  intros N; destruct (leads_to_cases T l1) as [->|(m & I & ->)]; [discriminate|].
  intros X; now apply jump_slot_inj in X as ->.
Qed.

Definition unlinked : tb_store :=
  write_slot (write_slot st (leads_to T l1) (read_slot st (jump_slot j))) (jump_slot j) 0.

Lemma read_unlinked s :
  good_slot s -> s <> leads_to T l1 -> s <> jump_slot j -> read_slot unlinked s = read_slot st s.
Proof. destruct removed_good; intros; unfold unlinked; now rewrite !read_write_ne by auto. Qed.

Lemma read_unlinked_lead : read_slot unlinked (leads_to T l1) = read_slot st (jump_slot j).
Proof.
  destruct removed_good, removed_nodup as [_ N]; unfold unlinked; rewrite read_write_ne; auto.
  - now apply read_write_eq.
  - intros X; symmetry in X; revert X; apply leads_to_other; intros I; apply N, in_or_app; now left.
Qed.

Lemma read_unlinked_jump k :
  In k (l1 ++ l2) -> ~ In k l1 -> read_slot unlinked (jump_slot k) = read_slot st (jump_slot k).
Proof.
  intros I N; apply read_unlinked; [apply (good_jump T); auto; now apply removed_in|now apply leads_to_other|].
  intros X; apply jump_slot_inj in X as ->; now apply (proj2 removed_nodup).
Qed.

Lemma unlinked_path : path unlinked (First T) (map jump_slot (l1 ++ l2)) (link (First T)).
Proof.
  destruct removed_nodup as [ND Nj].
  assert (P := lo_path _ _ _ ok T LT); rewrite E, map_app in P; cbn [map] in P; apply path_app in P as [P1 P2].
  assert (P1' : path unlinked (First T) (map jump_slot l1) (read_slot st (jump_slot j))).
  { apply (path_redirect st unlinked) with (e := link (jump_slot j)); auto; [|exact read_unlinked_lead|].
    - constructor; [apply first_not_jump|]; apply NoDup_slots; now apply NoDup_app_remove_r in ND.
    - intros x I Nx; destruct I as [<-|I]; [apply read_unlinked; auto; [now apply good_first|discriminate]|].
      apply in_map_iff in I as (k & <- & Ik); apply read_unlinked; auto.
      + apply (good_jump T); auto; apply removed_in, in_or_app; now left.
      + intros X; apply jump_slot_inj in X as ->; apply Nj, in_or_app; now left. }
  assert (F2 : forall x, In x (map jump_slot l2) -> read_slot unlinked x = read_slot st x).
  { intros x I; apply in_map_iff in I as (k & <- & Ik); apply read_unlinked_jump; [apply in_or_app; now right|].
    intros Ik'; exact (NoDup_apart _ _ _ ND Ik' Ik). }
  rewrite map_app; destruct l2 as [|k l3]; cbn [map path] in *.
  - rewrite app_nil_r; now rewrite P2 in P1'.
  - apply path_app; destruct P2 as [Ek P2]; rewrite Ek in P1'; split; [exact P1'|].
    apply (path_move st unlinked (jump_slot k)); auto with datatypes.
Qed.

Lemma unlinked_path_other T' :
  In T' live -> T' <> T -> path unlinked (First T') (map jump_slot (J T')) (link (First T')).
Proof.
  intros LT' N; apply (path_move st unlinked (First T')); [| |now apply ok].
  - apply read_unlinked; [now apply good_first| |discriminate].
    destruct (leads_to_cases T l1) as [->|(m & Im & ->)]; [congruence|discriminate].
  - intros x I; apply in_map_iff in I as (k & <- & Ik).
    assert (Nk : ~ In k (J T)) by (intros X; apply N; now apply (lo_once _ _ _ ok T' T k)).
    apply read_unlinked; [now apply (good_jump T')| |].
    + apply leads_to_other; intros X; apply Nk, removed_in, in_or_app; now left.
    + intros X; apply jump_slot_inj in X as ->; apply Nk; rewrite E; apply in_or_app; right; now left.
Qed.

Lemma unlinked_free k :
  In (fst k) live -> is_n (snd k) -> (forall T', In T' live -> ~ In k (upd_fun J T (l1 ++ l2) T')) ->
  read_slot unlinked (jump_slot k) = 0.
Proof.
  intros Lk Nk Fk; destruct removed_good; destruct (jump_eq_dec k j) as [->|Nkj]; [now apply read_write_eq|].
  assert (Fk' : forall T', In T' live -> ~ In k (J T')).
  { intros T' LT' I; apply (Fk T' LT'); unfold upd_fun; destruct (Z.eqb_spec T' T) as [->|]; [|exact I].
    rewrite E, in_app_iff in I; cbn [In] in I; apply in_or_app; intuition congruence. }
  rewrite read_unlinked; [now apply ok|split; [now apply ok|assumption]| |intros X; apply jump_slot_inj in X; congruence].
  apply leads_to_other; intros X; apply (Fk' T LT), removed_in, in_or_app; now left.
Qed.

Lemma remove_lists : lists_ok live (upd_fun J T (l1 ++ l2)) unlinked.
Proof.
  constructor; try apply ok.
  - intros T' k LT' I; unfold upd_fun in I; destruct (Z.eqb_spec T' T) as [->|]; [apply removed_in in I|];
      eapply (lo_member _ _ _ ok); eauto.
  - intros T' LT'; unfold upd_fun; destruct (Z.eqb_spec T' T) as [->|N];
      [exact unlinked_path|now apply unlinked_path_other].
  - intros T' LT'; unfold upd_fun; destruct (Z.eqb_spec T' T) as [->|]; [apply removed_nodup|now apply ok].
  - intros A B k LA LB IA IB; unfold upd_fun in *.
    destruct (Z.eqb_spec A T) as [->|NA], (Z.eqb_spec B T) as [->|NB]; try reflexivity;
      try apply removed_in in IA; try apply removed_in in IB; eapply (lo_once _ _ _ ok); eauto.
  - exact unlinked_free.
Qed.

End Remove.

(** ** The three operations on the lists *)

Lemma length_jumps T : In T live -> (length (J T) <= 2 * length live)%nat.
Proof.
  intros LT; assert (H : incl (J T) (list_prod live [0; 1])).
  { intros [tb n] I; destruct (lo_member _ _ _ ok T _ LT I) as [L [X|X]]; cbn in L, X; subst;
      apply in_prod; auto with datatypes. }
  apply NoDup_incl_length in H; [|now apply ok]; pose proof (length_prod live [0; 1]) as Lp; cbn [length] in Lp; unfold jump in *; lia.
Qed.

(** Enough rounds for every list. *)
Definition ring_fuel : nat := S (S (2 * length live)).

Lemma remove_from_list_ok fuel T l1 tb n l2 :
  (ring_fuel <= fuel)%nat -> In T live -> J T = l1 ++ (tb, n) :: l2 ->
  tb_remove_from_jmp_list fuel st tb n = Some (unlinked T l1 (tb, n)).
Proof.
  intros Fu LT E; unfold tb_remove_from_jmp_list.
  assert (I : In (tb, n) (J T)) by (rewrite E; apply in_or_app; right; now left).
  assert (Nz := linked_nonzero T (tb, n) LT I); change (jump_slot (tb, n)) with (Next tb n) in Nz.
  unfold truthy; rewrite (proj2 (Z.eqb_neq _ 0) Nz); cbn [negb].
  assert (P := lo_path _ _ _ ok T LT); rewrite E, map_app in P; cbn [map] in P; apply path_app in P as [P1 P2].
  assert (W : path st (Next tb n) (map jump_slot l2 ++ First T :: map jump_slot l1) (link (Next tb n))).
  { apply path_app; now split. }
  destruct (removed_nodup T l1 (tb, n) l2 LT E) as [_ N].
  assert (Ln := length_jumps T LT); rewrite E, length_app in Ln; cbn [length] in Ln.
  assert (F := good_jumps T LT); rewrite E, map_app in F; cbn [map] in F.
  apply Forall_app in F as [F1 F2]; inversion F2 as [|? ? Gj F3]; subst.
  erewrite find_link_ok; [|exact W| |exact Gj| |].
  - unfold unlinked; cbn [fst snd jump_slot read_slot]; do 3 f_equal.
    now rewrite last_app_cons.
  - apply Forall_app; split; [assumption|constructor; [now apply good_first|assumption]].
  - change (Next tb n) with (jump_slot (tb, n)); rewrite in_app_iff; cbn [In]; rewrite !in_jump_slots.
    intros [X|[X|X]]; [apply N, in_or_app; now right|discriminate|apply N, in_or_app; now left].
  - rewrite length_app; cbn [length]; rewrite !length_map; unfold ring_fuel, jump in *; lia.
Qed.

End Lists.

(** ** The invariant of the code *)

Definition jmp_addr (st : tb_store) (j : jump) : Z :=
  let t := tb_at st (fst j) in u32 (tc_ptr t + sel2 (jmp_insn_offset t) (snd j)).

Definition reset_addr (st : tb_store) (j : jump) : Z :=
  let t := tb_at st (fst j) in u32 (tc_ptr t + sel2 (jmp_reset_offset t) (snd j)).

(** The code of the block has this jump. *)
Definition has_jump (st : tb_store) (j : jump) : Prop :=
  is_n (snd j) /\ sel2 (jmp_reset_offset (tb_at st (fst j))) (snd j) <> TB_JMP_RESET_OFFSET_INVALID.

(** The jumps of the blocks [srcs] lead where their lists say, and the jumps
    that are in no list lead to the code behind them. *)
Record code_ok (base : Z) (srcs live : list Z) (J : Z -> list jump) (st : tb_store) : Prop := {
  co_target : forall T, In T live -> in_buffer base (tc_ptr (tb_at st T));
  co_jump : forall j, In (fst j) srcs -> has_jump st j ->
    in_buffer base (jmp_addr st j) /\ in_buffer base (reset_addr st j) /\ inU 32 (host_code st (jmp_addr st j));
  co_distinct : forall j k, In (fst j) srcs -> In (fst k) srcs -> has_jump st j -> has_jump st k ->
    jmp_addr st j = jmp_addr st k -> j = k;
  co_has : forall T j, In T live -> In j (J T) -> has_jump st j;
  co_linked : forall T j, In (fst j) srcs -> In T live -> In j (J T) ->
    branch_target st (jmp_addr st j) = tc_ptr (tb_at st T);
  co_free : forall j, In (fst j) srcs -> has_jump st j -> (forall T, In T live -> ~ In j (J T)) ->
    branch_target st (jmp_addr st j) = reset_addr st j
}.

Lemma static_addrs st st' :
  same_static st st' ->
  (forall j, jmp_addr st' j = jmp_addr st j /\ reset_addr st' j = reset_addr st j /\ (has_jump st' j <-> has_jump st j)) /\
  (forall a, tc_ptr (tb_at st' a) = tc_ptr (tb_at st a)) /\ (forall a, branch_target st' a = branch_target st a).
Proof.
  intros [H F]; splits.
  - intros j; specialize (F (fst j)); cbv zeta in F; destruct F as (_ & _ & _ & _ & _ & _ & _ & A & B & C & _).
    unfold jmp_addr, reset_addr, has_jump; cbv zeta; rewrite A, B, C; tauto.
  - intros a; apply F.
  - intros a; unfold branch_target; now rewrite H.
Qed.

Lemma code_static base srcs live J st st' : same_static st st' -> code_ok base srcs live J st -> code_ok base srcs live J st'.
Proof.
  intros S [A B C D E F]; assert (H := proj1 S); destruct (static_addrs st st' S) as (S1 & S2 & S3).
  assert (Sj : forall j, jmp_addr st' j = jmp_addr st j) by (intros; apply S1).
  assert (Sr : forall j, reset_addr st' j = reset_addr st j) by (intros; apply S1).
  assert (Sh : forall j, has_jump st' j <-> has_jump st j) by (intros; apply S1).
  constructor.
  - intros T; rewrite S2; apply A.
  - intros j; rewrite Sh, Sj, Sr, H; apply B.
  - intros j k; rewrite !Sh, !Sj; apply C.
  - intros T j; rewrite Sh; apply D.
  - intros T j; rewrite Sj, S2, S3; apply E.
  - intros j; rewrite Sh, Sj, Sr, S3; apply F.
Qed.

Lemma addrs_same st st' :
  tb_at st' = tb_at st ->
  (forall k, jmp_addr st' k = jmp_addr st k) /\ (forall k, reset_addr st' k = reset_addr st k) /\
  (forall k, has_jump st' k <-> has_jump st k).
Proof. intros E; unfold jmp_addr, reset_addr, has_jump; rewrite E; now splits. Qed.

(** A jump is patched to lead to [target]; the lists say so afterwards. *)
Lemma code_patch base srcs live J J' st j target :
  code_ok base srcs live J st -> In (fst j) srcs -> has_jump st j -> in_buffer base target ->
  (forall T k, In T live -> k <> j -> In k (J' T) <-> In k (J T)) ->
  (forall T, In T live -> In j (J' T) -> tc_ptr (tb_at st T) = target) ->
  ((forall T, In T live -> ~ In j (J' T)) -> reset_addr st j = target) ->
  code_ok base srcs live J' (reloc_pc24_atomic st (jmp_addr st j) target).
Proof.
  intros [A B C D E F] Lj Hj Bt Same Lnk Fre.
  destruct (B j Lj Hj) as (Ba & Br & Bc).
  destruct (patched_target st base (jmp_addr st j) target Ba Bt Bc) as (P1 & P2 & _ & P4).
  assert (Et : tb_at (reloc_pc24_atomic st (jmp_addr st j) target) = tb_at st) by reflexivity.
  revert P1 P2 P4 Et; generalize (reloc_pc24_atomic st (jmp_addr st j) target); intros st' P1 P2 P4 Et.
  destruct (addrs_same st st' Et) as (Ej & Er & Eh).
  assert (Oth : forall k, In (fst k) srcs -> has_jump st k -> k <> j -> host_code st' (jmp_addr st k) = host_code st (jmp_addr st k)).
  { intros k Lk Hk Nk; apply P4; intros X; apply Nk; now apply C. }
  assert (Hh : forall T k, In T live -> In k (J' T) -> has_jump st k).
  { intros T k LT I; destruct (jump_eq_dec k j) as [->|Nk]; [assumption|]; apply (D T); auto; now apply Same. }
  constructor; try rewrite Et; auto.
  - intros k Lk Hk; rewrite Eh in Hk; destruct (B k Lk Hk) as (X & Y & Z0); rewrite Ej, Er; splits; auto.
    destruct (jump_eq_dec k j) as [->|Nk]; [assumption|now rewrite Oth].
  - intros k m Lk Lm Hk Hm; rewrite !Ej; rewrite Eh in Hk, Hm; now apply C.
  - intros T k LT I; apply Eh; eauto.
  - intros T k Lk LT I; rewrite Ej; destruct (jump_eq_dec k j) as [->|Nk]; [rewrite P1; symmetry; now apply Lnk|].
    unfold branch_target; rewrite Oth by eauto; apply E; auto; now apply Same.
  - intros k Lk Hk N; rewrite Ej, Er; rewrite Eh in Hk.
    destruct (jump_eq_dec k j) as [->|Nk]; [rewrite P1; symmetry; now apply Fre|].
    unfold branch_target; rewrite Oth by auto; apply F; auto; intros T LT I; apply (N T LT); now apply Same.
Qed.

(** ** What the operations do *)

Definition chain_ok (base : Z) (live : list Z) (J : Z -> list jump) (st : tb_store) : Prop :=
  lists_ok live J st /\ code_ok base live live J st.

Definition linked (live : list Z) (J : Z -> list jump) (j : jump) : Prop := exists T, In T live /\ In j (J T).

Lemma linked_dec live J j : {linked live J j} + {forall T, In T live -> ~ In j (J T)}.
Proof.
  induction live as [|T live IH]; [right; intros T []|].
  destruct (in_dec jump_eq_dec j (J T)) as [I|N]; [left; exists T; split; [now left|exact I]|].
  destruct IH as [L|F]; [left; destruct L as (X & LX & IX); exists X; split; [now right|exact IX]|right].
  intros X [<-|LX]; [exact N|now apply F].
Qed.

Lemma linked_read live J st j :
  lists_ok live J st -> In (fst j) live -> is_n (snd j) -> linked live J j <-> read_slot st (jump_slot j) <> 0.
Proof.
  intros ok L N; split.
  - intros (T & LT & I); eapply linked_nonzero; eauto.
  - intros R; destruct (linked_dec live J j) as [X|F]; [exact X|destruct R; now apply ok].
Qed.

Lemma patch_static_lists live J st a target : lists_ok live J st -> lists_ok live J (reloc_pc24_atomic st a target).
Proof.
  intros [A B C D E F]; constructor; auto.
  intros T LT; apply (path_move st (reloc_pc24_atomic st a target) (First T)); auto.
Qed.

Lemma add_jump_ok base live J st j T :
  chain_ok base live J st -> In (fst j) live -> has_jump st j -> In T live ->
  (linked live J j -> tb_add_jump st (fst j) (snd j) T = st) /\
  (~ linked live J j -> chain_ok base live (upd_fun J T (j :: J T)) (tb_add_jump st (fst j) (snd j) T)).
Proof.
  intros [Lo Co] Lj Hj LT; assert (Lr := linked_read live J st j Lo Lj (proj1 Hj)); unfold tb_add_jump.
  change (sel2 (jmp_list_next (tb_at st (fst j))) (snd j)) with (read_slot st (jump_slot j)).
  split; intros X.
  - apply Lr in X; unfold truthy; now rewrite (proj2 (Z.eqb_neq _ 0) X).
  - assert (Z0 : read_slot st (jump_slot j) = 0) by (destruct (Z.eq_dec (read_slot st (jump_slot j)) 0); [assumption|tauto]).
    rewrite Z0; cbn [truthy Z.eqb negb].
    assert (Fr : forall T', In T' live -> ~ In j (J T')) by (intros T' LT' I; apply X; exists T'; now split).
    set (st1 := tb_set_jmp_target st (fst j) (snd j) (tc_ptr (tb_at st T))).
    change (chain_ok base live (upd_fun J T (j :: J T))
      (write_slot (write_slot st1 (jump_slot j) (read_slot st1 (First T))) (First T) (link (jump_slot j)))).
    split.
    + apply add_lists; auto; [now apply patch_static_lists|apply Hj].
    + eapply code_static; [eapply same_static_trans; apply write_static|].
      apply (code_patch base live live J); auto; [now apply Co| | |].
      * intros T' k LT' Nk; unfold upd_fun; destruct (T' =? T) eqn:Et; [|tauto].
        apply Z.eqb_eq in Et as ->; cbn [In]; intuition congruence.
      * intros T' LT' I; unfold upd_fun in I; destruct (Z.eqb_spec T' T) as [->|]; [reflexivity|now destruct (Fr T')].
      * intros N; destruct (N T LT); rewrite upd_fun_eq; now left.
Qed.

(** ** Removing a block *)

Lemma lists_ext live J J' st : (forall T, In T live -> J' T = J T) -> lists_ok live J st -> lists_ok live J' st.
Proof.
  intros E [A B C D F G]; constructor; auto.
  - intros T j L; rewrite E by assumption; now apply B.
  - intros T L; rewrite E by assumption; now apply C.
  - intros T L; rewrite E by assumption; now apply D.
  - intros T T' j L L'; rewrite !E by assumption; now apply F.
  - intros j L N H; apply G; auto; intros T LT; rewrite <- E by assumption; now apply H.
Qed.

Lemma code_ext base srcs live J J' st :
  (forall T j, In T live -> In (fst j) srcs -> In j (J' T) <-> In j (J T)) ->
  (forall T j, In T live -> In j (J' T) -> In j (J T)) -> code_ok base srcs live J st -> code_ok base srcs live J' st.
Proof.
  intros E I [A B C D F G]; constructor; auto.
  - intros T j L H; apply (D T); auto.
  - intros j L H N; apply G; auto; intros T LT X; apply (N T LT); now apply E.
Qed.

Definition drop (j : jump) (J : Z -> list jump) : Z -> list jump := fun T => remove jump_eq_dec j (J T).

Lemma remove_split (l1 : list jump) j l2 :
  NoDup (l1 ++ j :: l2) -> remove jump_eq_dec j (l1 ++ j :: l2) = l1 ++ l2.
Proof.
  intros N; apply NoDup_remove_2 in N; rewrite in_app_iff in N.
  rewrite remove_app; cbn; destruct (jump_eq_dec j j); [|congruence].
  rewrite !notin_remove by tauto; reflexivity.
Qed.

Lemma remove_jump_ok fuel base srcs live J st tb n :
  (ring_fuel live <= fuel)%nat -> lists_ok live J st -> code_ok base srcs live J st -> In tb live -> ~ In tb srcs -> is_n n ->
  exists st', tb_remove_from_jmp_list fuel st tb n = Some st' /\
    lists_ok live (drop (tb, n) J) st' /\ code_ok base srcs live (drop (tb, n) J) st' /\ same_static st st'.
Proof.
  intros Fu Lo Co L Ns Nn; destruct (linked_dec live J (tb, n)) as [(T & LT & I)|F].
  - destruct (in_split _ _ I) as (l1 & l2 & E).
    exists (unlinked st T l1 (tb, n)); splits.
    + eapply remove_from_list_ok; eauto.
    + apply (lists_ext live (upd_fun J T (l1 ++ l2))); [|eapply remove_lists; eauto].
      intros T' LT'; unfold drop, upd_fun; destruct (Z.eqb_spec T' T) as [->|N].
      * rewrite E; apply remove_split; rewrite <- E; now apply Lo.
      * apply notin_remove; intros I'; apply N; eapply (lo_once _ _ _ Lo); eauto.
    + eapply code_static; [eapply same_static_trans; apply write_static|].
      apply (code_ext base srcs live J); auto; unfold drop; intros T' j; [intros _ Ls|intros _ X; now apply in_remove in X].
      split; [intros X; now apply in_remove in X|intros X; apply in_in_remove; auto].
      intros ->; now apply Ns.
    + eapply same_static_trans; apply write_static.
  - assert (Z0 : read_slot st (Next tb n) = 0) by (apply (lo_free _ _ _ Lo (tb, n)); auto).
    exists st; unfold tb_remove_from_jmp_list; rewrite Z0; splits; [reflexivity| | |split; [reflexivity|apply same_fields_refl]].
    + apply (lists_ext live J); auto; intros T LT; apply notin_remove, F, LT.
    + apply (code_ext base srcs live J); auto; unfold drop; intros T j LT; rewrite notin_remove by (now apply F); tauto.
Qed.

Lemma read_patch st a target s : read_slot (reloc_pc24_atomic st a target) s = read_slot st s.
Proof. reflexivity. Qed.

(** Every jump to the block leads to the code behind it again. *)
Lemma jmp_unlink_ok base srcs live T l : forall J st fuel,
  lists_ok live J st -> code_ok base srcs live J st -> In T live -> J T = l ->
  (forall j, In j l -> In (fst j) srcs) -> (length l < fuel)%nat ->
  exists st', tb_jmp_unlink fuel st T = Some st' /\
    lists_ok live (upd_fun J T []) st' /\ code_ok base srcs live (upd_fun J T []) st' /\ same_fields st st'.
Proof.
  induction l as [|j l IH]; intros J st [|fuel] Lo Co LT E Ls Lf; cbn [length] in Lf; try lia; cbn [tb_jmp_unlink].
  - assert (P := lo_path _ _ _ Lo T LT); rewrite E in P; cbn [map path] in P; rewrite P; cbn [link].
    destruct (link_parts T 2 (lo_live _ _ _ Lo T LT)) as (-> & _ & _); [lia|]; cbn [Z.eqb Pos.eqb].
    exists st; splits; [reflexivity| | |apply same_fields_refl].
    + apply (lists_ext live J); auto; intros T' _; unfold upd_fun; destruct (Z.eqb_spec T' T) as [->|]; auto.
    + apply (code_ext base srcs live J); auto; intros T' k LT'; unfold upd_fun; destruct (Z.eqb_spec T' T) as [->|];
        try tauto; rewrite E; cbn; tauto.
  - assert (Ij : In j (J T)) by (rewrite E; now left).
    assert (P := lo_path _ _ _ Lo T LT); rewrite E in P; cbn [map path] in P; destruct P as [-> _].
    assert (Gj := good_jump live J st Lo T j LT Ij); destruct (is_n_range (snd j) (proj2 Gj)) as [Rn N2].
    cbn [link jump_slot]; destruct (link_parts (fst j) (snd j) (proj1 Gj) Rn) as (-> & -> & _).
    rewrite (proj2 (Z.eqb_neq (snd j) 2) N2).
    set (st1 := tb_reset_jump st (fst j) (snd j)).
    assert (Hj := co_has _ _ _ _ _ Co T j LT Ij).
    assert (Lj : In (fst j) srcs) by (apply Ls; now left).
    assert (Lo1 : lists_ok live J st1) by now apply patch_static_lists.
    assert (Nd := lo_nodup _ _ _ Lo T LT); rewrite E in Nd; apply NoDup_cons_iff in Nd as [Nj _].
    assert (Co1 : code_ok base srcs live (upd_fun J T l) st1).
    { apply (code_patch base srcs live J (upd_fun J T l) st j (reset_addr st j)); auto; [now apply Co| |].
      - intros T' k LT' Nk; unfold upd_fun; destruct (Z.eqb_spec T' T) as [->|]; [rewrite E; cbn [In]; intuition congruence|tauto].
      - intros T' LT' I; exfalso; unfold upd_fun in I; destruct (Z.eqb_spec T' T) as [->|NT]; [contradiction|].
        apply NT; eapply (lo_once _ _ _ Lo); eauto. }
    assert (Lo2 := remove_lists live J st1 Lo1 T [] j l LT E); cbn [app] in Lo2.
    set (st2 := unlinked st1 T [] j) in Lo2.
    assert (S2 : same_static st1 st2) by (eapply same_static_trans; apply write_static).
    destruct (IH (upd_fun J T l) st2 fuel Lo2 (code_static _ _ _ _ _ _ S2 Co1) LT (upd_fun_eq J T l)) as (st' & E' & L' & C' & F');
      [intros k I; apply Ls; now right|lia|].
    change (exists st'0, tb_jmp_unlink fuel st2 T = Some st'0 /\ lists_ok live (upd_fun J T []) st'0 /\
              code_ok base srcs live (upd_fun J T []) st'0 /\ same_fields st st'0).
    exists st'; splits; [exact E'| | |].
    + apply (lists_ext live (upd_fun (upd_fun J T l) T [])); auto; intros T' _; unfold upd_fun; destruct (T' =? T); reflexivity.
    + apply (code_ext base srcs live (upd_fun (upd_fun J T l) T [])); auto; intros T' k _; unfold upd_fun; destruct (T' =? T); tauto.
    + eapply same_fields_trans; [|exact F']; exact (proj2 S2).
Qed.

Definition others (tb : Z) (live : list Z) : list Z := filter (fun a => negb (a =? tb)) live.

Definition without (tb : Z) (J : Z -> list jump) : Z -> list jump :=
  fun T => filter (fun j => negb (fst j =? tb)) (J T).

Lemma in_others tb live a : In a (others tb live) <-> In a live /\ a <> tb.
Proof. unfold others; rewrite filter_In, negb_true_iff, Z.eqb_neq; tauto. Qed.

Lemma in_without tb J T j : In j (without tb J T) <-> In j (J T) /\ fst j <> tb.
Proof. unfold without; rewrite filter_In, negb_true_iff, Z.eqb_neq; tauto. Qed.

(** With both its jumps dropped a block jumps nowhere. *)
Lemma drop_both tb J T :
  (forall j, In j (J T) -> is_n (snd j)) -> drop (tb, 1) (drop (tb, 0) J) T = without tb J T.
Proof.
  unfold drop, without; intros H; induction (J T) as [|[a n] l IH]; [reflexivity|].
  assert (Hn : is_n n) by (apply (H (a, n)); now left).
  assert (IH' : remove jump_eq_dec (tb, 1) (remove jump_eq_dec (tb, 0) l) = filter (fun j => negb (fst j =? tb)) l)
    by (apply IH; intros j I; apply H; now right).
  cbn [remove filter fst]; destruct (Z.eqb_spec a tb) as [->|N]; cbn [negb].
  - destruct Hn as [-> | ->]; destruct (jump_eq_dec (tb, 0) _); try congruence; cbn [remove];
      destruct (jump_eq_dec (tb, 1) _); congruence.
  - destruct (jump_eq_dec (tb, 0) (a, n)); [congruence|]; cbn [remove].
    destruct (jump_eq_dec (tb, 1) (a, n)); [congruence|]; now rewrite IH'.
Qed.

Lemma chain_shrink base live J st tb :
  lists_ok live J st -> code_ok base (others tb live) live J st -> In tb live -> J tb = [] ->
  (forall T j, In T live -> In j (J T) -> fst j <> tb) -> chain_ok base (others tb live) J st.
Proof.
  intros [A B C D E F] [A' B' C' D' E' F'] L Jt Nt.
  assert (Up : forall j, (forall T, In T (others tb live) -> ~ In j (J T)) -> forall T, In T live -> ~ In j (J T)).
  { intros j H T LT I; destruct (Z.eq_dec T tb) as [->|N]; [rewrite Jt in I; destruct I|].
    apply (H T); [apply in_others; now split|exact I]. }
  split; constructor; try (intros T LT; apply in_others in LT as [LT _]; auto; fail).
  - intros T j LT I; apply in_others in LT as [LT _]; destruct (B T j LT I); split; auto.
    apply in_others; split; [assumption|eauto].
  - intros T T' j LT LT'; apply in_others in LT as [LT _], LT' as [LT' _]; eauto.
  - auto.
  - auto.
  - intros T j LT; apply in_others in LT as [LT _]; eauto.
  - intros T j Lj LT; apply in_others in LT as [LT _]; eauto.
  - auto.
Qed.

(** [tb_phys_invalidate]: out of the two jump lists, and no jump to it remains. *)
Definition tb_unchain (fuel : nat) (st : tb_store) (tb : Z) : option tb_store :=
  let? st := tb_remove_from_jmp_list fuel st tb 0 in
  let? st := tb_remove_from_jmp_list fuel st tb 1 in
  tb_jmp_unlink fuel st tb.

Lemma unchain_ok fuel base live J st tb :
  (ring_fuel live <= fuel)%nat -> chain_ok base live J st -> In tb live ->
  exists st', tb_unchain fuel st tb = Some st' /\
    chain_ok base (others tb live) (without tb J) st' /\ same_fields st st'.
Proof.
  intros Fu [Lo Co] L; unfold tb_unchain.
  assert (Ns : ~ In tb (others tb live)) by (rewrite in_others; tauto).
  assert (Co0 : code_ok base (others tb live) live J st).
  { destruct Co as [A B C D E F]; constructor; auto.
    - intros j Lj; apply in_others in Lj as [Lj _]; auto.
    - intros j k Lj Lk; apply in_others in Lj as [Lj _], Lk as [Lk _]; auto.
    - intros T j Lj; apply in_others in Lj as [Lj _]; auto.
    - intros j Lj; apply in_others in Lj as [Lj _]; auto. }
  destruct (remove_jump_ok fuel _ _ live J st tb 0 Fu Lo Co0 L Ns) as (st1 & -> & Lo1 & Co1 & [_ S1]); [now left|].
  destruct (remove_jump_ok fuel _ _ live _ st1 tb 1 Fu Lo1 Co1 L Ns) as (st2 & -> & Lo2 & Co2 & [_ S2]); [now right|].
  set (J2 := drop (tb, 1) (drop (tb, 0) J)) in *.
  assert (EJ : forall T, In T live -> J2 T = without tb J T).
  { intros T LT; apply drop_both; intros j I; eapply (lo_member _ _ _ Lo); eauto. }
  destruct (jmp_unlink_ok base (others tb live) live tb (J2 tb) J2 st2 fuel Lo2 Co2 L eq_refl)
    as (st3 & -> & Lo3 & Co3 & S3).
  - intros j I; rewrite EJ, in_without in I by assumption; apply in_others; split; [|apply I].
    eapply (lo_member _ _ _ Lo); [exact L|apply I].
  - assert (X := length_jumps live J2 st2 Lo2 tb L); unfold ring_fuel, jump in *; lia.
  - exists st3; splits; [reflexivity| |eauto using same_fields_trans].
    assert (Nt : forall T j, In T live -> In j (upd_fun J2 tb [] T) -> fst j <> tb).
    { intros T j LT I; unfold upd_fun in I; destruct (T =? tb); [destruct I|]; rewrite EJ in I by assumption; now apply in_without in I. }
    destruct (chain_shrink base live _ st3 tb Lo3 Co3 L (upd_fun_eq _ _ _) Nt) as [Lo4 Co4].
    assert (Ex : forall T, In T (others tb live) -> without tb J T = upd_fun J2 tb [] T).
    { intros T LT; apply in_others in LT as [LT N]; rewrite upd_fun_ne, EJ by assumption; reflexivity. }
    split; [now apply (lists_ext _ (upd_fun J2 tb []))|].
    apply (code_ext _ _ _ (upd_fun J2 tb [])); auto; intros T j LT; rewrite Ex by assumption; tauto.
Qed.

(** ** A new block *)

(** [tb_gen_code]: the empty lists of a new block and its jumps. *)
Definition tb_init_jumps (st : tb_store) (tb : Z) : tb_store :=
  let st := set_tb st tb (set_jmp_list_first (tb_at st tb) (tb .| 2)) in
  let st := set_tb st tb (set_jmp_list_next (tb_at st tb) 0 0) in
  let st := set_tb st tb (set_jmp_list_next (tb_at st tb) 1 0) in
  let t := tb_at st tb in
  let st := if negb (sel2 (jmp_reset_offset t) 0 =? TB_JMP_RESET_OFFSET_INVALID)
            then tb_reset_jump st tb 0 else st in
  if negb (sel2 (jmp_reset_offset t) 1 =? TB_JMP_RESET_OFFSET_INVALID)
  then tb_reset_jump st tb 1 else st.

(** Where the code of a new block lies. *)
Record fresh_block (base : Z) (live : list Z) (st : tb_store) (tb : Z) : Prop := {
  fb_ptr : is_tb_ptr tb;
  fb_new : ~ In tb live;
  fb_tc : in_buffer base (tc_ptr (tb_at st tb));
  fb_jump : forall n, has_jump st (tb, n) ->
    in_buffer base (jmp_addr st (tb, n)) /\ in_buffer base (reset_addr st (tb, n)) /\
    inU 32 (host_code st (jmp_addr st (tb, n)));
  fb_apart : forall n k, has_jump st (tb, n) -> In (fst k) (tb :: live) -> has_jump st k ->
    jmp_addr st k = jmp_addr st (tb, n) -> k = (tb, n)
}.

(** Its lists are empty. *)
Definition empty_lists (st : tb_store) (tb : Z) : tb_store :=
  write_slot (write_slot (write_slot st (First tb) (link (First tb))) (Next tb 0) 0) (Next tb 1) 0.

Lemma empty_lists_ok live J st tb :
  lists_ok live J st -> is_tb_ptr tb -> ~ In tb live -> lists_ok (tb :: live) (upd_fun J tb []) (empty_lists st tb).
Proof.
  intros Lo P N.
  assert (G0 : good_slot (Next tb 0)) by (split; [exact P|now left]).
  assert (G1 : good_slot (Next tb 1)) by (split; [exact P|now right]).
  assert (R : forall s, good_slot s -> s <> First tb -> s <> Next tb 0 -> s <> Next tb 1 ->
            read_slot (empty_lists st tb) s = read_slot st s).
  { intros; unfold empty_lists; now rewrite !read_write_ne by (auto; discriminate). }
  assert (Nt : forall T j, In T live -> In j (J T) -> fst j <> tb).
  { intros T j LT I E; apply N; rewrite <- E; now apply (lo_member _ _ _ Lo T). }
  assert (Rj : forall T j, In T live -> In j (J T) -> read_slot (empty_lists st tb) (jump_slot j) = read_slot st (jump_slot j)).
  { intros T j LT I; assert (X := Nt T j LT I); apply R; [now apply (good_jump live J st Lo T)|unfold jump_slot; congruence..]. }
  constructor.
  - intros T [<-|LT]; [exact P|now apply Lo].
  - intros T j [<-|LT]; [rewrite upd_fun_eq; intros []|].
    rewrite upd_fun_ne by congruence; intros I; destruct (lo_member _ _ _ Lo T j LT I); split; [now right|assumption].
  - intros T [<-|LT]; [rewrite upd_fun_eq; cbn [map path]; unfold empty_lists|].
    + rewrite !read_write_ne by (auto; discriminate); now apply read_write_eq.
    + rewrite upd_fun_ne by congruence; apply (path_move st _ (First T)); [|intros x I|now apply Lo].
      * apply R; [now apply Lo|congruence|discriminate|discriminate].
      * apply in_map_iff in I as (k & <- & Ik); now apply (Rj T).
  - intros T [<-|LT]; [rewrite upd_fun_eq; constructor|]; rewrite upd_fun_ne by congruence; now apply Lo.
  - intros A B j [<-|LA] [<-|LB]; rewrite ?upd_fun_eq, ?upd_fun_ne by congruence; try (intros []; fail);
      try (intros _ []; fail); now apply (lo_once _ _ _ Lo).
  - intros [a n] L Nn F; cbn [fst snd] in *; destruct (Z.eq_dec a tb) as [->|Na].
    + unfold jump_slot; cbn [fst snd]; destruct Nn as [-> | ->]; unfold empty_lists.
      * rewrite read_write_ne by (auto; discriminate); now apply read_write_eq.
      * now apply read_write_eq.
    + destruct L as [L|L]; [congruence|].
      rewrite R; [|split; [now apply Lo|assumption]|discriminate|unfold jump_slot; cbn; congruence..].
      apply Lo; auto; intros T LT I; apply (F T); [now right|]; rewrite upd_fun_ne by congruence; exact I.
Qed.

(** The initial branch of jump [n], where the code has one. *)
Definition init_jump (st : tb_store) (tb n : Z) : tb_store :=
  if negb (sel2 (jmp_reset_offset (tb_at st tb)) n =? TB_JMP_RESET_OFFSET_INVALID)
  then tb_reset_jump st tb n else st.

Lemma init_jump_ok base live st tb n :
  fresh_block base live st tb -> is_n n ->
  let st' := init_jump st tb n in
  tb_at st' = tb_at st /\ (has_jump st (tb, n) -> branch_target st' (jmp_addr st (tb, n)) = reset_addr st (tb, n)) /\
  (has_jump st (tb, n) -> inU 32 (host_code st' (jmp_addr st (tb, n)))) /\
  forall k, In (fst k) (tb :: live) -> has_jump st k -> k <> (tb, n) -> host_code st' (jmp_addr st k) = host_code st (jmp_addr st k).
Proof.
  intros Fb Nn; unfold init_jump; cbv zeta.
  destruct (Z.eqb_spec (sel2 (jmp_reset_offset (tb_at st tb)) n) TB_JMP_RESET_OFFSET_INVALID) as [E|E]; cbn [negb].
  - splits; auto; intros [_ X]; cbn [fst snd] in X; congruence.
  - assert (H : has_jump st (tb, n)) by now split.
    destruct (fb_jump _ _ _ _ Fb n H) as (A & B & C).
    destruct (patched_target st base _ _ A B C) as (P & Q & _ & R).
    change (tb_reset_jump st tb n) with (reloc_pc24_atomic st (jmp_addr st (tb, n)) (reset_addr st (tb, n))).
    splits; auto; intros k Lk Hk Nk; apply R; intros X; apply Nk; eapply (fb_apart _ _ _ _ Fb); eauto.
Qed.

Lemma static_fresh base live st st' tb : same_static st st' -> fresh_block base live st tb -> fresh_block base live st' tb.
Proof.
  intros S [A B C D E]; destruct (static_addrs st st' S) as (S1 & S2 & _); destruct S as [H _]; constructor; auto.
  - now rewrite S2.
  - intros n X; destruct (S1 (tb, n)) as (-> & -> & Q); rewrite H; apply D, Q, X.
  - intros n k X L Y Z; destruct (S1 (tb, n)) as (E1 & _ & Q), (S1 k) as (E2 & _ & Q').
    rewrite E1, E2 in Z; apply E; auto; [apply Q, X|apply Q', Y].
Qed.

Lemma init_jumps_code base live J st tb :
  code_ok base live live J st -> fresh_block base live st tb -> (forall T j, In T live -> In j (J T) -> In (fst j) live) ->
  code_ok base (tb :: live) (tb :: live) (upd_fun J tb []) (init_jump (init_jump st tb 0) tb 1).
Proof.
  intros Co Fb Mem; set (st1 := init_jump st tb 0).
  destruct (init_jump_ok base live st tb 0 Fb) as (T1 & B1 & C1 & O1); [now left|]; fold st1 in T1, B1, C1, O1.
  destruct (addrs_same st st1 T1) as (J1 & R1 & H1).
  assert (U1 : forall k, In (fst k) (tb :: live) -> has_jump st k -> inU 32 (host_code st1 (jmp_addr st k))).
  { intros k Lk Hk; destruct (jump_eq_dec k (tb, 0)) as [->|N]; [now apply C1|]; rewrite O1 by assumption.
    destruct k as [a n]; cbn [fst] in Lk; destruct Lk as [<-|Lk]; [now apply Fb|now apply (co_jump _ _ _ _ _ Co)]. }
  assert (Fb1 : fresh_block base live st1 tb).
  { destruct Fb as [A B C D E]; constructor; auto; [now rewrite T1| |].
    - intros n Hn; rewrite H1 in Hn; rewrite J1, R1; destruct (D n Hn) as (X & Y & _); splits; auto; apply U1; [now left|exact Hn].
    - intros n k Hn Lk Hk; rewrite H1 in Hn, Hk; rewrite !J1; now apply E. }
  destruct (init_jump_ok base live st1 tb 1 Fb1) as (T2 & B2 & C2 & O2); [now right|].
  set (st2 := init_jump st1 tb 1) in *; rewrite T1 in T2.
  destruct (addrs_same st st2 T2) as (J2 & R2 & H2).
  assert (Old : forall k, In (fst k) live -> has_jump st k -> host_code st2 (jmp_addr st k) = host_code st (jmp_addr st k)).
  { intros k Lk Hk; assert (Nk : fst k <> tb) by (intros <-; now apply (fb_new _ _ _ _ Fb)).
    rewrite <- (J1 k), O2, J1, O1; auto; try (now right); try (now apply H1); intros ->; now apply Nk. }
  assert (New : forall n, has_jump st (tb, n) -> branch_target st2 (jmp_addr st (tb, n)) = reset_addr st (tb, n) /\
            inU 32 (host_code st2 (jmp_addr st (tb, n)))).
  { intros n Hn; assert (Hn' := Hn); destruct Hn' as [[E|E] _]; cbn [snd] in E; subst n.
    - unfold branch_target; rewrite <- J1, O2; [rewrite J1; split; [now apply B1|now apply C1]|now left|now apply H1|congruence].
    - rewrite <- J1, <- R1; split; [apply B2|apply C2]; now apply H1. }
  destruct Co as [A B C D E F]; constructor; rewrite ?T2.
  - intros T [<-|LT]; [apply Fb|now apply A].
  - intros [a n] L X; rewrite J2, R2; rewrite H2 in X; cbn [fst] in L; destruct L as [<-|L].
    + destruct (fb_jump _ _ _ _ Fb n X) as (P & Q & _); splits; auto; now apply New.
    + destruct (B (a, n) L X) as (P & Q & R); splits; auto; now rewrite Old.
  - intros [a n] [b k] L L' X Y; rewrite !J2; rewrite H2 in X, Y; cbn [fst] in L, L'; destruct L as [<-|L].
    + intros Z0; symmetry; eapply (fb_apart _ _ _ _ Fb); eauto.
    + destruct L' as [<-|L']; [intros Z0; eapply (fb_apart _ _ _ _ Fb); eauto; now right|now apply C].
  - intros T j [<-|LT]; [rewrite upd_fun_eq; intros []|]; rewrite upd_fun_ne, H2 by (intros ->; now apply (fb_new _ _ _ _ Fb)); now apply D.
  - intros T j L [<-|LT]; [rewrite upd_fun_eq; intros []|]; rewrite upd_fun_ne, J2 by (intros ->; now apply (fb_new _ _ _ _ Fb)).
    intros I; assert (Lj := Mem T j LT I); unfold branch_target; rewrite Old by eauto; now apply E.
  - intros [a n] L X N; rewrite J2, R2; rewrite H2 in X; cbn [fst] in L; destruct L as [<-|L]; [now apply New|].
    unfold branch_target; rewrite Old by assumption; apply F; auto; intros T LT I; apply (N T); [now right|].
    rewrite upd_fun_ne; [exact I|intros ->; now apply (fb_new _ _ _ _ Fb)].
Qed.

Lemma init_jumps_ok base live J st tb :
  chain_ok base live J st -> fresh_block base live st tb ->
  chain_ok base (tb :: live) (upd_fun J tb []) (tb_init_jumps st tb).
Proof.
  intros [Lo Co] Fb.
  assert (S : same_static st (empty_lists st tb)).
  { unfold empty_lists; eapply same_static_trans; [eapply same_static_trans|]; apply write_static. }
  assert (E : tb_init_jumps st tb = init_jump (init_jump (empty_lists st tb) tb 0) tb 1).
  { unfold tb_init_jumps, init_jump, empty_lists; cbn [write_slot link]; cbv zeta.
    destruct (negb (sel2 _ 0 =? _)); reflexivity. }
  rewrite E; split.
  - assert (L := empty_lists_ok live J st tb Lo (fb_ptr _ _ _ _ Fb) (fb_new _ _ _ _ Fb)).
    unfold init_jump; destruct (negb _); destruct (negb _); repeat apply patch_static_lists; exact L.
  - apply init_jumps_code; [now apply (code_static _ _ _ _ st)|now apply (static_fresh _ _ st)|].
    intros T j LT I; now apply (lo_member _ _ _ Lo T).
Qed.

(** C10: the circular jump lists and the patched branch instructions implement a
    relation from jumps to target blocks: a new block starts with no jumps to or from
    it; tb_add_jump links a jump that is not linked yet and does nothing otherwise;
    invalidation ends, takes the block out of every list and sends every jump to it back
    to its own code; in all states every branch instruction leads where its list says.
    *)
Theorem tb_chain_refines base live J st :
  chain_ok base live J st ->
  (forall tb, fresh_block base live st tb -> chain_ok base (tb :: live) (upd_fun J tb []) (tb_init_jumps st tb)) /\
  (forall j T, In (fst j) live -> has_jump st j -> In T live ->
    (linked live J j -> tb_add_jump st (fst j) (snd j) T = st) /\
    (~ linked live J j -> chain_ok base live (upd_fun J T (j :: J T)) (tb_add_jump st (fst j) (snd j) T))) /\
  (forall tb fuel, In tb live -> (ring_fuel live <= fuel)%nat ->
    exists st', tb_unchain fuel st tb = Some st' /\
      chain_ok base (others tb live) (without tb J) st' /\ same_fields st st').
Proof.
  intros C; splits; intros; [now apply init_jumps_ok|now apply add_jump_ok|now apply unchain_ok].
Qed.

(** Two blocks without jumps in their lists: [0x1000], with one jump, and [0x1100]. *)
Definition demo_tb (pc tc first : Z) (reset : Z * Z) : TranslationBlock :=
  mkTB pc 0 0 4 1 0 tc (0, 0) (0, 0) reset (8, 0) (0, 0) first.

Definition demo_store : tb_store :=
  mkStore (fun a => if a =? 0x1000 then demo_tb 0x8000 0x40000 (0x1000 .| 2) (12, 0xffff)
                    else demo_tb 0x9000 0x40100 (0x1100 .| 2) (0xffff, 0xffff))
    (fun _ => 0xeaffffff).

Lemma demo_chain_ok : chain_ok 0x40000 [0x1000; 0x1100] (fun _ => []) demo_store.
Proof.
  assert (H : forall j, In (fst j) [0x1000; 0x1100] -> has_jump demo_store j -> j = (0x1000, 0)).
  { intros [a n] L [[N|N] X]; cbn [fst snd] in *; subst n; destruct L as [<-|[<-|[]]]; try reflexivity; now destruct X. }
  split; constructor; try (intros; cbn in *; tauto).
  - intros T [<-|[<-|[]]]; unfold is_tb_ptr, inU; cbn; lia.
  - intros T [<-|[<-|[]]]; reflexivity.
  - intros; constructor.
  - intros [a n] L [N|N] _; cbn [fst snd] in *; subst n; destruct L as [<-|[<-|[]]]; reflexivity.
  - intros T [<-|[<-|[]]]; cbn; unfold in_buffer, MAX_CODE_GEN_BUFFER_SIZE; repeat split; lia.
  - intros j L X; rewrite (H j L X); cbn; unfold in_buffer, MAX_CODE_GEN_BUFFER_SIZE, inU; repeat split; lia.
  - intros j k L L' X X' _; now rewrite (H j L X), (H k L' X').
  - intros j L X _; rewrite (H j L X); reflexivity.
Qed.

Lemma tb_chain_refines_witness :
  chain_ok 0x40000 [0x1000; 0x1100] (upd_fun (fun _ => []) 0x1100 [(0x1000, 0)])
    (tb_add_jump demo_store 0x1000 0 0x1100).
Proof.
  destruct (tb_chain_refines _ _ _ _ demo_chain_ok) as (_ & A & _).
  destruct (A (0x1000, 0) 0x1100) as [_ B]; [now left|split; [now left|cbn; discriminate]|right; now left|].
  apply B; intros (T & _ & []).
Defined.
