(* ===== verification/TbPages.v ===== *)
(** * Translation blocks by page (translate-all.c)

    Every page of guest memory has the list of the blocks whose code lies in
    it, linked through [page_next[n]]: n = 0 in the page where the block
    starts, n = 1 in the one it runs on into.  A block is found through a hash
    table and a cache of each CPU.  When guest code is written,
    [tb_invalidate_phys_range] removes the blocks that contain it from all of
    these.  The build is CONFIG_USER_ONLY: guest addresses are used as
    physical addresses. *)

From Stdlib Require Import ZArith Lia List Bool Permutation.
From S2P Require Import Prelude Bitops Qht TbChain.
Import ListNotations.
Local Open Scope Z_scope.
Local Open Scope c_scope.

(** ** Hashes (include/exec/tb-hash.h, tb-hash-xx.h) *)

Definition TARGET_PAGE_BITS : Z := 12.
Definition TARGET_PAGE_SIZE : Z := 1 .<< TARGET_PAGE_BITS.
Definition TARGET_PAGE_MASK : Z := u32 (Z.lnot (TARGET_PAGE_SIZE - 1)).

Definition TB_JMP_CACHE_BITS : Z := 21.
Definition TB_JMP_CACHE_SIZE : Z := 1 .<< TB_JMP_CACHE_BITS.
Definition TB_JMP_PAGE_BITS : Z := TB_JMP_CACHE_BITS / 2.
Definition TB_JMP_PAGE_SIZE : Z := 1 .<< TB_JMP_PAGE_BITS.
Definition TB_JMP_ADDR_MASK : Z := TB_JMP_PAGE_SIZE - 1.
Definition TB_JMP_PAGE_MASK : Z := TB_JMP_CACHE_SIZE - TB_JMP_PAGE_SIZE.

Definition tb_jmp_cache_hash_page (pc : Z) : Z :=
  let tmp := pc .^ (pc .>> (TARGET_PAGE_BITS - TB_JMP_PAGE_BITS)) in
  (tmp .>> (TARGET_PAGE_BITS - TB_JMP_PAGE_BITS)) .& TB_JMP_PAGE_MASK.

Definition tb_jmp_cache_hash_func (pc : Z) : Z :=
  let tmp := pc .^ (pc .>> (TARGET_PAGE_BITS - TB_JMP_PAGE_BITS)) in
  ((tmp .>> (TARGET_PAGE_BITS - TB_JMP_PAGE_BITS)) .& TB_JMP_PAGE_MASK) .| (tmp .& TB_JMP_ADDR_MASK).

Definition PRIME32_1 : Z := 2654435761.
Definition PRIME32_2 : Z := 2246822519.
Definition PRIME32_3 : Z := 3266489917.
Definition PRIME32_4 : Z := 668265263.
Definition TB_HASH_XX_SEED : Z := 1.

(** [v += x * PRIME32_2; v = rol32(v, 13); v *= PRIME32_1;] *)
Definition xx_round (v x : Z) : Z :=
  let v := u32 (v + u32 (x * PRIME32_2)) in
  let v := rol32 v 13 in
  u32 (v * PRIME32_1).

Definition tb_hash_func5 (a0 b0 e : Z) : Z :=
  let v1 := u32 (TB_HASH_XX_SEED + PRIME32_1 + PRIME32_2) in
  let v2 := u32 (TB_HASH_XX_SEED + PRIME32_2) in
  let v3 := TB_HASH_XX_SEED + 0 in
  let v4 := u32 (TB_HASH_XX_SEED - PRIME32_1) in
  let a := u32 (a0 .>> 32) in
  let b := u32 a0 in
  let c := u32 (b0 .>> 32) in
  let d := u32 b0 in
  let v1 := xx_round v1 a in
  let v2 := xx_round v2 b in
  let v3 := xx_round v3 c in
  let v4 := xx_round v4 d in
  let h32 := u32 (rol32 v1 1 + rol32 v2 7 + rol32 v3 12 + rol32 v4 18) in
  let h32 := u32 (h32 + 20) in
  let h32 := u32 (h32 + u32 (e * PRIME32_3)) in
  let h32 := u32 (rol32 h32 17 * PRIME32_4) in
  let h32 := h32 .^ (h32 .>> 15) in
  let h32 := u32 (h32 * PRIME32_2) in
  let h32 := h32 .^ (h32 .>> 13) in
  let h32 := u32 (h32 * PRIME32_3) in
  h32 .^ (h32 .>> 16).

Definition tb_hash_func (phys_pc pc flags : Z) : Z := tb_hash_func5 phys_pc pc flags.

(** ** The page table *)

Record PageDesc := mkPage { first_tb : Z; page_flags : Z }.

Definition PAGE_READ : Z := 1.
Definition PAGE_WRITE : Z := 2.
Definition PAGE_EXEC : Z := 4.
Definition PAGE_BITS : Z := PAGE_READ .| PAGE_WRITE .| PAGE_EXEC.

(** The levels: with 20 bits of page number there are two. *)
Definition V_L2_BITS : Z := 10.
Definition V_L2_SIZE : Z := 1 .<< V_L2_BITS.
Definition V_L1_BITS : Z := 10.
Definition V_L1_SIZE : Z := 1 .<< V_L1_BITS.
Definition V_L1_SHIFT : Z := 32 - TARGET_PAGE_BITS - V_L1_BITS.

(** [l1_map]: a table of page descriptors where one has been allocated. *)
Definition page_map : Type := Z -> option (Z -> PageDesc).

Definition l1_index (index : Z) : Z := (index .>> V_L1_SHIFT) .& (V_L1_SIZE - 1).
Definition l2_index (index : Z) : Z := index .& (V_L2_SIZE - 1).

(** The map, with the table allocated if it has to be; [None] is NULL. *)
Definition page_find_alloc (l1 : page_map) (index : Z) (alloc : bool) : option page_map :=
  match l1 (l1_index index) with
  | Some _ => Some l1
  | None =>
      if negb alloc then None
      else Some (set_fun l1 (l1_index index) (Some (fun _ => mkPage 0 0)))
  end.

(** What the pointer that [page_find] returns points to. *)
Definition page_find (l1 : page_map) (index : Z) : option PageDesc :=
  option_map (fun pd => pd (l2_index index)) (l1 (l1_index index)).

Definition page_put (l1 : page_map) (index : Z) (p : PageDesc) : page_map :=
  match l1 (l1_index index) with
  | Some pd => set_fun l1 (l1_index index) (Some (set_fun pd (l2_index index) p))
  | None => l1
  end.

(** ** The translation context *)

Record tb_context (T : Type) := mkCtx {
  store : tb_store;
  l1_map : page_map;
  htable : T;
  jmp_caches : list (Z -> Z);      (* cpu->tb_jmp_cache, of every CPU *)
  invalidate_count : Z;
  mprotects : list (Z * Z * Z)     (* the calls of mprotect, the last first *)
}.

Arguments mkCtx {T}. Arguments store {T}. Arguments l1_map {T}. Arguments htable {T}.
Arguments jmp_caches {T}. Arguments invalidate_count {T}. Arguments mprotects {T}.

Section Context.
Context {T : Type} `{HashTable T}.

Definition set_store (c : tb_context T) (s : tb_store) : tb_context T :=
  mkCtx s (l1_map c) (htable c) (jmp_caches c) (invalidate_count c) (mprotects c).
Definition set_l1 (c : tb_context T) (l : page_map) : tb_context T :=
  mkCtx (store c) l (htable c) (jmp_caches c) (invalidate_count c) (mprotects c).
Definition set_htable (c : tb_context T) (h : T) : tb_context T :=
  mkCtx (store c) (l1_map c) h (jmp_caches c) (invalidate_count c) (mprotects c).

Definition tb_of (c : tb_context T) (tb : Z) : TranslationBlock := tb_at (store c) tb.

Definition set_page_next (t : TranslationBlock) (n v : Z) : TranslationBlock :=
  mkTB (tb_pc t) (tb_cs_base t) (tb_flags t) (tb_size t) (tb_icount t) (tb_cflags t) (tc_ptr t)
    (set2 (page_next t) n v) (page_addr t) (jmp_reset_offset t) (jmp_insn_offset t) (jmp_list_next t)
    (jmp_list_first t).

Definition set_page_addr (t : TranslationBlock) (n v : Z) : TranslationBlock :=
  mkTB (tb_pc t) (tb_cs_base t) (tb_flags t) (tb_size t) (tb_icount t) (tb_cflags t) (tc_ptr t)
    (page_next t) (set2 (page_addr t) n v) (jmp_reset_offset t) (jmp_insn_offset t) (jmp_list_next t)
    (jmp_list_first t).

(** The pointer [TranslationBlock **ptb] into the list of a page. *)
Inductive page_slot := PHead (index : Z) | PNext (tb n : Z).

Definition read_page (c : tb_context T) (s : page_slot) : Z :=
  match s with
  | PHead index => match page_find (l1_map c) index with Some p => first_tb p | None => 0 end
  | PNext tb n => sel2 (page_next (tb_of c tb)) n
  end.

Definition write_page (c : tb_context T) (s : page_slot) (v : Z) : tb_context T :=
  match s with
  | PHead index =>
      match page_find (l1_map c) index with
      | Some p => set_l1 c (page_put (l1_map c) index (mkPage v (page_flags p)))
      | None => c
      end
  | PNext tb n => set_store c (set_tb (store c) tb (set_page_next (tb_of c tb) n v))
  end.

(** [None]: the end of the list is passed, or it has not been reached. *)
Fixpoint tb_page_remove (fuel : nat) (c : tb_context T) (ptb : page_slot) (tb : Z) : option (tb_context T) :=
  match fuel with
  | O => None
  | S fuel =>
      let tb1 := read_page c ptb in
      let n1 := link_n tb1 in
      let tb1 := link_tb tb1 in
      if tb1 =? tb then Some (write_page c ptb (sel2 (page_next (tb_of c tb1)) n1))
      else if tb1 =? 0 then None
      else tb_page_remove fuel c (PNext tb1 n1) tb
  end.

(** [-1] as a [tb_page_addr_t]. *)
Definition no_page : Z := u32 (-1).

Definition remove_from_page (fuel : nat) (c : tb_context T) (addr tb : Z) : option (tb_context T) :=
  let index := addr .>> TARGET_PAGE_BITS in
  let? _ := page_find (l1_map c) index in
  tb_page_remove fuel c (PHead index) tb.

Definition flush_caches (caches : list (Z -> Z)) (h tb : Z) : list (Z -> Z) :=
  map (fun cache => if cache h =? tb then set_fun cache h 0 else cache) caches.

Definition tb_phys_invalidate (fuel : nat) (c : tb_context T) (tb addr : Z) : option (tb_context T) :=
  let t := tb_of c tb in
  let phys_pc := u32 (sel2 (page_addr t) 0 + (tb_pc t .& u32 (Z.lnot TARGET_PAGE_MASK))) in
  let h := tb_hash_func phys_pc (tb_pc t) (tb_flags t) in
  let c := set_htable c (snd (tab_remove (htable c) tb h)) in
  let? c :=
    if negb (sel2 (page_addr (tb_of c tb)) 0 =? addr)
    then remove_from_page fuel c (sel2 (page_addr (tb_of c tb)) 0) tb else Some c in
  let? c :=
    if negb (sel2 (page_addr (tb_of c tb)) 1 =? no_page) && negb (sel2 (page_addr (tb_of c tb)) 1 =? addr)
    then remove_from_page fuel c (sel2 (page_addr (tb_of c tb)) 1) tb else Some c in
  let h := tb_jmp_cache_hash_func (tb_pc (tb_of c tb)) in
  let c := mkCtx (store c) (l1_map c) (htable c) (flush_caches (jmp_caches c) h tb) (invalidate_count c) (mprotects c) in
  let? s := tb_unchain fuel (store c) tb in
  let c := set_store c s in
  Some (mkCtx (store c) (l1_map c) (htable c) (jmp_caches c) (invalidate_count c + 1) (mprotects c)).

(** ** Invalidating a range *)

(** The part of the page that the block covers. *)
Definition tb_range (t : TranslationBlock) (n : Z) : Z * Z :=
  if n =? 0 then
    let tb_start := u32 (sel2 (page_addr t) 0 + (tb_pc t .& u32 (Z.lnot TARGET_PAGE_MASK))) in
    (tb_start, u32 (tb_start + tb_size t))
  else
    let tb_start := sel2 (page_addr t) 1 in
    (tb_start, u32 (tb_start + (u32 (tb_pc t + tb_size t) .& u32 (Z.lnot TARGET_PAGE_MASK)))).

(** The loop along the list of a page; the next link is read before the block goes. *)
Fixpoint invalidate_list (fuel : nat) (ring : nat) (c : tb_context T) (tb start stop : Z) : option (tb_context T) :=
  match fuel with
  | O => None
  | S fuel =>
      if tb =? 0 then Some c
      else
        let n := link_n tb in
        let tb := link_tb tb in
        let tb_next := sel2 (page_next (tb_of c tb)) n in
        let (tb_start, tb_end) := tb_range (tb_of c tb) n in
        let? c :=
          if negb ((tb_end <=? start) || (stop <=? tb_start))
          then tb_phys_invalidate ring c tb no_page else Some c in
        invalidate_list fuel ring c tb_next start stop
  end.

Definition tb_invalidate_phys_page_range (fuel : nat) (c : tb_context T) (start stop : Z) : option (tb_context T) :=
  match page_find (l1_map c) (start .>> TARGET_PAGE_BITS) with
  | None => Some c
  | Some p => invalidate_list fuel fuel c (first_tb p) start stop
  end.

(** [rounds]: the number of pages; [None] when the loop has not stopped. *)
Fixpoint tb_invalidate_phys_range (rounds fuel : nat) (c : tb_context T) (start stop : Z) : option (tb_context T) :=
  if start <? stop then
    match rounds with
    | O => None
    | S rounds =>
        let? c := tb_invalidate_phys_page_range fuel c start stop in
        tb_invalidate_phys_range rounds fuel c (u32 ((start .& TARGET_PAGE_MASK) + TARGET_PAGE_SIZE)) stop
    end
  else Some c.

End Context.

(** ** Addresses and pages *)

Lemma page_offset a : a .& u32 (Z.lnot TARGET_PAGE_MASK) = a mod 4096.
Proof. change (u32 (Z.lnot TARGET_PAGE_MASK)) with (Z.ones 12); now rewrite Z.land_ones by lia. Qed.

Lemma mask_mod k a : 0 <= k <= 32 -> inU 32 a -> a .& u32 (- 2 ^ k) = a - a mod 2 ^ k.
Proof.
  intros Hk Ha; assert (E : a .& u32 (- 2 ^ k) = (a .>> k) .<< k).
  { apply Z.bits_inj'; intros i Hi; rewrite Z.land_spec, Z.shiftl_spec by lia.
    replace (- 2 ^ k) with (Z.lnot (Z.ones k)) by (rewrite Z.ones_equiv; unfold Z.lnot; lia).
    rewrite testbit_wrap, Z.lnot_spec, Z.testbit_ones_nonneg by lia.
    destruct (Z.ltb_spec i k); cbn [negb].
    - rewrite andb_false_r, andb_false_r, Z.testbit_neg_r by lia; reflexivity.
    - rewrite Z.shiftr_spec by lia; replace (i - k + k) with i by lia; rewrite andb_true_r.
      destruct (Z.ltb_spec i 32); [apply andb_true_r|]; now rewrite (testbit_high 32 a) by assumption. }
  rewrite E, Z.shiftl_mul_pow2, Z.shiftr_div_pow2 by lia.
  assert (2 ^ k <> 0) by (pose proof (Z.pow_pos_nonneg 2 k); lia).
  pose proof (Z.div_mod a (2 ^ k)); lia.
Qed.

Lemma page_mask_mod a : inU 32 a -> a .& TARGET_PAGE_MASK = a - a mod 4096.
Proof. intros Ha; change TARGET_PAGE_MASK with (u32 (- 2 ^ 12)); now apply (mask_mod 12). Qed.

Definition page_of (pc : Z) : Z := pc - pc mod 4096.

Lemma page_of_div pc : page_of pc / 4096 = pc / 4096.
Proof. unfold page_of; pose proof (Z.div_mod pc 4096); symmetry; apply (Z.div_unique _ _ _ 0); lia. Qed.

Lemma next_page_div pc : (page_of pc + 4096) / 4096 = pc / 4096 + 1.
Proof. unfold page_of; pose proof (Z.div_mod pc 4096); symmetry; apply (Z.div_unique _ _ _ 0); lia. Qed.

Lemma page_of_bound pc : 0 <= pc -> 0 <= page_of pc <= pc.
Proof. intros P; unfold page_of; pose proof (Z.mod_pos_bound pc 4096); pose proof (Z.mod_le pc 4096); lia. Qed.

Lemma next_page_aligned pc : (page_of pc + 4096) mod 4096 = 0.
Proof.
  unfold page_of; pose proof (Z.div_mod pc 4096).
  replace (pc - pc mod 4096 + 4096) with ((pc / 4096 + 1) * 4096) by lia; apply Z_mod_mult.
Qed.

Lemma next_page_real pc : page_of pc + 4096 <> no_page.
Proof. intros X; pose proof (next_page_aligned pc) as Y; rewrite X in Y; discriminate. Qed.

Lemma page_index a : a .>> TARGET_PAGE_BITS = a / 4096.
Proof. unfold TARGET_PAGE_BITS; now rewrite Z.shiftr_div_pow2 by lia. Qed.

Lemma l1_index_div q : inU 20 q -> l1_index q = q / 1024.
Proof.
  intros Hq; unfold l1_index; change (V_L1_SIZE - 1) with (Z.ones 10); rewrite Z.land_ones by lia.
  change V_L1_SHIFT with 10; rewrite Z.shiftr_div_pow2 by lia; change (2 ^ 10) with 1024.
  unfold inU in Hq; apply Z.mod_small; split; [apply Z.div_pos|apply Z.div_lt_upper_bound]; lia.
Qed.

Lemma l2_index_mod q : l2_index q = q mod 1024.
Proof. unfold l2_index; change (V_L2_SIZE - 1) with (Z.ones 10); now rewrite Z.land_ones by lia. Qed.

Lemma index_inj q q' : inU 20 q -> inU 20 q' -> l1_index q = l1_index q' -> l2_index q = l2_index q' -> q = q'.
Proof.
  intros H H'; rewrite !l1_index_div, !l2_index_mod by assumption; intros.
  pose proof (Z.div_mod q 1024); pose proof (Z.div_mod q' 1024); lia.
Qed.

Lemma find_put_eq l q p : page_find l q <> None -> page_find (page_put l q p) q = Some p.
Proof.
  unfold page_find, page_put; destruct (l (l1_index q)); cbn; [|congruence].
  unfold set_fun at 1; rewrite Z.eqb_refl; cbn; unfold set_fun; now rewrite Z.eqb_refl.
Qed.

Lemma find_put_ne l q q' p :
  inU 20 q -> inU 20 q' -> q' <> q -> page_find (page_put l q p) q' = page_find l q'.
Proof.
  intros H H' N; unfold page_find, page_put; destruct (l (l1_index q)) as [pd|] eqn:E; [|reflexivity].
  unfold set_fun at 1; destruct (Z.eqb_spec (l1_index q') (l1_index q)) as [X|]; [|reflexivity].
  rewrite X, E; cbn; unfold set_fun; destruct (Z.eqb_spec (l2_index q') (l2_index q)) as [Y|]; [|reflexivity].
  now destruct N; apply index_inj.
Qed.

(** Allocation adds empty pages only. *)
Lemma find_alloc_ok l q q' l' :
  page_find_alloc l q true = Some l' -> inU 20 q -> inU 20 q' ->
  page_find l' q <> None /\
  (page_find l' q' = page_find l q' \/ (page_find l q' = None /\ page_find l' q' = Some (mkPage 0 0))).
Proof.
  unfold page_find_alloc; destruct (l (l1_index q)) eqn:E; cbn [negb]; intros X H H'; injection X as <-; unfold page_find.
  - rewrite E; split; [discriminate|now left].
  - split; [unfold set_fun; rewrite Z.eqb_refl; discriminate|].
    unfold set_fun; destruct (Z.eqb_spec (l1_index q') (l1_index q)) as [Y|]; [|now left].
    right; rewrite Y, E; now split.
Qed.

(** ** Changes that leave the jump lists alone *)

Definition same_chain (st st' : tb_store) : Prop :=
  host_code st' = host_code st /\
  forall a, let t := tb_at st a in let t' := tb_at st' a in
    jmp_list_next t' = jmp_list_next t /\ jmp_list_first t' = jmp_list_first t /\ tc_ptr t' = tc_ptr t /\
    jmp_reset_offset t' = jmp_reset_offset t /\ jmp_insn_offset t' = jmp_insn_offset t.

Lemma chain_same base live J st st' : same_chain st st' -> chain_ok base live J st -> chain_ok base live J st'.
Proof.
  intros [H F] [Lo Co].
  assert (R : forall s, read_slot st' s = read_slot st s).
  { intros [a|a n]; cbn; specialize (F a); cbv zeta in F; destruct F as (A & B & _); now rewrite ?A, ?B. }
  assert (Ej : forall j, jmp_addr st' j = jmp_addr st j).
  { intros j; unfold jmp_addr; specialize (F (fst j)); cbv zeta in *; destruct F as (_ & _ & -> & _ & ->); reflexivity. }
  assert (Er : forall j, reset_addr st' j = reset_addr st j).
  { intros j; unfold reset_addr; specialize (F (fst j)); cbv zeta in *; destruct F as (_ & _ & -> & -> & _); reflexivity. }
  assert (Eh : forall j, has_jump st' j <-> has_jump st j).
  { intros j; unfold has_jump; specialize (F (fst j)); cbv zeta in *; destruct F as (_ & _ & _ & -> & _); reflexivity. }
  assert (Et : forall a, tc_ptr (tb_at st' a) = tc_ptr (tb_at st a)) by (intros a; apply F).
  assert (Eb : forall a, branch_target st' a = branch_target st a) by (intros a; unfold branch_target; now rewrite H).
  split.
  - destruct Lo as [A B C D E G]; constructor; auto.
    + intros X LX; apply (path_move st st' (First X)); auto.
    + intros j L N Z0; rewrite R; auto.
  - destruct Co as [A B C D E G]; constructor.
    + intros X; rewrite Et; apply A.
    + intros j; rewrite Eh, Ej, Er, H; apply B.
    + intros j k; rewrite !Eh, !Ej; apply C.
    + intros X j; rewrite Eh; apply D.
    + intros X j; rewrite Ej, Et, Eb; apply E.
    + intros j; rewrite Eh, Ej, Er, Eb; apply G.
Qed.

(** What identifies a block and its code. *)
Definition same_block (t t' : TranslationBlock) : Prop :=
  tb_pc t' = tb_pc t /\ tb_cs_base t' = tb_cs_base t /\ tb_flags t' = tb_flags t /\ tb_size t' = tb_size t /\
  tb_cflags t' = tb_cflags t /\ page_addr t' = page_addr t /\ tc_ptr t' = tc_ptr t /\ tb_icount t' = tb_icount t /\
  jmp_reset_offset t' = jmp_reset_offset t /\ jmp_insn_offset t' = jmp_insn_offset t.

Lemma same_block_refl t : same_block t t.
Proof. now splits. Qed.

Lemma same_block_trans a b c : same_block a b -> same_block b c -> same_block a c.
Proof.
  intros (? & ? & ? & ? & ? & ? & ? & ? & ? & ?) (? & ? & ? & ? & ? & ? & ? & ? & ? & ?); unfold same_block; splits; congruence.
Qed.

Lemma tb_hash_range phys_pc pc flags : inU 32 (tb_hash_func phys_pc pc flags).
Proof.
  unfold tb_hash_func, tb_hash_func5; cbv zeta; match goal with |- inU 32 (?x .^ (?x .>> 16)) => set (h := x) end.
  assert (Hh : inU 32 h) by (apply wrap_range; lia).
  apply lxor_range; [lia|exact Hh|]; unfold inU in *; rewrite Z.shiftr_div_pow2 by lia.
  split; [apply Z.div_pos; lia|]; apply Z.div_lt_upper_bound; lia.
Qed.

Section Pages.
Context {T : Type} `{HashTable T}.
Implicit Types c : tb_context T.

(** ** The lists of the pages *)

Definition page_jump (j : jump) : page_slot := PNext (fst j) (snd j).

Definition good_page_slot (c : tb_context T) (s : page_slot) : Prop :=
  match s with PHead q => inU 20 q /\ page_find (l1_map c) q <> None | PNext _ n => is_n n end.

(** Only the page lists change. *)
Definition page_frame (c c' : tb_context T) : Prop :=
  same_chain (store c) (store c') /\ (forall a, same_block (tb_of c a) (tb_of c' a)) /\
  htable c' = htable c /\ jmp_caches c' = jmp_caches c /\
  (forall q, inU 20 q ->
    option_map page_flags (page_find (l1_map c') q) = option_map page_flags (page_find (l1_map c) q)).

Lemma same_flags_none (a b : option PageDesc) :
  option_map page_flags a = option_map page_flags b -> a = None <-> b = None.
Proof. destruct a, b; cbn; intros E; split; congruence. Qed.

Lemma page_write_frame c s v : good_page_slot c s -> page_frame c (write_page c s v).
Proof.
  destruct s as [q|tb n]; cbn [good_page_slot write_page]; intros G.
  - destruct G as [Hq Nq]; destruct (page_find (l1_map c) q) as [p|] eqn:E; [|congruence].
    split; [|split; [|split; [|split]]]; try reflexivity; cbn [l1_map set_l1].
    + split; [reflexivity|]; intros a; now splits.
    + intros a; apply same_block_refl.
    + intros q' Hq'; destruct (Z.eq_dec q' q) as [->|N].
      * rewrite find_put_eq by congruence; now rewrite E.
      * now rewrite find_put_ne.
  - split; [|split; [|split; [|split]]]; try reflexivity.
    + split; [reflexivity|]; intros a; cbn; unfold set_fun; destruct (Z.eqb_spec a tb) as [->|]; now splits.
    + intros a; unfold tb_of; cbn; unfold set_fun; destruct (Z.eqb_spec a tb) as [->|]; now splits.
Qed.

Lemma page_read_eq c s v : good_page_slot c s -> read_page (write_page c s v) s = v.
Proof.
  destruct s as [q|tb n]; cbn [good_page_slot write_page]; intros G.
  - destruct G as [Hq Nq]; destruct (page_find (l1_map c) q) as [p|] eqn:E; [|congruence].
    cbn [read_page l1_map set_l1]; now rewrite find_put_eq by congruence.
  - cbn; unfold tb_of; cbn; unfold set_fun; rewrite Z.eqb_refl; cbn; unfold set2, sel2; destruct (n =? 0); reflexivity.
Qed.

Lemma page_read_ne c s s' v :
  good_page_slot c s -> good_page_slot c s' -> s' <> s -> read_page (write_page c s v) s' = read_page c s'.
Proof.
  destruct s as [q|a n]; cbn [good_page_slot write_page].
  - intros [Hq Nq]; destruct (page_find (l1_map c) q) as [p|]; [|congruence].
    destruct s' as [q'|b m]; cbn [good_page_slot read_page l1_map set_l1]; [|reflexivity].
    intros [Hq' _] N; rewrite find_put_ne; congruence.
  - destruct s' as [q'|b m]; cbn [good_page_slot]; intros G G' N; [reflexivity|].
    cbn; unfold tb_of; cbn; unfold set_fun; destruct (Z.eqb_spec b a) as [->|]; [|reflexivity]; cbn.
    unfold set2, sel2; destruct G as [-> | ->], G' as [-> | ->]; try congruence; reflexivity.
Qed.

(** From field [s] the links lead through the blocks [l] to the end of the list. *)
Fixpoint page_path (c : tb_context T) (s : page_slot) (l : list jump) : Prop :=
  match l with
  | [] => read_page c s = 0
  | j :: l => read_page c s = link (jump_slot j) /\ page_path c (page_jump j) l
  end.

Definition head_link (l : list jump) : Z := match l with [] => 0 | j :: _ => link (jump_slot j) end.

Lemma page_path_head c s l : page_path c s l -> read_page c s = head_link l.
Proof. destruct l; cbn; tauto. Qed.

Lemma page_path_suffix c l1 : forall s j l2, page_path c s (l1 ++ j :: l2) -> page_path c (page_jump j) l2.
Proof. induction l1 as [|k l1 IH]; intros s j l2; cbn; intros [_ P]; eauto. Qed.

Lemma page_path_move c c' s s' l :
  read_page c' s' = read_page c s -> (forall j, In j l -> read_page c' (page_jump j) = read_page c (page_jump j)) ->
  page_path c s l -> page_path c' s' l.
Proof.
  revert s s'; induction l as [|j l IH]; intros s s' E F; cbn [page_path]; [congruence|].
  intros [L P]; split; [congruence|]; apply (IH (page_jump j) (page_jump j)); auto with datatypes.
Qed.

(** The field that leads past [l1]. *)
Definition page_lead (s : page_slot) (l1 : list jump) : page_slot := last (map page_jump l1) s.

Lemma page_lead_cons s j l1 : page_lead s (j :: l1) = page_lead (page_jump j) l1.
Proof. unfold page_lead; cbn [map]; apply last_cons. Qed.

Lemma page_lead_cases s l1 : page_lead s l1 = s \/ exists k, In k l1 /\ page_lead s l1 = page_jump k.
Proof.
  destruct (last_in (map page_jump l1) s) as [E|I]; [left; now symmetry|right].
  apply in_map_iff in I as (k & E & I); exists k; now split.
Qed.

Lemma page_remove_ok tb n c l1 l2 : forall s fuel,
  page_path c s (l1 ++ (tb, n) :: l2) -> Forall (fun j => is_tb_ptr (fst j) /\ is_n (snd j)) (l1 ++ (tb, n) :: l2) ->
  (forall j, In j l1 -> fst j <> tb) -> (length l1 < fuel)%nat ->
  tb_page_remove fuel c s tb = Some (write_page c (page_lead s l1) (read_page c (PNext tb n))).
Proof.
  induction l1 as [|j l1 IH]; intros s [|fuel] P F N L; cbn [length] in L; try lia; cbn [tb_page_remove app page_path] in *.
  - destruct P as [-> _]; inversion F as [|? ? [Gt Gn] _]; subst; cbn [fst snd] in *; destruct (is_n_range n Gn).
    cbn [link jump_slot fst snd]; destruct (link_parts tb n Gt) as (-> & -> & _); [assumption|]; now rewrite Z.eqb_refl.
  - destruct P as [-> P]; inversion F as [|? ? [Gt Gn] F']; subst; destruct (is_n_range _ Gn).
    cbn [link jump_slot]; destruct (link_parts (fst j) (snd j) Gt) as (-> & -> & _); [assumption|].
    rewrite (proj2 (Z.eqb_neq (fst j) tb)) by (apply N; now left).
    rewrite (proj2 (Z.eqb_neq (fst j) 0)) by apply Gt.
    rewrite page_lead_cons; apply IH; auto; [intros k I; apply N; now right|lia].
Qed.

Lemma page_path_redirect c c' j l2 l1 : forall s,
  page_path c s (l1 ++ j :: l2) -> NoDup (l1 ++ l2) -> ~ In s (map page_jump (l1 ++ l2)) ->
  read_page c' (page_lead s l1) = read_page c (page_jump j) ->
  (forall x, In x (s :: map page_jump (l1 ++ l2)) -> x <> page_lead s l1 -> read_page c' x = read_page c x) ->
  page_path c' s (l1 ++ l2).
Proof.
  assert (Inj : forall a b, page_jump a = page_jump b -> a = b) by (intros [] []; unfold page_jump; cbn; congruence).
  assert (InM : forall a l, In (page_jump a) (map page_jump l) -> In a l).
  { intros a l I; apply in_map_iff in I as (b & E & I); now rewrite <- (Inj _ _ E). }
  induction l1 as [|k l1 IH]; intros s P N Ns R F; cbn [app] in *.
  - destruct P as [_ P]; apply (page_path_move c c' (page_jump j)); auto.
    intros m I; apply F; [right; now apply in_map|]; intros E; change (page_lead s []) with s in E; apply Ns; rewrite <- E; now apply in_map.
  - destruct P as [L P]; rewrite page_lead_cons in *; apply NoDup_cons_iff in N as [Nk N]; cbn [map In] in *; split.
    + rewrite F; [exact L|now left|]; intros E.
      destruct (page_lead_cases (page_jump k) l1) as [X|(m & Im & X)]; [apply Ns; left; congruence|].
      apply Ns; right; rewrite E, X; apply in_map, in_or_app; now left.
    + apply IH; auto; intros x [<-|I] Nx; apply F; auto.
Qed.

(** ** The invariant of the pages *)

(** The block lies in page [q]: as its first page, or as its second. *)
Definition on_page (t : TranslationBlock) (n q : Z) : Prop :=
  (n = 0 /\ sel2 (page_addr t) 0 / 4096 = q) \/
  (n = 1 /\ sel2 (page_addr t) 1 <> no_page /\ sel2 (page_addr t) 1 / 4096 = q).

(** Guest code of 1 to 4096 bytes, in one page or in two that follow each other. *)
Record block_wf (t : TranslationBlock) : Prop := {
  bw_pc : 0 <= tb_pc t;
  bw_size : 1 <= tb_size t <= 4096;
  bw_end : tb_pc t + tb_size t < 2 ^ 32;
  bw_page0 : sel2 (page_addr t) 0 = tb_pc t - tb_pc t mod 4096;
  bw_page1 : sel2 (page_addr t) 1 =
    if tb_pc t mod 4096 + tb_size t <=? 4096 then no_page else tb_pc t - tb_pc t mod 4096 + 4096
}.

Record pages_ok (live : list Z) (PL : Z -> list jump) (c : tb_context T) : Prop := {
  po_block : forall tb, In tb live -> is_tb_ptr tb /\ block_wf (tb_of c tb);
  po_path : forall q, inU 20 q -> page_find (l1_map c) q <> None -> page_path c (PHead q) (PL q);
  po_none : forall q, inU 20 q -> page_find (l1_map c) q = None -> PL q = [];
  po_nodup : forall q, inU 20 q -> NoDup (PL q);
  po_mem : forall q j, inU 20 q -> In j (PL q) <-> In (fst j) live /\ is_n (snd j) /\ on_page (tb_of c (fst j)) (snd j) q
}.

Lemma block_pages t n q : block_wf t -> is_n n -> on_page t n q -> inU 20 q /\ q = tb_pc t / 4096 + n.
Proof.
  intros [P S E A B] Nn O; pose proof (Z.div_mod (tb_pc t) 4096); pose proof (Z.mod_pos_bound (tb_pc t) 4096).
  destruct O as [[-> O]|(-> & O1 & O)].
  - rewrite A in O; assert (q = tb_pc t / 4096) by (rewrite <- O; symmetry; apply (Z.div_unique _ _ _ 0); lia).
    unfold inU; lia.
  - rewrite B in O, O1; destruct (Z.leb_spec (tb_pc t mod 4096 + tb_size t) 4096); [congruence|].
    assert (q = tb_pc t / 4096 + 1) by (rewrite <- O; symmetry; apply (Z.div_unique _ _ _ 0); lia).
    unfold inU; lia.
Qed.

(** ** Taking a block out of a page *)

Record page_lists (PL : Z -> list jump) (c : tb_context T) : Prop := {
  pl_good : forall q j, inU 20 q -> In j (PL q) -> is_tb_ptr (fst j) /\ is_n (snd j);
  pl_path : forall q, inU 20 q -> page_find (l1_map c) q <> None -> page_path c (PHead q) (PL q);
  pl_none : forall q, inU 20 q -> page_find (l1_map c) q = None -> PL q = [];
  pl_nodup : forall q, inU 20 q -> NoDup (PL q);
  pl_apart : forall q q' j, inU 20 q -> inU 20 q' -> In j (PL q) -> In j (PL q') -> q = q'
}.

Lemma pages_lists live PL c : pages_ok live PL c -> page_lists PL c.
Proof.
  intros [B P N D M]; constructor; auto.
  - intros q j Hq I; apply M in I as (L & Nn & _); [|assumption]; split; [now apply B|assumption].
  - intros q q' j Hq Hq' I I'; apply M in I as (L & Nn & O), I' as (_ & _ & O'); auto.
    destruct (B _ L) as [_ W]; destruct (block_pages _ _ _ W Nn O), (block_pages _ _ _ W Nn O'); congruence.
Qed.

Lemma page_jump_inj a b : page_jump a = page_jump b -> a = b.
Proof. destruct a, b; unfold page_jump; cbn; congruence. Qed.

Lemma head_not_page_jump q l : ~ In (PHead q) (map page_jump l).
Proof. rewrite in_map_iff; intros (x & E & _); discriminate. Qed.

Section Drop.
Variables (PL : Z -> list jump) (c : tb_context T) (q : Z) (tb n : Z) (l1 l2 : list jump).
Hypothesis ok : page_lists PL c.
Hypothesis Hq : inU 20 q.
Hypothesis E : PL q = l1 ++ (tb, n) :: l2.

Definition dropped : tb_context T := write_page c (page_lead (PHead q) l1) (read_page c (PNext tb n)).

Lemma dropped_page : page_find (l1_map c) q <> None.
Proof. intros X; assert (Y := pl_none _ _ ok q Hq X); rewrite E in Y; now destruct l1. Qed.

Lemma dropped_in k : In k (l1 ++ l2) -> In k (PL q).
Proof. rewrite E, !in_app_iff; cbn [In]; tauto. Qed.

Lemma dropped_good : good_page_slot c (page_lead (PHead q) l1).
Proof.
  destruct (page_lead_cases (PHead q) l1) as [->|(k & I & ->)]; [split; [exact Hq|exact dropped_page]|].
  apply (pl_good _ _ ok q); [exact Hq|apply dropped_in, in_or_app; now left].
Qed.

Lemma dropped_read s : good_page_slot c s -> s <> page_lead (PHead q) l1 -> read_page dropped s = read_page c s.
Proof. intros; apply page_read_ne; auto; exact dropped_good. Qed.

Lemma dropped_path : page_path dropped (PHead q) (l1 ++ l2).
Proof.
  assert (P := pl_path _ _ ok q Hq dropped_page); rewrite E in P.
  assert (N := pl_nodup _ _ ok q Hq); rewrite E in N; apply NoDup_remove_1 in N.
  apply (page_path_redirect c dropped (tb, n)); auto; [apply head_not_page_jump|apply page_read_eq, dropped_good|].
  intros x I Nx; apply dropped_read; auto; destruct I as [<-|I]; [split; [exact Hq|exact dropped_page]|].
  apply in_map_iff in I as (k & <- & I); apply (pl_good _ _ ok q); [exact Hq|now apply dropped_in].
Qed.

Lemma dropped_path_other q' :
  inU 20 q' -> q' <> q -> page_find (l1_map c) q' <> None -> page_path dropped (PHead q') (PL q').
Proof.
  intros Hq' N F; apply (page_path_move c dropped (PHead q')); [| |now apply ok].
  - apply dropped_read; [now split|].
    destruct (page_lead_cases (PHead q) l1) as [->|(k & _ & ->)]; [congruence|discriminate].
  - intros k I; apply dropped_read; [now apply (pl_good _ _ ok q')|].
    destruct (page_lead_cases (PHead q) l1) as [->|(m & Im & ->)]; [discriminate|].
    intros X; apply page_jump_inj in X as ->; apply N, (pl_apart _ _ ok q' q m); auto; apply dropped_in, in_or_app; now left.
Qed.

Lemma dropped_ok : page_lists (drop (tb, n) PL) dropped /\ page_frame c dropped.
Proof.
  assert (Fr := page_write_frame c _ (read_page c (PNext tb n)) dropped_good); fold dropped in Fr.
  assert (Fn := fun q' Hq' => same_flags_none _ _ (proj2 (proj2 (proj2 (proj2 Fr))) q' Hq')).
  assert (Dq : drop (tb, n) PL q = l1 ++ l2).
  { unfold drop; rewrite E; apply remove_split; assert (X := pl_nodup _ _ ok q Hq); rewrite E in X; exact X. }
  assert (Do : forall q', inU 20 q' -> q' <> q -> drop (tb, n) PL q' = PL q').
  { intros q' Hq' N; apply notin_remove; intros I; apply N, (pl_apart _ _ ok q' q (tb, n)); auto.
    rewrite E; apply in_or_app; right; now left. }
  assert (Di : forall q' j, In j (drop (tb, n) PL q') -> In j (PL q')) by (intros q' j I; now apply in_remove in I).
  split; [|exact Fr]; constructor.
  - intros q' j Hq' I; apply (pl_good _ _ ok q'); auto.
  - intros q' Hq' F; rewrite Fn in F by assumption; destruct (Z.eq_dec q' q) as [->|N].
    + rewrite Dq; exact dropped_path.
    + rewrite Do by assumption; now apply dropped_path_other.
  - intros q' Hq' F; apply Fn in F; [|assumption]; unfold drop; now rewrite (pl_none _ _ ok q' Hq' F).
  - intros q' Hq'; destruct (Z.eq_dec q' q) as [->|N]; [|rewrite Do by assumption; now apply ok].
    rewrite Dq; assert (X := pl_nodup _ _ ok q Hq); rewrite E in X; now apply NoDup_remove_1 in X.
  - intros q' q'' j Hq' Hq'' I I'; apply (pl_apart _ _ ok q' q'' j); auto.
Qed.

End Drop.

Lemma remove_from_page_ok fuel PL c addr tb n :
  page_lists PL c -> inU 20 (addr / 4096) -> In (tb, n) (PL (addr / 4096)) ->
  (forall m, In (tb, m) (PL (addr / 4096)) -> m = n) -> (length (PL (addr / 4096)%Z) < fuel)%nat ->
  exists c', remove_from_page fuel c addr tb = Some c' /\ page_lists (drop (tb, n) PL) c' /\ page_frame c c'.
Proof.
  intros ok Hq I U L; unfold remove_from_page; rewrite page_index.
  destruct (in_split _ _ I) as (l1 & l2 & E).
  assert (F := dropped_page PL c _ tb n l1 l2 ok Hq E).
  destruct (page_find (l1_map c) (addr / 4096)) eqn:X; [|congruence].
  exists (dropped c (addr / 4096) tb n l1); split; [|exact (dropped_ok PL c _ tb n l1 l2 ok Hq E)].
  assert (P := pl_path _ _ ok _ Hq (dropped_page PL c _ tb n l1 l2 ok Hq E)); rewrite E in P.
  apply (page_remove_ok tb n c l1 l2); auto.
  - apply Forall_forall; intros j Ij; apply (pl_good _ _ ok (addr / 4096)); [assumption|]; rewrite E; exact Ij.
  - intros [a m] Ij Ea; cbn in Ea; subst a; assert (m = n) as -> by (apply U; rewrite E; apply in_or_app; now left).
    assert (N := pl_nodup _ _ ok _ Hq); rewrite E in N; apply NoDup_remove_2 in N; apply N, in_or_app; now left.
  - rewrite E, length_app in L; lia.
Qed.

Lemma page_lists_ext PL PL' c : (forall q, inU 20 q -> PL' q = PL q) -> page_lists PL c -> page_lists PL' c.
Proof.
  intros X [A B C D F]; constructor.
  - intros q j Hq; rewrite X by assumption; now apply A.
  - intros q Hq; rewrite X by assumption; now apply B.
  - intros q Hq; rewrite X by assumption; now apply C.
  - intros q Hq; rewrite X by assumption; now apply D.
  - intros q q' j Hq Hq'; rewrite !X by assumption; now apply F.
Qed.

Lemma page_lists_reads PL c c' :
  (forall s, good_page_slot c s -> read_page c' s = read_page c s) ->
  (forall q, inU 20 q -> page_find (l1_map c') q = None <-> page_find (l1_map c) q = None) ->
  page_lists PL c -> page_lists PL c'.
Proof.
  intros R F [A B C D E]; constructor; auto.
  - intros q Hq Nn; rewrite F in Nn by assumption; apply (page_path_move c c' (PHead q)); [now apply R| |now apply B].
    intros j I; apply R; now apply (A q).
  - intros q Hq Nn; apply C; [assumption|]; now apply F.
Qed.

(** ** The whole context *)

Definition tb_hash (t : TranslationBlock) : Z :=
  tb_hash_func (u32 (sel2 (page_addr t) 0 + (tb_pc t .& u32 (Z.lnot TARGET_PAGE_MASK)))) (tb_pc t) (tb_flags t).

(** The blocks in use are the ones in the hash table; they are in the lists of
    their pages, and the caches of the CPUs hold only blocks in use.  A page with
    code is write-protected. *)
Record ctx_ok (base : Z) (live : list Z) (J PL : Z -> list jump) (c : tb_context T) : Prop := {
  cx_chain : chain_ok base live J (store c);
  cx_pages : pages_ok live PL c;
  cx_tab : tab_ok (htable c);
  cx_entries : forall p h, In (mkEntry h p) (tab_entries (htable c)) <-> In p live /\ h = tb_hash (tb_of c p);
  cx_cache : forall cache i, In cache (jmp_caches c) -> cache i <> 0 ->
    In (cache i) live /\ tb_jmp_cache_hash_func (tb_pc (tb_of c (cache i))) = i;
  cx_flags : forall q p, inU 20 q -> page_find (l1_map c) q = Some p -> PL q <> [] -> page_flags p .& PAGE_WRITE = 0
}.

Lemma tb_hash_same t t' : same_block t t' -> tb_hash t' = tb_hash t.
Proof. intros (A & B & C & D & E & F & G); unfold tb_hash; now rewrite A, C, F. Qed.

Lemma block_wf_same t t' : same_block t t' -> block_wf t -> block_wf t'.
Proof. intros (A & B & C & D & E & F & G) []; constructor; rewrite ?A, ?D, ?F; auto. Qed.

Lemma on_page_same t t' n q : same_block t t' -> on_page t' n q <-> on_page t n q.
Proof. intros (A & B & C & D & E & F & G); unfold on_page; now rewrite F. Qed.

(** The entries that remain when a block is taken out of the table. *)
Lemma table_without (t : T) p h :
  tab_ok t -> hash_of (tab_entries t) p h -> In (mkEntry h p) (tab_entries t) ->
  tab_ok (snd (tab_remove t p h)) /\
  forall e, In e (tab_entries (snd (tab_remove t p h))) <-> In e (tab_entries t) /\ e_ptr e <> p.
Proof.
  intros W Ho I; destruct (tab_remove_ok t p h W Ho) as (t' & -> & W' & P); cbn [snd]; split; [exact W'|].
  assert (Hs : has (tab_entries t) p = true) by (apply has_iff, in_map_iff; eexists; split; [|exact I]; reflexivity).
  rewrite Hs in P; assert (N := tab_nodup t W); rewrite <- P in N; cbn [map e_ptr] in N; apply NoDup_cons_iff in N as [N _].
  intros e; split.
  - intros X; split; [apply (Permutation_in _ P); now right|intros Y; apply N; rewrite <- Y; now apply in_map].
  - intros [X Y]; apply (Permutation_in _ (Permutation_sym P)) in X as [<-|X]; [now destruct Y|exact X].
Qed.

(** Enough rounds for the list of every page. *)
Lemma length_page_list live PL c q : pages_ok live PL c -> inU 20 q -> (length (PL q) < ring_fuel live)%nat.
Proof.
  intros [B P N D M] Hq; assert (X : incl (PL q) (list_prod live [0; 1])).
  { intros [tb n] I; apply M in I as (L & [Y|Y] & _); auto; cbn in L, Y; subst; apply in_prod; auto with datatypes. }
  apply NoDup_incl_length in X; [|now apply D]; pose proof (length_prod live [0; 1]) as Lp; cbn [length] in Lp.
  unfold ring_fuel, jump in *; lia.
Qed.

(** The two pages of a block. *)
Lemma block_first t : block_wf t -> inU 20 (sel2 (page_addr t) 0 / 4096) /\ on_page t 0 (sel2 (page_addr t) 0 / 4096) /\
  (sel2 (page_addr t) 0 =? no_page) = false.
Proof.
  intros W; assert (O : on_page t 0 (sel2 (page_addr t) 0 / 4096)) by now left.
  destruct (block_pages t 0 (sel2 (page_addr t) 0 / 4096) W) as [A _]; [now left|exact O|]; splits; auto.
  apply Z.eqb_neq; destruct W as [P S E B _]; rewrite B; pose proof (Z.mod_pos_bound (tb_pc t) 4096).
  change no_page with 4294967295; intros X; assert (Y : (tb_pc t - tb_pc t mod 4096) mod 4096 = 0) by
    (rewrite Zminus_mod_idemp_r, Z.sub_diag; reflexivity).
  rewrite X in Y; discriminate.
Qed.

Lemma block_second t : block_wf t -> sel2 (page_addr t) 1 <> no_page ->
  inU 20 (sel2 (page_addr t) 1 / 4096) /\ on_page t 1 (sel2 (page_addr t) 1 / 4096).
Proof.
  intros W N; assert (O : on_page t 1 (sel2 (page_addr t) 1 / 4096)) by (right; now splits).
  destruct (block_pages t 1 (sel2 (page_addr t) 1 / 4096) W) as [A _]; [now right|exact O|]; now split.
Qed.

Lemma frame_trans c1 c2 c3 : page_frame c1 c2 -> page_frame c2 c3 -> page_frame c1 c3.
Proof.
  intros ([H1 F1] & B1 & T1 & C1 & P1) ([H2 F2] & B2 & T2 & C2 & P2); unfold page_frame; splits; try congruence.
  - split; [congruence|]; intros a; specialize (F1 a); specialize (F2 a); cbv zeta in *.
    destruct F1 as (? & ? & ? & ? & ?), F2 as (? & ? & ? & ? & ?); splits; congruence.
  - intros a; eapply same_block_trans; eauto.
  - intros q Hq; rewrite P2, P1 by assumption; reflexivity.
Qed.

Lemma frame_refl c : page_frame c c.
Proof. unfold page_frame; splits; try reflexivity; [now intros|intros; apply same_block_refl]. Qed.

(** Both lists of the block are left. *)
Lemma leave_pages fuel live PL c c0 tb :
  pages_ok live PL c -> In tb live -> (ring_fuel live <= fuel)%nat -> store c0 = store c -> l1_map c0 = l1_map c ->
  exists c1 c2,
    (if negb (sel2 (page_addr (tb_of c0 tb)) 0 =? no_page)
     then remove_from_page fuel c0 (sel2 (page_addr (tb_of c0 tb)) 0) tb else Some c0) = Some c1 /\
    (if negb (sel2 (page_addr (tb_of c1 tb)) 1 =? no_page) && negb (sel2 (page_addr (tb_of c1 tb)) 1 =? no_page)
     then remove_from_page fuel c1 (sel2 (page_addr (tb_of c1 tb)) 1) tb else Some c1) = Some c2 /\
    page_lists (without tb PL) c2 /\ page_frame c0 c2.
Proof.
  intros ok L Fu Es El; destruct (po_block _ _ _ ok tb L) as [Pt W].
  assert (Et : forall a, tb_of c0 a = tb_of c a) by (intros; unfold tb_of; now rewrite Es).
  assert (Pl0 : page_lists PL c0).
  { apply (page_lists_reads PL c); [| |now apply (pages_lists live)]; [|now rewrite El].
    intros [q|a n] _; cbn [read_page]; rewrite ?El, ?Et; reflexivity. }
  assert (One : forall q m n, inU 20 q -> In (tb, m) (PL q) -> In (tb, n) (PL q) -> m = n).
  { intros q m n Hq I I'; apply (po_mem _ _ _ ok) in I as (_ & Nm & O), I' as (_ & Nn & O'); auto; cbn [fst snd] in *.
    destruct (block_pages _ _ _ W Nm O), (block_pages _ _ _ W Nn O'); lia. }
  destruct (block_first _ W) as (H0 & O0 & N0); rewrite Et, N0; cbn [negb].
  assert (I0 : In (tb, 0) (PL (sel2 (page_addr (tb_of c tb)) 0 / 4096))).
  { apply (po_mem _ _ _ ok); auto; splits; auto; now left. }
  destruct (remove_from_page_ok fuel PL c0 (sel2 (page_addr (tb_of c tb)) 0) tb 0) as (c1 & -> & P1 & F1); auto.
  { intros m I; now apply (One _ m 0 H0). }
  { pose proof (length_page_list live PL c _ ok H0); lia. }
  exists c1; assert (B1 : page_addr (tb_of c1 tb) = page_addr (tb_of c tb)) by (rewrite <- Et; apply F1).
  rewrite B1; destruct (Z.eqb_spec (sel2 (page_addr (tb_of c tb)) 1) no_page) as [E1|N1]; cbn [negb andb].
  - exists c1; splits; auto; apply (page_lists_ext (drop (tb, 0) PL)); auto; intros q Hq.
    rewrite <- (drop_both tb PL q); [|intros j I; apply (po_mem _ _ _ ok) in I; auto; apply I].
    apply notin_remove; intros I; apply in_remove in I as [I _].
    apply (po_mem _ _ _ ok) in I as (_ & _ & [[X _]|(_ & X & _)]); auto; cbn in X; discriminate.
  - destruct (block_second _ W N1) as [H1 O1].
    assert (I1 : In (tb, 1) (PL (sel2 (page_addr (tb_of c tb)) 1 / 4096))).
    { apply (po_mem _ _ _ ok); auto; splits; auto; now right. }
    destruct (remove_from_page_ok fuel (drop (tb, 0) PL) c1 (sel2 (page_addr (tb_of c tb)) 1) tb 1) as (c2 & -> & P2 & F2); auto.
    { unfold drop; apply in_in_remove; [congruence|exact I1]. }
    { intros m I; apply in_remove in I as [I _]; now apply (One _ m 1 H1). }
    { unfold drop; pose proof (length_page_list live PL c _ ok H1); pose proof (remove_length_le jump_eq_dec (PL (sel2 (page_addr (tb_of c tb)) 1 / 4096)) (tb, 0)); lia. }
    exists c2; splits; auto; [|eapply frame_trans; eauto].
    apply (page_lists_ext (drop (tb, 1) (drop (tb, 0) PL))); auto; intros q Hq; symmetry; apply drop_both.
    intros j I; apply (po_mem _ _ _ ok) in I; auto; apply I.
Qed.

(** ** Invalidating a block *)

#[local] Opaque tb_hash_func tb_jmp_cache_hash_func.

Lemma same_fields_block st st' a : same_fields st st' -> same_block (tb_at st a) (tb_at st' a).
Proof. intros F; specialize (F a); cbv zeta in F; unfold same_block; tauto. Qed.

Lemma pages_from_lists live PL c c' tb :
  pages_ok live PL c -> (forall a, same_block (tb_of c a) (tb_of c' a)) -> page_lists (without tb PL) c' ->
  pages_ok (others tb live) (without tb PL) c'.
Proof.
  intros ok B [G P N D _]; constructor; auto.
  - intros a L; apply in_others in L as [L _]; destruct (po_block _ _ _ ok a L); split; [assumption|].
    eapply block_wf_same; [apply B|assumption].
  - intros q j Hq; rewrite in_without, in_others, (po_mem _ _ _ ok q j Hq), (on_page_same _ _ _ _ (B (fst j))); tauto.
Qed.

Lemma flushed_ok caches h tb cache i :
  In cache (flush_caches caches h tb) -> cache i <> 0 ->
  exists cache0, In cache0 caches /\ cache i = cache0 i /\ (i = h -> cache i <> tb).
Proof.
  unfold flush_caches; rewrite in_map_iff; intros (c0 & <- & I) N; exists c0; split; [exact I|].
  destruct (Z.eqb_spec (c0 h) tb) as [E|E].
  - unfold set_fun in *; destruct (Z.eqb_spec i h) as [->|X]; [now destruct N|]; split; [reflexivity|now intros].
  - split; [reflexivity|now intros ->].
Qed.

(** ** Fewer blocks *)

(** The lists without the blocks that do not stay. *)
Definition kept (keep : Z -> bool) (L : Z -> list jump) : Z -> list jump := fun x => filter (fun j => keep (fst j)) (L x).

(** Of the blocks in use exactly those with [keep] remain: in the hash table, in
    the lists of the pages and among the sources and the targets of the linked
    jumps, in the order they had, and where they were in the caches of the CPUs.
    A place of a cache that held a block that goes is empty. *)
Record reduced (base : Z) (live : list Z) (J PL : Z -> list jump) (c : tb_context T) (keep : Z -> bool)
    (c' : tb_context T) : Prop := {
  rd_ok : ctx_ok base (filter keep live) (kept keep J) (kept keep PL) c';
  rd_block : forall a, same_block (tb_of c a) (tb_of c' a);
  rd_cache : Forall2 (fun cache cache' => forall i, cache' i = if keep (cache i) then cache i else 0)
               (jmp_caches c) (jmp_caches c')
}.

Lemma ctx_ext base live J PL J' PL' c :
  (forall X, In X live -> J' X = J X) -> (forall q, inU 20 q -> PL' q = PL q) ->
  ctx_ok base live J PL c -> ctx_ok base live J' PL' c.
Proof.
  intros EJ EP [[Lo Co] [Pb Pp Pn Pd Pm] Tb En Ca Fl]; constructor; auto.
  - split; [now apply (lists_ext live J)|]; apply (code_ext base live live J); auto; intros X j L; rewrite EJ by assumption; tauto.
  - constructor; auto; intros q; intros; rewrite EP in * by assumption; auto.
  - intros q p Hq; rewrite EP by assumption; now apply Fl.
Qed.

(** Only what [keep] says of the blocks in use counts. *)
Lemma reduced_ext base live J PL c keep keep' c' :
  ctx_ok base live J PL c -> (forall a, In a live -> keep' a = keep a) ->
  reduced base live J PL c keep c' -> reduced base live J PL c keep' c'.
Proof.
  intros [[Lo _] Pg _ _ Ca _] E [ok B Fc]; split; [|exact B|].
  - rewrite (filter_ext_in keep' keep live E).
    apply (ctx_ext base _ (kept keep J) (kept keep PL)); [| |exact ok]; intros x Hx; apply filter_ext_in; intros j I; apply E.
    + apply filter_In in Hx as [Lx _]; now apply (lo_member _ _ _ Lo x).
    + now apply (po_mem _ _ _ Pg) in I.
  - assert (Cs : forall cache, In cache (jmp_caches c) -> forall i, cache i <> 0 -> In (cache i) live) by (intros; now apply (Ca cache i)).
    clear - E Fc Cs; induction Fc as [|cache cache' l l' X F IH]; constructor; [|apply IH; intros; apply Cs; [now right|assumption]].
    intros i; rewrite X; destruct (Z.eq_dec (cache i) 0) as [Z0|N]; [rewrite Z0; destruct (keep 0), (keep' 0); reflexivity|].
    now rewrite E by (apply Cs; [now left|exact N]).
Qed.

Lemma reduced_refl base live J PL c : ctx_ok base live J PL c -> reduced base live J PL c (fun _ => true) c.
Proof.
  intros ok; assert (E : forall A (l : list A), filter (fun _ => true) l = l) by (intros A l; induction l as [|x l IH]; cbn; congruence).
  split; [|intros; apply same_block_refl|].
  - rewrite E; apply (ctx_ext base live J PL); [| |exact ok]; intros; apply E.
  - induction (jmp_caches c); constructor; auto.
Qed.

Lemma reduced_trans base live J PL c k1 c1 k2 c2 :
  reduced base live J PL c k1 c1 -> reduced base (filter k1 live) (kept k1 J) (kept k1 PL) c1 k2 c2 ->
  reduced base live J PL c (fun a => k1 a && k2 a) c2.
Proof.
  assert (E : forall A (f g : A -> bool) l, filter g (filter f l) = filter (fun a => f a && g a) l).
  { intros A f g l; induction l as [|x l IH]; cbn [filter]; [reflexivity|].
    destruct (f x); cbn [filter andb]; [destruct (g x); congruence|exact IH]. }
  intros [_ B1 F1] [ok B2 F2]; split.
  - rewrite E in ok; apply (ctx_ext base _ (kept k2 (kept k1 J)) (kept k2 (kept k1 PL))); [| |exact ok];
      intros; unfold kept; now rewrite E.
  - intros a; eapply same_block_trans; eauto.
  - revert F2; generalize (jmp_caches c2); clear - F1; induction F1 as [|x y l l' X F IH]; intros l2 F2; inversion F2; subst; constructor; auto.
    intros i; match goal with H : forall i, _ = if k2 (y i) then _ else _ |- _ => rewrite H, X end.
    destruct (k1 (x i)); cbn [andb]; [reflexivity|now destruct (k2 0)].
Qed.

Lemma flushed_kept caches h tb :
  (forall cache i, In cache caches -> cache i = 0 \/ (cache i = tb -> i = h)) ->
  Forall2 (fun cache cache' : Z -> Z => forall i, cache' i = if negb (cache i =? tb) then cache i else 0)
    caches (flush_caches caches h tb).
Proof.
  unfold flush_caches; induction caches as [|cache l IH]; intros X; cbn [map]; constructor; [|apply IH; intros; apply X; now right].
  intros i; assert (Y := X cache i (or_introl eq_refl)); unfold set_fun.
  destruct (Z.eqb_spec (cache h) tb), (Z.eqb_spec (cache i) tb) as [Ei|Ei], (Z.eqb_spec i h) as [->|]; cbn [negb]; auto;
    destruct Y as [Y|Y]; auto; try congruence; exfalso; auto.
Qed.

Lemma invalidate_ok fuel base live J PL c tb :
  ctx_ok base live J PL c -> In tb live -> (ring_fuel live <= fuel)%nat ->
  exists c', tb_phys_invalidate fuel c tb no_page = Some c' /\
    reduced base live J PL c (fun a => negb (a =? tb)) c'.
Proof.
  intros [Ch Pg Tb En Ca Fl] L Fu; unfold tb_phys_invalidate; cbv zeta.
  fold (tb_hash (tb_of c tb)); set (c0 := set_htable c _).
  assert (Ho : hash_of (tab_entries (htable c)) tb (tb_hash (tb_of c tb))).
  { intros [h' p'] I <-; now apply En in I as [_ ->]. }
  destruct (table_without (htable c) tb (tb_hash (tb_of c tb)) Tb Ho) as [Tb' En']; [now apply En|].
  destruct (leave_pages fuel live PL c c0 tb Pg L Fu eq_refl eq_refl) as (c1 & c2 & -> & -> & Pl & Fr).
  destruct Fr as (Sc & Sb & Et & Ec & Fp).
  destruct (unchain_ok fuel base live J (store c2) tb Fu (chain_same _ _ _ _ _ Sc Ch) L) as (s & Es & Ch' & Sf).
  cbn [store]; rewrite Es.
  set (c' := mkCtx s (l1_map c2) (htable c2)
    (flush_caches (jmp_caches c2) (tb_jmp_cache_hash_func (tb_pc (tb_of c2 tb))) tb) (invalidate_count c2 + 1) (mprotects c2)).
  exists c'; split; [reflexivity|].
  assert (B : forall a, same_block (tb_of c a) (tb_of c' a)).
  { intros a; apply (same_block_trans _ (tb_of c2 a)); [exact (Sb a)|exact (same_fields_block _ _ a Sf)]. }
  assert (Eh : tb_pc (tb_of c2 tb) = tb_pc (tb_of c tb)) by (destruct (Sb tb) as (-> & _); reflexivity).
  split; [change (ctx_ok base (others tb live) (without tb J) (without tb PL) c'); constructor|exact B|].
  - exact Ch'.
  - apply (pages_from_lists live PL c); auto.
    apply (page_lists_reads _ c2); auto; [|intros; reflexivity].
    intros [q|a n] _; cbn; [reflexivity|]; unfold tb_of; cbn; specialize (Sf a); cbv zeta in Sf.
    destruct Sf as (_ & _ & _ & _ & _ & -> & _); reflexivity.
  - cbn [htable c']; rewrite Et; exact Tb'.
  - intros p h; cbn [htable c']; rewrite Et; cbn [htable c0 set_htable]; rewrite En', in_others, En; cbn [e_ptr].
    rewrite (tb_hash_same _ _ (B p)); tauto.
  - intros cache i I N; cbn [jmp_caches c'] in I; rewrite Ec in I; destruct (flushed_ok _ _ _ _ _ I N) as (cache0 & I0 & E & X).
    change (jmp_caches c0) with (jmp_caches c) in I0.
    destruct (Ca cache0 i I0) as [A A']; [congruence|]; rewrite E.
    destruct (B (cache0 i)) as (Ep & _); rewrite Ep; split; [|exact A'].
    apply in_others; split; [exact A|]; intros Y; apply X; [|congruence].
    rewrite Eh, <- Y; now symmetry.
  - intros q p Hq F N; assert (Fq := Fp q Hq); cbn [l1_map c'] in F; rewrite F in Fq; cbn [option_map] in Fq.
    change (l1_map c0) with (l1_map c) in Fq; destruct (page_find (l1_map c) q) as [p0|] eqn:F0; [|discriminate].
    injection Fq as ->; apply (Fl q p0 Hq F0); intros X; apply N; unfold without; now rewrite X.
  - cbn [jmp_caches c']; rewrite Ec, Eh; change (jmp_caches c0) with (jmp_caches c).
    apply flushed_kept; intros cache i I; destruct (Z.eq_dec (cache i) 0) as [E0|N0]; [now left|right].
    destruct (Ca cache i I N0) as [_ X]; intros Y; rewrite Y in X; now symmetry.
Qed.

(** ** The loop along a page *)

(** The test of the loop. *)
Definition hit (t : TranslationBlock) (n start stop : Z) : bool :=
  let (tb_start, tb_end) := tb_range t n in negb ((tb_end <=? start) || (stop <=? tb_start)).

(** The block has code in the range. *)
Definition meets (t : TranslationBlock) (start stop : Z) : Prop := tb_pc t < stop /\ start < tb_pc t + tb_size t.

Lemma hit_same t t' n start stop : same_block t t' -> hit t' n start stop = hit t n start stop.
Proof. intros (A & B & C & D & E & F & G); unfold hit, tb_range; now rewrite A, D, F. Qed.

Lemma meets_same t t' start stop : same_block t t' -> meets t' start stop <-> meets t start stop.
Proof. intros (A & B & C & D & E & F & G); unfold meets; now rewrite A, D. Qed.

(** In the page of [start] the test is exact, also for the second part of a block. *)
Lemma hit_meets t n start stop :
  block_wf t -> is_n n -> on_page t n (start / 4096) -> start < stop -> 0 <= start ->
  hit t n start stop = true <-> meets t start stop.
Proof.
  intros W Nn O S P; destruct (block_pages _ _ _ W Nn O) as [Hq Eq]; destruct W as [Wp Ws We W0 W1].
  pose proof (Z.mod_pos_bound (tb_pc t) 4096); pose proof (Z.div_mod (tb_pc t) 4096); pose proof (Z.div_mod start 4096).
  pose proof (Z.mod_pos_bound start 4096); unfold hit, meets, tb_range; rewrite !page_offset.
  destruct O as [[-> _]|(-> & O & _)]; cbn [Z.eqb].
  - rewrite W0; replace (tb_pc t - tb_pc t mod 4096 + tb_pc t mod 4096) with (tb_pc t) by lia.
    rewrite (wrap_id 32 (tb_pc t)), (wrap_id 32 (tb_pc t + tb_size t)) by (unfold inU; lia).
    rewrite negb_true_iff, orb_false_iff, !Z.leb_gt; tauto.
  - rewrite W1 in *; destruct (Z.leb_spec (tb_pc t mod 4096 + tb_size t) 4096); [congruence|].
    rewrite (wrap_id 32 (tb_pc t + tb_size t)) by (unfold inU; lia).
    assert (E : (tb_pc t + tb_size t) mod 4096 = tb_pc t mod 4096 + tb_size t - 4096).
    { symmetry; apply (Z.mod_unique _ _ (tb_pc t / 4096 + 1)); lia. }
    rewrite E; replace (tb_pc t - tb_pc t mod 4096 + 4096 + (tb_pc t mod 4096 + tb_size t - 4096)) with (tb_pc t + tb_size t) by lia.
    rewrite (wrap_id 32 (tb_pc t + tb_size t)) by (unfold inU; lia).
    rewrite negb_true_iff, orb_false_iff, !Z.leb_gt; lia.
Qed.

Lemma others_fuel tb live : (ring_fuel (others tb live) <= ring_fuel live)%nat.
Proof. unfold ring_fuel, others; pose proof (filter_length_le (fun a => negb (a =? tb)) live); lia. Qed.

Lemma without_absent tb (l : list jump) : (forall j, In j l -> fst j <> tb) -> filter (fun j => negb (fst j =? tb)) l = l.
Proof.
  induction l as [|j l IH]; intros X; [reflexivity|]; cbn [filter].
  rewrite (proj2 (Z.eqb_neq (fst j) tb)) by (apply X; now left); cbn [negb].
  unfold jump in *; rewrite IH; [reflexivity|]; intros; apply X; now right.
Qed.

(** A block is once in the list of a page. *)
Lemma page_once live PL c q tb m n :
  pages_ok live PL c -> inU 20 q -> In (tb, m) (PL q) -> In (tb, n) (PL q) -> m = n.
Proof.
  intros ok Hq I I'; apply (po_mem _ _ _ ok) in I as (L & Nm & O), I' as (_ & Nn & O'); auto; cbn [fst snd] in *.
  destruct (po_block _ _ _ ok tb L) as [_ W]; destruct (block_pages _ _ _ W Nm O), (block_pages _ _ _ W Nn O'); lia.
Qed.

(** The rest of the list stays as it is when the block before it goes. *)
Lemma rest_stays live PL c q pre tb n rest :
  pages_ok live PL c -> inU 20 q -> PL q = pre ++ (tb, n) :: rest -> exists pre', without tb PL q = pre' ++ rest.
Proof.
  intros ok Hq E; exists (filter (fun j => negb (fst j =? tb)) pre).
  unfold without; rewrite E, filter_app; cbn [filter fst]; rewrite Z.eqb_refl; cbn [negb]; f_equal.
  apply without_absent; intros [a m] I X; cbn in X; subst a.
  assert (m = n) as ->.
  { eapply (page_once live PL c q tb); eauto; rewrite E; apply in_or_app; right; [now right|now left]. }
  assert (N := po_nodup _ _ _ ok q Hq); rewrite E in N; apply NoDup_remove_2 in N; apply N, in_or_app; now right.
Qed.

(** The head of the rest of the list: its parts, and the link behind it. *)
Lemma list_step live PL c q pre tb n rest :
  pages_ok live PL c -> inU 20 q -> PL q = pre ++ (tb, n) :: rest ->
  In tb live /\ is_n n /\ on_page (tb_of c tb) n q /\ link_tb (tb .| n) = tb /\ link_n (tb .| n) = n /\ tb .| n <> 0 /\
  sel2 (page_next (tb_of c tb)) n = head_link rest.
Proof.
  intros ok Hq E; assert (I : In (tb, n) (PL q)) by (rewrite E; apply in_or_app; right; now left).
  assert (X := I); apply (po_mem _ _ _ ok) in X as (L & Nn & O); auto; cbn [fst snd] in *.
  destruct (po_block _ _ _ ok tb L) as [P _], (is_n_range n Nn), (link_parts tb n P) as (A & B & C); [assumption|].
  splits; auto; assert (Fq : page_find (l1_map c) q <> None).
  { intros F; apply (po_none _ _ _ ok) in F; auto; rewrite F in E; now destruct pre. }
  assert (Q := po_path _ _ _ ok q Hq Fq); rewrite E in Q; apply page_path_suffix in Q; now apply page_path_head in Q.
Qed.

Lemma invalidate_step fuel ring c tb n start stop :
  link_tb (tb .| n) = tb -> link_n (tb .| n) = n -> tb .| n <> 0 ->
  invalidate_list (S fuel) ring c (tb .| n) start stop =
  let? x := (if hit (tb_of c tb) n start stop then tb_phys_invalidate ring c tb no_page else Some c) in
  invalidate_list fuel ring x (sel2 (page_next (tb_of c tb)) n) start stop.
Proof.
  intros Lt Ln Lz; unfold hit; unfold invalidate_list at 1; fold (@invalidate_list T H).
  rewrite (proj2 (Z.eqb_neq _ _) Lz), Lt, Ln; cbv zeta; destruct (tb_range (tb_of c tb) n); reflexivity.
Qed.

(** The blocks of the list that the loop leaves. *)
Definition missed (c : tb_context T) (l : list jump) (start stop a : Z) : bool :=
  negb (existsb (fun j => (fst j =? a) && hit (tb_of c (fst j)) (snd j) start stop) l).

Lemma missed_cons c tb n l start stop a :
  missed c ((tb, n) :: l) start stop a = negb ((tb =? a) && hit (tb_of c tb) n start stop) && missed c l start stop a.
Proof. apply negb_orb. Qed.

Lemma missed_same c c' l start stop a :
  (forall x, same_block (tb_of c x) (tb_of c' x)) -> missed c' l start stop a = missed c l start stop a.
Proof.
  intros B; unfold missed; f_equal; induction l as [|j l IH]; cbn [existsb]; [reflexivity|].
  now rewrite IH, (hit_same _ _ _ _ _ (B (fst j))).
Qed.

Lemma invalidate_list_ok base q ring start stop rest : forall fuel live J PL c pre,
  ctx_ok base live J PL c -> inU 20 q -> PL q = pre ++ rest -> (length rest < fuel)%nat -> (ring_fuel live <= ring)%nat ->
  exists c', invalidate_list fuel ring c (head_link rest) start stop = Some c' /\
    reduced base live J PL c (missed c rest start stop) c'.
Proof.
  induction rest as [|[tb n] rest IH]; intros [|fuel] live J PL c pre ok Hq E Fu Ri; cbn [length] in Fu; try lia.
  - exists c; split; [reflexivity|]; now apply reduced_refl.
  - assert (Pg := cx_pages _ _ _ _ _ ok).
    assert (X := list_step live PL c q pre tb n rest Pg Hq E).
    destruct X as (L & Nn & O & Lt & Ln & Lz & Nx).
    change (head_link ((tb, n) :: rest)) with (tb .| n); rewrite (invalidate_step fuel ring c tb n start stop Lt Ln Lz), Nx.
    destruct (hit (tb_of c tb) n start stop) eqn:Hh.
    + destruct (invalidate_ok ring base live J PL c tb ok L Ri) as (c1 & -> & Rd1).
      destruct (rest_stays live PL c q pre tb n rest (cx_pages _ _ _ _ _ ok) Hq E) as (pre' & E').
      destruct (IH fuel _ _ _ c1 pre' (rd_ok _ _ _ _ _ _ _ Rd1) Hq E') as (c' & R & Rd'); [lia|pose proof (others_fuel tb live); unfold others in *; lia|].
      exists c'; split; [exact R|]; apply (reduced_ext base live J PL c _ _ _ ok) with (2 := reduced_trans _ _ _ _ _ _ _ _ _ Rd1 Rd').
      intros a _; rewrite missed_cons, Hh, andb_true_r, (missed_same c c1) by apply Rd1; now rewrite (Z.eqb_sym tb a).
    + destruct (IH fuel live J PL c (pre ++ [(tb, n)]) ok Hq) as (c' & R & Rd'); [now rewrite <- app_assoc|lia|lia|].
      exists c'; split; [exact R|]; apply (reduced_ext base live J PL c _ _ _ ok) with (2 := Rd').
      intros a _; now rewrite missed_cons, Hh, andb_false_r.
Qed.

(** ** Ranges *)

(** The block has code in the range. *)
Definition meets_b (t : TranslationBlock) (start stop : Z) : bool := (tb_pc t <? stop) && (start <? tb_pc t + tb_size t).

Lemma meets_iff t start stop : meets_b t start stop = true <-> meets t start stop.
Proof. unfold meets_b, meets; rewrite andb_true_iff, !Z.ltb_lt; tauto. Qed.

(** It lies in page [q]. *)
Definition in_page (t : TranslationBlock) (q : Z) : bool :=
  (sel2 (page_addr t) 0 / 4096 =? q) || (negb (sel2 (page_addr t) 1 =? no_page) && (sel2 (page_addr t) 1 / 4096 =? q)).

Lemma in_page_iff t q : in_page t q = true <-> exists n, is_n n /\ on_page t n q.
Proof.
  unfold in_page, on_page, is_n; rewrite orb_true_iff, andb_true_iff, negb_true_iff, Z.eqb_neq, !Z.eqb_eq; split.
  - intros [E|[E F]]; [exists 0|exists 1]; auto 6.
  - intros (n & _ & [[_ E]|(_ & E & F)]); auto.
Qed.

Lemma page_range_ok base live J PL c start stop fuel :
  ctx_ok base live J PL c -> 0 <= start < stop -> stop <= 2 ^ 32 -> (ring_fuel live <= fuel)%nat ->
  exists c', tb_invalidate_phys_page_range fuel c start stop = Some c' /\
    reduced base live J PL c (fun a => negb (in_page (tb_of c a) (start / 4096) && meets_b (tb_of c a) start stop)) c'.
Proof.
  intros ok S S' Fu; unfold tb_invalidate_phys_page_range; rewrite page_index.
  assert (Hq : inU 20 (start / 4096)).
  { unfold inU; split; [apply Z.div_pos|apply Z.div_lt_upper_bound]; lia. }
  assert (Pg := cx_pages _ _ _ _ _ ok).
  assert (Mem : forall a, In a live -> negb (in_page (tb_of c a) (start / 4096) && meets_b (tb_of c a) start stop) =
                                   missed c (PL (start / 4096)) start stop a).
  { intros a L; destruct (po_block _ _ _ Pg a L) as [_ W]; unfold missed; f_equal; apply eq_true_iff_eq.
    rewrite andb_true_iff, in_page_iff, meets_iff, existsb_exists; split.
    - intros ((n & Nn & O) & X); exists (a, n); cbn [fst snd]; rewrite Z.eqb_refl; split; [now apply (po_mem _ _ _ Pg)|].
      apply hit_meets; auto; lia.
    - intros ([b n] & I & X); apply andb_true_iff in X as [X Y]; apply Z.eqb_eq in X; cbn [fst snd] in *; subst b.
      apply (po_mem _ _ _ Pg) in I as (_ & Nn & O); auto; cbn [fst snd] in *; apply hit_meets in Y; auto; try lia; eauto. }
  destruct (page_find (l1_map c) (start / 4096)) as [p|] eqn:F.
  - assert (Q : page_path c (PHead (start / 4096)) (PL (start / 4096))) by (apply Pg; [exact Hq|congruence]).
    apply page_path_head in Q; cbn [read_page] in Q; rewrite F in Q; rewrite Q.
    assert (X := length_page_list live PL c _ Pg Hq).
    destruct (invalidate_list_ok base (start / 4096) fuel start stop (PL (start / 4096)) fuel live J PL c [] ok Hq eq_refl)
      as (c' & R & Rd); [lia|lia|].
    exists c'; split; [exact R|]; exact (reduced_ext _ _ _ _ _ _ _ _ ok Mem Rd).
  - exists c; split; [reflexivity|]; apply (reduced_ext _ _ _ _ _ _ _ _ ok) with (2 := reduced_refl _ _ _ _ _ ok).
    intros a L; rewrite Mem by exact L; now rewrite (po_none _ _ _ Pg _ Hq F).
Qed.

(** Code that meets the range lies in its first page or meets the rest of it. *)
Lemma meets_split t start stop :
  block_wf t -> 0 <= start < stop ->
  meets t start stop <->
  ((exists n, is_n n /\ on_page t n (start / 4096)) /\ meets t start stop) \/
  (page_of start + 4096 < stop /\ meets t (page_of start + 4096) stop).
Proof.
  intros [Wp Ws We W0 W1] S; pose proof (Z.mod_pos_bound start 4096); split; [|unfold meets, page_of; intros [[_ X]|X]; lia].
  intros M; set (next := page_of start + 4096).
  assert (C : (next < stop /\ next < tb_pc t + tb_size t) \/ stop <= next \/ tb_pc t + tb_size t <= next) by lia.
  destruct C as [C|C]; [right; unfold meets in *; fold next; lia|left].
  split; [|exact M]; unfold meets in M; pose proof (Z.mod_pos_bound (tb_pc t) 4096).
  pose proof (Z.div_mod start 4096); pose proof (Z.div_mod (tb_pc t) 4096); unfold on_page; rewrite W0, W1.
  destruct (Z.lt_ge_cases (tb_pc t) (start - start mod 4096)) as [G|G].
  - destruct (Z.leb_spec (tb_pc t mod 4096 + tb_size t) 4096); [unfold next, page_of in C; lia|].
    exists 1; split; [now right|right; splits; [reflexivity| |]].
    + apply next_page_real.
    + symmetry; apply Z.div_unique with 0; lia.
  - exists 0; split; [now left|left; split; [reflexivity|]]; symmetry; apply Z.div_unique with 0; unfold next, page_of in C; lia.
Qed.

(** ** The range *)

(** The blocks without code in the range. *)
Definition outside (c : tb_context T) (start stop a : Z) : bool := negb ((start <? stop) && meets_b (tb_of c a) start stop).

Lemma outside_split c start stop a :
  block_wf (tb_of c a) -> 0 <= start < stop ->
  outside c start stop a =
  negb (in_page (tb_of c a) (start / 4096) && meets_b (tb_of c a) start stop) && outside c (page_of start + 4096) stop a.
Proof.
  intros W S; unfold outside; rewrite <- negb_orb; f_equal; apply eq_true_iff_eq.
  rewrite orb_true_iff, !andb_true_iff, in_page_iff, !meets_iff, !Z.ltb_lt, <- (meets_split _ _ _ W S); intuition lia.
Qed.

Lemma outside_same c c' start stop a : same_block (tb_of c a) (tb_of c' a) -> outside c' start stop a = outside c start stop a.
Proof. intros (A & _ & _ & D & _); unfold outside, meets_b; now rewrite A, D. Qed.

Lemma filter_fuel keep live : (ring_fuel (filter keep live) <= ring_fuel live)%nat.
Proof. unfold ring_fuel; pose proof (filter_length_le keep live); lia. Qed.

(** Every page of the range takes one round. *)
Lemma range_ok base fuel stop : stop <= 0xfffff000 -> forall rounds live J PL c start,
  ctx_ok base live J PL c -> 0 <= start -> stop - page_of start <= 4096 * Z.of_nat rounds -> (ring_fuel live <= fuel)%nat ->
  exists c', tb_invalidate_phys_range rounds fuel c start stop = Some c' /\
    reduced base live J PL c (outside c start stop) c'.
Proof.
  intros Hs; induction rounds as [|rounds IH]; intros live J PL c start ok P Ro Fu; pose proof (page_of_bound start P) as Pb;
    unfold tb_invalidate_phys_range; fold (@tb_invalidate_phys_range T H); (destruct (Z.ltb_spec start stop) as [L|L]; [try lia|]).
  1, 3: exists c; split; [reflexivity|]; apply (reduced_ext _ _ _ _ _ _ _ _ ok) with (2 := reduced_refl _ _ _ _ _ ok);
      intros a _; unfold outside; now rewrite (proj2 (Z.ltb_ge _ _) L).
  pose proof (Z.mod_pos_bound start 4096) as Mb.
  destruct (page_range_ok base live J PL c start stop fuel ok) as (c1 & -> & Rd1); [lia|lia|exact Fu|].
  rewrite page_mask_mod by (unfold inU; lia); change TARGET_PAGE_SIZE with 4096; fold (page_of start).
  rewrite (wrap_id 32 (page_of start + 4096)) by (unfold inU; lia).
  assert (Pn : page_of (page_of start + 4096) = page_of start + 4096).
  { unfold page_of at 1; rewrite next_page_aligned; apply Z.sub_0_r. }
  destruct (IH _ _ _ c1 (page_of start + 4096) (rd_ok _ _ _ _ _ _ _ Rd1)) as (c' & R & Rd'); [lia|lia| |].
  { eapply Nat.le_trans; [apply filter_fuel|exact Fu]. }
  exists c'; split; [exact R|]; apply (reduced_ext _ _ _ _ _ _ _ _ ok) with (2 := reduced_trans _ _ _ _ _ _ _ _ _ Rd1 Rd').
  intros a I; rewrite (outside_same c c1) by apply Rd1.
  apply outside_split; [|lia]; apply (po_block _ _ _ (cx_pages _ _ _ _ _ ok) a I).
Qed.

(** At the top of the address space [start] wraps around to 0: the loop goes
    through all pages again and again, also when there is no code at all. *)
Lemma invalidate_range_top_loops rounds fuel c start :
  (forall q, page_find (l1_map c) q = None) -> 0 <= start < 0xffffffff ->
  tb_invalidate_phys_range rounds fuel c start 0xffffffff = None.
Proof.
  intros E; revert start; induction rounds as [|rounds IH]; intros start S;
    unfold tb_invalidate_phys_range; fold (@tb_invalidate_phys_range T H);
    rewrite (proj2 (Z.ltb_lt _ _) (proj2 S)); [reflexivity|].
  unfold tb_invalidate_phys_page_range; rewrite E; apply IH.
  rewrite page_mask_mod by (unfold inU; lia); change TARGET_PAGE_SIZE with 4096; fold (page_of start).
  destruct (wrap_range 32 (page_of start + 4096)) as [L U]; [lia|]; split; [exact L|].
  assert (A : u32 (page_of start + 4096) mod 4096 = 0); [|pose proof (Z.div_mod (u32 (page_of start + 4096)) 4096); lia].
  unfold wrap; change (2 ^ 32) with (4096 * 1048576); rewrite Z.rem_mul_r, next_page_aligned by lia.
  now rewrite Z.add_0_l, Z.mul_comm, Z_mod_mult.
Qed.

End Pages.
