(* ===== verification/TbLink.v ===== *)
(** * Publishing a translation block (translate-all.c)

    The end of [tb_gen_code]: the new block gets empty jump lists and goes into
    the hash table and the lists of its pages.  A page that may be written is
    write-protected as soon as code of it has been translated, so that a write
    to it is noticed.  The file ends with what this and the invalidation of
    TbPages.v keep: the invariant of the translation context. *)

From Stdlib Require Import ZArith Lia List Bool Permutation.
From S2P Require Import Prelude Bitops Qht TbChain TbPages.
Import ListNotations.
Local Open Scope Z_scope.
Local Open Scope c_scope.

Section Context.
Context {T : Type} `{HashTable T}.

(** [tb_alloc_page]: the flags of the target pages in a host page, from [addr]
    on; [None] when the end has not been reached. *)
Fixpoint protect_loop (fuel : nat) (l1 : page_map) (addr stop prot : Z) : option (page_map * Z) :=
  if addr <? stop then
    match fuel with
    | O => None
    | S fuel =>
        let next := u32 (addr + TARGET_PAGE_SIZE) in
        match page_find l1 (addr .>> TARGET_PAGE_BITS) with
        | None => protect_loop fuel l1 next stop prot
        | Some p2 =>
            let l1' := page_put l1 (addr .>> TARGET_PAGE_BITS)
                         (mkPage (first_tb p2) (page_flags p2 .& u32 (Z.lnot PAGE_WRITE))) in
            protect_loop fuel l1' next stop (prot .| page_flags p2)
        end
    end
  else Some (l1, prot).

(** [qemu_host_page_size], with [qemu_host_page_mask] its negation. *)
Variable qemu_host_page_size : Z.
Definition qemu_host_page_mask : Z := u32 (- qemu_host_page_size).

Definition protect_page (c : tb_context T) (page_addr : Z) : option (tb_context T) :=
  let page_addr := page_addr .& qemu_host_page_mask in
  let? (l1, prot) := protect_loop (Z.to_nat (qemu_host_page_size / TARGET_PAGE_SIZE)) (l1_map c) page_addr
                       (u32 (page_addr + qemu_host_page_size)) 0 in
  Some (mkCtx (store c) l1 (htable c) (jmp_caches c) (invalidate_count c)
    ((page_addr, qemu_host_page_size, (prot .& PAGE_BITS) .& u32 (Z.lnot PAGE_WRITE)) :: mprotects c)).

Definition tb_alloc_page (c : tb_context T) (tb n page_addr : Z) : option (tb_context T) :=
  let c := set_store c (set_tb (store c) tb (set_page_addr (tb_of c tb) n page_addr)) in
  let index := page_addr .>> TARGET_PAGE_BITS in
  let? l1 := page_find_alloc (l1_map c) index true in
  let c := set_l1 c l1 in
  let c := write_page c (PNext tb n) (read_page c (PHead index)) in
  let c := write_page c (PHead index) (tb .| n) in
  let? p := page_find (l1_map c) index in
  if truthy (page_flags p .& PAGE_WRITE) then protect_page c page_addr else Some c.

(** [busy]: another thread resizes the hash table. *)
Definition tb_link_page (busy : bool) (c : tb_context T) (tb phys_pc phys_page2 : Z) : option (tb_context T) :=
  let h := tb_hash_func phys_pc (tb_pc (tb_of c tb)) (tb_flags (tb_of c tb)) in
  let? (_, ht) := tab_insert busy (htable c) tb h in
  let c := set_htable c ht in
  let? c := tb_alloc_page c tb 0 (phys_pc .& TARGET_PAGE_MASK) in
  if negb (phys_page2 =? no_page) then tb_alloc_page c tb 1 phys_page2
  else Some (set_store c (set_tb (store c) tb (set_page_addr (tb_of c tb) 1 no_page))).

(** [get_page_addr_code]: the guest address itself in user mode. *)
Definition get_page_addr_code (addr : Z) : Z := addr.

(** The end of [tb_gen_code]: the jump lists of the new block and its pages. *)
Definition tb_publish (busy : bool) (c : tb_context T) (tb : Z) : option (tb_context T) :=
  let pc := tb_pc (tb_of c tb) in
  let phys_pc := get_page_addr_code pc in
  let c := set_store c (tb_init_jumps (store c) tb) in
  let virt_page2 := u32 (pc + tb_size (tb_of c tb) - 1) .& TARGET_PAGE_MASK in
  let phys_page2 :=
    if negb (pc .& TARGET_PAGE_MASK =? virt_page2) then get_page_addr_code virt_page2 else no_page in
  tb_link_page busy c tb phys_pc phys_page2.

End Context.

Section Publish.
Context {T : Type} `{HashTable T}.
Implicit Types c : tb_context T.

#[local] Opaque tb_hash_func tb_jmp_cache_hash_func.

(** ** Write protection *)

Definition no_write (p : PageDesc) : PageDesc := mkPage (first_tb p) (page_flags p .& u32 (Z.lnot PAGE_WRITE)).

Lemma no_write_flag p : page_flags (no_write p) .& PAGE_WRITE = 0.
Proof. cbn; rewrite <- Z.land_assoc; change (u32 (Z.lnot PAGE_WRITE) .& PAGE_WRITE) with 0; apply Z.land_0_r. Qed.

Lemma protect_loop_ok stop : stop < 2 ^ 32 -> stop mod 4096 = 0 -> forall fuel l1 addr prot,
  0 <= addr -> addr mod 4096 = 0 -> stop - addr <= 4096 * Z.of_nat fuel ->
  exists l1' prot', protect_loop fuel l1 addr stop prot = Some (l1', prot') /\
    forall q, inU 20 q -> page_find l1' q =
      option_map (fun p => if (addr / 4096 <=? q) && (q <? stop / 4096) then no_write p else p) (page_find l1 q).
Proof.
  intros S Sm; pose proof (Z.div_mod stop 4096); induction fuel as [|fuel IH]; intros l1 addr prot A Am Fu;
    pose proof (Z.div_mod addr 4096); cbn [protect_loop]; (destruct (Z.ltb_spec addr stop) as [L|L]; [try lia|]).
  1, 3: exists l1, prot; split; [reflexivity|]; intros q Hq; destruct (page_find l1 q); cbn [option_map]; [|reflexivity];
      destruct (Z.leb_spec (addr / 4096) q), (Z.ltb_spec q (stop / 4096)); cbn [andb]; try reflexivity; lia.
  cbv zeta; change TARGET_PAGE_SIZE with 4096; rewrite page_index.
  assert (Am' : (addr + 4096) mod 4096 = 0) by (rewrite Z.add_mod, Am by lia; reflexivity).
  assert (Ad : (addr + 4096) / 4096 = addr / 4096 + 1) by (symmetry; apply (Z.div_unique _ _ _ 0); lia).
  rewrite (wrap_id 32 (addr + 4096)) by (unfold inU; lia).
  assert (Hi : inU 20 (addr / 4096)) by (unfold inU; lia).
  destruct (page_find l1 (addr / 4096)) as [p2|] eqn:F.
  - destruct (IH (page_put l1 (addr / 4096) (no_write p2)) (addr + 4096) (prot .| page_flags p2))
      as (l1' & prot' & E & Q); try lia; fold (no_write p2); rewrite E; exists l1', prot'; split; [reflexivity|].
    intros q Hq; rewrite Q, Ad by assumption; destruct (Z.eq_dec q (addr / 4096)) as [->|N].
    + rewrite find_put_eq, F by congruence; cbn [option_map].
      destruct (Z.leb_spec (addr / 4096 + 1) (addr / 4096)); [lia|]; cbn [andb].
      destruct (Z.leb_spec (addr / 4096) (addr / 4096)); [|lia]; destruct (Z.ltb_spec (addr / 4096) (stop / 4096)); [reflexivity|lia].
    + rewrite find_put_ne by assumption.
      replace (addr / 4096 + 1 <=? q) with (addr / 4096 <=? q); [reflexivity|].
      destruct (Z.leb_spec (addr / 4096) q), (Z.leb_spec (addr / 4096 + 1) q); lia.
  - destruct (IH l1 (addr + 4096) prot) as (l1' & prot' & E & Q); try lia; rewrite E; exists l1', prot'; split; [reflexivity|].
    intros q Hq; rewrite Q, Ad by assumption; destruct (page_find l1 q) as [p|] eqn:G; [|reflexivity]; cbn [option_map].
    replace (addr / 4096 + 1 <=? q) with (addr / 4096 <=? q); [reflexivity|].
    assert (q <> addr / 4096) by congruence.
    destruct (Z.leb_spec (addr / 4096) q), (Z.leb_spec (addr / 4096 + 1) q); lia.
Qed.

Section Host.
Variable qemu_host_page_size : Z.
Hypothesis host_size : exists k, 12 <= k <= 20 /\ qemu_host_page_size = 2 ^ k.

Definition write_protected (c : tb_context T) (q : Z) : Prop :=
  forall p, page_find (l1_map c) q = Some p -> page_flags p .& PAGE_WRITE = 0.

Lemma protect_page_ok c addr :
  0 <= addr -> addr + qemu_host_page_size < 2 ^ 32 ->
  exists c', protect_page qemu_host_page_size c addr = Some c' /\ store c' = store c /\ htable c' = htable c /\
    jmp_caches c' = jmp_caches c /\ (forall s, good_page_slot c s -> read_page c' s = read_page c s) /\
    (forall q, inU 20 q -> page_find (l1_map c') q = None <-> page_find (l1_map c) q = None) /\
    (forall q, inU 20 q -> write_protected c q -> write_protected c' q) /\
    write_protected c' (addr / 4096).
Proof.
  intros A S; destruct host_size as (k & Hk & Ek); unfold protect_page, qemu_host_page_mask.
  assert (P : 2 ^ k = 4096 * 2 ^ (k - 12)) by (change 4096 with (2 ^ 12); rewrite <- Z.pow_add_r by lia; f_equal; lia).
  assert (Pp : 0 < 2 ^ (k - 12)) by (apply Z.pow_pos_nonneg; lia).
  rewrite Ek in *; rewrite mask_mod by (unfold inU; lia).
  set (m := addr mod 2 ^ k); assert (Hm : 0 <= m < 2 ^ k) by (apply Z.mod_pos_bound; lia).
  assert (Dm := Z.div_mod addr (2 ^ k)); fold m in Dm.
  set (d := addr / 2 ^ k) in *; assert (0 <= d) by (apply Z.div_pos; lia).
  assert (B : addr - m = 2 ^ (k - 12) * d * 4096) by lia.
  assert (Bm : (addr - m) mod 4096 = 0) by (rewrite B; apply Z_mod_mult).
  assert (Bm' : (addr - m + 2 ^ k) mod 4096 = 0).
  { rewrite B, P; replace (2 ^ (k - 12) * d * 4096 + 4096 * 2 ^ (k - 12)) with (2 ^ (k - 12) * (d + 1) * 4096) by lia.
    apply Z_mod_mult. }
  rewrite (wrap_id 32 (addr - m + 2 ^ k)) by (unfold inU; lia).
  assert (Fu : 2 ^ k / TARGET_PAGE_SIZE = 2 ^ (k - 12)).
  { change TARGET_PAGE_SIZE with 4096; rewrite P, Z.mul_comm; apply Z.div_mul; lia. }
  assert (X := protect_loop_ok (addr - m + 2 ^ k)).
  destruct X with (fuel := Z.to_nat (2 ^ k / TARGET_PAGE_SIZE)) (l1 := l1_map c) (addr := addr - m) (prot := 0)
    as (l1' & prot' & -> & Q); try lia.
  eexists; split; [reflexivity|]; unfold write_protected; cbn [store htable jmp_caches l1_map]; splits; try reflexivity.
  - intros [q|a n]; cbn [good_page_slot read_page l1_map]; [|reflexivity].
    intros [Hq _]; rewrite Q by assumption; destruct (page_find (l1_map c) q); cbn; [|reflexivity]; destruct (_ && _); reflexivity.
  - intros q Hq; rewrite Q by assumption; destruct (page_find (l1_map c) q); cbn; split; congruence.
  - intros q Hq Wp p; rewrite Q by assumption; destruct (page_find (l1_map c) q) as [p0|] eqn:F; cbn; [|discriminate].
    intros E; injection E as <-; destruct (_ && _); [apply no_write_flag|now apply Wp].
  - assert (Hq : inU 20 (addr / 4096)) by (unfold inU; split; [apply Z.div_pos|apply Z.div_lt_upper_bound]; lia).
    intros p; rewrite Q by assumption; destruct (page_find (l1_map c) _) as [p0|]; cbn; [|discriminate].
    intros E; injection E as <-.
    assert (L1 : (addr - m) / 4096 <= addr / 4096) by (apply Z.div_le_mono; lia).
    assert (L2 : addr / 4096 < (addr - m + 2 ^ k) / 4096).
    { pose proof (Z.div_mod addr 4096); pose proof (Z.div_mod (addr - m + 2 ^ k) 4096); pose proof (Z.mod_pos_bound addr 4096); lia. }
    destruct (Z.leb_spec ((addr - m) / 4096) (addr / 4096)), (Z.ltb_spec (addr / 4096) ((addr - m + 2 ^ k) / 4096)); try lia.
    apply no_write_flag.
Qed.

(** ** Putting a block in the list of a page *)

Lemma alloc_lists PL c q l1 :
  page_lists PL c -> inU 20 q -> page_find_alloc (l1_map c) q true = Some l1 ->
  page_lists PL (set_l1 c l1) /\ page_find l1 q <> None /\ (forall q', inU 20 q' -> write_protected c q' -> write_protected (set_l1 c l1) q').
Proof.
  intros [A B C D E] Hq X; splits.
  - constructor; auto.
    + intros q' Hq' F; cbn [l1_map set_l1] in F; destruct (find_alloc_ok _ _ q' _ X Hq Hq') as [_ [S|[N S]]].
      * apply (page_path_move c _ (PHead q')); [|reflexivity|apply B; congruence]; cbn [read_page l1_map set_l1]; now rewrite S.
      * rewrite (C q' Hq' N); cbn [page_path read_page l1_map set_l1]; now rewrite S.
    + intros q' Hq' F; cbn [l1_map set_l1] in F; apply C; auto.
      destruct (find_alloc_ok _ _ q' _ X Hq Hq') as [_ [S|[N S]]]; congruence.
  - now apply (find_alloc_ok _ _ q _ X).
  - intros q' Hq' Wp p; cbn [l1_map set_l1]; destruct (find_alloc_ok _ _ q' _ X Hq Hq') as [_ [S|[N S]]]; rewrite S; [apply Wp|].
    intros Y; injection Y as <-; reflexivity.
Qed.

Definition pushed (c : tb_context T) (q tb n : Z) : tb_context T :=
  write_page (write_page c (PNext tb n) (read_page c (PHead q))) (PHead q) (tb .| n).

Section Push.
Variables (PL : Z -> list jump) (c : tb_context T) (q tb n : Z).
Hypothesis ok : page_lists PL c.
Hypothesis Hq : inU 20 q.
Hypothesis Fq : page_find (l1_map c) q <> None.
Hypothesis Pt : is_tb_ptr tb.
Hypothesis Nn : is_n n.
Hypothesis new : forall q', inU 20 q' -> ~ In (tb, n) (PL q').

Definition half : tb_context T := write_page c (PNext tb n) (read_page c (PHead q)).

Lemma half_l1 : l1_map half = l1_map c.
Proof. reflexivity. Qed.

Lemma half_good s : good_page_slot c s -> good_page_slot half s.
Proof. destruct s; exact (fun x => x). Qed.

Lemma pushed_head : read_page (pushed c q tb n) (PHead q) = tb .| n.
Proof. apply page_read_eq; now split. Qed.

Lemma pushed_next : read_page (pushed c q tb n) (PNext tb n) = read_page c (PHead q).
Proof.
  unfold pushed; rewrite page_read_ne; [|now split|exact Nn|discriminate]; apply page_read_eq; exact Nn.
Qed.

Lemma pushed_read s :
  good_page_slot c s -> s <> PHead q -> s <> PNext tb n -> read_page (pushed c q tb n) s = read_page c s.
Proof.
  intros G N1 N2; unfold pushed; rewrite page_read_ne; auto; [|now split]; now apply page_read_ne.
Qed.

Lemma pushed_frame :
  page_frame half (pushed c q tb n) /\ tb_of (pushed c q tb n) = set_fun (tb_at (store c)) tb (set_page_next (tb_of c tb) n (read_page c (PHead q))) /\
  host_code (store (pushed c q tb n)) = host_code (store c).
Proof.
  split; [apply page_write_frame; now split|]; unfold pushed; cbn [write_page l1_map set_store].
  destruct (page_find (l1_map c) q); [now split|congruence].
Qed.

Lemma pushed_ok : page_lists (upd_fun PL q ((tb, n) :: PL q)) (pushed c q tb n).
Proof.
  assert (Fn := fun q' Hq' => same_flags_none _ _ (proj2 (proj2 (proj2 (proj2 (proj1 pushed_frame)))) q' Hq')).
  rewrite half_l1 in Fn.
  assert (Rj : forall q' j, inU 20 q' -> In j (PL q') -> read_page (pushed c q tb n) (page_jump j) = read_page c (page_jump j)).
  { intros q' j Hq' I; apply pushed_read; [now apply (pl_good _ _ ok q')|discriminate|].
    intros X; apply (page_jump_inj j (tb, n)) in X as ->; now apply (new q'). }
  constructor.
  - intros q' j Hq' I; destruct (Z.eq_dec q' q) as [->|N]; [rewrite upd_fun_eq in I|rewrite upd_fun_ne in I by assumption].
    + destruct I as [<-|I]; [now split|now apply (pl_good _ _ ok q)].
    + now apply (pl_good _ _ ok q').
  - intros q' Hq' F; rewrite Fn in F by assumption; destruct (Z.eq_dec q' q) as [->|N].
    + rewrite upd_fun_eq; split; [exact pushed_head|].
      apply (page_path_move c _ (PHead q)); [exact pushed_next| |now apply ok]; intros j I; now apply (Rj q).
    + rewrite upd_fun_ne by assumption; apply (page_path_move c _ (PHead q')); [|intros j I; now apply (Rj q')|now apply ok].
      apply pushed_read; [now split|congruence|discriminate].
  - intros q' Hq' F; apply Fn in F; [|assumption]; rewrite upd_fun_ne by congruence; now apply ok.
  - intros q' Hq'; destruct (Z.eq_dec q' q) as [->|N]; [rewrite upd_fun_eq|rewrite upd_fun_ne by assumption; now apply ok].
    constructor; [now apply new|now apply ok].
  - intros q1 q2 j H1 H2 I1 I2; unfold upd_fun in I1, I2.
    destruct (Z.eqb_spec q1 q) as [->|N1], (Z.eqb_spec q2 q) as [->|N2]; try reflexivity.
    + destruct I1 as [<-|I1]; [now destruct (new q2 H2)|now apply (pl_apart _ _ ok q q2 j)].
    + destruct I2 as [<-|I2]; [now destruct (new q1 H1)|now apply (pl_apart _ _ ok q1 q j)].
    + now apply (pl_apart _ _ ok q1 q2 j).
Qed.

End Push.

Lemma alloc_page_ok PL c tb n addr :
  let q := addr / 4096 in
  page_lists PL c -> is_tb_ptr tb -> is_n n -> 0 <= addr -> addr + qemu_host_page_size < 2 ^ 32 ->
  (forall q', inU 20 q' -> ~ In (tb, n) (PL q')) ->
  exists c' v, tb_alloc_page qemu_host_page_size c tb n addr = Some c' /\ page_lists (upd_fun PL q ((tb, n) :: PL q)) c' /\
    (forall a, tb_of c' a = set_fun (tb_at (store c)) tb (set_page_next (set_page_addr (tb_of c tb) n addr) n v) a) /\
    host_code (store c') = host_code (store c) /\ htable c' = htable c /\ jmp_caches c' = jmp_caches c /\
    (forall q', inU 20 q' -> write_protected c q' -> write_protected c' q') /\ write_protected c' q.
Proof.
  intros q ok Pt Nn A S New; unfold tb_alloc_page; rewrite page_index; fold q; cbv zeta.
  assert (Hs : 0 < qemu_host_page_size) by (destruct host_size as (k & Hk & ->); apply Z.pow_pos_nonneg; lia).
  assert (Hq : inU 20 q) by (unfold inU, q; split; [apply Z.div_pos|apply Z.div_lt_upper_bound]; lia).
  set (c1 := set_store c _).
  assert (ok1 : page_lists PL c1).
  { apply (page_lists_reads PL c); auto; [|reflexivity]; intros [x|a m] _; [reflexivity|]; unfold c1; cbn.
    unfold tb_of; cbn; unfold set_fun; destruct (Z.eqb_spec a tb) as [->|]; reflexivity. }
  assert (X : exists l1, page_find_alloc (l1_map c1) q true = Some l1).
  { unfold page_find_alloc; destruct (l1_map c1 (l1_index q)); eexists; reflexivity. }
  destruct X as (l1 & X); rewrite X; destruct (alloc_lists PL c1 q l1 ok1 Hq X) as (ok2 & Fq & Wp2).
  set (c2 := set_l1 c1 l1) in *.
  fold (pushed c2 q tb n); assert (ok3 := pushed_ok PL c2 q tb n ok2 Hq Fq Pt Nn New).
  destruct (pushed_frame c2 q tb n Hq Fq) as (Fr & Et & Eh); set (c3 := pushed c2 q tb n) in *.
  destruct Fr as (_ & _ & Tt & Tc & Tf); change (l1_map (half c2 q tb n)) with (l1_map c2) in Tf.
  assert (Et' : forall a, tb_of c3 a =
    set_fun (tb_at (store c)) tb (set_page_next (set_page_addr (tb_of c tb) n addr) n (read_page c2 (PHead q))) a).
  { intros a; rewrite Et; cbn [c2 c1 set_l1 set_store store set_tb tb_at tb_of]; unfold set_fun.
    rewrite Z.eqb_refl; now destruct (a =? tb). }
  assert (Wp3 : forall q', inU 20 q' -> write_protected c q' -> write_protected c3 q').
  { intros q' Hq' Wp p F; assert (G := Tf q' Hq'); rewrite F in G; cbn [option_map] in G.
    destruct (page_find (l1_map c2) q') as [p2|] eqn:F2; [|discriminate]; injection G as ->; now apply (Wp2 q' Hq' Wp). }
  destruct (page_find (l1_map c3) q) as [p|] eqn:F3; [|now apply (same_flags_none _ _ (Tf q Hq)) in F3].
  unfold truthy; destruct (Z.eqb_spec (page_flags p .& PAGE_WRITE) 0) as [Wz|Wz]; cbn [negb].
  - exists c3, (read_page c2 (PHead q)); splits; auto; intros p' E; congruence.
  - destruct (protect_page_ok c3 addr A S) as (c4 & -> & Es & Eht & Ec & Rd & Fn & Wp4 & Wq).
    exists c4, (read_page c2 (PHead q)); splits; auto.
    + now apply (page_lists_reads _ c3).
    + intros a; unfold tb_of; rewrite Es; apply Et'.
    + now rewrite Es.
    + rewrite Eht; exact Tt.
    + rewrite Ec; exact Tc.
Qed.

(** ** Joining the pages of a block *)

(** All but the pages. *)
Definition same_key (t t' : TranslationBlock) : Prop :=
  tb_pc t' = tb_pc t /\ tb_cs_base t' = tb_cs_base t /\ tb_flags t' = tb_flags t /\ tb_size t' = tb_size t /\
  tb_cflags t' = tb_cflags t /\ tc_ptr t' = tc_ptr t /\ tb_icount t' = tb_icount t /\
  jmp_reset_offset t' = jmp_reset_offset t /\ jmp_insn_offset t' = jmp_insn_offset t.

Definition second_page (pc size : Z) : Z := if pc mod 4096 + size <=? 4096 then no_page else page_of pc + 4096.

(** [tb_link_page] but for the hash table. *)
Definition join_pages (c : tb_context T) (tb pc size : Z) : option (tb_context T) :=
  let? x := tb_alloc_page qemu_host_page_size c tb 0 (page_of pc) in
  if negb (second_page pc size =? no_page) then tb_alloc_page qemu_host_page_size x tb 1 (second_page pc size)
  else Some (set_store x (set_tb (store x) tb (set_page_addr (tb_of x tb) 1 no_page))).

Definition joined (c c' : tb_context T) (tb pc size : Z) : Prop :=
  same_chain (store c) (store c') /\ (forall a, a <> tb -> same_block (tb_of c a) (tb_of c' a)) /\
  same_key (tb_of c tb) (tb_of c' tb) /\ page_addr (tb_of c' tb) = (page_of pc, second_page pc size) /\
  htable c' = htable c /\ jmp_caches c' = jmp_caches c /\
  (forall q, inU 20 q -> write_protected c q -> write_protected c' q).

Lemma in_push (PL : Z -> list jump) q x r j :
  In j (upd_fun PL q (x :: PL q) r) <-> (j = x /\ r = q) \/ In j (PL r).
Proof.
  destruct (Z.eq_dec r q) as [->|N]; [rewrite upd_fun_eq|rewrite upd_fun_ne by assumption; tauto].
  cbn [In]; intuition congruence.
Qed.

(** Blocks change in their page fields only. *)
Lemma joined_store c c' tb pc size f :
  (forall a, tb_of c' a = set_fun (tb_at (store c)) tb (f (tb_of c tb)) a) -> host_code (store c') = host_code (store c) ->
  (forall t, same_key t (f t) /\ jmp_list_next (f t) = jmp_list_next t /\ jmp_list_first (f t) = jmp_list_first t /\
     jmp_reset_offset (f t) = jmp_reset_offset t /\ jmp_insn_offset (f t) = jmp_insn_offset t /\
     page_addr (f t) = (page_of pc, second_page pc size)) ->
  same_chain (store c) (store c') /\ (forall a, a <> tb -> same_block (tb_of c a) (tb_of c' a)) /\
  same_key (tb_of c tb) (tb_of c' tb) /\ page_addr (tb_of c' tb) = (page_of pc, second_page pc size).
Proof.
  intros E Eh F; assert (Ft : tb_of c' tb = f (tb_of c tb)) by (rewrite E; unfold set_fun; now rewrite Z.eqb_refl).
  assert (Fo : forall a, a <> tb -> tb_of c' a = tb_of c a).
  { intros a N; rewrite E; unfold set_fun; now rewrite (proj2 (Z.eqb_neq a tb) N). }
  destruct (F (tb_of c tb)) as (K & A & B & C & D & P); splits.
  - split; [exact Eh|]; intros a; change (tb_at (store c') a) with (tb_of c' a); change (tb_at (store c) a) with (tb_of c a); cbv zeta.
    destruct (Z.eq_dec a tb) as [->|N]; [rewrite Ft; splits; auto; apply K|rewrite Fo by assumption; now splits].
  - intros a N; rewrite Fo by assumption; apply same_block_refl.
  - now rewrite Ft.
  - now rewrite Ft.
Qed.

(** The block is in the lists of its pages, and new pages are protected. *)
Definition enters (PL PL' : Z -> list jump) (c' : tb_context T) (tb : Z) : Prop :=
  page_lists PL' c' /\
  (forall q j, inU 20 q -> In j (PL' q) <-> In j (PL q) \/ (fst j = tb /\ is_n (snd j) /\ on_page (tb_of c' tb) (snd j) q)) /\
  (forall q, inU 20 q -> PL' q <> [] -> PL q = [] -> write_protected c' q).

Section Join.
Variables (PL : Z -> list jump) (c c1 : tb_context T) (tb pc size v : Z).
Let PL1 := upd_fun PL (pc / 4096) ((tb, 0) :: PL (pc / 4096)).
Hypothesis Pt : is_tb_ptr tb.
Hypothesis New : forall q n, inU 20 q -> ~ In (tb, n) (PL q).
Hypothesis P : 0 <= pc.
Hypothesis S : 1 <= size <= 4096.
Hypothesis B : pc + size + qemu_host_page_size < 2 ^ 32.
Hypothesis ok1 : page_lists PL1 c1.
Hypothesis E1 : forall a, tb_of c1 a = set_fun (tb_at (store c)) tb (set_page_next (set_page_addr (tb_of c tb) 0 (page_of pc)) 0 v) a.
Hypothesis H1 : host_code (store c1) = host_code (store c).
Hypothesis T1 : htable c1 = htable c.
Hypothesis C1 : jmp_caches c1 = jmp_caches c.
Hypothesis W1 : forall q, inU 20 q -> write_protected c q -> write_protected c1 q.
Hypothesis Wq1 : write_protected c1 (pc / 4096).

(** The first page is that of [c1]; the block is changed once more. *)
Lemma join_blocks c' g :
  (forall a, tb_of c' a = set_fun (tb_at (store c1)) tb (g (tb_of c1 tb)) a) ->
  forall a, tb_of c' a = set_fun (tb_at (store c)) tb (g (set_page_next (set_page_addr (tb_of c tb) 0 (page_of pc)) 0 v)) a.
Proof.
  intros E a; rewrite E, (E1 tb); unfold set_fun; rewrite Z.eqb_refl.
  destruct (Z.eqb_spec a tb) as [->|N]; [reflexivity|]; change (tb_at (store c1) a) with (tb_of c1 a).
  rewrite E1; unfold set_fun; now rewrite (proj2 (Z.eqb_neq a tb) N).
Qed.

Lemma join_one :
  pc mod 4096 + size <= 4096 ->
  let c' := set_store c1 (set_tb (store c1) tb (set_page_addr (tb_of c1 tb) 1 no_page)) in
  enters PL PL1 c' tb /\ joined c c' tb pc size.
Proof.
  intros L; cbv zeta; set (c' := set_store c1 _).
  assert (Ec' := join_blocks c' (fun t => set_page_addr t 1 no_page) (fun a => eq_refl)); cbv beta in Ec'.
  assert (Sp : second_page pc size = no_page) by (unfold second_page; now rewrite (proj2 (Z.leb_le _ _) L)).
  assert (Jn : joined c c' tb pc size).
  { unfold joined; destruct (joined_store c c' tb pc size
      (fun t => set_page_addr (set_page_next (set_page_addr t 0 (page_of pc)) 0 v) 1 no_page) Ec' H1) as (J1 & J2 & J3 & J4).
    - intros t; unfold same_key; rewrite Sp; cbn; now splits.
    - splits; auto. }
  assert (Pa : page_addr (tb_of c' tb) = (page_of pc, no_page)) by (rewrite <- Sp; apply Jn).
  split; [unfold enters; splits|exact Jn].
  - apply (page_lists_reads PL1 c1); auto; [|reflexivity]; intros [x|a m] _; [reflexivity|]; unfold c'; cbn; unfold tb_of; cbn.
    unfold set_fun; destruct (Z.eqb_spec a tb) as [->|]; reflexivity.
  - intros q j Hq; unfold PL1, on_page; rewrite in_push, Pa; unfold sel2; cbn [Z.eqb fst snd]; rewrite page_of_div.
    destruct j as [a m]; cbn [fst snd]; unfold is_n; split; [intros [[X ->]|I]; [injection X as -> ->; right; tauto|now left]|].
    intros [I|(-> & _ & [[-> X]|(_ & X & _)])]; [now right|left; now split|congruence].
  - intros q Hq N X; unfold PL1 in N; destruct (Z.eq_dec q (pc / 4096)) as [->|Nq]; [exact Wq1|].
    rewrite upd_fun_ne in N by assumption; contradiction.
Qed.

Lemma join_two :
  4096 < pc mod 4096 + size ->
  exists PL' c', tb_alloc_page qemu_host_page_size c1 tb 1 (page_of pc + 4096) = Some c' /\
    enters PL PL' c' tb /\ joined c c' tb pc size.
Proof.
  intros L; pose proof (page_of_bound pc P) as Pb; pose proof (Z.mod_pos_bound pc 4096) as Mb.
  assert (Hs : 0 < qemu_host_page_size) by (destruct host_size as (k & Hk & ->); apply Z.pow_pos_nonneg; lia).
  assert (New1 : forall q', inU 20 q' -> ~ In (tb, 1) (PL1 q')).
  { intros q' Hq'; unfold PL1; rewrite in_push; intros [[X _]|X]; [discriminate|now apply (New q' 1)]. }
  destruct (alloc_page_ok PL1 c1 tb 1 (page_of pc + 4096) ok1 Pt) as (c' & w & -> & ok2 & E2 & H2 & T2 & C2 & W2 & Wq2);
    [now right|lia|unfold page_of; lia|exact New1|].
  rewrite next_page_div in ok2, Wq2; eexists; exists c'; split; [reflexivity|].
  assert (Ec' := join_blocks c' (fun t => set_page_next (set_page_addr t 1 (page_of pc + 4096)) 1 w) E2); cbv beta in Ec'.
  assert (Sp : second_page pc size = page_of pc + 4096) by (unfold second_page; now rewrite (proj2 (Z.leb_gt _ _) L)).
  assert (Jn : joined c c' tb pc size).
  { unfold joined; destruct (joined_store c c' tb pc size
      (fun t => set_page_next (set_page_addr (set_page_next (set_page_addr t 0 (page_of pc)) 0 v) 1 (page_of pc + 4096)) 1 w) Ec')
      as (J1 & J2 & J3 & J4); [congruence| |].
    - intros t; unfold same_key; rewrite Sp; cbn; now splits.
    - splits; auto; congruence. }
  assert (Pa : page_addr (tb_of c' tb) = (page_of pc, page_of pc + 4096)) by (rewrite <- Sp; apply Jn).
  split; [unfold enters; splits; [exact ok2| |]|exact Jn].
  - intros q j Hq; unfold on_page; rewrite in_push; unfold PL1 at 1; rewrite in_push, Pa; unfold sel2; cbn [Z.eqb fst snd].
    rewrite page_of_div, next_page_div; pose proof (next_page_real pc).
    destruct j as [a m]; cbn [fst snd]; unfold is_n; split.
    + intros [[X ->]|[[X ->]|I]]; [injection X as -> ->; right; tauto|injection X as -> ->; right; tauto|now left].
    + intros [I|(-> & _ & [[-> X]|(-> & _ & X)])]; [tauto|right; left; now split|left; now split].
  - intros q Hq N X; destruct (Z.eq_dec q (pc / 4096 + 1)) as [->|Nq]; [exact Wq2|rewrite upd_fun_ne in N by assumption].
    unfold PL1 in N; destruct (Z.eq_dec q (pc / 4096)) as [->|Nq']; [now apply W2|rewrite upd_fun_ne in N by assumption; contradiction].
Qed.

End Join.

Lemma join_pages_ok PL c tb pc size :
  page_lists PL c -> is_tb_ptr tb -> (forall q n, inU 20 q -> ~ In (tb, n) (PL q)) ->
  0 <= pc -> 1 <= size <= 4096 -> pc + size + qemu_host_page_size < 2 ^ 32 ->
  exists PL' c', join_pages c tb pc size = Some c' /\ enters PL PL' c' tb /\ joined c c' tb pc size.
Proof.
  intros ok Pt New P S B; unfold join_pages; pose proof (page_of_bound pc P) as Pb; pose proof (Z.mod_pos_bound pc 4096) as Mb.
  destruct (alloc_page_ok PL c tb 0 (page_of pc) ok Pt) as (c1 & v & -> & ok1 & E1 & H1 & T1 & C1 & W1 & Wq1);
    try lia; [now left|now auto|].
  rewrite page_of_div in ok1, Wq1; unfold second_page; destruct (Z.leb_spec (pc mod 4096 + size) 4096) as [L|L].
  - change (no_page =? no_page) with true; cbn [negb]; eexists; eexists; split; [reflexivity|].
    now apply (join_one PL c c1 tb pc size v).
  - assert (Hs : 0 < qemu_host_page_size) by (destruct host_size as (k & Hk & ->); apply Z.pow_pos_nonneg; lia).
    rewrite (proj2 (Z.eqb_neq _ _) (next_page_real pc)); cbn [negb].
    now apply (join_two PL c c1 tb pc size v).
Qed.

Lemma init_jumps_fields st tb : same_fields st (tb_init_jumps st tb).
Proof.
  assert (S : same_fields st (empty_lists st tb)).
  { unfold empty_lists; eapply same_fields_trans; [eapply same_fields_trans|]; apply write_static. }
  eapply same_fields_trans; [exact S|]; unfold tb_init_jumps; fold (write_slot st (First tb) (link (First tb))).
  intros a; cbv zeta; destruct (negb _); destruct (negb _); now splits.
Qed.

(** The page of the last byte. *)
Lemma last_page pc size :
  0 <= pc -> 1 <= size <= 4096 -> pc + size < 2 ^ 32 ->
  (if negb (pc .& TARGET_PAGE_MASK =? u32 (pc + size - 1) .& TARGET_PAGE_MASK)
   then get_page_addr_code (u32 (pc + size - 1) .& TARGET_PAGE_MASK) else no_page) = second_page pc size.
Proof.
  intros P S B; rewrite (wrap_id 32 (pc + size - 1)) by (unfold inU; lia); rewrite !page_mask_mod by (unfold inU; lia).
  unfold second_page, page_of, get_page_addr_code; pose proof (Z.mod_pos_bound pc 4096); pose proof (Z.div_mod pc 4096).
  destruct (Z.leb_spec (pc mod 4096 + size) 4096) as [L|L].
  - assert (E : (pc + size - 1) mod 4096 = pc mod 4096 + size - 1) by (symmetry; apply (Z.mod_unique _ _ (pc / 4096)); lia).
    rewrite E; rewrite (proj2 (Z.eqb_eq _ _)) by lia; reflexivity.
  - assert (E : (pc + size - 1) mod 4096 = pc mod 4096 + size - 1 - 4096) by (symmetry; apply (Z.mod_unique _ _ (pc / 4096 + 1)); lia).
    rewrite E; rewrite (proj2 (Z.eqb_neq _ _)) by lia; cbn [negb]; lia.
Qed.

Lemma publish_eq busy c tb :
  let t := tb_of c tb in
  0 <= tb_pc t -> 1 <= tb_size t <= 4096 -> tb_pc t + tb_size t < 2 ^ 32 ->
  tb_publish qemu_host_page_size busy c tb =
  let? r := tab_insert busy (htable c) tb (tb_hash_func (tb_pc t) (tb_pc t) (tb_flags t)) in
  join_pages (set_htable (set_store c (tb_init_jumps (store c) tb)) (snd r)) tb (tb_pc t) (tb_size t).
Proof.
  cbv zeta; intros P S B; unfold tb_publish; cbv zeta.
  assert (F := init_jumps_fields (store c) tb tb); cbv zeta in F.
  change (tb_of (set_store c (tb_init_jumps (store c) tb)) tb) with (tb_at (tb_init_jumps (store c) tb) tb).
  change (tb_of c tb) with (tb_at (store c) tb) in *; destruct F as (_ & _ & _ & -> & _); rewrite last_page by assumption.
  unfold tb_link_page; cbv zeta; unfold join_pages, get_page_addr_code.
  change (tb_of (set_store c (tb_init_jumps (store c) tb)) tb) with (tb_at (tb_init_jumps (store c) tb) tb).
  change (htable (set_store c (tb_init_jumps (store c) tb))) with (htable c).
  assert (F := init_jumps_fields (store c) tb tb); cbv zeta in F; destruct F as (-> & _ & -> & _).
  destruct (tab_insert busy (htable c) tb _) as [[r ht]|]; [|reflexivity].
  cbn [snd]; rewrite page_mask_mod by (unfold inU; lia); reflexivity.
Qed.

Lemma entered_pages live PL PL' c c' tb :
  pages_ok live PL c -> ~ In tb live -> is_tb_ptr tb -> block_wf (tb_of c' tb) ->
  (forall a, a <> tb -> same_block (tb_of c a) (tb_of c' a)) -> enters PL PL' c' tb -> pages_ok (tb :: live) PL' c'.
Proof.
  intros ok N Pt W B ([Lg Lp Ln Ld _] & M & _); constructor; auto.
  - intros a [<-|L]; [now split|]; destruct (po_block _ _ _ ok a L) as [Pa Wa]; split; [assumption|].
    eapply block_wf_same; [apply B; congruence|exact Wa].
  - intros q j Hq; rewrite M, (po_mem _ _ _ ok q j Hq) by assumption; cbn [In]; split.
    + intros [(L & Nn & O)|(E & Nn & O)]; [|now rewrite E in *; splits; auto].
      splits; auto; apply (on_page_same (tb_of c (fst j))); [apply B; congruence|exact O].
    + intros ([E|L] & Nn & O); [right; rewrite E; now splits|left; splits; auto].
      apply (on_page_same (tb_of c (fst j)) (tb_of c' (fst j))); [apply B; congruence|exact O].
Qed.

Lemma publish_ok busy base live J PL c tb :
  ctx_ok base live J PL c -> fresh_block base live (store c) tb ->
  0 <= tb_pc (tb_of c tb) -> 1 <= tb_size (tb_of c tb) <= 4096 ->
  tb_pc (tb_of c tb) + tb_size (tb_of c tb) + qemu_host_page_size < 2 ^ 32 ->
  exists PL' c', tb_publish qemu_host_page_size busy c tb = Some c' /\
    ctx_ok base (tb :: live) (upd_fun J tb []) PL' c' /\
    (forall a, a <> tb -> same_block (tb_of c a) (tb_of c' a)) /\ same_key (tb_of c tb) (tb_of c' tb).
Proof.
  intros [Ch Pg Tb En Ca Fl] Fb P S B; assert (Pt := fb_ptr _ _ _ _ Fb); assert (Nl := fb_new _ _ _ _ Fb).
  assert (Hs : 0 < qemu_host_page_size) by (destruct host_size as (k & Hk & ->); apply Z.pow_pos_nonneg; lia).
  rewrite publish_eq by lia; set (h := tb_hash_func _ _ _).
  assert (Ne : forall e, In e (tab_entries (htable c)) -> e_ptr e <> tb) by (intros [h' p'] I; apply En in I as [L _]; cbn; congruence).
  destruct (tab_insert_ok busy (htable c) tb h Tb) as (ht & -> & Tb' & Pm); [apply Pt|apply tb_hash_range|intros e I; now apply Ne in I|].
  assert (Hn : has (tab_entries (htable c)) tb = false).
  { destruct (has (tab_entries (htable c)) tb) eqn:X; [|reflexivity].
    apply has_iff, in_map_iff in X as (e & E & I); now apply Ne in I. }
  rewrite Hn in Pm; cbn [snd]; set (c0 := set_htable _ ht).
  assert (B0 : forall a, same_block (tb_of c a) (tb_of c0 a)) by (intros a; exact (same_fields_block _ _ a (init_jumps_fields (store c) tb))).
  assert (Pl : page_lists PL c0).
  { apply (page_lists_reads PL c); [|reflexivity|now apply (pages_lists live)]; intros [q|a n] _; [reflexivity|].
    assert (F := init_jumps_fields (store c) tb a); cbv zeta in F; unfold c0; cbn; unfold tb_of; cbn [store set_htable set_store].
    now destruct F as (_ & _ & _ & _ & _ & -> & _). }
  destruct (join_pages_ok PL c0 tb (tb_pc (tb_of c tb)) (tb_size (tb_of c tb)) Pl Pt) as (PL' & c' & -> & Et & Jn); auto.
  { intros q n Hq I; apply (po_mem _ _ _ Pg) in I as [L _]; auto. }
  destruct Jn as (Sc & Bo & Kt & Pa & Eh & Ec & Wp).
  assert (Bc : forall a, a <> tb -> same_block (tb_of c a) (tb_of c' a)) by (intros a N; eapply same_block_trans; [apply B0|now apply Bo]).
  assert (K : same_key (tb_of c tb) (tb_of c' tb)).
  { destruct (B0 tb) as (? & ? & ? & ? & ? & ? & ? & ? & ? & ?), Kt as (? & ? & ? & ? & ? & ? & ? & ? & ?); unfold same_key; splits; congruence. }
  assert (K' := K); destruct K' as (K1 & _ & K3 & K4 & _).
  exists PL', c'; splits; [reflexivity| |exact Bc|exact K]; constructor.
  - apply (chain_same base (tb :: live) _ (tb_init_jumps (store c) tb)); [exact Sc|now apply init_jumps_ok].
  - apply (entered_pages live PL PL' c); auto; constructor; rewrite ?K1, ?K4, ?Pa; auto; lia.
  - rewrite Eh; exact Tb'.
  - intros p h'; rewrite Eh; cbn [htable c0 set_htable].
    assert (Ht : tb_hash (tb_of c' tb) = h).
    { unfold tb_hash; rewrite K1, K3, Pa, page_offset; cbn [sel2 fst snd Z.eqb]; unfold page_of, h; f_equal.
      rewrite wrap_id; unfold inU; lia. }
    transitivity (In (mkEntry h' p) (mkEntry h tb :: tab_entries (htable c))).
    + split; apply Permutation_in; [exact Pm|now symmetry].
    + cbn [In]; rewrite En; split.
      * intros [E|[L ->]]; [injection E as <- <-; split; [now left|now symmetry]|].
        split; [now right|]; symmetry; apply tb_hash_same, Bc; congruence.
      * intros [[<-|L] ->]; [left; now rewrite Ht|right; split; [exact L|]]; apply tb_hash_same, Bc; congruence.
  - intros cache i I N; rewrite Ec in I; destruct (Ca cache i I N) as [L X]; split; [now right|].
    destruct (Bc (cache i)) as (-> & _); [congruence|exact X].
  - intros q p Hq F N; destruct (PL q) eqn:E; [|apply (Wp q Hq); [|exact F]].
    + now apply Et in F.
    + intros p' F'; apply (Fl q p' Hq F'); congruence.
Qed.

End Host.

(** C7: for a range that ends at or before the last page of the address space (stop at
    most 0xfffff000; beyond it the loop of the source does not end),
    tb_invalidate_phys_range ends and takes out exactly the blocks whose code meets the
    range: the blocks left in use are the others, in the same order; the list of every
    page and the jumps into every block are what they were without the entries of the
    blocks taken out; the cache of every CPU is what it was with those blocks replaced
    by NULL; the hash table, the lists and the branch instructions agree with the blocks
    left. *)
Theorem invalidate_range_exact base live J PL c start stop rounds fuel :
  ctx_ok base live J PL c -> 0 <= start -> stop <= 0xfffff000 -> stop - start + 4096 <= 4096 * Z.of_nat rounds ->
  (ring_fuel live <= fuel)%nat ->
  exists c', tb_invalidate_phys_range rounds fuel c start stop = Some c' /\
    let stays a := negb ((start <? stop) && (tb_pc (tb_of c a) <? stop) && (start <? tb_pc (tb_of c a) + tb_size (tb_of c a))) in
    ctx_ok base (filter stays live) (fun X => filter (fun j => stays (fst j)) (J X)) (fun q => filter (fun j => stays (fst j)) (PL q)) c' /\
    (forall a, same_block (tb_of c a) (tb_of c' a)) /\
    Forall2 (fun cache cache' => forall i, cache' i = if stays (cache i) then cache i else 0) (jmp_caches c) (jmp_caches c').
Proof.
  intros ok P S R Fu; destruct (range_ok base fuel stop S rounds live J PL c start ok P) as (c' & E & Rd); [|exact Fu|].
  { unfold page_of; pose proof (Z.mod_pos_bound start 4096); lia. }
  exists c'; split; [exact E|]; intros stays.
  assert (X : forall a, In a live -> stays a = outside c start stop a).
  { intros a _; unfold stays, outside, meets_b; now rewrite andb_assoc. }
  destruct (reduced_ext base live J PL c _ _ c' ok X Rd) as [A B C]; now splits.
Qed.

(** C14: publishing a new block of 1 to 4096 guest bytes that ends at least one host
    page below the top of the address space keeps the translation context consistent:
    the hash table, the lists of its one or two pages, the jump lists and the branch
    instructions agree with the blocks in use, and every page that holds code is write-
    protected; no other block is changed. *)
Theorem publish_keeps qemu_host_page_size busy base live J PL c tb :
  (exists k, 12 <= k <= 20 /\ qemu_host_page_size = 2 ^ k) ->
  ctx_ok base live J PL c -> fresh_block base live (store c) tb ->
  0 <= tb_pc (tb_of c tb) -> 1 <= tb_size (tb_of c tb) <= 4096 ->
  tb_pc (tb_of c tb) + tb_size (tb_of c tb) + qemu_host_page_size < 2 ^ 32 ->
  exists PL' c', tb_publish qemu_host_page_size busy c tb = Some c' /\
    ctx_ok base (tb :: live) (upd_fun J tb []) PL' c' /\
    (forall a, a <> tb -> same_block (tb_of c a) (tb_of c' a)) /\ same_key (tb_of c tb) (tb_of c' tb).
Proof. exact (fun h => publish_ok qemu_host_page_size h busy base live J PL c tb). Qed.

(** No blocks yet. *)
Definition start_ctx (st : tb_store) (t : T) (caches : list (Z -> Z)) : tb_context T := mkCtx st (fun _ => None) t caches 0 [].

Lemma start_ok base J st t caches :
  tab_ok t -> tab_entries t = [] -> (forall cache i, In cache caches -> cache i = 0) ->
  ctx_ok base [] J (fun _ => []) (start_ctx st t caches).
Proof.
  intros W E Z0; constructor; auto; try (cbn; tauto).
  - split; constructor; cbn; tauto.
  - constructor; cbn; try tauto; try (intros; constructor); intros; tauto.
  - cbn [htable start_ctx]; rewrite E; cbn; tauto.
  - intros cache i I N; now rewrite (Z0 cache i I) in N.
Qed.

End Publish.

(** One block of 4 bytes at 0x8ffe, in two pages, published in an empty context. *)
Definition demo_start : tb_context qht :=
  start_ctx (mkStore (fun _ => mkTB 0x8ffe 0 0 4 1 0 0x40000 (0, 0) (0, 0) (12, 0xffff) (8, 0) (0, 0) 0) (fun _ => 0xeaffffff))
    (qht_init 4 1) [fun _ => 0].

Definition demo_ctx : tb_context qht :=
  match tb_publish 4096 false demo_start 0x1000 with Some c => c | None => demo_start end.

Lemma demo_start_ok : ctx_ok 0x40000 [] (fun _ => []) (fun _ => []) demo_start.
Proof.
  destruct (qht_init_ok 4 1) as [W E]; [lia|]; apply start_ok; [exact W|exact E|].
  intros cache i [<-|[]]; reflexivity.
Qed.

Lemma demo_fresh : fresh_block 0x40000 [] (store demo_start) 0x1000.
Proof.
  assert (J : forall n, has_jump (store demo_start) (0x1000, n) -> n = 0).
  { intros n [[E|E] X]; cbn [fst snd] in *; subst n; [reflexivity|now destruct X]. }
  constructor.
  - unfold is_tb_ptr, inU; cbn; lia.
  - intros [].
  - unfold in_buffer, MAX_CODE_GEN_BUFFER_SIZE; cbn; lia.
  - intros n X; rewrite (J n X); unfold in_buffer, MAX_CODE_GEN_BUFFER_SIZE, inU; cbn; lia.
  - intros n [a m] X [E|[]] Y _; cbn [fst] in E; subst a; now rewrite (J n X), (J m Y).
Qed.

Lemma publish_keeps_witness :
  exists PL' c', tb_publish 4096 false demo_start 0x1000 = Some c' /\
    ctx_ok 0x40000 [0x1000] (upd_fun (fun _ => []) 0x1000 []) PL' c'.
Proof.
  destruct (publish_keeps 4096 false 0x40000 [] (fun _ => []) (fun _ => []) demo_start 0x1000) as (PL' & c' & E & ok & _);
    [exists 12; now split|exact demo_start_ok|exact demo_fresh|cbn; lia..|].
  exists PL', c'; exact (conj E ok).
Defined.

Lemma demo_ctx_ok :
  exists PL, ctx_ok 0x40000 [0x1000] (upd_fun (fun _ => []) 0x1000 []) PL demo_ctx /\
    same_key (tb_of demo_start 0x1000) (tb_of demo_ctx 0x1000).
Proof.
  destruct (publish_ok 4096 ltac:(now exists 12) false 0x40000 [] (fun _ => []) (fun _ => []) demo_start 0x1000)
    as (PL & c' & E & ok & _ & K); [exact demo_start_ok|exact demo_fresh|cbn; lia..|].
  exists PL; unfold demo_ctx; rewrite E; exact (conj ok K).
Qed.

(** A byte in the second page of the block is written. *)
Lemma invalidate_range_exact_witness :
  exists PL' c', tb_invalidate_phys_range 2 4 demo_ctx 0x9001 0x9002 = Some c' /\
    ctx_ok 0x40000 [] (fun _ => []) PL' c'.
Proof.
  destruct demo_ctx_ok as (PL & ok & K).
  destruct (invalidate_range_exact 0x40000 [0x1000] (upd_fun (fun _ => []) 0x1000 []) PL demo_ctx 0x9001 0x9002 2 4)
    as (c' & E & ok' & _); [exact ok|lia|lia|cbn; lia|unfold ring_fuel; cbn; lia|].
  eexists; exists c'; split; [exact E|]; destruct K as (K1 & _ & _ & K4 & _); cbn [filter] in ok'; rewrite K1, K4 in ok'.
  apply (ctx_ext _ _ _ _ _ _ _) with (3 := ok'); [intros X []|reflexivity].
Defined.
