(* ===== verification/TbGen.v ===== *)
(** * Generating translation blocks (translate-all.c)

    The blocks are the elements of an array, used in order; their code lies in
    one buffer, in the same order.  When either is full everything is thrown
    away.  [tb_gen_code] takes the next element, has the guest code translated
    and publishes the block; [tb_find_pc] finds the block from a host address.
    The translator (target-arm/translate.c, tcg/tcg.c) is an argument here. *)

From Stdlib Require Import ZArith Lia List Bool Permutation.
From S2P Require Import Prelude Bitops Cpu Psr TbFlags SearchData Qht TbChain TbPages TbLink.
Import ListNotations.
Local Open Scope Z_scope.
Local Open Scope c_scope.

(** ** The translator *)

Record translation := mkTr {
  tr_size : Z;                     (* tb->size: bytes of guest code *)
  tr_reset : Z * Z;                (* tb->jmp_reset_offset *)
  tr_insn : Z * Z;                 (* tb->jmp_insn_offset *)
  tr_code : list Z;                (* the words of host code written *)
  tr_overflow : bool;              (* gen_code_size < 0 *)
  tr_rows : list insn_row          (* gen_insn_data, gen_insn_end_off: tb->icount rows *)
}.

(** What does not change after [tcg_exec_init]. *)
Record tcg_config := mkConfig {
  tbs : Z;
  code_gen_max_blocks : Z;
  code_gen_buffer : Z;
  code_gen_buffer_size : Z;
  code_gen_highwater : Z;
  qemu_host_page_size : Z;
  use_icount : bool
}.

Definition sizeof_TB : Z := 68.
Definition CODE_GEN_ALIGN : Z := 16.
Definition CODE_GEN_HTABLE_BITS : Z := 15.
Definition CODE_GEN_HTABLE_SIZE : Z := 1 .<< CODE_GEN_HTABLE_BITS.
Definition CF_IGNORE_ICOUNT : Z := 0x40000.
Definition CF_NOCACHE : Z := 0x10000.

Definition ROUND_UP (n d : Z) : Z := u32 (n + d - 1) .& u32 (- d).

(** [&tbs[i]] *)
Definition tb_addr (cfg : tcg_config) (i : Z) : Z := tbs cfg + i * sizeof_TB.

Record gen_state (T : Type) := mkGen {
  ctx : tb_context T;
  nb_tbs : Z;
  code_gen_ptr : Z;
  tb_flushed : list bool;          (* cpu->tb_flushed, of every CPU *)
  tb_flush_count : Z;
  search_data : Z -> list Z        (* the bytes at tb->tc_search *)
}.

Arguments mkGen {T}. Arguments ctx {T}. Arguments nb_tbs {T}. Arguments code_gen_ptr {T}.
Arguments tb_flushed {T}. Arguments tb_flush_count {T}. Arguments search_data {T}.

Section Gen.
Context {T : Type} `{HashTable T}.
Variable cfg : tcg_config.

Definition set_ctx (g : gen_state T) (c : tb_context T) : gen_state T :=
  mkGen c (nb_tbs g) (code_gen_ptr g) (tb_flushed g) (tb_flush_count g) (search_data g).
Definition set_nb (g : gen_state T) (n : Z) : gen_state T :=
  mkGen (ctx g) n (code_gen_ptr g) (tb_flushed g) (tb_flush_count g) (search_data g).
Definition set_code_ptr (g : gen_state T) (p : Z) : gen_state T :=
  mkGen (ctx g) (nb_tbs g) p (tb_flushed g) (tb_flush_count g) (search_data g).
Definition set_search (g : gen_state T) (tb : Z) (bytes : list Z) : gen_state T :=
  mkGen (ctx g) (nb_tbs g) (code_gen_ptr g) (tb_flushed g) (tb_flush_count g) (set_fun (search_data g) tb bytes).
Definition put_tb (g : gen_state T) (tb : Z) (t : TranslationBlock) : gen_state T :=
  set_ctx g (set_store (ctx g) (set_tb (store (ctx g)) tb t)).
Definition block_at (g : gen_state T) (tb : Z) : TranslationBlock := tb_of (ctx g) tb.

(** ** Allocation *)

(** 0 is NULL. *)
Definition tb_alloc (g : gen_state T) (pc : Z) : gen_state T * Z :=
  if nb_tbs g >=? code_gen_max_blocks cfg then (g, 0)
  else
    let tb := tb_addr cfg (nb_tbs g) in
    let g := set_nb g (nb_tbs g + 1) in
    let t := block_at g tb in
    (put_tb g tb (mkTB pc (tb_cs_base t) (tb_flags t) (tb_size t) (tb_icount t) 0 (tc_ptr t) (page_next t)
       (page_addr t) (jmp_reset_offset t) (jmp_insn_offset t) (jmp_list_next t) (jmp_list_first t)), tb).

Definition tb_free (g : gen_state T) (tb : Z) : gen_state T :=
  if (0 <? nb_tbs g) && (tb =? tb_addr cfg (nb_tbs g - 1))
  then set_nb (set_code_ptr g (tc_ptr (block_at g tb))) (nb_tbs g - 1)
  else g.

(** ** Flushing *)

Definition page_flush_tb_1 (pd : Z -> PageDesc) : Z -> PageDesc :=
  fun i => if (0 <=? i) && (i <? V_L2_SIZE) then mkPage 0 (page_flags (pd i)) else pd i.

Definition page_flush_tb (l1 : page_map) : page_map :=
  fun i => if (0 <=? i) && (i <? V_L1_SIZE) then option_map page_flush_tb_1 (l1 i) else l1 i.

(** [None] is [cpu_abort]. *)
Definition tb_flush (g : gen_state T) : option (gen_state T) :=
  if code_gen_buffer cfg =? 0 then Some g
  else if code_gen_buffer_size cfg <? u32 (code_gen_ptr g - code_gen_buffer cfg) then None
  else
    let c := ctx g in
    let? (_, ht) := tab_reset_size (htable c) CODE_GEN_HTABLE_SIZE in
    let caches := map (fun _ => (fun _ => 0) : Z -> Z) (jmp_caches c) in
    let c := mkCtx (store c) (page_flush_tb (l1_map c)) ht caches (invalidate_count c) (mprotects c) in
    Some (mkGen c 0 (code_gen_buffer cfg) (map (fun _ => true) (tb_flushed g)) (tb_flush_count g + 1) (search_data g)).

(** ** Generation *)

(** The words [ws] are written from [p] on. *)
Fixpoint write_words (code : Z -> Z) (p : Z) (ws : list Z) : Z -> Z :=
  match ws with
  | [] => code
  | w :: ws => write_words (set_fun code p w) (p + 4) ws
  end.

Definition write_code (g : gen_state T) (p : Z) (ws : list Z) : gen_state T :=
  let st := store (ctx g) in
  set_ctx g (set_store (ctx g) (mkStore (tb_at st) (write_words (host_code st) p ws))).

Variable translate : Z -> Z -> Z -> Z -> Z -> translation.

(** One attempt, up to the tests for an overflow; [inl] is [goto buffer_overflow]. *)
Definition gen_attempt (g : gen_state T) (tb pc cs_base flags cflags : Z) : gen_state T + gen_state T :=
  let gen_code_buf := code_gen_ptr g in
  let t := block_at g tb in
  let g := put_tb g tb (mkTB (tb_pc t) cs_base flags (tb_size t) (tb_icount t) cflags gen_code_buf (page_next t)
             (page_addr t) (jmp_reset_offset t) (jmp_insn_offset t) (jmp_list_next t) (jmp_list_first t)) in
  let tr := translate pc cs_base flags cflags gen_code_buf in
  let t := block_at g tb in
  let g := put_tb g tb (mkTB (tb_pc t) (tb_cs_base t) (tb_flags t) (tr_size tr) (Z.of_nat (length (tr_rows tr)))
             (tb_cflags t) (tc_ptr t) (page_next t) (page_addr t) (tr_reset tr) (tr_insn tr)
             (jmp_list_next t) (jmp_list_first t)) in
  let g := write_code g gen_code_buf (tr_code tr) in
  if tr_overflow tr then inl g
  else
    let gen_code_size := 4 * Z.of_nat (length (tr_code tr)) in
    match encode_search (code_gen_highwater cfg) (gen_code_buf + gen_code_size) (tb_pc t) (tr_rows tr) with
    | None => inl g
    | Some bytes =>
        let g := set_search g tb bytes in
        inr (set_code_ptr g (ROUND_UP (gen_code_buf + gen_code_size + Z.of_nat (length bytes)) CODE_GEN_ALIGN))
    end.

(** [buffer_overflow]: everything is thrown away and translation starts again;
    [None]: an abort, or no end within [rounds]. *)
Fixpoint gen_loop (rounds : nat) (g : gen_state T) (tb pc cs_base flags cflags : Z) : option (gen_state T * Z) :=
  match rounds with
  | O => None
  | S rounds =>
      match gen_attempt g tb pc cs_base flags cflags with
      | inr g => Some (g, tb)
      | inl g =>
          let? g := tb_flush g in
          let (g, tb) := tb_alloc g pc in
          if tb =? 0 then None else gen_loop rounds g tb pc cs_base flags cflags
      end
  end.

Definition tb_gen_code (busy : bool) (rounds : nat) (g : gen_state T) (pc cs_base flags cflags : Z)
    : option (gen_state T * Z) :=
  let cflags := if use_icount cfg && negb (truthy (cflags .& CF_IGNORE_ICOUNT)) then cflags .| CF_USE_ICOUNT else cflags in
  let (g, tb) := tb_alloc g pc in
  let? (g, tb) :=
    if tb =? 0 then
      let? g := tb_flush g in
      let (g, tb) := tb_alloc g pc in
      if tb =? 0 then None else Some (g, tb)
    else Some (g, tb) in
  let? (g, tb) := gen_loop rounds g tb pc cs_base flags cflags in
  let? c := tb_publish (qemu_host_page_size cfg) busy (ctx g) tb in
  Some (set_ctx g c, tb).

(** ** Finding the block of a host address *)

(** [None]: no end within [fuel]. *)
Fixpoint find_pc_loop (fuel : nat) (g : gen_state T) (m_min m_max tc_ptr_ : Z) : option Z :=
  match fuel with
  | O => None
  | S fuel =>
      if m_min <=? m_max then
        let m := (m_min + m_max) .>> 1 in
        let tb := tb_addr cfg m in
        let v := tc_ptr (block_at g tb) in
        if v =? tc_ptr_ then Some tb
        else if tc_ptr_ <? v then find_pc_loop fuel g m_min (m - 1) tc_ptr_
        else find_pc_loop fuel g (m + 1) m_max tc_ptr_
      else Some (tb_addr cfg m_max)
  end.

Definition tb_find_pc (fuel : nat) (g : gen_state T) (tc_ptr_ : Z) : option Z :=
  if nb_tbs g <=? 0 then Some 0
  else if (tc_ptr_ <? code_gen_buffer cfg) || (code_gen_ptr g <=? tc_ptr_) then Some 0
  else find_pc_loop fuel g 0 (nb_tbs g - 1) tc_ptr_.

(** [None] in the second place is the return of false. *)
Definition cpu_restore_state (fuel ring : nat) (g : gen_state T) (env : CPUARMState) (ic : icount_state) (retaddr : Z)
    : option (gen_state T * option restored) :=
  let? tb := tb_find_pc fuel g retaddr in
  if tb =? 0 then Some (g, None)
  else
    let t := block_at g tb in
    let? r := cpu_restore_state_from_tb env ic (tb_pc t) (tc_ptr t) (tb_cflags t) (Z.to_nat (tb_icount t))
                (search_data g tb) retaddr in
    if truthy (tb_cflags t .& CF_NOCACHE) then
      let? c := tb_phys_invalidate ring (ctx g) tb no_page in
      Some (tb_free (set_ctx g c) tb, Some r)
    else Some (g, Some r).

End Gen.

(** ** What the invariant of the context depends on *)

Section Local.
Context {T : Type} `{HashTable T}.

Lemma lists_local live J st st' :
  (forall a, In a live -> tb_at st' a = tb_at st a) -> lists_ok live J st -> lists_ok live J st'.
Proof.
  intros E [A B C D F G].
  assert (R : forall X j, In X live -> In j (J X) -> read_slot st' (jump_slot j) = read_slot st (jump_slot j)).
  { intros X j L I; cbn; now rewrite E by now apply (B X). }
  constructor; auto.
  - intros X L; apply (path_move st st' (First X)); [cbn; now rewrite E| |now apply C].
    intros s I; apply in_map_iff in I as (j & <- & I); now apply (R X).
  - intros j L N Z0; cbn; rewrite E by assumption; now apply (G j).
Qed.

Lemma code_local base live J st st' :
  (forall a, In a live -> tb_at st' a = tb_at st a) ->
  (forall j, In (fst j) live -> has_jump st j -> host_code st' (jmp_addr st j) = host_code st (jmp_addr st j)) ->
  (forall X j, In X live -> In j (J X) -> In (fst j) live) ->
  code_ok base live live J st -> code_ok base live live J st'.
Proof.
  intros E Hc Mem [A B C D F G].
  assert (Ej : forall j, In (fst j) live -> jmp_addr st' j = jmp_addr st j) by (intros j L; unfold jmp_addr; now rewrite E).
  assert (Er : forall j, In (fst j) live -> reset_addr st' j = reset_addr st j) by (intros j L; unfold reset_addr; now rewrite E).
  assert (Eh : forall j, In (fst j) live -> has_jump st' j -> has_jump st j) by (intros j L; unfold has_jump; now rewrite E).
  assert (Eb : forall j, In (fst j) live -> has_jump st j -> branch_target st' (jmp_addr st j) = branch_target st (jmp_addr st j))
    by (intros j L X; unfold branch_target; now rewrite Hc).
  constructor.
  - intros X L; rewrite E by assumption; now apply A.
  - intros j L X; rewrite Ej, Er, Hc by auto; apply B; auto.
  - intros j k L L' X Y; rewrite !Ej by assumption; apply C; auto.
  - intros X j L I; assert (X0 := D X j L I); unfold has_jump in *; now rewrite E by (eapply Mem; eauto).
  - intros X j L L' I; rewrite Ej, E, Eb by eauto; now apply F.
  - intros j L X N; rewrite Ej, Er, Eb by auto; apply G; auto.
Qed.

(** Blocks that are not in use, and code without jumps in use, may change. *)
Lemma ctx_local base live J PL (c : tb_context T) st :
  ctx_ok base live J PL c ->
  (forall a, In a live -> tb_at st a = tb_of c a) ->
  (forall j, In (fst j) live -> has_jump (store c) j -> host_code st (jmp_addr (store c) j) = host_code (store c) (jmp_addr (store c) j)) ->
  ctx_ok base live J PL (set_store c st).
Proof.
  intros [[Lo Co] Pg Tb En Ca Fl] E Hc.
  assert (Et : forall a, In a live -> tb_of (set_store c st) a = tb_of c a) by exact E; constructor; auto.
  - split; [now apply (lists_local live J (store c))|apply (code_local base live J (store c)); auto].
    intros X j L I; now apply (lo_member _ _ _ Lo X).
  - destruct Pg as [B P N D M]; constructor; auto.
    + intros a L; rewrite Et by assumption; now apply B.
    + intros q Hq F; apply (page_path_move c _ (PHead q)); [reflexivity| |now apply P].
      intros j I; apply M in I as [L _]; [|assumption]; cbn [page_jump read_page]; now rewrite Et.
    + intros q j Hq; rewrite M by assumption; split; intros (L & X & O); splits; auto;
        rewrite Et in * by assumption; exact O.
  - intros p h; change (htable (set_store c st)) with (htable c); rewrite En; split; intros [L ->]; (split; [exact L|]);
      now rewrite Et.
  - intros cache i I N; destruct (Ca cache i I N) as [L X]; split; [exact L|]; now rewrite Et.
Qed.

End Local.

(** ** The invariant of generation *)

Record config_ok (cfg : tcg_config) : Prop := {
  cf_tbs : tbs cfg mod 4 = 0 /\ 0 < tbs cfg;
  cf_blocks : 1 <= code_gen_max_blocks cfg /\ tbs cfg + code_gen_max_blocks cfg * sizeof_TB < 2 ^ 32;
  cf_buffer : code_gen_buffer cfg mod 16 = 0 /\ 0 < code_gen_buffer cfg;
  cf_size : code_gen_buffer_size cfg < MAX_CODE_GEN_BUFFER_SIZE /\ code_gen_buffer cfg + MAX_CODE_GEN_BUFFER_SIZE < 2 ^ 32 - 2 ^ 16;
  cf_high : code_gen_buffer cfg <= code_gen_highwater cfg /\
            code_gen_highwater cfg + 16 <= code_gen_buffer cfg + code_gen_buffer_size cfg;
  cf_page : exists k, 12 <= k <= 20 /\ qemu_host_page_size cfg = 2 ^ k
}.

(** The bytes at [tc_search] describe the instructions of the block. *)
Definition search_ok (cfg : tcg_config) (t : TranslationBlock) (bytes : list Z) : Prop :=
  exists block rows, encode_search (code_gen_highwater cfg) block (tb_pc t) rows = Some bytes /\
    Forall row_wf rows /\ tb_icount t = Z.of_nat (length rows) /\ inU 32 (tb_pc t).

Section Invariant.
Context {T : Type} `{HashTable T}.
Variable cfg : tcg_config.
Hypothesis Cf : config_ok cfg.
Implicit Types g : gen_state T.

Definition tc_at (g : gen_state T) (i : Z) : Z := tc_ptr (block_at g (tb_addr cfg i)).

(** The first [n] blocks have code below [p], in order. *)
Record in_order (g : gen_state T) (n p : Z) : Prop := {
  io_count : 0 <= n <= code_gen_max_blocks cfg;
  io_ptr : code_gen_buffer cfg <= p <= code_gen_buffer cfg + code_gen_buffer_size cfg /\ p mod 16 = 0;
  io_empty : n = 0 -> p = code_gen_buffer cfg;
  io_first : 0 < n -> tc_at g 0 = code_gen_buffer cfg;
  io_sorted : forall i j, 0 <= i -> i < j -> j < n -> tc_at g i < tc_at g j;
  io_below : forall i, 0 <= i < n -> tc_at g i < p;
  io_aligned : forall i, 0 <= i < n -> tc_at g i mod 16 = 0;
  io_search : forall i, 0 <= i < n -> search_ok cfg (block_at g (tb_addr cfg i)) (search_data g (tb_addr cfg i))
}.

(** Where the code of block [i] ends. *)
Definition code_end (g : gen_state T) (i : Z) : Z := if i + 1 <? nb_tbs g then tc_at g (i + 1) else code_gen_ptr g.

Record gen_ok (live : list Z) (J PL : Z -> list jump) (g : gen_state T) : Prop := {
  go_ctx : ctx_ok (code_gen_buffer cfg) live J PL (ctx g);
  go_order : in_order g (nb_tbs g) (code_gen_ptr g);
  go_live : forall a, In a live -> exists i, 0 <= i < nb_tbs g /\ a = tb_addr cfg i;
  go_jumps : forall i n, 0 <= i < nb_tbs g -> In (tb_addr cfg i) live -> has_jump (store (ctx g)) (tb_addr cfg i, n) ->
    jmp_addr (store (ctx g)) (tb_addr cfg i, n) < code_end g i
}.

Lemma jumps_below live J PL g j :
  gen_ok live J PL g -> In (fst j) live -> has_jump (store (ctx g)) j -> jmp_addr (store (ctx g)) j < code_gen_ptr g.
Proof.
  destruct j as [a n]; cbn [fst]; intros ok L X; destruct (go_live _ _ _ _ ok a L) as (i & Hi & ->).
  assert (Y := go_jumps _ _ _ _ ok i n Hi L X); unfold code_end in Y; destruct (Z.ltb_spec (i + 1) (nb_tbs g)); [|exact Y].
  assert (Z0 := io_below _ _ _ (go_order _ _ _ _ ok) (i + 1)); lia.
Qed.

Lemma tb_addr_ptr i : 0 <= i < code_gen_max_blocks cfg -> is_tb_ptr (tb_addr cfg i).
Proof.
  destruct Cf as [[A B] [C D] _ _ _ _]; intros Hi; unfold is_tb_ptr, inU, tb_addr, sizeof_TB in *; splits; try nia.
  change 3 with (Z.ones 2); rewrite Z.land_ones by lia; change (2 ^ 2) with 4.
  rewrite Z.add_mod, A by lia; replace (i * 68) with (i * 17 * 4) by lia; rewrite Z_mod_mult; reflexivity.
Qed.

Lemma tb_addr_inj i j : tb_addr cfg i = tb_addr cfg j -> i = j.
Proof. unfold tb_addr, sizeof_TB; lia. Qed.

(** ** Flushing *)

Lemma flushed_page l q : page_find (page_flush_tb l) q = option_map (fun p => mkPage 0 (page_flags p)) (page_find l q).
Proof.
  unfold page_find, page_flush_tb.
  assert (H1 : 0 <= l1_index q < 1024).
  { unfold l1_index; change (V_L1_SIZE - 1) with (Z.ones 10); rewrite Z.land_ones by lia; apply Z.mod_pos_bound; lia. }
  assert (H2 : 0 <= l2_index q < 1024) by (rewrite l2_index_mod; apply Z.mod_pos_bound; lia).
  change V_L1_SIZE with 1024; rewrite (proj2 (Z.leb_le 0 _)), (proj2 (Z.ltb_lt _ 1024)) by lia; cbn [andb].
  destruct (l (l1_index q)) as [pd|]; [|reflexivity]; cbn [option_map]; unfold page_flush_tb_1; change V_L2_SIZE with 1024.
  now rewrite (proj2 (Z.leb_le 0 _)), (proj2 (Z.ltb_lt _ 1024)) by lia.
Qed.

Lemma flush_ok g :
  tab_ok (htable (ctx g)) ->
  code_gen_buffer cfg <= code_gen_ptr g <= code_gen_buffer cfg + code_gen_buffer_size cfg ->
  exists g', tb_flush cfg g = Some g' /\ gen_ok [] (fun _ => []) (fun _ => []) g' /\ nb_tbs g' = 0 /\
    code_gen_ptr g' = code_gen_buffer cfg /\ tb_flushed g' = map (fun _ => true) (tb_flushed g) /\
    tb_flush_count g' = tb_flush_count g + 1 /\ length (jmp_caches (ctx g')) = length (jmp_caches (ctx g)).
Proof.
  intros W P; destruct Cf as [_ [Cb _] [Cm Cp] [Cs Cs'] [Ch Ch'] _]; unfold tb_flush.
  unfold MAX_CODE_GEN_BUFFER_SIZE in *.
  rewrite (proj2 (Z.eqb_neq _ 0)) by lia; rewrite wrap_id by (unfold inU; lia).
  rewrite (proj2 (Z.ltb_ge _ _)) by lia.
  destruct (tab_reset_ok (htable (ctx g)) CODE_GEN_HTABLE_SIZE W) as (r & ht & -> & W' & E); [cbn; lia|].
  eexists; split; [reflexivity|]; splits; try reflexivity; [|cbn; apply length_map].
  constructor; cbn [ctx nb_tbs code_gen_ptr store]; try (intros ? []; fail).
  - constructor; cbn [store htable jmp_caches l1_map].
    + split; constructor; cbn; tauto.
    + constructor; cbn [In]; try tauto; try (intros; constructor).
      intros q Hq F; cbn [page_path read_page l1_map]; rewrite flushed_page.
      destruct (page_find (l1_map (ctx g)) q); reflexivity.
    + exact W'.
    + intros p h; rewrite E; cbn; tauto.
    + intros cache i I N; apply in_map_iff in I as (c0 & <- & _); now destruct N.
    + intros q p _ _ N; now destruct N.
  - constructor; cbn [nb_tbs code_gen_ptr]; try lia.
  - intros i n _ [].
Qed.

(** ** One attempt *)

Lemma write_words_below ws : forall code p a, a < p -> write_words code p ws a = code a.
Proof.
  induction ws as [|w ws IH]; intros code p a L; cbn [write_words]; [reflexivity|].
  rewrite IH by lia; unfold set_fun; now rewrite (proj2 (Z.eqb_neq a p)) by lia.
Qed.

Lemma write_words_at ws : forall code p k, (k < length ws)%nat -> write_words code p ws (p + 4 * Z.of_nat k) = nth k ws 0.
Proof.
  induction ws as [|w ws IH]; intros code p [|k] L; cbn [length] in L; try lia; cbn [write_words nth].
  - rewrite write_words_below by lia; unfold set_fun; now rewrite (proj2 (Z.eqb_eq _ p)) by lia.
  - rewrite <- (IH (set_fun code p w) (p + 4) k) by lia; f_equal; lia.
Qed.

Lemma encode_rows_end hw rows : forall prev p bytes,
  encode_rows hw p prev rows = Some bytes -> p <= hw -> p + Z.of_nat (length bytes) <= hw.
Proof.
  induction rows as [|row rows IH]; intros prev p bytes E L; cbn [encode_rows] in E; [injection E as <-; cbn; lia|].
  destruct (encode_row prev row) as [b|]; [|discriminate]; destruct (Z.ltb_spec hw (p + Z.of_nat (length b))); [discriminate|].
  destruct (encode_rows hw _ row rows) as [r|] eqn:R; [|discriminate]; injection E as <-.
  apply IH in R; [|assumption]; rewrite length_app; lia.
Qed.

Lemma round_up_16 n : 0 <= n -> n + 15 < 2 ^ 32 -> n <= ROUND_UP n CODE_GEN_ALIGN <= n + 15 /\ ROUND_UP n CODE_GEN_ALIGN mod 16 = 0.
Proof.
  intros P B; unfold ROUND_UP, CODE_GEN_ALIGN; rewrite wrap_id by (unfold inU; lia).
  change (u32 (Z.opp 16)) with (u32 (- 2 ^ 4)); rewrite mask_mod by (unfold inU; lia); change (2 ^ 4) with 16.
  pose proof (Z.mod_pos_bound (n + 16 - 1) 16); pose proof (Z.div_mod (n + 16 - 1) 16); split; [lia|].
  replace (n + 16 - 1 - (n + 16 - 1) mod 16) with ((n + 16 - 1) / 16 * 16) by lia; apply Z_mod_mult.
Qed.

Variable translate : Z -> Z -> Z -> Z -> Z -> translation.

(** The states in which the translator of this repository reads an instruction:
    A32 or T32 code below the kernel page, with no pending single step.  In the
    others it leaves the loop before the first one and gives the size 0, or, for
    A64, does nothing. *)
Definition decodes (pc flags : Z) : Prop :=
  pc < 0xffff0000 /\ ARM_TBFLAG_AARCH64_STATE flags = 0 /\
  (ARM_TBFLAG_SS_ACTIVE flags = 0 \/ ARM_TBFLAG_PSTATE_SS flags <> 0).

(** What a translation has to be: one to 4096 bytes of guest code, words of
    host code that end below the high-water mark unless an overflow is
    reported, and jumps within the code. *)
Record translation_ok (ptr : Z) (tr : translation) : Prop := {
  tk_size : 1 <= tr_size tr <= 4096;
  tk_rows : Forall row_wf (tr_rows tr);
  tk_words : Forall (inU 32) (tr_code tr);
  tk_fits : tr_overflow tr = false ->
    tr_code tr <> [] /\ ptr + 4 * Z.of_nat (length (tr_code tr)) <= code_gen_highwater cfg;
  tk_jump : tr_overflow tr = false -> forall n, is_n n -> sel2 (tr_reset tr) n <> TB_JMP_RESET_OFFSET_INVALID ->
    (exists k, (k < length (tr_code tr))%nat /\ sel2 (tr_insn tr) n = 4 * Z.of_nat k) /\
    (exists k, (k <= length (tr_code tr))%nat /\ sel2 (tr_reset tr) n = 4 * Z.of_nat k);
  tk_apart : tr_overflow tr = false -> sel2 (tr_reset tr) 0 <> TB_JMP_RESET_OFFSET_INVALID ->
    sel2 (tr_reset tr) 1 <> TB_JMP_RESET_OFFSET_INVALID -> sel2 (tr_insn tr) 0 <> sel2 (tr_insn tr) 1
}.

Hypothesis translate_ok : forall pc cs_base flags cflags ptr,
  decodes pc flags -> translation_ok ptr (translate pc cs_base flags cflags ptr).

(** The state in which an attempt leaves the block [tb]. *)
Record attempted (g g' : gen_state T) (tb pc cs_base flags cflags : Z) (tr : translation) : Prop := {
  at_ctx : exists st, ctx g' = set_store (ctx g) st;
  at_other : forall a, a <> tb -> block_at g' a = block_at g a;
  at_block : let t := block_at g' tb in
    tb_pc t = pc /\ tb_cs_base t = cs_base /\ tb_flags t = flags /\ tb_cflags t = cflags /\ tb_size t = tr_size tr /\
    tb_icount t = Z.of_nat (length (tr_rows tr)) /\ tc_ptr t = code_gen_ptr g /\ jmp_reset_offset t = tr_reset tr /\
    jmp_insn_offset t = tr_insn tr;
  at_code : host_code (store (ctx g')) = write_words (host_code (store (ctx g))) (code_gen_ptr g) (tr_code tr);
  at_nb : nb_tbs g' = nb_tbs g + 1;
  at_flushed : tb_flushed g' = tb_flushed g /\ tb_flush_count g' = tb_flush_count g;
  at_search : forall a, a <> tb -> search_data g' a = search_data g a
}.

Lemma attempt_cases g pc cs_base flags cflags :
  nb_tbs g < code_gen_max_blocks cfg ->
  let tb := tb_addr cfg (nb_tbs g) in
  let tr := translate pc cs_base flags cflags (code_gen_ptr g) in
  let stop := code_gen_ptr g + 4 * Z.of_nat (length (tr_code tr)) in
  exists g1, tb_alloc cfg g pc = (g1, tb) /\
  match gen_attempt cfg translate g1 tb pc cs_base flags cflags with
  | inl g' => attempted g g' tb pc cs_base flags cflags tr /\ code_gen_ptr g' = code_gen_ptr g /\
      (tr_overflow tr = true \/ encode_search (code_gen_highwater cfg) stop pc (tr_rows tr) = None)
  | inr g' => attempted g g' tb pc cs_base flags cflags tr /\ tr_overflow tr = false /\
      exists bytes, encode_search (code_gen_highwater cfg) stop pc (tr_rows tr) = Some bytes /\ search_data g' tb = bytes /\
        code_gen_ptr g' = ROUND_UP (stop + Z.of_nat (length bytes)) CODE_GEN_ALIGN
  end.
Proof.
  intros L; cbv zeta; unfold tb_alloc; rewrite Z.geb_leb, (proj2 (Z.leb_gt _ _)) by lia.
  eexists; split; [reflexivity|]; set (tb := tb_addr cfg (nb_tbs g)); unfold gen_attempt; cbv zeta.
  set (tr := translate _ _ _ _ _).
  match goal with |- context [if tr_overflow tr then inl ?x else _] => set (g2 := x) end.
  match goal with |- context [encode_search _ _ ?p _] => assert (Ep : p = pc) end.
  { unfold block_at, put_tb, tb_of; cbn; unfold set_fun; now rewrite !Z.eqb_refl. }
  rewrite Ep.
  assert (At : attempted g g2 tb pc cs_base flags cflags tr).
  { constructor; try reflexivity; try (split; reflexivity).
    - eexists; reflexivity.
    - intros a N; unfold g2, block_at, tb_of; cbn; unfold set_fun; now rewrite (proj2 (Z.eqb_neq a tb) N).
    - unfold g2, block_at, tb_of; cbn; unfold set_fun; rewrite !Z.eqb_refl; cbn; now splits. }
  change (code_gen_ptr (put_tb _ _ _)) with (code_gen_ptr g).
  destruct (tr_overflow tr) eqn:Ov; [splits; auto|].
  destruct (encode_search _ _ _ _) as [bytes|] eqn:Es; [|splits; auto].
  splits; [|reflexivity|].
  - destruct At as [A B C D E F G]; constructor; auto.
    intros a N; cbn; unfold set_fun; now rewrite (proj2 (Z.eqb_neq a tb) N).
  - exists bytes; splits; [reflexivity| |reflexivity]; cbn; unfold set_fun; now rewrite Z.eqb_refl.
Qed.

Lemma next_not_live live J PL g : gen_ok live J PL g -> ~ In (tb_addr cfg (nb_tbs g)) live.
Proof.
  intros ok I; destruct (go_live _ _ _ _ ok _ I) as (i & Hi & E); apply tb_addr_inj in E; lia.
Qed.

Lemma attempted_ctx live J PL g g' pc cs_base flags cflags tr :
  gen_ok live J PL g -> attempted g g' (tb_addr cfg (nb_tbs g)) pc cs_base flags cflags tr ->
  ctx_ok (code_gen_buffer cfg) live J PL (ctx g').
Proof.
  intros ok At; assert (N := next_not_live _ _ _ _ ok); destruct (at_ctx _ _ _ _ _ _ _ _ At) as (st & E); rewrite E.
  assert (O := at_other _ _ _ _ _ _ _ _ At); assert (Hc := at_code _ _ _ _ _ _ _ _ At).
  unfold block_at, tb_of in O; rewrite E in O, Hc; cbn [store set_store] in O, Hc.
  apply ctx_local; [apply ok| |].
  - intros a L; apply O; congruence.
  - intros j L X; rewrite Hc; apply write_words_below; now apply (jumps_below live J PL).
Qed.

(** The addresses in the code of the new block. *)
Lemma attempted_jumps g g' tb pc cs_base flags cflags tr n :
  attempted g g' tb pc cs_base flags cflags tr -> translation_ok (code_gen_ptr g) tr -> tr_overflow tr = false ->
  0 <= code_gen_ptr g -> has_jump (store (ctx g')) (tb, n) ->
  let stop := code_gen_ptr g + 4 * Z.of_nat (length (tr_code tr)) in
  is_n n /\ sel2 (tr_reset tr) n <> TB_JMP_RESET_OFFSET_INVALID /\
  jmp_addr (store (ctx g')) (tb, n) = code_gen_ptr g + sel2 (tr_insn tr) n /\
  (exists k, (k < length (tr_code tr))%nat /\ sel2 (tr_insn tr) n = 4 * Z.of_nat k) /\
  (exists k, (k <= length (tr_code tr))%nat /\ reset_addr (store (ctx g')) (tb, n) = code_gen_ptr g + 4 * Z.of_nat k).
Proof.
  intros At Tk Ov P [Nn X]; cbv zeta; cbn [fst snd] in *; destruct (at_block _ _ _ _ _ _ _ _ At) as (_ & _ & _ & _ & _ & _ & Et & Er & Ei).
  unfold block_at, tb_of in *; rewrite Er in X.
  destruct (tk_fits _ _ Tk Ov) as [_ Fi]; destruct Cf as [_ _ _ [Cs Cs'] [_ Ch] _].
  destruct (tk_jump _ _ Tk Ov n Nn X) as [(k & Lk & Ek) (k' & Lk' & Ek')].
  splits; auto; [|now exists k|exists k'; split; [exact Lk'|]]; unfold jmp_addr, reset_addr; cbn [fst snd]; rewrite Et, ?Er, ?Ei, ?Ek, ?Ek';
    apply wrap_id; unfold inU; lia.
Qed.

Lemma attempted_fresh live J PL g g' pc cs_base flags cflags tr :
  gen_ok live J PL g -> nb_tbs g < code_gen_max_blocks cfg ->
  attempted g g' (tb_addr cfg (nb_tbs g)) pc cs_base flags cflags tr ->
  translation_ok (code_gen_ptr g) tr -> tr_overflow tr = false ->
  fresh_block (code_gen_buffer cfg) live (store (ctx g')) (tb_addr cfg (nb_tbs g)).
Proof.
  intros ok Ln At Tk Ov; set (tb := tb_addr cfg (nb_tbs g)) in *.
  destruct (io_ptr _ _ _ (go_order _ _ _ _ ok)) as [Pr Pm]; destruct (tk_fits _ _ Tk Ov) as [_ Fi].
  pose proof (io_count _ _ _ (go_order _ _ _ _ ok)) as Cn.
  assert (Cf' := Cf); destruct Cf' as [_ _ [Cb Cb'] [Cs Cs'] [_ Ch] _].
  assert (M4 : forall k, (code_gen_ptr g + 4 * k) mod 4 = 0).
  { intros k; rewrite (Z.div_mod (code_gen_ptr g) 16), Pm by lia.
    replace (16 * (code_gen_ptr g / 16) + 0 + 4 * k) with ((4 * (code_gen_ptr g / 16) + k) * 4) by lia; apply Z_mod_mult. }
  assert (Jm := fun n => attempted_jumps g g' tb pc cs_base flags cflags tr n At Tk Ov ltac:(lia)); cbv zeta in Jm.
  constructor.
  - apply tb_addr_ptr; lia.
  - apply (next_not_live live J PL); exact ok.
  - destruct (at_block _ _ _ _ _ _ _ _ At) as (_ & _ & _ & _ & _ & _ & Et & _); unfold block_at, tb_of in Et; rewrite Et.
    unfold in_buffer; specialize (M4 0); rewrite Z.mul_0_r, Z.add_0_r in M4; lia.
  - intros n X; destruct (Jm n X) as (Nn & Rn & -> & (k & Lk & ->) & (k' & Lk' & ->)); splits.
    + unfold in_buffer; rewrite M4; lia.
    + unfold in_buffer; rewrite M4; lia.
    + rewrite (at_code _ _ _ _ _ _ _ _ At), write_words_at by assumption.
      assert (W := tk_words _ _ Tk); rewrite Forall_forall in W; now apply W, nth_In.
  - intros n [a m] X L Y; destruct (Jm n X) as (Nn & Rn & -> & (k & Lk & Ek) & _); destruct L as [L|L]; cbn [fst] in L.
    + subst a; destruct (Jm m Y) as (Nm & Rm & -> & _); intros E; f_equal.
      destruct Nn as [-> | ->], Nm as [-> | ->]; try reflexivity; exfalso; apply (tk_apart _ _ Tk Ov); auto; lia.
    + assert (Na : a <> tb) by (intros ->; now apply (next_not_live live J PL g ok)).
      assert (O := at_other _ _ _ _ _ _ _ _ At a Na); unfold block_at, tb_of in O.
      assert (Yg : has_jump (store (ctx g)) (a, m)) by (unfold has_jump in *; cbn [fst snd] in *; now rewrite <- O).
      assert (Lt := jumps_below live J PL g (a, m) ok L Yg); unfold jmp_addr in *; cbn [fst snd] in *; rewrite O; lia.
Qed.

(** ** The block is published *)

(** Guest addresses at which code may start. *)
Definition guest_pc (pc : Z) : Prop := 0 <= pc /\ pc + 4096 + qemu_host_page_size cfg < 2 ^ 32.

Definition guest_code (pc flags : Z) : Prop := guest_pc pc /\ decodes pc flags.

Definition has_key (t : TranslationBlock) (pc cs_base flags cflags : Z) : Prop :=
  tb_pc t = pc /\ tb_cs_base t = cs_base /\ tb_flags t = flags /\ tb_cflags t = cflags.

Lemma order_next g g' tb pc cs_base flags cflags tr bytes :
  let stop := code_gen_ptr g + 4 * Z.of_nat (length (tr_code tr)) in
  in_order g (nb_tbs g) (code_gen_ptr g) -> nb_tbs g < code_gen_max_blocks cfg -> tb = tb_addr cfg (nb_tbs g) ->
  attempted g g' tb pc cs_base flags cflags tr -> translation_ok (code_gen_ptr g) tr -> tr_overflow tr = false ->
  encode_search (code_gen_highwater cfg) stop pc (tr_rows tr) = Some bytes -> search_data g' tb = bytes ->
  code_gen_ptr g' = ROUND_UP (stop + Z.of_nat (length bytes)) CODE_GEN_ALIGN -> guest_pc pc ->
  in_order g' (nb_tbs g') (code_gen_ptr g') /\ stop <= code_gen_ptr g'.
Proof.
  intros stop [Ic [Ip Im] Fst If Is Ib Ia Ih] L Etb At Tk Ov Es Ed Ec [P0 P1]; subst tb.
  assert (Cf' := Cf); destruct Cf' as [_ _ [Cb Cb'] [Cs Cs'] [_ Ch] (k & Hk & Eh)].
  destruct (tk_fits _ _ Tk Ov) as [Ne Fi]; fold stop in Fi.
  assert (Sb := encode_rows_end _ _ _ _ _ Es Fi).
  assert (Sl : code_gen_ptr g < stop) by (unfold stop; destruct (tr_code tr); [congruence|cbn [length]; lia]).
  destruct (round_up_16 (stop + Z.of_nat (length bytes))) as [R Rm]; [lia|lia|]; rewrite <- Ec in R, Rm.
  destruct (at_block _ _ _ _ _ _ _ _ At) as (Kp & _ & _ & _ & _ & Ki & Kt & _).
  assert (To : forall i, i <> nb_tbs g -> tc_at g' i = tc_at g i).
  { intros i N; unfold tc_at; rewrite (at_other _ _ _ _ _ _ _ _ At); [reflexivity|]; intros X; now apply tb_addr_inj in X. }
  assert (Tn : tc_at g' (nb_tbs g) = code_gen_ptr g) by exact Kt.
  split; [rewrite (at_nb _ _ _ _ _ _ _ _ At)|lia]; constructor; try lia.
  - intros _; destruct (Z.eq_dec 0 (nb_tbs g)) as [E|N]; [rewrite E, Tn; now apply Fst|rewrite To by assumption; apply If; lia].
  - intros i j Hi Hij Hj; rewrite (To i) by lia; destruct (Z.eq_dec j (nb_tbs g)) as [->|N]; [rewrite Tn; apply Ib; lia|].
    rewrite To by assumption; apply Is; lia.
  - intros i Hi; destruct (Z.eq_dec i (nb_tbs g)) as [->|N]; [rewrite Tn; lia|].
    rewrite To by assumption; assert (X := Ib i); lia.
  - intros i Hi; destruct (Z.eq_dec i (nb_tbs g)) as [->|N]; [now rewrite Tn|rewrite To by assumption; apply Ia; lia].
  - intros i Hi; destruct (Z.eq_dec i (nb_tbs g)) as [->|N].
    + exists stop, (tr_rows tr); rewrite Kp, Ed; splits; [exact Es|apply Tk|exact Ki|].
      assert (0 < 2 ^ k) by (apply Z.pow_pos_nonneg; lia); unfold inU; lia.
    + assert (Na : tb_addr cfg i <> tb_addr cfg (nb_tbs g)) by (intros X; now apply tb_addr_inj in X).
      rewrite (at_other _ _ _ _ _ _ _ _ At _ Na), (at_search _ _ _ _ _ _ _ _ At _ Na); apply Ih; lia.
Qed.

(** Blocks keep their code when the context is rearranged. *)
Definition same_code (t t' : TranslationBlock) : Prop :=
  tb_pc t' = tb_pc t /\ tc_ptr t' = tc_ptr t /\ tb_icount t' = tb_icount t /\
  jmp_reset_offset t' = jmp_reset_offset t /\ jmp_insn_offset t' = jmp_insn_offset t.

Lemma block_code t t' : same_block t t' -> same_code t t'.
Proof. unfold same_block, same_code; tauto. Qed.

Lemma key_code t t' : same_key t t' -> same_code t t'.
Proof. unfold same_key, same_code; tauto. Qed.

Lemma order_code g c n p : (forall a, same_code (block_at g a) (tb_of c a)) -> in_order g n p -> in_order (set_ctx g c) n p.
Proof.
  intros S [A B Z0 C D E Al F].
  assert (Et : forall i, tc_at (set_ctx g c) i = tc_at g i) by (intros i; apply S).
  constructor; auto; intros; rewrite ?Et; auto.
  assert (X := S (tb_addr cfg i)); destruct X as (Xp & _ & Xi & _); destruct (F i) as (block & rows & R); [assumption|].
  exists block, rows; change (block_at (set_ctx g c) (tb_addr cfg i)) with (tb_of c (tb_addr cfg i)); rewrite Xp, Xi; exact R.
Qed.

Lemma jumps_code st st' a : same_code (tb_at st a) (tb_at st' a) ->
  forall n, jmp_addr st' (a, n) = jmp_addr st (a, n) /\ (has_jump st' (a, n) <-> has_jump st (a, n)).
Proof.
  intros (_ & A & _ & B & C) n; unfold jmp_addr, has_jump; cbn [fst snd]; rewrite A, B, C; split; reflexivity.
Qed.

(** The jumps of all blocks lie in their code. *)
Lemma published_jumps live J PL g g' c' pc cs_base flags cflags tr i n :
  let tb := tb_addr cfg (nb_tbs g) in
  gen_ok live J PL g -> attempted g g' tb pc cs_base flags cflags tr -> translation_ok (code_gen_ptr g) tr ->
  tr_overflow tr = false -> code_gen_ptr g + 4 * Z.of_nat (length (tr_code tr)) <= code_gen_ptr g' ->
  (forall a, same_code (block_at g' a) (tb_of c' a)) -> 0 <= i < nb_tbs (set_ctx g' c') ->
  In (tb_addr cfg i) (tb :: live) -> has_jump (store c') (tb_addr cfg i, n) ->
  jmp_addr (store c') (tb_addr cfg i, n) < code_end (set_ctx g' c') i.
Proof.
  intros tb ok At Tk Ov Sp Sc; unfold code_end; change (nb_tbs (set_ctx g' c')) with (nb_tbs g').
  change (code_gen_ptr (set_ctx g' c')) with (code_gen_ptr g'); rewrite (at_nb _ _ _ _ _ _ _ _ At); intros Hi La X.
  assert (Tc : forall i, tc_at (set_ctx g' c') i = tc_at g' i) by (intros k; apply Sc).
  destruct (jumps_code (store (ctx g')) (store c') (tb_addr cfg i) (Sc _) n) as [-> Xj]; apply Xj in X; rewrite Tc.
  destruct (Z.eq_dec i (nb_tbs g)) as [->|Ni].
  - fold tb in X |- *; rewrite (proj2 (Z.ltb_ge _ _)) by lia.
    pose proof (proj1 (io_ptr _ _ _ (go_order _ _ _ _ ok))); destruct Cf as [_ _ [_ Cb] _ _ _].
    destruct (attempted_jumps g g' tb pc cs_base flags cflags tr n At Tk Ov ltac:(lia) X) as (_ & _ & -> & (k & Lk & ->) & _); lia.
  - assert (Na : tb_addr cfg i <> tb) by (intros Y; now apply tb_addr_inj in Y).
    assert (Li : In (tb_addr cfg i) live) by (destruct La as [La|La]; [congruence|exact La]).
    assert (O := at_other _ _ _ _ _ _ _ _ At _ Na); unfold block_at, tb_of in O.
    assert (Xg : has_jump (store (ctx g)) (tb_addr cfg i, n)) by (unfold has_jump in *; cbn [fst snd] in *; now rewrite <- O).
    assert (Lt := go_jumps _ _ _ _ ok i n ltac:(lia) Li Xg); unfold jmp_addr in *; cbn [fst snd] in *; rewrite O.
    rewrite (proj2 (Z.ltb_lt _ _)) by lia; unfold code_end in Lt; destruct (Z.ltb_spec (i + 1) (nb_tbs g)) as [Y|Y].
    + unfold tc_at at 1; rewrite (at_other _ _ _ _ _ _ _ _ At); [exact Lt|]; intros Z0; apply tb_addr_inj in Z0; lia.
    + replace (i + 1) with (nb_tbs g) by lia; destruct (at_block _ _ _ _ _ _ _ _ At) as (_ & _ & _ & _ & _ & _ & Kt & _).
      unfold tc_at; fold tb; now rewrite Kt.
Qed.

Lemma finish_ok busy live J PL g g' pc cs_base flags cflags tr bytes :
  let tb := tb_addr cfg (nb_tbs g) in
  let stop := code_gen_ptr g + 4 * Z.of_nat (length (tr_code tr)) in
  gen_ok live J PL g -> nb_tbs g < code_gen_max_blocks cfg ->
  attempted g g' tb pc cs_base flags cflags tr -> translation_ok (code_gen_ptr g) tr -> tr_overflow tr = false ->
  encode_search (code_gen_highwater cfg) stop pc (tr_rows tr) = Some bytes -> search_data g' tb = bytes ->
  code_gen_ptr g' = ROUND_UP (stop + Z.of_nat (length bytes)) CODE_GEN_ALIGN -> guest_pc pc ->
  exists PL' c', tb_publish (qemu_host_page_size cfg) busy (ctx g') tb = Some c' /\
    gen_ok (tb :: live) (upd_fun J tb []) PL' (set_ctx g' c') /\
    (forall a, a <> tb -> same_block (block_at g a) (tb_of c' a)) /\ has_key (tb_of c' tb) pc cs_base flags cflags.
Proof.
  intros tb stop ok L At Tk Ov Es Ed Ec Gp.
  destruct (order_next g g' tb pc cs_base flags cflags tr bytes (go_order _ _ _ _ ok) L eq_refl At Tk Ov Es Ed Ec Gp) as [Io Sp].
  assert (Fb := attempted_fresh live J PL g g' pc cs_base flags cflags tr ok L At Tk Ov).
  destruct (at_block _ _ _ _ _ _ _ _ At) as (Kp & Kc & Kf & Kl & Ks & _).
  destruct Gp as [P0 P1]; assert (Sz := tk_size _ _ Tk).
  destruct (publish_ok (qemu_host_page_size cfg) (cf_page _ Cf) busy (code_gen_buffer cfg) live J PL (ctx g') tb)
    as (PL' & c' & E & ok' & B & K); [now apply (attempted_ctx live J PL g g' pc cs_base flags cflags tr)|exact Fb|..].
  1-3: change (tb_of (ctx g') tb) with (block_at g' tb); rewrite ?Kp, ?Ks; lia.
  assert (Sc : forall a, same_code (block_at g' a) (tb_of c' a)).
  { intros a; destruct (Z.eq_dec a tb) as [->|N]; [apply key_code, K|apply block_code; now apply B]. }
  exists PL', c'; splits; [exact E| | |].
  - constructor; cbn [ctx set_ctx]; [exact ok'|now apply order_code| |].
    + change (nb_tbs (set_ctx g' c')) with (nb_tbs g'); rewrite (at_nb _ _ _ _ _ _ _ _ At).
      pose proof (io_count _ _ _ (go_order _ _ _ _ ok)).
      intros a [<-|La]; [exists (nb_tbs g); split; [lia|reflexivity]|].
      destruct (go_live _ _ _ _ ok a La) as (i & Hi & ->); exists i; split; [lia|reflexivity].
    + intros i n Hi La X; apply (published_jumps live J PL g g' c' pc cs_base flags cflags tr); auto.
  - intros a N; rewrite <- (at_other _ _ _ _ _ _ _ _ At a N); now apply B.
  - unfold has_key; destruct K as (-> & -> & -> & _ & -> & _); change (tb_of (ctx g') tb) with (block_at g' tb).
    rewrite Kp, Kc, Kf, Kl; now splits.
Qed.

(** ** Generation *)

(** The translation of any block fits in the empty buffer. *)
Hypothesis translate_fits : forall pc cs_base flags cflags, decodes pc flags ->
  let tr := translate pc cs_base flags cflags (code_gen_buffer cfg) in
  tr_overflow tr = false /\
  code_gen_buffer cfg + 4 * Z.of_nat (length (tr_code tr)) + 20 * Z.of_nat (length (tr_rows tr)) <= code_gen_highwater cfg.

(** The new block joins the others, or all others are gone and there was one flush. *)
Definition joins (live : list Z) (J : Z -> list jump) (g g' : gen_state T) (tb : Z) (live' : list Z) (J' : Z -> list jump) : Prop :=
  (live' = tb :: live /\ J' = upd_fun J tb [] /\ ~ In tb live /\ tb_flushed g' = tb_flushed g /\ tb_flush_count g' = tb_flush_count g /\
   (forall a, a <> tb -> same_block (block_at g a) (block_at g' a))) \/
  (live' = [tb] /\ J' = upd_fun (fun _ => []) tb [] /\ tb_flushed g' = map (fun _ => true) (tb_flushed g) /\
   tb_flush_count g' = tb_flush_count g + 1).

(** What remains to be done with the block [tb] of [g]. *)
Definition publishes (busy : bool) (r : option (gen_state T * Z)) (tb : Z)
    (live' : list Z) (J' : Z -> list jump) (key : TranslationBlock -> Prop) (P : gen_state T -> Prop) : Prop :=
  exists g1 PL' c', r = Some (g1, tb) /\ tb_publish (qemu_host_page_size cfg) busy (ctx g1) tb = Some c' /\
    gen_ok live' J' PL' (set_ctx g1 c') /\ key (tb_of c' tb) /\ P (set_ctx g1 c').

Lemma next_nonzero live J PL g : gen_ok live J PL g -> nb_tbs g < code_gen_max_blocks cfg -> (tb_addr cfg (nb_tbs g) =? 0) = false.
Proof.
  intros ok L; apply Z.eqb_neq; apply tb_addr_ptr; pose proof (io_count _ _ _ (go_order _ _ _ _ ok)); lia.
Qed.

Lemma empty_loop busy rounds g pc cs_base flags cflags :
  gen_ok [] (fun _ => []) (fun _ => []) g -> nb_tbs g = 0 -> code_gen_ptr g = code_gen_buffer cfg -> guest_code pc flags ->
  exists g1, tb_alloc cfg g pc = (g1, tb_addr cfg 0) /\
    publishes busy (gen_loop cfg translate (S rounds) g1 (tb_addr cfg 0) pc cs_base flags cflags) (tb_addr cfg 0)
      [tb_addr cfg 0] (upd_fun (fun _ => []) (tb_addr cfg 0) []) (fun t => has_key t pc cs_base flags cflags)
      (fun g' => tb_flushed g' = tb_flushed g /\ tb_flush_count g' = tb_flush_count g).
Proof.
  intros ok N P [G Dc]; assert (L : nb_tbs g < code_gen_max_blocks cfg) by (destruct Cf as [_ [X _] _ _ _ _]; lia).
  assert (Et : tb_addr cfg 0 = tb_addr cfg (nb_tbs g)) by now rewrite N.
  destruct (attempt_cases g pc cs_base flags cflags L) as (g1 & Ea & X); rewrite Et; exists g1; split; [exact Ea|].
  cbn [gen_loop]; destruct (translate_fits pc cs_base flags cflags Dc) as [Ov Fi]; rewrite <- P in Ov, Fi.
  assert (Tk := translate_ok pc cs_base flags cflags (code_gen_ptr g) Dc).
  destruct (gen_attempt _ _ _ _ _ _ _ _) as [g'|g'].
  - exfalso; destruct X as (_ & _ & [X|X]); [congruence|].
    destruct (encode_rows_fits (code_gen_highwater cfg) _ (seed_row pc) _ eq_refl (tk_rows _ _ Tk) Fi) as (bytes & E).
    unfold encode_search in X; congruence.
  - destruct X as (At & _ & bytes & Es & Ed & Ec).
    destruct (finish_ok busy [] (fun _ => []) (fun _ => []) g g' pc cs_base flags cflags _ bytes ok L At Tk Ov Es Ed Ec G)
      as (PL' & c' & E & ok' & _ & K).
    exists g', PL', c'; splits; auto; apply (at_flushed _ _ _ _ _ _ _ _ At).
Qed.

Lemma full_loop busy rounds live J PL g pc cs_base flags cflags :
  gen_ok live J PL g -> nb_tbs g < code_gen_max_blocks cfg -> guest_code pc flags ->
  exists g1 tb live' J', tb_alloc cfg g pc = (g1, tb_addr cfg (nb_tbs g)) /\ In tb live' /\
    publishes busy (gen_loop cfg translate (S (S rounds)) g1 (tb_addr cfg (nb_tbs g)) pc cs_base flags cflags) tb
      live' J' (fun t => has_key t pc cs_base flags cflags) (fun g' => joins live J g g' tb live' J').
Proof.
  intros ok L G; assert (Dc := proj2 G); destruct (attempt_cases g pc cs_base flags cflags L) as (g1 & Ea & X); exists g1.
  assert (Tk := translate_ok pc cs_base flags cflags (code_gen_ptr g) Dc).
  unfold gen_loop; fold (gen_loop cfg translate (S rounds)); destruct (gen_attempt _ _ _ _ _ _ _ _) as [g'|g'].
  - destruct X as (At & Ep & _); destruct (at_ctx _ _ _ _ _ _ _ _ At) as (st & Es).
    destruct (flush_ok g') as (g2 & -> & ok2 & N2 & P2 & Fl & Fc & _).
    { rewrite Es; exact (cx_tab _ _ _ _ _ (go_ctx _ _ _ _ ok)). }
    { rewrite Ep; apply (io_ptr _ _ _ (go_order _ _ _ _ ok)). }
    destruct (empty_loop busy rounds g2 pc cs_base flags cflags ok2 N2 P2 G) as (g3 & Ea2 & g4 & PL' & c' & R & E & ok' & K & Fl' & Fc').
    rewrite Ea2, (proj2 (Z.eqb_neq _ 0)) by (apply tb_addr_ptr; destruct Cf as [_ [Y _] _ _ _ _]; lia).
    exists (tb_addr cfg 0), [tb_addr cfg 0], (upd_fun (fun _ => []) (tb_addr cfg 0) []); splits; [exact Ea|now left|].
    exists g4, PL', c'; splits; [exact R|exact E|exact ok'|exact K|right; splits; try reflexivity].
    + rewrite Fl', Fl, (proj1 (at_flushed _ _ _ _ _ _ _ _ At)); reflexivity.
    + rewrite Fc', Fc, (proj2 (at_flushed _ _ _ _ _ _ _ _ At)); reflexivity.
  - destruct X as (At & Ov & bytes & Es & Ed & Ec).
    destruct (finish_ok busy live J PL g g' pc cs_base flags cflags _ bytes ok L At Tk Ov Es Ed Ec (proj1 G)) as (PL' & c' & E & ok' & B & K).
    exists (tb_addr cfg (nb_tbs g)), (tb_addr cfg (nb_tbs g) :: live), (upd_fun J (tb_addr cfg (nb_tbs g)) []).
    splits; [exact Ea|now left|].
    exists g', PL', c'; splits; [reflexivity|exact E|exact ok'|exact K|left; splits; try reflexivity; auto].
    + now apply (next_not_live live J PL).
    + apply (at_flushed _ _ _ _ _ _ _ _ At).
    + apply (at_flushed _ _ _ _ _ _ _ _ At).
Qed.

(** The flags with which a block is translated. *)
Definition gen_cflags (cflags : Z) : Z :=
  if use_icount cfg && negb (truthy (cflags .& CF_IGNORE_ICOUNT)) then cflags .| CF_USE_ICOUNT else cflags.

Lemma gen_code_ok busy rounds live J PL g pc cs_base flags cflags :
  gen_ok live J PL g -> guest_code pc flags -> (2 <= rounds)%nat ->
  exists g' tb live' J' PL', tb_gen_code cfg translate busy rounds g pc cs_base flags cflags = Some (g', tb) /\
    gen_ok live' J' PL' g' /\ In tb live' /\ has_key (block_at g' tb) pc cs_base flags (gen_cflags cflags) /\
    joins live J g g' tb live' J'.
Proof.
  intros ok G R; destruct rounds as [|[|rounds]]; [lia|lia|]; unfold tb_gen_code; fold (gen_cflags cflags); cbv zeta.
  pose proof (io_count _ _ _ (go_order _ _ _ _ ok)).
  destruct (Z.lt_ge_cases (nb_tbs g) (code_gen_max_blocks cfg)) as [L|L].
  - destruct (full_loop busy rounds live J PL g pc cs_base flags (gen_cflags cflags) ok L G)
      as (g1 & tb & live' & J' & -> & I & g2 & PL' & c' & E & Ep & ok' & K & Jn).
    rewrite (next_nonzero live J PL g ok L), E, Ep; exists (set_ctx g2 c'), tb, live', J', PL'; now splits.
  - unfold tb_alloc at 1; rewrite Z.geb_leb, (proj2 (Z.leb_le _ _)) by lia.
    change (0 =? 0) with true; cbv iota.
    destruct (flush_ok g (cx_tab _ _ _ _ _ (go_ctx _ _ _ _ ok)) (proj1 (io_ptr _ _ _ (go_order _ _ _ _ ok))))
      as (g0 & -> & ok0 & N0 & P0 & Fl & Fc & _).
    destruct (empty_loop busy (S rounds) g0 pc cs_base flags (gen_cflags cflags) ok0 N0 P0 G)
      as (g1 & -> & g2 & PL' & c' & E & Ep & ok' & K & Fl' & Fc').
    rewrite (proj2 (Z.eqb_neq _ 0)) by (apply tb_addr_ptr; destruct Cf as [_ [Y _] _ _ _ _]; lia); rewrite E, Ep.
    exists (set_ctx g2 c'), (tb_addr cfg 0), [tb_addr cfg 0], (upd_fun (fun _ => []) (tb_addr cfg 0) []), PL'; splits; [reflexivity|exact ok'|now left|exact K|].
    right; splits; try reflexivity; [now rewrite Fl'|now rewrite Fc'].
Qed.

(** ** The block of a host address *)

Lemma find_pc_loop_ok live J PL g p : gen_ok live J PL g -> 0 < nb_tbs g -> code_gen_buffer cfg <= p ->
  forall k fuel m_min m_max, (k < fuel)%nat -> m_max - m_min + 1 < 2 ^ Z.of_nat k ->
  0 <= m_min -> m_min <= m_max + 1 -> m_max < nb_tbs g ->
  (forall i, 0 <= i < m_min -> tc_at g i <= p) -> (forall i, m_max < i < nb_tbs g -> p < tc_at g i) ->
  exists i, find_pc_loop cfg fuel g m_min m_max p = Some (tb_addr cfg i) /\ 0 <= i < nb_tbs g /\ tc_at g i <= p /\
    forall j, 0 <= j < nb_tbs g -> tc_at g j <= p -> j <= i.
Proof.
  intros ok N0 Pb; destruct (go_order _ _ _ _ ok) as [_ _ _ F S _ _ _]; specialize (F N0).
  induction k as [|k IH]; intros [|fuel] lo hi L Sz L0 Lh Ln Below Above; try lia; cbn [find_pc_loop].
  - change (2 ^ Z.of_nat 0) with 1 in Sz; rewrite (proj2 (Z.leb_gt _ _)) by lia; exists hi.
    assert (hi <> -1) by (intros E; specialize (Above 0); rewrite F in Above; lia).
    splits; auto; try lia; [apply Below; lia|]; intros j Hj Lj; destruct (Z.le_gt_cases j hi); [lia|].
    specialize (Above j); lia.
  - destruct (Z.leb_spec lo hi) as [Le|Gt].
    + set (m := (lo + hi) .>> 1); assert (Hm : lo <= m <= hi /\ hi - m <= (hi - lo + 1) / 2 /\ m - lo <= (hi - lo + 1) / 2).
      { unfold m; rewrite Z.shiftr_div_pow2 by lia; change (2 ^ 1) with 2; pose proof (Z.div_mod (lo + hi) 2).
        pose proof (Z.mod_pos_bound (lo + hi) 2); pose proof (Z.div_mod (hi - lo + 1) 2); pose proof (Z.mod_pos_bound (hi - lo + 1) 2); lia. }
      assert (Hp : (hi - lo + 1) / 2 < 2 ^ Z.of_nat k).
      { apply Z.div_lt_upper_bound; [lia|]; rewrite Nat2Z.inj_succ, Z.pow_succ_r in Sz; lia. }
      fold (tc_at g m); destruct (Z.eqb_spec (tc_at g m) p) as [E|E]; [|destruct (Z.ltb_spec p (tc_at g m)) as [Lt|Ge]].
      * exists m; splits; auto; try lia; intros j Hj Lj; destruct (Z.le_gt_cases j m); [lia|].
        assert (X := S m j); lia.
      * apply IH; try lia; intros i Hi; [apply Below; lia|]; destruct (Z.eq_dec i m) as [->|]; [exact Lt|].
        destruct (Z.lt_ge_cases i m); [lia|]; assert (X := S m i); lia.
      * apply IH; try lia; intros i Hi; [|apply Above; lia]; destruct (Z.eq_dec i m) as [->|]; [lia|].
        assert (X := S i m); lia.
    + assert (hi <> -1) by (intros E; specialize (Above 0); rewrite F in Above; lia).
      exists hi; splits; auto; try lia; [apply Below; lia|]; intros j Hj Lj; destruct (Z.le_gt_cases j hi); [lia|].
      specialize (Above j); lia.
Qed.

(** 33 rounds are enough for 2^32 blocks. *)
Lemma find_pc_ok live J PL g p fuel :
  gen_ok live J PL g -> (33 <= fuel)%nat ->
  (nb_tbs g = 0 \/ p < code_gen_buffer cfg \/ code_gen_ptr g <= p -> tb_find_pc cfg fuel g p = Some 0) /\
  (0 < nb_tbs g -> code_gen_buffer cfg <= p < code_gen_ptr g ->
   exists i, tb_find_pc cfg fuel g p = Some (tb_addr cfg i) /\ 0 <= i < nb_tbs g /\ tc_at g i <= p /\
     forall j, 0 <= j < nb_tbs g -> tc_at g j <= p -> j <= i).
Proof.
  intros ok Fu; pose proof (io_count _ _ _ (go_order _ _ _ _ ok)) as C.
  assert (B : code_gen_max_blocks cfg < 2 ^ 32) by (destruct Cf as [[_ X] [_ Y] _ _ _ _]; unfold sizeof_TB in Y; lia).
  unfold tb_find_pc; split.
  - intros X; destruct (Z.leb_spec (nb_tbs g) 0); [reflexivity|].
    destruct (Z.ltb_spec p (code_gen_buffer cfg)), (Z.leb_spec (code_gen_ptr g) p); try reflexivity; lia.
  - intros N P; rewrite (proj2 (Z.leb_gt _ _)), (proj2 (Z.ltb_ge p _)), (proj2 (Z.leb_gt _ p)) by lia; cbn [orb].
    apply (find_pc_loop_ok live J PL g p ok N (proj1 P) 32); try lia; intros i Hi; lia.
Qed.

(** ** Taking blocks out *)

Lemma gen_set_ctx live J PL g live' J' PL' c' :
  gen_ok live J PL g -> ctx_ok (code_gen_buffer cfg) live' J' PL' c' -> incl live' live ->
  (forall a, same_code (block_at g a) (tb_of c' a)) -> gen_ok live' J' PL' (set_ctx g c').
Proof.
  intros ok ok' I S; constructor; [exact ok'|apply order_code; [exact S|apply ok]| |].
  - intros a L; apply (go_live _ _ _ _ ok), I, L.
  - intros i n Hi L X; destruct (jumps_code (store (ctx g)) (store c') (tb_addr cfg i) (S _) n) as [E Xj].
    cbn [ctx set_ctx] in *; rewrite E; apply Xj in X; assert (Y := go_jumps _ _ _ _ ok i n Hi (I _ L) X).
    unfold code_end in *; change (nb_tbs (set_ctx g c')) with (nb_tbs g); destruct (i + 1 <? nb_tbs g); [|exact Y].
    unfold tc_at; destruct (S (tb_addr cfg (i + 1))) as (_ & Et & _).
    change (block_at (set_ctx g c') (tb_addr cfg (i + 1))) with (tb_of c' (tb_addr cfg (i + 1))); rewrite Et; exact Y.
Qed.

Lemma free_ok live J PL g tb : gen_ok live J PL g -> ~ In tb live -> gen_ok live J PL (tb_free cfg g tb).
Proof.
  intros ok N; unfold tb_free; destruct (Z.ltb_spec 0 (nb_tbs g)) as [L|L]; [|exact ok]; cbn [andb].
  destruct (Z.eqb_spec tb (tb_addr cfg (nb_tbs g - 1))) as [->|]; [|exact ok].
  destruct (go_order _ _ _ _ ok) as [Ic [Ip Im] Ie If Is Ib Ia Ih].
  assert (F0 : code_gen_buffer cfg <= tc_at g (nb_tbs g - 1)).
  { rewrite <- If by lia; destruct (Z.eq_dec 0 (nb_tbs g - 1)) as [<-|]; [lia|]; assert (X := Is 0 (nb_tbs g - 1)); lia. }
  assert (Bl := Ib (nb_tbs g - 1)); constructor; [apply ok| | |]; cbn [nb_tbs code_gen_ptr set_nb set_code_ptr].
  - constructor; cbn [nb_tbs code_gen_ptr set_nb set_code_ptr]; try lia.
    + split; [fold (tc_at g (nb_tbs g - 1)); lia|apply Ia; lia].
    + intros E; rewrite E; apply If; lia.
    + intros _; apply If; lia.
    + intros i j Hi Hij Hj; apply Is; lia.
    + intros i Hi; apply Is; lia.
    + intros i Hi; apply Ia; lia.
    + intros i Hi; apply Ih; lia.
  - intros a La; destruct (go_live _ _ _ _ ok a La) as (i & Hi & ->); exists i; split; [|reflexivity].
    assert (i <> nb_tbs g - 1) by (intros ->; contradiction); lia.
  - intros i n Hi La X; assert (Y := go_jumps _ _ _ _ ok i n ltac:(lia) La X); unfold code_end in *.
    cbn [nb_tbs code_gen_ptr set_nb set_code_ptr] in *; rewrite (proj2 (Z.ltb_lt (i + 1) (nb_tbs g))) in Y by lia.
    destruct (Z.ltb_spec (i + 1) (nb_tbs g - 1)); [exact Y|]; replace (nb_tbs g - 1) with (i + 1) by lia; exact Y.
Qed.

Lemma gen_invalidate_ok fuel live J PL g tb :
  gen_ok live J PL g -> In tb live -> (ring_fuel live <= fuel)%nat ->
  exists c', tb_phys_invalidate fuel (ctx g) tb no_page = Some c' /\
    gen_ok (others tb live) (without tb J) (without tb PL) (set_ctx g c').
Proof.
  intros ok L Fu; destruct (invalidate_ok fuel _ live J PL (ctx g) tb (go_ctx _ _ _ _ ok) L Fu) as (c' & E & [ok' B _]).
  exists c'; split; [exact E|]; apply (gen_set_ctx live J PL g); auto; [|intros a; apply block_code, B].
  intros a I; now apply in_others in I.
Qed.

(** ** Restoring the guest state *)

(** Host address [p] lies in the code of block [i]. *)
Definition in_code (g : gen_state T) (i p : Z) : Prop :=
  0 <= i < nb_tbs g /\ tc_at g i <= p < code_gen_ptr g /\ forall j, 0 <= j < nb_tbs g -> tc_at g j <= p -> j <= i.

Lemma in_code_unique g i j p : in_code g i p -> in_code g j p -> i = j.
Proof. intros (Hi & [Li _] & Mi) (Hj & [Lj _] & Mj); specialize (Mi j Hj Lj); specialize (Mj i Hi Li); lia. Qed.

Lemma restore_from_block live J PL g env ic i p rows block k row :
  gen_ok live J PL g -> in_code g i p -> Forall row_wf rows ->
  let t := block_at g (tb_addr cfg i) in
  encode_search (code_gen_highwater cfg) block (tb_pc t) rows = Some (search_data g (tb_addr cfg i)) ->
  tb_icount t = Z.of_nat (length rows) -> row_at (tc_ptr t) p rows k row ->
  cpu_restore_state_from_tb env ic (tb_pc t) (tc_ptr t) (tb_cflags t) (Z.to_nat (tb_icount t)) (search_data g (tb_addr cfg i)) p =
  Some (let (env, syndrome) := restore_state_to_opc env (gen_insn_data row) in
        Restored env syndrome (icount_at ic (tb_cflags t) (length rows) k)).
Proof.
  intros ok (Hi & Hp & _) F t E Ec R; rewrite Ec, Nat2Z.id, <- (app_nil_r (search_data g (tb_addr cfg i))).
  destruct (io_ptr _ _ _ (go_order _ _ _ _ ok)) as [Ip _]; destruct (go_order _ _ _ _ ok) as [_ _ _ If Is _ _ _].
  destruct Cf as [_ _ [_ Cb] [Cs Cs'] _ _].
  assert (Lo : code_gen_buffer cfg <= tc_at g i).
  { rewrite <- If by lia; destruct (Z.eq_dec 0 i) as [<-|]; [lia|]; assert (X := Is 0 i); lia. }
  apply (restore_exact (code_gen_highwater cfg) block (tb_pc t) rows); auto; [|fold (tc_at g i) in *; unfold tc_at in *; fold t in Hp; lia].
  unfold tc_at in Lo, Hp; fold t in Lo, Hp; lia.
Qed.

Lemma restore_state_ok live J PL g env ic p fuel ring :
  gen_ok live J PL g -> (33 <= fuel)%nat -> (ring_fuel live <= ring)%nat ->
  ((forall i, ~ in_code g i p) -> cpu_restore_state cfg fuel ring g env ic p = Some (g, None)) /\
  (forall i rows block k row, in_code g i p -> Forall row_wf rows ->
    let tb := tb_addr cfg i in let t := block_at g tb in
    encode_search (code_gen_highwater cfg) block (tb_pc t) rows = Some (search_data g tb) ->
    tb_icount t = Z.of_nat (length rows) -> row_at (tc_ptr t) p rows k row ->
    let r := let (env, syndrome) := restore_state_to_opc env (gen_insn_data row) in
             Restored env syndrome (icount_at ic (tb_cflags t) (length rows) k) in
    (tb_cflags t .& CF_NOCACHE = 0 -> cpu_restore_state cfg fuel ring g env ic p = Some (g, Some r)) /\
    (tb_cflags t .& CF_NOCACHE <> 0 -> In tb live ->
     exists g', cpu_restore_state cfg fuel ring g env ic p = Some (g', Some r) /\
       gen_ok (others tb live) (without tb J) (without tb PL) g')).
Proof.
  intros ok Fu Ri; destruct (find_pc_ok live J PL g p fuel ok Fu) as [Out In_]; pose proof (io_count _ _ _ (go_order _ _ _ _ ok)) as Ic.
  split.
  - intros N; unfold cpu_restore_state; destruct (Z.eq_dec (nb_tbs g) 0) as [E|E]; [rewrite Out by (now left); reflexivity|].
    destruct (Z.lt_ge_cases p (code_gen_buffer cfg)); [rewrite Out by (right; now left); reflexivity|].
    destruct (Z.le_gt_cases (code_gen_ptr g) p); [rewrite Out by (right; now right); reflexivity|].
    destruct In_ as (i & _ & Hi & Lp & M); [lia|lia|]; exfalso; apply (N i); split; [exact Hi|split; [lia|exact M]].
  - intros i rows block k row Hc F tb t E Ec R r.
    assert (Lo : code_gen_buffer cfg <= p).
    { destruct (go_order _ _ _ _ ok) as [_ _ _ If Is _ _ _], Hc as (Hi & [Lp _] & _); rewrite <- If by lia.
      destruct (Z.eq_dec 0 i) as [<-|]; [lia|]; assert (X := Is 0 i); lia. }
    unfold cpu_restore_state; destruct In_ as (i' & -> & Hi' & Lp & M); [destruct Hc; lia|destruct Hc as (_ & ? & _); lia|].
    assert (i' = i) as ->.
    { apply (in_code_unique g i' i p); [|exact Hc]; split; [exact Hi'|split; [destruct Hc as (_ & ? & _); lia|exact M]]. }
    fold tb; rewrite (proj2 (Z.eqb_neq tb 0)) by (apply tb_addr_ptr; lia); fold t; cbv zeta.
    assert (Rs := restore_from_block live J PL g env ic i p rows block k row ok Hc F E Ec R); cbv zeta in Rs; fold tb in Rs; fold t in Rs.
    rewrite Rs; fold r; unfold truthy; split.
    + intros ->; reflexivity.
    + intros N L; rewrite (proj2 (Z.eqb_neq _ 0) N); cbn [negb].
      destruct (gen_invalidate_ok ring live J PL g tb ok L Ri) as (c' & -> & ok').
      eexists; split; [reflexivity|]; apply free_ok; [exact ok'|]; rewrite in_others; tauto.
Qed.

(** C13: a request for a block at a guest address that the translator decodes (below
    0xffff0000 and a host page and 4096 bytes below the top, AArch32, no single step
    pending) is served: with two rounds tb_gen_code returns a block with the state asked
    for, also when the array of blocks or the code buffer is full; either the flush
    count is unchanged and the new block joins the others, which stay as they were, or
    there was exactly one flush, the count is one higher, all other blocks are gone and
    every CPU is told; the context is consistent again. *)
Theorem gen_code_serves busy rounds live J PL g pc cs_base flags cflags :
  gen_ok live J PL g -> guest_code pc flags -> (2 <= rounds)%nat ->
  exists g' tb live' J' PL', tb_gen_code cfg translate busy rounds g pc cs_base flags cflags = Some (g', tb) /\
    gen_ok live' J' PL' g' /\ In tb live' /\ has_key (block_at g' tb) pc cs_base flags (gen_cflags cflags) /\
    joins live J g g' tb live' J'.
Proof. apply gen_code_ok. Qed.

End Invariant.

(** From a host address cpu_restore_state finds by binary search the one block whose
    code contains it and restores the guest state of the instruction that the search
    data of this block give for the address; a block that must not be kept is then
    invalidated and freed; for an address outside all code nothing is changed and false
    is returned. *)
Theorem restore_state_exact {T : Type} `{HashTable T} (cfg : tcg_config) live J PL (g : gen_state T) env ic p fuel ring :
  config_ok cfg -> gen_ok cfg live J PL g -> (33 <= fuel)%nat -> (ring_fuel live <= ring)%nat ->
  ((forall i, ~ in_code cfg g i p) -> cpu_restore_state cfg fuel ring g env ic p = Some (g, None)) /\
  (forall i rows block k row, in_code cfg g i p -> Forall row_wf rows ->
    let tb := tb_addr cfg i in let t := block_at g tb in
    encode_search (code_gen_highwater cfg) block (tb_pc t) rows = Some (search_data g tb) ->
    tb_icount t = Z.of_nat (length rows) -> row_at (tc_ptr t) p rows k row ->
    let r := let (env, syndrome) := restore_state_to_opc env (gen_insn_data row) in
             Restored env syndrome (icount_at ic (tb_cflags t) (length rows) k) in
    (tb_cflags t .& CF_NOCACHE = 0 -> cpu_restore_state cfg fuel ring g env ic p = Some (g, Some r)) /\
    (tb_cflags t .& CF_NOCACHE <> 0 -> In tb live ->
     exists g', cpu_restore_state cfg fuel ring g env ic p = Some (g', Some r) /\
       gen_ok cfg (others tb live) (without tb J) (without tb PL) g')).
Proof. intros Cf; apply (restore_state_ok cfg Cf). Qed.

(** The state after [tcg_exec_init]. *)
Definition start_gen {T : Type} (cfg : tcg_config) (st : tb_store) (t : T) (cpus : list unit) : gen_state T :=
  mkGen (start_ctx st t (map (fun _ => (fun _ => 0) : Z -> Z) cpus)) 0 (code_gen_buffer cfg) (map (fun _ => false) cpus) 0 (fun _ => []).

Lemma start_gen_ok {T : Type} `{HashTable T} cfg st (t : T) cpus :
  config_ok cfg -> tab_ok t -> tab_entries t = [] -> gen_ok cfg [] (fun _ => []) (fun _ => []) (start_gen cfg st t cpus).
Proof.
  intros [_ [Cb _] [Cm Cp] [Cs Cs'] [Ch Ch'] _] W E; constructor.
  - apply start_ok; [exact W|exact E|]; intros cache i I; apply in_map_iff in I as (u & <- & _); reflexivity.
  - constructor; cbn [nb_tbs code_gen_ptr start_gen]; try lia.
  - intros a [].
  - intros i n _ [].
Qed.

(** A buffer of 8 kilobytes, two blocks, one instruction in each. *)
Definition demo_cfg : tcg_config := mkConfig 0x100000 2 0x200000 0x2000 0x201c00 4096 false.

Definition demo_translate (pc cs_base flags cflags ptr : Z) : translation :=
  mkTr 4 (4, 0xffff) (0, 0) [0xeaffffff; 0xe1a00000] (0x201c00 <? ptr + 8) [mkRow [u32 pc; 0; 0] 8].

Definition demo_gen : gen_state qht :=
  start_gen demo_cfg (mkStore (fun _ => mkTB 0 0 0 0 0 0 0 (0, 0) (0, 0) (0, 0) (0, 0) (0, 0) 0) (fun _ => 0))
    (qht_init CODE_GEN_HTABLE_SIZE QHT_MODE_AUTO_RESIZE) [tt].

Lemma demo_cfg_ok : config_ok demo_cfg.
Proof.
  constructor; cbn; unfold MAX_CODE_GEN_BUFFER_SIZE, sizeof_TB; try lia; exists 12; lia.
Qed.

Lemma demo_gen_ok : gen_ok demo_cfg [] (fun _ => []) (fun _ => []) demo_gen.
Proof.
  destruct (qht_init_ok CODE_GEN_HTABLE_SIZE QHT_MODE_AUTO_RESIZE) as [W E]; [unfold CODE_GEN_HTABLE_SIZE; cbn; lia|].
  exact (start_gen_ok demo_cfg _ _ [tt] demo_cfg_ok W E).
Qed.

Lemma demo_translate_ok pc cs_base flags cflags ptr : decodes pc flags -> translation_ok demo_cfg ptr (demo_translate pc cs_base flags cflags ptr).
Proof.
  intros _; constructor; cbn -[u32]; try lia.
  - repeat constructor; cbn -[u32]; unfold inU; try lia; apply wrap_range; lia.
  - repeat constructor; unfold inU; lia.
  - intros X; apply Z.ltb_ge in X; split; [discriminate|lia].
  - intros _ n [-> | ->]; unfold TB_JMP_RESET_OFFSET_INVALID; cbn; intros X; [|congruence]; split; [exists 0%nat|exists 1%nat]; split; lia || reflexivity.
  - unfold TB_JMP_RESET_OFFSET_INVALID; cbn; congruence.
Qed.

Lemma gen_code_serves_witness :
  exists g' tb live' J' PL', tb_gen_code demo_cfg demo_translate false 2 demo_gen 0x8000 0 0 0 = Some (g', tb) /\
    gen_ok demo_cfg live' J' PL' g' /\ In tb live' /\ has_key (block_at g' tb) 0x8000 0 0 0.
Proof.
  destruct (gen_code_serves demo_cfg demo_cfg_ok demo_translate demo_translate_ok ltac:(intros; split; [reflexivity|cbn; lia])
    false 2 [] (fun _ => []) (fun _ => []) demo_gen 0x8000 0 0 0) as (g' & tb & live' & J' & PL' & E & ok & L & K & _).
  - exact demo_gen_ok.
  - split; [unfold guest_pc; cbn; lia|]; split; [lia|split; [reflexivity|left; reflexivity]].
  - lia.
  - exists g', tb, live', J', PL'; exact (conj E (conj ok (conj L K))).
Defined.

(** The first block has been generated; the host address of its second word is looked up. *)
Definition demo_gen1 : gen_state qht :=
  match tb_gen_code demo_cfg demo_translate false 2 demo_gen 0x8000 0 0 0 with Some (g, _) => g | None => demo_gen end.

Lemma demo_gen1_ok : exists live J PL, gen_ok demo_cfg live J PL demo_gen1 /\ (length live <= 1)%nat.
Proof.
  destruct (gen_code_ok demo_cfg demo_cfg_ok demo_translate demo_translate_ok ltac:(intros; split; [reflexivity|cbn; lia])
    false 2 [] (fun _ => []) (fun _ => []) demo_gen 0x8000 0 0 0 demo_gen_ok) as (g' & tb & live' & J' & PL' & E & ok & _ & _ & Jn).
  - split; [unfold guest_pc; cbn; lia|]; split; [lia|split; [reflexivity|left; reflexivity]].
  - lia.
  - exists live', J', PL'; unfold demo_gen1; rewrite E; split; [exact ok|].
    destruct Jn as [(-> & _)|(-> & _)]; cbn; lia.
Qed.

Lemma restore_state_exact_witness :
  cpu_restore_state demo_cfg 33 4 demo_gen1 user_cpu (mkIcount 0 true) 0x200004 =
  Some (demo_gen1, Some (Restored (fst (restore_state_to_opc user_cpu [0x8000; 0; 0])) 0 (mkIcount 0 true))).
Proof.
  destruct demo_gen1_ok as (live & J & PL & ok & L).
  destruct (restore_state_exact demo_cfg live J PL demo_gen1 user_cpu (mkIcount 0 true) 0x200004 33 4) as [_ A].
  - exact demo_cfg_ok.
  - exact ok.
  - lia.
  - unfold ring_fuel; lia.
  - destruct (A 0 [mkRow [0x8000; 0; 0] 8] 0x200008 0%nat (mkRow [0x8000; 0; 0] 8)) as [B _].
    + assert (N : nb_tbs demo_gen1 = 1) by (vm_compute; reflexivity).
      assert (P : code_gen_ptr demo_gen1 = 0x200010) by (vm_compute; reflexivity).
      assert (C : tc_at demo_cfg demo_gen1 0 = 0x200000) by (vm_compute; reflexivity).
      unfold in_code; rewrite N, P, C; split; [lia|split; [lia|]]; intros; lia.
    + repeat constructor; unfold inU; cbn; lia.
    + vm_compute; reflexivity.
    + vm_compute; reflexivity.
    + split; [reflexivity|split; [vm_compute; reflexivity|]]; intros j row X; lia.
    + rewrite B; [reflexivity|vm_compute; reflexivity].
Defined.
