(* ===== verification/TbFind.v ===== *)
(** * Finding translation blocks (tcg-arm/cpu-exec.c)

    The block for the state of a CPU is looked up in the cache of the CPU,
    then in the hash table, and generated when there is none.  The jump that
    led here is then linked to it, so that the next time it leads there
    directly.  In [tb_find_slow] the lock is given up for a moment between the
    two lookups; here nothing happens in between. *)

From Stdlib Require Import ZArith Lia List Bool.
From S2P Require Import Prelude Bitops Cpu Psr TbFlags SearchData Qht TbChain TbPages TbLink TbGen.
Import ListNotations.
Local Open Scope Z_scope.
Local Open Scope c_scope.

Record tb_desc := mkDesc { d_pc : Z; d_cs_base : Z; d_phys_page1 : Z; d_flags : Z }.

Section Find.
Context {T : Type} `{HashTable T}.
Variable cfg : tcg_config.

Definition tb_cmp (g : gen_state T) (desc : tb_desc) (p : Z) : bool :=
  let tb := block_at g p in
  if (tb_pc tb =? d_pc desc) && (sel2 (page_addr tb) 0 =? d_phys_page1 desc)
     && (tb_cs_base tb =? d_cs_base desc) && (tb_flags tb =? d_flags desc)
  then
    if sel2 (page_addr tb) 1 =? no_page then true
    else
      let virt_page2 := u32 ((d_pc desc .& TARGET_PAGE_MASK) + TARGET_PAGE_SIZE) in
      let phys_page2 := get_page_addr_code virt_page2 in
      sel2 (page_addr tb) 1 =? phys_page2
  else false.

Definition tb_find_physical (g : gen_state T) (pc cs_base flags : Z) : Z :=
  let phys_pc := get_page_addr_code pc in
  let desc := mkDesc pc cs_base (phys_pc .& TARGET_PAGE_MASK) flags in
  let h := tb_hash_func phys_pc pc flags in
  tab_lookup (htable (ctx g)) (tb_cmp g desc) h.

(** [cpu->tb_jmp_cache] of the CPU number [cpu]. *)
Definition jmp_cache (g : gen_state T) (cpu : nat) : Z -> Z := nth cpu (jmp_caches (ctx g)) (fun _ => 0).


Variable translate : Z -> Z -> Z -> Z -> Z -> translation.


(** The block in the cache is for another state. *)
Definition cache_miss (g : gen_state T) (tb pc cs_base flags : Z) : bool :=
  (tb =? 0) || negb (tb_pc (block_at g tb) =? pc) || negb (tb_cs_base (block_at g tb) =? cs_base)
  || negb (tb_flags (block_at g tb) =? flags).


(** 0 is NULL. *)
Definition tb_from_cache (g : gen_state T) (cpu : nat) (env : CPUARMState) : Z :=
  let '(pc, cs_base, flags) := cpu_get_tb_cpu_state env in
  let tb := tb_find_physical g pc cs_base flags in
  if negb (tb =? 0) then tb
  else
    let tb := jmp_cache g cpu (tb_jmp_cache_hash_func pc) in
    if cache_miss g tb pc cs_base flags then 0 else tb.

End Find.

Section Proofs.
Context {T : Type} `{HashTable T}.
Variable cfg : tcg_config.
Hypothesis Cf : config_ok cfg.
Implicit Types g : gen_state T.

#[local] Opaque tb_hash_func tb_jmp_cache_hash_func.

(** ** The hash table *)

(** The block is a translation for this state. *)
Definition block_for (t : TranslationBlock) (pc cs_base flags : Z) : Prop :=
  tb_pc t = pc /\ tb_cs_base t = cs_base /\ tb_flags t = flags.

Lemma cmp_ok g pc cs_base flags p :
  block_wf (block_at g p) -> inU 32 pc ->
  tb_cmp g (mkDesc pc cs_base (get_page_addr_code pc .& TARGET_PAGE_MASK) flags) p = true <->
  block_for (block_at g p) pc cs_base flags.
Proof.
  intros [P S E A B] Hp; unfold tb_cmp, block_for; cbv zeta; cbn [d_pc d_cs_base d_phys_page1 d_flags].
  unfold get_page_addr_code; rewrite page_mask_mod by assumption; change TARGET_PAGE_SIZE with 4096.
  destruct (Z.eqb_spec (tb_pc (block_at g p)) pc) as [<-|N]; cbn [andb]; [|split; [discriminate|tauto]].
  rewrite A, Z.eqb_refl; cbn [andb].
  destruct (Z.eqb_spec (tb_cs_base (block_at g p)) cs_base) as [<-|N]; cbn [andb]; [|split; [discriminate|tauto]].
  destruct (Z.eqb_spec (tb_flags (block_at g p)) flags) as [<-|N]; [|split; [discriminate|tauto]].
  rewrite B; destruct (Z.leb_spec (tb_pc (block_at g p) mod 4096 + tb_size (block_at g p)) 4096) as [L|L]; [rewrite Z.eqb_refl; tauto|].
  rewrite (wrap_id 32) by (unfold inU; pose proof (Z.mod_pos_bound (tb_pc (block_at g p)) 4096); lia).
  rewrite Z.eqb_refl; destruct (_ =? no_page); tauto.
Qed.

Lemma find_physical_ok live J PL g pc cs_base flags :
  gen_ok cfg live J PL g -> inU 32 pc ->
  let tb := tb_find_physical g pc cs_base flags in
  (tb = 0 /\ forall a, In a live -> ~ block_for (block_at g a) pc cs_base flags) \/
  (tb <> 0 /\ In tb live /\ block_for (block_at g tb) pc cs_base flags).
Proof.
  intros ok Hp; unfold tb_find_physical; cbv zeta; assert (Cx := go_ctx _ _ _ _ _ ok).
  set (f := tb_cmp g _); set (h := tb_hash_func _ _ _).
  assert (W : forall a, In a live -> block_wf (block_at g a)) by (intros a L; apply (po_block _ _ _ (cx_pages _ _ _ _ _ Cx) a L)).
  destruct (tab_lookup_ok (htable (ctx g)) f h (cx_tab _ _ _ _ _ Cx)) as [[Z0 N]|(N & I & F)].
  - left; split; [exact Z0|]; intros a L B; assert (F := proj2 (cmp_ok g pc cs_base flags a (W a L) Hp) B); fold f in F.
    rewrite N in F; [discriminate|]; apply (cx_entries _ _ _ _ _ Cx); split; [exact L|].
    destruct (W a L) as [P S E A _]; unfold tb_hash; change (tb_of (ctx g) a) with (block_at g a).
    rewrite A, page_offset; destruct B as (-> & _ & ->); unfold h, get_page_addr_code; f_equal.
    replace (pc - pc mod 4096 + pc mod 4096) with pc by lia; symmetry; now apply wrap_id.
  - right; split; [exact N|]; apply (cx_entries _ _ _ _ _ Cx) in I as [L _]; split; [exact L|].
    now apply (cmp_ok g pc cs_base flags _ (W _ L) Hp).
Qed.

(** ** The caches *)



Lemma cache_hit_ok live J PL g cpu pc cs_base flags :
  gen_ok cfg live J PL g -> let tb := jmp_cache g cpu (tb_jmp_cache_hash_func pc) in
  cache_miss g tb pc cs_base flags = false -> In tb live /\ block_for (block_at g tb) pc cs_base flags.
Proof.
  intros ok tb; unfold cache_miss; rewrite !orb_false_iff, !negb_false_iff, !Z.eqb_eq, Z.eqb_neq; intros (((N & A) & B) & C).
  split; [|now splits]; unfold tb, jmp_cache in *.
  destruct (nth_in_or_default cpu (jmp_caches (ctx g)) (fun _ => 0)) as [Y|Y]; [|now rewrite Y in N].
  now apply (cx_cache _ _ _ _ _ (go_ctx _ _ _ _ _ ok) _ _ Y).
Qed.

(** ** Linking *)




(** ** Finding a block *)

Variable translate : Z -> Z -> Z -> Z -> Z -> translation.
Hypothesis translate_ok : forall pc cs_base flags cflags ptr,
  decodes pc flags -> translation_ok cfg ptr (translate pc cs_base flags cflags ptr).
Hypothesis translate_fits : forall pc cs_base flags cflags, decodes pc flags ->
  let tr := translate pc cs_base flags cflags (code_gen_buffer cfg) in
  tr_overflow tr = false /\
  code_gen_buffer cfg + 4 * Z.of_nat (length (tr_code tr)) + 20 * Z.of_nat (length (tr_rows tr)) <= code_gen_highwater cfg.













Lemma from_cache_ok live J PL g cpu env :
  let '(pc, cs_base, flags) := cpu_get_tb_cpu_state env in
  gen_ok cfg live J PL g -> inU 32 pc ->
  let tb := tb_from_cache g cpu env in
  (tb = 0 /\ forall a, In a live -> ~ block_for (block_at g a) pc cs_base flags) \/
  (tb <> 0 /\ In tb live /\ block_for (block_at g tb) pc cs_base flags).
Proof.
  destruct (cpu_get_tb_cpu_state env) as [[pc cs_base] flags] eqn:Es; intros ok Hp; unfold tb_from_cache; rewrite Es; cbv zeta.
  destruct (find_physical_ok live J PL g pc cs_base flags ok Hp) as [(-> & No)|(N & L & B)].
  - change (negb (0 =? 0)) with false; cbv iota; destruct (cache_miss g _ pc cs_base flags) eqn:M; [left; now split|].
    destruct (cache_hit_ok live J PL g cpu pc cs_base flags ok M) as [L B]; now destruct (No _ L).
  - rewrite (proj2 (Z.eqb_neq _ 0) N); cbn [negb]; right; now splits.
Qed.


End Proofs.

(** Tb_from_cache returns a block in use that was translated for the state of the CPU,
    or NULL exactly when there is none. *)
Theorem from_cache_exact {T : Type} `{HashTable T} cfg live J PL (g : gen_state T) cpu env :
  let '(pc, cs_base, flags) := cpu_get_tb_cpu_state env in
  gen_ok cfg live J PL g -> inU 32 pc ->
  let tb := tb_from_cache g cpu env in
  (tb = 0 /\ forall a, In a live -> ~ block_for (block_at g a) pc cs_base flags) \/
  (tb <> 0 /\ In tb live /\ block_for (block_at g tb) pc cs_base flags).
Proof. apply from_cache_ok. Qed.


(** In an empty context there is no block. *)
Lemma from_cache_exact_witness :
  tb_from_cache demo_gen 0 user_cpu = 0.
Proof.
  assert (A := from_cache_exact demo_cfg [] (fun _ => []) (fun _ => []) demo_gen 0 user_cpu).
  destruct (cpu_get_tb_cpu_state user_cpu) as [[pc cs_base] flags] eqn:E; vm_compute in E; injection E as <- <- <-.
  destruct A as [[A _]|(_ & A & _)]; [exact demo_gen_ok|unfold inU; lia|exact A|destruct A].
Defined.
